(* ===== verification/_CoqProject ===== *)
-Q . S2P
Prelude.v
Bytes.v
Float.v
Types.v
Blob.v
Extract.v
ExtractRuns.v
ExtractWire.v
Mp4.v
Mp4Times.v
Str.v
GapFill.v
GapFillSpec.v
Calc.v
Grouper.v
GrouperSpec.v
Summon.v
SummonSpec.v
Space.v
SpaceSpec.v
Snapshot.v
SnapshotSpec.v
Reflink.v
ReflinkSpec.v
AtomicFile.v
AtomicFileSpec.v
Config.v
ConfigSpec.v
PushRetry.v
PushRetrySpec.v
StatusLed.v
TtlCache.v
TtlCacheSpec.v
KeepAccessory.v
KeepAccessorySpec.v
RadioLock.v
RadioLockSpec.v
BleWire.v
BleWireSpec.v
BleSession.v
BleSessionSpec.v
Json.v
ScopedTags.v
ScopedTagsSpec.v
Charging.v
ChargeList.v
ChargingSpec.v
ChargeListSpec.v
CloudCrypto.v
CloudCryptoSpec.v
MutableQueue.v
MutableQueueSpec.v
CloudMerge.v
CloudMergeSpec.v
RateIntent.v
RateIntentSpec.v
PrefsJournal.v
PrefsJournalSpec.v
Safety.v
SafetySpec.v
Aggregate.v
AggregateSpec.v
Summary.v
DriveStats.v
SummarySpec.v
DriveStatsSpec.v
DriveIndex.v
DriveIndexSpec.v
QueueClock.v
Effects.v
ChargePush.v
ChargePushLogic.v
ChargePushSpec.v
IncomingQueue.v
IncomingPull.v
IncomingSpec.v
IncomingFair.v
IncomingDemo.v
