(* ===== verification/Prelude.v ===== *)
(** * Sentry USB: a verification development

    Sentry USB turns a Raspberry Pi into the USB drive a Tesla records its
    dashcam clips to. The Rust workspace under [src/crates] has four parts that
    meet in this order:

    - the storage side ([usb_gadget]) presents a disk image to the car, takes
      copy-on-write snapshots of it and frees space by releasing old ones;
    - the drives side ([drives]) extracts the metadata the car embeds in each
      clip, stores it in SQLite as binary columns, fills recording holes with
      event clips and groups the clips into drives with their statistics;
    - the link side ([tesla_ble], [tesla_telemetry], [ble_health]) talks to the
      car over Bluetooth;
    - the server side ([api], [setup], [config], [notify], [status_led],
      [cloud_uploader], ...) serves the web interface, keeps the configuration
      file, sends notifications and drives the status light.

    The development models the algorithms of the first two sides, the session
    and policies of the third and the stateful services of the last that decide
    something, and proves what makes them correct. Every operation is executable;
    fallible code returns [result] or [option], integers are [Z] with the
    wrap-around of a release build written out, and floats are bit patterns with
    IEEE 754 arithmetic.

    ** Files and what they model

    - [Prelude] (this file), [Bytes], [Float], [Str], [Types]: machine integers,
      results, stable sorting, little- and big-endian bytes, [f64]/[f32], strings
      and numbers, and the route types of [drives/src/types.rs].
    - [Blob]: the binary columns of a route row ([drives/src/blob.rs]); one
      [Codec] instance per element layout, the loops shared.
    - [Extract], with [ExtractRuns] and [ExtractWire]: clip telemetry
      ([drives/src/extract.rs]): [find_mdat_box], the NAL scan of
      [extract_from_mdat], [parse_tesla_sei], [decode_sei_gps], and
      [assemble_extracted] with its run-length encoders and in-place
      deduplication.
    - [Mp4], with [Mp4Times]: sample tables ([drives/src/mp4_samples.rs]):
      the box walkers, [parse_moov], [parse_video_trak], [time_at_offset].
    - [GapFill], with [GapFillSpec]: which event clips enter the timeline, and
      clip spans for playback (the gap-fill part of [drives/src/grouper.rs]).
    - [Grouper] and [Calc], with [GrouperSpec]: [group_clips] on full routes, the
      overview planner [plan_overviews] on metadata, park gaps and frame
      clocks, time groups, Tessie hiding, downsampling; [drives/src/calc.rs].
    - [Summon], with [SummonSpec]: [detect_summon] and its run-length walks.
    - [Safety], with [SafetySpec]: the per-clip walk and the 0-100 score of
      [drives/src/safety.rs]; [Aggregate], with [AggregateSpec]: the scalars of a
      clip ([drives/src/aggregate.rs]).
    - [Summary], with [SummarySpec]: grouping rows that carry aggregates into the
      drives of the list, a clip cut at its park gaps; [DriveStats], with
      [DriveStatsSpec]: the numbers of one drive, with the state carried across
      clip seams (both [drives/src/grouper.rs]).
    - [DriveIndex], with [DriveIndexSpec]: resolving a drive by number or start
      time, and the cached index over interleaved reads and writers
      ([drives/src/grouper.rs], [drives/src/db.rs]).
    - [Space], with [SpaceSpec]: [usb_gadget/src/space.rs]. The system calls and
      the snapshot store are the class [SpaceEnv]; the store's promises are
      [SpaceEnvLaws], against which the manager is proved.
    - [Snapshot], with [SnapshotSpec]: the snapshot store of
      [usb_gadget/src/snapshot.rs]: slot picking, link ownership, the relink plan
      and the release of a snapshot on a map of directories and a link farm.
    - [Reflink], with [ReflinkSpec]: [usb_gadget/src/reflink.rs]: the sweep that
      predicts what deleting old snapshots frees, the validated extent walk and
      the size cache.
    - [Json]: JSON values and ordered sets as the sources use them.
    - [ScopedTags], with [ScopedTagsSpec]: [drives/src/scoped_tags.rs].
    - [Charging], with [ChargingSpec]: charge sessions
      ([drives/src/charging.rs]); [ChargeList], with [ChargeListSpec]: rate plans,
      costs and the cached session list ([api/src/charging.rs], the triggers of
      [drives/src/schema.rs]) as a step relation of writers, readers and stores.
    - [MutableQueue], with [MutableQueueSpec]: the queue of local edits for the
      cloud ([drives/src/{mutable_intent,rate_confirmation}.rs], the charge and
      rate operations of [drives/src/db.rs]); [CloudMerge] and [RateIntent], with
      their [Spec] files: merging queued edits into the document the cloud holds
      ([cloud_uploader/src/sync/merge_intent.rs], [drives/src/rate_intent.rs]).
    - [ChargePush], with [ChargePushLogic] and [ChargePushSpec]: the sweep that
      publishes queued charging edits
      ([cloud_uploader/src/sync/{conditional_charge,revision}.rs]) among local
      edits, pairing changes and other devices, with lost requests, lost answers
      and power cuts; [QueueClock]: how the queue moves over time; [Effects]: the
      monad of such tasks.
    - [IncomingQueue] and [IncomingPull], with [IncomingSpec], [IncomingFair] and
      the run of [IncomingDemo]: pulling changes of the cloud
      ([cloud_uploader/src/sync/{revision,incoming_retry,incoming_apply}.rs],
      [apply_change_page] of [sync.rs]): the walk over the revision feed and its
      resumption, the application of records, the retry queue.
    - [CloudCrypto], with [CloudCryptoSpec]: associated data, sealed frames, ids
      and key wraps ([cloud_crypto/src], [cloud_uploader/src/encrypt.rs]).
    - [AtomicFile], with [AtomicFileSpec]: files written by rename on a disk that
      can lose power ([api/src/preferences_file.rs],
      [cloud_crypto/src/credentials.rs]); [PrefsJournal], with [PrefsJournalSpec]:
      the journal that keeps that file and the queue in step
      ([api/src/preferences_journal.rs], [api/src/preferences.rs]).
    - [Config], with [ConfigSpec]: [config/src/lib.rs], with the save as system
      calls on the disk of [AtomicFile].
    - [PushRetry], with [PushRetrySpec]: [api/src/push_retry.rs], the queue and a
      step relation for dispatches and the background worker, one step per
      critical section.
    - [StatusLed]: [status_led/src/model.rs].
    - [TtlCache], with [TtlCacheSpec]: [api/src/ttl_cache.rs] as a step relation
      of readers, refreshers, clears and requests dropped while they wait.
    - [KeepAccessory], with [KeepAccessorySpec]: the accessory-power policy of
      [tesla_telemetry/src/keep_accessory.rs], one tick at a time.
    - [RadioLock], with [RadioLockSpec]: the lock file two processes share the
      radio by ([tesla_telemetry/src/lock.rs]), its reads and writes interleaved.
    - [BleWire], with [BleWireSpec]: framing, reassembly, correlation and the
      signed envelope ([tesla_ble/src/{transport,gatt,correlate,auth}.rs]).
    - [BleSession], with [BleSessionSpec]: the session task
      ([tesla_ble/src/{manager,session,body_controller}.rs]) on top of it, and the
      health record ([ble_health/src/lib.rs]).

    ** What the theorems show

    - Codecs and wire formats: round trips in both directions
      ([blob_roundtrip], [blob_bytes_preserved], [flag_runs_roundtrip],
      [grace_prefix_roundtrip], [strip_emulation_roundtrip],
      [varint_roundtrip], [children_roundtrip]).
    - Extraction: the runs expand to the raw frames ([assemble_covers_frames]),
      the in-place deduplication equals its functional reference
      ([dedup_consecutive_correct]), the scan returns aligned vectors
      ([scan_total]); sample times are the ones the tables define
      ([video_times_correct]).
    - Termination, and where it fails: the file-driven loops return within one
      turn per byte while sizes stay below 2^63 ([decode_sei_terminates],
      [find_mdat_terminates], [moov_search_terminates]); with a wrapping size each
      of them runs forever on a concrete file ([extraction_hangs],
      [find_mdat_hangs], [moov_search_hangs]).
    - Grouping: planning on metadata refines grouping full routes
      ([plan_overviews_refines]); park plans are in bounds and exact
      ([park_plan_sound]); time groups, gap fill and summon detection meet
      declarative specifications ([time_groups_spec], [gap_fill_admission],
      [gap_fill_sound], [gap_fill_complete], [interior_fill_spec],
      [clip_spans_spec], [detect_summon_sound], [flag_overlap_framewise]).
    - Drives list: the drives are disjoint windows that cover exactly the clips
      shown ([drive_windows_exact]); per clip, events and disengagements are
      counted as specified ([clip_safety_counts], [disengagements_judged]), per drive each is counted once
      ([drive_counts_once]); a cached lookup answers as a full regrouping of one
      committed state would ([cached_selection_linearizable]).
    - Space: protected footage is never released ([manage_keeps_protected]),
      success means the targets hold ([manage_ok_targets]), and futile releases
      are bounded ([stall_guard_bounds], [manage_no_needless_release],
      [optional_snapshot_safe]).
    - Snapshots: releasing one re-points every link to the best surviving copy
      ([release_repoints]), the interrupted clean-up deletes nothing complete
      ([store_cleanup_safe]), a slot is never picked over live footage
      ([slot_pick_safe]); the predicted reclaim is the number of bytes owned by
      the released prefix alone ([cumulative_reclaim_exact]), from extent maps
      that are read exactly or refused ([walk_file_exact]).
    - Charging: sessions are the unique split at gaps ([group_sessions_spec]), the
      detail view finds the session of the list ([charge_detail_agrees]), the cached
      list answers as a full rebuild ([charging_list_exact]), parsed rates are well
      formed ([rates_well_formed]).
    - Scoped tags: an edit is exact per frame ([apply_delta_framewise]) and leaves
      other drives alone ([scoped_edit_independent]); it can write a document that no
      longer parses ([edit_beyond_cap_unreadable]).
    - Configuration: saves are atomic and load back ([config_save_load]); which
      values survive ([unquote_quote_iff]); what a shell reads
      ([quote_shell_safe]).
    - Cloud edits: every operation keeps the queue consistent
      ([queue_consistent]), a confirmation keeps edits made since
      ([confirm_keeps_newer]); merges change the fields of the edit and nothing
      else ([merge_charge_exact], [rate_merge_exact]) and reach what a local edit
      gives ([local_edits_merge_back]); a slot opens exactly what was sealed for it
      ([open_iff_sealed], [aad_identifies_slot], [charge_upload_opens]).
    - Publishing charging edits, over every run: an edit reaches the cloud once
      ([edits_published_once]), a write is a merge into the document it replaces
      ([writes_are_merges]), and a sweep confirms only edits the cloud has
      ([released_when_published]). A Hoare logic over an invariant of the device
      and the cloud ([Live], [Good]) carries the proofs.
    - Pulling changes, over every run: each record up to the checkpoint is applied
      or kept for a retry ([no_change_lost]), a pull that succeeds leaves none
      behind ([pull_complete]), and however the attempts go, every
      kept record is offered again ([retry_offered]).
    - Crash safety: at every power cut a saved file is the old or the new one
      ([save_crash_safe]), and recovery finds file and queue in step
      ([edit_prefs_atomic], [confirm_atomic]).
    - Push retry, over all interleavings: [push_at_most_once],
      [push_worker_live], [push_retry_current].
    - Status light: [led_writing_honest].
    - Response cache: a reader that starts after a clear never sees older data
      ([get_sees_cleared_writes]).
    - Accessory power: a cut is justified ([power_cut_justified]), notifications
      are not repeated ([pushes_once]), the goal is reached
      ([power_reaches_goal]).
    - Radio lock: under every interleaving the file refines an abstract timed
      lock ([radio_lock_refines]), which is exclusive against calls that begin
      after it was taken ([radio_lock_exclusive]).
    - Vehicle link: answers survive any fragmentation and noise
      ([round_trip_delivers]), the signed metadata is unambiguous
      ([metadata_unambiguous]), an exchange opens on both ends
      ([signed_exchange_opens]); over every run of the session counters advance by
      one ([counters_never_reused]), requests end ([request_bounded]) and answers
      reach the caller ([signed_request_answered]); the forced-reconnect cooldown
      is unreachable ([cooldown_never_applies]).

    ** Bounds and fuel

    Loops whose index can wrap take fuel, [None] meaning "still running": the
    termination theorems give the file length plus one as enough, and the hang
    theorems hold for every amount of fuel. [children] uses the length of its
    buffer, which the round trip shows to be enough. Printing an integer uses 20
    digits, enough for 64 bits. The groups of [apply_groups] are halved within
    twice their number of records ([apply_groups_fuel]); [feed_loop] is bounded by
    a number of requests, over which its theorems quantify.

    ** Outside the model

    Trigonometric functions and [powf] ([libm]), chrono's parsers and formatters,
    the iteration order of hash maps, the output of [stat], the protobuf codec,
    ciphers, key derivation and base64 are parameters, with the laws the code
    relies on; file-system, radio and system-call outcomes are inputs. The cloud
    service is a class whose laws are its write protocol and the paging contract
    of its feed; a request without an answer takes effect before the device goes
    on, or never.

    ** Not modelled

    SQL beyond the charging, edit-queue and drive-index queries; HTTP handlers,
    shell commands, the Bluetooth adapter, process start-up, the web interface and
    the scripts, which are I/O around the parts above. Of [grouper.rs], the
    analytics pages and the point-level detail view, which repeat the summary walk on decoded
    points. The manifest lists every part with its reason. *)

From Stdlib Require Import ZArith Lia.
From stdpp Require Import base list sorting.

Open Scope Z_scope.

(** ** Machine integers

    A Rust integer of width [w] is a [Z]; where the source can leave the
    range, the wrap-around of a release build is written out. *)

Definition wrap (w z : Z) : Z := z mod 2 ^ w.

Definition u32 (z : Z) : Z := wrap 32 z.
Definition u64 (z : Z) : Z := wrap 64 z.

(** [as i32], [as i64]: reinterpret the low bits as two's complement. *)
Definition signed (w z : Z) : Z :=
  let r := wrap w z in if r <? 2 ^ (w - 1) then r else r - 2 ^ w.
Definition i32 (z : Z) : Z := signed 32 z.
Definition i64 (z : Z) : Z := signed 64 z.

Definition in_u (w z : Z) : Prop := 0 <= z < 2 ^ w.
Definition in_i (w z : Z) : Prop := - 2 ^ (w - 1) <= z < 2 ^ (w - 1).

Definition is_byte (b : Z) : Prop := 0 <= b < 256.

(** [saturating_add]/[saturating_sub]/[saturating_mul] on [u64]. *)
Definition U64_MAX : Z := 2 ^ 64 - 1.
Definition u64_sat_add (a b : Z) : Z := Z.min U64_MAX (a + b).
Definition u64_sat_mul (a b : Z) : Z := Z.min U64_MAX (a * b).
Definition u_sat_sub (a b : Z) : Z := Z.max 0 (a - b).

Lemma wrap_small w z : 0 <= z < 2 ^ w -> wrap w z = z.
Proof. intros H. unfold wrap. by apply Z.mod_small. Qed.

Lemma wrap_range w z : 0 <= w -> in_u w (wrap w z).
Proof. intros H. apply Z.mod_pos_bound. lia. Qed.

Lemma u32_small z : 0 <= z < 4294967296 -> u32 z = z.
Proof. intros H. by apply wrap_small. Qed.

Lemma u64_small z : 0 <= z < 18446744073709551616 -> u64 z = z.
Proof. intros H. by apply wrap_small. Qed.

Lemma u64_range z : 0 <= u64 z < 18446744073709551616.
Proof. unfold u64. apply (wrap_range 64 z). lia. Qed.

Lemma u32_range z : 0 <= u32 z < 4294967296.
Proof. unfold u32. apply (wrap_range 32 z). lia. Qed.

Lemma signed_range w z : 0 < w -> in_i w (signed w z).
Proof.
  intros Hw. unfold signed, in_i.
  pose proof (wrap_range w z ltac:(lia)) as [? ?].
  assert (2 ^ w = 2 * 2 ^ (w - 1)) as E.
  { replace w with (Z.succ (w - 1)) at 1 by lia. rewrite Z.pow_succ_r by lia. lia. }
  destruct (Z.ltb_spec (wrap w z) (2 ^ (w - 1))); lia.
Qed.

(** Reinterpreting a signed value as unsigned and back is the identity. *)
Lemma signed_wrap w z : 0 < w -> in_i w z -> signed w (wrap w z) = z.
Proof.
  intros Hw [Hl Hu]. unfold signed.
  assert (2 ^ w = 2 * 2 ^ (w - 1)) as E.
  { replace w with (Z.succ (w - 1)) at 1 by lia. rewrite Z.pow_succ_r by lia. lia. }
  assert (wrap w (wrap w z) = wrap w z) as ->.
  { apply wrap_small, wrap_range. lia. }
  unfold wrap. destruct (Z.le_gt_cases 0 z).
  - rewrite Z.mod_small by lia. by destruct (Z.ltb_spec z (2 ^ (w - 1))); lia.
  - replace (z mod 2 ^ w) with (z + 2 ^ w).
    + destruct (Z.ltb_spec (z + 2 ^ w) (2 ^ (w - 1))); lia.
    + rewrite <- (Z_mod_plus_full z 1), Z.mul_1_l, Z.mod_small; lia.
Qed.

Lemma i64_small z : - 2 ^ 63 <= z < 2 ^ 63 -> i64 z = z.
Proof.
  intros H. unfold i64. rewrite <- (signed_wrap 64 z) at 2 by (lia || exact H).
  unfold signed. by rewrite (wrap_small 64 (wrap 64 z)) by (apply wrap_range; lia).
Qed.

Lemma wrap_signed w z : 0 < w -> wrap w (signed w z) = wrap w z.
Proof.
  intros Hw. unfold signed. destruct (_ <? _).
  - apply wrap_small, wrap_range. lia.
  - unfold wrap. rewrite Zminus_mod, Z.mod_same, Z.sub_0_r, !Z.mod_mod by lia.
    reflexivity.
Qed.

(** ** Results

    [Result<T, E>] of the source. The error carries the reason as data. *)

Inductive result (E A : Type) : Type :=
| Ok (a : A)
| Err (e : E).
Arguments Ok {E A} _.
Arguments Err {E A} _.

Definition rbind {E A B} (m : result E A) (k : A -> result E B) : result E B :=
  match m with Ok a => k a | Err e => Err e end.
Definition ok_or {E A} (o : option A) (e : E) : result E A :=
  match o with Some a => Ok a | None => Err e end.

Declare Scope rust_scope.
Delimit Scope rust_scope with rust.
Notation "'let?' x ':=' m 'in' k" := (rbind m (fun x => k))
  (at level 10, x pattern, m at level 100, k at level 200,
   format "'let?'  x  ':='  m  'in' '//' k") : rust_scope.
Open Scope rust_scope.

Lemma rbind_Ok {E A B} (m : result E A) (k : A -> result E B) b :
  rbind m k = Ok b -> exists a, m = Ok a /\ k a = Ok b.
Proof. destruct m; [eauto | discriminate]. Qed.

Lemma ok_or_Ok {E A} (o : option A) (e : E) a : ok_or o e = Ok a -> o = Some a.
Proof. by destruct o; intros [= ->]. Qed.

(** ** Automation *)

(** Turn boolean hypotheses and goals about [Z] into propositions. *)
Ltac bsimp :=
  repeat match goal with
  | H : _ && _ = true |- _ => apply andb_true_iff in H as [? ?]
  | H : _ && _ = false |- _ => apply andb_false_iff in H
  | H : _ || _ = false |- _ => apply orb_false_iff in H as [? ?]
  | H : _ || _ = true |- _ => apply orb_true_iff in H
  | H : negb _ = true |- _ => apply negb_true_iff in H
  | H : negb _ = false |- _ => apply negb_false_iff in H
  | H : (_ <=? _)%Z = true |- _ => apply Z.leb_le in H
  | H : (_ <=? _)%Z = false |- _ => apply Z.leb_gt in H
  | H : (_ <? _)%Z = true |- _ => apply Z.ltb_lt in H
  | H : (_ <? _)%Z = false |- _ => apply Z.ltb_ge in H
  | H : (_ =? _)%Z = true |- _ => apply Z.eqb_eq in H
  | H : (_ =? _)%Z = false |- _ => apply Z.eqb_neq in H
  | H : bool_decide _ = true |- _ => apply bool_decide_eq_true in H
  | H : bool_decide _ = false |- _ => apply bool_decide_eq_false in H
  | |- _ && _ = true => apply andb_true_iff; split
  | |- negb _ = true => apply negb_true_iff
  | |- (_ <=? _)%Z = true => apply Z.leb_le
  | |- (_ <? _)%Z = true => apply Z.ltb_lt
  | |- (_ =? _)%Z = true => apply Z.eqb_eq
  | |- (_ <=? _)%Z = false => apply Z.leb_gt
  | |- (_ <? _)%Z = false => apply Z.ltb_ge
  | |- (_ =? _)%Z = false => apply Z.eqb_neq
  end.

(** Peel the binds of a successful result computation. *)
Ltac inv_bind :=
  repeat match goal with
  | H : rbind _ _ = Ok _ |- _ =>
      let a := fresh "a" in let Ha := fresh "Hb" in
      apply rbind_Ok in H as (a & Ha & H)
  | H : ok_or _ _ = Ok _ |- _ => apply ok_or_Ok in H
  | H : Ok _ = Ok _ |- _ => injection H as H; subst
  | H : Err _ = Ok _ |- _ => discriminate H
  end.

(** Split on the scrutinee of the outermost conditional of a hypothesis. *)
Ltac case_if H :=
  match type of H with
  | context [if ?b then _ else _] => let E := fresh "E" in destruct b eqn:E
  end.

Create HintDb sentry discriminated.
#[export] Hint Resolve wrap_range signed_range u64_range u32_range : sentry.
#[export] Hint Extern 1 (_ <= _)%Z => lia : sentry.
#[export] Hint Extern 1 (_ < _)%Z => lia : sentry.
#[export] Hint Extern 1 (@eq Z _ _) => lia : sentry.

Create Rewrite HintDb sentry_len.
#[export] Hint Rewrite @length_app @length_fmap @length_replicate @length_take
  @length_drop @length_reverse @length_insert : sentry_len.

(** ** Lists *)

(** [Vec::is_empty]. *)
Definition is_empty {A} (l : list A) : bool := match l with [] => true | _ => false end.

Lemma is_empty_nil {A} (l : list A) : is_empty l = true -> l = [].
Proof. by destruct l. Qed.

Section lists.
Context {A B : Type}.
Implicit Types l : list A.

(** [slice::windows(2)]: the adjacent pairs. *)
Fixpoint windows2 l : list (A * A) :=
  match l with
  | x :: ((y :: _) as t) => (x, y) :: windows2 t
  | _ => []
  end.

(** [slice::partition_point], on a slice partitioned by [p]. *)
Fixpoint partition_point (p : A -> bool) l : nat :=
  match l with
  | x :: t => if p x then S (partition_point p t) else 0%nat
  | [] => 0%nat
  end.

Lemma partition_point_le p l : (partition_point p l <= length l)%nat.
Proof. induction l as [|x t IH]; simpl; [lia|]. destruct (p x); lia. Qed.

Lemma partition_point_before p l i x :
  (i < partition_point p l)%nat -> l !! i = Some x -> p x = true.
Proof.
  revert i. induction l as [|y t IH]; intros i; simpl; [lia|].
  destruct (p y) eqn:E; [|lia].
  destruct i; simpl; [by intros _ [= <-]|]. intros; eapply IH; eauto; lia.
Qed.

Lemma partition_point_at p l x :
  l !! partition_point p l = Some x -> p x = false.
Proof.
  induction l as [|y t IH]; simpl; [done|].
  destruct (p y) eqn:E; simpl; [auto | by intros [= <-]].
Qed.

(** Python-like slice [l[a..b]], total (empty when out of range). *)
Definition slice (l : list A) (a b : nat) : list A := take (b - a) (drop a l).

Lemma length_slice l a b :
  (a <= b)%nat -> (b <= length l)%nat -> length (slice l a b) = (b - a)%nat.
Proof. intros. unfold slice. rewrite length_take, length_drop. lia. Qed.

Lemma slice_app_mid (a b c : list A) n m :
  n = length a -> m = (length a + length b)%nat -> slice (a ++ b ++ c) n m = b.
Proof.
  intros -> ->. unfold slice. rewrite drop_app_length.
  replace (length a + length b - length a)%nat with (length b) by lia.
  by rewrite take_app_length.
Qed.

Lemma windows2_spec l i x y :
  windows2 l !! i = Some (x, y) <-> l !! i = Some x /\ l !! S i = Some y.
Proof.
  revert i. induction l as [|a [|b t] IH]; intros i; simpl.
  - naive_solver.
  - destruct i; naive_solver.
  - destruct i as [|i]; simpl; [naive_solver|]. apply (IH i).
Qed.

Lemma windows2_Sorted (R : A -> A -> Prop) l :
  Sorted R l <-> Forall (fun '(x, y) => R x y) (windows2 l).
Proof.
  induction l as [|a [|b t] IH]; simpl.
  - split; constructor.
  - split; intros; repeat constructor.
  - rewrite Forall_cons, <- IH. split.
    + intros [H1 H2]%Sorted_inv. by apply HdRel_inv in H2.
    + intros [? ?]. constructor; [done | by constructor].
Qed.
End lists.

Lemma Sorted_weaken {A} (R S : A -> A -> Prop) l :
  (forall x y, R x y -> S x y) -> Sorted R l -> Sorted S l.
Proof.
  intros HRS. rewrite !windows2_Sorted. intros HF. eapply Forall_impl; [exact HF|].
  intros [x y]. apply HRS.
Qed.

(** ** Stable sorting ([sort_by], [sort_by_key])

    Rust's sort is stable; a stable sort has one result, which this insertion
    sort computes: an element moves past a later one only when strictly
    greater. *)

Section sort.
Context {A : Type} (le : A -> A -> bool).

Fixpoint insert_by (x : A) (l : list A) : list A :=
  match l with
  | [] => [x]
  | y :: t => if le x y then x :: y :: t else y :: insert_by x t
  end.

Fixpoint sort_by (l : list A) : list A :=
  match l with
  | [] => []
  | x :: t => insert_by x (sort_by t)
  end.

Lemma insert_by_perm x l : insert_by x l ≡ₚ x :: l.
Proof.
  induction l as [|y t IH]; simpl; [done|].
  destruct (le x y); [done|]. rewrite IH. apply Permutation_swap.
Qed.

Lemma sort_by_perm l : sort_by l ≡ₚ l.
Proof. induction l as [|x t IH]; simpl; [done|]. by rewrite insert_by_perm, IH. Qed.

Lemma length_sort_by l : length (sort_by l) = length l.
Proof. by rewrite sort_by_perm. Qed.

Context (le_total : forall x y, le x y = false -> le y x = true).

Lemma insert_by_sorted x l :
  Sorted (fun a b => le a b = true) l ->
  Sorted (fun a b => le a b = true) (insert_by x l).
Proof.
  induction 1 as [|y t Hs IH Hd]; simpl; [by repeat constructor|].
  destruct (le x y) eqn:E; [by constructor; [constructor | constructor]|].
  constructor; [done|].
  destruct t as [|z t]; simpl in *; [constructor; auto|].
  destruct (le x z); constructor; auto. by apply HdRel_inv in Hd.
Qed.

Lemma sort_by_sorted l : Sorted (fun a b => le a b = true) (sort_by l).
Proof.
  induction l as [|x t IH]; simpl; [constructor | by apply insert_by_sorted].
Qed.
End sort.

(** Sorting commutes with a key-preserving map. *)
Lemma sort_by_map {A B} (f : A -> B) (leA : A -> A -> bool) (leB : B -> B -> bool) l :
  (forall x y, leA x y = leB (f x) (f y)) ->
  f <$> sort_by leA l = sort_by leB (f <$> l).
Proof.
  intros H.
  assert (forall x l', f <$> insert_by leA x l' = insert_by leB (f x) (f <$> l')) as Hi.
  { intros x l'. induction l' as [|y t IH]; csimpl; [done|].
    rewrite <- H. destruct (leA x y); csimpl; [done | by rewrite IH]. }
  induction l as [|x t IH]; csimpl; [done|]. by rewrite Hi, IH.
Qed.

(** [sort_by_key] with an integer key. *)
Definition key_le {A} (key : A -> Z) (x y : A) : bool := key x <=? key y.
Definition sort_by_key {A} (key : A -> Z) : list A -> list A := sort_by (key_le key).

Lemma key_le_total {A} (key : A -> Z) x y : key_le key x y = false -> key_le key y x = true.
Proof. unfold key_le. intros. bsimp. lia. Qed.

Lemma sort_by_key_sorted {A} (key : A -> Z) l :
  Sorted (fun a b => key a <= key b) (sort_by_key key l).
Proof.
  eapply Sorted_weaken; [|apply (sort_by_sorted (key_le key)); auto using key_le_total].
  intros x y. unfold key_le. intros. bsimp. done.
Qed.

Lemma sort_by_key_strongly {A} (key : A -> Z) l :
  StronglySorted (fun a b => key a <= key b) (sort_by_key key l).
Proof.
  apply Sorted_StronglySorted; [|apply sort_by_key_sorted].
  intros x y z. lia.
Qed.

#[export] Hint Resolve sort_by_key_sorted sort_by_key_strongly sort_by_perm : sentry.

Lemma filter_all {A} (P : A -> Prop) `{!forall x, Decision (P x)} l : Forall P l -> filter P l = l.
Proof. induction 1 as [|x l Hx _ IH]; [done|]. by rewrite filter_cons_True, IH. Qed.

Lemma filter_none {A} (P : A -> Prop) `{!forall x, Decision (P x)} l : Forall (fun x => ~ P x) l -> filter P l = [].
Proof. induction 1 as [|x l Hx _ IH]; [done|]. by rewrite filter_cons_False, IH. Qed.

(** [slice::chunks(k)]; the length is fuel enough. *)
Fixpoint chunks {A} (fuel k : nat) (l : list A) : list (list A) :=
  match fuel, l with
  | S fuel, _ :: _ => take k l :: chunks fuel k (drop k l)
  | _, _ => []
  end.

Lemma chunks_spec {A} k : (0 < k)%nat -> forall fuel (l : list A), (length l <= fuel)%nat ->
  concat (chunks fuel k l) = l /\ Forall (fun c => c <> [] /\ (length c <= k)%nat) (chunks fuel k l).
Proof.
  intros Hk. induction fuel as [|fuel IH]; intros l Hl.
  - destruct l; [done|cbn in Hl; lia].
  - destruct l as [|x l]; [done|]. cbn [chunks concat]. destruct (IH (drop k (x :: l))) as [E F].
    { rewrite length_drop. cbn [length] in *. lia. }
    rewrite E, take_drop. split; [done|]. constructor; [|done]. split; [destruct k; [lia|done]|]. rewrite length_take. lia.
Qed.

Lemma windows2_snoc {A} (l : list A) x :
  windows2 (l ++ [x]) = windows2 l ++ match last l with Some y => [(y, x)] | None => [] end.
Proof.
  induction l as [|y l IH]; [done|]. destruct l as [|z l]; [done|].
  change (last (y :: z :: l)) with (last (z :: l)). cbn [app] in *. cbn [windows2] in *. rewrite IH. done.
Qed.

Lemma StronglySorted_lookup {A} (R : A -> A -> Prop) l i j x y :
  StronglySorted R l -> (i < j)%nat -> l !! i = Some x -> l !! j = Some y -> R x y.
Proof.
  intros Hs. revert i j. induction Hs as [|a t _ IH Hf]; intros i j Hij; [done|].
  destruct i as [|i], j as [|j]; simpl; try lia.
  - intros [= <-] Hj. by apply (Forall_lookup_1 _ _ _ _ Hf Hj).
  - intros. apply (IH i j); auto. lia.
Qed.

Lemma StronglySorted_weaken {A} (R S : A -> A -> Prop) l :
  (forall x y, R x y -> S x y) -> StronglySorted R l -> StronglySorted S l.
Proof.
  intros H. induction 1 as [|x t _ IH Hf]; constructor; [done|].
  eapply Forall_impl; [exact Hf|]. apply H.
Qed.
