(* ===== verification/Bytes.v ===== *)
(** * Byte strings: [to_le_bytes], [from_le_bytes], [from_be_bytes]

    A byte is a [Z] in [0..255]; a buffer is a list of them. *)

From Stdlib Require Import ZArith Lia.
From stdpp Require Import base list.
From S2P Require Import Prelude.

Open Scope Z_scope.

Fixpoint le_bytes (n : nat) (z : Z) : list Z :=
  match n with
  | O => []
  | S n => z mod 256 :: le_bytes n (z / 256)
  end.

Fixpoint le_val (l : list Z) : Z :=
  match l with
  | [] => 0
  | b :: t => b + 256 * le_val t
  end.

Definition be_val (l : list Z) : Z := le_val (rev l).

Lemma length_le_bytes n z : length (le_bytes n z) = n.
Proof. revert z. induction n; intros; simpl; auto. Qed.

Lemma le_bytes_byte n z : Forall is_byte (le_bytes n z).
Proof.
  revert z. induction n; intros; simpl; constructor; auto.
  unfold is_byte. apply Z.mod_pos_bound. lia.
Qed.

Lemma le_val_bytes n z : le_val (le_bytes n z) = z mod 256 ^ Z.of_nat n.
Proof.
  revert z. induction n as [|n IH]; intros z; [by rewrite Z.mod_1_r|].
  cbn [le_val le_bytes]. rewrite IH, Nat2Z.inj_succ, Z.pow_succ_r by lia.
  rewrite (Z.rem_mul_r z 256) by lia. lia.
Qed.

Lemma le_val_range l :
  Forall is_byte l -> 0 <= le_val l < 256 ^ Z.of_nat (length l).
Proof.
  induction 1 as [|b t Hb _ IH]; [done|].
  cbn [le_val length]. rewrite Nat2Z.inj_succ, Z.pow_succ_r by lia.
  unfold is_byte in Hb. lia.
Qed.

Lemma le_bytes_val l : Forall is_byte l -> le_bytes (length l) (le_val l) = l.
Proof.
  induction 1 as [|b t Hb _ IH]; [done|]. cbn [le_bytes le_val length]. unfold is_byte in Hb.
  rewrite Z.mul_comm, Z_mod_plus_full, Z.div_add by lia.
  rewrite (Z.mod_small b), (Z.div_small b) by lia. by rewrite Z.add_0_l, IH.
Qed.

Lemma be_val_range l :
  Forall is_byte l -> 0 <= be_val l < 256 ^ Z.of_nat (length l).
Proof.
  intros H. unfold be_val. rewrite <- (length_rev l). apply le_val_range.
  by apply Forall_rev.
Qed.

(** Bytes come back from an encoding of a value in range. *)
Lemma le_val_bytes_small n z :
  0 <= z < 256 ^ Z.of_nat n -> le_val (le_bytes n z) = z.
Proof. intros. rewrite le_val_bytes. by apply Z.mod_small. Qed.

(** [to_be_bytes] of an [n]-byte integer. *)
Definition to_be_bytes (n : nat) (z : Z) : list Z := rev (le_bytes n z).

Lemma length_be n z : length (to_be_bytes n z) = n.
Proof. unfold to_be_bytes. by rewrite length_rev, length_le_bytes. Qed.

Lemma be_val_bytes n z : 0 <= z < 256 ^ Z.of_nat n -> be_val (to_be_bytes n z) = z.
Proof. intros H. unfold be_val, to_be_bytes. rewrite rev_involutive. by apply le_val_bytes_small. Qed.

#[export] Hint Rewrite length_le_bytes length_be : sentry_len.
#[export] Hint Resolve le_bytes_byte : sentry.

Arguments le_bytes : simpl never.
Arguments le_val : simpl never.
