(* ===== verification/Float.v ===== *)
(** * IEEE 754 values as bit patterns

    [f64] and [f32] of the source are their bit patterns ([to_bits]), so that
    encodings are exact on NaN payloads too; arithmetic decodes to the
    Standard Library's [spec_float], applies the correctly rounded operation
    and encodes again. An arithmetic NaN is encoded as the default quiet NaN. *)

From Stdlib Require Import ZArith Lia SpecFloat.
From stdpp Require Import base list.
From S2P Require Import Prelude.

Open Scope Z_scope.

Section format.
(** [mw] mantissa bits stored, [ew] exponent bits. *)
Context (mw ew : Z).

Definition prec : Z := mw + 1.
Definition emax : Z := 2 ^ (ew - 1).
Definition emin_sub : Z := 3 - emax - prec.

Definition decode_bits (b : Z) : spec_float :=
  let s := Z.testbit b (mw + ew) in
  let e := (b / 2 ^ mw) mod 2 ^ ew in
  let m := b mod 2 ^ mw in
  if e =? 0 then
    match m with Zpos p => S754_finite s p emin_sub | _ => S754_zero s end
  else if e =? 2 ^ ew - 1 then
    if m =? 0 then S754_infinity s else S754_nan
  else match m + 2 ^ mw with
       | Zpos p => S754_finite s p (e + emin_sub - 1)
       | _ => S754_nan
       end.

Definition sign_bit (s : bool) : Z := if s then 2 ^ (mw + ew) else 0.

Definition encode_bits (f : spec_float) : Z :=
  match f with
  | S754_zero s => sign_bit s
  | S754_infinity s => sign_bit s + (2 ^ ew - 1) * 2 ^ mw
  | S754_nan => (2 ^ ew - 1) * 2 ^ mw + 2 ^ (mw - 1)
  | S754_finite s m e =>
      if Zpos m <? 2 ^ mw then sign_bit s + Zpos m
      else sign_bit s + (e - emin_sub + 1) * 2 ^ mw + (Zpos m - 2 ^ mw)
  end.

Definition fop2 (op : spec_float -> spec_float -> spec_float) (a b : Z) : Z :=
  encode_bits (op (decode_bits a) (decode_bits b)).

Definition fadd := fop2 (SFadd prec emax).
Definition fsub := fop2 (SFsub prec emax).
Definition fmul := fop2 (SFmul prec emax).
Definition fdiv := fop2 (SFdiv prec emax).

Definition flt (a b : Z) : bool := SFltb (decode_bits a) (decode_bits b).
Definition fle (a b : Z) : bool := SFleb (decode_bits a) (decode_bits b).
Definition feq (a b : Z) : bool := SFeqb (decode_bits a) (decode_bits b).

Definition fsqrt (a : Z) : Z := encode_bits (SFsqrt prec emax (decode_bits a)).

Definition fis_nan (a : Z) : bool :=
  match decode_bits a with S754_nan => true | _ => false end.

(** [max] and [min]: the other operand when one is NaN. *)
Definition fmax (a b : Z) : Z :=
  if fis_nan a then b else if fis_nan b then a else if flt a b then b else a.
Definition fmin (a b : Z) : Z :=
  if fis_nan a then b else if fis_nan b then a else if flt b a then b else a.

(** [abs] clears the sign bit. *)
Definition fabs (a : Z) : Z := a mod 2 ^ (mw + ew).

Definition fis_finite (a : Z) : bool :=
  match decode_bits a with
  | S754_zero _ | S754_finite _ _ _ => true
  | _ => false
  end.

(** An integer, correctly rounded ([as f64], [as f32]). *)
Definition fof_Z (z : Z) : Z := encode_bits (binary_normalize prec emax z 0 false).

(** [round]: to the nearest integer, halves away from zero. *)
Definition fround (a : Z) : Z :=
  match decode_bits a with
  | S754_finite s m e =>
      if 0 <=? e then a
      else
        let d := 2 ^ (- e) in
        let n := (2 * Zpos m + d) / (2 * d) in
        if n =? 0 then sign_bit s
        else encode_bits (binary_normalize prec emax (if s then - n else n) 0 s)
  | _ => a
  end.

(** [floor]. *)
Definition ffloor (a : Z) : Z :=
  match decode_bits a with
  | S754_finite s m e =>
      if 0 <=? e then a
      else
        let n := (if s then - Zpos m else Zpos m) / 2 ^ (- e) in
        if n =? 0 then sign_bit s else encode_bits (binary_normalize prec emax n 0 s)
  | _ => a
  end.

(** [as usize], [as i64]: truncation toward zero, saturating, NaN to 0. *)
Definition fto_Z (lo hi a : Z) : Z :=
  match decode_bits a with
  | S754_finite s m e =>
      let n := if 0 <=? e then Zpos m * 2 ^ e else Zpos m / 2 ^ (- e) in
      Z.max lo (Z.min hi (if s then - n else n))
  | S754_infinity s => if s then lo else hi
  | _ => 0
  end.
End format.

(** Conversion between formats: round the source's exact value. *)
Definition fcvt (mw1 ew1 mw2 ew2 a : Z) : Z :=
  match decode_bits mw1 ew1 a with
  | S754_finite s m e =>
      encode_bits mw2 ew2
        (binary_normalize (prec mw2) (emax ew2) (if s then Zneg m else Zpos m) e s)
  | f => encode_bits mw2 ew2 f
  end.

Module F64.
Definition add := fadd 52 11.
Definition sub := fsub 52 11.
Definition mul := fmul 52 11.
Definition div := fdiv 52 11.
Definition sqrt := fsqrt 52 11.
Definition max := fmax 52 11.
Definition min := fmin 52 11.
Definition lt := flt 52 11.
Definition le := fle 52 11.
Definition eq := feq 52 11.
Definition abs := fabs 52 11.
Definition is_finite := fis_finite 52 11.
Definition round := fround 52 11.
Definition floor := ffloor 52 11.
Definition of_Z := fof_Z 52 11.
Definition to_usize := fto_Z 52 11 0 U64_MAX.
Definition to_i64 := fto_Z 52 11 (- 2 ^ 63) (2 ^ 63 - 1).
Definition to_f32 := fcvt 52 11 23 8.
Definition zero : Z := 0.

(** A decimal literal with [n] digits after the point: the quotient of two
    integers below 2^53, correctly rounded. *)
Definition dec (m n : Z) : Z := div (of_Z m) (of_Z (10 ^ n)).
End F64.

(** [f64::clamp] for a range without NaN. *)
Definition clamp (lo hi x : Z) : Z :=
  let x := if F64.lt x lo then lo else x in if F64.lt hi x then hi else x.

Module F32.
Definition one : Z := 0x3F800000.
Definition lt := flt 23 8.
Definition le := fle 23 8.
Definition eq := feq 23 8.
Definition abs := fabs 23 8.
Definition is_finite := fis_finite 23 8.
Definition to_f64 := fcvt 23 8 52 11.
Definition nan : Z := encode_bits 23 8 S754_nan.
Definition zero : Z := 0.
End F32.

(** Sanity: the encodings agree with the format's published bit patterns. *)
Example f64_of_Z_one : F64.of_Z 1 = 0x3FF0000000000000.
Proof. vm_compute. reflexivity. Qed.
Example f64_tenth : F64.div (F64.of_Z 1) (F64.of_Z 10) = 0x3FB999999999999A.
Proof. vm_compute. reflexivity. Qed.
Example f32_tenth : F64.to_f32 (F64.div (F64.of_Z 1) (F64.of_Z 10)) = 0x3DCCCCCD.
Proof. vm_compute. reflexivity. Qed.
Example f64_round_half : F64.round (F64.div (F64.of_Z (-5)) (F64.of_Z 2)) = F64.of_Z (-3).
Proof. vm_compute. reflexivity. Qed.
Example f64_floor : F64.floor (F64.div (F64.of_Z (-5)) (F64.of_Z 2)) = F64.of_Z (-3) /\ F64.floor (F64.dec 199 2) = F64.of_Z 1.
Proof. vm_compute. done. Qed.
Example f64_min_subnormal : F64.to_usize 1 = 0 /\ F64.lt F64.zero 1 = true.
Proof. vm_compute. done. Qed.
Example f32_nan_bits : F32.nan = 0x7FC00000 /\ F32.eq F32.nan F32.nan = false.
Proof. vm_compute. done. Qed.

(** ** Order

    The comparison of two floats is the lexicographic order of a key: sign
    class, exponent, mantissa; NaN has none. *)

Definition fkey (f : spec_float) : option (Z * Z * Z) :=
  match f with
  | S754_nan => None
  | S754_infinity true => Some (-2, 0, 0)
  | S754_finite true m e => Some (-1, - e, - Zpos m)
  | S754_zero _ => Some (0, 0, 0)
  | S754_finite false m e => Some (1, e, Zpos m)
  | S754_infinity false => Some (2, 0, 0)
  end.

Definition key_lt (a b : Z * Z * Z) : Prop :=
  let '(a1, a2, a3) := a in
  let '(b1, b2, b3) := b in
  a1 < b1 \/ (a1 = b1 /\ (a2 < b2 \/ (a2 = b2 /\ a3 < b3))).

Lemma SFltb_key x y :
  SFltb x y = true <-> exists a b, fkey x = Some a /\ fkey y = Some b /\ key_lt a b.
Proof.
  assert (forall a b : Z * Z * Z, (exists a' b', Some a = Some a' /\ Some b = Some b' /\ key_lt a' b')
            <-> key_lt a b) as Hk by (intros; split; [intros (? & ? & [= ->] & [= ->] & ?); done | eauto]).
  destruct x as [[]|[]| |[] m e], y as [[]|[]| |[] m' e']; cbn [fkey];
    try (split; [done | intros (? & ? & ? & ? & ?); done]);
    rewrite ?Hk; cbn; try (split; intros; (discriminate || reflexivity || (exfalso; lia) || lia)).
  all: unfold SFltb, SFcompare; change (Pos.compare_cont Eq m m') with (Pos.compare m m');
    destruct (Z.compare_spec e e') as [->|?|?]; destruct (Pos.compare_spec m m') as [->|?|?];
    split; intros; (discriminate || reflexivity || (exfalso; lia) || lia).
Qed.

Lemma flt_trans_le mw ew a b c :
  flt mw ew c b = false -> flt mw ew b a = false -> is_Some (fkey (decode_bits mw ew b)) ->
  flt mw ew c a = false.
Proof.
  unfold flt. intros H1 H2 [kb Hb]. apply not_true_is_false.
  intros (kc & ka & Hc & Ha & Hlt)%SFltb_key.
  assert (~ key_lt kc kb) as N1.
  { intros Hk. apply not_true_iff_false in H1. apply H1. apply SFltb_key. eauto. }
  assert (~ key_lt kb ka) as N2.
  { intros Hk. apply not_true_iff_false in H2. apply H2. apply SFltb_key. eauto. }
  destruct ka as [[? ?] ?], kb as [[? ?] ?], kc as [[? ?] ?]. cbn in *. lia.
Qed.

Lemma flt_irrefl mw ew a : flt mw ew a a = false.
Proof.
  unfold flt. apply not_true_is_false. intros (k & k' & H1 & H2 & Hlt)%SFltb_key.
  rewrite H1 in H2. injection H2 as <-. destruct k as [[? ?] ?]. cbn in Hlt. lia.
Qed.

Lemma flt_asym mw ew a b : flt mw ew a b = true -> flt mw ew b a = false.
Proof.
  unfold flt. intros (k & k' & H1 & H2 & Hlt)%SFltb_key. apply not_true_is_false.
  intros (l & l' & H3 & H4 & Hlt')%SFltb_key. rewrite H1 in H4. rewrite H2 in H3.
  injection H4 as <-. injection H3 as <-.
  destruct k as [[? ?] ?], k' as [[? ?] ?]. cbn in *. lia.
Qed.
