(* ===== verification/Types.v ===== *)
(** * Data shared by the drive components ([crates/drives/src/types.rs]) *)

From Stdlib Require Import ZArith Lia.
From stdpp Require Import base list.
From S2P Require Import Prelude Float.

Open Scope Z_scope.

(** A GPS fix: latitude and longitude, both [f64] bit patterns. *)
Definition GpsPoint : Type := Z * Z.

Record GearRun := mkGearRun { gr_gear : Z; gr_frames : Z }.
Record ApRun := mkApRun { ar_ap : Z; ar_frames : Z }.
Record FlagRun := mkFlagRun { fr_flags : Z; fr_frames : Z; fr_max_mps : option Z }.

#[export] Instance GearRun_eq_dec : EqDecision GearRun.
Proof. solve_decision. Defined.
#[export] Instance ApRun_eq_dec : EqDecision ApRun.
Proof. solve_decision. Defined.
#[export] Instance FlagRun_eq_dec : EqDecision FlagRun.
Proof. solve_decision. Defined.

Definition GEAR_PARK : Z := 0.
Definition GEAR_DRIVE : Z := 1.
Definition GEAR_REVERSE : Z := 2.
Definition GEAR_NEUTRAL : Z := 3.

Definition AUTOPILOT_OFF : Z := 0.
Definition AUTOPILOT_FSD : Z := 1.
Definition AUTOPILOT_AUTOSTEER : Z := 2.
Definition AUTOPILOT_TACC : Z := 3.

Definition FLAG_BLINKER_LEFT : Z := 1.
Definition FLAG_BLINKER_RIGHT : Z := 2.
Definition FLAG_BRAKE : Z := 4.
Definition FLAG_ACCEL : Z := 8.

(** The [u8]/[u32] fields hold values of their width. *)
Definition GearRun_ok (r : GearRun) : Prop := is_byte (gr_gear r) /\ in_u 32 (gr_frames r).
Definition ApRun_ok (r : ApRun) : Prop := is_byte (ar_ap r) /\ in_u 32 (ar_frames r).

(** ** Run-length encodings over raw frames

    The frames a list of runs stands for, in order; the reading every consumer
    of the runs shares. *)
Definition expand {A} (runs : list (A * Z)) : list A :=
  concat ((fun '(v, n) => replicate (Z.to_nat n) v) <$> runs).

Definition gear_frames (rs : list GearRun) : list Z :=
  expand ((fun r => (gr_gear r, gr_frames r)) <$> rs).
Definition ap_frames (rs : list ApRun) : list Z :=
  expand ((fun r => (ar_ap r, ar_frames r)) <$> rs).
Definition flag_frames (rs : list FlagRun) : list Z :=
  expand ((fun r => (fr_flags r, fr_frames r)) <$> rs).

Definition sum_Z (l : list Z) : Z := foldr Z.add 0 l.

Lemma sum_Z_app l1 l2 : sum_Z (l1 ++ l2) = sum_Z l1 + sum_Z l2.
Proof. induction l1; simpl in *; lia. Qed.

Lemma sum_Z_nonneg l : Forall (fun z => 0 <= z) l -> 0 <= sum_Z l.
Proof. induction 1; simpl in *; lia. Qed.

Lemma expand_app {A} (r1 r2 : list (A * Z)) : expand (r1 ++ r2) = expand r1 ++ expand r2.
Proof. unfold expand. by rewrite fmap_app, concat_app. Qed.

Lemma expand_cons {A} (v : A) n r : expand ((v, n) :: r) = replicate (Z.to_nat n) v ++ expand r.
Proof. done. Qed.

Lemma length_expand {A} (r : list (A * Z)) :
  Forall (fun z => 0 <= z) r.*2 -> Z.of_nat (length (expand r)) = sum_Z r.*2.
Proof.
  induction r as [|[v n] r IH]; [done|]. intros [Hn Hr]%Forall_cons. simpl in Hn.
  rewrite expand_cons, length_app, length_replicate. csimpl. rewrite <- IH by done. lia.
Qed.
