(* ===== verification/Blob.v ===== *)
(** * Point-data BLOBs of a route row ([crates/drives/src/blob.rs])

    Every format is little-endian with a fixed stride per element. The shared
    encode and decode loops are [encode_fixed] and [decode_fixed]; a [Codec]
    instance is one element's layout with the laws that make the loop
    round-trip, in both directions: values through bytes and bytes through
    values. *)

From Stdlib Require Import ZArith Lia.
From stdpp Require Import base list.
From S2P Require Import Prelude Bytes Float Types.

Open Scope Z_scope.

Inductive blob_error := BadLength (len stride : nat).

(** ** The fixed-stride loops *)

Definition encode_fixed {A} (enc : A -> list Z) (xs : option (list A)) : option (list Z) :=
  (fun l => concat (enc <$> l)) <$> xs.

Definition decode_fixed {A} (stride : nat) (dec : list Z -> A) (buf : option (list Z))
    : result blob_error (option (list A)) :=
  match buf with
  | None => Ok None
  | Some buf =>
      if negb (length buf mod stride =? 0)%nat then Err (BadLength (length buf) stride)
      else Ok (Some ((fun i => dec (slice buf (i * stride) (i * stride + stride)))
                       <$> seq 0 (length buf / stride)))
  end.

(** One element's layout: [codec_ok] are the values the element type holds. *)
Class Codec (A : Type) := {
  stride : nat;
  enc : A -> list Z;
  dec : list Z -> A;
  codec_ok : A -> Prop;
  stride_pos : (0 < stride)%nat;
  length_enc x : length (enc x) = stride;
  dec_enc x : codec_ok x -> dec (enc x) = x;
}.

Section loops.
Context {A : Type} (n : nat) (e : A -> list Z) (d : list Z -> A).
Hypothesis n_pos : (0 < n)%nat.
Hypothesis e_len : forall x, length (e x) = n.

Lemma length_concat_enc l : length (concat (e <$> l)) = (length l * n)%nat.
Proof using e_len. clear n_pos. induction l as [|x t IH]; csimpl; [done|]. rewrite length_app, e_len, IH. lia. Qed.

Lemma slice_concat_enc l i x :
  l !! i = Some x -> slice (concat (e <$> l)) (i * n) (i * n + n) = e x.
Proof using e_len.
  clear n_pos.
  revert i. induction l as [|y t IH]; intros i; [done|]. unfold slice in *.
  destruct i as [|i]; csimpl.
  - intros [= ->]. simpl. rewrite drop_0.
    replace (n - 0)%nat with (length (e x)) by (rewrite e_len; lia).
    by rewrite take_app_length.
  - intros Hi. rewrite drop_app_ge by (rewrite e_len; lia). rewrite e_len.
    replace (n + i * n - n)%nat with (i * n)%nat by lia.
    rewrite <- (IH i Hi). f_equal. lia.
Qed.

Lemma decode_encode_fixed (ok : A -> Prop) l :
  (forall x, ok x -> d (e x) = x) -> Forall ok l ->
  decode_fixed n d (encode_fixed e (Some l)) = Ok (Some l).
Proof using n_pos e_len.
  intros Hd Hl. unfold decode_fixed, encode_fixed. simpl.
  rewrite length_concat_enc, Nat.Div0.mod_mul, Nat.div_mul by lia. simpl.
  do 2 f_equal. apply list_eq. intros i. rewrite list_lookup_fmap.
  destruct (l !! i) as [x|] eqn:Hi.
  - rewrite lookup_seq_lt by (by apply lookup_lt_Some in Hi). simpl.
    rewrite (slice_concat_enc _ _ _ Hi). f_equal. apply Hd.
    by eapply Forall_lookup_1.
  - rewrite lookup_seq_ge by (by apply lookup_ge_None in Hi). done.
Qed.

(** Bytes through values: what was stored is written back unchanged. *)
Lemma encode_decode_fixed buf l :
  (forall c, Forall is_byte c -> length c = n -> e (d c) = c) ->
  Forall is_byte buf ->
  decode_fixed n d (Some buf) = Ok (Some l) -> encode_fixed e (Some l) = Some buf.
Proof using n_pos.
  intros Hed Hb. unfold decode_fixed.
  destruct (Nat.eqb_spec (length buf mod n) 0) as [Hm|]; [|done]. simpl. intros [= <-].
  unfold encode_fixed. simpl. f_equal.
  apply Nat.Lcm0.mod_divide in Hm as [k Hk]. rewrite Hk, Nat.div_mul by lia.
  revert buf Hb Hk. induction k as [|k IH]; intros buf Hb Hk.
  { destruct buf; [done | simpl in Hk; lia]. }
  csimpl. rewrite <- fmap_S_seq, <- list_fmap_compose, <- list_fmap_compose.
  assert (Hs : slice buf 0 n = take n buf) by (unfold slice; by rewrite drop_0, Nat.sub_0_r).
  rewrite Hs, Hed; [|by apply Forall_take | rewrite length_take; lia].
  transitivity (take n buf ++ drop n buf); [|apply take_drop]. f_equal.
  rewrite <- (IH (drop n buf)); [|by apply Forall_drop | rewrite length_drop; lia].
  rewrite <- list_fmap_compose. f_equal. apply list_fmap_ext. intros j i _. simpl.
  unfold slice. rewrite drop_drop. do 3 f_equal; lia.
Qed.

Lemma decode_fixed_error buf :
  (exists m, decode_fixed n d (Some buf) = Err (BadLength (length buf) m))
  <-> (length buf mod n <> 0)%nat.
Proof.
  unfold decode_fixed. destruct (Nat.eqb_spec (length buf mod n) 0); simpl; naive_solver.
Qed.
End loops.

(** ** Element layouts *)

Definition u64_at (c : list Z) (off : nat) : Z := le_val (slice c off (off + 8)).
Definition u32_at (c : list Z) (off : nat) : Z := le_val (slice c off (off + 4)).
Definition i64_at (c : list Z) (off : nat) : Z := signed 64 (u64_at c off).
Definition byte_at (c : list Z) (off : nat) : Z := default 0 (c !! off).

Definition POINT_STRIDE : nat := 16.
Definition enc_point (p : GpsPoint) : list Z := le_bytes 8 p.1 ++ le_bytes 8 p.2.
Definition dec_point (c : list Z) : GpsPoint := (u64_at c 0, u64_at c 8).

Definition F32_STRIDE : nat := 4.
Definition enc_f32 (v : Z) : list Z := le_bytes 4 v.
Definition dec_f32 (c : list Z) : Z := u32_at c 0.

(** [frames as i32] on the way out, [as u32] on the way in. *)
Definition enc_frames (frames : Z) : list Z := le_bytes 4 (wrap 32 (i32 frames)).
Definition dec_frames (c : list Z) : Z := u32 (signed 32 (u32_at c 1)).

Definition GEAR_RUN_STRIDE : nat := 5.
Definition enc_gear_run (r : GearRun) : list Z := gr_gear r :: enc_frames (gr_frames r).
Definition dec_gear_run (c : list Z) : GearRun := mkGearRun (byte_at c 0) (dec_frames c).

Definition AP_RUN_STRIDE : nat := 5.
Definition enc_ap_run (r : ApRun) : list Z := ar_ap r :: enc_frames (ar_frames r).
Definition dec_ap_run (c : list Z) : ApRun := mkApRun (byte_at c 0) (dec_frames c).

Definition FLAG_RUN_STRIDE : nat := 9.
Definition enc_flag_run (r : FlagRun) : list Z :=
  fr_flags r :: enc_frames (fr_frames r)
    ++ le_bytes 4 (match fr_max_mps r with Some m => F64.to_f32 m | None => F32.nan end).
Definition dec_flag_run (c : list Z) : FlagRun :=
  let max_raw := u32_at c 5 in
  let ten := F64.of_Z 10 in
  mkFlagRun (byte_at c 0) (dec_frames c)
    (if F32.is_finite max_raw
     then Some (F64.div (F64.round (F64.mul (F32.to_f64 max_raw) ten)) ten)
     else None).

(** ** The public encoders and decoders *)

Definition encode_points (pts : option (list GpsPoint)) := encode_fixed enc_point pts.
Definition decode_points (buf : option (list Z)) := decode_fixed POINT_STRIDE dec_point buf.

Definition encode_u8s (s : option (list Z)) : option (list Z) := s.
Definition decode_u8s (buf : option (list Z)) : option (list Z) := buf.

Definition encode_f32s (s : option (list Z)) := encode_fixed enc_f32 s.
Definition decode_f32s (buf : option (list Z)) := decode_fixed F32_STRIDE dec_f32 buf.

Definition encode_gear_runs (rs : option (list GearRun)) := encode_fixed enc_gear_run rs.
Definition decode_gear_runs (buf : option (list Z)) := decode_fixed GEAR_RUN_STRIDE dec_gear_run buf.

Definition encode_ap_runs (rs : option (list ApRun)) := encode_fixed enc_ap_run rs.
Definition decode_ap_runs (buf : option (list Z)) := decode_fixed AP_RUN_STRIDE dec_ap_run buf.

Definition encode_flag_runs (rs : option (list FlagRun)) := encode_fixed enc_flag_run rs.
Definition decode_flag_runs (buf : option (list Z)) := decode_fixed FLAG_RUN_STRIDE dec_flag_run buf.

(** ** The safety grace prefix: a version byte and five buckets *)

Record SafetyPrefixBucket := mkBucket {
  hard_brake_ms : Z; brake_any_ms : Z; aggr_turn_ms : Z; turn_any_ms : Z; speeding_ms : Z;
}.
Notation SafetyGracePrefix := (list SafetyPrefixBucket).

Definition bucket0 : SafetyPrefixBucket := mkBucket 0 0 0 0 0.
Definition prefix_default : SafetyGracePrefix := replicate 5 bucket0.

Definition SAFETY_GRACE_PREFIX_VERSION : Z := 1.
Definition SAFETY_GRACE_PREFIX_LEN : nat := 201.

Definition enc_bucket (b : SafetyPrefixBucket) : list Z :=
  concat ((fun v => le_bytes 8 (wrap 64 v))
    <$> [hard_brake_ms b; brake_any_ms b; aggr_turn_ms b; turn_any_ms b; speeding_ms b]).
Definition dec_bucket (c : list Z) : SafetyPrefixBucket :=
  mkBucket (i64_at c 0) (i64_at c 8) (i64_at c 16) (i64_at c 24) (i64_at c 32).

Definition encode_safety_grace_prefix (p : SafetyGracePrefix) : list Z :=
  SAFETY_GRACE_PREFIX_VERSION :: concat (enc_bucket <$> p).

Definition decode_safety_grace_prefix (buf : option (list Z)) : SafetyGracePrefix :=
  match buf with
  | None => prefix_default
  | Some buf =>
      if negb (length buf =? SAFETY_GRACE_PREFIX_LEN)%nat
         || negb (byte_at buf 0 =? SAFETY_GRACE_PREFIX_VERSION)
      then prefix_default
      else (fun k => dec_bucket (slice buf (1 + k * 40) (1 + k * 40 + 40))) <$> seq 0 5
  end.

(** ** Layout laws *)

Lemma slice_app_0 {A} (a b : list A) n : length a = n -> slice (a ++ b) 0 n = a.
Proof. intros <-. unfold slice. by rewrite drop_0, Nat.sub_0_r, take_app_length. Qed.

Lemma slice_app_from {A} (a b : list A) m n :
  length a = m -> length b = n -> slice (a ++ b) m (m + n) = b.
Proof.
  intros <- <-. unfold slice. rewrite drop_app_length.
  replace (length a + length b - length a)%nat with (length b) by lia.
  by rewrite firstn_all.
Qed.

Lemma slice_byte (c : list Z) a b : Forall is_byte c -> Forall is_byte (slice c a b).
Proof. intros. unfold slice. by apply Forall_take, Forall_drop. Qed.

(** Splitting a chunk at a field boundary. *)
Lemma slice_split {A} (c : list A) m n :
  length c = (m + n)%nat -> slice c 0 m ++ slice c m (m + n) = c.
Proof.
  intros H. unfold slice. rewrite drop_0, Nat.sub_0_r.
  replace (m + n - m)%nat with n by lia.
  rewrite (firstn_all2 (drop m c)) by (rewrite length_drop; lia). apply take_drop.
Qed.

Lemma le_bytes_slice c a n b :
  Forall is_byte c -> b = (a + n)%nat -> (b <= length c)%nat ->
  le_bytes n (le_val (slice c a b)) = slice c a b.
Proof.
  intros Hc -> Hl. rewrite <- (le_bytes_val (slice c a (a + n))) at 2 by auto using slice_byte.
  by rewrite length_slice, Nat.add_comm, Nat.add_sub by lia.
Qed.

Lemma le_val_le_bytes_u w n z :
  w = 8 * Z.of_nat n -> in_u w z -> le_val (le_bytes n z) = z.
Proof.
  intros -> [? ?]. apply le_val_bytes_small. split; [done|].
  replace 256 with (2 ^ 8) by done. by rewrite <- Z.pow_mul_r by lia.
Qed.

#[export, refine] Instance point_codec : Codec GpsPoint := {|
  stride := POINT_STRIDE; enc := enc_point; dec := dec_point;
  codec_ok p := in_u 64 p.1 /\ in_u 64 p.2 |}.
Proof.
  - unfold POINT_STRIDE. lia.
  - intros [a b]. unfold enc_point. by rewrite length_app, !length_le_bytes.
  - intros [a b] [Ha Hb]. unfold dec_point, enc_point, u64_at. simpl fst in *. simpl snd in *.
    rewrite slice_app_0 by apply length_le_bytes.
    rewrite (slice_app_from _ _ 8 8) by apply length_le_bytes.
    by rewrite !(le_val_le_bytes_u 64).
Defined.

Lemma enc_dec_point c : Forall is_byte c -> length c = POINT_STRIDE -> enc_point (dec_point c) = c.
Proof.
  intros Hb Hl. unfold enc_point, dec_point, u64_at. simpl fst. simpl snd.
  rewrite (le_bytes_slice c 0 8), (le_bytes_slice c 8 8)
    by (auto; rewrite Hl; unfold POINT_STRIDE; lia).
  by apply (slice_split c 8 8).
Qed.

#[export, refine] Instance f32_codec : Codec Z := {|
  stride := F32_STRIDE; enc := enc_f32; dec := dec_f32; codec_ok v := in_u 32 v |}.
Proof.
  - unfold F32_STRIDE. lia.
  - intros v. apply length_le_bytes.
  - intros v Hv. unfold dec_f32, enc_f32, u32_at.
    rewrite <- (app_nil_r (le_bytes 4 v)), slice_app_0 by apply length_le_bytes.
    by rewrite (le_val_le_bytes_u 32).
Defined.

Lemma enc_dec_f32 c : Forall is_byte c -> length c = F32_STRIDE -> enc_f32 (dec_f32 c) = c.
Proof.
  intros Hb Hl. unfold enc_f32, dec_f32, u32_at, F32_STRIDE in *.
  rewrite (le_bytes_slice c 0 4) by (auto; lia).
  unfold slice. rewrite drop_0. by rewrite firstn_all2 by lia.
Qed.

(** The frame count survives the detour through [i32]. *)
Lemma dec_enc_frames g n t : in_u 32 n -> dec_frames (g :: enc_frames n ++ t) = n.
Proof.
  intros Hn. unfold dec_frames, enc_frames, u32_at.
  assert (slice (g :: le_bytes 4 (wrap 32 (i32 n)) ++ t) 1 (1 + 4) = le_bytes 4 (wrap 32 (i32 n))) as ->.
  { transitivity (slice (le_bytes 4 (wrap 32 (i32 n)) ++ t) 0 4); [done|].
    by rewrite slice_app_0. }
  rewrite (le_val_le_bytes_u 32) by auto with sentry.
  unfold i32. rewrite wrap_signed by lia. unfold u32. rewrite wrap_signed by lia.
  by rewrite !(wrap_small 32 n) by done.
Qed.

Lemma enc_dec_frames c :
  Forall is_byte c -> (5 <= length c)%nat -> enc_frames (dec_frames c) = slice c 1 5.
Proof.
  intros Hb Hl. unfold enc_frames, dec_frames, i32, u32.
  rewrite !wrap_signed by lia. rewrite (wrap_small 32 (wrap _ _)) by auto with sentry.
  assert (in_u 32 (u32_at c 1)) as Hr.
  { unfold u32_at. pose proof (le_val_range (slice c 1 5) ltac:(by apply slice_byte)) as Hv.
    by rewrite length_slice in Hv by lia. }
  rewrite wrap_small by done. by apply (le_bytes_slice c 1 4).
Qed.

Lemma length_enc_frames n : length (enc_frames n) = 4%nat.
Proof. apply length_le_bytes. Qed.

#[export, refine] Instance gear_run_codec : Codec GearRun := {|
  stride := GEAR_RUN_STRIDE; enc := enc_gear_run; dec := dec_gear_run; codec_ok := GearRun_ok |}.
Proof.
  - unfold GEAR_RUN_STRIDE. lia.
  - intros r. unfold enc_gear_run. cbn [length]. by rewrite length_enc_frames.
  - intros [g n] [Hg Hn]. unfold dec_gear_run, enc_gear_run. simpl gr_gear. simpl gr_frames.
    rewrite <- (app_nil_r (enc_frames n)). by rewrite dec_enc_frames.
Defined.

#[export, refine] Instance ap_run_codec : Codec ApRun := {|
  stride := AP_RUN_STRIDE; enc := enc_ap_run; dec := dec_ap_run; codec_ok := ApRun_ok |}.
Proof.
  - unfold AP_RUN_STRIDE. lia.
  - intros r. unfold enc_ap_run. cbn [length]. by rewrite length_enc_frames.
  - intros [g n] [Hg Hn]. unfold dec_ap_run, enc_ap_run. simpl ar_ap. simpl ar_frames.
    rewrite <- (app_nil_r (enc_frames n)). by rewrite dec_enc_frames.
Defined.

Lemma byte_at_slice c : (1 <= length c)%nat -> [byte_at c 0] = slice c 0 1.
Proof. destruct c; [simpl; lia | done]. Qed.

Lemma enc_dec_run5 c :
  Forall is_byte c -> length c = 5%nat -> byte_at c 0 :: enc_frames (dec_frames c) = c.
Proof.
  intros Hb Hl. rewrite enc_dec_frames by (done || lia).
  change (byte_at c 0 :: ?x) with ([byte_at c 0] ++ x).
  rewrite byte_at_slice by lia. by apply (slice_split c 1 4).
Qed.

Lemma codec_roundtrip {A} `{Codec A} (l : list A) :
  Forall codec_ok l -> decode_fixed stride dec (encode_fixed enc (Some l)) = Ok (Some l).
Proof.
  apply decode_encode_fixed; [apply stride_pos | apply length_enc | apply dec_enc].
Qed.

(** A decoder's verdict on a stored buffer: rejected for its length, or
    decoded to values that encode to the very same bytes. *)
Definition faithful {A} (n : nat) (e : option (list A) -> option (list Z))
    (buf : list Z) (r : result blob_error (option (list A))) : Prop :=
  match r with
  | Err (BadLength len s) => len = length buf /\ s = n /\ (length buf mod n <> 0)%nat
  | Ok None => False
  | Ok (Some l) => (length buf mod n = 0)%nat /\ e (Some l) = Some buf
  end.

Lemma decode_fixed_faithful {A} n (e : A -> list Z) (d : list Z -> A) buf :
  (0 < n)%nat -> (forall c, Forall is_byte c -> length c = n -> e (d c) = c) ->
  Forall is_byte buf -> faithful n (encode_fixed e) buf (decode_fixed n d (Some buf)).
Proof.
  intros Hn Hed Hb. destruct (decode_fixed n d (Some buf)) as [[l|]|[len s]] eqn:E.
  - split; [|by eapply encode_decode_fixed].
    unfold decode_fixed in E. by destruct (Nat.eqb_spec (length buf mod n) 0).
  - unfold decode_fixed in E. by destruct (_ =? _)%nat.
  - unfold decode_fixed in E. destruct (Nat.eqb_spec (length buf mod n) 0); naive_solver.
Qed.

(** One-decimal speeds, as [compute_flag_runs] stores them. *)
Definition one_decimal (k : Z) : Z := F64.div (F64.of_Z k) (F64.of_Z 10).

Definition speed_survives (k : Z) : bool :=
  let raw := F64.to_f32 (one_decimal k) in
  (0 <=? raw) && (raw <? 2 ^ 32) && F32.is_finite raw
  && (F64.div (F64.round (F64.mul (F32.to_f64 raw) (F64.of_Z 10))) (F64.of_Z 10)
        =? one_decimal k).

Lemma speeds_survive k : 0 <= k <= 1500 -> speed_survives k = true.
Proof.
  intros Hk.
  assert (forallb (fun i => speed_survives (Z.of_nat i)) (seq 0 1501) = true) as Hall
    by (vm_compute; reflexivity).
  rewrite forallb_forall in Hall. specialize (Hall (Z.to_nat k)).
  rewrite Z2Nat.id in Hall by lia. apply Hall, in_seq. lia.
Qed.

Definition FlagRun_ok (r : FlagRun) : Prop :=
  is_byte (fr_flags r) /\ in_u 32 (fr_frames r)
  /\ match fr_max_mps r with
     | None => True
     | Some m => exists k, 0 <= k <= 1500 /\ m = one_decimal k
     end.

Lemma dec_flag_fields g n v :
  is_byte g -> in_u 32 n -> in_u 32 v ->
  dec_flag_run (g :: enc_frames n ++ le_bytes 4 v)
  = mkFlagRun g n
      (if F32.is_finite v
       then Some (F64.div (F64.round (F64.mul (F32.to_f64 v) (F64.of_Z 10))) (F64.of_Z 10))
       else None).
Proof.
  intros Hg Hn Hv. unfold dec_flag_run. rewrite dec_enc_frames by done.
  assert (u32_at (g :: enc_frames n ++ le_bytes 4 v) 5 = v) as ->; [|done].
  unfold u32_at. change (g :: enc_frames n ++ le_bytes 4 v) with ((g :: enc_frames n) ++ le_bytes 4 v).
  rewrite (slice_app_from _ _ 5 4).
  - by apply (le_val_le_bytes_u 32).
  - cbn [length]. by rewrite length_enc_frames.
  - apply length_le_bytes.
Qed.

Lemma dec_enc_flag_run r : FlagRun_ok r -> dec_flag_run (enc_flag_run r) = r.
Proof.
  destruct r as [g n [m|]]; intros (Hg & Hn & Hm); unfold enc_flag_run;
    cbn [fr_flags fr_frames fr_max_mps] in *.
  - destruct Hm as (k & Hk & ->). pose proof (speeds_survive k Hk) as Hs.
    unfold speed_survives in Hs. bsimp.
    rewrite dec_flag_fields by (done || (split; lia)).
    match goal with H : F32.is_finite _ = true |- _ => rewrite H end. by repeat f_equal.
  - rewrite dec_flag_fields by (done || (split; vm_compute; congruence)). done.
Qed.

Lemma length_enc_bucket b : length (enc_bucket b) = 40%nat.
Proof. done. Qed.

Definition bucket_ok (b : SafetyPrefixBucket) : Prop :=
  in_i 64 (hard_brake_ms b) /\ in_i 64 (brake_any_ms b) /\ in_i 64 (aggr_turn_ms b)
  /\ in_i 64 (turn_any_ms b) /\ in_i 64 (speeding_ms b).

Lemma i64_at_concat vs i v :
  vs !! i = Some v -> in_i 64 v ->
  i64_at (concat ((fun v => le_bytes 8 (wrap 64 v)) <$> vs)) (i * 8) = v.
Proof.
  intros Hi Hv. unfold i64_at, u64_at.
  rewrite (slice_concat_enc 8 (fun v => le_bytes 8 (wrap 64 v))
             ltac:(intros; apply length_le_bytes) _ _ _ Hi).
  rewrite (le_val_le_bytes_u 64) by auto with sentry. by apply signed_wrap.
Qed.

Lemma dec_enc_bucket b : bucket_ok b -> dec_bucket (enc_bucket b) = b.
Proof.
  destruct b as [a b c d e]; intros (Ha & Hb & Hc & Hd & He). unfold dec_bucket, enc_bucket.
  cbn [hard_brake_ms brake_any_ms aggr_turn_ms turn_any_ms speeding_ms] in *.
  f_equal; [apply (i64_at_concat _ 0) | apply (i64_at_concat _ 1) | apply (i64_at_concat _ 2)
           | apply (i64_at_concat _ 3) | apply (i64_at_concat _ 4)]; done.
Qed.

(** ** Properties *)

(** C19: values through bytes. What the encoders write for points, [f32] arrays,
    gear runs and autopilot runs, the decoders read back unchanged, every value
    of the field widths included (NaN and infinity bit patterns, and frame
    counts above [i32::MAX], which are stored through a signed cast). *)
Theorem blob_roundtrip (pts : list GpsPoint) (fs : list Z) (gs : list GearRun) (aps : list ApRun) :
  Forall (fun p => in_u 64 p.1 /\ in_u 64 p.2) pts -> Forall (in_u 32) fs ->
  Forall GearRun_ok gs -> Forall ApRun_ok aps ->
  decode_points (encode_points (Some pts)) = Ok (Some pts)
  /\ decode_f32s (encode_f32s (Some fs)) = Ok (Some fs)
  /\ decode_gear_runs (encode_gear_runs (Some gs)) = Ok (Some gs)
  /\ decode_ap_runs (encode_ap_runs (Some aps)) = Ok (Some aps).
Proof.
  intros Hp Hf Hg Ha.
  exact (conj (codec_roundtrip pts Hp) (conj (codec_roundtrip fs Hf)
    (conj (codec_roundtrip gs Hg) (codec_roundtrip aps Ha)))).
Qed.

Lemma blob_roundtrip_witness :
  decode_points (encode_points (Some [(0x7FF8000000000123, 2 ^ 63)]))
    = Ok (Some [(0x7FF8000000000123, 2 ^ 63)])
  /\ decode_f32s (encode_f32s (Some [0xFFC00001])) = Ok (Some [0xFFC00001])
  /\ decode_gear_runs (encode_gear_runs (Some [mkGearRun 1 4294967295]))
    = Ok (Some [mkGearRun 1 4294967295])
  /\ decode_ap_runs (encode_ap_runs (Some [mkApRun 255 0])) = Ok (Some [mkApRun 255 0]).
Proof. apply blob_roundtrip; repeat constructor; done. Defined.

(** Bytes through values. A stored buffer of any of the four formats is
    either rejected, exactly when its length is not a multiple of the stride,
    or decodes to values that encode to the same bytes. *)
Theorem blob_bytes_preserved (buf : list Z) :
  Forall is_byte buf ->
  faithful POINT_STRIDE encode_points buf (decode_points (Some buf))
  /\ faithful F32_STRIDE encode_f32s buf (decode_f32s (Some buf))
  /\ faithful GEAR_RUN_STRIDE encode_gear_runs buf (decode_gear_runs (Some buf))
  /\ faithful AP_RUN_STRIDE encode_ap_runs buf (decode_ap_runs (Some buf)).
Proof.
  intros Hb. repeat split; apply decode_fixed_faithful; try done; try (unfold lt; repeat constructor).
  - apply enc_dec_point.
  - apply enc_dec_f32.
  - intros c Hc Hl. by apply enc_dec_run5.
  - intros c Hc Hl. by apply enc_dec_run5.
Qed.

Lemma blob_bytes_preserved_witness :
  faithful POINT_STRIDE encode_points (replicate 16 255) (decode_points (Some (replicate 16 255)))
  /\ faithful F32_STRIDE encode_f32s (replicate 16 255) (decode_f32s (Some (replicate 16 255)))
  /\ faithful GEAR_RUN_STRIDE encode_gear_runs (replicate 16 255) (decode_gear_runs (Some (replicate 16 255)))
  /\ faithful AP_RUN_STRIDE encode_ap_runs (replicate 16 255) (decode_ap_runs (Some (replicate 16 255))).
Proof. apply blob_bytes_preserved. apply Forall_replicate. done. Defined.

(** Flag runs keep their one-decimal speeds. The [f32] on disk loses
    digits, and rounding to a tenth on the way in restores exactly the
    [f64] that was written, for every tenth up to 150 m/s; a run without a
    speed stays without one. *)
Theorem flag_runs_roundtrip (rs : list FlagRun) :
  Forall FlagRun_ok rs -> decode_flag_runs (encode_flag_runs (Some rs)) = Ok (Some rs).
Proof.
  apply decode_encode_fixed.
  - unfold FLAG_RUN_STRIDE. lia.
  - intros r. unfold enc_flag_run. cbn [length].
    by rewrite length_app, length_enc_frames, length_le_bytes.
  - apply dec_enc_flag_run.
Qed.

Lemma flag_runs_roundtrip_witness :
  decode_flag_runs (encode_flag_runs (Some [mkFlagRun 3 60 (Some (one_decimal 27)); mkFlagRun 0 7 None]))
  = Ok (Some [mkFlagRun 3 60 (Some (one_decimal 27)); mkFlagRun 0 7 None]).
Proof.
  apply flag_runs_roundtrip. repeat constructor; try done.
  exists 27. split; [lia | reflexivity].
Defined.

(** The safety grace prefix round-trips, and a buffer of another length or
    version reads as the all-zero prefix. *)
Theorem grace_prefix_roundtrip (p : SafetyGracePrefix) :
  length p = 5%nat -> Forall bucket_ok p ->
  decode_safety_grace_prefix (Some (encode_safety_grace_prefix p)) = p
  /\ (forall buf, length buf <> SAFETY_GRACE_PREFIX_LEN
        \/ byte_at buf 0 <> SAFETY_GRACE_PREFIX_VERSION ->
        decode_safety_grace_prefix (Some buf) = prefix_default).
Proof.
  intros Hl Hp. split.
  - unfold decode_safety_grace_prefix, encode_safety_grace_prefix.
    assert (length (SAFETY_GRACE_PREFIX_VERSION :: concat (enc_bucket <$> p)) = SAFETY_GRACE_PREFIX_LEN) as Hlen.
    { cbn [length]. by rewrite (length_concat_enc 40) by apply length_enc_bucket; rewrite Hl. }
    rewrite Hlen. change (negb _ || negb _) with false. cbv iota. apply list_eq. intros i.
    destruct (p !! i) as [b|] eqn:Hi.
    + pose proof (lookup_lt_Some _ _ _ Hi). rewrite list_lookup_fmap, lookup_seq_lt by lia.
      transitivity (Some (dec_bucket (enc_bucket b)));
        [|by rewrite dec_enc_bucket by (by eapply Forall_lookup_1)].
      change (Some (dec_bucket (slice (concat (enc_bucket <$> p)) (i * 40) (i * 40 + 40)))
              = Some (dec_bucket (enc_bucket b))).
      by rewrite (slice_concat_enc 40 enc_bucket length_enc_bucket _ _ _ Hi).
    + apply lookup_ge_None in Hi. rewrite list_lookup_fmap, lookup_seq_ge by lia. done.
  - intros buf Hor. unfold decode_safety_grace_prefix.
    destruct (Nat.eqb_spec (length buf) SAFETY_GRACE_PREFIX_LEN);
      destruct (Z.eqb_spec (byte_at buf 0) SAFETY_GRACE_PREFIX_VERSION); simpl; tauto.
Qed.

Lemma grace_prefix_roundtrip_witness :
  decode_safety_grace_prefix (Some (encode_safety_grace_prefix (replicate 5 (mkBucket 1 (-2) 3 4 (- 2 ^ 63)))))
  = replicate 5 (mkBucket 1 (-2) 3 4 (- 2 ^ 63)).
Proof.
  apply (grace_prefix_roundtrip (replicate 5 (mkBucket 1 (-2) 3 4 (- 2 ^ 63)))); [done|].
  apply Forall_replicate. unfold bucket_ok, in_i. simpl. lia.
Defined.
