(* ===== verification/Extract.v ===== *)
(** * Telemetry extraction from dashcam clips ([crates/drives/src/extract.rs])

    [find_mdat_box] and [extract_from_mdat] scan the MP4's media data for H.264
    SEI units, [parse_tesla_sei] and [decode_sei_gps] decode Tesla's protobuf
    metadata, and [assemble_extracted] turns the per-frame arrays into run-length
    encodings and deduplicated points.

    A file is its bytes; a read past the end is short, as for a regular file.
    [usize] and [u64] are 64 bits wide and wrap, as in the release build. The
    loops whose index can wrap take fuel: [None] is "still running". *)

From Stdlib Require Import ZArith Lia.
From stdpp Require Import base list.
From S2P Require Import Prelude Bytes Float Types.

Open Scope Z_scope.

(** ** Decoded data *)

Record SeiFrame := mkSeiFrame {
  sf_lat : Z; sf_lon : Z; sf_gear : Z; sf_ap_state : Z; sf_speed : Z; sf_accel_pos : Z;
  sf_blinker_left : bool; sf_blinker_right : bool; sf_brake : bool;
  sf_accel_x : Z; sf_accel_y : Z; sf_steering_deg : Z;
}.

Record RawFrameArrays := mkArrays {
  ra_points : list GpsPoint; ra_gears : list Z; ra_ap_states : list Z; ra_speeds : list Z;
  ra_accel_positions : list Z; ra_flags : list Z; ra_accel_x : list Z; ra_accel_y : list Z;
}.

Record SeiScan := mkScan {
  sc_arrays : RawFrameArrays; sc_sei_offsets : list Z; sc_frame_indexes : list Z;
  sc_steering_deg : list Z; sc_frame_count : Z;
}.

Record ExtractedGps := mkExtracted {
  ex_points : list GpsPoint; ex_gear_states : list Z; ex_autopilot_states : list Z;
  ex_speeds : list Z; ex_accel_positions : list Z; ex_raw_park_count : Z;
  ex_raw_frame_count : Z; ex_gear_runs : list GearRun; ex_flag_runs : list FlagRun;
  ex_ap_runs : list ApRun; ex_accel_x : list Z; ex_accel_y : list Z;
}.

Definition arrays_empty : RawFrameArrays := mkArrays [] [] [] [] [] [] [] [].
Definition scan_empty : SeiScan := mkScan arrays_empty [] [] [] 0.
Definition extracted_empty : ExtractedGps := mkExtracted [] [] [] [] [] 0 0 [] [] [] [] [].

(** ** Reading a file at a position *)

(** The bytes at [pos], [n] of them or as many as the file still has. *)
Definition read_at (file : list Z) (pos : Z) (n : nat) : list Z :=
  take n (drop (Z.to_nat pos) file).
Definition read_exact (file : list Z) (pos : Z) (n : nat) : option (list Z) :=
  let b := read_at file pos n in if (length b =? n)%nat then Some b else None.

Definition file_len (file : list Z) : Z := Z.of_nat (length file).

(** ** The mdat box *)

Definition tag_mdat : list Z := [109; 100; 97; 116].

(** One turn of the box loop: stop with a result, or go on at a position. *)
Inductive turn (R S : Type) := Stop (r : R) | Continue (s : S).
Arguments Stop {R S} _.
Arguments Continue {R S} _.

Definition find_mdat_step (file : list Z) (pos : Z) : turn (Z * Z) Z :=
  let file_size := file_len file in
  if negb (pos <? file_size) then Stop (0, 0)
  else
    let h := read_at file pos 8 in
    if (length h <? 8)%nat then Stop (0, 0)
    else
      let box_size := be_val (take 4 h) in
      let is_mdat := bool_decide (drop 4 h = tag_mdat) in
      let sized : option (Z * Z) :=
        if box_size =? 1 then
          let e := read_at file (pos + 8) 8 in
          if (length e <? 8)%nat then None else Some (be_val e, 16)
        else if box_size =? 0 then Some (file_size - pos, 8)
        else Some (box_size, 8) in
      match sized with
      | None => Stop (0, 0)
      | Some (box_size, header_size) =>
          if box_size <? header_size then Stop (0, 0)
          else if is_mdat then Stop (u64 (pos + header_size), box_size - header_size)
          else Continue (u64 (pos + box_size))
      end.

Fixpoint find_mdat_loop (fuel : nat) (file : list Z) (pos : Z) : option (Z * Z) :=
  match fuel with
  | O => None
  | S fuel =>
      match find_mdat_step file pos with
      | Stop r => Some r
      | Continue pos' => find_mdat_loop fuel file pos'
      end
  end.

Definition find_mdat_box (fuel : nat) (file : list Z) : option (Z * Z) :=
  find_mdat_loop fuel file 0.

(** ** Protobuf *)

(** [decode_varint]: the value and the bytes it took, [(0, 0)] on failure. *)
Fixpoint decode_varint_at (i : nat) (val : Z) (data : list Z) : Z * nat :=
  match data with
  | [] => (0, 0%nat)
  | b :: t =>
      if (10 <=? i)%nat then (0, 0%nat)
      else
        let val := Z.lor val (u64 (Z.shiftl (Z.land b 0x7F) (7 * Z.of_nat i))) in
        if b <? 0x80 then (val, S i) else decode_varint_at (S i) val t
  end.
Definition decode_varint (data : list Z) : Z * nat := decode_varint_at 0 0 data.

(** The fields of the metadata message as they are being filled in. *)
Record sei_fields := mkFields {
  fl_lat : Z; fl_lon : Z; fl_gear : Z; fl_ap : Z; fl_speed : Z; fl_accel_pos : Z;
  fl_left : bool; fl_right : bool; fl_brake : bool; fl_ax : Z; fl_ay : Z; fl_steer : Z;
}.
Definition fields0 : sei_fields := mkFields 0 0 0 0 0 0 false false false 0 0 0.

Definition set_varint (f : sei_fields) (num val : Z) : sei_fields :=
  let '(mkFields lat lon gear ap speed pos l r b ax ay st) := f in
  let nz := negb (val =? 0) in
  if num =? 2 then mkFields lat lon (val mod 256) ap speed pos l r b ax ay st
  else if num =? 7 then mkFields lat lon gear ap speed pos nz r b ax ay st
  else if num =? 8 then mkFields lat lon gear ap speed pos l nz b ax ay st
  else if num =? 9 then mkFields lat lon gear ap speed pos l r nz ax ay st
  else if num =? 10 then mkFields lat lon gear (val mod 256) speed pos l r b ax ay st
  else f.

Definition set_fixed64 (f : sei_fields) (num bits : Z) : sei_fields :=
  let '(mkFields lat lon gear ap speed pos l r b ax ay st) := f in
  if num =? 11 then mkFields bits lon gear ap speed pos l r b ax ay st
  else if num =? 12 then mkFields lat bits gear ap speed pos l r b ax ay st
  else if num =? 14 then mkFields lat lon gear ap speed pos l r b (F64.to_f32 bits) ay st
  else if num =? 15 then mkFields lat lon gear ap speed pos l r b ax (F64.to_f32 bits) st
  else f.

Definition set_fixed32 (f : sei_fields) (num bits : Z) : sei_fields :=
  let '(mkFields lat lon gear ap speed pos l r b ax ay st) := f in
  if num =? 4 then mkFields lat lon gear ap bits pos l r b ax ay st
  else if num =? 5 then mkFields lat lon gear ap speed bits l r b ax ay st
  else if num =? 6 then mkFields lat lon gear ap speed pos l r b ax ay bits
  else f.

(** One turn of the field loop at index [i]: [Stop (Some f)] leaves the loop
    with the fields, [Stop None] is the early [return None]. *)
Definition sei_step (data : list Z) (st : Z * sei_fields)
    : turn (option sei_fields) (Z * sei_fields) :=
  let '(i, f) := st in
  let len := Z.of_nat (length data) in
  let from k := drop (Z.to_nat k) data in
  if negb (i <? len) then Stop (Some f)
  else
    let '(tag, n) := decode_varint (from i) in
    if (n =? 0)%nat then Stop (Some f)
    else
      let i := u64 (i + Z.of_nat n) in
      let field_num := Z.shiftr tag 3 in
      let wire_type := Z.land tag 7 in
      if wire_type =? 0 then
        let '(val, vn) := decode_varint (from i) in
        if (vn =? 0)%nat then Stop None
        else Continue (u64 (i + Z.of_nat vn), set_varint f field_num val)
      else if wire_type =? 1 then
        if len <? i + 8 then Stop None
        else Continue (u64 (i + 8), set_fixed64 f field_num (le_val (take 8 (from i))))
      else if wire_type =? 2 then
        let '(length, vn) := decode_varint (from i) in
        if (vn =? 0)%nat then Stop None
        else Continue (u64 (i + u64 (Z.of_nat vn + length)), f)
      else if wire_type =? 5 then
        if len <? i + 4 then Stop None
        else Continue (u64 (i + 4), set_fixed32 f field_num (le_val (take 4 (from i))))
      else Stop None.

Fixpoint sei_loop (fuel : nat) (data : list Z) (st : Z * sei_fields) : option (option sei_fields) :=
  match fuel with
  | O => None
  | S fuel =>
      match sei_step data st with
      | Stop r => Some r
      | Continue st' => sei_loop fuel data st'
      end
  end.

(** Coordinate validation and the final frame. *)
Definition sei_finish (f : sei_fields) : option SeiFrame :=
  let clean v := if F32.is_finite v then v else F32.zero in
  if F64.is_finite (fl_lat f) && F64.is_finite (fl_lon f)
     && negb (F64.eq (fl_lat f) F64.zero && F64.eq (fl_lon f) F64.zero)
     && F64.le (F64.abs (fl_lat f)) (F64.of_Z 90)
     && F64.le (F64.abs (fl_lon f)) (F64.of_Z 180)
  then Some (mkSeiFrame (fl_lat f) (fl_lon f) (fl_gear f) (fl_ap f) (fl_speed f) (fl_accel_pos f)
               (fl_left f) (fl_right f) (fl_brake f)
               (clean (fl_ax f)) (clean (fl_ay f)) (clean (fl_steer f)))
  else None.

Definition decode_sei_gps (fuel : nat) (data : list Z) : option (option SeiFrame) :=
  r ← sei_loop fuel data (0, fields0);
  Some (f ← r; sei_finish f).

(** ** SEI units *)

Fixpoint strip_loop (zeros : Z) (data : list Z) : list Z :=
  match data with
  | [] => []
  | b :: t =>
      if (2 <=? zeros) && (b =? 3) then strip_loop 0 t
      else b :: strip_loop (if b =? 0 then u32 (zeros + 1) else 0) t
  end.
Definition strip_emulation_bytes (data : list Z) : list Z := strip_loop 0 data.

(** The index after the run of 0x42 bytes that starts at 3. *)
Fixpoint magic_run (nal : list Z) : nat :=
  match nal with
  | b :: t => if b =? 0x42 then S (magic_run t) else 0
  | [] => 0%nat
  end.

Definition parse_tesla_sei (fuel : nat) (nal : list Z) : option (option SeiFrame) :=
  let i := (3 + magic_run (drop 3 nal))%nat in
  if (i <=? 3)%nat || (length nal <=? i + 1)%nat || negb (default 0 (nal !! i) =? 0x69)
  then Some None
  else
    let payload := drop (i + 1) nal in
    let payload := if (1 <? length payload)%nat then take (length payload - 1) payload else payload in
    decode_sei_gps fuel (strip_emulation_bytes payload).

(** ** The mdat scan *)

Definition BUF_SIZE : Z := 64 * 1024.

Definition flag_byte (f : SeiFrame) : Z :=
  Z.lor (Z.lor (Z.lor (if sf_blinker_left f then FLAG_BLINKER_LEFT else 0)
                      (if sf_blinker_right f then FLAG_BLINKER_RIGHT else 0))
               (if sf_brake f then FLAG_BRAKE else 0))
        (if F32.lt F32.zero (sf_accel_pos f) then FLAG_ACCEL else 0).

Definition round6 (v : Z) : Z :=
  F64.div (F64.round (F64.mul v (F64.of_Z 1000000))) (F64.of_Z 1000000).

Definition push_frame (s : SeiScan) (nal_offset : Z) (f : SeiFrame) : SeiScan :=
  let a := sc_arrays s in
  mkScan
    (mkArrays (ra_points a ++ [(round6 (sf_lat f), round6 (sf_lon f))])
       (ra_gears a ++ [sf_gear f]) (ra_ap_states a ++ [sf_ap_state f])
       (ra_speeds a ++ [sf_speed f]) (ra_accel_positions a ++ [sf_accel_pos f])
       (ra_flags a ++ [flag_byte f]) (ra_accel_x a ++ [sf_accel_x f])
       (ra_accel_y a ++ [sf_accel_y f]))
    (sc_sei_offsets s ++ [nal_offset]) (sc_frame_indexes s ++ [sc_frame_count s])
    (sc_steering_deg s ++ [sf_steering_deg f]) (sc_frame_count s).

Definition count_frame (s : SeiScan) : SeiScan :=
  mkScan (sc_arrays s) (sc_sei_offsets s) (sc_frame_indexes s) (sc_steering_deg s)
    (u32 (sc_frame_count s + 1)).

(** One NAL unit. [pfuel] is the fuel of the metadata decoder; its running out
    is the outer [None]. *)
Definition nal_step (pfuel : nat) (file : list Z) (stop : Z) (st : Z * SeiScan)
    : option (turn SeiScan (Z * SeiScan)) :=
  let '(cursor, s) := st in
  if negb (u64 (cursor + 4) <=? stop) then Some (Stop s)
  else match read_exact file cursor 4 with
  | None => Some (Stop s)
  | Some size_buf =>
      let nal_offset := cursor in
      let cursor := u64 (cursor + 4) in
      let nal_size := be_val size_buf in
      if (nal_size <? 2) || (stop <? u64 (cursor + nal_size)) then Some (Stop s)
      else match read_exact file cursor 1 with
      | None => Some (Stop s)
      | Some type_buf =>
          let nal_type := Z.land (default 0 (type_buf !! 0%nat)) 0x1F in
          let next := u64 (cursor + nal_size) in
          if (nal_type =? 6) && (nal_size <=? BUF_SIZE) then
            match read_exact file cursor (Z.to_nat nal_size) with
            | None => Some (Stop s)
            | Some nal =>
                r ← parse_tesla_sei pfuel nal;
                Some (Continue (next, match r with
                                      | Some frame => push_frame s nal_offset frame
                                      | None => s
                                      end))
            end
          else if (nal_type =? 1) || (nal_type =? 5) then
            match read_exact file (cursor + 1) 1 with
            | None => Some (Stop s)
            | Some header =>
                Some (Continue (next,
                  if Z.testbit (default 0 (header !! 0%nat)) 7 then count_frame s else s))
            end
          else Some (Continue (next, s))
      end
  end.

Fixpoint nal_loop (fuel pfuel : nat) (file : list Z) (stop : Z) (st : Z * SeiScan) : option SeiScan :=
  match fuel with
  | O => None
  | S fuel =>
      r ← nal_step pfuel file stop st;
      match r with
      | Stop s => Some s
      | Continue st' => nal_loop fuel pfuel file stop st'
      end
  end.

Definition extract_from_mdat (fuel pfuel : nat) (file : list Z) (offset size : Z) : option SeiScan :=
  nal_loop fuel pfuel file (u64 (offset + size)) (offset, scan_empty).

Definition scan_sei_frames (fuel pfuel : nat) (file : list Z) : option SeiScan :=
  '(offset, size) ← find_mdat_box fuel file;
  if size =? 0 then Some scan_empty else extract_from_mdat fuel pfuel file offset size.

Definition extract_gps_from_file_raw (fuel pfuel : nat) (file : list Z) : option RawFrameArrays :=
  sc_arrays <$> scan_sei_frames fuel pfuel file.

(** ** Run-length encodings over raw frames *)

Fixpoint gear_runs_loop (current_gear count : Z) (gears : list Z) : list GearRun :=
  match gears with
  | [] => [mkGearRun current_gear count]
  | g :: t =>
      if g =? current_gear then gear_runs_loop current_gear (u32 (count + 1)) t
      else mkGearRun current_gear count :: gear_runs_loop g 1 t
  end.
Definition compute_gear_runs (gears : list Z) : list GearRun :=
  match gears with [] => [] | g :: t => gear_runs_loop g 1 t end.

Fixpoint ap_runs_loop (current_ap count : Z) (aps : list Z) : list ApRun :=
  match aps with
  | [] => [mkApRun current_ap count]
  | a :: t =>
      if a =? current_ap then ap_runs_loop current_ap (u32 (count + 1)) t
      else mkApRun current_ap count :: ap_runs_loop a 1 t
  end.
Definition compute_ap_runs (aps : list Z) : list ApRun :=
  match aps with [] => [] | a :: t => ap_runs_loop a 1 t end.

Definition r1 (v : Z) : Z := F64.div (F64.round (F64.mul v (F64.of_Z 10))) (F64.of_Z 10).

Definition speed_at (speeds : option (list Z)) (i : nat) : Z :=
  match s ← speeds; s !! i with
  | Some v => F64.abs (F32.to_f64 v)
  | None => F64.zero
  end.

Definition flag_run (speeds : option (list Z)) (flags count max_abs : Z) : FlagRun :=
  mkFlagRun flags count ((fun _ => r1 max_abs) <$> speeds).

Fixpoint flag_runs_loop (speeds : option (list Z)) (i : nat) (current_flags count max_abs : Z)
    (flags : list Z) : list FlagRun :=
  match flags with
  | [] => [flag_run speeds current_flags count max_abs]
  | f :: t =>
      let a := speed_at speeds i in
      if f =? current_flags then
        flag_runs_loop speeds (S i) current_flags (u32 (count + 1))
          (if F64.lt max_abs a then a else max_abs) t
      else flag_run speeds current_flags count max_abs
             :: flag_runs_loop speeds (S i) f 1 a t
  end.
Definition compute_flag_runs (flags : list Z) (speeds : option (list Z)) : list FlagRun :=
  match flags with
  | [] => []
  | f :: t => flag_runs_loop speeds 1 f 1 (speed_at speeds 0) t
  end.

(** ** Deduplication of consecutive fixes

    The source compacts seven parallel vectors in place with a read and a
    write index. [None] is an index out of range (a panic). *)

Definition pt_eq (p q : GpsPoint) : bool := F64.eq p.1 q.1 && F64.eq p.2 q.2.

(** [l[w] = l[r]] *)
Definition copy_index {A} (l : list A) (w r : nat) : option (list A) :=
  x ← l !! r; if (w <? length l)%nat then Some (<[w:=x]> l) else None.

(** [if l[r].abs() > l[w].abs() { l[w] = l[r] }] *)
Definition fold_peak (l : list Z) (w r : nat) : option (list Z) :=
  x ← l !! r; y ← l !! w;
  Some (if F32.lt (F32.abs y) (F32.abs x) then <[w:=x]> l else l).

Definition dedup_step (has_imu : bool) (st : option (nat * RawFrameArrays)) (read : nat)
    : option (nat * RawFrameArrays) :=
  '(write, a) ← st;
  pr ← ra_points a !! read;
  pw ← ra_points a !! write;
  if negb (pt_eq pr pw) then
    let write := S write in
    points ← copy_index (ra_points a) write read;
    gears ← copy_index (ra_gears a) write read;
    aps ← copy_index (ra_ap_states a) write read;
    speeds ← copy_index (ra_speeds a) write read;
    poss ← copy_index (ra_accel_positions a) write read;
    ax ← (if has_imu then copy_index (ra_accel_x a) write read else Some (ra_accel_x a));
    ay ← (if has_imu then copy_index (ra_accel_y a) write read else Some (ra_accel_y a));
    Some (write, mkArrays points gears aps speeds poss (ra_flags a) ax ay)
  else
    ax ← (if has_imu then fold_peak (ra_accel_x a) write read else Some (ra_accel_x a));
    ay ← (if has_imu then fold_peak (ra_accel_y a) write read else Some (ra_accel_y a));
    Some (write, mkArrays (ra_points a) (ra_gears a) (ra_ap_states a) (ra_speeds a)
                   (ra_accel_positions a) (ra_flags a) ax ay).

Definition dedup_consecutive (a : RawFrameArrays) : option RawFrameArrays :=
  let n := length (ra_points a) in
  if (n <=? 1)%nat then Some a
  else
    let has_imu := (length (ra_accel_x a) =? n)%nat && (length (ra_accel_y a) =? n)%nat in
    '(write, a) ← foldl (dedup_step has_imu) (Some (0%nat, a)) (seq 1 (n - 1));
    let new_len := S write in
    Some (mkArrays (take new_len (ra_points a)) (take new_len (ra_gears a))
            (take new_len (ra_ap_states a)) (take new_len (ra_speeds a))
            (take new_len (ra_accel_positions a)) (ra_flags a)
            (if has_imu then take new_len (ra_accel_x a) else ra_accel_x a)
            (if has_imu then take new_len (ra_accel_y a) else ra_accel_y a)).

(** ** Assembly: counts and run-length encodings first, deduplication last *)

Definition count_park (gears : list Z) : Z :=
  Z.of_nat (length (List.filter (fun g => g =? GEAR_PARK) gears)).

Definition assemble_extracted (a : RawFrameArrays) : option ExtractedGps :=
  let raw_frame_count := u32 (Z.of_nat (length (ra_gears a))) in
  let raw_park_count := u32 (count_park (ra_gears a)) in
  let gear_runs := compute_gear_runs (ra_gears a) in
  let flag_runs := compute_flag_runs (ra_flags a) (Some (ra_speeds a)) in
  let ap_runs := compute_ap_runs (ra_ap_states a) in
  let no_imu := forallb (fun v => F32.eq v F32.zero) (ra_accel_x a)
                && forallb (fun v => F32.eq v F32.zero) (ra_accel_y a) in
  let a := if no_imu
           then mkArrays (ra_points a) (ra_gears a) (ra_ap_states a) (ra_speeds a)
                  (ra_accel_positions a) (ra_flags a) [] []
           else a in
  d ← dedup_consecutive a;
  Some (mkExtracted (ra_points d) (ra_gears d) (ra_ap_states d) (ra_speeds d)
          (ra_accel_positions d) raw_park_count raw_frame_count gear_runs flag_runs ap_runs
          (ra_accel_x d) (ra_accel_y d)).

Definition extract_gps_from_file (fuel pfuel : nat) (file : list Z) : option (option ExtractedGps) :=
  '(offset, size) ← find_mdat_box fuel file;
  if size =? 0 then Some (Some extracted_empty)
  else
    s ← extract_from_mdat fuel pfuel file offset size;
    Some (assemble_extracted (sc_arrays s)).
