(* ===== verification/ExtractRuns.v ===== *)
(** * Facts on the extraction's run-length encodings and deduplication

    The three encoders of [Extract] share one loop shape, [rle_loop]; the
    in-place compaction of the parallel vectors refines the functional
    [collapse_by]. *)

From Stdlib Require Import ZArith Lia.
From stdpp Require Import base list sorting.
From S2P Require Import Prelude Bytes Float Types Extract.

Open Scope Z_scope.

(** ** Run-length encodings *)

Fixpoint rle_loop (cur count : Z) (l : list Z) : list (Z * Z) :=
  match l with
  | [] => [(cur, count)]
  | x :: t =>
      if x =? cur then rle_loop cur (u32 (count + 1)) t
      else (cur, count) :: rle_loop x 1 t
  end.
Definition rle (l : list Z) : list (Z * Z) :=
  match l with [] => [] | x :: t => rle_loop x 1 t end.

Lemma gear_runs_rle gears :
  (fun r => (gr_gear r, gr_frames r)) <$> compute_gear_runs gears = rle gears.
Proof.
  destruct gears as [|g t]; [done|]. simpl. generalize 1 as c. revert g.
  induction t as [|x t IH]; intros g c; csimpl; [done|].
  destruct (x =? g); csimpl; [apply IH | f_equal; apply IH].
Qed.

Lemma ap_runs_rle aps :
  (fun r => (ar_ap r, ar_frames r)) <$> compute_ap_runs aps = rle aps.
Proof.
  destruct aps as [|g t]; [done|]. simpl. generalize 1 as c. revert g.
  induction t as [|x t IH]; intros g c; csimpl; [done|].
  destruct (x =? g); csimpl; [apply IH | f_equal; apply IH].
Qed.

Lemma flag_runs_loop_rle speeds flags : forall i f c m,
  (fun r => (fr_flags r, fr_frames r)) <$> flag_runs_loop speeds i f c m flags
  = rle_loop f c flags.
Proof.
  induction flags as [|x t IH]; intros i f c m; csimpl; [done|].
  destruct (x =? f); csimpl; [apply IH | f_equal; apply IH].
Qed.

Lemma flag_runs_rle flags speeds :
  (fun r => (fr_flags r, fr_frames r)) <$> compute_flag_runs flags speeds = rle flags.
Proof. destruct flags; [done|]. apply flag_runs_loop_rle. Qed.

Lemma rle_loop_expand l : forall cur count,
  1 <= count -> count + Z.of_nat (length l) < 2 ^ 32 ->
  expand (rle_loop cur count l) = replicate (Z.to_nat count) cur ++ l.
Proof.
  induction l as [|x t IH]; intros cur count Hc Hl; cbn [rle_loop length] in *.
  - by rewrite expand_cons.
  - destruct (Z.eqb_spec x cur) as [->|Hne].
    + rewrite u32_small by lia. rewrite IH by lia.
      replace (Z.to_nat (count + 1)) with (Z.to_nat count + 1)%nat by lia.
      by rewrite replicate_add, <- app_assoc.
    + rewrite expand_cons, IH by lia. done.
Qed.

Lemma rle_loop_canonical l : forall cur count,
  1 <= count -> count + Z.of_nat (length l) < 2 ^ 32 ->
  Forall (fun n => 1 <= n < 2 ^ 32) (rle_loop cur count l).*2
  /\ head (rle_loop cur count l).*1 = Some cur
  /\ Sorted (fun a b => a <> b) (rle_loop cur count l).*1.
Proof.
  induction l as [|x t IH]; intros cur count Hc Hl; cbn [rle_loop length] in *.
  - csimpl. repeat constructor; lia.
  - destruct (Z.eqb_spec x cur) as [->|Hne].
    + rewrite u32_small by lia. apply IH; lia.
    + destruct (IH x 1) as (Hf & Hh & Hs); [lia..|]. csimpl. split_and!; [constructor; [lia|done] | done |].
      constructor; [done|]. destruct (rle_loop x 1 t).*1; simpl in Hh; [done|].
      injection Hh as ->. constructor. congruence.
Qed.

(** [frames_of] reads a run list of the given shape; it covers [l] exactly, no
    run is empty and neighbouring runs differ. *)
Definition covers (runs : list (Z * Z)) (l : list Z) : Prop :=
  expand runs = l /\ Forall (fun n => 1 <= n < 2 ^ 32) runs.*2
  /\ Sorted (fun a b => a <> b) runs.*1.

Lemma rle_covers l : Z.of_nat (length l) < 2 ^ 32 -> covers (rle l) l.
Proof.
  destruct l as [|x t]; intros Hl; [by repeat constructor|]. cbn [length] in Hl.
  destruct (rle_loop_canonical t x 1) as (? & ? & ?); [lia..|].
  split_and!; [|done..]. simpl. by rewrite rle_loop_expand by lia.
Qed.

Lemma rle_sum l : Z.of_nat (length l) < 2 ^ 32 -> sum_Z (rle l).*2 = Z.of_nat (length l).
Proof.
  intros Hl. destruct (rle_covers l Hl) as (He & Hf & _).
  rewrite <- He at 2. rewrite length_expand; [done|].
  eapply Forall_impl; [exact Hf|]. simpl. lia.
Qed.

(** ** Two-pointer compaction *)

Section compaction.
Context {A : Type} (f : A -> A -> A).

(** The functional reference: a [true] decision keeps the next element, a
    [false] one folds it into the current one. *)
Fixpoint collapse_by (dec : list bool) (cur : A) (rest : list A) : list A :=
  match dec, rest with
  | true :: dec, x :: rest => cur :: collapse_by dec x rest
  | false :: dec, x :: rest => collapse_by dec (f cur x) rest
  | _, _ => [cur]
  end.

(** [l] holds the output so far, then leftovers, then the unread part. *)
Definition compacting (out : list A) (cur : A) (rest : list A) (w r : nat) (l : list A) : Prop :=
  exists junk, l = out ++ cur :: junk ++ rest /\ length out = w
               /\ r = (w + 1 + length junk)%nat.

Lemma compacting_lookup out cur x rest w r l :
  compacting out cur (x :: rest) w r l -> l !! r = Some x /\ l !! w = Some cur.
Proof.
  intros (junk & -> & <- & ->). split.
  - rewrite lookup_app_r by lia. replace (length out + 1 + length junk - length out)%nat
      with (S (length junk)) by lia. simpl. by rewrite list_lookup_middle.
  - by rewrite list_lookup_middle.
Qed.

Lemma compacting_copy out cur x rest w r l :
  compacting out cur (x :: rest) w r l ->
  exists l', copy_index l (S w) r = Some l' /\ compacting (out ++ [cur]) x rest (S w) (S r) l'.
Proof.
  intros Hc. destruct (compacting_lookup _ _ _ _ _ _ _ Hc) as [Hr _].
  destruct Hc as (junk & -> & <- & ->). unfold copy_index. rewrite Hr. simpl.
  destruct (Nat.ltb_spec (S (length out)) (length (out ++ cur :: junk ++ x :: rest))) as [_|Hbad].
  2:{ rewrite length_app in Hbad. simpl in Hbad. rewrite length_app in Hbad. simpl in Hbad. lia. }
  eexists. split; [done|]. destruct junk as [|j js].
  - exists []. split_and!; [|by rewrite length_app; simpl; lia | simpl; lia].
    rewrite insert_app_r_alt by lia. replace (S (length out) - length out)%nat with 1%nat by lia.
    simpl. by rewrite <- app_assoc.
  - exists (js ++ [x]). split_and!; [|by rewrite length_app; simpl; lia | rewrite length_app; simpl; lia].
    rewrite insert_app_r_alt by lia. replace (S (length out) - length out)%nat with 1%nat by lia.
    simpl. by rewrite <- !app_assoc.
Qed.

Lemma compacting_skip out cur x rest w r l :
  compacting out cur (x :: rest) w r l -> compacting out cur rest w (S r) l.
Proof.
  intros (junk & -> & <- & ->). exists (junk ++ [x]).
  split_and!; [by rewrite <- app_assoc | done | rewrite length_app; simpl; lia].
Qed.

Lemma compacting_set out cur x rest w r l y :
  compacting out cur (x :: rest) w r l -> compacting out y rest w (S r) (<[w:=y]> l).
Proof.
  intros Hc%compacting_skip. destruct Hc as (junk & -> & <- & ->). exists junk.
  split_and!; [|done..]. by rewrite insert_app_r_alt, Nat.sub_diag by lia.
Qed.

Lemma compacting_done out cur w r l : compacting out cur [] w r l -> take (S w) l = out ++ [cur].
Proof.
  intros (junk & -> & <- & _). rewrite app_nil_r.
  change (out ++ cur :: junk) with (out ++ [cur] ++ junk). rewrite (assoc_L (++)).
  rewrite take_app_length'; [done|]. rewrite length_app. simpl. lia.
Qed.
End compaction.

Definition keep_first {A} (c _ : A) : A := c.
Definition peak (c x : Z) : Z := if F32.lt (F32.abs c) (F32.abs x) then x else c.

Lemma compacting_peak out cur x rest w r l :
  compacting out cur (x :: rest) w r l ->
  exists l', fold_peak l w r = Some l' /\ compacting out (peak cur x) rest w (S r) l'.
Proof.
  intros Hc. destruct (compacting_lookup _ _ _ _ _ _ _ Hc) as [Hr Hw].
  unfold fold_peak, peak. rewrite Hr, Hw. simpl. eexists. split; [done|].
  destruct (F32.lt _ _); [by eapply compacting_set | by eapply compacting_skip].
Qed.

(** ** The deduplication refines [collapse_by] *)

(** The decisions the code takes: a frame starts a new point when its fix
    differs from the point being kept. *)
Fixpoint decisions (cur : GpsPoint) (rest : list GpsPoint) : list bool :=
  match rest with
  | [] => []
  | p :: t => if pt_eq p cur then false :: decisions cur t else true :: decisions p t
  end.

Definition collapse {A} (f : A -> A -> A) (dec : list bool) (l : list A) : list A :=
  match l with [] => [] | x :: t => collapse_by f dec x t end.

Definition dec_of (pts : list GpsPoint) : list bool :=
  match pts with [] => [] | p :: t => decisions p t end.

Definition imu_of (a : RawFrameArrays) : bool :=
  (length (ra_accel_x a) =? length (ra_points a))%nat
  && (length (ra_accel_y a) =? length (ra_points a))%nat.

Definition collapse_arrays (a : RawFrameArrays) : RawFrameArrays :=
  let d := dec_of (ra_points a) in
  let imu l := if imu_of a then collapse peak d l else l in
  mkArrays (collapse keep_first d (ra_points a)) (collapse keep_first d (ra_gears a))
    (collapse keep_first d (ra_ap_states a)) (collapse keep_first d (ra_speeds a))
    (collapse keep_first d (ra_accel_positions a)) (ra_flags a)
    (imu (ra_accel_x a)) (imu (ra_accel_y a)).

(** The vectors that are 1:1 with the points. *)
Definition aligned (a : RawFrameArrays) : Prop :=
  length (ra_gears a) = length (ra_points a)
  /\ length (ra_ap_states a) = length (ra_points a)
  /\ length (ra_speeds a) = length (ra_points a)
  /\ length (ra_accel_positions a) = length (ra_points a).

(** One vector's part of the loop invariant; [tracked] vectors follow the
    compaction, the others are left alone. *)
Definition tracks {A} (on : bool) (out : list A) (cur : A) (rest : list A) (w r : nat)
    (l0 l : list A) : Prop :=
  if on then compacting out cur rest w r l else l = l0.

Section dedup.
Context (imu : bool) (ax0 ay0 : list Z) (fl0 : list Z).

(** The whole state after some reads: every tracked vector is compacting. *)
Record dstate (w r : nat) (a : RawFrameArrays)
    (po : list GpsPoint) (go ao so co xo yo : list Z)
    (p : GpsPoint) (g ap s c x y : Z)
    (pr : list GpsPoint) (gr ar sr cr xr yr : list Z) : Prop := {
  ds_p : compacting po p pr w r (ra_points a);
  ds_g : compacting go g gr w r (ra_gears a);
  ds_a : compacting ao ap ar w r (ra_ap_states a);
  ds_s : compacting so s sr w r (ra_speeds a);
  ds_c : compacting co c cr w r (ra_accel_positions a);
  ds_x : tracks imu xo x xr w r ax0 (ra_accel_x a);
  ds_y : tracks imu yo y yr w r ay0 (ra_accel_y a);
  ds_f : ra_flags a = fl0;
}.

Lemma tracks_copy out cur x rest w r l :
  tracks imu out cur (x :: rest) w r ax0 l \/ tracks imu out cur (x :: rest) w r ay0 l ->
  exists l', (if imu then copy_index l (S w) r else Some l) = Some l'
    /\ (forall l0, tracks imu out cur (x :: rest) w r l0 l ->
          tracks imu (out ++ [cur]) x rest (S w) (S r) l0 l').
Proof.
  unfold tracks. destruct imu; [|eauto]. intros [H|H];
    destruct (compacting_copy _ _ _ _ _ _ _ H) as (l' & ? & ?); eauto.
Qed.

Lemma tracks_peak out cur x rest w r l :
  tracks imu out cur (x :: rest) w r ax0 l \/ tracks imu out cur (x :: rest) w r ay0 l ->
  exists l', (if imu then fold_peak l w r else Some l) = Some l'
    /\ (forall l0, tracks imu out cur (x :: rest) w r l0 l ->
          tracks imu out (peak cur x) rest w (S r) l0 l').
Proof.
  unfold tracks. destruct imu; [|eauto]. intros [H|H];
    destruct (compacting_peak _ _ _ _ _ _ _ H) as (l' & ? & ?); eauto.
Qed.

Lemma dedup_step_spec w r a po go ao so co xo yo p g ap s c x y
    pr gr ar sr cr xr yr p' g' a' s' c' x' y' :
  dstate w r a po go ao so co xo yo p g ap s c x y
    (p' :: pr) (g' :: gr) (a' :: ar) (s' :: sr) (c' :: cr) (x' :: xr) (y' :: yr) ->
  exists w' b, dedup_step imu (Some (w, a)) r = Some (w', b) /\
    if pt_eq p' p
    then w' = w /\ dstate w (S r) b po go ao so co xo yo p g ap s c (peak x x') (peak y y')
                     pr gr ar sr cr xr yr
    else w' = S w /\ dstate (S w) (S r) b (po ++ [p]) (go ++ [g]) (ao ++ [ap]) (so ++ [s])
                       (co ++ [c]) (xo ++ [x]) (yo ++ [y]) p' g' a' s' c' x' y'
                       pr gr ar sr cr xr yr.
Proof.
  intros [Hp Hg Ha Hs Hc Hx Hy Hf].
  destruct (compacting_lookup _ _ _ _ _ _ _ Hp) as [Er Ew].
  unfold dedup_step. cbn [mbind option_bind]. rewrite Er, Ew. cbn [mbind option_bind].
  destruct (pt_eq p' p); cbn [negb].
  - destruct (tracks_peak _ _ _ _ _ _ _ (or_introl Hx)) as (lx & -> & Kx).
    destruct (tracks_peak _ _ _ _ _ _ _ (or_intror Hy)) as (ly & -> & Ky).
    cbn [mbind option_bind]. do 2 eexists. split; [done|]. split; [done|].
    split; simpl; eauto using compacting_skip.
  - destruct (compacting_copy _ _ _ _ _ _ _ Hp) as (? & -> & ?).
    destruct (compacting_copy _ _ _ _ _ _ _ Hg) as (? & -> & ?).
    destruct (compacting_copy _ _ _ _ _ _ _ Ha) as (? & -> & ?).
    destruct (compacting_copy _ _ _ _ _ _ _ Hs) as (? & -> & ?).
    destruct (compacting_copy _ _ _ _ _ _ _ Hc) as (? & -> & ?).
    destruct (tracks_copy _ _ _ _ _ _ _ (or_introl Hx)) as (lx & -> & Kx).
    destruct (tracks_copy _ _ _ _ _ _ _ (or_intror Hy)) as (ly & -> & Ky).
    cbn [mbind option_bind]. do 2 eexists. split; [done|]. split; [done|].
    split; simpl; eauto.
Qed.

Lemma dedup_loop_spec pr : forall w r a po go ao so co xo yo p g ap s c x y gr ar sr cr xr yr,
  length gr = length pr -> length ar = length pr -> length sr = length pr ->
  length cr = length pr -> length xr = length pr -> length yr = length pr ->
  dstate w r a po go ao so co xo yo p g ap s c x y pr gr ar sr cr xr yr ->
  exists w' b, foldl (dedup_step imu) (Some (w, a)) (seq r (length pr)) = Some (w', b)
    /\ let d := decisions p pr in
       take (S w') (ra_points b) = po ++ collapse_by keep_first d p pr
       /\ take (S w') (ra_gears b) = go ++ collapse_by keep_first d g gr
       /\ take (S w') (ra_ap_states b) = ao ++ collapse_by keep_first d ap ar
       /\ take (S w') (ra_speeds b) = so ++ collapse_by keep_first d s sr
       /\ take (S w') (ra_accel_positions b) = co ++ collapse_by keep_first d c cr
       /\ (if imu then take (S w') (ra_accel_x b) = xo ++ collapse_by peak d x xr
           else ra_accel_x b = ax0)
       /\ (if imu then take (S w') (ra_accel_y b) = yo ++ collapse_by peak d y yr
           else ra_accel_y b = ay0)
       /\ ra_flags b = fl0.
Proof.
  induction pr as [|p' pr IH]; intros w r a po go ao so co xo yo p g ap s c x y gr ar sr cr xr yr;
    intros L1 L2 L3 L4 L5 L6 Hd.
  - destruct gr, ar, sr, cr, xr, yr; try done. exists w, a. split; [done|].
    destruct Hd as [Hp Hg Ha Hs Hc Hx Hy Hf]. unfold tracks in *. simpl.
    split_and!; try (by eapply compacting_done); try done;
      destruct imu; try done; by eapply compacting_done.
  - destruct gr as [|g' gr], ar as [|a' ar], sr as [|s' sr], cr as [|c' cr], xr as [|x' xr],
      yr as [|y' yr]; try done. simpl in L1, L2, L3, L4, L5, L6.
    destruct (dedup_step_spec _ _ _ _ _ _ _ _ _ _ _ _ _ _ _ _ _ _ _ _ _ _ _ _
                _ _ _ _ _ _ _ Hd) as (w' & b & Hstep & Hcase).
    cbn [length seq foldl]. rewrite Hstep. cbn [decisions].
    destruct (pt_eq p' p); destruct Hcase as [-> Hd'];
      eapply IH in Hd'; try (simpl; congruence); destruct Hd' as (w'' & b' & Hl & Hd');
      exists w'', b'; (split; [exact Hl|]); simpl in *; [exact Hd'|].
    rewrite <- !app_assoc in Hd'. simpl in Hd'. unfold keep_first in *. exact Hd'.
Qed.
End dedup.

Lemma collapse_short {A} (f : A -> A -> A) dec (l : list A) :
  (length l <= 1)%nat -> collapse f dec l = l.
Proof. destruct l as [|x [|y l]]; simpl; [done| |lia]. by destruct dec as [|[]]. Qed.

Lemma collapse_arrays_short a :
  aligned a -> (length (ra_points a) <= 1)%nat -> collapse_arrays a = a.
Proof.
  intros (Hg & Ha & Hs & Hc) Hn. unfold collapse_arrays, imu_of. rewrite !collapse_short by lia.
  destruct (Nat.eqb_spec (length (ra_accel_x a)) (length (ra_points a))),
    (Nat.eqb_spec (length (ra_accel_y a)) (length (ra_points a))); simpl;
    rewrite ?collapse_short by lia; by destruct a.
Qed.

(** A vector of the right length is the loop's initial state; a filler stands
    for the vectors the loop does not touch. *)
Lemma tracks_init (on : bool) n (l : list Z) :
  (on = true -> length l = S n) ->
  exists x t, length t = n /\ tracks on [] x t 0 1 l l
    /\ (on = true -> l = x :: t).
Proof.
  intros Hl. unfold tracks. destruct on.
  - destruct l as [|x t]; [by specialize (Hl eq_refl)|]. exists x, t. specialize (Hl eq_refl).
    simpl in Hl. split_and!; [lia | | done]. exists []. done.
  - exists 0, (replicate n 0). by rewrite length_replicate.
Qed.

Lemma dedup_refines a : aligned a -> dedup_consecutive a = Some (collapse_arrays a).
Proof.
  intros Hal. unfold dedup_consecutive.
  destruct (Nat.leb_spec (length (ra_points a)) 1) as [Hn|Hn];
    [by rewrite collapse_arrays_short|].
  fold (imu_of a). set (on := imu_of a). destruct Hal as (Hg & Ha & Hs & Hc).
  assert (on = true -> length (ra_accel_x a) = length (ra_points a)
                       /\ length (ra_accel_y a) = length (ra_points a)) as Hon.
  { unfold on, imu_of. intros [?%Nat.eqb_eq ?%Nat.eqb_eq]%andb_true_iff. done. }
  destruct a as [pts gs aps ss cs fl xs ys]; simpl in *.
  destruct pts as [|p pr]; [simpl in Hn; lia|].
  destruct gs as [|g gr], aps as [|ap ar], ss as [|s sr], cs as [|c cr]; try done.
  simpl in Hg, Ha, Hs, Hc.
  destruct (tracks_init on (length pr) xs) as (x & xr & Lx & Tx & Ex); [naive_solver|].
  destruct (tracks_init on (length pr) ys) as (y & yr & Ly & Ty & Ey); [naive_solver|].
  destruct (dedup_loop_spec on xs ys fl pr 0 1 (mkArrays (p :: pr) (g :: gr) (ap :: ar) (s :: sr)
     (c :: cr) fl xs ys) [] [] [] [] [] [] [] p g ap s c x y gr ar sr cr xr yr)
    as (w' & b & Hl & Hp & Hg' & Ha' & Hs' & Hc' & Hx & Hy & Hf); try lia.
  { split; simpl; try done; by exists []. }
  cbn [length]. rewrite Nat.sub_succ, Nat.sub_0_r, Hl. cbn [mbind option_bind].
  unfold collapse_arrays. fold on. simpl. rewrite Hp, Hg', Ha', Hs', Hc', Hf. simpl.
  do 2 f_equal; destruct on; try done.
  - rewrite Hx. by rewrite (Ex eq_refl).
  - rewrite Hy. by rewrite (Ey eq_refl).
Qed.

Lemma collapse_no_repeat pr : forall p,
  let l := collapse_by keep_first (decisions p pr) p pr in
  head l = Some p /\ Sorted (fun a b => pt_eq b a = false) l.
Proof.
  induction pr as [|q pr IH]; intros p; simpl.
  - by repeat constructor.
  - destruct (pt_eq q p) eqn:E; simpl; [apply IH|]. destruct (IH q) as [Hh Hs]. split; [done|].
    constructor; [done|]. destruct (collapse_by _ _ _ _); [constructor|].
    injection Hh as ->. by constructor.
Qed.

Lemma length_collapse_by {A B} (f : A -> A -> A) (h : B -> B -> B) dec : forall x y l m,
  length l = length m -> length (collapse_by f dec x l) = length (collapse_by h dec y m).
Proof.
  induction dec as [|[] dec IH]; intros x y [|a l] [|b m] H; simpl in *; try done;
    [f_equal|]; apply IH; lia.
Qed.

Lemma length_collapse {A B} (f : A -> A -> A) (h : B -> B -> B) dec l m :
  length l = length m -> length (collapse f dec l) = length (collapse h dec m).
Proof.
  destruct l, m; simpl; intros H; try done. apply length_collapse_by. lia.
Qed.

(** The in-place deduplication. On parallel vectors of one length the
    seven-vector compaction never indexes out of range and computes the
    functional reference: one entry per run of equal fixes, its first gear,
    autopilot state, speed and pedal position, and the strongest IMU sample of
    the run; no two neighbouring points of the result are equal and the vectors
    stay 1:1 with the points. *)
Theorem dedup_consecutive_correct (a : RawFrameArrays) :
  aligned a ->
  dedup_consecutive a = Some (collapse_arrays a)
  /\ Sorted (fun p q => pt_eq q p = false) (ra_points (collapse_arrays a))
  /\ aligned (collapse_arrays a)
  /\ (imu_of a = true -> length (ra_accel_x (collapse_arrays a)) = length (ra_points (collapse_arrays a))
        /\ length (ra_accel_y (collapse_arrays a)) = length (ra_points (collapse_arrays a))).
Proof.
  intros Hal. split; [by apply dedup_refines|]. destruct Hal as (Hg & Ha & Hs & Hc).
  unfold collapse_arrays, aligned. simpl. split_and!.
  - destruct (ra_points a); [constructor|]. apply collapse_no_repeat.
  - by apply length_collapse.
  - by apply length_collapse.
  - by apply length_collapse.
  - by apply length_collapse.
  - unfold imu_of. intros Himu. pose proof Himu as [?%Nat.eqb_eq ?%Nat.eqb_eq]%andb_true_iff.
    rewrite Himu. split; by apply length_collapse.
Qed.

(** Four frames, the middle two at one fix: the stronger of their IMU samples
    is kept. Coordinates are the [f64] of small integers, samples [f32]. *)
Definition sample_arrays : RawFrameArrays :=
  let one := F64.of_Z 1 in let two := F64.of_Z 2 in let three := F64.of_Z 3 in
  let f k := F64.to_f32 (F64.of_Z k) in
  mkArrays [(one, one); (two, two); (two, two); (three, one)]
    [0; 1; 1; 0] [0; 0; 1; 1] [f 0; f 5; f 6; f 0] [f 0; f 9; f 9; f 0] [0; 8; 8; 4]
    [f 0; f 2; f (-7); f 1] [f 1; f 1; f 0; f 1].

Lemma dedup_consecutive_correct_witness :
  dedup_consecutive sample_arrays = Some (collapse_arrays sample_arrays)
  /\ ra_accel_x (collapse_arrays sample_arrays)
     = [0; F64.to_f32 (F64.of_Z (-7)); F64.to_f32 (F64.of_Z 1)].
Proof.
  split.
  - apply (dedup_consecutive_correct sample_arrays). repeat split.
  - vm_compute. reflexivity.
Defined.

(** The scan's vectors: all 1:1 with the frames. *)
Definition frames_ok (a : RawFrameArrays) : Prop :=
  aligned a /\ length (ra_flags a) = length (ra_points a)
  /\ length (ra_accel_x a) = length (ra_points a)
  /\ length (ra_accel_y a) = length (ra_points a).

(** C18: what is extracted covers every raw frame. On a scan of fewer than 2^32
    frames the assembly succeeds; the gear, autopilot and flag runs expand to
    exactly the per-frame arrays of the scan (no run empty, neighbours
    distinct), so each sums to the raw frame count, and the park count is the
    number of parked frames in the gear runs, even though the point arrays it
    returns are deduplicated. *)
Theorem assemble_covers_frames (a : RawFrameArrays) :
  frames_ok a -> Z.of_nat (length (ra_points a)) < 2 ^ 32 ->
  exists e, assemble_extracted a = Some e
    /\ ex_raw_frame_count e = Z.of_nat (length (ra_points a))
    /\ covers ((fun r => (gr_gear r, gr_frames r)) <$> ex_gear_runs e) (ra_gears a)
    /\ covers ((fun r => (ar_ap r, ar_frames r)) <$> ex_ap_runs e) (ra_ap_states a)
    /\ covers ((fun r => (fr_flags r, fr_frames r)) <$> ex_flag_runs e) (ra_flags a)
    /\ sum_Z (gr_frames <$> ex_gear_runs e) = ex_raw_frame_count e
    /\ ex_raw_park_count e = count_park (gear_frames (ex_gear_runs e)).
Proof.
  intros (Hal & Hfl & Hx & Hy) Hn. pose proof Hal as (Hg & Ha & Hs & Hc).
  unfold assemble_extracted. rewrite dedup_refines by (by destruct (_ && _)).
  eexists. split; [reflexivity|]. simpl.
  assert (Z.of_nat (length (ra_gears a)) < 2 ^ 32) as Hgn by lia.
  rewrite gear_runs_rle, ap_runs_rle, flag_runs_rle.
  assert (gr_frames <$> compute_gear_runs (ra_gears a) = (rle (ra_gears a)).*2) as ->.
  { by rewrite <- gear_runs_rle, <- list_fmap_compose. }
  assert (gear_frames (compute_gear_runs (ra_gears a)) = ra_gears a) as ->.
  { unfold gear_frames. rewrite gear_runs_rle. by apply rle_covers. }
  rewrite rle_sum, u32_small by lia. split_and!; try apply rle_covers; try lia.
  apply u32_small. unfold count_park. split; [lia|].
  pose proof (List.filter_length_le (fun g => g =? GEAR_PARK) (ra_gears a)). lia.
Qed.

Lemma assemble_covers_frames_witness :
  exists e, assemble_extracted sample_arrays = Some e
    /\ ex_raw_frame_count e = 4
    /\ ex_raw_park_count e = count_park (gear_frames (ex_gear_runs e)).
Proof.
  destruct (assemble_covers_frames sample_arrays) as (e & He & Hn & _ & _ & _ & _ & Hp).
  - repeat split.
  - reflexivity.
  - exists e. auto.
Defined.
