(* ===== verification/ExtractWire.v ===== *)
(** * Facts on the extraction's wire formats and loops

    Round trips of the emulation-prevention and varint decoders against their
    encoders, and which of the scanning loops terminate. *)

From Stdlib Require Import ZArith Lia.
From stdpp Require Import base list sorting.
From S2P Require Import Prelude Bytes Float Types Extract ExtractRuns.

Open Scope Z_scope.

(** ** Emulation prevention

    The encoder of the H.264 byte stream: after two zero bytes, a byte of at
    most 3 is preceded by an inserted 3. *)
Fixpoint escape_loop (zeros : Z) (data : list Z) : list Z :=
  match data with
  | [] => []
  | b :: t =>
      if (2 <=? zeros) && (b <=? 3)
      then 3 :: b :: escape_loop (if b =? 0 then 1 else 0) t
      else b :: escape_loop (if b =? 0 then zeros + 1 else 0) t
  end.
Definition add_emulation_bytes (data : list Z) : list Z := escape_loop 0 data.

Lemma strip_escape data : forall zeros,
  0 <= zeros <= 2 -> Forall is_byte data -> strip_loop zeros (escape_loop zeros data) = data.
Proof.
  induction data as [|b t IH]; intros zeros Hz Hd; [done|]. apply Forall_cons in Hd as [Hb Ht].
  unfold is_byte in Hb. cbn [escape_loop].
  destruct ((2 <=? zeros) && (b <=? 3)) eqn:E.
  - bsimp. cbn [strip_loop]. replace (2 <=? zeros) with true by (symmetry; bsimp; lia). cbn.
    f_equal. destruct (b =? 0); apply IH; auto; lia.
  - cbn [strip_loop].
    assert ((2 <=? zeros) && (b =? 3) = false) as ->.
    { destruct (Z.leb_spec 2 zeros), (Z.eqb_spec b 3), (Z.leb_spec b 3); simpl in *; try done; lia. }
    f_equal. destruct (Z.eqb_spec b 0) as [->|]; [|apply IH; auto; lia].
    destruct (Z.leb_spec 2 zeros); simpl in E; [done|]. rewrite u32_small by lia. apply IH; auto; lia.
Qed.

(** Emulation-prevention bytes are removed exactly: stripping what an H.264
    encoder inserts gives back the payload, for every payload. *)
Theorem strip_emulation_roundtrip (data : list Z) :
  Forall is_byte data -> strip_emulation_bytes (add_emulation_bytes data) = data.
Proof. intros H. by apply strip_escape. Qed.

Lemma strip_emulation_roundtrip_witness :
  strip_emulation_bytes (add_emulation_bytes [0; 0; 0; 0; 3; 0; 0; 1; 255]) = [0; 0; 0; 0; 3; 0; 0; 1; 255].
Proof. apply strip_emulation_roundtrip. repeat constructor; done. Defined.

(** ** Varints *)

Fixpoint encode_varint_fuel (n : nat) (v : Z) : list Z :=
  match n with
  | O => [v]
  | S n => if v <? 128 then [v] else (v mod 128 + 128) :: encode_varint_fuel n (v / 128)
  end.
(** Nine continuation bytes are enough for 64 bits. *)
Definition encode_varint (v : Z) : list Z := encode_varint_fuel 9 v.

Lemma land_7F b : 0 <= b < 256 -> Z.land b 0x7F = b mod 128.
Proof. intros. change 0x7F with (Z.ones 7). by rewrite Z.land_ones by lia. Qed.

Lemma lor_disjoint acc b n :
  0 <= n -> 0 <= acc < 2 ^ n -> 0 <= b -> Z.lor acc (Z.shiftl b n) = acc + b * 2 ^ n.
Proof.
  intros Hn Ha Hb. rewrite <- Z.shiftl_mul_pow2 by lia.
  assert (Z.land acc (Z.shiftl b n) = 0) as Hd.
  { apply Z.bits_inj'. intros i Hi. rewrite Z.land_spec, Z.bits_0, Z.shiftl_spec by lia.
    destruct (Z.lt_ge_cases i n).
    - rewrite (Z.testbit_neg_r b) by lia. apply andb_false_r.
    - destruct (Z.eq_dec acc 0) as [->|]; [by rewrite Z.bits_0|].
      rewrite (Z.bits_above_log2 acc i); [done | lia |]. apply Z.log2_lt_pow2; [lia|].
      apply Z.lt_le_trans with (2 ^ n); [lia | apply Z.pow_le_mono_r; lia]. }
  by rewrite Z.add_nocarry_lxor, Z.lxor_lor by done.
Qed.

Lemma decode_varint_at_encode n : forall i acc v rest,
  (i + n = 9)%nat -> 0 <= acc < 2 ^ (7 * Z.of_nat i) -> 0 <= v < 2 ^ (64 - 7 * Z.of_nat i) ->
  decode_varint_at i acc (encode_varint_fuel n v ++ rest)
  = (acc + v * 2 ^ (7 * Z.of_nat i), (i + length (encode_varint_fuel n v))%nat).
Proof.
  assert (Hlast : forall i acc v rest, (i <= 9)%nat -> 0 <= acc < 2 ^ (7 * Z.of_nat i) ->
            0 <= v < 128 -> v < 2 ^ (64 - 7 * Z.of_nat i) ->
            decode_varint_at i acc (v :: rest) = (acc + v * 2 ^ (7 * Z.of_nat i), S i)).
  { intros i acc v rest Hi Ha Hv Hv2. cbn [decode_varint_at].
    destruct (Nat.leb_spec 10 i); [lia|]. rewrite land_7F, Z.mod_small by lia.
    replace (v <? 128) with true by (symmetry; bsimp; lia). f_equal.
    rewrite u64_small; [apply lor_disjoint; lia|]. rewrite Z.shiftl_mul_pow2 by lia.
    assert (2 ^ (64 - 7 * Z.of_nat i) * 2 ^ (7 * Z.of_nat i) = 2 ^ 64) as E
      by (rewrite <- Z.pow_add_r by lia; f_equal; lia). nia. }
  induction n as [|n IH]; intros i acc v rest Hi Ha Hv; cbn [encode_varint_fuel].
  - replace i with 9%nat in * by lia. change (64 - 7 * Z.of_nat 9) with 1 in Hv.
    cbn [app]. rewrite Hlast by lia. done.
  - destruct (Z.ltb_spec v 128) as [Hs|Hs].
    { cbn [app]. rewrite Hlast by lia. f_equal. simpl. lia. }
    cbn [app decode_varint_at length]. destruct (Nat.leb_spec 10 i); [lia|].
    assert (0 <= v mod 128 < 128) as Hm by (apply Z.mod_pos_bound; lia).
    replace (v mod 128 + 128 <? 128) with false by (symmetry; bsimp; lia).
    rewrite land_7F by lia. replace ((v mod 128 + 128) mod 128) with (v mod 128)
      by (rewrite <- Zplus_mod_idemp_r, Z.mod_same, Z.add_0_r, Z.mod_mod by lia; done).
    assert (2 ^ (64 - 7 * Z.of_nat i) * 2 ^ (7 * Z.of_nat i) = 2 ^ 64) as E
      by (rewrite <- Z.pow_add_r by lia; f_equal; lia).
    assert (7 * Z.of_nat (S i) = 7 + 7 * Z.of_nat i) as ES by lia.
    assert (0 <= v mod 128 * 2 ^ (7 * Z.of_nat i) < 2 ^ 64) as Hb.
    { assert (0 < 2 ^ (7 * Z.of_nat i)) by lia. split; [nia|]. rewrite <- E.
      apply Z.mul_lt_mono_pos_r; lia. }
    rewrite u64_small by (rewrite Z.shiftl_mul_pow2 by lia; exact Hb).
    rewrite lor_disjoint by lia. rewrite IH.
    + rewrite ES, Z.pow_add_r by lia. f_equal; [|simpl; lia].
      pose proof (Z.div_mod v 128 ltac:(lia)). change (2 ^ 7) with 128. nia.
    + lia.
    + rewrite ES, Z.pow_add_r by lia. change (2 ^ 7) with 128. nia.
    + replace (64 - 7 * Z.of_nat i) with (7 + (64 - 7 * Z.of_nat (S i))) in Hv by lia.
      rewrite Z.pow_add_r in Hv by lia. change (2 ^ 7) with 128 in Hv.
      split; [apply Z.div_pos; lia | apply Z.div_lt_upper_bound; lia].
Qed.

(** every 64-bit value survives the varint encoding; the decoder reads
    exactly the bytes the encoder wrote, whatever follows them. *)
Theorem varint_roundtrip (v : Z) (rest : list Z) :
  0 <= v < 2 ^ 64 ->
  decode_varint (encode_varint v ++ rest) = (v, length (encode_varint v)).
Proof.
  intros Hv. unfold decode_varint, encode_varint.
  rewrite decode_varint_at_encode by (simpl; lia). f_equal. simpl. lia.
Qed.

Lemma varint_roundtrip_witness :
  decode_varint (encode_varint (2 ^ 64 - 1) ++ [7]) = (2 ^ 64 - 1, 10%nat).
Proof. apply (varint_roundtrip (2 ^ 64 - 1) [7]). lia. Defined.

(** ** Termination of the field loop *)

Lemma decode_varint_at_len data : forall i val v n,
  decode_varint_at i val data = (v, n) -> n <> 0%nat -> (i < n <= i + length data)%nat.
Proof.
  induction data as [|b t IH]; intros i val v n; cbn [decode_varint_at]; [naive_solver|].
  destruct (10 <=? i)%nat; [naive_solver|].
  destruct (b <? 128); [intros [= <- <-]; simpl; lia|].
  intros Hd Hn. apply IH in Hd; [|done]. simpl. lia.
Qed.

Lemma decode_varint_at_nonneg data : forall i val v n,
  0 <= val -> decode_varint_at i val data = (v, n) -> 0 <= v.
Proof.
  induction data as [|b t IH]; intros i val v n Hv; cbn [decode_varint_at]; [by intros [= <- _]|].
  destruct (10 <=? i)%nat; [by intros [= <- _]|].
  assert (0 <= Z.lor val (u64 (Z.shiftl (Z.land b 127) (7 * Z.of_nat i)))) as Hl.
  { apply Z.lor_nonneg. split; [done | eapply proj1, u64_range]. }
  destruct (b <? 128); [intros [= <- <-]; done|]. by apply IH.
Qed.

Lemma decode_varint_drop data i v n :
  0 <= i -> decode_varint (drop (Z.to_nat i) data) = (v, n) -> n <> 0%nat ->
  0 <= v /\ 0 < Z.of_nat n /\ i + Z.of_nat n <= Z.of_nat (length data).
Proof.
  intros Hi Hd Hn. unfold decode_varint in Hd. split; [eapply decode_varint_at_nonneg; [|exact Hd]; lia|].
  apply decode_varint_at_len in Hd; [|done]. rewrite length_drop in Hd. lia.
Qed.

(** No length-delimited field claims 2^63 bytes or more. *)
Definition lengths_sane (data : list Z) : Prop :=
  forall k, (decode_varint (drop k data)).1 < 2 ^ 63.

Lemma sei_step_progress data i f i' f' :
  Z.of_nat (length data) < 2 ^ 62 -> lengths_sane data -> 0 <= i ->
  sei_step data (i, f) = Continue (i', f') -> i < i'.
Proof.
  intros Hlen Hsane Hi. unfold sei_step.
  destruct (Z.ltb_spec i (Z.of_nat (length data))) as [Hlt|]; [|done]. cbn [negb].
  destruct (decode_varint (drop (Z.to_nat i) data)) as [tag n] eqn:Ht.
  destruct (Nat.eqb_spec n 0) as [|Hn]; [done|].
  destruct (decode_varint_drop _ _ _ _ Hi Ht Hn) as (_ & Hn1 & Hn2).
  rewrite (u64_small (i + Z.of_nat n)) by lia. set (j := i + Z.of_nat n) in *.
  assert (forall v vn, decode_varint (drop (Z.to_nat j) data) = (v, vn) -> vn <> 0%nat ->
            0 <= v < 2 ^ 63 /\ 0 < Z.of_nat vn /\ j + Z.of_nat vn <= Z.of_nat (length data)) as Hv.
  { intros v vn Hd Hvn. destruct (decode_varint_drop data j v vn ltac:(lia) Hd Hvn) as (? & ? & ?).
    specialize (Hsane (Z.to_nat j)). rewrite Hd in Hsane. simpl in Hsane. lia. }
  destruct (_ =? 0).
  { destruct (decode_varint (drop (Z.to_nat j) data)) as [v vn] eqn:Hd. destruct (Nat.eqb_spec vn 0); [done|].
    intros [= <- _]. destruct (Hv v vn eq_refl ltac:(done)) as (? & ? & ?). rewrite u64_small; lia. }
  destruct (_ =? 1).
  { destruct (Z.ltb_spec (Z.of_nat (length data)) (j + 8)); [done|].
    intros [= <- _]. rewrite u64_small; lia. }
  destruct (_ =? 2).
  { destruct (decode_varint (drop (Z.to_nat j) data)) as [v vn] eqn:Hd. destruct (Nat.eqb_spec vn 0); [done|].
    intros [= <- _]. destruct (Hv v vn eq_refl ltac:(done)) as (? & ? & ?).
    rewrite (u64_small (Z.of_nat vn + v)), u64_small; lia. }
  destruct (_ =? 5); [|done].
  destruct (Z.ltb_spec (Z.of_nat (length data)) (j + 4)); [done|].
  intros [= <- _]. rewrite u64_small; lia.
Qed.

Lemma sei_loop_terminates data fuel : forall i f,
  Z.of_nat (length data) < 2 ^ 62 -> lengths_sane data -> 0 <= i ->
  Z.of_nat (length data) - i < Z.of_nat fuel -> 0 < Z.of_nat fuel ->
  is_Some (sei_loop fuel data (i, f)).
Proof.
  induction fuel as [|fuel IH]; intros i f Hlen Hsane Hi Hf Hf0; [lia|]. cbn [sei_loop].
  destruct (sei_step data (i, f)) as [r|[i' f']] eqn:E; [eauto|].
  pose proof (sei_step_progress _ _ _ _ _ Hlen Hsane Hi E) as Hp.
  assert (i < Z.of_nat (length data)) as Hi2.
  { unfold sei_step in E. destruct (Z.ltb_spec i (Z.of_nat (length data))); [done | discriminate E]. }
  apply IH; auto; lia.
Qed.

(** The metadata decoder terminates on every payload none of whose
    length-delimited fields claims 2^63 bytes or more: one loop turn per byte,
    plus one, is enough, and the verdict does not depend on the fuel. *)
Theorem decode_sei_terminates (data : list Z) :
  Z.of_nat (length data) < 2 ^ 62 -> lengths_sane data ->
  exists r, forall fuel, (S (length data) <= fuel)%nat -> decode_sei_gps fuel data = Some r.
Proof.
  intros Hlen Hsane.
  assert (Hmono : forall fuel fuel' st r, sei_loop fuel data st = Some r -> (fuel <= fuel')%nat ->
            sei_loop fuel' data st = Some r).
  { induction fuel as [|fuel IH]; intros fuel' st r Hr Hle; [done|].
    destruct fuel' as [|fuel']; [lia|]. cbn [sei_loop] in *.
    destruct (sei_step data st); [done|]. eapply IH; eauto with lia. }
  destruct (sei_loop_terminates data (S (length data)) 0 fields0) as [r Hr]; [done..|lia|lia|].
  exists (f ← r; sei_finish f). intros fuel Hf. unfold decode_sei_gps.
  by rewrite (Hmono _ _ _ _ Hr Hf).
Qed.

(** A payload with a gear (field 2), a string field and both coordinates. *)
Definition sample_payload : list Z :=
  [0x10; 1; 0x1A; 2; 65; 66; 0x59] ++ le_bytes 8 (F64.of_Z 45) ++ [0x61] ++ le_bytes 8 (F64.of_Z (-120)).

Lemma drop_all_sane data :
  forallb (fun k => (decode_varint (drop k data)).1 <? 2 ^ 63) (seq 0 (S (length data))) = true ->
  lengths_sane data.
Proof.
  intros H k. rewrite forallb_forall in H.
  destruct (le_lt_dec k (length data)).
  - specialize (H k). rewrite in_seq in H. apply Z.ltb_lt, H. lia.
  - rewrite drop_ge by lia. done.
Qed.

Lemma decode_sei_terminates_witness :
  exists f, decode_sei_gps 26 sample_payload = Some (Some f) /\ sf_gear f = 1.
Proof.
  destruct (decode_sei_terminates sample_payload) as [r Hr].
  - reflexivity.
  - apply drop_all_sane. vm_compute. reflexivity.
  - specialize (Hr 26%nat). rewrite Hr by (vm_compute; lia).
    assert (decode_sei_gps 26 sample_payload = Some r) as Hc by (apply Hr; vm_compute; lia).
    vm_compute in Hc. injection Hc as <-. eexists. split; reflexivity.
Defined.

(** ** A clip that is never finished

    A length-delimited field whose length is 2^64 - 11 moves the index back to
    where the field started: the sum wraps. *)
Definition evil_payload : list Z :=
  [0x12; 0xF5; 0xFF; 0xFF; 0xFF; 0xFF; 0xFF; 0xFF; 0xFF; 0xFF; 0x01].
Definition evil_nal : list Z := [0x06; 0x05; 0x10; 0x42; 0x69] ++ evil_payload ++ [0x80].
Definition evil_file : list Z :=
  [0; 0; 0; 29; 109; 100; 97; 116; 0; 0; 0; 17] ++ evil_nal.

Lemma evil_payload_loops fuel : sei_loop fuel evil_payload (0, fields0) = None.
Proof.
  induction fuel as [|fuel IH]; [done|]. cbn [sei_loop].
  assert (sei_step evil_payload (0, fields0) = Continue (0, fields0)) as -> by (vm_compute; reflexivity).
  exact IH.
Qed.

Lemma evil_nal_loops fuel : parse_tesla_sei fuel evil_nal = None.
Proof.
  assert (parse_tesla_sei fuel evil_nal = decode_sei_gps fuel evil_payload) as -> by reflexivity.
  unfold decode_sei_gps. by rewrite evil_payload_loops.
Qed.

(** A 29-byte clip on which the extraction never returns. Whatever the fuel,
    the scan is still running: the declared length of a protobuf field wraps
    the index, and the field loop goes round forever. *)
Theorem extraction_hangs (fuel pfuel : nat) : extract_gps_from_file fuel pfuel evil_file = None.
Proof.
  destruct fuel as [|fuel]; [done|]. unfold extract_gps_from_file.
  assert (find_mdat_box (S fuel) evil_file = Some (8, 21)) as -> by reflexivity.
  cbn [mbind option_bind Z.eqb]. unfold extract_from_mdat. cbn [nal_loop].
  assert (nal_step pfuel evil_file (u64 (8 + 21)) (8, scan_empty)
          = (r ← parse_tesla_sei pfuel evil_nal;
             Some (Continue (29, match r with Some f => push_frame scan_empty 8 f | None => scan_empty end))))
    as -> by reflexivity.
  by rewrite evil_nal_loops.
Qed.

(** ** The box search *)

Lemma be_val_take_range (l : list Z) n :
  Forall is_byte l -> 0 <= be_val (take n l) < 256 ^ Z.of_nat n.
Proof.
  intros Hb. pose proof (be_val_range (take n l) ltac:(by apply Forall_take)) as [? H].
  split; [done|]. eapply Z.lt_le_trans; [exact H|]. apply Z.pow_le_mono_r; [lia|].
  rewrite length_take. lia.
Qed.

Lemma read_at_byte file pos n : Forall is_byte file -> Forall is_byte (read_at file pos n).
Proof. intros. unfold read_at. by apply Forall_take, Forall_drop. Qed.

Lemma length_read_at file pos n : (length (read_at file pos n) <= n)%nat.
Proof. unfold read_at. rewrite length_take. lia. Qed.

(** No 64-bit box size reaches 2^63. *)
Definition sizes_sane (file : list Z) : Prop :=
  forall pos, be_val (read_at file pos 8) < 2 ^ 63.

Lemma find_mdat_step_progress file pos pos' :
  Forall is_byte file -> file_len file < 2 ^ 62 -> sizes_sane file -> 0 <= pos ->
  find_mdat_step file pos = Continue pos' -> pos + 8 <= pos' /\ pos < file_len file.
Proof.
  intros Hb Hlen Hs Hpos. unfold find_mdat_step.
  destruct (Z.ltb_spec pos (file_len file)) as [Hlt|]; [|done]. cbn [negb].
  destruct (_ <? 8)%nat; [done|].
  pose proof (be_val_take_range (read_at file pos 8) 4 ltac:(by apply read_at_byte)) as H4.
  change (256 ^ Z.of_nat 4) with (2 ^ 32) in H4.
  pose proof (be_val_range (read_at file (pos + 8) 8) ltac:(by apply read_at_byte)) as [H8 _].
  specialize (Hs (pos + 8)). set (b := be_val (take 4 _)) in *. set (e := be_val (read_at file (pos + 8) 8)) in *.
  intros H. split; [|done].
  assert (exists sz hd, (if sz <? hd then Stop (0, 0)
             else if bool_decide (drop 4 (read_at file pos 8) = tag_mdat)
                  then Stop (u64 (pos + hd), sz - hd) else Continue (u64 (pos + sz))) = Continue pos'
             /\ 8 <= hd /\ 0 <= sz < 2 ^ 63) as (sz & hd & Hc & Hhd & Hsz).
  { destruct (b =? 1).
    - destruct (_ <? 8)%nat; [discriminate H|]. exists e, 16. split_and!; [exact H|lia..].
    - destruct (b =? 0).
      + exists (file_len file - pos), 8. split_and!; [exact H|lia..].
      + exists b, 8. split_and!; [exact H|lia..]. }
  destruct (Z.ltb_spec sz hd); [discriminate Hc|]. destruct (bool_decide _); [discriminate Hc|].
  injection Hc as <-. rewrite u64_small by lia. lia.
Qed.

Lemma find_mdat_loop_terminates file fuel : forall pos,
  Forall is_byte file -> file_len file < 2 ^ 62 -> sizes_sane file -> 0 <= pos ->
  file_len file - pos < Z.of_nat fuel -> 0 < Z.of_nat fuel ->
  is_Some (find_mdat_loop fuel file pos).
Proof.
  induction fuel as [|fuel IH]; intros pos Hb Hlen Hs Hpos Hf Hf0; [lia|]. cbn [find_mdat_loop].
  destruct (find_mdat_step file pos) eqn:E; [eauto|].
  apply find_mdat_step_progress in E as [? ?]; [|done..]. apply IH; auto; lia.
Qed.

(** The mdat search ends: on a file whose 64-bit box sizes are below 2^63,
    one turn per byte is enough to return a verdict. *)
Theorem find_mdat_terminates (file : list Z) :
  Forall is_byte file -> file_len file < 2 ^ 62 -> sizes_sane file ->
  exists r, find_mdat_box (S (length file)) file = Some r.
Proof.
  intros Hb Hlen Hs. destruct (find_mdat_loop_terminates file (S (length file)) 0) as [r Hr];
    try done; try (unfold file_len; lia). eauto.
Qed.

(** An 8-byte ["free"] box, then an mdat with one byte. *)
Definition sample_file : list Z :=
  [0; 0; 0; 8; 102; 114; 101; 101; 0; 0; 0; 9; 109; 100; 97; 116; 7].

Lemma sizes_sane_check file :
  Forall is_byte file -> file_len file < 2 ^ 62 ->
  forallb (fun k => be_val (read_at file (Z.of_nat k) 8) <? 2 ^ 63) (seq 0 (S (length file))) = true ->
  sizes_sane file.
Proof.
  intros Hb Hl H pos. rewrite forallb_forall in H.
  destruct (le_lt_dec (Z.to_nat pos) (length file)) as [Hle|Hgt].
  - specialize (H (Z.to_nat pos)). rewrite in_seq in H. apply Z.ltb_lt.
    destruct (Z.le_gt_cases 0 pos).
    + rewrite Z2Nat.id in H by lia. apply H. lia.
    + replace (read_at file pos 8) with (read_at file (Z.of_nat (Z.to_nat pos)) 8) by
        (unfold read_at; do 2 f_equal; lia). apply H. lia.
  - unfold read_at. rewrite drop_ge by lia. done.
Qed.

Lemma find_mdat_terminates_witness : find_mdat_box 18 sample_file = Some (16, 1).
Proof.
  destruct (find_mdat_terminates sample_file) as [r Hr].
  - repeat constructor; done.
  - reflexivity.
  - apply sizes_sane_check; [repeat constructor; done | reflexivity | reflexivity].
  - assert (r = (16, 1)) as -> by (vm_compute in Hr; congruence). exact Hr.
Defined.

(** A box that claims 2^64 - 8 bytes at position 8 sends the search back to
    the start of the file. *)
Definition looping_file : list Z :=
  [0; 0; 0; 8; 102; 114; 101; 101; 0; 0; 0; 1; 102; 114; 101; 101;
   255; 255; 255; 255; 255; 255; 255; 248].

(** A 24-byte file on which the mdat search never returns: the position
    wraps past 2^64 to 0 and the same two boxes are visited forever. *)
Theorem find_mdat_hangs (fuel : nat) : find_mdat_box fuel looping_file = None.
Proof.
  unfold find_mdat_box.
  assert (find_mdat_loop fuel looping_file 0 = None
          /\ find_mdat_loop fuel looping_file 8 = None) as [H _]; [|exact H].
  induction fuel as [|fuel [IH0 IH8]]; [done|]. cbn [find_mdat_loop].
  assert (find_mdat_step looping_file 0 = Continue 8) as -> by (vm_compute; reflexivity).
  assert (find_mdat_step looping_file 8 = Continue 0) as -> by (vm_compute; reflexivity).
  done.
Qed.

(** ** The NAL scan *)

(** What the scan has collected when the reader stands at [cursor]. *)
Record scan_inv (lo cursor : Z) (s : SeiScan) : Prop := {
  si_frames : frames_ok (sc_arrays s);
  si_offsets : length (sc_sei_offsets s) = length (ra_points (sc_arrays s));
  si_indexes : length (sc_frame_indexes s) = length (ra_points (sc_arrays s));
  si_steer : length (sc_steering_deg s) = length (ra_points (sc_arrays s));
  si_inside : Forall (fun o => lo <= o < cursor) (sc_sei_offsets s);
  si_order : StronglySorted Z.lt (sc_sei_offsets s);
  si_index_le : Forall (fun i => 0 <= i <= sc_frame_count s) (sc_frame_indexes s);
  si_index_order : StronglySorted Z.le (sc_frame_indexes s);
  si_count : 0 <= sc_frame_count s <= cursor - lo;
}.

Lemma StronglySorted_snoc {A} (R : A -> A -> Prop) l x :
  StronglySorted R l -> Forall (fun y => R y x) l -> StronglySorted R (l ++ [x]).
Proof.
  induction 1 as [|y t Hs IH Hf]; intros Hx; simpl; [by repeat constructor|].
  apply Forall_cons in Hx as [Hy Ht]. constructor; [auto|]. apply Forall_app. auto.
Qed.

Lemma scan_inv_skip lo c c' s : scan_inv lo c s -> c <= c' -> scan_inv lo c' s.
Proof.
  intros [] Hc. split; try done; [|lia]. eapply Forall_impl; [done|]. simpl. lia.
Qed.

Lemma scan_inv_push lo c c' s f : scan_inv lo c s -> lo <= c -> c < c' -> scan_inv lo c' (push_frame s c f).
Proof.
  intros [Hfr Ho Hi Hst Hin Hor Hle Hio Hct] Hlo Hc. destruct Hfr as ((?&?&?&?)&?&?&?).
  assert (Forall (fun o => o < c) (sc_sei_offsets s)) by (eapply Forall_impl; [exact Hin|]; simpl; lia).
  split; simpl; rewrite ?length_app; simpl; try lia.
  - repeat split; simpl; rewrite ?length_app; simpl; lia.
  - apply Forall_app. split; [eapply Forall_impl; [exact Hin|]; simpl; lia | apply Forall_singleton; lia].
  - by apply StronglySorted_snoc.
  - apply Forall_app. split; [done | apply Forall_singleton; lia].
  - apply StronglySorted_snoc; [done|]. eapply Forall_impl; [exact Hle|]. simpl. lia.
Qed.

Lemma scan_inv_count lo c c' s :
  scan_inv lo c s -> c < c' -> c - lo + 1 < 2 ^ 32 -> scan_inv lo c' (count_frame s).
Proof.
  intros [Hfr Ho Hi Hst Hin Hor Hle Hio Hct] Hc Hb. split; simpl; try done.
  - eapply Forall_impl; [exact Hin|]. simpl. lia.
  - rewrite u32_small by lia. eapply Forall_impl; [exact Hle|]. simpl. lia.
  - rewrite u32_small by lia. lia.
Qed.

Lemma read_exact_bound file pos n b :
  0 <= pos -> (0 < n)%nat -> read_exact file pos n = Some b ->
  length b = n /\ pos + Z.of_nat n <= file_len file.
Proof.
  intros Hp Hn. unfold read_exact. destruct (Nat.eqb_spec (length (read_at file pos n)) n) as [E|]; [|done].
  intros [= <-]. split; [done|]. unfold read_at in E. rewrite length_take, length_drop in E.
  unfold file_len. lia.
Qed.

Lemma nal_step_inv pfuel file stop lo c s c' s' :
  Forall is_byte file -> file_len file < 2 ^ 32 -> 0 <= lo <= c -> scan_inv lo c s ->
  nal_step pfuel file stop (c, s) = Some (Continue (c', s')) ->
  c + 6 <= c' <= stop /\ c < file_len file /\ scan_inv lo c' s'.
Proof.
  intros Hb Hlen Hlo Hinv. unfold nal_step.
  destruct (Z.leb_spec (u64 (c + 4)) stop); [|done]. cbn [negb].
  destruct (read_exact file c 4) as [sb|] eqn:Hsb; [|done].
  destruct (read_exact_bound file c 4 sb ltac:(lia) ltac:(lia) Hsb) as [Hl4 Hc4].
  assert (u64 (c + 4) = c + 4) as E4 by (apply u64_small; lia). rewrite !E4 in *.
  assert (0 <= be_val sb < 2 ^ 32) as Hn.
  { assert (Forall is_byte sb) as Hsbb.
    { unfold read_exact in Hsb. destruct (_ =? _)%nat; [|done]. injection Hsb as <-. by apply read_at_byte. }
    pose proof (be_val_range sb Hsbb) as Hr. by rewrite Hl4 in Hr. }
  destruct (_ || _) eqn:Hg; [done|]. bsimp.
  assert (u64 (c + 4 + be_val sb) = c + 4 + be_val sb) as En by (apply u64_small; lia).
  rewrite !En in *.
  destruct (read_exact file (c + 4) 1); [|done].
  assert (forall c' s', scan_inv lo c' s' -> c + 4 + be_val sb = c' ->
            c + 6 <= c' <= stop /\ c < file_len file /\ scan_inv lo c' s') as Hdone
    by (intros; split_and!; [lia..|done]).
  destruct (_ && _).
  - destruct (read_exact file (c + 4) _); [|done].
    destruct (parse_tesla_sei _ _) as [[f|]|]; cbn [mbind option_bind]; [| |done]; intros [= <- <-];
      (apply Hdone; [|done]); [eapply scan_inv_push | eapply scan_inv_skip]; eauto; lia.
  - destruct (_ || _).
    + destruct (read_exact file (c + 4 + 1) 1); [|done]. intros [= <- <-]. apply Hdone; [|done].
      match goal with |- context [if ?b then count_frame _ else _] => destruct b end;
        [eapply scan_inv_count | eapply scan_inv_skip]; eauto; lia.
    + intros [= <- <-]. apply Hdone; [|done]. eapply scan_inv_skip; eauto; lia.
Qed.

(** The metadata decoder has fuel enough for every unit of the file. *)
Definition units_decode (pfuel : nat) (file : list Z) : Prop :=
  forall pos n nal, read_exact file pos n = Some nal -> is_Some (parse_tesla_sei pfuel nal).

Lemma nal_step_runs pfuel file stop st :
  units_decode pfuel file -> is_Some (nal_step pfuel file stop st).
Proof.
  intros Hu. destruct st as [c s]. unfold nal_step.
  repeat (case_match; try (eexists; reflexivity)).
  match goal with H : read_exact _ _ _ = Some ?nal |- context [parse_tesla_sei _ ?nal] =>
    destruct (Hu _ _ _ H) as [r ->] end. eexists. reflexivity.
Qed.

Lemma nal_loop_total fuel pfuel file stop lo : forall c s,
  Forall is_byte file -> file_len file < 2 ^ 32 -> units_decode pfuel file ->
  0 <= lo <= c -> scan_inv lo c s ->
  file_len file - c < Z.of_nat fuel -> 0 < Z.of_nat fuel ->
  exists s' c', nal_loop fuel pfuel file stop (c, s) = Some s' /\ scan_inv lo c' s'.
Proof.
  induction fuel as [|fuel IH]; intros c s Hb Hlen Hu Hlo Hinv Hf Hf0; [lia|]. cbn [nal_loop].
  destruct (nal_step_runs pfuel file stop (c, s) Hu) as [[s1|[c1 s1]] E]; rewrite E; cbn [mbind option_bind].
  - exists s1, c. split; [done|].
    assert (s1 = s) as ->; [|done]. unfold nal_step in E. repeat (case_match; try congruence).
    by destruct (parse_tesla_sei _ _).
  - apply (nal_step_inv _ _ _ _ _ _ _ _ Hb Hlen Hlo Hinv) in E as (? & ? & Hinv1).
    apply IH; auto; lia.
Qed.

Lemma scan_inv_empty lo : 0 <= lo -> scan_inv lo lo scan_empty.
Proof. intros. split; simpl; try done; try constructor; try (repeat split); lia. Qed.

(** The NAL scan. On a file below 4 GiB, whenever every unit's metadata
    decodes, the scan returns within one turn per byte, and what it returns is
    consistent: every per-frame vector has one entry per accepted SEI, the SEI
    offsets strictly increase inside the file, and the frame each SEI belongs
    to never decreases and never passes the number of frames counted. *)
Theorem scan_total (file : list Z) (pfuel : nat) (offset size : Z) :
  Forall is_byte file -> file_len file < 2 ^ 32 -> 0 <= offset -> units_decode pfuel file ->
  exists s c, extract_from_mdat (S (length file)) pfuel file offset size = Some s
    /\ scan_inv offset c s.
Proof.
  intros Hb Hlen Ho Hu. unfold extract_from_mdat.
  apply (nal_loop_total _ _ _ _ offset); auto using scan_inv_empty with lia.
  unfold file_len. lia.
Qed.

(** Two slices of one frame each around an SEI unit without the magic bytes. *)
Definition sample_mdat : list Z :=
  [0; 0; 0; 3; 0x65; 0x88; 1;  0; 0; 0; 4; 0x06; 5; 1; 2;  0; 0; 0; 2; 0x41; 0x9A].

Lemma scan_total_witness :
  exists s c, extract_from_mdat 22 1 sample_mdat 0 21 = Some s /\ scan_inv 0 c s /\ sc_frame_count s = 2.
Proof.
  destruct (scan_total sample_mdat 1 0 21) as (s & c & Hs & Hi).
  - repeat constructor; done.
  - reflexivity.
  - lia.
  - intros pos n nal Hr.
    assert (forall k m, parse_tesla_sei 1 (take m (drop k sample_mdat)) <> None) as Hall.
    { assert (forallb (fun k => forallb (fun m =>
                match parse_tesla_sei 1 (take m (drop k sample_mdat)) with Some _ => true | None => false end)
                (seq 0 22)) (seq 0 22) = true) as H by (vm_compute; reflexivity).
      rewrite forallb_forall in H. intros k m Hn.
      assert (take m (drop k sample_mdat) = take (m `min` 21) (drop (k `min` 21) sample_mdat)) as Hcut.
      { destruct (le_lt_dec k 21) as [Hk|Hk].
        - rewrite (Nat.min_l k 21) by done. destruct (le_lt_dec m 21) as [Hm|Hm];
            [by rewrite Nat.min_l|]. rewrite Nat.min_r by lia.
          rewrite !take_ge; [done| |]; rewrite length_drop; simpl; lia.
        - rewrite (Nat.min_r k 21) by lia. by rewrite !drop_ge by (simpl; lia); rewrite !take_nil. }
      rewrite Hcut in Hn.
      specialize (H (k `min` 21)%nat). rewrite in_seq, forallb_forall in H.
      specialize (H ltac:(lia) (m `min` 21)%nat). rewrite in_seq in H. specialize (H ltac:(lia)).
      rewrite Hn in H. done. }
    unfold read_exact, read_at in Hr. destruct (_ =? _)%nat; [|done]. injection Hr as <-.
    destruct (parse_tesla_sei 1 _) eqn:E; [eauto | by apply Hall in E].
  - exists s, c. split_and!; [exact Hs | exact Hi|]. vm_compute in Hs. by injection Hs as <-.
Defined.
