(* ===== verification/Mp4.v ===== *)
(** * MP4 sample tables ([crates/drives/src/mp4_samples.rs])

    [parse_moov] reads the sample tables of the first video track and gives
    every sample its byte range and presentation time; [time_at_offset] is the
    lookup the frame timing of a clip rests on. Error messages are the
    constructors of [mp4_error]. Indexes that fit the buffer are [nat]; values
    read from the file stay [Z] at the width the source gives them. *)

From Stdlib Require Import ZArith Lia.
From stdpp Require Import base list sorting.
From S2P Require Import Prelude Bytes Float Extract.

Open Scope Z_scope.

Inductive mp4_error :=
| MIo | MCorruptBox | MTooLarge | MNoMoov | MTruncated | MEmptyTable | MTableCount
| MTooManyTimes | MTooFewTimes | MNoVideo | MNoBox (tag : list Z) | MZeroTimescale
| MChunkTables | MBadStsc | MChunkWithoutStsc | MTooManySamples | MTooFewSamples
| MTimeOverflow.

Notation res := (result mp4_error).

Record Span := mkSpan { sp_offset : Z; sp_size : Z; sp_time_sec : Z }.
Record VideoSampleTimes := mkTimes { vt_spans : list Span }.

Definition span0 : Span := mkSpan 0 0 0.

(** ** Lookup *)

Definition time_at_offset (v : VideoSampleTimes) (offset : Z) : option Z :=
  let n := partition_point (fun s => sp_offset s <=? offset) (vt_spans v) in
  match n with
  | O => None
  | S idx =>
      let span := nth idx (vt_spans v) span0 in
      if offset <? u64 (sp_offset span + sp_size span) then Some (sp_time_sec span) else None
  end.

(** ** Boxes *)

Definition MAX_MOOV_BYTES : Z := 16 * 1024 * 1024.

(** One turn of the top-level box loop. A seek beyond [i64::MAX] is refused by
    the operating system. *)
Definition top_level_step (file want : list Z) (pos : Z) : turn (res (option (list Z))) Z :=
  let file_size := file_len file in
  if negb (u64 (pos + 8) <=? file_size) then Stop (Ok None)
  else if 2 ^ 63 <=? pos then Stop (Err MIo)
  else
    match read_exact file pos 8 with
    | None => Stop (Err MIo)
    | Some h =>
        let size := be_val (take 4 h) in
        let sized : option (Z * Z) :=
          if size =? 1 then
            match read_exact file (pos + 8) 8 with
            | Some e => Some (be_val e, 16)
            | None => None
            end
          else if size =? 0 then Some (file_size - pos, 8)
          else Some (size, 8) in
        match sized with
        | None => Stop (Err MIo)
        | Some (size, header_size) =>
            if size <? header_size then Stop (Err MCorruptBox)
            else if bool_decide (drop 4 h = want) then
              let body := size - header_size in
              if (MAX_MOOV_BYTES <? body) || (file_size <? u64 (pos + size))
              then Stop (Err MTooLarge)
              else match read_exact file (pos + header_size) (Z.to_nat body) with
                   | Some data => Stop (Ok (Some data))
                   | None => Stop (Err MIo)
                   end
            else Continue (u64 (pos + size))
        end
    end.

Fixpoint top_level_loop (fuel : nat) (file want : list Z) (pos : Z)
  : option (res (option (list Z))) :=
  match fuel with
  | O => None
  | S fuel =>
      match top_level_step file want pos with
      | Stop r => Some r
      | Continue pos' => top_level_loop fuel file want pos'
      end
  end.

Definition read_top_level_box (fuel : nat) (file want : list Z)
  : option (res (option (list Z))) :=
  top_level_loop fuel file want 0.

(** [data.get(at..at + n)]. *)
Definition get_range (data : list Z) (at_ n : nat) : option (list Z) :=
  if (at_ + n <=? length data)%nat then Some (slice data at_ (at_ + n)) else None.

(** One turn of the child-box loop: the box at [pos] and where the next one
    starts. *)
Definition child_at (data : list Z) (pos : nat) : option (list Z * list Z * nat) :=
  if (pos + 8 <=? length data)%nat then
    let size := be_val (slice data pos (pos + 4)) in
    let kind := slice data (pos + 4) (pos + 8) in
    let sized : option (Z * nat) :=
      if size =? 1 then
        if (length data <? pos + 16)%nat then None
        else Some (be_val (slice data (pos + 8) (pos + 16)), 16%nat)
      else if size =? 0 then Some (Z.of_nat (length data - pos), 8%nat)
      else Some (size, 8%nat) in
    match sized with
    | None => None
    | Some (size, header) =>
        let end_ := Z.of_nat pos + size in
        if (end_ <=? U64_MAX) && (Z.of_nat header <=? size)
           && (end_ <=? Z.of_nat (length data))
        then Some (kind, slice data (pos + header) (Z.to_nat end_), Z.to_nat end_)
        else None
    end
  else None.

Fixpoint children_loop (fuel : nat) (data : list Z) (pos : nat)
  : option (list (list Z * list Z)) :=
  match fuel with
  | O => None
  | S fuel =>
      match child_at data pos with
      | None => Some []
      | Some (kind, body, next) =>
          rest ← children_loop fuel data next; Some ((kind, body) :: rest)
      end
  end.

Definition children (data : list Z) : list (list Z * list Z) :=
  default [] (children_loop (S (length data)) data 0).

Definition child (data kind : list Z) : option (list Z) :=
  snd <$> List.find (fun kb => bool_decide (fst kb = kind)) (children data).

(** ** Tables *)

Definition be_u32 (data : list Z) (at_ : nat) : res Z :=
  ok_or (be_val <$> get_range data at_ 4) MTruncated.
Definition be_u64 (data : list Z) (at_ : nat) : res Z :=
  ok_or (be_val <$> get_range data at_ 8) MTruncated.

(** Version and entry count; the entries start at byte 8. *)
Definition table (data : list Z) (entry_size : Z) : res (Z * nat * nat) :=
  let? version := ok_or (head data) MEmptyTable in
  let? count := be_u32 data 4 in
  if Z.of_nat (length data) <? 8 + count * entry_size then Err MTableCount
  else Ok (version, Z.to_nat count, 8%nat).

(** The loop of [expand_runs] over entries [i..count]. *)
Fixpoint expand_loop (n i : nat) (data : list Z) (version samples : Z) (sgn : bool)
    (out : list Z) : res (list Z) :=
  match n with
  | O => Ok out
  | S n =>
      let at_ := (8 + i * 8)%nat in
      let? repeat := be_u32 data at_ in
      let? raw := be_u32 data (at_ + 4) in
      let value := if sgn && (version =? 1) then i32 raw else raw in
      if samples - Z.of_nat (length out) <? repeat then Err MTooManyTimes
      else expand_loop n (S i) data version samples sgn (out ++ replicate (Z.to_nat repeat) value)
  end.

Definition expand_runs (data : list Z) (samples : Z) (sgn : bool) : res (list Z) :=
  let? (version, count, _) := table data 8 in
  let? out := expand_loop count 0 data version samples sgn [] in
  if Z.of_nat (length out) =? samples then Ok out else Err MTooFewTimes.

(** ** Edit list *)

Fixpoint edit_loop (n i : nat) (elst : list Z) (version : Z) (entry : nat) : res Z :=
  match n with
  | O => Ok 0
  | S n =>
      let at_ := (8 + i * entry)%nat in
      let? media_time :=
        (if version =? 1 then let? v := be_u64 elst (at_ + 8) in Ok (i64 v)
         else let? v := be_u32 elst (at_ + 4) in Ok (i32 v)) in
      if 0 <=? media_time then Ok media_time else edit_loop n (S i) elst version entry
  end.

Definition t_edts : list Z := [101; 100; 116; 115].
Definition t_elst : list Z := [101; 108; 115; 116].
Definition t_moov : list Z := [109; 111; 111; 118].
Definition t_trak : list Z := [116; 114; 97; 107].
Definition t_mdia : list Z := [109; 100; 105; 97].
Definition t_hdlr : list Z := [104; 100; 108; 114].
Definition t_vide : list Z := [118; 105; 100; 101].
Definition t_mdhd : list Z := [109; 100; 104; 100].
Definition t_minf : list Z := [109; 105; 110; 102].
Definition t_stbl : list Z := [115; 116; 98; 108].
Definition t_stsz : list Z := [115; 116; 115; 122].
Definition t_stco : list Z := [115; 116; 99; 111].
Definition t_co64 : list Z := [99; 111; 54; 52].
Definition t_stsc : list Z := [115; 116; 115; 99].
Definition t_stts : list Z := [115; 116; 116; 115].
Definition t_ctts : list Z := [99; 116; 116; 115].

Definition edit_start (trak : list Z) : res Z :=
  match child trak t_edts ≫= fun edts => child edts t_elst with
  | None => Ok 0
  | Some elst =>
      let? version := ok_or (head elst) MEmptyTable in
      let entry := if version =? 1 then 20%nat else 12%nat in
      let? (_, count, _) := table elst (Z.of_nat entry) in
      edit_loop count 0 elst version entry
  end.

(** ** The video track *)

(** Sample sizes: one fixed size, or a table. *)
Definition size_of (fixed : Z) (stsz : list Z) (i : nat) : res Z :=
  if negb (fixed =? 0) then Ok fixed else be_u32 stsz (12 + i * 4).

Definition chunk_offset (stride : Z) (co : list Z) (c : nat) : res Z :=
  if stride =? 8 then be_u64 co (8 + c * 8) else be_u32 co (8 + c * 4).

(** The [stsc] runs: (first chunk, samples per chunk), first chunks increasing
    and 1-based. *)
Fixpoint stsc_loop (n i : nat) (stsc : list Z) (per_chunk : list (Z * Z))
  : res (list (Z * Z)) :=
  match n with
  | O => Ok per_chunk
  | S n =>
      let? first := be_u32 stsc (8 + i * 12) in
      let? count := be_u32 stsc (8 + i * 12 + 4) in
      if (first =? 0)
         || match last per_chunk with Some (prev, _) => first <=? prev | None => false end
      then Err MBadStsc
      else stsc_loop n (S i) stsc (per_chunk ++ [(first, count)])
  end.

(** The [while] that advances the [stsc] cursor to chunk [c]; at most one turn
    per entry. *)
Fixpoint advance_run (fuel : nat) (per_chunk : list (Z * Z)) (c run : nat) : nat :=
  match fuel with
  | O => run
  | S fuel =>
      match per_chunk !! S run with
      | Some (first, _) =>
          if first <=? Z.of_nat c + 1 then advance_run fuel per_chunk c (S run) else run
      | None => run
      end
  end.

(** The samples of one chunk, laid end to end from its offset. *)
Fixpoint chunk_samples (n : nat) (samples : Z) (size : nat -> res Z) (offset : Z)
    (ranges : list (Z * Z)) : res (list (Z * Z)) :=
  match n with
  | O => Ok ranges
  | S n =>
      if Z.of_nat (length ranges) =? samples then Err MTooManySamples
      else
        let? s := size (length ranges) in
        chunk_samples n samples size (u64 (offset + s)) (ranges ++ [(offset, s)])
  end.

Fixpoint chunk_loop (n c run : nat) (samples : Z) (size coff : nat -> res Z)
    (per_chunk : list (Z * Z)) (ranges : list (Z * Z)) : res (list (Z * Z)) :=
  match n with
  | O => Ok ranges
  | S n =>
      let run := advance_run (length per_chunk) per_chunk c run in
      match per_chunk !! run with
      | None => Err MChunkWithoutStsc
      | Some (_, in_chunk) =>
          let? offset := coff c in
          let? ranges := chunk_samples (Z.to_nat in_chunk) samples size offset ranges in
          chunk_loop n (S c) run samples size coff per_chunk ranges
      end
  end.

(** Presentation times, in decode order. *)
Fixpoint span_loop (ranges : list (Z * Z)) (deltas composition : list Z)
    (start_time timescale decode_time : Z) (spans : list Span) : res (list Span) :=
  match ranges, deltas, composition with
  | (offset, size) :: ranges, d :: deltas, c :: composition =>
      let shown := i64 (i64 (decode_time + c) - start_time) in
      let span := mkSpan offset size
        (F64.div (F64.of_Z (Z.max shown 0)) (F64.of_Z timescale)) in
      if 2 ^ 63 <=? decode_time + d then Err MTimeOverflow
      else span_loop ranges deltas composition start_time timescale (decode_time + d)
             (spans ++ [span])
  | _, _, _ => Ok spans
  end.

Definition parse_video_trak (trak mdia : list Z) : res VideoSampleTimes :=
  let? mdhd := ok_or (child mdia t_mdhd) (MNoBox t_mdhd) in
  let? timescale := be_u32 mdhd
    (if bool_decide (head mdhd = Some 1) then 20%nat else 12%nat) in
  if timescale =? 0 then Err MZeroTimescale
  else
    let? stbl := ok_or (child mdia t_minf ≫= fun minf => child minf t_stbl) (MNoBox t_stbl) in
    let? stsz := ok_or (child stbl t_stsz) (MNoBox t_stsz) in
    let? fixed := be_u32 stsz 4 in
    let? samples := be_u32 stsz 8 in
    let? (chunk_offsets, stride, co) :=
      match child stbl t_stco, child stbl t_co64 with
      | Some stco, None => let? (_, n, _) := table stco 4 in Ok (n, 4, stco)
      | None, Some co64 => let? (_, n, _) := table co64 8 in Ok (n, 8, co64)
      | _, _ => Err MChunkTables
      end in
    let? stsc := ok_or (child stbl t_stsc) (MNoBox t_stsc) in
    let? (_, runs, _) := table stsc 12 in
    let? per_chunk := stsc_loop runs 0 stsc [] in
    let? ranges := chunk_loop chunk_offsets 0 0 samples (size_of fixed stsz)
                     (chunk_offset stride co) per_chunk [] in
    if negb (Z.of_nat (length ranges) =? samples) then Err MTooFewSamples
    else
      let? stts := ok_or (child stbl t_stts) (MNoBox t_stts) in
      let? deltas := expand_runs stts samples false in
      let? composition := match child stbl t_ctts with
                          | Some ctts => expand_runs ctts samples true
                          | None => Ok (replicate (Z.to_nat samples) 0)
                          end in
      let? start_time := edit_start trak in
      let? spans := span_loop ranges deltas composition start_time timescale 0 [] in
      Ok (mkTimes (sort_by_key sp_offset spans)).

Fixpoint moov_loop (boxes : list (list Z * list Z)) : res VideoSampleTimes :=
  match boxes with
  | [] => Err MNoVideo
  | (kind, trak) :: rest =>
      if negb (bool_decide (kind = t_trak)) then moov_loop rest
      else match child trak t_mdia with
           | None => moov_loop rest
           | Some mdia =>
               if bool_decide ((child mdia t_hdlr ≫= fun h => get_range h 8 4) = Some t_vide)
               then parse_video_trak trak mdia
               else moov_loop rest
           end
  end.

Definition parse_moov (moov : list Z) : res VideoSampleTimes := moov_loop (children moov).

Definition video_sample_times (fuel : nat) (file : list Z) : option (res VideoSampleTimes) :=
  r ← read_top_level_box fuel file t_moov;
  Some (let? o := r in let? moov := ok_or o MNoMoov in parse_moov moov).
