(* ===== verification/Mp4Times.v ===== *)
(** * Correctness of the sample-time lookup

    [children] inverts the box writer; a successful [parse_video_trak] yields
    the presentation time of exactly the bytes of each sample; the top-level box
    loop terminates unless a 64-bit size wraps the position, in which case it
    can run forever. *)

From Stdlib Require Import ZArith Lia.
From stdpp Require Import base list sorting.
From S2P Require Import Prelude Bytes Float Types Extract ExtractWire Mp4.

Open Scope Z_scope.

(** ** Boxes *)

Lemma child_at_progress data pos kind body next :
  child_at data pos = Some (kind, body, next) -> (pos + 8 <= next <= length data)%nat.
Proof.
  unfold child_at. destruct (Nat.leb_spec (pos + 8) (length data)); [|done].
  match goal with |- context [match ?s with Some _ => _ | None => _ end] =>
    destruct s as [[size header]|] eqn:Hs; [|done] end.
  assert (8 <= header)%nat by (repeat case_match; simplify_eq; lia).
  destruct (_ && _ && _) eqn:E; [|done]. intros [= _ _ <-]. bsimp. lia.
Qed.

Lemma children_loop_total data fuel : forall pos,
  (length data - pos < fuel)%nat -> is_Some (children_loop fuel data pos).
Proof.
  induction fuel as [|fuel IH]; intros pos Hf; [lia|]. cbn [children_loop].
  destruct (child_at data pos) as [[[kind body] next]|] eqn:E; [|by eexists].
  apply child_at_progress in E.
  destruct (IH next) as [rest ->]; [lia|]. by eexists.
Qed.

Lemma children_loop_mono data fuel1 : forall fuel2 pos r,
  (fuel1 <= fuel2)%nat -> children_loop fuel1 data pos = Some r ->
  children_loop fuel2 data pos = Some r.
Proof.
  induction fuel1 as [|fuel IH]; intros [|fuel2] pos r Hf; try (simpl; done || lia).
  cbn [children_loop]. destruct (child_at data pos) as [[[kind body] next]|]; [|done].
  destruct (children_loop fuel data next) as [rest|] eqn:E; [|done].
  rewrite (IH fuel2 next rest) by (done || lia). done.
Qed.

(** A plain box: 32-bit big-endian size, type, payload. *)
Definition be_bytes (n : nat) (z : Z) : list Z := rev (le_bytes n z).

Definition mp4_box (kind body : list Z) : list Z :=
  be_bytes 4 (8 + Z.of_nat (length body)) ++ kind ++ body.

Fixpoint mp4_boxes (boxes : list (list Z * list Z)) : list Z :=
  match boxes with
  | [] => []
  | (kind, body) :: t => mp4_box kind body ++ mp4_boxes t
  end.

Definition box_ok (kb : list Z * list Z) : Prop :=
  length (fst kb) = 4%nat /\ 8 + Z.of_nat (length (snd kb)) < 2 ^ 32.

(** A slice's length is a [usize]. *)
Definition fits (data : list Z) : Prop := Z.of_nat (length data) <= U64_MAX.

Lemma length_be_bytes n z : length (be_bytes n z) = n.
Proof. unfold be_bytes. by rewrite length_rev, length_le_bytes. Qed.

Lemma be_val_be_bytes n z : 0 <= z < 256 ^ Z.of_nat n -> be_val (be_bytes n z) = z.
Proof. intros. unfold be_val, be_bytes. rewrite rev_involutive. by apply le_val_bytes_small. Qed.

Lemma child_at_box pre kind body rest :
  box_ok (kind, body) -> fits (pre ++ mp4_box kind body ++ rest) ->
  child_at (pre ++ mp4_box kind body ++ rest) (length pre)
  = Some (kind, body, (length pre + length (mp4_box kind body))%nat).
Proof.
  intros [Hk Hb] Hfit. unfold fits, U64_MAX in *. cbn [fst snd] in *.
  set (n := 8 + Z.of_nat (length body)).
  assert (length (mp4_box kind body) = Z.to_nat n) as Hlen.
  { unfold mp4_box. rewrite !length_app, length_be_bytes. lia. }
  rewrite !length_app, Hlen in Hfit. unfold child_at. rewrite !length_app, Hlen.
  destruct (Nat.leb_spec (length pre + 8) (length pre + (Z.to_nat n + length rest))); [|lia].
  unfold mp4_box. rewrite <- !app_assoc.
  rewrite (slice_app_mid pre (be_bytes 4 _)); rewrite ?length_be_bytes; [|lia..].
  rewrite be_val_be_bytes by (change (256 ^ Z.of_nat 4) with (2 ^ 32); lia). fold n.
  destruct (Z.eqb_spec n 1); [lia|]. destruct (Z.eqb_spec n 0); [lia|].
  rewrite (app_assoc pre).
  rewrite (slice_app_mid (pre ++ _) kind); rewrite ?length_app, ?length_be_bytes; [|lia..].
  rewrite (app_assoc _ kind).
  rewrite (slice_app_mid ((pre ++ _) ++ kind) body); rewrite ?length_app, ?length_be_bytes; [|lia..].
  unfold U64_MAX.
  destruct (_ && _ && _) eqn:E; [|bsimp; destruct E as [E|E]; bsimp; [destruct E|]; bsimp; lia].
  do 2 f_equal. lia.
Qed.

Lemma children_loop_boxes boxes : Forall box_ok boxes -> forall pre fuel,
  (length boxes < fuel)%nat -> fits (pre ++ mp4_boxes boxes) ->
  children_loop fuel (pre ++ mp4_boxes boxes) (length pre) = Some boxes.
Proof.
  induction 1 as [|[kind body] bs Hb _ IH]; intros pre [|fuel] Hf Hfit;
    cbn [mp4_boxes children_loop length] in *; try lia.
  - unfold child_at. rewrite app_nil_r.
    destruct (Nat.leb_spec (length pre + 8) (length pre)); [lia|done].
  - rewrite child_at_box by done. specialize (IH (pre ++ mp4_box kind body) fuel ltac:(lia)).
    rewrite length_app, <- app_assoc in IH. by rewrite IH.
Qed.

(** The child-box loop returns on every payload, with one turn per byte of
    fuel to spare, and on a sequence of well-formed boxes it yields exactly
    their types and payloads. *)
Theorem children_roundtrip data boxes :
  Forall box_ok boxes -> fits (mp4_boxes boxes) ->
  children_loop (S (length data)) data 0 = Some (children data)
  /\ children (mp4_boxes boxes) = boxes.
Proof.
  intros Hb Hfit. assert (forall d, children_loop (S (length d)) d 0 = Some (children d)) as Ht.
  { intros d. unfold children. by destruct (children_loop_total d (S (length d)) 0) as [r ->]; [lia|]. }
  split; [done|]. unfold children.
  rewrite (children_loop_mono _ (S (length boxes)) _ 0 boxes); [done| |].
  - clear -Hb. induction Hb as [|[k b] bs [Hk _] _ IH]; cbn [mp4_boxes length fst snd] in *; [lia|].
    rewrite length_app. unfold mp4_box at 1. rewrite !length_app, length_be_bytes. lia.
  - apply (children_loop_boxes boxes Hb [] (S (length boxes))); [lia | done].
Qed.

Lemma children_roundtrip_witness :
  children (mp4_box t_mdhd [1; 2] ++ mp4_box t_stsz [3] ++ []) = [(t_mdhd, [1; 2]); (t_stsz, [3])].
Proof.
  refine (proj2 (children_roundtrip [] [(t_mdhd, [1; 2]); (t_stsz, [3])] _ _)); [|by vm_compute].
  apply Forall_cons; split; [split; [done | simpl; lia]|].
  apply Forall_singleton. split; [done | simpl; lia].
Defined.

(** ** Byte ranges of the samples *)

(** Samples of the given sizes laid end to end. *)
Fixpoint lay (offset : Z) (sizes : list Z) : list (Z * Z) :=
  match sizes with
  | [] => []
  | s :: t => (offset, s) :: lay (u64 (offset + s)) t
  end.

(** Chunks, each an offset and a number of samples, consuming [sizes]. *)
Fixpoint layout (chunks : list (Z * nat)) (sizes : list Z) : list (Z * Z) :=
  match chunks with
  | [] => []
  | (o, n) :: t => lay o (take n sizes) ++ layout t (drop n sizes)
  end.

(** The [stsc] entry of 0-based chunk [c]: the last one whose first chunk is at
    most [c + 1] (the first entry when there is none). *)
Definition stsc_index (per_chunk : list (Z * Z)) (c : nat) : nat :=
  partition_point (fun fc => fst fc <=? Z.of_nat c + 1) (tail per_chunk).

Lemma length_lay o sizes : length (lay o sizes) = length sizes.
Proof. revert o. induction sizes; intros; simpl; auto. Qed.

Lemma lay_snd o sizes : snd <$> lay o sizes = sizes.
Proof. revert o. induction sizes; intros; csimpl; f_equal; auto. Qed.

Lemma lookup_tail {A} (l : list A) i : tail l !! i = l !! S i.
Proof. by destruct l. Qed.

Lemma partition_point_mono {A} (p q : A -> bool) l :
  (forall x, p x = true -> q x = true) -> (partition_point p l <= partition_point q l)%nat.
Proof.
  intros H. induction l as [|x t IH]; simpl; [lia|].
  destruct (p x) eqn:E; [rewrite (H x E); lia | lia].
Qed.

Lemma stsc_index_S per_chunk c : (stsc_index per_chunk c <= stsc_index per_chunk (S c))%nat.
Proof. apply partition_point_mono. intros x ?. bsimp. lia. Qed.

Lemma advance_run_index per_chunk c fuel : forall run,
  (run <= stsc_index per_chunk c)%nat -> (stsc_index per_chunk c - run <= fuel)%nat ->
  advance_run fuel per_chunk c run = stsc_index per_chunk c.
Proof.
  induction fuel as [|fuel IH]; intros run Hr Hf; cbn [advance_run]; [lia|].
  destruct (per_chunk !! S run) as [[first cnt]|] eqn:E.
  - destruct (Nat.eq_dec run (stsc_index per_chunk c)) as [->|].
    + rewrite <- lookup_tail in E. apply partition_point_at in E. cbn [fst] in E. by rewrite E.
    + rewrite <- lookup_tail in E.
      pose proof (partition_point_before (fun fc => fst fc <=? Z.of_nat c + 1)
        (tail per_chunk) run (first, cnt) ltac:(unfold stsc_index in *; lia) E) as E'.
      cbn [fst] in E'. rewrite E'. apply IH; lia.
  - rewrite <- lookup_tail in E. apply lookup_ge_None in E.
    pose proof (partition_point_le (fun fc => fst fc <=? Z.of_nat c + 1) (tail per_chunk)).
    unfold stsc_index in *. lia.
Qed.

Lemma stsc_index_le per_chunk c : (stsc_index per_chunk c <= length per_chunk)%nat.
Proof.
  unfold stsc_index. etransitivity; [apply partition_point_le|]. destruct per_chunk; simpl; lia.
Qed.

(** The sizes a run of samples reads are the ones [size] gives. *)
Definition sizes_from (size : nat -> res Z) (k : nat) (sizes : list Z) : Prop :=
  forall i s, sizes !! i = Some s -> size (k + i)%nat = Ok s.

Lemma sizes_from_cons size k s t :
  size k = Ok s -> sizes_from size (S k) t -> sizes_from size k (s :: t).
Proof.
  intros H1 H2 [|i] s'; simpl.
  - intros [= <-]. by rewrite Nat.add_0_r.
  - intros H. specialize (H2 i s' H). by rewrite <- H2; f_equal; lia.
Qed.

Lemma sizes_from_app size k l1 l2 :
  sizes_from size k l1 -> sizes_from size (k + length l1) l2 -> sizes_from size k (l1 ++ l2).
Proof.
  revert k. induction l1 as [|s t IH]; intros k H1 H2; simpl in *.
  - by rewrite Nat.add_0_r in H2.
  - apply sizes_from_cons.
    + specialize (H1 0%nat s eq_refl). by rewrite Nat.add_0_r in H1.
    + apply IH.
      * intros i s' H. specialize (H1 (S i) s' H). rewrite <- H1. f_equal. lia.
      * intros i s' H. specialize (H2 i s' H). rewrite <- H2. f_equal. lia.
Qed.

Lemma chunk_samples_lay n samples size : forall offset ranges r,
  chunk_samples n samples size offset ranges = Ok r ->
  exists sizes, length sizes = n /\ sizes_from size (length ranges) sizes
    /\ r = ranges ++ lay offset sizes.
Proof.
  induction n as [|n IH]; intros offset ranges r; cbn [chunk_samples].
  - intros [= <-]. exists []. split_and!; [done|by intros ?|by rewrite app_nil_r].
  - destruct (_ =? _); [done|]. intros H. inv_bind.
    apply IH in H as (sizes & Hl & Hs & ->). exists (a :: sizes). split_and!; [by simpl; lia| |].
    + apply sizes_from_cons; [done|]. rewrite length_app in Hs. simpl in Hs.
      by rewrite Nat.add_1_r in Hs.
    + by rewrite <- app_assoc.
Qed.

(** The chunk loop lays out the chunks in order, each at its table offset with
    the sample count of its [stsc] entry. *)
Lemma chunk_loop_layout n samples size coff per_chunk : forall c run ranges r,
  (run <= stsc_index per_chunk c)%nat ->
  chunk_loop n c run samples size coff per_chunk ranges = Ok r ->
  exists chunks sizes,
    length chunks = n
    /\ sum_list (snd <$> chunks) = length sizes
    /\ sizes_from size (length ranges) sizes
    /\ (forall i o k, chunks !! i = Some (o, k) ->
          coff (c + i)%nat = Ok o
          /\ exists f cnt, per_chunk !! stsc_index per_chunk (c + i) = Some (f, cnt)
                           /\ k = Z.to_nat cnt)
    /\ r = ranges ++ layout chunks sizes.
Proof.
  induction n as [|n IH]; intros c run ranges r Hrun; cbn [chunk_loop].
  - intros [= <-]. exists [], []. split_and!; try done. by rewrite app_nil_r.
  - rewrite advance_run_index; [|lia|pose proof (stsc_index_le per_chunk c); lia].
    destruct (per_chunk !! stsc_index per_chunk c) as [[f cnt]|] eqn:E; [|done].
    intros H. inv_bind. apply chunk_samples_lay in Hb0 as (sz & Hl & Hsz & ->).
    apply IH in H as (chunks & sizes & Hc1 & Hc2 & Hc3 & Hc4 & ->); [|apply stsc_index_S].
    exists ((a, Z.to_nat cnt) :: chunks), (sz ++ sizes). split_and!.
    + by simpl; lia.
    + csimpl. rewrite length_app. lia.
    + apply sizes_from_app; [done|]. by rewrite length_app, length_lay in Hc3.
    + intros [|i] o k; simpl.
      * intros [= <- <-]. rewrite Nat.add_0_r. eauto 8.
      * intros H. replace (c + S i)%nat with (S c + i)%nat by lia. by apply Hc4.
    + cbn [layout]. rewrite <- app_assoc.
      by rewrite <- Hl, take_app_length, drop_app_length.
Qed.

(** ** Presentation times *)

Lemma span_loop_spec ranges : forall deltas comps st ts dt spans r,
  length deltas = length ranges -> length comps = length ranges ->
  span_loop ranges deltas comps st ts dt spans = Ok r ->
  exists new, r = spans ++ new /\ length new = length ranges
    /\ forall k o s c, ranges !! k = Some (o, s) -> comps !! k = Some c ->
       new !! k = Some (mkSpan o s (F64.div
         (F64.of_Z (Z.max (i64 (i64 (dt + sum_Z (take k deltas) + c) - st)) 0)) (F64.of_Z ts))).
Proof.
  induction ranges as [|[o s] ranges IH]; intros deltas comps st ts dt spans r Hd Hc;
    destruct deltas as [|d deltas], comps as [|c comps]; simpl in Hd, Hc; try lia;
    cbn [span_loop].
  - intros [= <-]. exists []. split_and!; [by rewrite app_nil_r | done | done].
  - destruct (_ <=? _); [done|]. intros H.
    apply IH in H as (new & -> & Hl & Hn); [|lia..].
    eexists (_ :: new). split_and!; [by rewrite <- app_assoc | simpl; lia|].
    intros [|k] o' s' c'; simpl.
    + intros [= <- <-] [= <-]. by rewrite Z.add_0_r.
    + intros H1 H2. rewrite (Hn k o' s' c' H1 H2). unfold sum_Z. cbn [foldr].
      by rewrite Z.add_assoc.
Qed.

(** What the tables of a video track say. *)
Record track := mkTrack {
  tk_timescale : Z;
  tk_sizes : list Z;             (* stsz *)
  tk_chunks : list (Z * nat);    (* stco/co64 offsets with their stsc counts *)
  tk_deltas : list Z;            (* stts *)
  tk_composition : list Z;       (* ctts *)
  tk_start : Z;                  (* elst *)
}.

Definition track_ranges (t : track) : list (Z * Z) := layout (tk_chunks t) (tk_sizes t).
Definition track_shown (t : track) (k : nat) : Z :=
  sum_Z (take k (tk_deltas t)) + nth k (tk_composition t) 0 - tk_start t.
Definition sample_time (t : track) (k : nat) : Z :=
  F64.div (F64.of_Z (Z.max (track_shown t k) 0)) (F64.of_Z (tk_timescale t)).

Definition chunk_table (stbl co : list Z) (stride : Z) : Prop :=
  (child stbl t_stco = Some co /\ child stbl t_co64 = None /\ stride = 4)
  \/ (child stbl t_stco = None /\ child stbl t_co64 = Some co /\ stride = 8).

(** The track is the one in the boxes [trak] and [mdia]. *)
Record describes (trak mdia stbl : list Z) (t : track) : Prop := {
  d_timescale : exists mdhd, child mdia t_mdhd = Some mdhd
    /\ be_u32 mdhd (if bool_decide (head mdhd = Some 1) then 20%nat else 12%nat)
       = Ok (tk_timescale t);
  d_stbl : exists minf, child mdia t_minf = Some minf /\ child minf t_stbl = Some stbl;
  d_sizes : exists stsz fixed, child stbl t_stsz = Some stsz
    /\ be_u32 stsz 4 = Ok fixed /\ be_u32 stsz 8 = Ok (Z.of_nat (length (tk_sizes t)))
    /\ sizes_from (size_of fixed stsz) 0 (tk_sizes t);
  d_chunks : exists co stride stsc per_chunk v1 v2 runs,
    chunk_table stbl co stride /\ child stbl t_stsc = Some stsc
    /\ table co stride = Ok (v1, length (tk_chunks t), 8%nat)
    /\ table stsc 12 = Ok (v2, runs, 8%nat)
    /\ stsc_loop runs 0 stsc [] = Ok per_chunk
    /\ forall c o n, tk_chunks t !! c = Some (o, n) ->
         chunk_offset stride co c = Ok o
         /\ exists f cnt, per_chunk !! stsc_index per_chunk c = Some (f, cnt)
                          /\ n = Z.to_nat cnt;
  d_deltas : exists stts, child stbl t_stts = Some stts
    /\ expand_runs stts (Z.of_nat (length (tk_sizes t))) false = Ok (tk_deltas t);
  d_composition : match child stbl t_ctts with
    | Some ctts => expand_runs ctts (Z.of_nat (length (tk_sizes t))) true = Ok (tk_composition t)
    | None => tk_composition t = replicate (length (tk_sizes t)) 0
    end;
  d_start : edit_start trak = Ok (tk_start t);
}.

Lemma table_start data e v n a : table data e = Ok (v, n, a) -> a = 8%nat.
Proof. unfold table. intros H. inv_bind. by case_if H; inv_bind; simplify_eq. Qed.

Lemma expand_runs_length data samples sgn out :
  expand_runs data samples sgn = Ok out -> Z.of_nat (length out) = samples.
Proof.
  unfold expand_runs. intros H. apply rbind_Ok in H as ([[v n] a] & _ & H). inv_bind.
  case_if H; inv_bind. by bsimp.
Qed.

Lemma length_layout chunks : forall sizes, sum_list (snd <$> chunks) = length sizes ->
  length (layout chunks sizes) = length sizes.
Proof.
  induction chunks as [|[o n] cs IH]; intros sizes; csimpl; [done|]. intros H.
  rewrite length_app, length_lay, IH; rewrite ?length_take, ?length_drop; lia.
Qed.

(** The spans of a parsed track before the final sort. *)
Definition raw_span (t : track) (k : nat) (r : Z * Z) : Span :=
  mkSpan (fst r) (snd r) (F64.div
    (F64.of_Z (Z.max (i64 (i64 (sum_Z (take k (tk_deltas t)) + nth k (tk_composition t) 0)
                           - tk_start t)) 0)) (F64.of_Z (tk_timescale t))).

Lemma chunk_choice (a b : option (list Z)) n stride co :
  match a, b with
  | Some stco, None => let? (_, n, _) := table stco 4 in Ok (n, 4, stco)
  | None, Some co64 => let? (_, n, _) := table co64 8 in Ok (n, 8, co64)
  | _, _ => Err MChunkTables
  end = Ok (n, stride, co) ->
  ((a = Some co /\ b = None /\ stride = 4) \/ (a = None /\ b = Some co /\ stride = 8))
  /\ exists v, table co stride = Ok (v, n, 8%nat).
Proof.
  destruct a as [a|], b as [b|]; try done; intros H; apply rbind_Ok in H as ([[v m] s] & Hb & H);
    simplify_eq; pose proof (table_start _ _ _ _ _ Hb) as ->; naive_solver.
Qed.

Lemma parse_video_trak_spans trak mdia v :
  parse_video_trak trak mdia = Ok v ->
  exists stbl t, describes trak mdia stbl t
    /\ length (track_ranges t) = length (tk_sizes t)
    /\ length (tk_deltas t) = length (tk_sizes t)
    /\ length (tk_composition t) = length (tk_sizes t)
    /\ vt_spans v = sort_by_key sp_offset (imap (raw_span t) (track_ranges t)).
Proof.
  unfold parse_video_trak. intros H. apply rbind_Ok in H as (mdhd & H1 & H).
  apply rbind_Ok in H as (ts & H2 & H). case_if H; [done|].
  apply rbind_Ok in H as (stbl & H3 & H). apply ok_or_Ok in H1, H3.
  apply bind_Some in H3 as (minf & Hm1 & Hm2).
  apply rbind_Ok in H as (stsz & H4%ok_or_Ok & H). apply rbind_Ok in H as (fixed & H5 & H).
  apply rbind_Ok in H as (samples & H6 & H). apply rbind_Ok in H as ([[nco stride] co] & H7 & H).
  apply chunk_choice in H7 as [Hco (v1 & Hcotab)].
  apply rbind_Ok in H as (stsc & H8%ok_or_Ok & H).
  apply rbind_Ok in H as ([[v2 runs] st] & H9 & H). pose proof (table_start _ _ _ _ _ H9) as ->.
  apply rbind_Ok in H as (per_chunk & H10 & H). apply rbind_Ok in H as (ranges & H11 & H).
  apply chunk_loop_layout in H11 as (chunks & sizes & Hc1 & Hc2 & Hc3 & Hc4 & ->); [|lia].
  cbn [app] in *. case_if H; [done|]. bsimp. rewrite length_layout in E0 by done.
  apply rbind_Ok in H as (stts & H12%ok_or_Ok & H). apply rbind_Ok in H as (deltas & H13 & H).
  apply rbind_Ok in H as (comps & H14 & H). apply rbind_Ok in H as (start & H15 & H).
  apply rbind_Ok in H as (spans & H16 & H). injection H as <-. subst samples nco.
  pose proof (expand_runs_length _ _ _ _ H13) as Hld. apply Nat2Z.inj in Hld.
  assert (length comps = length sizes) as Hlc.
  { destruct (child stbl t_ctts); [apply expand_runs_length in H14; lia|].
    injection H14 as <-. rewrite length_replicate. lia. }
  apply span_loop_spec in H16 as (new & -> & Hln & Hn); [|rewrite length_layout; done..].
  rewrite length_layout in Hln by done.
  exists stbl, (mkTrack ts sizes chunks deltas comps start). split_and!; try done.
  - constructor; cbn [tk_timescale tk_sizes tk_chunks tk_deltas tk_composition tk_start]; eauto.
    + eauto 8.
    + exists co, stride, stsc, per_chunk, v1, v2, runs. split_and!; try done.
    + destruct (child stbl t_ctts); [done|]. injection H14 as <-. f_equal. lia.
  - by apply length_layout.
  - cbn [vt_spans app]. f_equal. apply list_eq_same_length with (n := length sizes); [|done|].
    { rewrite length_imap. by apply length_layout. }
    intros k x y Hk Hx Hy. rewrite list_lookup_imap in Hy.
    apply fmap_Some in Hy as ([o s] & Hos & ->).
    destruct (lookup_lt_is_Some_2 comps k) as [c Hcc]; [lia|].
    rewrite (Hn k o s c Hos Hcc) in Hx. injection Hx as <-.
    unfold raw_span. cbn [fst snd tk_timescale tk_deltas tk_composition tk_start].
    by rewrite (nth_lookup_Some _ _ _ _ Hcc), Z.add_0_l.
Qed.

(** *** Ranges of the values read *)

Lemma range_byte data a b : Forall is_byte data -> Forall is_byte (slice data a b).
Proof. intros. unfold slice. by apply Forall_take, Forall_drop. Qed.

Lemma child_at_byte data pos kind body next :
  Forall is_byte data -> child_at data pos = Some (kind, body, next) -> Forall is_byte body.
Proof.
  intros Hd. unfold child_at. case_match; [|done].
  match goal with |- context [match ?s with Some _ => _ | None => _ end] =>
    destruct s as [[size header]|]; [|done] end.
  destruct (_ && _ && _); [|done]. intros [= _ <- _]. by apply range_byte.
Qed.

Lemma children_loop_byte data fuel : Forall is_byte data -> forall pos r,
  children_loop fuel data pos = Some r -> Forall (fun kb => Forall is_byte (snd kb)) r.
Proof.
  intros Hd. induction fuel as [|fuel IH]; intros pos r; cbn [children_loop]; [done|].
  destruct (child_at data pos) as [[[kind body] next]|] eqn:E; [|by intros [= <-]].
  destruct (children_loop fuel data next) as [rest|] eqn:E2; [|done].
  intros [= <-]. constructor; [by eapply child_at_byte | by eapply IH].
Qed.

Lemma child_byte data kind body :
  Forall is_byte data -> child data kind = Some body -> Forall is_byte body.
Proof.
  intros Hd. unfold child, children.
  destruct (children_loop _ data 0) as [r|] eqn:E; simpl; [|done].
  apply children_loop_byte in E; [|done]. intros (kb & Hf & ->)%fmap_Some.
  apply List.find_some in Hf as [Hin _]. rewrite List.Forall_forall in E. by apply E.
Qed.

Lemma get_range_byte data a n b :
  Forall is_byte data -> get_range data a n = Some b -> Forall is_byte b /\ length b = n.
Proof.
  intros Hd. unfold get_range. destruct (Nat.leb_spec (a + n) (length data)); [|done].
  intros [= <-]. split; [by apply range_byte|]. rewrite length_slice; lia.
Qed.

Lemma be_u32_range data a v : Forall is_byte data -> be_u32 data a = Ok v -> 0 <= v < 2 ^ 32.
Proof.
  intros Hd H. unfold be_u32 in H. apply ok_or_Ok, fmap_Some in H as (b & Hb & ->).
  destruct (get_range_byte _ _ _ _ Hd Hb) as [Hf Hl]. apply be_val_range in Hf. by rewrite Hl in Hf.
Qed.

Lemma expand_loop_range data version samples sgn : Forall is_byte data -> forall n i out r,
  expand_loop n i data version samples sgn out = Ok r ->
  Forall (fun z => (if sgn then - 2 ^ 31 else 0) <= z < 2 ^ 32) out ->
  Forall (fun z => (if sgn then - 2 ^ 31 else 0) <= z < 2 ^ 32) r.
Proof.
  intros Hd. induction n as [|n IH]; intros i out r; cbn [expand_loop]; [by intros [= <-]|].
  intros H Ho. inv_bind. case_if H; [done|]. apply IH in H; [done|].
  apply Forall_app. split; [done|]. apply Forall_replicate.
  apply be_u32_range in Hb0; [|done]. pose proof (signed_range 32 a0 ltac:(lia)) as Hs.
  destruct sgn; cbn [andb]; [|lia].
  destruct (_ =? _); [|lia]. unfold i32. unfold in_i in Hs. simpl in Hs. lia.
Qed.

Lemma expand_runs_range data samples sgn r : Forall is_byte data ->
  expand_runs data samples sgn = Ok r ->
  Forall (fun z => (if sgn then - 2 ^ 31 else 0) <= z < 2 ^ 32) r.
Proof.
  intros Hd H. unfold expand_runs in H. apply rbind_Ok in H as ([[v n] a] & _ & H). inv_bind.
  case_if H; inv_bind. eapply expand_loop_range; [exact Hd | exact Hb | constructor].
Qed.

Lemma edit_loop_range elst version entry : forall n i r,
  edit_loop n i elst version entry = Ok r -> 0 <= r.
Proof.
  induction n as [|n IH]; intros i r; cbn [edit_loop]; [intros [= <-]; lia|].
  intros H. inv_bind. case_if H; [|by eapply IH]. inv_bind. by bsimp.
Qed.

Lemma edit_start_range trak r : edit_start trak = Ok r -> 0 <= r.
Proof.
  unfold edit_start. destruct (_ ≫= _); [|intros [= <-]; lia]. intros H.
  apply rbind_Ok in H as (v & _ & H). apply rbind_Ok in H as ([[? n] ?] & _ & H).
  by eapply edit_loop_range.
Qed.

(** The bound under which the [i64] arithmetic on sample times is exact: the
    track lasts less than [2^63 - 2^32] ticks and starts before
    [2^63 - 2^31]. *)
Definition no_overflow (t : track) : Prop :=
  sum_Z (tk_deltas t) <= 2 ^ 63 - 2 ^ 32 /\ tk_start t <= 2 ^ 63 - 2 ^ 31.

Lemma sum_Z_take_le l k : Forall (fun z => 0 <= z) l -> sum_Z (take k l) <= sum_Z l.
Proof.
  intros H. rewrite <- (take_drop k l) at 2. rewrite sum_Z_app.
  pose proof (sum_Z_nonneg (drop k l) ltac:(by apply Forall_drop)). lia.
Qed.

Lemma raw_span_exact trak mdia stbl t k r :
  Forall is_byte mdia -> describes trak mdia stbl t -> no_overflow t ->
  (k < length (tk_composition t))%nat ->
  raw_span t k r = mkSpan (fst r) (snd r) (sample_time t k).
Proof.
  intros Hm [_ (minf & Hm1 & Hm2) _ _ (stts & Hs1 & Hs2) Hc Hst] [Ho1 Ho2] Hk.
  assert (Forall is_byte stbl) as Hb by eauto using child_byte.
  apply edit_start_range in Hst.
  apply expand_runs_range in Hs2; [|by eapply child_byte].
  assert (Forall (fun z => 0 <= z) (tk_deltas t)) as Hd.
  { eapply Forall_impl; [exact Hs2|]. intros z Hz. cbn in Hz. lia. }
  assert (Forall (fun z => - 2 ^ 31 <= z < 2 ^ 32) (tk_composition t)) as Hcr.
  { destruct (child stbl t_ctts) as [ctts|] eqn:E.
    - apply (expand_runs_range _ _ true _ ltac:(by eapply child_byte) Hc).
    - rewrite Hc. apply Forall_replicate. lia. }
  destruct (lookup_lt_is_Some_2 _ _ Hk) as [c Hck].
  pose proof (Forall_lookup_1 _ _ _ _ Hcr Hck) as Hcb. cbv beta in Hcb.
  pose proof (sum_Z_take_le (tk_deltas t) k Hd).
  pose proof (sum_Z_nonneg (take k (tk_deltas t)) ltac:(by apply Forall_take)).
  unfold raw_span, sample_time, track_shown. rewrite (nth_lookup_Some _ _ _ _ Hck).
  rewrite (i64_small (_ + c)) by lia. rewrite i64_small by lia. done.
Qed.

(** ** Lookup *)

(** Every byte of the file belongs to at most one sample, samples are not empty
    and end below [2^64]. *)
Definition disjoint_ranges (ranges : list (Z * Z)) : Prop :=
  forall i j oi si oj sj x, ranges !! i = Some (oi, si) -> ranges !! j = Some (oj, sj) ->
    oi <= x < oi + si -> oj <= x < oj + sj -> i = j.
Definition range_ok (r : Z * Z) : Prop := 0 <= fst r /\ 0 < snd r /\ fst r + snd r < 2 ^ 64.

Definition span_ok (s : Span) : Prop := range_ok (sp_offset s, sp_size s).

(** The lookup in sorted spans finds the last span that starts at or before the
    offset. *)
Lemma time_at_offset_last v x idx :
  partition_point (fun s => sp_offset s <=? x) (vt_spans v) = S idx ->
  exists s, vt_spans v !! idx = Some s /\ sp_offset s <= x
    /\ time_at_offset v x
       = if x <? u64 (sp_offset s + sp_size s) then Some (sp_time_sec s) else None.
Proof.
  intros Hn. pose proof (partition_point_le (fun s => sp_offset s <=? x) (vt_spans v)) as Hle.
  destruct (lookup_lt_is_Some_2 (vt_spans v) idx) as [s Hs]; [lia|]. exists s. split_and!; [done| |].
  - apply Z.leb_le. eapply (partition_point_before (fun s => sp_offset s <=? x)); [|exact Hs]. lia.
  - unfold time_at_offset. by rewrite Hn, (nth_lookup_Some _ _ _ _ Hs).
Qed.

Lemma time_at_offset_none v x :
  Forall span_ok (vt_spans v) ->
  (forall s, s ∈ vt_spans v -> ~ (sp_offset s <= x < sp_offset s + sp_size s)) ->
  time_at_offset v x = None.
Proof.
  intros Hok Hno. destruct (partition_point (fun s => sp_offset s <=? x) (vt_spans v)) eqn:E.
  - unfold time_at_offset. by rewrite E.
  - apply time_at_offset_last in E as (s & Hs & Hle & ->).
    pose proof (Forall_lookup_1 _ _ _ _ Hok Hs) as [? [? ?]]. cbn [fst snd] in *.
    apply list_elem_of_lookup_2 in Hs. specialize (Hno s Hs).
    rewrite u64_small by lia. destruct (Z.ltb_spec x (sp_offset s + sp_size s)); [lia|done].
Qed.

Lemma time_at_offset_some v x i s :
  StronglySorted (fun a b => sp_offset a <= sp_offset b) (vt_spans v) ->
  Forall span_ok (vt_spans v) ->
  (forall j s' y, vt_spans v !! j = Some s' -> sp_offset s <= y < sp_offset s + sp_size s ->
     sp_offset s' <= y < sp_offset s' + sp_size s' -> i = j) ->
  vt_spans v !! i = Some s -> sp_offset s <= x < sp_offset s + sp_size s ->
  time_at_offset v x = Some (sp_time_sec s).
Proof.
  intros Hss Hok Hdis Hs Hx.
  assert (exists idx, partition_point (fun s => sp_offset s <=? x) (vt_spans v) = S idx
                      /\ (i <= idx)%nat) as (idx & E & Hi).
  { set (n := partition_point _ _).
    assert (i < n)%nat; [|exists (pred n); lia].
    destruct (Nat.lt_ge_cases i n) as [|Hge]; [done|exfalso].
    destruct (lookup_lt_is_Some_2 (vt_spans v) n) as [s' Hs'].
    { apply lookup_lt_Some in Hs. lia. }
    pose proof (partition_point_at _ _ _ Hs') as Hgt. cbv beta in Hgt. bsimp.
    destruct (Nat.eq_dec i n) as [->|]; [simplify_eq; lia|].
    pose proof (StronglySorted_lookup _ _ n i _ _ Hss ltac:(lia) Hs' Hs) as Hle. cbv beta in Hle. lia. }
  destruct (time_at_offset_last v x idx E) as (s' & Hs' & Hle & ->).
  pose proof (Forall_lookup_1 _ _ _ _ Hok Hs') as [? [? ?]]. cbn [fst snd] in *.
  assert (i = idx) as ->.
  { destruct (Nat.eq_dec i idx) as [|Hne]; [done|].
    pose proof (StronglySorted_lookup _ _ i idx _ _ Hss ltac:(lia) Hs Hs') as Hle'. cbv beta in Hle'.
    apply (Hdis idx s' (sp_offset s') Hs'); lia. }
  assert (s' = s) as -> by congruence.
  rewrite u64_small by lia. destruct (Z.ltb_spec x (sp_offset s + sp_size s)); [done|lia].
Qed.

(** The boxes determine the track. *)
Lemma sizes_from_unique size l1 l2 :
  length l1 = length l2 -> sizes_from size 0 l1 -> sizes_from size 0 l2 -> l1 = l2.
Proof.
  intros Hl H1 H2. eapply list_eq_same_length; [symmetry; exact Hl | done|].
  intros i x y _ Hx Hy. specialize (H1 i x Hx). specialize (H2 i y Hy). congruence.
Qed.

Lemma describes_unique trak mdia stbl stbl' t t' :
  describes trak mdia stbl t -> describes trak mdia stbl' t' -> t = t'.
Proof.
  intros [(mdhd & A1 & A2) (minf & B1 & B2) (stsz & fixed & C1 & C2 & C3 & C4)
          (co & stride & stsc & pc & v1 & v2 & runs & D1 & D2 & D3 & D4 & D5 & D6)
          (stts & E1 & E2) F G]
         [(mdhd' & A1' & A2') (minf' & B1' & B2') (stsz' & fixed' & C1' & C2' & C3' & C4')
          (co' & stride' & stsc' & pc' & v1' & v2' & runs' & D1' & D2' & D3' & D4' & D5' & D6')
          (stts' & E1' & E2') F' G'].
  assert (minf' = minf) as -> by congruence. assert (stbl' = stbl) as -> by congruence.
  assert (stsz' = stsz) as -> by congruence. assert (fixed' = fixed) as -> by congruence.
  assert (stsc' = stsc) as -> by congruence. assert (stts' = stts) as -> by congruence.
  assert (mdhd' = mdhd) as -> by congruence.
  assert (length (tk_sizes t) = length (tk_sizes t')) as Hl by (apply Nat2Z.inj; congruence).
  assert (tk_sizes t = tk_sizes t') as Hs by eauto using sizes_from_unique. rewrite Hs in *.
  assert (co = co' /\ stride = stride') as [<- <-] by (unfold chunk_table in *; naive_solver).
  assert (tk_chunks t = tk_chunks t') as Hc.
  { eapply list_eq_same_length; [reflexivity | congruence |].
    assert (pc' = pc) as -> by congruence. intros i [o n] [o' n'] _ Hx Hy. destruct (D6 i o n Hx) as (? & f & cnt & ? & ->).
    destruct (D6' i o' n' Hy) as (? & f' & cnt' & ? & ->). congruence. }
  destruct t, t'; simpl in *. f_equal; try congruence.
  destruct (child stbl t_ctts); congruence.
Qed.

(** C16: When a track's samples are non-empty and occupy pairwise disjoint byte
    ranges below [2^64], and its times stay in the range where the [i64]
    arithmetic is exact (none of which the parser checks), a successful parse of
    the track gives every byte of every sample that sample's presentation time (decode time plus composition offset minus the
    edit-list start, floored at zero, over the timescale), and no time to any
    other byte: the tables of the track, read independently of the cursor and
    the sort the code uses, determine the lookup. *)
Theorem video_times_correct trak mdia v stbl t :
  Forall is_byte mdia -> parse_video_trak trak mdia = Ok v -> describes trak mdia stbl t ->
  no_overflow t -> Forall range_ok (track_ranges t) -> disjoint_ranges (track_ranges t) ->
  (forall k o s x, track_ranges t !! k = Some (o, s) -> o <= x < o + s ->
     time_at_offset v x = Some (sample_time t k))
  /\ (forall x, (forall o s, (o, s) ∈ track_ranges t -> ~ (o <= x < o + s)) ->
     time_at_offset v x = None).
Proof.
  intros Hm Hp Hd Hno Hok Hdis.
  destruct (parse_video_trak_spans _ _ _ Hp) as (stbl' & t' & Hd' & L1 & L2 & L3 & Hv).
  assert (t' = t) as -> by eauto using describes_unique. clear Hd'.
  set (raw := imap (raw_span t) (track_ranges t)) in *.
  assert (forall k s, raw !! k = Some s -> exists r, track_ranges t !! k = Some r
            /\ s = mkSpan (fst r) (snd r) (sample_time t k)) as Hraw.
  { intros k s. unfold raw. rewrite list_lookup_imap. intros (r & Hr & ->)%fmap_Some.
    exists r. split; [done|]. eapply raw_span_exact; eauto. apply lookup_lt_Some in Hr. lia. }
  assert (vt_spans v ≡ₚ raw) as Hperm by (rewrite Hv; apply sort_by_perm).
  apply Permutation_inj in Hperm as Hinj. destruct Hinj as [_ (f & Hf & Hfl)].
  assert (Forall span_ok (vt_spans v)) as Hsok.
  { rewrite Hperm. apply Forall_lookup. intros k s Hs. destruct (Hraw k s Hs) as (r & Hr & ->).
    apply (Forall_lookup_1 _ _ _ _ Hok Hr). }
  split.
  - intros k o s x Hk Hx.
    assert (mkSpan o s (sample_time t k) ∈ vt_spans v) as (i & Hi)%list_elem_of_lookup.
    { rewrite Hperm. apply list_elem_of_lookup. exists k. unfold raw.
      rewrite list_lookup_imap, Hk. cbn. f_equal. eapply raw_span_exact; eauto.
      apply lookup_lt_Some in Hk. lia. }
    apply (time_at_offset_some v x i (mkSpan o s (sample_time t k)));
      [rewrite Hv; apply sort_by_key_strongly | done | | exact Hi | done].
    intros j s' y Hj Hy1 Hy2. rewrite Hfl in Hi, Hj. apply (inj f).
    destruct (Hraw _ _ Hi) as (ri & Hri & Ei). destruct (Hraw _ _ Hj) as (rj & Hrj & ->).
    destruct ri as [? ?], rj as [? ?]. injection Ei as -> -> _.
    apply (Hdis _ _ _ _ _ _ y Hri Hrj Hy1 Hy2).
  - intros x Hno'. apply time_at_offset_none; [done|]. intros s Hs. rewrite Hperm in Hs.
    apply list_elem_of_lookup in Hs as (k & Hk). destruct (Hraw _ _ Hk) as ([o sz] & Hr & ->).
    apply Hno'. by apply list_elem_of_lookup_2 in Hr.
Qed.

(** The B-frame clip of the unit tests: I, P and B frames of 10 bytes from byte
    0, composition offsets 1, 2 and 0, edit list starting at 1, timescale 30. *)
Definition full_box (kind : list Z) (body : list Z) : list Z := mp4_box kind ([0; 0; 0; 0] ++ body).
Definition u32s (l : list Z) : list Z := concat (be_bytes 4 <$> l).

Definition bframe_stbl : list Z :=
  full_box t_stts (u32s [1; 3; 1]) ++ full_box t_ctts (u32s [3; 1; 1; 1; 2; 1; 0])
  ++ full_box t_stsc (u32s [1; 1; 3; 1]) ++ full_box t_stsz (u32s [0; 3; 10; 10; 10])
  ++ full_box t_stco (u32s [1; 0]).
Definition bframe_mdia : list Z := Eval vm_compute in
  full_box t_mdhd (replicate 8 0 ++ u32s [30] ++ replicate 8 0)
  ++ full_box t_hdlr (replicate 4 0 ++ t_vide ++ replicate 12 0)
  ++ mp4_box t_minf (mp4_box t_stbl bframe_stbl).
Definition bframe_trak : list Z := Eval vm_compute in
  mp4_box t_edts (full_box t_elst (u32s [1; 0; 1; 65536])) ++ mp4_box t_mdia bframe_mdia.
Definition bframe_track : track :=
  mkTrack 30 [10; 10; 10] [(0, 3%nat)] [1; 1; 1] [1; 2; 0] 1.
Definition bframe_times : VideoSampleTimes := Eval vm_compute in
  match parse_video_trak bframe_trak bframe_mdia with Ok v => v | Err _ => mkTimes [] end.

(** A box that is there. *)
Definition the_child (data kind : list Z) : list Z := default [] (child data kind).

Lemma bframe_describes : describes bframe_trak bframe_mdia bframe_stbl bframe_track.
Proof.
  constructor; cbn [tk_timescale tk_sizes tk_chunks tk_deltas tk_composition tk_start bframe_track].
  - exists (the_child bframe_mdia t_mdhd). split; vm_compute; reflexivity.
  - exists (the_child bframe_mdia t_minf). split; vm_compute; reflexivity.
  - exists (the_child bframe_stbl t_stsz), 0. split_and!; [vm_compute; reflexivity..|].
    intros [|[|[|i]]] s; intros [= <-]; vm_compute; reflexivity.
  - exists (the_child bframe_stbl t_stco), 4, (the_child bframe_stbl t_stsc), [(1, 3)], 0, 0, 1%nat.
    split_and!; [left; split_and!; vm_compute; reflexivity | vm_compute; reflexivity.. |].
    intros [|[|c]] o n; try done. intros [= <- <-]. split; [vm_compute; reflexivity|].
    exists 1, 3. split; vm_compute; reflexivity.
  - exists (the_child bframe_stbl t_stts). split; vm_compute; reflexivity.
  - vm_compute; reflexivity.
  - vm_compute; reflexivity.
Qed.

Lemma video_times_correct_witness :
  time_at_offset bframe_times 25 = Some (F64.div (F64.of_Z 1) (F64.of_Z 30))
  /\ time_at_offset bframe_times 30 = None.
Proof.
  destruct (video_times_correct bframe_trak bframe_mdia bframe_times bframe_stbl bframe_track)
    as [H1 H2].
  - apply Forall_forall. intros z Hz. unfold is_byte. revert z Hz. apply Forall_forall.
    unfold bframe_mdia. repeat (apply Forall_cons; split; [lia|]). apply Forall_nil; done.
  - by vm_compute.
  - exact bframe_describes.
  - split; by vm_compute.
  - unfold track_ranges. vm_compute layout. unfold range_ok.
    repeat (apply Forall_cons; split; [simpl; lia|]). by apply Forall_nil.
  - unfold disjoint_ranges, track_ranges. vm_compute layout.
    intros [|[|[|i]]] [|[|[|j]]] oi si oj sj x; intros; simplify_eq/=; lia.
  - split.
    + rewrite (H1 2%nat 20 10 25); [by vm_compute | by vm_compute | lia].
    + apply H2. intros o s. unfold track_ranges. vm_compute layout.
      rewrite !elem_of_cons, elem_of_nil. intros [?|[?|[?|[]]]]; simplify_eq; lia.
Defined.

(** ** The top-level box search *)

Lemma top_level_step_progress file want pos pos' :
  Forall is_byte file -> file_len file < 2 ^ 62 -> sizes_sane file -> 0 <= pos < 2 ^ 63 + 2 ^ 62 ->
  top_level_step file want pos = Continue pos' ->
  pos + 8 <= pos' < 2 ^ 63 + 2 ^ 62 /\ pos < file_len file.
Proof.
  intros Hb Hlen Hs Hpos. unfold top_level_step.
  rewrite u64_small by lia. destruct (Z.leb_spec (pos + 8) (file_len file)); [|done]. cbn [negb].
  destruct (Z.leb_spec (2 ^ 63) pos); [done|].
  destruct (read_exact file pos 8) as [h|] eqn:Hh; [|done].
  assert (0 <= be_val (take 4 h) < 2 ^ 32) as H4.
  { apply (be_val_take_range h 4). unfold read_exact in Hh. destruct (_ =? _)%nat; [|done].
    injection Hh as <-. by apply read_at_byte. }
  set (b := be_val (take 4 h)) in *.
  match goal with |- context [match ?s with Some _ => _ | None => _ end] =>
    destruct s as [[sz hd]|] eqn:Hsz; [|done] end.
  assert (8 <= hd /\ 0 <= sz < 2 ^ 63) as [Hhd Hr].
  { destruct (b =? 1).
    - destruct (read_exact file (pos + 8) 8) as [e|] eqn:He; [|done]. injection Hsz as <- <-.
      unfold read_exact in He. destruct (_ =? _)%nat; [|done]. injection He as <-.
      pose proof (Hs (pos + 8)). pose proof (be_val_range (read_at file (pos + 8) 8)
        ltac:(by apply read_at_byte)). lia.
    - destruct (b =? 0); injection Hsz as <- <-; lia. }
  destruct (Z.ltb_spec sz hd); [done|]. destruct (bool_decide _).
  - destruct (_ || _); [done|]. by destruct (read_exact file (pos + hd) _).
  - intros [= <-]. rewrite u64_small by lia. lia.
Qed.

(** The search for a top-level box returns within one turn per byte on a file
    whose 64-bit box sizes are below 2^63, so reading the sample times does. *)
Theorem moov_search_terminates (file : list Z) :
  Forall is_byte file -> file_len file < 2 ^ 62 -> sizes_sane file ->
  exists r, video_sample_times (S (length file)) file = Some r.
Proof.
  intros Hb Hlen Hs. unfold video_sample_times, read_top_level_box.
  assert (forall fuel pos, 0 <= pos < 2 ^ 63 + 2 ^ 62 -> file_len file - pos < Z.of_nat fuel ->
            (0 < fuel)%nat -> is_Some (top_level_loop fuel file t_moov pos)) as H.
  { induction fuel as [|fuel IH]; intros pos Hpos Hf Hf0; [lia|]. cbn [top_level_loop].
    destruct (top_level_step file t_moov pos) eqn:E; [eauto|].
    apply top_level_step_progress in E as [? ?]; [|done..]. apply IH; lia. }
  destruct (H (S (length file)) 0) as [r ->]; [lia|unfold file_len; lia|lia|]. by eexists.
Qed.

Lemma moov_search_terminates_witness :
  exists r, video_sample_times 18 sample_file = Some r.
Proof.
  apply (moov_search_terminates sample_file).
  - repeat constructor; done.
  - reflexivity.
  - apply sizes_sane_check; [repeat constructor; done | reflexivity | reflexivity].
Defined.

(** On the 24-byte file whose second box claims 2^64 - 8 bytes the position
    wraps to 0 and reading the sample times never returns. *)
Theorem moov_search_hangs (fuel : nat) : video_sample_times fuel looping_file = None.
Proof.
  unfold video_sample_times, read_top_level_box.
  assert (top_level_loop fuel looping_file t_moov 0 = None
          /\ top_level_loop fuel looping_file t_moov 8 = None) as [-> _]; [|done].
  induction fuel as [|fuel [IH0 IH8]]; [done|]. cbn [top_level_loop].
  assert (top_level_step looping_file t_moov 0 = Continue 8) as -> by (vm_compute; reflexivity).
  assert (top_level_step looping_file t_moov 8 = Continue 0) as -> by (vm_compute; reflexivity).
  done.
Qed.
