(* ===== verification/Str.v ===== *)
(** * Strings

    A Rust [str] is its UTF-8 bytes; the operations the crates use on it are
    written out here. ASCII patterns match bytes, as UTF-8 guarantees. *)

From Stdlib Require Import ZArith Lia Ascii String.
From stdpp Require Import base list sorting.
From S2P Require Import Prelude.

Export StringSyntax.
Open Scope Z_scope.

Notation str := (list Z) (only parsing).

(** A literal of the source. *)
Definition lit (s : string) : str :=
  map (fun c => Z.of_nat (nat_of_ascii c)) (list_ascii_of_string s).
Arguments lit _%_string.

(** [s.replace(c, d)] for single-byte patterns. *)
Definition replace_char (c d : Z) (s : str) : str := map (fun b => if b =? c then d else b) s.

Fixpoint starts_with (s p : str) {struct p} : bool :=
  match p, s with
  | [], _ => true
  | b :: p, c :: s => (b =? c) && starts_with s p
  | _ :: _, [] => false
  end.

Fixpoint contains (s p : str) : bool :=
  starts_with s p || match s with [] => false | _ :: t => contains t p end.

(** [s.rsplit(c).next()]: what follows the last separator. *)
Fixpoint rsplit_next (c : Z) (s : str) : str :=
  match s with
  | [] => []
  | b :: t => if b =? c then rsplit_next c t
              else if existsb (Z.eqb c) t then rsplit_next c t else s
  end.

(** [s.split(c)]. *)
Fixpoint split_on (c : Z) (s : str) : list str :=
  match s with
  | [] => [[]]
  | b :: t =>
      if b =? c then [] :: split_on c t
      else match split_on c t with
           | h :: r => (b :: h) :: r
           | [] => [[b]]
           end
  end.

(** [Ord] for [str]: byte-lexicographic. *)
Fixpoint str_leb (s t : str) : bool :=
  match s, t with
  | [], _ => true
  | _ :: _, [] => false
  | a :: s, b :: t => if a <? b then true else if b <? a then false else str_leb s t
  end.

Lemma str_leb_total s : forall t, str_leb s t = false -> str_leb t s = true.
Proof.
  induction s as [|a s IH]; intros [|b t]; simpl; try done.
  destruct (Z.ltb_spec a b), (Z.ltb_spec b a); try done; try lia. apply IH.
Qed.

Lemma str_leb_refl s : str_leb s s = true.
Proof. induction s as [|a s IH]; simpl; [done|]. by rewrite Z.ltb_irrefl. Qed.

Lemma str_leb_trans s : forall t u, str_leb s t = true -> str_leb t u = true -> str_leb s u = true.
Proof.
  induction s as [|a s IH]; intros [|b t] [|c u]; simpl; try done.
  destruct (Z.ltb_spec a b), (Z.ltb_spec b a), (Z.ltb_spec b c), (Z.ltb_spec c b),
    (Z.ltb_spec a c), (Z.ltb_spec c a); try done; try lia; eauto.
Qed.

Lemma str_leb_antisym s : forall t, str_leb s t = true -> str_leb t s = true -> s = t.
Proof.
  induction s as [|a s IH]; intros [|b t]; simpl; try done.
  destruct (Z.ltb_spec a b), (Z.ltb_spec b a); try done; try lia.
  intros H1 H2. f_equal; [lia|]. by apply IH.
Qed.

Lemma starts_with_spec s p : starts_with s p = true <-> exists t, s = p ++ t.
Proof.
  revert s. induction p as [|b p IH]; intros s; simpl.
  - split; [intros _; by exists s | done].
  - destruct s as [|c s]; [split; [done | by intros (t & ?)]|].
    rewrite andb_true_iff, Z.eqb_eq, IH. split.
    + intros [<- (t & ->)]. by exists t.
    + intros (t & [= <- ->]). eauto.
Qed.

Lemma contains_spec s p : contains s p = true <-> exists a b, s = a ++ p ++ b.
Proof.
  induction s as [|c s IH]; simpl; rewrite orb_true_iff, starts_with_spec.
  - split.
    + intros [(t & ->)|?]; [|done]. by exists [], t.
    + intros ([|] & b & ?); [|done]. left. by exists b.
  - rewrite IH. split.
    + intros [(t & ->)|(a & b & ->)]; [by exists [], t | by exists (c :: a), b].
    + intros ([|c' a] & b & Heq); simpl in Heq; [left; by exists b|].
      injection Heq as <- ->. right. eauto.
Qed.

(** ** Whitespace, fields and numbers

    Only ASCII whitespace is treated as such. *)

Definition is_ws (b : Z) : bool := ((9 <=? b) && (b <=? 13)) || (b =? 32).

Section trim.
Variable ws : Z -> bool.

Fixpoint trim_start_by (s : str) : str :=
  match s with
  | b :: t => if ws b then trim_start_by t else s
  | [] => []
  end.
Definition trim_end_by (s : str) : str := rev (trim_start_by (rev s)).
Definition trim_by (s : str) : str := trim_end_by (trim_start_by s).

(** A string with no whitespace at its ends is left alone. *)
Lemma trim_start_head b t : ws b = false -> trim_start_by (b :: t) = b :: t.
Proof. intros H. simpl. by rewrite H. Qed.

Lemma trim_ends b t c : ws b = false -> ws c = false -> trim_by (b :: t ++ [c]) = b :: t ++ [c].
Proof.
  intros Hb Hc. unfold trim_by, trim_end_by. rewrite trim_start_head by done.
  rewrite app_comm_cons, rev_unit, trim_start_head by done. simpl. by rewrite rev_app_distr, rev_involutive.
Qed.

Lemma trim_start_suffix s : exists p, s = p ++ trim_start_by s.
Proof.
  induction s as [|b t (p & IH)]; simpl; [by exists []|].
  destruct (ws b); [exists (b :: p); simpl; congruence | by exists []].
Qed.

Lemma length_trim_start s : (length (trim_start_by s) <= length s)%nat.
Proof. destruct (trim_start_suffix s) as (p & E). rewrite E at 2. rewrite length_app. lia. Qed.

Lemma length_trim s : (length (trim_by s) <= length s)%nat.
Proof.
  unfold trim_by, trim_end_by. rewrite length_rev.
  pose proof (length_trim_start (rev (trim_start_by s))). rewrite length_rev in H.
  pose proof (length_trim_start s). lia.
Qed.
End trim.

Notation trim_start := (trim_start_by is_ws).
Notation trim_end := (trim_end_by is_ws).
Notation trim := (trim_by is_ws).

(** [s.split_whitespace()]: maximal runs of non-whitespace; [cur] is the run
    being read. *)
Fixpoint split_ws_loop (cur s : str) : list str :=
  match s with
  | [] => match cur with [] => [] | _ => [cur] end
  | b :: t =>
      if is_ws b then match cur with [] => split_ws_loop [] t | _ => cur :: split_ws_loop [] t end
      else split_ws_loop (cur ++ [b]) t
  end.
Definition split_whitespace (s : str) : list str := split_ws_loop [] s.

(** [s.strip_prefix(p)]. *)
Definition strip_prefix (p s : str) : option str :=
  if starts_with s p then Some (drop (length p) s) else None.

Definition digit_val (b : Z) : option Z := if (48 <=? b) && (b <=? 57) then Some (b - 48) else None.

(** The digit loop of an unsigned parse with overflow at [max]. *)
Fixpoint parse_digits (max : Z) (s : str) (acc : Z) : option Z :=
  match s with
  | [] => Some acc
  | b :: t =>
      d ← digit_val b;
      if max <? acc * 10 + d then None else parse_digits max t (acc * 10 + d)
  end.

(** [s.parse::<uN>()]: an optional plus sign, then at least one digit. *)
Definition parse_uint (max : Z) (s : str) : option Z :=
  match s with
  | [] => None
  | [b] => if b =? 43 then None else parse_digits max s 0
  | b :: t => if b =? 43 then parse_digits max t 0 else parse_digits max s 0
  end.

(** [n.to_string()]. *)
Fixpoint print_loop (fuel : nat) (n : Z) : str :=
  match fuel with
  | O => []
  | S fuel => if n <? 10 then [48 + n] else print_loop fuel (n / 10) ++ [48 + n mod 10]
  end.
Definition print_uint (n : Z) : str := print_loop 20 n.

Lemma parse_digits_app max s1 : forall s2 acc,
  parse_digits max (s1 ++ s2) acc
  = match parse_digits max s1 acc with Some a => parse_digits max s2 a | None => None end.
Proof.
  induction s1 as [|b s1 IH]; intros s2 acc; simpl; [done|].
  destruct (digit_val b); simpl; [|done]. destruct (_ <? _); [done|]. apply IH.
Qed.

Lemma digit_val_of d : 0 <= d < 10 -> digit_val (48 + d) = Some d.
Proof.
  intros. unfold digit_val. destruct (Z.leb_spec 48 (48 + d)), (Z.leb_spec (48 + d) 57); try lia.
  simpl. f_equal. lia.
Qed.

Lemma parse_print_loop max fuel : forall n,
  0 <= n <= max -> n < 10 ^ Z.of_nat fuel -> (0 < fuel)%nat ->
  parse_digits max (print_loop fuel n) 0 = Some n.
Proof.
  induction fuel as [|fuel IH]; intros n Hn Hb Hf; [lia|]. cbn [print_loop].
  rewrite Nat2Z.inj_succ, Z.pow_succ_r in Hb by lia.
  destruct (Z.ltb_spec n 10).
  - cbn [parse_digits]. rewrite digit_val_of by lia. cbn [mbind option_bind].
    rewrite Z.mul_0_l, Z.add_0_l. destruct (Z.ltb_spec max n); [lia|done].
  - assert (n = 10 * (n / 10) + n mod 10) as En by (apply Z.div_mod; lia).
    pose proof (Z.mod_pos_bound n 10 ltac:(lia)).
    assert (0 <= n / 10 <= n) by (split; [apply Z.div_pos; lia | apply Z.div_le_upper_bound; lia]).
    assert (n / 10 < 10 ^ Z.of_nat fuel) by (apply Z.div_lt_upper_bound; lia).
    destruct fuel as [|fuel]; [simpl in *; lia|].
    rewrite parse_digits_app, IH by lia. cbn [parse_digits]. rewrite digit_val_of by lia. cbn [mbind option_bind].
    destruct (Z.ltb_spec max (n / 10 * 10 + n mod 10)); [lia|]. f_equal. lia.
Qed.

Lemma print_loop_head fuel n : (0 < fuel)%nat -> 0 <= n ->
  exists b t, print_loop fuel n = b :: t /\ b <> 43 /\ 48 <= b.
Proof.
  revert n. induction fuel as [|fuel IH]; intros n Hf Hn; [lia|]. cbn [print_loop].
  destruct (Z.ltb_spec n 10); [exists (48 + n), []; split_and!; [done|lia|lia]|].
  destruct fuel as [|fuel].
  - pose proof (Z.mod_pos_bound n 10 ltac:(lia)). eexists _, []. cbn. split_and!; [done|lia|lia].
  - destruct (IH (n / 10)) as (b & t & -> & Hb); [lia|apply Z.div_pos; lia|].
    exists b, (t ++ [48 + n mod 10]). split; [done|exact Hb].
Qed.

(** A [u64] survives printing and parsing. *)
Lemma parse_print_u64 n : 0 <= n <= U64_MAX -> parse_uint U64_MAX (print_uint n) = Some n.
Proof.
  intros Hn. unfold parse_uint, print_uint.
  assert (parse_digits U64_MAX (print_loop 20 n) 0 = Some n) as Hp.
  { apply parse_print_loop; [done| |lia]. unfold U64_MAX in Hn. simpl. lia. }
  destruct (print_loop_head 20 n) as (b & t & E & Hb & _); [lia|lia|]. rewrite E in *.
  destruct (Z.eqb_spec b 43); [done|]. by destruct t.
Qed.

(** Printed numbers have no whitespace to trim. *)
Lemma trim_start_id s : Forall (fun b => is_ws b = false) s -> trim_start s = s.
Proof. destruct 1 as [|b t Hb _]; simpl; [done|]. by rewrite Hb. Qed.

Lemma trim_id s : Forall (fun b => is_ws b = false) s -> trim s = s.
Proof.
  intros Hs. unfold trim_by, trim_end_by. rewrite (trim_start_id s) by done.
  rewrite trim_start_id by (by apply Forall_rev). apply rev_involutive.
Qed.

Lemma print_loop_no_ws fuel : forall n, 0 <= n -> Forall (fun b => is_ws b = false) (print_loop fuel n).
Proof.
  assert (forall d, 0 <= d < 10 -> is_ws (48 + d) = false) as Hd.
  { intros d Hd. unfold is_ws. apply orb_false_iff. split; [apply andb_false_iff; right; apply Z.leb_gt; lia|].
    apply Z.eqb_neq. lia. }
  induction fuel as [|fuel IH]; intros n Hn; cbn [print_loop]; [constructor|].
  destruct (Z.ltb_spec n 10); [apply Forall_singleton, Hd; lia|]. apply Forall_app. split.
  - apply IH. apply Z.div_pos; lia.
  - apply Forall_singleton, Hd. apply Z.mod_pos_bound. lia.
Qed.

Lemma parse_digits_range max s : forall acc n, 0 <= acc <= max -> parse_digits max s acc = Some n -> 0 <= n <= max.
Proof.
  induction s as [|b t IH]; intros acc n Ha; cbn [parse_digits]; [by intros [= <-]|].
  unfold digit_val. destruct ((48 <=? b) && (b <=? 57)) eqn:E; [|done]. cbn [mbind option_bind]. bsimp.
  destruct (Z.ltb_spec max (acc * 10 + (b - 48))); [done|]. apply IH. lia.
Qed.

Lemma parse_uint_range max s n : 0 <= max -> parse_uint max s = Some n -> 0 <= n <= max.
Proof.
  intros Hm. unfold parse_uint. destruct s as [|b [|c t]]; [done|..]; destruct (b =? 43); try done;
    apply parse_digits_range; lia.
Qed.

(** ** Prefixes and pieces *)

Lemma strip_prefix_app p s : strip_prefix p (p ++ s) = Some s.
Proof.
  unfold strip_prefix. assert (starts_with (p ++ s) p = true) as -> by (apply starts_with_spec; eauto).
  by rewrite drop_app_length.
Qed.

Lemma strip_prefix_Some p s t : strip_prefix p s = Some t -> s = p ++ t.
Proof.
  unfold strip_prefix. destruct (starts_with s p) eqn:E; [|done]. intros [= <-].
  apply starts_with_spec in E as (t & ->). by rewrite drop_app_length.
Qed.

Lemma split_on_head c s h r : split_on c s = h :: r -> r <> [] -> exists t, s = h ++ c :: t /\ split_on c t = r.
Proof.
  revert h r. induction s as [|b s IH]; intros h r; simpl; [by intros [= <- <-]|].
  destruct (Z.eqb_spec b c) as [->|Hb]; [intros [= <- <-] _; by exists s|].
  destruct (split_on c s) as [|h' r'] eqn:E; [by intros [= <- <-]|].
  intros [= <- <-] Hr. destruct (IH h' r' eq_refl Hr) as (t & -> & Ht). by exists t.
Qed.

Lemma split_on_none c s : Forall (fun b => b <> c) s -> split_on c s = [s].
Proof.
  induction 1 as [|b s Hb _ IH]; [done|]. simpl. destruct (Z.eqb_spec b c); [done|]. by rewrite IH.
Qed.

Lemma split_on_piece c h t : Forall (fun b => b <> c) h -> split_on c (h ++ c :: t) = h :: split_on c t.
Proof.
  induction 1 as [|b h Hb _ IH]; simpl; [by rewrite Z.eqb_refl|].
  destruct (Z.eqb_spec b c); [done|]. by rewrite IH.
Qed.

Lemma split_on_pieces c s : Forall (Forall (fun b => b <> c)) (split_on c s).
Proof.
  induction s as [|b t IH]; cbn [split_on]; [by repeat constructor|].
  destruct (Z.eqb_spec b c); [by constructor|].
  destruct (split_on c t) as [|h r]; [by repeat constructor|].
  apply Forall_cons in IH as [Hh Hr]. constructor; [by constructor|done].
Qed.

Lemma split_on_app c a b : split_on c (a ++ c :: b) = split_on c a ++ split_on c b.
Proof.
  induction a as [|x a IH]; cbn [app split_on]; [by rewrite Z.eqb_refl|].
  destruct (x =? c); [by rewrite IH|]. rewrite IH. destruct (split_on c a) as [|h r] eqn:E; [|done].
  destruct a as [|y a]; [done|]. cbn [split_on] in E. destruct (y =? c); [done|]. by destruct (split_on c a).
Qed.

(** ** Signed integers as text *)

Definition I64_MAX : Z := 2 ^ 63 - 1.

(** [s.parse::<i64>()]. *)
Definition parse_i64 (s : str) : option Z :=
  match s with
  | b :: _ :: _ => if b =? 45 then z ← parse_digits (I64_MAX + 1) (drop 1 s) 0; Some (- z) else parse_uint I64_MAX s
  | _ => parse_uint I64_MAX s
  end.
Definition print_i64 (n : Z) : str := if n <? 0 then 45 :: print_uint (- n) else print_uint n.

Lemma parse_digits_print max n : 0 <= n <= max -> max <= 2 ^ 63 -> parse_digits max (print_uint n) 0 = Some n.
Proof. intros Hn Hm. apply parse_print_loop; [done| |lia]. simpl. lia. Qed.

Lemma print_uint_cons n : 0 <= n -> exists b t, print_uint n = b :: t /\ b <> 43 /\ 48 <= b.
Proof. intros. apply print_loop_head; lia. Qed.

Lemma parse_print_i64 n : - 2 ^ 63 <= n <= I64_MAX -> parse_i64 (print_i64 n) = Some n.
Proof.
  intros Hn. unfold I64_MAX in *. unfold print_i64. destruct (Z.ltb_spec n 0) as [Hneg|Hpos].
  - destruct (print_uint_cons (- n)) as (b & t & E & _); [lia|].
    pose proof (parse_digits_print (2 ^ 63 - 1 + 1) (- n) ltac:(lia) ltac:(lia)) as Hp. unfold parse_i64, I64_MAX.
    rewrite E in *. cbn [Z.eqb Pos.eqb drop]. rewrite Hp. cbn. f_equal. lia.
  - destruct (print_uint_cons n) as (b & t & E & Hb & Hb2); [lia|].
    pose proof (parse_digits_print (2 ^ 63 - 1) n ltac:(lia) ltac:(lia)) as Hp. unfold parse_i64, I64_MAX.
    assert (parse_uint (2 ^ 63 - 1) (print_uint n) = Some n) as Hu.
    { unfold parse_uint. rewrite E in *. destruct (Z.eqb_spec b 43); [done|]. by destruct t. }
    rewrite E in *. destruct t; [done|]. destruct (Z.eqb_spec b 45); [lia|done].
Qed.

Lemma print_loop_digits fuel : forall n, 0 <= n -> Forall (fun b => 48 <= b <= 57) (print_loop fuel n).
Proof.
  induction fuel as [|fuel IH]; intros n Hn; [constructor|]. cbn [print_loop]. destruct (Z.ltb_spec n 10).
  - constructor; [lia|constructor].
  - apply Forall_app. split; [apply IH, Z.div_pos; lia|]. constructor; [|constructor].
    pose proof (Z.mod_pos_bound n 10 ltac:(lia)). lia.
Qed.

Lemma print_i64_chars n : Forall (fun b => 45 <= b <= 57) (print_i64 n).
Proof.
  unfold print_i64. destruct (Z.ltb_spec n 0); [constructor; [lia|]|];
    (eapply Forall_impl; [apply print_loop_digits; lia|cbn; lia]).
Qed.
