(* ===== verification/GapFill.v ===== *)
(** * Event-clip gap fill ([crates/drives/src/grouper.rs])

    Which SavedClips/SentryClips minutes are admitted into the continuous
    RecentClips timeline. A timestamp ([NaiveDateTime]) is its milliseconds. *)

From Stdlib Require Import ZArith Lia.
From stdpp Require Import base list sorting relations.
From S2P Require Import Prelude Float Types Str.

Open Scope Z_scope.

Definition DRIVE_GAP_MS : Z := 5 * 60 * 1000.
Definition GAP_FILL_MIN_MS : Z := 90 * 1000.
Definition GAP_FILL_MAX_MS : Z := 30 * 60 * 1000.
Definition GAP_FILL_ADJ_MS : Z := 3 * 60 * 1000.
Definition GAP_FILL_DUP_MS : Z := 30 * 1000.
Definition CLIP_DURATION_MS : Z := 60000.
(** [0.5_f32] as bits. *)
Definition GAP_FILL_MIN_SPEED_MPS : Z := 0x3F000000.
Definition I64_MAX : Z := 2 ^ 63 - 1.

(** ** Holes *)

Definition fillable_holes (sorted_ts : list Z) : list (Z * Z) :=
  filter (fun w => GAP_FILL_MIN_MS < snd w - fst w /\ snd w - fst w <= GAP_FILL_MAX_MS)
    (windows2 sorted_ts).

Definition ts_in_holes (holes : list (Z * Z)) (ts : Z) : bool :=
  let i := partition_point (fun h => fst h <? ts) holes in
  match i with
  | O => false
  | S i' => ts <? snd (nth i' holes (0, 0))
  end.

(** ** Driving evidence *)

Definition telemetry_has_driving_core (gear_runs_non_park gear_runs_empty gear_states_non_park
    gear_states_empty : bool) (raw_park_count raw_frame_count : Z) (speeds_driving : bool) : bool :=
  gear_runs_non_park || gear_states_non_park
  || (gear_runs_empty && gear_states_empty && (0 <? raw_frame_count)
      && (raw_park_count <? raw_frame_count))
  || speeds_driving.

Definition runs_non_park (gear_runs : list GearRun) : bool :=
  existsb (fun r => negb (gr_gear r =? GEAR_PARK)) gear_runs.
Definition states_non_park (gear_states : list Z) : bool :=
  existsb (fun g => negb (g =? GEAR_PARK)) gear_states.

Definition speeds_driving (speeds : list Z) : bool :=
  existsb (fun sp => F32.lt GAP_FILL_MIN_SPEED_MPS (F32.abs sp)) speeds.

Definition telemetry_has_driving (gear_runs : list GearRun) (gear_states speeds : list Z)
    (raw_park_count raw_frame_count : Z) : bool :=
  telemetry_has_driving_core (runs_non_park gear_runs) (is_empty gear_runs)
    (states_non_park gear_states) (is_empty gear_states) raw_park_count raw_frame_count
    (speeds_driving speeds).

Definition telemetry_gear_driving (gear_runs : list GearRun) (gear_states : list Z) : bool :=
  runs_non_park gear_runs || states_non_park gear_states.

Definition row_has_driving (gear_runs : list GearRun) (raw_park_count raw_frame_count
    max_speed_mps : Z) : bool :=
  telemetry_has_driving gear_runs [] [] raw_park_count raw_frame_count
  || F64.lt (F32.to_f64 GAP_FILL_MIN_SPEED_MPS) max_speed_mps.

(** ** Candidates *)

Record GapFillCandidate := mkCand {
  gc_ts : Z; gc_file : str; gc_driving : option bool; gc_gear_driving : bool;
}.

Definition cand0 : GapFillCandidate := mkCand 0 [] None false.

Definition dup_of_recent (recent_sorted_ts : list Z) (ts : Z) : bool :=
  let i := partition_point (fun r => r <=? ts) recent_sorted_ts in
  match i with
  | O => false
  | S i' => ts - nth i' recent_sorted_ts 0 <=? GAP_FILL_DUP_MS
  end.

(** [cands[a].cmp(&cands[b])] is not [Greater]: timestamp, then path. *)
Definition pair_le (a b : Z * str) : bool :=
  if fst a <? fst b then true else if fst b <? fst a then false else str_leb (snd a) (snd b).

Fixpoint dedup_loop (ts : nat -> Z) (order kept : list nat) : list nat :=
  match order with
  | [] => kept
  | i :: order =>
      match last kept with
      | Some l => if ts i - ts l <=? GAP_FILL_DUP_MS then dedup_loop ts order kept
                  else dedup_loop ts order (kept ++ [i])
      | None => dedup_loop ts order (kept ++ [i])
      end
  end.

Definition dedup_candidates (recent_sorted_ts : list Z) (cands : list (Z * str))
    (order : list nat) : list nat :=
  let at_ i := nth i cands (0, []) in
  let order := filter (fun i => dup_of_recent recent_sorted_ts (fst (at_ i)) = false) order in
  let order := sort_by (fun a b => pair_le (at_ a) (at_ b)) order in
  dedup_loop (fun i => fst (at_ i)) order [].

Definition select_interior_fill (recent_sorted_ts : list Z) (candidates : list (Z * str))
  : list nat :=
  if is_empty recent_sorted_ts || is_empty candidates then []
  else
    let holes := fillable_holes recent_sorted_ts in
    if is_empty holes then []
    else filter (fun i => ts_in_holes holes (fst (nth i candidates (0, []))) = true)
           (dedup_candidates recent_sorted_ts candidates (seq 0 (length candidates))).

Definition nearest_recent_ms (recent_sorted_ts : list Z) (ts : Z) : Z :=
  let i := partition_point (fun r => r <? ts) recent_sorted_ts in
  let best := I64_MAX in
  let best := match i with O => best | S i' => Z.min best (ts - nth i' recent_sorted_ts 0) end in
  if (i <? length recent_sorted_ts)%nat then Z.min best (nth i recent_sorted_ts 0 - ts) else best.

Section chain.
Variables (recent_sorted_ts : list Z) (gear : nat -> bool).

(** The body run when a cluster ends. *)
Definition mark_cluster (cluster : list (Z * option nat)) (chained : list bool) : list bool :=
  if existsb (fun c => match snd c with None => true | Some _ => false end) cluster then
    foldl (fun ch c => match snd c with
                       | Some k => if nearest_recent_ms recent_sorted_ts (fst c) <=? GAP_FILL_MAX_MS
                                   then <[k := true]> ch else ch
                       | None => ch
                       end) chained cluster
  else if forallb (fun c => match snd c with Some k => gear k | None => false end) cluster then
    foldl (fun ch c => match snd c with Some k => <[k := true]> ch | None => ch end)
      chained cluster
  else chained.

(** The walk over the merged timeline; [cluster] is
    [merged[cluster_start..idx]], [rest] is [merged[idx..]]. *)
Fixpoint cluster_loop (cluster rest : list (Z * option nat)) (chained : list bool) : list bool :=
  match rest with
  | [] => mark_cluster cluster chained
  | c :: rest =>
      match last cluster with
      | Some p => if GAP_FILL_ADJ_MS <? fst c - fst p
                  then cluster_loop [c] rest (mark_cluster cluster chained)
                  else cluster_loop (cluster ++ [c]) rest chained
      | None => cluster_loop (cluster ++ [c]) rest chained
      end
  end.
End chain.

Definition merged_timeline (recent_sorted_ts : list Z) (kept_ts : list Z)
  : list (Z * option nat) :=
  sort_by_key fst (((fun t => (t, None)) <$> recent_sorted_ts)
                   ++ imap (fun k t => (t, Some k)) kept_ts).

Definition select_gap_fill (recent_sorted_ts : list Z) (candidates : list GapFillCandidate)
  : list nat :=
  if is_empty candidates then []
  else
    let cand i := nth i candidates cand0 in
    let holes := fillable_holes recent_sorted_ts in
    let pairs := (fun c => (gc_ts c, gc_file c)) <$> candidates in
    let order := filter (fun i => gc_driving (cand i) <> Some false) (seq 0 (length candidates)) in
    let kept := dedup_candidates recent_sorted_ts pairs order in
    let merged := merged_timeline recent_sorted_ts ((fun i => gc_ts (cand i)) <$> kept) in
    let chained := cluster_loop recent_sorted_ts
                     (fun k => gc_gear_driving (cand (nth k kept 0%nat)))
                     [] merged (replicate (length kept) false) in
    fst <$> filter (fun ik => ts_in_holes holes (gc_ts (cand (fst ik))) = true
                              \/ nth (snd ik) chained false = true)
              (imap (fun k i => (i, k)) kept).

Definition select_gap_fill_events (recent_sorted_ts : list Z) (candidates : list (Z * str))
  : list nat :=
  select_gap_fill recent_sorted_ts
    ((fun c => mkCand (fst c) (snd c) None false) <$> candidates).

(** ** Real clip spans *)

Definition clip_spans (entries : list (Z * bool)) : list Z :=
  let native := fst <$> filter (fun ie => snd (snd ie) = true) (imap (fun i e => (i, e)) entries) in
  let ts i := fst (nth i entries (0, false)) in
  foldl (fun spans w =>
           let gap := ts (snd w) - ts (fst w) in
           if (0 <? gap) && (gap <=? CLIP_DURATION_MS) then <[fst w := gap]> spans else spans)
    (replicate (length entries) CLIP_DURATION_MS) (windows2 native).
