(* ===== verification/GapFillSpec.v ===== *)
(** * What gap fill admits

    The lookups by [partition_point] mean what they say on a sorted timeline,
    the deduplication leaves one clip per recorder segment, and the cluster walk
    computes connectivity: a clip is chained exactly when hops of at most
    [GAP_FILL_ADJ_MS] link it to the RecentClips timeline, or when nothing of
    that timeline is linked to it and every clip that is carries gear
    evidence. *)

From Stdlib Require Import ZArith Lia.
From stdpp Require Import base list sorting relations.
From S2P Require Import Prelude Float Types Str GapFill.

Open Scope Z_scope.

Notation ascending := (StronglySorted Z.le).

(** ** Lookups in a sorted timeline *)

Lemma partition_point_spec {A} (R : A -> A -> Prop) (p : A -> bool) l i x :
  StronglySorted R l -> (forall a b, R a b -> p b = true -> p a = true) ->
  l !! i = Some x -> p x = true <-> (i < partition_point p l)%nat.
Proof.
  intros Hs Hp Hi. split; [|intros; eapply partition_point_before; eauto].
  intros Hx. destruct (Nat.lt_ge_cases i (partition_point p l)) as [|Hge]; [done|exfalso].
  destruct (lookup_lt_is_Some_2 l (partition_point p l)) as [y Hy].
  { apply lookup_lt_Some in Hi. lia. }
  pose proof (partition_point_at _ _ _ Hy) as Hf.
  destruct (Nat.eq_dec i (partition_point p l)) as [->|]; [congruence|].
  pose proof (StronglySorted_lookup R l (partition_point p l) i y x Hs ltac:(lia) Hy Hi) as HR.
  rewrite (Hp _ _ HR Hx) in Hf. done.
Qed.

Lemma partition_point_pred {A} (p : A -> bool) l i d :
  partition_point p l = S i -> l !! i = Some (nth i l d) /\ p (nth i l d) = true.
Proof.
  intros H. pose proof (partition_point_le p l).
  destruct (lookup_lt_is_Some_2 l i) as [x Hx]; [lia|]. rewrite (nth_lookup_Some _ _ _ _ Hx).
  split; [done|]. eapply partition_point_before; [|exact Hx]. lia.
Qed.

Lemma StronglySorted_filter {A} (R : A -> A -> Prop) P `{!forall x, Decision (P x)} (l : list A) :
  StronglySorted R l -> StronglySorted R (filter P l).
Proof.
  induction 1 as [|x t _ IH Hf]; [constructor|].
  rewrite filter_cons. destruct (decide (P x)); [|done]. constructor; [done|].
  apply Forall_forall. intros y [_ Hy]%list_elem_of_filter.
  rewrite Forall_forall in Hf. by apply Hf.
Qed.

Lemma windows2_ascending (l : list Z) :
  ascending l -> StronglySorted (fun a b => snd a <= fst b) (windows2 l).
Proof.
  induction 1 as [|x t Hs IH Hf]; [constructor|]. destruct t as [|y t]; [constructor|].
  change (windows2 (x :: y :: t)) with ((x, y) :: windows2 (y :: t)).
  constructor; [done|]. apply Forall_forall. intros [a b] Hab.
  apply list_elem_of_lookup in Hab as (i & Hi). apply windows2_spec in Hi as [Ha _]. cbn [fst snd].
  destruct i as [|i]; [simplify_eq/=; lia|].
  apply (StronglySorted_lookup Z.le (y :: t) 0 (S i) y a); [done|lia|done|done].
Qed.

(** [ts] lies strictly between two neighbours of the timeline whose gap counts
    as a recording hole. *)
Definition in_hole (recent : list Z) (ts : Z) : Prop :=
  exists i a b, recent !! i = Some a /\ recent !! S i = Some b /\ a < ts < b
    /\ GAP_FILL_MIN_MS < b - a <= GAP_FILL_MAX_MS.

Lemma ts_in_holes_spec recent ts :
  ascending recent -> ts_in_holes (fillable_holes recent) ts = true <-> in_hole recent ts.
Proof.
  intros Hs. set (holes := fillable_holes recent).
  assert (forall h, h ∈ holes <-> exists i, recent !! i = Some (fst h) /\ recent !! S i = Some (snd h)
            /\ GAP_FILL_MIN_MS < snd h - fst h <= GAP_FILL_MAX_MS) as Hh.
  { intros [a b]. unfold holes, fillable_holes. rewrite list_elem_of_filter, list_elem_of_lookup.
    setoid_rewrite windows2_spec. cbn [fst snd]. naive_solver. }
  assert (StronglySorted (fun a b => snd a <= fst b) holes) as Hss
    by (by apply StronglySorted_filter, windows2_ascending).
  unfold ts_in_holes. split.
  - destruct (partition_point _ holes) as [|i] eqn:E; [done|].
    destruct (partition_point_pred _ _ _ (0, 0) E) as [Hi Hp]. intros Hlt. bsimp.
    apply list_elem_of_lookup_2, Hh in Hi as (j & ? & ? & ?). unfold in_hole. eauto 10.
  - intros (i & a & b & Ha & Hb & Hts & Hgap).
    assert ((a, b) ∈ holes) as (j & Hj)%list_elem_of_lookup by (apply Hh; eauto).
    set (n := partition_point (fun h : Z * Z => fst h <? ts) holes).
    assert (n = S j) as ->.
    { assert (j < n)%nat.
      { destruct (Nat.lt_ge_cases j n) as [|Hge]; [done|exfalso].
        destruct (lookup_lt_is_Some_2 holes n) as [[c d] Hy]; [apply lookup_lt_Some in Hj; lia|].
        pose proof (partition_point_at _ _ _ Hy) as Hf. cbn [fst] in Hf. bsimp.
        destruct (Nat.eq_dec j n) as [E|]; [rewrite <- E in Hy; simplify_eq; lia|].
        pose proof (StronglySorted_lookup _ _ n j _ _ Hss ltac:(lia) Hy Hj) as HR. cbn [fst snd] in HR.
        apply list_elem_of_lookup_2, Hh in Hy as (? & ? & ? & ?). cbn [fst snd] in *.
        unfold GAP_FILL_MIN_MS in *. lia. }
      destruct (Nat.lt_ge_cases (S j) n) as [Hlt|]; [exfalso|lia].
      pose proof (partition_point_le (fun h : Z * Z => fst h <? ts) holes) as Hle. fold n in Hle.
      destruct (lookup_lt_is_Some_2 holes (S j)) as [[c d] Hy]; [lia|].
      pose proof (partition_point_before _ _ _ _ Hlt Hy) as Hf. cbn [fst] in Hf. bsimp.
      pose proof (StronglySorted_lookup _ _ j (S j) _ _ Hss ltac:(lia) Hj Hy) as HR. cbn [fst snd] in HR.
      lia. }
    rewrite (nth_lookup_Some _ _ _ _ Hj). cbn [snd]. bsimp. lia.
Qed.

(** The clip repeats a RecentClips segment: one starts at most
    [GAP_FILL_DUP_MS] before it. *)
Definition twin_of_recent (recent : list Z) (ts : Z) : Prop :=
  exists r, r ∈ recent /\ 0 <= ts - r <= GAP_FILL_DUP_MS.

Lemma dup_of_recent_spec recent ts :
  ascending recent -> dup_of_recent recent ts = true <-> twin_of_recent recent ts.
Proof.
  intros Hs. unfold dup_of_recent. split.
  - destruct (partition_point _ recent) as [|i] eqn:E; [done|].
    destruct (partition_point_pred _ _ _ 0 E) as [Hi Hp]. intros Hle. bsimp.
    exists (nth i recent 0). split; [by eapply list_elem_of_lookup_2 | lia].
  - intros (r & (j & Hj)%list_elem_of_lookup & Hr).
    assert (j < partition_point (fun r => (r <=? ts)%Z) recent)%nat as Hlt.
    { apply (partition_point_spec Z.le _ _ _ r Hs); [intros; bsimp; lia | done | bsimp; lia]. }
    destruct (partition_point _ recent) as [|i] eqn:E; [lia|].
    destruct (partition_point_pred _ _ _ 0 E) as [Hi _]. bsimp.
    destruct (Nat.eq_dec j i) as [->|]; [rewrite Hj in Hi; injection Hi as ->; lia|].
    pose proof (StronglySorted_lookup Z.le _ j i _ _ Hs ltac:(lia) Hj Hi). lia.
Qed.

Definition near_recent (recent : list Z) (ts : Z) : Prop :=
  exists r, r ∈ recent /\ Z.abs (ts - r) <= GAP_FILL_MAX_MS.

Lemma nearest_recent_spec recent ts :
  ascending recent ->
  (nearest_recent_ms recent ts <=? GAP_FILL_MAX_MS) = true <-> near_recent recent ts.
Proof.
  intros Hs. unfold nearest_recent_ms. set (n := partition_point _ recent). rewrite Z.leb_le.
  assert (I64_MAX <= GAP_FILL_MAX_MS -> False) as Hmax by (by vm_compute).
  assert (forall i, n = S i -> recent !! i = Some (nth i recent 0) /\ nth i recent 0 < ts) as Hpre.
  { intros i Hi. destruct (partition_point_pred _ _ _ 0 Hi) as [? ?]. by bsimp. }
  split.
  - intros H. assert ((exists i, n = S i /\ ts - nth i recent 0 <= GAP_FILL_MAX_MS)
      \/ ((n < length recent)%nat /\ nth n recent 0 - ts <= GAP_FILL_MAX_MS)) as [(i & Hi & Hle)|[Hn Hle]].
    { revert H. destruct (Nat.ltb_spec n (length recent)) as [Hl|Hl]; intros H.
      - destruct (Z.le_gt_cases (nth n recent 0 - ts) GAP_FILL_MAX_MS); [by right|left].
        destruct n as [|i]; [lia|]. exists i. split; [done|lia].
      - left. destruct n as [|i]; [lia|]. exists i. split; [done|lia]. }
    + destruct (Hpre i Hi) as [? ?]. exists (nth i recent 0).
      split; [by eapply list_elem_of_lookup_2 | lia].
    + destruct (lookup_lt_is_Some_2 recent n Hn) as [y Hy].
      rewrite (nth_lookup_Some _ _ _ _ Hy) in Hle. pose proof (partition_point_at _ _ _ Hy) as Hf.
      cbv beta in Hf. bsimp.
      exists y. split; [by eapply list_elem_of_lookup_2 | lia].
  - intros (r & (j & Hj)%list_elem_of_lookup & Hr).
    pose proof (partition_point_spec Z.le (fun r => r <? ts) recent j r Hs
      ltac:(cbv beta; intros; bsimp; lia) Hj) as Hspec. fold n in Hspec. rewrite Z.ltb_lt in Hspec.
    destruct (Z.lt_ge_cases r ts) as [Hlt|Hge].
    + apply Hspec in Hlt as Hjn. destruct n as [|i] eqn:En; [lia|].
      destruct (Hpre i eq_refl) as [Hi _].
      assert (r <= nth i recent 0).
      { destruct (Nat.eq_dec j i) as [->|]; [rewrite Hj in Hi; injection Hi as ->; lia|].
        apply (StronglySorted_lookup Z.le _ j i _ _ Hs ltac:(lia) Hj Hi). }
      destruct (_ <? _)%nat; lia.
    + assert (n <= j)%nat as Hnj by lia. pose proof (lookup_lt_Some _ _ _ Hj) as Hjl.
      destruct (lookup_lt_is_Some_2 recent n) as [y Hy]; [lia|].
      assert (y <= r).
      { destruct (Nat.eq_dec n j) as [E|]; [rewrite E in Hy; simplify_eq; lia|].
        apply (StronglySorted_lookup Z.le _ n j _ _ Hs ltac:(lia) Hy Hj). }
      destruct (Nat.ltb_spec n (length recent)); [|lia].
      rewrite (nth_lookup_Some _ _ _ _ Hy). lia.
Qed.

(** ** Deduplication *)

Lemma dedup_twins_spec ts order : forall kept,
  StronglySorted (fun a b => ts a <= ts b) order ->
  (forall l i, last kept = Some l -> i ∈ order -> ts l <= ts i) ->
  StronglySorted (fun a b => GAP_FILL_DUP_MS < ts b - ts a) kept ->
  exists new, dedup_loop ts order kept = kept ++ new /\ new ⊆ order
    /\ StronglySorted (fun a b => GAP_FILL_DUP_MS < ts b - ts a) (kept ++ new)
    /\ forall i, i ∈ order -> exists j, j ∈ kept ++ new /\ 0 <= ts i - ts j <= GAP_FILL_DUP_MS.
Proof.
  induction order as [|i order IH]; intros kept Ho Hl Hk; cbn [dedup_loop].
  { exists []. rewrite app_nil_r. split_and!; [done|set_solver|done|set_solver]. }
  apply StronglySorted_inv in Ho as [Ho Hi]. rewrite Forall_forall in Hi.
  assert (forall kept', last kept' = Some i \/ (exists l, last kept' = Some l /\ last kept = Some l) ->
    (forall l i0, last kept' = Some l -> i0 ∈ order -> ts l <= ts i0)) as Hlast.
  { intros kept' [H|(l & H & H')] l' i0 Hl' Hi0; rewrite H in Hl'; injection Hl' as <-;
      [by apply Hi | apply (Hl l); [done|set_solver]]. }
  assert (forall kept', last kept = None \/ (exists l, last kept = Some l /\ GAP_FILL_DUP_MS < ts i - ts l) ->
    kept' = kept ++ [i] -> exists new, dedup_loop ts order kept' = kept ++ new /\ new ⊆ i :: order
      /\ StronglySorted (fun a b => GAP_FILL_DUP_MS < ts b - ts a) (kept ++ new)
      /\ forall j, j ∈ i :: order -> exists j', j' ∈ kept ++ new
           /\ 0 <= ts j - ts j' <= GAP_FILL_DUP_MS) as Hpush.
  { intros kept' Hgap ->.
    destruct (IH (kept ++ [i])) as (new & -> & Hsub & Hss & Hcov); [done| | |].
    - apply Hlast. left. by rewrite last_snoc.
    - apply StronglySorted_app_2; [|done|repeat constructor].
      intros x y Hx ->%list_elem_of_singleton. destruct Hgap as [Hn|(l & Hlk & Hgap)].
      { apply last_None in Hn as ->. set_solver. }
      destruct (last_Some kept l) as [Hls _]. destruct (Hls Hlk) as (pre & ->).
      apply elem_of_app in Hx as [Hx| ->%list_elem_of_singleton]; [|done].
      pose proof (StronglySorted_app_1_elem_of _ _ _ x l Hk Hx ltac:(set_solver)) as Hxl.
      cbv beta in Hxl. unfold GAP_FILL_DUP_MS in *. lia.
    - exists (i :: new). rewrite <- app_assoc in *. split_and!; [done|set_solver|done|].
      intros j [->|Hj]%elem_of_cons; [exists i; split; [set_solver|unfold GAP_FILL_DUP_MS; lia]|].
      by apply Hcov. }
  destruct (last kept) as [l|] eqn:El; [|apply Hpush; eauto].
  destruct (Z.leb_spec (ts i - ts l) GAP_FILL_DUP_MS) as [Hle|Hgt]; [|apply Hpush; eauto].
  destruct (IH kept) as (new & -> & Hsub & Hss & Hcov); [done|intros; eapply Hlast; eauto|done|].
  exists new. split_and!; [done|set_solver|done|].
  intros j [->|Hj]%elem_of_cons; [|by apply Hcov].
  exists l. split; [|split; [|done]].
  - apply elem_of_app. left. destruct (last_Some kept l) as [Hls _].
    destruct (Hls El) as (pre & ->). set_solver.
  - enough (ts l <= ts i) by lia. apply (Hl l); [done|set_solver].
Qed.

Lemma pair_le_total a b : pair_le a b = false -> pair_le b a = true.
Proof.
  unfold pair_le. destruct (Z.ltb_spec (fst a) (fst b)), (Z.ltb_spec (fst b) (fst a)); try done; try lia.
  apply str_leb_total.
Qed.

(** What [dedup_candidates] keeps: eligible clips that repeat no RecentClips
    segment, more than [GAP_FILL_DUP_MS] apart, and one of them at most that
    long before every such clip. *)
Lemma dedup_candidates_spec recent cands order :
  ascending recent ->
  let ts i := fst (nth i cands (0, [])) in
  let kept := dedup_candidates recent cands order in
  (forall i, i ∈ kept -> i ∈ order /\ ~ twin_of_recent recent (ts i))
  /\ StronglySorted (fun a b => GAP_FILL_DUP_MS < ts b - ts a) kept
  /\ (forall i, i ∈ order -> ~ twin_of_recent recent (ts i) ->
        exists j, j ∈ kept /\ 0 <= ts i - ts j <= GAP_FILL_DUP_MS).
Proof.
  intros Hr ts kept. unfold kept, dedup_candidates. fold ts.
  set (ord := filter _ order). set (sorted := sort_by _ ord).
  assert (forall i, i ∈ sorted <-> i ∈ order /\ ~ twin_of_recent recent (ts i)) as Hin.
  { intros i. unfold sorted. rewrite sort_by_perm. unfold ord. rewrite list_elem_of_filter.
    fold (ts i). rewrite <- dup_of_recent_spec by done.
    destruct (dup_of_recent recent (ts i)); naive_solver. }
  assert (StronglySorted (fun a b => ts a <= ts b) sorted) as Hss.
  { apply Sorted_StronglySorted; [intros ???; lia|].
    eapply Sorted_weaken; [|apply sort_by_sorted; intros; by apply pair_le_total].
    intros a b. cbv beta. unfold pair_le. fold (ts a) (ts b).
    destruct (Z.ltb_spec (ts a) (ts b)), (Z.ltb_spec (ts b) (ts a)); intros; try done; lia. }
  destruct (dedup_twins_spec ts sorted [] Hss) as (new & -> & Hsub & Hnew & Hcov);
    [done|constructor|]. cbn [app] in *.
  split_and!; [intros i Hi; apply Hin; set_solver | done |].
  intros i Hi Ht. apply Hcov, Hin. done.
Qed.

(** ** Clusters are connected components *)

(** Hops between points of a timeline at most [GAP_FILL_ADJ_MS] apart. *)
Definition hop (T : list Z) (a b : Z) : Prop :=
  a ∈ T /\ b ∈ T /\ Z.abs (a - b) <= GAP_FILL_ADJ_MS.
Definition linked (T : list Z) : Z -> Z -> Prop := rtc (hop T).

(** The clusters the walk closes, in order. *)
Fixpoint clusters (cluster rest : list (Z * option nat)) : list (list (Z * option nat)) :=
  match rest with
  | [] => [cluster]
  | c :: rest =>
      match last cluster with
      | Some p => if GAP_FILL_ADJ_MS <? fst c - fst p
                  then cluster :: clusters [c] rest else clusters (cluster ++ [c]) rest
      | None => clusters (cluster ++ [c]) rest
      end
  end.

Lemma concat_clusters rest : forall cluster, concat (clusters cluster rest) = cluster ++ rest.
Proof.
  induction rest as [|c rest IH]; intros cluster; cbn [clusters]; [done|].
  destruct (last cluster) as [p|]; [destruct (_ <? _)|];
    cbn [concat]; rewrite IH, <- ?app_assoc; done.
Qed.

(** Neighbours inside a cluster are a hop apart. *)
Lemma clusters_inside rest : forall cluster,
  Sorted (fun a b => fst b - fst a <= GAP_FILL_ADJ_MS) cluster ->
  Forall (Sorted (fun a b => fst b - fst a <= GAP_FILL_ADJ_MS)) (clusters cluster rest).
Proof.
  induction rest as [|c rest IH]; intros cluster Hc; cbn [clusters]; [by constructor|].
  assert (forall p, last cluster = Some p -> fst c - fst p <= GAP_FILL_ADJ_MS ->
    Sorted (fun a b : Z * option nat => fst b - fst a <= GAP_FILL_ADJ_MS) (cluster ++ [c])) as Hsnoc.
  { intros p Hp Hle. apply windows2_Sorted, Forall_lookup. intros i [a b] [Ha Hb]%windows2_spec.
    apply lookup_lt_Some in Hb as Hi. rewrite length_app in Hi. simpl in Hi.
    rewrite lookup_app_l in Ha by lia. destruct (Nat.eq_dec (S i) (length cluster)) as [E|].
    - rewrite lookup_app_r, E, Nat.sub_diag in Hb by lia. injection Hb as <-.
      rewrite last_lookup in Hp. replace (pred (length cluster)) with i in Hp by lia. by simplify_eq.
    - rewrite lookup_app_l in Hb by lia. apply windows2_Sorted in Hc. rewrite Forall_lookup in Hc.
      apply (Hc i (a, b)). by apply windows2_spec. }
  destruct (last cluster) as [p|] eqn:El.
  - destruct (Z.ltb_spec GAP_FILL_ADJ_MS (fst c - fst p)).
    + constructor; [done|]. apply IH. by repeat constructor.
    + apply IH. eapply Hsnoc; [done|lia].
  - apply last_None in El as ->. apply IH. by repeat constructor.
Qed.

(** Points of different clusters are more than a hop apart. *)
Lemma clusters_apart rest : forall cluster,
  StronglySorted (fun a b => fst a <= fst b) (cluster ++ rest) ->
  StronglySorted (fun C D => forall x y, x ∈ C -> y ∈ D -> GAP_FILL_ADJ_MS < fst y - fst x)
    (clusters cluster rest).
Proof.
  induction rest as [|c rest IH]; intros cluster Hs; cbn [clusters]; [by repeat constructor|].
  assert (cluster ++ c :: rest = (cluster ++ [c]) ++ rest) as E by (by rewrite <- app_assoc).
  destruct (last cluster) as [p|] eqn:El; [|apply IH; by rewrite <- E].
  destruct (Z.ltb_spec GAP_FILL_ADJ_MS (fst c - fst p)) as [Hgt|]; [|apply IH; by rewrite <- E].
  pose proof (StronglySorted_app_1_r _ _ _ Hs) as Hcr.
  constructor; [by apply IH|]. apply Forall_forall. intros D HD x y Hx Hy.
  assert (y ∈ c :: rest) as Hyc.
  { change (c :: rest) with ([c] ++ rest). rewrite <- concat_clusters.
    apply list_elem_of_In, in_concat. exists D. by rewrite <- !list_elem_of_In. }
  assert (fst c <= fst y).
  { apply elem_of_cons in Hyc as [->|Hyc]; [lia|]. apply StronglySorted_inv in Hcr as [_ Hf].
    rewrite Forall_forall in Hf. by apply Hf. }
  assert (fst x <= fst p); [|lia].
  apply last_Some in El as (pre & ->). pose proof (StronglySorted_app_1_l _ _ _ Hs) as Hp.
  apply elem_of_app in Hx as [Hx| ->%list_elem_of_singleton]; [|lia].
  apply (StronglySorted_app_1_elem_of _ _ _ x p Hp Hx). set_solver.
Qed.

Lemma cluster_linked T (C : list (Z * option nat)) :
  StronglySorted (fun a b => fst a <= fst b) C ->
  Sorted (fun a b => fst b - fst a <= GAP_FILL_ADJ_MS) C ->
  (forall x, x ∈ C -> fst x ∈ T) ->
  forall x y, x ∈ C -> y ∈ C -> linked T (fst x) (fst y).
Proof.
  intros Hss Hg HT.
  assert (forall x y, hop T x y -> hop T y x) as Hsym by (intros ?? (?&?&?); split_and!; auto; lia).
  assert (forall x y, linked T x y -> linked T y x) as Hlsym.
  { intros x y. induction 1 as [|a b c Hab _ IH]; [done|]. eapply rtc_r; eauto. }
  induction C as [|c C IH]; intros x y Hx Hy; [set_solver|].
  apply StronglySorted_inv in Hss as [Hss Hf]. apply Sorted_inv in Hg as [Hg Hd].
  specialize (IH Hss Hg ltac:(set_solver)). rewrite Forall_forall in Hf.
  assert (forall z, z ∈ C -> linked T (fst c) (fst z)) as Hcz.
  { intros z Hz. destruct C as [|d C]; [set_solver|]. apply HdRel_inv in Hd.
    eapply rtc_l; [|apply (IH d z); set_solver]. specialize (Hf d ltac:(set_solver)).
    split_and!; [apply HT; set_solver..|]. unfold GAP_FILL_ADJ_MS in *. lia. }
  apply elem_of_cons in Hx as [->|Hx], Hy as [->|Hy]; auto. apply rtc_refl.
Qed.

(** A set of points closed under hops contains what is linked to it. *)
Lemma linked_closed T (P : Z -> Prop) a b :
  (forall x y, P x -> hop T x y -> P y) -> P a -> linked T a b -> P b.
Proof. intros HP Ha. induction 1; eauto. Qed.

(** A cluster is a connected component of the timeline. *)
Lemma cluster_component merged C x z :
  StronglySorted (fun a b => fst a <= fst b) merged ->
  C ∈ clusters [] merged -> x ∈ C -> z ∈ merged ->
  linked (fst <$> merged) (fst x) (fst z) <-> z ∈ C.
Proof.
  intros Hs HC Hx Hz.
  assert (forall z, z ∈ merged <-> exists D, D ∈ clusters [] merged /\ z ∈ D) as Hcov.
  { intros y. change merged with ([] ++ merged) at 1. rewrite <- concat_clusters.
    rewrite list_elem_of_In, in_concat. by setoid_rewrite list_elem_of_In. }
  pose proof (clusters_apart merged [] Hs) as Hap.
  apply list_elem_of_lookup in HC as (i & Hi).
  assert (forall y z, y ∈ C -> z ∈ merged -> Z.abs (fst y - fst z) <= GAP_FILL_ADJ_MS -> z ∈ C) as Hsame.
  { intros y w Hy Hw Hle. apply Hcov in Hw as (D & (j & Hj)%list_elem_of_lookup & HwD).
    destruct (Nat.lt_trichotomy i j) as [Hij|[->|Hij]].
    - pose proof (StronglySorted_lookup _ _ i j _ _ Hap Hij Hi Hj y w Hy HwD).
      unfold GAP_FILL_ADJ_MS in *. lia.
    - by simplify_eq.
    - pose proof (StronglySorted_lookup _ _ j i _ _ Hap Hij Hj Hi w y HwD Hy).
      unfold GAP_FILL_ADJ_MS in *. lia. }
  split.
  - intros Hl. cut (forall w, w ∈ merged -> fst w = fst z -> w ∈ C); [by auto|].
    eapply (linked_closed _ (fun t => forall w, w ∈ merged -> fst w = t -> w ∈ C)); [| |exact Hl].
    + intros a b Ha ((y & -> & Hy)%list_elem_of_fmap & _ & Hle) w Hw <-.
      apply (Hsame y w); auto.
    + intros w Hw E. apply (Hsame x w); auto. rewrite E, Z.sub_diag. by vm_compute.
  - intros HzC. apply (cluster_linked _ C); [| | |done|done].
    + assert (exists a b, merged = a ++ C ++ b) as (a & b & Em).
      { pose proof (concat_clusters merged []) as Hc. cbn [app] in Hc. rewrite <- Hc.
        rewrite <- (take_drop_middle _ _ _ Hi), concat_app. cbn [concat]. eauto. }
      rewrite Em in Hs. by apply StronglySorted_app_1_r, StronglySorted_app_1_l in Hs.
    + pose proof (clusters_inside merged [] ltac:(constructor)) as Hin.
      rewrite Forall_forall in Hin. apply Hin. by eapply list_elem_of_lookup_2.
    + intros w Hw. apply list_elem_of_fmap. exists w. split; [done|]. apply Hcov.
      exists C. split; [by eapply list_elem_of_lookup_2 | done].
Qed.

#[export] Instance linked_proper : Proper ((≡ₚ) ==> eq ==> eq ==> iff) linked.
Proof.
  intros T T' HT a ? <- b ? <-.
  assert (forall x y, hop T x y <-> hop T' x y) as Hh by (intros; unfold hop; by rewrite HT).
  split; induction 1; [apply rtc_refl|eapply rtc_l; [by apply Hh|done] |
    apply rtc_refl | eapply rtc_l; [by apply Hh|done]].
Qed.

(** ** The walk *)

Section walk.
Variables (recent : list Z) (gear : nat -> bool).

Definition has_recent (C : list (Z * option nat)) : bool :=
  existsb (fun c => match snd c with None => true | Some _ => false end) C.

(** The verdict on the members of a cluster. *)
Definition admits (C : list (Z * option nat)) (t : Z) : bool :=
  if has_recent C then nearest_recent_ms recent t <=? GAP_FILL_MAX_MS
  else forallb (fun c => match snd c with Some k => gear k | None => false end) C.

Lemma fold_mark (p : Z -> bool) (C : list (Z * option nat)) : forall (ch : list bool) k,
  let r := foldl (fun ch c => match snd c with
                              | Some k => if p (fst c) then <[k := true]> ch else ch
                              | None => ch
                              end) ch C in
  length r = length ch
  /\ (r !! k = Some true <-> ch !! k = Some true
       \/ (k < length ch)%nat /\ exists t, (t, Some k) ∈ C /\ p t = true).
Proof.
  induction C as [|[t [j|]] C IH]; intros ch k; cbn [foldl fst snd].
  - split; [done|]. set_solver.
  - destruct (p t) eqn:Ep.
    + destruct (IH (<[j := true]> ch) k) as [Hl Hk]. rewrite length_insert in Hl, Hk.
      split; [done|]. rewrite Hk. rewrite list_lookup_insert_Some. setoid_rewrite elem_of_cons.
      split.
      * intros [[(-> & _ & ?)|[_ ?]]|(? & t' & ? & ?)]; [right|by left|right]; eauto.
      * intros [Hck|(? & t' & [Heq|?] & ?)]; [|simplify_eq; left; left; eauto|right; eauto].
        destruct (decide (j = k)) as [->|]; left; [left|right; done].
        apply lookup_lt_Some in Hck. done.
    + destruct (IH ch k) as [Hl Hk]. split; [done|]. rewrite Hk. setoid_rewrite elem_of_cons.
      split; [intros [?|(?&?&?&?)]; eauto 8|].
      intros [?|(? & t' & [Heq|?] & ?)]; [by left|congruence|right; eauto].
  - destruct (IH ch k) as [Hl Hk]. split; [done|]. rewrite Hk. setoid_rewrite elem_of_cons.
    split; [intros [?|(?&?&?&?)]; eauto 8|]. intros [?|(?&?&[?|?]&?)]; [by left|done|right; eauto].
Qed.

Lemma mark_cluster_spec C ch k :
  length (mark_cluster recent gear C ch) = length ch
  /\ (mark_cluster recent gear C ch !! k = Some true <-> ch !! k = Some true
       \/ (k < length ch)%nat /\ exists t, (t, Some k) ∈ C /\ admits C t = true).
Proof.
  unfold mark_cluster, admits. fold (has_recent C). destruct (has_recent C).
  - apply (fold_mark (fun t => nearest_recent_ms recent t <=? GAP_FILL_MAX_MS)).
  - destruct (forallb _ C).
    + apply (fold_mark (fun _ => true)).
    + split; [done|]. split; [by left|]. intros [?|(_&?&_&?)]; done.
Qed.

Lemma cluster_loop_spec rest k : forall cluster ch,
  length (cluster_loop recent gear cluster rest ch) = length ch
  /\ (cluster_loop recent gear cluster rest ch !! k = Some true <-> ch !! k = Some true
       \/ (k < length ch)%nat /\ exists C t, C ∈ clusters cluster rest /\ (t, Some k) ∈ C
                                           /\ admits C t = true).
Proof.
  induction rest as [|c rest IH]; intros cluster ch; cbn [cluster_loop clusters].
  - destruct (mark_cluster_spec cluster ch k) as [Hl Hk]. split; [done|]. rewrite Hk.
    setoid_rewrite list_elem_of_singleton. naive_solver.
  - destruct (last cluster) as [p|]; [destruct (_ <? _)|]; [|apply IH..].
    destruct (mark_cluster_spec cluster ch k) as [Hl Hk].
    destruct (IH [c] (mark_cluster recent gear cluster ch)) as [Hl' Hk']. rewrite Hl in Hl', Hk'.
    split; [done|]. rewrite Hk', Hk. setoid_rewrite elem_of_cons. naive_solver.
Qed.
End walk.

(** ** Admission *)


Section admission.
Variables (recent : list Z) (cands : list GapFillCandidate).

Definition cand_at (i : nat) : GapFillCandidate := nth i cands cand0.
Definition cand_ts (i : nat) : Z := gc_ts (cand_at i).

(** Steps 1-3 of the pipeline. *)
Definition kept_clips : list nat :=
  dedup_candidates recent ((fun c => (gc_ts c, gc_file c)) <$> cands)
    (filter (fun i => gc_driving (cand_at i) <> Some false) (seq 0 (length cands))).

(** The timeline chains run over: RecentClips and the kept candidates. *)
Definition timeline : list Z := recent ++ (cand_ts <$> kept_clips).

Definition anchored (ts : Z) : Prop := exists r, r ∈ recent /\ linked timeline ts r.

(** Step 4. *)
Definition admitted (i : nat) : Prop :=
  in_hole recent (cand_ts i)
  \/ (anchored (cand_ts i) /\ near_recent recent (cand_ts i))
  \/ (~ anchored (cand_ts i)
      /\ forall j, j ∈ kept_clips -> linked timeline (cand_ts i) (cand_ts j) ->
           gc_gear_driving (cand_at j) = true).

Lemma merged_elem kept_ts z :
  z ∈ merged_timeline recent kept_ts <->
  (snd z = None /\ fst z ∈ recent) \/ exists k, snd z = Some k /\ kept_ts !! k = Some (fst z).
Proof.
  destruct z as [t o]. unfold merged_timeline, sort_by_key. rewrite sort_by_perm, elem_of_app.
  cbn [fst snd]. rewrite list_elem_of_fmap, elem_of_lookup_imap. naive_solver.
Qed.

Lemma merged_times kept_ts :
  fst <$> merged_timeline recent kept_ts ≡ₚ recent ++ kept_ts.
Proof.
  unfold merged_timeline, sort_by_key. rewrite sort_by_perm, fmap_app. f_equiv.
  - rewrite <- list_fmap_compose. by rewrite list_fmap_id.
  - apply reflexive_eq. apply list_eq. intros i.
    rewrite list_lookup_fmap, list_lookup_imap. by destruct (kept_ts !! i).
Qed.

Context (Hrecent : ascending recent).

Lemma admits_spec k i C :
  let merged := merged_timeline recent (cand_ts <$> kept_clips) in
  let gear k := gc_gear_driving (cand_at (nth k kept_clips 0%nat)) in
  kept_clips !! k = Some i -> C ∈ clusters [] merged -> (cand_ts i, Some k) ∈ C ->
  admits recent gear C (cand_ts i) = true <->
  (anchored (cand_ts i) /\ near_recent recent (cand_ts i))
  \/ (~ anchored (cand_ts i)
      /\ forall j, j ∈ kept_clips -> linked timeline (cand_ts i) (cand_ts j) ->
           gc_gear_driving (cand_at j) = true).
Proof.
  intros merged gear Hk HC Hin.
  assert (forall z, z ∈ merged -> linked timeline (cand_ts i) (fst z) <-> z ∈ C) as Hcomp.
  { intros z Hz. unfold timeline. rewrite <- merged_times.
    apply (cluster_component merged C (cand_ts i, Some k) z);
      [apply sort_by_key_strongly | done | done | done]. }
  assert (forall z, z ∈ C -> z ∈ merged) as Hsub.
  { intros z Hz. change merged with ([] ++ merged). rewrite <- concat_clusters.
    apply list_elem_of_In, in_concat. exists C. by rewrite <- !list_elem_of_In. }
  assert (has_recent C = true <-> anchored (cand_ts i)) as Hanch.
  { unfold has_recent. rewrite existsb_exists. split.
    - intros ([t [?|]] & Hz%list_elem_of_In & ?); [done|]. apply Hsub in Hz as Hz'.
      apply merged_elem in Hz' as [[_ Hr]|(? & ? & _)]; [|done].
      exists t. split; [done|]. by apply (Hcomp (t, None) (Hsub _ Hz)).
    - intros (r & Hr & Hl). exists (r, None). split; [|done]. apply list_elem_of_In.
      apply Hcomp; [|done]. apply merged_elem. by left. }
  unfold admits. destruct (has_recent C) eqn:E.
  - rewrite nearest_recent_spec by done. naive_solver.
  - assert (~ anchored (cand_ts i)) as Hna by (rewrite <- Hanch; done).
    rewrite forallb_forall. split.
    + intros Hall. right. split; [done|]. intros j (kj & Hkj)%list_elem_of_lookup Hl.
      specialize (Hall (cand_ts j, Some kj)). cbn [snd] in Hall. unfold gear in Hall.
      rewrite (nth_lookup_Some _ _ _ _ Hkj) in Hall. apply Hall, list_elem_of_In.
      apply Hcomp; [|done]. apply merged_elem. right. exists kj. cbn [fst snd].
      by rewrite list_lookup_fmap, Hkj.
    + intros [[? _]|[_ Hall]]; [done|]. intros [t o] Hz%list_elem_of_In. apply Hsub in Hz as Hz'.
      apply merged_elem in Hz' as [[Ho Hr]|(kj & Ho & Hkj)]; cbn [fst snd] in *; subst o.
      * destruct Hna. exists t. split; [done|]. by apply (Hcomp (t, None) (Hsub _ Hz)).
      * rewrite list_lookup_fmap in Hkj. apply fmap_Some in Hkj as (j & Hj & ->).
        unfold gear. rewrite (nth_lookup_Some _ _ _ _ Hj). apply Hall.
        -- by eapply list_elem_of_lookup_2.
        -- by apply (Hcomp (cand_ts j, Some kj) (Hsub _ Hz)).
Qed.

Lemma kept_clips_lt i : i ∈ kept_clips -> (i < length cands)%nat /\ gc_driving (cand_at i) <> Some false.
Proof.
  intros Hi. unfold kept_clips in Hi. apply dedup_candidates_spec in Hi as [Hi _]; [|done].
  apply list_elem_of_filter in Hi as [? Hi]. apply elem_of_seq in Hi. split; [lia|done].
Qed.

(** A kept clip is marked exactly when its cluster admits it, and it has one. *)
Lemma chained_spec k j :
  let merged := merged_timeline recent (cand_ts <$> kept_clips) in
  let gear := fun k => gc_gear_driving (cand_at (nth k kept_clips 0%nat)) in
  let chained := cluster_loop recent gear [] merged (replicate (length kept_clips) false) in
  kept_clips !! k = Some j ->
  (nth k chained false = true <-> exists C, C ∈ clusters [] merged /\ (cand_ts j, Some k) ∈ C
     /\ admits recent gear C (cand_ts j) = true)
  /\ exists C, C ∈ clusters [] merged /\ (cand_ts j, Some k) ∈ C.
Proof.
  intros merged gear chained Hkj. apply lookup_lt_Some in Hkj as Hlt. split.
  - destruct (cluster_loop_spec recent gear merged k [] (replicate (length kept_clips) false)) as [Hl Hs].
    fold chained in Hl, Hs. rewrite length_replicate in Hl, Hs.
    assert (nth k chained false = true <-> chained !! k = Some true) as ->.
    { destruct (lookup_lt_is_Some_2 chained k) as [b Hb]; [lia|].
      rewrite (nth_lookup_Some _ _ _ _ Hb), Hb. naive_solver. }
    rewrite Hs, lookup_replicate. split.
    + intros [[? _]|(_ & C & t & HC & Ht & Ha)]; [done|].
      assert ((t, Some k) ∈ merged) as Hm.
      { change merged with ([] ++ merged). rewrite <- concat_clusters.
        apply list_elem_of_In, in_concat. exists C. by rewrite <- !list_elem_of_In. }
      apply merged_elem in Hm as [[? _]|(k' & [= <-] & Hm)]; [done|]. cbn [fst] in Hm.
      rewrite list_lookup_fmap, Hkj in Hm. injection Hm as <-. eauto.
    + intros (C & HC & Ht & Ha). right. eauto 8.
  - assert ((cand_ts j, Some k) ∈ concat (clusters [] merged)) as Hm.
    { rewrite concat_clusters. apply merged_elem. right. exists k. cbn [fst snd].
      by rewrite list_lookup_fmap, Hkj. }
    apply list_elem_of_In, in_concat in Hm as (C & ? & ?). exists C. by rewrite !list_elem_of_In.
Qed.

Lemma select_elem i :
  i ∈ select_gap_fill recent cands <-> i ∈ kept_clips /\ admitted i.
Proof.
  destruct (is_empty cands) eqn:Ee.
  { unfold select_gap_fill. rewrite Ee. split; [set_solver|]. intros [[Hi _]%kept_clips_lt _].
    apply is_empty_nil in Ee. rewrite Ee in Hi. cbn [length] in Hi. lia. }
  set (merged := merged_timeline recent (cand_ts <$> kept_clips)).
  set (gear := fun k => gc_gear_driving (cand_at (nth k kept_clips 0%nat))).
  set (chained := cluster_loop recent gear [] merged (replicate (length kept_clips) false)).
  assert (select_gap_fill recent cands
          = fst <$> filter (fun ik => ts_in_holes (fillable_holes recent) (cand_ts (fst ik)) = true
                                      \/ nth (snd ik) chained false = true)
                      (imap (fun k i => (i, k)) kept_clips)) as ->.
  { unfold select_gap_fill. rewrite Ee. reflexivity. }
  rewrite list_elem_of_fmap. setoid_rewrite list_elem_of_filter. setoid_rewrite elem_of_lookup_imap.
  split.
  - intros ([j k] & -> & Hadm & (k' & j' & [= <- <-] & Hkj)). cbn [fst snd] in *.
    split; [by eapply list_elem_of_lookup_2|]. unfold admitted. destruct Hadm as [Hh|Hh].
    + left. by apply ts_in_holes_spec.
    + right. apply (proj1 (chained_spec k j Hkj)) in Hh as (C & HC & Hin & Ha).
      by apply (admits_spec k j C Hkj HC Hin).
  - intros [(k & Hk)%list_elem_of_lookup Hadm]. exists (i, k). cbn [fst snd].
    split; [done|]. split; [|by exists k, i]. destruct Hadm as [Hh|Hadm].
    + left. by apply ts_in_holes_spec.
    + right. destruct (chained_spec k i Hk) as [Hch (C & HC & Hin)]. apply Hch.
      exists C. split_and!; [done..|]. by apply (admits_spec k i C Hk HC Hin).
Qed.
End admission.

Lemma StronglySorted_imap_filter {A} (R : A -> A -> Prop) (P : A * nat -> Prop)
    `{!forall x, Decision (P x)} l :
  StronglySorted R l -> StronglySorted R (fst <$> filter P (imap (fun k i => (i, k)) l)).
Proof.
  intros Hs. apply (StronglySorted_fmap fst (fun a b => R (fst a) (fst b)) R); [done|].
  apply StronglySorted_filter. remember (fun (k : nat) (i : A) => (i, k)) as f eqn:Ef.
  assert (forall k i, fst (f k i) = i) as Hf by (by subst). clear Ef.
  revert f Hf. induction Hs as [|x t _ IH Hx]; intros f Hf; [constructor|].
  rewrite imap_cons. constructor; [apply IH; intros; apply Hf|].
  apply Forall_forall. intros y (k & z & -> & Hz)%elem_of_lookup_imap. cbn. rewrite !Hf.
  rewrite Forall_forall in Hx. apply Hx. by eapply list_elem_of_lookup_2.
Qed.

Lemma kept_ts_nth (cands : list GapFillCandidate) i :
  fst (nth i ((fun c => (gc_ts c, gc_file c)) <$> cands) (0, [])) = cand_ts cands i.
Proof.
  unfold cand_ts, cand_at. revert i. induction cands as [|c cs IH]; intros [|i]; csimpl; auto.
Qed.

Lemma kept_clips_spec recent cands : ascending recent ->
  let ts := cand_ts cands in
  (forall i, i ∈ kept_clips recent cands -> ~ twin_of_recent recent (ts i))
  /\ StronglySorted (fun a b => GAP_FILL_DUP_MS < ts b - ts a) (kept_clips recent cands)
  /\ (forall i, (i < length cands)%nat -> gc_driving (cand_at cands i) <> Some false ->
        ~ twin_of_recent recent (ts i) ->
        exists j, j ∈ kept_clips recent cands /\ 0 <= ts i - ts j <= GAP_FILL_DUP_MS).
Proof.
  intros Hr ts.
  destruct (dedup_candidates_spec recent ((fun c => (gc_ts c, gc_file c)) <$> cands)
    (filter (fun i => gc_driving (cand_at cands i) <> Some false) (seq 0 (length cands))) Hr)
    as (H1 & H2 & H3). fold (kept_clips recent cands) in *.
  setoid_rewrite kept_ts_nth in H1. setoid_rewrite kept_ts_nth in H3. split_and!.
  - intros i Hi. by apply H1.
  - eapply StronglySorted_weaken; [|exact H2]. intros a b Hab. cbv beta zeta in Hab.
    by rewrite !kept_ts_nth in Hab.
  - intros i Hi Hd Ht. apply H3; [|done]. apply list_elem_of_filter. split; [done|].
    apply elem_of_seq. lia.
Qed.

(** C2: Exactly which event clips gap fill admits: those that survive the
    driving gate and the deduplication and either lie in a RecentClips hole, or
    are linked to RecentClips by hops of at most three minutes while within
    thirty minutes of it, or form a component without RecentClips in which every
    clip has gear evidence. *)
Theorem gap_fill_admission recent cands i :
  ascending recent ->
  i ∈ select_gap_fill recent cands <-> i ∈ kept_clips recent cands /\ admitted recent cands i.
Proof. intros Hr. by apply select_elem. Qed.

Lemma select_gap_fill_sorted recent cands :
  ascending recent ->
  StronglySorted (fun a b => GAP_FILL_DUP_MS < cand_ts cands b - cand_ts cands a) (select_gap_fill recent cands).
Proof.
  intros Hr. destruct (kept_clips_spec recent cands Hr) as (_ & H2 & _).
  unfold select_gap_fill. destruct (is_empty cands); [constructor|]. by apply StronglySorted_imap_filter.
Qed.

Lemma select_gap_fill_NoDup recent cands : ascending recent -> NoDup (select_gap_fill recent cands).
Proof.
  intros Hr. induction (select_gap_fill_sorted recent cands Hr) as [|i l Hs IH Hf]; constructor; [|done].
  rewrite Forall_forall in Hf. intros Hi. specialize (Hf i Hi). unfold GAP_FILL_DUP_MS in Hf. lia.
Qed.

(** An admitted clip is never one whose telemetry says parked, never repeats
    a RecentClips segment, and is within thirty minutes of RecentClips footage
    or has gear evidence of its own; the clips come in time order, more than the
    twin window apart. *)
Theorem gap_fill_sound recent cands :
  ascending recent ->
  (forall i, i ∈ select_gap_fill recent cands ->
     (i < length cands)%nat /\ gc_driving (cand_at cands i) <> Some false
     /\ ~ twin_of_recent recent (cand_ts cands i)
     /\ (near_recent recent (cand_ts cands i) \/ gc_gear_driving (cand_at cands i) = true))
  /\ StronglySorted (fun a b => GAP_FILL_DUP_MS < cand_ts cands b - cand_ts cands a)
       (select_gap_fill recent cands).
Proof.
  intros Hr. destruct (kept_clips_spec recent cands Hr) as (H1 & H2 & _). split.
  - intros i [Hk Ha]%select_elem; [|done]. pose proof (kept_clips_lt recent cands Hr i Hk) as [? ?].
    split_and!; [done|done|by apply H1|].
    destruct Ha as [(j & a & b & Haj & Hb & Hts & Hgap)|[[_ ?]|[_ Hall]]]; [|by left|].
    + left. exists a. split; [by eapply list_elem_of_lookup_2 | lia].
    + right. apply Hall; [done|apply rtc_refl].
  - by apply select_gap_fill_sorted.
Qed.

(** No footage of a hole is lost: every clip that is not known to be parked
    and lies in a RecentClips hole is admitted, or a clip of the same recorder
    segment, starting at most thirty seconds earlier, is. *)
Theorem gap_fill_complete recent cands i :
  ascending recent -> (i < length cands)%nat -> gc_driving (cand_at cands i) <> Some false ->
  in_hole recent (cand_ts cands i) -> ~ twin_of_recent recent (cand_ts cands i) ->
  exists j, j ∈ select_gap_fill recent cands
    /\ 0 <= cand_ts cands i - cand_ts cands j <= GAP_FILL_DUP_MS.
Proof.
  intros Hr Hi Hd (n & a & b & Ha & Hb & Hts & Hgap) Ht.
  destruct (kept_clips_spec recent cands Hr) as (_ & _ & H3).
  destruct (H3 i Hi Hd Ht) as (j & Hj & Hij). exists j. split; [|done].
  apply select_elem; [done|]. split; [done|]. left. exists n, a, b. split_and!; try done; try lia.
  destruct (Z.lt_ge_cases a (cand_ts cands j)); [done|]. destruct Ht. exists a.
  split; [by eapply list_elem_of_lookup_2 | lia].
Qed.

(** The playback manifest's selection is the interior rule alone: the kept
    clips that lie in a hole, one for every segment of the hole that an event
    folder holds. *)
Theorem interior_fill_spec recent (cands : list (Z * str)) :
  ascending recent ->
  let ts i := fst (nth i cands (0, [])) in
  (forall i, i ∈ select_interior_fill recent cands ->
     (i < length cands)%nat /\ in_hole recent (ts i) /\ ~ twin_of_recent recent (ts i))
  /\ (forall i, (i < length cands)%nat -> in_hole recent (ts i) -> ~ twin_of_recent recent (ts i) ->
     exists j, j ∈ select_interior_fill recent cands /\ 0 <= ts i - ts j <= GAP_FILL_DUP_MS).
Proof.
  intros Hr ts.
  destruct (dedup_candidates_spec recent cands (seq 0 (length cands)) Hr) as (H1 & _ & H3).
  fold ts in H1, H3.
  assert (forall i, in_hole recent i -> recent <> [] /\ fillable_holes recent <> []) as Hne.
  { intros t Ht. apply (ts_in_holes_spec recent t Hr) in Ht. split.
    - by intros ->.
    - intros E. by rewrite E in Ht. }
  assert (forall i, i ∈ select_interior_fill recent cands <->
    i ∈ dedup_candidates recent cands (seq 0 (length cands)) /\ in_hole recent (ts i)) as Hsel.
  { intros i. rewrite <- ts_in_holes_spec by done. unfold select_interior_fill.
    destruct (is_empty recent || is_empty cands) eqn:E1; [|destruct (is_empty (fillable_holes recent)) eqn:E2].
    - split; [set_solver|]. intros [Hi Hh]. exfalso. apply H1 in Hi as [Hi%elem_of_seq _].
      apply ts_in_holes_spec, Hne in Hh as [Hh _]; [|done].
      bsimp. destruct E1 as [E1|E1]; apply is_empty_nil in E1; [done|]. subst cands. simpl in Hi. lia.
    - split; [set_solver|]. intros [_ Hh]. apply is_empty_nil in E2. by rewrite E2 in Hh.
    - rewrite list_elem_of_filter. fold (ts i). naive_solver. }
  split.
  - intros i [Hi Hh]%Hsel. apply H1 in Hi as [Hi%elem_of_seq ?]. split; [lia|done].
  - intros i Hi (n & a & b & Ha & Hb & Hts & Hgap) Ht.
    destruct (H3 i) as (j & Hj & Hij); [apply elem_of_seq; lia|done|].
    exists j. split; [|done]. apply Hsel. split; [done|]. exists n, a, b.
    unfold ts in *. split_and!; try done; try lia.
    destruct (Z.lt_ge_cases a (fst (nth j cands (0, [])))); [done|]. destruct Ht. exists a.
    split; [by eapply list_elem_of_lookup_2 | lia].
Qed.

(** A two-minute gap, a clip in it, its twin, a parked clip, and a clip an hour
    later with gear evidence. *)
Definition demo_recent : list Z := [0; 60000; 360000].
Definition demo_cands : list GapFillCandidate :=
  [mkCand 120000 (lit "SavedClips/a") (Some true) true;
   mkCand 120500 (lit "SentryClips/a") (Some true) true;
   mkCand 180000 (lit "SentryClips/b") (Some false) false;
   mkCand 4000000 (lit "SavedClips/c") (Some true) true].

Lemma demo_ascending : ascending demo_recent.
Proof. repeat first [lia | constructor]. Qed.

Lemma demo_select : select_gap_fill demo_recent demo_cands = [0; 3]%nat.
Proof. vm_compute. reflexivity. Qed.

Lemma gap_fill_admission_witness : admitted demo_recent demo_cands 3.
Proof.
  apply (gap_fill_admission demo_recent demo_cands 3 demo_ascending). rewrite demo_select. set_solver.
Defined.

Lemma gap_fill_sound_witness :
  near_recent demo_recent 120000 \/ gc_gear_driving (cand_at demo_cands 0) = true.
Proof.
  destruct (gap_fill_sound demo_recent demo_cands demo_ascending) as [H _].
  destruct (H 0%nat) as (_ & _ & _ & Hn); [rewrite demo_select; set_solver|]. exact Hn.
Defined.

Lemma demo_no_twin t : 100000 <= t < 300000 -> ~ twin_of_recent demo_recent t.
Proof.
  intros Ht (r & Hr & Hle). unfold demo_recent, GAP_FILL_DUP_MS in *.
  rewrite !elem_of_cons, elem_of_nil in Hr. lia.
Qed.

Lemma demo_hole t : 60000 < t < 360000 -> in_hole demo_recent t.
Proof. intros Ht. exists 1%nat, 60000, 360000. split_and!; try done; lia. Qed.

Lemma gap_fill_complete_witness :
  exists j, j ∈ select_gap_fill demo_recent demo_cands
    /\ 0 <= 120500 - cand_ts demo_cands j <= GAP_FILL_DUP_MS.
Proof.
  apply (gap_fill_complete demo_recent demo_cands 1 demo_ascending);
    [simpl; lia | done | apply demo_hole; by vm_compute | apply demo_no_twin; by vm_compute].
Defined.

Lemma interior_fill_spec_witness :
  exists j, j ∈ select_interior_fill demo_recent [(120000, lit "SavedClips/a")]
    /\ 0 <= 120000 - fst (nth j [(120000, lit "SavedClips/a")] (0, [])) <= GAP_FILL_DUP_MS.
Proof.
  apply (proj2 (interior_fill_spec demo_recent [(120000, lit "SavedClips/a")] demo_ascending) 0%nat);
    [simpl; lia | apply demo_hole; by vm_compute | apply demo_no_twin; by vm_compute].
Defined.

(** ** Clip spans *)

Lemma fold_spans (gap : nat * nat -> Z) (ws : list (nat * nat)) : forall spans,
  NoDup (fst <$> ws) ->
  let ok w := (0 <? gap w) && (gap w <=? CLIP_DURATION_MS) in
  let r := foldl (fun spans w => if ok w then <[fst w := gap w]> spans else spans) spans ws in
  length r = length spans
  /\ (forall i, i ∉ fst <$> ws -> r !! i = spans !! i)
  /\ (forall w, w ∈ ws -> (fst w < length spans)%nat ->
        r !! fst w = if ok w then Some (gap w) else spans !! fst w).
Proof.
  induction ws as [|w ws IH]; intros spans Hnd ok r.
  { split_and!; [done|done|set_solver]. }
  csimpl in Hnd. apply NoDup_cons in Hnd as [Hn Hnd]. cbn [foldl] in r.
  destruct (IH (if ok w then <[fst w := gap w]> spans else spans) Hnd) as (H1 & H2 & H3).
  fold ok r in H1, H2, H3.
  assert (length (if ok w then <[fst w := gap w]> spans else spans) = length spans) as Hl
    by (destruct (ok w); [apply length_insert|done]).
  rewrite Hl in H1, H3. split_and!; [done| |].
  - intros i Hi. csimpl in Hi. rewrite not_elem_of_cons in Hi. destruct Hi as [Hi1 Hi2].
    rewrite H2 by done. destruct (ok w); [by apply list_lookup_insert_ne|done].
  - intros w' [->|Hw']%elem_of_cons Hlt.
    + rewrite H2 by done. destruct (ok w); [by apply list_lookup_insert_eq|done].
    + etrans; [exact (H3 w' Hw' Hlt)|]. cbv zeta. fold (ok w'). destruct (ok w'); [done|].
      destruct (ok w); [|done]. apply list_lookup_insert_ne. intros E. apply Hn. rewrite E.
      by apply list_elem_of_fmap_2.
Qed.

(** [i] and [j] are native entries with no native entry between them. *)
Definition next_native (entries : list (Z * bool)) (i j : nat) : Prop :=
  (i < j)%nat /\ (exists t, entries !! i = Some (t, true)) /\ (exists t, entries !! j = Some (t, true))
  /\ forall k t, (i < k < j)%nat -> entries !! k <> Some (t, true).

Lemma imap_pair_lookup {A} (l : list A) k p :
  imap (fun i e => (i, e)) l !! k = Some p <-> l !! k = Some (snd p) /\ fst p = k.
Proof.
  rewrite list_lookup_imap. destruct p as [i e]. cbn [fst snd].
  destruct (l !! k); cbn; naive_solver.
Qed.

Lemma native_indexes (entries : list (Z * bool)) i :
  i ∈ fst <$> filter (fun ie : nat * (Z * bool) => snd (snd ie) = true) (imap (fun i e => (i, e)) entries)
  <-> exists t, entries !! i = Some (t, true).
Proof.
  rewrite list_elem_of_fmap. setoid_rewrite list_elem_of_filter.
  setoid_rewrite list_elem_of_lookup. setoid_rewrite imap_pair_lookup. split.
  - intros ([k [t b]] & -> & Hb & (j & Hj & <-)). cbn [fst snd] in *. subst. eauto.
  - intros (t & Ht). exists (i, (t, true)). cbn [fst snd]. eauto.
Qed.

Lemma native_sorted (entries : list (Z * bool)) :
  StronglySorted lt
    (fst <$> filter (fun ie : nat * (Z * bool) => snd (snd ie) = true) (imap (fun i e => (i, e)) entries)).
Proof.
  apply (StronglySorted_fmap fst (fun a b => (fst a < fst b)%nat)); [done|].
  apply StronglySorted_filter.
  assert (forall n, StronglySorted (fun a b : nat * (Z * bool) => (fst a < fst b)%nat)
            (imap (fun i e => ((n + i)%nat, e)) entries)) as H; [|by apply (H 0%nat)].
  induction entries as [|e es IH]; intros n; [constructor|]. rewrite imap_cons. constructor.
  - specialize (IH (S n)). erewrite imap_ext; [exact IH|]. intros i x _. cbn. f_equal. lia.
  - apply Forall_forall. intros y (k & z & -> & Hz)%elem_of_lookup_imap. cbn. lia.
Qed.

(** The windows of a strictly sorted list are its consecutive elements. *)
Lemma windows2_consecutive (l : list nat) i j :
  StronglySorted lt l ->
  (i, j) ∈ windows2 l <-> (i < j)%nat /\ i ∈ l /\ j ∈ l /\ forall m, m ∈ l -> ~ (i < m < j)%nat.
Proof.
  intros Hs. rewrite list_elem_of_lookup. setoid_rewrite windows2_spec.
  assert (forall p q x y, l !! p = Some x -> l !! q = Some y -> (x < y)%nat -> (p < q)%nat) as Hpos.
  { intros p q x y Hp Hq Hxy. destruct (Nat.lt_trichotomy p q) as [|[->|Hlt]]; [done|simplify_eq; lia|].
    pose proof (StronglySorted_lookup lt l q p y x Hs Hlt Hq Hp). lia. }
  split.
  - intros (k & Hi & Hj).
    split_and!; [apply (StronglySorted_lookup lt l k (S k)); [done|lia|done|done]
                |by eapply list_elem_of_lookup_2..|].
    intros m (q & Hq)%list_elem_of_lookup Hm. pose proof (Hpos k q i m Hi Hq ltac:(lia)).
    destruct (decide (q = S k)) as [->|]; [simplify_eq; lia|].
    pose proof (StronglySorted_lookup lt l (S k) q j m Hs ltac:(lia) Hj Hq). lia.
  - intros (Hij & (k & Hk)%list_elem_of_lookup & (q & Hq)%list_elem_of_lookup & Hno).
    exists k. split; [done|]. pose proof (Hpos k q i j Hk Hq Hij).
    destruct (decide (q = S k)) as [->|]; [done|exfalso].
    destruct (lookup_lt_is_Some_2 l (S k)) as [m Hm]; [apply lookup_lt_Some in Hq; lia|].
    pose proof (StronglySorted_lookup lt l k (S k) i m Hs ltac:(lia) Hk Hm).
    pose proof (StronglySorted_lookup lt l (S k) q m j Hs ltac:(lia) Hm Hq).
    apply (Hno m); [by eapply list_elem_of_lookup_2|lia].
Qed.

Lemma windows2_nodup (l : list nat) : StronglySorted lt l -> NoDup (fst <$> windows2 l).
Proof.
  induction 1 as [|x [|y t] Hs IH Hf]; [constructor|constructor|].
  change (windows2 (x :: y :: t)) with ((x, y) :: windows2 (y :: t)).
  rewrite fmap_cons. apply NoDup_cons. split; [|done]. intros ([a b] & E & Hab)%list_elem_of_fmap.
  cbn [fst] in E. subst a. apply list_elem_of_lookup in Hab as (k & [Ha _]%windows2_spec).
  rewrite Forall_forall in Hf. specialize (Hf x ltac:(by eapply list_elem_of_lookup_2)). cbn in Hf. lia.
Qed.

(** Every clip lasts its nominal minute, except a native clip whose next
    native clip starts within that minute: it lasts exactly until then. So spans
    lie in (0, 60000] and a native clip never runs into the next one. *)
Theorem clip_spans_spec (entries : list (Z * bool)) :
  length (clip_spans entries) = length entries
  /\ (forall i j ti tj, next_native entries i j ->
        entries !! i = Some (ti, true) -> entries !! j = Some (tj, true) ->
        clip_spans entries !! i
        = Some (if (0 <? tj - ti) && (tj - ti <=? CLIP_DURATION_MS) then tj - ti else CLIP_DURATION_MS))
  /\ (forall i, (i < length entries)%nat -> (forall j, ~ next_native entries i j) ->
        clip_spans entries !! i = Some CLIP_DURATION_MS).
Proof.
  unfold clip_spans. pose proof (native_sorted entries) as Hns. pose proof (native_indexes entries) as Hnat.
  set (native := fst <$> filter _ _) in *.
  assert (forall i j, (i, j) ∈ windows2 native <-> next_native entries i j) as Hwin.
  { intros i j. rewrite windows2_consecutive by done. setoid_rewrite Hnat. unfold next_native. naive_solver. }
  destruct (fold_spans (fun w => fst (nth (snd w) entries (0, false)) - fst (nth (fst w) entries (0, false)))
    (windows2 native) (replicate (length entries) CLIP_DURATION_MS) (windows2_nodup native Hns)) as (H1 & H2 & H3).
  rewrite length_replicate in H1, H3. split_and!; [done| |].
  - intros i j ti tj Hnn Hi Hj. apply Hwin in Hnn as Hw.
    pose proof (lookup_lt_Some _ _ _ Hi) as Hlt. etrans; [exact (H3 (i, j) Hw Hlt)|].
    cbv zeta. cbn [fst snd]. rewrite (nth_lookup_Some _ _ _ _ Hi), (nth_lookup_Some _ _ _ _ Hj).
    cbn [fst]. rewrite lookup_replicate_2 by done. by destruct (_ && _).
  - intros i Hi Hno. etrans; [apply H2|by apply lookup_replicate_2].
    intros ([a b] & -> & Hab)%list_elem_of_fmap. apply Hwin in Hab. by apply (Hno b).
Qed.

Lemma clip_spans_spec_witness : clip_spans [(0, true); (25000, false); (40000, true)] !! 0%nat = Some 40000.
Proof.
  refine (proj1 (proj2 (clip_spans_spec [(0, true); (25000, false); (40000, true)])) 0%nat 2%nat 0 40000 _ eq_refl eq_refl).
  split_and!; [lia|by exists 0|by exists 40000|]. intros [|[|k]] t; try lia. intros _ [=].
Defined.
