(* ===== verification/Calc.v ===== *)
(** * Geometry and unit conversions ([crates/drives/src/calc.rs])

    [f64] values are bit patterns. Rust leaves the precision of the
    trigonometric functions to the platform, so they are a parameter, [libm];
    the arithmetic around them is IEEE 754. *)

From Stdlib Require Import ZArith Lia.
From stdpp Require Import base list.
From S2P Require Import Prelude Float Types.

Open Scope Z_scope.

Record libm := mkLibm {
  f_sin : Z -> Z; f_cos : Z -> Z; f_tan : Z -> Z; f_atan : Z -> Z; f_atan2 : Z -> Z -> Z;
  f_powi2 : Z -> Z;
}.

Definition f1 : Z := F64.of_Z 1.
Definition f2 : Z := F64.of_Z 2.
Definition PI : Z := 0x400921FB54442D18.

Definition WGS84_A : Z := F64.of_Z 6378137.
Definition WGS84_F : Z := F64.div f1 (F64.dec 298257223563 9).
Definition EARTH_RADIUS_M : Z := F64.of_Z 6371000.
Definition M_PER_MILE : Z := F64.dec 1609344 3.
Definition MPS_TO_MPH : Z := F64.dec 223694 5.
Definition MAX_FROM_MEDIAN_M : Z := F64.of_Z 1000000.
Definition MAX_JUMP_M : Z := F64.of_Z 5000.
Definition PARK_MAJORITY_FRACTION : Z := F64.dec 5 1.
Definition PARK_MAJORITY_FRACTION_FAST : Z := F64.dec 6 1.

Section geodesy.
Context (L : libm).

Definition geodesic_m (lat1 lon1 lat2 lon2 : Z) : Z :=
  if F64.eq lat1 lat2 && F64.eq lon1 lon2 then F64.zero
  else
    let to_rad := F64.div PI (F64.of_Z 180) in
    let b1 := f_atan L (F64.mul (F64.sub f1 WGS84_F) (f_tan L (F64.mul lat1 to_rad))) in
    let b2 := f_atan L (F64.mul (F64.sub f1 WGS84_F) (f_tan L (F64.mul lat2 to_rad))) in
    let p := F64.div (F64.add b1 b2) f2 in
    let q := F64.div (F64.sub b2 b1) f2 in
    let sin_half_dlon := f_sin L (F64.div (F64.mul (F64.sub lon2 lon1) to_rad) f2) in
    let sin_q := f_sin L q in
    let h := F64.add (F64.mul sin_q sin_q)
               (F64.mul (F64.mul (F64.mul (f_cos L b1) (f_cos L b2)) sin_half_dlon) sin_half_dlon) in
    let sigma := F64.mul f2 (f_atan2 L (F64.sqrt h)
                               (F64.sqrt (F64.max (F64.sub f1 h) F64.zero))) in
    if F64.eq sigma F64.zero then F64.zero
    else
      let sin_sigma := f_sin L sigma in
      let cos2_half := F64.max (F64.sub f1 h) (F64.dec 1 12) in
      let sin2_half := F64.max h (F64.dec 1 12) in
      let x := F64.div (F64.mul (F64.mul (F64.sub sigma sin_sigma) (f_powi2 L (f_sin L p)))
                          (f_powi2 L (f_cos L q))) cos2_half in
      let y := F64.div (F64.mul (F64.mul (F64.mul (F64.add sigma sin_sigma) (f_powi2 L (f_cos L p)))
                          sin_q) sin_q) sin2_half in
      F64.mul WGS84_A (F64.sub sigma (F64.mul (F64.div WGS84_F f2) (F64.add x y))).

Definition haversine_m (lat1 lon1 lat2 lon2 : Z) : Z :=
  let to_rad := F64.div PI (F64.of_Z 180) in
  let dlat := F64.mul (F64.sub lat2 lat1) to_rad in
  let dlon := F64.mul (F64.sub lon2 lon1) to_rad in
  let a := F64.add (f_powi2 L (f_sin L (F64.div dlat f2)))
             (F64.mul (F64.mul (f_cos L (F64.mul lat1 to_rad)) (f_cos L (F64.mul lat2 to_rad)))
                (f_powi2 L (f_sin L (F64.div dlon f2)))) in
  let c := F64.mul f2 (f_atan2 L (F64.sqrt a) (F64.sqrt (F64.sub f1 a))) in
  F64.mul EARTH_RADIUS_M c.
End geodesy.

Definition m_to_mi (m : Z) : Z := F64.div m M_PER_MILE.
Definition mps_to_mph (mps : Z) : Z := F64.mul mps MPS_TO_MPH.
Definition round2 (v : Z) : Z := F64.div (F64.round (F64.mul v (F64.of_Z 100))) (F64.of_Z 100).
Definition round1 (v : Z) : Z := F64.div (F64.round (F64.mul v (F64.of_Z 10))) (F64.of_Z 10).
Definition is_null_island (lat lon : Z) : bool :=
  F64.lt (F64.abs lat) f1 && F64.lt (F64.abs lon) f1.
