(* ===== verification/Grouper.v ===== *)
(** * Grouping clips into drives ([crates/drives/src/grouper.rs])

    [group_clips] groups full routes; [plan_overviews] runs the same topology
    over reduced metadata before any point is decoded. Timestamps are
    milliseconds. Two things outside the sources are parameters: chrono's
    timestamp parser ([parse_iso]) and the iteration order of a [HashMap]
    ([hash_order], on the keys in insertion order). *)

From Stdlib Require Import ZArith Lia.
From stdpp Require Import base list sorting.
From S2P Require Import Prelude Float Types Str GapFill Calc.

Open Scope Z_scope.

(** ** Routes *)

(** The optional BLE columns of a route, carried along unread. *)
Record TempSample := mkTemp { ts_t : Z; ts_i : option Z; ts_e : option Z }.
Record BleRollup := mkBle {
  battery_pct_start : option Z; battery_pct_end : option Z;
  interior_temp_min : option Z; interior_temp_max : option Z; exterior_temp_avg : option Z;
  hvac_runtime_s : option Z;
  tire_fl_psi : option Z; tire_fr_psi : option Z; tire_rl_psi : option Z; tire_rr_psi : option Z;
  odometer_mi_start : option Z; odometer_mi_end : option Z;
  location_name_start : option str; location_name_end : option str;
  temp_samples : list TempSample;
}.

Record Route := mkRoute {
  rt_file : str; rt_date : str; rt_points : list GpsPoint;
  rt_gear_states : list Z; rt_autopilot_states : list Z; rt_speeds : list Z;
  rt_accel_positions : list Z; rt_raw_park_count : Z; rt_raw_frame_count : Z;
  rt_gear_runs : list GearRun; rt_flag_runs : list FlagRun; rt_ap_runs : list ApRun;
  rt_accel_x : list Z; rt_accel_y : list Z;
  rt_source : option str; rt_external_signature : option str;
  rt_tessie_autopilot_percent : option Z;
  rt_ble : BleRollup;
}.

Definition ble_empty : BleRollup :=
  mkBle None None None None None None None None None None None None None None [].
Definition route_empty : Route :=
  mkRoute [] [] [] [] [] [] [] 0 0 [] [] [] [] [] None None None ble_empty.

Record TimedRoute := mkTimed { tr_route : Route; tr_timestamp : Z; tr_clip_span_ms : Z }.

(** ** Paths *)

Definition norm_path (file : str) : str := replace_char 92 47 file.

Definition is_event_folder_path (file : str) : bool :=
  let norm := norm_path file in
  starts_with norm (lit "SavedClips/") || starts_with norm (lit "SentryClips/").

Definition is_digit (b : Z) : bool := (48 <=? b) && (b <=? 57).

(** [YYYY-MM-DD_HH-MM-SS] at [start]. *)
Definition stamp_at (bytes : str) (start : nat) : bool :=
  let b i := nth (start + i) bytes 0 in
  (b 4%nat =? 45) && (b 7%nat =? 45) && (b 10%nat =? 95) && (b 13%nat =? 45) && (b 16%nat =? 45)
  && forallb is_digit (slice bytes start (start + 4))
  && forallb is_digit (slice bytes (start + 5) (start + 7))
  && forallb is_digit (slice bytes (start + 8) (start + 10))
  && forallb is_digit (slice bytes (start + 11) (start + 13))
  && forallb is_digit (slice bytes (start + 14) (start + 16))
  && forallb is_digit (slice bytes (start + 17) (start + 19)).

(** The ISO form handed to the parser. *)
Definition iso_of (bytes : str) (start : nat) : str :=
  let s := slice bytes start (start + 19) in
  slice s 0 10 ++ lit "T" ++ slice s 11 13 ++ lit ":" ++ slice s 14 16 ++ lit ":" ++ slice s 17 19.

Section grouping.
Context (parse_iso : str -> option Z) (hash_order : list str -> list str).

Fixpoint stamp_loop (n start : nat) (bytes : str) : option Z :=
  match n with
  | O => None
  | S n =>
      if stamp_at bytes start then
        match parse_iso (iso_of bytes start) with
        | Some dt => Some dt
        | None => stamp_loop n (S start) bytes
        end
      else stamp_loop n (S start) bytes
  end.

Definition parse_file_timestamp (file_path : str) : option Z :=
  if (length file_path <? 19)%nat then None
  else stamp_loop (S (length file_path - 19)) 0 file_path.

Definition parse_clip_timestamp (file_path : str) : option Z :=
  parse_file_timestamp (rsplit_next 47 (norm_path file_path)).

Definition bounds_clip_span (source : option str) (file : str) : bool :=
  match source with None => true | Some s => bool_decide (s = lit "sei") end
  && negb (contains file (lit "-front-bridge.mp4")).

(** ** Splitting at park gaps *)

Definition frame_offset_ms (frame total span_ms : Z) : Z :=
  if total =? 0 then 0
  else i64 (u64 (u64 (frame * Z.max span_ms 0) + total / 2) / total).
Definition frame_span_ms (start end_ total span_ms : Z) : Z :=
  i64 (frame_offset_ms end_ total span_ms - frame_offset_ms start total span_ms).

(** [(PARK_GAP_SECONDS * 1000.0) as u64] is 2000. *)
Definition park_gap_frames (frames total span_ms : Z) : bool :=
  u64 (2000 * total) <=? u64 (frames * Z.max span_ms 0).

Record PlannedSeg := mkSeg {
  ps_start : nat; ps_end : nat; ps_offset_ms : Z; ps_span_ms : Z; ps_parked : bool;
}.

Record RawSeg := mkRaw { rs_start : Z; rs_end : Z; rs_parked : bool }.

Fixpoint raw_segs (gear_runs : list GearRun) (total span_ms frame : Z) : list RawSeg :=
  match gear_runs with
  | [] => []
  | run :: rest =>
      mkRaw frame (u32 (frame + gr_frames run))
        ((gr_gear run =? GEAR_PARK) && park_gap_frames (gr_frames run) total span_ms)
      :: raw_segs rest total span_ms (u32 (frame + gr_frames run))
  end.

(** Merge consecutive driving segments, into [merged]. *)
Definition merge_step (merged : list RawSeg) (seg : RawSeg) : list RawSeg :=
  match last merged with
  | Some l =>
      if negb (rs_parked l) && negb (rs_parked seg)
      then take (pred (length merged)) merged ++ [mkRaw (rs_start l) (rs_end seg) (rs_parked l)]
      else merged ++ [seg]
  | None => merged ++ [seg]
  end.
Definition merge_segs (segs : list RawSeg) : list RawSeg := foldl merge_step [] segs.

(** One merged segment to its planned fragment; [None] when there is nothing to
    slice. *)
Definition plan_seg (total span_ms : Z) (n_points : nat) (seg : RawSeg) : option PlannedSeg :=
  if rs_parked seg then Some (mkSeg 0 0 0 0 true)
  else
    let n := Z.of_nat n_points in
    let start_frac := F64.div (F64.of_Z (rs_start seg)) (F64.of_Z total) in
    let end_frac := F64.div (F64.of_Z (rs_end seg)) (F64.of_Z total) in
    let start_idx := F64.to_usize (F64.round (F64.mul start_frac (F64.of_Z n))) in
    let end_idx := F64.to_usize (F64.round (F64.mul end_frac (F64.of_Z n))) in
    let start_idx := if n <=? start_idx then u_sat_sub n 1 else start_idx in
    let end_idx := if n <? end_idx then n else end_idx in
    let end_idx := if end_idx <=? start_idx then start_idx + 1 else end_idx in
    if n <? end_idx then None
    else Some (mkSeg (Z.to_nat start_idx) (Z.to_nat end_idx)
                 (frame_offset_ms (rs_start seg) total span_ms)
                 (frame_span_ms (rs_start seg) (rs_end seg) total span_ms) false).

Definition total_frames (gear_runs : list GearRun) : Z := u32 (sum_Z (gr_frames <$> gear_runs)).

Definition plan_clip_at_park_gaps (gear_runs : list GearRun) (n_points : nat) (clip_span_ms : Z)
  : option (list PlannedSeg) :=
  let total := total_frames gear_runs in
  if total =? 0 then None
  else
    let merged := merge_segs (raw_segs gear_runs total clip_span_ms 0) in
    if negb (existsb rs_parked merged) then None
    else Some (omap (plan_seg total clip_span_ms n_points) merged).

Definition seg_slice {A} (l : list A) (s e : nat) : list A :=
  if (e <=? length l)%nat then slice l s e else [].

(** The sub-clip of a driving segment. *)
Definition cut_route (r : Route) (s e : nat) : Route :=
  mkRoute (rt_file r) (rt_date r) (slice (rt_points r) s e)
    (seg_slice (rt_gear_states r) s e) (seg_slice (rt_autopilot_states r) s e)
    (seg_slice (rt_speeds r) s e) (seg_slice (rt_accel_positions r) s e) 0 0 []
    (rt_flag_runs r) (rt_ap_runs r) (seg_slice (rt_accel_x r) s e) (seg_slice (rt_accel_y r) s e)
    (rt_source r) (rt_external_signature r) (rt_tessie_autopilot_percent r) (rt_ble r).

Record ClipSegment := mkClipSeg { cs_route : TimedRoute; cs_parked : bool }.

Definition cut_segment (clip : TimedRoute) (seg : PlannedSeg) : ClipSegment :=
  if ps_parked seg then mkClipSeg (mkTimed route_empty (tr_timestamp clip) 0) true
  else mkClipSeg (mkTimed (cut_route (tr_route clip) (ps_start seg) (ps_end seg))
                    (tr_timestamp clip + ps_offset_ms seg) (ps_span_ms seg)) false.

Definition split_clip_at_park_gaps (clip : TimedRoute) : list ClipSegment :=
  match plan_clip_at_park_gaps (rt_gear_runs (tr_route clip)) (length (rt_points (tr_route clip)))
          (tr_clip_span_ms clip) with
  | None => [mkClipSeg clip false]
  | Some plan => cut_segment clip <$> plan
  end.

(** ** Gear-state splitting *)

(** Close the current drive, when it has clips. *)
Definition close {A} (st : list (list A) * list A) : list (list A) * list A :=
  match snd st with [] => st | _ => (fst st ++ [snd st], []) end.
Definition push {A} (x : A) (st : list (list A) * list A) : list (list A) * list A :=
  (fst st, snd st ++ [x]).

Definition seg_step (st : list (list TimedRoute) * list TimedRoute) (seg : ClipSegment) :=
  if cs_parked seg then close st
  else if is_empty (rt_points (tr_route (cs_route seg))) then st
  else push (cs_route seg) st.

Definition gear_step (st : list (list TimedRoute) * list TimedRoute) (clip : TimedRoute) :=
  if is_empty (rt_gear_runs (tr_route clip)) then push clip st
  else foldl seg_step st (split_clip_at_park_gaps clip).

Definition mostly_parked_legacy_core (raw_park_count raw_frame_count : Z)
    (gear_park_count gear_states_len : nat) : bool :=
  if 0 <? raw_frame_count then
    F64.lt PARK_MAJORITY_FRACTION (F64.div (F64.of_Z raw_park_count) (F64.of_Z raw_frame_count))
  else if (gear_states_len =? 0)%nat then false
  else (gear_states_len / 2 <? gear_park_count)%nat.

Definition park_states (gear_states : list Z) : nat :=
  length (filter (fun g => g = GEAR_PARK) gear_states).

Definition clip_is_mostly_parked_legacy (clip : TimedRoute) : bool :=
  mostly_parked_legacy_core (rt_raw_park_count (tr_route clip)) (rt_raw_frame_count (tr_route clip))
    (park_states (rt_gear_states (tr_route clip))) (length (rt_gear_states (tr_route clip))).

Definition legacy_step (st : list (list TimedRoute) * list TimedRoute) (clip : TimedRoute) :=
  if clip_is_mostly_parked_legacy clip then close st else push clip st.

Definition split_by_gear_state_legacy (group : list TimedRoute) : list (list TimedRoute) :=
  if (length group <=? 1)%nat then [group]
  else if negb (existsb (fun c => negb (is_empty (rt_gear_states (tr_route c)))) group) then [group]
  else fst (close (foldl legacy_step ([], []) group)).

Definition split_by_gear_state (group : list TimedRoute) : list (list TimedRoute) :=
  if is_empty group then []
  else if negb (existsb (fun c => negb (is_empty (rt_gear_runs (tr_route c)))) group)
  then split_by_gear_state_legacy group
  else
    let result := fst (close (foldl gear_step ([], []) group)) in
    if is_empty result then [group] else result.

(** ** External signatures *)

(** [buckets.entry(sig).or_default().push(x)]; keys stay in insertion order. *)
Fixpoint bucket_push {A} (sig : str) (x : A) (buckets : list (str * list A)) : list (str * list A) :=
  match buckets with
  | [] => [(sig, [x])]
  | (k, b) :: t => if bool_decide (k = sig) then (k, b ++ [x]) :: t else (k, b) :: bucket_push sig x t
  end.

Fixpoint bucket_get {A} (sig : str) (buckets : list (str * list A)) : list A :=
  match buckets with
  | [] => []
  | (k, b) :: t => if bool_decide (k = sig) then b else bucket_get sig t
  end.

Definition sig_step {A} (sig : A -> option str) (st : list A * list (str * list A)) (x : A) :=
  match sig x with
  | Some s => (fst st, bucket_push s x (snd st))
  | None => (fst st ++ [x], snd st)
  end.

Definition split_by_signature {A} (sig : A -> option str) (group : list A) : list (list A) :=
  if (length group <=? 1)%nat then [group]
  else if negb (existsb (fun x => bool_decide (is_Some (sig x))) group) then [group]
  else
    let '(no_sig, buckets) := foldl (sig_step sig) ([], []) group in
    (if is_empty no_sig then [] else [no_sig])
    ++ ((fun k => bucket_get k buckets) <$> hash_order (fst <$> buckets)).

Definition split_by_external_signature (group : list TimedRoute) : list (list TimedRoute) :=
  split_by_signature (fun c => rt_external_signature (tr_route c)) group.

(** ** Time groups *)

Definition gap_step {A} (ts : A -> Z) (st : list (list A) * list A) (x : A) :=
  match last (snd st) with
  | Some p => if DRIVE_GAP_MS <? ts x - ts p then push x (close st) else push x st
  | None => push x st
  end.

Definition time_groups {A} (ts : A -> Z) (timed : list A) : list (list A) :=
  match timed with
  | [] => []
  | x :: rest => fst (close (foldl (gap_step ts) ([], [x]) rest))
  end.

(** ** [group_clips] *)

(** Paths seen, RecentClips routes, event candidates. *)
Definition partition_step (st : list str * list Route * list Route) (r : Route) :=
  let '(seen, unique, events) := st in
  let norm := norm_path (rt_file r) in
  if bool_decide (norm ∈ seen) then st
  else if is_event_folder_path (rt_file r) then (seen ++ [norm], unique, events ++ [r])
  else (seen ++ [norm], unique ++ [r], events).

Definition route_has_driving (r : Route) : bool :=
  telemetry_has_driving (rt_gear_runs r) (rt_gear_states r) (rt_speeds r)
    (rt_raw_park_count r) (rt_raw_frame_count r).

Definition route_candidate (c : Z * Route) : GapFillCandidate :=
  mkCand (fst c) (rt_file (snd c)) (Some (route_has_driving (snd c)))
    (telemetry_gear_driving (rt_gear_runs (snd c)) []).

Definition timed_of (r : Route) : option TimedRoute :=
  (fun ts => mkTimed r ts CLIP_DURATION_MS) <$> parse_clip_timestamp (rt_file r).

Definition set_spans (timed : list TimedRoute) : list TimedRoute :=
  let entries := (fun t => (tr_timestamp t,
                    bounds_clip_span (rt_source (tr_route t)) (rt_file (tr_route t)))) <$> timed in
  zip_with (fun t span => mkTimed (tr_route t) (tr_timestamp t) span) timed (clip_spans entries).

(** Admit event routes; [cands] keeps every candidate route in place. *)
Definition fill_gaps (timed : list TimedRoute) (events : list Route) : list TimedRoute :=
  if is_empty events then timed
  else
    let recent_ts := tr_timestamp <$> timed in
    let cands := omap (fun r => (fun ts => (ts, r)) <$> parse_clip_timestamp (rt_file r)) events in
    let keys := route_candidate <$> cands in
    let filled := omap (fun i => (fun c => mkTimed (snd c) (fst c) CLIP_DURATION_MS) <$> cands !! i)
                    (select_gap_fill recent_ts keys) in
    if is_empty filled then timed else sort_by_key tr_timestamp (timed ++ filled).

Definition group_clips (routes : list Route) : list (list TimedRoute) :=
  if is_empty routes then []
  else
    let '(_, unique, events) := foldl partition_step ([], [], []) routes in
    let timed := omap timed_of unique in
    if is_empty timed && is_empty events then []
    else
      let timed := sort_by_key tr_timestamp timed in
      let timed := fill_gaps timed events in
      let timed := set_spans timed in
      if is_empty timed then []
      else
        mbind (fun tg => mbind split_by_external_signature (split_by_gear_state tg))
          (time_groups tr_timestamp timed).

(** ** The overview planner *)

Record OverviewClipMeta := mkMeta {
  om_file : str; om_n_points : nat; om_gear_runs : list GearRun; om_gear_states_len : nat;
  om_gear_states_non_park : bool; om_gear_states_park_count : nat;
  om_raw_park_count : Z; om_raw_frame_count : Z; om_speeds_driving : bool;
  om_source : option str; om_external_signature : option str;
}.

Definition from_route (r : Route) : OverviewClipMeta :=
  mkMeta (rt_file r) (length (rt_points r)) (rt_gear_runs r) (length (rt_gear_states r))
    (states_non_park (rt_gear_states r)) (park_states (rt_gear_states r))
    (rt_raw_park_count r) (rt_raw_frame_count r) (speeds_driving (rt_speeds r))
    (rt_source r) (rt_external_signature r).

Definition meta0 : OverviewClipMeta := from_route route_empty.

Definition meta_driving (m : OverviewClipMeta) : bool :=
  telemetry_has_driving_core (runs_non_park (om_gear_runs m)) (is_empty (om_gear_runs m))
    (om_gear_states_non_park m) (om_gear_states_len m =? 0)%nat (om_raw_park_count m)
    (om_raw_frame_count m) (om_speeds_driving m).

Record PlannedFragment := mkFrag { pf_meta_idx : nat; pf_start : nat; pf_end : nat; pf_timestamp : Z }.
Record TimedMeta := mkTimedMeta { tm_idx : nat; tm_ts : Z; tm_clip_span_ms : Z }.

Section planner.
Context (metas : list OverviewClipMeta).

Definition meta (i : nat) : OverviewClipMeta := nth i metas meta0.

(** Paths seen, timed RecentClips, event indexes. *)
Definition plan_partition_step (st : list str * list TimedMeta * list nat) (im : nat * OverviewClipMeta) :=
  let '(seen, timed, events) := st in
  let norm := norm_path (om_file (snd im)) in
  if bool_decide (norm ∈ seen) then st
  else if is_event_folder_path (om_file (snd im)) then (seen ++ [norm], timed, events ++ [fst im])
  else match parse_clip_timestamp (om_file (snd im)) with
       | Some ts => (seen ++ [norm], timed ++ [mkTimedMeta (fst im) ts CLIP_DURATION_MS], events)
       | None => (seen ++ [norm], timed, events)
       end.

Definition meta_candidate (c : Z * nat) : GapFillCandidate :=
  mkCand (fst c) (om_file (meta (snd c))) (Some (meta_driving (meta (snd c))))
    (runs_non_park (om_gear_runs (meta (snd c)))).

Definition plan_fill_gaps (timed : list TimedMeta) (events : list nat) : list TimedMeta :=
  if is_empty events then timed
  else
    let recent_ts := tm_ts <$> timed in
    let cands := omap (fun i => (fun ts => (ts, i)) <$> parse_clip_timestamp (om_file (meta i)))
                   events in
    let keys := meta_candidate <$> cands in
    let admitted := omap (fun k => (fun c => mkTimedMeta (snd c) (fst c) CLIP_DURATION_MS) <$> cands !! k)
                      (select_gap_fill recent_ts keys) in
    if is_empty admitted then timed else sort_by_key tm_ts (timed ++ admitted).

Definition plan_set_spans (timed : list TimedMeta) : list TimedMeta :=
  let entries := (fun t => (tm_ts t,
                    bounds_clip_span (om_source (meta (tm_idx t))) (om_file (meta (tm_idx t)))))
                 <$> timed in
  zip_with (fun t span => mkTimedMeta (tm_idx t) (tm_ts t) span) timed (clip_spans entries).

Definition whole_fragment (tm : TimedMeta) : PlannedFragment :=
  mkFrag (tm_idx tm) 0 (om_n_points (meta (tm_idx tm))) (tm_ts tm).

Definition plan_seg_step (tm : TimedMeta) (st : list (list PlannedFragment) * list PlannedFragment)
    (seg : PlannedSeg) :=
  if ps_parked seg then close st
  else push (mkFrag (tm_idx tm) (ps_start seg) (ps_end seg) (tm_ts tm + ps_offset_ms seg)) st.

Definition plan_gear_step (st : list (list PlannedFragment) * list PlannedFragment) (tm : TimedMeta) :=
  let m := meta (tm_idx tm) in
  if is_empty (om_gear_runs m) then push (whole_fragment tm) st
  else match plan_clip_at_park_gaps (om_gear_runs m) (om_n_points m) (tm_clip_span_ms tm) with
       | None => if (0 <? om_n_points m)%nat then push (whole_fragment tm) st else st
       | Some plan => foldl (plan_seg_step tm) st plan
       end.

Definition plan_legacy_step (st : list (list PlannedFragment) * list PlannedFragment) (tm : TimedMeta) :=
  let m := meta (tm_idx tm) in
  if mostly_parked_legacy_core (om_raw_park_count m) (om_raw_frame_count m)
       (om_gear_states_park_count m) (om_gear_states_len m)
  then close st else push (whole_fragment tm) st.

Definition plan_split_legacy (group : list TimedMeta) : list (list PlannedFragment) :=
  if (length group <=? 1)%nat then [whole_fragment <$> group]
  else if negb (existsb (fun t => (0 <? om_gear_states_len (meta (tm_idx t)))%nat) group)
  then [whole_fragment <$> group]
  else fst (close (foldl plan_legacy_step ([], []) group)).

Definition plan_split_by_gear (group : list TimedMeta) : list (list PlannedFragment) :=
  if is_empty group then []
  else if negb (existsb (fun t => negb (is_empty (om_gear_runs (meta (tm_idx t))))) group)
  then plan_split_legacy group
  else
    let result := fst (close (foldl plan_gear_step ([], []) group)) in
    if is_empty result then [whole_fragment <$> group] else result.

Definition plan_split_by_signature (group : list PlannedFragment) : list (list PlannedFragment) :=
  split_by_signature (fun f => om_external_signature (meta (pf_meta_idx f))) group.

Definition plan_overviews : list (list PlannedFragment) :=
  let '(_, timed, events) := foldl plan_partition_step ([], [], []) (imap (fun i m => (i, m)) metas) in
  let timed := sort_by_key tm_ts timed in
  let timed := plan_fill_gaps timed events in
  if is_empty timed then []
  else
    let timed := plan_set_spans timed in
    mbind (fun tg => mbind plan_split_by_signature (plan_split_by_gear tg))
      (time_groups tm_ts timed).
End planner.
End grouping.

(** ** Map overviews *)

Record RouteOverview := mkOverview {
  ov_id : Z; ov_points : list GpsPoint; ov_source : option str; ov_start_time : str;
}.

Definition downsample (points : list GpsPoint) (max_points : nat) : list GpsPoint :=
  if (length points <=? max_points)%nat then points
  else
    let step := F64.div (F64.of_Z (Z.of_nat (length points))) (F64.of_Z (Z.of_nat max_points)) in
    ((fun i => nth (Z.to_nat (F64.to_usize (F64.mul (F64.of_Z (Z.of_nat i)) step))) points (0, 0))
       <$> seq 0 max_points)
    ++ [List.last points (0, 0)].

Section overviews.
Context (L : libm) (format_ts : Z -> str).

Definition far (p q : GpsPoint) : bool :=
  F64.lt MAX_JUMP_M (geodesic_m L (fst p) (snd p) (fst q) (snd q)).

(** Does point [i] of [pts] jump away from its neighbours? *)
Definition jump_at (pts : list GpsPoint) (i : nat) : bool :=
  let n := length pts in
  let at_ k := nth k pts (0, 0) in
  let has_prev := (0 <? i)%nat in
  let has_next := (i <? n - 1)%nat in
  let far_from_prev := has_prev && far (at_ (i - 1)%nat) (at_ i) in
  let far_from_next := has_next && far (at_ i) (at_ (i + 1)%nat) in
  (has_prev && has_next && far_from_prev && far_from_next)
  || (negb has_prev && far_from_next) || (negb has_next && far_from_prev).

Definition overview_filter_points (pts : list GpsPoint) : list GpsPoint :=
  let pts :=
    if (2 <? length pts)%nat then
      let q1 := (length pts / 4)%nat in
      let q3 := (length pts * 3 / 4)%nat in
      let count := F64.of_Z (Z.of_nat (q3 - q1 + 1)) in
      let mid := slice pts q1 (q3 + 1) in
      let sum_lat := foldl (fun s p => F64.add s (fst p)) F64.zero mid in
      let sum_lng := foldl (fun s p => F64.add s (snd p)) F64.zero mid in
      let med_lat := F64.div sum_lat count in
      let med_lng := F64.div sum_lng count in
      filter (fun p => F64.le (geodesic_m L (fst p) (snd p) med_lat med_lng) MAX_FROM_MEDIAN_M = true) pts
    else pts in
  if (2 <? length pts)%nat then
    fst <$> filter (fun pi => jump_at pts (snd pi) = false) (imap (fun i p => (p, i)) pts)
  else pts.

Definition not_null_island (pts : list GpsPoint) : list GpsPoint :=
  filter (fun p => is_null_island (fst p) (snd p) = false) pts.

Definition group_overview (idx : nat) (clips : list TimedRoute) (max_points : nat) : RouteOverview :=
  let pts := mbind (fun c => not_null_island (rt_points (tr_route c))) clips in
  mkOverview (i32 (Z.of_nat idx)) (downsample (overview_filter_points pts) max_points)
    (head clips ≫= fun c => rt_source (tr_route c))
    (match head clips with Some c => format_ts (tr_timestamp c) | None => [] end).

Definition group_routes_overview parse_iso hash_order (routes : list Route) (max_points : nat)
  : list RouteOverview :=
  imap (fun idx clips => group_overview idx clips max_points) (group_clips parse_iso hash_order routes).

(** [points_for] is the caller's decoder; a failed decode is the error. *)
Fixpoint collect_points {E} (points_for : nat -> result E (list GpsPoint))
    (fragments : list PlannedFragment) (pts : list GpsPoint) : result E (list GpsPoint) :=
  match fragments with
  | [] => Ok pts
  | f :: rest =>
      let? all := points_for (pf_meta_idx f) in
      let end_ := Nat.min (pf_end f) (length all) in
      let start := Nat.min (pf_start f) end_ in
      collect_points points_for rest (pts ++ not_null_island (slice all start end_))
  end.

Definition overview_from_fragments {E} (metas : list OverviewClipMeta) (id : Z)
    (fragments : list PlannedFragment) (points_for : nat -> result E (list GpsPoint))
    (max_points : nat) : result E RouteOverview :=
  let? pts := collect_points points_for fragments [] in
  Ok (mkOverview id (downsample (overview_filter_points pts) max_points)
        (head fragments ≫= fun f => om_source (meta metas (pf_meta_idx f)))
        (match head fragments with Some f => format_ts (pf_timestamp f) | None => [] end)).
End overviews.

(** ** Hiding imported duplicates *)

Section hide.
Context {D : Type} (parse_iso_seconds : str -> option Z).
Context (d_source : D -> option str) (d_start_time d_end_time : D -> str).

Definition is_tessie (source : option str) : bool := bool_decide (source = Some (lit "tessie")).

Definition drive_range (d : D) : option (Z * Z) :=
  s ← parse_iso_seconds (d_start_time d); e ← parse_iso_seconds (d_end_time d); Some (s, e).

Fixpoint overlaps_any (ranges : list (Z * Z)) (ts te : Z) : bool :=
  match ranges with
  | [] => false
  | (rs, re) :: rest =>
      if re <=? ts then overlaps_any rest ts te
      else if te <=? rs then false
      else true
  end.

Definition hide_tessie_overlapping_sei (summaries : list D) : list D :=
  let sei_ranges := omap (fun d => if is_tessie (d_source d) then None else drive_range d) summaries in
  if is_empty sei_ranges then summaries
  else
    let sei_ranges := sort_by_key fst sei_ranges in
    filter (fun d => negb (is_tessie (d_source d))
                     || match drive_range d with
                        | None => true
                        | Some (ts, te) => negb (overlaps_any sei_ranges ts te)
                        end = true) summaries.
End hide.
