(* ===== verification/GrouperSpec.v ===== *)
(** * Drive grouping: park gaps, time groups and the overview planner

    The planner over metadata computes the same drives as the grouping of full
    routes; planned ranges never leave the point array; the frame clock of a
    clip telescopes; time groups break exactly at gaps over five minutes. *)

From Stdlib Require Import ZArith Lia.
From stdpp Require Import base list sorting sets.
From S2P Require Import Prelude Float Types Str GapFill Calc Grouper.

Open Scope Z_scope.

(** ** Park-gap plans *)

Lemma plan_seg_range total span n seg ps :
  plan_seg total span n seg = Some ps ->
  ps_parked ps = rs_parked seg
  /\ (ps_parked ps = false -> (ps_start ps < ps_end ps <= n)%nat
      /\ ps_offset_ms ps = frame_offset_ms (rs_start seg) total span
      /\ ps_span_ms ps = frame_span_ms (rs_start seg) (rs_end seg) total span).
Proof.
  unfold plan_seg. destruct (rs_parked seg) eqn:Ep; [by intros [= <-]|]. cbv zeta.
  set (e0 := F64.to_usize _). set (s0 := F64.to_usize _).
  set (s := if Z.of_nat n <=? s0 then u_sat_sub (Z.of_nat n) 1 else s0).
  set (e1 := if Z.of_nat n <? e0 then Z.of_nat n else e0).
  set (e := if e1 <=? s then s + 1 else e1).
  assert (0 <= s0) as Hs0.
  { unfold s0, F64.to_usize, fto_Z. repeat case_match; unfold U64_MAX; lia. }
  assert (0 <= s) by (unfold s, u_sat_sub; destruct (_ <=? _); lia).
  assert (s < e) by (unfold e; destruct (Z.leb_spec e1 s); lia).
  destruct (Z.ltb_spec (Z.of_nat n) e); [done|]. intros [= <-]. simpl.
  split; [done|]. intros _. split; [lia|done].
Qed.

Lemma plan_ranges gear_runs n span plan ps :
  plan_clip_at_park_gaps gear_runs n span = Some plan -> ps ∈ plan -> ps_parked ps = false ->
  (ps_start ps < ps_end ps <= n)%nat.
Proof.
  unfold plan_clip_at_park_gaps. destruct (_ =? 0); [done|]. destruct (negb _); [done|].
  intros [= <-] (seg & _ & Hseg)%list_elem_of_omap Hp.
  apply plan_seg_range in Hseg as [_ H]. by apply H.
Qed.

(** ** Naturality of the shared list passes *)

Section natural.
Context {A B : Type} (f : A -> B).
Local Notation fl := (fmap (M := list) f).

Definition map_st (st : list (list A) * list A) : list (list B) * list B :=
  (fl <$> fst st, fl (snd st)).

Lemma close_map st : close (map_st st) = map_st (close st).
Proof. destruct st as [a [|x b]]; [done|]. unfold close, map_st. cbn [fst snd]. by rewrite fmap_app. Qed.

Lemma push_map x st : push (f x) (map_st st) = map_st (push x st).
Proof. destruct st as [a b]. unfold push, map_st. cbn [fst snd]. by rewrite fmap_app. Qed.

Lemma last_fmap' l : last (f <$> l) = f <$> last l.
Proof. apply fmap_last. Qed.

Lemma time_groups_map (tsA : A -> Z) (tsB : B -> Z) l :
  (forall x, tsB (f x) = tsA x) ->
  time_groups tsB (f <$> l) = fl <$> time_groups tsA l.
Proof.
  intros Hts. destruct l as [|x l]; [done|]. cbn [fmap list_fmap time_groups].
  change ([], [f x]) with (map_st ([], [x])).
  assert (forall st, foldl (gap_step tsB) (map_st st) (f <$> l) = map_st (foldl (gap_step tsA) st l)) as H.
  { induction l as [|y l IH]; intros st; [done|]. cbn [fmap list_fmap foldl].
    rewrite <- IH. f_equal. unfold gap_step.
    assert (last (snd (map_st st)) = f <$> last (snd st)) as -> by apply last_fmap'.
    destruct (last (snd st)) as [p|]; cbn [fmap option_fmap option_map]; rewrite ?Hts;
      [destruct (_ <? _)|]; by rewrite ?close_map, ?push_map. }
  rewrite H, close_map. done.
Qed.

Lemma bucket_push_map s x (bs : list (str * list A)) :
  bucket_push s (f x) (prod_map id fl <$> bs) = prod_map id fl <$> bucket_push s x bs.
Proof.
  induction bs as [|[k b] t IH]; [done|]. csimpl. destruct (bool_decide _); csimpl.
  - unfold prod_map. cbn [fst snd id]. by rewrite fmap_app.
  - by rewrite IH.
Qed.

Lemma bucket_get_map s (bs : list (str * list A)) :
  bucket_get s (prod_map id fl <$> bs) = f <$> bucket_get s bs.
Proof. induction bs as [|[k b] t IH]; [done|]. csimpl. by destruct (bool_decide _). Qed.

Lemma is_empty_fmap {C D} (g : C -> D) l : is_empty (g <$> l) = is_empty l.
Proof. by destruct l. Qed.

Lemma split_by_signature_map hash_order (sig : B -> option str) l :
  split_by_signature hash_order sig (f <$> l)
  = fl <$> split_by_signature hash_order (fun x => sig (f x)) l.
Proof.
  unfold split_by_signature. rewrite length_fmap.
  destruct (length l <=? 1)%nat; [done|].
  assert (existsb (fun x => bool_decide (is_Some (sig x))) (f <$> l)
          = existsb (fun x => bool_decide (is_Some (sig (f x)))) l) as ->.
  { induction l as [|y t IH]; csimpl; [done|]. by rewrite IH. }
  destruct (negb _); [done|].
  assert (forall st, foldl (sig_step sig) (f <$> fst st, prod_map id fl <$> snd st) (f <$> l)
    = prod_map fl (fmap (prod_map id fl)) (foldl (sig_step (fun x => sig (f x))) st l)) as H.
  { induction l as [|y t IH]; intros [a b]; [done|]. cbn [fmap list_fmap foldl fst snd].
    rewrite <- IH. f_equal. unfold sig_step. cbn [fst snd]. destruct (sig (f y)).
    - cbn [fst snd]. f_equal. apply bucket_push_map.
    - cbn [fst snd]. by rewrite fmap_app. }
  specialize (H ([], [])). cbn [fst snd] in H. rewrite !fmap_nil in H. rewrite H.
  destruct (foldl (sig_step (fun x => sig (f x))) ([], []) l) as [ns bs].
  unfold prod_map. cbn [fst snd]. rewrite is_empty_fmap, fmap_app. f_equal; [by destruct ns|].
  rewrite <- !list_fmap_compose.
  replace (fst ∘ (fun p : str * list A => (id p.1, f <$> p.2))) with (fst : str * list A -> str) by done.
  apply list_fmap_ext. intros i k _. apply (bucket_get_map k bs).
Qed.
End natural.

(** ** The planner refines the grouping *)

Lemma imap_fmap_shift {A B C} (g : A -> B) (f : nat -> B -> C) (l : list A) :
  imap f (g <$> l) = imap (fun i x => f i (g x)) l.
Proof.
  revert f. induction l as [|x t IH]; intros f; [done|]. rewrite fmap_cons, !imap_cons. f_equal. apply IH.
Qed.

Lemma omap_fmap' {A B C} (g : A -> B) (f : B -> option C) (l : list A) : omap f (g <$> l) = omap (fun x => f (g x)) l.
Proof. induction l as [|x t IH]; csimpl; [done|]. by rewrite IH. Qed.

Lemma fmap_omap' {A B C} (g : B -> C) (f : A -> option B) (l : list A) :
  g <$> omap f l = omap (fun x => g <$> f x) l.
Proof. induction l as [|x t IH]; csimpl; [done|]. destruct (f x); csimpl; by rewrite IH. Qed.

Section refinement.
Context (parse_iso : str -> option Z) (hash_order : list str -> list str) (routes : list Route).
Local Notation metas := (from_route <$> routes).

Definition route (i : nat) : Route := nth i routes route_empty.
Definition to_route (tm : TimedMeta) : TimedRoute :=
  mkTimed (route (tm_idx tm)) (tm_ts tm) (tm_clip_span_ms tm).

Lemma meta_route i : meta metas i = from_route (route i).
Proof. unfold meta, route, meta0. apply (map_nth from_route). Qed.

(** What a drive is made of: points, timestamp, source and signature per
    fragment. *)
Definition view : Type := list GpsPoint * Z * option str * option str.
Definition view_route (t : TimedRoute) : view :=
  (rt_points (tr_route t), tr_timestamp t, rt_source (tr_route t), rt_external_signature (tr_route t)).
Definition view_fragment (f : PlannedFragment) : view :=
  let r := route (pf_meta_idx f) in
  (slice (rt_points r) (pf_start f) (pf_end f), pf_timestamp f, rt_source r, rt_external_signature r).

Lemma slice_whole {A} (l : list A) : slice l 0 (length l) = l.
Proof. unfold slice. by rewrite drop_0, Nat.sub_0_r, firstn_all. Qed.

Lemma view_whole tm : view_fragment (whole_fragment metas tm) = view_route (to_route tm).
Proof.
  unfold view_fragment, view_route, whole_fragment. cbn -[slice meta]. rewrite meta_route.
  cbn -[slice]. by rewrite slice_whole.
Qed.

Lemma partition_refines :
  let r := foldl partition_step ([], [], []) routes in
  let p := foldl (plan_partition_step parse_iso) ([], [], []) (imap (fun i m => (i, m)) metas) in
  fst (fst p) = fst (fst r)
  /\ to_route <$> snd (fst p) = omap (timed_of parse_iso) (snd (fst r))
  /\ route <$> snd p = snd r.
Proof.
  rewrite imap_fmap_shift.
  assert (forall rest n st sp,
    (forall i x, rest !! i = Some x -> route (n + i) = x) ->
    fst (fst sp) = fst (fst st) -> to_route <$> snd (fst sp) = omap (timed_of parse_iso) (snd (fst st)) ->
    route <$> snd sp = snd st ->
    let r := foldl partition_step st rest in
    let p := foldl (plan_partition_step parse_iso) sp (imap (fun i x => ((n + i)%nat, from_route x)) rest) in
    fst (fst p) = fst (fst r) /\ to_route <$> snd (fst p) = omap (timed_of parse_iso) (snd (fst r))
    /\ route <$> snd p = snd r) as H.
  { induction rest as [|x rest IH]; intros n st sp Hr H1 H2 H3; [done|].
    rewrite imap_cons. cbn [foldl].
    assert (imap ((fun i y => ((n + i)%nat, from_route y)) ∘ S) rest
            = imap (fun i y => ((S n + i)%nat, from_route y)) rest) as ->.
    { apply imap_ext. intros i y _. cbn. f_equal. lia. }
    assert (route n = x) as Hx by (rewrite <- (Hr 0%nat x eq_refl); f_equal; lia).
    destruct st as [[seen unique] events], sp as [[seen' timed] idxs]. cbn [fst snd] in H1, H2, H3.
    subst seen'. apply IH.
    - intros i y Hi. rewrite <- (Hr (S i) y Hi). f_equal. lia.
    - unfold partition_step, plan_partition_step. cbn [fst snd from_route om_file].
      destruct (bool_decide _); [done|]. destruct (is_event_folder_path _); [done|].
      by destruct (parse_clip_timestamp parse_iso (rt_file x)).
    - unfold partition_step, plan_partition_step. cbn [fst snd from_route om_file].
      destruct (bool_decide _); [done|]. destruct (is_event_folder_path _); [done|].
      cbn [fst snd]. rewrite omap_app. cbn [omap list_omap]. unfold timed_of at 2.
      destruct (parse_clip_timestamp parse_iso (rt_file x)); cbn [fst snd fmap option_fmap option_map].
      + rewrite fmap_app, H2. csimpl. unfold to_route at 1. cbn [tm_idx tm_ts tm_clip_span_ms].
        by rewrite Nat.add_0_r, Hx.
      + by rewrite app_nil_r.
    - unfold partition_step, plan_partition_step. cbn [fst snd from_route om_file].
      destruct (bool_decide _); [done|]. destruct (is_event_folder_path _).
      + cbn [fst snd]. rewrite fmap_app, H3. csimpl. by rewrite Nat.add_0_r, Hx.
      + by destruct (parse_clip_timestamp parse_iso (rt_file x)). }
  apply (H routes 0%nat ([], [], []) ([], [], [])); [|done..].
  intros i x Hi. unfold route. cbn. by apply nth_lookup_Some.
Qed.

Lemma meta_driving_route r : meta_driving (from_route r) = route_has_driving r.
Proof.
  unfold meta_driving, route_has_driving, telemetry_has_driving. cbn. f_equal.
  by destruct (rt_gear_states r).
Qed.

Lemma fill_gaps_refines timed events :
  to_route <$> plan_fill_gaps parse_iso metas timed events
  = fill_gaps parse_iso (to_route <$> timed) (route <$> events).
Proof.
  unfold plan_fill_gaps, fill_gaps. rewrite is_empty_fmap.
  destruct (is_empty events); [done|].
  rewrite <- list_fmap_compose. change (tr_timestamp ∘ to_route) with tm_ts.
  set (cp := omap (fun i => (fun ts => (ts, i)) <$> parse_clip_timestamp parse_iso (om_file (meta metas i))) events).
  set (cr := omap (fun r => (fun ts => (ts, r)) <$> parse_clip_timestamp parse_iso (rt_file r)) (route <$> events)).
  assert (cr = prod_map id route <$> cp) as Hcr.
  { unfold cr, cp. rewrite omap_fmap', fmap_omap'. apply list_omap_ext, Forall_Forall2_diag, Forall_forall.
    intros i _. rewrite meta_route. cbn. by destruct (parse_clip_timestamp _ _). }
  assert (route_candidate <$> cr = meta_candidate metas <$> cp) as ->.
  { rewrite Hcr, <- list_fmap_compose. apply list_fmap_ext. intros k [ts i] _.
    unfold route_candidate, meta_candidate. cbn. rewrite meta_route, meta_driving_route. cbn.
    unfold telemetry_gear_driving. cbn. by rewrite orb_false_r. }
  set (sel := select_gap_fill _ _).
  assert (to_route <$> omap (fun k => (fun c => mkTimedMeta (snd c) (fst c) CLIP_DURATION_MS) <$> cp !! k) sel
    = omap (fun i => (fun c => mkTimed (snd c) (fst c) CLIP_DURATION_MS) <$> cr !! i) sel) as Hadm.
  { rewrite fmap_omap'. apply list_omap_ext, Forall_Forall2_diag, Forall_forall. intros k _.
    rewrite Hcr, list_lookup_fmap. by destruct (cp !! k) as [[ts i]|]. }
  rewrite <- Hadm, is_empty_fmap. destruct (is_empty (omap _ sel)); [done|].
  rewrite <- fmap_app. apply sort_by_map. done.
Qed.

Lemma set_spans_refines timed :
  to_route <$> plan_set_spans metas timed = set_spans (to_route <$> timed).
Proof.
  unfold plan_set_spans, set_spans. rewrite <- list_fmap_compose.
  match goal with |- _ = zip_with _ _ (clip_spans ?e) => set (er := e) end.
  match goal with |- context [clip_spans ?e] => assert (e = er) as -> end.
  { apply list_fmap_ext. intros k t _. cbn. by rewrite meta_route. }
  generalize (clip_spans er). clear er. induction timed as [|t ts IH]; intros spans; [done|].
  destruct spans as [|s spans]; [done|]. csimpl. by rewrite IH.
Qed.

Lemma plan_seg_step_refines tm plan : forall st sp,
  map_st view_route st = map_st view_fragment sp ->
  (forall ps, ps ∈ plan -> ps_parked ps = false ->
     (ps_start ps < ps_end ps <= length (rt_points (route (tm_idx tm))))%nat) ->
  map_st view_route (foldl seg_step st (cut_segment (to_route tm) <$> plan))
  = map_st view_fragment (foldl (plan_seg_step tm) sp plan).
Proof.
  induction plan as [|ps plan IH]; intros st sp Hst Hr; [done|].
  rewrite fmap_cons. cbn [foldl]. apply IH; [|set_solver].
  unfold seg_step, plan_seg_step, cut_segment. destruct (ps_parked ps) eqn:Ep; cbn [cs_parked cs_route].
  - by rewrite <- !close_map, Hst.
  - specialize (Hr ps ltac:(set_solver) Ep). cbn [tr_route cut_route rt_points to_route].
    assert (is_empty (slice (rt_points (route (tm_idx tm))) (ps_start ps) (ps_end ps)) = false) as ->.
    { pose proof (length_slice (rt_points (route (tm_idx tm))) (ps_start ps) (ps_end ps)
        ltac:(lia) ltac:(lia)). destruct (slice _ _ _); [simpl in *; lia|done]. }
    by rewrite <- !push_map, Hst.
Qed.

Lemma gear_step_refines tm st sp :
  map_st view_route st = map_st view_fragment sp ->
  map_st view_route (gear_step st (to_route tm))
  = map_st view_fragment (plan_gear_step metas sp tm).
Proof.
  intros Hst. unfold gear_step, plan_gear_step. rewrite meta_route.
  cbn [to_route tr_route from_route om_gear_runs om_n_points].
  destruct (is_empty (rt_gear_runs (route (tm_idx tm)))).
  { by rewrite <- !push_map, view_whole, Hst. }
  unfold split_clip_at_park_gaps. cbn [to_route tr_route tr_clip_span_ms].
  destruct (plan_clip_at_park_gaps _ _ _) as [plan|] eqn:Ep.
  - apply plan_seg_step_refines; [done|]. intros ps. by apply (plan_ranges _ _ _ _ _ Ep).
  - cbn [foldl]. unfold seg_step. cbn [cs_parked cs_route to_route tr_route].
    destruct (rt_points (route (tm_idx tm))) eqn:Er; [done|]. cbn [is_empty length Nat.ltb Nat.leb].
    by rewrite <- !push_map, view_whole, Hst.
Qed.

Lemma legacy_step_refines tm st sp :
  map_st view_route st = map_st view_fragment sp ->
  map_st view_route (legacy_step st (to_route tm))
  = map_st view_fragment (plan_legacy_step metas sp tm).
Proof.
  intros Hst. unfold legacy_step, plan_legacy_step, clip_is_mostly_parked_legacy.
  rewrite meta_route. cbn [to_route tr_route from_route om_raw_park_count om_raw_frame_count
    om_gear_states_park_count om_gear_states_len].
  destruct (mostly_parked_legacy_core _ _ _ _).
  - by rewrite <- !close_map, Hst.
  - by rewrite <- !push_map, view_whole, Hst.
Qed.

(** A simulation between two state-folding passes over the same clips. *)
Lemma foldl_refines (stepR : _ -> TimedRoute -> _) (stepF : _ -> TimedMeta -> _) group :
  (forall tm st sp, map_st view_route st = map_st view_fragment sp ->
     map_st view_route (stepR st (to_route tm)) = map_st view_fragment (stepF sp tm)) ->
  forall st sp, map_st view_route st = map_st view_fragment sp ->
  map_st view_route (foldl stepR st (to_route <$> group)) = map_st view_fragment (foldl stepF sp group).
Proof. intros Hstep. induction group as [|t g IH]; intros st sp Hst; [done|]. csimpl. by apply IH, Hstep. Qed.

Lemma views_whole (group : list TimedMeta) :
  view_fragment <$> (whole_fragment metas <$> group) = view_route <$> (to_route <$> group).
Proof. rewrite <- !list_fmap_compose. apply list_fmap_ext. intros i t _. apply view_whole. Qed.

Lemma existsb_fmap {A B} (g : A -> B) (p : B -> bool) (l : list A) : existsb p (g <$> l) = existsb (fun x => p (g x)) l.
Proof. induction l as [|x t IH]; csimpl; [done|]. by rewrite IH. Qed.

Lemma existsb_ext' {A} (p q : A -> bool) l : (forall x, p x = q x) -> existsb p l = existsb q l.
Proof. intros H. induction l as [|x t IH]; simpl; [done|]. by rewrite H, IH. Qed.

Lemma split_gear_refines (group : list TimedMeta) :
  fmap (M := list) view_route <$> split_by_gear_state (to_route <$> group)
  = fmap (M := list) view_fragment <$> plan_split_by_gear metas group.
Proof.
  unfold split_by_gear_state, plan_split_by_gear. rewrite is_empty_fmap.
  destruct (is_empty group); [done|]. rewrite existsb_fmap.
  rewrite (existsb_ext' (fun x => negb (is_empty (rt_gear_runs (tr_route (to_route x)))))
             (fun t => negb (is_empty (om_gear_runs (meta metas (tm_idx t))))))
    by (intros t; by rewrite meta_route).
  destruct (existsb _ group); cbn [negb].
  - pose proof (foldl_refines gear_step (plan_gear_step metas) group gear_step_refines ([], []) ([], []) eq_refl) as H.
    apply (f_equal close) in H. rewrite !close_map in H. apply (f_equal fst) in H. cbn [map_st fst] in H.
    assert (is_empty (fst (close (foldl gear_step ([], []) (to_route <$> group))))
            = is_empty (fst (close (foldl (plan_gear_step metas) ([], []) group)))) as ->.
    { rewrite <- (is_empty_fmap (fmap (M := list) view_route)), H. apply is_empty_fmap. }
    destruct (is_empty _); [|done]. csimpl. by rewrite views_whole.
  - unfold split_by_gear_state_legacy, plan_split_legacy. rewrite length_fmap.
    destruct (length group <=? 1)%nat; [csimpl; by rewrite views_whole|]. rewrite existsb_fmap.
    rewrite (existsb_ext' (fun x => negb (is_empty (rt_gear_states (tr_route (to_route x)))))
               (fun t => (0 <? om_gear_states_len (meta metas (tm_idx t)))%nat))
      by (intros t; rewrite meta_route; cbn; by destruct (rt_gear_states _)).
    destruct (negb _); [csimpl; by rewrite views_whole|].
    pose proof (foldl_refines legacy_step (plan_legacy_step metas) group legacy_step_refines ([], []) ([], []) eq_refl) as H.
    apply (f_equal close) in H. rewrite !close_map in H. by apply (f_equal fst) in H.
Qed.

Definition view_sig (v : view) : option str := snd v.

Lemma group_refines (tg : list TimedMeta) :
  fmap (M := list) view_route <$> mbind (split_by_external_signature hash_order) (split_by_gear_state (to_route <$> tg))
  = fmap (M := list) view_fragment <$> mbind (plan_split_by_signature hash_order metas) (plan_split_by_gear metas tg).
Proof.
  assert (forall gs : list (list TimedRoute),
    fmap (M := list) view_route <$> mbind (split_by_external_signature hash_order) gs
    = mbind (split_by_signature hash_order view_sig) (fmap (M := list) view_route <$> gs)) as H1.
  { induction gs as [|g gs IH]; [done|]. csimpl. rewrite fmap_app, IH. f_equal.
    by rewrite (split_by_signature_map view_route hash_order view_sig). }
  assert (forall gs : list (list PlannedFragment),
    fmap (M := list) view_fragment <$> mbind (plan_split_by_signature hash_order metas) gs
    = mbind (split_by_signature hash_order view_sig) (fmap (M := list) view_fragment <$> gs)) as H2.
  { induction gs as [|g gs IH]; [done|]. csimpl. rewrite fmap_app, IH. f_equal.
    rewrite split_by_signature_map. unfold plan_split_by_signature, view_sig. f_equal.
    unfold split_by_signature. destruct (_ <=? 1)%nat; [done|].
    assert (forall f, om_external_signature (meta metas (pf_meta_idx f)) = snd (view_fragment f)) as Hs
      by (intros f; by rewrite meta_route).
    rewrite (existsb_ext' _ (fun x => bool_decide (is_Some (snd (view_fragment x)))))
      by (intros f; by rewrite Hs).
    destruct (negb _); [done|].
    assert (foldl (sig_step (fun f => om_external_signature (meta metas (pf_meta_idx f)))) ([], []) g
            = foldl (sig_step (fun f => snd (view_fragment f))) ([], []) g) as ->; [|done].
    generalize (@nil PlannedFragment, @nil (str * list PlannedFragment)).
    induction g as [|f g IHg]; intros st; [done|]. cbn [foldl]. unfold sig_step at 2 4. by rewrite Hs. }
  by rewrite H1, H2, split_gear_refines.
Qed.

Lemma length_clip_spans entries : length (clip_spans entries) = length entries.
Proof.
  unfold clip_spans. etrans; [|apply (length_replicate (length entries) CLIP_DURATION_MS)].
  generalize (replicate (length entries) CLIP_DURATION_MS).
  match goal with |- context [foldl _ _ ?ws] => generalize ws end.
  induction l as [|w l IH]; intros spans; [done|]. cbn [foldl]. rewrite IH.
  destruct (_ && _); [apply length_insert|done].
Qed.

Lemma is_empty_set_spans timed :
  is_empty (set_spans (to_route <$> timed)) = is_empty timed.
Proof.
  unfold set_spans. set (sp := clip_spans _).
  assert (length sp = length timed) as Hl by (unfold sp; by rewrite length_clip_spans, !length_fmap).
  destruct timed as [|t ts], sp as [|s ss]; try done.
Qed.

Lemma mbind_fmap_comm {A B C D} (f : A -> list B) (g : B -> D) (h : C -> A) (l : list C) :
  g <$> mbind f (h <$> l) = mbind (fun x => g <$> f (h x)) l.
Proof. induction l as [|x t IH]; [done|]. csimpl. by rewrite fmap_app, IH. Qed.

Lemma plan_refines :
  fmap (M := list) view_route <$> group_clips parse_iso hash_order routes
  = fmap (M := list) view_fragment <$> plan_overviews parse_iso hash_order metas.
Proof.
  unfold group_clips, plan_overviews. destruct partition_refines as (_ & H2 & H3).
  destruct (is_empty routes) eqn:Ee.
  { destruct routes; [done|discriminate Ee]. }
  destruct (foldl partition_step _ _) as [[seen unique] events].
  destruct (foldl (plan_partition_step _) _ _) as [[seen' timed] idxs]. cbn [fst snd] in H2, H3.
  rewrite <- H2, <- H3, !is_empty_fmap.
  destruct (is_empty timed && is_empty idxs) eqn:E.
  { apply andb_true_iff in E as [E1 E2]. unfold plan_fill_gaps. rewrite E2.
    by destruct timed. }
  replace (sort_by_key tr_timestamp (to_route <$> timed)) with (to_route <$> sort_by_key tm_ts timed)
    by (by apply sort_by_map).
  rewrite <- fill_gaps_refines, is_empty_set_spans.
  destruct (is_empty (plan_fill_gaps _ _ _ _)); [done|].
  rewrite <- set_spans_refines.
  rewrite (time_groups_map to_route tm_ts tr_timestamp) by done.
  rewrite mbind_fmap_comm.
  generalize (time_groups tm_ts (plan_set_spans metas (plan_fill_gaps parse_iso metas (sort_by_key tm_ts timed) idxs))).
  induction l as [|g gs IH]; [done|]. csimpl. by rewrite fmap_app, group_refines, IH.
Qed.

(** *** Rendering *)

Context (L : libm) (format_ts : Z -> str).

Lemma collect_points_spec {E} (points_for : nat -> result E (list GpsPoint)) fragments :
  (forall f, f ∈ fragments -> points_for (pf_meta_idx f) = Ok (rt_points (route (pf_meta_idx f)))) ->
  forall pts, collect_points points_for fragments pts
  = Ok (pts ++ mbind (fun v : view => not_null_island (fst (fst (fst v)))) (view_fragment <$> fragments)).
Proof.
  induction fragments as [|f fs IH]; intros Hp pts; cbn [collect_points]; [by rewrite app_nil_r|].
  rewrite (Hp f ltac:(set_solver)). cbn [rbind]. rewrite IH by set_solver. f_equal.
  csimpl. rewrite <- app_assoc. do 2 f_equal.
  set (all := rt_points (route (pf_meta_idx f))). f_equal. unfold slice.
  destruct (Nat.le_ge_cases (pf_end f) (length all)).
  - rewrite Nat.min_l by done. destruct (Nat.le_ge_cases (pf_start f) (pf_end f)).
    + by rewrite Nat.min_l by done.
    + rewrite Nat.min_r by done. rewrite Nat.sub_diag. replace (pf_end f - pf_start f)%nat with 0%nat by lia.
      done.
  - rewrite (Nat.min_r (pf_end f)) by done. destruct (Nat.le_ge_cases (pf_start f) (length all)).
    + rewrite Nat.min_l by done. rewrite !take_ge; rewrite ?length_drop; done || lia.
    + rewrite Nat.min_r by done. rewrite Nat.sub_diag, take_0, (drop_ge all) by lia. by destruct (_ - _)%nat.
Qed.

(** The indexes of planned fragments are indexes of clips. *)
Lemma plan_dedup_idx :
  let p := foldl (plan_partition_step parse_iso) ([], [], []) (imap (fun i m => (i, m)) metas) in
  Forall (fun t => (tm_idx t < length routes)%nat) (snd (fst p))
  /\ Forall (fun i => (i < length routes)%nat) (snd p).
Proof.
  assert (forall l st, Forall (fun im => (fst im < length routes)%nat) l ->
    Forall (fun t => (tm_idx t < length routes)%nat) (snd (fst st)) ->
    Forall (fun i => (i < length routes)%nat) (snd st) ->
    let p := foldl (plan_partition_step parse_iso) st l in
    Forall (fun t => (tm_idx t < length routes)%nat) (snd (fst p))
    /\ Forall (fun i => (i < length routes)%nat) (snd p)) as H.
  { induction l as [|im l IH]; intros st Hl H1 H2; [done|].
    apply Forall_cons in Hl as [Hi Hl]. cbn [foldl]. apply IH; [done|..];
      destruct st as [[seen timed] events]; unfold plan_partition_step; cbn [fst snd] in *;
      (destruct (bool_decide _); [done|]; destruct (is_event_folder_path _);
       [|destruct (parse_clip_timestamp _ _)]; cbn [fst snd]; try done;
       apply Forall_app; split; [done|by apply Forall_singleton]). }
  apply H; [|constructor..]. apply Forall_forall.
  intros [i m] (k & x & [= -> ->] & Hk)%elem_of_lookup_imap. cbn [fst].
  apply lookup_lt_Some in Hk. by rewrite length_fmap in Hk.
Qed.

Lemma plan_fill_idx timed events :
  Forall (fun t => (tm_idx t < length routes)%nat) timed ->
  Forall (fun i => (i < length routes)%nat) events ->
  Forall (fun t => (tm_idx t < length routes)%nat) (plan_fill_gaps parse_iso metas timed events).
Proof.
  intros Ht He. unfold plan_fill_gaps. destruct (is_empty events); [done|].
  set (cands := omap _ events). destruct (is_empty (omap _ _)); [done|].
  unfold sort_by_key. rewrite sort_by_perm. apply Forall_app. split; [done|].
  apply Forall_forall. intros t (k & _ & Hk)%list_elem_of_omap.
  apply fmap_Some in Hk as ([ts i] & Hc & ->). cbn [tm_idx fst snd].
  apply list_elem_of_lookup_2, list_elem_of_omap in Hc as (j & Hj & Hc).
  apply fmap_Some in Hc as (? & _ & [= -> ->]). rewrite Forall_forall in He. by apply He.
Qed.

Lemma plan_spans_idx timed :
  Forall (fun t => (tm_idx t < length routes)%nat) timed ->
  Forall (fun t => (tm_idx t < length routes)%nat) (plan_set_spans metas timed).
Proof.
  intros Ht. unfold plan_set_spans. generalize (clip_spans ((λ t : TimedMeta,
    (tm_ts t, bounds_clip_span (om_source (meta metas (tm_idx t))) (om_file (meta metas (tm_idx t)))))
    <$> timed)).
  induction Ht as [|t ts Hx _ IH]; intros [|s ss]; cbn; constructor; auto.
Qed.
End refinement.

(** Every clip of a drive state satisfies [P]. *)
Definition all_st {A} (P : A -> Prop) (st : list (list A) * list A) : Prop :=
  Forall (Forall P) (fst st) /\ Forall P (snd st).

Lemma all_st_close {A} (P : A -> Prop) st : all_st P st -> all_st P (close st).
Proof.
  destruct st as [a [|x b]]; [done|]. intros [Ha Hb]. split; [|constructor]. cbn [close fst snd] in *.
  apply Forall_app. split; [done|]. by apply Forall_singleton.
Qed.

Lemma all_st_push {A} (P : A -> Prop) x st : P x -> all_st P st -> all_st P (push x st).
Proof.
  intros Hx [Ha Hb]. split; [done|]. cbn [push snd]. apply Forall_app. split; [done|].
  by apply Forall_singleton.
Qed.

Lemma foldl_inv {A B} (Inv : B -> Prop) (step : B -> A -> B) (l : list A) :
  (forall st x, x ∈ l -> Inv st -> Inv (step st x)) -> forall st, Inv st -> Inv (foldl step st l).
Proof.
  induction l as [|x l IH]; intros Hstep st Hst; [done|]. cbn [foldl].
  apply IH; [intros; apply Hstep; set_solver | apply Hstep; [set_solver|done]].
Qed.

Lemma time_groups_concat {A} (ts : A -> Z) l : concat (time_groups ts l) = l.
Proof.
  destruct l as [|x l]; [done|]. cbn [time_groups].
  assert (forall st : list (list A) * list A, concat (fst (close st)) = concat (fst st) ++ snd st) as Hc.
  { intros [a [|y b]]; [by rewrite app_nil_r|]. cbn [close fst snd]. rewrite concat_app. cbn [concat].
    by rewrite app_nil_r. }
  assert (forall st, concat (fst (close (foldl (gap_step ts) st l))) = concat (fst st) ++ snd st ++ l) as H.
  { induction l as [|y l IH]; intros st; cbn [foldl]; [by rewrite Hc, app_nil_r|].
    rewrite IH. unfold gap_step. destruct (last (snd st)) as [q|]; [destruct (_ <? _)|]; cbn [push fst snd].
    - rewrite Hc. destruct st as [a [|z b]]; cbn [close fst snd]; by rewrite <- ?app_assoc.
    - by rewrite <- app_assoc.
    - by rewrite <- app_assoc. }
  by rewrite H.
Qed.

Lemma plan_gear_idx metas (P : nat -> Prop) group :
  Forall (fun t => P (tm_idx t)) group ->
  Forall (Forall (fun f => P (pf_meta_idx f))) (plan_split_by_gear metas group).
Proof.
  intros Hg. rewrite Forall_forall in Hg.
  assert (forall t, t ∈ group -> P (pf_meta_idx (whole_fragment metas t))) as Hw by (intros; by apply Hg).
  assert (Forall (fun f => P (pf_meta_idx f)) (whole_fragment metas <$> group)) as Hwhole.
  { apply Forall_forall. intros f (t & -> & Ht)%list_elem_of_fmap. by apply Hw. }
  assert (forall step : _ -> TimedMeta -> _,
    (forall st t, t ∈ group -> all_st (fun f => P (pf_meta_idx f)) st ->
       all_st (fun f => P (pf_meta_idx f)) (step st t)) ->
    Forall (Forall (fun f => P (pf_meta_idx f))) (fst (close (foldl step ([], []) group)))) as Hfold.
  { intros step Hstep. apply all_st_close, foldl_inv; [done|]. split; constructor. }
  unfold plan_split_by_gear. destruct (is_empty group); [constructor|]. destruct (negb _).
  - unfold plan_split_legacy. destruct (_ <=? 1)%nat; [by apply Forall_singleton|].
    destruct (negb _); [by apply Forall_singleton|]. apply Hfold. intros st t Ht Hst.
    unfold plan_legacy_step. destruct (mostly_parked_legacy_core _ _ _ _);
      [by apply all_st_close | by apply all_st_push; [apply Hw|]].
  - destruct (is_empty _); [by apply Forall_singleton|]. apply Hfold. intros st t Ht Hst.
    unfold plan_gear_step. destruct (is_empty _); [by apply all_st_push; [apply Hw|]|].
    destruct (plan_clip_at_park_gaps _ _ _) as [plan|].
    + apply foldl_inv; [|done]. intros st' ps _ Hst'. unfold plan_seg_step.
      destruct (ps_parked ps); [by apply all_st_close|apply all_st_push; [by apply Hg|done]].
    + destruct (_ <? _)%nat; [by apply all_st_push; [apply Hw|]|done].
Qed.

(** *** Signatures *)

Lemma bucket_push_all {A} (P : A -> Prop) s x (bs : list (str * list A)) :
  P x -> Forall (fun kb => Forall P (snd kb)) bs ->
  Forall (fun kb => Forall P (snd kb)) (bucket_push s x bs).
Proof.
  intros Hx. induction 1 as [|[k b] t Hb Ht IH]; cbn [bucket_push].
  - apply Forall_singleton. by apply Forall_singleton.
  - destruct (bool_decide _); constructor; auto. cbn [snd] in *. apply Forall_app.
    split; [done|]. by apply Forall_singleton.
Qed.

Lemma bucket_get_all {A} (P : A -> Prop) s (bs : list (str * list A)) :
  Forall (fun kb => Forall P (snd kb)) bs -> Forall P (bucket_get s bs).
Proof. induction 1 as [|[k b] t Hb Ht IH]; cbn; [constructor|]. by destruct (bool_decide _). Qed.

Lemma split_signature_all {A} hash_order (sig : A -> option str) (P : A -> Prop) l :
  Forall P l -> Forall (Forall P) (split_by_signature hash_order sig l).
Proof.
  intros Hl. unfold split_by_signature. destruct (_ <=? 1)%nat; [by apply Forall_singleton|].
  destruct (negb _); [by apply Forall_singleton|].
  assert (let r := foldl (sig_step sig) ([], []) l in
    Forall P (fst r) /\ Forall (fun kb => Forall P (snd kb)) (snd r)) as [H1 H2].
  { apply (foldl_inv (fun r => Forall P (fst r) /\ Forall (fun kb => Forall P (snd kb)) (snd r)));
      [|split; constructor].
    rewrite Forall_forall in Hl. intros [ns bs] x Hx [Hn Hb]. unfold sig_step. cbn [fst snd] in *.
    destruct (sig x); cbn [fst snd]; (split; [try done|try done]).
    - apply bucket_push_all; auto.
    - apply Forall_app. split; [done|]. apply Forall_singleton. auto. }
  destruct (foldl (sig_step sig) ([], []) l) as [ns bs]. cbn [fst snd] in *.
  apply Forall_app. split; [destruct ns; cbn [is_empty]; [constructor | by apply Forall_singleton]|].
  apply Forall_forall. intros g (k & -> & _)%list_elem_of_fmap. by apply bucket_get_all.
Qed.

Lemma plan_idx parse_iso hash_order routes :
  Forall (Forall (fun f => (pf_meta_idx f < length routes)%nat))
    (plan_overviews parse_iso hash_order (from_route <$> routes)).
Proof.
  unfold plan_overviews. destruct (plan_dedup_idx parse_iso routes) as [H1 H2].
  destruct (foldl (plan_partition_step _) _ _) as [[seen timed] events]. cbn [fst snd] in H1, H2.
  assert (Forall (fun t => (tm_idx t < length routes)%nat) (sort_by_key tm_ts timed)) as H1'.
  { unfold sort_by_key. by rewrite sort_by_perm. }
  pose proof (plan_fill_idx parse_iso routes _ _ H1' H2) as H3.
  destruct (is_empty _); [constructor|]. apply plan_spans_idx in H3.
  rewrite <- (time_groups_concat tm_ts) in H3.
  revert H3. generalize (time_groups tm_ts (plan_set_spans (from_route <$> routes)
    (plan_fill_gaps parse_iso (from_route <$> routes) (sort_by_key tm_ts timed) events))).
  induction l as [|g gs IH]; intros Hg; [constructor|]. csimpl in *.
  apply Forall_app in Hg as [Hg Hgs]. apply Forall_app. split; [|by apply IH].
  apply (plan_gear_idx (from_route <$> routes) (fun i => (i < length routes)%nat)) in Hg.
  clear IH Hgs. induction Hg as [|x xs Hx _ IH]; [constructor|]. csimpl.
  apply Forall_app. split; [by apply split_signature_all|done].
Qed.

(** C1: The streaming map builder is equivalent to the in-memory one: planning
    drives from metadata alone and then rendering each planned drive, with any
    decoder that yields the clips' points, never fails and gives exactly the
    overviews of grouping the full routes, for every timestamp parser, hash
    iteration order (a function of the keys, the same on both sides) and
    distance function. *)
Theorem plan_overviews_refines {E} parse_iso hash_order (L : libm) format_ts
    (points_for : nat -> result E (list GpsPoint)) (routes : list Route) max_points :
  (forall i r, routes !! i = Some r -> points_for i = Ok (rt_points r)) ->
  imap (fun idx drive => overview_from_fragments L format_ts (from_route <$> routes)
                           (i32 (Z.of_nat idx)) drive points_for max_points)
    (plan_overviews parse_iso hash_order (from_route <$> routes))
  = Ok <$> group_routes_overview L format_ts parse_iso hash_order routes max_points.
Proof.
  intros Hp. unfold group_routes_overview.
  pose proof (plan_refines parse_iso hash_order routes) as Hv.
  pose proof (plan_idx parse_iso hash_order routes) as Hi. rewrite Forall_forall in Hi.
  apply list_eq. intros k. rewrite list_lookup_fmap, !list_lookup_imap.
  apply (f_equal (lookup k)) in Hv. rewrite !list_lookup_fmap in Hv.
  destruct (plan_overviews _ _ _ !! k) as [drive|] eqn:Ed, (group_clips _ _ _ !! k) as [clips|];
    cbn in Hv |- *; try done.
  injection Hv as Hv. do 2 f_equal. unfold overview_from_fragments, group_overview.
  apply list_elem_of_lookup_2, Hi in Ed. rewrite Forall_forall in Ed.
  rewrite (collect_points_spec routes points_for drive), <- Hv.
  2: { intros f Hf. destruct (lookup_lt_is_Some_2 routes (pf_meta_idx f)) as [r Hr]; [by apply Ed|].
       rewrite (Hp _ r Hr). unfold route. by rewrite (nth_lookup_Some _ _ _ _ Hr). }
  cbn [rbind app]. do 2 f_equal.
  - do 2 f_equal. clear. induction clips as [|c cs IH]; [done|]. csimpl. by rewrite IH.
  - apply (f_equal head) in Hv. destruct drive as [|f fs], clips as [|c cs]; try done.
    injection Hv as H1 H2 H3 H4. cbn. by rewrite meta_route, H3.
  - apply (f_equal head) in Hv. destruct drive as [|f fs], clips as [|c cs]; try done.
    injection Hv as H1 H2 H3 H4. cbn. by rewrite H2.
Qed.

(** Two clips of one minute, the first with a long stop in its middle. *)
Definition demo_parse (iso : str) : option Z :=
  let d i := nth i iso 48 - 48 in
  Some ((((d 11%nat * 10 + d 12%nat) * 60 + d 14%nat * 10 + d 15%nat) * 60
         + d 17%nat * 10 + d 18%nat) * 1000).
Definition demo_libm : libm := mkLibm id id id id (fun a _ => a) id.
Definition demo_route (file : str) (runs : list GearRun) : Route :=
  mkRoute file [] (replicate 10 (F64.of_Z 40, F64.of_Z (-74))) [] [] [] [] 0 0 runs [] [] [] []
    None None None ble_empty.
Definition demo_routes : list Route :=
  [demo_route (lit "RecentClips/2026-08-08_10-00-00-front.mp4")
     [mkGearRun GEAR_DRIVE 800; mkGearRun GEAR_PARK 400; mkGearRun GEAR_DRIVE 900];
   demo_route (lit "RecentClips/2026-08-08_10-01-00-front.mp4") [mkGearRun GEAR_DRIVE 2100]].

Lemma demo_drives :
  length <$> plan_overviews demo_parse id (from_route <$> demo_routes) = [1; 2]%nat.
Proof. vm_compute. reflexivity. Qed.

Lemma plan_overviews_refines_witness :
  imap (fun idx drive => overview_from_fragments (E := unit) demo_libm (fun _ => []) (from_route <$> demo_routes)
                           (i32 (Z.of_nat idx)) drive
                           (fun i => ok_or (rt_points <$> demo_routes !! i) tt) 5)
    (plan_overviews demo_parse id (from_route <$> demo_routes))
  = Ok <$> group_routes_overview demo_libm (fun _ => []) demo_parse id demo_routes 5.
Proof.
  apply (plan_overviews_refines demo_parse id demo_libm (fun _ => [])
           (fun i => ok_or (rt_points <$> demo_routes !! i) tt) demo_routes 5).
  intros i r Hr. by rewrite Hr.
Defined.

(** ** Time groups *)

(** The state of the first pass: neighbours inside a group are at most
    [DRIVE_GAP_MS] apart, and a group starts more than that after the one
    before it ends. *)
Definition in_gap {A} (ts : A -> Z) (a b : A) : Prop := ts b - ts a <= DRIVE_GAP_MS.
Definition far_after {A} (ts : A -> Z) (g h : list A) : Prop :=
  exists a b, last g = Some a /\ head h = Some b /\ DRIVE_GAP_MS < ts b - ts a.

Lemma Sorted_snoc {A} (R : A -> A -> Prop) l x :
  Sorted R l -> (forall y, last l = Some y -> R y x) -> Sorted R (l ++ [x]).
Proof.
  intros Hl Hx. apply windows2_Sorted, Forall_lookup. intros i [a b] [Ha Hb]%windows2_spec.
  apply lookup_lt_Some in Hb as Hi. rewrite length_app in Hi. simpl in Hi.
  rewrite lookup_app_l in Ha by lia. destruct (Nat.eq_dec (S i) (length l)) as [E|].
  - rewrite lookup_app_r, E, Nat.sub_diag in Hb by lia. injection Hb as <-.
    apply Hx. rewrite last_lookup. by replace (pred (length l)) with i by lia.
  - rewrite lookup_app_l in Hb by lia. apply windows2_Sorted in Hl. rewrite Forall_lookup in Hl.
    apply (Hl i (a, b)). by apply windows2_spec.
Qed.

Definition gap_inv {A} (ts : A -> Z) (st : list (list A) * list A) : Prop :=
  snd st <> [] /\ Forall (fun g => g <> [] /\ Sorted (in_gap ts) g) (fst st ++ [snd st])
  /\ Sorted (far_after ts) (fst st ++ [snd st]).

Lemma gap_step_inv {A} (ts : A -> Z) st x : gap_inv ts st -> gap_inv ts (gap_step ts st x).
Proof.
  destruct st as [gs cur]. intros (Hne & Hall & Hfar). cbn [fst snd] in *. unfold gap_step. cbn [fst snd].
  destruct (last cur) as [p|] eqn:El; [|by apply last_None in El].
  apply Forall_app in Hall as [Hgs [Hcur _]%Forall_cons]. destruct Hcur as [_ Hcur].
  destruct (Z.ltb_spec DRIVE_GAP_MS (ts x - ts p)) as [Hgt|Hle].
  - assert (close (gs, cur) = (gs ++ [cur], [])) as -> by (destruct cur; done).
    unfold push, gap_inv. cbn [fst snd app]. split_and!; [done| |].
    + apply Forall_app; split; [|apply Forall_singleton; split; [done|repeat constructor]].
      apply Forall_app; split; [done|]. by apply Forall_singleton.
    + apply Sorted_snoc; [done|]. intros y Hy. rewrite last_snoc in Hy. injection Hy as <-.
      exists p, x. split_and!; done.
  - unfold push, gap_inv. cbn [fst snd]. split_and!; [by destruct cur| |].
    + apply Forall_app; split; [done|]. apply Forall_singleton. split; [by destruct cur|].
      apply Sorted_snoc; [done|]. intros y Hy. rewrite El in Hy. injection Hy as <-. done.
    + apply windows2_Sorted, Forall_lookup. intros i [a b] [Ha Hb]%windows2_spec.
      apply windows2_Sorted in Hfar. rewrite Forall_lookup in Hfar.
      apply lookup_lt_Some in Hb as Hi. rewrite length_app in Hi. simpl in Hi.
      rewrite lookup_app_l in Ha by lia.
      destruct (Nat.eq_dec (S i) (length gs)) as [E|].
      * rewrite lookup_app_r, E, Nat.sub_diag in Hb by lia. injection Hb as <-.
        destruct (Hfar i (a, cur)) as (q & r & Hq & Hr & Hlt).
        { apply windows2_spec. split; [by rewrite lookup_app_l by lia|].
          by rewrite lookup_app_r, E, Nat.sub_diag by lia. }
        exists q, r. split_and!; [done| |done]. by destruct cur.
      * rewrite lookup_app_l in Hb by lia. apply (Hfar i (a, b)). apply windows2_spec.
        by rewrite !lookup_app_l by lia.
Qed.

(** The first pass of the grouping splits the sorted timeline exactly at the
    gaps over five minutes: nothing is lost, duplicated or reordered, groups are
    not empty, neighbours within a group are at most five minutes apart and each
    group starts more than five minutes after the one before it ends. *)
Theorem time_groups_spec {A} (ts : A -> Z) (l : list A) :
  concat (time_groups ts l) = l
  /\ Forall (fun g => g <> [] /\ Sorted (in_gap ts) g) (time_groups ts l)
  /\ Sorted (far_after ts) (time_groups ts l).
Proof.
  split; [apply time_groups_concat|]. destruct l as [|x l]; [split; constructor|]. cbn [time_groups].
  assert (gap_inv ts (foldl (gap_step ts) ([], [x]) l)) as (Hne & H1 & H2).
  { apply foldl_inv; [intros; by apply gap_step_inv|]. split_and!; [done| |repeat constructor].
    apply Forall_singleton. split; [done|repeat constructor]. }
  destruct (foldl (gap_step ts) ([], [x]) l) as [gs cur]. cbn [fst snd] in *.
  by destruct cur.
Qed.

(** ** The frame clock *)

Definition runs_ok (gear_runs : list GearRun) : Prop :=
  Forall (fun r => 0 <= gr_frames r) gear_runs /\ sum_Z (gr_frames <$> gear_runs) < 2 ^ 32.

Lemma frame_offset_exact frame total span :
  0 <= frame <= total -> 0 < total < 2 ^ 32 -> 0 <= span < 2 ^ 31 ->
  frame_offset_ms frame total span = (frame * span + total / 2) / total
  /\ 0 <= frame_offset_ms frame total span <= span.
Proof.
  intros Hf Ht Hs. unfold frame_offset_ms. destruct (Z.eqb_spec total 0); [lia|].
  rewrite Z.max_l by lia. assert (0 <= frame * span <= total * span) by nia.
  assert (total * span < 2 ^ 63) by nia. assert (0 <= total / 2 < total) by (split; [apply Z.div_pos|apply Z.div_lt]; lia).
  rewrite (u64_small (frame * span)) by lia. rewrite u64_small by lia.
  assert (0 <= (frame * span + total / 2) / total <= span).
  { split; [apply Z.div_pos; lia|]. apply Z.lt_succ_r, Z.div_lt_upper_bound; [lia|]. nia. }
  assert (i64 ((frame * span + total / 2) / total) = (frame * span + total / 2) / total) as ->; [|done].
  unfold i64, signed. rewrite wrap_small by lia. change (2 ^ (64 - 1)) with (2 ^ 63).
  destruct (Z.ltb_spec ((frame * span + total / 2) / total) (2 ^ 63)); lia.
Qed.

Lemma frame_offset_mono a b total span :
  0 <= a <= b -> b <= total -> 0 < total < 2 ^ 32 -> 0 <= span < 2 ^ 31 ->
  frame_offset_ms a total span <= frame_offset_ms b total span.
Proof.
  intros. rewrite (proj1 (frame_offset_exact a total span ltac:(lia) ltac:(lia) ltac:(lia))).
  rewrite (proj1 (frame_offset_exact b total span ltac:(lia) ltac:(lia) ltac:(lia))).
  apply Z.div_le_mono; nia.
Qed.

(** Segments that tile the frames [lo..hi]. *)
Inductive tiles : Z -> list RawSeg -> Z -> Prop :=
| tiles_nil lo : tiles lo [] lo
| tiles_cons lo mid hi p t : lo <= mid -> tiles mid t hi -> tiles lo (mkRaw lo mid p :: t) hi.

Lemma tiles_le lo segs hi : tiles lo segs hi -> lo <= hi.
Proof. induction 1; lia. Qed.

Lemma tiles_snoc lo segs mid p hi : tiles lo segs mid -> mid <= hi ->
  tiles lo (segs ++ [mkRaw mid hi p]) hi.
Proof.
  induction 1 as [lo|lo m hi' q t Hle Ht IH]; intros H; cbn [app].
  - constructor; [done|constructor].
  - constructor; [done|by apply IH].
Qed.

Lemma tiles_snoc_inv lo segs s hi : tiles lo (segs ++ [s]) hi ->
  tiles lo segs (rs_start s) /\ rs_end s = hi /\ rs_start s <= hi.
Proof.
  revert lo. induction segs as [|x segs IH]; intros lo; cbn [app]; intros H; inversion H; subst.
  - match goal with H : tiles _ [] _ |- _ => inversion H; subst end. cbn. split_and!; [constructor|done|done].
  - destruct (IH mid) as (A1 & A2 & A3); [done|]. split_and!; [by constructor|done|done].
Qed.

(** Whether each frame belongs to a park gap. *)
Definition seg_flags (segs : list RawSeg) : list bool :=
  expand ((fun s => (rs_parked s, rs_end s - rs_start s)) <$> segs).
Definition gap_flags (gear_runs : list GearRun) (total span : Z) : list bool :=
  expand ((fun r => ((gr_gear r =? GEAR_PARK) && park_gap_frames (gr_frames r) total span, gr_frames r))
          <$> gear_runs).

Lemma raw_segs_spec gear_runs total span : forall frame,
  Forall (fun r => 0 <= gr_frames r) gear_runs -> 0 <= frame ->
  frame + sum_Z (gr_frames <$> gear_runs) < 2 ^ 32 ->
  tiles frame (raw_segs gear_runs total span frame) (frame + sum_Z (gr_frames <$> gear_runs))
  /\ seg_flags (raw_segs gear_runs total span frame) = gap_flags gear_runs total span.
Proof.
  induction gear_runs as [|r rs IH]; intros frame Hr Hf Hs; cbn [raw_segs].
  - rewrite Z.add_0_r. split; [constructor|done].
  - apply Forall_cons in Hr as [Hr0 Hr]. rewrite fmap_cons in *. cbn [sum_Z foldr] in *.
    fold (sum_Z (gr_frames <$> rs)) in *.
    assert (0 <= sum_Z (gr_frames <$> rs)).
    { apply sum_Z_nonneg, Forall_fmap. eapply Forall_impl; [exact Hr|]. done. }
    rewrite u32_small by lia. destruct (IH (frame + gr_frames r) Hr) as [H1 H2]; [lia..|].
    rewrite Z.add_assoc. split; [constructor; [lia|done]|].
    unfold seg_flags, gap_flags in *. csimpl. rewrite !expand_cons, H2.
    by replace (frame + gr_frames r - frame) with (gr_frames r) by lia.
Qed.

(** No two neighbours both drive. *)
Definition separated (a b : RawSeg) : Prop := rs_parked a = true \/ rs_parked b = true.

Lemma merge_step_spec lo merged mid s hi :
  tiles lo merged mid -> Sorted separated merged -> rs_start s = mid -> rs_end s = hi -> mid <= hi ->
  tiles lo (merge_step merged s) hi /\ Sorted separated (merge_step merged s)
  /\ seg_flags (merge_step merged s) = seg_flags (merged ++ [s]).
Proof.
  intros Ht Hs Hst Hen Hle. destruct s as [s0 e0 p]. cbn in Hst, Hen. subst s0 e0. unfold merge_step.
  destruct (last merged) as [l|] eqn:El.
  - apply last_Some in El as (pre & ->). apply tiles_snoc_inv in Ht as (Ht & He & Hl). subst mid.
    destruct (negb (rs_parked l) && negb (rs_parked (mkRaw (rs_end l) hi p))) eqn:E.
    + cbn [rs_parked] in E. apply andb_true_iff in E as [E1 E2]. apply negb_true_iff in E1, E2. subst p.
      rewrite length_app, Nat.add_1_r. cbn [pred]. rewrite take_app_length. cbn [rs_end]. split_and!.
      * apply tiles_snoc; [done|lia].
      * apply windows2_Sorted, Forall_lookup. intros i [a b] [Ha Hb]%windows2_spec.
        apply windows2_Sorted in Hs. rewrite Forall_lookup in Hs.
        apply lookup_lt_Some in Hb as Hi. rewrite length_app in Hi. simpl in Hi.
        rewrite lookup_app_l in Ha by lia. destruct (Nat.eq_dec (S i) (length pre)) as [Ei|].
        -- rewrite lookup_app_r, Ei, Nat.sub_diag in Hb by lia. injection Hb as <-.
           pose proof (Hs i (a, l)) as [H|H]; [|by left|cbn in H; congruence].
           apply windows2_spec. split; [by rewrite lookup_app_l by lia|].
           by rewrite lookup_app_r, Ei, Nat.sub_diag by lia.
        -- rewrite lookup_app_l in Hb by lia. apply (Hs i (a, b)), windows2_spec.
           by rewrite !lookup_app_l by lia.
      * unfold seg_flags. rewrite !fmap_app, !expand_app, <- app_assoc. f_equal.
        cbn [fmap list_fmap rs_parked rs_start rs_end]. rewrite E1, !expand_cons. unfold expand. cbn.
        rewrite !app_nil_r, <- replicate_add. f_equal. lia.
    + split_and!; [|apply Sorted_snoc; [done|]|done].
      * apply tiles_snoc; [|done]. destruct l as [l0 l1 lp]. by apply tiles_snoc.
      * intros y Hy. rewrite last_snoc in Hy. injection Hy as <-. unfold separated.
        destruct (rs_parked l); [by left|]. cbn in E |- *. apply negb_false_iff in E. by right.
  - apply last_None in El as ->. cbn [app]. inversion Ht; subst. split_and!; [by repeat constructor|repeat constructor|done].
Qed.

Lemma merge_segs_spec lo segs hi :
  tiles lo segs hi ->
  tiles lo (merge_segs segs) hi /\ Sorted separated (merge_segs segs)
  /\ seg_flags (merge_segs segs) = seg_flags segs.
Proof.
  unfold merge_segs.
  assert (forall segs mid hi, tiles mid segs hi -> forall acc lo, tiles lo acc mid -> Sorted separated acc ->
    tiles lo (foldl merge_step acc segs) hi /\ Sorted separated (foldl merge_step acc segs)
    /\ seg_flags (foldl merge_step acc segs) = seg_flags acc ++ seg_flags segs) as H.
  { clear. induction 1 as [mid|mid m hi p t Hle Ht IH]; intros acc lo Ha Hs; cbn [foldl].
    - split_and!; [done|done|]. unfold seg_flags at 3. cbn. by rewrite app_nil_r.
    - destruct (merge_step_spec lo acc mid (mkRaw mid m p) m) as (H1 & H2 & H3); [done..|].
      destruct (IH _ lo H1 H2) as (H4 & H5 & H6). split_and!; [done|done|]. rewrite H6, H3.
      unfold seg_flags. by rewrite fmap_app, expand_app, <- app_assoc, <- expand_app, <- fmap_app. }
  intros Ht. apply (H _ _ _ Ht [] lo); constructor.
Qed.

Lemma tiles_bounds lo segs hi s : tiles lo segs hi -> s ∈ segs -> lo <= rs_start s <= rs_end s /\ rs_end s <= hi.
Proof.
  induction 1 as [|lo mid hi p t Hle Ht IH]; [set_solver|]. apply tiles_le in Ht as Hm.
  intros [->|Hs]%elem_of_cons; [cbn; lia|]. specialize (IH Hs). lia.
Qed.

(** The clock of a segment: its offset and span are inside the clip, and the
    span ends where the next segment starts. *)
Lemma segment_clock lo hi total span :
  0 <= lo <= hi -> hi <= total < 2 ^ 32 -> 0 < total -> 0 <= span < 2 ^ 31 ->
  0 <= frame_offset_ms lo total span /\ 0 <= frame_span_ms lo hi total span
  /\ frame_offset_ms lo total span + frame_span_ms lo hi total span = frame_offset_ms hi total span
  /\ frame_offset_ms hi total span <= span.
Proof.
  intros Hlo Hhi Ht Hs. unfold frame_span_ms.
  destruct (frame_offset_exact lo total span) as [_ ?]; [lia..|].
  destruct (frame_offset_exact hi total span) as [_ ?]; [lia..|].
  pose proof (frame_offset_mono lo hi total span ltac:(lia) ltac:(lia) ltac:(lia) ltac:(lia)).
  assert (forall z, 0 <= z < 2 ^ 63 -> i64 z = z) as Hi.
  { intros z Hz. unfold i64, signed. rewrite wrap_small by lia. change (2 ^ (64 - 1)) with (2 ^ 63).
    destruct (Z.ltb_spec z (2 ^ 63)); lia. }
  rewrite Hi by lia. lia.
Qed.

(** Planned fragments of a tiling come in clock order. *)
Lemma plan_segs_ordered total span n lo segs hi :
  tiles lo segs hi -> 0 < total < 2 ^ 32 -> 0 <= span < 2 ^ 31 -> 0 <= lo -> hi <= total ->
  StronglySorted (fun a b => ps_offset_ms a + ps_span_ms a <= ps_offset_ms b)
    (filter (fun ps => ps_parked ps = false) (omap (plan_seg total span n) segs))
  /\ forall ps, ps ∈ omap (plan_seg total span n) segs -> ps_parked ps = false ->
       frame_offset_ms lo total span <= ps_offset_ms ps.
Proof.
  intros Ht Htot Hspan. induction Ht as [lo|lo mid hi p t Hle Ht IH]; intros Hlo Hhi.
  { cbn. split; [constructor|set_solver]. }
  apply tiles_le in Ht as Hmh. destruct (IH ltac:(lia) Hhi) as [IH1 IH2]. csimpl.
  destruct (segment_clock lo mid total span) as (C1 & C2 & C3 & C4); [lia..|].
  assert (frame_offset_ms lo total span <= frame_offset_ms mid total span) as Hmono by lia.
  destruct (plan_seg total span n (mkRaw lo mid p)) as [ps|] eqn:Eps.
  2: { split; [done|]. intros. etrans; [exact Hmono|by apply IH2]. }
  apply plan_seg_range in Eps as [Hp Hps]. cbn [rs_start rs_end rs_parked] in Hp, Hps.
  rewrite filter_cons. destruct (decide (ps_parked ps = false)) as [Ed|Ed].
  - destruct (Hps Ed) as (_ & Ho & Hsp). split.
    + constructor; [done|]. apply Forall_forall. intros q [Hq Hin]%list_elem_of_filter.
      specialize (IH2 q Hin Hq). rewrite Ho, Hsp. lia.
    + intros q [->|Hq]%elem_of_cons Hqp; [lia|]. etrans; [exact Hmono|by apply IH2].
  - split; [done|]. intros q [->|Hq]%elem_of_cons Hqp; [done|]. etrans; [exact Hmono|by apply IH2].
Qed.

(** C14: A park-gap plan is sound. The segments it is made from tile the clip's raw
    frames and mark exactly the frames of park runs of at least two seconds, no
    two driving segments adjacent; every planned driving fragment is a non-empty
    range inside the point array, so slicing never panics; and on the clip's
    clock the fragments come in order, do not overlap and stay inside the clip's
    real span. *)
Theorem park_plan_sound gear_runs n span plan :
  runs_ok gear_runs -> 0 <= span < 2 ^ 31 ->
  plan_clip_at_park_gaps gear_runs n span = Some plan ->
  exists segs, plan = omap (plan_seg (total_frames gear_runs) span n) segs
    /\ tiles 0 segs (total_frames gear_runs) /\ Sorted separated segs
    /\ seg_flags segs = gap_flags gear_runs (total_frames gear_runs) span
    /\ (forall ps, ps ∈ plan -> ps_parked ps = false ->
          (ps_start ps < ps_end ps <= n)%nat
          /\ 0 <= ps_offset_ms ps /\ 0 <= ps_span_ms ps /\ ps_offset_ms ps + ps_span_ms ps <= span)
    /\ StronglySorted (fun a b => ps_offset_ms a + ps_span_ms a <= ps_offset_ms b)
         (filter (fun ps => ps_parked ps = false) plan).
Proof.
  intros [Hr Hsum] Hspan. unfold plan_clip_at_park_gaps.
  assert (0 <= sum_Z (gr_frames <$> gear_runs)) as Hpos.
  { apply sum_Z_nonneg, Forall_fmap. eapply Forall_impl; [exact Hr|]. done. }
  assert (total_frames gear_runs = sum_Z (gr_frames <$> gear_runs)) as Etot
    by (unfold total_frames; rewrite u32_small; lia).
  set (total := total_frames gear_runs) in *. rewrite Etot.
  destruct (Z.eqb_spec (sum_Z (gr_frames <$> gear_runs)) 0) as [|Hnz]; [done|]. rewrite <- Etot in *.
  destruct (raw_segs_spec gear_runs total span 0 Hr) as [Hraw Hflags]; [lia..|].
  rewrite Z.add_0_l, <- Etot in Hraw.
  destruct (merge_segs_spec _ _ _ Hraw) as (Hm & Hsep & Hmf). rewrite Hflags in Hmf.
  set (segs := merge_segs _) in *. destruct (negb _); [done|]. intros [= <-].
  exists segs. split_and!; [done..| |].
  - intros ps (s & Hs & Hps)%list_elem_of_omap Hp. apply plan_seg_range in Hps as [_ Hrng].
    destruct (Hrng Hp) as (H1 & H2 & H3). destruct (tiles_bounds _ _ _ _ Hm Hs) as [[? ?] ?].
    split; [done|]. rewrite H2, H3.
    destruct (segment_clock (rs_start s) (rs_end s) total span) as (C1 & C2 & C3 & C4); lia.
  - apply (plan_segs_ordered total span n 0 segs total Hm); lia.
Qed.

Lemma park_plan_sound_witness :
  let runs := [mkGearRun GEAR_DRIVE 800; mkGearRun GEAR_PARK 400; mkGearRun GEAR_DRIVE 900] in
  exists segs, tiles 0 segs 2100 /\ seg_flags segs = gap_flags runs 2100 60000.
Proof.
  cbv zeta.
  destruct (park_plan_sound [mkGearRun GEAR_DRIVE 800; mkGearRun GEAR_PARK 400; mkGearRun GEAR_DRIVE 900]
    10 60000 [mkSeg 0 4 0 22857 false; mkSeg 0 0 0 0 true; mkSeg 6 10 34286 25714 false])
    as (segs & _ & H1 & _ & H2 & _).
  - split; [repeat (apply Forall_cons; split; [simpl; lia|]); by apply Forall_nil | by vm_compute].
  - lia.
  - vm_compute. reflexivity.
  - exists segs. split; [exact H1 | exact H2].
Defined.

(** ** All-parked groups *)

(** A group of two or more clips without gear runs that all count as parked,
    with gear states somewhere, yields no drive at all: its clips disappear from
    the map, where the same group with gear runs is passed through whole. *)
Theorem legacy_parked_dropped (group : list TimedRoute) :
  (2 <= length group)%nat ->
  (forall c, c ∈ group -> rt_gear_runs (tr_route c) = [] /\ clip_is_mostly_parked_legacy c = true) ->
  (exists c, c ∈ group /\ rt_gear_states (tr_route c) <> []) ->
  split_by_gear_state group = [].
Proof.
  intros Hlen Hall (c & Hc & Hg). unfold split_by_gear_state.
  destruct (is_empty group) eqn:Ee; [done|].
  assert (existsb (fun c => negb (is_empty (rt_gear_runs (tr_route c)))) group = false) as ->.
  { apply not_true_is_false. intros (x & Hx%list_elem_of_In & Hn)%existsb_exists.
    destruct (Hall x Hx) as [Hr _]. by rewrite Hr in Hn. }
  cbn [negb]. unfold split_by_gear_state_legacy. destruct (Nat.leb_spec (length group) 1); [lia|].
  assert (existsb (fun c => negb (is_empty (rt_gear_states (tr_route c)))) group = true) as ->.
  { apply existsb_exists. exists c. split; [by apply list_elem_of_In|].
    by destruct (rt_gear_states (tr_route c)). }
  cbn [negb]. assert (foldl legacy_step ([], []) group = ([], [])) as ->; [|done].
  apply (foldl_inv (fun st => st = ([], []))); [|done].
  intros st x Hx ->. unfold legacy_step. by destruct (Hall x Hx) as [_ ->].
Qed.

Definition parked_clip : TimedRoute :=
  mkTimed (mkRoute (lit "a") [] [(1, 1)] [GEAR_PARK] [] [] [] 30 30 [] [] [] [] [] None None None ble_empty)
    0 60000.

Lemma legacy_parked_dropped_witness : split_by_gear_state [parked_clip; parked_clip] = [].
Proof.
  apply (legacy_parked_dropped [parked_clip; parked_clip]).
  - simpl. lia.
  - intros c Hc. assert (c = parked_clip) as -> by set_solver. split; by vm_compute.
  - exists parked_clip. split; [set_solver | done].
Defined.

(** ** Imported duplicates *)

Section hiding.
Context {D : Type} (parse : str -> option Z) (src : D -> option str) (st en : D -> str).

Lemma overlaps_any_spec ranges ts te :
  StronglySorted (fun a b => fst a <= fst b) ranges ->
  overlaps_any ranges ts te = true <-> exists r, r ∈ ranges /\ ts < snd r /\ fst r < te.
Proof.
  induction 1 as [|[rs re] t Ht IH Hf]; cbn [overlaps_any]; [set_solver|].
  destruct (Z.leb_spec re ts).
  - rewrite IH. setoid_rewrite elem_of_cons. split; [naive_solver|].
    intros (r & [->|Hr] & ? & ?); [cbn in *; lia|eauto].
  - destruct (Z.leb_spec te rs).
    + split; [done|]. intros (r & [->|Hr]%elem_of_cons & ? & ?); [cbn in *; lia|].
      rewrite Forall_forall in Hf. specialize (Hf r Hr). cbn in Hf. lia.
    + split; [|done]. intros _. exists (rs, re). split; [set_solver|cbn; lia].
Qed.

(** A drive that is not from Tessie with readable times that overlap [ts, te]. *)
Definition shadowed (summaries : list D) (ts te : Z) : Prop :=
  exists d' s e, d' ∈ summaries /\ is_tessie (src d') = false
    /\ drive_range parse st en d' = Some (s, e) /\ ts < e /\ s < te.

(** The hidden drives are exactly the Tessie drives with readable times that
    overlap some other source's drive; everything else stays, in order. *)
Theorem hide_tessie_spec (summaries : list D) :
  hide_tessie_overlapping_sei parse src st en summaries `sublist_of` summaries
  /\ forall d, d ∈ summaries ->
     d ∈ hide_tessie_overlapping_sei parse src st en summaries
     <-> ~ (is_tessie (src d) = true
            /\ exists ts te, drive_range parse st en d = Some (ts, te) /\ shadowed summaries ts te).
Proof.
  unfold hide_tessie_overlapping_sei. set (ranges := omap _ summaries).
  assert (forall r, r ∈ ranges <-> exists d', d' ∈ summaries /\ is_tessie (src d') = false
            /\ drive_range parse st en d' = Some r) as Hr.
  { intros r. unfold ranges. rewrite list_elem_of_omap. split.
    - intros (d' & Hd & H). destruct (is_tessie (src d')) eqn:E; [done|]. eauto.
    - intros (d' & Hd & Ht & H). exists d'. by rewrite Ht. }
  assert (forall ts te, shadowed summaries ts te <-> exists r, r ∈ ranges /\ ts < snd r /\ fst r < te) as Hsh.
  { intros ts te. unfold shadowed. split.
    - intros (d' & s & e & ? & ? & ? & ? & ?). exists (s, e). split; [apply Hr; eauto|done].
    - intros ([s e] & Hin & ? & ?). apply Hr in Hin as (d' & ? & ? & ?). exists d', s, e. split_and!; done. }
  destruct (is_empty ranges) eqn:Ee.
  - split; [done|]. intros d Hd. split; [|done]. intros _ (_ & ts & te & _ & Hs).
    apply Hsh in Hs as (r & Hin & _). destruct ranges; [set_solver|done].
  - split; [apply sublist_filter|]. intros d Hd. rewrite list_elem_of_filter.
    assert (forall ts te, overlaps_any (sort_by_key fst ranges) ts te = true <-> shadowed summaries ts te) as Ho.
    { intros ts te. rewrite overlaps_any_spec by apply sort_by_key_strongly. rewrite Hsh.
      unfold sort_by_key. by setoid_rewrite sort_by_perm. }
    destruct (is_tessie (src d)); cbn [negb orb]; [|naive_solver].
    destruct (drive_range parse st en d) as [[ts te]|] eqn:Ed; [|naive_solver].
    specialize (Ho ts te). destruct (overlaps_any _ _ _); cbn [negb]; naive_solver.
Qed.
End hiding.

(** ** Downsampling *)

(** Downsampling a longer trail returns one point more than the requested
    maximum and ends with the trail's last point; a short trail is unchanged. *)
Theorem downsample_length (points : list GpsPoint) max_points :
  length (downsample points max_points)
    = (if (length points <=? max_points)%nat then length points else S max_points)
  /\ last (downsample points max_points) = last points.
Proof.
  unfold downsample. destruct (Nat.leb_spec (length points) max_points) as [|Hlt]; [done|].
  rewrite length_app, length_fmap, length_seq. split; [simpl; lia|]. rewrite last_snoc.
  destruct points as [|p ps] using rev_ind; [simpl in Hlt; lia|].
  by rewrite last_snoc, List.last_last.
Qed.
