(* ===== verification/SummonSpec.v ===== *)
(** * What a detected summon drive is

    The walks over run-length evidence answer questions about single frames, and
    a drive that [detect_summon] accepts has, frame by frame, no pedal input,
    parking-lot speed and one of the two verified signatures. *)

From Stdlib Require Import ZArith Lia.
From stdpp Require Import base list sets.
From S2P Require Import Prelude Float Types GapFill Summon.

Open Scope Z_scope.

(** Runs that the span check accepts: every length positive, [total] in sum. *)
Definition spans (frames : list Z) (total : Z) : Prop :=
  Forall (fun f => 0 < f) frames /\ sum_Z frames = total.

Lemma span_sum_loop_spec frames : forall sum any r,
  Forall (fun f => 0 <= f < 2 ^ 32) frames -> 0 <= sum -> sum + sum_Z frames < 2 ^ 64 ->
  span_sum_loop frames sum any = Some r ->
  Forall (fun f => 0 < f) frames /\ fst r = sum + sum_Z frames.
Proof.
  induction frames as [|f t IH]; intros sum any r Hf Hs Hb; cbn [span_sum_loop].
  - intros [= <-]. cbn. split; [constructor|lia].
  - apply Forall_cons in Hf as [Hf0 Hf]. destruct (Z.eqb_spec f 0); [done|].
    cbn [sum_Z foldr] in *. fold (sum_Z t) in *.
    assert (0 <= sum_Z t).
    { apply sum_Z_nonneg. eapply Forall_impl; [exact Hf|]. cbn. lia. }
    rewrite u64_small by lia. intros Hl. apply IH in Hl as [H1 H2]; [|done|lia|lia].
    split; [constructor; [lia|done]|lia].
Qed.

(** A vector of [u32] run lengths that fits in memory. *)
Definition frames_in_range (frames : list Z) : Prop :=
  Forall (fun f => 0 <= f < 2 ^ 32) frames /\ Z.of_nat (length frames) < 2 ^ 32.

Lemma sum_Z_bound frames : frames_in_range frames -> 0 <= sum_Z frames < 2 ^ 64.
Proof.
  intros [Hf Hl]. split; [apply sum_Z_nonneg; eapply Forall_impl; [exact Hf|cbn; lia]|].
  assert (sum_Z frames <= 2 ^ 32 * Z.of_nat (length frames)); [|nia].
  clear Hl. induction Hf as [|f t Hf _ IH]; cbn [sum_Z foldr length]; [lia|].
  fold (sum_Z t). lia.
Qed.

Lemma runs_span_frames_spec frames total :
  frames_in_range frames -> runs_span_frames frames total = true -> spans frames total.
Proof.
  intros Hr. unfold runs_span_frames. destruct (total =? 0); [done|].
  destruct (span_sum_loop frames 0 false) as [[sum any]|] eqn:E; [|done].
  pose proof (sum_Z_bound _ Hr). destruct Hr as [Hr _].
  apply span_sum_loop_spec in E as [H1 H2]; [|done|lia|lia]. cbn in H2.
  intros [_ Heq]%andb_true_iff. apply Z.eqb_eq in Heq. split; [done|lia].
Qed.

(** The value of a run-length encoding at a frame. *)
Definition frame_at {A} (runs : list (A * Z)) (f : Z) : option A :=
  if f <? 0 then None else expand runs !! Z.to_nat f.

Lemma frame_at_cons {A} (v : A) n t f : 0 < n ->
  frame_at ((v, n) :: t) f
  = if f <? 0 then None else if f <? n then Some v else frame_at t (f - n).
Proof.
  intros Hn. unfold frame_at. destruct (Z.ltb_spec f 0); [done|]. rewrite expand_cons.
  destruct (Z.ltb_spec f n).
  - rewrite lookup_app_l by (rewrite length_replicate; lia). by apply lookup_replicate_2; lia.
  - destruct (Z.ltb_spec (f - n) 0); [lia|].
    rewrite lookup_app_r by (rewrite length_replicate; lia). rewrite length_replicate. f_equal. lia.
Qed.

Definition flag_at (runs : list FlagRun) : Z -> option FlagRun :=
  frame_at ((fun r => (r, fr_frames r)) <$> runs).
Definition gear_at (runs : list GearRun) : Z -> option Z :=
  frame_at ((fun r => (gr_gear r, gr_frames r)) <$> runs).
Definition ap_at (runs : list ApRun) : Z -> option Z :=
  frame_at ((fun r => (ar_ap r, ar_frames r)) <$> runs).

(** Flags carry the mask: all of its bits, or any. *)
Definition carries (mask : Z) (require_all : bool) (r : FlagRun) : bool :=
  let bits := Z.land (fr_flags r) mask in
  if require_all then bits =? mask else negb (bits =? 0).

Lemma overlap_loop_spec mask all runs : forall frame from to,
  Forall (fun f => 0 < f) (fr_frames <$> runs) -> 0 <= frame ->
  frame + sum_Z (fr_frames <$> runs) < 2 ^ 32 -> from < to ->
  overlap_loop runs frame from to mask all = true
  <-> exists f r, from <= f < to /\ flag_at runs (f - frame) = Some r /\ carries mask all r = true.
Proof.
  induction runs as [|r rs IH]; intros frame from to Hp Hf Hs Hft; cbn [overlap_loop].
  - split; [done|]. intros (f & r & _ & Hat & _). unfold flag_at, frame_at in Hat.
    by destruct (_ <? 0).
  - rewrite fmap_cons in *. apply Forall_cons in Hp as [Hr Hp]. cbn [sum_Z foldr] in Hs.
    fold (sum_Z (fr_frames <$> rs)) in Hs.
    assert (0 <= sum_Z (fr_frames <$> rs)) by (apply sum_Z_nonneg; eapply Forall_impl; [exact Hp|cbn; lia]).
    rewrite u32_small by lia. unfold flag_at in *. rewrite fmap_cons.
    assert (forall f, frame_at ((r, fr_frames r) :: ((fun r => (r, fr_frames r)) <$> rs)) (f - frame)
      = if f <? frame then None else if f <? frame + fr_frames r then Some r
        else frame_at ((fun r => (r, fr_frames r)) <$> rs) (f - (frame + fr_frames r))) as Hat.
    { intros f. rewrite frame_at_cons by done.
      destruct (Z.ltb_spec (f - frame) 0), (Z.ltb_spec f frame); try lia; [done|].
      destruct (Z.ltb_spec (f - frame) (fr_frames r)), (Z.ltb_spec f (frame + fr_frames r)); try lia; [done|].
      f_equal. lia. }
    setoid_rewrite Hat. specialize (IH (frame + fr_frames r) from to Hp ltac:(lia) ltac:(lia) Hft).
    assert (forall f, f < frame + fr_frames r ->
      frame_at ((fun r => (r, fr_frames r)) <$> rs) (f - (frame + fr_frames r)) = None) as Hbefore.
    { intros f Hlt. unfold frame_at. by destruct (Z.ltb_spec (f - (frame + fr_frames r)) 0); [|lia]. }
    destruct (Z.leb_spec (frame + fr_frames r) from) as [Hle|Hgt].
    { rewrite IH. split; intros (f & r' & Hrng & Ha & Hc); exists f, r'.
      - destruct (Z.ltb_spec f frame); [lia|]. destruct (Z.ltb_spec f (frame + fr_frames r)); [lia|]. done.
      - destruct (Z.ltb_spec f frame); [lia|]. destruct (Z.ltb_spec f (frame + fr_frames r)); [lia|]. done. }
    destruct (Z.leb_spec to frame) as [Hle'|Hgt'].
    { split; [done|]. intros (f & r' & Hrng & Ha & Hc).
      destruct (Z.ltb_spec f frame); [done|]. lia. }
    fold (carries mask all r). destruct (carries mask all r) eqn:Ec.
    + split; [|done]. intros _. exists (Z.max from frame), r. split; [lia|].
      destruct (Z.ltb_spec (Z.max from frame) frame); [lia|].
      by destruct (Z.ltb_spec (Z.max from frame) (frame + fr_frames r)); [|lia].
    + rewrite IH. split; intros (f & r' & Hrng & Ha & Hc); exists f, r'.
      * destruct (Z.ltb_spec f (frame + fr_frames r)) as [Hlt|].
        { rewrite Hbefore in Ha by done. done. }
        destruct (Z.ltb_spec f frame); [lia|]. done.
      * destruct (Z.ltb_spec f frame); [done|].
        destruct (Z.ltb_spec f (frame + fr_frames r)); [simplify_eq; congruence|]. done.
Qed.

(** The answer about a window of frames. *)
Lemma flag_runs_overlap_spec runs from to mask all total :
  spans (fr_frames <$> runs) total -> total < 2 ^ 32 -> from < to ->
  flag_runs_overlap runs from to mask all = true
  <-> exists f r, from <= f < to /\ flag_at runs f = Some r /\ carries mask all r = true.
Proof.
  intros [Hp Hs] Ht Hft. unfold flag_runs_overlap. rewrite overlap_loop_spec by (done || lia).
  setoid_rewrite Z.sub_0_r. done.
Qed.

(** ** Gear, speed and autopilot *)

Lemma gear_at_loop_spec runs frame : forall end_,
  Forall (fun f => 0 < f) (gr_frames <$> runs) -> 0 <= end_ ->
  end_ + sum_Z (gr_frames <$> runs) < 2 ^ 64 -> end_ <= frame ->
  gear_at_loop runs end_ frame = gear_at runs (frame - end_).
Proof.
  induction runs as [|r rs IH]; intros end_ Hp He Hs Hf; cbn [gear_at_loop].
  - unfold gear_at, frame_at. by destruct (_ <? 0).
  - rewrite fmap_cons in *. apply Forall_cons in Hp as [Hr Hp]. cbn [sum_Z foldr] in Hs.
    fold (sum_Z (gr_frames <$> rs)) in Hs.
    assert (0 <= sum_Z (gr_frames <$> rs)) by (apply sum_Z_nonneg; eapply Forall_impl; [exact Hp|cbn; lia]).
    rewrite u64_small by lia. unfold gear_at in *. rewrite fmap_cons, frame_at_cons by done.
    destruct (Z.ltb_spec (frame - end_) 0); [lia|].
    destruct (Z.ltb_spec frame (end_ + gr_frames r)), (Z.ltb_spec (frame - end_) (gr_frames r)); try lia; [done|].
    rewrite IH by (done || lia). f_equal. lia.
Qed.

Lemma gear_at_frame_spec runs total frame :
  spans (gr_frames <$> runs) total -> total < 2 ^ 32 -> 0 <= frame ->
  gear_at_frame runs frame = gear_at runs frame.
Proof.
  intros [Hp Hs] Ht Hf. unfold gear_at_frame. rewrite gear_at_loop_spec by (done || lia).
  by rewrite Z.sub_0_r.
Qed.

(** Not NaN. *)
Definition ordered (v : Z) : Prop := is_Some (fkey (decode_bits 52 11 v)).

Lemma finite_ordered m : F64.is_finite m = true -> ordered m.
Proof.
  unfold F64.is_finite, fis_finite, ordered. destruct (decode_bits 52 11 m) as [[]|[]| |[]]; try done; by eexists.
Qed.

Lemma lt_ordered a b : F64.lt a b = true -> ordered a /\ ordered b.
Proof. intros (x & y & Hx & Hy & _)%SFltb_key. split; by eexists. Qed.

(** Raising a running maximum. *)
Definition raise (max m : Z) : Z := if F64.lt max m then m else max.

Lemma raise_spec max m : ordered max ->
  ordered (raise max m) /\ F64.lt (raise max m) max = false /\ F64.lt (raise max m) m = false.
Proof.
  intros Ho. unfold raise. destruct (F64.lt max m) eqn:E.
  - split_and!; [by apply lt_ordered in E as [_ ?] | by apply flt_asym | apply flt_irrefl].
  - split_and!; [done | apply flt_irrefl | done].
Qed.

Lemma speed_loop_spec runs : forall frame s e max v,
  Forall (fun f => 0 < f) (fr_frames <$> runs) -> 0 <= frame ->
  frame + sum_Z (fr_frames <$> runs) < 2 ^ 32 -> s < e -> ordered max ->
  speed_loop runs frame s e max = Some v ->
  ordered v /\ F64.lt v max = false
  /\ forall f r, s <= f < e -> flag_at runs (f - frame) = Some r ->
     exists m, fr_max_mps r = Some m /\ F64.is_finite m = true /\ F64.lt v m = false.
Proof.
  induction runs as [|r rs IH]; intros frame s e max v Hp Hf Hs Hse Ho; cbn [speed_loop].
  - intros [= <-]. split_and!; [done | apply flt_irrefl|]. intros f r _ Hat. unfold flag_at, frame_at in Hat.
    by destruct (_ <? 0).
  - rewrite fmap_cons in *. apply Forall_cons in Hp as [Hr Hp]. cbn [sum_Z foldr] in Hs.
    fold (sum_Z (fr_frames <$> rs)) in Hs.
    assert (0 <= sum_Z (fr_frames <$> rs)) by (apply sum_Z_nonneg; eapply Forall_impl; [exact Hp|cbn; lia]).
    rewrite u32_small by lia. specialize (IH (frame + fr_frames r) s e).
    unfold flag_at in *. rewrite fmap_cons.
    assert (forall f r', frame_at ((r, fr_frames r) :: ((fun r => (r, fr_frames r)) <$> rs)) (f - frame) = Some r' ->
      (frame <= f < frame + fr_frames r /\ r' = r)
      \/ (frame + fr_frames r <= f
          /\ frame_at ((fun r => (r, fr_frames r)) <$> rs) (f - (frame + fr_frames r)) = Some r')) as Hat.
    { intros f r'. rewrite frame_at_cons by done. destruct (Z.ltb_spec (f - frame) 0); [done|].
      destruct (Z.ltb_spec (f - frame) (fr_frames r)); [intros [= <-]; left; split; [lia|done]|].
      intros H'. right. split; [lia|]. by replace (f - (frame + fr_frames r)) with (f - frame - fr_frames r) by lia. }
    destruct (Z.leb_spec (frame + fr_frames r) s).
    { intros Hv. apply IH in Hv as (V1 & V2 & V3); [|done|lia|lia|done|done]. split_and!; [done|done|].
      intros f r' Hrng Ha. apply Hat in Ha as [[? ->]|[? Ha]]; [lia|]. by apply (V3 f r'). }
    destruct (Z.leb_spec e frame).
    { intros [= <-]. split_and!; [done | apply flt_irrefl|]. intros f r' Hrng Ha.
      apply Hat in Ha as [[? ->]|[? Ha]]; lia. }
    destruct (fr_max_mps r) as [m|] eqn:Em; [|done]. destruct (F64.is_finite m) eqn:Efin; [|done].
    fold (raise max m). destruct (raise_spec max m Ho) as (R1 & R2 & R3). intros Hv.
    apply IH in Hv as (V1 & V2 & V3); [|done|lia|lia|done|done]. split_and!; [done|by eapply flt_trans_le|].
    intros f r' Hrng Ha. apply Hat in Ha as [[? ->]|[? Ha]]; [|by apply (V3 f r')].
    exists m. split_and!; [done|done|by eapply flt_trans_le].
Qed.

(** A run that records a usable maximum: present and finite. *)
Definition measured_run (r : FlagRun) : bool :=
  match fr_max_mps r with Some m => F64.is_finite m | None => false end.

Lemma flag_at_cons r rs frame f : 0 < fr_frames r ->
  flag_at (r :: rs) (f - frame)
  = if f <? frame then None else if f <? frame + fr_frames r then Some r
    else flag_at rs (f - (frame + fr_frames r)).
Proof.
  intros Hr. unfold flag_at. rewrite fmap_cons, frame_at_cons by done.
  destruct (Z.ltb_spec (f - frame) 0), (Z.ltb_spec f frame); try lia; [done|].
  destruct (Z.ltb_spec (f - frame) (fr_frames r)), (Z.ltb_spec f (frame + fr_frames r)); try lia; [done|].
  f_equal. lia.
Qed.

(** The walk gives up exactly at a frame of the window without a usable
    maximum; otherwise the answer is the start value or a frame's maximum. *)
Lemma speed_loop_evidence runs : forall frame s e max,
  Forall (fun f => 0 < f) (fr_frames <$> runs) -> 0 <= frame ->
  frame + sum_Z (fr_frames <$> runs) < 2 ^ 32 -> s < e ->
  match speed_loop runs frame s e max with
  | None => exists f r, s <= f < e /\ flag_at runs (f - frame) = Some r /\ measured_run r = false
  | Some v => v = max
      \/ exists f r, s <= f < e /\ flag_at runs (f - frame) = Some r /\ fr_max_mps r = Some v
  end.
Proof.
  induction runs as [|r rs IH]; intros frame s e max Hp Hf Hs Hse; cbn [speed_loop]; [by left|].
  rewrite fmap_cons in *. apply Forall_cons in Hp as [Hr Hp]. cbn [sum_Z foldr] in Hs.
  fold (sum_Z (fr_frames <$> rs)) in Hs.
  assert (0 <= sum_Z (fr_frames <$> rs)) by (apply sum_Z_nonneg; eapply Forall_impl; [exact Hp|cbn; lia]).
  rewrite u32_small by lia. specialize (IH (frame + fr_frames r) s e).
  assert (forall P : FlagRun -> Prop,
    (exists f r', s <= f < e /\ flag_at rs (f - (frame + fr_frames r)) = Some r' /\ P r') ->
    exists f r', s <= f < e /\ flag_at (r :: rs) (f - frame) = Some r' /\ P r') as Hlift.
  { intros P (f & r' & Hrng & Ha & HP). exists f, r'. split_and!; [lia..| |done]. rewrite flag_at_cons by done.
    destruct (Z.ltb_spec f (frame + fr_frames r)) as [Hlt|].
    - unfold flag_at, frame_at in Ha. by destruct (Z.ltb_spec (f - (frame + fr_frames r)) 0); [|lia].
    - by destruct (Z.ltb_spec f frame); [lia|]. }
  assert (frame + fr_frames r <= s \/ e <= frame \/ flag_at (r :: rs) (Z.max s frame - frame) = Some r) as Hhere.
  { destruct (Z.le_gt_cases (frame + fr_frames r) s); [by left|]. destruct (Z.le_gt_cases e frame); [by right; left|].
    right; right. rewrite flag_at_cons by done. destruct (Z.ltb_spec (Z.max s frame) frame); [lia|].
    by destruct (Z.ltb_spec (Z.max s frame) (frame + fr_frames r)); [|lia]. }
  destruct (Z.leb_spec (frame + fr_frames r) s).
  { specialize (IH max Hp ltac:(lia) ltac:(lia) Hse).
    destruct (speed_loop rs _ _ _ _); [|by apply (Hlift (fun r => measured_run r = false))].
    destruct IH as [->|IH]; [by left|]. right. by apply (Hlift (fun r => fr_max_mps r = Some _)). }
  destruct (Z.leb_spec e frame); [by left|]. destruct Hhere as [?|[?|Hhere]]; [lia..|].
  destruct (fr_max_mps r) as [m|] eqn:Em; [destruct (F64.is_finite m) eqn:Efin|].
  2-3: exists (Z.max s frame), r; split_and!; [lia..|done|]; unfold measured_run; by rewrite Em.
  specialize (IH (if F64.lt max m then m else max) Hp ltac:(lia) ltac:(lia) Hse).
  destruct (speed_loop rs _ _ _ _) as [v|]; [|by apply (Hlift (fun r => measured_run r = false))].
  destruct IH as [->|IH]; [|right; by apply (Hlift (fun r => fr_max_mps r = Some _))].
  destruct (F64.lt max m); [right|by left]. exists (Z.max s frame), r. split_and!; [lia..|done|done].
Qed.

(** Frames [s..e) of an encoding, and how many of them satisfy a test. *)
Definition window {A} (runs : list (A * Z)) (s e : Z) : list A :=
  slice (expand runs) (Z.to_nat s) (Z.to_nat e).
Definition count {A} (p : A -> bool) (l : list A) : Z := Z.of_nat (length (filter (fun x => p x = true) l)).

Lemma count_app {A} (p : A -> bool) l1 l2 : count p (l1 ++ l2) = count p l1 + count p l2.
Proof. unfold count. rewrite filter_app, length_app. lia. Qed.

Lemma count_replicate {A} (p : A -> bool) n v : count p (replicate n v) = if p v then Z.of_nat n else 0.
Proof.
  unfold count. induction n as [|n IH]; cbn [replicate]; [by destruct (p v)|].
  rewrite filter_cons. destruct (decide (p v = true)) as [E|E].
  - rewrite E in *. simpl. lia.
  - apply not_true_iff_false in E. rewrite E in *. done.
Qed.

Lemma count_nonneg {A} (p : A -> bool) l : 0 <= count p l.
Proof. unfold count. lia. Qed.

Lemma count_le {A} (p : A -> bool) l : count p l <= Z.of_nat (length l).
Proof. unfold count. pose proof (length_filter (fun x => p x = true) l). lia. Qed.

Lemma window_cons {A} (v : A) n t s e : 0 < n -> s < e ->
  window ((v, n) :: t) s e
  = (if n <=? s then [] else if e <=? 0 then []
     else replicate (Z.to_nat (Z.min n e - Z.max 0 s)) v) ++ window t (s - n) (e - n).
Proof.
  intros Hn Hse. unfold window. rewrite expand_cons. unfold slice.
  destruct (Z.leb_spec n s).
  - rewrite drop_app_ge by (rewrite length_replicate; lia). rewrite length_replicate. cbn [app].
    f_equal; [lia|]. f_equal. lia.
  - destruct (Z.leb_spec e 0).
    + replace (Z.to_nat e) with 0%nat by lia. replace (Z.to_nat (e - n)) with 0%nat by lia.
      cbn [Nat.sub]. by rewrite !take_0.
    + rewrite drop_app_le by (rewrite length_replicate; lia). rewrite drop_replicate.
      rewrite take_app, take_replicate, length_replicate.
      replace (Z.to_nat (s - n)) with 0%nat by lia. rewrite drop_0. f_equal; [f_equal; lia|]. f_equal. lia.
Qed.

Definition is_fsd (ap : Z) : bool := ap =? AUTOPILOT_FSD.
Definition is_assist (ap : Z) : bool := negb (ap =? AUTOPILOT_FSD) && negb (ap =? AUTOPILOT_OFF).
Definition ap_window (runs : list ApRun) (s e : Z) : list Z :=
  window ((fun r => (ar_ap r, ar_frames r)) <$> runs) s e.

Lemma window_length {A} (runs : list (A * Z)) s e :
  (length (window runs s e) <= Z.to_nat e)%nat.
Proof. unfold window, slice. rewrite length_take. lia. Qed.

Lemma ap_loop_spec runs s e : forall frame acc,
  Forall (fun f => 0 < f) (ar_frames <$> runs) -> 0 <= frame -> 0 <= s < e -> e < 2 ^ 32 ->
  frame + sum_Z (ar_frames <$> runs) < 2 ^ 63 ->
  0 <= sa_fsd acc <= sa_total acc -> 0 <= sa_other acc <= sa_total acc -> sa_total acc <= frame ->
  let r := ap_loop runs s e frame acc in
  let w := ap_window runs (s - frame) (e - frame) in
  sa_fsd r = sa_fsd acc + count is_fsd w /\ sa_other r = sa_other acc + count is_assist w
  /\ sa_total r = sa_total acc + Z.of_nat (length w).
Proof.
  induction runs as [|[ap n] rs IH]; intros frame acc Hp Hf Hse He Hs Ha1 Ha2 Ha3; cbn [ap_loop].
  - assert (ap_window [] (s - frame) (e - frame) = []) as ->.
    { unfold ap_window, window, slice, expand. cbn [fmap list_fmap concat]. by rewrite drop_nil, take_nil. }
    unfold count. cbn. split_and!; lia.
  - rewrite fmap_cons in *. apply Forall_cons in Hp as [Hr Hp]. cbn [sum_Z foldr] in Hs.
    fold (sum_Z (ar_frames <$> rs)) in Hs. cbn [ar_ap ar_frames] in *.
    assert (0 <= sum_Z (ar_frames <$> rs)) by (apply sum_Z_nonneg; eapply Forall_impl; [exact Hp|cbn; lia]).
    rewrite (u64_small (frame + n)) by lia.
    unfold ap_window in *. rewrite fmap_cons. cbn [ar_ap ar_frames]. rewrite window_cons by lia.
    replace (s - frame - n) with (s - (frame + n)) by lia.
    replace (e - frame - n) with (e - (frame + n)) by lia.
    destruct (Z.leb_spec (frame + n) s), (Z.leb_spec n (s - frame)); try lia.
    { cbn [app]. apply IH; auto; lia. }
    destruct (Z.leb_spec e frame), (Z.leb_spec (e - frame) 0); try lia.
    { cbn [app]. pose proof (window_length ((fun r => (ar_ap r, ar_frames r)) <$> rs) (s - (frame + n)) (e - (frame + n))) as Hl.
      replace (Z.to_nat (e - (frame + n))) with 0%nat in Hl by lia.
      destruct (window _ _ _); [unfold count; cbn; split_and!; lia | simpl in Hl; lia]. }
    set (ov := Z.min (frame + n) e - Z.max frame s).
    assert (0 < ov <= n) by (unfold ov; lia). rewrite (u64_small ov) by lia.
    rewrite !count_app, !count_replicate, length_app, length_replicate.
    replace (Z.min n (e - frame) - Z.max 0 (s - frame)) with ov by (unfold ov; lia).
    rewrite !(u64_small (_ + ov)) by lia.
    match goal with |- context [ap_loop _ _ _ _ ?acc'] => destruct (IH (frame + n) acc') as (H1' & H2' & H3') end;
      cbn [sa_fsd sa_other sa_total]; try done; try lia.
    1: { destruct (ap =? AUTOPILOT_FSD); lia. }
    1: { destruct (ap =? AUTOPILOT_FSD); [lia|]. destruct (negb _); lia. }
    cbv zeta. rewrite H1', H2', H3'. cbn [sa_fsd sa_other sa_total]. unfold is_fsd, is_assist.
    destruct (ap =? AUTOPILOT_FSD), (ap =? AUTOPILOT_OFF); cbn [negb andb]; lia.
Qed.

(** ** The detector *)

(** [u32] fields, run vectors that fit in memory, and fewer than 2^31 frames in
    a clip (a minute has about two thousand). *)
Definition evidence_ok (c : SummonClipEvidence) : Prop :=
  0 <= ev_start_frame c /\ 0 <= ev_end_frame c < 2 ^ 32 /\ 0 <= ev_total_frames c < 2 ^ 31
  /\ frames_in_range (fr_frames <$> ev_flag_runs c)
  /\ frames_in_range (ar_frames <$> ev_ap_runs c)
  /\ frames_in_range (gr_frames <$> ev_gear_runs c).

Definition in_segment (c : SummonClipEvidence) (f : Z) : Prop :=
  ev_start_frame c <= f < ev_end_frame c.

Lemma evidence_valid_spec c : evidence_ok c -> evidence_valid c = true ->
  spans (fr_frames <$> ev_flag_runs c) (ev_total_frames c)
  /\ ev_start_frame c < ev_end_frame c <= ev_total_frames c.
Proof.
  intros (_ & _ & _ & Hr & _). unfold evidence_valid.
  intros H%negb_true_iff. bsimp. apply runs_span_frames_spec in H0; [|done]. split; [done|lia].
Qed.

Lemma bookend_range c : evidence_ok c ->
  bookend_frames c = Z.max ((ev_total_frames c + 5) / 6) 1
  /\ 1 <= bookend_frames c <= ev_total_frames c / 6 + 1.
Proof.
  intros (_ & _ & Ht & _). unfold bookend_frames, SUMMON_BOOKEND_SECONDS, CLIP_DURATION_MS, div_ceil.
  rewrite u64_small by lia.
  replace (ev_total_frames c * 10 * 1000 + 60000 - 1) with ((ev_total_frames c + 5) * 10000 + 9999) by lia.
  assert (((ev_total_frames c + 5) * 10000 + 9999) / 60000 = (ev_total_frames c + 5) / 6) as ->.
  { change 60000 with (10000 * 6). rewrite <- Z.div_div by lia. f_equal.
    rewrite Z.div_add_l by lia. by change (9999 / 10000) with 0; rewrite Z.add_0_r. }
  assert (0 <= (ev_total_frames c + 5) / 6 <= ev_total_frames c / 6 + 1).
  { split; [apply Z.div_pos; lia|]. rewrite <- Z.div_add by lia. apply Z.div_le_mono; lia. }
  assert (ev_total_frames c / 6 <= ev_total_frames c) by (apply Z.div_le_upper_bound; lia).
  assert (0 <= ev_total_frames c / 6) by (apply Z.div_pos; lia).
  rewrite u32_small by lia. lia.
Qed.

Lemma drive_speed_spec clips : forall s v,
  (forall c, c ∈ clips -> evidence_ok c /\ evidence_valid c = true) ->
  ordered s -> drive_speed clips s = Some v ->
  ordered v /\ F64.lt v s = false
  /\ forall c f r, c ∈ clips -> in_segment c f -> flag_at (ev_flag_runs c) f = Some r ->
     exists m, fr_max_mps r = Some m /\ F64.is_finite m = true /\ F64.lt v m = false.
Proof.
  induction clips as [|c t IH]; intros s v Hv Ho; cbn [drive_speed].
  - intros [= <-]. split_and!; [done|apply flt_irrefl|]. by intros c f r ?%elem_of_nil.
  - destruct (segment_max_speed c) as [m|] eqn:Em; [|done]. fold (raise s m).
    destruct (raise_spec s m Ho) as (R1 & R2 & R3). intros H.
    apply IH in H as (H1 & H2 & H3); [|intros x Hx; apply Hv, elem_of_cons; by right|done].
    split_and!; [done|by eapply flt_trans_le|].
    intros c' f r [->|Hc']%elem_of_cons Hf Hr; [|by eapply H3].
    destruct (Hv c ltac:(apply elem_of_cons; by left)) as [Hok Hval].
    destruct (evidence_valid_spec c Hok Hval) as [[Hsp Hsum] Hb]. destruct Hok as (Hs0 & He0 & Ht0 & _).
    unfold segment_max_speed in Em.
    apply speed_loop_spec in Em as (M1 & M2 & M3); [|done|lia|lia|lia|by eexists].
    destruct (M3 f r Hf) as (m' & Hm' & Hfin & Hlt); [by rewrite Z.sub_0_r|].
    exists m'. split_and!; [done|done|]. eapply flt_trans_le; [|exact Hlt|done].
    eapply flt_trans_le; [exact H2|exact R3|done].
Qed.

(** A frame of the drive, with its run. *)
Definition drive_frame (clips : list SummonClipEvidence) (f : Z) (r : FlagRun) : Prop :=
  exists c, c ∈ clips /\ in_segment c f /\ flag_at (ev_flag_runs c) f = Some r.

Lemma drive_frame_cons c t f r : drive_frame t f r -> drive_frame (c :: t) f r.
Proof. intros (c' & Hc & H). exists c'. split; [by apply elem_of_cons; right|done]. Qed.

Lemma drive_speed_evidence clips : forall s,
  (forall c, c ∈ clips -> evidence_ok c /\ evidence_valid c = true) ->
  match drive_speed clips s with
  | None => exists f r, drive_frame clips f r /\ measured_run r = false
  | Some v => v = s \/ v = F64.zero \/ exists f r, drive_frame clips f r /\ fr_max_mps r = Some v
  end.
Proof.
  induction clips as [|c t IH]; intros s Hv; cbn [drive_speed]; [by left|].
  destruct (Hv c ltac:(apply elem_of_cons; by left)) as [Hok Hval].
  destruct (evidence_valid_spec c Hok Hval) as [[Hsp Hsum] Hb]. destruct Hok as (Hs0 & He0 & Ht0 & _).
  pose proof (speed_loop_evidence (ev_flag_runs c) 0 (ev_start_frame c) (ev_end_frame c) F64.zero Hsp
    ltac:(lia) ltac:(lia) ltac:(lia)) as Hm.
  assert (forall f r, ev_start_frame c <= f < ev_end_frame c -> flag_at (ev_flag_runs c) (f - 0) = Some r ->
    drive_frame (c :: t) f r) as Hfr.
  { intros f r Hf Hr. exists c. rewrite Z.sub_0_r in Hr. split_and!; [by apply elem_of_cons; left|done|done]. }
  unfold segment_max_speed. destruct (speed_loop _ _ _ _ _) as [m|].
  2: { destruct Hm as (f & r & Hf & Hr & Hn). exists f, r. by split; [apply Hfr|]. }
  specialize (IH (if F64.lt s m then m else s) ltac:(intros x Hx; apply Hv, elem_of_cons; by right)).
  destruct (drive_speed t _) as [v|].
  2: { destruct IH as (f & r & Hf & Hn). exists f, r. by split; [apply drive_frame_cons|]. }
  destruct IH as [->|[->|(f & r & Hf & Hn)]].
  - destruct (F64.lt s m); [|by left]. destruct Hm as [->|(f & r & Hf & Hr & Hn)]; [by right; left|].
    right; right. exists f, r. by split; [apply Hfr|].
  - by right; left.
  - right; right. exists f, r. by split; [apply drive_frame_cons|].
Qed.

(** The autopilot frames of a clip's segment. *)
Definition segment_aps (c : SummonClipEvidence) : list Z :=
  ap_window (ev_ap_runs c) (ev_start_frame c) (ev_end_frame c).

Lemma segment_ap_frames_spec c ap :
  evidence_ok c -> ev_start_frame c < ev_end_frame c <= ev_total_frames c ->
  spans (ar_frames <$> ev_ap_runs c) (ev_total_frames c) -> segment_ap_frames c = Some ap ->
  sa_fsd ap = count is_fsd (segment_aps c) /\ sa_other ap = count is_assist (segment_aps c)
  /\ sa_total ap = Z.of_nat (length (segment_aps c)).
Proof.
  intros (Hs0 & He0 & Ht0 & _) Hb [Hp Hsum] H. unfold segment_ap_frames in H.
  destruct (is_empty _); [done|]. destruct (_ =? 0); [done|]. injection H as <-.
  destruct (ap_loop_spec (ev_ap_runs c) (ev_start_frame c) (ev_end_frame c) 0 (mkApFrames 0 0 0))
    as (H1 & H2 & H3); cbn [sa_fsd sa_other sa_total]; try done; try lia.
  cbv zeta in H1, H2, H3. rewrite H1, H2, H3. cbn [sa_fsd sa_other sa_total].
  rewrite !Z.sub_0_r, !Z.add_0_l. done.
Qed.

Lemma count_zero {A} (p : A -> bool) l x : count p l <= 0 -> x ∈ l -> p x = false.
Proof.
  unfold count. intros H Hx. destruct (filter (fun x => p x = true) l) eqn:E; [|simpl in H; lia].
  apply not_true_is_false. intros Hp. assert (x ∈ filter (fun x => p x = true) l) as Hin
    by (by apply list_elem_of_filter). rewrite E in Hin. by apply elem_of_nil in Hin.
Qed.

Lemma fsd_share_spec clips : forall fsd total r,
  (forall c, c ∈ clips -> evidence_ok c /\ ev_start_frame c < ev_end_frame c <= ev_total_frames c
     /\ spans (ar_frames <$> ev_ap_runs c) (ev_total_frames c)) ->
  0 <= fsd <= total -> total + 2 ^ 32 * Z.of_nat (length clips) < 2 ^ 63 ->
  fsd_share clips fsd total = Some r ->
  (forall c ap, c ∈ clips -> ap ∈ segment_aps c -> ap = AUTOPILOT_OFF \/ ap = AUTOPILOT_FSD)
  /\ fst r = fsd + count is_fsd (mbind segment_aps clips)
  /\ snd r = total + Z.of_nat (length (mbind segment_aps clips))
  /\ 0 <= fst r <= snd r /\ snd r < 2 ^ 63.
Proof.
  induction clips as [|c t IH]; intros fsd total r Hc Hf Hb; cbn [fsd_share].
  - intros [= <-]. cbn [fst snd mbind list_bind length] in *. unfold count. cbn.
    split_and!; [by intros c ap ?%elem_of_nil|lia..].
  - destruct (segment_ap_frames c) as [ap|] eqn:Ea; [|done].
    destruct (Hc c ltac:(apply elem_of_cons; by left)) as (Hok & Hse & Hsp).
    destruct (segment_ap_frames_spec c ap Hok Hse Hsp Ea) as (A1 & A2 & A3).
    destruct (Z.ltb_spec 0 (sa_other ap)) as [|Hno]; [done|].
    assert (Z.of_nat (length (segment_aps c)) <= 2 ^ 32) as Hlen.
    { pose proof (window_length ((fun r => (ar_ap r, ar_frames r)) <$> ev_ap_runs c) (ev_start_frame c) (ev_end_frame c)).
      unfold segment_aps, ap_window. destruct Hok as (? & ? & _). lia. }
    pose proof (count_nonneg is_fsd (segment_aps c)). pose proof (count_le is_fsd (segment_aps c)).
    cbn [length] in Hb. rewrite !u64_small by lia. intros H'.
    apply IH in H' as (H1' & H2' & H3' & H4'); [|intros x Hx; apply Hc, elem_of_cons; by right|lia|lia].
    cbn [mbind list_bind]. rewrite count_app, length_app. split_and!; [|lia..].
    intros c' a [->|Hc']%elem_of_cons Ha; [|by eapply H1'].
    rewrite A2 in Hno. pose proof (count_zero _ _ _ Hno Ha) as Hn. unfold is_assist in Hn.
    destruct (Z.eqb_spec a AUTOPILOT_FSD); [by right|]. destruct (Z.eqb_spec a AUTOPILOT_OFF); [by left|done].
Qed.

(** No frame of the segment has brake or accelerator input. *)
Definition pedal_free (c : SummonClipEvidence) : Prop :=
  forall f r, in_segment c f -> flag_at (ev_flag_runs c) f = Some r -> Z.land (fr_flags r) PEDAL = 0.

(** Both blinkers on in one frame of the window. *)
Definition hazard_in (c : SummonClipEvidence) (from to : Z) : Prop :=
  exists f r, from <= f < to /\ flag_at (ev_flag_runs c) f = Some r
    /\ Z.land (fr_flags r) HAZARD = HAZARD.

(** In Park just before the segment, or on its first frame at the clip's
    start. *)
Definition park_before (c : SummonClipEvidence) : Prop :=
  gear_at (ev_gear_runs c) (Z.max 0 (ev_start_frame c - 1)) = Some GEAR_PARK.
(** In Park just after the segment, or on its last frame at the clip's end. *)
Definition park_after (c : SummonClipEvidence) : Prop :=
  gear_at (ev_gear_runs c) (ev_end_frame c) = Some GEAR_PARK
  \/ (gear_at (ev_gear_runs c) (ev_end_frame c) = None
      /\ gear_at (ev_gear_runs c) (ev_end_frame c - 1) = Some GEAR_PARK).

Definition hazard_signature (clips : list SummonClipEvidence) : Prop :=
  let first := hd evidence0 clips in
  let last := List.last clips evidence0 in
  hazard_in first (ev_start_frame first - bookend_frames first)
    (Z.min (ev_end_frame first) (ev_start_frame first + bookend_frames first))
  /\ hazard_in last (Z.max (ev_start_frame last) (ev_end_frame last - bookend_frames last))
       (Z.min (ev_total_frames last) (ev_end_frame last + bookend_frames last)).

Definition self_driving_signature (clips : list SummonClipEvidence) : Prop :=
  park_before (hd evidence0 clips) /\ park_after (List.last clips evidence0)
  /\ (forall c ap, c ∈ clips -> ap ∈ segment_aps c -> ap = AUTOPILOT_OFF \/ ap = AUTOPILOT_FSD)
  /\ 0 < Z.of_nat (length (mbind segment_aps clips)) <= 2 * count is_fsd (mbind segment_aps clips).

Lemma hazard_at_start_spec c : evidence_ok c -> evidence_valid c = true ->
  hazard_at_start c = true ->
  hazard_in c (ev_start_frame c - bookend_frames c)
    (Z.min (ev_end_frame c) (ev_start_frame c + bookend_frames c)).
Proof.
  intros Hok Hv. destruct (evidence_valid_spec c Hok Hv) as [Hsp Hb].
  destruct (bookend_range c Hok) as [_ Hbk]. destruct Hok as (Hs0 & He0 & Ht0 & _).
  assert (ev_total_frames c / 6 <= ev_total_frames c) by (apply Z.div_le_upper_bound; lia).
  assert (6 * (ev_total_frames c / 6) <= ev_total_frames c) by (apply Z.mul_div_le; lia).
  unfold hazard_at_start. rewrite u32_small by lia.
  rewrite (flag_runs_overlap_spec _ _ _ _ _ _ Hsp) by (unfold u_sat_sub; lia).
  intros (f & r & Hf & Hr & Hc). unfold u_sat_sub in Hf. exists f, r. split_and!; [lia..|done|].
  unfold carries in Hc. by apply Z.eqb_eq in Hc.
Qed.

Lemma hazard_at_end_spec c : evidence_ok c -> evidence_valid c = true ->
  hazard_at_end c = true ->
  hazard_in c (Z.max (ev_start_frame c) (ev_end_frame c - bookend_frames c))
    (Z.min (ev_total_frames c) (ev_end_frame c + bookend_frames c)).
Proof.
  intros Hok Hv. destruct (evidence_valid_spec c Hok Hv) as [Hsp Hb].
  destruct (bookend_range c Hok) as [_ Hbk]. destruct Hok as (Hs0 & He0 & Ht0 & _).
  assert (6 * (ev_total_frames c / 6) <= ev_total_frames c) by (apply Z.mul_div_le; lia).
  unfold hazard_at_end. rewrite u32_small by lia.
  rewrite (flag_runs_overlap_spec _ _ _ _ _ _ Hsp) by (unfold u_sat_sub; lia).
  intros (f & r & Hf & Hr & Hc). unfold u_sat_sub in Hf. exists f, r. split_and!; [lia..|done|].
  unfold carries in Hc. by apply Z.eqb_eq in Hc.
Qed.

Lemma bounded_by_park_spec c : evidence_ok c -> ev_start_frame c < ev_end_frame c <= ev_total_frames c ->
  spans (gr_frames <$> ev_gear_runs c) (ev_total_frames c) ->
  (segment_bounded_by_park c false = true -> park_before c)
  /\ (segment_bounded_by_park c true = true -> park_after c).
Proof.
  intros (Hs0 & He0 & Ht0 & _) Hb Hsp. unfold segment_bounded_by_park, park_before, park_after, is_park.
  split.
  - destruct (Z.ltb_spec 0 (ev_start_frame c)).
    + rewrite (gear_at_frame_spec _ _ _ Hsp), Z.max_r by lia. by intros ?%bool_decide_eq_true.
    + rewrite (gear_at_frame_spec _ _ _ Hsp), Z.max_l by lia. by intros ?%bool_decide_eq_true.
  - rewrite !(gear_at_frame_spec _ _ _ Hsp) by (try lia; apply u32_range). rewrite u32_small by lia.
    destruct (gear_at (ev_gear_runs c) (ev_end_frame c)).
    + intros ->%Z.eqb_eq. by left.
    + intros ?%bool_decide_eq_true. by right.
Qed.

Lemma self_driving_spec clips fsd total :
  (forall c, c ∈ clips -> evidence_ok c /\ evidence_valid c = true) ->
  hd evidence0 clips ∈ clips -> List.last clips evidence0 ∈ clips -> Z.of_nat (length clips) < 2 ^ 30 ->
  forallb (fun c => runs_span_frames (ar_frames <$> ev_ap_runs c) (ev_total_frames c)
                    && runs_span_frames (gr_frames <$> ev_gear_runs c) (ev_total_frames c)) clips = true ->
  segment_bounded_by_park (hd evidence0 clips) false = true ->
  segment_bounded_by_park (List.last clips evidence0) true = true ->
  fsd_share clips 0 0 = Some (fsd, total) -> 0 < total <= u64 (fsd * 2) ->
  self_driving_signature clips.
Proof.
  intros Hval Hfirst Hlast Hlen Er Eb1 Eb2 Ef Hshare. rewrite forallb_forall in Er.
  assert (forall c, c ∈ clips -> evidence_ok c /\ ev_start_frame c < ev_end_frame c <= ev_total_frames c
    /\ spans (ar_frames <$> ev_ap_runs c) (ev_total_frames c)
    /\ spans (gr_frames <$> ev_gear_runs c) (ev_total_frames c)) as Hspans.
  { intros c Hc. destruct (Hval c Hc) as [Hok' Hv']. destruct (evidence_valid_spec c Hok' Hv') as [_ Hb].
    specialize (Er c ltac:(by apply list_elem_of_In)).
    apply andb_true_iff in Er as [E1 E2]. split; [exact Hok'|].
    destruct Hok' as (_ & _ & _ & _ & Ha & Hg). split; [exact Hb|].
    split; apply runs_span_frames_spec; assumption. }
  apply fsd_share_spec in Ef as (F1 & F2 & F3 & F4 & F5); [|intros c Hc|lia|lia].
  2: { destruct (Hspans c Hc) as (? & ? & ? & _). auto. }
  cbn [fst snd] in *. rewrite Z.add_0_l in F2, F3. rewrite u64_small in Hshare by lia.
  destruct (Hspans _ Hfirst) as (P1 & P2 & _ & P3), (Hspans _ Hlast) as (Q1 & Q2 & _ & Q3).
  split; [by apply (proj1 (bounded_by_park_spec _ P1 P2 P3))|].
  split; [by apply (proj2 (bounded_by_park_spec _ Q1 Q2 Q3))|].
  split; [exact F1|]. rewrite <- F3, <- F2. lia.
Qed.

(** The speed rule of an accepted drive. When every frame has a usable recorded
    maximum, each is at most 4.5 m/s and one is positive. When some frame has
    none, the recorded maxima are not consulted at all: the drive's own maximum,
    which must come from the car, is positive and at most 4.5 m/s. *)
Definition parking_lot_speed (clips : list SummonClipEvidence) (max_speed_mps : Z) (has_sei : bool) : Prop :=
  ((forall f r, drive_frame clips f r ->
      exists m, fr_max_mps r = Some m /\ F64.is_finite m = true /\ F64.lt (F64.dec 45 1) m = false)
   /\ exists f r m, drive_frame clips f r /\ fr_max_mps r = Some m /\ F64.lt F64.zero m = true)
  \/ ((exists f r, drive_frame clips f r /\ measured_run r = false)
      /\ has_sei = true /\ F64.lt F64.zero max_speed_mps = true /\ F64.lt (F64.dec 45 1) max_speed_mps = false).

Lemma speed_rule clips max_speed_mps (has_sei : bool) speed :
  (forall c, c ∈ clips -> evidence_ok c /\ evidence_valid c = true) ->
  match drive_speed clips F64.zero with
  | Some s => Some s
  | None => if has_sei then Some max_speed_mps else None
  end = Some speed ->
  F64.lt F64.zero speed = true -> F64.lt SUMMON_MAX_SPEED_MPS speed = false ->
  parking_lot_speed clips max_speed_mps has_sei.
Proof.
  intros Hval Es Hpos Hcap. pose proof (drive_speed_evidence clips F64.zero Hval) as Hev.
  pose proof (drive_speed_spec clips F64.zero) as Hmax.
  destruct (drive_speed clips F64.zero) as [v|] eqn:Ev.
  - injection Es as ->. destruct (Hmax speed Hval ltac:(unfold ordered; by eexists) eq_refl) as (Ho & _ & Hm). left. split.
    + intros f r (c & Hc & Hf & Hr). destruct (Hm c f r Hc Hf Hr) as (m & Hm1 & Hfin & Hm2). exists m.
      split_and!; [done|done|]. exact (flt_trans_le 52 11 m speed SUMMON_MAX_SPEED_MPS Hcap Hm2 Ho).
    + destruct Hev as [->|[->|(f & r & Hf & Hr)]]; [by rewrite (flt_irrefl 52 11) in Hpos..|]. exists f, r, speed. split_and!; assumption.
  - right. destruct has_sei; [|discriminate Es]. injection Es as ->. exact (conj Hev (conj eq_refl (conj Hpos Hcap))).
Qed.

#[local] Opaque F64.lt F64.sub F64.of_Z covered_ms drive_speed fsd_share.

(** C15: A drive accepted as summon lasts at most ten minutes, of which at most
    thirty seconds are not covered by its segments; every clip has flag
    evidence for all its frames; no frame of any segment shows brake or
    accelerator; if every frame of the drive has a usable recorded speed then
    all of them are at most 4.5 m/s and one is positive, and if some frame has
    none then the drive's maximum speed from the car is positive and at most
    4.5 m/s; and either the hazards were on around both ends, or the car stood
    in Park at both ends, used no driver-assist mode and drove itself for at
    least half the frames. *)
Theorem detect_summon_sound clips max_speed_mps duration_ms has_sei :
  Forall evidence_ok clips -> Z.of_nat (length clips) < 2 ^ 30 ->
  detect_summon clips max_speed_mps duration_ms has_sei = true ->
  clips <> [] /\ 0 < duration_ms <= 600000
  /\ F64.lt (F64.of_Z 30000) (F64.sub (F64.of_Z duration_ms) (covered_ms clips)) = false
  /\ (forall c, c ∈ clips -> spans (fr_frames <$> ev_flag_runs c) (ev_total_frames c)
        /\ ev_start_frame c < ev_end_frame c <= ev_total_frames c /\ pedal_free c)
  /\ parking_lot_speed clips max_speed_mps has_sei
  /\ (hazard_signature clips \/ self_driving_signature clips).
Proof.
  intros Hok Hlen. rewrite Forall_forall in Hok. unfold detect_summon.
  destruct clips as [|c0 cs] eqn:Ecl; [done|]. cbn [is_empty]. rewrite <- Ecl in *.
  assert (hd evidence0 clips ∈ clips /\ List.last clips evidence0 ∈ clips) as [Hfirst Hlast].
  { rewrite Ecl. split; [by left|]. apply list_elem_of_In. destruct cs as [|c1 cs] using rev_ind; [by left|].
    rewrite app_comm_cons, List.last_last. apply in_app_iff. right. by left. }
  destruct (_ || _) eqn:Ed; [done|]. destruct (forallb evidence_valid clips) eqn:Ev; [|done].
  cbn [negb]. destruct (F64.lt (F64.of_Z SUMMON_MAX_UNCOVERED_MS) _) eqn:Eu; [done|].
  assert (forall c, c ∈ clips -> evidence_ok c /\ evidence_valid c = true) as Hval.
  { rewrite forallb_forall in Ev. intros c Hc. split; [by apply Hok|]. by apply Ev, list_elem_of_In. }
  destruct (match drive_speed clips F64.zero with Some s => Some s | None => _ end) as [speed|] eqn:Es; [|done].
  destruct (negb (F64.lt F64.zero speed) || F64.lt SUMMON_MAX_SPEED_MPS speed) eqn:Esp; [done|].
  destruct (existsb _ clips) eqn:Ep; [done|]. bsimp. intros Hsig.
  change SUMMON_MAX_DURATION_MS with 600000 in *. change SUMMON_MAX_UNCOVERED_MS with 30000 in *.
  split_and!; [by rewrite Ecl | lia | lia | done | | |].
  - intros c Hc. destruct (Hval c Hc) as [Hok' Hv']. destruct (evidence_valid_spec c Hok' Hv') as [Hsp Hb].
    split_and!; [done|lia|lia|]. intros f r Hf Hr. destruct Hok' as (_ & _ & Ht & _).
    destruct (Z.eq_dec (Z.land (fr_flags r) PEDAL) 0) as [|Hne]; [done|exfalso].
    apply not_true_iff_false in Ep. apply Ep, existsb_exists. exists c. split; [by apply list_elem_of_In|].
    apply (flag_runs_overlap_spec _ _ _ _ _ _ Hsp); [lia|lia|]. exists f, r. split_and!; [apply Hf..|done|].
    unfold carries. by apply negb_true_iff, Z.eqb_neq.
  - by eapply speed_rule.
  - destruct (hazard_at_start _ && hazard_at_end _) eqn:Eh.
    { apply andb_true_iff in Eh as [Eh1 Eh2]. left. destruct (Hval _ Hfirst), (Hval _ Hlast).
      split; [by apply hazard_at_start_spec | by apply hazard_at_end_spec]. }
    right. match type of Hsig with context [forallb ?p clips] => destruct (forallb p clips) eqn:Er end;
      [|discriminate Hsig]. cbn [negb] in Hsig.
    destruct (segment_bounded_by_park (hd evidence0 clips) false) eqn:Eb1; [|discriminate Hsig].
    destruct (segment_bounded_by_park (List.last clips evidence0) true) eqn:Eb2; [|discriminate Hsig].
    cbn [negb orb] in Hsig. destruct (fsd_share clips 0 0) as [[fsd total]|] eqn:Ef; [|discriminate Hsig].
    apply andb_true_iff in Hsig as [Hs1 Hs2]. apply Z.ltb_lt in Hs1. apply Z.leb_le in Hs2.
    eapply self_driving_spec; eauto.
Qed.

(** A summon across a parking lot on the hazard signature: blinkers on at both
    ends, 2 m/s, no pedals; a clip of 2000 frames of which 300 to 1500 drive. *)
Definition demo_summon : SummonClipEvidence :=
  mkEvidence [mkFlagRun 3 400 (Some (F64.of_Z 1)); mkFlagRun 0 1000 (Some (F64.of_Z 2));
              mkFlagRun 3 600 (Some (F64.of_Z 1))]
    [mkApRun AUTOPILOT_OFF 2000] [mkGearRun GEAR_PARK 300; mkGearRun GEAR_DRIVE 1200; mkGearRun GEAR_PARK 500]
    300 1500 2000.

Lemma detect_summon_sound_witness : pedal_free demo_summon.
Proof.
  destruct (detect_summon_sound [demo_summon] 0 36000 true) as (_ & _ & _ & H & _).
  - apply Forall_singleton. unfold evidence_ok, frames_in_range. cbn.
    split_and!; try lia; repeat (apply Forall_cons; split; [lia|]); by apply Forall_nil.
  - cbn. lia.
  - vm_compute. reflexivity.
  - apply (H demo_summon). by apply elem_of_cons; left.
Defined.

(** The run-length walk that looks for flags in a window answers exactly the
    frame-wise question, on evidence that spans the clip and a non-empty
    window. *)
Theorem flag_overlap_framewise runs from to mask all total :
  spans (fr_frames <$> runs) total -> total < 2 ^ 32 -> from < to ->
  flag_runs_overlap runs from to mask all = true
  <-> exists f r, from <= f < to /\ flag_at runs f = Some r /\ carries mask all r = true.
Proof. apply flag_runs_overlap_spec. Qed.

Lemma flag_overlap_framewise_witness :
  exists f r, 350 <= f < 360 /\ flag_at (ev_flag_runs demo_summon) f = Some r /\ carries HAZARD true r = true.
Proof.
  apply (flag_overlap_framewise (ev_flag_runs demo_summon) 350 360 HAZARD true 2000);
    [|lia|lia|reflexivity].
  split; [|reflexivity]. repeat (apply Forall_cons; split; [reflexivity|]). by apply Forall_nil.
Defined.
