(* ===== verification/Space.v ===== *)
(** * Free-space management ([crates/usb_gadget/src/space.rs])

    [manage_free_space] releases old snapshots until the block and inode targets
    hold. What it asks of the system (the output of [stat], the mount table, the
    stall latch in /run, the snapshot store) is the interface [SpaceEnv]; the
    snapshot store's promises to it are [SpaceEnvLaws]. *)

From Stdlib Require Import ZArith Lia.
From stdpp Require Import base list sets.
From S2P Require Import Prelude Str.

Open Scope Z_scope.

(** ** Policy arithmetic *)

Definition INODE_RESERVE_FLOOR : Z := 20000.
Definition INODE_RESERVE_DIVISOR : Z := 20.
Definition INODE_RESERVE_CAP_DIVISOR : Z := 4.
Definition MAX_STALE_INODE_RELEASES : Z := 3.
Definition FIXED_RESERVE_BYTES : Z := 10 * 1024 * 1024 * 1024.
Definition RESERVE_PCT_DIVISOR : Z := 33.

Definition inode_reserve (total_inodes : Z) : Z :=
  Z.min (Z.max (total_inodes / INODE_RESERVE_DIVISOR) INODE_RESERVE_FLOOR)
    (total_inodes / INODE_RESERVE_CAP_DIVISOR).

Definition default_reserve_bytes (total : Z) : Z :=
  u64_sat_add FIXED_RESERVE_BYTES (total / RESERVE_PCT_DIVISOR).

Definition targets_met (free reserve : Z) (free_inodes : option Z) (ireserve : Z) : bool :=
  (reserve <=? free) && match free_inodes with None => true | Some f => ireserve <? f end.

(** [StallGuard::record]: the counter after a release, and whether it trips. *)
Definition record (consecutive : Z) (block_target_met : bool) (inodes_before inodes_after : option Z)
  : Z * bool :=
  if negb block_target_met then (0, false)
  else match inodes_before, inodes_after with
       | Some before, Some after =>
           if after <=? before
           then let c := u32 (consecutive + 1) in (c, MAX_STALE_INODE_RELEASES <=? c)
           else (0, false)
       | _, _ => (0, false)
       end.

(** ** Candidates *)

Definition slot_num (name : str) : option Z :=
  s ← strip_prefix (lit "snap-") name;
  if negb (is_empty s) && forallb (fun b => (48 <=? b) && (b <=? 57)) s
  then parse_uint (2 ^ 32 - 1) s else None.

(** [max_by_key]: the last of the elements with the greatest key. *)
Definition max_slot (best : option (Z * str)) (name : str) : option (Z * str) :=
  match slot_num name with
  | None => best
  | Some s => match best with
              | Some (b, n) => if s <? b then Some (b, n) else Some (s, name)
              | None => Some (s, name)
              end
  end.
Definition highest_slot (names : list str) : option str := snd <$> foldl max_slot None names.

Definition releasable (in_age_order : list str) : list str :=
  if (length in_age_order <? 2)%nat then []
  else
    let highest := highest_slot in_age_order in
    let rest := take (pred (length in_age_order)) in_age_order in
    match highest with
    | Some h => filter (fun n => n <> h) rest
    | None => rest
    end.

(** ** Parsing *)

Definition mutable_rw_mounted (mounts : option str) : bool :=
  match mounts with
  | None => false
  | Some m =>
      existsb (fun line =>
        match split_whitespace line with
        | _ :: p :: _ :: opts :: _ =>
            bool_decide (p = lit "/mutable") && existsb (fun o => bool_decide (o = lit "rw")) (split_on 44 opts)
        | _ => false
        end) (split_on 10 m)
  end.

(** [stat --format="%b %S %f"]: total and free bytes. *)
Definition get_space (stat : option str) : option (Z * Z) :=
  s ← stat;
  match split_whitespace s with
  | b :: sz :: f :: _ =>
      blocks ← parse_uint U64_MAX b;
      block_size ← parse_uint U64_MAX sz;
      free_blocks ← parse_uint U64_MAX f;
      if (blocks =? 0) || (block_size =? 0) then None
      else Some (u64_sat_mul blocks block_size, u64_sat_mul free_blocks block_size)
  | _ => None
  end.

(** [stat --format="%c %d"]: total and free inodes. *)
Definition get_inodes (stat : option str) : option (Z * Z) :=
  s ← stat;
  match split_whitespace s with
  | t :: f :: _ =>
      total ← parse_uint U64_MAX t;
      free ← parse_uint U64_MAX f;
      if total =? 0 then None else Some (total, free)
  | _ => None
  end.

Definition read_stall_latch (latch : option str) : option Z :=
  s ← latch; parse_uint U64_MAX (trim s).

(** ** The system *)

Class SpaceEnv (W : Type) := {
  env_lock : W -> bool;
  env_stat_space : W -> option str;
  env_stat_inodes : W -> option str;
  env_mounts : W -> option str;
  env_latch : W -> option str;
  env_set_latch : str -> W -> W;
  env_clear_latch : W -> W;
  env_snapshots : W -> list str;
  env_release : str -> W -> bool * W;
}.

(** What the snapshot store and the latch promise: names are distinct, releasing
    a listed snapshot (even when it fails) removes at most that one, and the latch is a
    plain file on a filesystem of its own. *)
Class SpaceEnvLaws (W : Type) `{SpaceEnv W} := {
  snapshots_distinct : forall w, NoDup (env_snapshots w);
  release_keeps : forall n n' w, n ∈ env_snapshots w -> n' ∈ env_snapshots w -> n' <> n ->
    n' ∈ env_snapshots (snd (env_release n w));
  set_latch_snapshots : forall s w, env_snapshots (env_set_latch s w) = env_snapshots w;
  clear_latch_snapshots : forall w, env_snapshots (env_clear_latch w) = env_snapshots w;
  set_latch_get : forall s w, env_latch (env_set_latch s w) = Some s;
  clear_latch_get : forall w, env_latch (env_clear_latch w) = None;
  clear_latch_space : forall w, env_stat_space (env_clear_latch w) = env_stat_space w;
  clear_latch_inodes : forall w, env_stat_inodes (env_clear_latch w) = env_stat_inodes w;
}.

Inductive space_error :=
| SLock | SStat | SReserveTooLarge | SNoSnapshotsInodes | SNoSnapshots
| SOnlyProtectedInodes | SOnlyProtected | SStalled | SStillLow.

(** The result, the system afterwards and the snapshots whose release was
    attempted, in order. *)
Record outcome (W : Type) := mkOutcome {
  o_result : result space_error unit; o_world : W; o_released : list str;
}.
Arguments mkOutcome {W} _ _ _.
Arguments o_result {W} _.
Arguments o_world {W} _.
Arguments o_released {W} _.

Section manage.
Context {W : Type} `{SpaceEnv W}.

Definition halt_inode_eviction (free_inodes : option Z) (w : W) : W :=
  env_set_latch (print_uint (default 0 free_inodes)) w.

Definition mutable_inodes (w : W) : option (Z * Z) :=
  if mutable_rw_mounted (env_mounts w) then get_inodes (env_stat_inodes w) else None.

Definition meets_default_reserve (w : W) : result space_error bool :=
  let? (total, free) := ok_or (get_space (env_stat_space w)) SStat in
  let inodes := mutable_inodes w in
  let ireserve := match inodes with Some (t, _) => inode_reserve t | None => 0 end in
  let stalled := match env_latch w with Some _ => true | None => false end in
  Ok (negb stalled && targets_met free (default_reserve_bytes total) (snd <$> inodes) ireserve).

(** Free inodes, consulted only while the inode policy is on. *)
Definition inodes_now (policy_on : bool) (w : W) : option Z :=
  if policy_on then snd <$> get_inodes (env_stat_inodes w) else None.

Fixpoint release_loop (reserve ireserve : Z) (snaps : list str) (w : W) (guard : Z)
    (released : list str) : outcome W :=
  match snaps with
  | [] => mkOutcome (Err SStillLow) w released
  | snap :: rest =>
      let policy_on := 0 <? ireserve in
      let inodes_before := inodes_now policy_on w in
      let '(ok, w1) := env_release snap w in
      let released := released ++ [snap] in
      if negb ok then release_loop reserve ireserve rest w1 guard released
      else
        match get_space (env_stat_space w1) with
        | None => mkOutcome (Err SStat) w1 released
        | Some (_, new_free) =>
            let new_free_inodes := inodes_now policy_on w1 in
            if targets_met new_free reserve new_free_inodes ireserve
            then mkOutcome (Ok tt) w1 released
            else
              let '(guard, trips) := if policy_on
                then record guard (reserve <=? new_free) inodes_before new_free_inodes
                else (guard, false) in
              if trips then
                mkOutcome (Err SStalled)
                  (match new_free_inodes with Some f => env_set_latch (print_uint f) w1 | None => w1 end)
                  released
              else release_loop reserve ireserve rest w1 guard released
        end
  end.

(** The inode target after the reachability check and the stall latch, and the
    world with a lifted latch removed. *)
Definition inode_policy (w : W) : Z * option Z * W :=
  let inodes := mutable_inodes w in
  let ireserve := match inodes with Some (t, _) => inode_reserve t | None => 0 end in
  let free_inodes := snd <$> inodes in
  let '(ireserve, free_inodes) :=
    match inodes with
    | Some (total_inodes, _) => if total_inodes <=? ireserve then (0, None) else (ireserve, free_inodes)
    | None => (ireserve, free_inodes)
    end in
  match read_stall_latch (env_latch w) with
  | None => (ireserve, free_inodes, w)
  | Some latched =>
      match free_inodes with
      | Some now => if latched <? now then (ireserve, free_inodes, env_clear_latch w) else (0, None, w)
      | None => (0, None, w)
      end
  end.

Definition manage_free_space (reserve_bytes : option Z) (w : W) : outcome W :=
  if negb (env_lock w) then mkOutcome (Err SLock) w []
  else
    match get_space (env_stat_space w) with
    | None => mkOutcome (Err SStat) w []
    | Some (total, free) =>
        let reserve := match reserve_bytes with Some r => r | None => default_reserve_bytes total end in
        if total <=? reserve then mkOutcome (Err SReserveTooLarge) w []
        else
          let '(ireserve, free_inodes, w) := inode_policy w in
          if targets_met free reserve free_inodes ireserve then mkOutcome (Ok tt) w []
          else
            let snapshots := env_snapshots w in
            if is_empty snapshots then
              if reserve <=? free
              then mkOutcome (Err SNoSnapshotsInodes) (halt_inode_eviction free_inodes w) []
              else mkOutcome (Err SNoSnapshots) w []
            else
              let cands := releasable snapshots in
              if is_empty cands then
                if reserve <=? free
                then mkOutcome (Err SOnlyProtectedInodes) (halt_inode_eviction free_inodes w) []
                else mkOutcome (Err SOnlyProtected) w []
              else release_loop reserve ireserve cands w 0 []
    end.
End manage.
