(* ===== verification/SpaceSpec.v ===== *)
(** * Free-space management: what is never deleted, and when it stops *)

From Stdlib Require Import ZArith Lia.
From stdpp Require Import base list sets.
From S2P Require Import Prelude Str Space.

Open Scope Z_scope.

(** ** Targets *)

(** The inode target can always be met: it never asks for more than a quarter
    of the table, so it is strictly below the table size whenever there is one;
    from 80,000 inodes on it keeps the week-long floor of 20,000, and below that
    it is exactly the quarter. *)
Theorem inode_target_reachable (total : Z) :
  0 <= total ->
  0 <= 4 * inode_reserve total <= total
  /\ (0 < total -> inode_reserve total < total)
  /\ (80000 <= total -> 20000 <= inode_reserve total)
  /\ (total < 80000 -> inode_reserve total = total / 4).
Proof.
  intros Ht. unfold inode_reserve, INODE_RESERVE_DIVISOR, INODE_RESERVE_FLOOR, INODE_RESERVE_CAP_DIVISOR.
  pose proof (Z.mul_div_le total 4 ltac:(lia)). pose proof (Z.div_pos total 4 ltac:(lia) ltac:(lia)).
  assert (80000 <= total -> 20000 <= total / 4) by (intros; apply Z.div_le_lower_bound; lia).
  assert (total < 80000 -> total / 4 < 20000) by (intros; apply Z.div_lt_upper_bound; lia).
  split_and!; lia.
Qed.

Lemma inode_target_reachable_witness : inode_reserve 11800 < 11800 /\ inode_reserve 120960 = 20000.
Proof.
  destruct (inode_target_reachable 11800 ltac:(lia)) as (_ & H & _). split; [apply H; lia | reflexivity].
Defined.

(** ** Candidates *)

Lemma max_slot_spec names : forall best,
  (forall b n, best = Some (b, n) -> slot_num n = Some b) ->
  match foldl max_slot best names with
  | None => best = None /\ forall n, n ∈ names -> slot_num n = None
  | Some (b, n) =>
      slot_num n = Some b /\ (best = Some (b, n) \/ n ∈ names)
      /\ (forall n' s, n' ∈ names -> slot_num n' = Some s -> s <= b)
      /\ (forall b' n', best = Some (b', n') -> b' <= b)
  end.
Proof.
  induction names as [|x names IH]; intros best Hb; cbn [foldl].
  - destruct best as [[b n]|]; [|split; [done|set_solver]].
    split_and!; [by apply Hb|by left|set_solver|intros ? ? [= <- <-]; lia].
  - assert (forall b n, max_slot best x = Some (b, n) -> slot_num n = Some b) as Hb'.
    { intros b n. unfold max_slot. destruct (slot_num x) as [s|] eqn:Ex; [|apply Hb].
      destruct best as [[b0 n0]|]; [destruct (s <? b0)|]; intros [= <- <-]; auto. }
    specialize (IH _ Hb'). destruct (foldl max_slot (max_slot best x) names) as [[b n]|].
    + destruct IH as (H1 & H2 & H3 & H4). unfold max_slot in H2, H4.
      destruct (slot_num x) as [s|] eqn:Ex; [destruct best as [[b0 n0]|]; [destruct (Z.ltb_spec s b0)|]|].
      * specialize (H4 _ _ eq_refl). split_and!; [done| |intros n' s' [->|Hn]%elem_of_cons Hs|].
        -- destruct H2 as [H2|H2]; [by left|right; set_solver].
        -- simplify_eq. lia.
        -- by eapply H3.
        -- by intros ? ? [= <- <-].
      * specialize (H4 _ _ eq_refl). split_and!; [done| |intros n' s' [->|Hn]%elem_of_cons Hs|].
        -- destruct H2 as [H2|H2]; simplify_eq; right; set_solver.
        -- simplify_eq. lia.
        -- by eapply H3.
        -- intros ? ? [= <- <-]. lia.
      * specialize (H4 _ _ eq_refl). split_and!; [done| |intros n' s' [->|Hn]%elem_of_cons Hs|done].
        -- destruct H2 as [H2|H2]; simplify_eq; right; set_solver.
        -- simplify_eq. lia.
        -- by eapply H3.
      * split_and!; [done| |intros n' s' [->|Hn]%elem_of_cons Hs|done].
        -- destruct H2 as [H2|H2]; [by left|right; set_solver].
        -- congruence.
        -- by eapply H3.
    + destruct IH as [H1 H2]. unfold max_slot in H1. destruct (slot_num x) eqn:Ex.
      * destruct best as [[b0 n0]|]; [destruct (_ <? _)|]; done.
      * split; [done|]. intros n [->|Hn]%elem_of_cons; auto.
Qed.

(** The snapshots that are never candidates: the newest by age, and the
    highest slot (the last one listed, should two names spell the same number). *)
Definition protected (names : list str) (n : str) : Prop :=
  last names = Some n \/ highest_slot names = Some n.

Lemma highest_slot_spec names h :
  highest_slot names = Some h ->
  h ∈ names /\ exists s, slot_num h = Some s
    /\ forall n s', n ∈ names -> slot_num n = Some s' -> s' <= s.
Proof.
  unfold highest_slot. pose proof (max_slot_spec names None ltac:(done)) as H.
  destruct (foldl max_slot None names) as [[b n]|]; [|done]. intros [= <-].
  destruct H as (H1 & [H2|H2] & H3 & _); [done|]. eauto.
Qed.

Lemma releasable_elem names n :
  NoDup names -> (2 <= length names)%nat ->
  n ∈ releasable names <-> n ∈ names /\ ~ protected names n.
Proof.
  intros Hnd Hlen. unfold releasable, protected. destruct (Nat.ltb_spec (length names) 2); [lia|].
  destruct names as [|x l _] using rev_ind; [simpl in *; lia|].
  rewrite length_app, Nat.add_1_r. cbn [pred]. rewrite take_app_length, last_snoc.
  apply NoDup_app in Hnd as (_ & Hx & _). rewrite elem_of_app, list_elem_of_singleton.
  assert (forall m, m ∈ l -> m <> x) as Hne by (intros m Hm ->; by apply (Hx x Hm), list_elem_of_singleton).
  destruct (highest_slot (l ++ [x])) as [h|].
  - rewrite list_elem_of_filter. naive_solver.
  - naive_solver.
Qed.

Lemma releasable_sublist names : releasable names `sublist_of` names.
Proof.
  unfold releasable. destruct (_ <? 2)%nat; [apply sublist_nil_l|].
  assert (take (pred (length names)) names `sublist_of` names) as Ht by apply sublist_take.
  destruct (highest_slot names); [|done]. etrans; [apply sublist_filter|done].
Qed.

(** Candidates for release are all snapshots but the protected ones: the
    newest by age and the highest slot (whatever the clock says). At most two
    are protected, and the rest keep their oldest-first order. *)
Theorem releasable_protects (names : list str) :
  NoDup names ->
  (forall n, n ∈ releasable names -> n ∈ names /\ ~ protected names n)
  /\ ((2 <= length names)%nat -> forall n, n ∈ names -> ~ protected names n -> n ∈ releasable names)
  /\ releasable names `sublist_of` names
  /\ (forall h, highest_slot names = Some h -> forall n s sh, n ∈ names ->
        slot_num n = Some s -> slot_num h = Some sh -> s <= sh).
Proof.
  intros Hnd. split_and!.
  - intros n Hn. destruct (le_lt_dec 2 (length names)); [by apply releasable_elem|].
    unfold releasable in Hn. destruct (Nat.ltb_spec (length names) 2); [set_solver|lia].
  - intros Hlen n Hn Hp. by apply releasable_elem.
  - apply releasable_sublist.
  - intros h Hh n s sh Hn Hs Hsh. apply highest_slot_spec in Hh as (_ & s' & Hs' & Hmax).
    rewrite Hsh in Hs'. injection Hs' as <-. by eapply Hmax.
Qed.

Lemma releasable_protects_witness :
  ~ protected [lit "snap-000007"; lit "snap-000003"; lit "snap-000005"] (lit "snap-000003").
Proof.
  apply (releasable_protects [lit "snap-000007"; lit "snap-000003"; lit "snap-000005"]).
  - repeat (apply NoDup_cons; split; [vm_compute; set_solver|]). by apply NoDup_nil.
  - vm_compute. set_solver.
Defined.

(** ** The release loop *)

Section manage.
Context {W : Type} `{SpaceEnvLaws W}.

(** Attempts run through the candidates in order; nothing else is released. *)
Lemma release_loop_released reserve ireserve snaps : forall w guard released,
  exists k, o_released (release_loop reserve ireserve snaps w guard released) = released ++ take k snaps.
Proof.
  induction snaps as [|s snaps IH]; intros w guard released; cbn [release_loop].
  - exists 0%nat. by rewrite app_nil_r.
  - assert (forall w' g', exists k, o_released (release_loop reserve ireserve snaps w' g' (released ++ [s]))
              = released ++ take k (s :: snaps)) as Hrec.
    { intros w' g'. destruct (IH w' g' (released ++ [s])) as [k ->]. exists (S k). by rewrite <- app_assoc. }
    assert (exists k, released ++ [s] = released ++ take k (s :: snaps)) as Hone by (exists 1%nat; by destruct snaps).
    destruct (env_release s w) as [ok w1]. destruct (negb ok); [apply Hrec|].
    destruct (get_space _) as [[t f]|]; [|exact Hone].
    destruct (targets_met _ _ _ _); [exact Hone|].
    destruct (if 0 <? ireserve then _ else _) as [g trips].
    destruct trips; [exact Hone | apply Hrec].
Qed.

(** A snapshot that is not a candidate survives the loop. *)
Lemma release_loop_keeps reserve ireserve snaps n : n ∉ snaps -> NoDup snaps -> forall w guard released,
  n ∈ env_snapshots w -> (forall c, c ∈ snaps -> c ∈ env_snapshots w) ->
  n ∈ env_snapshots (o_world (release_loop reserve ireserve snaps w guard released)).
Proof.
  induction snaps as [|s snaps IH]; intros Hn Hnd w guard released Hw Hall; cbn [release_loop]; [done|].
  apply not_elem_of_cons in Hn as [Hne Hn]. apply NoDup_cons in Hnd as [Hs Hnd].
  assert (s ∈ env_snapshots w) as Hsw by (apply Hall, elem_of_cons; by left).
  pose proof (release_keeps s n w Hsw Hw Hne) as Hw1.
  assert (forall c, c ∈ snaps -> c ∈ env_snapshots (snd (env_release s w))) as Hall1.
  { intros c Hc. apply release_keeps; [done|apply Hall, elem_of_cons; by right|by intros ->]. }
  destruct (env_release s w) as [ok w1]. cbn [snd] in Hw1, Hall1.
  destruct (negb ok); [by apply IH|]. destruct (get_space _) as [[t f]|]; [|done].
  destruct (targets_met _ _ _ _); [done|]. destruct (if 0 <? ireserve then _ else _) as [g trips].
  destruct trips; [|by apply IH]. cbn [o_world].
  destruct (inodes_now _ w1); [by rewrite set_latch_snapshots|done].
Qed.

(** Success means the targets hold where it stopped. *)
Definition targets_hold (reserve ireserve : Z) (w : W) : Prop :=
  (exists total free, get_space (env_stat_space w) = Some (total, free) /\ reserve <= free)
  /\ (0 < ireserve -> forall total f, get_inodes (env_stat_inodes w) = Some (total, f) -> ireserve < f).

Lemma release_loop_ok reserve ireserve snaps : forall w guard released,
  o_result (release_loop reserve ireserve snaps w guard released) = Ok tt ->
  targets_hold reserve ireserve (o_world (release_loop reserve ireserve snaps w guard released)).
Proof.
  induction snaps as [|s snaps IH]; intros w guard released; cbn [release_loop]; [done|].
  destruct (env_release s w) as [ok w1]. destruct (negb ok); [apply IH|].
  destruct (get_space (env_stat_space w1)) as [[t f]|] eqn:Es; [|done].
  destruct (targets_met f reserve (inodes_now (0 <? ireserve) w1) ireserve) eqn:Et.
  - intros _. cbn [o_world]. unfold targets_met, inodes_now in Et. apply andb_true_iff in Et as [E1 E2].
    apply Z.leb_le in E1. split; [eauto|]. intros Hp t' f' Hi.
    destruct (Z.ltb_spec 0 ireserve); [|lia]. rewrite Hi in E2. cbn in E2. by apply Z.ltb_lt in E2.
  - destruct (if 0 <? ireserve then _ else _) as [g trips]. destruct trips; [done|apply IH].
Qed.

Lemma inode_policy_world w : snd (inode_policy w) = w \/ snd (inode_policy w) = env_clear_latch w.
Proof.
  unfold inode_policy. destruct (match mutable_inodes w with Some _ => _ | None => _ end) as [ir fi].
  destruct (read_stall_latch _); [|by left]. destruct fi; [|by left]. destruct (_ <? _); [by right|by left].
Qed.

Lemma inode_policy_snapshots w : env_snapshots (snd (inode_policy w)) = env_snapshots w.
Proof. destruct (inode_policy_world w) as [->| ->]; [done|apply clear_latch_snapshots]. Qed.

(** The target the caller asked for, or the default one. *)
Definition reserve_of (reserve_bytes : option Z) (total : Z) : Z :=
  match reserve_bytes with Some r => r | None => default_reserve_bytes total end.

(** Protected snapshots survive a cleanup. *)
Lemma manage_keeps reserve_bytes w n :
  n ∈ env_snapshots w -> protected (env_snapshots w) n ->
  (exists k, o_released (manage_free_space reserve_bytes w) = take k (releasable (env_snapshots w)))
  /\ n ∈ env_snapshots (o_world (manage_free_space reserve_bytes w)).
Proof.
  intros Hn Hp. unfold manage_free_space.
  assert (exists k, @nil str = take k (releasable (env_snapshots w))) as Hnil by (exists 0%nat; done).
  assert (n ∉ releasable (env_snapshots w)) as Hnr.
  { intros Hin. destruct (le_lt_dec 2 (length (env_snapshots w))).
    - by apply releasable_elem in Hin as [_ ?]; [|apply snapshots_distinct|].
    - unfold releasable in Hin. destruct (Nat.ltb_spec (length (env_snapshots w)) 2); [set_solver|lia]. }
  destruct (negb (env_lock w)); [done|]. destruct (get_space _) as [[total free]|]; [|done].
  destruct (_ <=? _); [done|]. pose proof (inode_policy_snapshots w) as Hpol.
  destruct (inode_policy w) as [[ir fi] w']. cbn [snd] in Hpol. rewrite Hpol.
  assert (n ∈ env_snapshots w') as Hn' by (by rewrite Hpol).
  destruct (targets_met _ _ _ _); [done|].
  assert (n ∈ env_snapshots (halt_inode_eviction fi w')) as Hh
    by (unfold halt_inode_eviction; by rewrite set_latch_snapshots).
  destruct (is_empty (env_snapshots w)); [by destruct (_ <=? _)|].
  destruct (is_empty (releasable _)); [by destruct (_ <=? _)|].
  split; [apply release_loop_released|].
  pose proof (releasable_sublist (env_snapshots w)) as Hsub.
  apply release_loop_keeps; try done; [exact (sublist_NoDup _ _ (snapshots_distinct w) Hsub)|].
  intros c Hc. rewrite Hpol. by eapply elem_of_sublist.
Qed.

(** C3: Cleanup never deletes protected footage: only candidates are released,
    oldest first, and the newest and the highest-slot snapshots are still there
    afterwards, whatever the outcome. *)
Theorem manage_keeps_protected reserve_bytes w n :
  n ∈ env_snapshots w -> protected (env_snapshots w) n ->
  (exists k, o_released (manage_free_space reserve_bytes w) = take k (releasable (env_snapshots w)))
  /\ n ∈ env_snapshots (o_world (manage_free_space reserve_bytes w)).
Proof. apply manage_keeps. Qed.

(** A successful cleanup leaves the block target met and, where the inode
    policy was on, the inode target too. *)
Theorem manage_ok_targets reserve_bytes w total free :
  get_space (env_stat_space w) = Some (total, free) ->
  o_result (manage_free_space reserve_bytes w) = Ok tt ->
  targets_hold (reserve_of reserve_bytes total) (fst (fst (inode_policy w)))
    (o_world (manage_free_space reserve_bytes w)).
Proof.
  intros Hs. unfold manage_free_space. rewrite Hs. fold (reserve_of reserve_bytes total).
  destruct (negb (env_lock w)); [done|]. destruct (_ <=? _); [done|].
  destruct (inode_policy w) as [[ir fi] w'] eqn:Epol. cbn [fst].
  destruct (targets_met free _ fi ir) eqn:Et.
  - intros _. cbn [o_world]. pose proof (inode_policy_world w) as Hw. rewrite Epol in Hw. cbn [snd] in Hw.
    assert (env_stat_space w' = env_stat_space w /\ env_stat_inodes w' = env_stat_inodes w) as [Hs1 Hs2]
      by (destruct Hw as [->| ->]; [done|split; [apply clear_latch_space|apply clear_latch_inodes]]).
    unfold targets_met in Et. apply andb_true_iff in Et as [E1 E2]. apply Z.leb_le in E1.
    split; [exists total, free; by rewrite Hs1|]. intros Hpos t f Hi. rewrite Hs2 in Hi.
    assert (fi = Some f) as ->.
    { unfold inode_policy in Epol. destruct (mutable_inodes w) as [[t' f']|] eqn:Em.
      - unfold mutable_inodes in Em. destruct (mutable_rw_mounted _); [|done]. rewrite Hi in Em. injection Em as <- <-.
        cbn in Epol. destruct (t <=? inode_reserve t); destruct (read_stall_latch _); try destruct (_ <? _);
          simplify_eq; done || lia.
      - cbn in Epol. destruct (read_stall_latch _); simplify_eq; lia. }
    by apply Z.ltb_lt in E2.
  - destruct (is_empty (env_snapshots w')); [by destruct (_ <=? _)|].
    destruct (is_empty (releasable _)); [by destruct (_ <=? _)|]. apply release_loop_ok.
Qed.

(** Nothing is released needlessly: an impossible target is refused, targets
    already met end the run, and a standing stall latch whose inode count has not
    risen keeps inode pressure from deleting anything while the block target is
    met. *)
Theorem manage_no_needless_release reserve_bytes w total free :
  env_lock w = true -> get_space (env_stat_space w) = Some (total, free) ->
  let r := manage_free_space reserve_bytes w in
  let reserve := reserve_of reserve_bytes total in
  (total <= reserve -> o_result r = Err SReserveTooLarge /\ o_released r = [])
  /\ (reserve < total -> reserve <= free ->
      (forall latched, read_stall_latch (env_latch w) = Some latched ->
         (forall t f, mutable_inodes w = Some (t, f) -> f <= latched) ->
         o_result r = Ok tt /\ o_released r = [] /\ o_world r = w)
      /\ (read_stall_latch (env_latch w) = None ->
         (forall t f, mutable_inodes w = Some (t, f) -> inode_reserve t < f) ->
         o_result r = Ok tt /\ o_released r = [] /\ o_world r = w)).
Proof.
  intros Hl Hs r reserve. subst r. unfold manage_free_space. rewrite Hl, Hs. cbn [negb].
  fold (reserve_of reserve_bytes total). fold reserve. split.
  - intros Hle. destruct (Z.leb_spec total reserve); [done|lia].
  - intros Hlt Hfree. destruct (Z.leb_spec total reserve); [lia|].
    assert (forall fi ir, match fi with None => true | Some f => ir <? f end = true ->
      targets_met free reserve fi ir = true) as Hm.
    { intros fi ir Hi. unfold targets_met. rewrite Hi, andb_true_r. by apply Z.leb_le. }
    split.
    + intros latched Hla Hino.
      assert (inode_policy w = (0, None, w)) as ->; [|by rewrite Hm].
      unfold inode_policy. rewrite Hla. destruct (mutable_inodes w) as [[t f]|]; cbn; [|done].
      specialize (Hino t f eq_refl). destruct (t <=? inode_reserve t); [done|].
      by destruct (Z.ltb_spec latched f); [lia|].
    + intros Hla Hino. assert (exists ir fi, inode_policy w = (ir, fi, w)
        /\ match fi with None => true | Some f => ir <? f end = true) as (ir & fi & -> & Hfi); [|by rewrite Hm].
      unfold inode_policy. rewrite Hla. destruct (mutable_inodes w) as [[t f]|]; cbn; [|by exists 0, None].
      specialize (Hino t f eq_refl). destruct (t <=? inode_reserve t); [by exists 0, None|].
      exists (inode_reserve t), (Some f). split; [done|]. by apply Z.ltb_lt.
Qed.

(** The check that gates optional snapshots agrees with cleanup: when it
    passes, a cleanup run with the default target releases nothing and changes
    nothing, and succeeds unless the lock is held or the filesystem is smaller
    than the target. *)
Theorem optional_snapshot_safe w :
  meets_default_reserve w = Ok true ->
  let r := manage_free_space None w in
  o_released r = [] /\ o_world r = w
  /\ (env_lock w = true ->
      o_result r = Ok tt \/
      exists total free, get_space (env_stat_space w) = Some (total, free)
        /\ total <= default_reserve_bytes total).
Proof.
  unfold meets_default_reserve, manage_free_space.
  destruct (get_space (env_stat_space w)) as [[total free]|] eqn:Es; cbn; [|done]. intros [= Hm].
  apply andb_true_iff in Hm as [Hl Ht]. destruct (env_latch w) eqn:El; [done|].
  destruct (env_lock w); cbn [negb]; [|split_and!; done].
  destruct (Z.leb_spec total (default_reserve_bytes total)); [split_and!; eauto 6|].
  assert (inode_policy w = (match mutable_inodes w with Some (t, _) => inode_reserve t | None => 0 end,
     snd <$> mutable_inodes w, w) \/ inode_policy w = (0, None, w)) as Hpol.
  { unfold inode_policy. rewrite El. cbn. destruct (mutable_inodes w) as [[t f]|]; [|by left].
    destruct (t <=? _); [by right|by left]. }
  destruct Hpol as [-> | ->].
  - rewrite Ht. split_and!; [done..|by left].
  - unfold targets_met in *. apply andb_true_iff in Ht as [-> _]. cbn. split_and!; [done..|by left].
Qed.

(** Releases that succeed, leave the block target met and free no inode. *)
Definition futile (reserve : Z) : Prop :=
  forall n w, exists w' total free t b t' a,
    env_release n w = (true, w') /\ get_space (env_stat_space w') = Some (total, free) /\ reserve <= free
    /\ get_inodes (env_stat_inodes w) = Some (t, b) /\ get_inodes (env_stat_inodes w') = Some (t', a) /\ a <= b.

Lemma release_loop_stalls reserve ireserve snaps :
  futile reserve -> 0 < ireserve -> (forall w, ~ targets_hold reserve ireserve w) ->
  forall w guard released, 0 <= guard < 3 -> 3 <= Z.of_nat (length snaps) + guard ->
  let r := release_loop reserve ireserve snaps w guard released in
  o_result r = Err SStalled
  /\ Z.of_nat (length (o_released r)) = Z.of_nat (length released) + 3 - guard
  /\ exists w1 t a, get_inodes (env_stat_inodes w1) = Some (t, a)
       /\ o_world r = env_set_latch (print_uint a) w1.
Proof.
  intros Hfut Hir Hlow. induction snaps as [|s snaps IH]; intros w guard released Hg Hlen; [simpl in Hlen; lia|].
  cbn [release_loop]. destruct (Hfut s w) as (w' & total & free & t & b & t' & a & -> & Hsp & Hfree & Hb & Ha & Hle).
  cbn [negb]. rewrite Hsp. unfold inodes_now. destruct (Z.ltb_spec 0 ireserve); [|lia]. rewrite Ha, Hb.
  cbn [fmap option_fmap option_map snd].
  destruct (targets_met free reserve (Some a) ireserve) eqn:Et.
  { exfalso. apply (Hlow w'). unfold targets_met in Et. apply andb_true_iff in Et as [_ E2].
    apply Z.ltb_lt in E2. split; [eauto|]. intros _ t0 f0 Hi. rewrite Ha in Hi. by injection Hi as <- <-. }
  unfold record. destruct (Z.leb_spec reserve free); [|lia]. cbn [negb].
  destruct (Z.leb_spec a b); [|lia]. rewrite u32_small by lia. unfold MAX_STALE_INODE_RELEASES.
  destruct (Z.leb_spec 3 (guard + 1)).
  - cbn [o_result o_released o_world]. split_and!; [done| |eauto]. rewrite length_app. simpl. lia.
  - destruct (IH w' (guard + 1) (released ++ [s])) as (R1 & R2 & R3); [lia|simpl in Hlen; lia|].
    split_and!; [done| |done]. rewrite R2, length_app. simpl. lia.
Qed.

(** Inode pressure that releasing snapshots does not relieve costs at most
    three of them: with the block target met throughout, the run stops after
    exactly three futile releases and leaves a latch that reads back as the free
    inode count at that point. *)
Theorem stall_guard_bounds reserve w total free ireserve f w' :
  env_lock w = true -> get_space (env_stat_space w) = Some (total, free) ->
  reserve <= free -> reserve < total ->
  inode_policy w = (ireserve, Some f, w') -> 0 < ireserve -> f <= ireserve ->
  futile reserve -> (forall w0, ~ targets_hold reserve ireserve w0) ->
  (3 <= length (releasable (env_snapshots w')))%nat ->
  let r := manage_free_space (Some reserve) w in
  o_result r = Err SStalled /\ length (o_released r) = 3%nat
  /\ exists t a w1, get_inodes (env_stat_inodes w1) = Some (t, a)
       /\ o_world r = env_set_latch (print_uint a) w1
       /\ read_stall_latch (env_latch (o_world r)) = Some a.
Proof.
  intros Hl Hs Hfree Hlt Hpol Hir Hf Hfut Hlow Hlen r. subst r. unfold manage_free_space.
  rewrite Hl, Hs. cbn [negb]. destruct (Z.leb_spec total reserve); [lia|]. rewrite Hpol.
  assert (targets_met free reserve (Some f) ireserve = false) as ->.
  { unfold targets_met. apply andb_false_iff. right. apply Z.ltb_ge. lia. }
  assert (is_empty (releasable (env_snapshots w')) = false) as He by (by destruct (releasable _); [simpl in *; lia|]).
  assert (is_empty (env_snapshots w') = false) as ->.
  { destruct (env_snapshots w') eqn:Es; [discriminate He|done]. }
  rewrite He.
  destruct (release_loop_stalls reserve ireserve (releasable (env_snapshots w')) Hfut Hir Hlow w' 0 [])
    as (R1 & R2 & w1 & t & a & Ha & Hw); [lia|lia|].
  split_and!; [done|simpl in R2; lia|]. exists t, a, w1. split_and!; [done|done|]. rewrite Hw, set_latch_get.
  unfold read_stall_latch. cbn [mbind option_bind].
  assert (0 <= a <= U64_MAX) as Hr.
  { unfold get_inodes in Ha. destruct (env_stat_inodes w1); [|done]. cbn [mbind option_bind] in Ha.
    destruct (split_whitespace _) as [|x [|y tl]]; [done|done|].
    destruct (parse_uint U64_MAX x); [|done]. cbn [mbind option_bind] in Ha.
    destruct (parse_uint U64_MAX y) eqn:Ey; [|done]. cbn [mbind option_bind] in Ha.
    destruct (_ =? 0); [done|]. injection Ha as <- <-. eapply parse_uint_range; [|exact Ey]. unfold U64_MAX. lia. }
  rewrite trim_id by (apply print_loop_no_ws; lia). by apply parse_print_u64.
Qed.
End manage.

(** ** A small system *)

(** Snapshots and the latch; releasing works, block space is ample and the
    inode table stays full of other files. *)
Record toy := mkToy { toy_snaps : list str; toy_latch : option str; toy_ok : NoDup toy_snaps }.

Definition toy_latched (l : option str) (w : toy) : toy := mkToy (toy_snaps w) l (toy_ok w).
Definition toy_release (n : str) (w : toy) : toy :=
  mkToy (filter (fun m => m <> n) (toy_snaps w)) (toy_latch w) (NoDup_filter _ _ (toy_ok w)).

#[export] Instance toy_env : SpaceEnv toy :=
  {| env_lock := fun _ => true;
     env_stat_space := fun _ => Some (lit "1000 4096 900");
     env_stat_inodes := fun _ => Some (lit "10000 10");
     env_mounts := fun _ => Some (lit "/dev/sda2 /mutable ext4 rw,noatime 0 0");
     env_latch := toy_latch;
     env_set_latch := fun s => toy_latched (Some s);
     env_clear_latch := toy_latched None;
     env_snapshots := toy_snaps;
     env_release := fun n w => (true, toy_release n w) |}.

#[export] Instance toy_laws : SpaceEnvLaws toy.
Proof.
  split; try done.
  - apply toy_ok.
  - intros n n' w _ Hn Hne. cbn. by apply list_elem_of_filter.
Qed.

Definition toy_names : list str :=
  [lit "snap-000001"; lit "snap-000002"; lit "snap-000003"; lit "snap-000004"; lit "snap-000005"].

Lemma toy_nodup : NoDup toy_names.
Proof. apply (bool_decide_unpack _). vm_compute. exact I. Qed.

Definition toy0 : toy := mkToy toy_names None toy_nodup.

Lemma toy_low w : ~ targets_hold (W := toy) 1000 2500 w.
Proof. intros [_ Hi]. specialize (Hi ltac:(lia) 10000 10 eq_refl). lia. Qed.

Lemma stall_guard_bounds_witness :
  let r := manage_free_space (Some 1000) toy0 in
  o_result r = Err SStalled /\ length (o_released r) = 3%nat.
Proof.
  destruct (stall_guard_bounds 1000 toy0 4096000 3686400 2500 10 toy0) as (H1 & H2 & _);
    try reflexivity; try lia.
  - intros n w. exists (toy_release n w), 4096000, 3686400, 10000, 10, 10000, 10.
    split_and!; try reflexivity; lia.
  - apply toy_low.
  - vm_compute. lia.
  - split; assumption.
Defined.

Lemma manage_keeps_protected_witness :
  lit "snap-000005" ∈ env_snapshots (o_world (manage_free_space (Some 1000) toy0)).
Proof.
  apply (manage_keeps_protected (Some 1000) toy0 (lit "snap-000005")).
  - cbn. unfold toy_names. set_solver.
  - left. reflexivity.
Defined.

Lemma manage_ok_targets_witness :
  exists total free, get_space (env_stat_space (o_world (manage_free_space (Some 1000)
     (env_set_latch (lit "10") toy0)))) = Some (total, free) /\ 1000 <= free.
Proof.
  destruct (manage_ok_targets (Some 1000) (env_set_latch (lit "10") toy0) 4096000 3686400) as [H _];
    [reflexivity | vm_compute; reflexivity |]. exact H.
Defined.

Lemma manage_no_needless_release_witness :
  o_released (manage_free_space (Some 1000) (env_set_latch (lit "10") toy0)) = [].
Proof.
  destruct (manage_no_needless_release (Some 1000) (env_set_latch (lit "10") toy0) 4096000 3686400)
    as [_ H]; [reflexivity | reflexivity |].
  destruct H as [H _]; [vm_compute; reflexivity | vm_compute; discriminate |].
  destruct (H 10) as (_ & Hr & _); [vm_compute; reflexivity | | exact Hr].
  intros t f. vm_compute. intros [= <- <-]. discriminate.
Defined.

(** The same system with the inode table readable as nearly empty. *)
#[local] Instance roomy_env : SpaceEnv toy :=
  {| env_lock := fun _ => true;
     env_stat_space := fun _ => Some (lit "100000000 4096 90000000");
     env_stat_inodes := fun _ => Some (lit "10000 9000");
     env_mounts := fun _ => Some (lit "/dev/sda2 /mutable ext4 rw,noatime 0 0");
     env_latch := toy_latch;
     env_set_latch := fun s => toy_latched (Some s);
     env_clear_latch := toy_latched None;
     env_snapshots := toy_snaps;
     env_release := fun n w => (true, toy_release n w) |}.

Lemma optional_snapshot_safe_witness :
  o_released (manage_free_space (H := roomy_env) None toy0) = [].
Proof.
  apply (optional_snapshot_safe (H := roomy_env) toy0). vm_compute. reflexivity.
Defined.
