(* ===== verification/Snapshot.v ===== *)
(** * The snapshot store ([crates/usb_gadget/src/snapshot.rs])

    Listing snapshots by age, picking the slot of the next one, and releasing
    one: deleting its directory, pruning the clip links into it and re-pointing
    them at a surviving snapshot that lists the clip. The snapshot directory is
    a map of its entries, the TeslaCam link farm a map from link paths (their
    components below the farm) to stored targets; directories of the farm are
    implicit. What the file operations and mount checks answer is given by
    [fs_oracle]. *)

From Stdlib Require Import ZArith Lia.
From stdpp Require Import base gmap list.
From S2P Require Import Prelude Str Space.

Open Scope Z_scope.

Module Snapshot.

Definition SNAPSHOTS_DIR : str := lit "/backingfiles/snapshots".
Definition AUTOFS_SNAPSHOTS : str := lit "/tmp/snapshots".

(** An entry of the snapshots directory: a physical directory, a symbolic link
    to one, or something else; the modification time of its [snap.bin], if it
    has one; the lines of its [snap.bin.toc], if it exists, and whether they could
    all be read (a TOC that cannot be opened has no lines and is incomplete). *)
Inductive entry_kind := KDir | KSymDir | KOther.

Record snap_dir := mkDir {
  sd_kind : entry_kind; sd_bin : option Z; sd_toc : option (list str * bool);
}.

#[export] Instance kind_eq_dec : EqDecision entry_kind.
Proof. solve_decision. Defined.

Notation dirs_map := (gmap (list Z) snap_dir).
Notation farm_map := (gmap (list (list Z)) (list Z)).

(** ** Names *)

Definition is_digit (b : Z) : bool := (48 <=? b) && (b <=? 57).

Definition is_snap (n : str) : bool :=
  match strip_prefix (lit "snap-") n with
  | Some d => negb (is_empty d) && forallb is_digit d
  | None => false
  end.

(** [Path::file_name]: the last component, none for a path that ends in "..". *)
Definition file_name (input : str) : option str :=
  n ← last (filter (fun c => c <> [] /\ c <> lit ".") (split_on 47 input));
  if bool_decide (n = lit "..") then None else Some n.

Definition normalize_snap_name (input : str) : option str :=
  name ← file_name input;
  if starts_with name (lit "snap-") && negb (contains name (lit "..")) then Some name else None.

(** [format!("snap-{:06}", n)]. *)
Definition pad6 (s : str) : str := replicate (6 - length s) 48 ++ s.
Definition slot_name (n : Z) : str := lit "snap-" ++ pad6 (print_uint n).

(** ** Listing *)

Definition age_le (a b : Z * str) : bool :=
  if fst a <? fst b then true else if fst b <? fst a then false else str_leb (snd a) (snd b).

(** A numeric physical directory with its image's time. *)
Definition aged (e : str * snap_dir) : option (Z * str) :=
  if is_snap (fst e) && bool_decide (sd_kind (snd e) = KDir)
  then (fun t => (t, fst e)) <$> sd_bin (snd e) else None.

Definition list_snapshots_by_age (dirs : dirs_map) : list str :=
  snd <$> sort_by age_le (omap aged (map_to_list dirs)).

(** ** Slots *)

Definition max_num (dirs : dirs_map) : option Z :=
  foldl (fun best e =>
           match slot_num (fst e) with
           | Some num => if bool_decide (sd_kind (snd e) = KDir)
                            && match best with Some m => m <? num | None => true end
                         then Some num else best
           | None => best
           end) None (map_to_list dirs).

Definition toc_exists (dirs : dirs_map) (n : str) : bool :=
  match dirs !! n with Some d => bool_decide (sd_toc d <> None) | None => false end.
Definition bin_exists (dirs : dirs_map) (n : str) : bool :=
  match dirs !! n with Some d => bool_decide (sd_bin d <> None) | None => false end.

Definition backstop (dirs : dirs_map) (num : Z) : option str :=
  if 0 <? num then
    if toc_exists dirs (slot_name (num - 1)) then Some (slot_name (num - 1)) else None
  else None.

(** The number of the next slot, the snapshot whose TOC precedes it, and the
    directory afterwards; [rm_ok] says whether deleting an incomplete slot
    succeeds. *)
Definition pick_next_snapshot_slot (has_mounts : str -> bool) (rm_ok : bool) (dirs : dirs_map)
  : Z * option str * dirs_map :=
  match max_num dirs with
  | None => (1, None, dirs)
  | Some m =>
      let prev := slot_name m in
      if negb (toc_exists dirs prev) || negb (bin_exists dirs prev) then
        if has_mounts prev || bin_exists dirs prev
        then (u32 (m + 1), backstop dirs m, dirs)
        else (m, backstop dirs m, if rm_ok then delete prev dirs else dirs)
      else (u32 (m + 1), Some prev, dirs)
  end.

(** ** Links into a snapshot *)

Definition canonical (comps : list str) : bool :=
  forallb (fun c => negb (is_empty c) && bool_decide (c <> lit ".") && bool_decide (c <> lit "..")) comps.

Definition under (root target : str) : option str :=
  rest ← strip_prefix root target; strip_prefix [47] rest.

Definition owned_snap_component (target : str) : option str :=
  match target with
  | b :: t =>
      if negb (b =? 47) || negb (canonical (split_on 47 t)) then None
      else
        match under SNAPSHOTS_DIR target with
        | Some rest =>
            match split_on 47 rest with
            | name :: m :: _ :: _ =>
                if is_snap name && bool_decide (m = lit "mnt") then Some name else None
            | _ => None
            end
        | None =>
            rest ← under AUTOFS_SNAPSHOTS target;
            match split_on 47 rest with
            | name :: _ :: _ => if is_snap name then Some name else None
            | _ => None
            end
        end
  | [] => None
  end.

(** The walks stop below four levels of directories. *)
Definition walked (path : list str) : Prop := (length path <= 5)%nat.

Definition collect_links_into (farm : farm_map) (snap_name : str) : list (list str * str) :=
  filter (fun e => walked e.1 /\ owned_snap_component e.2 = Some snap_name) (map_to_list farm).

(** ** Re-pointing *)

Definition below (released target root : str) : option str :=
  r1 ← strip_prefix root target;
  r2 ← strip_prefix [47] r1;
  r3 ← strip_prefix released r2;
  strip_prefix [47] r3.

(** Whether a link goes through the stable [mnt], and its clip's path. *)
Definition wanted_of (released target : str) : option (bool * str) :=
  w ← match below released target SNAPSHOTS_DIR with
      | Some rest => pair true <$> strip_prefix (lit "mnt/") rest
      | None => pair false <$> below released target AUTOFS_SNAPSHOTS
      end;
  if canonical (split_on 47 (snd w)) then Some w else None.

(** [line.split_once(' ')]. *)
Fixpoint split_once (c : Z) (s : str) : option (str * str) :=
  match s with
  | [] => None
  | b :: t => if b =? c then Some ([], t)
              else (fun p => (b :: fst p, snd p)) <$> split_once c t
  end.

Definition toc_row (line : str) : option (str * Z) :=
  sp ← split_once 32 line;
  size ← parse_uint U64_MAX (fst sp);
  Some (snd sp, size).

Notation best_map := (gmap (list Z) (option (Z * list Z))).

(** One survivor's hits, committed once its TOC is completely read. *)
Definition commit_hit (snap : str) (best : best_map) (hit : str * Z) : best_map :=
  match best !! fst hit with
  | Some None => <[fst hit := Some (snd hit, snap)]> best
  | Some (Some (len, _)) => if len <? snd hit then <[fst hit := Some (snd hit, snap)]> best else best
  | None => best
  end.

Record relink_state := mkRs { rl_best : best_map; unreadable_tocs : Z; empty_tocs : Z }.

Definition read_survivor (dirs : dirs_map) (st : relink_state) (snap : str) : relink_state :=
  match dirs !! snap ≫= sd_toc with
  | None => mkRs (rl_best st) (unreadable_tocs st + 1) (empty_tocs st)
  | Some (rows, complete) =>
      if negb complete then mkRs (rl_best st) (unreadable_tocs st + 1) (empty_tocs st)
      else
        let hits := filter (fun h => is_Some (rl_best st !! fst h)) (omap toc_row rows) in
        mkRs (foldl (commit_hit snap) (rl_best st) hits) (unreadable_tocs st)
          (if is_empty rows then empty_tocs st + 1 else empty_tocs st)
  end.

(** Snapshots with an image other than the released one, highest name first. *)
Definition live_snaps (dirs : dirs_map) (released : str) : list str :=
  sort_by (fun a b => str_leb b a)
    (filter (fun n => n <> released /\ is_snap n = true /\ bin_exists dirs n = true)
       (fst <$> map_to_list dirs)).

Definition new_target (stable : bool) (snap clip_rel : str) : str :=
  if stable then SNAPSHOTS_DIR ++ [47] ++ snap ++ lit "/mnt/" ++ clip_rel
  else AUTOFS_SNAPSHOTS ++ [47] ++ snap ++ [47] ++ clip_rel.

Record RelinkPlan := mkPlan { rp_links : list (list str * str); rp_unresolved : Z; rp_unreadable : Z; rp_empty : Z }.

Definition plan_relinks (orphans : list (list str * str)) (released : str) (dirs : dirs_map) : RelinkPlan :=
  let wanted := omap (fun e => (fun w => (e.1, w)) <$> wanted_of released e.2) orphans in
  if is_empty wanted then mkPlan [] 0 0 0
  else
    let best0 : best_map := list_to_map ((fun w => (w.2.2, None)) <$> wanted) in
    let st := foldl (read_survivor dirs) (mkRs best0 0 0) (live_snaps dirs released) in
    let resolve (w : list str * (bool * str)) :=
      match rl_best st !! w.2.2 with
      | Some (Some (_, snap)) => Some (w.1, new_target w.2.1 snap w.2.2)
      | _ => None
      end in
    mkPlan (omap resolve wanted)
      (Z.of_nat (length (filter (fun w => resolve w = None) wanted)))
      (unreadable_tocs st) (empty_tocs st).

(** ** Releasing *)

Record store := mkStore { st_dirs : dirs_map; st_farm : farm_map }.

(** Answers of the system during a release: whether the snapshots directory can
    be read, what deleting the snapshot leaves behind ([None]: success), the
    mount check at each query, and whether a link can be removed or created. *)
Record fs_oracle := mkFs {
  fs_snapshots_readable : bool;
  fs_remove : option snap_dir;
  fs_mounted : nat -> bool;
  fs_unlink : list (list Z) -> bool;
  fs_symlink : list (list Z) -> bool;
}.

Inductive SnapState := Live | Gone | SUnknown.

Definition snapshot_state (fs : fs_oracle) (dirs : dirs_map) (name : str) : SnapState :=
  match dirs !! name with
  | Some d => match sd_kind d with KOther => Gone | _ => Live end
  | None => if fs_snapshots_readable fs then Gone else SUnknown
  end.

Definition released_link_is_dead (fs : fs_oracle) (dirs : dirs_map) (snap_name target : str) : bool :=
  bool_decide (owned_snap_component target = Some snap_name)
  && match snapshot_state fs dirs snap_name with Gone => true | _ => false end.

(** What the walk meets, in order: a directory it enters, or a link. *)
Inductive visit := VDir | VLink (path : list (list Z)).

#[export] Instance visit_eq_dec : EqDecision visit.
Proof. solve_decision. Defined.

(** [prune_farm_links]: the farm, the links removed and the mount checks made
    so far; [true] when the mount went away and the walk stopped. *)
Fixpoint prune_walk (fs : fs_oracle) (dead : str -> bool) (visits : list visit)
    (farm : farm_map) (removed queries : nat) : farm_map * nat * bool :=
  match visits with
  | [] => (farm, removed, false)
  | VDir :: rest =>
      if fs_mounted fs queries then prune_walk fs dead rest farm removed (S queries)
      else (farm, removed, true)
  | VLink path :: rest =>
      match farm !! path with
      | None => prune_walk fs dead rest farm removed queries
      | Some target =>
          if dead target then
            if fs_mounted fs queries then
              if fs_unlink fs path
              then prune_walk fs dead rest (delete path farm) (S removed) (S queries)
              else prune_walk fs dead rest farm removed (S queries)
            else (farm, removed, true)
          else prune_walk fs dead rest farm removed queries
      end
  end.

Definition apply_relink (fs : fs_oracle) (farm : farm_map) (l : list str * str) : farm_map :=
  match farm !! l.1 with
  | Some _ => farm
  | None => if fs_symlink fs l.1 then <[l.1 := l.2]> farm else farm
  end.

Definition apply_relinks (fs : fs_oracle) (farm : farm_map) (links : list (list str * str)) : farm_map :=
  foldl (apply_relink fs) farm links.

Inductive release_error := EBadName | ENotFound | ERemove.

(** [release_snapshot_locked]; [visits] is the order the prune meets the farm,
    [remounted] the mount check before re-pointing. *)
Definition release_snapshot_locked (fs : fs_oracle) (visits : list visit) (remounted : bool)
    (snap_name : str) (s : store) : result release_error unit * store :=
  match normalize_snap_name snap_name with
  | None => (Err EBadName, s)
  | Some name =>
      match st_dirs s !! name with
      | None => (Err ENotFound, s)
      | Some _ =>
          let orphans := collect_links_into (st_farm s) name in
          let plan := plan_relinks orphans name (st_dirs s) in
          match fs_remove fs with
          | Some remains => (Err ERemove, mkStore (<[name := remains]> (st_dirs s)) (st_farm s))
          | None =>
              let dirs := delete name (st_dirs s) in
              let '(farm, pruned, _) :=
                prune_walk fs (released_link_is_dead fs dirs name) visits (st_farm s) 0 0 in
              let farm := if (0 <? pruned)%nat && remounted then apply_relinks fs farm (rp_links plan) else farm in
              (Ok tt, mkStore dirs farm)
          end
      end
  end.

End Snapshot.
