(* ===== verification/SnapshotSpec.v ===== *)
(** * The snapshot store: what a release keeps

    The store implements the interface the free-space manager is proved against,
    so cleanup on it never deletes protected footage; a release re-points every
    clip link another snapshot can serve; slot picking never deletes an image. *)

From Stdlib Require Import ZArith Lia.
From stdpp Require Import base gmap list sets sorting.
From S2P Require Import Prelude Str Space SpaceSpec Snapshot.

Import Snapshot.
Open Scope Z_scope.

(** ** Listing *)

Lemma age_le_total a b : age_le a b = false -> age_le b a = true.
Proof.
  unfold age_le. destruct (Z.ltb_spec (fst a) (fst b)), (Z.ltb_spec (fst b) (fst a)); try done; try lia.
  apply str_leb_total.
Qed.

Lemma aged_elem dirs t n :
  (t, n) ∈ omap aged (map_to_list dirs) <->
  exists d, dirs !! n = Some d /\ is_snap n = true /\ sd_kind d = KDir /\ sd_bin d = Some t.
Proof.
  rewrite list_elem_of_omap. split.
  - intros ([n' d] & Hin%elem_of_map_to_list & Ha). unfold aged in Ha. cbn [fst snd] in Ha.
    destruct (is_snap n') eqn:Es; [|done]. case_bool_decide as Ek; [|done]. cbn in Ha.
    destruct (sd_bin d) eqn:Eb; [|done]. injection Ha as <- <-. eauto.
  - intros (d & Hd & Hs & Hk & Hb). exists (n, d). split; [by apply elem_of_map_to_list|].
    unfold aged. cbn. rewrite Hs, bool_decide_true, Hb by done. done.
Qed.

(** A snapshot is listed when it is a numeric physical directory with an image. *)
Lemma list_by_age_elem dirs n :
  n ∈ list_snapshots_by_age dirs <->
  exists d t, dirs !! n = Some d /\ is_snap n = true /\ sd_kind d = KDir /\ sd_bin d = Some t.
Proof.
  unfold list_snapshots_by_age. rewrite list_elem_of_fmap. setoid_rewrite (sort_by_perm age_le _). split.
  - intros ([t n'] & -> & (d & ?)%aged_elem). eauto.
  - intros (d & t & H). exists (t, n). split; [done|]. apply aged_elem. eauto.
Qed.

Lemma list_by_age_nodup dirs : NoDup (list_snapshots_by_age dirs).
Proof.
  unfold list_snapshots_by_age. rewrite (sort_by_perm age_le _).
  pose proof (NoDup_fst_map_to_list dirs) as H.
  induction (map_to_list dirs) as [|[n d] l IH]; cbn [omap list_omap]; [constructor|].
  apply NoDup_cons in H as [Hn Hl].
  assert (snd <$> omap aged l ⊆ l.*1) as Hsub.
  { intros m ([t m'] & -> & ([n' d'] & Hin & Ha)%list_elem_of_omap)%list_elem_of_fmap.
    unfold aged in Ha. destruct (_ && _); [|done]. cbn in Ha. destruct (sd_bin d'); [|done].
    injection Ha as <- <-. apply list_elem_of_fmap. by exists (n', d'). }
  unfold aged at 1. cbn [fst snd]. destruct (is_snap n && _); [|by apply IH].
  destruct (sd_bin d); cbn; [|by apply IH]. apply NoDup_cons. split; [|by apply IH].
  intros Hin. by apply Hn, Hsub.
Qed.

(** ** Names *)

Lemma is_snap_chars n : is_snap n = true -> exists d, n = lit "snap-" ++ d /\ d <> [] /\ Forall (fun b => 48 <= b <= 57) d.
Proof.
  unfold is_snap. destruct (strip_prefix (lit "snap-") n) as [d|] eqn:E; [|done]. intros [H1 H2]%andb_true_iff.
  apply strip_prefix_Some in E as ->. exists d. split_and!; [done|by destruct d|].
  apply Forall_forall. intros b Hb. rewrite forallb_forall in H2.
  specialize (H2 b (proj1 (list_elem_of_In _ _) Hb)). unfold is_digit in H2. lia.
Qed.

Lemma is_snap_no n c :
  is_snap n = true -> c <> 45 -> ~ (48 <= c <= 57) -> ~ (97 <= c <= 122) -> Forall (fun b => b <> c) n.
Proof.
  intros (d & -> & _ & Hd)%is_snap_chars H1 H2 H3. apply Forall_app. split.
  - change (lit "snap-") with [115; 110; 97; 112; 45].
    repeat (apply Forall_cons; split; [lia|]). by apply Forall_nil.
  - eapply Forall_impl; [exact Hd|]. cbn. lia.
Qed.

(** A listed name is its own normal form: releasing it touches that directory. *)
Lemma normalize_is_snap n : is_snap n = true -> normalize_snap_name n = Some n.
Proof.
  intros Hs. destruct (is_snap_chars n Hs) as (d & En & _ & _). unfold normalize_snap_name, file_name.
  rewrite split_on_none by (apply is_snap_no; [done|lia..]).
  rewrite filter_cons_True by (rewrite En; split; discriminate). cbn [filter list_filter last mbind option_bind].
  rewrite bool_decide_false by (rewrite En; discriminate). cbn [mbind option_bind].
  assert (starts_with n (lit "snap-") = true) as -> by (apply starts_with_spec; eauto).
  destruct (contains n (lit "..")) eqn:Ec; [|done]. exfalso.
  apply contains_spec in Ec as (a & b & E).
  pose proof (is_snap_no n 46 Hs ltac:(lia) ltac:(lia) ltac:(lia)) as Hno. rewrite E in Hno.
  apply Forall_app in Hno as [_ Hno]. by apply Forall_cons in Hno as [? _].
Qed.

(** ** The store behind the free-space manager *)

(** A machine: the store and the stall latch. What the system answers is given
    by functions of it: the lock, [stat], the mount table, and the behaviour of
    the file operations during each release. *)
Record machine := mkMachine { m_store : store; m_latch : option str }.

Class system_answers := {
  sys_lock : machine -> bool;
  sys_space : store -> option str;
  sys_inodes : store -> option str;
  sys_mounts : store -> option str;
  sys_release : store -> str -> fs_oracle * list visit * bool;
}.

Section machine.
Context `{system_answers}.

Definition is_ok {E A} (r : result E A) : bool := match r with Ok _ => true | Err _ => false end.

Definition machine_release (n : str) (m : machine) : bool * machine :=
  let '(fs, visits, remounted) := sys_release (m_store m) n in
  let r := release_snapshot_locked fs visits remounted n (m_store m) in
  (is_ok r.1, mkMachine r.2 (m_latch m)).

#[export] Instance machine_env : SpaceEnv machine :=
  {| env_lock := sys_lock;
     env_stat_space := fun m => sys_space (m_store m);
     env_stat_inodes := fun m => sys_inodes (m_store m);
     env_mounts := fun m => sys_mounts (m_store m);
     env_latch := m_latch;
     env_set_latch := fun s m => mkMachine (m_store m) (Some s);
     env_clear_latch := fun m => mkMachine (m_store m) None;
     env_snapshots := fun m => list_snapshots_by_age (st_dirs (m_store m));
     env_release := machine_release |}.

(** A release changes no directory but its own. *)
Lemma release_other_dirs fs visits rem n s n' :
  is_snap n = true -> n' <> n ->
  st_dirs (release_snapshot_locked fs visits rem n s).2 !! n' = st_dirs s !! n'.
Proof.
  intros Hs Hne. unfold release_snapshot_locked. rewrite normalize_is_snap by done.
  destruct (st_dirs s !! n); [|done]. destruct (fs_remove fs); cbn; [by rewrite lookup_insert_ne|].
  destruct (prune_walk _ _ _ _ _ _) as [[farm pruned] ab]. cbn. by rewrite lookup_delete_ne.
Qed.

#[export] Instance machine_laws : SpaceEnvLaws machine.
Proof.
  split; try done.
  - intros m. apply list_by_age_nodup.
  - intros n n' m (d & t & _ & Hs & _)%list_by_age_elem (d' & t' & Hd' & Hs' & Hk' & Hb')%list_by_age_elem Hne.
    cbn. unfold machine_release. destruct (sys_release (m_store m) n) as [[fs visits] rem]. cbn.
    apply list_by_age_elem. exists d', t'. split_and!; try done. by rewrite release_other_dirs.
Qed.

(** Directories whose release the loop did not attempt are untouched. *)
Lemma release_loop_dirs reserve ireserve snaps n :
  Forall (fun c => is_snap c = true) snaps -> forall (m : machine) guard released,
  let r := release_loop reserve ireserve snaps m guard released in
  n ∉ o_released r -> st_dirs (m_store (o_world r)) !! n = st_dirs (m_store m) !! n.
Proof.
  induction 1 as [|c snaps Hc _ IH]; intros m guard released; cbn [release_loop]; [done|].
  destruct (env_release c m) as [ok m1] eqn:Er.
  assert (n <> c -> st_dirs (m_store m1) !! n = st_dirs (m_store m) !! n) as Hm1.
  { intros Hne. cbn in Er. unfold machine_release in Er.
    destruct (sys_release (m_store m) c) as [[fs visits] rem]. injection Er as _ <-. cbn.
    by apply release_other_dirs. }
  assert (forall g r0, let r := release_loop reserve ireserve snaps m1 g r0 in
    c ∈ r0 -> n ∉ o_released r -> st_dirs (m_store (o_world r)) !! n = st_dirs (m_store m) !! n) as Hrec.
  { intros g r0 r Hin Hn. subst r. rewrite (IH m1 g r0 Hn). apply Hm1. intros ->.
    destruct (release_loop_released reserve ireserve snaps m1 g r0) as [k Hk]. apply Hn. rewrite Hk.
    apply elem_of_app. by left. }
  assert (c ∈ released ++ [c]) as Hcin by (apply elem_of_app; right; by apply list_elem_of_singleton).
  assert (n ∉ released ++ [c] -> n <> c) as Hnc by (intros Hn ->; done).
  destruct (negb ok); [by apply Hrec|]. destruct (get_space _) as [[t f]|]; [|cbn; auto].
  destruct (targets_met _ _ _ _); [cbn; auto|]. destruct (if 0 <? ireserve then _ else _) as [g trips].
  destruct trips; [|by apply Hrec]. cbn [o_world o_released]. destruct (inodes_now _ m1); cbn; auto.
Qed.

(** C28: On the real store, a cleanup run never costs the newest footage: whatever
    the file operations, the mount checks and [stat] answer, the snapshot with the
    newest image and the one with the highest slot are still there afterwards,
    images included, and every other directory is as before unless its release
    was attempted. *)
Theorem store_cleanup_safe reserve_bytes m :
  let names := list_snapshots_by_age (st_dirs (m_store m)) in
  let r := manage_free_space reserve_bytes m in
  (forall n, n ∈ names -> protected names n ->
     exists d t, st_dirs (m_store (o_world r)) !! n = Some d /\ sd_bin d = Some t)
  /\ (forall n, n ∉ o_released r -> st_dirs (m_store (o_world r)) !! n = st_dirs (m_store m) !! n).
Proof.
  intros names r. split.
  - intros n Hn Hp. destruct (manage_keeps (W := machine) (H := machine_env) reserve_bytes m n Hn Hp) as [_ Hin].
    apply list_by_age_elem in Hin as (d & t & Hd & _ & _ & Hb). eauto.
  - intros n Hn. revert Hn. subst r. unfold manage_free_space.
    destruct (negb (env_lock m)); [done|]. destruct (get_space _) as [[total free]|]; [|done].
    destruct (_ <=? _); [done|].
    assert (forall m', snd (inode_policy m) = m' -> m_store m' = m_store m) as Hpol.
    { intros m' <-. destruct (inode_policy_world m) as [-> | ->]; done. }
    destruct (inode_policy m) as [[ir fi] m1]. specialize (Hpol m1 eq_refl).
    assert (forall x, m_store (halt_inode_eviction x m1) = m_store m) as Hh by done.
    destruct (targets_met _ _ _ _); [cbn; by rewrite Hpol|].
    destruct (is_empty (env_snapshots m1)); [destruct (_ <=? _); cbn; by rewrite ?Hpol|].
    destruct (is_empty (releasable _)) eqn:Ee; [destruct (_ <=? _); cbn; by rewrite ?Hpol|].
    rewrite <- Hpol. apply release_loop_dirs. apply Forall_forall. intros c Hc.
    eapply elem_of_sublist in Hc; [|apply releasable_sublist].
    by apply list_by_age_elem in Hc as (d & t & _ & Hs & _).
Qed.
End machine.

(** ** Slots *)

Lemma max_num_fold l : forall best,
  let r := foldl (fun best (e : str * snap_dir) =>
           match slot_num (fst e) with
           | Some num => if bool_decide (sd_kind (snd e) = KDir)
                            && match best with Some m => m <? num | None => true end
                         then Some num else best
           | None => best
           end) best l in
  (forall m, best = Some m -> exists m', r = Some m' /\ m <= m')
  /\ (forall n d s, (n, d) ∈ l -> sd_kind d = KDir -> slot_num n = Some s -> exists m, r = Some m /\ s <= m)
  /\ (r = best \/ exists n d s, (n, d) ∈ l /\ sd_kind d = KDir /\ slot_num n = Some s /\ r = Some s).
Proof.
  induction l as [|[n d] l IH]; intros best; cbn [foldl].
  { split_and!; [eauto using Z.le_refl| |by left]. intros ??? H. by apply elem_of_nil in H. }
  cbn [fst snd]. destruct (slot_num n) as [s|] eqn:Es; [case_bool_decide as Ek|]; cbn [andb].
  1: destruct (match best with Some m => m <? s | None => true end) eqn:Eb.
  1: destruct (IH (Some s)) as (H1 & H2 & H3).
  2-4: destruct (IH best) as (H1 & H2 & H3).
  all: split_and!.
  - intros m ->. cbn in Eb. destruct (H1 s eq_refl) as (m' & -> & ?). exists m'. split; [done|lia].
  - intros n' d' s' [[= -> ->]|Hin]%elem_of_cons Hk Hs'; [|by eapply H2]. rewrite Es in Hs'.
    injection Hs' as <-. by apply H1.
  - right. destruct H3 as [->|(n' & d' & s' & Hin & ?)].
    + exists n, d, s. split_and!; try done. apply elem_of_cons. by left.
    + exists n', d', s'. split; [apply elem_of_cons; by right|done].
  - exact H1.
  - intros n' d' s' [[= -> ->]|Hin]%elem_of_cons Hk Hs'; [|by eapply H2]. rewrite Es in Hs'.
    injection Hs' as <-. destruct best as [b|]; [|done]. cbn in Eb.
    destruct (H1 b eq_refl) as (m & -> & ?). exists m. split; [done|]. lia.
  - destruct H3 as [->|(n' & d' & s' & Hin & ?)]; [by left|right]. exists n', d', s'.
    split; [apply elem_of_cons; by right|done].
  - exact H1.
  - intros n' d' s' [[= -> ->]|Hin]%elem_of_cons Hk Hs'; [done|by eapply H2].
  - destruct H3 as [->|(n' & d' & s' & Hin & ?)]; [by left|right]. exists n', d', s'.
    split; [apply elem_of_cons; by right|done].
  - exact H1.
  - intros n' d' s' [[= -> ->]|Hin]%elem_of_cons Hk Hs'; [congruence|by eapply H2].
  - destruct H3 as [->|(n' & d' & s' & Hin & ?)]; [by left|right]. exists n', d', s'.
    split; [apply elem_of_cons; by right|done].
Qed.

(** The greatest slot number among the physical numeric directories. *)
Lemma max_num_spec dirs :
  match max_num dirs with
  | None => forall n d, dirs !! n = Some d -> sd_kind d = KDir -> slot_num n = None
  | Some m => (exists n d, dirs !! n = Some d /\ sd_kind d = KDir /\ slot_num n = Some m)
              /\ forall n d s, dirs !! n = Some d -> sd_kind d = KDir -> slot_num n = Some s -> s <= m
  end.
Proof.
  unfold max_num. destruct (max_num_fold (map_to_list dirs) None) as (_ & H2 & H3).
  destruct (foldl _ None (map_to_list dirs)) as [m|].
  - split.
    + destruct H3 as [?|(n & d & s & Hin%elem_of_map_to_list & Hk & Hs & [= ->])]; [done|eauto].
    + intros n d s Hd Hk Hs. apply elem_of_map_to_list in Hd.
      by destruct (H2 n d s Hd Hk Hs) as (m' & [= <-] & ?).
  - intros n d Hd Hk. apply elem_of_map_to_list in Hd. destruct (slot_num n) as [s|] eqn:Es; [|done].
    by destruct (H2 n d s Hd Hk Es) as (m' & ? & _).
Qed.

Lemma slot_num_range n s : slot_num n = Some s -> 0 <= s < 2 ^ 32.
Proof.
  unfold slot_num. destruct (strip_prefix _ n) as [d|]; cbn; [|done]. destruct (_ && _); [|done].
  intros H%parse_uint_range; [|lia]. lia.
Qed.

(** Choosing a slot never costs an image. Every directory with an image is
    still there, unchanged; the number is above every existing slot unless the
    highest slot has no image and no mount, in which case its number is reused;
    and only the last slot number of all makes the next one wrap to zero. *)
Theorem slot_pick_safe has_mounts rm_ok dirs :
  let '(next, toc, dirs') := pick_next_snapshot_slot has_mounts rm_ok dirs in
  (forall n d, dirs !! n = Some d -> sd_bin d <> None -> dirs' !! n = Some d)
  /\ (forall n, toc = Some n -> toc_exists dirs n = true)
  /\ (forall m, max_num dirs = Some m -> m < 2 ^ 32 - 1 ->
        (next = m + 1 /\ dirs' = dirs
         /\ forall n d s, dirs !! n = Some d -> sd_kind d = KDir -> slot_num n = Some s -> s < next)
        \/ (next = m /\ bin_exists dirs (slot_name m) = false /\ has_mounts (slot_name m) = false
            /\ (rm_ok = true -> dirs' !! slot_name m = None)))
  /\ (max_num dirs = Some (2 ^ 32 - 1) -> next = 0 \/ next = 2 ^ 32 - 1).
Proof.
  unfold pick_next_snapshot_slot. pose proof (max_num_spec dirs) as Hmax.
  destruct (max_num dirs) as [m|]; [|split_and!; done].
  destruct Hmax as [(n0 & d0 & _ & _ & Hr%slot_num_range) Hmax].
  assert (forall n, backstop dirs m = Some n -> toc_exists dirs n = true) as Hback.
  { unfold backstop. destruct (0 <? m); [|done]. destruct (toc_exists dirs _) eqn:E; [|done]. by intros n [= <-]. }
  assert (forall m', Some m = Some m' -> m' < 2 ^ 32 - 1 -> u32 (m + 1) = m' + 1 /\ dirs = dirs
     /\ forall n d s, dirs !! n = Some d -> sd_kind d = KDir -> slot_num n = Some s -> s < u32 (m + 1)) as Hnext.
  { intros m' [= <-] Hlt. rewrite u32_small by lia. split_and!; [done..|]. intros n d s Hd Hk Hs.
    specialize (Hmax n d s Hd Hk Hs). lia. }
  assert (Some m = Some (2 ^ 32 - 1) -> u32 (m + 1) = 0) as Hwrap by (by intros [= ->]).
  destruct (toc_exists dirs (slot_name m)) eqn:Et, (bin_exists dirs (slot_name m)) eqn:Eb; cbn [negb orb].
  - split_and!; try done; [by intros n [= <-]|intros; left; by apply Hnext|intros; left; by apply Hwrap].
  - destruct (has_mounts (slot_name m)) eqn:Eh; cbn [orb].
    + split_and!; try done; [intros; left; by apply Hnext|intros; left; by apply Hwrap].
    + split_and!; try done.
      * intros n d Hd Hb. destruct rm_ok; [|done]. rewrite lookup_delete_ne; [done|]. intros <-.
        unfold bin_exists in Eb. rewrite Hd in Eb. by apply bool_decide_eq_false in Eb.
      * intros m' [= <-] _. right. split_and!; try done. intros ->. apply lookup_delete_eq.
      * intros [= ->]. by right.
  - rewrite orb_true_r. split_and!; try done; [intros; left; by apply Hnext|intros; left; by apply Hwrap].
  - destruct (has_mounts (slot_name m)) eqn:Eh; cbn [orb].
    + split_and!; try done; [intros; left; by apply Hnext|intros; left; by apply Hwrap].
    + split_and!; try done.
      * intros n d Hd Hb. destruct rm_ok; [|done]. rewrite lookup_delete_ne; [done|]. intros <-.
        unfold bin_exists in Eb. rewrite Hd in Eb. by apply bool_decide_eq_false in Eb.
      * intros m' [= <-] _. right. split_and!; try done. intros ->. apply lookup_delete_eq.
      * intros [= ->]. by right.
Qed.

(** ** Which survivor serves a clip *)

(** A snapshot other than the released one whose image exists. *)
Definition survivor (dirs : gmap str snap_dir) (released snap : str) : Prop :=
  snap <> released /\ is_snap snap = true /\ bin_exists dirs snap = true.

(** Its completely readable TOC lists the clip with this size. *)
Definition lists (dirs : gmap str snap_dir) (snap rel : str) (size : Z) : Prop :=
  exists d rows, dirs !! snap = Some d /\ sd_toc d = Some (rows, true) /\ (rel, size) ∈ omap toc_row rows.

(** The largest copy among the survivors, the highest name on ties. *)
Definition best_copy (dirs : gmap str snap_dir) (released rel : str) (size : Z) (snap : str) : Prop :=
  survivor dirs released snap /\ lists dirs snap rel size
  /\ forall snap' size', survivor dirs released snap' -> lists dirs snap' rel size' ->
       size' < size \/ (size' = size /\ str_leb snap' snap = true).

(** What one survivor's hits do to an entry: nothing when the entry is at least
    as large as each of them, else the largest hit replaces it. *)
Definition updated (snap rel : str) (hits : list (str * Z)) (b b' : option (Z * str)) : Prop :=
  (b' = b /\ forall z, (rel, z) ∈ hits -> exists len sn, b = Some (len, sn) /\ z <= len)
  \/ exists m, b' = Some (m, snap) /\ (rel, m) ∈ hits /\ (forall z, (rel, z) ∈ hits -> z <= m)
       /\ forall len sn, b = Some (len, sn) -> len < m.

Lemma commit_hit_spec (snap : str) (best : gmap str (option (Z * str))) (h : str * Z) (rel : str) (b : option (Z * str)) :
  best !! rel = Some b ->
  exists b', commit_hit snap best h !! rel = Some b' /\ updated snap rel [h] b b'.
Proof.
  intros Hb. destruct h as [rel' z]. unfold commit_hit. cbn [fst snd].
  destruct (decide (rel' = rel)) as [->|Hne].
  - rewrite Hb. destruct b as [[len sn]|]; [destruct (Z.ltb_spec len z)|].
    + rewrite lookup_insert_eq. eexists. split; [done|]. right. exists z.
      split_and!; [done|by apply list_elem_of_singleton| |intros ? ? [= <- <-]; lia].
      intros z' [= <-]%list_elem_of_singleton. lia.
    + exists (Some (len, sn)). split; [done|]. left. split; [done|].
      intros z' [= <-]%list_elem_of_singleton. eauto.
    + rewrite lookup_insert_eq. eexists. split; [done|]. right. exists z.
      split_and!; [done|by apply list_elem_of_singleton| |done].
      intros z' [= <-]%list_elem_of_singleton. lia.
  - assert (updated snap rel [(rel', z)] b b) as Hu
      by (left; split; [done|]; intros z' [= <- _]%list_elem_of_singleton; done).
    exists b. split; [|done]. destruct (best !! rel') as [[[len sn]|]|]; [|by rewrite lookup_insert_ne|done].
    destruct (len <? z); [by rewrite lookup_insert_ne|done].
Qed.

Lemma updated_trans (snap rel : str) (h : str * Z) t b b1 b2 :
  updated snap rel [h] b b1 -> updated snap rel t b1 b2 -> updated snap rel (h :: t) b b2.
Proof.
  intros [[-> H1]|(m & -> & Hm & H1 & H2)] [[-> H3]|(m' & -> & Hm' & H3 & H4)].
  - left. split; [done|]. intros z [E|Hz]%elem_of_cons; [|by apply H3].
    apply H1, list_elem_of_singleton. by rewrite E.
  - right. exists m'. split_and!; [done|apply elem_of_cons; by right| |done].
    intros z [E|Hz]%elem_of_cons; [|by apply H3].
    destruct (H1 z) as (len & sn & -> & ?); [by apply list_elem_of_singleton; rewrite E|].
    specialize (H4 len sn eq_refl). lia.
  - right. exists m. split_and!; [done|apply list_elem_of_singleton in Hm; rewrite Hm; apply elem_of_cons; by left| |done].
    intros z [E|Hz]%elem_of_cons; [apply H1, list_elem_of_singleton; by rewrite E|].
    destruct (H3 z Hz) as (len & sn & [= <- <-] & ?). done.
  - right. specialize (H4 m snap eq_refl). exists m'. split_and!; [done|apply elem_of_cons; by right| |].
    + intros z [E|Hz]%elem_of_cons; [|by apply H3].
      enough (z <= m) by lia. apply H1, list_elem_of_singleton. by rewrite E.
    + intros len sn E. specialize (H2 len sn E). lia.
Qed.

Lemma commit_hits_spec (snap : str) (hits : list (str * Z)) : forall (best : gmap str (option (Z * str))) rel b,
  best !! rel = Some b ->
  exists b', foldl (commit_hit snap) best hits !! rel = Some b' /\ updated snap rel hits b b'.
Proof.
  induction hits as [|h t IH]; intros best rel b Hb; cbn [foldl].
  - exists b. split; [done|]. left. split; [done|]. intros z Hz. by apply elem_of_nil in Hz.
  - destruct (commit_hit_spec snap best h rel b Hb) as (b1 & Hb1 & Hu1).
    destruct (IH _ rel b1 Hb1) as (b2 & Hb2 & Hu2). exists b2. split; [done|]. by eapply updated_trans.
Qed.

(** The entry for a clip after reading some survivors. *)
Definition best_among (dirs : gmap str snap_dir) (done_ : list str) (rel : str) (b : option (Z * str)) : Prop :=
  match b with
  | None => forall snap size, snap ∈ done_ -> ~ lists dirs snap rel size
  | Some (size, snap) => snap ∈ done_ /\ lists dirs snap rel size
      /\ forall snap' size', snap' ∈ done_ -> lists dirs snap' rel size' ->
           size' < size \/ (size' = size /\ str_leb snap' snap = true)
  end.

Lemma read_survivor_spec dirs st (snap rel : str) b (done_ : list str) :
  rl_best st !! rel = Some b -> best_among dirs done_ rel b ->
  (forall s, s ∈ done_ -> str_leb snap s = true) ->
  exists b', rl_best (read_survivor dirs st snap) !! rel = Some b' /\ best_among dirs (done_ ++ [snap]) rel b'.
Proof.
  intros Hb Hbest Hord.
  assert (forall hits b', updated snap rel hits b b' ->
    (forall z, (rel, z) ∈ hits <-> lists dirs snap rel z) -> best_among dirs (done_ ++ [snap]) rel b') as Hmain.
  { intros hits b' Hu Hl. destruct Hu as [[-> Hle]|(m & -> & Hm & Hmax & Hgt)].
    - destruct b as [[len sn]|].
      + destruct Hbest as (Hin & Hsn & Hall). split_and!; [apply elem_of_app; by left|done|].
        intros s' z [Hs'|Es%list_elem_of_singleton]%elem_of_app Hz; [by apply Hall|subst s'].
        apply Hl, Hle in Hz as (len' & sn' & [= <- <-] & ?).
        destruct (decide (z = len)); [right; split; [done|by apply Hord]|left; lia].
      + intros s z [Hs|Es%list_elem_of_singleton]%elem_of_app; [by apply Hbest|subst s].
        intros Hz. apply Hl, Hle in Hz as (? & ? & ? & _). done.
    - split_and!; [apply elem_of_app; right; by apply list_elem_of_singleton|by apply Hl|].
      intros s' z [Hs'|Es%list_elem_of_singleton]%elem_of_app Hz; [|subst s'].
      + destruct b as [[len sn]|]; [|by destruct (Hbest s' z Hs')].
        specialize (Hgt len sn eq_refl). destruct Hbest as (_ & _ & Hall).
        destruct (Hall s' z Hs' Hz) as [?|[? _]]; left; lia.
      + apply Hl, Hmax in Hz. destruct (decide (z = m)); [right; split; [done|apply str_leb_refl]|left; lia]. }
  assert (forall b', rl_best st !! rel = Some b' -> updated snap rel [] b b') as Hnone.
  { intros b' E. rewrite Hb in E. injection E as <-. left. split; [done|]. intros z Hz. by apply elem_of_nil in Hz. }
  assert ((forall d rows, dirs !! snap = Some d -> sd_toc d = Some (rows, true) -> False) ->
    best_among dirs (done_ ++ [snap]) rel b) as Hskip.
  { intros Hno. apply (Hmain [] b); [by apply Hnone|]. intros z. split; [intros Hz; by apply elem_of_nil in Hz|].
    intros (d & rows & Hd & Ht & _). by destruct (Hno d rows). }
  unfold read_survivor. destruct (dirs !! snap) as [d|] eqn:Ed; cbn [mbind option_bind].
  2: { exists b. split; [done|]. apply Hskip. by intros d rows [=]. }
  destruct (sd_toc d) as [[rows complete]|] eqn:Et.
  2: { exists b. split; [done|]. apply Hskip. intros ? ? [= <-]. by rewrite Et. }
  destruct complete; cbn [negb rl_best].
  2: { exists b. split; [done|]. apply Hskip. intros ? ? [= <-]. by rewrite Et. }
  destruct (commit_hits_spec snap (filter (fun h => is_Some (rl_best st !! fst h)) (omap toc_row rows))
    (rl_best st) rel b Hb) as (b' & Hb' & Hu). exists b'. split; [done|]. apply (Hmain _ _ Hu).
  intros z. rewrite list_elem_of_filter. cbn [fst]. split.
  - intros [_ Hin]. by exists d, rows.
  - intros (d' & rows' & Hd' & Ht' & Hin). rewrite Hd' in Ed. injection Ed as ->. rewrite Ht' in Et.
    injection Et as ->. by rewrite Hb.
Qed.

Lemma read_survivors_spec dirs (rel : str) (todo : list str) : forall st done_ b,
  rl_best st !! rel = Some b -> best_among dirs done_ rel b ->
  StronglySorted (fun a c => str_leb c a = true) todo ->
  (forall s t, s ∈ done_ -> t ∈ todo -> str_leb t s = true) ->
  exists b', rl_best (foldl (read_survivor dirs) st todo) !! rel = Some b' /\ best_among dirs (done_ ++ todo) rel b'.
Proof.
  induction todo as [|snap todo IH]; intros st done_ b Hb Hbest Hs Hord; cbn [foldl].
  { exists b. by rewrite app_nil_r. }
  apply StronglySorted_inv in Hs as [Hs Hf].
  destruct (read_survivor_spec dirs st snap rel b done_ Hb Hbest) as (b1 & Hb1 & Hbest1).
  { intros s Hin. apply Hord; [done|apply elem_of_cons; by left]. }
  destruct (IH _ (done_ ++ [snap]) b1 Hb1 Hbest1 Hs) as (b2 & Hb2 & Hbest2).
  - intros s t [Hin|Es%list_elem_of_singleton]%elem_of_app Ht.
    + apply Hord; [done|apply elem_of_cons; by right].
    + subst s. rewrite Forall_forall in Hf. by apply Hf.
  - exists b2. rewrite <- app_assoc in Hbest2. done.
Qed.

Lemma live_snaps_elem dirs released n : n ∈ live_snaps dirs released <-> survivor dirs released n.
Proof.
  unfold live_snaps. rewrite (sort_by_perm (fun a b => str_leb b a) _), list_elem_of_filter, list_elem_of_fmap.
  unfold survivor. split; [by intros [H _]|]. intros H. split; [done|]. destruct H as (_ & _ & Hb).
  unfold bin_exists in Hb. destruct (dirs !! n) as [d|] eqn:E; [|done]. exists (n, d).
  split; [done|by apply elem_of_map_to_list].
Qed.

Lemma live_snaps_sorted dirs released :
  StronglySorted (fun a c => str_leb c a = true) (live_snaps dirs released).
Proof.
  apply Sorted_StronglySorted.
  - intros x y z H1 H2. by eapply str_leb_trans.
  - apply (sort_by_sorted (fun a b => str_leb b a)). intros x y. apply str_leb_total.
Qed.

(** The table of best copies is right for every clip that is asked for. *)
Lemma best_table_spec (dirs : gmap str snap_dir) (released rel : str) (best0 : gmap str (option (Z * str))) :
  best0 !! rel = Some None ->
  exists b, rl_best (foldl (read_survivor dirs) (mkRs best0 0 0) (live_snaps dirs released)) !! rel = Some b
    /\ match b with
       | None => forall snap size, survivor dirs released snap -> ~ lists dirs snap rel size
       | Some (size, snap) => best_copy dirs released rel size snap
       end.
Proof.
  intros Hb. destruct (read_survivors_spec dirs rel (live_snaps dirs released) (mkRs best0 0 0) [] None Hb)
    as (b & Hb' & Hbest).
  - intros snap size Hin. by apply elem_of_nil in Hin.
  - apply live_snaps_sorted.
  - intros s t Hin. by apply elem_of_nil in Hin.
  - exists b. split; [done|]. cbn [app] in Hbest. unfold best_copy. destruct b as [[size snap]|].
    + destruct Hbest as (H1 & H2 & H3). apply live_snaps_elem in H1. split_and!; [done|done|].
      intros snap' size' Hs Hl. apply H3; [by apply live_snaps_elem|done].
    + intros snap size Hs. by apply Hbest, live_snaps_elem.
Qed.

(** ** Pruning and re-pointing *)

(** The file operations work and the storage stays mounted. *)
Definition healthy (fs : fs_oracle) : Prop :=
  fs_snapshots_readable fs = true /\ fs_remove fs = None /\ (forall k, fs_mounted fs k = true)
  /\ (forall p, fs_unlink fs p = true) /\ (forall p, fs_symlink fs p = true).

Lemma prune_walk_spec fs dead visits : healthy fs -> forall farm removed queries,
  exists farm' removed', prune_walk fs dead visits farm removed queries = (farm', removed', false)
    /\ (forall p, farm' !! p = match farm !! p with
                              | Some t => if dead t && bool_decide (VLink p ∈ visits) then None else Some t
                              | None => None
                              end)
    /\ (removed <= removed')%nat
    /\ ((removed < removed')%nat <-> exists p t, VLink p ∈ visits /\ farm !! p = Some t /\ dead t = true).
Proof.
  intros (_ & _ & Hm & Hu & _). induction visits as [|v visits IH]; intros farm removed queries; cbn [prune_walk].
  { exists farm, removed. split_and!; [done| |done|].
    - intros p. destruct (farm !! p) as [t|]; [|done]. rewrite bool_decide_false by apply not_elem_of_nil.
      by rewrite andb_false_r.
    - split; [lia|]. intros (p & t & Hin & _). by apply elem_of_nil in Hin. }
  assert (forall farm0 r0 q0, (forall p, (VLink p ∈ v :: visits -> VLink p ∈ visits \/
            match farm0 !! p with Some t => dead t = false | None => True end)) ->
    exists farm' removed', prune_walk fs dead visits farm0 r0 q0 = (farm', removed', false)
    /\ (forall p, farm' !! p = match farm0 !! p with
                              | Some t => if dead t && bool_decide (VLink p ∈ v :: visits) then None else Some t
                              | None => None
                              end)
    /\ (r0 <= removed')%nat
    /\ ((r0 < removed')%nat <-> exists p t, VLink p ∈ v :: visits /\ farm0 !! p = Some t /\ dead t = true)) as Hskip.
  { intros farm0 r0 q0 Hv. destruct (IH farm0 r0 q0) as (farm' & r' & E & H1 & H2 & H3).
    exists farm', r'. split_and!; [done| |done|].
    - intros p. rewrite H1. specialize (Hv p). destruct (farm0 !! p) as [t|]; [|done].
      destruct (dead t) eqn:Ed; cbn [andb]; [|done].
      rewrite (bool_decide_ext (VLink p ∈ visits) (VLink p ∈ v :: visits)); [done|]. split.
      + intros Hin. apply elem_of_cons. by right.
      + intros Hin. destruct (Hv Hin) as [?|Hf]; [done|]. discriminate Hf.
    - rewrite H3. split; intros (p & t & Hin & Hp & Ht).
      + exists p, t. split_and!; try done. apply elem_of_cons. by right.
      + exists p, t. split_and!; try done. specialize (Hv p Hin). rewrite Hp in Hv. destruct Hv; [done|congruence]. }
  destruct v as [|path].
  - rewrite Hm. apply Hskip. intros p [?|Hin]%elem_of_cons; [done|by left].
  - destruct (farm !! path) as [target|] eqn:Ep.
    + destruct (dead target) eqn:Ed.
      * rewrite Hm, Hu. destruct (Hskip (delete path farm) (S removed) (S queries)) as (farm' & r' & E & H1 & H2 & H3).
        { intros p [[= ->]|Hin]%elem_of_cons; [right; by rewrite lookup_delete_eq|by left]. }
        exists farm', r'. split_and!; [done| |lia|].
        -- intros p. rewrite H1. destruct (decide (p = path)) as [->|Hne].
           ++ rewrite lookup_delete_eq, Ep, Ed. rewrite bool_decide_true by (apply elem_of_cons; by left). done.
           ++ by rewrite lookup_delete_ne.
        -- split; [|lia]. intros _. exists path, target. split_and!; [apply elem_of_cons; by left|done|done].
      * apply Hskip. intros p [[= ->]|Hin]%elem_of_cons; [right; by rewrite Ep|by left].
    + apply Hskip. intros p [[= ->]|Hin]%elem_of_cons; [right; by rewrite Ep|by left].
Qed.

Lemma apply_relinks_spec fs links : healthy fs -> NoDup links.*1 -> forall farm,
  (forall p t, (p, t) ∈ links -> farm !! p = None) ->
  forall p, apply_relinks fs farm links !! p
    = match farm !! p with Some t => Some t | None => (list_to_map links : gmap (list str) str) !! p end.
Proof.
  intros (_ & _ & _ & _ & Hs) Hnd. induction links as [|[q t] links IH]; intros farm Hno p; cbn.
  { rewrite lookup_empty. by destruct (farm !! p). }
  apply NoDup_cons in Hnd as [Hq Hnd].
  assert (farm !! q = None) as Hfq by (apply (Hno q t), elem_of_cons; by left).
  unfold apply_relinks in IH |- *. cbn [foldl]. unfold apply_relink at 2. cbn [fst snd].
  rewrite Hfq, Hs, IH; [|done|].
  - destruct (decide (p = q)) as [->|Hne].
    + by rewrite lookup_insert_eq, lookup_insert_eq, Hfq.
    + rewrite !lookup_insert_ne by done. done.
  - intros p' t' Hin. rewrite lookup_insert_ne.
    + apply (Hno p' t'), elem_of_cons. by right.
    + intros ->. apply Hq, list_elem_of_fmap. by exists (p', t').
Qed.

(** ** Every link a release owns is planned *)

Lemma canonical_suffix t p b :
  47 :: t = p ++ 47 :: b -> p <> [] -> canonical (split_on 47 t) = true -> canonical (split_on 47 b) = true.
Proof.
  destruct p as [|x p]; [done|]. intros [= _ ->] _. rewrite split_on_app. unfold canonical.
  rewrite forallb_app. by intros [_ ?]%andb_true_iff.
Qed.

Lemma strip_slash rest : strip_prefix [47] (47 :: rest) = Some rest.
Proof. apply (strip_prefix_app [47]). Qed.

Lemma below_app root released rest :
  below released (root ++ 47 :: released ++ 47 :: rest) root = Some rest.
Proof.
  unfold below. rewrite strip_prefix_app. cbn [mbind option_bind]. rewrite strip_slash.
  cbn [mbind option_bind]. rewrite strip_prefix_app. cbn [mbind option_bind]. apply strip_slash.
Qed.

Lemma under_Some root t rest : under root t = Some rest -> t = root ++ 47 :: rest.
Proof.
  unfold under. destruct (strip_prefix root t) as [r|] eqn:E; [|done]. cbn [mbind option_bind].
  intros E2%strip_prefix_Some. apply strip_prefix_Some in E as ->. by rewrite E2.
Qed.

Lemma under_None_below root released t : under root t = None -> below released t root = None.
Proof.
  unfold under, below. destruct (strip_prefix root t) as [r|]; [|done]. cbn [mbind option_bind]. by intros ->.
Qed.

Lemma owned_wanted name t :
  owned_snap_component t = Some name -> exists w, wanted_of name t = Some w.
Proof.
  unfold owned_snap_component, wanted_of. destruct t as [|b t]; [done|].
  destruct (Z.eqb_spec b 47) as [->|]; cbn [negb orb]; [|done].
  destruct (canonical (split_on 47 t)) eqn:Ec; cbn [negb]; [|done].
  destruct (under SNAPSHOTS_DIR (47 :: t)) as [rest|] eqn:Eu.
  - apply under_Some in Eu. destruct (split_on 47 rest) as [|n [|m [|x xs]]] eqn:Es; try done.
    destruct (is_snap n); [|done]. case_bool_decide as Em; [|done]. intros [= <-].
    apply split_on_head in Es as (r1 & -> & Es); [|done]. apply split_on_head in Es as (r2 & -> & _); [|done].
    rewrite Eu, below_app. subst m. change (lit "mnt" ++ 47 :: r2) with (lit "mnt/" ++ r2).
    rewrite strip_prefix_app. cbn [fmap option_fmap option_map mbind option_bind snd].
    rewrite (canonical_suffix t (SNAPSHOTS_DIR ++ 47 :: n ++ 47 :: lit "mnt") r2); [eauto| |done|done].
    rewrite Eu. repeat (rewrite <- app_assoc; cbn [app]). done.
  - destruct (under AUTOFS_SNAPSHOTS (47 :: t)) as [rest|] eqn:Ea; [|done]. cbn [mbind option_bind].
    apply under_Some in Ea. rewrite under_None_below by done.
    destruct (split_on 47 rest) as [|n [|x xs]] eqn:Es; try done. destruct (is_snap n); [|done]. intros [= <-].
    apply split_on_head in Es as (r1 & -> & _); [|done].
    rewrite Ea, below_app. cbn [fmap option_fmap option_map mbind option_bind snd].
    rewrite (canonical_suffix t (AUTOFS_SNAPSHOTS ++ 47 :: n) r1); [eauto| |done|done].
    rewrite Ea. by rewrite <- app_assoc.
Qed.

Lemma best_copy_unique (dirs : gmap str snap_dir) (released rel : str) size snap size' snap' :
  best_copy dirs released rel size snap -> best_copy dirs released rel size' snap' ->
  size = size' /\ snap = snap'.
Proof.
  intros (S1 & L1 & B1) (S2 & L2 & B2). destruct (B1 _ _ S2 L2) as [?|[-> ?]], (B2 _ _ S1 L1) as [?|[? ?]]; try lia.
  split; [done|]. by apply str_leb_antisym.
Qed.

(** The plan: the owned links whose clip some survivor has, at its best copy. *)
Lemma plan_links_elem (dirs : gmap str snap_dir) (name : str) orphans p t' :
  (p, t') ∈ rp_links (plan_relinks orphans name dirs) <->
  exists t stable rel size snap, (p, t) ∈ orphans /\ wanted_of name t = Some (stable, rel)
    /\ best_copy dirs name rel size snap /\ t' = new_target stable snap rel.
Proof.
  unfold plan_relinks.
  set (wanted := omap (fun e => (fun w => (e.1, w)) <$> wanted_of name e.2) orphans).
  assert (forall p w, (p, w) ∈ wanted <-> exists t, (p, t) ∈ orphans /\ wanted_of name t = Some w) as Hw.
  { intros p0 w. subst wanted. rewrite list_elem_of_omap. split.
    - intros ([q t] & Hin & E). cbn in E. destruct (wanted_of name t) eqn:Et; [|done].
      injection E as <- <-. eauto.
    - intros (t & Hin & E). exists (p0, t). cbn. by rewrite E. }
  set (best0 := list_to_map ((fun w => (w.2.2, None)) <$> wanted) : gmap str (option (Z * str))).
  assert (forall p stable rel, (p, (stable, rel)) ∈ wanted -> best0 !! rel = Some None) as Hb0.
  { intros p0 stable rel Hin. destruct (best0 !! rel) as [v|] eqn:E.
    - apply elem_of_list_to_map_2, list_elem_of_fmap in E as (w & E & _). by injection E as _ ->.
    - apply not_elem_of_list_to_map_2 in E. exfalso. apply E. apply list_elem_of_fmap. exists (rel, None).
      split; [done|]. apply list_elem_of_fmap. by exists (p0, (stable, rel)). }
  destruct (is_empty wanted) eqn:Ee; cbn [rp_links].
  { apply is_empty_nil in Ee. rewrite Ee in Hw. split; [intros Hin; by apply elem_of_nil in Hin|].
    intros (t & stable & rel & size & snap & Hin & Hwt & _). exfalso. eapply not_elem_of_nil, Hw. eauto. }
  rewrite list_elem_of_omap. split.
  - intros ([q [stable rel]] & Hin & E). cbn [fst snd] in E.
    destruct (best_table_spec dirs name rel best0 (Hb0 _ _ _ Hin)) as (b & Hb & Hspec).
    rewrite Hb in E. destruct b as [[size snap]|]; [|done]. injection E as <- <-.
    apply Hw in Hin as (t & Hin & Ht). by exists t, stable, rel, size, snap.
  - intros (t & stable & rel & size & snap & Hin & Ht & Hbc & ->). exists (p, (stable, rel)).
    assert ((p, (stable, rel)) ∈ wanted) as Hin' by (apply Hw; eauto). split; [done|]. cbn [fst snd].
    destruct (best_table_spec dirs name rel best0 (Hb0 _ _ _ Hin')) as (b & Hb & Hspec). rewrite Hb.
    destruct b as [[size' snap']|]; [|by destruct (Hspec snap size); destruct Hbc as (? & ? & _)].
    by destruct (best_copy_unique _ _ _ _ _ _ _ Hbc Hspec) as [_ ->].
Qed.

Lemma NoDup_omap_key {A B K} (f : A -> option B) (ka : A -> K) (kb : B -> K) l :
  (forall x y, f x = Some y -> kb y = ka x) -> NoDup (ka <$> l) -> NoDup (kb <$> omap f l).
Proof.
  intros Hf. induction l as [|x l IH]; cbn [omap list_omap fmap list_fmap]; [constructor|].
  intros [Hx Hl]%NoDup_cons. destruct (f x) as [y|] eqn:E; [|by apply IH]. apply NoDup_cons.
  split; [|by apply IH]. intros (y' & Ey & (x' & Hx' & E')%list_elem_of_omap)%list_elem_of_fmap.
  apply Hx, list_elem_of_fmap. exists x'. split; [|done]. rewrite <- (Hf _ _ E), <- (Hf _ _ E'). done.
Qed.

Lemma plan_links_nodup (dirs : gmap str snap_dir) (name : str) (farm : gmap (list str) str) :
  NoDup (rp_links (plan_relinks (collect_links_into farm name) name dirs)).*1.
Proof.
  unfold plan_relinks. destruct (is_empty _); [constructor|]. cbn [rp_links].
  apply (NoDup_omap_key _ fst fst).
  { intros [q [st rel]] y. cbn. destruct (_ !! rel) as [[[]|]|]; intros [= <-]; done. }
  apply (NoDup_omap_key _ fst fst).
  { intros [q t] y. cbn. destruct (wanted_of name t); intros [= <-]; done. }
  unfold collect_links_into.
  assert (filter (fun e : list str * str => walked e.1 /\ owned_snap_component e.2 = Some name) (map_to_list farm)
    `sublist_of` map_to_list farm) as Hsub by apply sublist_filter.
  eapply sublist_NoDup; [apply (NoDup_fst_map_to_list farm)|]. by apply fmap_sublist.
Qed.

(** Releasing a snapshot loses no clip another one still has. With working
    file operations, every link into the released snapshot is re-pointed at the
    surviving snapshot whose table of contents lists the clip with the largest
    size (the highest name on ties), and removed only when no survivor lists it;
    every other link, and every other snapshot, is untouched. *)
Theorem release_repoints fs visits (s : store) (name : str) :
  healthy fs -> is_snap name = true -> is_Some (st_dirs s !! name) ->
  (forall p, VLink p ∈ visits <-> walked p /\ is_Some (st_farm s !! p)) ->
  exists farm', release_snapshot_locked fs visits true name s = (Ok tt, mkStore (delete name (st_dirs s)) farm')
  /\ forall p t, st_farm s !! p = Some t ->
       if bool_decide (walked p /\ owned_snap_component t = Some name) then
         exists stable rel, wanted_of name t = Some (stable, rel)
         /\ ((exists size snap, best_copy (st_dirs s) name rel size snap
                /\ farm' !! p = Some (new_target stable snap rel))
             \/ ((forall snap size, survivor (st_dirs s) name snap -> ~ lists (st_dirs s) snap rel size)
                 /\ farm' !! p = None))
       else farm' !! p = Some t.
Proof.
  intros Hfs Hs [d Hd] Hv. unfold release_snapshot_locked. rewrite normalize_is_snap, Hd by done.
  destruct Hfs as (Hread & Hrm & Hrest). rewrite Hrm.
  assert (healthy fs) as Hfs by done. clear Hrest.
  set (dirs := delete name (st_dirs s)). set (dead := released_link_is_dead fs dirs name).
  assert (forall t, dead t = bool_decide (owned_snap_component t = Some name)) as Hdead.
  { intros t. unfold dead, released_link_is_dead, snapshot_state, dirs. rewrite lookup_delete_eq, Hread.
    apply andb_true_r. }
  destruct (prune_walk_spec fs dead visits Hfs (st_farm s) 0 0) as (farm1 & n1 & -> & Hf1 & _ & Hn1).
  set (links := rp_links (plan_relinks (collect_links_into (st_farm s) name) name (st_dirs s))).
  assert (forall p t, (p, t) ∈ collect_links_into (st_farm s) name <->
    st_farm s !! p = Some t /\ walked p /\ owned_snap_component t = Some name) as Hcol.
  { intros p t. unfold collect_links_into. rewrite list_elem_of_filter, elem_of_map_to_list. cbn. tauto. }
  assert (forall p t, st_farm s !! p = Some t -> walked p -> owned_snap_component t = Some name ->
    farm1 !! p = None /\ (0 < n1)%nat) as Hgone.
  { intros p t Hp Hw Ho. assert (VLink p ∈ visits) as Hin by (apply Hv; eauto). split.
    - rewrite Hf1, Hp, Hdead, !bool_decide_true by done. done.
    - apply Hn1. exists p, t. rewrite Hdead, bool_decide_true by done. done. }
  assert (forall p t, (p, t) ∈ links -> farm1 !! p = None) as Hlinks.
  { intros p t Hin%plan_links_elem. destruct Hin as (t0 & ? & ? & ? & ? & Hin & _).
    apply Hcol in Hin as (H1 & H2 & H3). by apply (Hgone p t0). }
  pose proof (apply_relinks_spec fs links Hfs (plan_links_nodup _ _ _) farm1 Hlinks) as Happ.
  exists (if (0 <? n1)%nat then apply_relinks fs farm1 links else farm1). split; [by rewrite andb_true_r|].
  intros p t Hp. case_bool_decide as Hown.
  - destruct Hown as [Hw Ho]. destruct (Hgone p t Hp Hw Ho) as [Hno Hpos].
    destruct (Nat.ltb_spec 0 n1); [|lia].
    destruct (owned_wanted name t Ho) as [[stable rel] Hwt]. exists stable, rel. split; [done|].
    rewrite Happ, Hno. destruct ((list_to_map links : gmap (list str) str) !! p) as [t'|] eqn:El.
    + left. apply elem_of_list_to_map_2, plan_links_elem in El as (t0 & st0 & rel0 & size & snap & Hin & Hw0 & Hbc & ->).
      apply Hcol in Hin as (Hp0 & _). rewrite Hp in Hp0. injection Hp0 as <-. rewrite Hwt in Hw0.
      injection Hw0 as <- <-. eauto.
    + right. split; [|done]. intros snap size Hsv Hl. apply not_elem_of_list_to_map_2 in El.
      destruct (best_table_spec (st_dirs s) name rel {[ rel := None ]}) as (b & _ & Hb);
        [apply lookup_singleton_eq|].
      destruct b as [[size' snap']|]; [|by apply (Hb snap size)]. apply El, list_elem_of_fmap.
      exists (p, new_target stable snap' rel). split; [done|]. apply plan_links_elem.
      exists t, stable, rel, size', snap'. split_and!; try done. by apply Hcol.
  - assert (farm1 !! p = Some t) as Hkeep.
    { rewrite Hf1, Hp, Hdead. destruct (bool_decide (owned_snap_component t = Some name)) eqn:Eo; [|done]. cbn.
      apply bool_decide_eq_true in Eo. rewrite bool_decide_false; [done|]. intros [Hw _]%Hv. by apply Hown. }
    destruct (0 <? n1)%nat; [|done]. by rewrite Happ, Hkeep.
Qed.

(** ** A small store *)

Definition demo_clip : list str := [lit "SentryClips"; lit "front.mp4"].

Definition demo_dirs : gmap str snap_dir :=
  <[lit "snap-000001" := mkDir KDir (Some 10) (Some ([lit "700 SentryClips/front.mp4"], true))]>
  (<[lit "snap-000002" := mkDir KDir (Some 20) (Some ([lit "500 SentryClips/front.mp4"], true))]>
  (<[lit "snap-000003" := mkDir KDir (Some 30) (Some ([lit "900 SentryClips/front.mp4"], true))]> ∅)).

Definition demo_store : store :=
  mkStore demo_dirs {[ demo_clip := lit "/backingfiles/snapshots/snap-000001/mnt/SentryClips/front.mp4" ]}.

Definition demo_fs : fs_oracle := mkFs true None (fun _ => true) (fun _ => true) (fun _ => true).

Example demo_release :
  st_farm (release_snapshot_locked demo_fs [VDir; VLink demo_clip] true (lit "snap-000001") demo_store).2 !! demo_clip
  = Some (lit "/backingfiles/snapshots/snap-000003/mnt/SentryClips/front.mp4").
Proof. vm_compute. reflexivity. Qed.

Lemma release_repoints_witness :
  exists farm', release_snapshot_locked demo_fs [VDir; VLink demo_clip] true (lit "snap-000001") demo_store
    = (Ok tt, mkStore (delete (lit "snap-000001") demo_dirs) farm').
Proof.
  destruct (release_repoints demo_fs [VDir; VLink demo_clip] demo_store (lit "snap-000001")) as (farm' & H & _).
  - repeat split.
  - vm_compute. reflexivity.
  - vm_compute. eauto.
  - intros p. change (st_farm demo_store)
      with ({[ demo_clip := lit "/backingfiles/snapshots/snap-000001/mnt/SentryClips/front.mp4" ]} : gmap (list str) str).
    rewrite !elem_of_cons, elem_of_nil, lookup_singleton_is_Some. split.
    + intros [?|[[= ->]|?]]; [discriminate| |contradiction]. split; [unfold walked; cbn; lia|reflexivity].
    + intros [_ <-]. right. left. reflexivity.
  - exists farm'. exact H.
Defined.

#[local] Instance demo_answers : system_answers :=
  {| sys_lock := fun _ => true;
     sys_space := fun _ => Some (lit "1000 4096 100");
     sys_inodes := fun _ => Some (lit "10000 9000");
     sys_mounts := fun _ => Some (lit "/dev/sda2 /mutable ext4 rw,noatime 0 0");
     sys_release := fun _ _ => (demo_fs, [VDir; VLink demo_clip], true) |}.

Lemma store_cleanup_safe_witness :
  exists d t, st_dirs (m_store (o_world (manage_free_space (Some 1000000) (mkMachine demo_store None)))) !! lit "snap-000003" = Some d
    /\ sd_bin d = Some t.
Proof.
  apply (store_cleanup_safe (Some 1000000) (mkMachine demo_store None)).
  - apply list_by_age_elem. eexists _, _. split_and!; vm_compute; reflexivity.
  - left. vm_compute. reflexivity.
Defined.
