(* ===== verification/Reflink.v ===== *)
(** * Reflink accounting ([crates/usb_gadget/src/reflink.rs])

    How many bytes deleting the oldest snapshots frees ([cumulative_reclaim], a
    sweep over physical intervals), the validated walk over a file's extent map
    ([Walk], [walk_file]) and the cache of measured sizes ([SizeCache]). The
    kernel's answer to a FIEMAP request is a function of the request's start. *)

From Stdlib Require Import ZArith Lia.
From stdpp Require Import base gmap list.
From S2P Require Import Prelude Str.

Open Scope Z_scope.

Module Reflink.

(** ** The sweep *)

Record Event := mkEvent { e_pos : Z; e_delta : Z; e_owner : option nat }.

Definition push_range (owner : option nat) (r : Z * Z) : list Event :=
  if snd r =? 0 then []
  else [mkEvent (fst r) 1 owner; mkEvent (u64_sat_add (fst r) (snd r)) (-1) owner].

Definition all_events (ordered : list (list (Z * Z))) (external : list (Z * Z)) : list Event :=
  concat (imap (fun idx ranges => ranges ≫= push_range (Some idx)) ordered)
  ++ (external ≫= push_range None).

Record sweep_state := mkSweep {
  owned_by : list Z; external_depth : Z; active : gmap nat Z; prev_pos : Z;
}.

(** [active.iter().next_back()]: the greatest key. *)
Definition last_key (m : gmap nat Z) : option nat :=
  foldl (fun best e => match best with Some b => Some (Nat.max b (fst e)) | None => Some (fst e) end)
    None (map_to_list m).

(** The span before a boundary goes to the newest snapshot that holds it. *)
Definition account (pos : Z) (st : sweep_state) : sweep_state :=
  if (prev_pos st <? pos) && (external_depth st =? 0) then
    match last_key (active st) with
    | Some h => mkSweep (alter (fun v => u64_sat_add v (pos - prev_pos st)) h (owned_by st))
                  (external_depth st) (active st) (prev_pos st)
    | None => st
    end
  else st.

Definition apply_event (e : Event) (st : sweep_state) : sweep_state :=
  match e_owner e with
  | None => mkSweep (owned_by st) (external_depth st + e_delta e) (active st) (prev_pos st)
  | Some idx =>
      let c := default 0 (active st !! idx) + e_delta e in
      mkSweep (owned_by st) (external_depth st)
        (if c <=? 0 then delete idx (active st) else <[idx := c]> (active st)) (prev_pos st)
  end.

(** The inner loop: the events at one position. *)
Fixpoint drain (pos : Z) (events : list Event) (st : sweep_state) : sweep_state * list Event :=
  match events with
  | e :: rest => if e_pos e =? pos then drain pos rest (apply_event e st) else (st, events)
  | [] => (st, [])
  end.

(** The outer loop; each turn consumes at least one event. *)
Fixpoint sweep (fuel : nat) (events : list Event) (st : sweep_state) : sweep_state :=
  match fuel, events with
  | S fuel, e :: _ =>
      let pos := e_pos e in
      let '(st, rest) := drain pos events (account pos st) in
      sweep fuel rest (mkSweep (owned_by st) (external_depth st) (active st) pos)
  | _, _ => st
  end.

Fixpoint prefix_totals (running : Z) (bytes : list Z) : list Z :=
  match bytes with
  | [] => []
  | b :: t => let running := u64_sat_add running b in running :: prefix_totals running t
  end.

Definition cumulative_reclaim (ordered : list (list (Z * Z))) (external : list (Z * Z)) : list Z :=
  let events := sort_by_key e_pos (all_events ordered external) in
  match events with
  | [] => replicate (length ordered) 0
  | e :: _ =>
      prefix_totals 0 (owned_by (sweep (length events) events
        (mkSweep (replicate (length ordered) 0) 0 ∅ (e_pos e))))
  end.

Example reclaim_demo :
  cumulative_reclaim [[(0, 10)]; [(5, 10); (30, 4)]; [(12, 2)]] [(13, 100)] = [5; 12; 13].
Proof. vm_compute. reflexivity. Qed.

(** ** The extent walk *)

Definition FIEMAP_EXTENT_LAST : Z := 0x0001.
Definition FIEMAP_EXTENT_UNKNOWN : Z := 0x0002.
Definition FIEMAP_EXTENT_DELALLOC : Z := 0x0004.
Definition FIEMAP_EXTENT_SHARED : Z := 0x2000.

Record MappedExtent := mkExtent { x_logical : Z; x_physical : Z; x_length : Z; x_flags : Z }.

Record Walk := mkWalk {
  w_total : Z; w_cursor : Z; w_done : bool; w_poisoned : bool; w_ranges : list (Z * Z);
}.
Definition walk0 : Walk := mkWalk 0 0 false false [].

Inductive walk_error :=
| WPoisoned | WTerminated | WIncomplete | WZeroLength | WOutOfOrder | WOverflow | WTotalOverflow
| WTrailing | WNoRecords | WNotComplete | WFragmented (offset : Z) | WTooMany
| WParentStat | WParentSymlink | WOpen | WStat | WNotRegular | WFstatfs | WNotXfs | WLinks (nlink : Z) | WIoctl.

Definition has (flags bit : Z) : bool := negb (Z.land flags bit =? 0).

(** [checked_add] on [u64]. *)
Definition checked_add (a b : Z) : option Z := if a + b <=? U64_MAX then Some (a + b) else None.

(** [ingest_inner]: the walk as far as it got, and the error that stopped it. *)
Fixpoint ingest_inner (page : list MappedExtent) (w : Walk) : result walk_error unit * Walk :=
  match page with
  | [] => (Ok tt, w)
  | e :: rest =>
      if has (x_flags e) (Z.lor FIEMAP_EXTENT_DELALLOC FIEMAP_EXTENT_UNKNOWN) then (Err WIncomplete, w)
      else if x_length e =? 0 then (Err WZeroLength, w)
      else if x_logical e <? w_cursor w then (Err WOutOfOrder, w)
      else match checked_add (x_logical e) (x_length e) with
           | None => (Err WOverflow, w)
           | Some end_ =>
               match (if has (x_flags e) FIEMAP_EXTENT_SHARED then Some (w_total w)
                      else checked_add (w_total w) (x_length e)) with
               | None => (Err WTotalOverflow, w)
               | Some total =>
                   let w := mkWalk total end_ (w_done w) (w_poisoned w)
                              (w_ranges w ++ [(x_physical e, x_length e)]) in
                   if has (x_flags e) FIEMAP_EXTENT_LAST then
                     if is_empty rest
                     then (Ok tt, mkWalk total end_ true (w_poisoned w) (w_ranges w))
                     else (Err WTrailing, w)
                   else ingest_inner rest w
               end
           end
  end.

Definition poison (w : Walk) : Walk := mkWalk (w_total w) (w_cursor w) (w_done w) true (w_ranges w).

Definition ingest (page : list MappedExtent) (w : Walk) : result walk_error unit * Walk :=
  if w_poisoned w then (Err WPoisoned, w)
  else if w_done w then (Err WTerminated, poison w)
  else match ingest_inner page w with
       | (Ok _, w) => (Ok tt, w)
       | (Err e, w) => (Err e, poison w)
       end.

Definition ingest_empty_page (w : Walk) : result walk_error unit * Walk :=
  if w_poisoned w then (Err WPoisoned, w)
  else if (w_cursor w =? 0) && (w_total w =? 0)
  then (Ok tt, mkWalk (w_total w) (w_cursor w) true (w_poisoned w) (w_ranges w))
  else (Err WNoRecords, poison w).

Definition finish (w : Walk) : result walk_error Z :=
  if w_done w then Ok (w_total w) else Err WNotComplete.
Definition finish_map (w : Walk) : result walk_error (list (Z * Z)) :=
  if w_done w then Ok (w_ranges w) else Err WNotComplete.

Definition EXTENTS_PER_CALL : nat := 2048%nat.
Definition MAX_ROUND_TRIPS : nat := 4096%nat.

(** What the walk asks of the file: whether its parent is a symlink, whether it
    opens, its type and link count, the filesystem's magic, and the records the
    kernel maps from an offset on ([None]: the call failed). *)
Record Target := mkTarget {
  t_parent_symlink : option (option bool); t_opens : bool; t_meta : option (bool * Z);
  t_fstype : option Z; t_fiemap : Z -> option (list MappedExtent);
}.

Definition XFS_SUPER_MAGIC : Z := 0x58465342.

(** The guards before the first request. *)
Definition check_target (t : Target) : result walk_error unit :=
  let? _ := match t_parent_symlink t with
            | Some None => Err WParentStat
            | Some (Some true) => Err WParentSymlink
            | _ => Ok tt
            end in
  if negb (t_opens t) then Err WOpen
  else match t_meta t with
       | None => Err WStat
       | Some (is_file, nlink) =>
           if negb is_file then Err WNotRegular
           else match t_fstype t with
                | None => Err WFstatfs
                | Some magic =>
                    if negb (magic =? XFS_SUPER_MAGIC) then Err WNotXfs
                    else if negb (nlink =? 1) then Err (WLinks nlink) else Ok tt
                end
       end.

(** The request loop of [walk_file]. *)
Fixpoint walk_loop (fiemap : Z -> option (list MappedExtent)) (rounds : nat) (w : Walk) : result walk_error Walk :=
  match rounds with
  | O => if w_done w then Ok w else Err (WFragmented (w_cursor w))
  | S rounds =>
      if w_done w then Ok w
      else match fiemap (w_cursor w) with
           | None => Err WIoctl
           | Some page =>
               if (EXTENTS_PER_CALL <? length page)%nat then Err WTooMany
               else match page with
                    | [] => match ingest_empty_page w with
                            | (Ok _, w) => if w_done w then Ok w else Err (WFragmented (w_cursor w))
                            | (Err e, _) => Err e
                            end
                    | _ => match ingest page w with
                           | (Ok _, w) => walk_loop fiemap rounds w
                           | (Err e, _) => Err e
                           end
                    end
           end
  end.

Definition walk_file (t : Target) : result walk_error Walk :=
  let? _ := check_target t in walk_loop (t_fiemap t) MAX_ROUND_TRIPS walk0.

Definition exclusive_bytes (t : Target) : result walk_error Z :=
  let? w := walk_file t in finish w.
Definition extent_map (t : Target) : result walk_error (list (Z * Z)) :=
  let? w := walk_file t in finish_map w.

(** [measure_all_with]: what could be measured, and what failed. *)
Fixpoint measure_all_with {E T} (ids : list str) (measure : str -> result E T) : list (str * T) * list (str * E) :=
  match ids with
  | [] => ([], [])
  | id :: rest =>
      let '(ok, failed) := measure_all_with rest measure in
      match measure id with
      | Ok v => ((id, v) :: ok, failed)
      | Err e => (ok, (id, e) :: failed)
      end
  end.

(** ** The size cache *)

Record FileIdentity := mkIdent { fi_dev : Z; fi_ino : Z }.
#[export] Instance ident_eq_dec : EqDecision FileIdentity.
Proof. solve_decision. Defined.

Record SizeCache := mkCache {
  sc_entries : gmap (list Z) (Z * FileIdentity); sc_computed_at : option Z;
  sc_measured_ids : list (list Z); sc_generation : Z; sc_attempted : bool;
}.
Definition cache0 : SizeCache := mkCache ∅ None [] 0 false.

Definition publish (generation : Z) (measured_ids : list str) (entries : list (str * (Z * FileIdentity)))
    (now : Z) (c : SizeCache) : bool * SizeCache :=
  if negb (generation =? sc_generation c) then (false, c)
  else (true, mkCache (foldl (fun m e => <[fst e := snd e]> m) ∅ entries) (Some now) measured_ids
                (sc_generation c) true).

Definition invalidate (c : SizeCache) : SizeCache :=
  mkCache ∅ None [] (u64 (sc_generation c + 1)) false.

Definition get_if_same (id : str) (now : FileIdentity) (c : SizeCache) : option Z :=
  match sc_entries c !! id with
  | Some (bytes, ident) => if bool_decide (ident = now) then Some bytes else None
  | None => None
  end.

Definition is_current_for (ids : list str) (now max_age_secs : Z) (c : SizeCache) : bool :=
  if negb (sc_attempted c) then false
  else match sc_computed_at c with
       | Some at_ => (u_sat_sub now at_ <=? max_age_secs) && bool_decide (sc_measured_ids c = ids)
       | None => false
       end.

End Reflink.
