(* ===== verification/ReflinkSpec.v ===== *)
(** * Reflink accounting: the sweep counts bytes, the walk is exact

    The reference for the sweep is a count over single bytes: deleting the
    oldest snapshots up to one frees exactly the bytes that some of them hold
    and neither a later snapshot nor another file does. *)

From Stdlib Require Import ZArith Lia.
From stdpp Require Import base gmap list list_numbers sorting sets.
From S2P Require Import Prelude Types Reflink.

Import Reflink.
Open Scope Z_scope.

(** ** Counting *)

(** How many positions of [lo, hi) satisfy a predicate. *)
Definition count (p : Z -> bool) (lo hi : Z) : Z :=
  Z.of_nat (length (filter (fun b => p b = true) (seqZ lo (hi - lo)))).

Lemma count_split p lo mid hi : lo <= mid <= hi -> count p lo hi = count p lo mid + count p mid hi.
Proof.
  intros H. unfold count. replace (hi - lo) with ((mid - lo) + (hi - mid)) by lia.
  rewrite seqZ_app by lia. rewrite filter_app, length_app. replace (lo + (mid - lo)) with mid by lia. lia.
Qed.

Lemma count_all p lo hi : lo <= hi -> (forall b, lo <= b < hi -> p b = true) -> count p lo hi = hi - lo.
Proof.
  intros Hle H. unfold count. rewrite filter_all; [rewrite length_seqZ; lia|].
  apply Forall_forall. intros b Hb%elem_of_seqZ. apply H. lia.
Qed.

Lemma count_none p lo hi : (forall b, lo <= b < hi -> p b = false) -> count p lo hi = 0.
Proof.
  intros H. unfold count. rewrite filter_none; [done|]. apply Forall_forall.
  intros b Hb%elem_of_seqZ. rewrite H; [done|lia].
Qed.

Lemma count_ext p q lo hi : (forall b, lo <= b < hi -> p b = q b) -> count p lo hi = count q lo hi.
Proof.
  intros H. unfold count. f_equal. assert (Forall (fun b => p b = q b) (seqZ lo (hi - lo))) as HF.
  { apply Forall_forall. intros b Hb%elem_of_seqZ. apply H. lia. }
  induction HF as [|b l Hb _ IH]; [done|]. rewrite !filter_cons, Hb. by case_decide; cbn; rewrite IH.
Qed.

Lemma count_or p q lo hi :
  (forall b, p b = true -> q b = true -> False) ->
  count (fun b => p b || q b) lo hi = count p lo hi + count q lo hi.
Proof.
  intros H. unfold count. induction (seqZ lo (hi - lo)) as [|b l IH]; [done|]. rewrite !filter_cons.
  destruct (p b) eqn:Ep, (q b) eqn:Eq; cbn [orb]; [by destruct (H b)|..];
    repeat (case_decide; try done); cbn [length]; lia.
Qed.

Lemma count_range p lo hi : lo <= hi -> 0 <= count p lo hi <= hi - lo.
Proof.
  intros H. unfold count. pose proof (length_filter (fun b => p b = true) (seqZ lo (hi - lo))).
  rewrite length_seqZ in *. lia.
Qed.

(** ** The reference *)

Definition covers (r : Z * Z) (b : Z) : bool := (fst r <=? b) && (b <? u64_sat_add (fst r) (snd r)).

(** Snapshot [k] holds byte [b]; another file does. *)
Definition held (ordered : list (list (Z * Z))) (k : nat) (b : Z) : bool :=
  existsb (fun r => covers r b) (nth k ordered []).
Definition held_outside (external : list (Z * Z)) (b : Z) : bool := existsb (fun r => covers r b) external.

(** Byte [b] is freed once the snapshots up to [k] are gone. *)
Definition freed (ordered : list (list (Z * Z))) (external : list (Z * Z)) (k : nat) (b : Z) : bool :=
  existsb (fun i => held ordered i b) (seq 0 (S k))
  && forallb (fun j => negb (held ordered j b)) (seq (S k) (length ordered))
  && negb (held_outside external b).

(** Byte [b] goes with snapshot [k]: the newest holder. *)
Definition owned (ordered : list (list (Z * Z))) (external : list (Z * Z)) (k : nat) (b : Z) : bool :=
  held ordered k b && forallb (fun j => negb (held ordered j b)) (seq (S k) (length ordered))
  && negb (held_outside external b).

Lemma held_outside_range ordered k b : (length ordered <= k)%nat -> held ordered k b = false.
Proof. intros H. unfold held. by rewrite nth_overflow. Qed.

Lemma none_after ordered k b :
  forallb (fun j => negb (held ordered j b)) (seq (S k) (length ordered)) = true
  <-> forall j, (k < j)%nat -> held ordered j b = false.
Proof.
  rewrite forallb_forall. setoid_rewrite in_seq. split.
  - intros H j Hj. destruct (le_lt_dec (length ordered) j); [by apply held_outside_range|].
    apply negb_true_iff, H. lia.
  - intros H j Hj. apply negb_true_iff, H. lia.
Qed.

Lemma owned_spec ordered external k b :
  owned ordered external k b = true <->
  held ordered k b = true /\ (forall j, (k < j)%nat -> held ordered j b = false) /\ held_outside external b = false.
Proof. unfold owned. rewrite !andb_true_iff, none_after, negb_true_iff. tauto. Qed.

Lemma freed_spec ordered external k b :
  freed ordered external k b = true <->
  (exists i, (i <= k)%nat /\ held ordered i b = true)
  /\ (forall j, (k < j)%nat -> held ordered j b = false) /\ held_outside external b = false.
Proof.
  unfold freed. rewrite !andb_true_iff, none_after, negb_true_iff, existsb_exists.
  setoid_rewrite in_seq. split; intros [[(i & Hi) ?] ?] || (intros ((i & Hi) & ? & ?)).
  - split_and!; try done. exists i. split; [lia|tauto].
  - split_and!; try done. exists i. split; [lia|tauto].
Qed.

(** Freeing one more snapshot adds the bytes it was the last to hold. *)
Lemma freed_succ ordered external k lo hi :
  count (freed ordered external (S k)) lo hi
  = count (freed ordered external k) lo hi + count (owned ordered external (S k)) lo hi.
Proof.
  rewrite <- count_or.
  - apply count_ext. intros b _. apply eq_true_iff_eq. rewrite orb_true_iff, !freed_spec, owned_spec. split.
    + intros ((i & Hi & Hh) & Hj & Hx). destruct (held ordered (S k) b) eqn:E; [right; auto|left].
      split_and!; [|intros j Hlt|done].
      * exists i. split; [|done]. destruct (decide (i = S k)) as [->|]; [congruence|lia].
      * destruct (decide (j = S k)) as [->|]; [done|apply Hj; lia].
    + intros [((i & Hi & Hh) & Hj & Hx)|(Hh & Hj & Hx)].
      * split_and!; [exists i; split; [lia|done]|intros; apply Hj; lia|done].
      * split_and!; [exists (S k); split; [lia|done]|done|done].
  - intros b (_ & H & _)%freed_spec (Hh & _)%owned_spec. rewrite H in Hh; [done|lia].
Qed.

Lemma freed_zero ordered external lo hi :
  count (freed ordered external 0) lo hi = count (owned ordered external 0) lo hi.
Proof.
  apply count_ext. intros b _. apply eq_true_iff_eq. rewrite freed_spec, owned_spec. split.
  - intros ((i & Hi & Hh) & ? & ?). replace i with 0%nat in Hh by lia. done.
  - intros (? & ? & ?). split_and!; try done. exists 0%nat. split; [lia|done].
Qed.

Lemma prefix_totals_spec ordered external N bytes : forall k0 running,
  0 <= N <= U64_MAX ->
  running = match k0 with O => 0 | S k => count (freed ordered external k) 0 N end ->
  (forall i v, bytes !! i = Some v -> v = count (owned ordered external (k0 + i)) 0 N) ->
  forall i, (i < length bytes)%nat ->
    prefix_totals running bytes !! i = Some (count (freed ordered external (k0 + i)) 0 N).
Proof.
  induction bytes as [|v bytes IH]; intros k0 running HN Hrun Hb i Hi; cbn [length] in Hi; [lia|].
  cbn [prefix_totals].
  assert (u64_sat_add running v = count (freed ordered external k0) 0 N) as Enew.
  { specialize (Hb 0%nat v eq_refl). rewrite Nat.add_0_r in Hb.
    assert (running + v = count (freed ordered external k0) 0 N) as E.
    { subst running v. destruct k0; [rewrite freed_zero; lia|by rewrite freed_succ]. }
    unfold u64_sat_add. rewrite E. pose proof (count_range (freed ordered external k0) 0 N). lia. }
  destruct i as [|i]; cbn [lookup list_lookup].
  - rewrite Enew, Nat.add_0_r. done.
  - rewrite Enew. replace (k0 + S i)%nat with (S k0 + i)%nat by lia. apply IH; [done|done| |lia].
    intros j w Hj. replace (S k0 + j)%nat with (k0 + S j)%nat by lia. by apply Hb.
Qed.

(** ** Depths *)

(** The net number of open ranges of an owner after some events. *)
Fixpoint level (o : option nat) (evs : list Event) : Z :=
  match evs with
  | [] => 0
  | e :: t => (if bool_decide (e_owner e = o) then e_delta e else 0) + level o t
  end.

Lemma level_app o l1 l2 : level o (l1 ++ l2) = level o l1 + level o l2.
Proof. induction l1 as [|e l IH]; cbn; [done|]. rewrite IH. lia. Qed.

Lemma level_perm o l1 l2 : l1 ≡ₚ l2 -> level o l1 = level o l2.
Proof. induction 1; cbn; lia. Qed.

(** No owner's depth ever goes below zero. *)
Fixpoint balanced (pre evs : list Event) : Prop :=
  match evs with
  | [] => True
  | e :: t => (forall i, 0 <= level (Some i) (pre ++ [e])) /\ balanced (pre ++ [e]) t
  end.

Lemma balanced_mono evs : forall pre pre',
  (forall i, level (Some i) pre <= level (Some i) pre') -> balanced pre evs -> balanced pre' evs.
Proof.
  induction evs as [|e t IH]; intros pre pre' Hle; cbn; [done|]. intros [H1 H2]. split.
  - intros i. specialize (H1 i). specialize (Hle i). rewrite level_app in *. lia.
  - eapply IH; [|exact H2]. intros i. specialize (Hle i). rewrite !level_app. lia.
Qed.

(** Opening a range before closing it keeps the balance. *)
Lemma balanced_insert o p q B A1 : forall A2 pre,
  (forall i, 0 <= level (Some i) pre) -> balanced pre (A1 ++ A2 ++ B) ->
  balanced pre (A1 ++ mkEvent p 1 o :: A2 ++ mkEvent q (-1) o :: B).
Proof.
  assert (forall i, 0 <= level (Some i) [mkEvent p 1 o]) as Hs by (intros i; cbn; case_bool_decide; lia).
  assert (forall i, level (Some i) [mkEvent q (-1) o] = - level (Some i) [mkEvent p 1 o]) as He
    by (intros i; cbn; case_bool_decide; lia).
  induction A1 as [|e A1 IH]; intros A2 pre Hpre; cbn [app balanced].
  - intros Hb. split; [intros i; rewrite level_app; specialize (Hpre i); specialize (Hs i); lia|].
    assert (forall pre2, (forall i, level (Some i) pre2 = level (Some i) pre + level (Some i) [mkEvent p 1 o]) ->
      balanced pre2 (A2 ++ mkEvent q (-1) o :: B)) as H; [|apply H; intros i; by rewrite level_app].
    revert pre Hpre Hb. induction A2 as [|e A2 IH2]; intros pre Hpre Hb pre2 E; cbn [app balanced] in *.
    + split; [intros i; rewrite level_app, E, He; specialize (Hpre i); lia|].
      eapply balanced_mono; [|exact Hb]. intros i. rewrite level_app, E, He. lia.
    + destruct Hb as [H1 H2]. split.
      * intros i. specialize (H1 i). specialize (Hs i). rewrite level_app in *. rewrite E. lia.
      * apply (IH2 (pre ++ [e])); [exact H1|exact H2|]. intros i. rewrite !level_app, E. lia.
  - intros [H1 H2]. split; [done|]. by apply IH.
Qed.

Lemma insert_by_split {A} (le : A -> A -> bool) x l : exists l1 l2, l = l1 ++ l2 /\ insert_by le x l = l1 ++ x :: l2.
Proof.
  induction l as [|y l (l1 & l2 & -> & IH)]; cbn; [by exists [], []|].
  destruct (le x y); [by exists [], (y :: l1 ++ l2)|]. exists (y :: l1), l2. by rewrite IH.
Qed.

Lemma insert_by_before {A} (le : A -> A -> bool) x y l2 : le x y = true ->
  forall l1, exists a b, l1 = a ++ b /\ insert_by le x (l1 ++ y :: l2) = a ++ x :: b ++ y :: l2.
Proof.
  intros Hle. induction l1 as [|z l1 (a & b & -> & IH)]; cbn.
  - rewrite Hle. by exists [], [].
  - destruct (le x z); [by exists [], (z :: a ++ b)|]. exists (z :: a), b. by rewrite IH.
Qed.

(** The ranges with their owner, in the order they are pushed. *)
Definition tagged (ordered : list (list (Z * Z))) (external : list (Z * Z)) : list (option nat * (Z * Z)) :=
  concat (imap (fun idx (ranges : list (Z * Z)) => pair (Some idx) <$> ranges) ordered) ++ (pair None <$> external).

Definition range_ok (r : Z * Z) : Prop := 0 <= fst r <= U64_MAX /\ 0 <= snd r.

Lemma bind_tagged o (l : list (Z * Z)) : (pair o <$> l) ≫= (fun p => push_range p.1 p.2) = l ≫= push_range o.
Proof. induction l as [|r l IH]; [done|]. csimpl. by rewrite IH. Qed.

Lemma all_events_tagged ordered external :
  all_events ordered external = tagged ordered external ≫= (fun p => push_range p.1 p.2).
Proof.
  unfold all_events, tagged. rewrite bind_app, bind_tagged. f_equal.
  assert (forall n, concat (imap (fun idx ranges => ranges ≫= push_range (Some (n + idx)%nat)) ordered)
    = concat (imap (fun idx (ranges : list (Z * Z)) => pair (Some (n + idx)%nat) <$> ranges) ordered)
        ≫= (fun p => push_range p.1 p.2)) as H; [|apply (H 0%nat)].
  induction ordered as [|rs ordered IH]; intros n; [done|]. rewrite !imap_cons. cbn [concat].
  rewrite bind_app, bind_tagged. f_equal.
  specialize (IH (S n)). etrans; [|etrans; [exact IH|]]; [f_equal|do 2 f_equal];
    apply imap_ext; intros i x _; cbn; by rewrite Nat.add_succ_r.
Qed.

Lemma sat_end r : range_ok r -> snd r <> 0 -> fst r <= u64_sat_add (fst r) (snd r) <= U64_MAX.
Proof. unfold range_ok, u64_sat_add, U64_MAX. lia. Qed.

Lemma sorted_balanced (l : list (option nat * (Z * Z))) :
  Forall (fun p => range_ok p.2) l -> balanced [] (sort_by_key e_pos (l ≫= (fun p => push_range p.1 p.2))).
Proof.
  induction 1 as [|[o r] l Hr _ IH]; [done|]. csimpl. unfold push_range at 1. cbn [fst snd].
  destruct (Z.eqb_spec (snd r) 0) as [E|E]; [exact IH|]. cbn [app]. unfold sort_by_key. cbn [sort_by].
  set (L := sort_by (key_le e_pos) _) in *.
  destruct (insert_by_split (key_le e_pos) (mkEvent (u64_sat_add (fst r) (snd r)) (-1) o) L) as (l1 & l2 & EL & ->).
  destruct (insert_by_before (key_le e_pos) (mkEvent (fst r) 1 o)
    (mkEvent (u64_sat_add (fst r) (snd r)) (-1) o) l2) with (l1 := l1) as (a & b & El1 & ->).
  { unfold key_le. apply Z.leb_le. cbn. by apply sat_end. }
  apply balanced_insert; [done|]. rewrite app_assoc, <- El1, <- EL. exact IH.
Qed.

(** The depth of an owner at a byte is the number of its ranges that cover it. *)
Lemma level_at o b (l : list (option nat * (Z * Z))) :
  Forall (fun p => range_ok p.2) l ->
  level o (filter (fun e => e_pos e <= b) (l ≫= (fun p => push_range p.1 p.2)))
  = Z.of_nat (length (filter (fun p => p.1 = o /\ covers p.2 b = true) l)).
Proof.
  induction 1 as [|[o' r] l Hr _ IH]; [done|]. csimpl. rewrite filter_app, level_app, IH, filter_cons.
  assert (level o (filter (fun e => e_pos e <= b) (push_range o' r))
    = if decide (o' = o /\ covers r b = true) then 1 else 0) as ->.
  { unfold push_range, covers. destruct (Z.eqb_spec (snd r) 0) as [E|E].
    - cbn. rewrite decide_False; [done|]. intros [_ Hc]. apply andb_true_iff in Hc as [Hc1 Hc2].
      apply Z.leb_le in Hc1. apply Z.ltb_lt in Hc2. unfold u64_sat_add in Hc2. rewrite E in Hc2. lia.
    - pose proof (sat_end r Hr E). rewrite !filter_cons, filter_nil. cbn [e_pos].
      repeat case_decide; cbn; repeat case_bool_decide; try lia; naive_solver lia. }
  cbn [fst snd]. repeat case_decide; cbn [length]; lia || tauto.
Qed.

Lemma elem_of_concat {A} (x : A) (ls : list (list A)) : x ∈ concat ls <-> exists l, x ∈ l /\ l ∈ ls.
Proof. rewrite list_elem_of_In, in_concat. setoid_rewrite list_elem_of_In. naive_solver. Qed.

Lemma prefix_totals_length bytes : forall running, length (prefix_totals running bytes) = length bytes.
Proof. induction bytes as [|b t IH]; intros running; cbn; [done|]. by rewrite IH. Qed.

(** ** The sweep's state *)

(** The depths the sweep keeps are those of the events it has applied. *)
Definition tracks (st : sweep_state) (done_ : list Event) : Prop :=
  external_depth st = level None done_
  /\ forall i, active st !! i = if 0 <? level (Some i) done_ then Some (level (Some i) done_) else None.

Lemma last_key_fold (l : list (nat * Z)) : forall best,
  match foldl (fun best e => match best with Some b => Some (Nat.max b (fst e)) | None => Some (fst e) end) best l with
  | Some k => (best = Some k \/ k ∈ l.*1) /\ (forall b, best = Some b -> (b <= k)%nat) /\ forall j, j ∈ l.*1 -> (j <= k)%nat
  | None => best = None /\ l = []
  end.
Proof.
  induction l as [|[j v] l IH]; intros best; cbn [foldl].
  - destruct best as [b|]; [|done]. split_and!; [by left|by intros ? [= ->]|by intros j ?%not_elem_of_nil].
  - specialize (IH (match best with Some b => Some (Nat.max b (fst (j, v))) | None => Some (fst (j, v)) end)).
    destruct (foldl _ _ l) as [k|]; [|by destruct best, IH]. destruct IH as (Hin & Hb & Hj). split_and!.
    + destruct Hin as [Hin|Hin]; [|right; by right]. destruct best as [b|]; cbn in Hin; simplify_eq.
      * destruct (Nat.max_spec b j) as [[_ ->]|[_ ->]]; [right; left|by left].
      * right; left.
    + intros b ->. specialize (Hb _ eq_refl). cbn in Hb. lia.
    + intros j' [->|Hj']%elem_of_cons; [|by apply Hj].
      destruct best as [b|]; specialize (Hb _ eq_refl); cbn in *; lia.
Qed.

Lemma last_key_spec (m : gmap nat Z) :
  match last_key m with
  | Some k => is_Some (m !! k) /\ forall j, is_Some (m !! j) -> (j <= k)%nat
  | None => m = ∅
  end.
Proof.
  unfold last_key. pose proof (last_key_fold (map_to_list m) None) as H. destruct (foldl _ _ _) as [k|].
  - destruct H as ([?|Hin] & _ & Hj); [done|]. split.
    + apply list_elem_of_fmap in Hin as ([k' v] & -> & Hin%elem_of_map_to_list). by exists v.
    + intros j [v Hv]. apply Hj, list_elem_of_fmap. exists (j, v). by rewrite elem_of_map_to_list.
  - by apply map_to_list_empty_iff, H.
Qed.

Lemma apply_event_tracks e st done_ :
  (forall i, 0 <= level (Some i) done_) -> tracks st done_ -> tracks (apply_event e st) (done_ ++ [e]).
Proof.
  intros Hn [He Ha]. unfold apply_event. destruct e as [p d o]. split.
  - rewrite level_app, <- He. destruct o; cbn [e_owner e_delta external_depth level];
      [rewrite bool_decide_false by done|rewrite bool_decide_true by done]; lia.
  - intros i. rewrite level_app. destruct o as [j|]; cbn [e_owner e_delta active level].
    2:{ rewrite bool_decide_false by done. rewrite Ha, !Z.add_0_r. done. }
    assert (default 0 (active st !! j) = level (Some j) done_) as ->.
    { rewrite Ha. specialize (Hn j). destruct (Z.ltb_spec 0 (level (Some j) done_)); cbn; lia. }
    destruct (decide (i = j)) as [->|Hij].
    + rewrite bool_decide_true by done. rewrite Z.add_0_r.
      destruct (Z.leb_spec (level (Some j) done_ + d) 0), (Z.ltb_spec 0 (level (Some j) done_ + d)); try lia.
      * apply lookup_delete_eq.
      * apply lookup_insert_eq.
    + rewrite bool_decide_false by congruence. rewrite !Z.add_0_r, <- Ha.
      destruct (_ <=? 0); [apply lookup_delete_ne|apply lookup_insert_ne]; congruence.
Qed.

Lemma drain_spec pos : forall evs st done_,
  (forall i, 0 <= level (Some i) done_) -> balanced done_ evs -> tracks st done_ ->
  exists grp, let '(st', rest) := drain pos evs st in
    evs = grp ++ rest /\ Forall (fun e => e_pos e = pos) grp
    /\ (forall i, 0 <= level (Some i) (done_ ++ grp)) /\ balanced (done_ ++ grp) rest /\ tracks st' (done_ ++ grp)
    /\ owned_by st' = owned_by st.
Proof.
  induction evs as [|e evs IH]; intros st done_ Hn Hb Ht; cbn [drain].
  - exists []. rewrite (app_nil_r done_). done.
  - destruct (Z.eqb_spec (e_pos e) pos) as [Ep|Ep]; [|exists []; by rewrite (app_nil_r done_)].
    destruct Hb as [Hn' Hb]. destruct (IH (apply_event e st) (done_ ++ [e])) as [grp H]; [exact Hn'|exact Hb|by apply apply_event_tracks|].
    exists (e :: grp). destruct (drain _ _ _) as [st' rest]. rewrite <- app_assoc in H. cbn [app] in *.
    destruct H as (-> & Hg & ? & ? & ? & Ho). split_and!; try done; [by constructor|].
    rewrite Ho. unfold apply_event. by destruct (e_owner e).
Qed.

Section Sweep.
Context (ordered : list (list (Z * Z))) (external : list (Z * Z)).
Context (Hok : Forall (fun p => range_ok p.2) (tagged ordered external)).

Notation events := (sort_by_key e_pos (all_events ordered external)).

Lemma events_perm : events ≡ₚ tagged ordered external ≫= (fun p => push_range p.1 p.2).
Proof. rewrite <- all_events_tagged. apply sort_by_perm. Qed.

Lemma held_tagged k b : held ordered k b = true <-> exists r, (Some k, r) ∈ tagged ordered external /\ covers r b = true.
Proof.
  unfold held, tagged. rewrite existsb_exists. split.
  - intros (r & Hr%list_elem_of_In & Hc). exists r. split; [|done]. apply elem_of_app. left.
    apply elem_of_concat. destruct (ordered !! k) as [rs|] eqn:E.
    + rewrite (nth_lookup_Some _ _ _ _ E) in Hr. exists (pair (Some k) <$> rs). split.
      * by apply list_elem_of_fmap_2.
      * apply list_elem_of_lookup. exists k. by rewrite list_lookup_imap, E.
    + rewrite nth_lookup, E in Hr. cbn in Hr. by apply not_elem_of_nil in Hr.
  - intros (r & [Hr|Hr]%elem_of_app & Hc).
    + apply elem_of_concat in Hr as (l & Hin & Hl). apply list_elem_of_lookup in Hl as [i Hi].
      rewrite list_lookup_imap in Hi. destruct (ordered !! i) as [rs|] eqn:E; simplify_eq/=.
      apply list_elem_of_fmap in Hin as (r' & ? & Hr'). simplify_eq.
      exists r'. split; [|done]. rewrite (nth_lookup_Some _ _ _ _ E). by apply list_elem_of_In.
    + apply list_elem_of_fmap in Hr as (? & ? & ?). simplify_eq.
Qed.

Lemma outside_tagged b : held_outside external b = true <-> exists r, (None, r) ∈ tagged ordered external /\ covers r b = true.
Proof.
  unfold held_outside, tagged. rewrite existsb_exists. split.
  - intros (r & Hr%list_elem_of_In & Hc). exists r. split; [|done]. apply elem_of_app. right.
    by apply list_elem_of_fmap_2.
  - intros (r & [Hr|Hr]%elem_of_app & Hc).
    + apply elem_of_concat in Hr as (l & Hin & Hl). apply list_elem_of_lookup in Hl as [i Hi].
      rewrite list_lookup_imap in Hi. destruct (ordered !! i); simplify_eq/=.
      apply list_elem_of_fmap in Hin as (? & ? & ?). simplify_eq.
    + apply list_elem_of_fmap in Hr as (r' & ? & ?). simplify_eq. exists r'. by rewrite <- list_elem_of_In.
Qed.

(** Between two boundaries the depth says who holds the bytes. *)
Lemma level_covers o b done_ rest :
  events = done_ ++ rest -> Forall (fun e => e_pos e <= b) done_ -> Forall (fun e => b < e_pos e) rest ->
  0 <= level o done_ /\
  (0 < level o done_ <-> exists r, (o, r) ∈ tagged ordered external /\ covers r b = true).
Proof.
  intros E Hd Hr.
  assert (level o done_ = Z.of_nat (length (filter (fun p => p.1 = o /\ covers p.2 b = true) (tagged ordered external)))) as ->.
  { rewrite <- level_at by done. rewrite <- (level_perm o _ _ (filter_Permutation _ _ _ events_perm)), E, filter_app.
    rewrite (filter_all _ done_) by done.
    rewrite (filter_none _ rest) by (eapply Forall_impl; [exact Hr|cbn; lia]). by rewrite app_nil_r. }
  split; [lia|]. set (l := filter _ _). split.
  - intros H. destruct l as [|[o' r] l'] eqn:El; [cbn in H; lia|]. exists r.
    assert ((o', r) ∈ l) as Hin by (rewrite El; left). unfold l in Hin.
    apply list_elem_of_filter in Hin as [[? ?] ?]. cbn in *. by subst.
  - intros (r & Hr1 & Hc). assert ((o, r) ∈ l) as Hin by (apply list_elem_of_filter; done).
    destruct l; [by apply not_elem_of_nil in Hin|cbn; lia].
Qed.

(** What holds between two turns of the outer loop. *)
Definition sweep_inv (st : sweep_state) (done_ rest : list Event) : Prop :=
  events = done_ ++ rest /\ Forall (fun e => e_pos e <= prev_pos st) done_
  /\ Forall (fun e => prev_pos st <= e_pos e) rest
  /\ (forall i, 0 <= level (Some i) done_) /\ balanced done_ rest /\ tracks st done_
  /\ 0 <= prev_pos st <= U64_MAX
  /\ length (owned_by st) = length ordered
  /\ forall k v, owned_by st !! k = Some v -> v = count (owned ordered external k) 0 (prev_pos st).

Lemma span_owner st done_ rest b k :
  sweep_inv st done_ rest -> prev_pos st <= b -> Forall (fun e => b < e_pos e) rest ->
  owned ordered external k b = bool_decide (last_key (active st) = Some k) && (external_depth st =? 0).
Proof.
  intros (E & Hd & _ & _ & _ & [He Ha] & _) Hb Hr.
  assert (Forall (fun e => e_pos e <= b) done_) as Hd' by (eapply Forall_impl; [exact Hd|cbn; lia]).
  assert (forall i, is_Some (active st !! i) <-> held ordered i b = true) as Hh.
  { intros i. rewrite held_tagged. destruct (level_covers (Some i) b done_ rest) as [_ <-]; [done..|].
    rewrite Ha. destruct (Z.ltb_spec 0 (level (Some i) done_)); [done|].
    split; [by intros [? ?]|lia]. }
  assert (external_depth st =? 0 = negb (held_outside external b)) as ->.
  { destruct (level_covers None b done_ rest) as [Hge Hiff]; [done..|]. rewrite <- outside_tagged in Hiff.
    rewrite He. destruct (held_outside external b), (Z.eqb_spec (level None done_) 0); cbn; try done.
    - assert (0 < level None done_) by by apply Hiff. lia.
    - assert (0 < level None done_) as Hc by lia. by apply Hiff in Hc. }
  apply eq_true_iff_eq. rewrite owned_spec, andb_true_iff, bool_decide_eq_true, negb_true_iff.
  pose proof (last_key_spec (active st)) as Hl. destruct (last_key (active st)) as [m|].
  - destruct Hl as [Hm Hmax]. split.
    + intros (Hk & Hj & ?). split; [|done]. f_equal. apply Hh in Hk. specialize (Hmax k Hk).
      destruct (decide (m = k)); [done|]. apply Hh in Hm. rewrite Hj in Hm; [done|lia].
    + intros [[= ->] ?]. split_and!; [by apply Hh| |done]. intros j Hj. apply not_true_iff_false.
      intros Hhj%Hh. specialize (Hmax j Hhj). lia.
  - split; [|by intros [? _]]. intros (Hk & _). apply Hh in Hk as [? Hk]. by rewrite Hl, lookup_empty in Hk.
Qed.

Lemma account_spec st done_ e rest k v :
  sweep_inv st done_ (e :: rest) -> Forall (fun e' => e_pos e <= e_pos e') rest -> e_pos e <= U64_MAX ->
  owned_by (account (e_pos e) st) !! k = Some v -> v = count (owned ordered external k) 0 (e_pos e).
Proof.
  intros Hinv Hs HU Hk. pose proof Hinv as (_ & _ & Hr & _ & _ & _ & Hp & _ & Ho).
  apply Forall_cons in Hr as [Hle _]. rewrite (count_split _ 0 (prev_pos st)) by lia.
  assert (forall b, prev_pos st <= b < e_pos e -> owned ordered external k b
    = bool_decide (last_key (active st) = Some k) && (external_depth st =? 0)) as Hspan.
  { intros b Hb. eapply span_owner; [done|lia|]. constructor; [lia|]. eapply Forall_impl; [exact Hs|cbn; lia]. }
  unfold account in Hk. destruct (Z.ltb_spec (prev_pos st) (e_pos e)) as [Hlt|Hge]; cbn [andb] in Hk.
  2:{ rewrite (count_none _ (prev_pos st)) by lia. rewrite (Ho _ _ Hk). lia. }
  destruct (external_depth st =? 0); [|rewrite (count_none _ (prev_pos st)), (Ho _ _ Hk) by
    (intros b Hb; rewrite Hspan by done; by rewrite andb_false_r); lia].
  destruct (last_key (active st)) as [h|]; cbn [owned_by] in Hk.
  2:{ rewrite (count_none _ (prev_pos st)), (Ho _ _ Hk) by (intros b Hb; by rewrite Hspan). lia. }
  destruct (decide (k = h)) as [->|Hne].
  - rewrite list_lookup_alter_eq in Hk. destruct (owned_by st !! h) as [w|] eqn:Ew; cbn in Hk; simplify_eq.
    rewrite (Ho _ _ Ew). rewrite (count_all _ (prev_pos st)) by
      (lia || (intros b Hb; rewrite Hspan by done; by rewrite bool_decide_true)).
    pose proof (count_range (owned ordered external h) 0 (prev_pos st)). unfold u64_sat_add. lia.
  - rewrite list_lookup_alter_ne in Hk by done. rewrite (count_none _ (prev_pos st)), (Ho _ _ Hk); [lia|].
    intros b Hb. rewrite Hspan by done. by rewrite bool_decide_false by congruence.
Qed.

Lemma event_range e : e ∈ events -> 0 <= e_pos e <= U64_MAX.
Proof.
  rewrite events_perm, list_elem_of_bind. intros ([o r] & He & Hr). rewrite Forall_forall in Hok.
  specialize (Hok _ Hr). cbn in *. unfold push_range in He. destruct (Z.eqb_spec (snd r) 0); [by apply not_elem_of_nil in He|].
  pose proof (sat_end r Hok n). destruct Hok. apply elem_of_cons in He as [->|[->|[]%not_elem_of_nil]%elem_of_cons]; cbn; lia.
Qed.

Lemma range_events o r : (o, r) ∈ tagged ordered external -> snd r <> 0 ->
  mkEvent (fst r) 1 o ∈ events /\ mkEvent (u64_sat_add (fst r) (snd r)) (-1) o ∈ events.
Proof.
  intros Hr Hz. split; rewrite events_perm; apply list_elem_of_bind; exists (o, r); (split; [|done]);
    cbn; unfold push_range; (rewrite (proj2 (Z.eqb_neq _ _)) by done); set_solver.
Qed.

(** Nothing is held before the first event or from the last on. *)
Lemma unheld k b :
  Forall (fun e => b < e_pos e) events \/ Forall (fun e => e_pos e <= b) events ->
  owned ordered external k b = false.
Proof.
  intros H. apply not_true_iff_false. intros (Hh & _)%owned_spec.
  apply held_tagged in Hh as (r & Hr & [H1%Z.leb_le H2%Z.ltb_lt]%andb_true_iff).
  assert (snd r <> 0) as Hz by (intros E; unfold u64_sat_add in H2; lia).
  destruct (range_events _ _ Hr Hz) as [Hs He]. rewrite !Forall_forall in H.
  destruct H as [H|H]; [specialize (H _ Hs)|specialize (H _ He)]; cbn in H; lia.
Qed.

Lemma sweep_step st done_ e rest st' rest' :
  sweep_inv st done_ (e :: rest) -> drain (e_pos e) (e :: rest) (account (e_pos e) st) = (st', rest') ->
  (length rest' <= length rest)%nat /\
  exists done', sweep_inv (mkSweep (owned_by st') (external_depth st') (active st') (e_pos e)) done' rest'.
Proof.
  intros Hinv Hdr. pose proof Hinv as (E & Hd & Hr & Hn & Hb & Ht & Hp & Hl & Ho).
  pose proof (sort_by_key_strongly e_pos (all_events ordered external)) as Hs. rewrite E in Hs.
  apply StronglySorted_app in Hs as (_ & _ & Hs%StronglySorted_cons). destruct Hs as [Hs _].
  assert (0 <= e_pos e <= U64_MAX) as He by (apply event_range; rewrite E; set_solver).
  assert (tracks (account (e_pos e) st) done_ /\ length (owned_by (account (e_pos e) st)) = length ordered) as [Ht' Hl'].
  { unfold account. destruct (_ && _); [|done]. destruct (last_key _); [|done]. split; [done|]. cbn. by rewrite length_alter. }
  destruct (drain_spec (e_pos e) (e :: rest) _ _ Hn Hb Ht') as [grp H]. rewrite Hdr in H.
  destruct H as (Eg & Hg & Hn' & Hb' & Ht2 & Ho').
  cbn [drain] in Hdr. rewrite Z.eqb_refl in Hdr. split.
  { destruct (drain_spec (e_pos e) rest (apply_event e (account (e_pos e) st)) (done_ ++ [e])) as [grp2 H2];
      [apply Hb|apply Hb|by apply apply_event_tracks|].
    rewrite Hdr in H2. destruct H2 as (-> & _). rewrite length_app. lia. }
  exists (done_ ++ grp). apply Forall_cons in Hr as [Hpe _]. unfold sweep_inv. cbn [owned_by prev_pos]. split_and!; try done.
  - by rewrite E, <- app_assoc, Eg.
  - apply Forall_app. split; (eapply Forall_impl; [eassumption|cbn; lia]).
  - assert (Forall (fun e' => e_pos e <= e_pos e') (grp ++ rest')) as Hall by (rewrite <- Eg; by constructor).
    by apply Forall_app in Hall as [_ ?].
  - lia.
  - lia.
  - by rewrite Ho'.
  - intros k v. rewrite Ho'. eapply account_spec; [done|done|lia].
Qed.

Lemma sweep_spec : forall fuel rest st done_,
  (length rest <= fuel)%nat -> sweep_inv st done_ rest -> sweep_inv (sweep fuel rest st) events [].
Proof.
  assert (forall st done_, sweep_inv st done_ [] -> sweep_inv st events []) as Hend.
  { intros st done_ H. pose proof H as (E & _). rewrite app_nil_r in E. by rewrite E. }
  induction fuel as [|fuel IH]; intros [|e rest] st done_ Hf Hinv; cbn [sweep length] in *; try lia; [by eapply Hend..|].
  destruct (drain (e_pos e) (e :: rest) (account (e_pos e) st)) as [st' rest'] eqn:Ed.
  destruct (sweep_step _ _ _ _ _ _ Hinv Ed) as [Hlen [done' Hinv']]. eapply IH; [|done]. lia.
Qed.

Lemma sweep_result e evs : events = e :: evs ->
  sweep_inv (sweep (length events) events (mkSweep (replicate (length ordered) 0) 0 ∅ (e_pos e))) events [].
Proof.
  intros E. pose proof (sort_by_key_strongly e_pos (all_events ordered external)) as Hs. rewrite E in Hs.
  apply StronglySorted_cons in Hs as [Hs _].
  assert (0 <= e_pos e <= U64_MAX) as He by (apply event_range; rewrite E; left).
  eapply (sweep_spec _ _ _ []); [lia|]. unfold sweep_inv. cbn [owned_by prev_pos]. split_and!; try done; try lia.
  - rewrite E. constructor; [lia|done].
  - rewrite all_events_tagged. by apply sorted_balanced.
  - by rewrite length_replicate.
  - intros i v [-> _]%lookup_replicate. symmetry. apply count_none. intros b Hb. apply unheld. left.
    rewrite E. constructor; [lia|]. eapply Forall_impl; [exact Hs|cbn; lia].
Qed.

Lemma reclaim_spec k : (k < length ordered)%nat ->
  cumulative_reclaim ordered external !! k = Some (count (freed ordered external k) 0 U64_MAX).
Proof.
  intros Hk. unfold cumulative_reclaim. destruct events as [|e evs] eqn:E.
  - rewrite lookup_replicate_2 by done. f_equal. symmetry. apply count_none. intros b _.
    apply not_true_iff_false. intros ((i & _ & Hi) & _)%freed_spec.
    apply held_tagged in Hi as (r & Hr & [H1%Z.leb_le H2%Z.ltb_lt]%andb_true_iff).
    destruct (range_events _ _ Hr) as [Hs _]; [intros E0; unfold u64_sat_add in H2; lia|].
    rewrite E in Hs. by apply not_elem_of_nil in Hs.
  - rewrite <- E. destruct (sweep_result _ _ E) as (_ & Hd & _ & _ & _ & _ & Hp & Hl & Ho).
    set (st := sweep _ _ _) in *.
    apply prefix_totals_spec with (k0 := 0%nat); [unfold U64_MAX; lia|done| |by rewrite Hl].
    intros i v Hi. rewrite (Ho _ _ Hi), (count_split _ 0 (prev_pos st) U64_MAX) by lia.
    rewrite (count_none _ (prev_pos st)); [cbn [Nat.add]; lia|]. intros b Hb. apply unheld. right.
    eapply Forall_impl; [exact Hd|cbn; lia].
Qed.

Lemma reclaim_length : length (cumulative_reclaim ordered external) = length ordered.
Proof.
  unfold cumulative_reclaim. destruct events as [|e evs] eqn:E; [by rewrite length_replicate|].
  rewrite prefix_totals_length, <- E. apply (sweep_result _ _ E).
Qed.

End Sweep.

Lemma tagged_ok ordered external :
  Forall (Forall range_ok) ordered -> Forall range_ok external ->
  Forall (fun p => range_ok p.2) (tagged ordered external).
Proof.
  rewrite !Forall_forall. setoid_rewrite Forall_forall. intros Ho He [o r] [Hr|Hr]%elem_of_app.
  - apply elem_of_concat in Hr as (l & Hin & [i Hi]%list_elem_of_lookup). rewrite list_lookup_imap in Hi.
    destruct (ordered !! i) as [rs|] eqn:E; simplify_eq/=. apply list_elem_of_fmap in Hin as (r' & ? & ?).
    simplify_eq. eapply Ho; [by eapply list_elem_of_lookup_2|done].
  - apply list_elem_of_fmap in Hr as (r' & ? & ?). simplify_eq. by apply He.
Qed.

(** C21: the sweep is exact. For every list of snapshots and of other files'
    ranges (any overlap, duplicates, empty ranges, ranges saturating at the end
    of the address space), entry [k] of [cumulative_reclaim] is the number of
    bytes that some snapshot up to [k] holds and neither a newer snapshot nor
    another file does. *)
Theorem cumulative_reclaim_exact (ordered : list (list (Z * Z))) (external : list (Z * Z)) :
  Forall (Forall range_ok) ordered -> Forall range_ok external ->
  length (cumulative_reclaim ordered external) = length ordered
  /\ forall k, (k < length ordered)%nat ->
     cumulative_reclaim ordered external !! k = Some (count (freed ordered external k) 0 U64_MAX).
Proof.
  intros Ho He. assert (Forall (fun p => range_ok p.2) (tagged ordered external)) as Hok by by apply tagged_ok.
  split; [by apply reclaim_length|by apply reclaim_spec].
Qed.

Lemma cumulative_reclaim_exact_witness :
  cumulative_reclaim [[(0, 10)]; [(5, 10); (30, 0)]; [(12, 2)]] [(U64_MAX, 7)] !! 1%nat
  = Some (count (freed [[(0, 10)]; [(5, 10); (30, 0)]; [(12, 2)]] [(U64_MAX, 7)] 1) 0 U64_MAX).
Proof.
  apply cumulative_reclaim_exact; [..|cbn; lia]; repeat constructor; unfold U64_MAX; cbn; lia.
Defined.

(** ** The extent walk *)

Definition extent_ok (e : MappedExtent) : Prop :=
  has (x_flags e) (Z.lor FIEMAP_EXTENT_DELALLOC FIEMAP_EXTENT_UNKNOWN) = false
  /\ 0 < x_length e /\ 0 <= x_logical e /\ x_logical e + x_length e <= U64_MAX.

(** A complete extent map: records in order, disjoint, the last one flagged. *)
Fixpoint chained (cursor : Z) (L : list MappedExtent) : Prop :=
  match L with
  | [] => True
  | e :: t => cursor <= x_logical e /\ extent_ok e
              /\ has (x_flags e) FIEMAP_EXTENT_LAST = is_empty t
              /\ chained (x_logical e + x_length e) t
  end.

Fixpoint unshared (L : list MappedExtent) : Z :=
  match L with
  | [] => 0
  | e :: t => (if has (x_flags e) FIEMAP_EXTENT_SHARED then 0 else x_length e) + unshared t
  end.

Fixpoint end_of (cursor : Z) (L : list MappedExtent) : Z :=
  match L with [] => cursor | e :: t => end_of (x_logical e + x_length e) t end.

Definition ranges_of (L : list MappedExtent) : list (Z * Z) := (fun e => (x_physical e, x_length e)) <$> L.

(** The kernel maps, from an offset on, the records that reach past it. *)
Definition kernel (L : list MappedExtent) (start : Z) : option (list MappedExtent) :=
  Some (take EXTENTS_PER_CALL (filter (fun e => start < x_logical e + x_length e) L)).

Definition walk_upto (L : list MappedExtent) (fin : bool) : Walk :=
  mkWalk (unshared L) (end_of 0 L) fin false (ranges_of L).

Lemma unshared_app A B : unshared (A ++ B) = unshared A + unshared B.
Proof. induction A as [|e A IH]; cbn; [done|]. rewrite IH. lia. Qed.

Lemma end_of_app A B : forall c, end_of c (A ++ B) = end_of (end_of c A) B.
Proof. induction A as [|e A IH]; intros c; cbn; [done|]. apply IH. Qed.

Lemma chained_app A B : forall c, chained c (A ++ B) -> chained (end_of c A) B.
Proof. induction A as [|e A IH]; intros c; cbn; [done|]. intros (_ & _ & _ & H). by apply IH. Qed.

(** The exclusive bytes never exceed the offset reached. *)
Lemma unshared_bound A B : forall c, chained c (A ++ B) -> 0 <= c ->
  c <= end_of c A /\ 0 <= unshared A <= end_of c A - c /\ (A <> [] -> end_of c A <= U64_MAX).
Proof.
  induction A as [|e A IH]; intros c H Hc; cbn in *; [split_and!; try lia; done|].
  destruct H as (Hle & (_ & Hl & H0 & Hu) & _ & H). specialize (IH _ H ltac:(lia)) as (H1 & H2 & H3).
  split_and!; try lia; try (destruct (has _ _); lia). intros _. destruct A; [cbn in *; lia|by apply H3].
Qed.

Lemma chained_reach B : forall c, chained c B -> Forall (fun e => c < x_logical e + x_length e) B.
Proof.
  induction B as [|e B IH]; intros c; cbn; [done|]. intros (? & (? & ? & ?) & _ & Hc). constructor; [lia|]. eapply Forall_impl; [by apply IH|cbn; lia].
Qed.

Lemma chained_before A B : forall c, chained c (A ++ B) ->
  Forall (fun e => ~ end_of c A < x_logical e + x_length e) A.
Proof.
  induction A as [|e A IH]; intros c; cbn; [done|]. intros (? & (? & ? & ? & ?) & _ & Hc).
  pose proof (unshared_bound A B _ Hc ltac:(lia)) as (? & _). constructor; [lia|by apply IH].
Qed.

Lemma kernel_page A B : chained 0 (A ++ B) -> kernel (A ++ B) (end_of 0 A) = Some (take EXTENTS_PER_CALL B).
Proof.
  intros H. unfold kernel. rewrite filter_app, (filter_none _ A), (filter_all _ B); [done|..].
  - by apply chained_reach, chained_app.
  - by apply (chained_before A B).
Qed.

Lemma ingest_inner_spec P Q : forall A, chained 0 (A ++ P ++ Q) ->
  ingest_inner P (walk_upto A false) = (Ok tt, walk_upto (A ++ P) (negb (is_empty P) && is_empty Q)).
Proof.
  induction P as [|e P IH]; intros A H; cbn [ingest_inner]; [by rewrite app_nil_r|].
  replace (A ++ e :: P) with ((A ++ [e]) ++ P) by by rewrite <- app_assoc.
  assert (chained 0 ((A ++ [e]) ++ P ++ Q)) as H' by (rewrite <- app_assoc; exact H).
  pose proof (unshared_bound (A ++ [e]) _ 0 H' ltac:(lia)) as (_ & Hsum & Hmax).
  specialize (Hmax ltac:(by destruct A)). rewrite unshared_app, end_of_app in Hsum. rewrite end_of_app in Hmax. cbn in Hsum, Hmax.
  apply chained_app in H as (Hle & (Hf & Hl & H0 & Hu) & Hlast & _).
  rewrite Hf. rewrite (proj2 (Z.eqb_neq _ _)) by lia. cbn [w_cursor walk_upto].
  rewrite (proj2 (Z.ltb_ge _ _)) by done. unfold checked_add at 1. rewrite (proj2 (Z.leb_le _ _)) by done.
  assert ((if has (x_flags e) FIEMAP_EXTENT_SHARED then Some (w_total (walk_upto A false))
           else checked_add (w_total (walk_upto A false)) (x_length e)) = Some (unshared (A ++ [e]))) as ->.
  { rewrite unshared_app. cbn. destruct (has (x_flags e) FIEMAP_EXTENT_SHARED); [f_equal; lia|].
    unfold checked_add. rewrite (proj2 (Z.leb_le _ _)) by lia. f_equal. lia. }
  assert (forall b, mkWalk (unshared (A ++ [e])) (x_logical e + x_length e) b false
            (ranges_of A ++ [(x_physical e, x_length e)]) = walk_upto (A ++ [e]) b) as Ew.
  { intros b. unfold walk_upto, ranges_of. by rewrite end_of_app, fmap_app. }
  cbn [w_done w_poisoned w_ranges walk_upto]. rewrite Hlast, !Ew. destruct P as [|e' P]; cbn [app is_empty negb andb].
  - destruct Q as [|q Q]; cbn [is_empty]; [by rewrite app_nil_r|]. cbn [ingest_inner]. by rewrite app_nil_r.
  - rewrite IH by done. done.
Qed.

Lemma walk_loop_spec L : chained 0 L -> forall rounds A B,
  L = A ++ B -> B <> [] ->
  walk_loop (kernel L) rounds (walk_upto A false)
  = if (length B <=? rounds * EXTENTS_PER_CALL)%nat then Ok (walk_upto L true)
    else Err (WFragmented (end_of 0 (take (length A + rounds * EXTENTS_PER_CALL) L))).
Proof.
  intros HL. induction rounds as [|rounds IH]; intros A B E HB.
  - destruct B as [|e B]; [done|]. cbn. rewrite Nat.add_0_r, E, take_app_length. done.
  - cbn [walk_loop w_done walk_upto w_cursor]. fold (walk_upto A false).
    assert (kernel L (end_of 0 A) = Some (take EXTENTS_PER_CALL B)) as -> by (rewrite E; apply kernel_page; congruence).
    set (P := take EXTENTS_PER_CALL B). set (Q := drop EXTENTS_PER_CALL B).
    assert (B = P ++ Q) as EB by (symmetry; apply take_drop).
    assert (length P = Nat.min EXTENTS_PER_CALL (length B)) as HlP by apply length_take.
    rewrite (proj2 (Nat.ltb_ge _ _)) by lia.
    assert (P <> []) as HP by (destruct B; [done|unfold P, EXTENTS_PER_CALL; cbn; done]).
    assert (ingest P (walk_upto A false) = (Ok tt, walk_upto (A ++ P) (negb (is_empty P) && is_empty Q))) as Hin.
    { unfold ingest. cbn [w_poisoned w_done walk_upto]. fold (walk_upto A false).
      rewrite (ingest_inner_spec P Q) by congruence. done. }
    destruct P as [|p P'] eqn:EP; [done|]. fold (walk_upto A false). rewrite Hin. cbn [is_empty negb andb].
    assert (length B = length (p :: P') + length Q)%nat as Hlen by (rewrite EB, length_app; done).
    assert (L = (A ++ p :: P') ++ Q) as EL by (rewrite <- app_assoc, <- EB; done).
    destruct Q as [|q Q'] eqn:EQ; cbn [is_empty].
    + rewrite app_nil_r in EL. rewrite <- EL. cbn [length] in Hlen, HlP. rewrite (proj2 (Nat.leb_le _ _)) by nia.
      by destruct rounds.
    + rewrite (IH _ _ EL) by done.
      assert (length (p :: P') = EXTENTS_PER_CALL) as HPl.
      { assert (length (drop EXTENTS_PER_CALL B) = S (length Q')) as Hd by (unfold Q in EQ; by rewrite EQ).
        rewrite length_drop in Hd. lia. }
      rewrite length_app, HPl. replace (length A + EXTENTS_PER_CALL + rounds * EXTENTS_PER_CALL)%nat
        with (length A + S rounds * EXTENTS_PER_CALL)%nat by lia.
      destruct (Nat.leb_spec (length (q :: Q')) (rounds * EXTENTS_PER_CALL)),
        (Nat.leb_spec (length B) (S rounds * EXTENTS_PER_CALL)); try done; lia.
Qed.

Lemma walk_loop_ext f g : (forall x, f x = g x) -> forall rounds w, walk_loop f rounds w = walk_loop g rounds w.
Proof.
  intros H. induction rounds as [|rounds IH]; intros w; cbn [walk_loop]; [done|]. rewrite H. destruct (w_done w); [done|].
  destruct (g (w_cursor w)) as [[|e page]|]; [done| |done]. destruct (_ <? _)%nat; [done|].
  by destruct (ingest (e :: page) w) as [[] w'].
Qed.

Lemma walk_file_spec (t : Target) (L : list MappedExtent) :
  check_target t = Ok tt -> chained 0 L -> (forall start, t_fiemap t start = kernel L start) ->
  walk_file t = if (length L <=? MAX_ROUND_TRIPS * EXTENTS_PER_CALL)%nat then Ok (walk_upto L true)
                else Err (WFragmented (end_of 0 (take (MAX_ROUND_TRIPS * EXTENTS_PER_CALL) L))).
Proof.
  intros Ht HL Hk. unfold walk_file. rewrite Ht. cbn [rbind]. rewrite (walk_loop_ext _ _ Hk).
  destruct L as [|e L]; [reflexivity|]. change walk0 with (walk_upto [] false).
  rewrite (walk_loop_spec _ HL MAX_ROUND_TRIPS [] (e :: L) eq_refl) by done. reflexivity.
Qed.

(** The walk is exact. On a regular XFS file with one link whose records are
    in order, disjoint and complete, [walk_file] returns all physical ranges and
    the exact total of the unshared lengths, which never overflows, whenever the
    map has at most [MAX_ROUND_TRIPS * EXTENTS_PER_CALL] records (none at all
    included); with one more, both measurements report fragmentation at the
    offset reached, and no partial total. *)
Theorem walk_file_exact (t : Target) (L : list MappedExtent) :
  check_target t = Ok tt -> chained 0 L -> (forall start, t_fiemap t start = kernel L start) ->
  let fragmented := WFragmented (end_of 0 (take (MAX_ROUND_TRIPS * EXTENTS_PER_CALL) L)) in
  0 <= unshared L <= U64_MAX /\
  if (length L <=? MAX_ROUND_TRIPS * EXTENTS_PER_CALL)%nat
  then exclusive_bytes t = Ok (unshared L) /\ extent_map t = Ok (ranges_of L)
  else exclusive_bytes t = Err fragmented /\ extent_map t = Err fragmented.
Proof.
  intros Ht HL Hk fragmented. split.
  - destruct L as [|e L]; [cbn; unfold U64_MAX; lia|].
    destruct (unshared_bound (e :: L) [] 0) as (? & ? & Hmax); [by rewrite app_nil_r|lia|].
    specialize (Hmax ltac:(done)). lia.
  - unfold exclusive_bytes, extent_map. rewrite (walk_file_spec _ _ Ht HL Hk). by destruct (_ <=? _)%nat.
Qed.

Definition demo_map : list MappedExtent :=
  [mkExtent 0 4096 4096 FIEMAP_EXTENT_SHARED; mkExtent 8192 65536 512 FIEMAP_EXTENT_LAST].
Definition demo_target : Target := mkTarget (Some (Some false)) true (Some (true, 1)) (Some XFS_SUPER_MAGIC) (kernel demo_map).

Lemma walk_file_exact_witness :
  exclusive_bytes demo_target = Ok 512 /\ extent_map demo_target = Ok [(4096, 4096); (65536, 512)].
Proof.
  assert ((length demo_map <=? MAX_ROUND_TRIPS * EXTENTS_PER_CALL)%nat = true) as Hle by reflexivity.
  destruct (walk_file_exact demo_target demo_map) as [_ H]; [reflexivity| |done|].
  - cbn. unfold extent_ok, U64_MAX. cbn. split_and!; lia || done.
  - rewrite Hle in H. exact H.
Defined.
