(* ===== verification/AtomicFile.v ===== *)
(** * Files written by rename: [api/src/preferences_file.rs], and [save_atomic],
      [secure_delete] and [load] of [cloud_crypto/src/credentials.rs]

    A directory of files with what survives a power cut: file contents are
    volatile until [sync_all], names until the directory is flushed, and a cut
    keeps a prefix of the name changes made since (a journalling file system).
    Every system call may fail, as a script of outcomes says; a failing write
    leaves any part of its bytes. Each call appends the state it leaves to a
    trace, whose points are the moments a crash can happen. *)

From Stdlib Require Import ZArith Lia.
From stdpp Require Import base gmap list.
From S2P Require Import Prelude Str.

Open Scope Z_scope.

Module AtomicFile.

(** A path is its directory and its last component. *)
Notation Path := (list Z * list Z)%type.

Record File := { content : list Z; synced : bool }.

Inductive DirOp := Create (p : Path) (i : nat) | Rename (p q : Path) | Remove (p : Path).

Definition apply_op (names : gmap Path nat) (op : DirOp) : gmap Path nat :=
  match op with
  | Create p i => <[p := i]> names
  | Rename p q => match names !! p with Some i => <[q := i]> (delete p names) | None => names end
  | Remove p => delete p names
  end.

(** [dnames] is the directory on disk, [pending] the changes since. *)
Record Fs := { dnames : gmap Path nat; pending : list DirOp; inodes : gmap nat File; next : nat }.

Definition view (s : Fs) (k : nat) : gmap Path nat := foldl apply_op (dnames s) (take k (pending s)).
Definition names (s : Fs) : gmap Path nat := foldl apply_op (dnames s) (pending s).

Definition read_in (n : gmap Path nat) (f : gmap nat File) (p : Path) : option (list Z) :=
  i ← n !! p; content <$> f !! i.

(** [fs::read]: [None] when there is no such file. *)
Definition read (s : Fs) (p : Path) : option (list Z) := read_in (names s) (inodes s) p.

(** What a power cut can leave. *)
Definition crash (s s' : Fs) : Prop :=
  (exists k, dnames s' = view s k) /\ pending s' = [] /\ next s' = next s /\
  (forall i f, inodes s !! i = Some f ->
     exists c, inodes s' !! i = Some {| content := c; synced := true |} /\ (synced f = true -> c = content f)) /\
  (forall i, inodes s !! i = None -> inodes s' !! i = None).

(** ** System calls *)

Inductive IoError := EIo | EExists | ENotFound.

Inductive Fault := Good | Bad (written : nat).

Record World := { fs : Fs; faults : list Fault; trace : list Fs; temp_id : Z }.

Definition IO (A : Type) : Type := World -> result IoError A * World.

Definition ret {A} (a : A) : IO A := fun w => (Ok a, w).
Definition throw {A} (e : IoError) : IO A := fun w => (Err e, w).
Definition bind {A B} (m : IO A) (k : A -> IO B) : IO B := fun w =>
  match m w with (Ok a, w) => k a w | (Err e, w) => (Err e, w) end.
(** Run and keep the outcome as a value. *)
Definition attempt {A} (m : IO A) : IO (result IoError A) := fun w => let (r, w) := m w in (Ok r, w).

(** One call: [good] on success, [bad n] the state a failure leaves. *)
Definition call {A} (good : Fs -> result IoError (A * Fs)) (bad : Fs -> nat -> Fs) : IO A := fun w =>
  match head (faults w) with
  | Some (Bad n) =>
      let s := bad (fs w) n in
      (Err EIo, {| fs := s; faults := tail (faults w); trace := trace w ++ [s]; temp_id := temp_id w |})
  | _ =>
      match good (fs w) with
      | Ok (a, s) => (Ok a, {| fs := s; faults := tail (faults w); trace := trace w ++ [s]; temp_id := temp_id w |})
      | Err e => (Err e, {| fs := fs w; faults := tail (faults w); trace := trace w ++ [fs w]; temp_id := temp_id w |})
      end
  end.
Definition unchanged (s : Fs) (n : nat) : Fs := s.

Definition create_dir_all (dir : list Z) : IO unit := call (fun s => Ok (tt, s)) unchanged.

Definition new_file (s : Fs) (p : Path) : Fs :=
  {| dnames := dnames s; pending := pending s ++ [Create p (next s)];
     inodes := <[next s := {| content := []; synced := false |}]> (inodes s); next := S (next s) |}.

Definition set_file (s : Fs) (i : nat) (f : File) : Fs :=
  {| dnames := dnames s; pending := pending s; inodes := <[i := f]> (inodes s); next := next s |}.

Definition dir_op (s : Fs) (op : DirOp) : Fs :=
  {| dnames := dnames s; pending := pending s ++ [op]; inodes := inodes s; next := next s |}.

(** [create_new(true).open(p)]. *)
Definition open_new (p : Path) : IO nat :=
  call (fun s => match names s !! p with
                 | Some _ => Err EExists
                 | None => Ok (next s, new_file s p)
                 end) unchanged.

(** [create(true).truncate(true).open(p)]. *)
Definition open_truncate (p : Path) : IO nat :=
  call (fun s => match names s !! p with
                 | Some i => Ok (i, set_file s i {| content := []; synced := false |})
                 | None => Ok (next s, new_file s p)
                 end) unchanged.

Definition append (s : Fs) (i : nat) (bytes : list Z) : Fs :=
  match inodes s !! i with
  | Some f => set_file s i {| content := content f ++ bytes; synced := false |}
  | None => s
  end.

Definition write_all (i : nat) (bytes : list Z) : IO unit :=
  call (fun s => Ok (tt, append s i bytes)) (fun s n => append s i (take n bytes)).

(** [file.sync_all()]. *)
Definition sync_all (i : nat) : IO unit :=
  call (fun s => match inodes s !! i with
                 | Some f => Ok (tt, set_file s i {| content := content f; synced := true |})
                 | None => Ok (tt, s)
                 end) unchanged.

Definition rename (p q : Path) : IO unit :=
  call (fun s => match names s !! p with Some _ => Ok (tt, dir_op s (Rename p q)) | None => Err ENotFound end) unchanged.

Definition remove_file (p : Path) : IO unit :=
  call (fun s => match names s !! p with Some _ => Ok (tt, dir_op s (Remove p)) | None => Err ENotFound end) unchanged.

(** [File::open(parent)?.sync_all()]. *)
Definition sync_dir (dir : list Z) : IO unit :=
  call (fun s => Ok (tt, {| dnames := names s; pending := []; inodes := inodes s; next := next s |})) unchanged.

Definition exists_ (p : Path) : IO bool := call (fun s => Ok (bool_decide (is_Some (names s !! p)), s)) unchanged.

(** ** [preferences_file.rs] *)

Definition fetch_add_temp_id : IO Z := fun w =>
  (Ok (temp_id w), {| fs := fs w; faults := faults w; trace := trace w; temp_id := u64 (temp_id w + 1) |}).

Definition temporary (path : Path) (pid id : Z) : Path :=
  (path.1, lit "." ++ path.2 ++ lit "." ++ print_uint pid ++ lit "." ++ print_uint id ++ lit ".tmp").

(** [save], on the serialised document; [pid] is the process id. *)
Definition save (pid : Z) (path : Path) (bytes : list Z) : IO unit :=
  bind (create_dir_all path.1) (fun _ =>
  bind fetch_add_temp_id (fun id =>
  let tmp := temporary path pid id in
  bind (open_new tmp) (fun file =>
  bind (attempt (
    bind (write_all file bytes) (fun _ =>
    bind (sync_all file) (fun _ =>
    bind (rename tmp path) (fun _ =>
    sync_dir path.1))))) (fun outcome =>
  match outcome with
  | Ok _ => ret tt
  | Err e => bind (attempt (remove_file tmp)) (fun _ => throw e)
  end)))).

Section documents.
Context {Doc : Type} (from_slice : list Z -> option Doc) (empty : Doc).

Inductive LoadError := Unreadable | InvalidDocument.

(** [load]: [Err ()] from [fs_read] is a read error other than not-found. *)
Definition load (fs_read : Path -> result unit (option (list Z))) (primary legacy : Path) : result LoadError Doc :=
  let read (p : Path) : result LoadError (option Doc) :=
    match fs_read p with
    | Ok (Some bytes) => match from_slice bytes with Some d => Ok (Some d) | None => Err InvalidDocument end
    | Ok None => Ok None
    | Err _ => Err Unreadable
    end in
  let? first := read primary in
  match first with
  | Some value => Ok value
  | None => let? second := read legacy in Ok (default empty second)
  end.

End documents.

(** ** [credentials.rs] *)

Definition with_tmp_suffix (p : Path) : Path := (p.1, p.2 ++ lit ".tmp").

(** [ensure_parent_dir]: when [present] says the directory is there, nothing. *)
Definition ensure_parent_dir (present : bool) (dir : list Z) : IO unit :=
  if present then ret tt
  else bind (create_dir_all dir) (fun _ => create_dir_all dir (* set_permissions *)).

Definition save_atomic (present : bool) (path : Path) (json : list Z) : IO unit :=
  bind (ensure_parent_dir present path.1) (fun _ =>
  let tmp_path := with_tmp_suffix path in
  bind (open_truncate tmp_path) (fun f =>
  bind (write_all f json) (fun _ =>
  bind (sync_all f) (fun _ =>
  bind (rename tmp_path path) (fun _ =>
  bind (attempt (sync_dir path.1)) (fun _ => ret tt)))))).

Definition secure_delete (path : Path) : IO unit :=
  bind (attempt (remove_file path)) (fun outcome =>
  match outcome with
  | Err ENotFound => ret tt
  | Err e => throw e
  | Ok _ => bind (attempt (sync_dir path.1)) (fun _ => ret tt)
  end).

End AtomicFile.
