(* ===== verification/AtomicFileSpec.v ===== *)
(** * Files written by rename: theorems

    A Hoare logic whose triples also cover every state passed through, and the
    crash safety of the two writers: at every moment a power cut leaves the old
    file or the whole new one. *)

From Stdlib Require Import ZArith Lia.
From stdpp Require Import base gmap list.
From S2P Require Import Prelude Str AtomicFile.

Import AtomicFile.
Open Scope Z_scope.

Notation Path := (list Z * list Z)%type.

(** ** What survives *)

(** Names point at allocated files. *)
Definition wf (s : Fs) : Prop :=
  (forall k q i, view s k !! q = Some i -> (i < next s)%nat) /\
  (forall i, is_Some (inodes s !! i) <-> (i < next s)%nat).

(** Whatever a cut keeps, the file at [p] has one of these contents. *)
Definition durable (s : Fs) (p : Path) (vals : list (option (list Z))) : Prop :=
  forall k, match view s k !! p with
            | None => None ∈ vals
            | Some i => exists c, inodes s !! i = Some {| content := c; synced := true |} /\ Some c ∈ vals
            end.

(** No kept state names the file [i] at [p]. *)
Definition apart (s : Fs) (i : nat) (p : Path) : Prop := forall k, view s k !! p <> Some i.

Lemma names_view s : names s = view s (length (pending s)).
Proof. unfold view. by rewrite firstn_all. Qed.

Lemma durable_read s p vals : durable s p vals -> read s p ∈ vals.
Proof.
  intros H. specialize (H (length (pending s))). rewrite <- names_view in H.
  unfold read, read_in. destruct (names s !! p) as [i|]; cbn; [|done]. destruct H as (c & -> & H). done.
Qed.

Lemma durable_weaken s p vals vals' : vals ⊆ vals' -> durable s p vals -> durable s p vals'.
Proof.
  intros Hs H k. specialize (H k). destruct (view s k !! p); [|by apply Hs].
  destruct H as (c & ? & ?). exists c. split; [done|by apply Hs].
Qed.

(** After the cut the file is one of them, for good. *)
Lemma durable_crash s s' p vals : durable s p vals -> crash s s' ->
  read s' p ∈ vals /\ durable s' p [read s' p].
Proof.
  intros Hd ((k & Hk) & Hp & _ & Hi & _). specialize (Hd k).
  assert (forall j, view s' j = view s k) as Hv.
  { intros j. unfold view at 1. rewrite Hp, take_nil, Hk. done. }
  assert (names s' = view s k) as Hn by (by rewrite names_view, Hv).
  assert (read s' p ∈ vals /\ match view s k !! p with
    | None => read s' p = None
    | Some i => exists c, inodes s' !! i = Some {| content := c; synced := true |} /\ read s' p = Some c end) as [H1 H2].
  { unfold read, read_in. rewrite Hn. destruct (view s k !! p) as [i|]; cbn; [|done].
    destruct Hd as (c & Hc & Hin). destruct (Hi i _ Hc) as (c' & Hc' & E). cbn in E. rewrite E in Hc' by done.
    rewrite Hc'. cbn. split; [done|]. by exists c. }
  split; [done|]. intros j. rewrite Hv. destruct (view s k !! p) as [i|].
  - destruct H2 as (c & Hc & ->). exists c. split; [done|]. by left.
  - rewrite H2. by left.
Qed.

Lemma wf_crash s s' : wf s -> crash s s' -> wf s'.
Proof.
  intros [H1 H2] ((k & Hk) & Hp & Hn & Hi & Hj). split.
  - intros j q i. unfold view. rewrite Hp, take_nil, Hk, Hn. cbn. apply H1.
  - intros i. rewrite Hn, <- H2. split; intros [f Hf].
    + destruct (inodes s !! i) as [g|] eqn:E; [by eexists|]. by rewrite (Hj i E) in Hf.
    + destruct (Hi i f Hf) as (c & Hc & _). by eexists.
Qed.

(** ** How the calls change it *)

Lemma view_app s s' op k : dnames s' = dnames s -> pending s' = pending s ++ [op] ->
  view s' k = if (k <=? length (pending s))%nat then view s k else apply_op (names s) op.
Proof.
  intros Hd Hp. unfold view, names. rewrite Hd, Hp. destruct (Nat.leb_spec k (length (pending s))).
  - by rewrite take_app_le by lia.
  - rewrite take_ge by (rewrite length_app; cbn; lia). by rewrite foldl_app.
Qed.

Lemma durable_new s p q vals : q <> p -> wf s -> durable s p vals -> durable (new_file s q) p vals.
Proof.
  intros Hq [H1 H2] Hd k. rewrite (view_app s (new_file s q) (Create q (next s)) k) by done.
  assert (forall i, (exists j, view s j !! p = Some i) -> inodes (new_file s q) !! i = inodes s !! i) as Hi.
  { intros i [j Hj]. cbn. rewrite lookup_insert_ne; [done|]. specialize (H1 _ _ _ Hj). lia. }
  destruct (k <=? length (pending s))%nat eqn:E.
  - specialize (Hd k). destruct (view s k !! p) as [i|] eqn:Ev; [|done]. rewrite Hi by by exists k. done.
  - cbn [apply_op]. rewrite lookup_insert_ne by done. rewrite names_view. specialize (Hd (length (pending s))).
    destruct (view s (length (pending s)) !! p) as [i|] eqn:Ev; [|done]. rewrite Hi by by eexists. done.
Qed.

Lemma wf_new s q : wf s -> wf (new_file s q).
Proof.
  intros [H1 H2]. split.
  - intros k r i. rewrite (view_app s (new_file s q) (Create q (next s)) k) by done. cbn.
    destruct (k <=? length (pending s))%nat; [intros Hv%H1; lia|].
    intros [[<- <-]|[_ Hv]]%lookup_insert_Some; [lia|]. rewrite names_view in Hv. apply H1 in Hv. lia.
  - intros i. cbn. destruct (decide (i = next s)) as [->|]; [rewrite lookup_insert_eq; split; [lia|by eexists]|].
    rewrite lookup_insert_ne by done. rewrite H2. lia.
Qed.

Lemma apart_new s p q : q <> p -> wf s -> apart (new_file s q) (next s) p.
Proof.
  intros Hq [H1 _] k. rewrite (view_app s (new_file s q) (Create q (next s)) k) by done.
  destruct (k <=? length (pending s))%nat; [intros H%H1; lia|]. cbn [apply_op].
  rewrite lookup_insert_ne by done. rewrite names_view. intros H%H1. lia.
Qed.

Lemma durable_set s p i f vals : apart s i p -> durable s p vals -> durable (set_file s i f) p vals.
Proof.
  intros Ha Hd k. specialize (Hd k). change (view (set_file s i f) k) with (view s k).
  destruct (view s k !! p) as [j|] eqn:E; [|done]. cbn. rewrite lookup_insert_ne; [done|].
  intros ->. by apply (Ha k).
Qed.

Lemma wf_set s i f : wf s -> is_Some (inodes s !! i) -> wf (set_file s i f).
Proof.
  intros [H1 H2] Hi. split; [done|]. intros j. cbn. destruct (decide (j = i)) as [->|].
  - rewrite lookup_insert_eq. rewrite <- H2. split; [done|by eexists].
  - by rewrite lookup_insert_ne.
Qed.

Lemma durable_rename s p q i c vals : q <> p -> names s !! q = Some i ->
  inodes s !! i = Some {| content := c; synced := true |} ->
  durable s p vals -> durable (dir_op s (Rename q p)) p (Some c :: vals).
Proof.
  intros Hq Hn Hi Hd k. rewrite (view_app s (dir_op s (Rename q p)) (Rename q p) k) by done.
  destruct (k <=? length (pending s))%nat.
  - specialize (Hd k). cbn [inodes dir_op]. destruct (view s k !! p) as [j|]; [|by right].
    destruct Hd as (d & ? & ?). exists d. split; [done|by right].
  - cbn [apply_op]. rewrite Hn, lookup_insert_eq. exists c. split; [done|by left].
Qed.

Lemma wf_dir_op s op : wf s -> (forall q i, op <> Create q i) -> wf (dir_op s op).
Proof.
  intros [H1 H2] Hop. split; [|done]. intros k r j. rewrite (view_app s (dir_op s op) op k) by done. cbn [next dir_op].
  destruct (k <=? length (pending s))%nat; [apply H1|].
  assert (forall q i, names s !! q = Some i -> (i < next s)%nat) as Hn by (intros q i; rewrite names_view; apply H1).
  destruct op as [q i|q q'|q]; cbn [apply_op].
  - by destruct (Hop q i).
  - destruct (names s !! q) as [i|] eqn:E; [|apply Hn].
    intros [[<- <-]|[_ [_ Hv]%lookup_delete_Some]]%lookup_insert_Some; by eapply Hn.
  - intros [_ Hv]%lookup_delete_Some. by eapply Hn.
Qed.

Lemma durable_other s op p vals : (forall n, apply_op n op !! p = n !! p) ->
  durable s p vals -> durable (dir_op s op) p vals.
Proof.
  intros Ho Hd k. rewrite (view_app s (dir_op s op) op k) by done. destruct (k <=? length (pending s))%nat; [apply Hd|].
  rewrite Ho, names_view. apply Hd.
Qed.

Definition flushed (s : Fs) : Fs := {| dnames := names s; pending := []; inodes := inodes s; next := next s |}.

Lemma view_flushed s k : view (flushed s) k = names s.
Proof. unfold view. cbn. by rewrite take_nil. Qed.

Lemma durable_flushed s p vals : durable s p vals -> durable (flushed s) p [read s p].
Proof.
  intros Hd k. rewrite view_flushed. specialize (Hd (length (pending s))). rewrite <- names_view in Hd.
  unfold read, read_in. destruct (names s !! p) as [i|]; cbn; [|by left].
  destruct Hd as (c & Hc & _). exists c. rewrite Hc. split; [done|by left].
Qed.

Lemma wf_flushed s : wf s -> wf (flushed s).
Proof. intros [H1 H2]. split; [|done]. intros k q i. rewrite view_flushed, names_view. apply H1. Qed.

(** ** Triples that cover every state passed through *)

Section triples.
Context (I : Fs -> Prop).

Definition triple {A} (P : Fs -> Prop) (m : IO A) (Q : result IoError A -> Fs -> Prop) : Prop :=
  forall w, P (fs w) -> Forall I (trace w) ->
  let (r, w') := m w in Forall I (trace w') /\ Q r (fs w').

Lemma triple_ret {A} (a : A) P Q : (forall s, P s -> Q (Ok a) s) -> triple P (ret a) Q.
Proof. intros H w Hp Ht. split; [done|by apply H]. Qed.

Lemma triple_throw {A} e P (Q : result IoError A -> Fs -> Prop) : (forall s, P s -> Q (Err e) s) -> triple P (throw e) Q.
Proof. intros H w Hp Ht. split; [done|by apply H]. Qed.

Lemma triple_bind {A B} (m : IO A) (k : A -> IO B) P M Q :
  triple P m (fun r s => match r with Ok a => M a s | Err e => Q (Err e) s end) ->
  (forall a, triple (M a) (k a) Q) -> triple P (bind m k) Q.
Proof.
  intros Hm Hk w Hp Ht. unfold bind. specialize (Hm w Hp Ht). destruct (m w) as [[a|e] w'].
  - destruct Hm as [Ht' Hm]. exact (Hk a w' Hm Ht').
  - done.
Qed.

Lemma triple_attempt {A} (m : IO A) P (Q : result IoError (result IoError A) -> Fs -> Prop) :
  triple P m (fun r s => Q (Ok r) s) -> triple P (attempt m) Q.
Proof. intros H w Hp Ht. unfold attempt. specialize (H w Hp Ht). by destruct (m w) as [r w']. Qed.

Lemma triple_call {A} good bad P (Q : result IoError A -> Fs -> Prop) :
  (forall s n, P s -> I (bad s n) /\ Q (Err EIo) (bad s n)) ->
  (forall s, P s -> match good s with Ok (a, s') => I s' /\ Q (Ok a) s' | Err e => I s /\ Q (Err e) s end) ->
  triple P (call good bad) Q.
Proof.
  intros Hb Hg w Hp Ht. unfold call. destruct (head (faults w)) as [[|n]|].
  2: { destruct (Hb (fs w) n Hp). cbn. split; [|done]. apply Forall_app. split; [done|by constructor]. }
  all: specialize (Hg (fs w) Hp); destruct (good (fs w)) as [[a s]|e]; cbn; destruct Hg; (split; [|done]);
    apply Forall_app; (split; [done|by constructor]).
Qed.

Lemma triple_weaken {A} (m : IO A) P P' (Q Q' : result IoError A -> Fs -> Prop) :
  (forall s, P' s -> P s) -> (forall r s, Q r s -> Q' r s) -> triple P m Q -> triple P' m Q'.
Proof.
  intros H1 H2 Hm w Hp Ht. specialize (Hm w (H1 _ Hp) Ht). destruct (m w) as [r w']. destruct Hm. eauto.
Qed.

End triples.

Lemma triple_and {A} I1 I2 (m : IO A) P1 P2 Q1 Q2 : triple I1 P1 m Q1 -> triple I2 P2 m Q2 ->
  triple (fun s => I1 s /\ I2 s) (fun s => P1 s /\ P2 s) m (fun r s => Q1 r s /\ Q2 r s).
Proof.
  intros H1 H2 w [Hp1 Hp2] Ht. apply Forall_and in Ht as [Ht1 Ht2]. specialize (H1 w Hp1 Ht1). specialize (H2 w Hp2 Ht2).
  destruct (m w) as [r w']. rewrite Forall_and. tauto.
Qed.

(** ** The writers *)

Section publish.
Context (p q : Path) (olds : list (option (list Z))) (bytes : list Z) (Hpq : q <> p).

(** One of the old documents or the whole new one, whatever a cut keeps. *)
Definition safe (s : Fs) : Prop := wf s /\ durable s p (Some bytes :: olds).
(** Nothing published yet. *)
Definition before (s : Fs) : Prop := wf s /\ durable s p olds.
(** The temporary file [i] holds [c]. *)
Definition writing (i : nat) (c : list Z) (y : bool) (s : Fs) : Prop :=
  before s /\ apart s i p /\ inodes s !! i = Some {| content := c; synced := y |} /\ names s !! q = Some i.
Definition after (s : Fs) : Prop := wf s /\ durable s p [Some bytes].

Lemma before_safe s : before s -> safe s.
Proof using Type. clear Hpq. intros [? H]. split; [done|]. eapply durable_weaken; [|exact H]. set_solver. Qed.

Lemma after_safe s : after s -> safe s.
Proof using Type. clear Hpq. intros [? H]. split; [done|]. eapply durable_weaken; [|exact H]. set_solver. Qed.

Lemma writing_safe i c y s : writing i c y s -> safe s.
Proof. intros [H _]. by apply before_safe. Qed.

Lemma writing_new s : before s -> writing (next s) [] false (new_file s q).
Proof using Hpq.
  intros [Hw Hd]. split; [|split; [|split]].
  - split; [by apply wf_new|by apply durable_new].
  - by apply apart_new.
  - cbn. by rewrite lookup_insert_eq.
  - rewrite names_view, (view_app s (new_file s q) (Create q (next s))) by done.
    cbn [pending new_file]. rewrite length_app. cbn [length].
    destruct (Nat.leb_spec (length (pending s) + 1) (length (pending s))); [lia|]. cbn. by rewrite lookup_insert_eq.
Qed.

Lemma writing_set i c y d z s : writing i c y s -> writing i d z (set_file s i {| content := d; synced := z |}).
Proof.
  intros ([Hw Hd] & Ha & Hi & Hn). split; [|split; [done|split; [|done]]].
  - split; [apply wf_set; [done|by eexists]|by apply durable_set].
  - cbn. by rewrite lookup_insert_eq.
Qed.

Lemma open_new_triple P : (forall s, P s -> before s) ->
  triple safe P (open_new q) (fun r s => match r with Ok i => writing i [] false s | Err _ => before s end).
Proof using Hpq.
  intros HP. apply triple_call; intros s; [intros n|]; intros Hs%HP.
  - split; [by apply before_safe|done].
  - destruct (names s !! q); [split; [by apply before_safe|done]|].
    pose proof (writing_new s Hs) as Hn. split; [by eapply writing_safe|done].
Qed.

Lemma write_triple i : triple safe (writing i [] false) (write_all i bytes)
  (fun r s => match r with Ok _ => writing i bytes false s | Err _ => before s end).
Proof.
  apply triple_call; intros s; [intros n|]; intros Hs; pose proof Hs as (_ & _ & Hi & _); unfold append; rewrite Hi; cbn [content app].
  - pose proof (writing_set i [] false (take n bytes) false s Hs) as H. split; [by eapply writing_safe|apply H].
  - pose proof (writing_set i [] false bytes false s Hs) as H. split; [by eapply writing_safe|done].
Qed.

Lemma sync_triple i : triple safe (writing i bytes false) (sync_all i)
  (fun r s => match r with Ok _ => writing i bytes true s | Err _ => before s end).
Proof.
  apply triple_call; intros s; [intros n|]; intros Hs; pose proof Hs as (Hb & _ & Hi & _).
  - split; [by apply before_safe|done].
  - rewrite Hi. cbn [content]. pose proof (writing_set i bytes false bytes true s Hs) as H.
    split; [by eapply writing_safe|done].
Qed.

Definition renamed (s : Fs) : Prop := safe s /\ read s p = Some bytes.

Lemma rename_triple i : triple safe (writing i bytes true) (rename q p)
  (fun r s => match r with Ok _ => renamed s | Err _ => before s end).
Proof using Hpq.
  apply triple_call; intros s; [intros n|]; intros Hs; pose proof Hs as (Hb & _ & Hi & Hn).
  - split; [by apply before_safe|done].
  - rewrite Hn. destruct Hb as [Hw Hd].
    assert (safe (dir_op s (Rename q p))) as H.
    { split; [by apply wf_dir_op|]. eapply durable_weaken; [|eapply durable_rename; done]. set_solver. }
    split; [done|]. split; [done|]. unfold read, read_in.
    rewrite names_view, (view_app s (dir_op s (Rename q p)) (Rename q p)) by done.
    cbn [pending dir_op]. rewrite length_app. cbn [length].
    destruct (Nat.leb_spec (length (pending s) + 1) (length (pending s))); [lia|].
    cbn [apply_op]. rewrite Hn, lookup_insert_eq. cbn. by rewrite Hi.
Qed.

Lemma sync_dir_triple d : triple safe renamed (sync_dir d)
  (fun r s => match r with Ok _ => after s | Err _ => safe s end).
Proof.
  apply triple_call; intros s; [intros n|]; intros [[Hw Hd] Hr]; [done|].
  assert (after (flushed s)) as H.
  { split; [by apply wf_flushed|]. rewrite <- Hr. by eapply durable_flushed. }
  split; [by apply after_safe|done].
Qed.

Lemma remove_triple (P : Fs -> Prop) : (forall s, P s -> safe s) -> triple safe P (remove_file q) (fun _ => safe).
Proof using Hpq.
  intros HP. apply triple_call; intros s; [intros n|]; intros Hs%HP; [done|].
  destruct (names s !! q); [|done].
  assert (safe (dir_op s (Remove q))); [|done]. destruct Hs as [Hw Hd].
  split; [by apply wf_dir_op|]. apply durable_other; [|done]. intros m. cbn. by rewrite lookup_delete_ne.
Qed.

(** The four steps that publish the temporary file. *)
Definition publish (i : nat) (d : list Z) : IO unit :=
  bind (write_all i bytes) (fun _ => bind (sync_all i) (fun _ => bind (rename q p) (fun _ => sync_dir d))).

Lemma publish_triple i d : triple safe (writing i [] false) (publish i d)
  (fun r s => match r with Ok _ => after s | Err _ => safe s end).
Proof using Hpq.
  unfold publish. eapply triple_bind.
  { eapply triple_weaken; [done| |apply write_triple]. intros [a|e] s H; [exact H|]. by apply before_safe. }
  intros []. eapply triple_bind.
  { eapply triple_weaken; [done| |apply sync_triple]. intros [a|e] s H; [exact H|]. by apply before_safe. }
  intros []. eapply triple_bind.
  { eapply triple_weaken; [done| |apply rename_triple]. intros [a|e] s H; [exact H|]. by apply before_safe. }
  intros []. apply sync_dir_triple.
Qed.

End publish.

Lemma temporary_ne path pid id : temporary path pid id <> path.
Proof.
  intros E. apply (f_equal (fun x : Path => length x.2)) in E. unfold temporary in E. cbn [snd] in E.
  rewrite !length_app in E. change (length (lit ".")) with 1%nat in E. lia.
Qed.

Lemma with_tmp_suffix_ne path : with_tmp_suffix path <> path.
Proof.
  intros E. apply (f_equal (fun x : Path => length x.2)) in E. unfold with_tmp_suffix in E. cbn [snd] in E.
  rewrite length_app in E. change (length (lit ".tmp")) with 4%nat in E. lia.
Qed.

Lemma create_dir_triple p olds bytes d P : (forall s, P s -> safe p olds bytes s) ->
  triple (safe p olds bytes) P (create_dir_all d) (fun r s => P s).
Proof. intros HP. apply triple_call; intros s; [intros n|]; intros Hs; split; auto. Qed.

Lemma save_triple pid path olds bytes :
  triple (safe path olds bytes) (before path olds) (save pid path bytes)
    (fun r s => match r with Ok _ => after path bytes s | Err _ => safe path olds bytes s end).
Proof.
  unfold save. eapply triple_bind.
  { eapply triple_weaken; [done| |apply (create_dir_triple path olds bytes); apply before_safe].
    intros [a|e] s Hs; [exact Hs|by apply before_safe]. }
  intros [] w Hw Ht. unfold bind at 1, fetch_add_temp_id. set (id := temp_id w).
  set (w' := {| fs := fs w; faults := faults w; trace := trace w; temp_id := u64 (id + 1) |}).
  set (tmp := temporary path pid id). pose proof (temporary_ne path pid id) as Hne.
  revert w' Ht. cbv zeta. intros Ht.
  match goal with |- context [bind (open_new tmp) ?k] => assert (triple (safe path olds bytes) (before path olds)
    (bind (open_new tmp) k) (fun r s => match r with Ok _ => after path bytes s | Err _ => safe path olds bytes s end)) as H end.
  2: by apply (H {| fs := fs w; faults := faults w; trace := trace w; temp_id := u64 (id + 1) |}).
  eapply triple_bind.
  { eapply triple_weaken; [done| |by apply (open_new_triple path tmp olds bytes)].
    intros [a|e] s Hs; [exact Hs|by apply before_safe]. }
  intros i. eapply triple_bind.
  { apply triple_attempt. eapply triple_weaken; [done| |by apply (publish_triple path tmp olds bytes)].
    intros r s Hs. exact Hs. }
  intros [[]|e]; [by apply triple_ret|]. eapply triple_bind.
  { apply triple_attempt. eapply triple_weaken; [done| |by apply (remove_triple path tmp olds bytes)].
    intros r s Hs. cbn. instantiate (1 := fun _ => safe path olds bytes). exact Hs. }
  intros r. by apply triple_throw.
Qed.

(** *** Another file *)

Section frame.
Context (l tmp path : Path) (vals : list (option (list Z))) (Htl : tmp <> l) (Hpl : path <> l).

Lemma durable_flushed_same s : durable s l vals -> durable (flushed s) l vals.
Proof. intros Hd k. rewrite view_flushed, names_view. apply Hd. Qed.

Definition holds (i : nat) (s : Fs) : Prop := exists c y, writing l tmp vals i c y s.

Lemma holds_before i s : holds i s -> before l vals s.
Proof. by intros (c & y & H & _). Qed.

Lemma frame_open : triple (before l vals) (before l vals) (open_new tmp)
  (fun r s => match r with Ok i => holds i s | Err _ => before l vals s end).
Proof using Htl.
  apply triple_call; intros s; [intros n; done|]. intros Hs. destruct (names s !! tmp); [done|].
  pose proof (writing_new l tmp vals Htl s Hs) as H. split; [apply H|by exists [], false].
Qed.

Lemma frame_set i s d z : holds i s -> holds i (set_file s i {| content := d; synced := z |}).
Proof. intros (c & y & H). exists d, z. by eapply writing_set. Qed.

Lemma frame_write i bytes : triple (before l vals) (holds i) (write_all i bytes) (fun _ => holds i).
Proof.
  assert (forall s b, holds i s -> holds i (append s i b)) as Ha.
  { intros s b Hs. unfold append. destruct (inodes s !! i) as [f|]; [by apply frame_set|done]. }
  apply triple_call; intros s; [intros n|]; intros Hs; (split; [|by apply Ha]); by eapply holds_before, Ha.
Qed.

Lemma frame_sync i : triple (before l vals) (holds i) (sync_all i) (fun _ => holds i).
Proof.
  apply triple_call; intros s; [intros n|]; intros Hs; [split; [by eapply holds_before|done]|].
  destruct (inodes s !! i) as [f|]; [|split; [by eapply holds_before|done]].
  pose proof (frame_set i s (content f) true Hs) as H. split; [by eapply holds_before|done].
Qed.

Lemma frame_op s op : (forall n, apply_op n op !! l = n !! l) -> (forall q i, op <> Create q i) ->
  before l vals s -> before l vals (dir_op s op).
Proof. intros Ho Hc [Hw Hd]. split; [by apply wf_dir_op|by apply durable_other]. Qed.

Lemma frame_rename i : triple (before l vals) (holds i) (rename tmp path) (fun _ => before l vals).
Proof using Htl Hpl.
  apply triple_call; intros s; [intros n|]; intros Hs%holds_before; [done|].
  destruct (names s !! tmp); [|done]. assert (before l vals (dir_op s (Rename tmp path))); [|done].
  apply frame_op; [|done|done]. intros m. cbn. destruct (m !! tmp); [|done].
  by rewrite lookup_insert_ne, lookup_delete_ne.
Qed.

Lemma frame_remove : triple (before l vals) (before l vals) (remove_file tmp) (fun _ => before l vals).
Proof using Htl.
  apply triple_call; intros s; [intros n|]; intros Hs; [done|]. destruct (names s !! tmp); [|done].
  assert (before l vals (dir_op s (Remove tmp))); [|done]. apply frame_op; [|done|done]. intros m. cbn. by rewrite lookup_delete_ne.
Qed.

Lemma frame_sync_dir d : triple (before l vals) (before l vals) (sync_dir d) (fun _ => before l vals).
Proof.
  apply triple_call; intros s; [intros n; done|]. intros [Hw Hd].
  assert (before l vals (flushed s)); [|done]. split; [by apply wf_flushed|by apply durable_flushed_same].
Qed.

End frame.

(** A save touches its own file and its temporary file only. *)
Lemma save_frame pid path bytes l vals : path <> l -> (forall id, temporary path pid id <> l) ->
  triple (before l vals) (before l vals) (save pid path bytes) (fun _ => before l vals).
Proof.
  intros Hpl Htl. set (B := before l vals). unfold save.
  eapply (triple_bind _ _ _ _ (fun _ => B)); [apply triple_call; intros s; [intros n|]; done|].
  intros [] w Hw Ht. unfold bind at 1, fetch_add_temp_id. set (id := temp_id w). specialize (Htl id).
  set (tmp := temporary path pid id) in *.
  match goal with |- context [bind (open_new tmp) ?k] => assert (triple B B (bind (open_new tmp) k) (fun _ => B)) as H end.
  2: by apply (H {| fs := fs w; faults := faults w; trace := trace w; temp_id := u64 (id + 1) |}).
  eapply (triple_bind _ _ _ _ (fun i => holds l tmp vals i)); [by apply frame_open|].
  intros i. eapply (triple_bind _ _ _ _ (fun _ => B)).
  - apply triple_attempt. pose proof (holds_before l tmp vals i) as Hb.
    eapply triple_bind; [eapply triple_weaken; [| |exact (frame_write l tmp vals i bytes)]; [done|]|].
    { intros [a|e] s Hs; [exact Hs|by apply Hb]. }
    intros []. eapply triple_bind; [eapply triple_weaken; [| |exact (frame_sync l tmp vals i)]; [done|]|].
    { intros [a|e] s Hs; [exact Hs|by apply Hb]. }
    intros []. eapply (triple_bind _ _ _ _ (fun _ => B)); [|intros []; apply frame_sync_dir].
    eapply triple_weaken; [| |exact (frame_rename l tmp path vals Htl Hpl i)]; [done|by intros [] s Hs].
  - intros [[]|e]; [by apply triple_ret|]. eapply (triple_bind _ _ _ _ (fun _ => B)); [|intros r; by apply triple_throw].
    apply triple_attempt. by apply frame_remove.
Qed.

(** A save without failures succeeds when its temporary name is free. *)
Lemma save_succeeds pid path bytes w : faults w = [] -> names (fs w) !! temporary path pid (temp_id w) = None ->
  fst (save pid path bytes w) = Ok tt.
Proof.
  intros Hf Hn. unfold save, bind, create_dir_all, call, fetch_add_temp_id. rewrite Hf. cbn [head tail fs temp_id faults trace].
  set (tmp := temporary path pid (temp_id w)) in *. unfold open_new, call. cbn [fs faults head tail]. rewrite Hn.
  cbn [fs faults trace temp_id]. unfold attempt, write_all, call, append. cbn [fs faults head tail].
  assert (names (new_file (fs w) tmp) !! tmp = Some (next (fs w))) as Hs.
  { unfold names. cbn [new_file dnames pending]. rewrite foldl_app. cbn. by rewrite lookup_insert_eq. }
  set (s := new_file (fs w) tmp) in *. assert (inodes s !! next (fs w) = Some {| content := []; synced := false |}) as Hi
    by (cbn; by rewrite lookup_insert_eq).
  rewrite Hi. cbn [fs faults trace temp_id]. unfold sync_all, call. cbn [fs faults head tail set_file inodes].
  rewrite lookup_insert_eq. cbn [fs faults trace temp_id]. unfold rename, call. cbn [fs faults head tail].
  match goal with |- context [names ?x !! tmp] => change (names x) with (names s) end. rewrite Hs.
  cbn [fs faults trace temp_id]. unfold sync_dir, call. cbn [fs faults head tail]. done.
Qed.


(** [open_truncate] on a temporary file that no kept state names at [p]. *)
Lemma open_truncate_triple p q olds bytes : q <> p ->
  triple (safe p olds bytes) (fun s => before p olds s /\ forall i, names s !! q = Some i -> apart s i p) (open_truncate q)
    (fun r s => match r with Ok i => writing p q olds i [] false s | Err _ => before p olds s end).
Proof.
  intros Hpq. apply triple_call; intros s; [intros n|]; intros [Hb Ha].
  - split; [by apply before_safe|done].
  - destruct (names s !! q) as [i|] eqn:E.
    + specialize (Ha i eq_refl). pose proof Hb as [Hw Hd].
      assert (is_Some (inodes s !! i)) as Hi.
      { destruct Hw as [H1 H2]. apply H2. rewrite names_view in E. by eapply H1. }
      assert (writing p q olds i [] false (set_file s i {| content := []; synced := false |})) as H.
      { split; [|split; [done|split; [|done]]]; [split; [by apply wf_set|by apply durable_set]|].
        cbn. by rewrite lookup_insert_eq. }
      split; [by eapply writing_safe|done].
    + pose proof (writing_new p q olds Hpq s Hb) as H. split; [by eapply writing_safe|done].
Qed.

(** Published, the flush best-effort. *)
Definition published (p : Path) (olds : list (option (list Z))) (bytes : list Z) (s : Fs) : Prop :=
  safe p olds bytes s /\ read s p = Some bytes.

Lemma save_atomic_triple present path olds json :
  triple (safe path olds json)
    (fun s => before path olds s /\ forall i, names s !! with_tmp_suffix path = Some i -> apart s i path)
    (save_atomic present path json)
    (fun r s => match r with Ok _ => published path olds json s | Err _ => safe path olds json s end).
Proof.
  pose proof (with_tmp_suffix_ne path) as Hne. set (q := with_tmp_suffix path) in *. unfold save_atomic. fold q.
  set (P := fun s => before path olds s /\ forall i, names s !! q = Some i -> apart s i path).
  assert (forall s, P s -> safe path olds json s) as HP by (intros s [H _]; by apply before_safe).
  assert (triple (safe path olds json) P (ensure_parent_dir present path.1) (fun _ => P)) as He.
  { unfold ensure_parent_dir. destruct present; [by apply triple_ret|].
    eapply (triple_bind _ _ _ _ (fun _ => P)); [|intros []; by apply (create_dir_triple path olds json)].
    eapply triple_weaken; [| |exact (create_dir_triple path olds json _ P HP)]; [done|by intros [[]|] s Hs]. }
  eapply (triple_bind _ _ _ _ (fun _ => P)); [eapply triple_weaken; [| |exact He]; [done|intros [a|e] s Hs; [exact Hs|by apply HP]]|].
  intros []. eapply triple_bind.
  { eapply triple_weaken; [| |exact (open_truncate_triple path q olds json Hne)]; [done|].
    intros [a|e] s Hs; [exact Hs|by apply before_safe]. }
  intros i. eapply triple_bind.
  { eapply triple_weaken; [done| |apply write_triple]. intros [a|e] s H; [exact H|by apply before_safe]. }
  intros []. eapply triple_bind.
  { eapply triple_weaken; [done| |apply sync_triple]. intros [a|e] s H; [exact H|by apply before_safe]. }
  intros []. eapply triple_bind.
  { eapply triple_weaken; [done| |by apply rename_triple]. intros [a|e] s H; [exact H|by apply before_safe]. }
  intros []. eapply (triple_bind _ _ _ _ (fun _ => published path olds json)); [|intros r; by apply triple_ret].
  apply triple_attempt. apply triple_call; intros s; [intros n|]; intros [[Hw Hd] Hr]; [done|].
  assert (after path json (flushed s)) as H.
  { split; [by apply wf_flushed|]. rewrite <- Hr. by eapply durable_flushed. }
  assert (read (flushed s) path = Some json).
  { apply list_elem_of_singleton, durable_read, H. }
  split; [by apply after_safe|]. split; [by apply after_safe|done].
Qed.

(** Saving the preferences is crash-safe under any system-call failures:
    at every moment of the save, whatever a power cut keeps, the file is the
    complete old document or the complete new one; and when the save reports
    success, no power cut can bring the old document back. *)
Theorem save_crash_safe pid path old bytes w :
  trace w = [] -> before path [old] (fs w) ->
  let (r, w') := save pid path bytes w in
  (forall s s', s ∈ trace w' -> crash s s' -> read s' path = old \/ read s' path = Some bytes) /\
  (r = Ok tt -> forall s', crash (fs w') s' -> read s' path = Some bytes).
Proof.
  intros Ht Hb. pose proof (save_triple pid path [old] bytes w Hb) as H. rewrite Ht in H. specialize (H (Forall_nil_2 _)).
  destruct (save pid path bytes w) as [r w']. destruct H as [Hi Hr]. split.
  - intros s s' Hs Hc. rewrite Forall_forall in Hi. destruct (Hi s Hs) as [_ Hd].
    destruct (durable_crash s s' path _ Hd Hc) as [Hm _].
    rewrite !elem_of_cons, elem_of_nil in Hm. tauto.
  - intros -> s' Hc. destruct Hr as [_ Hd]. destruct (durable_crash _ s' path _ Hd Hc) as [Hm _].
    by apply list_elem_of_singleton in Hm.
Qed.

(** A directory with one file, on disk. *)
Definition single_fs (p : Path) (c : list Z) : Fs :=
  {| dnames := {[ p := 0%nat ]}; pending := []; inodes := {[ 0%nat := {| content := c; synced := true |} ]}; next := 1 |}.

Lemma single_view p c k : view (single_fs p c) k = {[ p := 0%nat ]}.
Proof. unfold view. cbn [pending single_fs]. by rewrite take_nil. Qed.

Lemma single_wf p c : wf (single_fs p c).
Proof.
  split.
  - intros k q i. rewrite single_view. intros [_ <-]%lookup_singleton_Some. cbn. lia.
  - intros i. cbn. destruct (decide (i = 0%nat)) as [->|].
    + rewrite lookup_singleton_eq. split; [lia|by eexists].
    + rewrite lookup_singleton_ne by done. split; [by intros [? ?]|lia].
Qed.

Lemma single_durable p c : durable (single_fs p c) p [Some c].
Proof.
  intros k. rewrite single_view, lookup_singleton_eq. eexists. cbn [inodes single_fs].
  rewrite lookup_singleton_eq. split; [done|by left].
Qed.

Lemma single_absent p c q : q <> p -> durable (single_fs p c) q [None].
Proof. intros Hq k. rewrite single_view, lookup_singleton_ne by done. by left. Qed.

Definition witness_path : Path := (lit "/root/.sentryusb", lit "preferences.json").
Definition witness_fs : Fs := single_fs witness_path (lit "{}").

Lemma witness_before : before witness_path [Some (lit "{}")] witness_fs.
Proof. split; [apply single_wf|apply single_durable]. Qed.

Definition witness_world (f : list Fault) : World := {| fs := witness_fs; faults := f; trace := []; temp_id := 0 |}.

Lemma save_crash_safe_witness :
  let (r, w') := save 77 witness_path (lit "{new}") (witness_world [Good; Good; Good; Good; Good; Bad 0]) in
  (forall s s', s ∈ trace w' -> crash s s' -> read s' witness_path = Some (lit "{}") \/ read s' witness_path = Some (lit "{new}")) /\
  (r = Ok tt -> forall s', crash (fs w') s' -> read s' witness_path = Some (lit "{new}")).
Proof.
  exact (save_crash_safe 77 witness_path (Some (lit "{}")) (lit "{new}")
    (witness_world [Good; Good; Good; Good; Good; Bad 0]) eq_refl witness_before).
Defined.

(** A run without faults reports success and leaves no temporary file. *)
Example save_runs :
  let (r, w') := save 77 witness_path (lit "{new}") (witness_world []) in
  (r, read (fs w') witness_path, size (names (fs w')), length (trace w')) = (Ok tt, Some (lit "{new}"), 1%nat, 6%nat).
Proof. vm_compute. reflexivity. Qed.
