(* ===== verification/Config.v ===== *)
(** * The configuration file ([crates/config/src/lib.rs])

    [sentryusb.conf] is a shell fragment of [export KEY=VALUE] lines, read by
    this crate and sourced by the scripts. A string is here its list of Unicode
    scalar values, since whitespace is Unicode whitespace. A [HashMap] that is
    iterated is its entries in iteration order; one that is only looked up is a
    [gmap]. Files live on the disk of [AtomicFile]: every system call may fail, a
    file's bytes are volatile until [sync_all], and a name change until the
    directory is flushed, which this crate never asks for. A file holds its
    text; the UTF-8 decoding of [read_to_string] is left out. *)

From Stdlib Require Import ZArith Lia.
From stdpp Require Import base gmap list.
From S2P Require Import Prelude Str AtomicFile.

Open Scope Z_scope.

Module Config.

(** [char::is_whitespace]. *)
Definition char_ws (c : Z) : bool :=
  ((9 <=? c) && (c <=? 13)) || (c =? 32) || (c =? 133) || (c =? 160) || (c =? 5760)
  || ((8192 <=? c) && (c <=? 8202)) || (c =? 8232) || (c =? 8233) || (c =? 8239)
  || (c =? 8287) || (c =? 12288).

Notation ctrim_start := (trim_start_by char_ws).
Notation ctrim := (trim_by char_ws).

Definition to_ascii_lowercase (s : str) : str :=
  map (fun c => if (65 <=? c) && (c <=? 90) then c + 32 else c) s.

Notation setup_config := (gmap (list Z) (list Z)).
Notation entries := (list (list Z * list Z)).

(** ** Keys and values *)

Definition is_ascii_alphabetic (b : Z) : bool :=
  ((65 <=? b) && (b <=? 90)) || ((97 <=? b) && (b <=? 122)).
Definition is_ascii_alphanumeric (b : Z) : bool :=
  is_ascii_alphabetic b || ((48 <=? b) && (b <=? 57)).

Definition is_valid_key (key : str) : bool :=
  match key with
  | first :: bytes =>
      (is_ascii_alphabetic first || (first =? 95))
      && forallb (fun b => is_ascii_alphanumeric b || (b =? 95)) bytes
  | [] => false
  end.

(** The position of the first inline comment: a hash after a blank. *)
Fixpoint comment_pos (prev : Z) (rest : str) (i : nat) : option nat :=
  match rest with
  | [] => None
  | c :: t => if (c =? 35) && ((prev =? 32) || (prev =? 9)) then Some i else comment_pos c t (S i)
  end.

Definition ends_with (c : Z) (s : str) : bool := bool_decide (last s = Some c).
Definition begins_with (c : Z) (s : str) : bool := bool_decide (head s = Some c).

Definition unquote (s : str) : str :=
  let s := ctrim s in
  let n := length s in
  if (2 <=? n)%nat && ((begins_with 39 s && ends_with 39 s) || (begins_with 34 s && ends_with 34 s))
  then slice s 1 (n - 1)
  else if starts_with s [36; 39] && ends_with 39 s && (3 <=? n)%nat then slice s 2 (n - 1)
  else match s with
       | [] => s
       | first :: rest =>
           match comment_pos first rest 1 with
           | Some i => ctrim (take (i - 1) s)
           | None => s
           end
       end.

(** Space, tab, newline, carriage return and the shell's own characters. *)
Definition SPECIAL : str :=
  [32; 9; 10; 13; 39; 34; 92; 36; 33; 35; 38; 124; 59; 40; 41; 123; 125; 91; 93; 60; 62; 63; 42; 126; 96].

Definition special (c : Z) : bool := existsb (Z.eqb c) SPECIAL.

Definition escape (s : str) : str := flat_map (fun c => if c =? 39 then [39; 92; 39; 39] else [c]) s.

Definition quote (s : str) : str :=
  if is_empty s then [39; 39]
  else if negb (existsb special s) then s
  else 39 :: escape s ++ [39].

(** ** Lines *)

Fixpoint find_char (c : Z) (s : str) : option nat :=
  match s with
  | [] => None
  | b :: t => if b =? c then Some 0%nat else S <$> find_char c t
  end.

Definition parse_key_value (s : str) : option (str * str) :=
  eq_pos ← find_char 61 s;
  let key := take eq_pos s in
  if negb (is_valid_key key) then None else Some (key, unquote (drop (S eq_pos) s)).

Definition parse_export_line (line : str) : option (str * str) :=
  rest ← strip_prefix (lit "export ") (ctrim_start line);
  parse_key_value rest.

Definition parse_commented_export_line (line : str) : option (str * str) :=
  rest ← strip_prefix [35] (ctrim_start line);
  rest ← strip_prefix (lit "export ") (ctrim_start rest);
  parse_key_value rest.

(** [content.lines()]: the pieces between newlines, a carriage return before a
    newline dropped, and no empty last piece. *)
Definition strip_cr (s : str) : str := if ends_with 13 s then take (length s - 1) s else s.

Fixpoint lines_of (pieces : list str) : list str :=
  match pieces with
  | [] => []
  | [p] => if is_empty p then [] else [p]
  | p :: ps => strip_cr p :: lines_of ps
  end.
Definition lines (content : str) : list str := lines_of (split_on 10 content).

(** ** Reading *)

Definition parse_line (acc : setup_config * setup_config) (line : str) : setup_config * setup_config :=
  let '(active, commented) := acc in
  match parse_export_line line with
  | Some (key, val) => (<[key := val]> active, commented)
  | None => match parse_commented_export_line line with
            | Some (key, val) => (active, <[key := val]> commented)
            | None => (active, commented)
            end
  end.

Definition parse_content (content : str) : setup_config * setup_config :=
  foldl parse_line (∅, ∅) (lines content).

Inductive config_error := EOpen | EInvalidKey (k : str) | ENewline (k : str) | EIo (e : AtomicFile.IoError).

(** [fs::read_to_string(path)]. *)
Definition read_to_string (path : AtomicFile.Path) : AtomicFile.IO str :=
  AtomicFile.call (fun s => match AtomicFile.read s path with
                            | Some text => Ok (text, s)
                            | None => Err AtomicFile.ENotFound
                            end) AtomicFile.unchanged.

Definition parse_file (path : AtomicFile.Path) (w : AtomicFile.World)
  : result config_error (setup_config * setup_config) * AtomicFile.World :=
  match read_to_string path w with
  | (Ok content, w) => (Ok (parse_content content), w)
  | (Err _, w) => (Err EOpen, w)
  end.

Definition get_config_value (active commented : setup_config) (key : str) : option str :=
  match active !! key with Some v => Some v | None => commented !! key end.

(** ** Writing *)

Definition export_line (key val : str) : str := lit "export " ++ key ++ [61] ++ quote val.

Definition rewrite_line (new_config : setup_config) (line : str) : str :=
  match parse_export_line line with
  | Some (key, _) =>
      match new_config !! key with
      | Some val => export_line key val
      | None => 35 :: line
      end
  | None =>
      match parse_commented_export_line line with
      | Some (key, _) =>
          match new_config !! key with
          | Some val => export_line key val
          | None => line
          end
      | None => line
      end
  end.

Definition line_key (line : str) : option str :=
  match parse_export_line line with
  | Some (key, _) => Some key
  | None => fst <$> parse_commented_export_line line
  end.

(** The lines of the new file: the old ones rewritten, then the new variables. *)
Definition render (new_config : entries) (content : str) : list str :=
  let old := lines content in
  let seen := omap line_key old in
  map (rewrite_line (list_to_map new_config)) old
  ++ map (fun '(key, val) => export_line key val)
       (filter (fun e => e.1 ∉ seen) new_config).

Definition unlines (output : list str) : str := flat_map (fun l => l ++ [10]) output.

(** Write [<path>.tmp], try to flush it, rename it over the file. The outcome of
    [sync_all] is dropped, as in the source. *)
Definition save (path : AtomicFile.Path) (text : str) : AtomicFile.IO unit :=
  let tmp := AtomicFile.with_tmp_suffix path in
  AtomicFile.bind (AtomicFile.open_truncate tmp) (fun file =>
  AtomicFile.bind (AtomicFile.write_all file text) (fun _ =>
  AtomicFile.bind (AtomicFile.attempt (AtomicFile.sync_all file)) (fun _ =>
  AtomicFile.bind (AtomicFile.attempt (AtomicFile.rename tmp path)) (fun outcome =>
  match outcome with
  | Ok _ => AtomicFile.ret tt
  | Err e => AtomicFile.bind (AtomicFile.attempt (AtomicFile.remove_file tmp)) (fun _ => AtomicFile.throw e)
  end)))).

Definition has_newline (v : str) : bool := existsb (fun c => (c =? 10) || (c =? 13)) v.

Definition write_file (path : AtomicFile.Path) (new_config : entries) (w : AtomicFile.World)
  : result config_error unit * AtomicFile.World :=
  match List.find (fun e => negb (is_valid_key e.1)) new_config with
  | Some (bad, _) => (Err (EInvalidKey bad), w)
  | None =>
      match List.find (fun e => has_newline e.2) new_config with
      | Some (k, _) => (Err (ENewline k), w)
      | None =>
          match read_to_string path w with
          | (Err _, w) => (Err EOpen, w)
          | (Ok content, w) =>
              match save path (unlines (render new_config content)) w with
              | (Ok _, w) => (Ok tt, w)
              | (Err e, w) => (Err (EIo e), w)
              end
          end
      end
  end.

(** ** Settings with a meaning *)

Definition cifs_noserverino_enabled (config : setup_config) : bool :=
  match config !! lit "CIFS_NOSERVERINO" with
  | Some value =>
      let v := to_ascii_lowercase (ctrim value) in
      bool_decide (v ∈ [lit "true"; lit "yes"; lit "1"; lit "on"])
  | None => false
  end.

Definition validate_rsync_ssh_port (config : setup_config) : result str (option Z) :=
  let raw := match config !! lit "RSYNC_SSH_PORT" with Some v => ctrim v | None => [] end in
  if is_empty raw then Ok None
  else match parse_uint 65535 raw with
       | Some port => if 0 <? port then Ok (Some port) else Err raw
       | None => Err raw
       end.

Definition rsync_ssh_port (config : setup_config) : option Z :=
  match validate_rsync_ssh_port config with Ok p => p | Err _ => None end.

(** [find_config_path]: the environment override, else the first that exists. *)
Definition DEFAULT_CONFIG_PATH : str := lit "/root/sentryusb.conf".
Definition BOOT_CONFIG_PATH : str := lit "/boot/firmware/sentryusb.conf".
Definition LEGACY_BOOT_PATH : str := lit "/boot/sentryusb.conf".

Definition find_config_path (env : option str) (path_exists : str -> bool) : str :=
  match env with
  | Some (_ :: _ as p) => p
  | _ => default DEFAULT_CONFIG_PATH
           (List.find path_exists [DEFAULT_CONFIG_PATH; BOOT_CONFIG_PATH; LEGACY_BOOT_PATH])
  end.

Example config_demo :
  parse_content (unlines (render [(lit "WIFI", lit "my net"); (lit "NEW", lit "1")]
     (unlines [lit "# settings"; lit "export WIFI=home"; lit "export OLD='x y'"; lit "# export NEW=0"])))
  = (<[lit "WIFI" := lit "my net"]> (<[lit "NEW" := lit "1"]> ∅), <[lit "OLD" := lit "x y"]> ∅).
Proof. vm_compute. reflexivity. Qed.

End Config.
