(* ===== verification/ConfigSpec.v ===== *)
(** * The configuration file: saving and loading

    What a saved file reads back as, which values survive, and that the written
    lines mean the same to a shell. *)

From Stdlib Require Import ZArith Lia.
From stdpp Require Import base gmap list sets.
From S2P Require Import Prelude Str AtomicFile AtomicFileSpec Config.

Import Config.
Open Scope Z_scope.

(** ** Quoting *)

Lemma special_false c : special c = false -> forall d, d ∈ SPECIAL -> c <> d.
Proof.
  unfold special. intros H d Hd ->.
  assert (existsb (Z.eqb d) SPECIAL = true) as E; [|congruence].
  apply existsb_exists. exists d. split; [by apply list_elem_of_In|apply Z.eqb_refl].
Qed.

Lemma existsb_special_false s : existsb special s = false -> Forall (fun c => special c = false) s.
Proof.
  induction s as [|c t IH]; simpl; intros H; [by apply Forall_nil|].
  apply orb_false_iff in H as [H1 H2]. constructor; auto.
Qed.

Lemma escape_id s : 39 ∉ s -> escape s = s.
Proof.
  induction s as [|c t IH]; intros Hn; simpl; [done|].
  apply not_elem_of_cons in Hn as [Hc Ht]. destruct (Z.eqb_spec c 39); [done|]. simpl. by rewrite IH.
Qed.

Lemma length_escape s : (length s <= length (escape s))%nat.
Proof. induction s as [|c t IH]; simpl; [lia|]. destruct (c =? 39); simpl; lia. Qed.

Lemma length_escape_lt s : 39 ∈ s -> (length s < length (escape s))%nat.
Proof.
  induction s as [|c t IH]; intros Hn; simpl; [by apply elem_of_nil in Hn|].
  destruct (Z.eqb_spec c 39) as [->|Hc]; simpl.
  - pose proof (length_escape t). lia.
  - apply elem_of_cons in Hn as [?|Ht]; [done|]. specialize (IH Ht). lia.
Qed.

Lemma slice_middle {A} (x y : A) l : slice (x :: l ++ [y]) 1 (length (x :: l ++ [y]) - 1) = l.
Proof.
  unfold slice. cbn [length drop]. rewrite length_app. cbn [length].
  replace (S (length l + 1) - 1 - 1)%nat with (length l) by lia. apply take_app_length.
Qed.

(** Wrapping in single quotes is undone, whatever is inside. *)
Lemma unquote_single s : unquote (39 :: s ++ [39]) = s.
Proof.
  unfold unquote. rewrite (trim_ends char_ws) by done.
  assert (begins_with 39 (39 :: s ++ [39]) = true) as -> by (by apply bool_decide_eq_true).
  assert (ends_with 39 (39 :: s ++ [39]) = true) as ->.
  { apply bool_decide_eq_true. by rewrite app_comm_cons, last_snoc. }
  rewrite (proj2 (Nat.leb_le 2 _)) by (cbn [length]; rewrite length_app; cbn [length]; lia).
  cbn [andb orb]. apply slice_middle.
Qed.

Lemma comment_pos_none prev rest i :
  Forall (fun c => special c = false) rest -> comment_pos prev rest i = None.
Proof.
  revert prev i. induction rest as [|c t IH]; intros prev i H; simpl; [done|].
  apply Forall_cons in H as [Hc Ht]. destruct (Z.eqb_spec c 35) as [->|]; [done|]. simpl. by apply IH.
Qed.

(** A value without shell characters is only trimmed. *)
Lemma unquote_bare s : Forall (fun c => special c = false) s -> unquote s = ctrim s.
Proof.
  intros Hs. unfold unquote.
  assert (Forall (fun c => special c = false) (ctrim s)) as Ht.
  { rewrite Forall_forall in *. intros c Hc. apply Hs. unfold trim_by, trim_end_by in Hc.
    apply list_elem_of_In, in_rev, list_elem_of_In in Hc.
    destruct (trim_start_suffix char_ws (rev (ctrim_start s))) as (p & E).
    destruct (trim_start_suffix char_ws s) as (q & Eq). rewrite Eq. apply elem_of_app. right.
    apply list_elem_of_In, in_rev, list_elem_of_In. rewrite E. apply elem_of_app. by right. }
  generalize dependent (ctrim s). intros v Hv.
  assert (begins_with 39 v = false /\ begins_with 34 v = false /\ starts_with v [36; 39] = false)
    as (-> & -> & ->).
  { destruct v as [|c t]; [done|]. apply Forall_cons in Hv as [Hc _].
    split_and!; [apply bool_decide_eq_false; intros [= ->]; done..|].
    cbn [starts_with]. destruct (Z.eqb_spec 36 c) as [<-|]; done. }
  rewrite andb_false_l, andb_false_l, andb_false_r. cbn [andb orb].
  destruct v as [|c t]; [done|]. apply Forall_cons in Hv as [_ Ht]. by rewrite comment_pos_none.
Qed.

(** What a value reads back as: quoted when it holds a shell character, with
    every apostrophe spelled out and never put back; otherwise trimmed. *)
Definition stored (v : str) : str := if existsb special v then escape v else ctrim v.

Lemma unquote_quote_stored v : unquote (quote v) = stored v.
Proof.
  unfold quote, stored. destruct (is_empty v) eqn:Ee; [by apply is_empty_nil in Ee as ->|].
  destruct (existsb special v) eqn:Es; cbn [negb]; [apply unquote_single|].
  by apply unquote_bare, existsb_special_false.
Qed.

(** The values that survive: no apostrophe and, when written bare, no
    whitespace at the ends. *)
Definition survives (v : str) : Prop :=
  39 ∉ v /\ (existsb special v = false -> ctrim v = v).

Lemma unquote_quote (v : str) : unquote (quote v) = v <-> survives v.
Proof.
  unfold quote, survives. destruct (is_empty v) eqn:Ee.
  { apply is_empty_nil in Ee as ->. split; [intros _; split; [apply not_elem_of_nil|done]|reflexivity]. }
  destruct (existsb special v) eqn:Es; cbn [negb].
  - rewrite unquote_single. split.
    + intros E. split; [|done]. intros Hin%length_escape_lt. rewrite E in Hin. lia.
    + intros [Hn _]. by apply escape_id.
  - apply existsb_special_false in Es. rewrite unquote_bare by done. split; [|by intros [_ ?]; auto].
    intros E. split; [|done]. rewrite Forall_forall in Es. intros Hin%Es. done.
Qed.

(** Reading undoes quoting for exactly the values without an apostrophe whose
    ends are not exotic whitespace: an apostrophe is escaped on the way out and
    never unescaped on the way in, and whitespace the quoting rule does not know
    (a vertical tab, a no-break space) is trimmed away. A value with an apostrophe
    comes back longer, so every load and save makes it grow. *)
Theorem unquote_quote_iff (v : str) :
  (unquote (quote v) = v <-> survives v)
  /\ (39 ∈ v -> (length v < length (unquote (quote v)))%nat).
Proof.
  split; [apply unquote_quote|]. intros Hin. unfold quote.
  destruct v as [|c t]; [by apply elem_of_nil in Hin|]. cbn [is_empty].
  assert (existsb special (c :: t) = true) as ->.
  { apply existsb_exists. exists 39. split; [by apply list_elem_of_In|done]. }
  cbn [negb]. rewrite unquote_single. by apply length_escape_lt.
Qed.

Lemma unquote_quote_iff_witness :
  (length (lit "Bob's net") < length (unquote (quote (lit "Bob's net"))))%nat
  /\ ~ survives (lit "Bob's net").
Proof.
  destruct (unquote_quote_iff (lit "Bob's net")) as [H1 H2]. split.
  - apply H2. vm_compute. set_solver.
  - intros H. apply H1 in H. vm_compute in H. discriminate H.
Defined.

(** ** What a shell reads

    Quote removal of one word: single quotes keep everything, a backslash keeps
    the next character, and an unquoted shell character ends the word. *)

Fixpoint sh_word (quoted : bool) (s : str) : option str :=
  match s with
  | [] => if quoted then None else Some []
  | c :: t =>
      if quoted then if c =? 39 then sh_word false t else cons c <$> sh_word true t
      else if c =? 39 then sh_word true t
      else if c =? 92 then match t with
                           | d :: t => cons d <$> sh_word false t
                           | [] => None
                           end
      else if special c then None
      else cons c <$> sh_word false t
  end.

Lemma sh_word_escape s t : sh_word true (escape s ++ 39 :: t) = app s <$> sh_word false t.
Proof.
  induction s as [|c s IH].
  - simpl. by destruct (sh_word false t).
  - change (escape (c :: s)) with ((if c =? 39 then [39; 92; 39; 39] else [c]) ++ escape s).
    destruct (Z.eqb_spec c 39) as [->|Hc].
    + cbn. rewrite IH. by destruct (sh_word false t).
    + cbn. destruct (Z.eqb_spec c 39); [done|]. rewrite IH. by destruct (sh_word false t).
Qed.

(** Every value is written as one shell word that the shell reads back as the
    value itself: nothing in a value can end the assignment or be expanded. *)
Theorem quote_shell_safe (v : str) : sh_word false (quote v) = Some v.
Proof.
  unfold quote. destruct (is_empty v) eqn:Ee; [by apply is_empty_nil in Ee as ->|].
  destruct (existsb special v) eqn:Es; cbn [negb].
  - cbn [sh_word]. rewrite Z.eqb_refl, sh_word_escape. cbn. by rewrite app_nil_r.
  - apply existsb_special_false in Es. clear Ee. induction Es as [|c t Hc _ IH]; [done|].
    cbn [sh_word]. destruct (Z.eqb_spec c 39) as [->|]; [done|].
    destruct (Z.eqb_spec c 92) as [->|]; [done|]. by rewrite Hc, IH.
Qed.

(** ** Lines *)

Lemma split_on_line l rest : 10 ∉ l -> split_on 10 (l ++ 10 :: rest) = l :: split_on 10 rest.
Proof.
  induction l as [|c t IH]; intros Hn; [done|]. apply not_elem_of_cons in Hn as [Hc Ht].
  cbn [app split_on]. destruct (Z.eqb_spec c 10); [done|]. by rewrite IH.
Qed.

Lemma split_on_unlines out :
  Forall (fun l => 10 ∉ l) out -> split_on 10 (unlines out) = out ++ [[]].
Proof.
  induction 1 as [|l out Hl _ IH]; [done|]. unfold unlines in *. cbn [flat_map].
  rewrite <- app_assoc. cbn [app]. by rewrite split_on_line, IH.
Qed.

Lemma lines_unlines out :
  Forall (fun l => 10 ∉ l) out -> lines (unlines out) = map strip_cr out.
Proof.
  intros H. unfold lines. rewrite split_on_unlines by done. clear H.
  induction out as [|l out IH]; [done|]. cbn [app map]. rewrite <- IH. by destruct out.
Qed.

Lemma split_on_no_sep c s : Forall (fun l => c ∉ l) (split_on c s).
Proof.
  induction s as [|b t IH]; cbn [split_on].
  - constructor; [apply not_elem_of_nil|by apply Forall_nil].
  - destruct (Z.eqb_spec b c); [constructor; [apply not_elem_of_nil|done]|].
    destruct (split_on c t) as [|h r].
    + constructor; [|by apply Forall_nil]. apply not_elem_of_cons. split; [done|apply not_elem_of_nil].
    + apply Forall_cons in IH as [Hh Hr]. constructor; [|done]. by apply not_elem_of_cons.
Qed.

Lemma strip_cr_cases l : strip_cr l = l \/ l = strip_cr l ++ [13].
Proof.
  unfold strip_cr, ends_with. case_bool_decide as E; [right|by left].
  apply last_Some in E as (t & ->). rewrite length_app. cbn [length].
  replace (length t + 1 - 1)%nat with (length t) by lia. by rewrite take_app_length.
Qed.

Lemma strip_cr_subset l c : c ∈ strip_cr l -> c ∈ l.
Proof. destruct (strip_cr_cases l) as [->|E]; [done|]. intros H. rewrite E. apply elem_of_app. by left. Qed.

Lemma lines_no_newline content : Forall (fun l => 10 ∉ l) (lines content).
Proof.
  unfold lines. pose proof (split_on_no_sep 10 content) as H.
  induction H as [|p ps Hp _ IH]; [by apply Forall_nil|]. cbn [lines_of]. destruct ps as [|q ps].
  - destruct (is_empty p); [by apply Forall_nil|]. constructor; [done|by apply Forall_nil].
  - constructor; [|done]. by intros ?%strip_cr_subset.
Qed.

(** ** Keys do not depend on a trailing carriage return *)

Lemma trim_start_cr x :
  (ctrim_start (x ++ [13]) = [] /\ ctrim_start x = [])
  \/ ctrim_start (x ++ [13]) = ctrim_start x ++ [13].
Proof.
  induction x as [|c t IH]; [by left|]. cbn [app trim_start_by]. destruct (char_ws c); [done|by right].
Qed.

Lemma strip_prefix_cr p x :
  13 ∉ p -> strip_prefix p (x ++ [13]) = (fun r => r ++ [13]) <$> strip_prefix p x.
Proof.
  unfold strip_prefix. revert x. induction p as [|c p IH]; intros x Hn; [done|].
  apply not_elem_of_cons in Hn as [Hc Hp]. destruct x as [|d x]; cbn [app starts_with length drop].
  - destruct (Z.eqb_spec c 13); [congruence|done].
  - destruct (c =? d); [|done]. apply (IH x Hp).
Qed.

Lemma find_char_cr x : find_char 61 (x ++ [13]) = find_char 61 x.
Proof. induction x as [|c t IH]; [done|]. cbn [app find_char]. by rewrite IH. Qed.

Lemma find_char_lt c x i : find_char c x = Some i -> (i < length x)%nat.
Proof.
  revert i. induction x as [|b t IH]; intros i; [done|]. cbn [find_char length].
  destruct (b =? c); [intros [= <-]; lia|]. destruct (find_char c t) as [j|]; [|done].
  intros [= <-]. specialize (IH j eq_refl). lia.
Qed.

Lemma key_value_cr x : fst <$> parse_key_value (x ++ [13]) = fst <$> parse_key_value x.
Proof.
  unfold parse_key_value. rewrite find_char_cr. destruct (find_char 61 x) as [i|] eqn:E; [|done].
  apply find_char_lt in E. cbn. rewrite take_app_le by lia. by destruct (negb _).
Qed.

Lemma export_key_cr x : fst <$> parse_export_line (x ++ [13]) = fst <$> parse_export_line x.
Proof.
  unfold parse_export_line. destruct (trim_start_cr x) as [[-> ->]| ->]; [done|].
  rewrite strip_prefix_cr by (vm_compute; set_solver).
  destruct (strip_prefix _ (ctrim_start x)) as [r|]; [|done]. apply (key_value_cr r).
Qed.

Lemma commented_key_cr x :
  fst <$> parse_commented_export_line (x ++ [13]) = fst <$> parse_commented_export_line x.
Proof.
  unfold parse_commented_export_line. destruct (trim_start_cr x) as [[-> ->]| ->]; [done|].
  rewrite strip_prefix_cr by (vm_compute; set_solver).
  destruct (strip_prefix _ (ctrim_start x)) as [r|]; [|done]. cbn.
  destruct (trim_start_cr r) as [[-> ->]| ->]; [done|].
  rewrite strip_prefix_cr by (vm_compute; set_solver).
  destruct (strip_prefix _ (ctrim_start r)) as [r'|]; [|done]. apply (key_value_cr r').
Qed.

Lemma export_key_strip l : fst <$> parse_export_line (strip_cr l) = fst <$> parse_export_line l.
Proof. destruct (strip_cr_cases l) as [->|E]; [done|]. rewrite E at 2. by rewrite export_key_cr. Qed.

Lemma commented_key_strip l :
  fst <$> parse_commented_export_line (strip_cr l) = fst <$> parse_commented_export_line l.
Proof. destruct (strip_cr_cases l) as [->|E]; [done|]. rewrite E at 2. by rewrite commented_key_cr. Qed.

(** ** The written lines *)

Lemma valid_key_chars k c : is_valid_key k = true -> c ∈ k -> c = 95 \/ is_ascii_alphanumeric c = true.
Proof.
  unfold is_valid_key. destruct k as [|b t]; [done|]. intros [H1 H2]%andb_true_iff Hc.
  apply elem_of_cons in Hc as [->|Hc].
  - unfold is_ascii_alphanumeric. apply orb_true_iff in H1 as [->|H1]; [by right|left; lia].
  - rewrite forallb_forall in H2. specialize (H2 c (proj1 (list_elem_of_In _ _) Hc)).
    apply orb_true_iff in H2 as [->|H2]; [by right|left; lia].
Qed.

Lemma valid_key_not_in k c :
  is_valid_key k = true -> is_ascii_alphanumeric c = false -> c <> 95 -> c ∉ k.
Proof. intros Hk Hc Hn Hin. destruct (valid_key_chars k c Hk Hin); congruence. Qed.

Lemma find_char_app c k t : c ∉ k -> find_char c (k ++ c :: t) = Some (length k).
Proof.
  induction k as [|b k IH]; intros Hn; cbn [app find_char]; [by rewrite Z.eqb_refl|].
  apply not_elem_of_cons in Hn as [Hb Hk]. destruct (Z.eqb_spec b c); [congruence|]. by rewrite IH.
Qed.

Lemma parse_export_written k v :
  is_valid_key k = true -> parse_export_line (export_line k v) = Some (k, unquote (quote v)).
Proof.
  intros Hk. unfold parse_export_line, export_line.
  change (ctrim_start (lit "export " ++ k ++ [61] ++ quote v))
    with (lit "export " ++ k ++ [61] ++ quote v).
  change (strip_prefix (lit "export ") (lit "export " ++ k ++ [61] ++ quote v))
    with (Some (k ++ 61 :: quote v)).
  cbn [mbind option_bind]. unfold parse_key_value.
  rewrite find_char_app by (by apply valid_key_not_in). cbn [mbind option_bind].
  rewrite take_app_length, Hk. cbn [negb]. do 2 f_equal.
  replace (S (length k)) with (length (k ++ [61])) by (rewrite length_app; simpl; lia).
  replace (k ++ 61 :: quote v) with ((k ++ [61]) ++ quote v) by (by rewrite <- app_assoc).
  by rewrite drop_app_length.
Qed.

Lemma escape_elem c s : c ∈ escape s -> c ∈ s \/ c = 39 \/ c = 92.
Proof.
  induction s as [|b t IH]; intros Hc; [by apply elem_of_nil in Hc|].
  change (escape (b :: t)) with ((if b =? 39 then [39; 92; 39; 39] else [b]) ++ escape t) in Hc.
  apply elem_of_app in Hc as [Hc|Hc].
  - destruct (b =? 39); [right; set_solver|left; set_solver].
  - destruct (IH Hc) as [?|?]; [left; set_solver|by right].
Qed.

Lemma quote_elem c v : c ∈ quote v -> c ∈ v \/ c = 39 \/ c = 92.
Proof.
  unfold quote. destruct (is_empty v); [set_solver|]. destruct (existsb special v); cbn [negb]; [|by left].
  intros [->|[Hc|Hc]%elem_of_app]%elem_of_cons; [auto|by apply escape_elem|set_solver].
Qed.

Lemma has_newline_false v : has_newline v = false -> 10 ∉ v /\ 13 ∉ v.
Proof.
  unfold has_newline. intros H. split; intros Hin; rewrite <- not_true_iff_false in H; apply H;
    apply existsb_exists; eexists; (split; [by apply list_elem_of_In|done]).
Qed.

Lemma written_no_newline k v c :
  is_valid_key k = true -> has_newline v = false -> c = 10 \/ c = 13 -> c ∉ export_line k v.
Proof.
  intros Hk Hv Hc. apply has_newline_false in Hv as [Hv1 Hv2]. unfold export_line.
  rewrite !elem_of_app. intros [H|[H|[H|H]]].
  - revert H. destruct Hc as [-> | ->]; vm_compute; set_solver.
  - revert H. destruct Hc as [-> | ->]; by apply valid_key_not_in.
  - apply list_elem_of_singleton in H. lia.
  - apply quote_elem in H as [H|H]; [|lia]. destruct Hc as [-> | ->]; done.
Qed.

Lemma written_strip k v :
  is_valid_key k = true -> has_newline v = false -> strip_cr (export_line k v) = export_line k v.
Proof.
  intros Hk Hv. destruct (strip_cr_cases (export_line k v)) as [?|E]; [done|].
  exfalso. apply (written_no_newline k v 13 Hk Hv); [by right|]. rewrite E. apply elem_of_app. right.
  by apply list_elem_of_singleton.
Qed.

Lemma commented_out_export l : parse_export_line (35 :: l) = None.
Proof. done. Qed.

Lemma commented_out_commented l : parse_commented_export_line (35 :: l) = parse_export_line l.
Proof. unfold parse_commented_export_line. cbn. by rewrite drop_0. Qed.

(** ** Which variables a file has *)

Lemma parse_fold ls : forall a c,
  let r := foldl parse_line (a, c) ls in
  (forall k, is_Some (r.1 !! k) <->
     is_Some (a !! k) \/ exists l, l ∈ ls /\ fst <$> parse_export_line l = Some k)
  /\ (forall k, is_Some (r.2 !! k) <->
     is_Some (c !! k) \/ exists l, l ∈ ls /\ parse_export_line l = None
                                /\ fst <$> parse_commented_export_line l = Some k)
  /\ (forall k v, r.1 !! k = Some v ->
     a !! k = Some v \/ exists l, l ∈ ls /\ parse_export_line l = Some (k, v)).
Proof.
  induction ls as [|l ls IH]; intros a c; cbn [foldl].
  { split_and!; intros k; [..|intros v Hv; by left].
    all: split; [by left|]; intros [?|(l & Hl & _)]; [done|by apply elem_of_nil in Hl]. }
  destruct (parse_line (a, c) l) as [a' c'] eqn:El. destruct (IH a' c') as (I1 & I2 & I3).
  unfold parse_line in El. split_and!.
  - intros k. rewrite I1. destruct (parse_export_line l) as [[k0 v0]|] eqn:Ep.
    + injection El as <- <-. rewrite lookup_insert_is_Some'. split.
      * intros [[->|?]|(l' & ? & ?)]; [right; exists l; rewrite Ep|by left|right; exists l'];
          (split; [apply elem_of_cons; auto|done]).
      * intros [?|(l' & [->|Hl]%elem_of_cons & Hk)]; [by left; right| |by right; eauto].
        rewrite Ep in Hk. injection Hk as ->. by left; left.
    + assert (a' = a) as -> by (destruct (parse_commented_export_line l) as [[??]|]; by injection El as <- <-).
      split; (intros [?|(l' & Hl & Hk)]; [by left|]).
      * right. exists l'. split; [apply elem_of_cons; auto|done].
      * apply elem_of_cons in Hl as [->|Hl]; [by rewrite Ep in Hk|eauto].
  - intros k. rewrite I2. destruct (parse_export_line l) as [[k0 v0]|] eqn:Ep;
      [|destruct (parse_commented_export_line l) as [[k0 v0]|] eqn:Ec]; injection El as <- <-.
    + split; (intros [?|(l' & Hl & Hk)]; [by left|]).
      * right. exists l'. split; [apply elem_of_cons; auto|done].
      * apply elem_of_cons in Hl as [->|Hl]; [by rewrite Ep in Hk; destruct Hk|eauto].
    + rewrite lookup_insert_is_Some'. split.
      * intros [[->|?]|(l' & ? & ?)]; [right; exists l; rewrite Ep, Ec|by left|right; exists l'];
          (split; [apply elem_of_cons; auto|done]).
      * intros [?|(l' & [->|Hl]%elem_of_cons & Hn & Hk)]; [by left; right| |by right; eauto].
        rewrite Ec in Hk. injection Hk as ->. by left; left.
    + split; (intros [?|(l' & Hl & Hk)]; [by left|]).
      * right. exists l'. split; [apply elem_of_cons; auto|done].
      * apply elem_of_cons in Hl as [->|Hl]; [by rewrite Ec in Hk; destruct Hk|eauto].
  - intros k v Hv. apply I3 in Hv as [Hv|(l' & ? & ?)].
    + destruct (parse_export_line l) as [[k0 v0]|] eqn:Ep.
      * injection El as <- <-. apply lookup_insert_Some in Hv as [[<- <-]|[_ Hv]]; [|by left].
        right. exists l. split; [apply elem_of_cons; auto|done].
      * left. destruct (parse_commented_export_line l) as [[??]|]; by injection El as <- <-.
    + right. exists l'. split; [apply elem_of_cons; auto|done].
Qed.

(** The variables a file mentions, active or commented out. *)
Lemma parse_content_keys content k :
  (is_Some ((parse_content content).1 !! k) \/ is_Some ((parse_content content).2 !! k))
  <-> exists l, l ∈ lines content /\ line_key l = Some k.
Proof.
  unfold parse_content. destruct (parse_fold (lines content) ∅ ∅) as (P1 & P2 & _).
  rewrite P1, P2, !lookup_empty. split.
  - intros [[H|(l & Hl & Hk)]|[H|(l & Hl & Hn & Hk)]]; try by apply is_Some_None in H.
    + exists l. split; [done|]. unfold line_key. by destruct (parse_export_line l) as [[??]|].
    + exists l. split; [done|]. unfold line_key. by rewrite Hn.
  - intros (l & Hl & Hk). unfold line_key in Hk. destruct (parse_export_line l) as [[k' v]|] eqn:Ep.
    + left. right. exists l. by rewrite Ep.
    + right. right. eauto.
Qed.

Section render.
Context (E : list (str * str)) (content : str).
Hypothesis Hnd : NoDup E.*1.
Hypothesis Hkeys : Forall (fun e => is_valid_key e.1 = true) E.

Lemma cfg_get k v : (list_to_map E : gmap str str) !! k = Some v <-> (k, v) ∈ E.
Proof. symmetry. by apply elem_of_list_to_map. Qed.

(** What the lines of the new file are. *)
Lemma render_elem l :
  l ∈ render E content ->
  (exists k v, l = export_line k v /\ (k, v) ∈ E)
  \/ (parse_export_line l = None /\
      forall k, fst <$> parse_commented_export_line l = Some k ->
        (list_to_map E : gmap str str) !! k = None /\ exists l', l' ∈ lines content /\ line_key l' = Some k).
Proof.
  unfold render. intros [Hl|Hl]%elem_of_app.
  - apply list_elem_of_fmap in Hl as (l0 & -> & Hl0). unfold rewrite_line.
    destruct (parse_export_line l0) as [[k v]|] eqn:Ep.
    + destruct (list_to_map E !! k) as [v'|] eqn:Ek.
      * left. exists k, v'. split; [done|by apply cfg_get].
      * right. split; [done|]. intros k'. rewrite commented_out_commented, Ep. intros [= <-].
        split; [done|]. exists l0. split; [done|]. unfold line_key. by rewrite Ep.
    + destruct (parse_commented_export_line l0) as [[k v]|] eqn:Ec.
      * destruct (list_to_map E !! k) as [v'|] eqn:Ek.
        -- left. exists k, v'. split; [done|by apply cfg_get].
        -- right. split; [done|]. intros k'. rewrite Ec. intros [= <-].
           split; [done|]. exists l0. split; [done|]. unfold line_key. by rewrite Ep, Ec.
      * right. split; [done|]. intros k'. by rewrite Ec.
  - apply list_elem_of_fmap in Hl as ([k v] & -> & Hl). apply list_elem_of_filter in Hl as [_ Hl].
    left. eauto.
Qed.

Lemma render_written k v : (k, v) ∈ E -> export_line k v ∈ render E content.
Proof.
  intros Hin. unfold render. apply elem_of_app.
  destruct (decide (k ∈ omap line_key (lines content))) as [Hs|Hs].
  - left. apply list_elem_of_omap in Hs as (l & Hl & Hk). apply list_elem_of_fmap. exists l. split; [|done].
    unfold rewrite_line. unfold line_key in Hk. apply cfg_get in Hin.
    destruct (parse_export_line l) as [[k' v']|]; [injection Hk as ->; by rewrite Hin|].
    destruct (parse_commented_export_line l) as [[k' v']|]; [|done]. injection Hk as ->. by rewrite Hin.
  - right. apply list_elem_of_fmap. exists (k, v). split; [done|]. by apply list_elem_of_filter.
Qed.

Lemma render_kept l k :
  l ∈ lines content -> line_key l = Some k -> (list_to_map E : gmap str str) !! k = None ->
  exists l', l' ∈ render E content /\ parse_export_line l' = None
    /\ fst <$> parse_commented_export_line l' = Some k.
Proof.
  intros Hl Hk Hn. exists (rewrite_line (list_to_map E) l). split.
  { unfold render. apply elem_of_app. left. apply list_elem_of_fmap. eauto. }
  unfold rewrite_line. unfold line_key in Hk. destruct (parse_export_line l) as [[k' v]|] eqn:Ep.
  - injection Hk as ->. rewrite Hn. split; [done|]. by rewrite commented_out_commented, Ep.
  - destruct (parse_commented_export_line l) as [[k' v]|] eqn:Ec; [|done].
    injection Hk as ->. rewrite Hn. by rewrite Ep, Ec.
Qed.

Hypothesis Hvals : Forall (fun e => has_newline e.2 = false) E.

Lemma entry_ok k v : (k, v) ∈ E -> is_valid_key k = true /\ has_newline v = false.
Proof.
  intros Hin. rewrite Forall_forall in Hkeys, Hvals. split; [by apply (Hkeys (k, v))|by apply (Hvals (k, v))].
Qed.

Lemma render_no_newline : Forall (fun l => 10 ∉ l) (render E content).
Proof.
  apply Forall_forall. intros l. unfold render. intros [Hl|Hl]%elem_of_app.
  - apply list_elem_of_fmap in Hl as (l0 & -> & Hl0).
    assert (10 ∉ l0) as Hn by (pose proof (lines_no_newline content) as H; rewrite Forall_forall in H; auto).
    unfold rewrite_line.
    destruct (parse_export_line l0) as [[k v]|]; [|destruct (parse_commented_export_line l0) as [[k v]|]];
      try (destruct (list_to_map E !! k) as [v'|] eqn:Ek); try done.
    + apply cfg_get, entry_ok in Ek as [? ?]. apply written_no_newline; auto.
    + apply not_elem_of_cons. split; [done|]. done.
    + apply cfg_get, entry_ok in Ek as [? ?]. apply written_no_newline; auto.
  - apply list_elem_of_fmap in Hl as ([k v] & -> & Hl). apply list_elem_of_filter in Hl as [_ Hl].
    apply entry_ok in Hl as [? ?]. apply written_no_newline; auto.
Qed.

(** Reading the new file: exactly the new variables are active, with the values
    that quoting stores, and of the other variables exactly those of the old file
    are commented out. *)
Lemma parse_render :
  let r := parse_content (unlines (render E content)) in
  let old := parse_content content in
  (forall k, r.1 !! k = stored <$> (list_to_map E : gmap str str) !! k)
  /\ forall k, is_Some (r.2 !! k) <->
       (list_to_map E : gmap str str) !! k = None /\ (is_Some (old.1 !! k) \/ is_Some (old.2 !! k)).
Proof.
  intros r old. subst r old. setoid_rewrite parse_content_keys.
  unfold parse_content at 1 2. rewrite lines_unlines by apply render_no_newline.
  destruct (parse_fold (map strip_cr (render E content)) ∅ ∅) as (P1 & P2 & P3). split.
  - intros k. destruct (list_to_map E !! k) as [v|] eqn:Ek; cbn [fmap option_fmap option_map].
    + apply cfg_get in Ek as Hin. destruct (entry_ok _ _ Hin) as [Hk Hv].
      assert (is_Some ((foldl parse_line (∅, ∅) (map strip_cr (render E content))).1 !! k)) as [v' Hv'].
      { apply P1. right. exists (strip_cr (export_line k v)). split.
        - apply list_elem_of_fmap. eexists. split; [done|]. by apply render_written.
        - rewrite written_strip, parse_export_written by done. done. }
      rewrite Hv'. apply P3 in Hv' as [Hv'|(l & Hl & Hp)]; [by rewrite lookup_empty in Hv'|].
      apply list_elem_of_fmap in Hl as (l0 & -> & Hl0). apply render_elem in Hl0 as [(k1 & v1 & -> & Hin1)|[Hno _]].
      * destruct (entry_ok _ _ Hin1) as [Hk1 Hv1]. rewrite written_strip, parse_export_written in Hp by done.
        rewrite unquote_quote_stored in Hp. injection Hp as -> <-. apply cfg_get in Hin1. congruence.
      * pose proof (export_key_strip l0) as Hx. rewrite Hp, Hno in Hx. done.
    + apply eq_None_not_Some. rewrite P1. intros [H|(l & Hl & Hp)]; [by rewrite lookup_empty in H; apply is_Some_None in H|].
      apply list_elem_of_fmap in Hl as (l0 & -> & Hl0). rewrite export_key_strip in Hp.
      apply render_elem in Hl0 as [(k1 & v1 & -> & Hin1)|[Hno _]]; [|by rewrite Hno in Hp].
      destruct (entry_ok _ _ Hin1) as [Hk1 Hv1]. rewrite parse_export_written in Hp by done.
      injection Hp as ->. apply cfg_get in Hin1. congruence.
  - intros k. rewrite P2, lookup_empty. split.
    + intros [H|(l & Hl & Hno & Hc)]; [by apply is_Some_None in H|].
      apply list_elem_of_fmap in Hl as (l0 & -> & Hl0). rewrite commented_key_strip in Hc.
      apply render_elem in Hl0 as [(k1 & v1 & -> & Hin1)|[_ Hk]]; [|by apply Hk].
      destruct (entry_ok _ _ Hin1) as [Hk1 Hv1]. by rewrite written_strip, parse_export_written in Hno.
    + intros [Hn (l & Hl & Hk)]. right. destruct (render_kept l k Hl Hk Hn) as (l' & Hl' & Hno & Hc).
      exists (strip_cr l'). split_and!; [apply list_elem_of_fmap; eauto| |by rewrite commented_key_strip].
      pose proof (export_key_strip l') as Hx. rewrite Hno in Hx. by destruct (parse_export_line (strip_cr l')).
Qed.
End render.

(** ** Saving *)

(** What a saved file loads as: exactly the new variables active, each with its
    own value when quoting preserves it, of the other variables exactly those of
    the old file commented out. *)
Definition loads_as (E : list (str * str)) (old new : str) : Prop :=
  let was := parse_content old in
  let now := parse_content new in
  (forall k, now.1 !! k = stored <$> (list_to_map E : gmap str str) !! k)
  /\ (Forall (fun e => survives e.2) E -> now.1 = list_to_map E)
  /\ forall k, is_Some (now.2 !! k) <->
       (list_to_map E : gmap str str) !! k = None /\ (is_Some (was.1 !! k) \/ is_Some (was.2 !! k)).

Lemma render_loads E old : NoDup E.*1 -> Forall (fun e => negb (is_valid_key e.1) = false) E ->
  Forall (fun e => has_newline e.2 = false) E -> loads_as E old (unlines (render E old)).
Proof.
  intros Hnd Hk Hv. assert (Forall (fun e => is_valid_key e.1 = true) E) as Hk'
    by (eapply Forall_impl; [exact Hk|]; intros e; apply negb_false_iff).
  destruct (parse_render E old Hnd Hk' Hv) as [H1 H2]. split_and!; [done| |done].
  intros Hs. apply map_eq. intros k. rewrite H1. destruct (list_to_map E !! k) as [v|] eqn:Ek; [|done].
  apply elem_of_list_to_map_2 in Ek. rewrite Forall_forall in Hs. specialize (Hs _ Ek). cbn in *.
  by rewrite <- unquote_quote_stored, (proj2 (unquote_quote v) Hs).
Qed.

Lemma find_none {A} (f : A -> bool) l : List.find f l = None -> Forall (fun x => f x = false) l.
Proof.
  induction l as [|x t IH]; cbn; [by intros _; apply Forall_nil|].
  destruct (f x) eqn:Ef; [done|]. intros H. constructor; auto.
Qed.

Lemma call_faults {A} good bad w : AtomicFile.faults (snd (@AtomicFile.call A good bad w)) = tail (AtomicFile.faults w).
Proof.
  unfold AtomicFile.call. destruct (head (AtomicFile.faults w)) as [[|n]|]; try done.
  all: by destruct (good (AtomicFile.fs w)) as [[a s]|e].
Qed.

Section saving.
Import AtomicFile.
Context (path : list Z * list Z) (old text : str).
Let tmp := with_tmp_suffix path.

(** The file is safely on disk, and a leftover temporary file is another one. *)
Definition settled (s : Fs) : Prop :=
  wf s /\ durable s path [Some old] /\ forall i, names s !! with_tmp_suffix path = Some i -> apart s i path.

(** What the running system reads: the old text or the new one. *)
Definition old_or_new (s : Fs) : Prop := read s path = Some old \/ read s path = Some text.
(** The same after a power cut. *)
Definition cut_old_or_new (s : Fs) : Prop := forall s', crash s s' -> old_or_new s'.

Notation whole := (safe path [Some old] text).

Lemma whole_reads s : whole s -> old_or_new s.
Proof. intros [_ H%durable_read]. unfold old_or_new. set_solver. Qed.

Lemma whole_cut s : whole s -> cut_old_or_new s.
Proof. intros [_ H] s' Hc. destruct (durable_crash s s' path _ H Hc) as [Hin _]. unfold old_or_new. set_solver. Qed.

Lemma before_reads s : before path [Some old] s -> read s path = Some old.
Proof. intros [_ H%durable_read]. set_solver. Qed.

(** The flush, its outcome dropped: the temporary file keeps its bytes, and is
    on disk when the call did not fail. *)
Lemma sync_dropped i w : writing path tmp [Some old] i text false (fs w) -> Forall whole (trace w) ->
  let w' := snd (sync_all i w) in
  Forall whole (trace w') /\ exists y, writing path tmp [Some old] i text y (fs w')
    /\ ((forall n, head (faults w) <> Some (Bad n)) -> y = true).
Proof.
  intros Hw Ht. pose proof Hw as (Hb & _ & Hi & _). cbv zeta. unfold sync_all, call.
  assert (forall s, whole s -> Forall whole (trace w ++ [s])) as Hsnoc
    by (intros s Hs; apply Forall_app; split; [done|by constructor]).
  pose proof (writing_set path tmp [Some old] i text false text true (fs w) Hw) as Hset.
  destruct (head (faults w)) as [[|n]|]; [| |]; try rewrite Hi; cbn.
  2: { split; [apply Hsnoc; by apply before_safe|]. exists false. split; [done|]. intros H. by destruct (H n). }
  all: split; [apply Hsnoc; by eapply writing_safe|]; by exists true.
Qed.

Lemma rename_dropped i y w : writing path tmp [Some old] i text y (fs w) -> Forall whole (trace w) ->
  let (r, w') := rename tmp path w in
  match r with
  | Ok _ => read (fs w') path = Some text /\ Forall old_or_new (trace w') /\ (y = true -> Forall whole (trace w'))
  | Err _ => before path [Some old] (fs w') /\ Forall whole (trace w')
  end.
Proof.
  intros Hw Ht. pose proof (rename_triple path tmp [Some old] text (with_tmp_suffix_ne path) i w) as Hy.
  pose proof Hw as (Hb & _ & Hi & Hn). unfold rename, call in *.
  assert (Forall old_or_new (trace w)) as Hr by (eapply Forall_impl; [exact Ht|apply whole_reads]).
  destruct (head (faults w)) as [[|n]|]; [|split; [done|apply Forall_app; split; [done|]; constructor; [|done]; by apply before_safe]|].
  all: rewrite Hn in *; cbn [fs trace] in *.
  all: assert (read (dir_op (fs w) (Rename tmp path)) path = Some text) as Hread by
    (unfold read, read_in, names; cbn [dir_op dnames pending inodes]; rewrite foldl_app; cbn [foldl apply_op];
     change (foldl apply_op (dnames (fs w)) (pending (fs w))) with (names (fs w));
     rewrite Hn, lookup_insert_eq; cbn; by rewrite Hi).
  all: split_and!; [done|apply Forall_app; split; [done|]; constructor; [by right|done]|].
  all: intros ->; by destruct (Hy Hw Ht).
Qed.

Lemma remove_dropped w : before path [Some old] (fs w) -> Forall whole (trace w) ->
  let (r, w') := remove_file tmp w in Forall whole (trace w') /\ before path [Some old] (fs w').
Proof.
  revert w. apply (triple_call whole _ _ (before path [Some old]) (fun _ => before path [Some old]));
    intros s; [intros n|]; intros Hb; [by split; [apply before_safe|]|].
  destruct (names s !! tmp); [|by split; [apply before_safe|]].
  assert (before path [Some old] (dir_op s (Remove tmp))) as H; [|by split; [apply before_safe|]].
  apply frame_op; [|done|done]. intros m. cbn. by rewrite lookup_delete_ne by apply with_tmp_suffix_ne.
Qed.

(** The save: what is read at every moment, at the end, and after a power cut
    when the flush of the temporary file (the third call) does not fail. *)
Lemma save_outcome w : settled (fs w) -> Forall whole (trace w) ->
  let (r, w') := Config.save path text w in
  Forall old_or_new (trace w')
  /\ match r with Ok _ => read (fs w') path = Some text | Err _ => read (fs w') path = Some old end
  /\ ((forall n, faults w !! 2%nat <> Some (Bad n)) -> Forall whole (trace w')).
Proof.
  intros (Hwf & Hd & Ha) Ht. assert (forall t, Forall whole t -> Forall old_or_new t) as Hr
    by (intros t H; eapply Forall_impl; [exact H|apply whole_reads]).
  unfold Config.save. fold tmp. cbv zeta. unfold bind at 1.
  pose proof (open_truncate_triple path tmp [Some old] text (with_tmp_suffix_ne path) w (conj (conj Hwf Hd) Ha) Ht) as H1.
  pose proof (call_faults _ _ w : faults (snd (open_truncate tmp w)) = tail (faults w)) as F1.
  destruct (open_truncate tmp w) as [[i|e] w1]; destruct H1 as [T1 S1]; cbn [snd] in F1; [|by eauto using before_reads].
  unfold bind at 1. pose proof (write_triple path tmp [Some old] text i w1 S1 T1) as H2.
  pose proof (call_faults _ _ w1 : faults (snd (write_all i text w1)) = tail (faults w1)) as F2.
  destruct (write_all i text w1) as [[[]|e] w2]; destruct H2 as [T2 S2]; cbn [snd] in F2; [|by eauto using before_reads].
  assert (head (faults w2) = faults w !! 2%nat) as Hf.
  { rewrite F2, F1. by destruct (faults w) as [|? [|? [|? ?]]]. }
  destruct (sync_dropped i w2 S2 T2) as (T3 & y & S3 & Hy). rewrite Hf in Hy.
  unfold bind at 1, attempt at 1. destruct (sync_all i w2) as [r3 w3]. cbn [snd] in *.
  unfold bind at 1, attempt at 1. pose proof (rename_dropped i y w3 S3 T3) as H4.
  destruct (rename tmp path w3) as [[[]|e] w4]; destruct H4 as [H4 H5].
  - cbn. destruct H5 as [H5 H6]. split_and!; [done|done|]. intros H. apply H6, Hy, H.
  - unfold bind, attempt. pose proof (remove_dropped w4 H4 H5) as H6. destruct (remove_file tmp w4) as [r5 w5].
    destruct H6 as [T5 S5]. cbn. by eauto using before_reads.
Qed.

Lemma call_good {A} good bad w a s :
  (forall n, head (faults w) <> Some (Bad n)) -> good (fs w) = Ok (a, s) ->
  fst (@call A good bad w) = Ok a /\ fs (snd (@call A good bad w)) = s.
Proof.
  intros Hf Hg. unfold call. destruct (head (faults w)) as [[|n]|]; [|by destruct (Hf n)|]; rewrite Hg; done.
Qed.

(** Only the flush may fail without failing the save. *)
Lemma save_works w : settled (fs w) -> (forall k n, faults w !! k = Some (Bad n) -> k = 2%nat) ->
  fst (Config.save path text w) = Ok tt.
Proof.
  intros (Hwf & Hd & Ha) Hgood.
  assert (forall k w', faults w' = drop k (faults w) -> k <> 2%nat -> forall n, head (faults w') <> Some (Bad n)) as Hno.
  { intros k w' Hf Hk n Hb. apply Hk, (Hgood k n). rewrite <- Hb, Hf. rewrite <- (Nat.add_0_r k) at 1.
    rewrite <- lookup_drop. by destruct (drop k (faults w)). }
  unfold Config.save. fold tmp. cbv zeta. unfold bind at 1.
  pose proof (call_faults _ _ w : faults (snd (open_truncate tmp w)) = tail (faults w)) as F1.
  assert (exists i s, (names s !! tmp = Some i)
    /\ fst (open_truncate tmp w) = Ok i /\ fs (snd (open_truncate tmp w)) = s) as (i & s & Hn & Hr & Hs).
  { destruct (names (fs w) !! tmp) as [i|] eqn:E.
    - eexists i, _. split; [|unfold open_truncate; apply call_good; [by apply (Hno 0%nat)|rewrite E; reflexivity]]. done.
    - exists (next (fs w)), (new_file (fs w) tmp). split; [|unfold open_truncate; apply call_good; [by apply (Hno 0%nat)|by rewrite E]].
      unfold names. cbn [new_file dnames pending]. rewrite foldl_app. cbn. by rewrite lookup_insert_eq. }
  destruct (open_truncate tmp w) as [r1 w1]. cbn [fst snd] in *. subst r1 s. unfold bind at 1.
  pose proof (call_faults _ _ w1 : faults (snd (write_all i text w1)) = tail (faults w1)) as F2.
  destruct (call_good (fun s => Ok (tt, append s i text)) (fun s n => append s i (take n text)) w1 tt (append (fs w1) i text)
    ltac:(apply (Hno 1%nat); [by rewrite F1; destruct (faults w)|done]) eq_refl) as [R2 S2].
  fold (write_all i text) in R2, S2. destruct (write_all i text w1) as [r2 w2]. cbn [fst snd] in *. subst r2.
  unfold bind at 1, attempt at 1.
  pose proof (call_faults _ _ w2 : faults (snd (sync_all i w2)) = tail (faults w2)) as F3.
  assert (names (fs w2) = names (fs w1)) as N2 by (rewrite S2; unfold append; by destruct (inodes (fs w1) !! i)).
  assert (names (fs (snd (sync_all i w2))) = names (fs w2)) as N3.
  { unfold sync_all, call. destruct (head (faults w2)) as [[|n]|]; [|done|]; by destruct (inodes (fs w2) !! i). }
  destruct (sync_all i w2) as [r3 w3]. cbn [fst snd] in *. unfold bind at 1, attempt at 1.
  destruct (call_good (fun s => match names s !! tmp with Some _ => Ok (tt, dir_op s (Rename tmp path)) | None => Err ENotFound end)
    unchanged w3 tt (dir_op (fs w3) (Rename tmp path))) as [R4 _].
  { apply (Hno 3%nat); [|done]. rewrite F3, F2, F1. by destruct (faults w) as [|? [|? [|? ?]]]. }
  { by rewrite N3, N2, Hn. }
  fold (rename tmp path) in R4. destruct (rename tmp path w3) as [r4 w4]. cbn [fst] in R4. by subst r4.
Qed.

End saving.

(** C17: Saving a configuration never shows a mixed file, and loses nothing but
    what quoting loses. At every point of the save, whichever calls fail, the
    file reads as the old text or the complete new one; a save that reports
    success leaves the new one, and one that reports an error the old one. A
    power cut at any point leaves the old or the complete new file, provided the
    flush of the temporary file did not fail (its failure is dropped). The new
    file loads as exactly the saved variables: every value with neither an
    apostrophe nor exotic whitespace at its ends as itself, the others as
    [stored] says; the dropped variables stay as comments. With valid keys and
    one-line values, only a failing call other than the flush makes it fail. *)
Theorem config_save_load path (E : list (str * str)) (w : AtomicFile.World) (old : str) :
  settled path old (AtomicFile.fs w) -> AtomicFile.trace w = [] -> NoDup E.*1 ->
  exists new, (new = old \/ loads_as E old new) /\
  let (res, w') := write_file path E w in
  Forall (old_or_new path old new) (AtomicFile.trace w')
  /\ match res with
     | Ok _ => AtomicFile.read (AtomicFile.fs w') path = Some new /\ loads_as E old new
     | Err _ => AtomicFile.read (AtomicFile.fs w') path = Some old
     end
  /\ ((forall n, AtomicFile.faults w !! 3%nat <> Some (AtomicFile.Bad n)) ->
      Forall (cut_old_or_new path old new) (AtomicFile.trace w'))
  /\ (Forall (fun e => is_valid_key e.1 = true /\ has_newline e.2 = false) E ->
      (forall k n, AtomicFile.faults w !! k = Some (AtomicFile.Bad n) -> k = 3%nat) -> res = Ok tt).
Proof.
  intros Hs Ht Hnd. pose proof (before_reads path old _ (conj (proj1 Hs) (proj1 (proj2 Hs)))) as Hold. unfold write_file.
  destruct (List.find (fun e => negb (is_valid_key e.1)) E) as [[bad v]|] eqn:Ek.
  { exists old. split; [by left|]. rewrite Ht. split_and!; [by apply Forall_nil|done|by intros _; apply Forall_nil|].
    intros HF _. apply List.find_some in Ek as [Hin%list_elem_of_In Hb]. rewrite Forall_forall in HF.
    destruct (HF _ Hin) as [Hv _]. cbn in *. by rewrite Hv in Hb. }
  destruct (List.find (fun e => has_newline e.2) E) as [[k v]|] eqn:Ev.
  { exists old. split; [by left|]. rewrite Ht. split_and!; [by apply Forall_nil|done|by intros _; apply Forall_nil|].
    intros HF _. apply List.find_some in Ev as [Hin%list_elem_of_In Hb]. rewrite Forall_forall in HF.
    destruct (HF _ Hin) as [_ Hv]. cbn in *. by rewrite Hv in Hb. }
  apply find_none in Ek, Ev. pose proof (render_loads E old Hnd Ek Ev) as Hl.
  set (new := unlines (render E old)) in *. exists new. split; [by right|].
  assert (Forall (safe path [Some old] new) [AtomicFile.fs w]) as Hw.
  { constructor; [|by apply Forall_nil]. apply before_safe. split; apply Hs. }
  pose proof (fun t H => Forall_impl (safe path [Some old] new) (cut_old_or_new path old new) t H (whole_cut path old new)) as Hcut.
  unfold read_to_string, AtomicFile.call. rewrite Hold, Ht.
  destruct (head (AtomicFile.faults w)) as [[|n]|] eqn:Ef; cbn [app].
  2: { cbn. split_and!; [by constructor; [left|]|done| |].
       - intros _. by apply Hcut.
       - intros _ H. destruct (AtomicFile.faults w) as [|f fs] eqn:Efs; [done|]. cbn in Ef. injection Ef as ->.
         by specialize (H 0%nat n eq_refl). }
  all: assert (forall k, tail (AtomicFile.faults w) !! k = AtomicFile.faults w !! S k) as Htl
    by (intros k; by destruct (AtomicFile.faults w)).
  all: match goal with |- context [save _ _ ?w1] => set (w0 := w1) end.
  all: pose proof (save_outcome path old new w0 Hs Hw) as Ho; pose proof (save_works path old new w0 Hs) as Hk.
  all: fold new; destruct (save path new w0) as [[[]|e] w']; cbn [AtomicFile.faults w0 fst] in *; destruct Ho as (H1 & H2 & H3).
  all: split_and!; try done; try (intros HH; apply Hcut, H3; intros n; rewrite Htl; apply HH).
  all: intros _ HH; discriminate Hk; intros k n; rewrite Htl; intros H; apply HH in H; lia.
Qed.

(** A disk with one configuration file, nothing pending, and a failing flush. *)
Definition demo_disk : AtomicFile.Fs :=
  {| AtomicFile.dnames := {[ ([], lit "conf") := 0%nat ]}; AtomicFile.pending := [];
     AtomicFile.inodes := {[ 0%nat := {| AtomicFile.content := lit "export OLD=1"; AtomicFile.synced := true |} ]};
     AtomicFile.next := 1%nat |}.

Lemma demo_settled : settled ([], lit "conf") (lit "export OLD=1") demo_disk.
Proof.
  assert (forall k, AtomicFile.view demo_disk k = {[ ([], lit "conf") := 0%nat ]}) as Hv
    by (intros k; unfold AtomicFile.view; cbn; by rewrite take_nil).
  split; [split|split].
  - intros k q i. rewrite Hv. intros [_ <-]%lookup_singleton_Some. cbn. lia.
  - intros i. cbn. rewrite lookup_singleton_is_Some. lia.
  - intros k. rewrite Hv, lookup_singleton_eq. eexists. split; [cbn; by rewrite lookup_singleton_eq|by left].
  - intros i. unfold AtomicFile.names. cbn. intros [E _]%lookup_singleton_Some. by vm_compute in E.
Qed.

Lemma config_save_load_witness :
  let w := {| AtomicFile.fs := demo_disk; AtomicFile.faults := [AtomicFile.Good; AtomicFile.Good; AtomicFile.Good; AtomicFile.Bad 0];
              AtomicFile.trace := []; AtomicFile.temp_id := 0 |} in
  let E := [(lit "SSID", lit "my net")] in
  let '(res, w') := write_file ([], lit "conf") E w in
  exists new, AtomicFile.read (AtomicFile.fs w') ([], lit "conf") = Some new /\ loads_as E (lit "export OLD=1") new.
Proof.
  cbv zeta. set (w := {| AtomicFile.fs := demo_disk |}).
  destruct (config_save_load ([], lit "conf") [(lit "SSID", lit "my net")] w (lit "export OLD=1") demo_settled eq_refl
    ltac:(apply NoDup_singleton)) as (new & _ & H).
  destruct (write_file ([], lit "conf") [(lit "SSID", lit "my net")] w) as [res w']. destruct H as (_ & H2 & _ & H3).
  assert (res = Ok tt) as ->; [|by exists new].
  apply H3; [constructor; [split; reflexivity|by apply Forall_nil]|].
  intros [|[|[|[|k]]]] n; cbn; done.
Defined.
