(* ===== verification/PushRetry.v ===== *)
(** * Retry of mobile pushes ([crates/api/src/push_retry.rs])

    The queue and its operations, then the system around it: dispatches report
    their outcome from any task, a background worker retries, and each critical
    section under the queue's lock is one step. Instants and durations are in
    nanoseconds. *)

From Stdlib Require Import ZArith Lia.
From stdpp Require Import base gmap list.
From S2P Require Import Prelude Str.

Open Scope Z_scope.

Module PushRetry.

Definition SECOND : Z := 1000000000.

Definition RETRY_TYPES : list str :=
  [lit "keep_accessory"; lit "archive_error"; lit "keep_awake_failure"; lit "temperature"].
Definition BOOT_WINDOW : Z := 8 * 60 * SECOND.
Definition MAX_AGE : Z := 10 * 60 * SECOND.

Record PendingPush := mkPush {
  title : str; message : str; summary : option str; notification_type : str;
  type_hint : option str; started_at : Z;
}.

#[export] Instance push_eq_dec : EqDecision PendingPush.
Proof. solve_decision. Defined.

Record RetryQueue := mkQueue {
  pending : gmap (list Z) PendingPush;
  delivered : gmap (list Z) Z;
  worker_running : bool;
}.

Definition default_queue : RetryQueue := mkQueue ∅ ∅ false.
Definition set_pending (m : gmap (list Z) PendingPush) (q : RetryQueue) : RetryQueue :=
  mkQueue m (delivered q) (worker_running q).

Definition option_any {A} (p : A -> bool) (o : option A) : bool :=
  match o with Some a => p a | None => false end.

Definition record_failure (push : PendingPush) (uptime : Z) (q : RetryQueue) : bool * RetryQueue :=
  let kind := notification_type push in
  if negb (bool_decide (kind ∈ RETRY_TYPES)) || (BOOT_WINDOW <=? uptime) then (false, q)
  else if option_any (fun d => started_at push <=? d) (delivered q !! kind)
          || option_any (fun p => started_at push <? started_at p) (pending q !! kind)
  then (false, q)
  else (true, set_pending (<[kind := push]> (pending q)) q).

Definition record_delivered (kind : str) (started : Z) (q : RetryQueue) : RetryQueue :=
  let newest := match delivered q !! kind with
                | Some d => if d <? started then started else d
                | None => started
                end in
  let pend := if option_any (fun p => started_at p <=? started) (pending q !! kind)
              then delete kind (pending q) else pending q in
  mkQueue pend (<[kind := newest]> (delivered q)) (worker_running q).

Definition still_pending (push : PendingPush) (q : RetryQueue) : bool :=
  bool_decide (pending q !! notification_type push = Some push).

(** [min_by_key(started_at)] over the values in iteration order: the first of
    the oldest. *)
Fixpoint oldest (vals : list PendingPush) : option PendingPush :=
  match vals with
  | [] => None
  | p :: t => match oldest t with
              | Some r => if started_at r <? started_at p then Some r else Some p
              | None => Some p
              end
  end.

Definition fresh (now : Z) (m : gmap (list Z) PendingPush) : gmap (list Z) PendingPush :=
  filter (fun e => u_sat_sub now (started_at e.2) <= MAX_AGE) m.

(** The pushes kept by [next_due]; it returns the oldest of them. *)
Definition due (now uptime : Z) (q : RetryQueue) : RetryQueue :=
  set_pending (if BOOT_WINDOW <=? uptime then ∅ else fresh now (pending q)) q.

(** With the values of the map in some iteration order. *)
Definition next_due (vals : list PendingPush) (now uptime : Z) (q : RetryQueue)
  : option PendingPush * RetryQueue :=
  if BOOT_WINDOW <=? uptime then (None, due now uptime q) else (oldest vals, due now uptime q).

Definition sent (push : PendingPush) (q : RetryQueue) : RetryQueue :=
  if still_pending push q then set_pending (delete (notification_type push) (pending q)) q else q.

(** ** The tasks *)

(** Where the worker is: sleeping, between picking a push and re-checking it, or
    waiting for the network. *)
Inductive worker := WSleep | WPicked (p : PendingPush) | WSending (p : PendingPush).

Inductive outcome := SentOk | NeverSent | MaybeSent | NoTarget.

(** What may have reached the server. *)
Definition reached (o : outcome) : bool :=
  match o with SentOk | MaybeSent => true | NeverSent | NoTarget => false end.

(** The queue, the dispatches that recorded a failure and have yet to start the
    worker, the running workers, and the attempts made so far, first ones and
    retries, with their outcome. *)
Record system := mkSystem {
  queue : RetryQueue; starting : list PendingPush; workers : list worker;
  attempts : list (PendingPush * outcome);
}.

Definition system0 : system := mkSystem default_queue [] [] [].

Definition set_running (b : bool) (q : RetryQueue) : RetryQueue := mkQueue (pending q) (delivered q) b.

(** [after_dispatch], its first critical section: the attempt that just ended
    is delivered, dropped or recorded. *)
Definition after_dispatch (push : PendingPush) (o : outcome) (uptime : Z) (s : system) : system :=
  let att := (push, o) :: attempts s in
  match o with
  | SentOk => mkSystem (record_delivered (notification_type push) (started_at push) (queue s))
                (starting s) (workers s) att
  | MaybeSent | NoTarget => mkSystem (queue s) (starting s) (workers s) att
  | NeverSent =>
      let '(kept, q) := record_failure push uptime (queue s) in
      mkSystem q (if kept then push :: starting s else starting s) (workers s) att
  end.

(** Its second: start the worker unless one runs. *)
Definition start_worker (rest : list PendingPush) (s : system) : system :=
  mkSystem (set_running true (queue s)) rest
    (if worker_running (queue s) then workers s else WSleep :: workers s) (attempts s).

(** [run_worker], waking up: pick the next push, or stop. *)
Definition worker_wake (vals : list PendingPush) (now uptime : Z) (rest : list worker) (s : system) : system :=
  let '(next, q) := next_due vals now uptime (queue s) in
  match next with
  | None => mkSystem (set_running false q) (starting s) rest (attempts s)
  | Some p => mkSystem q (starting s) (WPicked p :: rest) (attempts s)
  end.

(** The type was switched off meanwhile, or the push is checked once more. *)
Definition worker_check (enabled : bool) (p : PendingPush) (rest : list worker) (s : system) : system :=
  if negb enabled then mkSystem (sent p (queue s)) (starting s) (WSleep :: rest) (attempts s)
  else if still_pending p (queue s)
  then mkSystem (queue s) (starting s) (WSending p :: rest) (attempts s)
  else mkSystem (queue s) (starting s) (WSleep :: rest) (attempts s).

Definition worker_sent (o : outcome) (p : PendingPush) (rest : list worker) (s : system) : system :=
  let q := match o with
           | SentOk => record_delivered (notification_type p) (started_at p) (queue s)
           | NeverSent => queue s
           | MaybeSent | NoTarget => sent p (queue s)
           end in
  mkSystem q (starting s) (WSleep :: rest) ((p, o) :: attempts s).

(** Dispatches report only once, so a dispatched push is new: it differs from
    every earlier one, if only in its start time. *)
Inductive step : system -> system -> Prop :=
| step_dispatch p o uptime s :
    (forall o', (p, o') ∉ attempts s) -> step s (after_dispatch p o uptime s)
| step_start p before after s :
    starting s = before ++ p :: after -> step s (start_worker (before ++ after) s)
| step_wake vals now uptime before after s :
    workers s = before ++ WSleep :: after ->
    vals ≡ₚ (map_to_list (pending (due now uptime (queue s)))).*2 ->
    step s (worker_wake vals now uptime (before ++ after) s)
| step_check enabled p before after s :
    workers s = before ++ WPicked p :: after ->
    step s (worker_check enabled p (before ++ after) s)
| step_sent o p before after s :
    workers s = before ++ WSending p :: after ->
    step s (worker_sent o p (before ++ after) s).

End PushRetry.
