(* ===== verification/PushRetrySpec.v ===== *)
(** * Retry of mobile pushes: every interleaving

    An invariant of the reachable systems, by induction over the steps, and what
    it gives: one worker, no lost push, nothing that may have arrived is sent
    again, and nothing is sent once a newer push of its type arrived. *)

From Stdlib Require Import ZArith Lia.
From stdpp Require Import base gmap list sets relations.
From S2P Require Import Prelude Str PushRetry.

Import PushRetry.
Open Scope Z_scope.

(** The queue against the attempts made: every kept push has a retried type, is
    newer than anything delivered of that type, was attempted, and never with an
    outcome that may have reached the server. *)
Record queue_inv (q : RetryQueue) (att : list (PendingPush * outcome)) : Prop := {
  inv_type k p : pending q !! k = Some p -> notification_type p = k /\ k ∈ RETRY_TYPES;
  inv_newer k p d : pending q !! k = Some p -> delivered q !! k = Some d -> d < started_at p;
  inv_tried k p : pending q !! k = Some p -> exists o, (p, o) ∈ att;
  inv_unreached k p o : pending q !! k = Some p -> (p, o) ∈ att -> reached o = false;
  inv_delivered p : (p, SentOk) ∈ att ->
    exists d, delivered q !! notification_type p = Some d /\ started_at p <= d;
}.

(** The attempts of a push that may have reached the server. *)
Definition arrivals (p : PendingPush) (att : list (PendingPush * outcome)) : list (PendingPush * outcome) :=
  filter (fun a => a.1 = p /\ reached a.2 = true) att.

Definition held (w : worker) (p : PendingPush) : Prop := w = WPicked p \/ w = WSending p.

Record inv (s : system) : Prop := {
  inv_queue : queue_inv (queue s) (attempts s);
  inv_single : length (workers s) = if worker_running (queue s) then 1%nat else 0%nat;
  inv_wake : pending (queue s) <> ∅ -> worker_running (queue s) = true \/ starting s <> [];
  inv_held w p : w ∈ workers s -> held w p ->
    notification_type p ∈ RETRY_TYPES /\ (exists o, (p, o) ∈ attempts s)
    /\ forall o, (p, o) ∈ attempts s -> reached o = false;
  inv_once p : (length (arrivals p (attempts s)) <= 1)%nat;
}.

(** ** The queue's operations *)

Lemma record_delivered_pending kind t q k p :
  pending (record_delivered kind t q) !! k = Some p ->
  pending q !! k = Some p /\ (k = kind -> t < started_at p).
Proof.
  unfold record_delivered. cbn [pending]. destruct (pending q !! kind) as [p0|] eqn:E; cbn [option_any].
  - destruct (Z.leb_spec (started_at p0) t).
    + intros [Hk Hp]%lookup_delete_Some. split; [done|congruence].
    + intros Hp. split; [done|]. intros ->. congruence.
  - intros Hp. split; [done|]. intros ->. congruence.
Qed.

Lemma record_delivered_delivered kind t q k d :
  delivered (record_delivered kind t q) !! k = Some d ->
  (k = kind /\ d = t) \/ delivered q !! k = Some d.
Proof.
  unfold record_delivered. cbn [delivered]. intros [[<- <-]|[_ Hd]]%lookup_insert_Some; [|by right].
  destruct (delivered q !! kind) as [d0|]; [destruct (d0 <? t)|]; auto.
Qed.

(** Who is ahead in [delivered] after a delivery: the old entries keep their
    lower bounds and the new one is there. *)
Lemma record_delivered_bound kind t q k x :
  (exists d, delivered q !! k = Some d /\ x <= d) \/ (k = kind /\ x <= t) ->
  exists d, delivered (record_delivered kind t q) !! k = Some d /\ x <= d.
Proof.
  unfold record_delivered. cbn [delivered]. intros H. destruct (decide (k = kind)) as [->|Hk].
  - rewrite lookup_insert_eq. eexists. split; [done|].
    destruct (delivered q !! kind) as [d0|]; [destruct (Z.ltb_spec d0 t)|];
      destruct H as [(d & [= <-] & ?)|[_ ?]]; try lia; done.
  - rewrite lookup_insert_ne by done. destruct H as [H|[? _]]; [exact H|done].
Qed.

Lemma sent_pending p q k p' :
  pending (sent p q) !! k = Some p' ->
  pending q !! k = Some p' /\ (k = notification_type p -> p' <> p).
Proof.
  unfold sent, still_pending. case_bool_decide as E; cbn.
  - intros [Hk Hp]%lookup_delete_Some. split; [done|congruence].
  - intros Hp. split; [done|]. intros -> ->. done.
Qed.

Lemma sent_rest p q : delivered (sent p q) = delivered q /\ worker_running (sent p q) = worker_running q.
Proof. unfold sent. by destruct (still_pending p q). Qed.

Lemma due_pending now uptime q k p :
  pending (due now uptime q) !! k = Some p ->
  pending q !! k = Some p /\ uptime < BOOT_WINDOW /\ now - started_at p <= MAX_AGE.
Proof.
  unfold due. cbn. destruct (Z.leb_spec BOOT_WINDOW uptime); [by rewrite lookup_empty|].
  unfold fresh. intros [Hp Ha]%map_lookup_filter_Some. cbn in Ha. split_and!; [done|lia|].
  unfold u_sat_sub in Ha. lia.
Qed.

Lemma oldest_spec vals :
  match oldest vals with
  | None => vals = []
  | Some p => p ∈ vals /\ forall p', p' ∈ vals -> started_at p <= started_at p'
  end.
Proof.
  induction vals as [|p t IH]; cbn [oldest]; [done|]. destruct (oldest t) as [r|].
  - destruct IH as [Hr Hmin]. destruct (Z.ltb_spec (started_at r) (started_at p));
      (split; [apply elem_of_cons; auto|]); intros p' [->|Hp']%elem_of_cons; auto; try lia.
    specialize (Hmin p' Hp'). lia.
  - subst t. split; [apply elem_of_cons; auto|]. intros p' [->|Hp']%elem_of_cons; [lia|by apply elem_of_nil in Hp'].
Qed.

(** What the worker gets from [next_due]: the oldest push that is fresh enough;
    nothing only when nothing is left. *)
Lemma next_due_spec vals now uptime q r q' :
  vals ≡ₚ (map_to_list (pending (due now uptime q))).*2 ->
  next_due vals now uptime q = (r, q') ->
  q' = due now uptime q
  /\ match r with
     | None => pending q' = ∅
     | Some p => (exists k, pending q' !! k = Some p)
                 /\ forall k p', pending q' !! k = Some p' -> started_at p <= started_at p'
     end.
Proof.
  intros Hv. unfold next_due.
  assert (forall p, p ∈ vals <-> exists k, pending (due now uptime q) !! k = Some p) as Hin.
  { intros p. rewrite Hv, list_elem_of_fmap. split.
    - intros ([k p'] & -> & Hk). exists k. by apply elem_of_map_to_list in Hk.
    - intros (k & Hk). exists (k, p). split; [done|]. by apply elem_of_map_to_list. }
  destruct (BOOT_WINDOW <=? uptime) eqn:Eb; intros [= <- <-]; (split; [done|]).
  - unfold due. by rewrite Eb.
  - pose proof (oldest_spec vals) as Ho. destruct (oldest vals) as [p|].
    + destruct Ho as [H1 H2]. split; [by apply Hin|]. intros k p' Hk. apply H2, Hin. eauto.
    + apply map_empty. intros k. apply eq_None_not_Some. intros [p Hp].
      assert (p ∈ vals) as Hp' by (apply Hin; eauto). subst vals. by apply elem_of_nil in Hp'.
Qed.

Lemma record_failure_spec p uptime q kept q' :
  record_failure p uptime q = (kept, q') ->
  (kept = false /\ q' = q)
  \/ (kept = true /\ q' = set_pending (<[notification_type p := p]> (pending q)) q
      /\ notification_type p ∈ RETRY_TYPES /\ uptime < BOOT_WINDOW
      /\ forall d, delivered q !! notification_type p = Some d -> d < started_at p).
Proof.
  unfold record_failure. case_bool_decide as Et; cbn [negb orb]; [|intros [= <- <-]; by left].
  destruct (Z.leb_spec BOOT_WINDOW uptime); [intros [= <- <-]; by left|].
  destruct (option_any (fun d => started_at p <=? d) _) eqn:Ed; cbn [orb]; [intros [= <- <-]; by left|].
  destruct (option_any (fun p' => started_at p <? started_at p') _); [intros [= <- <-]; by left|].
  intros [= <- <-]. right.
  split_and!; try done. intros d Hd. rewrite Hd in Ed. cbn in Ed. lia.
Qed.

(** ** The queue's invariant *)

Lemma queue_inv_shrink q q' att :
  queue_inv q att -> delivered q' = delivered q ->
  (forall k p, pending q' !! k = Some p -> pending q !! k = Some p) -> queue_inv q' att.
Proof.
  intros [I1 I2 I3 I4 I5] Hd Hp. split; intros.
  - by apply I1, Hp.
  - rewrite Hd in *. by eapply I2; [apply Hp|].
  - by eapply I3, Hp.
  - by eapply I4; [apply Hp|].
  - rewrite Hd. by apply I5.
Qed.

Lemma queue_inv_deliver q att p :
  queue_inv q att ->
  queue_inv (record_delivered (notification_type p) (started_at p) q) ((p, SentOk) :: att).
Proof.
  intros [I1 I2 I3 I4 I5]. split.
  - intros k p' [Hp _]%record_delivered_pending. by apply I1.
  - intros k p' d [Hp Ht]%record_delivered_pending [[Hk ->]|Hd]%record_delivered_delivered; [by apply Ht|].
    by eapply I2.
  - intros k p' [Hp _]%record_delivered_pending. destruct (I3 _ _ Hp) as [o Ho].
    exists o. apply elem_of_cons. by right.
  - intros k p' o [Hp Ht]%record_delivered_pending [[= -> ->]|Ho]%elem_of_cons; [|by eapply I4].
    destruct (I1 _ _ Hp) as [<- _]. specialize (Ht eq_refl). lia.
  - intros p' [[= ->]|Hp]%elem_of_cons; apply record_delivered_bound; [right; split; [done|lia]|].
    left. by apply I5.
Qed.

Lemma queue_inv_attempt q att p o :
  queue_inv q att -> o <> SentOk -> (reached o = true -> forall k, pending q !! k <> Some p) ->
  queue_inv q ((p, o) :: att).
Proof.
  intros [I1 I2 I3 I4 I5] Ho Hr. split; [done|done| | |].
  - intros k p' Hp. destruct (I3 _ _ Hp) as [o' Ho']. exists o'. apply elem_of_cons. by right.
  - intros k p' o' Hp [[= -> ->]|Ho']%elem_of_cons; [|by eapply I4].
    destruct (reached o); [|done]. by destruct (Hr eq_refl k).
  - intros p' [[= -> <-]|Hp]%elem_of_cons; [done|by apply I5].
Qed.

Lemma queue_inv_record q att p :
  queue_inv q att -> notification_type p ∈ RETRY_TYPES ->
  (exists o, (p, o) ∈ att) -> (forall o, (p, o) ∈ att -> reached o = false) ->
  (forall d, delivered q !! notification_type p = Some d -> d < started_at p) ->
  queue_inv (set_pending (<[notification_type p := p]> (pending q)) q) att.
Proof.
  intros [I1 I2 I3 I4 I5] Ht He Hr Hd. split; cbn [pending delivered set_pending]; [..|done].
  - intros k p' [[<- <-]|[_ Hp]]%lookup_insert_Some; auto.
  - intros k p' d [[<- <-]|[_ Hp]]%lookup_insert_Some; eauto.
  - intros k p' [[<- <-]|[_ Hp]]%lookup_insert_Some; eauto.
  - intros k p' o [[<- <-]|[_ Hp]]%lookup_insert_Some; eauto.
Qed.

(** ** Steps *)

Lemma once_cons att p o :
  (reached o = true -> forall o', (p, o') ∈ att -> reached o' = false) ->
  (forall p', length (arrivals p' att) <= 1)%nat ->
  forall p', (length (arrivals p' ((p, o) :: att)) <= 1)%nat.
Proof.
  intros Hr IH p'. unfold arrivals. rewrite filter_cons. case_decide as E; [|apply IH].
  cbn in E. destruct E as [<- Ho]. fold (arrivals p att).
  destruct (arrivals p att) as [|[p1 o1] t] eqn:Ef; [done|]. exfalso.
  assert ((p1, o1) ∈ arrivals p att) as Hin by (rewrite Ef; apply elem_of_cons; by left).
  apply list_elem_of_filter in Hin as [[H1 H2] Hin]. cbn in H1, H2. subst p1.
  rewrite (Hr Ho _ Hin) in H2. done.
Qed.

(** A worker that runs is the only one. *)
Lemma the_worker s before w after :
  inv s -> workers s = before ++ w :: after ->
  before = [] /\ after = [] /\ worker_running (queue s) = true.
Proof.
  intros I E. pose proof (inv_single _ I) as Hl. rewrite E, length_app in Hl. cbn in Hl.
  destruct (worker_running (queue s)); [|lia]. destruct before; [|cbn in Hl; lia].
  destruct after; [done|cbn in Hl; lia].
Qed.

Lemma pending_subset_wake (q q' : RetryQueue) :
  (forall k p, pending q' !! k = Some p -> pending q !! k = Some p) -> pending q' <> ∅ -> pending q <> ∅.
Proof.
  intros Hsub Hne Hq. apply Hne, map_empty. intros k. apply eq_None_not_Some. intros [p Hp].
  apply Hsub in Hp. by rewrite Hq, lookup_empty in Hp.
Qed.

Lemma inv0 : inv system0.
Proof.
  split; [split|..]; cbn.
  - intros k p H. by rewrite lookup_empty in H.
  - intros k p d H. by rewrite lookup_empty in H.
  - intros k p H. by rewrite lookup_empty in H.
  - intros k p o H. by rewrite lookup_empty in H.
  - intros p H. by apply elem_of_nil in H.
  - done.
  - done.
  - intros w p H. by apply elem_of_nil in H.
  - intros p. cbn. lia.
Qed.

Lemma inv_dispatch s p o uptime :
  inv s -> (forall o', (p, o') ∉ attempts s) -> inv (after_dispatch p o uptime s).
Proof.
  intros I Hnew. destruct I as [Iq Is Iw Ih Io].
  assert (forall k, pending (queue s) !! k <> Some p) as Hnp.
  { intros k Hk. destruct (inv_tried _ _ Iq _ _ Hk) as [o' Ho']. by apply (Hnew o'). }
  assert (forall w p', w ∈ workers s -> held w p' -> notification_type p' ∈ RETRY_TYPES
    /\ (exists o', (p', o') ∈ (p, o) :: attempts s)
    /\ forall o', (p', o') ∈ (p, o) :: attempts s -> reached o' = false) as Hheld.
  { intros w p' Hw Hh. destruct (Ih w p' Hw Hh) as (H1 & [o1 H2] & H3). split_and!; [done| |].
    - exists o1. apply elem_of_cons. by right.
    - intros o' [[= -> ->]|Ho']%elem_of_cons; [by destruct (Hnew o1)|by apply H3]. }
  assert (forall p', (length (arrivals p' ((p, o) :: attempts s)) <= 1)%nat) as Hone.
  { apply once_cons; [|done]. intros _ o' Ho'. by destruct (Hnew o'). }
  unfold after_dispatch. destruct o.
  - split; cbn [queue starting workers attempts]; try done; [by apply queue_inv_deliver|].
    intros Hne. apply Iw. revert Hne. apply pending_subset_wake.
    intros k p' Hp. by destruct (record_delivered_pending _ _ _ _ _ Hp).
  - destruct (record_failure p uptime (queue s)) as [kept q'] eqn:Er.
    apply record_failure_spec in Er as [[-> ->]|(-> & -> & Ht & _ & Hd)]; split; cbn; try done.
    + by apply queue_inv_attempt.
    + apply queue_inv_record; try done; [by apply queue_inv_attempt| |].
      * exists NeverSent. apply elem_of_cons. by left.
      * intros o' [[= ->]|Ho']%elem_of_cons; [done|by destruct (Hnew o')].
    + intros _. by right.
  - split; cbn; try done. by apply queue_inv_attempt.
  - split; cbn; try done. by apply queue_inv_attempt.
Qed.

Lemma inv_start s rest : inv s -> inv (start_worker rest s).
Proof.
  intros [Iq Is Iw Ih Io]. unfold start_worker. split; cbn; try done.
  - by eapply queue_inv_shrink.
  - destruct (worker_running (queue s)); cbn; lia.
  - by left.
  - intros w p Hw Hh. apply (Ih w p); [|done]. destruct (worker_running (queue s)); [done|].
    apply elem_of_cons in Hw as [->|Hw]; [by destruct Hh|done].
Qed.

Lemma inv_wake_step s vals now uptime before after :
  inv s -> workers s = before ++ WSleep :: after ->
  vals ≡ₚ (map_to_list (pending (due now uptime (queue s)))).*2 ->
  inv (worker_wake vals now uptime (before ++ after) s).
Proof.
  intros I Hw Hv. destruct (the_worker _ _ _ _ I Hw) as (-> & -> & Hr). destruct I as [Iq Is Iw Ih Io].
  unfold worker_wake. destruct (next_due vals now uptime (queue s)) as [r q'] eqn:En.
  apply next_due_spec in En as [-> Hres]; [|done].
  assert (queue_inv (due now uptime (queue s)) (attempts s)) as Iq'.
  { eapply queue_inv_shrink; [exact Iq|done|]. by intros k p [Hp _]%due_pending. }
  destruct r as [p|]; split; cbn [queue starting workers attempts app]; try done.
  - cbn. by rewrite Hr.
  - intros _. left. exact Hr.
  - intros w p' [->|Hn]%elem_of_cons; [|by apply elem_of_nil in Hn]. intros [[= <-]|?]; [|done].
    destruct Hres as [(k & Hk) _]. destruct (inv_type _ _ Iq' _ _ Hk) as [<- Ht].
    split_and!; [done|by eapply inv_tried|]. intros o Ho. by eapply inv_unreached.
  - by eapply queue_inv_shrink.
  - intros w p Hn. by apply elem_of_nil in Hn.
Qed.

Lemma inv_check_step s enabled p before after :
  inv s -> workers s = before ++ WPicked p :: after ->
  inv (worker_check enabled p (before ++ after) s).
Proof.
  intros I Hw. destruct (the_worker _ _ _ _ I Hw) as (-> & -> & Hr). destruct I as [Iq Is Iw Ih Io].
  unfold worker_check. destruct enabled; cbn [negb]; [destruct (still_pending p (queue s))|];
    split; cbn [queue starting workers attempts app]; try done; try (by rewrite ?(proj2 (sent_rest _ _)), Hr).
  - intros w p' [->|Hn]%elem_of_cons; [|by apply elem_of_nil in Hn]. intros [?|[= <-]]; [done|].
    apply (Ih (WPicked p)); [rewrite Hw; apply elem_of_cons; by left|by left].
  - intros w p' [->|Hn]%elem_of_cons; [|by apply elem_of_nil in Hn]. by intros [?|?].
  - eapply queue_inv_shrink; [exact Iq|apply sent_rest|]. by intros k p' [Hp _]%sent_pending.
  - intros _. left. by rewrite (proj2 (sent_rest _ _)).
  - intros w p' [->|Hn]%elem_of_cons; [|by apply elem_of_nil in Hn]. by intros [?|?].
Qed.

Lemma inv_sent_step s o p before after :
  inv s -> workers s = before ++ WSending p :: after ->
  inv (worker_sent o p (before ++ after) s).
Proof.
  intros I Hw. destruct (the_worker _ _ _ _ I Hw) as (-> & -> & Hr). destruct I as [Iq Is Iw Ih Io].
  destruct (Ih (WSending p) p) as (Ht & _ & Hno); [rewrite Hw; apply elem_of_cons; by left|by right|].
  assert (forall q, queue_inv q (attempts s) -> queue_inv (sent p q) (attempts s)) as Hsent.
  { intros q Hq. eapply queue_inv_shrink; [exact Hq|apply sent_rest|]. by intros k p' [Hp _]%sent_pending. }
  assert (forall k, pending (sent p (queue s)) !! k <> Some p) as Hgone.
  { intros k [Hp Hne]%sent_pending. destruct (inv_type _ _ Iq _ _ Hp) as [<- _]. by apply Hne. }
  unfold worker_sent. split; cbn [queue starting workers attempts app].
  - destruct o; [by apply queue_inv_deliver|by apply queue_inv_attempt|..]; apply queue_inv_attempt; auto; done.
  - destruct o; rewrite ?(proj2 (sent_rest _ _)); cbn; by rewrite Hr.
  - intros _. left. destruct o; rewrite ?(proj2 (sent_rest _ _)); exact Hr.
  - intros w p' [->|Hn]%elem_of_cons; [|by apply elem_of_nil in Hn]. by intros [?|?].
  - by apply once_cons.
Qed.

Lemma step_inv s s' : inv s -> step s s' -> inv s'.
Proof.
  intros I H. destruct H; eauto using inv_dispatch, inv_start, inv_wake_step, inv_check_step, inv_sent_step.
Qed.

Lemma reachable_inv s : rtc step system0 s -> inv s.
Proof. revert s. apply rtc_ind_r; [apply inv0|]. intros y z _ Hs I. by eapply step_inv. Qed.

(** ** What the users get *)

(** C4: A push that may have reached the server is never sent again: in every
    interleaving of dispatches and the retry worker, at most one attempt of a
    push has an outcome that may have arrived. *)
Theorem push_at_most_once s p :
  rtc step system0 s -> (length (arrivals p (attempts s)) <= 1)%nat.
Proof. intros H. apply inv_once. by apply reachable_inv. Qed.

(** C37: At most one retry worker runs, and none is lost: while a push is kept, a
    worker is running or the dispatch that recorded it is about to start one. *)
Theorem push_worker_live s :
  rtc step system0 s ->
  (length (workers s) <= 1)%nat
  /\ (pending (queue s) <> ∅ -> workers s <> [] \/ starting s <> []).
Proof.
  intros H%reachable_inv. pose proof (inv_single _ H) as Hl. split.
  - rewrite Hl. destruct (worker_running (queue s)); lia.
  - intros Hne. destruct (inv_wake _ H Hne) as [Hr|?]; [|by right]. left. rewrite Hr in Hl.
    by destruct (workers s).
Qed.

(** What the worker decides to send is current: it has a type worth retrying,
    it is the push kept for its type, and no push of that type that started at
    the same time or later has reached the phone. *)
Theorem push_retry_current s enabled p before after p' :
  rtc step system0 s -> workers s = before ++ WPicked p :: after ->
  WSending p' ∈ workers (worker_check enabled p (before ++ after) s) ->
  p' = p /\ enabled = true /\ pending (queue s) !! notification_type p = Some p
  /\ notification_type p ∈ RETRY_TYPES
  /\ forall r, (r, SentOk) ∈ attempts s -> notification_type r = notification_type p ->
       started_at r < started_at p.
Proof.
  intros H%reachable_inv Hw Hin. destruct (the_worker _ _ _ _ H Hw) as (-> & -> & _).
  unfold worker_check in Hin. destruct enabled; cbn [negb] in Hin;
    [destruct (still_pending p (queue s)) eqn:Es|]; cbn in Hin;
    apply elem_of_cons in Hin as [Heq|Hn]; try (by apply elem_of_nil in Hn); [|discriminate Heq..].
  injection Heq as ->. unfold still_pending in Es. apply bool_decide_eq_true in Es.
  destruct (inv_queue _ H) as [I1 I2 _ _ I5]. destruct (I1 _ _ Es) as [_ Ht].
  split_and!; try done. intros r Hr Htype. destruct (I5 r Hr) as (d & Hd & Hle).
  rewrite Htype in Hd. specialize (I2 _ _ _ Es Hd). lia.
Qed.

(** ** A run: two alerts fail at boot, one is retried *)

Definition alert (kind : str) (at_ : Z) : PendingPush := mkPush [] [] None kind None at_.
Definition hot : PendingPush := alert (lit "temperature") 5.
Definition stuck : PendingPush := alert (lit "archive_error") 7.

Definition run1 : system := after_dispatch hot NeverSent 10 system0.
Definition run2 : system := start_worker [] run1.
Definition run3 : system := after_dispatch stuck NeverSent 11 run2.
Definition run4 : system := worker_wake [hot; stuck] 20 20 [] run3.
Definition run5 : system := worker_check true hot [] run4.
Definition run6 : system := worker_sent MaybeSent hot [] run5.

Lemma run4_reachable : rtc step system0 run4.
Proof.
  eapply rtc_l; [apply (step_dispatch hot NeverSent 10); intros o; apply not_elem_of_nil|].
  eapply rtc_l; [apply (step_start hot [] []); reflexivity|].
  eapply rtc_l; [apply (step_dispatch stuck NeverSent 11)|].
  { intros o H. apply list_elem_of_singleton in H. discriminate H. }
  eapply rtc_l; [apply (step_wake [hot; stuck] 20 20 [] []); [reflexivity|]|apply rtc_refl].
  vm_compute. apply Permutation_swap.
Qed.

Lemma run6_reachable : rtc step system0 run6.
Proof.
  etrans; [apply run4_reachable|].
  eapply rtc_l; [apply (step_check true hot [] []); reflexivity|].
  eapply rtc_l; [apply (step_sent MaybeSent hot [] []); reflexivity|apply rtc_refl].
Qed.

Lemma push_at_most_once_witness : (length (arrivals hot (attempts run6)) <= 1)%nat.
Proof. apply (push_at_most_once run6 hot). apply run6_reachable. Defined.

Lemma push_worker_live_witness : workers run6 <> [] \/ starting run6 <> [].
Proof.
  apply (push_worker_live run6 run6_reachable). intros H.
  assert (pending (queue run6) !! lit "archive_error" = Some stuck) as E by (vm_compute; reflexivity).
  rewrite H in E. discriminate E.
Defined.

Lemma push_retry_current_witness : pending (queue run4) !! lit "temperature" = Some hot.
Proof.
  destruct (push_retry_current run4 true hot [] [] hot) as (_ & _ & H & _);
    [apply run4_reachable | reflexivity | | exact H].
  change (WSending hot ∈ workers run5).
  assert (workers run5 = [WSending hot]) as -> by (vm_compute; reflexivity).
  apply list_elem_of_singleton. reflexivity.
Defined.
