(* ===== verification/StatusLed.v ===== *)
(** * The status LED ([crates/status_led/src/model.rs])

    The observer's state machine and the light patterns of its states. Times are
    in nanoseconds since the observer started; the inputs of a run are the
    sampled observations in order. *)

From Stdlib Require Import ZArith Lia.
From stdpp Require Import base list.
From S2P Require Import Prelude Str.

Open Scope Z_scope.

Module StatusLed.

Inductive AppPhase := AppStarting | AppReady | AppFault | AppStopping.
Inductive ArchivePhase := ArMissing | ArStarting | ArWorking | ArReady | ArFault.
Inductive Link := Unbound | LWaiting | Configured | Unknown.
Inductive State := Starting | Preparing | Waiting | Connected | Writing | Attention.

#[export] Instance archive_eq_dec : EqDecision ArchivePhase.
Proof. solve_decision. Defined.
#[export] Instance link_eq_dec : EqDecision Link.
Proof. solve_decision. Defined.
#[export] Instance state_eq_dec : EqDecision State.
Proof. solve_decision. Defined.

Record Frame := mkFrame { green : bool; red : bool }.

Record CameraStamp := mkStamp { device : Z; inode : Z; size : Z; modified_ns : Z }.

Record Observation := mkObs {
  archive : ArchivePhase; storage_ready : bool; link : Link;
  session : option str; camera : option CameraStamp; maintenance : bool;
}.

Record Model := mkModel {
  previous : option (list Z * CameraStamp); writing_until : option Z;
  missing_since : option Z; unbound_since : option Z; worker_seen : bool;
}.

Definition default_model : Model := mkModel None None None None false.

Definition secs (n : Z) : Z := n * 1000000000.

(** The two clears at the top of [observe]. *)
Definition observe_reset (o : Observation) (m : Model) : Model :=
  let present := negb (bool_decide (archive o = ArMissing)) in
  let clear := negb (bool_decide (link o = Unbound)) || negb (bool_decide (archive o = ArReady))
               || maintenance o in
  mkModel (previous m) (writing_until m) (if present then None else missing_since m)
    (if clear then None else unbound_since m) (present || worker_seen m).

(** The state before write activity, and the timers it starts. *)
Definition base_state (app : AppPhase) (o : Observation) (now : Z) (m : Model) : State * Model :=
  match app with
  | AppStarting | AppStopping => (Starting, m)
  | AppFault => (Attention, m)
  | AppReady =>
      if maintenance o && negb (bool_decide (link o = Configured)) then (Preparing, m)
      else match archive o with
           | ArFault => (Attention, m)
           | ArMissing =>
               let since := default now (missing_since m) in
               let m := mkModel (previous m) (writing_until m) (Some since) (unbound_since m) (worker_seen m) in
               (if worker_seen m || (secs 60 <=? u_sat_sub now since) then Attention else Preparing, m)
           | a =>
               if negb (storage_ready o) then (Attention, m)
               else if bool_decide (a = ArStarting) then (Preparing, m)
               else match link o with
                    | Configured => (Connected, m)
                    | LWaiting => (Waiting, m)
                    | Unknown => (Attention, m)
                    | Unbound =>
                        if bool_decide (a = ArWorking) then (Preparing, m)
                        else
                          let since := default now (unbound_since m) in
                          let m := mkModel (previous m) (writing_until m) (missing_since m) (Some since) (worker_seen m) in
                          (if secs 15 <=? u_sat_sub now since then Attention else Preparing, m)
                    end
           end
  end.

Definition same_file (a b : CameraStamp) : bool :=
  (device a =? device b) && (inode a =? inode b) && (size a =? size b).

Definition set_activity (p : option (list Z * CameraStamp)) (w : option Z) (m : Model) : Model :=
  mkModel p w (missing_since m) (unbound_since m) (worker_seen m).

(** The camera file against its previous sighting. *)
Definition track_writes (o : Observation) (now : Z) (m : Model) : Model :=
  match session o, camera o with
  | Some s, Some stamp =>
      let until :=
        match previous m with
        | Some (old_session, old) =>
            if bool_decide (old_session = s) && same_file old stamp && (modified_ns old <=? modified_ns stamp)
            then if modified_ns old <? modified_ns stamp then Some (now + secs 3) else writing_until m
            else None
        | None => None
        end in
      set_activity (Some (s, stamp)) until m
  | _, _ => set_activity None None m
  end.

Definition observe (app : AppPhase) (o : Observation) (now : Z) (m : Model) : State * Model :=
  let '(state, m) := base_state app o now (observe_reset o m) in
  if negb (bool_decide (state = Connected)) then (state, set_activity None None m)
  else
    let m := track_writes o now m in
    (match writing_until m with
     | Some until => if now <? until then Writing else state
     | None => state
     end, m).

(** [State::frame], by elapsed milliseconds. *)
Definition frame (s : State) (ms : Z) : Frame :=
  let on := match s with
            | Starting => ms mod 2000 <? 1000
            | Preparing => ms mod 500 <? 250
            | Waiting => ms mod 3000 <? 100
            | Connected => let p := ms mod 3000 in (p <? 100) || ((250 <=? p) && (p <? 350))
            | Writing => ms mod 500 <? 400
            | Attention => ms mod 3000 <? 2800
            end in
  mkFrame (on && negb (bool_decide (s = Attention)))
    (on && match s with Starting | Preparing | Attention => true | _ => false end).

(** ** Runs *)

Record sample := mkSample { s_app : AppPhase; s_obs : Observation; s_now : Z }.

Definition run (h : list sample) (m : Model) : Model :=
  foldl (fun m x => snd (observe (s_app x) (s_obs x) (s_now x) m)) m h.

(** What is shown after the last sample of a run. *)
Definition shown (h : list sample) (x : sample) : State :=
  fst (observe (s_app x) (s_obs x) (s_now x) (run h default_model)).

(** Two sightings of one camera file in one session, the second one newer. *)
Definition advanced (a b : sample) : Prop :=
  exists s sa sb, session (s_obs a) = Some s /\ session (s_obs b) = Some s
    /\ camera (s_obs a) = Some sa /\ camera (s_obs b) = Some sb
    /\ same_file sa sb = true /\ modified_ns sa < modified_ns sb.

(** The server is ready, storage and archive are fine, the car is connected. *)
Definition live (x : sample) : Prop :=
  s_app x = AppReady /\ storage_ready (s_obs x) = true /\ link (s_obs x) = Configured
  /\ (archive (s_obs x) = ArWorking \/ archive (s_obs x) = ArReady).

Lemma base_state_live app o now m :
  fst (base_state app o now m) = Connected <-> live (mkSample app o now).
Proof.
  unfold base_state, live. cbn [s_app s_obs]. split.
  - destruct app; try discriminate. destruct (maintenance o && _); [discriminate|].
    destruct (archive o) eqn:Ea; cbn [fst]; try discriminate; [destruct (_ || _); discriminate|..];
      destruct (storage_ready o); cbn; try discriminate; destruct (link o); cbn; try discriminate; auto;
      destruct (_ <=? _); discriminate.
  - intros (-> & Hs & Hl & Ha). rewrite Hl, bool_decide_true by done. rewrite andb_false_r.
    by destruct Ha as [-> | ->]; rewrite Hs.
Qed.

Lemma base_state_activity app o now m :
  let m' := snd (base_state app o now (observe_reset o m)) in
  previous m' = previous m /\ writing_until m' = writing_until m.
Proof.
  unfold base_state. destruct app; try done. destruct (maintenance o && _); [done|].
  destruct (archive o); cbn; try done; destruct (storage_ready o); cbn; try done; by destruct (link o).
Qed.

(** The activity memory after a run: the last sample is live and is the remembered
    sighting, and a write period was started by an advance since when every sample
    was live. *)
Definition remembers (h : list sample) (m : Model) : Prop :=
  (forall s st, previous m = Some (s, st) ->
     exists h' a, h = h' ++ [a] /\ live a /\ session (s_obs a) = Some s /\ camera (s_obs a) = Some st)
  /\ (forall u, writing_until m = Some u ->
     previous m <> None
     /\ exists h1 a b h2, h = h1 ++ [a; b] ++ h2 /\ advanced a b
          /\ Forall live ([a; b] ++ h2) /\ u = s_now b + secs 3).

Ltac all_live := repeat (apply Forall_cons; split; [assumption|]); by apply Forall_nil.

Lemma remembers_step h m x :
  remembers h m -> remembers (h ++ [x]) (snd (observe (s_app x) (s_obs x) (s_now x) m)).
Proof.
  intros [Hp Hw]. destruct x as [app o now]. unfold observe. cbn [s_app s_obs s_now].
  pose proof (base_state_live app o now (observe_reset o m)) as Hlive.
  pose proof (base_state_activity app o now m) as [Ep Ew].
  destruct (base_state app o now (observe_reset o m)) as [st m']. cbn [fst snd] in *.
  case_bool_decide as Est; cbn [negb]; [|split; by cbn]. apply Hlive in Est. clear Hlive.
  cbn [snd]. unfold track_writes.
  destruct (session o) as [s|] eqn:Es; [|split; by cbn]. destruct (camera o) as [stamp|] eqn:Ec; [|split; by cbn].
  split; cbn [previous writing_until set_activity].
  { intros s' st' [= <- <-]. by exists h, (mkSample app o now). }
  intros u Hu. split; [done|]. rewrite Ep in Hu.
  destruct (previous m) as [[s0 st0]|] eqn:Epm; [|discriminate Hu].
  destruct (Hp _ _ eq_refl) as (h' & a & -> & La & Hsa & Hca).
  destruct (bool_decide (s0 = s)) eqn:E1; [|discriminate Hu]. apply bool_decide_eq_true in E1 as ->.
  destruct (same_file st0 stamp) eqn:E2; [|discriminate Hu].
  destruct (modified_ns st0 <=? modified_ns stamp); [|discriminate Hu]. cbn [andb] in Hu.
  destruct (Z.ltb_spec (modified_ns st0) (modified_ns stamp)).
  - injection Hu as <-. exists h', a, (mkSample app o now), []. split_and!; [by rewrite <- app_assoc| |all_live|done].
    exists s, st0, stamp. by cbn.
  - rewrite Ew in Hu. destruct (Hw _ Hu) as (_ & h1 & a1 & b1 & h2 & Eh & Ha & HF & ->).
    exists h1, a1, b1, (h2 ++ [mkSample app o now]). split_and!; [|done| |done].
    + rewrite Eh. by rewrite <- !app_assoc.
    + rewrite app_assoc. apply Forall_app. split; [done|all_live].
Qed.

Lemma remembers_run h : remembers h (run h default_model).
Proof.
  induction h as [|x h IH] using rev_ind; [split; by cbn|].
  unfold run. rewrite foldl_app. cbn [foldl]. by apply remembers_step.
Qed.

(** The writing light is honest. It is shown only within three seconds of a
    sample that saw the camera file of the current session change, with the car
    connected and everything healthy ever since; and it is shown at once when two
    live samples in a row see such a change. *)
Theorem led_writing_honest h x :
  (shown h x = Writing ->
     exists h1 a b h2, h ++ [x] = h1 ++ [a; b] ++ h2 /\ advanced a b
       /\ Forall live ([a; b] ++ h2) /\ s_now x < s_now b + secs 3)
  /\ (forall h' a, h = h' ++ [a] -> live a -> live x -> advanced a x -> shown h x = Writing).
Proof.
  split.
  - intros Hs. unfold shown in Hs. pose proof (remembers_step h _ x (remembers_run h)) as [_ Hw].
    revert Hw Hs. unfold observe.
    destruct (base_state (s_app x) (s_obs x) (s_now x) _) as [st m'] eqn:Eb.
    destruct (bool_decide (st = Connected)) eqn:Est; cbn [negb fst snd].
    + destruct (writing_until (track_writes _ _ m')) as [u|]; [|by apply bool_decide_eq_true in Est as ->].
      destruct (Z.ltb_spec (s_now x) u) as [Hlt|]; [|by apply bool_decide_eq_true in Est as ->].
      intros Hw _. destruct (Hw u eq_refl) as (_ & h1 & a & b & h2 & E & Ha & HF & ->). by exists h1, a, b, h2.
    + intros _ ->. exfalso. revert Eb. unfold base_state.
      destruct (s_app x); try discriminate. destruct (maintenance _ && _); [discriminate|].
      destruct (archive (s_obs x)); cbn; try discriminate; [destruct (_ || _); discriminate|..];
        destruct (storage_ready _); cbn; try discriminate; destruct (link _); cbn; try discriminate;
        destruct (_ <=? _); discriminate.
  - intros h' a -> La Lx (s & sa & sb & Hsa & Hsb & Hca & Hcb & Hf & Hlt).
    unfold shown, run. rewrite foldl_app. cbn [foldl]. fold (run h' default_model).
    generalize (run h' default_model). intros m. destruct a as [app o now], x as [app' o' now'].
    cbn [s_app s_obs s_now] in *.
    assert (previous (snd (observe app o now m)) = Some (s, sa)) as Hp.
    { unfold observe. pose proof (proj2 (base_state_live app o now (observe_reset o m)) La) as Hb.
      destruct (base_state app o now _) as [st m1]. cbn in Hb. subst st. cbn.
      unfold track_writes. by rewrite Hsa, Hca. }
    generalize dependent (snd (observe app o now m)). intros m1 Hp. unfold observe.
    pose proof (proj2 (base_state_live app' o' now' (observe_reset o' m1)) Lx) as Hb.
    pose proof (base_state_activity app' o' now' m1) as [Ep _].
    destruct (base_state app' o' now' _) as [st m2]. cbn in Hb, Ep. subst st. cbn.
    unfold track_writes. rewrite Hsb, Hcb, Ep, Hp. cbn.
    rewrite (bool_decide_true (s = s)), Hf by done.
    destruct (Z.leb_spec (modified_ns sa) (modified_ns sb)); [|lia].
    destruct (Z.ltb_spec (modified_ns sa) (modified_ns sb)); [|lia].
    change (bool_decide (Connected = Connected)) with true. cbn [negb andb set_activity writing_until fst].
    destruct (Z.ltb_spec now' (now' + secs 3)) as [_|Hge]; [reflexivity|]. unfold secs in Hge. lia.
Qed.

Definition seen (mtime now : Z) : sample :=
  mkSample AppReady (mkObs ArReady true Configured (Some (lit "udc")) (Some (mkStamp 1 7 1000 mtime)) false) now.

Lemma led_writing_honest_witness : shown [seen 10 0] (seen 11 500) = Writing.
Proof.
  apply (led_writing_honest [seen 10 0] (seen 11 500)) with (h' := []) (a := seen 10 0);
    [reflexivity | repeat split; by right.. |].
  exists (lit "udc"), (mkStamp 1 7 1000 10), (mkStamp 1 7 1000 11). repeat split.
Defined.

(** No two states look the same: their patterns differ within three seconds. *)
Lemma frames_distinct s s' : s <> s' -> exists ms, 0 <= ms < 3000 /\ frame s ms <> frame s' ms.
Proof.
  intros Hne. assert (frame s 300 <> frame s' 300 \/ frame s 1100 <> frame s' 1100 \/ frame s 420 <> frame s' 420
    \/ frame s 0 <> frame s' 0 \/ frame s 1450 <> frame s' 1450) as H.
  { destruct s, s'; try done; vm_compute; intuition congruence. }
  destruct H as [?|[?|[?|[?|?]]]]; [exists 300|exists 1100|exists 420|exists 0|exists 1450]; (split; [lia|done]).
Qed.

End StatusLed.
