(* ===== verification/TtlCache.v ===== *)
(** * Stale-while-revalidate cache ([crates/api/src/ttl_cache.rs])

    The cache's operations under its mutex, then [get] as the state machine it
    compiles to: every acquisition of the state mutex, of the refresh lock and
    every await point is one step, and steps of any number of requests,
    background refreshes, invalidations and writes of the data interleave. A
    request's future may be dropped at any of its await points (the client went
    away); a load it has handed to [spawn_blocking] then runs on.
    Instants and durations are in nanoseconds. *)

From Stdlib Require Import ZArith Lia.
From stdpp Require Import base gmap.
From S2P Require Import Prelude.

Open Scope Z_scope.

Module TtlCache.
Section Cache.
Context {K T : Type} `{EqDecision K}.

Record State := mkState { generation : Z; slot : option (K * Z * T) }.

Definition new : State := mkState 0 None.

Definition store_if_current (gen : Z) (key : K) (value : T) (now : Z) (st : State) : State :=
  if generation st =? gen then mkState (generation st) (Some (key, now, value)) else st.

Definition clear (st : State) : State := mkState (u64 (generation st + 1)) None.

Definition fresh (ttl : Z) (key : K) (now : Z) (st : State) : option T :=
  match slot st with
  | Some (k, at_, v) => if bool_decide (k = key) && (u_sat_sub now at_ <? ttl) then Some v else None
  | None => None
  end.

Definition stale (key : K) (st : State) : option T :=
  match slot st with
  | Some (k, _, v) => if bool_decide (k = key) then Some v else None
  | None => None
  end.

(** ** [get], step by step *)

(** Where a request (or the refresh it spawned) stands. *)
Inductive pc :=
| CheckFresh                          (* before the first [fresh] *)
| CheckStale                          (* before [stale] *)
| TryLock (served : T)                (* before [refreshing.try_lock] *)
| SpawnRefresh (served : T)           (* holds the lock, before the generation is read *)
| AwaitLock                           (* at [refreshing.lock().await] *)
| CheckFreshLocked                    (* holds the lock *)
| ReadGeneration                      (* holds the lock *)
| Loading (gen : Z)                   (* holds the lock, [load] is running *)
| Loaded (gen : Z) (value : option T) (* holds the lock, before the store *)
| Leaving (answer : option T)         (* holds the lock, about to drop it *)
| Done (answer : option T)
| Detached                            (* future dropped, its [load] still running *)
| Dropped.                            (* future dropped *)

(** [t_since] and [t_ver] are not in the program: the version of the data the
    last invalidation covered when the request came in, and the version its
    load saw. [t_background] marks a refresh spawned on the runtime, which no
    client can drop. *)
Record task := mkTask { t_key : K; t_pc : pc; t_since : nat; t_ver : nat; t_background : bool }.

Definition at_pc (p : pc) (t : task) : task := mkTask (t_key t) p (t_since t) (t_ver t) (t_background t).

(** The process: cache, clock, refresh lock, requests; the data's [version]
    counts its writes, [covered] is the version at the last [clear], [clears]
    counts them, [slot_ver] is the version the cached value was loaded from. *)
Record system := mkSystem {
  cache : State; clock : Z; refreshing : option nat; tasks : gmap nat task;
  version : nat; covered : nat; clears : Z; slot_ver : nat;
}.

Definition with_task (id : nat) (t : task) (s : system) : system :=
  mkSystem (cache s) (clock s) (refreshing s) (<[id := t]> (tasks s))
    (version s) (covered s) (clears s) (slot_ver s).
Definition with_lock (l : option nat) (s : system) : system :=
  mkSystem (cache s) (clock s) l (tasks s) (version s) (covered s) (clears s) (slot_ver s).

(** One step of task [id]. [spawned] names a background refresh, [outcome] says
    whether a load succeeds, [query] is what it reads. *)
Definition run (ttl : Z) (query : nat -> K -> T) (id spawned : nat) (outcome : bool) (s : system) : option system :=
  match tasks s !! id with
  | None => None
  | Some t =>
      let go p := with_task id (at_pc p t) s in
      match t_pc t with
      | CheckFresh =>
          Some (go match fresh ttl (t_key t) (clock s) (cache s) with Some v => Done (Some v) | None => CheckStale end)
      | CheckStale =>
          Some (go match stale (t_key t) (cache s) with Some v => TryLock v | None => AwaitLock end)
      | TryLock v =>
          match refreshing s with
          | None => Some (with_lock (Some id) (go (SpawnRefresh v)))
          | Some _ => Some (go (Done (Some v)))
          end
      | SpawnRefresh v =>
          match tasks s !! spawned with
          | Some _ => None
          | None =>
              Some (with_lock (Some spawned)
                (with_task spawned (mkTask (t_key t) (Loading (generation (cache s))) (t_since t) (t_ver t) true)
                   (go (Done (Some v)))))
          end
      | AwaitLock =>
          match refreshing s with
          | None => Some (with_lock (Some id) (go CheckFreshLocked))
          | Some _ => None
          end
      | CheckFreshLocked =>
          Some (go match fresh ttl (t_key t) (clock s) (cache s) with Some v => Leaving (Some v) | None => ReadGeneration end)
      | ReadGeneration => Some (go (Loading (generation (cache s))))
      | Loading g =>
          let value := if outcome then Some (query (version s) (t_key t)) else None in
          Some (with_task id (mkTask (t_key t) (Loaded g value) (t_since t) (version s) (t_background t)) s)
      | Loaded g value =>
          let s' := go (Leaving value) in
          match value with
          | Some v =>
              Some (mkSystem (store_if_current g (t_key t) v (clock s) (cache s)) (clock s') (refreshing s')
                      (tasks s') (version s') (covered s') (clears s')
                      (if generation (cache s) =? g then t_ver t else slot_ver s))
          | None => Some s'
          end
      | Leaving r => Some (with_lock None (go (Done r)))
      | Detached => Some (go Dropped)
      | Done _ | Dropped => None
      end
  end.

(** Dropping a request's future where it is suspended: at the first poll, at
    the lock, or at the load, before or after the load has finished. The guard
    is dropped with it; the blocking load is not stopped. *)
Definition drop_future (id : nat) (s : system) : option system :=
  match tasks s !! id with
  | Some t =>
      if t_background t then None
      else match t_pc t with
           | CheckFresh | AwaitLock => Some (with_task id (at_pc Dropped t) s)
           | Loading _ => Some (with_lock None (with_task id (at_pc Detached t) s))
           | Loaded _ _ => Some (with_lock None (with_task id (at_pc Dropped t) s))
           | _ => None
           end
  | None => None
  end.

Inductive step (ttl : Z) (query : nat -> K -> T) : system -> system -> Prop :=
| step_run id spawned outcome s s' :
    run ttl query id spawned outcome s = Some s' -> step ttl query s s'
| step_drop id s s' : drop_future id s = Some s' -> step ttl query s s'
| step_call id key s :
    tasks s !! id = None ->
    step ttl query s (with_task id (mkTask key CheckFresh (covered s) 0 false) s)
| step_tick dt s :
    0 <= dt ->
    step ttl query s (mkSystem (cache s) (clock s + dt) (refreshing s) (tasks s) (version s) (covered s)
                        (clears s) (slot_ver s))
| step_write s :
    step ttl query s (mkSystem (cache s) (clock s) (refreshing s) (tasks s) (S (version s)) (covered s)
                        (clears s) (slot_ver s))
| step_clear s :
    step ttl query s (mkSystem (clear (cache s)) (clock s) (refreshing s) (tasks s) (version s) (version s)
                        (clears s + 1) (slot_ver s)).

Definition start : system := mkSystem new 0 None ∅ 0 0 0 0.

Definition reachable (ttl : Z) (query : nat -> K -> T) (s : system) : Prop := rtc (step ttl query) start s.

End Cache.
Arguments State : clear implicits.
Arguments pc : clear implicits.
Arguments task : clear implicits.
Arguments system : clear implicits.
End TtlCache.
