(* ===== verification/TtlCacheSpec.v ===== *)
(** * The cache never serves data older than an invalidation

    An invariant of the interleaved system, by induction on its steps. The
    generation wraps at 64 bits, so the results hold for runs with fewer than
    [2^64] invalidations. *)

From Stdlib Require Import ZArith Lia.
From stdpp Require Import base gmap.
From S2P Require Import Prelude TtlCache.

Import TtlCache.
Open Scope Z_scope.

Section Invariant.
Context {K T : Type} `{EqDecision K} (ttl : Z) (query : nat -> K -> T).
Implicit Types (s : system K T) (t : task K T).

(** [v] is what some version from [since] on held for [key]. *)
Definition recent (since : nat) (s : system K T) (key : K) (v : T) : Prop :=
  exists ver, (since <= ver <= version s)%nat /\ v = query ver key.

(** A load that captured generation [g] may still publish only if nothing was
    invalidated since. *)
Definition captured (s : system K T) (g : Z) (fits : Prop) : Prop :=
  exists c, g = u64 c /\ 0 <= c <= clears s /\ (c = clears s -> fits).

Definition holds_lock (p : pc T) : bool :=
  match p with
  | SpawnRefresh _ | CheckFreshLocked | ReadGeneration | Loading _ | Loaded _ _ | Leaving _ => true
  | _ => false
  end.

Definition task_ok (s : system K T) (t : task K T) : Prop :=
  (t_since t <= covered s)%nat /\
  match t_pc t with
  | TryLock v | SpawnRefresh v | Done (Some v) | Leaving (Some v) => recent (t_since t) s (t_key t) v
  | Loading g => captured s g True
  | Loaded g value =>
      (t_since t <= t_ver t <= version s)%nat
      /\ captured s g (covered s <= t_ver t)%nat
      /\ (forall v, value = Some v -> v = query (t_ver t) (t_key t))
  | _ => True
  end.

Definition slot_ok (s : system K T) : Prop :=
  match slot (cache s) with
  | Some (k, _, v) => (covered s <= slot_ver s <= version s)%nat /\ v = query (slot_ver s) k
  | None => True
  end.

Record inv (s : system K T) : Prop := {
  inv_gen : generation (cache s) = u64 (clears s);
  inv_clears : 0 <= clears s;
  inv_covered : (covered s <= version s)%nat;
  inv_slot : slot_ok s;
  inv_tasks : forall id t, tasks s !! id = Some t -> task_ok s t;
  inv_lock : forall id t, tasks s !! id = Some t -> holds_lock (t_pc t) = true -> refreshing s = Some id;
}.

Lemma recent_mono s s' since key v : (version s <= version s')%nat -> recent since s key v -> recent since s' key v.
Proof. intros ? (ver & ? & ->). exists ver. split; [lia|done]. Qed.

(** Tasks that do not move stay well-formed. *)
Lemma task_ok_mono s s' t :
  (version s <= version s')%nat -> (covered s <= covered s')%nat ->
  clears s <= clears s' -> (clears s = clears s' -> covered s = covered s') ->
  task_ok s t -> task_ok s' t.
Proof.
  intros Hv Hc Hn He [Hs H]. split; [lia|].
  destruct (t_pc t) as [| |v|v| | | |g|g r|[v|]|[v|]| |]; try done; try (by eapply recent_mono).
  - destruct H as (c & -> & ? & _). exists c. split_and!; [done|lia|lia|done].
  - destruct H as (? & (c & -> & ? & Hf) & ?). split_and!; [lia|lia| |done].
    exists c. split_and!; [done|lia|lia|]. intros ->. rewrite <- He by lia. apply Hf. lia.
Qed.

(** What a cached value is worth to a request. *)
Lemma slot_recent s t v :
  inv s -> (t_since t <= covered s)%nat -> stale (t_key t) (cache s) = Some v -> recent (t_since t) s (t_key t) v.
Proof.
  intros Hi Ht. unfold stale. pose proof (inv_slot _ Hi) as Hs. unfold slot_ok in Hs.
  destruct (slot (cache s)) as [[[k a] w]|]; [|done]. case_bool_decide; [|done]. intros [= ->]. subst.
  exists (slot_ver s). destruct Hs as [? ->]. split; [lia|done].
Qed.

Lemma fresh_stale key now (st : State K T) v : fresh ttl key now st = Some v -> stale key st = Some v.
Proof. unfold fresh, stale. destruct (slot st) as [[[k a] w]|]; [|done]. by case_bool_decide; cbn; [destruct (_ <? _)|]. Qed.

(** Moving one task: the rest of the system is the same. *)
Lemma inv_move s id t t' l' :
  inv s -> tasks s !! id = Some t -> task_ok s t' ->
  (holds_lock (t_pc t') = true -> l' = Some id) ->
  (l' = refreshing s \/ refreshing s = None \/ holds_lock (t_pc t) = true) ->
  inv (with_lock l' (with_task id t' s)).
Proof.
  intros Hi Ht Hok Hl Hlock. pose proof (inv_lock _ Hi) as Hown. destruct Hi. constructor; try done; cbn.
  - intros id' u. destruct (decide (id' = id)) as [->|Hne]; [rewrite lookup_insert_eq; by intros [= <-]|].
    rewrite lookup_insert_ne by done. apply inv_tasks0.
  - intros id' u. destruct (decide (id' = id)) as [->|Hne]; [rewrite lookup_insert_eq; by intros [= <-]|].
    rewrite lookup_insert_ne by done. intros Hu Hh. pose proof (Hown _ _ Hu Hh).
    destruct Hlock as [->|[Hn|Hh2]]; [done|congruence|]. pose proof (Hown _ _ Ht Hh2). congruence.
Qed.

Lemma inv_spawn s id t l' :
  inv s -> tasks s !! id = None -> task_ok s t ->
  (holds_lock (t_pc t) = true -> l' = Some id) -> (l' = refreshing s \/ refreshing s = None) ->
  inv (with_lock l' (with_task id t s)).
Proof.
  intros Hi Ht Hok Hl Hlock. destruct Hi. constructor; try done; cbn.
  - intros id' u. destruct (decide (id' = id)) as [->|Hne]; [rewrite lookup_insert_eq; by intros [= <-]|].
    rewrite lookup_insert_ne by done. apply inv_tasks0.
  - intros id' u. destruct (decide (id' = id)) as [->|Hne]; [rewrite lookup_insert_eq; by intros [= <-]|].
    rewrite lookup_insert_ne by done. intros Hu Hh. pose proof (inv_lock0 _ _ Hu Hh).
    destruct Hlock as [->|Hn]; congruence.
Qed.

Lemma captured_now s : inv s -> captured s (generation (cache s)) True.
Proof. intros []. exists (clears s). split_and!; [done|done|lia|done]. Qed.

(** Publication: within the bound, a matching generation means that nothing was
    invalidated since the load began. *)
Lemma inv_publish s id t g v :
  inv s -> clears s < 2 ^ 64 -> tasks s !! id = Some t -> t_pc t = Loaded g (Some v) ->
  slot_ok (mkSystem (store_if_current g (t_key t) v (clock s) (cache s)) (clock s) (refreshing s) (tasks s)
             (version s) (covered s) (clears s) (if generation (cache s) =? g then t_ver t else slot_ver s)).
Proof.
  intros Hi Hb Ht Hp. destruct (inv_tasks _ Hi _ _ Ht) as [_ Hok]. rewrite Hp in Hok.
  destruct Hok as (Hver & (c & -> & Hc & Hf) & Hv). unfold slot_ok, store_if_current. cbn [cache].
  destruct (Z.eqb_spec (generation (cache s)) (u64 c)) as [E|E]; [|apply (inv_slot _ Hi)].
  cbn. rewrite (inv_gen _ Hi) in E. unfold u64, wrap in E. rewrite !Z.mod_small in E by lia.
  split; [|by apply Hv]. split; [apply Hf; lia|lia].
Qed.

Lemma run_inv s id spawned outcome s' :
  inv s -> clears s < 2 ^ 64 -> run ttl query id spawned outcome s = Some s' -> inv s'.
Proof.
  intros Hi Hb. unfold run. destruct (tasks s !! id) as [t|] eqn:Ht; [|done].
  destruct (inv_tasks _ Hi _ _ Ht) as [Hsince Hok]. pose proof (inv_lock _ Hi _ _ Ht) as Hl.
  destruct (t_pc t) as [| |v|v| | | |g|g r|r|r| |] eqn:Hp; cbn [holds_lock] in Hl.
  - intros [= <-]. apply (inv_move s id t _ (refreshing s)); auto; destruct (fresh _ _ _ _) eqn:E; try done.
    split; [done|]. cbn. by eapply slot_recent, fresh_stale.
  - intros [= <-]. apply (inv_move s id t _ (refreshing s)); auto; destruct (stale _ _) eqn:E; try done.
    split; [done|]. cbn. by eapply slot_recent.
  - destruct (refreshing s) eqn:El; intros [= <-].
    + apply (inv_move s id t _ (refreshing s)); auto; done.
    + apply (inv_move s id t _ (Some id)); auto; done.
  - destruct (tasks s !! spawned) eqn:Hs; [done|]. intros [= <-].
    apply (inv_spawn (with_lock None (with_task id (at_pc (Done (Some v)) t) s))).
    + apply (inv_move s id t); auto; [done..|]. rewrite Hp. auto.
    + cbn. rewrite lookup_insert_ne; [done|congruence].
    + split; [done|]. apply (captured_now s Hi).
    + done.
    + by right.
  - destruct (refreshing s) eqn:El; [done|]. intros [= <-]. apply (inv_move s id t _ (Some id)); auto; done.
  - intros [= <-]. apply (inv_move s id t _ (refreshing s)); auto; destruct (fresh _ _ _ _) eqn:E; try done.
    split; [done|]. cbn. by eapply slot_recent, fresh_stale.
  - intros [= <-]. apply (inv_move s id t _ (refreshing s)); auto. split; [done|].
    apply (captured_now s Hi).
  - intros [= <-]. apply (inv_move s id t _ (refreshing s)); auto. split; [done|]. cbn.
    pose proof (inv_covered _ Hi). destruct Hok as (c & -> & ? & _). split_and!; try lia.
    + exists c. split_and!; [done|lia|lia|done].
    + destruct outcome; [by intros ? [= <-]|done].
  - assert (inv (with_lock (refreshing s) (with_task id (at_pc (Leaving r) t) s))) as Hm.
    { apply (inv_move s id t); auto. split; [done|]. cbn. destruct r as [v|]; [|done].
      destruct Hok as (? & _ & Hv). exists (t_ver t). by rewrite (Hv v eq_refl). }
    destruct r as [v|]; intros [= <-]; [|exact Hm].
    pose proof (inv_publish s id t g v Hi Hb Ht Hp) as Hslot. destruct Hm. constructor; try done.
    unfold store_if_current. cbn. by destruct (_ =? g).
  - intros [= <-]. apply (inv_move s id t _ None); auto; [|done|by rewrite Hp; auto]. split; [done|]. by destruct r.
  - done.
  - intros [= <-]. apply (inv_move s id t _ (refreshing s)); auto; done.
  - done.
Qed.

(** Dropping a request keeps the invariant: the lock it frees was its own. *)
Lemma drop_inv s id s' : inv s -> drop_future id s = Some s' -> inv s'.
Proof.
  intros Hi. unfold drop_future. destruct (tasks s !! id) as [t|] eqn:Ht; [|done].
  destruct (t_background t); [done|]. destruct (inv_tasks _ Hi _ _ Ht) as [Hsince _].
  destruct (t_pc t) eqn:Hp; try done; intros [= <-].
  1-2: apply (inv_move s id t _ (refreshing s)); auto; done.
  all: apply (inv_move s id t _ None); auto; [done|done|rewrite Hp; auto].
Qed.

Lemma cache_step_inv s s' : clears s' < 2 ^ 64 -> step ttl query s s' -> inv s -> inv s'.
Proof.
  intros Hb Hst Hi. destruct Hst as [id spawned outcome s s' Hr|id s s' Hr|id key s Hn|dt s Hd|s|s].
  - assert (clears s' = clears s) as Hc; [|eapply run_inv; [done|lia|done]].
    unfold run in Hr. repeat case_match; simplify_eq; done.
  - by eapply drop_inv.
  - apply (inv_spawn s id _ (refreshing s)); auto; [|done]. split; [cbn; lia|done].
  - destruct Hi. constructor; done.
  - destruct Hi. constructor; try done; cbn; [lia| |].
    + unfold slot_ok in *. cbn. destruct (slot _) as [[[]]|]; [|done]. destruct inv_slot0. split; [lia|done].
    + intros id t Ht. eapply task_ok_mono; [..|by eapply inv_tasks0]; cbn; lia.
  - destruct Hi. constructor; cbn; try done; [|lia|].
    + rewrite inv_gen0. unfold u64, wrap. by rewrite Zplus_mod_idemp_l.
    + intros id t Ht. eapply task_ok_mono; [..|by eapply inv_tasks0]; cbn; lia.
Qed.

Lemma clears_mono s s' : step ttl query s s' -> clears s <= clears s'.
Proof. intros []; cbn; try lia; unfold run, drop_future in *; repeat case_match; simplify_eq; cbn; lia. Qed.

Lemma cache_reachable_inv s : reachable ttl query s -> clears s < 2 ^ 64 -> inv s.
Proof.
  unfold reachable. revert s. apply (rtc_ind_r (fun s => clears s < 2 ^ 64 -> inv s)).
  - intros _. constructor; try done.
  - intros s1 s2 _ Hst IH Hb. eapply cache_step_inv; [done|done|]. apply IH. apply clears_mono in Hst. lia.
Qed.

End Invariant.

(** C22: reads see the writes an invalidation covered. In every interleaving of
    requests (dropped at any await point or not), background refreshes, writes
    and invalidations (fewer than [2^64] of these), an answer of [get] for a key
    is what some version of the data held for that key, and that version is no
    older than the last invalidation before the request came in; the cached value
    is never older than the last invalidation, even when a load that began before
    it finishes after it; and at most one load runs whose value can still be
    published. *)
Theorem get_sees_cleared_writes {K T : Type} `{EqDecision K} (ttl : Z) (query : nat -> K -> T) (s : system K T) :
  reachable ttl query s -> clears s < 2 ^ 64 ->
  (forall id t v, tasks s !! id = Some t -> t_pc t = Done (Some v) ->
     exists ver, (t_since t <= ver <= version s)%nat /\ v = query ver (t_key t))
  /\ (forall k at_ v, slot (cache s) = Some (k, at_, v) ->
     exists ver, (covered s <= ver <= version s)%nat /\ v = query ver k)
  /\ (forall id1 id2 t1 t2 g1 g2, tasks s !! id1 = Some t1 -> tasks s !! id2 = Some t2 ->
     t_pc t1 = Loading g1 -> t_pc t2 = Loading g2 -> id1 = id2).
Proof.
  intros Hr Hb. pose proof (cache_reachable_inv ttl query s Hr Hb) as Hi. split_and!.
  - intros id t v Ht Hp. destruct (inv_tasks _ _ Hi _ _ Ht) as [_ H]. by rewrite Hp in H.
  - intros k a v E. pose proof (inv_slot _ _ Hi) as H. unfold slot_ok in H. rewrite E in H. by exists (slot_ver s).
  - intros id1 id2 t1 t2 g1 g2 H1 H2 E1 E2.
    pose proof (inv_lock _ _ Hi _ _ H1 ltac:(by rewrite E1)). pose proof (inv_lock _ _ Hi _ _ H2 ltac:(by rewrite E2)).
    congruence.
Qed.

(** Two loads at once: the client of a cold miss goes away while its load runs,
    which frees the refresh lock, and the next request starts another. *)
Example two_loads :
  exists s : system Z Z,
    reachable 60 (fun ver key => key + Z.of_nat ver) s
    /\ t_pc <$> tasks s !! 0%nat = Some Detached /\ t_pc <$> tasks s !! 1%nat = Some (Loading 0).
Proof.
  eexists. split.
  - eapply rtc_l; [apply (step_call _ _ 0%nat 7); reflexivity|].
    do 5 (eapply rtc_l; [apply (step_run _ _ 0%nat 2%nat true); vm_compute; reflexivity|]).
    eapply rtc_l; [apply (step_drop _ _ 0%nat); vm_compute; reflexivity|].
    eapply rtc_l; [apply (step_call _ _ 1%nat 7); reflexivity|].
    do 5 (eapply rtc_l; [apply (step_run _ _ 1%nat 2%nat true); vm_compute; reflexivity|]).
    apply rtc_refl.
  - split; reflexivity.
Qed.

(** A load that read the data before a write and its invalidation finishes
    after them: its request is answered, the cache stays empty. *)
Lemma clear_race :
  exists s : system Z Z,
    reachable 60 (fun ver key => key + Z.of_nat ver) s
    /\ t_pc <$> tasks s !! 0%nat = Some (Done (Some 7)) /\ clears s = 1 /\ slot (cache s) = None.
Proof.
  eexists. split.
  - eapply rtc_l; [apply (step_call _ _ 0%nat 7); reflexivity|].
    do 6 (eapply rtc_l; [apply (step_run _ _ 0%nat 1%nat true); vm_compute; reflexivity|]).
    eapply rtc_l; [apply step_write|]. eapply rtc_l; [apply step_clear|].
    do 2 (eapply rtc_l; [apply (step_run _ _ 0%nat 1%nat true); vm_compute; reflexivity|]).
    apply rtc_refl.
  - split; [reflexivity|]. split; reflexivity.
Defined.

Lemma get_sees_cleared_writes_witness :
  exists s : system Z Z,
    t_pc <$> tasks s !! 0%nat = Some (Done (Some 7)) /\ clears s = 1 /\ slot (cache s) = None
    /\ forall id t v, tasks s !! id = Some t -> t_pc t = Done (Some v) ->
         exists ver, (t_since t <= ver <= version s)%nat /\ v = t_key t + Z.of_nat ver.
Proof.
  destruct clear_race as (s & Hr & Hp & Hc & Hs). exists s. split; [exact Hp|]. split; [exact Hc|]. split; [exact Hs|].
  apply (get_sees_cleared_writes _ _ _ Hr). rewrite Hc. reflexivity.
Defined.
