(* ===== verification/KeepAccessory.v ===== *)
(** * Accessory-power policy ([crates/tesla_telemetry/src/keep_accessory.rs])

    The whole tick of the policy that switches the car's accessory outlet: home
    and charge bookkeeping, the decision, the one-shot pushes and the send with
    its failure streak. A tick takes its readings of the clock as a function of
    their position in the body; its effects (pushes, heartbeat lines, sends) are
    the list it returns, in order. Instants and durations are in nanoseconds. *)

From Stdlib Require Import ZArith Lia.
From stdpp Require Import base list.
From S2P Require Import Prelude Float Types Calc Str.

Open Scope Z_scope.

Module KeepAccessory.

Definition NANOS : Z := 1000000000.
Definition ARCHIVE_START_GRACE : Z := 5 * 60 * NANOS.
Definition CHARGE_HOLD_MAX : Z := 18 * 60 * 60 * NANOS.
Definition CHARGE_HOLD_HEARTBEAT : Z := 5 * 60 * NANOS.
Definition FAIL_NOTIFY_STREAK : Z := 4.
Definition U32_MAX : Z := 2 ^ 32 - 1.

Inductive ChargingState :=
| Unknown | Disconnected | NoPower | Starting | Charging | Complete | Stopped | Calibrating.

#[export] Instance charging_eq_dec : EqDecision ChargingState.
Proof. solve_decision. Defined.

Record KeepAccessoryConfig := mkConfig {
  enabled : bool; home_lat : option Z; home_lon : option Z; home_radius_m : Z;
  hold_for_charge : bool; charge_grace_min : Z;
}.

Record KeepAccessoryState := mkState {
  last_sent : option bool; home_arrival : option Z; archive_seen_active : bool;
  offline_notified : bool; coverage_notified : bool; send_fail_streak : Z; fail_notified : bool;
  charge_hold_since : option Z; charge_complete_at : option Z; charge_hb_at : option Z;
  charge_hold_notified : bool; charge_grace_notified : bool;
}.

Definition default_state : KeepAccessoryState :=
  mkState None None false false false 0 false None None None false false.

(** The body of [notify_event] by what it announces. *)
Inductive push :=
| ChargingPowerRequested
| ChargeComplete (minutes : Z)
| SentryPowerRequested
| ReleasingDevicePower (archive_seen : bool)
| KeepAccessoryIssue (desired : bool).

Inductive effect :=
| Notify (p : push)
| Heartbeat (complete : bool) (minutes : Z)
| Send (desired ok : bool).

Definition is_some {A} (o : option A) : bool := match o with Some _ => true | None => false end.
Definition elapsed (t now : Z) : Z := u_sat_sub now t.

Definition distance_m (L : libm) (asin : Z -> Z) (lat1 lon1 lat2 lon2 : Z) : Z :=
  let to_radians x := F64.mul x (F64.div PI (F64.of_Z 180)) in
  let p1 := to_radians lat1 in
  let p2 := to_radians lat2 in
  let dphi := to_radians (F64.sub lat2 lat1) in
  let dlambda := to_radians (F64.sub lon2 lon1) in
  let a := F64.add (f_powi2 L (f_sin L (F64.div dphi f2)))
             (F64.mul (F64.mul (f_cos L p1) (f_cos L p2)) (f_powi2 L (f_sin L (F64.div dlambda f2)))) in
  F64.mul (F64.mul f2 (F64.of_Z 6371000)) (asin (F64.sqrt a)).

Definition decide_desired
    (is_home parked archive_active archive_seen grace_expired hold complete_grace done_ : bool)
  : option (bool * str) :=
  if negb is_home then Some (true, lit "away from home")
  else if negb parked then None
  else if archive_active then Some (true, lit "home, archiving — holding power")
  else if hold then Some (true, lit "home, plugged in — holding for charge")
  else if complete_grace then Some (true, lit "home, charge complete — releasing soon")
  else if done_ then Some (false, lit "home, charge complete — releasing")
  else if archive_seen then Some (false, lit "home, archive finished — releasing")
  else if negb grace_expired then Some (true, lit "home, waiting for archive to start")
  else Some (false, lit "home, nothing to archive — releasing").

(** Arrival and archive bookkeeping. *)
Definition track_home (is_home parked archive_active : bool) (now : Z) (st : KeepAccessoryState)
  : KeepAccessoryState :=
  let '(arrival, seen) :=
    if is_home && parked then
      match home_arrival st with
      | None => (Some now, false)
      | Some t => (Some t, archive_seen_active st)
      end
    else (None, false) in
  mkState (last_sent st) arrival (if archive_active then true else seen) (offline_notified st)
    (coverage_notified st) (send_fail_streak st) (fail_notified st) (charge_hold_since st)
    (charge_complete_at st) (charge_hb_at st) (charge_hold_notified st) (charge_grace_notified st).

Definition cable (c : option ChargingState) : bool :=
  match c with
  | Some (Starting | Charging | Calibrating | Complete | Stopped | NoPower) => true
  | _ => false
  end.

(** Hold-start and first-complete bookkeeping; a flicker of [parked] keeps both. *)
Definition track_charge (eligible live complete : bool) (now_hold now_complete : Z)
    (st : KeepAccessoryState) : KeepAccessoryState :=
  let '(since, at_, hn, gn) :=
    if eligible then
      let '(since, at_) := match charge_hold_since st with
                           | None => (Some now_hold, None)
                           | Some t => (Some t, charge_complete_at st)
                           end in
      let at_ := if complete && negb (is_some at_) then Some now_complete else at_ in
      (since, at_, charge_hold_notified st, charge_grace_notified st)
    else if is_some (charge_hold_since st) && live
    then (charge_hold_since st, charge_complete_at st, charge_hold_notified st, charge_grace_notified st)
    else (None, None, false, false) in
  mkState (last_sent st) (home_arrival st) (archive_seen_active st) (offline_notified st)
    (coverage_notified st) (send_fail_streak st) (fail_notified st) since at_ (charge_hb_at st) hn gn.

(** The charge pushes, once each. *)
Definition charge_pushes (hold complete_grace : bool) (minutes : Z) (st : KeepAccessoryState)
  : KeepAccessoryState * list effect :=
  let h := hold && negb (charge_hold_notified st) in
  let g := complete_grace && negb (charge_grace_notified st) in
  (mkState (last_sent st) (home_arrival st) (archive_seen_active st) (offline_notified st)
     (coverage_notified st) (send_fail_streak st) (fail_notified st) (charge_hold_since st)
     (charge_complete_at st) (charge_hb_at st) (charge_hold_notified st || h) (charge_grace_notified st || g),
   (if h then [Notify ChargingPowerRequested] else []) ++ (if g then [Notify (ChargeComplete minutes)] else [])).

Definition heartbeat (hold complete_grace : bool) (grace now_due now_set now_line : Z) (st : KeepAccessoryState)
  : KeepAccessoryState * list effect :=
  let with_hb h := mkState (last_sent st) (home_arrival st) (archive_seen_active st) (offline_notified st)
     (coverage_notified st) (send_fail_streak st) (fail_notified st) (charge_hold_since st)
     (charge_complete_at st) h (charge_hold_notified st) (charge_grace_notified st) in
  if hold || complete_grace then
    let due := match charge_hb_at st with Some t => CHARGE_HOLD_HEARTBEAT <=? elapsed t now_due | None => true end in
    if due then
      (with_hb (Some now_set),
       [if complete_grace
        then Heartbeat true match charge_complete_at st with
                            | Some t => u_sat_sub grace (elapsed t now_line) / NANOS / 60 | None => 0 end
        else Heartbeat false match charge_hold_since st with
                             | Some t => elapsed t now_line / NANOS / 60 | None => 0 end])
    else (st, [])
  else (with_hb None, []).

(** The push that announces coverage away from home. *)
Definition coverage_push (is_home desired : bool) (st : KeepAccessoryState) : KeepAccessoryState * list effect :=
  let noted := if is_home then false else coverage_notified st in
  let fire := desired && negb is_home && negb noted in
  (mkState (last_sent st) (home_arrival st) (archive_seen_active st) (offline_notified st)
     (noted || fire) (send_fail_streak st) (fail_notified st) (charge_hold_since st)
     (charge_complete_at st) (charge_hb_at st) (charge_hold_notified st) (charge_grace_notified st),
   if fire then [Notify SentryPowerRequested] else []).

(** The push before power is cut. *)
Definition offline_push (desired : bool) (st : KeepAccessoryState) : KeepAccessoryState * list effect :=
  let noted := if desired then false else offline_notified st in
  let fire := negb desired && negb noted in
  (mkState (last_sent st) (home_arrival st) (archive_seen_active st) (noted || fire)
     (coverage_notified st) (send_fail_streak st) (fail_notified st) (charge_hold_since st)
     (charge_complete_at st) (charge_hb_at st) (charge_hold_notified st) (charge_grace_notified st),
   if fire then [Notify (ReleasingDevicePower (archive_seen_active st))] else []).

(** The send and what its outcome changes. *)
Definition send (desired ok : bool) (st : KeepAccessoryState) : KeepAccessoryState * list effect :=
  let with_send s k f := mkState s (home_arrival st) (archive_seen_active st) (offline_notified st)
     (coverage_notified st) k f (charge_hold_since st) (charge_complete_at st) (charge_hb_at st)
     (charge_hold_notified st) (charge_grace_notified st) in
  if ok then (with_send (Some desired) 0 false, [Send desired true])
  else
    let streak := Z.min U32_MAX (send_fail_streak st + 1) in
    let fire := (FAIL_NOTIFY_STREAK <=? streak) && negb (fail_notified st) in
    (with_send (last_sent st) streak (fail_notified st || fire),
     Send desired false :: if fire then [Notify (KeepAccessoryIssue desired)] else []).

(** What one call of [evaluate] sees. *)
Record Tick := mkTick {
  cfg : KeepAccessoryConfig; lat : option Z; lon : option Z; parked : bool; archive_active : bool;
  radio_held : bool; charging_state : option ChargingState; now : nat -> Z; send_ok : bool;
}.

(** The three charge signals after the bookkeeping. *)
Definition charge_signals (eligible : bool) (grace now_cap now_grace : Z) (st : KeepAccessoryState)
  : bool * bool * bool :=
  let hold_capped := match charge_hold_since st with Some t => CHARGE_HOLD_MAX <=? elapsed t now_cap | None => false end in
  let grace_active := match charge_complete_at st with Some t => elapsed t now_grace <? grace | None => false end in
  let done_ := eligible && (hold_capped || (is_some (charge_complete_at st) && negb grace_active)) in
  let complete_grace := eligible && negb done_ && grace_active in
  (eligible && negb done_ && negb complete_grace, complete_grace, done_).

Section Evaluate.
Context (L : libm) (asin : Z -> Z).

(** Where the car is, when the policy is on and both are known. *)
Definition position (k : Tick) : option bool :=
  if negb (enabled (cfg k)) then None
  else match home_lat (cfg k), home_lon (cfg k), lat k, lon k with
       | Some hla, Some hlo, Some la, Some lo =>
           Some (F64.le (distance_m L asin la lo hla hlo) (home_radius_m (cfg k)))
       | _, _, _, _ => None
       end.

(** The body once the position is known. *)
Definition policy (is_home : bool) (k : Tick) (st : KeepAccessoryState) : KeepAccessoryState * list effect :=
  let st := track_home is_home (parked k) (archive_active k) (now k 0%nat) st in
  let grace_expired := match home_arrival st with
                       | Some t => ARCHIVE_START_GRACE <=? elapsed t (now k 1%nat) | None => false end in
  let cable_connected := hold_for_charge (cfg k) && cable (charging_state k) in
  let eligible := hold_for_charge (cfg k) && is_home && parked k && cable_connected in
  let live := hold_for_charge (cfg k) && is_home && cable_connected in
  let complete := bool_decide (charging_state k = Some Complete) in
  let st := track_charge eligible live complete (now k 2%nat) (now k 3%nat) st in
  let grace := u64_sat_mul (charge_grace_min (cfg k)) 60 * NANOS in
  let '(hold, complete_grace, done_) := charge_signals eligible grace (now k 4%nat) (now k 5%nat) st in
  let '(st, e1) := charge_pushes hold complete_grace (charge_grace_min (cfg k)) st in
  let '(st, e2) := heartbeat hold complete_grace grace (now k 6%nat) (now k 7%nat) (now k 8%nat) st in
  match decide_desired is_home (parked k) (archive_active k) (archive_seen_active st) grace_expired
          hold complete_grace done_ with
  | None => (st, e1 ++ e2)
  | Some (desired, _) =>
      let '(st, e3) := coverage_push is_home desired st in
      if bool_decide (last_sent st = Some desired) then (st, e1 ++ e2 ++ e3)
      else if negb (radio_held k) then (st, e1 ++ e2 ++ e3)
      else
        let '(st, e4) := offline_push desired st in
        let '(st, e5) := send desired (send_ok k) st in
        (st, e1 ++ e2 ++ e3 ++ e4 ++ e5)
  end.

Definition evaluate (k : Tick) (st : KeepAccessoryState) : KeepAccessoryState * list effect :=
  match position k with
  | None => (st, [])
  | Some is_home => policy is_home k st
  end.

(** The daemon's loop: one tick after the other; the effects of each. *)
Fixpoint ticks (ks : list Tick) (st : KeepAccessoryState) : KeepAccessoryState * list (list effect) :=
  match ks with
  | [] => (st, [])
  | k :: rest =>
      let '(st, e) := evaluate k st in
      let '(st, es) := ticks rest st in (st, e :: es)
  end.

End Evaluate.
End KeepAccessory.
