(* ===== verification/KeepAccessorySpec.v ===== *)
(** * Accessory power: why it is cut, that it is released, one push per cause

    The results are over whole traces of ticks from the policy's default state:
    the bookkeeping fields are tied to the stretch of past ticks they summarise. *)

From Stdlib Require Import ZArith Lia.
From stdpp Require Import base list sets.
From S2P Require Import Prelude Float Types Calc Str KeepAccessory.

Import KeepAccessory.
Open Scope Z_scope.

Section Trace.
Context (L : libm) (asin : Z -> Z).

Notation evaluate := (evaluate L asin).
Notation ticks := (ticks L asin).
Notation position := (position L asin).

(** The state after a trace, and the effects of one more tick. *)
Definition after (ks : list Tick) : KeepAccessoryState := fst (ticks ks default_state).
Definition effects_at (ks : list Tick) (k : Tick) : list effect := snd (evaluate k (after ks)).

Lemma ticks_snoc ks k : forall st, fst (ticks (ks ++ [k]) st) = fst (evaluate k (fst (ticks ks st))).
Proof.
  induction ks as [|k' ks IH]; intros st; cbn [KeepAccessory.ticks app fst].
  - by destruct (evaluate k st).
  - destruct (evaluate k' st) as [st1 e1]. specialize (IH st1).
    destruct (ticks (ks ++ [k]) st1), (ticks ks st1). exact IH.
Qed.

Lemma after_snoc ks k : after (ks ++ [k]) = fst (evaluate k (after ks)).
Proof. apply ticks_snoc. Qed.

(** ** One tick *)

Definition cabled (k : Tick) : bool := hold_for_charge (cfg k) && cable (charging_state k).

(** Home, parked and plugged in; home and plugged in. *)
Definition eligible (is_home : bool) (k : Tick) : bool :=
  hold_for_charge (cfg k) && is_home && parked k && cabled k.
Definition live (is_home : bool) (k : Tick) : bool := hold_for_charge (cfg k) && is_home && cabled k.

(** The bookkeeping of a tick, before anything is sent. *)
Definition book (is_home : bool) (k : Tick) (st : KeepAccessoryState) : KeepAccessoryState :=
  track_charge (eligible is_home k) (live is_home k) (bool_decide (charging_state k = Some Complete))
    (now k 2%nat) (now k 3%nat) (track_home is_home (parked k) (archive_active k) (now k 0%nat) st).

Definition grace_of (k : Tick) : Z := u64_sat_mul (charge_grace_min (cfg k)) 60 * NANOS.
Definition signals (is_home : bool) (k : Tick) (st : KeepAccessoryState) : bool * bool * bool :=
  charge_signals (eligible is_home k) (grace_of k) (now k 4%nat) (now k 5%nat) (book is_home k st).
Definition expired (k : Tick) (st : KeepAccessoryState) : bool :=
  match home_arrival st with Some t => ARCHIVE_START_GRACE <=? elapsed t (now k 1%nat) | None => false end.

(** The decision of a tick. *)
Definition decision (is_home : bool) (k : Tick) (st : KeepAccessoryState) : option bool :=
  let '(hold, complete_grace, done_) := signals is_home k st in
  let st := book is_home k st in
  fst <$> decide_desired is_home (parked k) (archive_active k) (archive_seen_active st) (expired k st)
            hold complete_grace done_.

(** Everything after the bookkeeping leaves it alone. *)
Lemma policy_books is_home k st :
  let st' := fst (policy is_home k st) in let b := book is_home k st in
  home_arrival st' = home_arrival b /\ archive_seen_active st' = archive_seen_active b
  /\ charge_hold_since st' = charge_hold_since b /\ charge_complete_at st' = charge_complete_at b.
Proof.
  unfold policy. cbv zeta. fold (cabled k). fold (eligible is_home k) (live is_home k) (grace_of k).
  fold (book is_home k st). fold (signals is_home k st). destruct (signals is_home k st) as [[h g] d].
  unfold charge_pushes, heartbeat, coverage_push, offline_push, send.
  repeat (case_match; simplify_eq/=); done.
Qed.

Definition sends (es : list effect) : list (bool * bool) :=
  omap (fun e => match e with Send d ok => Some (d, ok) | _ => None end) es.
Definition pushes (es : list effect) : list push :=
  omap (fun e => match e with Notify p => Some p | _ => None end) es.

(** The command a tick sends, if any. *)
Definition attempt (is_home : bool) (k : Tick) (st : KeepAccessoryState) : option bool :=
  match decision is_home k st with
  | Some d => if bool_decide (last_sent st = Some d) || negb (radio_held k) then None else Some d
  | None => None
  end.

(** Whether a tick ends the charge hold. *)
Definition torn_down (is_home : bool) (k : Tick) (st : KeepAccessoryState) : bool :=
  negb (eligible is_home k) && negb (is_some (charge_hold_since st) && live is_home k).

Definition coverage_of (is_home : bool) (k : Tick) (st : KeepAccessoryState) : bool :=
  if is_home then negb (parked k) && coverage_notified st else true.

Definition fail_streak (st : KeepAccessoryState) : bool :=
  FAIL_NOTIFY_STREAK <=? Z.min U32_MAX (send_fail_streak st + 1).

Lemma book_flags is_home k st :
  let b := book is_home k st in let torn := torn_down is_home k st in
  charge_hold_notified b = charge_hold_notified st && negb torn
  /\ charge_grace_notified b = charge_grace_notified st && negb torn
  /\ last_sent b = last_sent st /\ coverage_notified b = coverage_notified st
  /\ offline_notified b = offline_notified st /\ fail_notified b = fail_notified st
  /\ send_fail_streak b = send_fail_streak st
  /\ home_arrival b = home_arrival (track_home is_home (parked k) (archive_active k) (now k 0%nat) st).
Proof.
  unfold book, torn_down, track_charge, track_home.
  destruct (if is_home && parked k then _ else _) as [arr seen]. cbn.
  destruct (eligible is_home k); cbn.
  - rewrite !andb_true_r. by destruct (charge_hold_since st).
  - destruct (is_some (charge_hold_since st) && live is_home k); cbn; by rewrite ?andb_true_r, ?andb_false_r.
Qed.

Lemma heartbeat_out h g grace n1 n2 n3 st :
  let '(st', es) := heartbeat h g grace n1 n2 n3 st in
  sends es = [] /\ pushes es = [] /\ last_sent st' = last_sent st /\ archive_seen_active st' = archive_seen_active st
  /\ coverage_notified st' = coverage_notified st /\ offline_notified st' = offline_notified st
  /\ fail_notified st' = fail_notified st /\ send_fail_streak st' = send_fail_streak st
  /\ charge_hold_notified st' = charge_hold_notified st /\ charge_grace_notified st' = charge_grace_notified st.
Proof.
  unfold heartbeat. destruct (h || g); [|done]. destruct (charge_hb_at st); [destruct (_ <=? _)|]; destruct g; done.
Qed.

Lemma decide_away p a s e h g d : decide_desired false p a s e h g d = Some (true, lit "away from home").
Proof. done. Qed.
Lemma decide_moving a s e h g d : decide_desired true false a s e h g d = None.
Proof. done. Qed.
Lemma decide_parked a s e h g d : is_Some (decide_desired true true a s e h g d).
Proof. unfold decide_desired. cbn. repeat case_match; done. Qed.

Lemma sends_app l1 l2 : sends (l1 ++ l2) = sends l1 ++ sends l2.
Proof. apply omap_app. Qed.
Lemma pushes_app l1 l2 : pushes (l1 ++ l2) = pushes l1 ++ pushes l2.
Proof. apply omap_app. Qed.

Lemma sends_push (c : bool) p : sends (if c then [Notify p] else []) = [].
Proof. by destruct c. Qed.
Lemma pushes_push (c : bool) p : pushes (if c then [Notify p] else []) = if c then [p] else [].
Proof. by destruct c. Qed.

Lemma noted_or (x y : bool) : x || y && negb x = x || y.
Proof. by destruct x, y. Qed.

Ltac out_case :=
  change (bool_decide (Some true = Some false)) with false; change (bool_decide (Some false = Some false)) with true;
  rewrite ?noted_or; cbn [andb orb negb app sends pushes omap list_omap];
  rewrite ?noted_or, ?orb_negb_r, ?andb_false_r; cbn [app];
  split_and!; rewrite ?app_nil_r, ?orb_true_r; try reflexivity;
  repeat match goal with |- context [if ?c then _ else _] => destruct c end; reflexivity.

(** What a tick sends and announces, and the flags it leaves. *)
Lemma policy_out is_home k st :
  let '(st', es) := policy is_home k st in
  let '(hold, complete_grace, _) := signals is_home k st in
  let torn := torn_down is_home k st in
  sends es = match attempt is_home k st with Some d => [(d, send_ok k)] | None => [] end
  /\ last_sent st' = match attempt is_home k st with Some d => if send_ok k then Some d else last_sent st | None => last_sent st end
  /\ pushes es =
     (if hold && negb (charge_hold_notified st && negb torn) then [ChargingPowerRequested] else [])
     ++ (if complete_grace && negb (charge_grace_notified st && negb torn) then [ChargeComplete (charge_grace_min (cfg k))] else [])
     ++ (if negb is_home && negb (coverage_notified st) then [SentryPowerRequested] else [])
     ++ (if bool_decide (attempt is_home k st = Some false) && negb (offline_notified st)
         then [ReleasingDevicePower (archive_seen_active (book is_home k st))] else [])
     ++ match attempt is_home k st with
        | Some d => if negb (send_ok k) && fail_streak st && negb (fail_notified st) then [KeepAccessoryIssue d] else []
        | None => []
        end
  /\ coverage_notified st' = coverage_of is_home k st
  /\ offline_notified st' = match attempt is_home k st with Some d => negb d | None => offline_notified st end
  /\ fail_notified st' = match attempt is_home k st with
                        | Some _ => negb (send_ok k) && (fail_notified st || fail_streak st)
                        | None => fail_notified st
                        end
  /\ charge_hold_notified st' = (charge_hold_notified st && negb torn) || hold
  /\ charge_grace_notified st' = (charge_grace_notified st && negb torn) || complete_grace.
Proof.
  pose proof (book_flags is_home k st) as Hb.
  unfold policy. cbv zeta. fold (cabled k). fold (eligible is_home k) (live is_home k) (grace_of k).
  fold (book is_home k st). fold (signals is_home k st). unfold attempt, decision, coverage_of, fail_streak.
  destruct (signals is_home k st) as [[h g] d]. revert Hb. generalize (book is_home k st) as b.
  generalize (torn_down is_home k st) as torn. intros torn b (E1 & E2 & E3 & E4 & E5 & E6 & E7 & E8).
  rewrite <- E1, <- E2, <- E3, <- E4, <- E5, <- E6, <- E7, <- E8. clear.
  unfold charge_pushes at 1. set (b1 := mkState _ _ _ _ _ _ _ _ _ _ _ _).
  pose proof (heartbeat_out h g (grace_of k) (now k 6%nat) (now k 7%nat) (now k 8%nat) b1) as Hh.
  destruct (heartbeat _ _ _ _ _ _ b1) as [b2 e2]. destruct Hh as (S2 & P2 & L2 & A2 & C2 & O2 & F2 & K2 & H2 & G2).
  subst b1. cbn [last_sent archive_seen_active coverage_notified offline_notified fail_notified send_fail_streak
    charge_hold_notified charge_grace_notified] in *. rewrite A2. unfold expired.
  destruct (decide_desired is_home (parked k) (archive_active k) (archive_seen_active b) _ h g d) as [[des why]|] eqn:Ed;
    cbn [fmap option_fmap option_map fst].
  - assert (is_home = false -> des = true) as Haway by (intros ->; by rewrite decide_away in Ed; injection Ed as <-).
    assert (is_home = true -> parked k = true) as Hpk
      by (intros ->; destruct (parked k); [done|by rewrite decide_moving in Ed]).
    unfold coverage_push, offline_push, send. rewrite L2.
    cbn [last_sent archive_seen_active coverage_notified offline_notified fail_notified send_fail_streak
      charge_hold_notified charge_grace_notified].
    rewrite C2, O2, F2, K2, H2, G2, A2.
    destruct (bool_decide (last_sent b = Some des)); [|destruct (radio_held k); [destruct (send_ok k)|]];
      cbn [orb negb]; (destruct is_home; [rewrite (Hpk eq_refl); clear Haway|specialize (Haway eq_refl) as ->]);
      cbn [andb orb negb last_sent archive_seen_active coverage_notified offline_notified fail_notified send_fail_streak
        charge_hold_notified charge_grace_notified];
      rewrite ?sends_app, ?pushes_app, ?sends_push, ?pushes_push, ?S2, ?P2, ?app_nil_r, <- ?app_assoc.
    all: try destruct des; out_case.
  - assert (is_home = true /\ parked k = false) as [-> ->].
    { destruct is_home; [|done]. destruct (parked k); [|done].
      edestruct decide_parked as [x Hx]. erewrite Hx in Ed. done. }
    rewrite L2, H2, G2, C2, O2, F2, sends_app, pushes_app, S2, P2, !sends_app, !pushes_app, !sends_push, !pushes_push,
      !app_nil_r. out_case.
Qed.

(** ** Traces *)

(** The trace ends with [k0 :: rest]: [k0] starts it, and all of [rest] stay. *)
Definition stretch (first stays : Tick -> bool) (ks : list Tick) (k0 : Tick) (rest : list Tick) : Prop :=
  (exists pre, ks = pre ++ k0 :: rest) /\ first k0 = true /\ Forall (fun k => stays k = true) rest.

Lemma stretch_snoc first stays ks k0 rest k :
  stretch first stays ks k0 rest -> stays k = true -> stretch first stays (ks ++ [k]) k0 (rest ++ [k]).
Proof.
  intros ([pre ->] & H0 & Hr) Hk. split_and!; [exists pre; by rewrite <- app_assoc|done|].
  apply Forall_app. split; [done|by constructor].
Qed.

Lemma stretch_new first stays ks k : first k = true -> stretch first stays (ks ++ [k]) k [].
Proof. intros H. split_and!; [by exists ks|done|constructor]. Qed.

(** Home and parked; home, parked and plugged in. A tick without a position
    changes nothing. *)
Definition home_parked (k : Tick) : bool := match position k with Some h => h && parked k | None => false end.
Definition resting (k : Tick) : bool := match position k with Some h => h && parked k | None => true end.
Definition charging_here (k : Tick) : bool := match position k with Some h => eligible h k | None => false end.
Definition plugged (k : Tick) : bool := match position k with Some h => live h k | None => true end.
Definition saw_archive (k : Tick) : bool := match position k with Some _ => archive_active k | None => false end.
Definition saw_complete (k : Tick) : bool := charging_here k && bool_decide (charging_state k = Some Complete).

Lemma eligible_live h k : eligible h k = true -> live h k = true.
Proof. unfold eligible, live. destruct (hold_for_charge (cfg k)), h, (parked k), (cabled k); done. Qed.

(** What the arrival fields remember. *)
Lemma arrival_inv ks t : home_arrival (after ks) = Some t ->
  exists k0 rest, stretch home_parked resting ks k0 rest /\ t = now k0 0%nat
    /\ (archive_seen_active (after ks) = true -> exists k, k ∈ k0 :: rest /\ saw_archive k = true).
Proof.
  revert t. induction ks as [|k ks IH] using rev_ind; intros t; [done|]. rewrite after_snoc. unfold evaluate, KeepAccessory.evaluate.
  destruct (position k) as [h|] eqn:Ep; cbn [fst].
  2:{ intros Ht. destruct (IH t Ht) as (k0 & rest & Hs & -> & Ha). exists k0, (rest ++ [k]).
      split_and!; [apply stretch_snoc; [done|unfold resting; by rewrite Ep]|done|].
      intros Hseen. destruct (Ha Hseen) as (k1 & Hk1 & ?). exists k1. split; [set_solver|done]. }
  destruct (policy_books h k (after ks)) as (-> & -> & _). unfold book, track_charge.
  destruct (if eligible h k then _ else _) as [[[? ?] ?] ?]. cbn [home_arrival archive_seen_active]. unfold track_home.
  destruct (h && parked k) eqn:Ehp; [|done].
  assert (resting k = true /\ home_parked k = true) as [Hrest Hhome] by (unfold resting, home_parked; by rewrite Ep).
  assert (archive_active k = true -> saw_archive k = true) as Hsaw by (unfold saw_archive; by rewrite Ep).
  destruct (home_arrival (after ks)) as [t0|]; cbn; intros [= <-].
  - destruct (IH t0 eq_refl) as (k0 & rest & Hs & -> & Ha). exists k0, (rest ++ [k]).
    split_and!; [by apply stretch_snoc|done|]. destruct (archive_active k).
    + intros _. exists k. split; [set_solver|auto].
    + intros Hseen. destruct (Ha Hseen) as (k1 & Hk1 & ?). exists k1. split; [set_solver|done].
  - exists k, []. split_and!; [by apply stretch_new|done|]. destruct (archive_active k); [|done].
    intros _. exists k. split; [set_solver|auto].
Qed.

(** What the charge-hold fields remember. *)
Lemma hold_inv ks t : charge_hold_since (after ks) = Some t ->
  exists k0 rest, stretch charging_here plugged ks k0 rest /\ t = now k0 2%nat
    /\ forall t', charge_complete_at (after ks) = Some t' ->
         exists k, k ∈ k0 :: rest /\ saw_complete k = true /\ t' = now k 3%nat.
Proof.
  revert t. induction ks as [|k ks IH] using rev_ind; intros t; [done|]. rewrite after_snoc. unfold evaluate, KeepAccessory.evaluate.
  assert (plugged k = true -> forall t' c, charge_hold_since (after ks) = Some t' ->
    (forall t'', c = Some t'' -> charge_complete_at (after ks) = Some t'' \/ saw_complete k = true /\ t'' = now k 3%nat) ->
    exists k0 rest, stretch charging_here plugged (ks ++ [k]) k0 rest /\ t' = now k0 2%nat
      /\ forall t'', c = Some t'' -> exists k1, k1 ∈ k0 :: rest /\ saw_complete k1 = true /\ t'' = now k1 3%nat) as Hkeep.
  { intros Hp t' c Ht' Hc. destruct (IH t' Ht') as (k0 & rest & Hs & -> & Ha). exists k0, (rest ++ [k]).
    split_and!; [by apply stretch_snoc|done|]. intros t'' [H|[H ->]]%Hc.
    - destruct (Ha _ H) as (k1 & Hk1 & ? & ?). exists k1. split_and!; [set_solver|done|done].
    - exists k. split_and!; [set_solver|done|done]. }
  unfold plugged, saw_complete, charging_here in Hkeep.
  destruct (position k) as [h|] eqn:Ep; cbn [fst]; [|intros Ht; eapply Hkeep; [done|exact Ht|by left]].
  destruct (policy_books h k (after ks)) as (_ & _ & -> & ->). unfold book, track_charge.
  assert (charge_hold_since (track_home h (parked k) (archive_active k) (now k 0%nat) (after ks)) = charge_hold_since (after ks)
    /\ charge_complete_at (track_home h (parked k) (archive_active k) (now k 0%nat) (after ks)) = charge_complete_at (after ks))
    as [-> ->] by (unfold track_home; by destruct (if h && parked k then _ else _)).
  destruct (eligible h k) eqn:Ee.
  - apply eligible_live in Ee as Hlive. destruct (charge_hold_since (after ks)) as [t0|] eqn:E0; cbn; intros [= <-].
    + eapply Hkeep; [done|done|]. intros t''. case_bool_decide; cbn; [|by left].
      destruct (charge_complete_at (after ks)); cbn; [by left|]. intros [= <-]. by right.
    + exists k, []. split_and!; [apply stretch_new; unfold charging_here; by rewrite Ep, Ee|done|].
      intros t'. case_bool_decide as Hc; cbn; [|done]. intros [= <-]. exists k. split_and!; [set_solver| |done].
      unfold saw_complete, charging_here. rewrite Ep, Ee. cbn. by rewrite bool_decide_true.
  - destruct (is_some (charge_hold_since (after ks))) eqn:E1; cbn; [|done]. destruct (live h k) eqn:El; cbn; [|done].
    intros Ht. eapply Hkeep; [done|exact Ht|by left].
Qed.

Lemma sends_spec d ok es : Send d ok ∈ es <-> (d, ok) ∈ sends es.
Proof.
  unfold sends. rewrite list_elem_of_omap. split.
  - intros H. by exists (Send d ok).
  - intros ([p|c m|d' ok'] & H & E); simplify_eq. done.
Qed.

Lemma pushes_spec p es : Notify p ∈ es <-> p ∈ pushes es.
Proof.
  unfold pushes. rewrite list_elem_of_omap. split.
  - intros H. by exists (Notify p).
  - intros ([p'|c m|d' ok'] & H & E); simplify_eq. done.
Qed.

Lemma evaluate_at ks k h : position k = Some h -> evaluate k (after ks) = policy h k (after ks).
Proof. intros E. unfold evaluate, KeepAccessory.evaluate. by rewrite E. Qed.

Lemma off_decision h k st : decision h k st = Some false ->
  h = true /\ parked k = true /\ archive_active k = false
  /\ let '(hold, complete_grace, done_) := signals h k st in
     hold = false /\ complete_grace = false
     /\ (done_ = true \/ archive_seen_active (book h k st) = true \/ expired k (book h k st) = true).
Proof.
  unfold decision. destruct (signals h k st) as [[hold cg] dn]. unfold decide_desired.
  destruct h; [|done]. destruct (parked k); [|done]. destruct (archive_active k); [done|].
  destruct hold; [done|]. destruct cg; [done|]. destruct dn; [intros _; split_and!; auto|].
  destruct (archive_seen_active _); [intros _; split_and!; auto|].
  destruct (expired _ _); [intros _; split_and!; auto|done].
Qed.

Lemma sends_at ks k d ok : Send d ok ∈ effects_at ks k ->
  exists h, position k = Some h /\ attempt h k (after ks) = Some d /\ ok = send_ok k.
Proof.
  unfold effects_at. rewrite sends_spec. unfold evaluate, KeepAccessory.evaluate.
  destruct (position k) as [h|]; [|by intros ?%not_elem_of_nil]. pose proof (policy_out h k (after ks)) as Ho.
  destruct (policy h k (after ks)) as [st' es], (signals h k (after ks)) as [[? ?] ?]. destruct Ho as (Hs & _).
  cbn [snd]. rewrite Hs. intros H. exists h. destruct (attempt h k (after ks)); [|by apply not_elem_of_nil in H].
  apply list_elem_of_singleton in H. by simplify_eq.
Qed.

Lemma attempt_spec h k st d : attempt h k st = Some d ->
  decision h k st = Some d /\ last_sent st <> Some d /\ radio_held k = true.
Proof.
  unfold attempt. destruct (decision h k st) as [d'|]; [|done]. case_bool_decide; [done|].
  destruct (radio_held k); [|done]. intros [= <-]. done.
Qed.

(** Why power may be cut at the last tick of a trace. *)
Lemma cut_reason ks k : position k = Some true -> decision true k (after ks) = Some false ->
  if eligible true k
  then exists k0 rest, stretch charging_here plugged (ks ++ [k]) k0 rest
       /\ (CHARGE_HOLD_MAX <= elapsed (now k0 2%nat) (now k 4%nat)
           \/ exists k1, k1 ∈ k0 :: rest /\ saw_complete k1 = true /\ grace_of k <= elapsed (now k1 3%nat) (now k 5%nat))
  else exists k0 rest, stretch home_parked resting (ks ++ [k]) k0 rest
       /\ ((exists k1, k1 ∈ k0 :: rest /\ saw_archive k1 = true)
           \/ ARCHIVE_START_GRACE <= elapsed (now k0 0%nat) (now k 1%nat)).
Proof.
  intros Ep Hd. pose proof (after_snoc ks k) as Ea. rewrite (evaluate_at _ _ _ Ep) in Ea.
  destruct (policy_books true k (after ks)) as (Eh & Es & Ec & Eg). rewrite <- Ea in *.
  apply off_decision in Hd as (_ & Hp & _ & Hs). unfold signals, charge_signals in Hs.
  destruct (eligible true k) eqn:Ee; cbn [andb negb] in Hs.
  - destruct Hs as (Hhold & Hcg & _). rewrite <- Ec, <- Eg in *.
    assert (is_Some (charge_hold_since (after (ks ++ [k])))) as [t Ht].
    { rewrite Ec. unfold book, track_charge. rewrite Ee.
      by destruct (charge_hold_since (track_home _ _ _ _ _)). }
    destruct (hold_inv _ _ Ht) as (k0 & rest & Hstr & -> & Hcomp). rewrite Ht in *. exists k0, rest. split; [done|].
    destruct (Z.leb_spec CHARGE_HOLD_MAX (elapsed (now k0 2%nat) (now k 4%nat))) as [Hle|Hgt]; [by left|right].
    cbn [orb] in *. destruct (charge_complete_at (after (ks ++ [k]))) as [t'|]; cbn [is_some andb negb] in *; [|done].
    destruct (Hcomp _ eq_refl) as (k1 & Hin & Hsaw & ->). exists k1. split_and!; [done|done|].
    destruct (Z.ltb_spec (elapsed (now k1 3%nat) (now k 5%nat)) (grace_of k)); [done|lia].
  - destruct Hs as (_ & _ & [Hf|Hs]); [done|]. rewrite <- Es in Hs. unfold expired in Hs. rewrite <- Eh in Hs.
    assert (is_Some (home_arrival (after (ks ++ [k])))) as [t Ht].
    { rewrite Eh. unfold book, track_charge. destruct (if eligible true k then _ else _) as [[[? ?] ?] ?]. cbn.
      unfold track_home. rewrite Hp. cbn. by destruct (home_arrival (after ks)). }
    destruct (arrival_inv _ _ Ht) as (k0 & rest & Hstr & -> & Hseen). rewrite Ht in Hs. exists k0, rest. split; [done|].
    destruct Hs as [Hs|Hs]; [left; by apply Hseen|right; by apply Z.leb_le].
Qed.

End Trace.

(** C33: power is only cut when the work at home is done. If a tick commands OFF
    (from the default state, over any trace), the policy is on, the car is inside
    the home geofence, parked, no archive runs and the radio is held; and when
    the car is plugged in and held for charging, the hold has lasted its maximum
    or the charge completed a full grace period ago within one uninterrupted
    plugged-in stretch; otherwise, within one uninterrupted parked stretch at
    home, an archive was seen running or the start grace has passed. *)
Theorem power_cut_justified (L : libm) (asin : Z -> Z) (ks : list Tick) (k : Tick) (ok : bool) :
  Send false ok ∈ effects_at L asin ks k ->
  position L asin k = Some true /\ parked k = true /\ archive_active k = false /\ radio_held k = true /\
  if eligible true k
  then exists k0 rest, stretch (charging_here L asin) (plugged L asin) (ks ++ [k]) k0 rest
       /\ (CHARGE_HOLD_MAX <= elapsed (now k0 2%nat) (now k 4%nat)
           \/ exists k1, k1 ∈ k0 :: rest /\ saw_complete L asin k1 = true
                /\ grace_of k <= elapsed (now k1 3%nat) (now k 5%nat))
  else exists k0 rest, stretch (home_parked L asin) (resting L asin) (ks ++ [k]) k0 rest
       /\ ((exists k1, k1 ∈ k0 :: rest /\ saw_archive L asin k1 = true)
           \/ ARCHIVE_START_GRACE <= elapsed (now k0 0%nat) (now k 1%nat)).
Proof.
  intros (h & Ep & (Hd & _ & Hr)%attempt_spec & _)%sends_at.
  pose proof (off_decision _ _ _ Hd) as (-> & Hp & Ha & _).
  split_and!; [done|done|done|done|]. by apply cut_reason.
Qed.

(** A car at home with nothing to archive. *)
Definition demo_libm : libm := mkLibm id id id id (fun y _ => y) (fun x => F64.mul x x).
Definition demo_config : KeepAccessoryConfig :=
  mkConfig true (Some (F64.of_Z 52)) (Some (F64.of_Z 4)) (F64.of_Z 120) true 45.
Definition demo_tick (t : Z) : Tick :=
  mkTick demo_config (Some (F64.of_Z 52)) (Some (F64.of_Z 4)) true false true (Some Disconnected)
    (fun _ => t) true.

Lemma power_cut_justified_witness :
  position demo_libm id (demo_tick ARCHIVE_START_GRACE) = Some true
  /\ exists k0 rest, stretch (home_parked demo_libm id) (resting demo_libm id)
       ([demo_tick 0] ++ [demo_tick ARCHIVE_START_GRACE]) k0 rest.
Proof.
  destruct (power_cut_justified demo_libm id [demo_tick 0] (demo_tick ARCHIVE_START_GRACE) true)
    as (Hp & _ & _ & _ & H).
  - apply list_elem_of_In. vm_compute. right. left. reflexivity.
  - split; [exact Hp|]. destruct H as (k0 & rest & Hs & _). exists k0, rest. exact Hs.
Defined.

(** ** One push per cause *)

Section Once.
Context (L : libm) (asin : Z -> Z).

Notation after := (after L asin).
Notation effects_at := (effects_at L asin).

(** A push that needs its flag down and leaves it up recurs only after the
    flag was lowered in between. *)
Lemma once_between (flag : KeepAccessoryState -> bool) (fires reset : list Tick -> Tick -> Prop) :
  (forall ks k, fires ks k -> flag (after ks) = false /\ flag (after (ks ++ [k])) = true) ->
  (forall ks k, flag (after ks) = true -> flag (after (ks ++ [k])) = false -> reset ks k) ->
  forall pre k1 mid k2, fires pre k1 -> fires (pre ++ k1 :: mid) k2 ->
  exists m1 k m2, mid = m1 ++ k :: m2 /\ reset (pre ++ k1 :: m1) k.
Proof.
  intros Hf Hr pre k1 mid k2 H1 H2. apply Hf in H1 as [_ H1]. apply Hf in H2 as [H2 _].
  assert (flag (after (pre ++ k1 :: mid)) = true \/
    exists m1 k m2, mid = m1 ++ k :: m2 /\ reset (pre ++ k1 :: m1) k) as [H|H]; [|congruence|done].
  clear H2. induction mid as [|k mid IH] using rev_ind; [by left|].
  destruct IH as [IH|(m1 & k' & m2 & -> & H)]; [|right; exists m1, k', (m2 ++ [k]); by rewrite <- app_assoc].
  assert (pre ++ k1 :: mid ++ [k] = (pre ++ k1 :: mid) ++ [k]) as -> by by rewrite <- app_assoc.
  destruct (flag (after ((pre ++ k1 :: mid) ++ [k]))) eqn:E; [by left|right].
  exists mid, k, []. split; [done|by apply Hr].
Qed.

Definition announces (p : push -> Prop) (ks : list Tick) (k : Tick) : Prop :=
  exists x, Notify x ∈ effects_at ks k /\ p x.

(** A flag is only held while the hold it belongs to lasts. *)
Lemma hold_noted ks : charge_hold_notified (after ks) = true -> is_Some (charge_hold_since (after ks)).
Proof.
  induction ks as [|k ks IH] using rev_ind; [done|]. rewrite after_snoc. unfold KeepAccessory.evaluate.
  destruct (position L asin k) as [h|]; [|exact IH]. cbn [fst].
  pose proof (policy_out h k (after ks)) as Ho. destruct (policy_books h k (after ks)) as (_ & _ & -> & _).
  destruct (policy h k (after ks)) as [st' es]. unfold signals, charge_signals in Ho. cbn [fst].
  destruct Ho as (_ & _ & _ & _ & _ & _ & -> & _). unfold book, track_charge.
  assert (charge_hold_since (track_home h (parked k) (archive_active k) (now k 0%nat) (after ks)) = charge_hold_since (after ks))
    as -> by (unfold track_home; by destruct (if h && parked k then _ else _)).
  unfold torn_down. destruct (eligible h k); cbn [andb negb orb].
  - intros _. by destruct (charge_hold_since (after ks)).
  - rewrite orb_false_r. destruct (is_some (charge_hold_since (after ks)) && live h k); cbn [negb].
    + rewrite andb_true_r. exact IH.
    + by rewrite andb_false_r.
Qed.

(** What a push at the last tick says about the state before it. *)
Lemma announced ks k x : Notify x ∈ effects_at ks k ->
  exists h, position L asin k = Some h /\ x ∈ pushes (snd (policy h k (after ks)))
    /\ after (ks ++ [k]) = fst (policy h k (after ks)).
Proof.
  unfold effects_at. rewrite pushes_spec, after_snoc. unfold KeepAccessory.evaluate.
  destruct (position L asin k) as [h|]; [|by intros ?%not_elem_of_nil]. intros H. by exists h.
Qed.

Lemma elem_of_if {A} (c : bool) (x y : A) : x ∈ (if c then [y] else []) <-> c = true /\ x = y.
Proof. destruct c; [rewrite list_elem_of_singleton|rewrite elem_of_nil]; naive_solver. Qed.

Lemma elem_of_attempt (o : option bool) (c : bool) x :
  x ∈ match o with Some d => if c then [KeepAccessoryIssue d] else [] | None => [] end <->
  exists d, o = Some d /\ c = true /\ x = KeepAccessoryIssue d.
Proof. destruct o; [rewrite elem_of_if; naive_solver|rewrite elem_of_nil; naive_solver]. Qed.

Lemma pushed h k st x : x ∈ pushes (snd (policy h k st)) ->
  match x with
  | ChargingPowerRequested => eligible h k = true /\ charge_hold_notified st = false
      /\ charge_hold_notified (fst (policy h k st)) = true
  | ChargeComplete _ => eligible h k = true /\ charge_grace_notified st = false
      /\ charge_grace_notified (fst (policy h k st)) = true
  | SentryPowerRequested => coverage_notified st = false /\ coverage_notified (fst (policy h k st)) = true
  | ReleasingDevicePower _ => offline_notified st = false /\ offline_notified (fst (policy h k st)) = true
  | KeepAccessoryIssue _ => fail_notified st = false /\ fail_notified (fst (policy h k st)) = true
  end.
Proof.
  pose proof (policy_out h k st) as Ho. destruct (policy h k st) as [st' es]. cbn [fst snd].
  assert (let '(hold, cg, _) := signals h k st in (hold = true -> eligible h k = true) /\ (cg = true -> eligible h k = true)) as He.
  { unfold signals, charge_signals. destruct (eligible h k); [done|]. cbn. done. }
  destruct (signals h k st) as [[hold cg] dn]. destruct He as [He1 He2].
  destruct Ho as (_ & _ & -> & Ec & Eo & Ef & Eh & Eg). rewrite !elem_of_app, !elem_of_if, elem_of_attempt.
  assert (eligible h k = true -> torn_down h k st = false) as Ht by (unfold torn_down; by intros ->).
  intros [[H ->]|[[H ->]|[[H ->]|[[H ->]|(d & Ea & H & ->)]]]].
  - apply andb_true_iff in H as [-> H]. rewrite (Ht (He1 eq_refl)) in *. rewrite Eh, orb_true_r.
    rewrite andb_true_r in H. apply negb_true_iff in H. auto.
  - apply andb_true_iff in H as [-> H]. rewrite (Ht (He2 eq_refl)) in *. rewrite Eg, orb_true_r.
    rewrite andb_true_r in H. apply negb_true_iff in H. auto.
  - apply andb_true_iff in H as [H1%negb_true_iff H2%negb_true_iff]. rewrite Ec. unfold coverage_of. by rewrite H1.
  - apply andb_true_iff in H as [H1%bool_decide_eq_true H2%negb_true_iff]. rewrite Eo, H1. done.
  - apply andb_true_iff in H as [[H1 H2]%andb_true_iff H3%negb_true_iff]. rewrite Ef, Ea, H1, H2, H3. done.
Qed.

(** What lowered a flag. *)
Definition lowers (flag : KeepAccessoryState -> bool) (h : bool) (k : Tick) (st : KeepAccessoryState) : Prop :=
  flag st = true /\ flag (fst (policy h k st)) = false.

Lemma lowered flag ks k : flag (after ks) = true -> flag (after (ks ++ [k])) = false ->
  exists h, position L asin k = Some h /\ lowers flag h k (after ks).
Proof.
  rewrite after_snoc. unfold KeepAccessory.evaluate, lowers. destruct (position L asin k) as [h|]; cbn; [|congruence].
  intros. by exists h.
Qed.

Lemma lowers_coverage h k st : lowers coverage_notified h k st -> h = true /\ parked k = true.
Proof.
  unfold lowers. pose proof (policy_out h k st) as Ho. destruct (policy h k st) as [st' es], (signals h k st) as [[? ?] ?].
  cbn [fst]. destruct Ho as (_ & _ & _ & -> & _). unfold coverage_of. intros [-> H]. destruct h, (parked k); done.
Qed.

Lemma lowers_offline h k st : lowers offline_notified h k st -> attempt h k st = Some true.
Proof.
  unfold lowers. pose proof (policy_out h k st) as Ho. destruct (policy h k st) as [st' es], (signals h k st) as [[? ?] ?].
  cbn [fst]. destruct Ho as (_ & _ & _ & _ & -> & _). intros [-> H]. by destruct (attempt h k st) as [[]|].
Qed.

Lemma lowers_fail h k st : lowers fail_notified h k st -> is_Some (attempt h k st) /\ send_ok k = true.
Proof.
  unfold lowers. pose proof (policy_out h k st) as Ho. destruct (policy h k st) as [st' es], (signals h k st) as [[? ?] ?].
  cbn [fst]. destruct Ho as (_ & _ & _ & _ & _ & -> & _). intros [-> H]. destruct (attempt h k st); [|done].
  split; [done|]. by destruct (send_ok k).
Qed.

Lemma lowers_hold h k st : is_Some (charge_hold_since st) -> lowers charge_hold_notified h k st -> live h k = false.
Proof.
  unfold lowers. intros [t Ht]. pose proof (policy_out h k st) as Ho.
  destruct (policy h k st) as [st' es], (signals h k st) as [[hold ?] ?].
  cbn [fst]. destruct Ho as (_ & _ & _ & _ & _ & _ & -> & _). intros [-> H]. cbn [andb] in H. apply orb_false_iff in H as [H _].
  apply negb_false_iff in H. unfold torn_down in H. rewrite Ht in H. cbn in H.
  apply andb_true_iff in H as [_ H]. by apply negb_true_iff in H.
Qed.

Lemma attempted ks k h d : position L asin k = Some h -> attempt h k (after ks) = Some d ->
  Send d (send_ok k) ∈ effects_at ks k.
Proof.
  intros Ep Ea. unfold effects_at. rewrite (evaluate_at _ _ _ _ _ Ep), sends_spec.
  pose proof (policy_out h k (after ks)) as Ho. destruct (policy h k (after ks)) as [st' es], (signals h k _) as [[? ?] ?].
  destruct Ho as (Hs & _). cbn [snd]. rewrite Hs, Ea. left.
Qed.

End Once.

(** A push is not repeated until its cause was gone. Between two ticks of a
    trace that announce the same thing there is a tick: at home and parked, for
    the coverage push; that commands power ON, for the going-offline push; whose
    send succeeds, for the failure push; and with the car no longer home and
    plugged in, for the charge-hold push. *)
Theorem pushes_once (L : libm) (asin : Z -> Z) (pre : list Tick) (k1 : Tick) (mid : list Tick) (k2 : Tick) :
  let twice p := announces L asin p pre k1 /\ announces L asin p (pre ++ k1 :: mid) k2 in
  let between r := exists m1 k m2, mid = m1 ++ k :: m2 /\ r (pre ++ k1 :: m1) k in
  (twice (fun x => x = SentryPowerRequested) -> between (fun _ k => home_parked L asin k = true))
  /\ (twice (fun x => exists a, x = ReleasingDevicePower a) ->
      between (fun ks k => exists ok, Send true ok ∈ effects_at L asin ks k))
  /\ (twice (fun x => exists d, x = KeepAccessoryIssue d) ->
      between (fun ks k => exists d, Send d true ∈ effects_at L asin ks k))
  /\ (twice (fun x => x = ChargingPowerRequested) -> between (fun _ k => plugged L asin k = false)).
Proof.
  intros twice between.
  assert (forall p flag r,
    (forall h k st x, p x -> x ∈ pushes (snd (policy h k st)) -> flag st = false /\ flag (fst (policy h k st)) = true) ->
    (forall ks k h, position L asin k = Some h -> lowers flag h k (after L asin ks) -> r ks k) ->
    twice p -> between r) as Hgen.
  { intros p flag r Hf Hr [H1 H2]. eapply (once_between L asin flag (announces L asin p)); [| |exact H1|exact H2].
    - intros ks k (x & (h & _ & Hx & ->)%announced & Hp). by eapply Hf.
    - intros ks k Ha Hb. destruct (lowered _ _ flag ks k Ha Hb) as (h & Ep & Hl). by eapply Hr. }
  split_and!.
  - apply (Hgen _ coverage_notified); [intros h k st x -> H; apply (pushed _ _ _ _ H)|].
    intros ks k h Ep [-> Hp]%lowers_coverage. unfold home_parked. by rewrite Ep.
  - apply (Hgen _ offline_notified); [intros h k st x [a ->] H; apply (pushed _ _ _ _ H)|].
    intros ks k h Ep Hl%lowers_offline. exists (send_ok k). by eapply attempted.
  - apply (Hgen _ fail_notified); [intros h k st x [d ->] H; apply (pushed _ _ _ _ H)|].
    intros ks k h Ep [[d Hd] Hok]%lowers_fail. exists d. rewrite <- Hok. by eapply attempted.
  - apply (Hgen _ charge_hold_notified); [intros h k st x -> H; apply (pushed _ _ _ _ H)|].
    intros ks k h Ep Hl. unfold plugged. rewrite Ep. eapply lowers_hold; [apply hold_noted, Hl|exact Hl].
Qed.

(** Leaving home announces coverage again after a stop at home. *)
Definition away_tick (t : Z) : Tick :=
  mkTick demo_config (Some (F64.of_Z 60)) (Some (F64.of_Z 4)) false false true None (fun _ => t) true.

Lemma pushes_once_witness :
  exists m1 k m2, [demo_tick 1] = m1 ++ k :: m2 /\ home_parked demo_libm id k = true.
Proof.
  apply (pushes_once demo_libm id [] (away_tick 0) [demo_tick 1] (away_tick 2)).
  split; exists SentryPowerRequested; (split; [|reflexivity]); apply list_elem_of_In; vm_compute; left; reflexivity.
Defined.

(** ** Power is released *)

Section Release.
Context (L : libm) (asin : Z -> Z).
Notation after := (after L asin).
Notation position := (position L asin).

Lemma sent_by ks k h d : position k = Some h -> decision h k (after ks) = Some d ->
  radio_held k = true -> send_ok k = true -> last_sent (after (ks ++ [k])) = Some d.
Proof.
  intros Ep Hd Hr Hok. rewrite after_snoc, (evaluate_at _ _ _ _ _ Ep).
  pose proof (policy_out h k (after ks)) as Ho. destruct (policy h k (after ks)) as [st' es], (signals h k _) as [[? ?] ?].
  destruct Ho as (_ & Hl & _). cbn [fst]. rewrite Hl. unfold attempt. rewrite Hd, Hr, Hok.
  case_bool_decide as E; [exact E|done].
Qed.

Lemma home_parked_spec k : home_parked L asin k = true -> position k = Some true /\ parked k = true.
Proof. unfold home_parked. by destruct (position k) as [[]|], (parked k). Qed.

(** The arrival fields after one more tick of a stretch. *)
Lemma rest_step ks k t : resting L asin k = true -> home_arrival (after ks) = Some t ->
  home_arrival (after (ks ++ [k])) = Some t
  /\ (archive_seen_active (after ks) = true \/ saw_archive L asin k = true -> archive_seen_active (after (ks ++ [k])) = true).
Proof.
  unfold resting, saw_archive. rewrite after_snoc. unfold KeepAccessory.evaluate.
  destruct (position k) as [h|] eqn:Ep; cbn [fst]; [|intros _ ->; split; [done|by intros [?|?]]].
  intros Hr Ht. destruct (policy_books h k (after ks)) as (-> & -> & _). unfold book, track_charge.
  destruct (if eligible h k then _ else _) as [[[? ?] ?] ?]. cbn [home_arrival archive_seen_active]. unfold track_home.
  rewrite Hr, Ht. cbn. split; [done|]. destruct (archive_active k); naive_solver.
Qed.

Lemma stretch_start pre k0 : home_parked L asin k0 = true -> (forall k, k ∈ pre -> now k 0%nat <= now k0 0%nat) ->
  exists t, home_arrival (after (pre ++ [k0])) = Some t /\ t <= now k0 0%nat
    /\ (saw_archive L asin k0 = true -> archive_seen_active (after (pre ++ [k0])) = true).
Proof.
  intros H0 Hm. destruct (home_arrival (after pre)) as [t|] eqn:Et.
  - exists t. destruct (rest_step pre k0 t) as [Ha Hs]; [|done|].
    { unfold resting, home_parked in *. by destruct (position k0). }
    split_and!; [done| |by auto]. destruct (arrival_inv _ _ _ _ Et) as (k' & rest & ([p ->] & _) & -> & _).
    apply Hm. set_solver.
  - exists (now k0 0%nat). apply home_parked_spec in H0 as [Ep Hp]. rewrite after_snoc, (evaluate_at _ _ _ _ _ Ep).
    destruct (policy_books true k0 (after pre)) as (-> & -> & _). unfold book, track_charge.
    destruct (if eligible true k0 then _ else _) as [[[? ?] ?] ?]. cbn [home_arrival archive_seen_active]. unfold track_home.
    rewrite Hp, Et. cbn. split_and!; [done|lia|]. unfold saw_archive. rewrite Ep. by destruct (archive_active k0).
Qed.

Lemma stretch_state pre k0 rest :
  home_parked L asin k0 = true -> Forall (fun k => resting L asin k = true) rest ->
  (forall k, k ∈ pre -> now k 0%nat <= now k0 0%nat) ->
  exists t, home_arrival (after (pre ++ k0 :: rest)) = Some t /\ t <= now k0 0%nat
    /\ ((exists k1, k1 ∈ k0 :: rest /\ saw_archive L asin k1 = true) -> archive_seen_active (after (pre ++ k0 :: rest)) = true).
Proof.
  intros H0 Hr Hm. induction rest as [|k rest IH] using rev_ind.
  - destruct (stretch_start pre k0 H0 Hm) as (t & ? & ? & Hs). exists t. split_and!; [done|done|].
    intros (k1 & ->%list_elem_of_singleton & ?). by apply Hs.
  - apply Forall_app in Hr as [Hr Hk]. apply Forall_inv in Hk. destruct (IH Hr) as (t & Ht & Hle & Hs).
    assert (pre ++ k0 :: rest ++ [k] = (pre ++ k0 :: rest) ++ [k]) as -> by by rewrite <- app_assoc.
    destruct (rest_step _ _ _ Hk Ht) as [Ha Hs']. exists t. split_and!; [done|done|].
    intros (k1 & Hin & Hsaw). apply Hs'. change (k0 :: rest ++ [k]) with ((k0 :: rest) ++ [k]) in Hin.
    apply elem_of_app in Hin as [Hin| ->%list_elem_of_singleton]; [left; apply Hs; eauto|by right].
Qed.

Lemma release_decision k st t :
  parked k = true -> archive_active k = false -> eligible true k = false -> home_arrival st = Some t ->
  archive_seen_active st = true \/ ARCHIVE_START_GRACE <= elapsed t (now k 1%nat) -> decision true k st = Some false.
Proof.
  intros Hp Ha He Ht H. unfold decision, signals, charge_signals. rewrite He. cbn [andb negb].
  unfold decide_desired. rewrite Hp, Ha. cbn [negb]. unfold expired, book, track_charge. rewrite He.
  destruct (if is_some _ && _ then _ else _) as [[[? ?] ?] ?]. cbn [home_arrival archive_seen_active].
  unfold track_home. rewrite Hp, Ha, Ht. cbn. destruct (archive_seen_active st); [done|].
  destruct H as [H|H%Z.leb_le]; [done|]. by rewrite H.
Qed.

End Release.

(** The policy reaches its goal. After a tick away from home that holds the
    radio and whose send succeeds, power is ON. After such a tick at home, parked,
    with no archive running and the car not held for charging, power is OFF as
    soon as the parked stretch at home lasted the start grace or an archive ran
    in it (clock readings of earlier ticks are not in the future). *)
Theorem power_reaches_goal (L : libm) (asin : Z -> Z) (pre : list Tick) (k0 : Tick) (rest : list Tick) (k : Tick) :
  radio_held k = true -> send_ok k = true ->
  (position L asin k = Some false -> last_sent (after L asin (pre ++ k0 :: rest ++ [k])) = Some true)
  /\ (home_parked L asin k0 = true -> Forall (fun x => resting L asin x = true) rest ->
      (forall x, x ∈ pre -> now x 0%nat <= now k0 0%nat) ->
      home_parked L asin k = true -> archive_active k = false -> eligible true k = false ->
      (exists k1, k1 ∈ k0 :: rest /\ saw_archive L asin k1 = true)
        \/ ARCHIVE_START_GRACE <= elapsed (now k0 0%nat) (now k 1%nat) ->
      last_sent (after L asin (pre ++ k0 :: rest ++ [k])) = Some false).
Proof.
  intros Hr Hok. assert (pre ++ k0 :: rest ++ [k] = (pre ++ k0 :: rest) ++ [k]) as -> by by rewrite <- app_assoc. split.
  - intros Ep. eapply sent_by; [done| |done|done]. unfold decision. by destruct (signals _ _ _) as [[? ?] ?].
  - intros H0 Hrest Hm [Ep Hp]%home_parked_spec Ha He Hcause. eapply sent_by; [done| |done|done].
    destruct (stretch_state L asin pre k0 rest H0 Hrest Hm) as (t & Ht & Hle & Hs).
    eapply release_decision; [done|done|done|exact Ht|]. destruct Hcause as [Hc|Hc]; [left; by apply Hs|right].
    unfold elapsed, u_sat_sub in *. lia.
Qed.

Lemma power_reaches_goal_witness :
  last_sent (after demo_libm id ([] ++ demo_tick 0 :: [demo_tick 7] ++ [demo_tick ARCHIVE_START_GRACE])) = Some false
  /\ last_sent (after demo_libm id ([demo_tick 0] ++ demo_tick 1 :: [] ++ [away_tick 9])) = Some true.
Proof.
  split.
  - destruct (power_reaches_goal demo_libm id [] (demo_tick 0) [demo_tick 7] (demo_tick ARCHIVE_START_GRACE)
      eq_refl eq_refl) as [_ H]. apply H; [vm_compute; reflexivity| | |vm_compute; reflexivity|reflexivity|reflexivity|].
    + constructor; [vm_compute; reflexivity|constructor].
    + intros x Hx. apply not_elem_of_nil in Hx. destruct Hx.
    + right. vm_compute. intros Hc. discriminate.
  - destruct (power_reaches_goal demo_libm id [demo_tick 0] (demo_tick 1) [] (away_tick 9) eq_refl eq_refl) as [H _].
    apply H. vm_compute. reflexivity.
Defined.
