(* ===== verification/RadioLock.v ===== *)
(** * The radio lock ([crates/tesla_telemetry/src/lock.rs])

    The lock file of the Bluetooth radio, [<owner>\n<unix seconds>\n], with its
    stale and orphan rules, and the signals that say whether a keep-awake is
    wanted. The file is its text, absent, or present but unreadable; a string is
    its list of Unicode scalar values. Times are in nanoseconds since the epoch.

    Processes interleave between the steps of a call: the look at the path, the
    read with its decision, and the write or removal are separate steps, so what
    a process decided on may have changed when it writes. Writing the temporary
    file and renaming it over the lock is one step. *)

From Stdlib Require Import ZArith Lia.
From stdpp Require Import base gmap list.
From S2P Require Import Prelude Str Config.

Open Scope Z_scope.

Module RadioLock.

Definition STALE_AFTER_SECS : Z := 86400.
Definition KEEP_AWAKE_ORPHAN_GRACE_SECS : Z := 60.
Definition ARCHIVE_STATUS_FRESH_SECS : Z := 120.

(** The file at the lock's path. *)
Inductive lock_file := Absent | Unreadable | Text (s : list Z).

Inductive lock_error := ERead | EEmpty | EWrite | ERemove.

Definition path_exists (f : lock_file) : bool := match f with Absent => false | _ => true end.

Definition read_lock (f : lock_file) : result lock_error (str * Z) :=
  match f with
  | Absent | Unreadable => Err ERead
  | Text s =>
      match Config.lines s with
      | [] => Err EEmpty
      | l :: rest =>
          let ts := match rest with
                    | l2 :: _ => default 0 (parse_i64 (trim_by Config.char_ws l2))
                    | [] => 0
                    end in
          Ok (trim_by Config.char_ws l, ts)
      end
  end.

(** Text of a lock; [ok] is whether the create, write and rename succeed. *)
Definition lock_text (owner : str) (ts : Z) : str := Config.unlines [owner; print_i64 ts].
Definition write_lock (ok : bool) (owner : str) (ts : Z) (f : lock_file) : result lock_error unit * lock_file :=
  if ok then (Ok tt, Text (lock_text owner ts)) else (Err EWrite, f).

(** What the decision reads besides the lock. *)
Record Signals := mkSignals {
  clock_ns : Z; archive_mtime : option Z; nudge_pid : option (list Z); proc_exists : Z -> bool; webui_flag : bool;
}.

Definition now_secs (g : Signals) : Z := clock_ns g / 1000000000.

Definition is_archive_active_at (g : Signals) : bool :=
  match archive_mtime g with
  | None => false
  | Some modified =>
      if modified <=? clock_ns g then (clock_ns g - modified) / 1000000000 <? ARCHIVE_STATUS_FRESH_SECS else false
  end.

Definition is_nudge_alive_at (g : Signals) : bool :=
  match nudge_pid g with
  | None => false
  | Some s => match parse_uint (2 ^ 32 - 1) (trim_by Config.char_ws s) with
              | Some pid => proc_exists g pid
              | None => false
              end
  end.

Definition keep_awake_requested (g : Signals) : bool :=
  is_archive_active_at g || is_nudge_alive_at g || webui_flag g.

Definition KEEP_AWAKE : str := lit "keep_awake".

(** Whether the lock of [existing], written at [ts], may be taken over by a call
    that started at [now]. *)
Definition reclaimable (now : Z) (g : Signals) (existing : str) (ts : Z) : bool :=
  let age := now - ts in
  (STALE_AFTER_SECS <? age)
  || (bool_decide (existing = KEEP_AWAKE) && (KEEP_AWAKE_ORPHAN_GRACE_SECS <=? age)
      && negb (is_archive_active_at g) && negb (is_nudge_alive_at g)).

(** The decision on a file that exists. *)
Definition takes (now : Z) (g : Signals) (owner : str) (f : lock_file) : bool :=
  match read_lock f with
  | Ok (existing, ts) => bool_decide (existing = owner) || reclaimable now g existing ts
  | Err _ => true
  end.

(** A call that no other process interrupts. *)
Definition try_acquire_at (g : Signals) (ok : bool) (owner : str) (f : lock_file)
  : result lock_error bool * lock_file :=
  let now := now_secs g in
  let take_it :=
    match write_lock ok owner now f with
    | (Ok _, f) => (Ok true, f)
    | (Err e, f) => (Err e, f)
    end in
  if path_exists f then if takes now g owner f then take_it else (Ok false, f) else take_it.

(** [ok] is whether the file can be removed. *)
Definition release_at (ok : bool) (owner : str) (f : lock_file) : result lock_error unit * lock_file :=
  if negb (path_exists f) then (Ok tt, f)
  else match read_lock f with
       | Ok (existing, _) =>
           if bool_decide (existing = owner)
           then if ok then (Ok tt, Absent) else (Err ERemove, f)
           else (Ok tt, f)
       | Err _ => (Ok tt, f)
       end.

Definition current_owner_at (f : lock_file) : option str :=
  match read_lock f with Ok (owner, _) => Some owner | Err _ => None end.

(** ** Processes *)

(** Where a process is in a call: before its read, before its write, before the
    read of a release, before its removal. *)
Inductive Pc :=
| Idle | Reading (owner : list Z) (now : Z) | Writing (owner : list Z) (now : Z)
| Checking (owner : list Z) | Removing (owner : list Z).

Inductive Answer := Acquired | Refused | Released | Failed.

Record Radio := mkRadio { file : lock_file; pcs : gmap nat Pc }.

Definition pc (s : Radio) (p : nat) : Pc := default Idle (pcs s !! p).
Definition goes (p : nat) (c : Pc) (s : Radio) : Radio := mkRadio (file s) (<[p := c]> (pcs s)).

(** One step of process [p]; [ok] is whether the file operation succeeds. *)
Inductive Event :=
| PAcquire (p : nat) (owner : list Z) (g : Signals) | PRead (p : nat) (g : Signals) | PWrite (p : nat) (ok : bool)
| PRelease (p : nat) (owner : list Z) | PCheck (p : nat) | PRemove (p : nat) (ok : bool).

Definition step (e : Event) (s : Radio) : option (Radio * list (nat * Answer)) :=
  match e with
  | PAcquire p owner g =>
      match pc s p with
      | Idle => Some (goes p (if path_exists (file s) then Reading owner (now_secs g) else Writing owner (now_secs g)) s, [])
      | _ => None
      end
  | PRead p g =>
      match pc s p with
      | Reading owner now =>
          if takes now g owner (file s) then Some (goes p (Writing owner now) s, [])
          else Some (goes p Idle s, [(p, Refused)])
      | _ => None
      end
  | PWrite p ok =>
      match pc s p with
      | Writing owner now =>
          match write_lock ok owner now (file s) with
          | (Ok _, f) => Some (goes p Idle (mkRadio f (pcs s)), [(p, Acquired)])
          | (Err _, f) => Some (goes p Idle (mkRadio f (pcs s)), [(p, Failed)])
          end
      | _ => None
      end
  | PRelease p owner =>
      match pc s p with
      | Idle => if path_exists (file s) then Some (goes p (Checking owner) s, []) else Some (s, [(p, Released)])
      | _ => None
      end
  | PCheck p =>
      match pc s p with
      | Checking owner =>
          match read_lock (file s) with
          | Ok (existing, _) =>
              if bool_decide (existing = owner) then Some (goes p (Removing owner) s, [])
              else Some (goes p Idle s, [(p, Released)])
          | Err _ => Some (goes p Idle s, [(p, Released)])
          end
      | _ => None
      end
  | PRemove p ok =>
      match pc s p with
      | Removing owner =>
          if ok && path_exists (file s) then Some (goes p Idle (mkRadio Absent (pcs s)), [(p, Released)])
          else Some (goes p Idle s, [(p, Failed)])
      | _ => None
      end
  end.

(** A run, with the answers in order. *)
Fixpoint run (es : list Event) (s : Radio) : option (Radio * list (nat * Answer)) :=
  match es with
  | [] => Some (s, [])
  | e :: rest =>
      '(s1, a) ← step e s;
      '(s2, b) ← run rest s1;
      Some (s2, a ++ b)
  end.

End RadioLock.
