(* ===== verification/RadioLockSpec.v ===== *)
(** * The radio lock: the file implements a timed lock

    The abstract lock is free, held by an owner since a second, or broken, with
    a rule for taking it over stated in its own terms. The file protocol refines
    it step by step, under every interleaving of the processes and from every
    content of the file; and no other process takes the radio from an owner that
    is neither stale nor orphaned when their calls begin. *)

From Stdlib Require Import ZArith Lia.
From stdpp Require Import base gmap list sets.
From S2P Require Import Prelude Str Config ConfigSpec RadioLock.

Import RadioLock.
Open Scope Z_scope.

(** ** The text round trip *)

Lemma trim_by_id (ws : Z -> bool) s : Forall (fun b => ws b = false) s -> trim_by ws s = s.
Proof.
  assert (forall s, Forall (fun b => ws b = false) s -> trim_start_by ws s = s) as H.
  { intros s' [|b l Hb _]; [done|]. cbn. by rewrite Hb. }
  intros Hs. unfold trim_by, trim_end_by. rewrite (H s) by done. rewrite (H (rev s)) by by apply Forall_rev.
  apply rev_involutive.
Qed.

(** An owner's name: one line, nothing to trim. *)
Definition owner_ok (o : str) : Prop := 10 ∉ o /\ trim_by Config.char_ws o = o.

Lemma trim_start_first ws s c t : trim_start_by ws s = c :: t -> ws c = false.
Proof. induction s as [|b s IH]; cbn; [done|]. destruct (ws b) eqn:E; [exact IH|]. by intros [= <- <-]. Qed.

Lemma trim_last ws (s : str) c : last (trim_by ws s) = Some c -> ws c = false.
Proof.
  unfold trim_by, trim_end_by. intros [l E]%last_Some.
  assert (trim_start_by ws (rev (trim_start_by ws s)) = c :: rev l) as Hr
    by (rewrite <- (rev_involutive (trim_start_by _ _)), E, rev_app_distr; done).
  by apply trim_start_first in Hr.
Qed.

Lemma strip_cr_ok (s : str) : trim_by Config.char_ws s = s -> Config.strip_cr s = s.
Proof.
  intros Ht. unfold Config.strip_cr, Config.ends_with. case_bool_decide as E; [|done].
  rewrite <- Ht in E. by apply trim_last in E.
Qed.

Lemma read_lock_text o ts : owner_ok o -> - 2 ^ 63 <= ts <= I64_MAX -> read_lock (Text (lock_text o ts)) = Ok (o, ts).
Proof.
  intros [Hn Ht] Hts. pose proof (print_i64_chars ts) as Hd.
  assert (trim_by Config.char_ws (print_i64 ts) = print_i64 ts) as Hp.
  { apply trim_by_id. eapply Forall_impl; [exact Hd|]. intros b Hb. cbn beta in Hb. unfold Config.char_ws.
    repeat (apply orb_false_iff; split); first [apply andb_false_iff; lia|lia]. }
  unfold read_lock, lock_text. rewrite lines_unlines.
  - cbn [map]. by rewrite !strip_cr_ok, Ht, Hp, parse_print_i64.
  - repeat constructor; [done|]. rewrite Forall_forall in Hd. intros H%Hd. lia.
Qed.

(** ** The abstract lock *)

Inductive Lock := Free | Broken | Held (owner : list Z) (since : Z).

(** The archive published its status less than two minutes ago. *)
Definition archive_fresh (g : Signals) : Prop :=
  exists m, archive_mtime g = Some m /\ m <= clock_ns g /\ clock_ns g - m < 120 * 1000000000.
(** The nudge loop's process is running. *)
Definition nudge_running (g : Signals) : Prop :=
  exists s pid, nudge_pid g = Some s /\ parse_uint (2 ^ 32 - 1) (trim_by Config.char_ws s) = Some pid /\ proc_exists g pid = true.
Definition backed (g : Signals) : Prop := archive_fresh g \/ nudge_running g.

(** Who may take the lock: anyone a free or broken one, its owner, and the
    others when it is more than a day old or, for the keep-awake lock, a minute
    old with no archive and no nudge behind it. *)
Definition may_take (now : Z) (g : Signals) (owner : list Z) (l : Lock) : Prop :=
  match l with
  | Free | Broken => True
  | Held holder since =>
      holder = owner \/ 86400 < now - since \/ (holder = lit "keep_awake" /\ 60 <= now - since /\ ~ backed g)
  end.

Record AbsRadio := mkAbs { lock : Lock; doing : nat -> Pc }.

Definition upd (d : nat -> Pc) (p : nat) (c : Pc) (q : nat) : Pc := if decide (q = p) then c else d q.

(** One step of the abstract system, with the answers it gives. *)
Inductive astep : Event -> AbsRadio -> list (nat * Answer) -> AbsRadio -> Prop :=
| a_free p o g d : d p = Idle ->
    astep (PAcquire p o g) (mkAbs Free d) [] (mkAbs Free (upd d p (Writing o (clock_ns g / 1000000000))))
| a_busy p o g l d : d p = Idle -> l <> Free ->
    astep (PAcquire p o g) (mkAbs l d) [] (mkAbs l (upd d p (Reading o (clock_ns g / 1000000000))))
| a_decide p o now g l d : d p = Reading o now -> may_take now g o l ->
    astep (PRead p g) (mkAbs l d) [] (mkAbs l (upd d p (Writing o now)))
| a_refuse p o now g l d : d p = Reading o now -> ~ may_take now g o l ->
    astep (PRead p g) (mkAbs l d) [(p, Refused)] (mkAbs l (upd d p Idle))
| a_take p o now l d : d p = Writing o now ->
    astep (PWrite p true) (mkAbs l d) [(p, Acquired)] (mkAbs (Held o now) (upd d p Idle))
| a_take_fails p o now l d : d p = Writing o now ->
    astep (PWrite p false) (mkAbs l d) [(p, Failed)] (mkAbs l (upd d p Idle))
| a_nothing p o d : d p = Idle -> astep (PRelease p o) (mkAbs Free d) [(p, Released)] (mkAbs Free d)
| a_leave p o l d : d p = Idle -> l <> Free -> astep (PRelease p o) (mkAbs l d) [] (mkAbs l (upd d p (Checking o)))
| a_own p o t d : d p = Checking o -> astep (PCheck p) (mkAbs (Held o t) d) [] (mkAbs (Held o t) (upd d p (Removing o)))
| a_not_own p o l d : d p = Checking o -> (forall t, l <> Held o t) ->
    astep (PCheck p) (mkAbs l d) [(p, Released)] (mkAbs l (upd d p Idle))
| a_remove p o l d : d p = Removing o -> l <> Free ->
    astep (PRemove p true) (mkAbs l d) [(p, Released)] (mkAbs Free (upd d p Idle))
| a_remove_fails p o ok l d : d p = Removing o -> ok = false \/ l = Free ->
    astep (PRemove p ok) (mkAbs l d) [(p, Failed)] (mkAbs l (upd d p Idle)).

Inductive arun : list Event -> AbsRadio -> list (nat * Answer) -> AbsRadio -> Prop :=
| arun_nil s : arun [] s [] s
| arun_cons e es s a s1 b s2 : astep e s a s1 -> arun es s1 b s2 -> arun (e :: es) s (a ++ b) s2.

(** ** The refinement *)

Definition lock_of (f : lock_file) : Lock :=
  match f with
  | Absent => Free
  | _ => match read_lock f with Ok (o, t) => Held o t | Err _ => Broken end
  end.

(** The abstract state of a concrete one. *)
Definition refines (s : Radio) (a : AbsRadio) : Prop := lock a = lock_of (file s) /\ forall p, doing a p = pc s p.

Definition in_i64 (z : Z) : Prop := - 2 ^ 63 <= z <= I64_MAX.

Definition event_ok (e : Event) : Prop :=
  match e with PAcquire _ o g => owner_ok o /\ in_i64 (now_secs g) | _ => True end.

(** Writes under way carry names and times that read back. *)
Definition pcs_ok (s : Radio) : Prop :=
  forall p, match pc s p with Reading o now | Writing o now => owner_ok o /\ in_i64 now | _ => True end.

Lemma archive_fresh_iff g : is_archive_active_at g = true <-> archive_fresh g.
Proof.
  unfold is_archive_active_at, archive_fresh, ARCHIVE_STATUS_FRESH_SECS. destruct (archive_mtime g) as [m|]; [|naive_solver].
  destruct (Z.leb_spec m (clock_ns g)) as [Hle|]; [|split; [done|]; intros (m' & [= <-] & ? & _); lia].
  rewrite Z.ltb_lt. split.
  - intros H. exists m. split_and!; [done|done|]. pose proof (Z.mod_pos_bound (clock_ns g - m) 1000000000 ltac:(lia)).
    pose proof (Z.div_mod (clock_ns g - m) 1000000000 ltac:(lia)). lia.
  - intros (m' & [= <-] & _ & H). apply Z.div_lt_upper_bound; lia.
Qed.

Lemma nudge_running_iff g : is_nudge_alive_at g = true <-> nudge_running g.
Proof.
  unfold is_nudge_alive_at, nudge_running. destruct (nudge_pid g) as [s|]; [|naive_solver].
  destruct (parse_uint (2 ^ 32 - 1) (trim_by Config.char_ws s)) as [pid|] eqn:E; [|naive_solver].
  split; [by exists s, pid|]. intros (s' & pid' & [= <-] & E' & H). congruence.
Qed.

Lemma reclaimable_iff now g e t :
  reclaimable now g e t = true <-> 86400 < now - t \/ (e = lit "keep_awake" /\ 60 <= now - t /\ ~ backed g).
Proof.
  unfold reclaimable, STALE_AFTER_SECS, KEEP_AWAKE_ORPHAN_GRACE_SECS, KEEP_AWAKE, backed.
  rewrite orb_true_iff, !andb_true_iff, !negb_true_iff, bool_decide_eq_true, Z.ltb_lt, Z.leb_le.
  rewrite <- !not_true_iff_false, archive_fresh_iff, nudge_running_iff. tauto.
Qed.

Lemma takes_iff now g o f : path_exists f = true -> takes now g o f = true <-> may_take now g o (lock_of f).
Proof.
  intros Hf. unfold takes, lock_of. assert (match f with Absent => False | _ => True end) as Hne by by destruct f.
  destruct f as [| |t]; [done|cbn; done|]. destruct (read_lock (Text t)) as [[e ts]|]; [|done]. cbn [may_take].
  by rewrite orb_true_iff, bool_decide_eq_true, reclaimable_iff.
Qed.

(** A read that finds the file gone takes the lock. *)
Lemma takes_absent now g o : takes now g o Absent = true.
Proof. done. Qed.

Lemma refines_goes s d l p c : (forall q, d q = pc s q) -> l = lock_of (file s) -> refines (goes p c s) (mkAbs l (upd d p c)).
Proof.
  intros Hd ->. split; [done|]. intros q. cbn [doing]. unfold upd, pc, goes. cbn [pcs]. case_decide as E.
  - subst q. by rewrite lookup_insert_eq.
  - rewrite lookup_insert_ne by done. apply Hd.
Qed.

Lemma pcs_ok_goes s p c : pcs_ok s -> match c with Reading o now | Writing o now => owner_ok o /\ in_i64 now | _ => True end ->
  pcs_ok (goes p c s).
Proof.
  intros Hs Hc q. unfold pc, goes. cbn [pcs]. destruct (decide (q = p)) as [->|].
  - rewrite lookup_insert_eq. exact Hc.
  - rewrite lookup_insert_ne by done. exact (Hs q).
Qed.

Lemma lock_of_busy f : path_exists f = true -> lock_of f <> Free.
Proof. unfold lock_of. destruct f as [| |t]; [done|done|]. intros _. by destruct (read_lock (Text t)) as [[? ?]|]. Qed.

Lemma step_refines e s s' ans d l : event_ok e -> pcs_ok s -> (forall q, d q = pc s q) -> l = lock_of (file s) ->
  step e s = Some (s', ans) -> pcs_ok s' /\ exists a', astep e (mkAbs l d) ans a' /\ refines s' a'.
Proof.
  intros He Hs Hd -> H. destruct e as [p o g|p g|p ok|p o|p|p ok]; cbn [step] in H;
    pose proof (Hd p) as Hdp; pose proof (Hs p) as Hsp; destruct (pc s p) as [|o' now|o' now|o'|o'] eqn:Ep; try discriminate H.
  - destruct (path_exists (file s)) eqn:Ex; injection H as <- <-; (split; [by apply pcs_ok_goes|]).
    + eexists. split; [apply a_busy; [done|by apply lock_of_busy]|by apply refines_goes].
    + destruct (file s) eqn:Ef; try done. eexists. split; [by apply a_free|]. apply refines_goes; [done|by rewrite Ef].
  - assert (takes now g o' (file s) = true <-> may_take now g o' (lock_of (file s))) as Ht.
    { destruct (file s) eqn:Ef; [done|by apply takes_iff..]. }
    destruct (takes now g o' (file s)) eqn:Et; injection H as <- <-; (split; [by apply pcs_ok_goes|]).
    + eexists. split; [eapply a_decide; [done|by apply Ht]|by apply refines_goes].
    + eexists. split; [eapply a_refuse; [done|]; intros Hm%Ht; done|by apply refines_goes].
  - unfold write_lock in H. destruct ok; injection H as <- <-; (split; [by apply pcs_ok_goes|]).
    + eexists. split; [by eapply a_take|]. apply refines_goes; [done|]. cbn [file lock_of].
      destruct Hsp as [Ho Hn]. by rewrite read_lock_text.
    + eexists. split; [by eapply a_take_fails|]. apply refines_goes; done.
  - destruct (path_exists (file s)) eqn:Ex; injection H as <- <-.
    + split; [by apply pcs_ok_goes|]. eexists. split; [apply a_leave; [done|by apply lock_of_busy]|by apply refines_goes].
    + split; [done|]. destruct (file s) eqn:Ef; try done. eexists. split; [by apply a_nothing|].
      split; [by rewrite Ef|done].
  - destruct (read_lock (file s)) as [[e t]|err] eqn:Er; [case_bool_decide as Eo|]; injection H as <- <-;
      (split; [by apply pcs_ok_goes|]).
    + subst e. assert (lock_of (file s) = Held o' t) as El by (unfold lock_of; destruct (file s); [done|done|by rewrite Er]).
      eexists. split; [rewrite El; by apply a_own|by apply refines_goes].
    + assert (lock_of (file s) = Held e t) as El by (unfold lock_of; destruct (file s); [done|done|by rewrite Er]).
      eexists. split; [eapply a_not_own; [done|]; rewrite El; congruence|by apply refines_goes].
    + eexists. split; [eapply a_not_own; [done|]|by apply refines_goes]. intros t. unfold lock_of.
      destruct (file s); [done|done|]. by rewrite Er.
  - destruct (ok && path_exists (file s)) eqn:Ex; injection H as <- <-; (split; [by apply pcs_ok_goes|]).
    + apply andb_true_iff in Ex as [-> Ex]. eexists. split; [eapply a_remove; [done|by apply lock_of_busy]|].
      by apply refines_goes.
    + eexists. split; [eapply a_remove_fails; [done|]|by apply refines_goes].
      destruct ok; [|by left]. right. by destruct (file s).
Qed.

Lemma run_refines es : forall s s' ans a, Forall event_ok es -> pcs_ok s -> refines s a -> run es s = Some (s', ans) ->
  exists a', arun es a ans a' /\ refines s' a'.
Proof.
  induction es as [|e es IH]; intros s s' ans a He Hs Ha; cbn [run].
  - intros [= <- <-]. exists a. split; [constructor|done].
  - apply Forall_cons in He as [He Hes]. destruct a as [l d]. destruct Ha as [Hl Hd]. cbn [lock doing] in *.
    destruct (step e s) as [[s1 a1]|] eqn:E1; [|done]. cbn [mbind option_bind].
    destruct (run es s1) as [[s2 b]|] eqn:E2; [|done]. intros [= <- <-].
    destruct (step_refines e s s1 a1 d l He Hs Hd Hl E1) as (Hs1 & am & Hst & Hr).
    destruct (IH s1 s2 b am Hes Hs1 Hr E2) as (a' & Hrun & Hr'). exists a'. split; [by econstructor|done].
Qed.


Definition idle_signals (ns : Z) : Signals := mkSignals ns None None (fun _ => false) false.
Definition telemetry : str := lit "telemetry".

Lemma owner_ok_telemetry : owner_ok telemetry /\ owner_ok KEEP_AWAKE.
Proof. split; (split; [rewrite list_elem_of_In; vm_compute; intuition discriminate|vm_compute; reflexivity]). Qed.

Lemma pc_none f p : pc (mkRadio f ∅) p = Idle.
Proof. unfold pc. cbn [pcs]. by rewrite lookup_empty. Qed.

(** Keep-awake takes the radio at second 5; telemetry is refused at second 64
    and takes the orphan at second 65. *)
Definition demo_events : list Event :=
  [PAcquire 0 KEEP_AWAKE (idle_signals 5000000000); PWrite 0 true;
   PAcquire 1 telemetry (idle_signals 64000000000); PRead 1 (idle_signals 64000000000);
   PAcquire 1 telemetry (idle_signals 65000000000); PRead 1 (idle_signals 65000000000); PWrite 1 true].

Lemma demo_events_ok : Forall event_ok demo_events.
Proof. destruct owner_ok_telemetry as [Ht Hk]. repeat constructor; (apply Ht || apply Hk || (vm_compute; discriminate)). Qed.


(** Two processes that look at a free radio at the same time both acquire it. *)
Example both_acquire :
  snd <$> run [PAcquire 0 KEEP_AWAKE (idle_signals 5000000000); PAcquire 1 telemetry (idle_signals 5000000000);
               PWrite 0 true; PWrite 1 true] (mkRadio Absent ∅)
  = Some [(0%nat, Acquired); (1%nat, Acquired)].
Proof. vm_compute. reflexivity. Qed.

(** ** Exclusion *)

Section exclusion.
Context (owner : list Z) (ts : Z) (es : list Event).

(** The calls of the others: none is the owner's, none comes a day late, and
    for the keep-awake lock either all start within its first minute or every
    read finds an archive or a nudge behind it. *)
Record respectful : Prop := {
  rs_acquire : forall p o g, PAcquire p o g ∈ es -> o <> owner /\ now_secs g - ts <= 86400;
  rs_release : forall p o, PRelease p o ∈ es -> o <> owner;
  rs_orphan : owner = lit "keep_awake" ->
    (forall p o g, PAcquire p o g ∈ es -> now_secs g - ts < 60) \/ (forall p g, PRead p g ∈ es -> backed g);
}.
Context (HR : respectful).

Definition undisturbed (a : AbsRadio) : Prop :=
  lock a = Held owner ts /\
  forall p, match doing a p with
            | Idle => True
            | Reading o now | Writing o now => o <> owner /\ now - ts <= 86400 /\
                (owner = lit "keep_awake" -> (forall q o g, PAcquire q o g ∈ es -> now_secs g - ts < 60) -> now - ts < 60)
                /\ match doing a p with Writing _ _ => False | _ => True end
            | Checking o => o <> owner
            | Removing _ => False
            end.

Lemma undisturbed_upd l d p c : undisturbed (mkAbs l d) ->
  match c with
  | Idle => True
  | Reading o now => o <> owner /\ now - ts <= 86400 /\
      (owner = lit "keep_awake" -> (forall q o g, PAcquire q o g ∈ es -> now_secs g - ts < 60) -> now - ts < 60)
  | Checking o => o <> owner
  | _ => False
  end -> undisturbed (mkAbs l (upd d p c)).
Proof using Type.
  intros [Hl Hd] Hc. split; [done|]. intros q. cbn [doing] in *. unfold upd. case_decide; [|apply Hd].
  destruct c; try done. destruct Hc as (? & ? & ?). done.
Qed.

Lemma astep_undisturbed e a ans a' : e ∈ es -> undisturbed a -> astep e a ans a' ->
  undisturbed a' /\ Forall (fun r => snd r <> Acquired) ans.
Proof using HR.
  intros He Ha Hst. pose proof Ha as [Hl Hd].
  destruct Hst as [p o g d Hp|p o g l d Hp Hn|p o now g l d Hp Hm|p o now g l d Hp Hm|p o now l d Hp|p o now l d Hp
                  |p o d Hp|p o l d Hp Hn|p o t d Hp|p o l d Hp Hn|p o l d Hp Hn|p o ok l d Hp Hn];
    cbn [lock doing] in *; pose proof (Hd p) as Hdp; rewrite Hp in Hdp; try done.
  - split; [|done]. apply undisturbed_upd; [done|]. destruct (rs_acquire HR _ _ _ He) as [H1 H2].
    split; [done|]. split; [exact H2|]. intros _ H. exact (H _ _ _ He).
  - exfalso. destruct Hdp as (Ho & Hage & Hka & _). rewrite Hl in Hm. cbn [may_take] in Hm.
    destruct Hm as [E|[?|(E & Hgrace & Hb)]]; [by symmetry in E|lia|].
    destruct (rs_orphan HR E) as [H|H]; [|by apply Hb, (H p)]. specialize (Hka E H). lia.
  - split; [by apply undisturbed_upd|]. by repeat constructor.
  - by destruct Hdp as (_ & _ & _ & []).
  - by destruct Hdp as (_ & _ & _ & []).
  - split; [|done]. apply undisturbed_upd; [done|]. by apply (rs_release HR _ _ He).
  - injection Hl as -> _. done.
  - split; [by apply undisturbed_upd|]. by repeat constructor.
Qed.

Lemma arun_undisturbed es' a ans a' : (forall e, e ∈ es' -> e ∈ es) -> undisturbed a -> arun es' a ans a' ->
  undisturbed a' /\ Forall (fun r => snd r <> Acquired) ans.
Proof using HR.
  intros Hin Ha Hrun. induction Hrun as [|e es' s x s1 b s2 Hst _ IH]; [done|].
  destruct (astep_undisturbed e s x s1) as [H1 H2]; [apply Hin; by left|done|done|].
  destruct IH as [H3 H4]; [intros e' He'; apply Hin; by right|done|]. split; [done|]. by apply Forall_app.
Qed.

End exclusion.


