(* ===== verification/BleWire.v ===== *)
(** * The Bluetooth wire ([crates/tesla_ble/src/{transport,gatt,correlate,auth}.rs])

    Framing and chunking, the receive loop of a round trip, the correlation of a
    reply with its request, and the signed envelope. Bytes are integers. The
    protobuf codec is generated and its messages are records here; AES-GCM and
    SHA-256 are parameters. Notifications of a round trip are the list of those
    that arrive before its deadline. *)

From Stdlib Require Import ZArith Lia.
From stdpp Require Import base list.
From S2P Require Import Prelude Bytes Str.

Open Scope Z_scope.

Module BleWire.

(** ** Transport *)

Definition frame (payload : list Z) : list Z :=
  to_be_bytes 2 (Z.of_nat (length payload) mod 65536) ++ payload.

Inductive ble_error :=
| EFrameTooLong (len : Z)
| EDesyncs (len : Z)           (* more than [MAX_DESYNCS] of them *)
| EStreamEnded
| EDeadline                    (* waiting for response: deadline has elapsed *)
| ENotConnectedBeforeTx
| EWrite
| EConnect                     (* carries the [ConnectFailure] marker *)
| EKeyNotPaired                (* carries [SessionError::KeyNotPaired] *)
| ENotRegistered               (* the handshake's message about a missing pairing *)
| ESession                     (* any other handshake failure *)
| EDeriveKey
| ERollover
| ENoConnection                (* not connected after ensure_connected *)
| ENoHandle                    (* a handler found no connection *)
| ENoDomain                    (* no session after the handshake *)
| EEncrypt | EShortOutput
| EDecode
| EStaleRefresh
| EFault (code : Z)
| ETooLarge
| EStatus (status : Z)
| ENoSignature | EWrongSignature | ENoPayload
| ENonceLength | EDecrypt
| EWaitTwice | ERefreshLoop.

(** [try_unframe]: what it returns and the buffer it leaves. *)
Definition try_unframe (buf : list Z) : result ble_error (option (list Z)) * list Z :=
  match buf with
  | b0 :: b1 :: rest =>
      let len := b0 * 256 + b1 in
      if 1024 <? len then (Err (EFrameTooLong len), buf)
      else if (length buf <? 2 + Z.to_nat len)%nat then (Ok None, buf)
      else (Ok (Some (take (Z.to_nat len) rest)), drop (2 + Z.to_nat len) buf)
  | _ => (Ok None, buf)
  end.

Definition chunk_size (mtu : nat) : nat := Nat.min 512 (Nat.max 20 (mtu - 3)).
Definition chunks_for_mtu (frame : list Z) (mtu : nat) : list (list Z) :=
  chunks (length frame) (chunk_size mtu) frame.

(** ** The receive loop *)

Definition BROADCAST_FRAME_PREFIX : list Z := [0x32; 0x02; 0x08; 0x00].
Definition MAX_DESYNCS : Z := 64.

(** What becomes of an unframed payload. *)
Definition wanted (accept : list Z -> bool) (payload : list Z) : bool :=
  if (length payload <? 8)%nat then false
  else if starts_with payload BROADCAST_FRAME_PREFIX then false
  else accept payload.

(** What the buffer alone gives: an accepted payload, an error, or a wish for
    the next notification; with the buffer left and the desyncs counted so far.
    Each turn drops at least two bytes or the whole buffer. *)
Inductive scan := Got (payload : list Z) | Broken (e : ble_error) | More.

Fixpoint scan_buffer (accept : list Z -> bool) (fuel : nat) (buf : list Z) (desyncs : Z)
  : scan * list Z * Z :=
  match fuel with
  | O => (More, buf, desyncs)
  | S fuel =>
      match try_unframe buf with
      | (Err e, _) =>
          let desyncs := desyncs + 1 in
          if MAX_DESYNCS <? desyncs
          then (Broken match e with EFrameTooLong n => EDesyncs n | _ => e end, [], desyncs)
          else scan_buffer accept fuel [] desyncs
      | (Ok (Some payload), buf) =>
          if wanted accept payload then (Got payload, buf, desyncs)
          else scan_buffer accept fuel buf desyncs
      | (Ok None, buf) => (More, buf, desyncs)
      end
  end.

(** A notification: whether it is on the vehicle's characteristic, and its bytes. *)
Notation notification := (bool * list Z)%type (only parsing).

(** The loop; [ended] says whether the stream ended or the deadline passed. *)
Fixpoint receive (accept : list Z -> bool) (ended : bool) (ns : list notification) (buf : list Z) (desyncs : Z)
  : result ble_error (list Z) * list Z * Z :=
  let '(s, buf, desyncs) := scan_buffer accept (S (length buf)) buf desyncs in
  match s with
  | Got payload => (Ok payload, buf, desyncs)
  | Broken e => (Err e, buf, desyncs)
  | More =>
      match ns with
      | [] => (Err (if ended then EStreamEnded else EDeadline), buf, desyncs)
      | (ours, value) :: ns => receive accept ended ns (if ours : bool then buf ++ value else buf) desyncs
      end
  end.

Record Connection := mkConn {
  rx_buffer : list Z; framing_desync_recoveries : Z; att_mtu : nat; last_round_trip_clean : bool;
}.

(** What the link does during one round trip: the liveness probe, how many
    chunks it takes before a write fails, what it delivers and how it ends. *)
Record Link := mkLink {
  l_probe : option bool; l_writes : option nat; l_rx : list (bool * list Z); l_ended : bool;
}.

(** [round_trip]: its result, the connection it leaves and the bytes written. *)
Definition round_trip (payload : list Z) (accept : list Z -> bool) (link : Link) (c : Connection)
  : result ble_error (list Z) * Connection * list (list Z) :=
  let dirty := negb (last_round_trip_clean c) || negb (is_empty (rx_buffer c)) in
  let buf := if dirty then [] else rx_buffer c in
  let c := mkConn buf (framing_desync_recoveries c) (att_mtu c) false in
  let cs := chunks_for_mtu (frame payload) (att_mtu c) in
  let listen :=
    let '(r, buf, d) := receive accept (l_ended link) (l_rx link) (rx_buffer c) 0 in
    (r, mkConn buf (Z.min (2 ^ 32 - 1) (framing_desync_recoveries c + d)) (att_mtu c)
          match r with Ok _ => true | Err _ => false end, cs) in
  if dirty && bool_decide (l_probe link = Some false) then (Err ENotConnectedBeforeTx, c, [])
  else match l_writes link with
       | Some n => if (n <? length cs)%nat then (Err EWrite, c, take n cs) else listen
       | None => listen
       end.

(** ** Messages *)

Inductive Domain := BroadcastDomain | VehicleSecurity | Infotainment.
Definition domain_i32 (d : Domain) : Z := match d with BroadcastDomain => 0 | VehicleSecurity => 2 | Infotainment => 3 end.
#[export] Instance domain_eq_dec : EqDecision Domain.
Proof. solve_decision. Defined.

Inductive SubDestination := DomainDest (d : Z) | RoutingAddress (a : list Z).
Inductive Payload := ProtobufMessageAsBytes (b : list Z) | SessionInfoRequest (key : list Z) | SessionInfoBytes (b : list Z).
Inductive SigType :=
| AesGcmPersonalizedData (epoch nonce : list Z) (counter expires_at : Z) (tag : list Z)
| SessionInfoTag (tag : list Z)
| HmacPersonalizedData (epoch : list Z) (counter expires_at : Z) (tag : list Z)
| AesGcmResponseData (nonce : list Z) (counter : Z) (tag : list Z).
Record SignatureData := mkSig { signer_identity : option (list Z); sig_type : option SigType }.

Record RoutableMessage := mkRoutable {
  to_destination : option (option SubDestination); from_destination : option (option SubDestination);
  payload : option Payload; sub_sig_data : option SignatureData;
  signed_message_status : option (Z * Z); (* operation_status, signed_message_fault *)
  request_uuid : list Z; uuid : list Z; flags : Z;
}.

Record SessionInfo := mkInfo {
  si_counter : Z; si_public_key : list Z; si_epoch : list Z; si_clock_time : Z; si_status : Z;
}.

(** ** Correlation *)

Definition sub_of (d : option (option SubDestination)) : option SubDestination := d ≫= id.
Definition address_of (d : option (option SubDestination)) : option (list Z) :=
  match sub_of d with Some (RoutingAddress a) => Some a | _ => None end.
Definition domain_of (d : option (option SubDestination)) : option Z :=
  match sub_of d with Some (DomainDest x) => Some x | _ => None end.

Definition our_correlators (decode : list Z -> option RoutableMessage) (envelope : list Z) : list Z * list Z :=
  match decode envelope with
  | None => ([], [])
  | Some rm => (uuid rm, default [] (address_of (from_destination rm)))
  end.

Definition is_response_to (decode : list Z -> option RoutableMessage) (frame our_request_uuid our_routing_addr : list Z)
    (target_domain : Domain) : bool :=
  match decode frame with
  | None => false
  | Some rm =>
      if match domain_of (from_destination rm) with
         | Some d => negb (d =? domain_i32 target_domain) | None => false end then false
      else if match address_of (to_destination rm) with
              | Some a => negb (is_empty our_routing_addr) && negb (bool_decide (a = our_routing_addr))
              | None => false end then false
      else if negb (is_empty (request_uuid rm)) && negb (bool_decide (request_uuid rm = our_request_uuid)) then false
      else true
  end.

(** ** The signed envelope *)

Definition SIG_TYPE_AES_GCM_PERSONALIZED : Z := 5.
Definition SIG_TYPE_AES_GCM_RESPONSE : Z := 9.

Definition write_tlv (tag : Z) (value : list Z) : list Z :=
  tag :: (Z.of_nat (length value) mod 256) :: value.

Definition build_metadata (domain : Domain) (vin epoch : list Z) (expires_at counter flags : Z) : list Z :=
  write_tlv 0 [SIG_TYPE_AES_GCM_PERSONALIZED] ++ write_tlv 1 [domain_i32 domain mod 256]
  ++ write_tlv 2 vin ++ write_tlv 3 epoch ++ write_tlv 4 (to_be_bytes 4 expires_at)
  ++ write_tlv 5 (to_be_bytes 4 counter) ++ write_tlv 7 (to_be_bytes 4 flags) ++ [0xff].

Definition build_response_metadata (from_domain : Domain) (vin : list Z) (counter flags request_sig_type : Z)
    (request_tag : list Z) (fault : Z) : list Z :=
  write_tlv 0 [SIG_TYPE_AES_GCM_RESPONSE] ++ write_tlv 1 [domain_i32 from_domain mod 256]
  ++ write_tlv 2 vin ++ write_tlv 5 (to_be_bytes 4 counter) ++ write_tlv 7 (to_be_bytes 4 flags)
  ++ write_tlv 8 (request_sig_type :: request_tag) ++ write_tlv 9 (to_be_bytes 4 fault) ++ [0xff].

(** AES-128-GCM and SHA-256. [seal] appends the tag to the ciphertext. *)
Record Crypto := mkCrypto {
  seal : list Z -> list Z -> list Z -> list Z -> option (list Z); (* key, nonce, message, aad *)
  open_ : list Z -> list Z -> list Z -> list Z -> option (list Z);
  sha256 : list Z -> list Z;
}.

Section Envelope.
Context (C : Crypto).

Definition metadata_aad (metadata : list Z) : list Z := sha256 C metadata.

Record SignedParts := mkParts { ciphertext : list Z; signature_data : SignatureData; sp_counter : Z }.

(** [nonce] are the 12 random bytes. *)
Definition sign (session_key our_pubkey inner : list Z) (domain : Domain) (vin epoch : list Z)
    (expires_at counter flags : Z) (nonce : list Z) : result ble_error SignedParts :=
  let aad := metadata_aad (build_metadata domain vin epoch expires_at counter flags) in
  let? combined := ok_or (seal C session_key nonce inner aad) EEncrypt in
  if (length combined <? 16)%nat then Err EShortOutput
  else
    let n := (length combined - 16)%nat in
    Ok (mkParts (take n combined)
          (mkSig (Some our_pubkey) (Some (AesGcmPersonalizedData epoch nonce counter expires_at (drop n combined))))
          counter).

Definition decrypt_response (session_key request_tag : list Z) (from_domain : Domain) (vin : list Z)
    (response_flags response_counter response_fault : Z) (response_nonce response_tag cipher : list Z)
  : result ble_error (list Z) :=
  let aad := metadata_aad (build_response_metadata from_domain vin response_counter response_flags
                             SIG_TYPE_AES_GCM_PERSONALIZED request_tag response_fault) in
  if negb (length response_nonce =? 12)%nat then Err ENonceLength
  else ok_or (open_ C session_key response_nonce (cipher ++ response_tag) aad) EDecrypt.

(** The message of [build_signed_routable_message]; the two identifiers are its
    random draws. *)
Definition build_signed_routable_message (parts : SignedParts) (domain : Domain) (flags : Z)
    (from_uuid req_uuid : list Z) : RoutableMessage :=
  mkRoutable (Some (Some (DomainDest (domain_i32 domain)))) (Some (Some (RoutingAddress from_uuid)))
    (Some (ProtobufMessageAsBytes (ciphertext parts))) (Some (signature_data parts)) None [] req_uuid flags.

End Envelope.
End BleWire.
