(* ===== verification/BleWireSpec.v ===== *)
(** * The Bluetooth wire: delivery under any chunking, unambiguous signatures

    A reply is found among stragglers however the link cuts the byte stream, and
    the signed metadata determines every field it covers. *)

From Stdlib Require Import ZArith Lia.
From stdpp Require Import base list.
From S2P Require Import Prelude Bytes Str BleWire.

Import BleWire.
Open Scope Z_scope.

(** ** Framing *)

Lemma frame_bytes p : (length p <= 1024)%nat ->
  exists b0 b1, frame p = b0 :: b1 :: p /\ b0 * 256 + b1 = Z.of_nat (length p).
Proof.
  intros Hp. unfold frame, to_be_bytes. cbn. eexists _, _. split; [reflexivity|].
  rewrite (Z.mod_small (Z.of_nat (length p)) 65536) by lia.
  rewrite (Z.mod_small (Z.of_nat (length p) / 256) 256).
  - pose proof (Z.div_mod (Z.of_nat (length p)) 256). lia.
  - split; [apply Z.div_pos; lia|apply Z.div_lt_upper_bound; lia].
Qed.

Lemma length_frame p : length (frame p) = (2 + length p)%nat.
Proof. done. Qed.

(** The front of a buffer that starts a frame: all of it, or not enough yet. *)
Lemma unframe_front p b future rest : (length p <= 1024)%nat -> b ++ future = frame p ++ rest ->
  if (length b <? 2 + length p)%nat then try_unframe b = (Ok None, b)
  else exists left, b = frame p ++ left /\ left ++ future = rest /\ try_unframe b = (Ok (Some p), left).
Proof.
  intros Hp E. destruct (frame_bytes p Hp) as (b0 & b1 & Ef & Hlen). rewrite Ef in *.
  destruct (Nat.ltb_spec (length b) (2 + length p)) as [Hlt|Hge].
  - destruct b as [|x [|y b]]; [done|done|]. cbn in E. injection E as -> -> E. unfold try_unframe. rewrite Hlen.
    rewrite (proj2 (Z.ltb_ge _ _)) by lia. rewrite Nat2Z.id. cbn [length] in *.
    rewrite (proj2 (Nat.ltb_lt _ _)) by lia. done.
  - destruct b as [|x [|y b]]; cbn [length] in Hge; [lia|lia|]. cbn in E. injection E as -> -> E.
    exists (drop (length p) b). assert (take (length p) b = p) as Ht.
    { apply (f_equal (take (length p))) in E. rewrite take_app_le in E by lia. by rewrite take_app_length in E. }
    assert (b = p ++ drop (length p) b) as Eb by (rewrite <- Ht at 1; by rewrite take_drop).
    split_and!; [cbn; by rewrite <- Eb|..].
    + apply (f_equal (drop (length p))) in E. rewrite drop_app_le in E by lia. by rewrite drop_app_length in E.
    + unfold try_unframe. rewrite Hlen. rewrite (proj2 (Z.ltb_ge _ _)) by lia. rewrite Nat2Z.id. cbn [length].
      rewrite (proj2 (Nat.ltb_ge _ _)) by lia. rewrite Ht. done.
Qed.

Section Receive.
Context (accept : list Z -> bool) (ended : bool) (reply tail : list Z).
Context (Hreply : wanted accept reply = true) (Hsize : (length reply <= 1024)%nat).

(** Frames the round trip passes over. *)
Definition skippable (p : list Z) : Prop := (length p <= 1024)%nat /\ wanted accept p = false.

Definition stream (junk : list (list Z)) : list Z := concat (frame <$> junk) ++ frame reply ++ tail.

(** The next frame of the stream. *)
Definition next (junk : list (list Z)) : list Z := match junk with j :: _ => j | [] => reply end.

Lemma scan_stream d : forall fuel junk b future,
  Forall skippable junk -> (length b < fuel)%nat -> b ++ future = stream junk ->
  (exists left, scan_buffer accept fuel b d = (Got reply, left, d) /\ left ++ future = tail)
  \/ (exists junk' b', scan_buffer accept fuel b d = (More, b', d) /\ Forall skippable junk'
      /\ b' ++ future = stream junk' /\ (length b' < length (frame (next junk')))%nat).
Proof.
  induction fuel as [|fuel IH]; intros junk b future Hj Hf E; [lia|]. cbn [scan_buffer].
  destruct junk as [|j junk].
  - pose proof (unframe_front reply b future tail Hsize E) as H.
    destruct (Nat.ltb_spec (length b) (2 + length reply)) as [Hlt|Hge].
    + right. exists [], b. rewrite H. split_and!; [done|constructor|done|by rewrite length_frame].
    + destruct H as (left & -> & El & ->). rewrite Hreply. left. by exists left.
  - pose proof Hj as [[Hj1 Hj2] Hjs]%Forall_cons. unfold stream in E. cbn [fmap list_fmap concat] in E.
    rewrite <- app_assoc in E. pose proof (unframe_front j b future _ Hj1 E) as H.
    destruct (Nat.ltb_spec (length b) (2 + length j)) as [Hlt|Hge].
    + right. exists (j :: junk), b. rewrite H. split_and!; [done|done| |by cbn [next]; rewrite length_frame].
      rewrite E. unfold stream. cbn [fmap list_fmap concat]. by rewrite <- app_assoc.
    + destruct H as (left & -> & El & ->). rewrite Hj2. apply (IH junk); [done| |exact El].
      rewrite length_app, length_frame in Hf. lia.
Qed.

Definition heard (ns : list (bool * list Z)) : list Z :=
  concat ((fun n : bool * list Z => if fst n then snd n else []) <$> ns).

Lemma receive_stream d : forall ns junk b, Forall skippable junk -> b ++ heard ns = stream junk ->
  exists left ns', receive accept ended ns b d = (Ok reply, left, d) /\ left ++ heard ns' = tail.
Proof.
  induction ns as [|[ours v] ns IH]; intros junk b Hj E; cbn [receive];
    (destruct (scan_stream d (S (length b)) junk b _ Hj ltac:(lia) E) as [(left & Es & El)|(junk' & b' & Es & Hj' & E' & Hlt)];
     rewrite Es); [exists left; eexists; split; [reflexivity|exact El]| |exists left; eexists; split; [reflexivity|exact El]|].
  - exfalso. cbn in E'. rewrite app_nil_r in E'. rewrite E' in Hlt. unfold stream in Hlt.
    destruct junk' as [|j junk']; cbn [next fmap list_fmap concat] in Hlt; rewrite !length_app in Hlt; lia.
  - apply (IH junk'); [done|]. rewrite <- E'. unfold heard. cbn [fmap list_fmap concat fst snd].
    destruct ours; [by rewrite <- app_assoc|done].
Qed.

End Receive.

(** ** Chunking *)

Lemma round_trip_finds (request reply tail : list Z) (accept : list Z -> bool) (junk : list (list Z))
    (link : Link) (c : Connection) :
  wanted accept reply = true -> (length reply <= 1024)%nat -> Forall (skippable accept) junk ->
  l_probe link <> Some false -> l_writes link = None ->
  heard (l_rx link) = stream reply tail junk ->
  exists left ns' cs,
    round_trip request accept link c
    = (Ok reply, mkConn left (Z.min (2 ^ 32 - 1) (framing_desync_recoveries c + 0)) (att_mtu c) true, cs)
    /\ left ++ heard ns' = tail
    /\ concat cs = frame request
    /\ Forall (fun x => x <> [] /\ (length x <= Nat.min 512 (Nat.max 20 (att_mtu c - 3)))%nat) cs.
Proof.
  intros Hw Hs Hj Hp Hwr E. unfold round_trip. rewrite Hwr. cbv zeta. cbn [rx_buffer att_mtu framing_desync_recoveries].
  rewrite (bool_decide_false (l_probe link = Some false)) by done. rewrite andb_false_r.
  set (buf := if negb _ || negb _ then [] else rx_buffer c).
  assert (buf = []) as ->.
  { unfold buf. destruct (rx_buffer c); cbn; [by destruct (negb _)|]. by rewrite orb_true_r. }
  destruct (receive_stream accept (l_ended link) reply tail Hw Hs 0 (l_rx link) junk [] Hj E) as (left & ns' & -> & El).
  destruct (chunks_spec (chunk_size (att_mtu c)) ltac:(unfold chunk_size; lia) (length (frame request)) (frame request)) as [Ec Fc]; [done|].
  eexists left, ns', _. split; [reflexivity|]. split_and!; [done|exact Ec|exact Fc].
Qed.

(** A round trip delivers under any chunking. On a live link whose writes
    succeed, the request goes out as its frame, cut into non-empty pieces no
    longer than the negotiated MTU allows; and when what the car sends back is
    any number of skippable frames (short, broadcast, or not answers to this
    request), the wanted reply and anything after it, cut into notifications at
    any points and mixed with those of other characteristics, the round trip
    returns exactly the reply, counts no desync and keeps every byte after it. *)
Theorem round_trip_delivers (request reply tail : list Z) (accept : list Z -> bool) (junk : list (list Z))
    (link : Link) (c : Connection) :
  wanted accept reply = true -> (length reply <= 1024)%nat -> Forall (skippable accept) junk ->
  l_probe link <> Some false -> l_writes link = None ->
  heard (l_rx link) = stream reply tail junk ->
  exists left ns' cs,
    round_trip request accept link c
    = (Ok reply, mkConn left (Z.min (2 ^ 32 - 1) (framing_desync_recoveries c + 0)) (att_mtu c) true, cs)
    /\ left ++ heard ns' = tail
    /\ concat cs = frame request
    /\ Forall (fun x => x <> [] /\ (length x <= Nat.min 512 (Nat.max 20 (att_mtu c - 3)))%nat) cs.
Proof. apply round_trip_finds. Qed.

Definition demo_reply : list Z := [1; 2; 3; 4; 5; 6; 7; 8; 9].
Definition demo_accept (p : list Z) : bool := bool_decide (head p = Some 1).

(** A short frame, the reply cut in two around a notification of another
    characteristic, and the start of a later frame. *)
Definition demo_link : Link :=
  mkLink None None [(true, [0; 2; 5; 5; 0]); (false, [9; 9]); (true, [9; 1; 2; 3]); (true, [4; 5; 6; 7; 8; 9; 0])] false.

Lemma round_trip_delivers_witness :
  exists left ns' cs,
    round_trip [42] demo_accept demo_link (mkConn [7] 0 23 false) = (Ok demo_reply, mkConn left 0 23 true, cs)
    /\ left ++ heard ns' = [0].
Proof.
  destruct (round_trip_delivers [42] demo_reply [0] demo_accept [[5; 5]] demo_link (mkConn [7] 0 23 false))
    as (left & ns' & cs & E & El & _); [reflexivity|cbn; lia| |discriminate|reflexivity|reflexivity|].
  - constructor; [split; [cbn; lia|reflexivity]|constructor].
  - exists left, ns', cs. split; [exact E|exact El].
Defined.

(** ** Signed metadata *)

Lemma write_tlv_inj tag v1 v2 r1 r2 : (length v1 < 256)%nat -> (length v2 < 256)%nat ->
  write_tlv tag v1 ++ r1 = write_tlv tag v2 ++ r2 -> v1 = v2 /\ r1 = r2.
Proof.
  intros H1 H2. unfold write_tlv. cbn. intros [= Hl E]. rewrite !Z.mod_small in Hl by lia.
  apply app_inj_1; [lia|done].
Qed.

Definition is_u32 (z : Z) : Prop := 0 <= z < 2 ^ 32.

Lemma be4_inj a b : is_u32 a -> is_u32 b -> to_be_bytes 4 a = to_be_bytes 4 b -> a = b.
Proof.
  intros Ha Hb E. unfold to_be_bytes in E. apply (f_equal (@rev Z)) in E. rewrite !rev_involutive in E.
  apply (f_equal le_val) in E. rewrite !le_val_bytes in E. unfold is_u32 in *.
  rewrite !Z.mod_small in E by (cbn; lia). done.
Qed.

Lemma domain_byte_inj d1 d2 : domain_i32 d1 mod 256 = domain_i32 d2 mod 256 -> d1 = d2.
Proof. by destruct d1, d2. Qed.

Ltac tlv H E :=
  apply write_tlv_inj in H as [E H]; [|rewrite ?length_be; cbn [length]; lia..].

(** The signed metadata is unambiguous. Two request streams agree only when
    domain, VIN, epoch, expiry, counter and flags all agree; two response streams
    only when domain, VIN, counter, flags, fault and the request's signature type
    and tag do; and a request stream is never a response stream. Identifiers are
    shorter than the one-byte length allows and numbers are 32 bits. *)
Theorem metadata_unambiguous (d1 d2 : Domain) (vin1 vin2 x1 x2 : list Z) (a1 a2 b1 b2 c1 c2 : Z) (t1 t2 : Z) :
  (length vin1 < 256)%nat -> (length vin2 < 256)%nat -> (length x1 < 255)%nat -> (length x2 < 255)%nat ->
  is_u32 a1 -> is_u32 a2 -> is_u32 b1 -> is_u32 b2 -> is_u32 c1 -> is_u32 c2 ->
  (build_metadata d1 vin1 x1 a1 b1 c1 = build_metadata d2 vin2 x2 a2 b2 c2 ->
     d1 = d2 /\ vin1 = vin2 /\ x1 = x2 /\ a1 = a2 /\ b1 = b2 /\ c1 = c2)
  /\ (build_response_metadata d1 vin1 a1 b1 t1 x1 c1 = build_response_metadata d2 vin2 a2 b2 t2 x2 c2 ->
     d1 = d2 /\ vin1 = vin2 /\ x1 = x2 /\ a1 = a2 /\ b1 = b2 /\ c1 = c2 /\ t1 = t2)
  /\ build_metadata d1 vin1 x1 a1 b1 c1 <> build_response_metadata d2 vin2 a2 b2 t2 x2 c2.
Proof.
  intros Hv1 Hv2 Hx1 Hx2 Ha1 Ha2 Hb1 Hb2 Hc1 Hc2. split_and!.
  - unfold build_metadata. intros H. tlv H E0. tlv H E1. tlv H E2. tlv H E3. tlv H E4. tlv H E5. tlv H E6.
    injection E1 as E1. split_and!; [by apply domain_byte_inj|done|done|by apply be4_inj..].
  - unfold build_response_metadata. intros H. tlv H E0. tlv H E1. tlv H E2. tlv H E3. tlv H E4. tlv H E5. tlv H E6.
    injection E1 as E1. injection E5 as ? E5. split_and!; [by apply domain_byte_inj|done|done|by apply be4_inj..|done].
  - discriminate.
Qed.

Lemma metadata_unambiguous_witness :
  build_metadata Infotainment [5] [1; 2] 9 3 2 <> build_metadata Infotainment [5] [1; 2] 9 4 2
  /\ build_metadata Infotainment [5] [1; 2] 9 3 2 <> build_response_metadata Infotainment [5] 9 4 5 [1; 2] 2.
Proof.
  destruct (metadata_unambiguous Infotainment Infotainment [5] [5] [1; 2] [1; 2] 9 9 3 4 2 2 5 5) as (H & _ & Hn);
    try (cbn; lia); try (split; [discriminate|reflexivity]).
  split; [|exact Hn]. intros E. apply H in E as (_ & _ & _ & _ & Hc & _). discriminate.
Defined.

(** ** Signing and opening *)

(** What AES-GCM promises: opening what was sealed under the same key, nonce and
    associated data gives the message back; the output carries its tag. *)
Class AeadLaws (C : Crypto) : Prop := {
  open_seal : forall key nonce msg aad out, seal C key nonce msg aad = Some out -> open_ C key nonce out aad = Some msg;
  seal_length : forall key nonce msg aad out, seal C key nonce msg aad = Some out -> length out = (length msg + 16)%nat;
}.

(** How the receiver of a signed message rebuilds its metadata: the domain it
    was sent to, the fields of the signature and the flags of the envelope. *)
Definition vehicle_open (C : Crypto) (key vin : list Z) (rm : RoutableMessage) : option (list Z) :=
  match to_destination rm, payload rm, sub_sig_data rm with
  | Some (Some (DomainDest d)), Some (ProtobufMessageAsBytes body),
    Some (mkSig _ (Some (AesGcmPersonalizedData epoch nonce counter expires_at tag))) =>
      let domain := if d =? 2 then VehicleSecurity else if d =? 3 then Infotainment else BroadcastDomain in
      open_ C key nonce (body ++ tag)
        (metadata_aad C (build_metadata domain vin epoch expires_at counter (flags rm)))
  | _, _, _ => None
  end.

(** An answer sealed for a request's tag opens under that tag. *)
Lemma decrypt_sealed (C : Crypto) `{!AeadLaws C} key tag domain vin rflags rcounter fault rnonce answer out :
  length rnonce = 12%nat ->
  seal C key rnonce answer (metadata_aad C (build_response_metadata domain vin rcounter rflags
    SIG_TYPE_AES_GCM_PERSONALIZED tag fault)) = Some out ->
  decrypt_response C key tag domain vin rflags rcounter fault rnonce
    (drop (length out - 16) out) (take (length out - 16) out) = Ok answer.
Proof.
  intros Hn Ho. unfold decrypt_response. rewrite Hn. cbn [Nat.eqb negb]. rewrite take_drop, (open_seal _ _ _ _ _ Ho). done.
Qed.

(** A signed request opens on the other side, and its answer here. The
    vehicle, rebuilding the metadata from the message alone, recovers the inner
    payload of every message [sign] makes; and an answer it seals under the
    response metadata of that request's tag is what [decrypt_response] returns. *)
Theorem signed_exchange_opens (C : Crypto) `{!AeadLaws C} (key pubkey inner vin epoch nonce from_uuid req_uuid : list Z)
    (domain : Domain) (expires_at counter fl : Z) (parts : SignedParts) :
  sign C key pubkey inner domain vin epoch expires_at counter fl nonce = Ok parts ->
  vehicle_open C key vin (build_signed_routable_message parts domain fl from_uuid req_uuid) = Some inner
  /\ sp_counter parts = counter
  /\ exists tag, sig_type (signature_data parts) = Some (AesGcmPersonalizedData epoch nonce counter expires_at tag)
     /\ length tag = 16%nat
     /\ forall rnonce rcounter rflags fault answer out, length rnonce = 12%nat ->
        seal C key rnonce answer (metadata_aad C (build_response_metadata domain vin rcounter rflags
          SIG_TYPE_AES_GCM_PERSONALIZED tag fault)) = Some out ->
        decrypt_response C key tag domain vin rflags rcounter fault rnonce
          (drop (length out - 16) out) (take (length out - 16) out) = Ok answer.
Proof.
  unfold sign. destruct (seal C key nonce inner _) as [combined|] eqn:Es; cbn [ok_or rbind]; [|done].
  pose proof (seal_length _ _ _ _ _ Es) as Hl. rewrite (proj2 (Nat.ltb_ge _ _)) by lia. intros [= <-]. split_and!.
  - unfold vehicle_open. cbn [to_destination payload sub_sig_data build_signed_routable_message signature_data ciphertext flags].
    rewrite take_drop. assert ((if domain_i32 domain =? 2 then VehicleSecurity
      else if domain_i32 domain =? 3 then Infotainment else BroadcastDomain) = domain) as -> by by destruct domain.
    by eapply open_seal.
  - done.
  - eexists. split; [reflexivity|]. split; [rewrite length_drop; lia|].
    intros rnonce rcounter rflags fault answer out Hn Ho. by apply decrypt_sealed.
Qed.

(** A cipher with the laws: the message, masked by nothing, and a tag that names
    its inputs' lengths. *)
Definition demo_crypto : Crypto :=
  mkCrypto (fun key nonce msg aad => Some (msg ++ repeat (Z.of_nat (length aad)) 16))
    (fun key nonce out aad =>
       let n := (length out - 16)%nat in
       if bool_decide (drop n out = repeat (Z.of_nat (length aad)) 16) then Some (take n out) else None)
    (fun m => m).

Lemma demo_open msg (tag : list Z) : length tag = 16%nat ->
  (let n := (length (msg ++ tag) - 16)%nat in
   if bool_decide (drop n (msg ++ tag) = tag) then Some (take n (msg ++ tag)) else None) = Some msg.
Proof.
  intros Ht. cbv zeta. replace (length (msg ++ tag) - 16)%nat with (length msg) by (rewrite length_app; lia).
  by rewrite drop_app_length, take_app_length, bool_decide_true.
Qed.

#[export] Instance demo_aead : AeadLaws demo_crypto.
Proof.
  split; intros key nonce msg aad out E; injection E as <-.
  - apply demo_open. reflexivity.
  - by rewrite length_app.
Qed.

Definition demo_parts : SignedParts :=
  mkParts [42] (mkSig (Some [4]) (Some (AesGcmPersonalizedData [1] [2] 7 60 (repeat 31 16)))) 7.

Lemma signed_exchange_opens_witness :
  vehicle_open demo_crypto [] [5] (build_signed_routable_message demo_parts Infotainment 2 [8] [9]) = Some [42].
Proof.
  apply (signed_exchange_opens demo_crypto [] [4] [42] [5] [1] [2] [8] [9] Infotainment 60 7 2 demo_parts).
  vm_compute. reflexivity.
Defined.
