(* ===== verification/BleSession.v ===== *)
(** * The persistent vehicle session
    ([crates/tesla_ble/src/{manager,session,body_controller}.rs], [crates/ble_health/src/lib.rs])

    The background task that owns the connection: connecting with backoff, the
    per-domain handshake and its refresh, signed requests with their counter and
    retry budget, the transport error policy and the health record. Each command
    runs to completion before the next. The protobuf codec and the key agreement
    are parameters; what the radio, the car and the clocks do during an attempt
    is that attempt's input. Instants and durations are in nanoseconds. *)

From Stdlib Require Import ZArith Lia.
From stdpp Require Import base gmap list.
From S2P Require Import Prelude Bytes Str BleWire.

Import BleWire.
Open Scope Z_scope.

Module BleSession.

Definition U32_MAX : Z := 2 ^ 32 - 1.
Definition NANOS : Z := 1000000000.
Definition RECONNECT_BACKOFF_MIN : Z := 1500000000.
Definition RECONNECT_BACKOFF_MAX : Z := 30 * NANOS.
Definition ADAPTER_REBUILD_AFTER : Z := 5.
Definition EXPIRES_WINDOW : Z := 60.
Definition QUERY_FLAGS : Z := 2.
Definition MAX_QUERY_TIMEOUT_RETRIES : Z := 2.
Definition FORCE_RECONNECT_COOLDOWN : Z := 90 * NANOS.
Definition SAMPLES_FOR_PERCENTILES : nat := 100%nat.
Definition KEEPALIVE_IDLE : Z := 6 * NANOS.

Definition sat_succ (n : Z) : Z := Z.min U32_MAX (n + 1).
Definition sat_add32 (a b : Z) : Z := Z.min U32_MAX (a + b).
Definition since (t now : Z) : Z := u_sat_sub now t.

#[export] Instance domain_countable : Countable Domain.
Proof.
  refine (inj_countable' domain_i32
    (fun z => if z =? 2 then VehicleSecurity else if z =? 3 then Infotainment else BroadcastDomain) _).
  by intros [].
Defined.

(** ** Health record *)

Inductive FaultKind := RepairRequired | TransportError | ProtocolError.
#[export] Instance fault_eq_dec : EqDecision FaultKind.
Proof. solve_decision. Defined.
Record HealthRecord := mkHealth { fault : FaultKind; since_ts : Z }.

(** [record_fault_at] on the stored record. *)
Definition record_fault_at (f : FaultKind) (now_ts : Z) (h : option HealthRecord) : option HealthRecord :=
  match h with
  | Some existing =>
      if bool_decide (fault existing = RepairRequired) && negb (bool_decide (f = RepairRequired)) then h
      else if bool_decide (fault existing = f) then h
      else Some (mkHealth f now_ts)
  | None => Some (mkHealth f now_ts)
  end.

(** [record_success_at] for an authenticated exchange. *)
Definition clear_all_at (h : option HealthRecord) : option HealthRecord := None.

Inductive Severity := Green | Yellow | Red.

(** The severity and code of [classify_health]. *)
Definition classify_health (record : option HealthRecord) (last_ok : Z) (keep_awake archiving : bool) (now_ts : Z)
  : Severity * str * option Z :=
  let repair := match record with Some r => bool_decide (fault r = RepairRequired) | None => false end in
  if repair then (Red, lit "repair_required", since_ts <$> record)
  else if keep_awake then
    if archiving then (Yellow, lit "paused_archiving", None) else (Yellow, lit "paused_keep_awake", None)
  else match record with
       | Some r => if last_ok <=? since_ts r then (Yellow, lit "reconnecting", Some (since_ts r)) else
           (if (0 <? last_ok) && (Z.max 0 (now_ts - last_ok) <? 60) then (Green, lit "connected", Some last_ok)
            else if (0 <? last_ok) && (Z.max 0 (now_ts - last_ok) <? 600) then (Yellow, lit "delayed", Some last_ok)
            else (Yellow, lit "idle", if 0 <? last_ok then Some last_ok else None))
       | None =>
           if (0 <? last_ok) && (Z.max 0 (now_ts - last_ok) <? 60) then (Green, lit "connected", Some last_ok)
           else if (0 <? last_ok) && (Z.max 0 (now_ts - last_ok) <? 600) then (Yellow, lit "delayed", Some last_ok)
           else (Yellow, lit "idle", if 0 <? last_ok then Some last_ok else None)
       end.

(** ** Errors *)

(** The fixed text of an error's chain, as [format!("{e:#}")] renders it. *)
Definition text (e : ble_error) : str :=
  match e with
  | EFrameTooLong _ => lit "framed payload claims length, refusing (cap is 1024)"
  | EDesyncs _ => lit "exceeded framing desyncs in one round_trip"
  | EStreamEnded => lit "notification stream ended"
  | EDeadline => lit "waiting for response: deadline has elapsed"
  | ENotConnectedBeforeTx => lit "BLE write: peripheral.is_connected()=false before TX"
  | EWrite => lit "BLE write"
  | EConnect => lit "could not reach vehicle (connect-layer failure)"
  | EKeyNotPaired => lit "key not paired with car (SESSION_INFO_STATUS_KEY_NOT_ON_WHITELIST)"
  | ENotRegistered => lit "BLE pair not registered with car"
  | ESession => lit "session-info handshake"
  | EDeriveKey => lit "deriving session key"
  | ERollover => lit "counter rollover"
  | ENoConnection => lit "not connected after ensure_connected (bug)"
  | ENoHandle => lit "ensure_connected returned without a connection"
  | ENoDomain => lit "domain session not present after ensure_domain_session (bug)"
  | EEncrypt => lit "AES-GCM encrypt"
  | EShortOutput => lit "aes-gcm output too short to contain a tag"
  | EDecode => lit "decoding response RoutableMessage"
  | EStaleRefresh => lit "SessionInfo refresh arrived after the request was sent"
  | EFault _ => lit "car responded with fault code"
  | ETooLarge => lit "car refused: reply exceeds its response size limit (fault 25)"
  | EStatus _ => lit "car returned OPERATIONSTATUS"
  | ENoSignature => lit "response has no sub_sig_data at all"
  | EWrongSignature => lit "response signature_data was not AES_GCM_Response"
  | ENoPayload => lit "response missing encrypted payload"
  | ENonceLength => lit "response nonce must be 12 bytes"
  | EDecrypt => lit "AES-GCM response decrypt"
  | EWaitTwice => lit "car returned OPERATIONSTATUS_WAIT twice in a row"
  | ERefreshLoop => lit "car kept requesting SessionInfo refresh even after a clean re-handshake"
  end.

Definition is_transport_error (e : ble_error) : bool :=
  contains (text e) (lit "notification stream ended") || contains (text e) (lit "BLE write")
  || contains (text e) (lit "not connected") || contains (text e) (lit "Peripheral").
Definition is_query_response_timeout (e : ble_error) : bool := contains (text e) (lit "waiting for response").
Definition is_decrypt_error (e : ble_error) : bool := contains (text e) (lit "AES-GCM response decrypt").
Definition is_connect_failure (e : ble_error) : bool := match e with EConnect => true | _ => false end.
Definition is_response_too_large (e : ble_error) : bool := match e with ETooLarge => true | _ => false end.
Definition is_repair_required_fault_code (f : Z) : bool := f =? 3.

Definition fault_for_anyhow_error (e : ble_error) : FaultKind :=
  match e with
  | EKeyNotPaired => RepairRequired
  | _ => if is_connect_failure e || is_transport_error e || is_query_response_timeout e
         then TransportError else ProtocolError
  end.

(** ** State *)

Record DomainSession := mkDomain {
  ds_key : list Z; ds_epoch : list Z; ds_counter : Z; ds_clock_at_handshake : Z; ds_handshake_at : Z;
}.

(** [cached_adapter] is whether one is cached; the scan's signal strength and
    address are only reported and left out. *)
Record SessionState := mkSession {
  conn : option Connection; domains : gmap Domain DomainSession; backoff : Z; connected_at : option Z;
  queries_since_connect : Z; last_successful_query_at : option Z; lifetime_drops : Z;
  recent_latencies_ms : list Z; session_desyncs : Z; cached_adapter : bool;
  consecutive_connect_failures : Z; query_timeout_retries : Z; last_force_reconnect_at : option Z;
  health : option HealthRecord;
}.

Definition start : SessionState :=
  mkSession None ∅ RECONNECT_BACKOFF_MIN None 0 None 0 [] 0 false 0 0 None None.

Definition set_conn (c : option Connection) (s : SessionState) : SessionState :=
  mkSession c (domains s) (backoff s) (connected_at s) (queries_since_connect s) (last_successful_query_at s)
    (lifetime_drops s) (recent_latencies_ms s) (session_desyncs s) (cached_adapter s)
    (consecutive_connect_failures s) (query_timeout_retries s) (last_force_reconnect_at s) (health s).
Definition set_domains (d : gmap Domain DomainSession) (s : SessionState) : SessionState :=
  mkSession (conn s) d (backoff s) (connected_at s) (queries_since_connect s) (last_successful_query_at s)
    (lifetime_drops s) (recent_latencies_ms s) (session_desyncs s) (cached_adapter s)
    (consecutive_connect_failures s) (query_timeout_retries s) (last_force_reconnect_at s) (health s).
Definition set_health (h : option HealthRecord) (s : SessionState) : SessionState :=
  mkSession (conn s) (domains s) (backoff s) (connected_at s) (queries_since_connect s) (last_successful_query_at s)
    (lifetime_drops s) (recent_latencies_ms s) (session_desyncs s) (cached_adapter s)
    (consecutive_connect_failures s) (query_timeout_retries s) (last_force_reconnect_at s) h.

Definition record_health_fault (f : FaultKind) (now_ts : Z) (s : SessionState) : SessionState :=
  set_health (record_fault_at f now_ts (health s)) s.

(** ** Connecting *)

(** What the radio and the car do during one attempt of a command. *)
Record Attempt := mkAttempt {
  a_adapter : bool;               (* the adapter can be found *)
  a_open : option nat;            (* the scan and the GATT open succeed, with this MTU *)
  a_connected_at : Z;
  a_hs_link : Link;               (* the link during the handshake *)
  a_link : Link;                  (* the link during the request *)
  a_hs_uuids : list Z * list Z;   (* random identifiers of the handshake *)
  a_uuids : list Z * list Z;      (* and of the request *)
  a_nonce : list Z;
  a_installed_at : Z; a_estimate_at : Z; a_sent_at : Z; a_reply_at : Z; a_refreshed_at : Z;
  a_unix : Z;                     (* wall clock for the health record *)
}.

Definition note_connect_failure (s : SessionState) : SessionState :=
  let n := sat_succ (consecutive_connect_failures s) in
  let rebuild := ADAPTER_REBUILD_AFTER <=? n in
  mkSession (conn s) (domains s) (backoff s) (connected_at s) (queries_since_connect s) (last_successful_query_at s)
    (lifetime_drops s) (recent_latencies_ms s) (session_desyncs s)
    (if rebuild then false else cached_adapter s) (if rebuild then 0 else n)
    (query_timeout_retries s) (last_force_reconnect_at s) (health s).

Definition grow_backoff (s : SessionState) : SessionState :=
  mkSession (conn s) (domains s) (Z.min (backoff s * 2) RECONNECT_BACKOFF_MAX) (connected_at s)
    (queries_since_connect s) (last_successful_query_at s) (lifetime_drops s) (recent_latencies_ms s)
    (session_desyncs s) (cached_adapter s) (consecutive_connect_failures s) (query_timeout_retries s)
    (last_force_reconnect_at s) (health s).

Definition with_adapter (s : SessionState) : SessionState :=
  mkSession (conn s) (domains s) (backoff s) (connected_at s) (queries_since_connect s) (last_successful_query_at s)
    (lifetime_drops s) (recent_latencies_ms s) (session_desyncs s) true (consecutive_connect_failures s)
    (query_timeout_retries s) (last_force_reconnect_at s) (health s).

Definition ensure_connected (a : Attempt) (s : SessionState) : result ble_error unit * SessionState :=
  match conn s with
  | Some _ => (Ok tt, s)
  | None =>
      if negb (cached_adapter s) && negb (a_adapter a)
      then (Err EConnect, grow_backoff (note_connect_failure s))
      else
        let s := with_adapter s in
        match a_open a with
        | None => (Err EConnect, grow_backoff (note_connect_failure s))
        | Some mtu =>
            (Ok tt, mkSession (Some (mkConn [] 0 mtu true)) (domains s) RECONNECT_BACKOFF_MIN
                      (Some (a_connected_at a)) 0 (last_successful_query_at s) (lifetime_drops s) []
                      (session_desyncs s) (cached_adapter s) 0 0 None (health s))
        end
  end.

(** ** Handshake *)

(** The generated codec and the key agreement. *)
Record Codec := mkCodec {
  encode : RoutableMessage -> list Z; decode : list Z -> option RoutableMessage;
  decode_info : list Z -> option SessionInfo; derive_session_key : list Z -> option (list Z);
  parse_vehicle_status : list Z -> option (list Z);
}.

(** What is recorded of a run: a session installed with a counter, a request
    signed with one. *)
Inductive event := Installed (d : Domain) (counter : Z) | Signed (d : Domain) (counter : Z).

Section Session.
Context (P : Codec) (C : Crypto) (pub_uncompressed vin get_status add_key_request : list Z).

(** [request_session_info]: request, round trip, correlation, parse. *)
Definition parse_response (bytes : list Z) : result ble_error SessionInfo :=
  match decode P bytes with
  | None => Err ESession
  | Some rm =>
      if match signed_message_status rm with Some (_, f) => f =? 3 | None => false end then Err EKeyNotPaired
      else match payload rm with
           | Some (SessionInfoBytes raw) =>
               match decode_info P raw with
               | None => Err ESession
               | Some info => if si_status info =? 1 then Err EKeyNotPaired else Ok info
               end
           | _ => Err ESession
           end
  end.

Definition request_session_info (domain : Domain) (uuids : list Z * list Z) (link : Link) (c : Connection)
  : result ble_error SessionInfo * Connection :=
  let msg := mkRoutable (Some (Some (DomainDest (domain_i32 domain)))) (Some (Some (RoutingAddress (fst uuids))))
               (Some (SessionInfoRequest pub_uncompressed)) None None [] (snd uuids) 0 in
  let bytes := encode P msg in
  let '(our_uuid, our_addr) := our_correlators (decode P) bytes in
  let '(r, c, _) := round_trip bytes (fun b => is_response_to (decode P) b our_uuid our_addr domain) link c in
  (let? resp := r in parse_response resp, c).

(** A session from the vehicle's info. *)
Definition install (domain : Domain) (info : SessionInfo) (key : list Z) (at_ : Z) (s : SessionState) : SessionState :=
  set_domains (<[domain := mkDomain key (si_epoch info) (si_counter info) (si_clock_time info) at_]> (domains s)) s.

Definition ensure_domain_session (domain : Domain) (a : Attempt) (s : SessionState)
  : result ble_error unit * SessionState * list event :=
  match domains s !! domain with
  | Some _ => (Ok tt, s, [])
  | None =>
      match conn s with
      | None => (Err ENoHandle, s, [])
      | Some c =>
          let '(r, c) := request_session_info domain (a_hs_uuids a) (a_hs_link a) c in
          let s := set_conn (Some c) s in
          match r with
          | Err EKeyNotPaired => (Err ENotRegistered, record_health_fault RepairRequired (a_unix a) s, [])
          | Err e => (Err e, s, [])
          | Ok info =>
              match derive_session_key P (si_public_key info) with
              | None => (Err EDeriveKey, s, [])
              | Some key => (Ok tt, install domain info key (a_installed_at a) s, [Installed domain (si_counter info)])
              end
          end
      end
  end.

(** ** One signed request *)

Inductive QueryOutcome := Plaintext (b : list Z) | SessionRefresh (info : SessionInfo) | OperationWait.

Definition estimated_car_clock (d : DomainSession) (now : Z) : Z :=
  sat_add32 (ds_clock_at_handshake d) ((since (ds_handshake_at d) now / NANOS) mod 2 ^ 32).

Definition recoverable (f : Z) : bool := (f =? 5) || (f =? 6) || (f =? 15) || (f =? 17).

Definition drop_domain (domain : Domain) (s : SessionState) : SessionState := set_domains (delete domain (domains s)) s.

Definition domain_from (z : Z) : option Domain :=
  if z =? 0 then Some BroadcastDomain else if z =? 2 then Some VehicleSecurity
  else if z =? 3 then Some Infotainment else None.

(** What an answer means, with the session and tag it is read under. *)
Definition read_answer (domain : Domain) (ds : DomainSession) (request_tag resp : list Z) (a : Attempt)
    (s : SessionState) : result ble_error QueryOutcome * SessionState :=
  match decode P resp with
  | None => (Err EDecode, s)
  | Some rm =>
      let f := match signed_message_status rm with Some (_, f) => f mod 2 ^ 32 | None => 0 end in
      let op_status := match signed_message_status rm with Some (o, _) => o | None => 0 end in
      match payload rm with
      | Some (SessionInfoBytes raw) =>
          match decode_info P raw with
          | None => (Err EDecode, s)
          | Some info =>
              if 10 * NANOS <? since (a_sent_at a) (a_reply_at a) then (Err EStaleRefresh, s)
              else if si_status info =? 1 then (Err EKeyNotPaired, s)
              else (Ok (SessionRefresh info), s)
          end
      | pl =>
          if negb (f =? 0) then
            if is_repair_required_fault_code f then (Err EKeyNotPaired, s)
            else
              let s := if recoverable f then drop_domain domain s else s in
              if f =? 25 then (Err ETooLarge, s) else (Err (EFault f), s)
          else match sub_sig_data rm with
               | None =>
                   if negb (op_status =? 0)
                   then if op_status =? 1 then (Ok OperationWait, s) else (Err (EStatus op_status), s)
                   else (Err ENoSignature, s)
               | Some (mkSig _ (Some (AesGcmResponseData nonce counter tag))) =>
                   match pl with
                   | Some (ProtobufMessageAsBytes body) =>
                       let from_domain := default domain (domain_of (from_destination rm) ≫= domain_from) in
                       match decrypt_response C (ds_key ds) request_tag from_domain vin (flags rm) counter f
                               nonce tag body with
                       | Ok plain => (Ok (Plaintext plain), s)
                       | Err e => (Err e, drop_domain domain s)
                       end
                   | _ => (Err ENoPayload, s)
                   end
               | Some _ => (Err EWrongSignature, s)
               end
      end
  end.

Definition try_signed_request_once (domain : Domain) (inner : list Z) (a : Attempt) (s : SessionState)
  : result ble_error QueryOutcome * SessionState * list event :=
  match ensure_connected a s with
  | (Err e, s) => (Err e, s, [])
  | (Ok _, s) =>
      match ensure_domain_session domain a s with
      | (Err e, s, ev) => (Err e, s, ev)
      | (Ok _, s, ev) =>
          match domains s !! domain, conn s with
          | Some ds, Some c =>
              if ds_counter ds =? U32_MAX then (Err ERollover, drop_domain domain s, ev)
              else
                let counter := ds_counter ds + 1 in
                let expires_at := sat_add32 (estimated_car_clock ds (a_estimate_at a)) EXPIRES_WINDOW in
                match sign C (ds_key ds) pub_uncompressed inner domain vin (ds_epoch ds) expires_at counter
                        QUERY_FLAGS (a_nonce a) with
                | Err e => (Err e, s, ev)
                | Ok parts =>
                    let envelope := encode P (build_signed_routable_message parts domain QUERY_FLAGS
                                                (fst (a_uuids a)) (snd (a_uuids a))) in
                    let ds := mkDomain (ds_key ds) (ds_epoch ds) counter (ds_clock_at_handshake ds) (ds_handshake_at ds) in
                    let s := set_domains (<[domain := ds]> (domains s)) s in
                    let '(our_uuid, our_addr) := our_correlators (decode P) envelope in
                    let '(r, c, _) := round_trip envelope
                          (fun b => is_response_to (decode P) b our_uuid our_addr domain) (a_link a) c in
                    let s := set_conn (Some c) s in
                    let ev := ev ++ [Signed domain counter] in
                    match r with
                    | Err e => (Err e, s, ev)
                    | Ok resp =>
                        let tag := match sig_type (signature_data parts) with
                                   | Some (AesGcmPersonalizedData _ _ _ _ tag) => tag | _ => [] end in
                        let '(o, s) := read_answer domain ds tag resp a s in (o, s, ev)
                    end
                end
          | _, None => (Err ENoConnection, s, ev)
          | None, _ => (Err ENoDomain, s, ev)
          end
      end
  end.

Definition apply_session_refresh (domain : Domain) (info : SessionInfo) (at_ : Z) (s : SessionState)
  : result ble_error SessionState :=
  match derive_session_key P (si_public_key info) with
  | None => Err EDeriveKey
  | Some key => Ok (install domain info key at_ s)
  end.

(** [signed_request_with_refresh_retry]: the attempts in order, the three
    budgets; [None] when the fuel ran out. *)
Fixpoint request_loop (fuel : nat) (domain : Domain) (inner : list Z) (attempts : list Attempt)
    (refresh wait stale : Z) (s : SessionState)
  : option (result ble_error (list Z) * SessionState * list event) :=
  match fuel, attempts with
  | S fuel, a :: rest =>
      let '(o, s, ev) := try_signed_request_once domain inner a s in
      let again refresh wait stale s ev :=
        match request_loop fuel domain inner rest refresh wait stale s with
        | Some (r, s, ev') => Some (r, s, ev ++ ev')
        | None => None
        end in
      match o with
      | Ok (Plaintext b) => Some (Ok b, s, ev)
      | Ok (SessionRefresh info) =>
          if refresh =? 0 then
            if 0 <? stale then again refresh wait (stale - 1) (drop_domain domain s) ev
            else Some (Err ERefreshLoop, s, ev)
          else
            match apply_session_refresh domain info (a_refreshed_at a) s with
            | Err e => Some (Err e, s, ev)
            | Ok s => again (refresh - 1) wait stale s (ev ++ [Installed domain (si_counter info)])
            end
      | Ok OperationWait =>
          if wait =? 0 then Some (Err EWaitTwice, s, ev) else again refresh (wait - 1) stale s ev
      | Err e =>
          if (0 <? stale) && is_decrypt_error e
          then again refresh wait (stale - 1) (drop_domain domain s) ev
          else Some (Err e, s, ev)
      end
  | _, _ => None
  end.

Definition signed_request_with_refresh_retry (domain : Domain) (inner : list Z) (attempts : list Attempt)
    (s : SessionState) : option (result ble_error (list Z) * SessionState * list event) :=
  request_loop 4 domain inner attempts 1 1 1 s.

(** ** Commands *)

(** Close the link and forget its sessions. *)
Definition tear_down (retries : Z) (forced : option Z) (s : SessionState) : SessionState :=
  mkSession None ∅ (backoff s) None 0 (last_successful_query_at s) (sat_succ (lifetime_drops s))
    (recent_latencies_ms s) (session_desyncs s) (cached_adapter s) (consecutive_connect_failures s)
    retries forced (health s).

Definition handle_transport_error_if_any {A} (r : result ble_error A) (now_ts : Z) (s : SessionState) : SessionState :=
  match r with
  | Ok _ => s
  | Err e =>
      if is_response_too_large e then s
      else
        let s := record_health_fault (fault_for_anyhow_error e) now_ts s in
        match conn s with
        | None => s
        | Some _ =>
            if is_query_response_timeout e && (1 <=? queries_since_connect s)
               && (query_timeout_retries s <? MAX_QUERY_TIMEOUT_RETRIES)
            then mkSession (conn s) (domains s) (backoff s) (connected_at s) (queries_since_connect s)
                   (last_successful_query_at s) (lifetime_drops s) (recent_latencies_ms s) (session_desyncs s)
                   (cached_adapter s) (consecutive_connect_failures s) (sat_succ (query_timeout_retries s))
                   (last_force_reconnect_at s) (health s)
            else if is_transport_error e || is_query_response_timeout e
            then tear_down (query_timeout_retries s) (last_force_reconnect_at s) s
            else s
        end
  end.

Definition note_successful_query (elapsed_ms now : Z) (s : SessionState) : SessionState :=
  let window := if (SAMPLES_FOR_PERCENTILES <=? length (recent_latencies_ms s))%nat
                then drop 1 (recent_latencies_ms s) else recent_latencies_ms s in
  mkSession (conn s) (domains s) (backoff s) (connected_at s) (sat_succ (queries_since_connect s)) (Some now)
    (lifetime_drops s) (window ++ [elapsed_ms]) (session_desyncs s) (cached_adapter s)
    (consecutive_connect_failures s) 0 (last_force_reconnect_at s) (health s).

(** Desync recoveries of the connection move to the session. *)
Definition fold_desyncs (s : SessionState) : SessionState :=
  match conn s with
  | Some c =>
      let s := set_conn (Some (mkConn (rx_buffer c) 0 (att_mtu c) (last_round_trip_clean c))) s in
      if 0 <? framing_desync_recoveries c
      then mkSession (conn s) (domains s) (backoff s) (connected_at s) (queries_since_connect s)
             (last_successful_query_at s) (lifetime_drops s) (recent_latencies_ms s)
             (sat_add32 (session_desyncs s) (framing_desync_recoveries c)) (cached_adapter s)
             (consecutive_connect_failures s) (query_timeout_retries s) (last_force_reconnect_at s) (health s)
      else s
  | None => s
  end.

Inductive PairingStatus := Paired | NotPaired | Unreachable.

Definition handle_check_pairing (a : Attempt) (s : SessionState) : result ble_error PairingStatus * SessionState :=
  match ensure_connected a s with
  | (Err e, s) => (Err e, s)
  | (Ok _, s) =>
      match conn s with
      | None => (Err ENoHandle, s)
      | Some c =>
          let '(r, c) := request_session_info Infotainment (a_hs_uuids a) (a_hs_link a) c in
          let s := set_conn (Some c) s in
          match r with
          | Ok _ => (Ok Paired, s)
          | Err EKeyNotPaired => (Ok NotPaired, record_health_fault RepairRequired (a_unix a) s)
          | Err e => (Err e, s)
          end
      end
  end.

(** The unauthenticated status query of [body_controller.rs]. *)
Definition handle_body_controller (a : Attempt) (s : SessionState) : result ble_error (list Z) * SessionState :=
  match ensure_connected a s with
  | (Err e, s) => (Err e, s)
  | (Ok _, s) =>
      match conn s with
      | None => (Err ENoHandle, s)
      | Some c =>
          let msg := mkRoutable (Some (Some (DomainDest (domain_i32 VehicleSecurity))))
                       (Some (Some (RoutingAddress (fst (a_uuids a))))) (Some (ProtobufMessageAsBytes get_status))
                       None None [] (snd (a_uuids a)) 2 in
          let bytes := encode P msg in
          let '(our_uuid, our_addr) := our_correlators (decode P) bytes in
          let '(r, c, _) := round_trip bytes (fun b => is_response_to (decode P) b our_uuid our_addr VehicleSecurity)
                              (a_link a) c in
          let s := set_conn (Some c) s in
          (let? resp := r in
           match decode P resp with
           | Some rm => match payload rm with
                        | Some (ProtobufMessageAsBytes body) => ok_or (parse_vehicle_status P body) EDecode
                        | _ => Err ENoPayload
                        end
           | None => Err EDecode
           end, s)
      end
  end.

(** [write_frame]: no reply is awaited. *)
Definition write_frame (bytes : list Z) (link : Link) (c : Connection) : result ble_error unit * Connection :=
  let c := mkConn [] (framing_desync_recoveries c) (att_mtu c) false in
  let cs := chunks_for_mtu (frame bytes) (att_mtu c) in
  if bool_decide (l_probe link = Some false) then (Err ENotConnectedBeforeTx, c)
  else match l_writes link with
       | Some n => if (n <? length cs)%nat then (Err EWrite, c) else (Ok tt, c)
       | None => (Ok tt, c)
       end.

Definition handle_add_key (a : Attempt) (s : SessionState) : result ble_error unit * SessionState :=
  match ensure_connected a s with
  | (Err e, s) => (Err e, s)
  | (Ok _, s) =>
      match conn s with
      | None => (Err ENoHandle, s)
      | Some c => let '(r, c) := write_frame add_key_request (a_link a) c in (r, set_conn (Some c) s)
      end
  end.

Inductive ForceReconnectOutcome := Closed | NoConn | Cooldown.

Definition handle_force_reconnect (now now_set : Z) (s : SessionState) : ForceReconnectOutcome * SessionState :=
  match conn s with
  | None => (NoConn, s)
  | Some _ =>
      if match last_force_reconnect_at s with
         | Some last => since last now <? FORCE_RECONNECT_COOLDOWN | None => false end
      then (Cooldown, s)
      else (Closed, tear_down 0 (Some now_set) s)
  end.

Inductive Command :=
| SignedRequest (domain : Domain) (inner : list Z) (* [Query] builds its inner request and does the same *)
| BodyController | CheckPairing | AddKey | ForceReconnect | Keepalive.

Inductive Answer :=
| Bytes (r : result ble_error (list Z)) | Pairing (p : PairingStatus) | Unit (r : result ble_error unit)
| Forced (o : ForceReconnectOutcome) | Nothing.

Record Turn := mkTurn {
  t_cmd : Command; t_attempts : list Attempt; t_first : Attempt; t_elapsed_ms : Z; t_now : Z; t_closed_at : Z;
  t_last_activity : Z;
}.

(** One turn of [run_session_task]. *)
Definition run_turn (k : Turn) (s : SessionState) : option (Answer * SessionState * list event) :=
  let a := t_first k in
  let ok s := note_successful_query (t_elapsed_ms k) (t_now k) s in
  match t_cmd k with
  | SignedRequest domain inner =>
      match signed_request_with_refresh_retry domain inner (t_attempts k) s with
      | None => None
      | Some (r, s, ev) =>
          let s := handle_transport_error_if_any r (a_unix a) s in
          let s := match r with Ok _ => ok (set_health (clear_all_at (health s)) s) | Err _ => s end in
          Some (Bytes r, fold_desyncs s, ev)
      end
  | BodyController =>
      let '(r, s) := handle_body_controller a s in
      let s := handle_transport_error_if_any r (a_unix a) s in
      let s := match r with Ok _ => ok s | Err _ => s end in
      Some (Bytes r, fold_desyncs s, [])
  | CheckPairing =>
      let '(r, s) := handle_check_pairing a s in
      let s := handle_transport_error_if_any r (a_unix a) s in
      let '(p, s) := match r with
                     | Ok Paired => (Paired, set_health (clear_all_at (health s)) s)
                     | Ok NotPaired => (NotPaired, record_health_fault RepairRequired (a_unix a) s)
                     | Ok Unreachable | Err _ => (Unreachable, s)
                     end in
      Some (Pairing p, fold_desyncs s, [])
  | AddKey =>
      let '(r, s) := handle_add_key a s in
      let s := handle_transport_error_if_any r (a_unix a) s in
      let s := match r with Ok _ => ok s | Err _ => s end in
      Some (Unit r, fold_desyncs s, [])
  | ForceReconnect =>
      let '(o, s) := handle_force_reconnect (t_now k) (t_closed_at k) s in
      Some (Forced o, fold_desyncs s, [])
  | Keepalive =>
      match conn s with
      | Some _ =>
          if KEEPALIVE_IDLE <=? since (t_last_activity k) (t_now k) then
            let '(r, s) := handle_body_controller a s in
            Some (Nothing, handle_transport_error_if_any r (a_unix a) s, [])
          else Some (Nothing, s, [])
      | None => Some (Nothing, s, [])
      end
  end.

Fixpoint run_turns (ks : list Turn) (s : SessionState) : option (list Answer * SessionState * list event) :=
  match ks with
  | [] => Some ([], s, [])
  | k :: rest =>
      match run_turn k s with
      | None => None
      | Some (r, s, ev) =>
          match run_turns rest s with
          | None => None
          | Some (rs, s, ev') => Some (r :: rs, s, ev ++ ev')
          end
      end
  end.

End Session.
End BleSession.
