(* ===== verification/BleSessionSpec.v ===== *)
(** * The vehicle session: fresh counters, bounded retries, end-to-end answers

    An invariant of the session task over every sequence of commands and every
    behaviour of the radio and the car, and the composition of the session with
    the wire below it. *)

From Stdlib Require Import ZArith Lia.
From stdpp Require Import base gmap list.
From S2P Require Import Prelude Bytes Str BleWire BleWireSpec BleSession.

Import BleWire BleSession.
Open Scope Z_scope.

(** ** Counters in a run *)

(** The last counter of each domain after some events. *)
Definition advance1 (m : gmap Domain Z) (e : event) : gmap Domain Z :=
  match e with Installed d c | Signed d c => <[d := c]> m end.
Definition advance (m : gmap Domain Z) (ev : list event) : gmap Domain Z := foldl advance1 m ev.

(** Every signature uses the successor of the counter its session was installed
    with or last used, and stays within 32 bits. *)
Fixpoint counters_ok (m : gmap Domain Z) (ev : list event) : Prop :=
  match ev with
  | [] => True
  | Installed d c :: rest => counters_ok (<[d := c]> m) rest
  | Signed d c :: rest => (exists x, m !! d = Some x /\ c = x + 1 /\ 0 < c <= U32_MAX) /\ counters_ok (<[d := c]> m) rest
  end.

Lemma advance_app m e1 e2 : advance m (e1 ++ e2) = advance (advance m e1) e2.
Proof. apply foldl_app. Qed.

Lemma counters_ok_app m e1 e2 : counters_ok m e1 -> counters_ok (advance m e1) e2 -> counters_ok m (e1 ++ e2).
Proof.
  revert m. induction e1 as [|[d c|d c] e1 IH]; intros m; cbn; [done|apply IH|]. intros [H1 H2] H3. split; [done|by apply IH].
Qed.

Record Inv (m : gmap Domain Z) (s : SessionState) : Prop := {
  inv_offline : conn s = None -> domains s = ∅;
  inv_forced : is_Some (conn s) -> last_force_reconnect_at s = None;
  inv_counter : forall d ds, domains s !! d = Some ds -> m !! d = Some (ds_counter ds) /\ 0 <= ds_counter ds <= U32_MAX;
}.

(** Steps that keep the link, its sessions and the force mark. *)
Lemma inv_same m s s' :
  Inv m s -> (is_Some (conn s) <-> is_Some (conn s')) -> domains s' = domains s ->
  last_force_reconnect_at s' = last_force_reconnect_at s -> Inv m s'.
Proof.
  intros [H1 H2 H3] Hc Hd Hf. constructor.
  - intros E. rewrite Hd. apply H1. destruct (conn s) eqn:Es; [|done].
    destruct (proj1 Hc ltac:(done)) as [? Hs]. congruence.
  - intros H. rewrite Hf. apply H2. by apply Hc.
  - intros d ds. rewrite Hd. apply H3.
Qed.

Lemma inv_drop m s d : Inv m s -> Inv m (drop_domain d s).
Proof.
  intros [H1 H2 H3]. constructor; cbn; [intros E; by rewrite H1, delete_empty|done|].
  intros d' ds [_ H]%lookup_delete_Some. by apply H3.
Qed.

Lemma inv_torn m s r f : Inv m (tear_down r f s).
Proof. constructor; cbn; [done|by intros [? ?]|]. intros d ds H. by rewrite lookup_empty in H. Qed.

Lemma inv_install m s d info key at_ :
  0 <= si_counter info <= U32_MAX -> is_Some (conn s) -> Inv m s -> Inv (<[d := si_counter info]> m) (install d info key at_ s).
Proof.
  intros Hc [c Hs] [H1 H2 H3]. constructor; cbn; [congruence|done|].
  intros d' ds. destruct (decide (d' = d)) as [->|Hne].
  - rewrite !lookup_insert_eq. intros [= <-]. done.
  - rewrite !lookup_insert_ne by done. apply H3.
Qed.

Section Run.
Context (P : Codec) (C : Crypto) (pub vin get_status add_key : list Z).
Context (Hinfo : forall b i, decode_info P b = Some i -> 0 <= si_counter i <= U32_MAX).

Notation try_once := (try_signed_request_once P C pub vin).
Notation request_loop := (request_loop P C pub vin).

Lemma ensure_connected_inv m a s : Inv m s ->
  Inv m (snd (ensure_connected a s)) /\ (fst (ensure_connected a s) = Ok tt -> is_Some (conn (snd (ensure_connected a s)))).
Proof.
  intros Hi. unfold ensure_connected. destruct (conn s) as [c|] eqn:Ec; [cbn; by rewrite Ec|].
  assert (Inv m (grow_backoff (note_connect_failure s)) /\ Inv m (grow_backoff (note_connect_failure (with_adapter s)))) as [Hb1 Hb2].
  { split; (apply (inv_same m s); [done| |done|done]); done. }
  destruct (_ && _); [done|]. destruct (a_open a); [|done]. cbn. split; [|done].
  constructor; cbn; [done|done|]. intros d ds. rewrite (inv_offline _ _ Hi Ec). by rewrite lookup_empty.
Qed.

Lemma parse_counter b i : parse_response P b = Ok i -> 0 <= si_counter i <= U32_MAX.
Proof.
  unfold parse_response. repeat case_match; intros; simplify_eq; by eapply Hinfo.
Qed.

Lemma request_counter d u l c i : fst (request_session_info P pub d u l c) = Ok i -> 0 <= si_counter i <= U32_MAX.
Proof.
  unfold request_session_info. destruct (our_correlators _ _). destruct (round_trip _ _ _ _) as [[r c'] ?]. cbn [fst].
  destruct r; cbn; [apply parse_counter|done].
Qed.

Lemma ensure_domain_inv m d a s r s' ev : Inv m s -> is_Some (conn s) ->
  ensure_domain_session P pub d a s = (r, s', ev) ->
  counters_ok m ev /\ Inv (advance m ev) s' /\ is_Some (conn s').
Proof.
  intros Hi Hc. unfold ensure_domain_session. destruct (domains s !! d); [by intros [= <- <- <-]|].
  destruct (conn s) as [c|] eqn:Ec; [|by destruct Hc].
  pose proof (request_counter d (a_hs_uuids a) (a_hs_link a) c) as Hq.
  destruct (request_session_info _ _ _ _ _ _) as [q c'].
  assert (forall h, Inv m (set_health h (set_conn (Some c') s))) as Hs.
  { intros h. apply (inv_same m s); [done|rewrite Ec; done|done|done]. }
  assert (Inv m (set_conn (Some c') s)) as Hs0 by (apply (inv_same m s); [done|rewrite Ec; done|done|done]).
  destruct q as [i|e]; cbn [fst] in Hq.
  - destruct (derive_session_key P (si_public_key i)); intros [= <- <- <-]; [|done]. cbn [counters_ok advance foldl].
    split; [done|]. split; [|done]. apply inv_install; [by apply Hq|done|done].
  - destruct e; intros [= <- <- <-]; try done. split_and!; [done|apply Hs|done].
Qed.

Lemma read_answer_inv m d ds tag resp a s : Inv m s -> is_Some (conn s) ->
  Inv m (snd (read_answer P C vin d ds tag resp a s)) /\ is_Some (conn (snd (read_answer P C vin d ds tag resp a s))).
Proof.
  intros Hi Hc. assert (Inv m (drop_domain d s) /\ is_Some (conn (drop_domain d s))) as Hd by (split; [by apply inv_drop|done]).
  unfold read_answer. repeat case_match; done.
Qed.

Lemma read_answer_info d ds tag resp a s i s' :
  read_answer P C vin d ds tag resp a s = (Ok (SessionRefresh i), s') -> 0 <= si_counter i <= U32_MAX.
Proof. unfold read_answer. intros H. repeat case_match; simplify_eq; by eapply Hinfo. Qed.

Lemma try_once_inv m d inner a s o s' ev : Inv m s -> try_once d inner a s = (o, s', ev) ->
  counters_ok m ev /\ Inv (advance m ev) s'
  /\ (forall i, o = Ok (SessionRefresh i) -> 0 <= si_counter i <= U32_MAX /\ is_Some (conn s')).
Proof.
  intros Hi. unfold try_signed_request_once. destruct (ensure_connected_inv m a s Hi) as [Hi1 Hc1].
  destruct (ensure_connected a s) as [[[]|e] s1]; cbn [fst snd] in *; [|by intros [= <- <- <-]].
  specialize (Hc1 eq_refl). destruct (ensure_domain_session P pub d a s1) as [[r s2] ev2] eqn:Ed.
  destruct (ensure_domain_inv _ _ _ _ _ _ _ Hi1 Hc1 Ed) as (Hok & Hi2 & Hc2).
  destruct r as [[]|e]; [|by intros [= <- <- <-]].
  destruct (conn s2) as [c|] eqn:Ec; [|by destruct Hc2].
  destruct (domains s2 !! d) as [ds|] eqn:Eds; [|by intros [= <- <- <-]].
  destruct (inv_counter _ _ Hi2 _ _ Eds) as [Hm Hr].
  destruct (Z.eqb_spec (ds_counter ds) U32_MAX); [intros [= <- <- <-]; split_and!; [done|by apply inv_drop|done]|].
  destruct (sign _ _ _ _ _ _ _ _ _ _ _) as [parts|e]; [|by intros [= <- <- <-]].
  destruct (our_correlators _ _) as [ou oa]. destruct (round_trip _ _ _ _) as [[r c'] tx].
  set (ds' := mkDomain _ _ _ _ _). set (s3 := set_conn (Some c') _).
  assert (counters_ok m (ev2 ++ [Signed d (ds_counter ds + 1)])) as Hok3.
  { apply counters_ok_app; [done|]. cbn. split; [|done]. exists (ds_counter ds). split_and!; [done|done|lia|lia]. }
  assert (Inv (advance m (ev2 ++ [Signed d (ds_counter ds + 1)])) s3) as Hi3.
  { rewrite advance_app. cbn. destruct Hi2 as [H1 H2 H3]. constructor; cbn; [done|intros _; apply H2; by rewrite Ec|].
    intros d' x. destruct (decide (d' = d)) as [->|Hne].
    - rewrite !lookup_insert_eq. intros [= <-]. cbn. split; [done|lia].
    - rewrite !lookup_insert_ne by done. apply H3. }
  destruct r as [resp|e]; [|by intros [= <- <- <-]].
  set (tag := match sig_type _ with Some _ => _ | None => _ end).
  destruct (read_answer_inv _ d ds' tag resp a s3 Hi3 ltac:(done)) as [Hi4 Hc4].
  pose proof (read_answer_info d ds' tag resp a s3) as Hinf.
  destruct (read_answer P C vin d ds' tag resp a s3) as [o4 s4]. cbn [snd] in *. intros [= <- <- <-].
  split_and!; [done|done|]. intros i ->. split; [by eapply Hinf|done].
Qed.

Lemma request_loop_inv m d inner : forall fuel atts r w st s res s' ev,
  Inv m s -> request_loop fuel d inner atts r w st s = Some (res, s', ev) ->
  counters_ok m ev /\ Inv (advance m ev) s'.
Proof.
  intros fuel. revert m. induction fuel as [|fuel IH]; intros m atts r w st s res s' ev Hi; [done|]. cbn [BleSession.request_loop].
  destruct atts as [|a atts]; [done|]. destruct (try_once d inner a s) as [[o s1] ev1] eqn:Et.
  destruct (try_once_inv m d inner a s o s1 ev1 Hi Et) as (Hok & Hi1 & Hinf).
  assert (forall e2 r w st s2, counters_ok m (ev1 ++ e2) -> Inv (advance m (ev1 ++ e2)) s2 ->
    match request_loop fuel d inner atts r w st s2 with
    | Some (r0, s0, ev') => Some (r0, s0, (ev1 ++ e2) ++ ev') | None => None end = Some (res, s', ev) ->
    counters_ok m ev /\ Inv (advance m ev) s') as Hagain.
  { intros e2 r2 w2 st2 s2 Hok2 Hi2. destruct (request_loop fuel d inner atts r2 w2 st2 s2) as [[[r0 s0] ev0]|] eqn:El; [|done].
    intros [= -> -> <-]. destruct (IH _ _ _ _ _ _ _ _ _ Hi2 El) as [H1 H2]. rewrite advance_app. split; [by apply counters_ok_app|done]. }
  pose proof (Hagain []) as Hsame. rewrite app_nil_r in Hsame.
  destruct o as [[b|i|]|e].
  - by intros [= <- <- <-].
  - destruct (Hinf i eq_refl) as [Hc Hconn]. destruct (r =? 0).
    + destruct (0 <? st); [|by intros [= <- <- <-]]. apply Hsame; [done|by apply inv_drop].
    + unfold apply_session_refresh. destruct (derive_session_key P _) as [key|]; [|by intros [= <- <- <-]].
      apply Hagain.
      * apply counters_ok_app; done.
      * rewrite advance_app. cbn. by apply inv_install.
  - destruct (w =? 0); [by intros [= <- <- <-]|]. by apply Hsame.
  - destruct (_ && _); [|by intros [= <- <- <-]]. apply Hsame; [done|by apply inv_drop].
Qed.

Lemma transport_inv {A} m (r : result ble_error A) now s : Inv m s -> Inv m (handle_transport_error_if_any r now s).
Proof.
  intros Hi. unfold handle_transport_error_if_any. destruct r as [|e]; [done|]. destruct (is_response_too_large e); [done|].
  assert (Inv m (record_health_fault (fault_for_anyhow_error e) now s)) as Hh by by apply (inv_same m s).
  destruct (conn (record_health_fault _ _ s)) eqn:Ec; [|done].
  destruct (_ && _ && _); [apply (inv_same m s); try done; cbn in Ec; by rewrite Ec|].
  destruct (_ || _); [apply inv_torn|done].
Qed.

Lemma fold_desyncs_inv m s : Inv m s -> Inv m (fold_desyncs s).
Proof.
  intros Hi. unfold fold_desyncs. destruct (conn s) as [c|] eqn:Ec; [|done].
  destruct (0 <? _); (apply (inv_same m s); [done|rewrite Ec; done|done|done]).
Qed.

Lemma note_inv m s e n : Inv m s -> Inv m (note_successful_query e n s).
Proof. intros Hi. by apply (inv_same m s). Qed.

Lemma set_health_inv m s h : Inv m s -> Inv m (set_health h s).
Proof. intros Hi. by apply (inv_same m s). Qed.

Lemma set_conn_inv m s c c' : Inv m s -> conn s = Some c -> Inv m (set_conn (Some c') s).
Proof. intros Hi E. apply (inv_same m s); [done|rewrite E; done|done|done]. Qed.

Hint Resolve transport_inv fold_desyncs_inv note_inv set_health_inv inv_torn : core.

Lemma body_inv m a s : Inv m s -> Inv m (snd (handle_body_controller P get_status a s)).
Proof.
  intros Hi. unfold handle_body_controller. destruct (ensure_connected_inv m a s Hi) as [Hi1 _].
  destruct (ensure_connected a s) as [[[]|e] s1]; cbn [snd] in *; [|done].
  destruct (conn s1) as [c|] eqn:Ec; [|done]. destruct (our_correlators _ _), (round_trip _ _ _ _) as [[r c'] ?].
  cbn [snd]. by eapply set_conn_inv.
Qed.

Lemma pairing_inv m a s : Inv m s -> Inv m (snd (handle_check_pairing P pub a s)).
Proof.
  intros Hi. unfold handle_check_pairing. destruct (ensure_connected_inv m a s Hi) as [Hi1 _].
  destruct (ensure_connected a s) as [[[]|e] s1]; cbn [snd] in *; [|done].
  destruct (conn s1) as [c|] eqn:Ec; [|done]. destruct (request_session_info _ _ _ _ _ _) as [r c'].
  assert (Inv m (set_conn (Some c') s1)) as Hs by by eapply set_conn_inv.
  destruct r as [|e]; [done|]. destruct e; cbn [snd]; try done. by apply set_health_inv.
Qed.

Lemma add_key_inv m a s : Inv m s -> Inv m (snd (handle_add_key add_key a s)).
Proof.
  intros Hi. unfold handle_add_key. destruct (ensure_connected_inv m a s Hi) as [Hi1 _].
  destruct (ensure_connected a s) as [[[]|e] s1]; cbn [snd] in *; [|done].
  destruct (conn s1) as [c|] eqn:Ec; [|done]. destruct (write_frame _ _ _) as [r c'].
  cbn [snd]. by eapply set_conn_inv.
Qed.

(** The force mark is never set while connected, so the cooldown never applies. *)
Lemma force_inv m n1 n2 s : Inv m s ->
  Inv m (snd (handle_force_reconnect n1 n2 s)) /\ fst (handle_force_reconnect n1 n2 s) <> Cooldown.
Proof.
  intros Hi. unfold handle_force_reconnect. destruct (conn s) eqn:Ec; [|done].
  rewrite (inv_forced _ _ Hi) by (by rewrite Ec). cbn. split; [apply inv_torn|done].
Qed.

Lemma run_turn_inv m k s r s' ev : Inv m s -> run_turn P C pub vin get_status add_key k s = Some (r, s', ev) ->
  counters_ok m ev /\ Inv (advance m ev) s' /\ r <> Forced Cooldown.
Proof.
  intros Hi. unfold run_turn. destruct (t_cmd k) as [d inner| | | | |].
  - unfold signed_request_with_refresh_retry. destruct (request_loop 4 d inner _ 1 1 1 s) as [[[q s1] ev1]|] eqn:El; [|done].
    intros [= <- <- <-]. destruct (request_loop_inv m _ _ _ _ _ _ _ _ _ _ _ Hi El) as [Hok Hi1].
    split_and!; [done| |done]. apply fold_desyncs_inv. destruct q; auto.
  - pose proof (body_inv m (t_first k) s Hi) as Hb. destruct (handle_body_controller _ _ _ _) as [q s1]. cbn [snd] in Hb.
    intros [= <- <- <-]. change (advance m []) with m. split_and!; [done| |done]. apply fold_desyncs_inv. destruct q; auto.
  - pose proof (pairing_inv m (t_first k) s Hi) as Hb. destruct (handle_check_pairing _ _ _ _) as [q s1]. cbn [snd] in Hb.
    pose proof (transport_inv m q (a_unix (t_first k)) s1 Hb) as Ht. revert Ht.
    generalize (handle_transport_error_if_any q (a_unix (t_first k)) s1). intros s2 Ht.
    destruct q as [[]|e]; intros [= <- <- <-]; change (advance m []) with m; unfold record_health_fault;
      (split_and!; [done| |done]); auto.
  - pose proof (add_key_inv m (t_first k) s Hi) as Hb. destruct (handle_add_key _ _ _) as [q s1]. cbn [snd] in Hb.
    intros [= <- <- <-]. change (advance m []) with m. split_and!; [done| |done]. apply fold_desyncs_inv. destruct q; auto.
  - destruct (force_inv m (t_now k) (t_closed_at k) s Hi) as [Hf Hn]. destruct (handle_force_reconnect _ _ s) as [o s1].
    intros [= <- <- <-]. cbn [fst snd] in *. split_and!; [done|by apply fold_desyncs_inv|congruence].
  - destruct (conn s); [|by intros [= <- <- <-]]. destruct (_ <=? _); [|by intros [= <- <- <-]].
    pose proof (body_inv m (t_first k) s Hi) as Hb. destruct (handle_body_controller _ _ _ _) as [q s1].
    intros [= <- <- <-]. split_and!; [done| |done]. by apply transport_inv.
Qed.

Lemma run_turns_inv ks : forall m s rs s' ev, Inv m s ->
  run_turns P C pub vin get_status add_key ks s = Some (rs, s', ev) ->
  counters_ok m ev /\ Inv (advance m ev) s' /\ Forced Cooldown ∉ rs.
Proof.
  induction ks as [|k ks IH]; intros m s rs s' ev Hi; cbn [run_turns].
  - intros [= <- <- <-]. split_and!; [done|done|]. apply not_elem_of_nil.
  - destruct (run_turn P C pub vin get_status add_key k s) as [[[r s1] ev1]|] eqn:E1; [|done].
    destruct (run_turns _ _ _ _ _ _ ks s1) as [[[rs2 s2] ev2]|] eqn:E2; [|done]. intros [= <- <- <-].
    destruct (run_turn_inv m k s r s1 ev1 Hi E1) as (Hok1 & Hi1 & Hn1).
    destruct (IH _ _ _ _ _ Hi1 E2) as (Hok2 & Hi2 & Hn2). rewrite advance_app.
    split_and!; [by apply counters_ok_app|done|]. intros [H|H]%elem_of_cons; [congruence|done].
Qed.

End Run.

Lemma session_start_inv : Inv ∅ start.
Proof. constructor; cbn; [done|by intros [? ?]|]. intros d ds H. by rewrite lookup_empty in H. Qed.

(** C20: within a session no counter is used twice. Over every sequence of commands and every
    behaviour of the radio and the car (lost replies, refreshes, drops, faults),
    each request is signed with exactly the successor of the counter its session
    was installed with or last used, from a session that was installed, and the
    counter never exceeds 32 bits; sessions are only cached while connected. The
    vehicle's counters are decoded as 32-bit numbers. *)
Theorem counters_never_reused (P : Codec) (C : Crypto) (pub vin get_status add_key : list Z) (ks : list Turn)
    (answers : list Answer) (s : SessionState) (ev : list event) :
  (forall b i, decode_info P b = Some i -> 0 <= si_counter i <= U32_MAX) ->
  run_turns P C pub vin get_status add_key ks start = Some (answers, s, ev) ->
  counters_ok ∅ ev /\ (conn s = None -> domains s = ∅).
Proof.
  intros Hinfo Hr. destruct (run_turns_inv P C pub vin get_status add_key Hinfo ks ∅ start _ _ _ session_start_inv Hr) as (Hok & Hi & _).
  split; [done|]. apply Hi.
Qed.

(** The cooldown of a forced reconnect never applies. A connection can only
    come from a fresh connect, which clears the mark the cooldown is measured
    from, so in no run does [ForceReconnect] answer [Cooldown]: while connected
    it always closes the link. *)
Theorem cooldown_never_applies (P : Codec) (C : Crypto) (pub vin get_status add_key : list Z) (ks : list Turn)
    (answers : list Answer) (s : SessionState) (ev : list event) :
  (forall b i, decode_info P b = Some i -> 0 <= si_counter i <= U32_MAX) ->
  run_turns P C pub vin get_status add_key ks start = Some (answers, s, ev) ->
  Forced Cooldown ∉ answers
  /\ forall now now_set, is_Some (conn s) -> handle_force_reconnect now now_set s = (Closed, tear_down 0 (Some now_set) s).
Proof.
  intros Hinfo Hr. destruct (run_turns_inv P C pub vin get_status add_key Hinfo ks ∅ start _ _ _ session_start_inv Hr) as (_ & Hi & Hn).
  split; [done|]. intros now now_set [c Hc]. unfold handle_force_reconnect. rewrite Hc, (inv_forced _ _ Hi) by (by rewrite Hc). done.
Qed.

(** How many requests a run signed. *)
Fixpoint signatures (ev : list event) : nat :=
  match ev with [] => 0 | Signed _ _ :: t => S (signatures t) | Installed _ _ :: t => signatures t end%nat.

Lemma signatures_app e1 e2 : signatures (e1 ++ e2) = (signatures e1 + signatures e2)%nat.
Proof. induction e1 as [|[] e1 IH]; cbn; lia. Qed.

Section Bounded.
Context (P : Codec) (C : Crypto) (pub vin : list Z).

Lemma ensure_domain_sigs d a s : signatures (snd (ensure_domain_session P pub d a s)) = 0%nat.
Proof.
  unfold ensure_domain_session. destruct (domains s !! d); [done|]. destruct (conn s); [|done].
  destruct (request_session_info _ _ _ _ _ _) as [[i|e] ?]; [by destruct (derive_session_key P _)|by destruct e].
Qed.

Lemma try_once_sigs d inner a s : (signatures (snd (try_signed_request_once P C pub vin d inner a s)) <= 1)%nat.
Proof.
  unfold try_signed_request_once. destruct (ensure_connected a s) as [[[]|e] s1]; [|cbn; lia].
  pose proof (ensure_domain_sigs d a s1) as H. destruct (ensure_domain_session P pub d a s1) as [[[[]|e] s2] ev]; cbn [snd] in H.
  2:{ cbn. lia. }
  destruct (domains s2 !! d) as [ds|], (conn s2) as [c|]; cbn [snd]; try lia.
  destruct (_ =? U32_MAX); [cbn; lia|]. destruct (sign _ _ _ _ _ _ _ _ _ _ _) as [parts|e]; [|cbn; lia].
  destruct (our_correlators _ _), (round_trip _ _ _ _) as [[[resp|e] c'] tx].
  - destruct (read_answer _ _ _ _ _ _ _ _ _). cbn [snd]. rewrite signatures_app. cbn. lia.
  - cbn [snd]. rewrite signatures_app. cbn. lia.
Qed.

Lemma request_loop_bounded d inner : forall fuel atts r w st s,
  0 <= r -> 0 <= w -> 0 <= st -> r + w + st < Z.of_nat fuel -> (fuel <= length atts)%nat ->
  exists res s' ev, request_loop P C pub vin fuel d inner atts r w st s = Some (res, s', ev)
    /\ (signatures ev <= fuel)%nat.
Proof.
  induction fuel as [|fuel IH]; intros atts r w st s Hr Hw Hs Hb Hl; [lia|].
  destruct atts as [|a atts]; [cbn in Hl; lia|]. cbn [request_loop length] in *.
  pose proof (try_once_sigs d inner a s) as Ht. destruct (try_signed_request_once P C pub vin d inner a s) as [[o s1] ev1].
  cbn [snd] in Ht.
  assert (forall e2 r w st s2, signatures e2 = 0%nat -> 0 <= r -> 0 <= w -> 0 <= st -> r + w + st < Z.of_nat fuel ->
    exists res s' ev, match request_loop P C pub vin fuel d inner atts r w st s2 with
    | Some (r0, s0, ev') => Some (r0, s0, (ev1 ++ e2) ++ ev') | None => None end = Some (res, s', ev)
    /\ (signatures ev <= S fuel)%nat) as Hagain.
  { intros e2 r2 w2 st2 s2 He2 H1 H2 H3 H4. destruct (IH atts r2 w2 st2 s2 H1 H2 H3 H4 ltac:(lia)) as (res & s' & ev & -> & Hev).
    eexists _, _, _. split; [reflexivity|]. rewrite !signatures_app. lia. }
  assert (forall (res : result ble_error (list Z)) (s' : SessionState), exists res' s'' ev, Some (res, s', ev1) = Some (res', s'', ev) /\ (signatures ev <= S fuel)%nat) as Hstop.
  { intros res s'. eexists _, _, _. split; [reflexivity|lia]. }
  pose proof (Hagain []) as Hsame. rewrite app_nil_r in Hsame.
  destruct o as [[b|i|]|e]; [apply Hstop| | |].
  - destruct (Z.eqb_spec r 0); [destruct (Z.ltb_spec 0 st); [apply Hsame; try done; lia|apply Hstop]|].
    destruct (apply_session_refresh _ _ _ _ _); [apply Hagain; try done; lia|apply Hstop].
  - destruct (Z.eqb_spec w 0); [apply Hstop|apply Hsame; try done; lia].
  - destruct (Z.ltb_spec 0 st); cbn [andb]; [destruct (is_decrypt_error e); [apply Hsame; try done; lia|apply Hstop]|apply Hstop].
Qed.

End Bounded.

(** C39: a request ends after at most four attempts. Whatever the radio and the
    car do, the retry loop returns within its three budgets of one: four
    attempts are always enough, and at most four requests are signed. *)
Theorem request_bounded (P : Codec) (C : Crypto) (pub vin inner : list Z) (d : Domain) (attempts : list Attempt)
    (s : SessionState) :
  (4 <= length attempts)%nat ->
  exists r s' ev, signed_request_with_refresh_retry P C pub vin d inner attempts s = Some (r, s', ev)
    /\ (signatures ev <= 4)%nat.
Proof. intros Hl. apply request_loop_bounded; lia. Qed.

(** ** End to end *)

(** A message survives the codec's encoding. *)
Definition survives (P : Codec) (m : RoutableMessage) : Prop := decode P (encode P m) = Some m.

(** The vehicle's encrypted answer to a request with this routing address. *)
Definition vehicle_answer (d : Domain) (addr nonce : list Z) (counter : Z) (out : list Z) : RoutableMessage :=
  mkRoutable (Some (Some (RoutingAddress addr))) (Some (Some (DomainDest (domain_i32 d))))
    (Some (ProtobufMessageAsBytes (take (length out - 16) out)))
    (Some (mkSig None (Some (AesGcmResponseData nonce counter (drop (length out - 16) out))))) None [] [] 2.

(** A frame that is not the answer to the request with this address: too short,
    a broadcast, undecodable, or a message for another request or domain. *)
Definition straggler (P : Codec) (d : Domain) (addr req : list Z) (p : list Z) : Prop :=
  (length p <= 1024)%nat /\
  ((length p < 8)%nat \/ starts_with p BROADCAST_FRAME_PREFIX = true \/ decode P p = None
   \/ exists rm, decode P p = Some rm /\
      ((exists x, domain_of (from_destination rm) = Some x /\ x <> domain_i32 d)
       \/ (exists b, address_of (to_destination rm) = Some b /\ addr <> [] /\ b <> addr)
       \/ (request_uuid rm <> [] /\ request_uuid rm <> req))).

Lemma straggler_skipped P d addr req p : straggler P d addr req p ->
  skippable (fun b => is_response_to (decode P) b req addr d) p.
Proof.
  intros [Hl H]. split; [done|]. unfold wanted. destruct (Nat.ltb_spec (length p) 8); [done|].
  destruct (starts_with p BROADCAST_FRAME_PREFIX); [done|]. unfold is_response_to.
  destruct H as [H|[H|[->|(rm & -> & H)]]]; [lia|done|done|].
  destruct H as [(x & -> & Hx)|[(b & -> & Ha & Hb)|[H1 H2]]].
  - by rewrite (proj2 (Z.eqb_neq _ _)).
  - destruct (match domain_of _ with Some _ => _ | None => _ end); [done|].
    rewrite bool_decide_false by done. by destruct addr.
  - destruct (match domain_of _ with Some _ => _ | None => _ end); [done|].
    destruct (match address_of _ with Some _ => _ | None => _ end); [done|].
    rewrite (bool_decide_false (request_uuid rm = req)) by done. by destruct (request_uuid rm).
Qed.

Lemma answer_accepted P d addr req nonce counter out : survives P (vehicle_answer d addr nonce counter out) ->
  is_response_to (decode P) (encode P (vehicle_answer d addr nonce counter out)) req addr d = true.
Proof.
  intros Hs. unfold is_response_to. rewrite Hs. cbn [from_destination to_destination request_uuid vehicle_answer domain_of sub_of mbind option_bind id address_of].
  rewrite Z.eqb_refl, bool_decide_true by done. cbn. by rewrite andb_false_r.
Qed.

Lemma domain_from_i32 d : domain_from (domain_i32 d) = Some d.
Proof. by destruct d. Qed.

Section EndToEnd.
Context (P : Codec) (C : Crypto) `{!AeadLaws C} (pub vin : list Z).

Lemma answer_read d ds tag rnonce rcounter answer out a s :
  length rnonce = 12%nat ->
  seal C (ds_key ds) rnonce answer (metadata_aad C (build_response_metadata d vin rcounter 2
    SIG_TYPE_AES_GCM_PERSONALIZED tag 0)) = Some out -> forall addr, survives P (vehicle_answer d addr rnonce rcounter out) ->
  read_answer P C vin d ds tag (encode P (vehicle_answer d addr rnonce rcounter out)) a s = (Ok (Plaintext answer), s).
Proof.
  intros Hn Ho addr Hv. unfold read_answer. rewrite Hv.
  cbn [signed_message_status payload sub_sig_data from_destination flags vehicle_answer]. cbn [Z.eqb negb].
  replace (default d _) with d by (cbn; by rewrite domain_from_i32).
  by rewrite (decrypt_sealed C _ _ _ _ _ _ _ _ _ _ Hn Ho).
Qed.

Lemma request_answered d inner a s c ds parts tag rnonce rcounter answer out junk tail :
  conn s = Some c -> domains s !! d = Some ds -> ds_counter ds <> U32_MAX ->
  sign C (ds_key ds) pub inner d vin (ds_epoch ds)
    (sat_add32 (estimated_car_clock ds (a_estimate_at a)) EXPIRES_WINDOW) (ds_counter ds + 1) QUERY_FLAGS (a_nonce a) = Ok parts ->
  sig_type (signature_data parts) = Some (AesGcmPersonalizedData (ds_epoch ds) (a_nonce a) (ds_counter ds + 1)
    (sat_add32 (estimated_car_clock ds (a_estimate_at a)) EXPIRES_WINDOW) tag) ->
  length rnonce = 12%nat ->
  seal C (ds_key ds) rnonce answer (metadata_aad C (build_response_metadata d vin rcounter 2
    SIG_TYPE_AES_GCM_PERSONALIZED tag 0)) = Some out ->
  survives P (build_signed_routable_message parts d QUERY_FLAGS (fst (a_uuids a)) (snd (a_uuids a))) ->
  survives P (vehicle_answer d (fst (a_uuids a)) rnonce rcounter out) ->
  let reply := encode P (vehicle_answer d (fst (a_uuids a)) rnonce rcounter out) in
  (8 <= length reply <= 1024)%nat -> starts_with reply BROADCAST_FRAME_PREFIX = false ->
  Forall (straggler P d (fst (a_uuids a)) (snd (a_uuids a))) junk ->
  l_probe (a_link a) <> Some false -> l_writes (a_link a) = None ->
  heard (l_rx (a_link a)) = stream reply tail junk ->
  exists s', try_signed_request_once P C pub vin d inner a s
    = (Ok (Plaintext answer), s', [Signed d (ds_counter ds + 1)])
    /\ ds_counter <$> domains s' !! d = Some (ds_counter ds + 1).
Proof.
  intros Hc Hd Hmax Hsign Htag Hn Ho Hreq Hans reply Hlen Hpre Hjunk Hprobe Hwr Hrx.
  unfold try_signed_request_once, ensure_connected. rewrite Hc. unfold ensure_domain_session. rewrite Hd, Hd, Hc.
  rewrite (proj2 (Z.eqb_neq _ _)) by done. rewrite Hsign.
  unfold our_correlators. rewrite Hreq. cbn [uuid from_destination build_signed_routable_message address_of sub_of mbind option_bind id default].
  set (accept := fun b => is_response_to (decode P) b (snd (a_uuids a)) (fst (a_uuids a)) d).
  assert (wanted accept reply = true) as Hw.
  { unfold wanted. rewrite (proj2 (Nat.ltb_ge _ _)) by lia. rewrite Hpre. by apply answer_accepted. }
  assert (Forall (skippable accept) junk) as Hj by (eapply Forall_impl; [exact Hjunk|intros p; apply straggler_skipped]).
  destruct (round_trip_finds (encode P (build_signed_routable_message parts d QUERY_FLAGS (fst (a_uuids a)) (snd (a_uuids a))))
    reply tail accept junk (a_link a) c Hw ltac:(lia) Hj Hprobe Hwr Hrx) as (left & ns' & cs & -> & _).
  rewrite Htag. unfold reply. rewrite (answer_read d (mkDomain (ds_key ds) _ _ _ _) tag rnonce rcounter answer out a _ Hn Ho) by exact Hans.
  eexists. split; [reflexivity|]. cbn. by rewrite lookup_insert_eq.
Qed.

End EndToEnd.

(** C27: a request is answered end to end, under these conditions: the
    connection is held and its write does not fail, the session of the domain is
    cached with a counter below its maximum, request and answer survive the codec,
    the answer has 8 to 1024 bytes, and the bytes received are whole frames of at
    most 1024 bytes that are not the answer (too short, broadcasts, undecodable, or
    for another request or domain) followed by the frame of the answer, cut into
    notifications in any way. When the answer is sealed for this request's tag,
    the caller gets exactly its plaintext after one attempt, and the session's
    counter has moved by one. *)
Theorem signed_request_answered (P : Codec) (C : Crypto) `{!AeadLaws C} (pub vin inner : list Z)
    (d : Domain) (a : Attempt) (rest : list Attempt) (s : SessionState) (c : Connection) (ds : DomainSession)
    (parts : SignedParts) (tag rnonce answer out tail : list Z) (rcounter : Z) (junk : list (list Z)) :
  let expires_at := sat_add32 (estimated_car_clock ds (a_estimate_at a)) EXPIRES_WINDOW in
  let counter := ds_counter ds + 1 in
  conn s = Some c -> domains s !! d = Some ds -> ds_counter ds <> U32_MAX ->
  sign C (ds_key ds) pub inner d vin (ds_epoch ds) expires_at counter QUERY_FLAGS (a_nonce a) = Ok parts ->
  sig_type (signature_data parts) = Some (AesGcmPersonalizedData (ds_epoch ds) (a_nonce a) counter expires_at tag) ->
  length rnonce = 12%nat ->
  seal C (ds_key ds) rnonce answer (metadata_aad C (build_response_metadata d vin rcounter 2
    SIG_TYPE_AES_GCM_PERSONALIZED tag 0)) = Some out ->
  survives P (build_signed_routable_message parts d QUERY_FLAGS (fst (a_uuids a)) (snd (a_uuids a))) ->
  survives P (vehicle_answer d (fst (a_uuids a)) rnonce rcounter out) ->
  let reply := encode P (vehicle_answer d (fst (a_uuids a)) rnonce rcounter out) in
  (8 <= length reply <= 1024)%nat -> starts_with reply BROADCAST_FRAME_PREFIX = false ->
  Forall (straggler P d (fst (a_uuids a)) (snd (a_uuids a))) junk ->
  l_probe (a_link a) <> Some false -> l_writes (a_link a) = None ->
  heard (l_rx (a_link a)) = stream reply tail junk ->
  exists s', signed_request_with_refresh_retry P C pub vin d inner (a :: rest) s
    = Some (Ok answer, s', [Signed d counter])
    /\ ds_counter <$> domains s' !! d = Some counter.
Proof.
  intros expires_at counter Hc Hd Hmax Hsign Htag Hn Ho Hreq Hans reply Hlen Hpre Hjunk Hprobe Hwr Hrx.
  destruct (request_answered P C pub vin d inner a s c ds parts tag rnonce rcounter answer out junk tail) as (s' & E & Hs'); try done.
  exists s'. unfold signed_request_with_refresh_retry. cbn [request_loop]. rewrite E. done.
Qed.

(** ** A concrete run *)

(** A codec for the messages of one exchange: the requests, the vehicle's session
    info and its answer, each recognised by its first byte. *)
Definition demo_kind (m : RoutableMessage) : Z :=
  match payload m, sub_sig_data m with
  | Some (SessionInfoRequest _), _ => 1
  | Some (SessionInfoBytes _), _ => 2
  | _, Some (mkSig _ (Some (AesGcmResponseData _ _ _))) => 3
  | _, _ => 4
  end.
Definition demo_addr : list Z := [8].
Definition demo_uuid : list Z := [9].
Definition demo_pub : list Z := [4].
Definition demo_vin : list Z := [5].
Definition demo_nonce : list Z := repeat 2 12.
Definition demo_session : DomainSession := mkDomain [] [1] 7 0 0.
Definition demo_signed : SignedParts :=
  match sign demo_crypto [] demo_pub [42] Infotainment demo_vin [1] 60 8 QUERY_FLAGS demo_nonce with
  | Ok p => p | Err _ => mkParts [] (mkSig None None) 0 end.
Definition demo_tag : list Z :=
  match sig_type (signature_data demo_signed) with Some (AesGcmPersonalizedData _ _ _ _ t) => t | _ => [] end.
Definition demo_out : list Z :=
  default [] (seal demo_crypto [] demo_nonce [77] (metadata_aad demo_crypto
    (build_response_metadata Infotainment demo_vin 3 2 SIG_TYPE_AES_GCM_PERSONALIZED demo_tag 0))).
Definition demo_answer : RoutableMessage := vehicle_answer Infotainment demo_addr demo_nonce 3 demo_out.
Definition demo_request : RoutableMessage :=
  build_signed_routable_message demo_signed Infotainment QUERY_FLAGS demo_addr demo_uuid.
Definition demo_codec : Codec :=
  mkCodec (fun m => repeat (demo_kind m) 10)
    (fun b => match b with
              | 2 :: _ => Some (mkRoutable None None (Some (SessionInfoBytes [])) None None [] [] 0)
              | 3 :: _ => Some demo_answer
              | 4 :: _ => Some demo_request
              | _ => None
              end)
    (fun _ => Some (mkInfo 7 [] [1] 0 0)) (fun _ => Some []) (fun _ => None).

Definition demo_link (b : Z) : Link := mkLink None None [(true, frame (repeat 9 8)); (true, frame (repeat b 10))] false.
Definition demo_attempt : Attempt :=
  mkAttempt true (Some 100%nat) 0 (demo_link 2) (demo_link 3) (demo_addr, demo_uuid) (demo_addr, demo_uuid)
    demo_nonce 0 0 0 0 0 0.
Definition demo_turn (c : Command) : Turn := mkTurn c (repeat demo_attempt 4) demo_attempt 5 0 0 0.
Definition demo_turns : list Turn :=
  [demo_turn (SignedRequest Infotainment [42]); demo_turn ForceReconnect;
   demo_turn (SignedRequest Infotainment [42])].

Lemma demo_info : forall b i, decode_info demo_codec b = Some i -> 0 <= si_counter i <= U32_MAX.
Proof. intros b i [= <-]. vm_compute. split; discriminate. Qed.

Lemma counters_never_reused_witness : exists answers s,
  run_turns demo_codec demo_crypto demo_pub demo_vin [] [] demo_turns start
    = Some (answers, s, [Installed Infotainment 7; Signed Infotainment 8; Installed Infotainment 7; Signed Infotainment 8])
  /\ counters_ok ∅ [Installed Infotainment 7; Signed Infotainment 8; Installed Infotainment 7; Signed Infotainment 8].
Proof.
  eexists _, _. assert (run_turns demo_codec demo_crypto demo_pub demo_vin [] [] demo_turns start = Some (_, _,
    [Installed Infotainment 7; Signed Infotainment 8; Installed Infotainment 7; Signed Infotainment 8])) as E
    by (vm_compute; reflexivity).
  split; [exact E|]. exact (proj1 (counters_never_reused demo_codec demo_crypto demo_pub demo_vin [] [] demo_turns _ _ _ demo_info E)).
Defined.

Lemma cooldown_never_applies_witness : exists answers s ev,
  run_turns demo_codec demo_crypto demo_pub demo_vin [] [] demo_turns start = Some (answers, s, ev)
  /\ answers = [Bytes (Ok [77]); Forced Closed; Bytes (Ok [77])] /\ Forced Cooldown ∉ answers.
Proof.
  eexists _, _, _. assert (run_turns demo_codec demo_crypto demo_pub demo_vin [] [] demo_turns start =
    Some ([Bytes (Ok [77]); Forced Closed; Bytes (Ok [77])], _, _)) as E by (vm_compute; reflexivity).
  split; [exact E|]. split; [reflexivity|].
  exact (proj1 (cooldown_never_applies demo_codec demo_crypto demo_pub demo_vin [] [] demo_turns _ _ _ demo_info E)).
Defined.

Lemma request_bounded_witness : exists r s' ev,
  signed_request_with_refresh_retry demo_codec demo_crypto demo_pub demo_vin Infotainment [42]
    (repeat demo_attempt 4) start = Some (r, s', ev) /\ (signatures ev <= 4)%nat.
Proof.
  apply (request_bounded demo_codec demo_crypto demo_pub demo_vin [42] Infotainment (repeat demo_attempt 4) start).
  cbn. lia.
Defined.

Definition demo_state : SessionState :=
  set_domains {[ Infotainment := demo_session ]} (set_conn (Some (mkConn [] 0 100 true)) start).

Lemma signed_request_answered_witness : exists s',
  signed_request_with_refresh_retry demo_codec demo_crypto demo_pub demo_vin Infotainment [42] [demo_attempt] demo_state
    = Some (Ok [77], s', [Signed Infotainment 8])
  /\ ds_counter <$> domains s' !! Infotainment = Some 8.
Proof.
  apply (signed_request_answered demo_codec demo_crypto demo_pub demo_vin [42] Infotainment demo_attempt []
    demo_state (mkConn [] 0 100 true) demo_session demo_signed demo_tag demo_nonce [77] demo_out [] 3 [repeat 9 8]);
    try (vm_compute; reflexivity); try (vm_compute; discriminate).
  - vm_compute. lia.
  - apply Forall_singleton. split; [vm_compute; lia|]. right. right. left. reflexivity.
Defined.
