(* ===== verification/Json.v ===== *)
(** * JSON documents and ordered sets

    [serde_json::Value] as the sources use it, and [BTreeSet] as a strictly
    ascending list. *)

From Stdlib Require Import ZArith Lia Sorted.
From stdpp Require Import base gmap list sorting.
From S2P Require Import Prelude Float Str.

Open Scope Z_scope.

Module Json.

(** [serde_json::Number]: a non-negative integer, a negative one, or a float. *)
Inductive Number := PosInt (n : Z) | NegInt (n : Z) | Float (bits : Z).

Inductive Value :=
| Null | Bool (b : bool) | Num (n : Number) | String (s : list Z) | Array (l : list Value)
| Object (m : gmap (list Z) Value).

Definition as_array (v : Value) : option (list Value) := match v with Array l => Some l | _ => None end.
Definition as_str (v : Value) : option (list Z) := match v with String s => Some s | _ => None end.
Definition as_object (v : Value) : option (gmap (list Z) Value) := match v with Object m => Some m | _ => None end.
Definition as_u64 (v : Value) : option Z := match v with Num (PosInt n) => Some n | _ => None end.
Definition as_i64 (v : Value) : option Z :=
  match v with
  | Num (PosInt n) => if n <=? 2 ^ 63 - 1 then Some n else None
  | Num (NegInt n) => Some n
  | _ => None
  end.
Definition is_array (v : Value) : bool := match v with Array _ => true | _ => false end.
Definition is_object (v : Value) : bool := match v with Object _ => true | _ => false end.

(** [value[key]], reading. *)
Definition index (v : Value) (key : list Z) : Value :=
  match v with Object m => default Null (m !! key) | _ => Null end.

(** [value[key] = x] on an object or on null; the source panics otherwise. *)
Definition set_index (v : Value) (key : list Z) (x : Value) : Value :=
  match v with Object m => Object (<[key := x]> m) | Null => Object {[ key := x ]} | _ => v end.

(** [value == n] for a machine integer. *)
Definition eq_int (v : Value) (n : Z) : bool := bool_decide (as_i64 v = Some n).

Definition strings (l : list (list Z)) : Value := Array (String <$> l).

Definition as_f64 (v : Value) : option Z :=
  match v with
  | Num (PosInt n) => Some (F64.of_Z n)
  | Num (NegInt n) => Some (F64.of_Z n)
  | Num (Float b) => Some b
  | _ => None
  end.
Definition is_null (v : Value) : bool := match v with Null => true | _ => false end.

#[export] Instance number_eq_dec : EqDecision Number.
Proof. solve_decision. Defined.

#[export] Instance value_eq_dec : EqDecision Value.
Proof.
  refine (fix go (x y : Value) {struct x} : Decision (x = y) :=
    let _ : EqDecision Value := @go in
    match x, y with
    | Null, Null => left eq_refl
    | Bool a, Bool b => cast_if (decide (a = b))
    | Num a, Num b => cast_if (decide (a = b))
    | String a, String b => cast_if (decide (a = b))
    | Array a, Array b => cast_if (decide (a = b))
    | Object a, Object b => cast_if (decide (a = b))
    | _, _ => right _
    end); congruence.
Defined.

(** [==] of values compares floats as numbers: the two zeros are equal (a
    document holds no NaN). [canon] picks one representative. *)
Fixpoint canon (v : Value) : Value :=
  match v with
  | Num (Float b) => Num (Float (if F64.eq b F64.zero then F64.zero else b))
  | Array l => Array (canon <$> l)
  | Object m => Object (canon <$> m)
  | v => v
  end.

Definition veq (a b : Value) : bool := bool_decide (canon a = canon b).

Lemma veq_refl a : veq a a = true.
Proof. unfold veq. by apply bool_decide_eq_true_2. Qed.

End Json.

(** ** Ordered sets *)

Section BTreeSet.
Context {A : Type} `{!EqDecision A} (le : A -> A -> bool).

Definition set_lt (x y : A) : Prop := le x y = true /\ x <> y.
Notation ascending := (StronglySorted set_lt).

Fixpoint set_insert (x : A) (l : list A) : list A :=
  match l with
  | [] => [x]
  | y :: t => if bool_decide (x = y) then l else if le x y then x :: l else y :: set_insert x t
  end.

Definition set_extend (l s : list A) : list A := foldl (fun s x => set_insert x s) s l.
Definition set_of (l : list A) : list A := set_extend l [].

Lemma elem_of_set_insert x y l : y ∈ set_insert x l <-> y = x \/ y ∈ l.
Proof.
  induction l as [|z t IH]; cbn; [rewrite !elem_of_cons; by firstorder|].
  case_bool_decide; [subst; rewrite !elem_of_cons; by firstorder|]. destruct (le x z).
  - by rewrite !elem_of_cons.
  - rewrite !elem_of_cons, IH. by firstorder.
Qed.

Lemma elem_of_set_extend y l : forall s, y ∈ set_extend l s <-> y ∈ l \/ y ∈ s.
Proof.
  induction l as [|x t IH]; intros s; [cbn; rewrite elem_of_nil; by firstorder|].
  change (set_extend (x :: t) s) with (set_extend t (set_insert x s)).
  rewrite IH, elem_of_set_insert, elem_of_cons. by firstorder.
Qed.

Lemma elem_of_set_of y l : y ∈ set_of l <-> y ∈ l.
Proof. unfold set_of. rewrite elem_of_set_extend, elem_of_nil. by firstorder. Qed.

Lemma length_set_insert x l : (length (set_insert x l) <= S (length l))%nat.
Proof. induction l as [|z t IH]; cbn; [lia|]. case_bool_decide; [cbn; lia|]. destruct (le x z); cbn; lia. Qed.

Lemma length_set_of l : (length (set_of l) <= length l)%nat.
Proof.
  assert (forall s, (length (set_extend l s) <= length l + length s)%nat) as H.
  { induction l as [|x t IH]; intros s; [done|]. change (set_extend (x :: t) s) with (set_extend t (set_insert x s)).
    pose proof (IH (set_insert x s)). pose proof (length_set_insert x s). cbn. lia. }
  specialize (H []). cbn in H. unfold set_of. lia.
Qed.

Context (le_total : forall x y, le x y = false -> le y x = true)
        (le_trans : forall x y z, le x y = true -> le y z = true -> le x z = true)
        (le_antisym : forall x y, le x y = true -> le y x = true -> x = y).

Lemma set_lt_trans x y z : set_lt x y -> set_lt y z -> set_lt x z.
Proof using le_trans le_antisym.
  intros [H1 H2] [H3 H4]. split; [by eapply le_trans|]. intros ->. apply H4. by apply le_antisym.
Qed.

Lemma set_insert_ascending x l : ascending l -> ascending (set_insert x l).
Proof using le_total le_trans le_antisym.
  induction 1 as [|y t Ht IH Hf]; [by repeat constructor|]. cbn. case_bool_decide; [by constructor|].
  destruct (le x y) eqn:E.
  - constructor; [by constructor|]. constructor; [done|]. eapply Forall_impl; [exact Hf|].
    intros z Hz. apply (set_lt_trans x y z); done.
  - constructor; [done|]. apply Forall_forall. intros z [->|Hz]%elem_of_set_insert.
    + split; [by apply le_total|congruence].
    + by eapply Forall_forall in Hf.
Qed.

Lemma set_extend_ascending l : forall s, ascending s -> ascending (set_extend l s).
Proof using le_total le_trans le_antisym.
  induction l as [|x t IH]; intros s Hs; [done|].
  change (set_extend (x :: t) s) with (set_extend t (set_insert x s)). by apply IH, set_insert_ascending.
Qed.

Lemma set_of_ascending l : ascending (set_of l).
Proof using le_total le_trans le_antisym. apply set_extend_ascending. constructor. Qed.

(** An ascending list is determined by its elements. *)
Lemma ascending_unique l1 : forall l2, ascending l1 -> ascending l2 -> (forall x, x ∈ l1 <-> x ∈ l2) -> l1 = l2.
Proof using le_trans le_antisym.
  induction l1 as [|x t1 IH]; intros [|y t2] H1 H2 He; [done| | |].
  - exfalso. apply (not_elem_of_nil y), He. by left.
  - exfalso. apply (not_elem_of_nil x), He. by left.
  - apply StronglySorted_inv in H1 as [H1 F1]. apply StronglySorted_inv in H2 as [H2 F2].
    rewrite Forall_forall in F1, F2.
    assert (forall z, z = x \/ z ∈ t1 <-> z = y \/ z ∈ t2) as Hz by (intros z; by rewrite <- !elem_of_cons).
    assert (x = y) as ->.
    { destruct (proj1 (Hz x) ltac:(by left)) as [|Hx]; [done|]. destruct (proj2 (Hz y) ltac:(by left)) as [|Hy]; [done|].
      apply le_antisym; [by apply F1|by apply F2]. }
    f_equal. apply IH; [done|done|]. intros z. split; intros Hm.
    + destruct (proj1 (Hz z) ltac:(by right)) as [->|]; [by destruct (F1 y Hm)|done].
    + destruct (proj2 (Hz z) ltac:(by right)) as [->|]; [by destruct (F2 y Hm)|done].
Qed.

Lemma set_of_id l : ascending l -> set_of l = l.
Proof using le_total le_trans le_antisym.
  intros H. apply ascending_unique; [apply set_of_ascending|done|]. intros x. apply elem_of_set_of.
Qed.

End BTreeSet.

(** Sets of strings ([BTreeSet<String>]) and of numbers. *)
Notation str_set := (set_of str_leb) (only parsing).
Notation num_set := (set_of Z.leb) (only parsing).
Notation str_ascending := (StronglySorted (set_lt str_leb)).

Lemma str_set_unique (l1 l2 : list (list Z)) :
  str_ascending l1 -> str_ascending l2 -> (forall x, x ∈ l1 <-> x ∈ l2) -> l1 = l2.
Proof.
  apply (ascending_unique str_leb (fun x y z => str_leb_trans x y z) (fun x y => str_leb_antisym x y)).
Qed.
Lemma str_extend_ascending l s : str_ascending s -> str_ascending (set_extend str_leb l s).
Proof.
  apply (set_extend_ascending str_leb (fun x y => str_leb_total x y) (fun x y z => str_leb_trans x y z)
    (fun x y => str_leb_antisym x y)).
Qed.
Lemma str_set_ascending l : str_ascending (set_of str_leb l).
Proof. apply str_extend_ascending. constructor. Qed.

Lemma zleb_total x y : (x <=? y) = false -> (y <=? x) = true.
Proof. intros H%Z.leb_gt. apply Z.leb_le. lia. Qed.
Lemma zleb_trans x y z : (x <=? y) = true -> (y <=? z) = true -> (x <=? z) = true.
Proof. rewrite !Z.leb_le. lia. Qed.
Lemma zleb_antisym x y : (x <=? y) = true -> (y <=? x) = true -> x = y.
Proof. rewrite !Z.leb_le. lia. Qed.
