(* ===== verification/ScopedTags.v ===== *)
(** * Scoped tag documents ([crates/drives/src/scoped_tags.rs])

    Several drives can share one source clip, so a clip's tags are a document: a
    default list and half-open frame ranges that override it. Reading a selection
    and editing one cut the clip at every boundary and work per window. *)

From Stdlib Require Import ZArith Lia.
From stdpp Require Import base gmap list.
From S2P Require Import Prelude Str Json.

Import Json.
Open Scope Z_scope.

Module ScopedTags.

Inductive error :=
| ETagList | ETooManyTags | ETag | ETagLength | EFrame | EFrameRange | ERange | EEmpty | EMismatch
| EMissingSpans | ETooManySpans | ESpan | EField | EOverlap | ESelection | EContradiction.

(** [encode_utf16().count()] of a UTF-8 string: one unit per character, two
    from U+10000, whose first byte is at least [0xF0]. *)
Definition utf16_units (b : Z) : Z := if b <? 128 then 1 else if b <? 192 then 0 else if b <? 240 then 1 else 2.
Definition utf16_count (s : str) : Z := foldr (fun b n => utf16_units b + n) 0 s.

Definition tag_ok (tag : str) : bool := negb (is_empty tag) && (utf16_count tag <=? 64).

Fixpoint collect_tags (items : list Value) (acc : list str) : result error (list str) :=
  match items with
  | [] => Ok acc
  | item :: rest =>
      let? tag := ok_or (as_str item) ETag in
      if tag_ok tag then collect_tags rest (set_insert str_leb tag acc) else Err ETagLength
  end.

Definition tags (value : Value) : result error (list str) :=
  let? items := ok_or (as_array value) ETagList in
  if (128 <? length items)%nat then Err ETooManyTags else collect_tags items [].

Definition frame (value : Value) : result error Z :=
  let? n := ok_or (as_u64 value) EFrame in
  if n <=? 2 ^ 32 - 1 then Ok n else Err EFrameRange.

Definition range (start end_ total : Z) : result error unit :=
  if (start <? end_) && (end_ <=? total) then Ok tt else Err ERange.

Record Span := mkSpan { sp_start : Z; sp_end : Z; sp_tags : list str }.
Record Document := mkDoc { original : Value; total : Z; default_tags : list str; spans : list Span }.

Definition span_key (k : str) : bool :=
  bool_decide (k = lit "startFrame") || bool_decide (k = lit "endFrame") || bool_decide (k = lit "tags").

Fixpoint parse_spans (total : Z) (items : list Value) (prior_end : Z) : result error (list Span) :=
  match items with
  | [] => Ok []
  | item :: rest =>
      let? object := ok_or (as_object item) ESpan in
      if negb (forallb (fun kv => span_key (fst kv)) (map_to_list object)) then Err EField
      else
        let? start := frame (index item (lit "startFrame")) in
        let? end_ := frame (index item (lit "endFrame")) in
        let? _ := range start end_ total in
        if start <? prior_end then Err EOverlap
        else
          let? ts := tags (index item (lit "tags")) in
          let? more := parse_spans total rest end_ in
          Ok (mkSpan start end_ ts :: more)
  end.

Definition parse (value : Value) (total : Z) : result error Document :=
  if negb (0 <? total) then Err EEmpty
  else if is_array value then
    let? d := tags value in
    Ok (mkDoc (Object (<[lit "version" := Num (PosInt 2)]> (<[lit "totalFrames" := Num (PosInt total)]>
          (<[lit "defaultTags" := strings d]> {[ lit "spans" := Array [] ]})))) total d [])
  else if negb (is_object value && eq_int (index value (lit "version")) 2) then Err EMismatch
  else
    let? n := frame (index value (lit "totalFrames")) in
    if negb (n =? total) then Err EMismatch
    else
      let? d := tags (index value (lit "defaultTags")) in
      let? raw := ok_or (as_array (index value (lit "spans"))) EMissingSpans in
      if (256 <? length raw)%nat then Err ETooManySpans
      else
        let? ss := parse_spans total raw 0 in
        Ok (mkDoc value total d ss).

(** [Document::at] *)
Fixpoint find_span (ss : list Span) (f : Z) : option Span :=
  match ss with
  | [] => None
  | s :: t => if (sp_start s <=? f) && (f <? sp_end s) then Some s else find_span t f
  end.
Definition at_ (doc : Document) (f : Z) : list str :=
  match find_span (spans doc) f with Some s => sp_tags s | None => default_tags doc end.

Fixpoint cut_ranges (total : Z) (ranges : list (Z * Z)) (s : list Z) : result error (list Z) :=
  match ranges with
  | [] => Ok s
  | (a, b) :: rest =>
      let? _ := range a b total in
      cut_ranges total rest (set_insert Z.leb b (set_insert Z.leb a s))
  end.

Definition cuts (doc : Document) (ranges : list (Z * Z)) : result error (list Z) :=
  if is_empty ranges || (256 <? length ranges)%nat then Err ESelection
  else
    cut_ranges (total doc) ranges
      (set_extend Z.leb (spans doc ≫= fun s => [sp_start s; sp_end s]) (set_of Z.leb [0; total doc])).

Definition selected (ranges : list (Z * Z)) (f : Z) : bool :=
  existsb (fun r => (fst r <=? f) && (f <? snd r)) ranges.

Definition tags_for_ranges (value : Value) (total : Z) (ranges : list (Z * Z)) : result error (list str) :=
  let? doc := parse value total in
  let? cs := cuts doc ranges in
  Ok (foldl (fun acc w => if selected ranges (fst w) then set_extend str_leb (at_ doc (fst w)) acc else acc)
        [] (windows2 cs)).

(** The tags of a selected window after the edit. *)
Definition edit (added removed current : list str) : list str :=
  set_of str_leb (filter (fun t => t ∉ removed) current ++ added).

Definition next_tags (doc : Document) (ranges : list (Z * Z)) (added removed : list str) (f : Z) : list str :=
  if selected ranges f then edit added removed (at_ doc f) else at_ doc f.

(** One window of [apply_delta]; the spans are kept newest first. *)
Definition push_window (doc : Document) (ranges : list (Z * Z)) (added removed : list str)
    (out : list Span) (w : Z * Z) : list Span :=
  let '(start, end_) := w in
  let next := next_tags doc ranges added removed start in
  if bool_decide (next = default_tags doc) then out
  else match out with
       | p :: t =>
           if (sp_end p =? start) && bool_decide (sp_tags p = next)
           then mkSpan (sp_start p) end_ (sp_tags p) :: t
           else mkSpan start end_ next :: out
       | [] => [mkSpan start end_ next]
       end.

Definition span_json (s : Span) : Value :=
  Object (<[lit "startFrame" := Num (PosInt (sp_start s))]> (<[lit "endFrame" := Num (PosInt (sp_end s))]>
    {[ lit "tags" := strings (sp_tags s) ]})).

Definition apply_delta (value : Value) (total : Z) (ranges : list (Z * Z)) (added removed : list str)
  : result error Value :=
  let? doc := parse value total in
  let? cs := cuts doc ranges in
  let? added := tags (strings added) in
  let? removed := tags (strings removed) in
  if negb (forallb (fun t => negb (bool_decide (t ∈ removed))) added) then Err EContradiction
  else
    let ss := rev (foldl (push_window doc ranges added removed) [] (windows2 cs)) in
    if (256 <? length ss)%nat then Err ETooManySpans
    else Ok (set_index (set_index (original doc) (lit "defaultTags") (strings (default_tags doc)))
               (lit "spans") (Array (span_json <$> ss))).

End ScopedTags.
