(* ===== verification/ScopedTagsSpec.v ===== *)
(** * Scoped tags: edits are exact per frame

    What a document says about each frame, that reading a selection is the union
    over its frames, and that an edit changes the selected frames and no other. *)

From Stdlib Require Import ZArith Lia Sorted.
From stdpp Require Import base gmap list sorting.
From S2P Require Import Prelude Str Json ScopedTags.

Import Json ScopedTags.
Open Scope Z_scope.

(** ** Tag lists *)

(** A list [tags] returns: ascending, valid tags, at most 128. *)
Record valid_tags (l : list (list Z)) : Prop := {
  vt_ascending : str_ascending l;
  vt_ok : Forall (fun t => tag_ok t = true) l;
  vt_length : (length l <= 128)%nat;
}.

Lemma collect_tags_spec items : forall acc r, collect_tags items acc = Ok r ->
  exists l, items = String <$> l /\ Forall (fun t => tag_ok t = true) l /\ r = set_extend str_leb l acc.
Proof.
  induction items as [|v items IH]; intros acc r; cbn [collect_tags]; [intros [= <-]; by exists []|].
  destruct v; cbn [as_str ok_or rbind]; try done. destruct (tag_ok s) eqn:E; [|done].
  intros (l & -> & Hl & ->)%IH. exists (s :: l). by repeat constructor.
Qed.

Lemma collect_tags_strings l : forall acc, Forall (fun t => tag_ok t = true) l ->
  collect_tags (String <$> l) acc = Ok (set_extend str_leb l acc).
Proof.
  induction l as [|t l IH]; intros acc Hl; [done|]. apply Forall_cons in Hl as [Ht Hl].
  cbn. rewrite Ht. by apply IH.
Qed.

Lemma tags_valid v r : tags v = Ok r -> valid_tags r.
Proof.
  unfold tags. destruct v; cbn [as_array ok_or rbind]; try done. destruct (Nat.ltb_spec 128 (length l)); [done|].
  intros (l' & -> & Hl & ->)%collect_tags_spec. rewrite length_fmap in *. split.
  - apply str_set_ascending.
  - apply Forall_forall. intros x Hx. rewrite Forall_forall in Hl. apply Hl.
    by apply (elem_of_set_of str_leb).
  - pose proof (length_set_of str_leb l'). unfold set_of in *. lia.
Qed.

Lemma tags_strings r : valid_tags r -> tags (strings r) = Ok r.
Proof.
  intros [Ha Ho Hl]. unfold tags, strings. cbn [as_array ok_or rbind]. rewrite length_fmap, (proj2 (Nat.ltb_ge _ _)) by lia.
  rewrite collect_tags_strings by done. f_equal. apply str_set_unique; [apply str_set_ascending|done|].
  intros x. apply (elem_of_set_of str_leb).
Qed.

(** ** Documents *)

Definition inside (s : Span) (f : Z) : Prop := sp_start s <= f < sp_end s.
Definition before (s t : Span) : Prop := sp_end s <= sp_start t.
Definition span_ok (total : Z) (s : Span) : Prop :=
  0 <= sp_start s < sp_end s /\ sp_end s <= total /\ valid_tags (sp_tags s).

Lemma frame_ok v n : frame v = Ok n -> n <= 2 ^ 32 - 1.
Proof. unfold frame. destruct (as_u64 v); cbn; [|done]. case_match eqn:E; [|done]. intros [= <-]. by apply Z.leb_le. Qed.

Lemma range_ok a b t u : range a b t = Ok u <-> a < b <= t.
Proof. destruct u. unfold range. destruct (Z.ltb_spec a b), (Z.leb_spec b t); cbn; split; (done || lia). Qed.

Lemma parse_spans_ok total items : forall prior ss, 0 <= prior -> parse_spans total items prior = Ok ss ->
  Forall (fun s => span_ok total s /\ prior <= sp_start s) ss /\ StronglySorted before ss.
Proof.
  induction items as [|v items IH]; intros prior ss Hp; cbn [parse_spans]; [intros [= <-]; by repeat constructor|].
  destruct (as_object v); cbn [ok_or rbind]; [|done]. destruct (negb _); [done|].
  intros (a & Ha & (b & Hb & (u & Hr%range_ok & H)%rbind_Ok)%rbind_Ok)%rbind_Ok.
  destruct (Z.ltb_spec a prior); [done|].
  apply rbind_Ok in H as (ts & Ht%tags_valid & (more & Hm & [= <-])%rbind_Ok).
  destruct (IH b more ltac:(lia) Hm) as [Hf Hs]. split; constructor; cbn.
  - split; [split_and!; (done || cbn; lia)|done].
  - eapply Forall_impl; [exact Hf|]. cbn. intros s [? ?]. split; [done|lia].
  - done.
  - eapply Forall_impl; [exact Hf|]. by intros s [? ?].
Qed.

Lemma span_keys s : forallb (fun kv : list Z * Value => span_key (fst kv))
  (map_to_list (<[lit "startFrame" := Num (PosInt (sp_start s))]> (<[lit "endFrame" := Num (PosInt (sp_end s))]>
    ({[ lit "tags" := strings (sp_tags s) ]} : gmap (list Z) Value)))) = true.
Proof.
  apply Is_true_true, forallb_True, Forall_forall. intros [k v] Hk%elem_of_map_to_list. cbn [fst]. unfold span_key.
  apply Is_true_true. rewrite !orb_true_iff, !bool_decide_eq_true.
  apply lookup_insert_Some in Hk as [[<- _]|[_ Hk]]; [by left; left|].
  apply lookup_insert_Some in Hk as [[<- _]|[_ Hk]]; [by left; right|].
  apply lookup_singleton_Some in Hk as [<- _]. by right.
Qed.

Lemma parse_spans_json total ss : total <= 2 ^ 32 - 1 -> forall prior,
  Forall (fun s => span_ok total s /\ prior <= sp_start s) ss -> StronglySorted before ss ->
  parse_spans total (span_json <$> ss) prior = Ok ss.
Proof.
  intros Ht. induction ss as [|s ss IH]; intros prior Hf Hs; [done|].
  apply Forall_cons in Hf as [[(H1 & H2 & H3) H4] Hf]. apply StronglySorted_inv in Hs as [Hs Hb].
  cbn [fmap list_fmap parse_spans]. unfold span_json at 1. cbn [as_object ok_or rbind]. rewrite span_keys. cbn [negb].
  replace (index (span_json s) (lit "startFrame")) with (Num (PosInt (sp_start s))) by done.
  replace (index (span_json s) (lit "endFrame")) with (Num (PosInt (sp_end s))) by done.
  replace (index (span_json s) (lit "tags")) with (strings (sp_tags s)) by done.
  unfold frame. cbn [as_u64 ok_or rbind]. rewrite !(proj2 (Z.leb_le _ _)) by lia. cbn [rbind].
  rewrite (proj2 (range_ok _ _ _ tt)) by lia. cbn [rbind]. rewrite (proj2 (Z.ltb_ge _ _)) by lia.
  rewrite tags_strings by done. cbn [rbind]. rewrite IH.
  - cbn [rbind]. by destruct s.
  - rewrite Forall_forall in Hf, Hb |- *. intros x Hx. split; [apply Hf, Hx|apply Hb, Hx].
  - done.
Qed.

(** What [parse] guarantees. *)
Record doc_ok (t : Z) (doc : Document) : Prop := {
  do_total : total doc = t;
  do_positive : 0 < t;
  do_default : valid_tags (default_tags doc);
  do_spans : Forall (span_ok t) (spans doc);
  do_sorted : StronglySorted before (spans doc);
  do_object : exists m, original doc = Object m /\ eq_int (index (Object m) (lit "version")) 2 = true
                /\ frame (index (Object m) (lit "totalFrames")) = Ok t;
}.

Lemma parse_ok v t doc : t <= 2 ^ 32 - 1 -> parse v t = Ok doc -> doc_ok t doc.
Proof.
  intros Hu. unfold parse. destruct (Z.ltb_spec 0 t); [|done]. cbn [negb]. destruct (is_array v) eqn:Ea.
  - intros (d & Hd%tags_valid & [= <-])%rbind_Ok. split; [done|done|done|constructor|constructor|].
    eexists. split; [reflexivity|]. split; [done|].
    replace (index _ _) with (Num (PosInt t)) by done. unfold frame. cbn [as_u64 ok_or rbind].
    by rewrite (proj2 (Z.leb_le _ _)).
  - destruct (is_object v && _) eqn:Eo; cbn [negb]; [|done]. apply andb_true_iff in Eo as [Eo Ev].
    intros (n & Hn & H1)%rbind_Ok. destruct (Z.eqb_spec n t) as [->|]; cbn [negb] in H1; [|done].
    apply rbind_Ok in H1 as (d & Hd%tags_valid & (raw & _ & H1)%rbind_Ok). destruct (_ <? _)%nat; [done|].
    apply rbind_Ok in H1 as (ss & [Hf Hs]%parse_spans_ok & [= <-]); [|done].
    split; cbn; [done|done|done|by eapply Forall_impl; [exact Hf|intros ? [? _]]|done|].
    destruct v; cbn in Eo; try done. by eexists.
Qed.

(** ** Windows between cuts *)

(** The frames where the document or the selection can change. *)
Definition bound (doc : Document) (ranges : list (Z * Z)) (b : Z) : Prop :=
  (exists s, s ∈ spans doc /\ (b = sp_start s \/ b = sp_end s)) \/ (exists r, r ∈ ranges /\ (b = fst r \/ b = snd r)).

Lemma find_span_const ss p f : p <= f ->
  (forall s, s ∈ ss -> ~ p < sp_start s <= f /\ ~ p < sp_end s <= f) -> find_span ss f = find_span ss p.
Proof.
  intros Hp. induction ss as [|s ss IH]; intros H; [done|]. cbn.
  destruct (H s ltac:(by left)) as [H1 H2]. rewrite IH by (intros; apply H; by right).
  destruct (Z.leb_spec (sp_start s) f), (Z.ltb_spec f (sp_end s)), (Z.leb_spec (sp_start s) p), (Z.ltb_spec p (sp_end s));
    cbn; (done || lia).
Qed.

Lemma selected_const ranges p f : p <= f ->
  (forall r, r ∈ ranges -> ~ p < fst r <= f /\ ~ p < snd r <= f) -> selected ranges f = selected ranges p.
Proof.
  intros Hp. induction ranges as [|r rs IH]; intros H; [done|]. cbn.
  destruct (H r ltac:(by left)) as [H1 H2]. unfold selected in IH. rewrite IH by (intros; apply H; by right). f_equal.
  destruct (Z.leb_spec (fst r) f), (Z.ltb_spec f (snd r)), (Z.leb_spec (fst r) p), (Z.ltb_spec p (snd r)); cbn; (done || lia).
Qed.

Lemma selected_spec ranges f : selected ranges f = true <-> exists r, r ∈ ranges /\ fst r <= f < snd r.
Proof.
  unfold selected. rewrite existsb_exists. split; intros (r & Hr & H); exists r; rewrite list_elem_of_In in *;
    (split; [done|]); revert H; rewrite andb_true_iff, Z.leb_le, Z.ltb_lt; lia.
Qed.

(** Within a window nothing changes. *)
Lemma window_const doc ranges p e f : p <= f < e -> (forall b, bound doc ranges b -> ~ p < b < e) ->
  at_ doc f = at_ doc p /\ selected ranges f = selected ranges p.
Proof.
  intros Hf Hb. split.
  - unfold at_. rewrite (find_span_const _ p f); [done|lia|]. intros s Hs.
    assert (~ p < sp_start s < e) by (apply Hb; left; eauto). assert (~ p < sp_end s < e) by (apply Hb; left; eauto). lia.
  - apply selected_const; [lia|]. intros r Hr.
    assert (~ p < fst r < e) by (apply Hb; right; eauto). assert (~ p < snd r < e) by (apply Hb; right; eauto). lia.
Qed.

Lemma cut_ranges_ok t ranges : forall s cs, cut_ranges t ranges s = Ok cs ->
  Forall (fun r => fst r < snd r <= t) ranges
  /\ (forall x, x ∈ cs <-> x ∈ s \/ exists r, r ∈ ranges /\ (x = fst r \/ x = snd r))
  /\ (StronglySorted (set_lt Z.leb) s -> StronglySorted (set_lt Z.leb) cs).
Proof.
  induction ranges as [|[a b] rs IH]; intros s cs; cbn [cut_ranges].
  - intros [= <-]. split_and!; [constructor| |done]. intros x. split; [by left|]. intros [H|(r & Hr & _)]; [done|].
    by apply elem_of_nil in Hr.
  - intros (u & Hu%range_ok & (Hf & He & Hs)%IH)%rbind_Ok. split_and!; [by constructor| |].
    + intros x. rewrite He, !elem_of_set_insert. split.
      * intros [[->|[->|H]]|(r & Hr & Hx)]; [right; exists (a, b)|right; exists (a, b)|by left|right; exists r];
          (split; [rewrite elem_of_cons; auto|auto]).
      * intros [H|(r & [->|Hr]%elem_of_cons & Hx)]; [auto| |right; eauto]. cbn in Hx. destruct Hx; auto.
    + intros H. apply Hs. by repeat apply (set_insert_ascending Z.leb zleb_total zleb_trans zleb_antisym).
Qed.

(** Cuts are ascending, from 0 to the end, with every bound among them. *)
Lemma cuts_ok t doc ranges cs : doc_ok t doc -> cuts doc ranges = Ok cs ->
  Forall (fun r => fst r < snd r <= t) ranges /\ StronglySorted (set_lt Z.leb) cs /\ 0 ∈ cs /\ t ∈ cs
  /\ (forall x, x ∈ cs -> x = 0 \/ x = t \/ bound doc ranges x) /\ (forall b, bound doc ranges b -> b ∈ cs).
Proof.
  intros Hd. unfold cuts. destruct (_ || _); [done|]. intros (Hf & He & Hs)%cut_ranges_ok. rewrite (do_total _ _ Hd) in *.
  assert (forall x, x ∈ spans doc ≫= (fun s => [sp_start s; sp_end s])
    <-> exists s, s ∈ spans doc /\ (x = sp_start s \/ x = sp_end s)) as Hb.
  { intros x. rewrite list_elem_of_bind. split; intros (s & H1 & H2); exists s; revert H1 H2;
      rewrite !elem_of_cons, elem_of_nil; naive_solver. }
  assert (forall x, x ∈ cs <-> x = 0 \/ x = t \/ bound doc ranges x) as Hx.
  { intros x. rewrite He, elem_of_set_extend, elem_of_set_of, Hb, !elem_of_cons, elem_of_nil. unfold bound. naive_solver. }
  split_and!; [done| |apply Hx; auto|apply Hx; auto|apply Hx|intros b H; apply Hx; auto].
  apply Hs. apply (set_extend_ascending Z.leb zleb_total zleb_trans zleb_antisym).
  apply (set_of_ascending Z.leb zleb_total zleb_trans zleb_antisym).
Qed.

(** A fold over the windows keeps an invariant from the first cut to the last. *)
Lemma fold_windows {S : Type} (step : S -> Z * Z -> S) (P : S -> Z -> Prop) (B : Z -> Prop) :
  (forall s p e, P s p -> 0 <= p < e -> (forall b, B b -> ~ p < b < e) -> P (step s (p, e)) e) ->
  forall rest c s, 0 <= c -> StronglySorted (set_lt Z.leb) (c :: rest) -> (forall b, B b -> c < b -> b ∈ rest) ->
  P s c -> exists m, m ∈ c :: rest /\ (forall x, x ∈ c :: rest -> x <= m) /\ P (foldl step s (windows2 (c :: rest))) m.
Proof.
  intros Hstep. induction rest as [|c1 rest IH]; intros c s Hc Hs Hb Hp.
  - exists c. split_and!; [by left| |done]. intros x [->|[]%not_elem_of_nil]%elem_of_cons. done.
  - apply StronglySorted_inv in Hs as [Hs Hf]. apply Forall_cons in Hf as [[Hlt%Z.leb_le Hne] Hf].
    assert (forall x, x ∈ rest -> c1 < x) as Hr.
    { intros x Hx. apply StronglySorted_inv in Hs as [_ H1]. rewrite Forall_forall in H1.
      destruct (H1 x Hx) as [H2%Z.leb_le H3]. lia. }
    destruct (IH c1 (step s (c, c1))) as (m & Hm & Hmax & HP).
    + lia.
    + done.
    + intros b HB Hcb. destruct (proj1 (elem_of_cons _ _ _) (Hb b HB ltac:(lia))) as [->|]; [lia|done].
    + apply Hstep; [done|lia|]. intros b HB Hcb.
      destruct (proj1 (elem_of_cons _ _ _) (Hb b HB ltac:(lia))) as [->|Hin]; [lia|]. specialize (Hr b Hin). lia.
    + exists m. split_and!; [by right| |exact HP]. intros x [->|Hx]%elem_of_cons; [|by apply Hmax].
      specialize (Hmax c1 ltac:(by left)). lia.
Qed.

Lemma fold_cuts {S : Type} (step : S -> Z * Z -> S) (P : S -> Z -> Prop) t doc ranges cs s :
  doc_ok t doc -> Forall (fun r => 0 <= fst r) ranges -> cuts doc ranges = Ok cs ->
  (forall s p e, P s p -> 0 <= p < e -> (forall b, bound doc ranges b -> ~ p < b < e) -> P (step s (p, e)) e) ->
  P s 0 -> P (foldl step s (windows2 cs)) t.
Proof.
  intros Hd Hr Hc Hstep H0. destruct (cuts_ok t doc ranges cs Hd Hc) as (Hf & Hs & Hin0 & Hint & Honly & Hall).
  pose proof (do_positive _ _ Hd) as Ht.
  assert (forall x, x ∈ cs -> 0 <= x <= t) as Hrange.
  { intros x [->|[->|[(s' & Hs' & Hx)|(r & Hr' & Hx)]]]%Honly; [lia|lia| |].
    - pose proof (do_spans _ _ Hd) as H. rewrite Forall_forall in H. destruct (H s' Hs') as (? & ? & _). lia.
    - rewrite Forall_forall in Hf, Hr. specialize (Hf r Hr'). specialize (Hr r Hr'). cbn in *. lia. }
  destruct cs as [|c rest]; [by apply elem_of_nil in Hin0|].
  pose proof (StronglySorted_inv Hs) as [_ Hlt]. rewrite Forall_forall in Hlt.
  assert (c = 0) as ->.
  { apply elem_of_cons in Hin0 as [|Hin]; [done|]. destruct (Hlt 0 Hin) as [H%Z.leb_le _].
    specialize (Hrange c ltac:(by left)). lia. }
  destruct (fold_windows step P (bound doc ranges) Hstep rest 0 s ltac:(lia) Hs) as (m & Hm & Hmax & HP).
  - intros b Hb Hpos. specialize (Hall b Hb). apply elem_of_cons in Hall as [->|]; [lia|done].
  - done.
  - replace t with m; [done|]. specialize (Hmax t Hint). specialize (Hrange m Hm). lia.
Qed.

Lemma selected_range ranges t f : Forall (fun r => 0 <= fst r) ranges -> Forall (fun r => fst r < snd r <= t) ranges ->
  selected ranges f = true -> 0 <= f < t.
Proof.
  rewrite !Forall_forall. intros H1 H2 (r & Hr & Hf)%selected_spec. specialize (H1 r Hr). specialize (H2 r Hr). cbn in *. lia.
Qed.

(** Reading a selection. *)
Lemma read_union t doc ranges cs : doc_ok t doc -> Forall (fun r => 0 <= fst r) ranges -> cuts doc ranges = Ok cs ->
  let r := foldl (fun acc w => if selected ranges (fst w) then set_extend str_leb (at_ doc (fst w)) acc else acc)
             [] (windows2 cs) in
  str_ascending r /\ forall x, x ∈ r <-> exists f, selected ranges f = true /\ x ∈ at_ doc f.
Proof.
  intros Hd Hr Hc r.
  assert (str_ascending r /\ forall x, x ∈ r <-> exists f, 0 <= f < t /\ selected ranges f = true /\ x ∈ at_ doc f) as [Ha Hx].
  { apply (fold_cuts _ (fun acc p => str_ascending acc /\ forall x, x ∈ acc
      <-> exists f, 0 <= f < p /\ selected ranges f = true /\ x ∈ at_ doc f) t doc ranges cs []); [done|done|done| |].
    - intros acc p e [Ha Hacc] Hp Hb. cbn [fst].
      assert (forall f, p <= f < e -> at_ doc f = at_ doc p /\ selected ranges f = selected ranges p) as Hw
        by (intros f Hf; by eapply window_const).
      destruct (selected ranges p) eqn:Es.
      + split; [by apply str_extend_ascending|]. intros x. rewrite elem_of_set_extend, Hacc. split.
        * intros [H|(f & Hf & H)]; [exists p; split_and!; (done || lia)|exists f; split; [lia|done]].
        * intros (f & Hf & Hs & H). destruct (decide (f < p)) as [|Hge]; [right; exists f; split_and!; (done || lia)|].
          left. by destruct (Hw f ltac:(lia)) as [<- _].
      + split; [done|]. intros x. rewrite Hacc. split; intros (f & Hf & Hs & H); exists f; (split; [|done]); [lia|].
        destruct (decide (f < p)); [lia|]. destruct (Hw f ltac:(lia)) as [_ H1]. congruence.
    - split; [constructor|]. intros x. split; [by intros ?%not_elem_of_nil|]. intros (f & Hf & _). lia. }
  split; [done|]. intros x. rewrite Hx. split; intros (f & H); exists f; [tauto|]. split; [|done].
  eapply selected_range; [done| |apply H]. by eapply cuts_ok.
Qed.

(** ** Editing *)

Section Edit.
Context (t : Z) (doc : Document) (ranges : list (Z * Z)) (added removed : list (list Z)) (Hd : doc_ok t doc).
Notation next := (next_tags doc ranges added removed).

(** The spans written so far describe the frames before [p]. *)
Record edited (out : list Span) (p : Z) : Prop := {
  ed_span : Forall (fun s => 0 <= sp_start s < sp_end s /\ sp_end s <= p /\ sp_tags s <> default_tags doc) out;
  ed_order : StronglySorted (flip before) out;
  ed_tags : forall s f, s ∈ out -> inside s f -> sp_tags s = next f;
  ed_cover : forall f, 0 <= f < p -> next f <> default_tags doc -> exists s, s ∈ out /\ inside s f;
  ed_maximal : forall s, s ∈ out -> sp_end s < p -> next (sp_end s) <> sp_tags s;
}.

Lemma next_const p e f : p <= f < e -> (forall b, bound doc ranges b -> ~ p < b < e) -> next f = next p.
Proof. intros Hf Hb. unfold next_tags. by destruct (window_const doc ranges p e f Hf Hb) as [-> ->]. Qed.

Lemma edited_span out p s : edited out p -> s ∈ out -> 0 <= sp_start s < sp_end s /\ sp_end s <= p /\ sp_tags s <> default_tags doc.
Proof. intros He. pose proof (ed_span _ _ He) as H. rewrite Forall_forall in H. apply H. Qed.

(** A window that keeps the default. *)
Lemma edited_skip out p e : edited out p -> 0 <= p < e -> (forall f, p <= f < e -> next f = next p) ->
  next p = default_tags doc -> edited out e.
Proof.
  intros He Hp Hc Hn. destruct He as [H1 H2 H3 H4 H5]. rewrite Forall_forall in H1. split; [|done|done| |].
  - apply Forall_forall. intros s Hs. specialize (H1 s Hs). split_and!; [lia|lia|lia|tauto].
  - intros f Hf Hne. apply H4; [|done]. destruct (decide (f < p)); [lia|]. rewrite Hc in Hne by lia. done.
  - intros s Hs Hlt. destruct (decide (sp_end s < p)); [by apply H5|]. specialize (H1 s Hs).
    rewrite (Hc (sp_end s)) by lia. rewrite Hn. intros E. symmetry in E. tauto.
Qed.

(** A window that starts a span, or extends the last one. *)
Lemma edited_push out p e : edited out p -> 0 <= p < e -> (forall f, p <= f < e -> next f = next p) ->
  next p <> default_tags doc -> (forall s, s ∈ out -> sp_end s = p -> sp_tags s <> next p) ->
  edited (mkSpan p e (next p) :: out) e.
Proof.
  intros He Hp Hc Hn Hlast. pose proof (edited_span out p) as Hin. destruct He as [H1 H2 H3 H4 H5]. split.
  - constructor; [cbn; split_and!; (done || lia)|]. eapply Forall_impl; [exact H1|]. cbn. intros s Hs. split_and!; [lia|lia|lia|tauto].
  - constructor; [done|]. rewrite Forall_forall in H1 |- *. intros s Hs. specialize (H1 s Hs). cbn. unfold before. cbn. lia.
  - intros s f [->|Hs]%elem_of_cons Hf; [|by apply H3]. unfold inside in Hf. cbn in *. by rewrite (Hc f).
  - intros f Hf Hne. destruct (decide (f < p)) as [|Hge].
    + destruct (H4 f ltac:(lia) Hne) as (s & Hs & Hi). exists s. split; [by right|done].
    + eexists. split; [by left|]. unfold inside. cbn. lia.
  - intros s [->|Hs]%elem_of_cons Hlt; [cbn in Hlt; lia|]. destruct (decide (sp_end s < p)); [by apply H5|].
    rewrite Forall_forall in H1. specialize (H1 s Hs). rewrite (Hc (sp_end s)) by lia. intros E. symmetry in E. revert E. apply Hlast; [done|lia].
Qed.

Lemma edited_merge q out p e : edited (q :: out) p -> 0 <= p < e -> (forall f, p <= f < e -> next f = next p) ->
  next p <> default_tags doc -> sp_end q = p -> sp_tags q = next p -> edited (mkSpan (sp_start q) e (sp_tags q) :: out) e.
Proof.
  intros He Hp Hc Hn Hq Ht. destruct He as [H1 H2 H3 H4 H5]. apply Forall_cons in H1 as [Hsq H1].
  apply StronglySorted_inv in H2 as [H2 Hb]. assert (forall s, s ∈ out -> sp_end s <= sp_start q) as Hbefore.
  { rewrite Forall_forall in Hb. intros s Hs. by apply Hb. }
  split.
  - destruct Hsq as (? & ? & ?). constructor; [cbn; split_and!; (done || lia)|]. eapply Forall_impl; [exact H1|]. cbn. intros s Hs. split_and!; [lia|lia|lia|tauto].
  - constructor; [done|]. rewrite Forall_forall in Hb |- *. intros s Hs. apply (Hb s Hs).
  - intros s f [->|Hs]%elem_of_cons Hf; [|apply H3; [by right|done]]. unfold inside in Hf. cbn [sp_start sp_end sp_tags] in *.
    destruct (decide (f < p)); [apply H3; [by left|unfold inside; lia]|]. rewrite (Hc f) by lia. done.
  - intros f Hf Hne. destruct (decide (f < p)) as [|Hge].
    + destruct (H4 f ltac:(lia) Hne) as (s & [->|Hs]%elem_of_cons & Hi).
      * eexists. split; [by left|]. unfold inside in *. cbn. lia.
      * exists s. split; [by right|done].
    + eexists. split; [by left|]. unfold inside. cbn. lia.
  - intros s [->|Hs]%elem_of_cons Hlt; [cbn in Hlt; lia|]. apply H5; [by right|]. specialize (Hbefore s Hs). lia.
Qed.

Lemma push_window_edited out p e : edited out p -> 0 <= p < e -> (forall b, bound doc ranges b -> ~ p < b < e) ->
  edited (push_window doc ranges added removed out (p, e)) e.
Proof.
  intros He Hp Hb. assert (forall f, p <= f < e -> next f = next p) as Hc by (intros; by eapply next_const).
  unfold push_window. case_bool_decide; [by eapply edited_skip|]. destruct out as [|q out].
  - apply (edited_push [] p e He); try done. by intros s ?%not_elem_of_nil.
  - destruct (Z.eqb_spec (sp_end q) p) as [Eq|Eq]; cbn [andb]; [case_bool_decide as Et|]; [by eapply edited_merge| |];
      (apply (edited_push (q :: out) p e He); [done..|]); intros s [->|Hs]%elem_of_cons Hend Hsame; try done;
      pose proof (StronglySorted_inv (ed_order _ _ He)) as [_ Hbef]; rewrite Forall_forall in Hbef;
      pose proof (Hbef s Hs) as Hle; pose proof (edited_span _ _ q He ltac:(by left)) as Hq;
      cbn in Hle; unfold before in Hle; lia.
Qed.

Lemma edited_all cs : Forall (fun r => 0 <= fst r) ranges -> cuts doc ranges = Ok cs ->
  edited (foldl (push_window doc ranges added removed) [] (windows2 cs)) t.
Proof.
  intros Hr Hc. apply (fold_cuts _ edited t doc ranges cs []); [done|done|done| |].
  - intros out p e He Hp Hb. by apply push_window_edited.
  - split; [apply Forall_nil_2|apply SSorted_nil| | |].
    + by intros s f ?%not_elem_of_nil.
    + intros. lia.
    + by intros s ?%not_elem_of_nil.
Qed.

End Edit.

(** ** The edited document *)

Lemma find_span_spec ss f :
  match find_span ss f with Some s => s ∈ ss /\ inside s f | None => forall s, s ∈ ss -> ~ inside s f end.
Proof.
  induction ss as [|s ss IH]; cbn; [by intros s ?%not_elem_of_nil|]. unfold inside in *.
  destruct (Z.leb_spec (sp_start s) f), (Z.ltb_spec f (sp_end s)); cbn [andb]; [split; [by left|lia]| | |];
    (destruct (find_span ss f) as [x|]; [split; [right; tauto|tauto]|]; intros y [->|Hy]%elem_of_cons; [lia|by apply IH]).
Qed.

(** Sorted spans share no frame. *)
Lemma sorted_inside_unique ss t i j s s' f : StronglySorted before ss -> Forall (span_ok t) ss ->
  ss !! i = Some s -> ss !! j = Some s' -> inside s f -> inside s' f -> i = j.
Proof.
  intros Hs. revert i j. induction Hs as [|x ss _ IH Hb]; intros i j Hok Hi Hj Hf Hf'; [done|].
  apply Forall_cons in Hok as [Hx Hok]. rewrite Forall_forall in Hb. unfold inside, before in *.
  destruct i as [|i], j as [|j]; cbn in Hi, Hj; [done| | |f_equal; by eapply IH]; simplify_eq.
  - apply list_elem_of_lookup_2 in Hj. specialize (Hb _ Hj). lia.
  - apply list_elem_of_lookup_2 in Hi. specialize (Hb _ Hi). lia.
Qed.

Lemma elem_of_rev {A} (x : A) l : x ∈ rev l <-> x ∈ l.
Proof. by rewrite !list_elem_of_In, <- in_rev. Qed.

Lemma StronglySorted_rev {A} (R : A -> A -> Prop) l : StronglySorted (flip R) l -> StronglySorted R (rev l).
Proof.
  induction 1 as [|x l Hl IH Hf]; [constructor|]. cbn. apply StronglySorted_app_2; [|done|by repeat constructor].
  intros a b Ha Hb. apply list_elem_of_singleton in Hb as ->. rewrite Forall_forall in Hf. apply (Hf a).
  by rewrite elem_of_rev in Ha.
Qed.

Definition tag_list (l : list (list Z)) : Prop := str_ascending l /\ Forall (fun t => tag_ok t = true) l.

Lemma at_tags t doc f : doc_ok t doc -> tag_list (at_ doc f) /\ (length (at_ doc f) <= 128)%nat.
Proof.
  intros Hd. assert (valid_tags (at_ doc f)) as [H1 H2 H3]; [|done]. unfold at_. pose proof (find_span_spec (spans doc) f) as H.
  destruct (find_span (spans doc) f) as [s|]; [|apply Hd]. pose proof (do_spans _ _ Hd) as Hs.
  rewrite Forall_forall in Hs. destruct H as [H _]. apply (Hs s H).
Qed.

Lemma elem_of_edit added removed cur x : x ∈ edit added removed cur <-> x ∈ cur /\ x ∉ removed \/ x ∈ added.
Proof. unfold edit. rewrite elem_of_set_of, elem_of_app, list_elem_of_filter. tauto. Qed.

Lemma edit_ext added removed added' removed' cur :
  (forall x, x ∈ added <-> x ∈ added') -> (forall x, x ∈ removed <-> x ∈ removed') ->
  edit added removed cur = edit added' removed' cur.
Proof.
  intros Ha Hr. apply str_set_unique; try apply str_set_ascending. intros x.
  change (x ∈ edit added removed cur <-> x ∈ edit added' removed' cur). by rewrite !elem_of_edit, Ha, Hr.
Qed.

Lemma edit_tags added removed cur : Forall (fun t => tag_ok t = true) added -> tag_list cur -> tag_list (edit added removed cur).
Proof.
  intros Ha [_ Hc]. split; [apply str_set_ascending|]. rewrite Forall_forall in *. intros x [[Hx _]|Hx]%elem_of_edit; auto.
Qed.

Lemma tags_strings_ok l r : tags (strings l) = Ok r -> Forall (fun t => tag_ok t = true) l /\ forall x, x ∈ r <-> x ∈ l.
Proof.
  unfold tags, strings. cbn [as_array ok_or rbind]. destruct (_ <? _)%nat; [done|].
  intros (l' & E & Hl & ->)%collect_tags_spec. assert (l' = l) as ->.
  { revert l' E Hl. induction l as [|x l IH]; intros [|y l'] E Ho; cbn in E; [done|done|done|].
    injection E as -> E. f_equal. apply IH; [done|]. by apply Forall_cons in Ho as [_ Ho]. }
  split; [done|]. intros x. apply elem_of_set_of.
Qed.

(** The document an edit writes, parsed up to its spans. *)
Definition written (m : gmap (list Z) Value) (d : list (list Z)) (ss : list Span) : Value :=
  set_index (set_index (Object m) (lit "defaultTags") (strings d)) (lit "spans") (Array (span_json <$> ss)).

Lemma parse_written t m d ss : 0 < t -> eq_int (index (Object m) (lit "version")) 2 = true ->
  frame (index (Object m) (lit "totalFrames")) = Ok t -> valid_tags d -> (length ss <= 256)%nat ->
  parse (written m d ss) t
  = rbind (parse_spans t (span_json <$> ss) 0) (fun ss' => Ok (mkDoc (written m d ss) t d ss')).
Proof.
  intros Ht Hv Hn Hd Hl. set (v := written m d ss).
  assert (forall k, k <> lit "defaultTags" -> k <> lit "spans" -> index v k = index (Object m) k) as Hk.
  { intros k H1 H2. cbn [v written set_index index]. by rewrite !lookup_insert_ne by done. }
  unfold parse. rewrite (proj2 (Z.ltb_lt _ _)) by lia. cbn [negb].
  change (is_array v) with false. change (is_object v) with true. rewrite !Hk by done. rewrite Hv, Hn. cbn [andb negb rbind].
  rewrite Z.eqb_refl. cbn [negb].
  replace (index v (lit "defaultTags")) with (strings d)
    by (cbn [v written set_index index]; rewrite lookup_insert_ne by done; by rewrite lookup_insert_eq).
  replace (index v (lit "spans")) with (Array (span_json <$> ss))
    by (cbn [v written set_index index]; by rewrite lookup_insert_eq).
  rewrite tags_strings by done. cbn [rbind as_array ok_or]. by rewrite length_fmap, (proj2 (Nat.ltb_ge _ _)) by lia.
Qed.

(** A span as an edit writes it, its number of tags unchecked. *)
Definition span_written (t : Z) (s : Span) : Prop := 0 <= sp_start s < sp_end s /\ sp_end s <= t /\ tag_list (sp_tags s).

(** A span with more than 128 tags stops the parser. *)
Lemma parse_spans_over t ss : t <= 2 ^ 32 - 1 -> forall prior,
  Forall (fun s => span_written t s /\ prior <= sp_start s) ss -> StronglySorted before ss ->
  (exists s, s ∈ ss /\ (128 < length (sp_tags s))%nat) ->
  parse_spans t (span_json <$> ss) prior = Err ETooManyTags.
Proof.
  intros Ht. induction ss as [|s ss IH]; intros prior Hf Hs (x & Hx & Hlen); [by apply elem_of_nil in Hx|].
  apply Forall_cons in Hf as [[(H1 & H2 & [H3 H3']) H4] Hf]. apply StronglySorted_inv in Hs as [Hs Hb].
  cbn [fmap list_fmap parse_spans]. unfold span_json at 1. cbn [as_object ok_or rbind]. rewrite span_keys. cbn [negb].
  replace (index (span_json s) (lit "startFrame")) with (Num (PosInt (sp_start s))) by done.
  replace (index (span_json s) (lit "endFrame")) with (Num (PosInt (sp_end s))) by done.
  replace (index (span_json s) (lit "tags")) with (strings (sp_tags s)) by done.
  unfold frame. cbn [as_u64 ok_or rbind]. rewrite !(proj2 (Z.leb_le _ _)) by lia. cbn [rbind].
  rewrite (proj2 (range_ok _ _ _ tt)) by lia. cbn [rbind]. rewrite (proj2 (Z.ltb_ge _ _)) by lia.
  destruct (Nat.le_gt_cases (length (sp_tags s)) 128) as [Hle|Hgt].
  - rewrite tags_strings by by split. cbn [rbind]. rewrite IH; [done| |done|].
    + rewrite Forall_forall in Hf, Hb |- *. intros y Hy. split; [apply Hf, Hy|apply Hb, Hy].
    + exists x. split; [|done]. apply elem_of_cons in Hx as [->|]; [lia|done].
  - unfold tags, strings. cbn [as_array ok_or rbind]. by rewrite length_fmap, (proj2 (Nat.ltb_lt _ _)) by lia.
Qed.

Lemma edited_ext doc ranges a b a' b' out p :
  (forall f, next_tags doc ranges a b f = next_tags doc ranges a' b' f) ->
  edited doc ranges a b out p -> edited doc ranges a' b' out p.
Proof.
  intros H [H1 H2 H3 H4 H5]. split; [done|done| | |]; intros *; rewrite <- H; eauto.
Qed.

(** What an edit writes, whatever the number of tags. *)
Lemma apply_delta_writes value t ranges added removed v' :
  t <= 2 ^ 32 - 1 -> Forall (fun r => 0 <= fst r) ranges ->
  apply_delta value t ranges added removed = Ok v' ->
  exists doc m out, parse value t = Ok doc /\ doc_ok t doc /\ original doc = Object m
  /\ Forall (fun r => fst r < snd r <= t) ranges /\ Forall (fun x => tag_ok x = true) added
  /\ edited doc ranges added removed out t /\ v' = written m (default_tags doc) (rev out)
  /\ Forall (span_written t) (rev out) /\ StronglySorted before (rev out)
  /\ parse v' t = rbind (parse_spans t (span_json <$> rev out) 0) (fun ss => Ok (mkDoc v' t (default_tags doc) ss)).
Proof.
  intros Hu Hr. unfold apply_delta.
  intros (doc & Hp & (cs & Hc & (a & Ha & (b & Hb & H)%rbind_Ok)%rbind_Ok)%rbind_Ok)%rbind_Ok.
  destruct (negb _); [done|]. destruct (Nat.ltb_spec 256 (length (rev (foldl (push_window doc ranges a b) [] (windows2 cs))))) as [|Hcap]; [done|].
  injection H as <-. pose proof (parse_ok _ _ _ Hu Hp) as Hd. destruct (do_object _ _ Hd) as (m & Em & Hver & Htot).
  pose proof (edited_all t doc ranges a b Hd cs Hr Hc) as He. revert He Hcap.
  generalize (foldl (push_window doc ranges a b) [] (windows2 cs)) as out. intros out He Hcap.
  apply tags_strings_ok in Ha as [Hao Ha], Hb as [_ Hb].
  apply (edited_ext _ _ _ _ added removed) in He.
  2: { intros f. unfold next_tags. destruct (selected ranges f); [by apply edit_ext|done]. }
  exists doc, m, out. split; [done|]. split; [done|]. split; [done|]. split; [by eapply cuts_ok|]. split; [done|].
  split; [done|]. rewrite Em. split; [done|]. split_and!.
  - apply Forall_forall. intros s Hs. rewrite elem_of_rev in Hs. destruct (edited_span _ _ _ _ _ _ _ He Hs) as (H1 & H2 & _).
    split_and!; [lia|lia|lia|]. rewrite (ed_tags _ _ _ _ _ _ He s (sp_start s) Hs) by (unfold inside; lia).
    destruct (at_tags t doc (sp_start s) Hd) as [Hl _]. unfold next_tags. destruct (selected _ _); [by apply edit_tags|done].
  - apply StronglySorted_rev, (ed_order _ _ _ _ _ _ He).
  - apply (parse_written t m (default_tags doc) (rev out)); try done; apply Hd.
Qed.

(** What the edit makes of each frame, when no frame gets more than 128 tags. *)
Lemma apply_delta_doc value t ranges added removed v' :
  t <= 2 ^ 32 - 1 -> Forall (fun r => 0 <= fst r) ranges ->
  apply_delta value t ranges added removed = Ok v' ->
  exists doc, parse value t = Ok doc /\ doc_ok t doc
  /\ Forall (fun r => fst r < snd r <= t) ranges
  /\ ((forall f, selected ranges f = true -> (length (edit added removed (at_ doc f)) <= 128)%nat) ->
      exists doc', parse v' t = Ok doc' /\ doc_ok t doc' /\ default_tags doc' = default_tags doc
      /\ (forall f, 0 <= f < t -> at_ doc' f = if selected ranges f then edit added removed (at_ doc f) else at_ doc f)
      /\ (forall s, s ∈ spans doc' -> sp_end s < t -> at_ doc' (sp_end s) <> sp_tags s)).
Proof.
  intros Hu Hr Ha. destruct (apply_delta_writes _ _ _ _ _ _ Hu Hr Ha)
    as (doc & m & out & Hp & Hd & _ & Hrange & Hao & He & _ & Hw & Hsort & Hparse).
  exists doc. split; [done|]. split; [done|]. split; [done|]. intros Hlen.
  assert (Forall (span_ok t) (rev out)) as Hspans.
  { rewrite Forall_forall in Hw |- *. intros s Hs. destruct (Hw s Hs) as (H1 & H2 & H3 & H4). split_and!; [lia|lia|lia|].
    split; [done|done|]. rewrite elem_of_rev in Hs. rewrite (ed_tags _ _ _ _ _ _ He s (sp_start s) Hs) by (unfold inside; lia).
    unfold next_tags. destruct (selected ranges _) eqn:E; [by apply Hlen|]. by apply (at_tags t doc). }
  rewrite parse_spans_json in Hparse; [|done| |done].
  2: { eapply Forall_impl; [exact Hspans|]. intros s H. split; [done|]. destruct H as [? _]. lia. }
  cbn [rbind] in Hparse.
  assert (forall f, 0 <= f < t -> match find_span (rev out) f with Some s => sp_tags s | None => default_tags doc end
    = next_tags doc ranges added removed f) as Hat.
  { intros f Hf. pose proof (find_span_spec (rev out) f) as Hfs. destruct (find_span (rev out) f) as [s|].
    - destruct Hfs as [Hs Hi]. rewrite elem_of_rev in Hs. by apply (ed_tags _ _ _ _ _ _ He).
    - destruct (decide (next_tags doc ranges added removed f = default_tags doc)) as [|Hne]; [done|].
      destruct (ed_cover _ _ _ _ _ _ He f Hf Hne) as (s & Hs & Hi). exfalso. apply (Hfs s); [by rewrite elem_of_rev|done]. }
  eexists. split; [exact Hparse|]. split; [by eapply parse_ok|]. split; [done|]. split.
  - intros f Hf. by apply Hat.
  - intros s Hs Hlt. cbn [spans] in *. rewrite elem_of_rev in Hs. destruct (edited_span _ _ _ _ _ _ _ He Hs) as (H1 & H2 & _).
    unfold at_. cbn [spans default_tags]. rewrite Hat by lia. by apply (ed_maximal _ _ _ _ _ _ He).
Qed.

(** ** What a document says, read off its JSON

    Independently of the parser: a list gives its tags to every frame; an object
    gives a frame the tags of the span that covers it, else its default. *)

Definition items (v : Value) : list Value := default [] (as_array v).

Definition covers (span : Value) (f : Z) : Prop :=
  exists a b, as_u64 (index span (lit "startFrame")) = Some a /\ as_u64 (index span (lit "endFrame")) = Some b /\ a <= f < b.

Definition default_says (value : Value) (x : list Z) : Prop :=
  match value with Array l => String x ∈ l | _ => String x ∈ items (index value (lit "defaultTags")) end.

Definition says (value : Value) (f : Z) (x : list Z) : Prop :=
  (exists span, span ∈ items (index value (lit "spans")) /\ covers span f /\ String x ∈ items (index span (lit "tags")))
  \/ ((forall span, span ∈ items (index value (lit "spans")) -> ~ covers span f) /\ default_says value x).

(** The fields an edit does not own; a list becomes a version-2 document. *)
Definition other_field (value : Value) (t : Z) (k : list Z) : option Value :=
  match value with
  | Object m => m !! k
  | _ => if decide (k = lit "version") then Some (Num (PosInt 2))
         else if decide (k = lit "totalFrames") then Some (Num (PosInt t)) else None
  end.

Definition object_fields (v : Value) : gmap (list Z) Value := default ∅ (as_object v).

Lemma tags_elem v r x : tags v = Ok r -> x ∈ r <-> String x ∈ items v.
Proof.
  unfold tags, items. destruct v; cbn [as_array ok_or rbind default]; try done. destruct (_ <? _)%nat; [done|].
  intros (l' & -> & _ & ->)%collect_tags_spec.
  change (x ∈ set_of str_leb l' <-> String x ∈ String <$> l'). rewrite (elem_of_set_of str_leb). split.
  - apply list_elem_of_fmap_2.
  - intros (y & [= ->] & Hy)%list_elem_of_fmap. done.
Qed.

(** The span a parsed JSON span stands for. *)
Definition span_of (item : Value) (s : Span) : Prop :=
  (forall f, covers item f <-> inside s f) /\ forall x, x ∈ sp_tags s <-> String x ∈ items (index item (lit "tags")).

Lemma parse_spans_of total its : forall prior ss, parse_spans total its prior = Ok ss -> Forall2 span_of its ss.
Proof.
  induction its as [|v its IH]; intros prior ss; cbn [parse_spans]; [intros [= <-]; constructor|].
  destruct (as_object v); cbn [ok_or rbind]; [|done]. destruct (negb _); [done|].
  intros (a & Ha & (b & Hb & (u & _ & H)%rbind_Ok)%rbind_Ok)%rbind_Ok.
  destruct (Z.ltb_spec a prior); [done|].
  apply rbind_Ok in H as (ts & Ht & (more & Hm & [= <-])%rbind_Ok). constructor; [|by eapply IH].
  assert (forall v n, frame v = Ok n -> as_u64 v = Some n) as Hf.
  { intros w n. unfold frame. destruct (as_u64 w); cbn; [|done]. case_match; [|done]. by intros [= <-]. }
  apply Hf in Ha, Hb. split; [|intros x; by apply tags_elem].
  intros f. unfold covers, inside. rewrite Ha, Hb. cbn [sp_start sp_end]. split; [|eauto].
  intros (a' & b' & [= <-] & [= <-] & ?). done.
Qed.

(** The parser reads what the document says, and keeps its other fields. *)
Lemma parse_says value t doc : t <= 2 ^ 32 - 1 -> parse value t = Ok doc ->
  (forall f x, says value f x <-> x ∈ at_ doc f) /\ (forall x, default_says value x <-> x ∈ default_tags doc)
  /\ forall m k, original doc = Object m -> k <> lit "defaultTags" -> k <> lit "spans" -> m !! k = other_field value t k.
Proof.
  intros Hu Hp. pose proof (parse_ok _ _ _ Hu Hp) as Hd. revert Hp. unfold parse.
  destruct (Z.ltb_spec 0 t); [|done]. cbn [negb]. destruct (is_array value) eqn:Ea.
  - destruct value; try done. intros (d & Hd' & [= <-])%rbind_Ok. pose proof (fun x => tags_elem _ _ x Hd') as He. cbn in He. split_and!.
    + intros f x. unfold says, at_. cbn. rewrite <- He. split; [|right; split; [set_solver|done]].
      intros [(? & ?%not_elem_of_nil & _)|[_ ?]]; done.
    + intros x. cbn. by rewrite He.
    + intros m k [= <-] Hk1 Hk2. cbn [other_field]. repeat case_decide; subst; [done|done|].
      by rewrite !lookup_insert_ne, lookup_singleton_ne by done.
  - destruct (is_object value && _) eqn:Eo; cbn [negb]; [|done]. apply andb_true_iff in Eo as [Eo _].
    intros (n & Hn & H1)%rbind_Ok. destruct (negb _); [done|].
    apply rbind_Ok in H1 as (d & Hd' & (raw & Hraw & H1)%rbind_Ok). destruct (_ <? _)%nat; [done|].
    apply rbind_Ok in H1 as (ss & Hss%parse_spans_of & [= <-]).
    assert (items (index value (lit "spans")) = raw) as Ei.
    { unfold items. destruct (as_array (index value (lit "spans"))); cbn in *; [by injection Hraw as ->|done]. }
    assert (forall x, default_says value x <-> x ∈ d) as Hdef.
    { intros x. rewrite (tags_elem _ _ x Hd'). by destruct value. }
    split_and!; [|done|cbn [original]; by intros m k ->].
    intros f x. unfold says, at_. rewrite Ei, Hdef. cbn [spans default_tags].
    pose proof (find_span_spec ss f) as Hfs. destruct (find_span ss f) as [s|].
    + destruct Hfs as [(i & Hi)%list_elem_of_lookup Hin].
      destruct (Forall2_lookup_r _ _ _ _ _ Hss Hi) as (sp & Hsp & Hc & Ht). rewrite Ht. split.
      * intros [(sp' & (i' & Hi')%list_elem_of_lookup & Hcov & Hx)|[Hno _]].
        -- destruct (Forall2_lookup_l _ _ _ _ _ Hss Hi') as (s' & Hs' & Hc' & Ht').
           apply Hc' in Hcov. assert (i' = i) as ->; [|by simplify_eq].
           eapply (sorted_inside_unique ss); [apply (do_sorted _ _ Hd)|apply (do_spans _ _ Hd)|done..].
        -- exfalso. apply (Hno sp); [by eapply list_elem_of_lookup_2|by apply Hc].
      * intros Hx. left. exists sp. split_and!; [by eapply list_elem_of_lookup_2|by apply Hc|done].
    + split; [intros [(sp & (i & Hi)%list_elem_of_lookup & Hcov & _)|[_ H']]|intros H'; right]; [exfalso|done|].
      * destruct (Forall2_lookup_l _ _ _ _ _ Hss Hi) as (s & Hs & Hc & _). apply (Hfs s); [by eapply list_elem_of_lookup_2|by apply Hc].
      * split; [|done]. intros sp (i & Hi)%list_elem_of_lookup Hcov.
        destruct (Forall2_lookup_l _ _ _ _ _ Hss Hi) as (s & Hs & Hc & _). apply (Hfs s); [by eapply list_elem_of_lookup_2|by apply Hc].
Qed.

Definition in_ranges (ranges : list (Z * Z)) (f : Z) : Prop := exists r, r ∈ ranges /\ fst r <= f < snd r.

(** What the edit asks for at a frame of the selection. *)
Definition edited_to (value : Value) (added removed : list (list Z)) (f : Z) (x : list Z) : Prop :=
  (says value f x /\ x ∉ removed) \/ x ∈ added.

(** At most 128 different tags. *)
Definition within_cap (P : list Z -> Prop) : Prop := forall l, NoDup l -> Forall P l -> (length l <= 128)%nat.

Lemma wanted_edit value t doc added removed f x : t <= 2 ^ 32 - 1 -> parse value t = Ok doc ->
  edited_to value added removed f x <-> x ∈ edit added removed (at_ doc f).
Proof. intros Hu Hp. unfold edited_to. by rewrite elem_of_edit, (proj1 (parse_says _ _ _ Hu Hp)). Qed.

Lemma within_cap_length (P : list Z -> Prop) l : str_ascending l -> (forall x, P x <-> x ∈ l) ->
  within_cap P <-> (length l <= 128)%nat.
Proof.
  intros Ha HP. split.
  - intros H. apply H; [|apply Forall_forall; intros x; by apply HP]. clear HP H. induction Ha as [|x l _ IH Hf]; [constructor|].
    constructor; [|done]. intros Hin. rewrite Forall_forall in Hf. destruct (Hf x Hin). done.
  - intros Hl k Hk HF. etransitivity; [|exact Hl]. apply submseteq_length, NoDup_submseteq; [done|].
    rewrite Forall_forall in HF. intros x Hx. by apply HP, HF.
Qed.

(** C26: an edit is exact per frame. When [apply_delta] succeeds and no selected
    frame ends up with more than 128 tags, the document it returns parses, and
    says of every frame of the clip: in the selection, the old tags without the
    removed ones and with the added ones; outside it, the old tags. What a
    document says is read off its JSON, not off the parser. The default is
    kept, spans are maximal (none is followed by a frame with the same tags), and
    every other field is the input's (for a list: version 2 and the number of
    frames, nothing else). *)
Theorem apply_delta_framewise (value : Value) (t : Z) (ranges : list (Z * Z)) (added removed : list (list Z)) (v' : Value) :
  t <= 2 ^ 32 - 1 -> Forall (fun r => 0 <= fst r) ranges ->
  apply_delta value t ranges added removed = Ok v' ->
  (forall f, in_ranges ranges f -> within_cap (edited_to value added removed f)) ->
  (forall f x, 0 <= f < t -> in_ranges ranges f -> says v' f x <-> edited_to value added removed f x)
  /\ (forall f x, 0 <= f < t -> ~ in_ranges ranges f -> says v' f x <-> says value f x)
  /\ (forall x, default_says v' x <-> default_says value x)
  /\ (forall k, k <> lit "defaultTags" -> k <> lit "spans" -> object_fields v' !! k = other_field value t k)
  /\ exists doc', parse v' t = Ok doc'
     /\ forall s, s ∈ spans doc' -> sp_end s < t -> at_ doc' (sp_end s) <> sp_tags s.
Proof.
  intros Hu Hr H Hcap. destruct (apply_delta_writes _ _ _ _ _ _ Hu Hr H) as (doc & m & out & Hp & _ & Em & _ & _ & _ & Hv' & _).
  destruct (apply_delta_doc _ _ _ _ _ _ Hu Hr H) as (doc0 & Hp0 & _ & _ & Hdoc). assert (doc0 = doc) as -> by congruence.
  destruct (parse_says _ _ _ Hu Hp) as (Hsays & Hdef & Hoth). destruct Hdoc as (doc' & Hp' & _ & Hdef' & Hat & Hmax).
  { intros f Hf. apply (within_cap_length (edited_to value added removed f)); [apply str_set_ascending| |].
    - intros x. by eapply wanted_edit.
    - by apply Hcap, selected_spec. }
  destruct (parse_says _ _ _ Hu Hp') as (Hsays' & Hdefs' & _). split_and!.
  - intros f x Hf Hin%selected_spec. by rewrite Hsays', Hat, Hin, (wanted_edit _ _ _ _ _ _ _ Hu Hp) by done.
  - intros f x Hf Hin. rewrite Hsays', Hat, Hsays by done. destruct (selected ranges f) eqn:E; [|done].
    by apply selected_spec in E.
  - intros x. by rewrite Hdefs', Hdef', Hdef.
  - intros k Hk1 Hk2. rewrite <- (Hoth m k Em Hk1 Hk2), Hv'. unfold object_fields. cbn. by rewrite !lookup_insert_ne by done.
  - by exists doc'.
Qed.

(** Reading works on the edited document whenever it worked before. *)
Lemma read_after value v' t doc doc' ranges before :
  t <= 2 ^ 32 - 1 -> Forall (fun r => 0 <= fst r) ranges -> parse value t = Ok doc -> parse v' t = Ok doc' ->
  tags_for_ranges value t ranges = Ok before ->
  (str_ascending before /\ forall x, x ∈ before <-> exists f, selected ranges f = true /\ x ∈ at_ doc f)
  /\ (exists r, r ∈ ranges) /\ (forall f, selected ranges f = true -> 0 <= f < t)
  /\ exists after, tags_for_ranges v' t ranges = Ok after /\ str_ascending after
     /\ forall x, x ∈ after <-> exists f, selected ranges f = true /\ x ∈ at_ doc' f.
Proof.
  intros Hu Hr Hp Hp'. unfold tags_for_ranges. rewrite Hp, Hp'. cbn [rbind].
  intros (cs & Hc & [= <-])%rbind_Ok. pose proof (parse_ok _ _ _ Hu Hp) as Hd. pose proof (parse_ok _ _ _ Hu Hp') as Hd'.
  split; [by eapply read_union|]. destruct (cuts_ok _ _ _ _ Hd Hc) as [Hf _].
  assert (exists cs', cuts doc' ranges = Ok cs') as [cs' Hc'].
  { revert Hc. unfold cuts. rewrite (do_total _ _ Hd), (do_total _ _ Hd'). destruct (_ || _); [done|].
    generalize (set_extend Z.leb (spans doc ≫= fun s => [sp_start s; sp_end s]) (set_of Z.leb [0; t])).
    generalize (set_extend Z.leb (spans doc' ≫= fun s => [sp_start s; sp_end s]) (set_of Z.leb [0; t])).
    revert cs. clear. induction ranges as [|[a b] rs IH]; intros cs s1 s2; cbn [cut_ranges]; [by eexists|].
    destruct (range a b t); cbn [rbind]; [apply IH|done]. }
  split_and!.
  - destruct ranges as [|r rs]; [done|]. exists r. by left.
  - intros f. by apply selected_range.
  - rewrite Hc'. cbn [rbind]. eexists. split; [reflexivity|]. by eapply read_union.
Qed.

(** Drives that share a clip do not disturb each other. After an edit of one
    selection, a selection that shares no frame with it reads exactly as before,
    and the edited selection reads as its former tags without the removed ones,
    plus the added ones. *)
Theorem scoped_edit_independent (value : Value) (t : Z) (ranges others : list (Z * Z)) (added removed : list (list Z))
    (v' : Value) (doc : Document) (mine theirs : list (list Z)) :
  t <= 2 ^ 32 - 1 -> Forall (fun r => 0 <= fst r) (ranges ++ others) ->
  parse value t = Ok doc ->
  (forall f, selected ranges f = true -> (length (edit added removed (at_ doc f)) <= 128)%nat) ->
  tags_for_ranges value t ranges = Ok mine -> tags_for_ranges value t others = Ok theirs ->
  (forall f, selected ranges f = true -> selected others f = false) ->
  apply_delta value t ranges added removed = Ok v' ->
  tags_for_ranges v' t others = Ok theirs
  /\ exists mine', tags_for_ranges v' t ranges = Ok mine'
     /\ forall x, x ∈ mine' <-> x ∈ mine /\ x ∉ removed \/ x ∈ added.
Proof.
  intros Hu [Hr Ho]%Forall_app Hp Hlen Hm Ht Hdis Ha.
  destruct (apply_delta_doc _ _ _ _ _ _ Hu Hr Ha) as (doc0 & Hp0 & _ & Hrange & Hdoc).
  assert (doc0 = doc) as -> by congruence. destruct (Hdoc Hlen) as (doc' & Hp' & _ & _ & Hat & _).
  destruct (read_after value v' t doc doc' others theirs Hu Ho Hp Hp' Ht) as ([A1 A2] & _ & A3 & after & -> & A4 & A5).
  destruct (read_after value v' t doc doc' ranges mine Hu Hr Hp Hp' Hm) as ([_ B2] & [r Hin] & B3 & after' & -> & _ & B5).
  split.
  - f_equal. apply str_set_unique; [done|done|]. intros x. rewrite A5, A2.
    split; intros (f & Hf & Hx); exists f; (split; [done|]); rewrite Hat in * by auto;
      (destruct (selected ranges f) eqn:Es; [by rewrite (Hdis f Es) in Hf|done]).
  - exists after'. split; [done|]. intros x. rewrite B5, B2. split.
    + intros (f & Hf & Hx). rewrite Hat, Hf, elem_of_edit in Hx by auto. naive_solver.
    + intros [[(f & Hf & Hx) Hn]|Hx].
      * exists f. rewrite Hat, Hf, elem_of_edit by auto. auto.
      * assert (selected ranges (fst r) = true) as Hf.
        { apply selected_spec. exists r. split; [done|]. rewrite Forall_forall in Hrange. specialize (Hrange r Hin). lia. }
        exists (fst r). rewrite Hat, Hf, elem_of_edit by auto. auto.
Qed.

(** Two drives over one clip: frames 0 to 20 and 25 to 40 of 60. *)
Definition demo_doc : Value := strings [lit "Work"; lit "Home"].

Lemma demo_wanted f : within_cap (edited_to demo_doc [lit "Trip"] [lit "Work"] f).
Proof.
  apply (within_cap_length _ [lit "Home"; lit "Trip"]); [|intros x|cbn; lia].
  { repeat constructor. done. }
  unfold edited_to, says. cbn. rewrite !elem_of_cons. split.
  - intros [[[(sp & ?%not_elem_of_nil & _)|[_ Hx]] Hn]|Hx]; [done| |]; set_solver.
  - intros [->|[->|[]%not_elem_of_nil]]; [left|right; by left]. split; [|vm_compute; set_solver].
    right. split; [set_solver|]. right. by left.
Qed.

Lemma apply_delta_framewise_witness : exists v',
  apply_delta demo_doc 60 [(0, 20)] [lit "Trip"] [lit "Work"] = Ok v'
  /\ (says v' 19 (lit "Trip") <-> edited_to demo_doc [lit "Trip"] [lit "Work"] 19 (lit "Trip"))
  /\ (says v' 20 (lit "Trip") <-> says demo_doc 20 (lit "Trip")).
Proof.
  destruct (apply_delta demo_doc 60 [(0, 20)] [lit "Trip"] [lit "Work"]) as [v'|] eqn:E; [|vm_compute in E; discriminate E].
  exists v'. split; [reflexivity|].
  destruct (apply_delta_framewise demo_doc 60 [(0, 20)] [lit "Trip"] [lit "Work"] v') as (H1 & H2 & _);
    [lia|by repeat constructor|exact E|intros f _; apply demo_wanted|]. split.
  - apply H1; [lia|]. exists (0, 20). split; [by left|cbn; lia].
  - apply H2; [lia|]. intros (r & [->|[]%not_elem_of_nil]%elem_of_cons & Hf). cbn in Hf. lia.
Defined.

Lemma scoped_edit_independent_witness : exists v',
  apply_delta demo_doc 60 [(0, 20)] [lit "Trip"] [lit "Work"] = Ok v'
  /\ tags_for_ranges v' 60 [(25, 40)] = Ok [lit "Home"; lit "Work"]
  /\ exists mine', tags_for_ranges v' 60 [(0, 20)] = Ok mine'
     /\ forall x, x ∈ mine' <-> x ∈ [lit "Home"; lit "Work"] /\ x ∉ [lit "Work"] \/ x ∈ [lit "Trip"].
Proof.
  destruct (apply_delta demo_doc 60 [(0, 20)] [lit "Trip"] [lit "Work"]) as [v'|] eqn:E; [|vm_compute in E; discriminate E].
  destruct (parse demo_doc 60) as [doc|] eqn:Hp; [|vm_compute in Hp; discriminate Hp].
  exists v'. split; [reflexivity|].
  apply (scoped_edit_independent demo_doc 60 [(0, 20)] [(25, 40)] [lit "Trip"] [lit "Work"] v' doc).
  - lia.
  - by repeat constructor.
  - exact Hp.
  - intros f _. vm_compute in Hp. injection Hp as <-. vm_compute. lia.
  - vm_compute. reflexivity.
  - vm_compute. reflexivity.
  - intros f (r & [->|[]%not_elem_of_nil]%elem_of_cons & Hf)%selected_spec. cbn in *.
    rewrite (proj2 (Z.leb_gt _ _)) by lia. done.
  - exact E.
Defined.

(** C40: the cap on tags is enforced when a document is read, not when it is
    edited. A successful edit leaves a readable document exactly when no selected
    frame ends up with more than 128 different tags; otherwise its result is
    refused with "too many tags", so neither reading nor editing the clip's tags
    works afterwards. *)
Theorem edit_beyond_cap_unreadable (value : Value) (t : Z) (ranges : list (Z * Z)) (added removed : list (list Z)) (v' : Value) :
  t <= 2 ^ 32 - 1 -> Forall (fun r => 0 <= fst r) ranges ->
  apply_delta value t ranges added removed = Ok v' ->
  (forall f, in_ranges ranges f -> within_cap (edited_to value added removed f)) /\ (exists doc', parse v' t = Ok doc')
  \/ (exists f, in_ranges ranges f /\ ~ within_cap (edited_to value added removed f))
     /\ parse v' t = Err ETooManyTags
     /\ forall sel more less, tags_for_ranges v' t sel = Err ETooManyTags /\ apply_delta v' t sel more less = Err ETooManyTags.
Proof.
  intros Hu Hr H. destruct (apply_delta_writes _ _ _ _ _ _ Hu Hr H)
    as (doc & m & out & Hp & Hd & _ & Hrange & _ & He & _ & Hw & Hsort & Hparse).
  destruct (apply_delta_doc _ _ _ _ _ _ Hu Hr H) as (doc0 & Hp0 & _ & _ & Hdoc). assert (doc0 = doc) as -> by congruence.
  assert (forall f, within_cap (edited_to value added removed f) <-> (length (edit added removed (at_ doc f)) <= 128)%nat) as Hcap.
  { intros f. apply within_cap_length; [apply str_set_ascending|]. intros x. by eapply wanted_edit. }
  destruct (decide (Exists (fun s => (128 < length (sp_tags s))%nat) (rev out))) as [Hover|Hno].
  - right. apply list.Exists_exists in Hover as (s & Hs & Hlen). pose proof Hs as Hs'. rewrite elem_of_rev in Hs'.
    destruct (edited_span _ _ _ _ _ _ _ He Hs') as (H1 & H2 & _). assert (inside s (sp_start s)) as Hin by (unfold inside; lia).
    pose proof (ed_tags _ _ _ _ _ _ He s (sp_start s) Hs' Hin) as Etags. unfold next_tags in Etags.
    destruct (selected ranges (sp_start s)) eqn:Esel.
    2: { destruct (at_tags t doc (sp_start s) Hd) as [_ Hle]. rewrite Etags in Hlen. lia. }
    rewrite parse_spans_over in Hparse; [|done| |done|by exists s].
    2: { eapply Forall_impl; [exact Hw|]. intros x Hx. split; [done|]. destruct Hx as [? _]. lia. }
    cbn [rbind] in Hparse. split_and!; [|done|].
    + exists (sp_start s). split; [by apply selected_spec|]. rewrite Hcap, <- Etags. lia.
    + intros sel more less. unfold tags_for_ranges, apply_delta. by rewrite Hparse.
  - left. assert (forall f, selected ranges f = true -> (length (edit added removed (at_ doc f)) <= 128)%nat) as Hall.
    { intros f Hf. destruct (Nat.le_gt_cases (length (edit added removed (at_ doc f))) 128) as [|Hgt]; [done|exfalso].
      assert (0 <= f < t) as Hft by (by eapply selected_range).
      assert (next_tags doc ranges added removed f = edit added removed (at_ doc f)) as En by (unfold next_tags; by rewrite Hf).
      destruct (ed_cover _ _ _ _ _ _ He f Hft) as (s & Hs & Hi).
      { rewrite En. intros E. pose proof (vt_length _ (do_default _ _ Hd)) as Hdl. rewrite <- E in Hdl. lia. }
      apply Hno, list.Exists_exists. exists s. split; [by rewrite elem_of_rev|].
      rewrite (ed_tags _ _ _ _ _ _ He s f Hs Hi), En. lia. }
    split; [intros f Hf%selected_spec; by apply Hcap, Hall|]. destruct (Hdoc Hall) as (doc' & Hd' & _). by exists doc'.
Qed.

Lemma edit_beyond_cap_unreadable_witness : exists v',
  apply_delta demo_doc 60 [(0, 20)] [lit "Trip"] [lit "Work"] = Ok v' /\ exists doc', parse v' 60 = Ok doc'.
Proof.
  destruct (apply_delta demo_doc 60 [(0, 20)] [lit "Trip"] [lit "Work"]) as [v'|] eqn:E; [|vm_compute in E; discriminate E].
  exists v'. split; [reflexivity|].
  destruct (edit_beyond_cap_unreadable demo_doc 60 [(0, 20)] [lit "Trip"] [lit "Work"] v') as [[_ H]|(_ & H & _)];
    [lia|by repeat constructor|exact E|exact H|].
  vm_compute in E. injection E as <-. vm_compute in H. discriminate H.
Defined.

(** The cap is reached: one more tag on 128. *)
Definition full_doc : Value := strings (map (fun n => print_uint (Z.of_nat n)) (seq 0 128)).

Example full_doc_breaks :
  match apply_delta full_doc 60 [(0, 20)] [lit "Extra"] [] with
  | Ok v' => match parse v' 60 with Err ETooManyTags => true | _ => false end
  | Err _ => false
  end = true.
Proof. vm_compute. reflexivity. Qed.
