(* ===== verification/Charging.v ===== *)
(** * Charge sessions ([crates/drives/src/charging.rs])

    Sessions are derived from telemetry samples: which rows count as charging,
    where a session ends, and the summary and chart of one session. Floats are
    bit patterns; [as_f64] of an integer rounds. *)

From Stdlib Require Import ZArith Lia.
From stdpp Require Import base gmap list.
From S2P Require Import Prelude Float Str Config.

Open Scope Z_scope.

Module Charging.

Definition SESSION_GAP_SECS : Z := 30 * 60.
Definition FAST_CHARGE_THRESHOLD_KW : Z := 22.
Definition POWER_REFINE_TOLERANCE_KW : Z := F64.of_Z 1.

Record ChargeRow := mkRow {
  ts : Z; power_kw : option Z; current_a : option Z; voltage_v : option Z; rate_mph : option Z;
  energy_added_kwh : option Z; limit_soc : option Z; range_mi : option Z; battery_pct : option Z;
  location : option str; lat : option Z; lon : option Z; charging_state : option str;
}.

Record ChargeSessionSummary := mkSummary {
  s_id : Z; start_ms : Z; end_ms : Z; duration_secs : Z; s_location : option str;
  location_lat : option Z; location_lon : option Z; s_energy_added : option Z; energy_used_kwh : option Z;
  efficiency_pct : option Z; peak_power_kw : option Z; start_soc : option Z; end_soc : option Z;
  start_range_mi : option Z; end_range_mi : option Z; charge_limit_soc : option Z;
  tags : list str; cost : option Z; rate : option Z; currency : str;
  fast_charging : bool; cost_overridden : bool; at_home : bool;
}.

Record ChargePoint := mkPoint {
  p_ts : Z; p_power : option Z; p_current : option Z; p_voltage : option Z; p_rate : option Z;
  p_soc : option Z; p_range : option Z; p_energy : option Z;
}.

(** [avg]: the sum from left to right over the count. *)
Definition avg (l : list Z) : option Z :=
  match l with
  | [] => None
  | _ => Some (F64.div (foldl F64.add F64.zero l) (F64.of_Z (Z.of_nat (length l))))
  end.

Definition sample_power_kw (r : ChargeRow) : option Z :=
  p ← power_kw r;
  let coarse := F64.of_Z p in
  match voltage_v r, current_a r with
  | Some v, Some a =>
      let fine := F64.div (F64.mul (F64.of_Z v) (F64.of_Z a)) (F64.of_Z 1000) in
      if F64.le (F64.abs (F64.sub fine coarse)) POWER_REFINE_TOLERANCE_KW then Some fine else Some coarse
  | _, _ => Some coarse
  end.

Definition display_current_a (power voltage raw : option Z) : option Z :=
  let derived :=
    match power, voltage with
    | Some p, Some v =>
        if (0 <? v) && (0 <? p)
        then Some (F64.to_i64 (F64.round (F64.div (F64.mul (F64.of_Z p) (F64.of_Z 1000)) (F64.of_Z v))))
        else raw
    | _, _ => raw
    end in
  match raw with
  | Some a => if 0 <? a then Some a else derived
  | None => derived
  end.

(** The timed power readings of a session. *)
Definition power_points (rows : list ChargeRow) : list (Z * Z) :=
  omap (fun r => (fun p => (ts r, p)) <$> sample_power_kw r) rows.

(** Hours between two readings, and the trapezoid's energy. *)
Definition interval_hours (w : (Z * Z) * (Z * Z)) : Z :=
  F64.div (F64.of_Z (i64 (fst (snd w) - fst (fst w)))) (F64.of_Z 3600).
Definition interval_kwh (w : (Z * Z) * (Z * Z)) : Z :=
  F64.mul (F64.div (F64.add (snd (fst w)) (snd (snd w))) (F64.of_Z 2)) (interval_hours w).

Definition integrate_power_kwh (rows : list ChargeRow) : option Z :=
  let pts := power_points rows in
  if (length pts <? 2)%nat then None
  else
    let kwh := foldl (fun acc w => if F64.lt F64.zero (interval_hours w) then F64.add acc (interval_kwh w) else acc)
                 F64.zero (windows2 pts) in
    if F64.lt F64.zero kwh then Some kwh else None.

Definition is_charging (power rate_mph : option Z) : bool :=
  match rate_mph with
  | Some r => F64.lt F64.zero r
  | None => match power with Some p => 0 <? p | None => false end
  end.

Definition phase_is_active (phase : option str) : option bool :=
  (fun p => bool_decide (p = lit "charging") || bool_decide (p = lit "starting")
            || bool_decide (p = lit "calibrating")) <$> phase.

Definition is_actively_charging (phase : option str) (power rate_mph : option Z) : bool :=
  match phase_is_active phase with Some active => active | None => is_charging power rate_mph end.

(** [load_charge_rows] on the sample table, keyed by timestamp as the primary
    key is: the SQL's filter and order, then the Rust filter. *)
Definition has_signal (r : ChargeRow) : bool :=
  match charging_state r, power_kw r, rate_mph r with None, None, None => false | _, _, _ => true end.
Definition active (r : ChargeRow) : bool := is_actively_charging (charging_state r) (power_kw r) (rate_mph r).

Definition load_charge_rows (samples : gmap Z ChargeRow) (from : Z) (to : option Z) : list ChargeRow :=
  let upper := default (2 ^ 63 - 1) to in
  filter (fun r => active r)
    (sort_by_key ts (filter (fun r => from <= ts r <= upper /\ has_signal r) (snd <$> map_to_list samples))).

(** [group_sessions] *)
Definition push_row (sessions : list (list ChargeRow)) (row : ChargeRow) : list (list ChargeRow) :=
  match last sessions ≫= fun cur => last cur ≫= fun p => if i64 (ts row - ts p) <=? SESSION_GAP_SECS then Some cur else None with
  | Some cur => take (length sessions - 1) sessions ++ [cur ++ [row]]
  | None => sessions ++ [[row]]
  end.
Definition group_sessions (rows : list ChargeRow) : list (list ChargeRow) := foldl push_row [] rows.

(** [session_coord]: how often and where last each fix was seen; the map's
    iteration order does not matter, no two fixes have the same last index. *)
Definition see_fix (seen : gmap (Z * Z) (nat * nat)) (ir : nat * ChargeRow) : gmap (Z * Z) (nat * nat) :=
  match lat (snd ir), lon (snd ir) with
  | Some la, Some lo => <[(la, lo) := (S (default (0, 0)%nat (seen !! (la, lo))).1, fst ir)]> seen
  | _, _ => seen
  end.
Definition rank_le (a b : nat * nat) : bool :=
  (fst a <? fst b)%nat || ((fst a =? fst b)%nat && (snd a <=? snd b)%nat).
(** [max_by_key] keeps the last of the maximal elements. *)
Definition better (acc : option ((Z * Z) * (nat * nat))) (x : (Z * Z) * (nat * nat)) :=
  match acc with
  | Some m => if rank_le (snd m) (snd x) then Some x else acc
  | None => Some x
  end.
Definition session_coord (rows : list ChargeRow) : option Z * option Z :=
  let seen := foldl see_fix ∅ (imap (fun i r => (i, r)) rows) in
  match foldl better None (map_to_list seen) with
  | Some ((la, lo), _) => (Some la, Some lo)
  | None => (None, None)
  end.

Definition find_map {A B} (f : A -> option B) (l : list A) : option B := head (omap f l).

Definition max_opt (l : list Z) : option Z :=
  foldl (fun acc x => Some match acc with Some a => if a <=? x then x else a | None => x end) None l.

Definition zip_opt (a b : option Z) : option (Z * Z) := x ← a; y ← b; Some (x, y).

Definition energy_gain (rows : list ChargeRow) (first last : ChargeRow) (soc : option (Z * Z)) : option Z :=
  let counters := filter (fun v => F64.is_finite v) (omap energy_added_kwh rows) in
  let counter_reset := existsb (fun w => F64.lt (F64.add (snd w) (F64.dec 1 1)) (fst w)) (windows2 counters) in
  if counter_reset then None
  else match energy_added_kwh first, energy_added_kwh last with
       | Some a, Some b =>
           if F64.is_finite a && F64.is_finite b && F64.le a b then
             let gain := F64.sub b a in
             let soc_gain := (fun p => F64.sub (snd p) (fst p)) <$> soc in
             if F64.eq gain F64.zero && match soc_gain with Some g => F64.le (F64.of_Z 1) g | None => false end
             then None else Some gain
           else None
       | None, Some b => if F64.is_finite b && F64.le F64.zero b then Some b else None
       | _, _ => None
       end.

Definition efficiency (added used : option Z) : option Z :=
  match added, used with
  | Some added, Some used =>
      if F64.lt F64.zero used
      then Some (clamp F64.zero (F64.of_Z 100) (F64.mul (F64.div added used) (F64.of_Z 100)))
      else None
  | _, _ => None
  end.

(** [summarize]; [rows] is not empty, [None] is the source's panic. *)
Definition summarize (rows : list ChargeRow) : option ChargeSessionSummary :=
  first ← head rows; last ← last rows;
  let start_soc := find_map battery_pct rows in
  let end_soc := find_map battery_pct (rev rows) in
  let added := energy_gain rows first last (zip_opt start_soc end_soc) in
  let used := integrate_power_kwh rows in
  let peak := max_opt (omap power_kw rows) in
  let '(la, lo) := session_coord rows in
  Some (mkSummary (ts first) (i64 (ts first * 1000)) (i64 (ts last * 1000)) (i64 (ts last - ts first))
          (find_map location rows) la lo added used (efficiency added used) peak start_soc end_soc
          (find_map range_mi rows) (find_map range_mi (rev rows)) (find_map limit_soc (rev rows))
          [] None None [] match peak with Some p => FAST_CHARGE_THRESHOLD_KW <? p | None => false end
          false false).

Definition session_points (rows : list ChargeRow) : list ChargePoint :=
  (fun r => mkPoint (i64 (ts r * 1000)) (power_kw r) (display_current_a (power_kw r) (voltage_v r) (current_a r))
              (voltage_v r) (rate_mph r) (battery_pct r) (range_mi r) (energy_added_kwh r)) <$> rows.

(** [downsample_points] *)
Fixpoint pick_points (n : nat) (step : Z) (points : list ChargePoint) (idxs : list nat) (last_idx : Z) : list ChargePoint :=
  match idxs with
  | [] => []
  | i :: rest =>
      let idx := Z.min (F64.to_usize (F64.round (F64.mul (F64.of_Z (Z.of_nat i)) step))) (Z.of_nat n - 1) in
      if idx =? last_idx then pick_points n step points rest last_idx
      else match points !! Z.to_nat idx with
           | Some p => p :: pick_points n step points rest idx
           | None => pick_points n step points rest idx (* out of range; the index is below [n] *)
           end
  end.
Definition downsample_points (points : list ChargePoint) (max : nat) : list ChargePoint :=
  let n := length points in
  if (n <=? max)%nat || (max <? 2)%nat then points
  else
    let step := F64.div (F64.of_Z (Z.of_nat (n - 1))) (F64.of_Z (Z.of_nat (max - 1))) in
    pick_points n step points (seq 0 max) (2 ^ 64 - 1).

Definition HOME_TAG : str := lit "Home".
Definition FAST_TAG : str := lit "Fast charging".
Definition eq_ignore_ascii_case (a b : str) : bool :=
  bool_decide (Config.to_ascii_lowercase a = Config.to_ascii_lowercase b).
Definition is_reserved_tag (tag : str) : bool := eq_ignore_ascii_case tag HOME_TAG || eq_ignore_ascii_case tag FAST_TAG.
Definition strip_reserved_tags (tags : list str) : list str := filter (fun t => negb (is_reserved_tag t)) tags.

End Charging.
