(* ===== verification/ChargeList.v ===== *)
(** * Charging costs and the cached session list ([crates/api/src/charging.rs])

    Rate plans and what a session costs under them; the session list, which is
    rebuilt only from the newest open session on when samples were appended, and
    from scratch when older ones changed, as the sample table's triggers
    ([crates/drives/src/schema.rs]) count it. *)

From Stdlib Require Import ZArith Lia.
From stdpp Require Import base gmap list relations.
From S2P Require Import Prelude Float Str Config Json RadioLock Charging.

Import Json Charging.
Open Scope Z_scope.

Module ChargeList.

(** ** Rate plans *)

Record RateSchedule := mkSchedule {
  sch_rate : Z; start_min : Z; end_min : Z; days : list Z; start_month : Z; end_month : Z;
}.

Definition covers_time (s : RateSchedule) (min : Z) : bool :=
  if start_min s =? end_min s then true
  else if start_min s <? end_min s then (start_min s <=? min) && (min <? end_min s)
  else (start_min s <=? min) || (min <? end_min s).
Definition covers_day (s : RateSchedule) (weekday : Z) : bool := is_empty (days s) || bool_decide (weekday ∈ days s).
Definition covers_month (s : RateSchedule) (month : Z) : bool :=
  if start_month s <=? end_month s then (start_month s <=? month) && (month <=? end_month s)
  else (start_month s <=? month) || (month <=? end_month s).
Definition covers (s : RateSchedule) (minute weekday month : Z) : bool :=
  covers_time s minute && covers_day s weekday && covers_month s month.

Record TagRate := mkTagRate { flat : option Z; schedules : list RateSchedule }.
Definition is_configured (p : TagRate) : bool :=
  match flat p with Some _ => true | None => negb (is_empty (schedules p)) end.

Record RateConfig := mkRates { rc_currency : str; default_rate : option Z; rc_tags : gmap (list Z) TagRate }.

(** [as i32] of a 64-bit number, and [parse::<i32>]. *)
Definition parse_i32 (s : str) : option Z :=
  match s with
  | b :: _ :: _ => if b =? 45 then z ← parse_digits (2 ^ 31) (drop 1 s) 0; Some (- z) else parse_uint (2 ^ 31 - 1) s
  | _ => parse_uint (2 ^ 31 - 1) s
  end.

Fixpoint split_colon (s : str) : option (str * str) :=
  match s with
  | [] => None
  | b :: t => if b =? 58 then Some ([], t) else (fun p => (b :: fst p, snd p)) <$> split_colon t
  end.

Definition in_range (lo hi x : Z) : option Z := if (lo <=? x) && (x <=? hi) then Some x else None.

Section Parse.
(** [str::parse::<f64>]. *)
Context (parse_f64 : str -> option Z).

Definition num_from_json (v : Value) : option Z :=
  n ← match as_f64 v with
      | Some n => Some n
      | None => s ← as_str v; parse_f64 (trim_by Config.char_ws s)
      end;
  if F64.is_finite n && F64.le F64.zero n then Some n else None.

Definition parse_minute_of_day (v : Value) : option Z :=
  match as_str v with
  | Some s =>
      let s := trim_by Config.char_ws s in
      match split_colon s with
      | Some (h, m) =>
          h ← parse_i32 (trim_by Config.char_ws h); m ← parse_i32 (trim_by Config.char_ws m);
          if (0 <=? h) && (h <=? 24) && ((0 <=? m) && (m <? 60)) then Some (Z.min (h * 60 + m) 1440) else None
      | None => m ← parse_i32 s; in_range 0 1440 m
      end
  | None => m ← as_i64 v; in_range 0 1440 (i32 m)
  end.

Definition parse_days (v : option Value) : list Z :=
  match v ≫= as_array with
  | None => []
  | Some arr =>
      set_of Z.leb (filter (fun d => 0 <= d <= 6) (i32 <$> omap as_i64 arr)) (* sorted and deduplicated *)
  end.

Definition parse_month (v : option Value) : option Z :=
  v ← v;
  m ← match as_i64 v with
      | Some m => Some m
      | None => s ← as_str v; parse_i64 (trim_by Config.char_ws s)
      end;
  in_range 1 12 (i32 m).

Definition parse_schedule (v : Value) : option RateSchedule :=
  obj ← as_object v;
  rate ← (obj !! lit "rate" ≫= num_from_json);
  start ← (obj !! lit "start" ≫= parse_minute_of_day);
  end_ ← (obj !! lit "end" ≫= parse_minute_of_day);
  Some (mkSchedule rate start end_ (parse_days (obj !! lit "days"))
          (default 1 (parse_month (obj !! lit "startMonth"))) (default 12 (parse_month (obj !! lit "endMonth")))).

Definition parse_tag_rate (v : Value) : TagRate :=
  match as_object v with
  | Some obj =>
      mkTagRate (obj !! lit "flat" ≫= num_from_json)
        (default [] ((fun arr : list Value => omap parse_schedule arr) <$> (obj !! lit "schedules" ≫= as_array)))
  | None => mkTagRate (num_from_json v) []
  end.

(** [RateConfig::load], from the preferences. *)
Definition load_rates (prefs : gmap (list Z) Value) : RateConfig :=
  let currency := trim_by Config.char_ws <$> (prefs !! lit "charging_currency" ≫= as_str) in
  mkRates (match currency with Some s => if is_empty s then lit "$" else s | None => lit "$" end)
    (prefs !! lit "charging_default_rate" ≫= num_from_json)
    (default ∅ ((fun m : gmap (list Z) Value => parse_tag_rate <$> m) <$> (prefs !! lit "charging_tag_rates" ≫= as_object))).

End Parse.

(** ** Costs *)

Section Cost.
(** Minute of the day, weekday and month of a timestamp in local time. *)
Context (local : Z -> option (Z * Z * Z)).

Definition interval_rate (flat default_rate : option Z) (schedules : list RateSchedule) (mid_ts : Z) : option Z :=
  c ← local mid_ts;
  let '(minute, weekday, month) := c in
  match find_map (fun s => if covers s minute weekday month then Some (sch_rate s) else None) schedules with
  | Some r => Some r
  | None => match flat with Some r => Some r | None => default_rate end
  end.

Definition plan_cost (rows : list ChargeRow) (flat : option Z) (schedules : list RateSchedule) (default_rate : option Z)
  : option Z :=
  let pts := power_points rows in
  if (length pts <? 2)%nat then None
  else
    let '(cost, priced) :=
      foldl (fun (st : Z * bool) w =>
               if F64.le (interval_hours w) F64.zero then st
               else match interval_rate flat default_rate schedules (Z.quot (i64 (fst (fst w) + fst (snd w))) 2) with
                    | Some r => (F64.add (fst st) (F64.mul (interval_kwh w) r), true)
                    | None => st
                    end) (F64.zero, false) (windows2 pts) in
    if priced then Some cost else None.

(** The keys whose plans apply; the order of the map only permutes a maximum. *)
Definition rate_keys (tags : list str) (at_home : bool) (rates : RateConfig) : list str :=
  if at_home then
    foldl (fun acc k => if eq_ignore_ascii_case k HOME_TAG && negb (bool_decide (k ∈ acc)) then acc ++ [k] else acc)
      tags (map_to_list (rc_tags rates)).*1
  else tags.

Definition best_tag_cost (rows : list ChargeRow) (keys : list str) (rates : RateConfig) : option Z :=
  foldl (fun acc c => Some match acc with Some a => F64.max a c | None => c end) None
    (omap (fun p => plan_cost rows (flat p) (schedules p) (default_rate rates))
       (filter (fun p => is_configured p) (omap (fun t => rc_tags rates !! t) keys))).

Definition apply_rates (s : ChargeSessionSummary) (rows : list ChargeRow) (stored : list str) (home : bool)
    (rates : RateConfig) : ChargeSessionSummary :=
  let '(cost, rate) :=
    match best_tag_cost rows (rate_keys stored home rates) rates with
    | Some c =>
        (Some c, match energy_used_kwh s with
                 | Some u => if F64.lt F64.zero u then Some (F64.div c u) else None
                 | None => None end)
    | None =>
        match default_rate rates with
        | Some dr => (F64.mul dr <$> energy_used_kwh s, Some dr)
        | None => (None, None)
        end
    end in
  mkSummary (s_id s) (start_ms s) (end_ms s) (duration_secs s) (s_location s) (location_lat s) (location_lon s)
    (s_energy_added s) (energy_used_kwh s) (efficiency_pct s) (peak_power_kw s) (start_soc s) (end_soc s)
    (start_range_mi s) (end_range_mi s) (charge_limit_soc s) stored cost rate (rc_currency rates)
    (fast_charging s) (cost_overridden s) home.

Definition apply_cost_override (s : ChargeSessionSummary) (override_cost : option (Z * str)) : ChargeSessionSummary :=
  match override_cost with
  | None => s
  | Some (amount, cur) =>
      mkSummary (s_id s) (start_ms s) (end_ms s) (duration_secs s) (s_location s) (location_lat s) (location_lon s)
        (s_energy_added s) (energy_used_kwh s) (efficiency_pct s) (peak_power_kw s) (start_soc s) (end_soc s)
        (start_range_mi s) (end_range_mi s) (charge_limit_soc s) (tags s) (Some amount) None
        (if is_empty cur then currency s else cur) (fast_charging s) true (at_home s)
  end.

End Cost.

(** ** The list *)

(** What a list is priced under: rates, home, stored tags and costs, time zone. *)
Record Context := mkContext {
  x_rates : RateConfig; x_home : option (Z * Z * Z); x_tags : gmap Z (list (list Z));
  x_costs : gmap Z (Z * list Z); x_timezone : list Z;
}.

(** The table with its trigger-kept clock, and the stored projection. *)
Record Clock := mkClock { revision : Z; rewrite_revision : Z; latest_ts : Z }.
Record Projection := mkProjection {
  p_revision : Z; p_rewrite : Z; p_context : Context; p_body : list ChargeSessionSummary; p_latest : Z;
}.
Record Db := mkDb { samples : gmap Z ChargeRow; clock : Clock; projection : option Projection }.

(** The triggers. *)
Definition on_insert (t : Z) (c : Clock) : Clock :=
  mkClock (revision c + 1) (rewrite_revision c + if t <=? latest_ts c then 1 else 0) (Z.max (latest_ts c) t).
Definition on_update (t : Z) (c : Clock) : Clock :=
  mkClock (revision c + 1) (rewrite_revision c + 1) (Z.max (latest_ts c) t).
Definition on_delete (c : Clock) : Clock := mkClock (revision c + 1) (rewrite_revision c + 1) (latest_ts c).

Definition create_clock (samples : gmap Z ChargeRow) : Clock :=
  mkClock 0 0 (default 0 (max_opt (ts <$> (snd <$> map_to_list samples)))).

Definition resume_charging_projection (sessions : list ChargeSessionSummary) (latest : Z)
  : Z * list ChargeSessionSummary :=
  match sessions with
  | [] => (Z.min (2 ^ 63 - 1) (latest + 1), [])
  | s :: rest =>
      if i64 (Z.quot (end_ms s) 1000 + SESSION_GAP_SECS) <? latest
      then (Z.min (2 ^ 63 - 1) (latest + 1), sessions)
      else (s_id s, rest)
  end.

Section List.
(** Local time in a zone; whether a fix is at home; equality of two contexts'
    texts; a stored body read back. *)
Context (local : list Z -> Z -> option (Z * Z * Z)) (is_home : Z * Z * Z -> option Z -> option Z -> bool)
  (same_context : Context -> Context -> bool)
  (reload : list ChargeSessionSummary -> option (list ChargeSessionSummary)).

Definition price (x : Context) (rows : list ChargeRow) : option ChargeSessionSummary :=
  s ← summarize rows;
  let home := match x_home x with Some h => is_home h (location_lat s) (location_lon s) | None => false end in
  Some (apply_cost_override
          (apply_rates (local (x_timezone x)) s rows (default [] (x_tags x !! s_id s)) home (x_rates x))
          (x_costs x !! s_id s)).

Definition newest_first (l : list ChargeSessionSummary) : list ChargeSessionSummary := sort_by_key (fun s => - s_id s) l.

Definition build_from (x : Context) (table : gmap Z ChargeRow) (from : Z) (kept : list ChargeSessionSummary)
  : list ChargeSessionSummary :=
  newest_first (omap (price x) (group_sessions (load_charge_rows table from None)) ++ kept).

(** The list, and whether it must be stored. *)
Definition read_list (x : Context) (db : Db) : list ChargeSessionSummary * bool :=
  match projection db with
  | Some p =>
      if same_context (p_context p) x && (p_rewrite p =? rewrite_revision (clock db)) then
        match reload (p_body p) with
        | Some old =>
            if p_revision p =? revision (clock db) then (old, false)
            else let '(from, kept) := resume_charging_projection old (p_latest p) in
                 (build_from x (samples db) from kept, true)
        | None => (build_from x (samples db) 0 [], true)
        end
      else (build_from x (samples db) 0 [], true)
  | None => (build_from x (samples db) 0 [], true)
  end.

(** What a reader then asks to store, under the clock of its transaction. *)
Definition projected (x : Context) (db : Db) : Projection :=
  mkProjection (revision (clock db)) (rewrite_revision (clock db)) x (fst (read_list x db)) (latest_ts (clock db)).

Definition store_projection (p : Projection) (db : Db) : Db :=
  if revision (clock db) =? p_revision p then mkDb (samples db) (clock db) (Some p) else db.

(** Readers and writers interleave; a reader's store may come any time later, or
    never. The answers are logged with the table they were read from. *)
Record System := mkSystem {
  db : Db; pending : list Projection; answered : list (Context * gmap Z ChargeRow * list ChargeSessionSummary);
}.

Inductive step : System -> System -> Prop :=
| step_insert s r :
    samples (db s) !! ts r = None -> 0 <= ts r <= 2 ^ 53 ->
    step s (mkSystem (mkDb (<[ts r := r]> (samples (db s))) (on_insert (ts r) (clock (db s))) (projection (db s)))
              (pending s) (answered s))
| step_update s old r :
    is_Some (samples (db s) !! old) -> ts r = old \/ samples (db s) !! ts r = None -> 0 <= ts r <= 2 ^ 53 ->
    step s (mkSystem (mkDb (<[ts r := r]> (delete old (samples (db s)))) (on_update (ts r) (clock (db s))) (projection (db s)))
              (pending s) (answered s))
| step_delete s t :
    is_Some (samples (db s) !! t) ->
    step s (mkSystem (mkDb (delete t (samples (db s))) (on_delete (clock (db s))) (projection (db s)))
              (pending s) (answered s))
| step_read s x :
    step s (mkSystem (db s)
              (if snd (read_list x (db s)) then projected x (db s) :: pending s else pending s)
              ((x, samples (db s), fst (read_list x (db s))) :: answered s))
| step_store s p :
    p ∈ pending s -> step s (mkSystem (store_projection p (db s)) (pending s) (answered s)).

(** The reference: every session of the table, newest first. *)
Definition full_list (x : Context) (table : gmap Z ChargeRow) : list ChargeSessionSummary := build_from x table 0 [].

End List.

(** [single_charging]: the session that starts at [id]. *)
Definition detail_session (table : gmap Z ChargeRow) (id : Z) : option (list ChargeRow) :=
  head (group_sessions (load_charge_rows table id (Some (i64 (id + 7 * 24 * 60 * 60))))).

End ChargeList.
