(* ===== verification/ChargingSpec.v ===== *)
(** * Charge sessions: the unique split at gaps

    Grouping is the one way to cut time-ordered rows into runs without a long gap
    inside and with one between, so sessions computed from different windows of the
    table agree. *)

From Stdlib Require Import ZArith Lia Sorted.
From stdpp Require Import base gmap list sorting.
From S2P Require Import Prelude Float Str Charging ChargeList.

Import Charging ChargeList.
Open Scope Z_scope.

(** ** Grouping *)

Definition breaks (p r : ChargeRow) : Prop := SESSION_GAP_SECS < i64 (ts r - ts p).

#[export] Instance breaks_dec p r : Decision (breaks p r).
Proof. unfold breaks. apply _. Defined.

Lemma group_snoc l r : group_sessions (l ++ [r]) = push_row (group_sessions l) r.
Proof. unfold group_sessions. by rewrite foldl_app. Qed.

Lemma push_row_app S T r : T <> [] -> push_row (S ++ T) r = S ++ push_row T r.
Proof.
  intros HT. destruct T as [|x T _] using rev_ind; [done|]. clear HT. unfold push_row.
  rewrite app_assoc, !last_snoc. cbn [mbind option_bind].
  destruct (last x ≫= _); [|by rewrite <- !app_assoc].
  rewrite !length_app. cbn [length]. replace (length S + length T + 1 - 1)%nat with (length (S ++ T)) by (rewrite length_app; lia).
  replace (length T + 1 - 1)%nat with (length T) by lia. rewrite !take_app_length. by rewrite <- app_assoc.
Qed.

Lemma push_row_break S s p r : breaks p r -> push_row (S ++ [s ++ [p]]) r = (S ++ [s ++ [p]]) ++ [[r]].
Proof.
  intros Hb. unfold push_row. rewrite !last_snoc. cbn [mbind option_bind]. rewrite last_snoc. cbn [mbind option_bind].
  unfold breaks in Hb. by rewrite (proj2 (Z.leb_gt _ _)).
Qed.

Lemma push_row_join S s p r : ~ breaks p r -> push_row (S ++ [s ++ [p]]) r = S ++ [(s ++ [p]) ++ [r]].
Proof.
  intros Hb. unfold push_row. rewrite !last_snoc. cbn [mbind option_bind]. rewrite last_snoc. cbn [mbind option_bind].
  unfold breaks in Hb. rewrite (proj2 (Z.leb_le _ _)) by lia.
  rewrite length_app. cbn [length]. replace (length S + 1 - 1)%nat with (length S) by lia. by rewrite take_app_length.
Qed.

(** The last session ends with the last row. *)
Lemma group_last l p : exists S s, group_sessions (l ++ [p]) = S ++ [s ++ [p]].
Proof.
  destruct l as [|q l _] using rev_ind; [by exists [], []|]. rewrite group_snoc.
  assert (forall l q, exists S s, group_sessions (l ++ [q]) = S ++ [s ++ [q]]) as IH.
  { clear. intros l. induction l as [|q l IH] using rev_ind; intros p; [by exists [], []|].
    rewrite group_snoc. destruct (IH q) as (S & s & ->). destruct (decide (breaks q p)) as [H|H].
    - rewrite push_row_break by done. by exists (S ++ [s ++ [q]]), [].
    - rewrite push_row_join by done. by exists S, (s ++ [q]). }
  destruct (IH l q) as (S & s & ->). destruct (decide (breaks q p)) as [H|H].
  - rewrite push_row_break by done. by exists (S ++ [s ++ [q]]), [].
  - rewrite push_row_join by done. by exists S, (s ++ [q]).
Qed.

Lemma group_not_nil l : l <> [] -> group_sessions l <> [].
Proof.
  destruct l as [|p l _] using rev_ind; [done|]. intros _. destruct (group_last l p) as (S & s & ->). by destruct S.
Qed.

(** Grouping does not look across a gap. *)
Lemma group_app l1 p h l2 : breaks p h ->
  group_sessions ((l1 ++ [p]) ++ h :: l2) = group_sessions (l1 ++ [p]) ++ group_sessions (h :: l2).
Proof.
  intros Hb. induction l2 as [|x l2 IH] using rev_ind.
  - rewrite (group_snoc (l1 ++ [p]) h). destruct (group_last l1 p) as (S & s & ->). by rewrite push_row_break.
  - rewrite app_comm_cons, app_assoc, (group_snoc (_ ++ h :: l2)), (group_snoc (h :: l2)), IH. apply push_row_app. by apply group_not_nil.
Qed.

Definition joined (s : list ChargeRow) : Prop := forall i p r, s !! i = Some p -> s !! S i = Some r -> ~ breaks p r.

Lemma group_joined s : s <> [] -> joined s -> group_sessions s = [s].
Proof.
  induction s as [|r s IH] using rev_ind; [done|]. intros _ Hj. destruct s as [|p s _] using rev_ind; [done|].
  rewrite group_snoc, IH.
  - apply (push_row_join [] s p r). apply (Hj (length s)).
    + rewrite lookup_app_l by (rewrite length_app; cbn; lia). by rewrite lookup_app_r, Nat.sub_diag by done.
    + rewrite lookup_app_r by (rewrite length_app; cbn; lia). rewrite length_app. cbn [length].
      by replace (S (length s) - (length s + 1))%nat with 0%nat by lia.
  - by destruct s.
  - intros i a b Ha Hb. apply (Hj i); by apply lookup_app_l_Some.
Qed.

(** The specification of a grouping. *)
Inductive sessions_of : list (list ChargeRow) -> Prop :=
| sessions_nil : sessions_of []
| sessions_one s : s <> [] -> joined s -> sessions_of [s]
| sessions_snoc S s p h t : sessions_of (S ++ [s ++ [p]]) -> joined (h :: t) -> breaks p h ->
    sessions_of ((S ++ [s ++ [p]]) ++ [h :: t]).

Lemma group_unique ss : sessions_of ss -> group_sessions (concat ss) = ss.
Proof.
  induction 1 as [|s Hs Hj|S s p h t H IH Hj Hb]; [done|cbn; rewrite app_nil_r; by apply group_joined|].
  rewrite concat_app. cbn [concat]. rewrite app_nil_r. revert IH. rewrite (concat_app S). cbn [concat]. rewrite app_nil_r, app_assoc.
  intros IH. rewrite group_app, IH by done. f_equal. by apply group_joined.
Qed.

Lemma joined_snoc s p r : joined (s ++ [p]) -> ~ breaks p r -> joined ((s ++ [p]) ++ [r]).
Proof.
  intros Hj Hn i a b Ha Hb. apply lookup_app_Some in Hb as [Hb|[Hl Hb]].
  - apply lookup_app_Some in Ha as [Ha|[Hla _]]; [by eapply Hj|]. apply lookup_lt_Some in Hb. lia.
  - apply list_lookup_singleton_Some in Hb as [Hi ->]. rewrite length_app in *. cbn [length] in *.
    assert (i = length s) as -> by lia. rewrite lookup_app_l in Ha by (rewrite length_app; cbn; lia).
    rewrite lookup_app_r, Nat.sub_diag in Ha by done. by injection Ha as <-.
Qed.

Lemma sessions_last S s : sessions_of (S ++ [s]) -> joined s.
Proof.
  intros H. inversion H as [E|s' Hs Hj E|S' s' p h t Hs Hj Hb E]; [by destruct S| |].
  - destruct S as [|? [|]]; by simplify_eq/=.
  - apply app_inj_tail in E as [_ <-]. done.
Qed.

(** The last session may grow while its rows stay joined. *)
Lemma sessions_grow S s p r : sessions_of (S ++ [s ++ [p]]) -> ~ breaks p r -> sessions_of (S ++ [(s ++ [p]) ++ [r]]).
Proof.
  intros H Hn. pose proof (joined_snoc _ _ _ (sessions_last _ _ H) Hn) as Hj.
  inversion H as [E|s' Hs Hj' E|S' s' q h t Hs Hj' Hb E]; [by destruct S| |].
  - destruct S as [|? [|]]; simplify_eq/=. constructor; [by destruct s|done].
  - apply app_inj_tail in E as [<- Et]. destruct s as [|h' s'']; cbn in Et; injection Et as -> Et.
    + apply (sessions_snoc S' s' q p [r]); done.
    + apply (sessions_snoc S' s' q h' ((s'' ++ [p]) ++ [r])); done.
Qed.

Lemma group_sessions_of l : sessions_of (group_sessions l).
Proof.
  induction l as [|r l IH] using rev_ind; [constructor|]. rewrite group_snoc.
  destruct l as [|p l _] using rev_ind; [constructor; [done|]; by intros [|i] a b Ha Hb|].
  destruct (group_last l p) as (S & s & E). rewrite E in *. destruct (decide (breaks p r)) as [Hb|Hb].
  - rewrite push_row_break by done. constructor; [done| |done]. by intros [|i] a b Ha Hc.
  - rewrite push_row_join by done. by apply sessions_grow.
Qed.

Lemma concat_group l : concat (group_sessions l) = l.
Proof.
  induction l as [|r l IH] using rev_ind; [done|]. rewrite group_snoc.
  destruct l as [|p l _] using rev_ind; [done|]. destruct (group_last l p) as (S & s & E). rewrite E in *.
  rewrite <- IH. destruct (decide (breaks p r)).
  - rewrite push_row_break, (concat_app (S ++ _)) by done. done.
  - rewrite push_row_join, !concat_app by done. cbn. by rewrite !app_nil_r, !app_assoc.
Qed.

(** ** The rows of a window *)

(** Every row is stored under its timestamp, which is in range. *)
Definition rows_ok (table : gmap Z ChargeRow) : Prop := forall k r, table !! k = Some r -> ts r = k /\ 0 <= k <= 2 ^ 53.

Notation in_order := (StronglySorted (fun a b => ts a < ts b)).

Lemma active_signal r : active r = true -> has_signal r = true.
Proof. unfold active, has_signal, is_actively_charging, is_charging, phase_is_active. by destruct (charging_state r), (power_kw r), (rate_mph r). Qed.

Definition loaded (table : gmap Z ChargeRow) (from upper : Z) (r : ChargeRow) : Prop :=
  table !! ts r = Some r /\ from <= ts r <= upper /\ active r = true.

Lemma elem_of_load table from to r : rows_ok table ->
  r ∈ load_charge_rows table from to <-> loaded table from (default (2 ^ 63 - 1) to) r.
Proof.
  intros Hok. unfold load_charge_rows, loaded, sort_by_key. rewrite list_elem_of_filter. rewrite Is_true_true.
  rewrite (elem_of_Permutation_proper _ _ _ (sort_by_perm _ _)), list_elem_of_filter, list_elem_of_fmap. rewrite Is_true_true.
  split.
  - intros (Ha & (Hr & _) & ((k & r') & -> & Hk%elem_of_map_to_list)). cbn [snd] in *. destruct (Hok _ _ Hk) as [E _]. by rewrite E in *.
  - intros (Ht & Hr & Ha). split_and!; [done|lia|lia|by apply active_signal|]. exists (ts r, r). split; [done|].
    by apply elem_of_map_to_list.
Qed.

Lemma in_order_nodup l : in_order l -> NoDup l.
Proof.
  induction 1 as [|x l Hl IH Hf]; constructor; [|done]. intros Hx. rewrite Forall_forall in Hf. specialize (Hf x Hx). lia.
Qed.

Lemma in_order_unique l1 l2 : in_order l1 -> in_order l2 -> (forall r, r ∈ l1 <-> r ∈ l2) -> l1 = l2.
Proof.
  intros H1 H2 He. eapply (StronglySorted_unique_strong (fun a b => ts a < ts b)); [|done|done|].
  - intros a b _ _ H3 H4. lia.
  - apply NoDup_Permutation; [by apply in_order_nodup..|done].
Qed.

Lemma nodup_keys table : rows_ok table -> NoDup (ts <$> (snd <$> map_to_list table)).
Proof.
  intros Hok. assert (ts <$> (snd <$> map_to_list table) = fst <$> map_to_list table) as ->.
  { rewrite <- list_fmap_compose. apply list_fmap_ext. intros i [k r] Hi%list_elem_of_lookup_2%elem_of_map_to_list.
    cbn. by destruct (Hok _ _ Hi). }
  apply NoDup_fst_map_to_list.
Qed.

Lemma load_in_order table from to : rows_ok table -> in_order (load_charge_rows table from to).
Proof.
  intros Hok. unfold load_charge_rows.
  set (l := filter (fun r => from <= ts r <= _ /\ has_signal r) _).
  assert (NoDup (ts <$> sort_by_key ts l)) as Hnd.
  { unfold sort_by_key. rewrite (sort_by_perm _ l). eapply sublist_NoDup; [by apply nodup_keys|]. apply fmap_sublist, sublist_filter. }
  pose proof (sort_by_key_strongly ts l) as Hs. revert Hs Hnd. generalize (sort_by_key ts l). intros m Hs Hnd.
  assert (in_order m) as Hm.
  { revert Hnd. induction Hs as [|x m Hm IH Hf]; [constructor|]. intros [Hx Hnd]%NoDup_cons. constructor; [auto|].
    apply Forall_forall. intros y Hy. rewrite Forall_forall in Hf. specialize (Hf y Hy). cbn in Hf.
    assert (ts x <> ts y); [|lia]. intros E. apply Hx. rewrite E. by apply list_elem_of_fmap_2. }
  clear Hs Hnd. induction Hm as [|x m Hm IH Hf]; [constructor|]. rewrite filter_cons. case_decide; [|done]. constructor; [done|].
  rewrite Forall_forall in *. intros y [_ Hy]%list_elem_of_filter. by apply Hf.
Qed.

(** A window's rows, given as an ordered list. *)
Lemma load_is table from to l : rows_ok table -> in_order l ->
  (forall r, r ∈ l <-> loaded table from (default (2 ^ 63 - 1) to) r) -> load_charge_rows table from to = l.
Proof.
  intros Hok Hl He. apply in_order_unique; [by apply load_in_order|done|]. intros r. by rewrite elem_of_load, He.
Qed.

Lemma in_order_app l1 l2 : in_order (l1 ++ l2) -> forall a b, a ∈ l1 -> b ∈ l2 -> ts a < ts b.
Proof. intros H a b Ha Hb. by apply (StronglySorted_app_1_elem_of (fun a b => ts a < ts b) l1 l2). Qed.

Lemma in_order_middle l1 l2 l3 : in_order (l1 ++ l2 ++ l3) -> in_order l2.
Proof. intros H. by eapply StronglySorted_app_1_l, StronglySorted_app_1_r. Qed.

(** Sessions of a grouping, apart. *)
Lemma sessions_tail S g T : sessions_of (S ++ g :: T) -> g <> [] /\ joined g
  /\ (forall h t T', T = (h :: t) :: T' -> exists q l, g = l ++ [q] /\ breaks q h).
Proof.
  revert S g. induction T as [|x T IH] using rev_ind; intros S g H.
  - split_and!; [|by eapply sessions_last|done]. intros ->. inversion H as [E|s Hs Hj E|S' s' p h t Hs Hj Hb E]; [by destruct S| |].
    + destruct S as [|? [|]]; by simplify_eq/=.
    + by apply app_inj_tail in E as [_ ?].
  - rewrite app_comm_cons, app_assoc in H.
    inversion H as [E|s Hs Hj E|S' s' p h t Hs Hj Hb E]; [by destruct S, T| |].
    + destruct S as [|? S]; [destruct T|]; cbn in E; try (by destruct S); by simplify_eq/=.
    + apply app_inj_tail in E as [E <-]. rewrite E in Hs. destruct (IH S g Hs) as (H1 & H2 & H3). split_and!; [done|done|].
      intros h' t' T' ET. destruct T as [|y T].
      * cbn in ET. injection ET as <- <- <-. apply app_inj_tail in E as [_ <-]. by exists p, s'.
      * cbn in ET. injection ET as -> ET. by eapply (H3 h' t' T).
Qed.

(** Sessions are the unique split at gaps. [group_sessions] returns a list of
    sessions exactly when they are the rows in order, none is empty, consecutive
    rows of a session are at most 30 minutes apart, and consecutive sessions more. *)
Theorem group_sessions_spec (rows : list ChargeRow) (ss : list (list ChargeRow)) :
  group_sessions rows = ss <-> concat ss = rows /\ sessions_of ss.
Proof.
  split; [intros <-; split; [apply concat_group|apply group_sessions_of]|]. intros [<- H]. by apply group_unique.
Qed.

Lemma head_elem {A} (l : list A) x : head l = Some x -> x ∈ l.
Proof. destruct l; intros [= ->]. by left. Qed.

(** A session in its table. *)
Lemma session_context table S g T : rows_ok table -> group_sessions (load_charge_rows table 0 None) = S ++ g :: T ->
  load_charge_rows table 0 None = concat S ++ g ++ concat T /\ in_order (concat S ++ g ++ concat T)
  /\ g <> [] /\ joined g /\ (forall h t T', T = (h :: t) :: T' -> exists q l, g = l ++ [q] /\ breaks q h).
Proof.
  intros Hok E. pose proof (concat_group (load_charge_rows table 0 None)) as Hc. rewrite E, concat_app in Hc. cbn in Hc.
  pose proof (load_in_order table 0 None Hok) as Ho. rewrite <- Hc in Ho.
  pose proof (group_sessions_of (load_charge_rows table 0 None)) as Hs. rewrite E in Hs.
  destruct (sessions_tail S g T Hs) as (H1 & H2 & H3). done.
Qed.

(** Grouping from a session's first row finds the session again. *)
Lemma group_from g T up : joined g -> g <> [] -> in_order (g ++ concat T) ->
  (forall s, s ∈ T -> s <> []) -> (forall h t T', T = (h :: t) :: T' -> exists q l, g = l ++ [q] /\ breaks q h) ->
  head (group_sessions (g ++ filter (fun r => ts r <= up) (concat T))) = Some g.
Proof.
  intros Hj Hg Ho Hne Hbr. destruct T as [|s T]; [cbn; rewrite app_nil_r, group_joined; done|].
  destruct s as [|h t]; [by destruct (Hne [] ltac:(by left))|]. cbn [concat].
  destruct (Hbr h t T eq_refl) as (q & l & -> & Hb). rewrite <- app_comm_cons, filter_cons. case_decide as Hup.
  - rewrite group_app, group_joined by done. done.
  - assert (filter (fun r => ts r <= up) (t ++ concat T) = []) as ->.
    { apply elem_of_nil_inv. intros r [Hle Hr]%list_elem_of_filter. apply StronglySorted_app_1_r in Ho. apply StronglySorted_inv in Ho as [_ Hf].
      rewrite Forall_forall in Hf. specialize (Hf r Hr). cbn in Hf. lia. }
    rewrite app_nil_r, group_joined by done. done.
Qed.

(** The detail view shows the session of the list. For every session of the
    whole table that lasts at most a week, re-deriving it from its id, the
    timestamp of its first row, over a bounded window, gives the same rows. *)
Theorem charge_detail_agrees (table : gmap Z ChargeRow) (g : list ChargeRow) (first final : ChargeRow) :
  rows_ok table -> g ∈ group_sessions (load_charge_rows table 0 None) ->
  head g = Some first -> last g = Some final -> ts final <= ts first + 7 * 24 * 60 * 60 ->
  detail_session table (ts first) = Some g.
Proof.
  intros Hok (S & T & E)%list_elem_of_split Hh Hl Hweek.
  destruct (session_context table S g T Hok E) as (Hload & Ho & Hg & Hj & Hbr).
  assert (0 <= ts first <= 2 ^ 53) as Hr.
  { assert (first ∈ load_charge_rows table 0 None) as Hf.
    { rewrite Hload, !elem_of_app. right. left. by apply head_elem. }
    rewrite elem_of_load in Hf by done. destruct Hf as (Ht & _). by eapply Hok. }
  unfold detail_session. rewrite i64_small by lia. set (up := ts first + 7 * 24 * 60 * 60) in *.
  rewrite (load_is table (ts first) (Some up) (g ++ filter (fun r => ts r <= up) (concat T))); [|done| |].
  - apply group_from; [done|done|by eapply StronglySorted_app_1_r| |done]. intros s Hs ->.
    pose proof (group_sessions_of (load_charge_rows table 0 None)) as Hso. rewrite E in Hso.
    apply list_elem_of_split in Hs as (T1 & T2 & ->). rewrite app_comm_cons, app_assoc in Hso.
    by destruct (sessions_tail _ _ _ Hso).
  - apply StronglySorted_app_1_r in Ho. apply StronglySorted_app in Ho as (H1 & H2 & H3). apply StronglySorted_app_2; [|done|].
    + intros a b Ha [_ Hb]%list_elem_of_filter. by apply H1.
    + clear -H3. induction H3 as [|x m Hm IH Hf]; [constructor|]. rewrite filter_cons. case_decide; [|done].
      constructor; [done|]. rewrite Forall_forall in *. intros y [_ Hy]%list_elem_of_filter. by apply Hf.
  - intros r. cbn [default]. assert (forall r, loaded table (ts first) up r <-> r ∈ load_charge_rows table 0 None /\ ts first <= ts r <= up) as ->.
    { intros x. rewrite elem_of_load by done. unfold loaded. cbn [default]. split; [|naive_solver lia].
      intros (H1 & H2 & H3). split; [|lia]. split_and!; [done|lia|lia|done]. }
    rewrite Hload, !elem_of_app, list_elem_of_filter.
    assert (forall x, x ∈ g -> ts first <= ts x <= up) as Hin.
    { intros x Hx. apply in_order_middle in Ho. split.
      - destruct g as [|y g]; [done|]. injection Hh as ->. apply elem_of_cons in Hx as [->|Hx]; [done|].
        apply StronglySorted_inv in Ho as [_ Hf]. rewrite Forall_forall in Hf. specialize (Hf x Hx). cbn in Hf. lia.
      - destruct g as [|y g _] using rev_ind; [done|]. rewrite last_snoc in Hl. injection Hl as ->.
        apply elem_of_app in Hx as [Hx|Hx]; [|by apply list_elem_of_singleton in Hx as ->].
        pose proof (in_order_app _ _ Ho x final Hx ltac:(by apply list_elem_of_singleton)). lia. }
    assert (forall x, x ∈ concat S -> ts x < ts first) as Hs.
    { intros x Hx. apply (in_order_app _ _ Ho); [done|]. apply elem_of_app. left. by apply head_elem. }
    assert (forall x, x ∈ concat T -> ts first < ts x) as Ht.
    { intros x Hx. rewrite app_assoc in Ho. apply (in_order_app _ _ Ho); [|done]. apply elem_of_app. right. by apply head_elem. }
    split.
    + intros [Hx|[Hx Hc]]; [split; [auto|by apply Hin]|]. specialize (Ht r Hc). split; [auto|lia].
    + intros [[Hx|[Hx|Hx]] Hx']; [specialize (Hs r Hx); lia|auto|]. right. split; [lia|done].
Qed.

(** Two plug-ins: rows at 1000 and 1060, then at 4000. *)
Definition demo_row (t : Z) : ChargeRow := mkRow t (Some 7) None None None None None None None None None None None.
Definition demo_table : gmap Z ChargeRow := list_to_map ((fun t => (t, demo_row t)) <$> [1000; 1060; 4000]).

Lemma demo_table_ok : rows_ok demo_table.
Proof.
  intros k r H%elem_of_list_to_map_2. apply list_elem_of_fmap in H as (t & [= -> ->] & Ht). cbn.
  split; [done|]. repeat (apply elem_of_cons in Ht as [->|Ht]; [lia|]). by apply elem_of_nil in Ht.
Qed.

Lemma charge_detail_agrees_witness :
  detail_session demo_table (ts (demo_row 1000)) = Some [demo_row 1000; demo_row 1060].
Proof.
  apply (charge_detail_agrees demo_table [demo_row 1000; demo_row 1060] (demo_row 1000) (demo_row 1060)).
  - exact demo_table_ok.
  - replace (group_sessions (load_charge_rows demo_table 0 None)) with [[demo_row 1000; demo_row 1060]; [demo_row 4000]]
      by (vm_compute; reflexivity). by left.
  - reflexivity.
  - reflexivity.
  - cbn. lia.
Defined.
