(* ===== verification/ChargeListSpec.v ===== *)
(** * The cached session list is the list

    Whatever readers and writers do, an answer built from the stored projection is
    the list a full rebuild of the same table gives. Also: rate plans read from
    preferences are well formed. *)

From Stdlib Require Import ZArith Lia Sorted.
From stdpp Require Import base gmap list sorting relations.
From S2P Require Import Prelude Float Str Config Json RadioLock Charging ChargeList ChargingSpec.

Import Json Charging ChargeList.
Open Scope Z_scope.

(** ** Sorting by a key *)

Lemma sort_Forall2 {A} (key : A -> Z) (R : relation A) l l' : (forall a b, R a b -> key a = key b) ->
  Forall2 R l l' -> Forall2 R (sort_by_key key l) (sort_by_key key l').
Proof.
  intros HR. induction 1 as [|a b l l' Hab Hl IH]; [constructor|]. unfold sort_by_key in *. cbn.
  revert IH. generalize (sort_by (key_le key) l), (sort_by (key_le key) l'). intros m m' Hm.
  induction Hm as [|c d m m' Hcd Hm IHm]; cbn; [by repeat constructor|].
  unfold key_le at 1 3. rewrite (HR a b Hab), (HR c d Hcd). destruct (_ <=? _); by repeat constructor.
Qed.

Lemma sort_unique {A} (key : A -> Z) l l' : StronglySorted (fun a b => key a < key b) l -> l ≡ₚ l' -> sort_by_key key l' = l.
Proof.
  intros Hs Hp. symmetry. eapply (StronglySorted_unique_strong (fun a b => key a <= key b)).
  - intros a b Ha Hb H1 H2. assert (b ∈ l) as Hb'.
    { rewrite Hp. unfold sort_by_key in Hb. by rewrite sort_by_perm in Hb. }
    apply list_elem_of_lookup in Ha as [i Ha], Hb' as [j Hb'].
    destruct (decide (i = j)) as [->|Hne]; [congruence|]. exfalso.
    destruct (decide (i < j)%nat) as [Hij|Hij].
    + pose proof (StronglySorted_lookup _ _ _ _ _ _ Hs Hij Ha Hb') as H. cbn in H. lia.
    + pose proof (StronglySorted_lookup _ _ _ _ _ _ Hs (ltac:(lia) : (j < i)%nat) Hb' Ha) as H. cbn in H. lia.
  - eapply StronglySorted_weaken; [|exact Hs]. intros; cbn in *; lia.
  - apply sort_by_key_strongly.
  - rewrite Hp. symmetry. apply sort_by_perm.
Qed.

(** ** Sessions *)

Lemma sessions_suffix S T : sessions_of (S ++ T) -> sessions_of T.
Proof.
  induction T as [|x T IH] using rev_ind; [constructor|]. rewrite app_assoc. intros H.
  inversion H as [E|s Hs Hj E|S' s' p h t Hs Hj Hb E]; [by destruct S, T| |].
  - assert (T = []) as ->.
    { apply (f_equal length) in E. rewrite !length_app in E. cbn in E. destruct T; [done|cbn in E; lia]. }
    apply (app_inj_tail [] (S ++ [])) in E as [_ <-]. by constructor.
  - apply app_inj_tail in E as [E <-]. rewrite E in Hs. destruct T as [|y T _] using rev_ind; [by constructor|].
    rewrite app_assoc in E. apply app_inj_tail in E as [_ <-]. apply sessions_snoc; [by apply IH|done|done].
Qed.

Lemma sessions_boundary S g : sessions_of (S ++ [g]) -> S <> [] ->
  exists l q h t, concat S = l ++ [q] /\ g = h :: t /\ breaks q h.
Proof.
  intros H HS. inversion H as [E|s Hs Hj E|S' s' p h t Hs Hj Hb E]; [by destruct S| |].
  - destruct S as [|? [|]]; by simplify_eq/=.
  - apply app_inj_tail in E as [<- <-]. exists (concat S' ++ s'), p, h, t. split_and!; [|done|done].
    rewrite concat_app. cbn. by rewrite app_nil_r, app_assoc.
Qed.

Lemma sessions_init S g : sessions_of (S ++ [g]) -> sessions_of S.
Proof.
  intros H. inversion H as [E|s Hs Hj E|S' s' p h t Hs Hj Hb E]; [by destruct S| |by apply app_inj_tail in E as [<- _]].
  destruct S as [|? [|]]; simplify_eq/=. constructor.
Qed.

Lemma sessions_nonempty S : sessions_of S -> Forall (fun g => g <> []) S.
Proof. induction 1; [constructor|by constructor|apply Forall_app; split; [done|by constructor]]. Qed.

Section Pricing.
Context (local : list Z -> Z -> option (Z * Z * Z)) (is_home : Z * Z * Z -> option Z -> option Z -> bool).
Notation price := (price local is_home).

Lemma override_key s o : s_id (apply_cost_override s o) = s_id s /\ end_ms (apply_cost_override s o) = end_ms s.
Proof. destruct o as [[a c]|]; done. Qed.

Lemma rates_key lc s rows tags home rates :
  s_id (apply_rates lc s rows tags home rates) = s_id s /\ end_ms (apply_rates lc s rows tags home rates) = end_ms s.
Proof. unfold apply_rates. destruct (best_tag_cost _ _ _ _); [done|]. by destruct (default_rate rates). Qed.

(** A session's summary carries its first and last timestamps. *)
Lemma price_key x h t q : last (h :: t) = Some q -> exists s, price x (h :: t) = Some s /\ s_id s = ts h /\ end_ms s = i64 (ts q * 1000).
Proof.
  intros Hl. unfold ChargeList.price, summarize. cbn [head mbind option_bind]. rewrite Hl. cbn [mbind option_bind].
  destruct (session_coord (h :: t)) as [la lo]. eexists. split; [reflexivity|].
  match goal with |- context [apply_cost_override ?s ?o] => destruct (override_key s o) as [-> ->] end.
  match goal with |- context [apply_rates ?a ?s ?b ?c ?d ?e] => destruct (rates_key a s b c d e) as [-> ->] end. done.
Qed.

Lemma price_of_session x g : g <> [] -> exists h t q s, g = h :: t /\ last g = Some q /\ price x g = Some s
  /\ s_id s = ts h /\ end_ms s = i64 (ts q * 1000) /\ h ∈ g /\ q ∈ g.
Proof.
  destruct g as [|h t]; [done|]. intros _. destruct (last (h :: t)) as [q|] eqn:El; [|by apply last_None in El].
  destruct (price_key x h t q El) as (s & H1 & H2 & H3). exists h, t, q, s. split_and!; try done; [by left|].
  by apply last_Some_elem_of.
Qed.

Lemma priced_in_order x G : Forall (fun g => g <> []) G -> StronglySorted (fun a b => ts a < ts b) (concat G) ->
  StronglySorted (fun a b => - s_id b < - s_id a) (omap (price x) G)
  /\ forall s, s ∈ omap (price x) G -> exists r, r ∈ concat G /\ s_id s = ts r.
Proof.
  induction G as [|g G IH]; intros Hne Ho; [split; [constructor|by intros s ?%not_elem_of_nil]|].
  apply Forall_cons in Hne as [Hg Hne]. destruct (price_of_session x g Hg) as (h & t & q & s & -> & _ & Hp & Hid & _ & Hh & _).
  destruct (IH Hne ltac:(by eapply StronglySorted_app_1_r)) as [Hs Hin]. cbn [omap list_omap]. rewrite Hp. split.
  - constructor; [done|]. apply Forall_forall. intros s' (r & Hr & ->)%Hin. rewrite Hid.
    pose proof (in_order_app (h :: t) (concat G) Ho h r ltac:(by left) Hr). lia.
  - intros s' [->|Hs']%elem_of_cons; [exists h; split; [by left|done]|]. destruct (Hin s' Hs') as (r & Hr & E).
    exists r. split; [by apply elem_of_app; right|done].
Qed.

Lemma rev_descending (l : list ChargeSessionSummary) :
  StronglySorted (fun a b => - s_id b < - s_id a) l -> StronglySorted (fun a b => - s_id a < - s_id b) (rev l).
Proof.
  induction 1 as [|s l Hl IH Hf]; [constructor|]. cbn.
  apply StronglySorted_app_2; [|done|by repeat constructor]. intros a b Ha Hb. apply list_elem_of_singleton in Hb as ->.
  rewrite Forall_forall in Hf. apply (Hf a). by rewrite list_elem_of_In, in_rev, <- list_elem_of_In.
Qed.

Lemma priced_newest x G l : Forall (fun g => g <> []) G -> StronglySorted (fun a b => ts a < ts b) (concat G) ->
  l ≡ₚ omap (price x) G -> newest_first l = rev (omap (price x) G).
Proof.
  intros Hne Ho Hl. apply sort_unique; [by apply rev_descending, priced_in_order|]. by rewrite Hl, <- Permutation_rev.
Qed.

End Pricing.

(** ** The projection *)

(** [t] is [t0] with rows added after [latest]. *)
Record extends (t0 : gmap Z ChargeRow) (latest : Z) (t : gmap Z ChargeRow) : Prop := {
  ex_old : forall k r, t0 !! k = Some r -> k <= latest /\ t !! k = Some r;
  ex_new : forall k r, t !! k = Some r -> k <= latest -> t0 !! k = Some r;
}.

Lemma extends_ok t0 latest t : extends t0 latest t -> rows_ok t -> rows_ok t0.
Proof. intros He Hok k r H. by apply Hok, (ex_old _ _ _ He). Qed.

Lemma load_extends t0 latest t : rows_ok t -> extends t0 latest t -> 0 <= latest ->
  load_charge_rows t 0 None = load_charge_rows t0 0 None ++ load_charge_rows t (latest + 1) None.
Proof.
  intros Hok He Hl. pose proof (extends_ok _ _ _ He Hok) as Hok0. apply load_is; [done| |].
  - apply StronglySorted_app_2; [|by apply load_in_order|by apply load_in_order]. intros a b.
    rewrite !elem_of_load by done. intros (Ha & _) (_ & Hb & _). apply (ex_old _ _ _ He) in Ha as [Ha _]. lia.
  - intros r. rewrite elem_of_app, !elem_of_load by done. unfold loaded. cbn [default]. split.
    + intros [(H1 & H2 & H3)|(H1 & H2 & H3)]; [|split_and!; [done|lia|lia|done]].
      split_and!; [by apply (ex_old _ _ _ He)|lia|lia|done].
    + intros (H1 & H2 & H3). destruct (decide (ts r <= latest)) as [Hle|Hgt].
      * left. split_and!; [by apply (ex_new _ _ _ He)|lia|lia|done].
      * right. split_and!; [done|lia|lia|done].
Qed.

Section Projection.
Context (local : list Z -> Z -> option (Z * Z * Z)) (is_home : Z * Z * Z -> option Z -> option Z -> bool)
  (same_context : Context -> Context -> bool)
  (reload : list ChargeSessionSummary -> option (list ChargeSessionSummary))
  (same : relation ChargeSessionSummary).
Context `{!Equivalence same}.
Context (same_key : forall a b, same a b -> s_id a = s_id b /\ end_ms a = end_ms b)
  (context_text : forall a b, same_context a b = true -> a = b)
  (reload_same : forall l l', reload l = Some l' -> Forall2 same l l').

Notation price := (price local is_home).
Notation build_from := (build_from local is_home).
Notation full_list := (full_list local is_home).
Notation read_list := (read_list local is_home same_context reload).
Notation step := (step local is_home same_context reload).

Lemma same_refl l : Forall2 same l l.
Proof using Equivalence0. induction l; by constructor. Qed.

Lemma full_rev x t : rows_ok t -> full_list x t = rev (omap (price x) (group_sessions (load_charge_rows t 0 None))).
Proof.
  intros Hok. unfold ChargeList.full_list, ChargeList.build_from. rewrite app_nil_r. apply priced_newest; [| |done].
  - apply sessions_nonempty, group_sessions_of.
  - rewrite concat_group. by apply load_in_order.
Qed.

(** A rebuild from a session boundary. *)
Lemma build_from_boundary x t from S T kept : rows_ok t ->
  group_sessions (load_charge_rows t 0 None) = S ++ T -> load_charge_rows t from None = concat T ->
  Forall2 same kept (rev (omap (price x) S)) -> Forall2 same (build_from x t from kept) (full_list x t).
Proof using Equivalence0 same_key.
  intros Hok HG Hload Hk. pose proof (group_sessions_of (load_charge_rows t 0 None)) as Hs. rewrite HG in Hs.
  unfold ChargeList.build_from. rewrite Hload, (group_unique T) by (by eapply sessions_suffix).
  rewrite full_rev, HG by done.
  assert (Forall2 same (newest_first (omap (price x) T ++ kept)) (newest_first (omap (price x) T ++ rev (omap (price x) S)))) as H1.
  { apply sort_Forall2; [intros a b Hab; by destruct (same_key a b Hab) as [-> _]|]. apply Forall2_app; [apply same_refl|done]. }
  rewrite <- (priced_newest local is_home x (S ++ T) (omap (price x) T ++ rev (omap (price x) S))); [done| | |].
  - rewrite <- HG. apply sessions_nonempty, group_sessions_of.
  - rewrite <- HG, concat_group. by apply load_in_order.
  - rewrite omap_app, <- Permutation_rev. apply Permutation_app_comm.
Qed.

Lemma rev_snoc_omap x S g s : price x g = Some s -> rev (omap (price x) (S ++ [g])) = s :: rev (omap (price x) S).
Proof. intros Hp. rewrite omap_app. cbn [omap list_omap]. rewrite Hp. by rewrite rev_app_distr. Qed.

(** Resuming after the older rows' last session is closed: the new rows start
    sessions of their own. *)
Lemma resume_closed x t0 latest t old : rows_ok t -> extends t0 latest t -> 0 <= latest <= 2 ^ 53 ->
  (forall l q, load_charge_rows t0 0 None = l ++ [q] -> ts q + SESSION_GAP_SECS < latest) ->
  Forall2 same old (full_list x t0) -> Forall2 same (build_from x t (latest + 1) old) (full_list x t).
Proof using Equivalence0 same_key.
  intros Hok He Hl Hgap Hold. pose proof (extends_ok _ _ _ He Hok) as Hok0. rewrite (full_rev x t0 Hok0) in Hold.
  pose proof (load_extends t0 latest t Hok He ltac:(lia)) as Hload.
  apply (build_from_boundary x t (latest + 1) (group_sessions (load_charge_rows t0 0 None))
    (group_sessions (load_charge_rows t (latest + 1) None))); [done| |by rewrite concat_group|done].
  rewrite Hload. destruct (load_charge_rows t (latest + 1) None) as [|h R] eqn:ER; [by rewrite !app_nil_r|].
  destruct (load_charge_rows t0 0 None) as [|q l _] eqn:EL using rev_ind; [done|]. apply group_app.
  assert (h ∈ load_charge_rows t (latest + 1) None) as Hh by (rewrite ER; by left).
  assert (q ∈ load_charge_rows t0 0 None) as Hq by (rewrite EL; apply elem_of_app; right; by left).
  rewrite elem_of_load in Hh, Hq by done. destruct Hh as (Hh & Hh1 & _), Hq as (Hq & Hq1 & _).
  apply Hok in Hh as [_ Hh]. apply Hok0 in Hq as [_ Hq]. specialize (Hgap l q eq_refl).
  unfold breaks. rewrite i64_small; unfold SESSION_GAP_SECS in *; lia.
Qed.

(** The rows from the last session's first row on. *)
Lemma load_open t0 latest t L0 h u : rows_ok t -> extends t0 latest t -> 0 <= latest ->
  load_charge_rows t0 0 None = L0 ++ h :: u ->
  load_charge_rows t (ts h) None = (h :: u) ++ load_charge_rows t (latest + 1) None.
Proof.
  intros Hok He Hl E. pose proof (load_extends t0 latest t Hok He Hl) as Hload. rewrite E, <- app_assoc in Hload.
  pose proof (load_in_order t 0 None Hok) as Ho. rewrite Hload in Ho. apply load_is; [done|by eapply StronglySorted_app_1_r|].
  assert (0 <= ts h) as H0.
  { assert (h ∈ load_charge_rows t 0 None) as Hh by (rewrite Hload; apply elem_of_app; right; by left).
    rewrite elem_of_load in Hh by done. destruct Hh as (_ & ? & _). lia. }
  intros r. cbn [default].
  assert (loaded t (ts h) (2 ^ 63 - 1) r <-> r ∈ load_charge_rows t 0 None /\ ts h <= ts r) as ->.
  { rewrite elem_of_load by done. unfold loaded. cbn [default]. naive_solver lia. }
  rewrite Hload, (elem_of_app L0). split.
  - intros Hr. split; [auto|]. apply StronglySorted_app_1_r in Ho. cbn in Ho. apply StronglySorted_inv in Ho as [_ Hf].
    rewrite Forall_forall in Hf. apply elem_of_cons in Hr as [->|Hr]; [done|]. specialize (Hf r Hr). cbn in Hf. lia.
  - intros [[Hr|Hr] Hle]; [|done]. pose proof (in_order_app _ _ Ho r h Hr ltac:(by left)). lia.
Qed.

(** Resuming from the last session's first row. *)
Lemma resume_open x t0 latest t S h u kept : rows_ok t -> extends t0 latest t -> 0 <= latest ->
  group_sessions (load_charge_rows t0 0 None) = S ++ [h :: u] -> Forall2 same kept (rev (omap (price x) S)) ->
  Forall2 same (build_from x t (ts h) kept) (full_list x t).
Proof using Equivalence0 same_key.
  intros Hok He Hl EG Hk. set (L := load_charge_rows t0 0 None) in *.
  pose proof (group_sessions_of L) as Hso. rewrite EG in Hso.
  pose proof (concat_group L) as HL. rewrite EG, concat_app in HL. cbn [concat] in HL. rewrite app_nil_r in HL.
  pose proof (load_open t0 latest t (concat S) h u Hok He Hl (eq_sym HL)) as Hopen.
  apply (build_from_boundary x t (ts h) S (group_sessions ((h :: u) ++ load_charge_rows t (latest + 1) None))); [done| |by rewrite concat_group|done].
  rewrite (load_extends t0 latest t Hok He Hl). fold L. rewrite <- HL, <- app_assoc.
  destruct S as [|s0 S0]; [done|]. destruct (sessions_boundary _ _ Hso ltac:(done)) as (l & q & h0 & u0 & Ec & [= <- <-] & Hb).
  rewrite Ec, <- app_comm_cons, group_app by done. f_equal. rewrite <- Ec. apply group_unique. by eapply sessions_init.
Qed.

(** Resuming from a list of the older table. *)
Lemma resume_exact x t0 latest t old : rows_ok t -> extends t0 latest t -> 0 <= latest <= 2 ^ 53 ->
  Forall2 same old (full_list x t0) ->
  let '(from, kept) := resume_charging_projection old latest in Forall2 same (build_from x t from kept) (full_list x t).
Proof using Equivalence0 same_key.
  intros Hok He Hl Hold. pose proof (extends_ok _ _ _ He Hok) as Hok0. pose proof Hold as Hold'. rewrite (full_rev x t0 Hok0) in Hold'.
  assert (Z.min (2 ^ 63 - 1) (latest + 1) = latest + 1) as Hmin by lia. set (L := load_charge_rows t0 0 None) in *.
  destruct (group_sessions L) as [|g S _] eqn:EG using rev_ind.
  - inversion Hold'; subst. cbn [resume_charging_projection]. rewrite Hmin. apply (resume_closed x t0); try done.
    intros l q E. exfalso. fold L in E. by apply (group_not_nil L); [rewrite E; destruct l|].
  - pose proof (group_sessions_of L) as Hso. rewrite EG in Hso.
    pose proof (sessions_nonempty _ Hso) as Hne. apply Forall_app in Hne as [_ Hg]. apply Forall_inv in Hg.
    destruct (price_of_session local is_home x g Hg) as (h & u & q & s & -> & Hlast & Hp & Hid & Hend & _ & Hq).
    rewrite (rev_snoc_omap x S (h :: u) s Hp) in Hold'. destruct old as [|s' rest]; [by inversion Hold'|].
    apply Forall2_cons in Hold' as [Hss Hrest]. destruct (same_key _ _ Hss) as [Eid Eend].
    pose proof (concat_group L) as HL. rewrite EG, concat_app in HL. cbn [concat] in HL. rewrite app_nil_r in HL.
    assert (q ∈ L) as HqL by (rewrite <- HL, elem_of_app; by right). unfold L in HqL. rewrite elem_of_load in HqL by done.
    destruct HqL as (HqL & _). destruct (Hok0 _ _ HqL) as [_ Hqr]. cbn [resume_charging_projection].
    rewrite Eend, Hend, (i64_small (ts q * 1000)) by lia. rewrite Z.quot_mul by lia.
    rewrite (i64_small (ts q + SESSION_GAP_SECS)) by (unfold SESSION_GAP_SECS; lia).
    destruct (Z.ltb_spec (ts q + SESSION_GAP_SECS) latest) as [Hgap|Hgap].
    + rewrite Hmin. apply (resume_closed x t0); try done. intros l q' E. fold L in E. assert (q' = q) as ->; [|done].
      assert (last L = Some q) as HlL by (rewrite <- HL, last_app; by rewrite Hlast).
      rewrite E, last_snoc in HlL. by injection HlL.
    + rewrite Eid, Hid. apply (resume_open x t0 latest t S h u); (done || lia).
Qed.

(** ** Runs *)

(** A projection is the list of a table the current one extends, unless older
    rows changed since. *)
Definition proj_ok (d : Db) (p : Projection) : Prop :=
  p_revision p <= revision (clock d) /\ p_rewrite p <= rewrite_revision (clock d)
  /\ (p_rewrite p = rewrite_revision (clock d) ->
      exists t0, extends t0 (p_latest p) (samples d) /\ 0 <= p_latest p <= latest_ts (clock d)
        /\ (p_revision p = revision (clock d) -> t0 = samples d)
        /\ Forall2 same (p_body p) (full_list (p_context p) t0)).

Record db_ok (d : Db) : Prop := {
  ok_rows : rows_ok (samples d);
  ok_latest : 0 <= latest_ts (clock d) <= 2 ^ 53 /\ forall k r, samples d !! k = Some r -> k <= latest_ts (clock d);
  ok_projection : forall p, projection d = Some p -> proj_ok d p;
}.

Record sys_ok (s : System) : Prop := {
  sys_db : db_ok (db s);
  sys_pending : forall p, p ∈ pending s -> proj_ok (db s) p;
  sys_answered : forall x t a, (x, t, a) ∈ answered s -> Forall2 same a (full_list x t);
}.

Lemma read_exact x d : db_ok d -> Forall2 same (fst (read_list x d)) (full_list x (samples d)).
Proof using Equivalence0 same_key context_text reload_same.
  intros [Hrows [Hlatest _] Hproj]. unfold ChargeList.read_list.
  assert (Forall2 same (build_from x (samples d) 0 []) (full_list x (samples d))) as Hfull by apply same_refl.
  destruct (projection d) as [p|]; [|done]. destruct (Hproj p eq_refl) as (_ & _ & Hp).
  destruct (same_context (p_context p) x) eqn:Ec; cbn [andb]; [|done]. apply context_text in Ec as <-.
  destruct (Z.eqb_spec (p_rewrite p) (rewrite_revision (clock d))) as [Erw|]; [|done].
  destruct (Hp Erw) as (t0 & Hext & Hlp & Hsame & Hbody). destruct (reload (p_body p)) as [old|] eqn:Er; [|done].
  assert (Forall2 same old (full_list (p_context p) t0)) as Hold.
  { apply reload_same in Er. clear -Er Hbody Equivalence0. revert old Er. induction Hbody as [|a b l l' Hab Hl IH]; intros old Ho.
    - by inversion Ho.
    - inversion Ho as [|? c ? old' Hac Hr]; subst. constructor; [by etrans|by apply IH]. }
  destruct (Z.eqb_spec (p_revision p) (revision (clock d))) as [Erev|].
  - cbn. by rewrite <- (Hsame Erev).
  - pose proof (resume_exact (p_context p) t0 (p_latest p) (samples d) old Hrows Hext ltac:(lia) Hold) as Hx.
    destruct (resume_charging_projection old (p_latest p)). done.
Qed.

Lemma projected_ok x d : db_ok d -> proj_ok d (projected local is_home same_context reload x d).
Proof using Equivalence0 same_key context_text reload_same.
  intros Hd. pose proof (read_exact x d Hd) as Hr. destruct Hd as [_ [Hl Hmax] _].
  split_and!; [cbn; lia|cbn; lia|]. intros _. exists (samples d). cbn. split_and!; [|lia|lia|done|done].
  split; [|done]. intros k r H. split; [by eapply Hmax|done].
Qed.

(** A write that raises the rewrite count leaves nothing to show; an append keeps
    every projection valid. *)
Lemma proj_rewritten d d' p : proj_ok d p -> revision (clock d) <= revision (clock d') ->
  rewrite_revision (clock d) < rewrite_revision (clock d') -> proj_ok d' p.
Proof. intros (H1 & H2 & _) Hr Hw. split_and!; [lia|lia|]. intros E. lia. Qed.

Lemma proj_appended d r p : proj_ok d p -> latest_ts (clock d) < ts r ->
  proj_ok (mkDb (<[ts r := r]> (samples d)) (on_insert (ts r) (clock d)) (projection d)) p.
Proof.
  intros (H1 & H2 & H3) Hl. unfold proj_ok, on_insert. cbn. rewrite (proj2 (Z.leb_gt _ _)) by done.
  split_and!; [lia|lia|]. intros E. destruct H3 as (t0 & [He1 He2] & Hp & _ & Hb); [lia|]. exists t0. split_and!; [|lia|lia|lia|done].
  split.
  - intros k x Hk. destruct (He1 k x Hk) as [H4 H5]. split; [done|]. rewrite lookup_insert_ne by lia. done.
  - intros k x Hk Hle. rewrite lookup_insert_ne in Hk by lia. by apply He2.
Qed.

Lemma step_ok s s' : sys_ok s -> step s s' -> sys_ok s'.
Proof using Equivalence0 same_key context_text reload_same.
  intros [Hd Hp Ha] Hstep. pose proof Hd as [Hrows [Hl Hmax] Hproj].
  destruct Hstep as [s r Hfree Hr|s old r Hold Hfree Hr|s t Ht|s x|s p Hin]; cbn in *.
  - assert (forall p, proj_ok (db s) p ->
      proj_ok (mkDb (<[ts r := r]> (samples (db s))) (on_insert (ts r) (clock (db s))) (projection (db s))) p) as Hkeep.
    { intros p H. destruct (decide (latest_ts (clock (db s)) < ts r)); [by apply proj_appended|].
      eapply proj_rewritten; [exact H|cbn; lia|]. cbn. rewrite (proj2 (Z.leb_le _ _)) by lia. lia. }
    split; cbn; [|auto|done]. split; cbn; [| |auto].
    + intros k x [[<- <-]|[_ H]]%lookup_insert_Some; [done|by apply Hrows].
    + split; [lia|]. intros k x [[<- <-]|[_ H]]%lookup_insert_Some; [lia|]. specialize (Hmax k x H). lia.
  - assert (forall p, proj_ok (db s) p ->
      proj_ok (mkDb (<[ts r := r]> (delete old (samples (db s)))) (on_update (ts r) (clock (db s))) (projection (db s))) p) as Hkeep
      by (intros p H; eapply proj_rewritten; [exact H|cbn; lia|cbn; lia]).
    split; cbn; [|auto|done]. split; cbn; [| |auto].
    + intros k x [[<- <-]|[_ [_ H]%lookup_delete_Some]]%lookup_insert_Some; [done|by apply Hrows].
    + split; [lia|]. intros k x [[<- <-]|[_ [_ H]%lookup_delete_Some]]%lookup_insert_Some; [lia|]. specialize (Hmax k x H). lia.
  - assert (forall p, proj_ok (db s) p ->
      proj_ok (mkDb (delete t (samples (db s))) (on_delete (clock (db s))) (projection (db s))) p) as Hkeep
      by (intros p H; eapply proj_rewritten; [exact H|cbn; lia|cbn; lia]).
    split; cbn; [|auto|done]. split; cbn; [| |auto].
    + intros k x [_ H]%lookup_delete_Some. by apply Hrows.
    + split; [lia|]. intros k x [_ H]%lookup_delete_Some. by eapply Hmax.
  - split; cbn; [done| |].
    + destruct (snd _); [|done]. intros p [->|H]%elem_of_cons; [by apply projected_ok|auto].
    + intros y t a [[= -> -> ->]|H]%elem_of_cons; [by apply read_exact|by apply Ha].
  - unfold store_projection. destruct (_ =? _); cbn; [|done]. split; cbn; [|auto|done].
    split; cbn; [done|done|]. intros q [= <-]. by apply Hp.
Qed.

End Projection.

Lemma max_opt_bound l x : x ∈ l -> exists m, max_opt l = Some m /\ x <= m.
Proof.
  unfold max_opt. intros Hx. assert (forall acc, (forall a, acc = Some a -> exists m,
    foldl (fun acc x => Some match acc with Some a => if a <=? x then x else a | None => x end) acc l = Some m /\ a <= m)
    /\ (forall y, y ∈ l -> exists m, foldl (fun acc x => Some match acc with Some a => if a <=? x then x else a | None => x end) acc l = Some m /\ y <= m)) as H.
  { clear. induction l as [|z l IH]; intros acc; cbn.
    - split; [intros a ->; exists a; split; [done|lia]|by intros y ?%not_elem_of_nil].
    - destruct (IH (Some match acc with Some a => if a <=? z then z else a | None => z end)) as [H1 H2]. split.
      + intros a ->. destruct (H1 _ eq_refl) as (m & -> & Hm). exists m. split; [done|]. destruct (Z.leb_spec a z); lia.
      + intros y [->|Hy]%elem_of_cons; [|by apply H2]. destruct (H1 _ eq_refl) as (m & -> & Hm). exists m. split; [done|].
        destruct acc as [a|]; [|done]. destruct (Z.leb_spec a z); lia. }
  by apply H.
Qed.

Lemma max_opt_elem l m : max_opt l = Some m -> m ∈ l.
Proof.
  unfold max_opt. assert (forall acc, foldl (fun acc x => Some match acc with Some a => if a <=? x then x else a | None => x end) acc l = Some m ->
    acc = Some m \/ m ∈ l) as H.
  { induction l as [|z l IH]; intros acc; cbn; [auto|]. intros [[= H]|H]%IH; [|right; by right].
    destruct acc as [a|]; [|subst; right; by left]. destruct (a <=? z); subst; [right; by left|by left]. }
  intros [|]%H; done.
Qed.

(** A database as created over existing samples. *)
Definition created (table : gmap Z ChargeRow) : System := mkSystem (mkDb table (create_clock table) None) [] [].

(** C10: the cached session list is the list. Readers that reuse the stored
    projection, resume it from the newest open session or rebuild it, interleaved
    with inserts, updates and deletes of samples and with stores that come late or
    never, always answer with the list a full rebuild of the table they read gives,
    up to what a stored summary keeps when read back ([same]). *)
Theorem charging_list_exact (local : list Z -> Z -> option (Z * Z * Z)) (is_home : Z * Z * Z -> option Z -> option Z -> bool)
    (same_context : Context -> Context -> bool)
    (reload : list ChargeSessionSummary -> option (list ChargeSessionSummary))
    (same : relation ChargeSessionSummary) (table : gmap Z ChargeRow) (s : System)
    (x : Context) (t : gmap Z ChargeRow) (answer : list ChargeSessionSummary) :
  Equivalence same ->
  (forall a b, same a b -> s_id a = s_id b /\ end_ms a = end_ms b) ->
  (forall a b, same_context a b = true -> a = b) ->
  (forall l l', reload l = Some l' -> Forall2 same l l') ->
  rows_ok table -> rtc (step local is_home same_context reload) (created table) s ->
  (x, t, answer) ∈ answered s -> Forall2 same answer (full_list local is_home x t).
Proof.
  intros Heq Hkey Hctx Hreload Hok Hrun Hin.
  assert (sys_ok local is_home same s) as [_ _ H]; [|by apply H].
  revert Hrun. apply (rtc_ind_r (fun s => sys_ok local is_home same s)).
  - split; cbn; [|by intros p ?%not_elem_of_nil|by intros ? ? ? ?%not_elem_of_nil]. split; cbn; [done| |done].
    assert (forall k r, table !! k = Some r -> exists m, max_opt (ts <$> (snd <$> map_to_list table)) = Some m /\ k <= m) as Hmax.
    { intros k r H. destruct (Hok k r H) as [<- _]. apply max_opt_bound. apply list_elem_of_fmap_2.
      apply (list_elem_of_fmap_2 snd _ (ts r, r)). by apply elem_of_map_to_list. }
    split; [|intros k r H; destruct (Hmax k r H) as (m & -> & Hm); done].
    destruct (max_opt (ts <$> (snd <$> map_to_list table))) as [m|] eqn:Em; [|cbn; lia]. cbn.
    assert (m ∈ ts <$> (snd <$> map_to_list table)) as Hm by by apply max_opt_elem.
    apply list_elem_of_fmap in Hm as (r & -> & ((k & r') & -> & Hk%elem_of_map_to_list)%list_elem_of_fmap).
    destruct (Hok _ _ Hk) as [E ?]. cbn [snd]. rewrite E. lia.
  - intros s1 s2 _ Hstep H1. by eapply step_ok.
Qed.

(** ** Rate plans *)

Definition rate_ok (r : Z) : Prop := F64.is_finite r = true /\ F64.le F64.zero r = true.

Record schedule_ok (s : RateSchedule) : Prop := {
  sch_rate_ok : rate_ok (sch_rate s);
  sch_start : 0 <= start_min s <= 1440;
  sch_end : 0 <= end_min s <= 1440;
  sch_days : StronglySorted (set_lt Z.leb) (days s) /\ Forall (fun d => 0 <= d <= 6) (days s);
  sch_months : 1 <= start_month s <= 12 /\ 1 <= end_month s <= 12;
}.

Definition plan_ok (p : TagRate) : Prop := (forall r, flat p = Some r -> rate_ok r) /\ Forall schedule_ok (schedules p).

(** The window that covers the rest of the day. *)
Definition flipped (s : RateSchedule) : RateSchedule :=
  mkSchedule (sch_rate s) (end_min s) (start_min s) (days s) (start_month s) (end_month s).

Lemma in_range_Some lo hi x y : in_range lo hi x = Some y -> y = x /\ lo <= x <= hi.
Proof.
  unfold in_range. destruct (Z.leb_spec lo x), (Z.leb_spec x hi); cbn; intros [= <-]. lia.
Qed.

Section Rates.
Context (parse_f64 : list Z -> option Z).

Lemma num_ok v r : num_from_json parse_f64 v = Some r -> rate_ok r.
Proof.
  unfold num_from_json. intros (n & _ & H)%bind_Some. destruct (_ && _) eqn:E; [|done]. injection H as <-.
  by apply andb_true_iff in E.
Qed.

Lemma minute_ok v m : parse_minute_of_day v = Some m -> 0 <= m <= 1440.
Proof.
  unfold parse_minute_of_day. destruct (as_str v) as [s|].
  - destruct (split_colon _) as [[h m']|].
    + intros (hh & _ & (mm & _ & H)%bind_Some)%bind_Some. destruct (_ && _) eqn:E; [|done]. injection H as <-.
      rewrite !andb_true_iff, !Z.leb_le, Z.ltb_lt in E. lia.
    + intros (m' & _ & [-> ?]%in_range_Some)%bind_Some. done.
  - intros (m' & _ & [-> ?]%in_range_Some)%bind_Some. done.
Qed.

Lemma month_ok v d : 1 <= d <= 12 -> 1 <= default d (parse_month v) <= 12.
Proof.
  intros Hd. destruct (parse_month v) as [m|] eqn:E; [|done]. cbn. unfold parse_month in E.
  apply bind_Some in E as (v' & _ & (m' & _ & [-> ?]%in_range_Some)%bind_Some). done.
Qed.

Lemma days_ok v : StronglySorted (set_lt Z.leb) (parse_days v) /\ Forall (fun d => 0 <= d <= 6) (parse_days v).
Proof.
  unfold parse_days. destruct (v ≫= as_array) as [arr|]; [|split; [constructor|apply Forall_nil_2]]. split.
  - apply (set_of_ascending Z.leb zleb_total zleb_trans zleb_antisym).
  - apply Forall_forall. intros d Hd. rewrite elem_of_set_of, list_elem_of_filter in Hd. apply Hd.
Qed.

Lemma schedule_parsed v s : parse_schedule parse_f64 v = Some s -> schedule_ok s.
Proof.
  unfold parse_schedule.
  intros (obj & _ & (r & (? & _ & Hr%num_ok)%bind_Some & (a & (? & _ & Ha%minute_ok)%bind_Some & (b & (? & _ & Hb%minute_ok)%bind_Some & [= <-])%bind_Some)%bind_Some)%bind_Some)%bind_Some.
  split; cbn; [done|done|done|apply days_ok|split; by apply month_ok].
Qed.

Lemma plan_parsed v : plan_ok (parse_tag_rate parse_f64 v).
Proof.
  unfold parse_tag_rate. destruct (as_object v) as [obj|].
  - split; cbn [flat schedules].
    + intros r (? & _ & H)%bind_Some. by eapply num_ok.
    + apply Forall_forall. intros s Hs. destruct (obj !! lit "schedules" ≫= as_array); cbn [fmap option_fmap option_map default] in Hs; [|by apply elem_of_nil in Hs].
      apply list_elem_of_omap in Hs as (v' & _ & H). by eapply schedule_parsed.
  - split; cbn; [|apply Forall_nil_2]. intros r H. by eapply num_ok.
Qed.

End Rates.

(** C38: rate plans read from preferences are well formed, whatever the JSON holds.
    Rates are finite and not negative, minutes lie within the day, days are
    ascending weekdays, months are months, and the currency is not empty. A window
    with distinct bounds and the window with its bounds exchanged split the day:
    exactly one of them covers each minute. *)
Theorem rates_well_formed (parse_f64 : list Z -> option Z) (prefs : gmap (list Z) Value) :
  let rates := load_rates parse_f64 prefs in
  rc_currency rates <> [] /\ (forall r, default_rate rates = Some r -> rate_ok r)
  /\ map_Forall (fun _ p => plan_ok p) (rc_tags rates)
  /\ map_Forall (fun _ p => Forall (fun s => start_min s <> end_min s ->
       forall minute, covers_time s minute = negb (covers_time (flipped s) minute)) (schedules p)) (rc_tags rates).
Proof.
  cbv zeta. split_and!.
  - cbn [load_rates rc_currency]. destruct (_ <$> _) as [s|]; [|done]. destruct (is_empty s) eqn:E; [done|]. by destruct s.
  - intros r (? & _ & H)%bind_Some. by eapply num_ok.
  - intros k p. cbn [load_rates rc_tags]. destruct (prefs !! lit "charging_tag_rates" ≫= as_object) as [m|].
    + change (((parse_tag_rate parse_f64 <$> m) !! k = Some p) -> plan_ok p). rewrite lookup_fmap.
      intros (v & _ & ->)%fmap_Some. apply plan_parsed.
    + change (((∅ : gmap (list Z) TagRate) !! k = Some p) -> plan_ok p). by rewrite lookup_empty.
  - intros k p _. apply Forall_forall. intros s _ Hne minute. unfold covers_time, flipped. cbn.
    destruct (Z.eqb_spec (start_min s) (end_min s)), (Z.eqb_spec (end_min s) (start_min s)),
      (Z.ltb_spec (start_min s) (end_min s)), (Z.ltb_spec (end_min s) (start_min s)),
      (Z.leb_spec (start_min s) minute), (Z.ltb_spec minute (end_min s)),
      (Z.leb_spec (end_min s) minute), (Z.ltb_spec minute (start_min s)); cbn; (done || lia).
Qed.

(** ** A concrete run *)

#[export] Instance schedule_eq_dec : EqDecision RateSchedule.
Proof. solve_decision. Defined.
#[export] Instance tag_rate_eq_dec : EqDecision TagRate.
Proof. solve_decision. Defined.
#[export] Instance rates_eq_dec : EqDecision RateConfig.
Proof. solve_decision. Defined.
#[export] Instance context_eq_dec : EqDecision Context.
Proof. solve_decision. Defined.

Definition demo_context : Context := mkContext (mkRates (lit "$") (Some (F64.dec 2 1)) ∅) None ∅ ∅ [].
Definition demo_local (zone : list Z) (t : Z) : option (Z * Z * Z) := Some ((t / 60) mod 1440, 0, 1).
Definition demo_home (h : Z * Z * Z) (la lo : option Z) : bool := false.
Definition demo_same (a b : Context) : bool := bool_decide (a = b).
Notation demo_read := (read_list demo_local demo_home demo_same Some demo_context).

(** A list is read and stored, a row is appended, and the list is read again. *)
Definition demo_s0 : System := created demo_table.
Definition demo_p : Projection := projected demo_local demo_home demo_same Some demo_context (db demo_s0).
Definition demo_s1 : System :=
  mkSystem (db demo_s0) [demo_p] [(demo_context, demo_table, fst (demo_read (db demo_s0)))].
Definition demo_s2 : System := mkSystem (store_projection demo_p (db demo_s1)) (pending demo_s1) (answered demo_s1).
Definition demo_s3 : System :=
  mkSystem (mkDb (<[4060 := demo_row 4060]> demo_table) (on_insert 4060 (clock (db demo_s2))) (projection (db demo_s2)))
    (pending demo_s2) (answered demo_s2).
Definition demo_s4 : System :=
  mkSystem (db demo_s3) (projected demo_local demo_home demo_same Some demo_context (db demo_s3) :: pending demo_s3)
    ((demo_context, samples (db demo_s3), fst (demo_read (db demo_s3))) :: answered demo_s3).

Lemma demo_run : rtc (step demo_local demo_home demo_same Some) demo_s0 demo_s4.
Proof.
  eapply rtc_l; [exact (step_read demo_local demo_home demo_same Some demo_s0 demo_context)|].
  eapply rtc_l; [apply (step_store demo_local demo_home demo_same Some demo_s1 demo_p); by left|].
  eapply rtc_l; [apply (step_insert demo_local demo_home demo_same Some demo_s2 (demo_row 4060)); [reflexivity|cbn; lia]|].
  eapply rtc_l; [|apply rtc_refl].
  exact (step_read demo_local demo_home demo_same Some demo_s3 demo_context).
Qed.

Lemma charging_list_exact_witness :
  s_id <$> fst (demo_read (db demo_s3)) = [4000; 1000]
  /\ Forall2 eq (fst (demo_read (db demo_s3))) (full_list demo_local demo_home demo_context (samples (db demo_s3))).
Proof.
  split; [vm_compute; reflexivity|].
  apply (charging_list_exact demo_local demo_home demo_same Some eq demo_table demo_s4 demo_context (samples (db demo_s3))
    (fst (demo_read (db demo_s3)))).
  - apply eq_equivalence.
  - by intros a b ->.
  - intros a b H. by apply bool_decide_eq_true in H.
  - intros l l' [= <-]. induction l; by constructor.
  - exact demo_table_ok.
  - exact demo_run.
  - by left.
Defined.
