(* ===== verification/CloudCrypto.v ===== *)
(** * Cloud cryptography framing: [cloud_crypto/src/{aad,blob,aead,ids,kdf,credentials}.rs]
      and the envelopes of [cloud_uploader/src/encrypt.rs]

    The associated data of every sealed slot, the sealed-blob frame, sealing
    and opening, the device serial, the key wraps of the credentials file and
    the four envelopes of a charge upload. AES-GCM, HKDF, SHA-256, base64 and
    the JSON serialiser are libraries: they are the operations of the classes
    below, with what the code relies on as laws. *)

From Stdlib Require Import ZArith Lia.
From stdpp Require Import base list.
From S2P Require Import Prelude Bytes Str.

Open Scope Z_scope.

Module CloudCrypto.

(** ** Errors: [errors.rs] *)

Inductive CryptoError :=
| BlobTooShort (len min : nat)
| UnknownBlobVersion (v : Z)
| SealFailed | OpenFailed | HkdfFailed | X25519Failed
| InvalidKeyLength (expected actual : nat)
| CryptoBase64Decode.

Inductive CredentialsError :=
| CredIo | CredParse
| Crypto (e : CryptoError)
| Base64Decode
| UnsupportedVersion (v : Z)
| SerialMissing
| SerialTooShort (len : nat).

(** [?] through [From<CryptoError>]. *)
Definition crypto {A} (r : result CryptoError A) : result CredentialsError A :=
  match r with Ok a => Ok a | Err e => Err (Crypto e) end.

(** ** Associated data: [aad.rs] *)

Definition concat (parts : list (list Z)) : list Z := List.concat parts.

(** [lp]; [None] is the panic of its [assert!]. *)
Definition lp (bytes : list Z) : option (list Z) :=
  if (Z.of_nat (length bytes) <=? 65535)
  then Some (to_be_bytes 2 (Z.of_nat (length bytes)) ++ bytes)
  else None.

Definition STR_WRAP_PWD := lit "sentrycloud-wrap-pwd-v1".
Definition STR_WRAP_REC := lit "sentrycloud-wrap-rec-v1".
Definition STR_WRAP_PASSKEY := lit "sentrycloud-wrap-passkey-v2".
Definition STR_ROUTE := lit "sentrycloud-route-v2".
Definition STR_ROUTEKEY := lit "sentrycloud-routekey-v2".
Definition STR_PAIR := lit "sentrycloud-pair-v1".
Definition STR_PI_LOCAL := lit "sentrycloud-pi-local-v1".
Definition STR_PI_LOCAL_X25519 := lit "sentrycloud-pi-local-x25519-v1".
Definition STR_REKEY := lit "sentrycloud-rekey-v2".
Definition STR_ROUTE_TAGS := lit "sentrycloud-route-tags-v1".
Definition STR_ROUTE_SUMMARY := lit "sentrycloud-route-summary-v1".
Definition STR_CHARGE := lit "sentrycloud-charge-v1".
Definition STR_CHARGEKEY := lit "sentrycloud-chargekey-v1".
Definition STR_CHARGE_SUMMARY := lit "sentrycloud-charge-summary-v1".
Definition STR_CHARGE_MUTABLE := lit "sentrycloud-charge-mutable-v1".
Definition STR_RATE_CONFIG := lit "sentrycloud-rate-config-v1".

Definition wrapped_dek_password (user_id : list Z) : list Z := concat [STR_WRAP_PWD; user_id].

Definition wrapped_dek_recovery (user_id : list Z) : list Z := concat [STR_WRAP_REC; user_id].

Definition wrapped_dek_passkey (user_id credential_id : list Z) : option (list Z) :=
  cred_lp ← lp credential_id; Some (concat [STR_WRAP_PASSKEY; user_id; cred_lp]).

Definition route_blob (user_id uploaded_from_pi route_id : list Z) : option (list Z) :=
  pi_lp ← lp uploaded_from_pi; route_lp ← lp route_id;
  Some (concat [STR_ROUTE; user_id; pi_lp; route_lp]).

Definition route_key (user_id uploaded_from_pi route_id : list Z) : option (list Z) :=
  pi_lp ← lp uploaded_from_pi; route_lp ← lp route_id;
  Some (concat [STR_ROUTEKEY; user_id; pi_lp; route_lp]).

Definition pair (user_id pi_id : list Z) : list Z := concat [STR_PAIR; user_id; pi_id].

Definition pi_local (pi_id : list Z) : list Z := concat [STR_PI_LOCAL; pi_id].

Definition pi_local_x25519 (pi_id : list Z) : list Z := concat [STR_PI_LOCAL_X25519; pi_id].

Definition rekey (user_id pi_id : list Z) (new_generation : Z) : option (list Z) :=
  pi_lp ← lp pi_id;
  Some (concat [STR_REKEY; user_id; pi_lp; to_be_bytes 4 new_generation]).

Definition route_tags (user_id uploaded_from_pi route_id : list Z) : option (list Z) :=
  pi_lp ← lp uploaded_from_pi; route_lp ← lp route_id;
  Some (concat [STR_ROUTE_TAGS; user_id; pi_lp; route_lp]).

Definition route_summary (user_id uploaded_from_pi route_id : list Z) : option (list Z) :=
  pi_lp ← lp uploaded_from_pi; route_lp ← lp route_id;
  Some (concat [STR_ROUTE_SUMMARY; user_id; pi_lp; route_lp]).

Definition charge_blob (user_id uploaded_from_pi charge_id : list Z) : option (list Z) :=
  pi_lp ← lp uploaded_from_pi; charge_lp ← lp charge_id;
  Some (concat [STR_CHARGE; user_id; pi_lp; charge_lp]).

Definition charge_key (user_id uploaded_from_pi charge_id : list Z) : option (list Z) :=
  pi_lp ← lp uploaded_from_pi; charge_lp ← lp charge_id;
  Some (concat [STR_CHARGEKEY; user_id; pi_lp; charge_lp]).

Definition charge_summary (user_id uploaded_from_pi charge_id : list Z) : option (list Z) :=
  pi_lp ← lp uploaded_from_pi; charge_lp ← lp charge_id;
  Some (concat [STR_CHARGE_SUMMARY; user_id; pi_lp; charge_lp]).

Definition charge_mutable (user_id uploaded_from_pi charge_id : list Z) : option (list Z) :=
  pi_lp ← lp uploaded_from_pi; charge_lp ← lp charge_id;
  Some (concat [STR_CHARGE_MUTABLE; user_id; pi_lp; charge_lp]).

Definition rate_config (user_id pi_id : list Z) : option (list Z) :=
  pi_lp ← lp pi_id; Some (concat [STR_RATE_CONFIG; user_id; pi_lp]).

(** ** The sealed-blob frame: [blob.rs] *)

Definition VERSION : Z := 1.
Definition NONCE_LEN : nat := 12.
Definition TAG_LEN : nat := 16.
Definition KEY_LEN : nat := 32.
Definition WRAPPED_KEY_BLOB_LEN : nat := (1 + NONCE_LEN + TAG_LEN + KEY_LEN)%nat.
Definition MIN_BLOB_LEN : nat := (1 + NONCE_LEN + TAG_LEN)%nat.

Record BlobParts := { nonce : list Z; tag : list Z; ciphertext : list Z }.

Definition pack (nonce tag ciphertext : list Z) : list Z := [VERSION] ++ nonce ++ tag ++ ciphertext.

Definition unpack (buf : list Z) : result CryptoError BlobParts :=
  if (length buf <? MIN_BLOB_LEN)%nat then Err (BlobTooShort (length buf) MIN_BLOB_LEN)
  else let version := default 0 (buf !! 0%nat) in
       if negb (version =? VERSION) then Err (UnknownBlobVersion version)
       else Ok {| nonce := slice buf 1 (1 + NONCE_LEN);
                  tag := slice buf (1 + NONCE_LEN) (1 + NONCE_LEN + TAG_LEN);
                  ciphertext := drop (1 + NONCE_LEN + TAG_LEN) buf |}.

(** ** The libraries *)

(** [ring]'s AES-256-GCM: sealing gives a ciphertext and a tag, opening takes
    the ciphertext followed by the tag. *)
Class Aead := {
  raw_seal : list Z -> list Z -> list Z -> list Z -> option (list Z * list Z);
  raw_open : list Z -> list Z -> list Z -> list Z -> option (list Z)
}.

(** GCM is a deterministic stream mode: the ciphertext has the plaintext's
    length, the tag 16 bytes; opening recomputes the tag, so it accepts what
    sealing produces and nothing else. *)
Class AeadLaws `{!Aead} := {
  seal_open k n a p c t : raw_seal k n a p = Some (c, t) -> raw_open k n a (c ++ t) = Some p;
  seal_length k n a p c t : raw_seal k n a p = Some (c, t) -> length c = length p /\ length t = TAG_LEN;
  open_sealed k n a x p : raw_open k n a x = Some p -> exists c t, x = c ++ t /\ raw_seal k n a p = Some (c, t)
}.

(** The standard base64 engine. *)
Class Base64 := { b64_encode : list Z -> list Z; b64_decode : list Z -> option (list Z) }.
Class Base64Laws `{!Base64} := { b64_round x : b64_decode (b64_encode x) = Some x }.

(** HKDF-SHA256 and SHA-256. *)
Class Hashes := {
  hkdf_32 : list Z -> list Z -> list Z -> option (list Z);
  sha256 : list Z -> list Z
}.

Section crypto.
Context `{!Aead, !Base64, !Hashes}.

(** ** Sealing and opening: [aead.rs] *)

Definition from_bytes (bytes : list Z) : result CryptoError (list Z) :=
  if (length bytes =? KEY_LEN)%nat then Ok bytes else Err (InvalidKeyLength KEY_LEN (length bytes)).

Definition seal_with_nonce (key nonce_bytes aad plaintext : list Z) : result CryptoError (list Z) :=
  let? (in_out, tag) := ok_or (raw_seal key nonce_bytes aad plaintext) SealFailed in
  if (length tag =? TAG_LEN)%nat then Ok (pack nonce_bytes tag in_out) else Err SealFailed.

(** [seal]; [fill] is what the random generator answers. *)
Definition seal (fill : option (list Z)) (key aad plaintext : list Z) : result CryptoError (list Z) :=
  let? nonce_bytes := ok_or fill SealFailed in
  seal_with_nonce key nonce_bytes aad plaintext.

Definition open (key aad packed : list Z) : result CryptoError (list Z) :=
  let? parts := unpack packed in
  let combined := ciphertext parts ++ tag parts in
  if negb (length (nonce parts) =? NONCE_LEN)%nat then Err OpenFailed
  else ok_or (raw_open key (nonce parts) aad combined) OpenFailed.

(** ** Identifiers and the device secret: [ids.rs], [kdf.rs] *)

Definition hex_digit (d : Z) : Z := if d <? 10 then 48 + d else 87 + d.
Definition hex_encode (bytes : list Z) : list Z :=
  List.concat (map (fun b => [hex_digit (b / 16); hex_digit (b mod 16)]) bytes).

Definition route_id_from_path (file_path : list Z) : list Z := hex_encode (sha256 file_path).

Definition charge_id_from_start_ts (start_ts : Z) : list Z :=
  hex_encode (sha256 (lit "charge:" ++ print_i64 start_ts)).

Definition serial_junk (b : Z) : bool := (b =? 0) || (b =? 10) || (b =? 13) || (b =? 32) || (b =? 9).

(** [read_serial_number]; [raw] is what reading the device-tree node answers. *)
Definition read_serial_number (raw : option (list Z)) : result CredentialsError (list Z) :=
  let? raw := ok_or raw SerialMissing in
  let trimmed := List.filter (fun b => negb (serial_junk b)) raw in
  if (length trimmed <? 8)%nat then Err (SerialTooShort (length trimmed)) else Ok trimmed.

Definition derive_32 (ikm salt info : list Z) : result CryptoError (list Z) :=
  ok_or (hkdf_32 ikm salt info) HkdfFailed.

Definition PI_LOCAL_WRAP_SALT := lit "SENTRYCLOUD_DEK_WRAP_v1".
Definition PI_LOCAL_WRAP_INFO := lit "pi-key-at-rest".

Definition derive_pi_local_wrap_key (serial : list Z) : result CredentialsError (list Z) :=
  crypto (derive_32 serial PI_LOCAL_WRAP_SALT PI_LOCAL_WRAP_INFO).

(** ** Keys at rest: [credentials.rs] *)

(** [try_into] to a 32-byte array. *)
Definition to_key (out : list Z) : result CredentialsError (list Z) :=
  if (length out =? 32)%nat then Ok out else Err (Crypto (InvalidKeyLength 32 (length out))).

Definition wrap_pi_key_local (fill : option (list Z)) (local_wrap_key pi_key pi_id : list Z)
    : result CredentialsError (list Z) :=
  let? key := crypto (from_bytes local_wrap_key) in
  let aad := pi_local pi_id in
  let? blob := crypto (seal fill key aad pi_key) in
  Ok (b64_encode blob).

Definition unwrap_pi_key_local (local_wrap_key wrapped_b64 pi_id : list Z) : result CredentialsError (list Z) :=
  let? blob := ok_or (b64_decode wrapped_b64) Base64Decode in
  let? key := crypto (from_bytes local_wrap_key) in
  let aad := pi_local pi_id in
  let? out := crypto (open key aad blob) in
  to_key out.

Definition wrap_long_term_privkey (fill : option (list Z)) (local_wrap_key seed pi_id : list Z)
    : result CredentialsError (list Z) :=
  let? key := crypto (from_bytes local_wrap_key) in
  let aad := pi_local_x25519 pi_id in
  let? blob := crypto (seal fill key aad seed) in
  Ok (b64_encode blob).

Definition unwrap_long_term_privkey (local_wrap_key wrapped_b64 pi_id : list Z)
    : result CredentialsError (list Z) :=
  let? blob := ok_or (b64_decode wrapped_b64) Base64Decode in
  let? key := crypto (from_bytes local_wrap_key) in
  let aad := pi_local_x25519 pi_id in
  let? out := crypto (open key aad blob) in
  to_key out.

Record LongTermX25519OnDisk := { public_key : list Z; wrapped_private_key : list Z }.

Record CloudCredentialsV1 := {
  version : Z;
  user_id : list Z;
  pi_id : list Z;
  pi_auth_token : list Z;
  wrapped_pi_key_local : list Z;
  long_term_x25519 : LongTermX25519OnDisk;
  cloud_base_url : list Z;
  paired_at : Z;
  dek_rotation_generation : Z
}.

(** [build_v1]; the long-term key pair is its seed and public bytes, [fill1]
    and [fill2] the two nonces. *)
Definition build_v1 (fill1 fill2 : option (list Z)) (user_id pi_id pi_auth_token pi_key seed public_bytes
    local_wrap_key cloud_base_url : list Z) (paired_at dek_rotation_generation : Z)
    : result CredentialsError CloudCredentialsV1 :=
  let? wrapped_pi_key_local := wrap_pi_key_local fill1 local_wrap_key pi_key pi_id in
  let lt_seed := seed in
  let? wrapped_lt := wrap_long_term_privkey fill2 local_wrap_key lt_seed pi_id in
  Ok {| version := 1; user_id := user_id; pi_id := pi_id; pi_auth_token := b64_encode pi_auth_token;
        wrapped_pi_key_local := wrapped_pi_key_local;
        long_term_x25519 := {| public_key := b64_encode public_bytes; wrapped_private_key := wrapped_lt |};
        cloud_base_url := cloud_base_url; paired_at := paired_at;
        dek_rotation_generation := dek_rotation_generation |}.

(** ** Content envelopes: [encrypt.rs] of the uploader *)

Inductive SealError :=
| SCrypto (e : CryptoError) | SBase64 | SJson | SRng | SKeyLength | SPanic.

Definition sealing {A} (r : result CryptoError A) : result SealError A :=
  match r with Ok a => Ok a | Err e => Err (SCrypto e) end.

Definition unwrap_content_key (pi_key wrapped_b64 wrap_aad : list Z) : result SealError (list Z) :=
  let? wrapped := ok_or (b64_decode wrapped_b64) SBase64 in
  let? pi_key_obj := sealing (from_bytes pi_key) in
  let? raw := sealing (open pi_key_obj wrap_aad wrapped) in
  if (length raw =? 32)%nat then Ok raw else Err SKeyLength.

(** [seal_json_b64] and [open_json_b64]; [to_vec] and [from_slice] are the
    serialiser of the type. *)
Definition seal_json_b64 {T} (to_vec : T -> option (list Z)) (fill : option (list Z))
    (key_bytes aad_bytes : list Z) (value : T) : result SealError (list Z) :=
  let? key := sealing (from_bytes key_bytes) in
  let? json := ok_or (to_vec value) SJson in
  let? ct := sealing (seal fill key aad_bytes json) in
  Ok (b64_encode ct).

Definition open_json_b64 {T} (from_slice : list Z -> option T) (key_bytes aad_bytes ct_b64 : list Z)
    : result SealError T :=
  let? key := sealing (from_bytes key_bytes) in
  let? ct := ok_or (b64_decode ct_b64) SBase64 in
  let? plain := sealing (open key aad_bytes ct) in
  ok_or (from_slice plain) SJson.

Record EncryptedCharge := {
  charge_id : list Z;
  charge_blob_b64 : list Z;
  wrapped_charge_key_b64 : list Z;
  summary_ciphertext_b64 : list Z;
  mutable_ciphertext_b64 : option (list Z)
}.

(** [encrypt_charge]; the three JSON bodies come serialised, [fills] are the
    answers of the random generator in the order of the calls: the content
    key, then a nonce per seal. *)
Definition encrypt_charge (fill_key fill_blob fill_summary fill_mutable fill_wrap : option (list Z))
    (start_ts : Z) (blob_json summary_json : option (list Z)) (mutable : option (option (list Z)))
    (pi_key user_id pi_id : list Z) : result SealError EncryptedCharge :=
  let charge_id := charge_id_from_start_ts start_ts in
  let? charge_key_bytes := ok_or fill_key SRng in
  let? ck := sealing (from_bytes charge_key_bytes) in
  let? blob_json := ok_or blob_json SJson in
  let? blob_aad := ok_or (charge_blob user_id pi_id charge_id) SPanic in
  let? blob_ct := sealing (seal fill_blob ck blob_aad blob_json) in
  let? summary_json := ok_or summary_json SJson in
  let? summary_aad := ok_or (charge_summary user_id pi_id charge_id) SPanic in
  let? summary_ct := sealing (seal fill_summary ck summary_aad summary_json) in
  let? mutable_ct :=
    match mutable with
    | Some m =>
        let? json := ok_or m SJson in
        let? aad := ok_or (charge_mutable user_id pi_id charge_id) SPanic in
        let? ct := sealing (seal fill_mutable ck aad json) in
        Ok (Some ct)
    | None => Ok None
    end in
  let? pi_key_obj := sealing (from_bytes pi_key) in
  let? wrap_aad := ok_or (charge_key user_id pi_id charge_id) SPanic in
  let? wrapped := sealing (seal fill_wrap pi_key_obj wrap_aad charge_key_bytes) in
  Ok {| charge_id := charge_id; charge_blob_b64 := b64_encode blob_ct;
        wrapped_charge_key_b64 := b64_encode wrapped;
        summary_ciphertext_b64 := b64_encode summary_ct;
        mutable_ciphertext_b64 := b64_encode <$> mutable_ct |}.

End crypto.

End CloudCrypto.
