(* ===== verification/CloudCryptoSpec.v ===== *)
(** * Cloud cryptography framing: theorems

    Associated data names its slot; a blob opens exactly when it is a seal of
    the same key and associated data; wrapped keys and charge envelopes come
    back as they went in. *)

From Stdlib Require Import ZArith Lia.
From stdpp Require Import base list.
From S2P Require Import Prelude Bytes Str CloudCrypto.

Import CloudCrypto.
Open Scope Z_scope.

(** ** Associated data *)

(** Everything that is ever sealed, with the values its associated data binds. *)
Inductive Slot :=
| SWrapPwd (u : list Z) | SWrapRec (u : list Z) | SWrapPasskey (u c : list Z)
| SRoute (u p r : list Z) | SRouteKey (u p r : list Z) | SPair (u p : list Z)
| SPiLocal (p : list Z) | SPiLocalX (p : list Z) | SRekey (u p : list Z) (g : Z)
| SRouteTags (u p r : list Z) | SRouteSummary (u p r : list Z)
| SCharge (u p c : list Z) | SChargeKey (u p c : list Z) | SChargeSummary (u p c : list Z)
| SChargeMutable (u p c : list Z) | SRateConfig (u p : list Z).

Definition aad_of (s : Slot) : option (list Z) :=
  match s with
  | SWrapPwd u => Some (wrapped_dek_password u)
  | SWrapRec u => Some (wrapped_dek_recovery u)
  | SWrapPasskey u c => wrapped_dek_passkey u c
  | SRoute u p r => route_blob u p r
  | SRouteKey u p r => route_key u p r
  | SPair u p => Some (pair u p)
  | SPiLocal p => Some (pi_local p)
  | SPiLocalX p => Some (pi_local_x25519 p)
  | SRekey u p g => rekey u p g
  | SRouteTags u p r => route_tags u p r
  | SRouteSummary u p r => route_summary u p r
  | SCharge u p c => charge_blob u p c
  | SChargeKey u p c => charge_key u p c
  | SChargeSummary u p c => charge_summary u p c
  | SChargeMutable u p c => charge_mutable u p c
  | SRateConfig u p => rate_config u p
  end.

(** The identifiers the service hands out: a user id is text, a device or
    credential id is shorter than 256 bytes, a generation fits its width. *)
Definition text (u : list Z) : Prop := Forall (fun b => b <> 0) u.
Definition short (p : list Z) : Prop := (length p < 256)%nat.

Definition slot_ok (s : Slot) : Prop :=
  match s with
  | SWrapPwd u | SWrapRec u => text u
  | SWrapPasskey u c => text u /\ short c
  | SRoute u p _ | SRouteKey u p _ | SRouteTags u p _ | SRouteSummary u p _
  | SCharge u p _ | SChargeKey u p _ | SChargeSummary u p _ | SChargeMutable u p _
  | SRateConfig u p | SPair u p => text u /\ short p
  | SRekey u p g => text u /\ short p /\ 0 <= g < 2 ^ 32
  | SPiLocal _ | SPiLocalX _ => True
  end.

(** The domain string of a slot and what follows it. *)
Definition domain (s : Slot) : nat :=
  match s with
  | SWrapPwd _ => 0 | SWrapRec _ => 1 | SWrapPasskey _ _ => 2 | SRoute _ _ _ => 3
  | SRouteKey _ _ _ => 4 | SPair _ _ => 5 | SPiLocal _ => 6 | SPiLocalX _ => 7
  | SRekey _ _ _ => 8 | SRouteTags _ _ _ => 9 | SRouteSummary _ _ _ => 10
  | SCharge _ _ _ => 11 | SChargeKey _ _ _ => 12 | SChargeSummary _ _ _ => 13
  | SChargeMutable _ _ _ => 14 | SRateConfig _ _ => 15
  end%nat.

Definition domains : list (list Z) :=
  [STR_WRAP_PWD; STR_WRAP_REC; STR_WRAP_PASSKEY; STR_ROUTE; STR_ROUTEKEY; STR_PAIR; STR_PI_LOCAL;
   STR_PI_LOCAL_X25519; STR_REKEY; STR_ROUTE_TAGS; STR_ROUTE_SUMMARY; STR_CHARGE; STR_CHARGEKEY;
   STR_CHARGE_SUMMARY; STR_CHARGE_MUTABLE; STR_RATE_CONFIG].

Definition tail2 (u a : list Z) : option (list Z) := x ← lp a; Some (u ++ x).
Definition tail3 (u a b : list Z) : option (list Z) := x ← lp a; y ← lp b; Some (u ++ x ++ y).

Definition slot_tail (s : Slot) : option (list Z) :=
  match s with
  | SWrapPwd u | SWrapRec u => Some u
  | SWrapPasskey u c => tail2 u c
  | SRateConfig u p => tail2 u p
  | SPair u p => Some (u ++ p)
  | SPiLocal p | SPiLocalX p => Some p
  | SRekey u p g => x ← lp p; Some (u ++ x ++ to_be_bytes 4 g)
  | SRoute u p r | SRouteKey u p r | SRouteTags u p r | SRouteSummary u p r
  | SCharge u p r | SChargeKey u p r | SChargeSummary u p r | SChargeMutable u p r => tail3 u p r
  end.

Lemma aad_of_split s b : aad_of s = Some b ->
  exists d t, domains !! domain s = Some d /\ slot_tail s = Some t /\ b = d ++ t.
Proof.
  destruct s; cbn [aad_of domain slot_tail]; unfold wrapped_dek_password, wrapped_dek_recovery, wrapped_dek_passkey,
    route_blob, route_key, pair, pi_local, pi_local_x25519, rekey, route_tags, route_summary, charge_blob,
    charge_key, charge_summary, charge_mutable, rate_config, tail2, tail3;
    repeat match goal with |- context [lp ?a] => destruct (lp a); cbn [mbind option_bind]; [|done] end;
    intros Hb; injection Hb as <-; eexists _, _; (split; [reflexivity|]); (split; [reflexivity|]);
    unfold concat; cbn [List.concat]; by rewrite ?app_nil_r, <- ?app_assoc.
Qed.

Lemma app_prefix (a b x y : list Z) : a ++ x = b ++ y -> starts_with a b = true \/ starts_with b a = true.
Proof.
  intros E. apply app_eq_app in E as (l & [[-> _]|[-> _]]); [left|right];
    apply starts_with_spec; by eexists.
Qed.

(** No domain string is a prefix of another. *)
Lemma domains_prefix_free i j d e : domains !! i = Some d -> domains !! j = Some e ->
  starts_with d e = true -> i = j.
Proof.
  intros Hi Hj Hs.
  assert (forallb (fun i => forallb (fun j => negb (starts_with (nth i domains []) (nth j domains [])) || (i =? j)%nat)
            (seq 0 16)) (seq 0 16) = true) as H by (vm_compute; reflexivity).
  rewrite forallb_forall in H.
  assert (forall k f, domains !! k = Some f -> In k (seq 0 16) /\ nth k domains [] = f) as Hk.
  { intros k f Hf. pose proof (lookup_lt_Some _ _ _ Hf) as L. change (length domains) with 16%nat in L.
    split; [apply in_seq; lia|]. by apply nth_lookup_Some with (d := []) in Hf. }
  destruct (Hk i d Hi) as [Li Ni], (Hk j e Hj) as [Lj Nj].
  specialize (H i Li). rewrite forallb_forall in H. specialize (H j Lj). rewrite Ni, Nj, Hs in H.
  by apply Nat.eqb_eq in H.
Qed.

Lemma lp_Some a x : lp a = Some x -> x = to_be_bytes 2 (Z.of_nat (length a)) ++ a /\ Z.of_nat (length a) <= 65535.
Proof. unfold lp. destruct (Z.leb_spec (Z.of_nat (length a)) 65535); [|done]. intros [= <-]. split; [done|lia]. Qed.

(** A length-prefixed field is read back from the front of any text. *)
Lemma lp_app_inj a b x y s t : lp a = Some x -> lp b = Some y -> x ++ s = y ++ t -> a = b /\ s = t.
Proof.
  intros [-> Ha]%lp_Some [-> Hb]%lp_Some E. rewrite <- !app_assoc in E.
  apply app_inj_1 in E as [El E]; [|by rewrite !length_be].
  apply (f_equal be_val) in El. rewrite !be_val_bytes in El by (cbn; lia).
  apply app_inj_1 in E as [-> ->]; [done|lia].
Qed.

(** A short field starts with a zero byte, which ends the text before it. *)
Lemma lp_short a x : short a -> lp a = Some x -> exists r, x = 0 :: r.
Proof.
  intros Hs [-> _]%lp_Some. unfold short in Hs. unfold to_be_bytes.
  set (z := Z.of_nat (length a)).
  change (le_bytes 2 z) with [z mod 256; z / 256 mod 256]. unfold z. rewrite Z.div_small by lia. by eexists.
Qed.

Lemma text_app_inj u v r s : text u -> text v -> u ++ 0 :: r = v ++ 0 :: s -> u = v /\ r = s.
Proof.
  intros Hu. revert v. induction Hu as [|a u Ha Hu IH]; intros v Hv; destruct Hv as [|b v Hb Hv]; cbn.
  - by intros [= ->].
  - intros [= <- _]. done.
  - by intros [= -> _].
  - intros [= <- E]. apply IH in E as [-> ->]; done.
Qed.

Lemma text_lp_inj u v a b x y s t : text u -> text v -> short a -> short b -> lp a = Some x -> lp b = Some y ->
  u ++ x ++ s = v ++ y ++ t -> u = v /\ a = b /\ s = t.
Proof.
  intros Hu Hv Sa Sb Ea Eb E.
  destruct (lp_short a x Sa Ea) as [r Er], (lp_short b y Sb Eb) as [r' Er'].
  pose proof E as E'. rewrite Er, Er' in E'. cbn [app] in E'. apply text_app_inj in E' as [-> _]; [|done..].
  apply app_inv_head in E. destruct (lp_app_inj a b x y s t Ea Eb E) as [-> ->]. done.
Qed.

Lemma tail2_inj u a v b t : text u -> short a -> text v -> short b ->
  tail2 u a = Some t -> tail2 v b = Some t -> u = v /\ a = b.
Proof.
  unfold tail2. intros Hu Ha Hv Hb. destruct (lp a) as [x|] eqn:Ea, (lp b) as [y|] eqn:Eb; cbn; try done.
  intros [= <-] [= E]. edestruct (text_lp_inj u v a b x y [] []) as (-> & -> & _); try done.
  by rewrite !app_nil_r.
Qed.

Lemma tail3_inj u a c v b d t : text u -> short a -> text v -> short b ->
  tail3 u a c = Some t -> tail3 v b d = Some t -> u = v /\ a = b /\ c = d.
Proof.
  unfold tail3. intros Hu Ha Hv Hb.
  destruct (lp a) as [x|] eqn:Ea; [cbn|done]. destruct (lp c) as [z|] eqn:Ec; [cbn|done].
  destruct (lp b) as [y|] eqn:Eb; [cbn|done]. destruct (lp d) as [w|] eqn:Ed; [cbn|done].
  intros [= <-] [= E]. edestruct (text_lp_inj u v a b x y z w) as (-> & -> & ->); try done.
  destruct (lp_app_inj c d w w [] [] Ec Ed eq_refl) as [-> _]. done.
Qed.

Lemma be_inj n a b : 0 <= a < 256 ^ Z.of_nat n -> 0 <= b < 256 ^ Z.of_nat n ->
  to_be_bytes n a = to_be_bytes n b -> a = b.
Proof. intros Ha Hb E. apply (f_equal be_val) in E. by rewrite !be_val_bytes in E. Qed.

(** Associated data identifies the slot it seals: over the sixteen kinds
    of sealed value, two slots with well-formed identifiers have the same
    associated data only if they are the same slot (same kind, user, device,
    record and generation). The one exception is the pairing exchange, whose
    two identifiers are concatenated without a length. *)
Theorem aad_identifies_slot s s' b :
  slot_ok s -> slot_ok s' -> aad_of s = Some b -> aad_of s' = Some b ->
  s = s' \/ exists u p u' p', s = SPair u p /\ s' = SPair u' p' /\ u ++ p = u' ++ p'.
Proof.
  intros Hs Hs' (d & t & Hd & Ht & ->)%aad_of_split (d' & t' & Hd' & Ht' & E)%aad_of_split.
  assert (domain s = domain s') as Ek.
  { destruct (app_prefix d d' t t' E) as [H|H]; [|symmetry]; by eapply domains_prefix_free. }
  rewrite Ek, Hd' in Hd. injection Hd as ->. apply app_inv_head in E as ->.
  destruct s, s'; try discriminate Ek; cbn in Hs, Hs', Ht, Ht'; try (left; congruence);
    try (destruct Hs as [Hu Hp], Hs' as [Hu' Hp']);
    try (left; edestruct tail3_inj as (-> & -> & ->); [..|done]; eassumption);
    try (left; edestruct tail2_inj as (-> & ->); [..|done]; eassumption).
  - right. do 4 eexists. split; [done|]. split; [done|]. congruence.
  - left. destruct Hp as [Hp Hg], Hp' as [Hp' Hg'].
    destruct (lp p) as [x|] eqn:Ex, (lp p0) as [y|] eqn:Ey; cbn in Ht, Ht'; try done.
    injection Ht as <-. injection Ht' as E.
    edestruct (text_lp_inj u u0 p p0 x y) as (-> & -> & Eg); try done. by apply be_inj in Eg as ->.
Qed.

Definition aad_witness_slot : Slot := SRoute (lit "u") (lit "pi") (lit "r").

Lemma aad_identifies_slot_witness :
  aad_witness_slot = aad_witness_slot \/
  exists u p u' p', aad_witness_slot = SPair u p /\ aad_witness_slot = SPair u' p' /\ u ++ p = u' ++ p'.
Proof.
  assert (slot_ok aad_witness_slot) as H.
  { split; [repeat constructor; discriminate|]. vm_compute. lia. }
  assert (exists b, aad_of aad_witness_slot = Some b) as [b Hb] by (eexists; vm_compute; reflexivity).
  exact (aad_identifies_slot _ _ b H H Hb Hb).
Defined.

(** The pairing data alone cannot tell where the user id ends. *)
Example pair_aad_shift : pair (lit "ab") (lit "c") = pair (lit "a") (lit "bc").
Proof. reflexivity. Qed.

(** ** The blob frame *)

Lemma unpack_pack n t c : length n = NONCE_LEN -> length t = TAG_LEN ->
  unpack (pack n t c) = Ok {| nonce := n; tag := t; ciphertext := c |}.
Proof.
  intros Hn Ht. unfold unpack, pack, MIN_BLOB_LEN. rewrite !length_app, Hn, Ht.
  destruct (Nat.ltb_spec (length [VERSION] + (NONCE_LEN + (TAG_LEN + length c))) (1 + NONCE_LEN + TAG_LEN)) as [H|_];
    [exfalso; change (length [VERSION]) with 1%nat in H; lia|].
  change (default 0 (([VERSION] ++ n ++ t ++ c) !! 0%nat)) with VERSION. rewrite Z.eqb_refl. cbn [negb].
  f_equal. f_equal.
  - rewrite <- (slice_app_mid [VERSION] n (t ++ c) _ _ eq_refl eq_refl) at 2. by rewrite Hn.
  - rewrite <- (slice_app_mid ([VERSION] ++ n) t c _ _ eq_refl eq_refl) at 2. rewrite length_app, Hn, Ht. by rewrite <- !app_assoc.
  - rewrite !app_assoc. rewrite <- (drop_app_length (([VERSION] ++ n) ++ t) c) at 2. by rewrite !length_app, Hn, Ht.
Qed.

Lemma unpack_Ok buf p : unpack buf = Ok p ->
  length (nonce p) = NONCE_LEN /\ length (tag p) = TAG_LEN /\ buf = pack (nonce p) (tag p) (ciphertext p).
Proof.
  unfold unpack. destruct (Nat.ltb_spec (length buf) MIN_BLOB_LEN) as [|Hl]; [by intros [=]|].
  destruct buf as [|v buf]; [cbn in Hl; lia|]. change (default 0 ((v :: buf) !! 0%nat)) with v. cbv zeta.
  destruct (Z.eqb_spec v VERSION) as [->|]; cbn [negb]; [|by intros [=]]. intros [= <-]. cbn [nonce tag ciphertext].
  unfold MIN_BLOB_LEN, NONCE_LEN, TAG_LEN in *. cbn [length] in Hl.
  change (slice (VERSION :: buf) 1 13) with (take 12 buf).
  change (slice (VERSION :: buf) 13 29) with (take 16 (drop 12 buf)).
  rewrite !length_take, length_drop. split; [lia|]. split; [lia|]. unfold pack. cbn [app]. f_equal.
  replace (drop 28 buf) with (drop 16 (drop 12 buf)) by (rewrite drop_drop; reflexivity).
  by rewrite !take_drop.
Qed.

(** ** Sealing and opening *)

Section sealing.
Context `{!Aead, !AeadLaws, !Base64, !Base64Laws, !Hashes}.

Lemma seal_with_nonce_open k n a p b : length n = NONCE_LEN ->
  seal_with_nonce k n a p = Ok b -> open k a b = Ok p.
Proof.
  intros Hn. unfold seal_with_nonce, open. destruct (raw_seal k n a p) as [[c t]|] eqn:E; cbn [ok_or rbind]; [|done].
  destruct (seal_length k n a p c t E) as [_ Ht]. rewrite Ht, Nat.eqb_refl. intros [= <-].
  rewrite unpack_pack by done. cbn [rbind nonce tag ciphertext]. rewrite Hn, Nat.eqb_refl. cbn [negb].
  by rewrite (seal_open _ _ _ _ _ _ E).
Qed.

(** C32: opening accepts exactly the blobs sealing makes: under a key and an
    associated datum, a buffer opens to a plaintext if and only if it is the
    packed seal of that plaintext under the same key and datum with some
    12-byte nonce. *)
Theorem open_iff_sealed k a b p :
  open k a b = Ok p <-> exists n, length n = NONCE_LEN /\ seal_with_nonce k n a p = Ok b.
Proof.
  split; [|intros (n & Hn & Ho); by eapply seal_with_nonce_open].
  unfold open. destruct (unpack b) as [parts|] eqn:E; cbn; [|done].
  apply unpack_Ok in E as (Hn & Ht & Eb). rewrite Hn, Nat.eqb_refl. cbn [negb].
  destruct (raw_open _ _ _ _) as [q|] eqn:Eo; cbn; [|done]. intros [= ->].
  apply open_sealed in Eo as (c & t & Ex & Es).
  destruct (seal_length _ _ _ _ _ _ Es) as [_ Ht'].
  apply app_inj_2 in Ex as [Ec Et]; [|congruence].
  exists (nonce parts). split; [done|]. unfold seal_with_nonce. rewrite Es. cbn [ok_or rbind]. rewrite Ht', Nat.eqb_refl.
  rewrite Eb. by rewrite Ec, Et.
Qed.

Lemma seal_open_ok fill k a p b : (forall n, fill = Some n -> length n = NONCE_LEN) ->
  seal fill k a p = Ok b -> open k a b = Ok p.
Proof.
  unfold seal. intros Hf. destruct fill as [n|]; cbn; [|done]. intros Ho.
  by eapply seal_with_nonce_open; [apply Hf|].
Qed.

(** A random fill writes a whole nonce. *)
Definition fill_ok (len : nat) (f : option (list Z)) : Prop := forall n, f = Some n -> length n = len.

(** The key that opened once opens again: a wrapped content key comes back. *)
Lemma content_key_round fill pk ck a b :
  fill_ok NONCE_LEN fill -> length pk = KEY_LEN -> length ck = 32%nat ->
  seal fill pk a ck = Ok b -> unwrap_content_key pk (b64_encode b) a = Ok ck.
Proof.
  intros Hf Hk Hc Hs. unfold unwrap_content_key. rewrite b64_round. cbn. unfold from_bytes. rewrite Hk. cbn.
  rewrite (seal_open_ok fill pk a ck b Hf Hs). cbn. by rewrite Hc.
Qed.

Lemma envelope_round {T} (to_vec : T -> option (list Z)) from_slice fill k a v b :
  (forall v j, to_vec v = Some j -> from_slice j = Some v) ->
  fill_ok NONCE_LEN fill ->
  seal_json_b64 to_vec fill k a v = Ok b -> open_json_b64 from_slice k a b = Ok v.
Proof.
  intros Hj Hf. unfold seal_json_b64, open_json_b64. destruct (sealing (from_bytes k)) as [key|] eqn:Ek; cbn; [|done].
  destruct (to_vec v) as [j|] eqn:Ev; cbn; [|done]. destruct (seal fill key a j) as [c|] eqn:Es; cbn; [|done].
  intros [= <-]. rewrite b64_round. cbn. rewrite (seal_open_ok fill key a j c Hf Es). cbn. by rewrite (Hj v j Ev).
Qed.

Lemma body_round fill ck a j c : fill_ok NONCE_LEN fill -> length ck = KEY_LEN ->
  seal fill ck a j = Ok c -> open_json_b64 Some ck a (b64_encode c) = Ok j.
Proof.
  intros Hf Hk Hs. unfold open_json_b64, from_bytes. rewrite Hk. cbn. rewrite b64_round. cbn.
  by rewrite (seal_open_ok fill ck a j c Hf Hs).
Qed.

Lemma sealing_Ok {A} (r : result CryptoError A) a : sealing r = Ok a -> r = Ok a.
Proof. by destruct r; intros [= ->]. Qed.

Lemma crypto_Ok {A} (r : result CryptoError A) a : crypto r = Ok a -> r = Ok a.
Proof. by destruct r; intros [= ->]. Qed.

Lemma from_bytes_Ok k k' : from_bytes k = Ok k' -> k' = k /\ length k = KEY_LEN.
Proof. unfold from_bytes. destruct (Nat.eqb_spec (length k) KEY_LEN); [|done]. by intros [= <-]. Qed.

(** A charge upload can be read with the device key alone: unwrapping the
    content key of an encrypted charge and opening its three bodies, each with
    its own associated data, gives back exactly the serialised bodies that
    were sealed. *)
Theorem charge_upload_opens fk fb fs fm fw ts blob summary mutable pk u p e :
  fill_ok 32 fk -> fill_ok NONCE_LEN fb -> fill_ok NONCE_LEN fs -> fill_ok NONCE_LEN fm -> fill_ok NONCE_LEN fw ->
  encrypt_charge fk fb fs fm fw ts blob summary mutable pk u p = Ok e ->
  exists ck ka ba sa,
    charge_key u p (charge_id e) = Some ka /\ unwrap_content_key pk (wrapped_charge_key_b64 e) ka = Ok ck /\
    charge_blob u p (charge_id e) = Some ba /\ open_json_b64 Some ck ba (charge_blob_b64 e) = ok_or blob SJson /\
    charge_summary u p (charge_id e) = Some sa /\
    open_json_b64 Some ck sa (summary_ciphertext_b64 e) = ok_or summary SJson /\
    match mutable_ciphertext_b64 e with
    | Some ct => exists ma j, charge_mutable u p (charge_id e) = Some ma /\ mutable = Some (Some j) /\
                              open_json_b64 Some ck ma ct = Ok j
    | None => mutable = None
    end.
Proof.
  intros Hk Hb Hs Hm Hw He. unfold encrypt_charge in He. inv_bind.
  repeat match goal with H : sealing _ = Ok _ |- _ => apply sealing_Ok in H end.
  repeat match goal with H : from_bytes _ = Ok _ |- _ => apply from_bytes_Ok in H as [-> ?] end.
  cbn.
  assert (length a = 32%nat) as La by by apply Hk. clear Hk.
  exists a. do 3 eexists. split; [eassumption|]. split; [eapply content_key_round; [| | |eassumption]; assumption|].
  split; [eassumption|]. split; [eapply body_round; [| |eassumption]; assumption|].
  split; [eassumption|]. split; [eapply body_round; [| |eassumption]; assumption|].
  destruct mutable as [m|]; [|inv_bind; done]. inv_bind.
  repeat match goal with H : sealing _ = Ok _ |- _ => apply sealing_Ok in H end. cbn.
  do 2 eexists. split; [eassumption|]. split; [done|]. eapply body_round; [| |eassumption]; assumption.
Qed.

Lemma wrap_pi_key_round f lk key pid w : fill_ok NONCE_LEN f -> length key = 32%nat ->
  wrap_pi_key_local f lk key pid = Ok w -> unwrap_pi_key_local lk w pid = Ok key.
Proof.
  intros Hf Hk. unfold wrap_pi_key_local, unwrap_pi_key_local.
  destruct (crypto (from_bytes lk)) as [k|] eqn:Ek; cbn [rbind]; [|done].
  destruct (crypto (seal f k (pi_local pid) key)) as [b|] eqn:Es; cbn [rbind]; [|done]. intros [= <-].
  rewrite b64_round. cbn [ok_or rbind]. apply crypto_Ok in Es. rewrite (seal_open_ok f k _ key b Hf Es). cbn [crypto rbind].
  unfold to_key. by rewrite Hk.
Qed.

Lemma wrap_long_term_round f lk sd pid w : fill_ok NONCE_LEN f -> length sd = 32%nat ->
  wrap_long_term_privkey f lk sd pid = Ok w -> unwrap_long_term_privkey lk w pid = Ok sd.
Proof.
  intros Hf Hk. unfold wrap_long_term_privkey, unwrap_long_term_privkey.
  destruct (crypto (from_bytes lk)) as [k|] eqn:Ek; cbn [rbind]; [|done].
  destruct (crypto (seal f k (pi_local_x25519 pid) sd)) as [b|] eqn:Es; cbn [rbind]; [|done]. intros [= <-].
  rewrite b64_round. cbn [ok_or rbind]. apply crypto_Ok in Es. rewrite (seal_open_ok f k _ sd b Hf Es). cbn [crypto rbind].
  unfold to_key. by rewrite Hk.
Qed.

End sealing.

(** ** A concrete instance of the libraries *)

Module Toy.
Definition zeros (n : nat) : list Z := replicate n 0.

#[export] Instance toy_aead : Aead := {|
  raw_seal k n a p := Some (p, zeros TAG_LEN);
  raw_open k n a x :=
    if bool_decide (TAG_LEN <= length x)%nat && bool_decide (drop (length x - TAG_LEN) x = zeros TAG_LEN)
    then Some (take (length x - TAG_LEN) x) else None
|}.

#[export] Instance toy_aead_laws : AeadLaws.
Proof.
  split.
  - intros k n a p c t [= <- <-]. cbn -[TAG_LEN]. rewrite length_app. change (length (zeros TAG_LEN)) with TAG_LEN.
    rewrite bool_decide_true by lia. replace (length p + TAG_LEN - TAG_LEN)%nat with (length p) by lia.
    by rewrite drop_app_length, take_app_length, bool_decide_true.
  - by intros k n a p c t [= <- <-].
  - intros k n a x p. cbn -[TAG_LEN]. case_bool_decide as Hl; [|done]. case_bool_decide as Hd; [|done].
    cbn -[TAG_LEN]. intros [= <-]. exists (take (length x - TAG_LEN) x), (zeros TAG_LEN).
    split; [|done]. by rewrite <- Hd, take_drop.
Qed.

#[export] Instance toy_b64 : Base64 := {| b64_encode x := x; b64_decode x := Some x |}.
#[export] Instance toy_b64_laws : Base64Laws.
Proof. by split. Qed.
#[export] Instance toy_hashes : Hashes := {| hkdf_32 _ _ _ := Some (zeros 32); sha256 x := x |}.
End Toy.
Import Toy.

Definition toy_fill (n : nat) : option (list Z) := Some (Toy.zeros n).

Lemma toy_fill_ok n : fill_ok n (toy_fill n).
Proof. intros x [= <-]. apply length_replicate. Qed.

Lemma charge_upload_opens_witness :
  exists e ck ka, charge_key (lit "u") (lit "pi") (charge_id e) = Some ka /\
    unwrap_content_key (Toy.zeros 32) (wrapped_charge_key_b64 e) ka = Ok ck.
Proof.
  destruct (encrypt_charge (toy_fill 32) (toy_fill 12) (toy_fill 12) (toy_fill 12) (toy_fill 12) 1700000000
    (Some [123; 125]) (Some [91; 93]) (Some (Some [49])) (Toy.zeros 32) (lit "u") (lit "pi")) as [e|] eqn:E.
  2: { exfalso. revert E. vm_compute. discriminate. }
  destruct (charge_upload_opens (toy_fill 32) (toy_fill 12) (toy_fill 12) (toy_fill 12) (toy_fill 12) 1700000000
    (Some [123; 125]) (Some [91; 93]) (Some (Some [49])) (Toy.zeros 32) (lit "u") (lit "pi") e
    (toy_fill_ok _) (toy_fill_ok _) (toy_fill_ok _) (toy_fill_ok _) (toy_fill_ok _) E)
    as (ck & ka & ba & sa & Hka & Hck & _).
  by exists e, ck, ka.
Defined.

Lemma open_iff_sealed_witness : exists n, length n = NONCE_LEN /\
  seal_with_nonce (Toy.zeros 32) n (pi_local (lit "pi")) [7] = Ok (pack (Toy.zeros 12) (Toy.zeros 16) [7]).
Proof.
  apply (open_iff_sealed (Toy.zeros 32) (pi_local (lit "pi")) (pack (Toy.zeros 12) (Toy.zeros 16) [7]) [7]).
  vm_compute. reflexivity.
Defined.
