(* ===== verification/MutableQueue.v ===== *)
(** * The queue of local edits: [drives/src/mutable_intent.rs],
      [drives/src/rate_confirmation.rs] and the charge and rate operations of
      [drives/src/db.rs]

    Local edits of charge tags, charge costs and rates wait in SQLite for the
    cloud: a dirty row per record with its generation, the edits themselves,
    the local values, the upload and deletion bookkeeping. A table is a map on
    its primary key; a transaction is a function that gives the new database or
    an error, which leaves the old one. A payload column holds the value it
    serialises. *)

From Stdlib Require Import ZArith Lia.
From stdpp Require Import base gmap list.
From S2P Require Import Prelude Float Str Json Config Charging.

Open Scope Z_scope.

Module MutableQueue.
Import Json.

Notation str := (list Z) (only parsing).

(** ** [mutable_intent.rs]: edits *)

Inductive Edit :=
| Tags (added removed : list str)
| CostOverride (before after : Value)
| RateConfig (before after : Value) (force : bool) (required_tag : option str).

Record Intent := { legacy : bool; edits : list (Z * Edit) }.

#[export] Instance edit_eq_dec : EqDecision Edit.
Proof. solve_decision. Defined.
#[export] Instance intent_eq_dec : EqDecision Intent.
Proof. solve_decision. Defined.

Definition RATE_KEYS : list str := [lit "charging_currency"; lit "charging_default_rate"; lit "charging_tag_rates"].
Definition RATE_PREFERENCES_JOURNAL : str := lit "cloud_rate_preferences_publication_v1".

Definition nonempty (s : str) : bool := negb (is_empty s).

Definition tag_edit (before after : list str) : Edit :=
  let before := str_set (List.filter nonempty before) in
  let after := str_set (List.filter nonempty after) in
  Tags (List.filter (fun t => negb (bool_decide (t ∈ before))) after)
       (List.filter (fun t => negb (bool_decide (t ∈ after))) before).

Inductive DbError :=
| EBadClock | EClockExhausted | ENoRow | EConstraint | EInvalidCost | EIdentityChanged | EReservedTag
| EWrongIntent | ENotObject | EUnrelated | EPending | EMissingPlan | ENotQueued | EGeneration | EIntentChanged
| EUntracked | EReceipt | EJournalChanged | EEmptyKey.

Notation Cost := (Z * str)%type (only parsing).

Definition cost_ok (amount : Z) : bool := F64.is_finite amount && F64.le F64.zero amount.

Definition cost_value (cost : option Cost) : result DbError Value :=
  match cost with
  | None => Ok Null
  | Some (amount, currency) =>
      if cost_ok amount
      then Ok (Object (<[lit "amount" := Num (Float amount)]> {[ lit "currency" := String currency ]}))
      else Err EInvalidCost
  end.

(** ** The tables *)

Notation Key := (list Z * list Z)%type (only parsing).

Record Db := mkDb {
  meta : gmap str str;
  mutable_dirty : gmap Key Z;
  intent_state : gmap Key (option Z);
  intent_events : gmap Key (list (Z * Edit));
  charge_tags : gmap Z (list str);
  charge_costs : gmap Z Cost;
  charge_uploads : gmap Z (str * str * Z);
  charge_delete_outbox : gmap Z (str * option Z)
}.

Definition empty_db : Db := mkDb ∅ ∅ ∅ ∅ ∅ ∅ ∅ ∅.

Definition with_meta (d : Db) m := mkDb m (mutable_dirty d) (intent_state d) (intent_events d) (charge_tags d)
  (charge_costs d) (charge_uploads d) (charge_delete_outbox d).
Definition with_queue (d : Db) q s e := mkDb (meta d) q s e (charge_tags d)
  (charge_costs d) (charge_uploads d) (charge_delete_outbox d).
Definition with_tags (d : Db) t := mkDb (meta d) (mutable_dirty d) (intent_state d) (intent_events d) t
  (charge_costs d) (charge_uploads d) (charge_delete_outbox d).
Definition with_costs (d : Db) c := mkDb (meta d) (mutable_dirty d) (intent_state d) (intent_events d)
  (charge_tags d) c (charge_uploads d) (charge_delete_outbox d).
Definition with_uploads (d : Db) u := mkDb (meta d) (mutable_dirty d) (intent_state d) (intent_events d)
  (charge_tags d) (charge_costs d) u (charge_delete_outbox d).
Definition with_outbox (d : Db) o := mkDb (meta d) (mutable_dirty d) (intent_state d) (intent_events d)
  (charge_tags d) (charge_costs d) (charge_uploads d) o.

(** [schema.rs]. *)
Definition meta_get (d : Db) (key : str) : option str := meta d !! key.
Definition meta_set (d : Db) (key value : str) : Db := with_meta d (<[key := value]> (meta d)).
Definition meta_del (d : Db) (key : str) : Db := with_meta d (delete key (meta d)).

(** ** The queue clock: [mark_mutable_dirty_at] *)

Definition CLOCK : str := lit "cloud_mutable_local_clock_ms".

(** [COALESCE(MAX(changed_at), 0)]. *)
Definition max_changed (d : Db) : Z :=
  default 0 (foldr (fun kv acc => Some (match acc with Some m => Z.max kv.2 m | None => kv.2 end)) None
               (map_to_list (mutable_dirty d))).

Definition mark_mutable_dirty_at (d : Db) (kind key : str) (now_ms : Z) : result DbError Db :=
  let? last := match meta_get d CLOCK with
               | Some value => ok_or (parse_i64 value) EBadClock
               | None => Ok (max_changed d)
               end in
  let? bumped := if last + 1 <=? I64_MAX then Ok (last + 1) else Err EClockExhausted in
  let changed_at := Z.max now_ms bumped in
  let d := meta_set d CLOCK (print_i64 changed_at) in
  Ok (with_queue d (<[(kind, key) := changed_at]> (mutable_dirty d)) (intent_state d) (intent_events d)).

(** ** [mutable_intent.rs]: the rows *)

Definition events_of (d : Db) (k : Key) : list (Z * Edit) := default [] (intent_events d !! k).

(** [INSERT] of an event, whose primary key is its stamp; rows are kept in
    the order they are read back. *)
Fixpoint insert_event (at_ : Z) (e : Edit) (l : list (Z * Edit)) : result DbError (list (Z * Edit)) :=
  match l with
  | [] => Ok [(at_, e)]
  | (a, x) :: t =>
      if at_ =? a then Err EConstraint
      else if at_ <? a then Ok ((at_, e) :: l)
      else let? t := insert_event at_ e t in Ok ((a, x) :: t)
  end.

Definition queued (d : Db) (kind key : str) : option Z := mutable_dirty d !! (kind, key).

(** [record]: the state row references the dirty row, so without one the
    first insert already fails. *)
Definition record (d : Db) (kind key : str) (prior_generation : option Z) (edit : Edit) : result DbError Db :=
  let k := (kind, key) in
  let? generation := ok_or (queued d kind key) ENoRow in
  let st := match intent_state d !! k with Some _ => intent_state d | None => <[k := prior_generation]> (intent_state d) end in
  let? ev := insert_event generation edit (events_of d k) in
  Ok (with_queue d (mutable_dirty d) st (<[k := ev]> (intent_events d))).

Definition read (d : Db) (kind key : str) : Intent :=
  {| legacy := match intent_state d !! (kind, key) with
               | Some through => bool_decide (is_Some through)
               | None => true
               end;
     edits := events_of d (kind, key) |}.

Definition retire (d : Db) (kind key : str) (through : Z) : Db :=
  let k := (kind, key) in
  let ev := List.filter (fun e : Z * Edit => negb (e.1 <=? through)) (events_of d k) in
  let st := match intent_state d !! k with
            | Some (Some l) => if l <=? through then <[k := None]> (intent_state d) else intent_state d
            | _ => intent_state d
            end in
  with_queue d (mutable_dirty d) st (if is_empty ev then delete k (intent_events d) else <[k := ev]> (intent_events d)).

(** [DELETE FROM mutable_dirty] of one row, with its cascades. *)
Definition drop_dirty (d : Db) (k : Key) : Db :=
  with_queue d (delete k (mutable_dirty d)) (delete k (intent_state d)) (delete k (intent_events d)).

(** [... AND changed_at=?]. *)
Definition drop_dirty_at (d : Db) (k : Key) (at_ : Z) : Db :=
  if bool_decide (mutable_dirty d !! k = Some at_) then drop_dirty d k else d.

(** [... AND changed_at<=?]. *)
Definition drop_dirty_through (d : Db) (k : Key) (through : Z) : Db :=
  match mutable_dirty d !! k with
  | Some at_ => if at_ <=? through then drop_dirty d k else d
  | None => d
  end.

Definition clear_mutable_dirty (d : Db) (kind key : str) (changed_at : Z) : Db :=
  if match queued d kind key with Some a => changed_at <=? a | None => false end
  then drop_dirty_at (retire d kind key changed_at) (kind, key) changed_at
  else d.

(** [dirty_mutables]: ordered by generation. *)
Definition dirty_mutables (d : Db) : list (str * str * Z) :=
  sort_by_key (fun r : str * str * Z => r.2) (map_to_list (mutable_dirty d)).

(** ** Charge values *)

Definition CHARGE : str := lit "charge".
Definition charge_key (session_ts : Z) : Key := (CHARGE, print_i64 session_ts).

Definition get_charge_tags (d : Db) (session_ts : Z) : list str := default [] (charge_tags d !! session_ts).
Definition get_charge_cost (d : Db) (session_ts : Z) : option Cost := charge_costs d !! session_ts.

(** Delete a session's tags and insert these, skipping the empty ones. *)
Definition put_charge_tags (d : Db) (session_ts : Z) (tags : list str) : Db :=
  with_tags d (let s := str_set (List.filter nonempty tags) in
               if is_empty s then delete session_ts (charge_tags d) else <[session_ts := s]> (charge_tags d)).

Definition put_charge_cost (d : Db) (session_ts : Z) (cost : option Cost) : Db :=
  with_costs d (match cost with
                | Some c => <[session_ts := c]> (charge_costs d)
                | None => delete session_ts (charge_costs d)
                end).

(** What the three editors end with. *)
Definition queue_edit (now_ms : Z) (d : Db) (kind key : str) (was_queued : option Z) (edit : Edit) : result DbError Db :=
  let? d := mark_mutable_dirty_at d kind key now_ms in
  record d kind key was_queued edit.

Definition set_charge_tags_inner (now_ms : Z) (d : Db) (session_ts : Z) (tags : list str) (mark_dirty : bool)
    : result DbError Db :=
  let before := get_charge_tags d session_ts in
  let was_queued := queued d CHARGE (print_i64 session_ts) in
  let d := put_charge_tags d session_ts tags in
  if mark_dirty then queue_edit now_ms d CHARGE (print_i64 session_ts) was_queued (tag_edit before tags)
  else Ok d.

Definition set_charge_tags (now_ms : Z) (d : Db) (session_ts : Z) (tags : list str) : result DbError Db :=
  set_charge_tags_inner now_ms d session_ts tags true.

Definition set_charge_tags_from_sync (now_ms : Z) (d : Db) (session_ts : Z) (tags : list str) : result DbError Db :=
  set_charge_tags_inner now_ms d session_ts tags false.

Definition set_charge_cost_inner (now_ms : Z) (d : Db) (session_ts : Z) (cost : option Cost) (mark_dirty : bool)
    : result DbError Db :=
  let before := get_charge_cost d session_ts in
  let was_queued := queued d CHARGE (print_i64 session_ts) in
  let? before := cost_value before in
  let? after := cost_value cost in
  let d := put_charge_cost d session_ts cost in
  if mark_dirty then queue_edit now_ms d CHARGE (print_i64 session_ts) was_queued (CostOverride before after)
  else Ok d.

Definition set_charge_cost (now_ms : Z) (d : Db) (session_ts : Z) (cost : option Cost) : result DbError Db :=
  set_charge_cost_inner now_ms d session_ts cost true.

Definition set_charge_cost_from_sync (now_ms : Z) (d : Db) (session_ts : Z) (cost : option Cost) : result DbError Db :=
  set_charge_cost_inner now_ms d session_ts cost false.

(** One session of [add_charge_tag_bulk]; [now] gives each call of the clock. *)
Definition add_charge_tag (now_ms : Z) (d : Db) (ts : Z) (tag : str) : result DbError Db :=
  let before := get_charge_tags d ts in
  let was_queued := queued d CHARGE (print_i64 ts) in
  let d := with_tags d (<[ts := set_insert str_leb tag before]> (charge_tags d)) in
  let after := if bool_decide (tag ∈ before) then before else before ++ [tag] in
  queue_edit now_ms d CHARGE (print_i64 ts) was_queued (tag_edit before after).

Fixpoint add_charge_tags (now : list Z) (d : Db) (session_ts : list Z) (tag : str) : result DbError Db :=
  match session_ts with
  | [] => Ok d
  | ts :: rest =>
      let? d := add_charge_tag (default 0 (head now)) d ts tag in
      add_charge_tags (tail now) d rest tag
  end.

Definition add_charge_tag_bulk (now : list Z) (d : Db) (session_ts : list Z) (tag : str) : result DbError (nat * Db) :=
  let tag := trim_by Config.char_ws tag in
  if is_empty tag || Charging.is_reserved_tag tag then Err EReservedTag
  else if is_empty session_ts then Ok (0%nat, d)
  else let? d := add_charge_tags now d session_ts tag in Ok (length session_ts, d).

(** A cloud document for an uploaded session; the local edit wins. *)
Definition apply_charge_mutable_from_sync (d : Db) (session_ts : Z) (cloud_charge_id wrapped_charge_key : str)
    (tags : list str) (cost : option Cost) : result DbError Db :=
  match charge_uploads d !! session_ts with
  | None => Ok d
  | Some (id, key, uploaded_at) =>
      if negb (bool_decide (id = cloud_charge_id) && (is_empty key || bool_decide (key = wrapped_charge_key)))
      then Err EIdentityChanged
      else if bool_decide (is_Some (queued d CHARGE (print_i64 session_ts))) then Ok d
      else
        let d := if is_empty key
                 then with_uploads d (<[session_ts := (id, wrapped_charge_key, uploaded_at)]> (charge_uploads d))
                 else d in
        let d := put_charge_tags d session_ts tags in
        match cost with
        | Some (amount, currency) =>
            if cost_ok amount then Ok (put_charge_cost d session_ts cost) else Err EInvalidCost
        | None => Ok (put_charge_cost d session_ts None)
        end
  end.

(** ** Acknowledgements *)

Definition source_matches (d : Db) (session_ts : Z) (cloud_charge_id wrapped_charge_key : str) (uploaded_at : Z) : bool :=
  bool_decide (charge_uploads d !! session_ts = Some (cloud_charge_id, wrapped_charge_key, uploaded_at)).

Definition clear_charge_mutable_dirty_if_source (d : Db) (session_ts changed_at : Z)
    (cloud_charge_id wrapped_charge_key : str) (uploaded_at : Z) : Db :=
  let key := print_i64 session_ts in
  if source_matches d session_ts cloud_charge_id wrapped_charge_key uploaded_at
     && match queued d CHARGE key with Some a => changed_at <=? a | None => false end
  then drop_dirty_at (retire d CHARGE key changed_at) (CHARGE, key) changed_at
  else d.

(** One replayed edit: the tags and whether a newer cost must stay. *)
Definition replay_tags (e : Edit) (tags : list str) : list str :=
  match e with
  | Tags added removed => set_extend str_leb added (List.filter (fun t => negb (bool_decide (t ∈ removed))) tags)
  | _ => tags
  end.

Fixpoint replay_newer (through : Z) (l : list (Z * Edit)) (tags : list str) (preserve_cost : bool)
    : result DbError (list str * bool) :=
  match l with
  | [] => Ok (tags, preserve_cost)
  | (at_, e) :: t =>
      if at_ <=? through then replay_newer through t tags preserve_cost
      else match e with
           | Tags _ _ => replay_newer through t (replay_tags e tags) preserve_cost
           | CostOverride _ _ => replay_newer through t tags true
           | RateConfig _ _ _ _ => Err EWrongIntent
           end
  end.

(** Newer edits whose content is lost must not be overwritten. *)
Definition unknown_newer (d : Db) (k : Key) (through : Z) : bool :=
  match mutable_dirty d !! k with Some a => through <? a | None => false end
  && match intent_state d !! k with
     | Some legacy_through => match legacy_through with Some a => through <? a | None => false end
     | None => true
     end.

Definition confirm_charge_mutable_push_with_receipt (d : Db) (session_ts through : Z)
    (cloud_charge_id wrapped_charge_key : str) (uploaded_at : Z) (confirmed_tags : list str)
    (confirmed_cost : option Cost) (receipt : option (str * str)) : result DbError (bool * Db) :=
  if match receipt with Some (key, expected) => negb (bool_decide (meta_get d key = Some expected)) | None => false end
  then Ok (false, d)
  else
    let key := print_i64 session_ts in
    let queued_at := queued d CHARGE key in
    if negb (source_matches d session_ts cloud_charge_id wrapped_charge_key uploaded_at)
       || negb (match queued_at with Some a => through <=? a | None => false end)
    then Ok (false, d)
    else
      let intent := read d CHARGE key in
      let? d1 :=
        if unknown_newer d (CHARGE, key) through then Ok d
        else
          let? (tags, preserve_cost) := replay_newer through (edits intent) (str_set confirmed_tags) false in
          let d := put_charge_tags d session_ts (Charging.strip_reserved_tags tags) in
          if preserve_cost then Ok d
          else let? _ := cost_value confirmed_cost in Ok (put_charge_cost d session_ts confirmed_cost) in
      let d2 := retire d1 CHARGE key through in
      let d3 := drop_dirty_at d2 (CHARGE, key) through in
      Ok (true, match receipt with Some (key, _) => meta_del d3 key | None => d3 end).

Definition confirm_charge_mutable_push (d : Db) (session_ts through : Z) (cloud_charge_id wrapped_charge_key : str)
    (uploaded_at : Z) (confirmed_tags : list str) (confirmed_cost : option Cost) : result DbError (bool * Db) :=
  confirm_charge_mutable_push_with_receipt d session_ts through cloud_charge_id wrapped_charge_key uploaded_at
    confirmed_tags confirmed_cost None.

Record ChargeMutableSyncSnapshot := {
  sn_tags : list str; sn_cost : option Cost; sn_upload : option (str * str * Z); sn_intent : Intent }.

Definition charge_mutable_for_sync (d : Db) (session_ts changed_at : Z) : option ChargeMutableSyncSnapshot :=
  if bool_decide (queued d CHARGE (print_i64 session_ts) = Some changed_at)
  then Some {| sn_tags := get_charge_tags d session_ts; sn_cost := get_charge_cost d session_ts;
               sn_upload := charge_uploads d !! session_ts; sn_intent := read d CHARGE (print_i64 session_ts) |}
  else None.

Record ChargeUploadMutableSnapshot := { up_tags : list str; up_cost : option Cost; up_changed_at : option Z }.

Definition charge_mutable_for_upload (d : Db) (session_ts : Z) : result DbError ChargeUploadMutableSnapshot :=
  let cost := get_charge_cost d session_ts in
  let? _ := cost_value cost in
  Ok {| up_tags := get_charge_tags d session_ts; up_cost := cost;
        up_changed_at := queued d CHARGE (print_i64 session_ts) |}.

(** ** Uploads and deletions *)

Definition outbox_contains (d : Db) (session_ts : Z) : bool := bool_decide (is_Some (charge_delete_outbox d !! session_ts)).

Definition confirm_charge_upload (d : Db) (session_ts : Z) (cloud_charge_id : str) (stored_key : option str)
    (uploaded_at : Z) (included_generation : option Z) : bool * Db :=
  if outbox_contains d session_ts then (false, d)
  else
    let refuse := match charge_uploads d !! session_ts with
                  | Some (id, key, _) =>
                      negb (bool_decide (id = cloud_charge_id))
                      || match stored_key with Some stored => negb (bool_decide (key = stored)) | None => false end
                  | None => false
                  end in
    if refuse then (false, d)
    else
      let d := match charge_uploads d !! session_ts with
               | Some _ => d
               | None => with_uploads d (<[session_ts := (cloud_charge_id, default [] stored_key, uploaded_at)]>
                                           (charge_uploads d))
               end in
      let key := print_i64 session_ts in
      (true, match stored_key, included_generation with
             | Some _, Some through =>
                 if match queued d CHARGE key with Some a => through <=? a | None => false end
                 then drop_dirty_at (retire d CHARGE key through) (CHARGE, key) through
                 else d
             | _, _ => d
             end).

Definition backfill_charge_upload_key (d : Db) (session_ts : Z) (cloud_charge_id : str) (uploaded_at : Z)
    (verified_key : str) : result DbError (bool * Db) :=
  if is_empty verified_key then Err EEmptyKey
  else match charge_uploads d !! session_ts with
       | Some (id, key, at_) =>
           if bool_decide (id = cloud_charge_id) && (at_ =? uploaded_at)
              && (is_empty key || bool_decide (key = verified_key)) && negb (outbox_contains d session_ts)
           then Ok (true, if is_empty key
                          then with_uploads d (<[session_ts := (id, verified_key, at_)]> (charge_uploads d))
                          else d)
           else Ok (false, d)
       | None => Ok (false, d)
       end.

Definition charge_upload_mark (d : Db) (session_ts : Z) (cloud_charge_id wrapped_charge_key_b64 : str)
    (uploaded_at : Z) : Db :=
  if outbox_contains d session_ts then d
  else with_uploads d (<[session_ts := (cloud_charge_id, wrapped_charge_key_b64, uploaded_at)]> (charge_uploads d)).

(** [charge_delete_outbox_all]: session, cloud id, settled. *)
Definition charge_delete_outbox_all (d : Db) : list (Z * str * bool) :=
  map (fun r : Z * (str * option Z) => (r.1, r.2.1, bool_decide (is_Some r.2.2)))
    (sort_by_key (fun r : Z * (str * option Z) => r.1) (map_to_list (charge_delete_outbox d))).

Definition charge_delete_ack (d : Db) (session_ts now_unix : Z) : Db :=
  match charge_delete_outbox d !! session_ts with
  | Some (id, _) => with_outbox d (<[session_ts := (id, Some now_unix)]> (charge_delete_outbox d))
  | None => d
  end.

Definition charge_delete_remove (d : Db) (session_ts : Z) : Db :=
  match charge_delete_outbox d !! session_ts with
  | Some (_, Some _) => with_outbox d (delete session_ts (charge_delete_outbox d))
  | _ => d
  end.

(** The transaction of [bulk_delete_charges] for the session starting at
    [start] ([api/src/charging.rs]), the samples aside. *)
Definition delete_charge (d : Db) (start : Z) (cloud_id : str) : Db :=
  let d := with_tags d (delete start (charge_tags d)) in
  let d := with_costs d (delete start (charge_costs d)) in
  let d := with_outbox d (<[start := (cloud_id, None)]> (charge_delete_outbox d)) in
  let d := with_uploads d (delete start (charge_uploads d)) in
  drop_dirty d (charge_key start).

(** ** Rates *)

Definition RATE : str := lit "rate".

Definition mark_rate_config_dirty (now_ms : Z) (d : Db) : result DbError Db := mark_mutable_dirty_at d RATE [] now_ms.

Definition rate_keys_only (m : gmap str Value) : bool := bool_decide (map_Forall (fun k _ => k ∈ RATE_KEYS) m).

Definition stage_rate_preferences_with_tag (now_ms : Z) (d : Db) (before after : Value) (force : bool)
    (required_tag : option str) (journal : str) : result DbError Db :=
  let? _ := match required_tag with
            | Some tag =>
                if nonempty (trim_by Config.char_ws tag) && negb force
                   && match as_object (index after (lit "charging_tag_rates")) with
                      | Some plans => bool_decide (is_Some (plans !! tag))
                      | None => false
                      end
                then Ok tt else Err EMissingPlan
            | None => Ok tt
            end in
  let? b := ok_or (as_object before) ENotObject in
  let? _ := if rate_keys_only b then Ok tt else Err EUnrelated in
  let? a := ok_or (as_object after) ENotObject in
  let? _ := if rate_keys_only a then Ok tt else Err EUnrelated in
  let? _ := if bool_decide (meta_get d RATE_PREFERENCES_JOURNAL = None) then Ok tt else Err EPending in
  let previous := queued d RATE [] in
  let? d := queue_edit now_ms d RATE [] previous (RateConfig before after force required_tag) in
  Ok (meta_set d RATE_PREFERENCES_JOURNAL journal).

(** ** [rate_confirmation.rs] *)

Record Snapshot := { generation : Z; intent : Intent }.
#[export] Instance snapshot_eq_dec : EqDecision Snapshot.
Proof. solve_decision. Defined.

Record Confirmation := { through : Z; snapshot_ : Snapshot; receipt : option (str * str) }.
#[export] Instance confirmation_eq_dec : EqDecision Confirmation.
Proof. solve_decision. Defined.

(** [==] of snapshots: payload numbers compare as numbers. *)
Definition canon_edit (e : Edit) : Edit :=
  match e with
  | Tags a r => Tags a r
  | CostOverride b a => CostOverride (canon b) (canon a)
  | RateConfig b a f t => RateConfig (canon b) (canon a) f t
  end.
Definition snapshot_eqb (a b : Snapshot) : bool :=
  (generation a =? generation b) && bool_decide (legacy (intent a) = legacy (intent b))
  && bool_decide (map (fun e : Z * Edit => (e.1, canon_edit e.2)) (edits (intent a))
                  = map (fun e : Z * Edit => (e.1, canon_edit e.2)) (edits (intent b))).

Definition snapshot (d : Db) : result DbError Snapshot :=
  let? g := ok_or (queued d RATE []) ENotQueued in
  Ok {| generation := g; intent := read d RATE [] |}.

Section rate_confirmation.
(** [URL_SAFE_NO_PAD] of the base64 crate. *)
Context (url_decode : str -> option str) (url_encode : str -> str).

Definition validate (d : Db) (c : Confirmation) : result DbError unit :=
  let? _ := if (0 <? through c) && (through c <=? generation (snapshot_ c)) then Ok tt else Err EGeneration in
  let? s := snapshot d in
  let? _ := if snapshot_eqb s (snapshot_ c) then Ok tt else Err EIntentChanged in
  let? _ := if negb (legacy (intent (snapshot_ c))) || (through c =? generation (snapshot_ c))
            then Ok tt else Err EUntracked in
  match receipt c with
  | Some (key, raw) =>
      let? suffix := ok_or (strip_prefix (lit "cloud_rate_publication_v3:") key) EReceipt in
      let? binding := ok_or (url_decode suffix) EReceipt in
      let? _ := if (length binding =? 32)%nat && bool_decide (url_encode binding = suffix) then Ok tt else Err EReceipt in
      if bool_decide (meta_get d key = Some raw) then Ok tt else Err EReceipt
  | None => Ok tt
  end.

Definition stage_rate_confirmation (d : Db) (c : Confirmation) (journal : str) : result DbError Db :=
  let? _ := validate d c in
  if bool_decide (meta_get d RATE_PREFERENCES_JOURNAL = None)
  then Ok (meta_set d RATE_PREFERENCES_JOURNAL journal) else Err EPending.

Definition check_rate_confirmation (d : Db) (c : Confirmation) (journal : str) : result DbError unit :=
  let? _ := validate d c in
  if bool_decide (meta_get d RATE_PREFERENCES_JOURNAL = Some journal) then Ok tt else Err EJournalChanged.

Definition finish_rate_confirmation (d : Db) (c : Confirmation) (journal : str) : result DbError Db :=
  let? _ := validate d c in
  if bool_decide (meta_get d RATE_PREFERENCES_JOURNAL = Some journal)
  then
    let d := retire d RATE [] (through c) in
    let d := drop_dirty_through d (RATE, []) (through c) in
    let d := match receipt c with Some (key, _) => meta_del d key | None => d end in
    Ok (meta_del d RATE_PREFERENCES_JOURNAL)
  else Err EJournalChanged.

End rate_confirmation.

End MutableQueue.
