(* ===== verification/MutableQueueSpec.v ===== *)
(** * The queue of local edits: theorems

    Generations only grow, whatever the clock does; the rows stay consistent
    over every interleaving of edits, acknowledgements, incoming documents and
    deletions; an acknowledgement never drops a newer edit. *)

From Stdlib Require Import ZArith Lia Sorted.
From stdpp Require Import base gmap list sorting relations.
From S2P Require Import Prelude Float Str Json Config Charging MutableQueue.

Import Json MutableQueue.
Open Scope Z_scope.

(** ** The clock *)

(** The generation the next edit must exceed. *)
Definition last_stamp (d : Db) : result DbError Z :=
  match meta_get d CLOCK with
  | Some value => ok_or (parse_i64 value) EBadClock
  | None => Ok (max_changed d)
  end.

Definition is_i64 (z : Z) : Prop := - 2 ^ 63 <= z <= I64_MAX.

Lemma max_changed_ge d k a : mutable_dirty d !! k = Some a -> a <= max_changed d.
Proof.
  intros H%elem_of_map_to_list. unfold max_changed.
  assert (exists m, foldr (fun (kv : (list Z * list Z) * Z) acc =>
    Some (match acc with Some m => Z.max kv.2 m | None => kv.2 end)) None (map_to_list (mutable_dirty d)) = Some m /\ a <= m)
    as (m & E & Hm); [|setoid_rewrite E; done].
  induction (map_to_list (mutable_dirty d)) as [|kv l IH]; [by apply elem_of_nil in H|].
  cbn [foldr]. apply elem_of_cons in H as [<-|H].
  - eexists. split; [done|]. destruct (foldr _ _ _); cbn; lia.
  - destruct (IH H) as (m & -> & Hm). eexists. split; [done|]. lia.
Qed.

Lemma mark_Ok d kind key now d' : mark_mutable_dirty_at d kind key now = Ok d' ->
  exists c, last_stamp d = Ok c /\ c + 1 <= I64_MAX /\
  let g := Z.max now (c + 1) in
  d' = with_queue (meta_set d CLOCK (print_i64 g)) (<[(kind, key) := g]> (mutable_dirty d)) (intent_state d) (intent_events d).
Proof.
  unfold mark_mutable_dirty_at. fold (last_stamp d). destruct (last_stamp d) as [c|]; cbn; [|done].
  destruct (Z.leb_spec (c + 1) I64_MAX); cbn; [|done]. intros [= <-]. exists c. done.
Qed.

(** ** The invariant *)

Notation ev_lt := (fun a b : Z * Edit => a.1 < b.1).

Record Inv (d : Db) : Prop := {
  inv_clock : exists c, last_stamp d = Ok c /\ forall k a, mutable_dirty d !! k = Some a -> a <= c;
  inv_sorted : forall k, StronglySorted ev_lt (events_of d k);
  inv_events : forall k e, e ∈ events_of d k -> exists g, mutable_dirty d !! k = Some g /\ e.1 <= g;
  inv_state : forall k l, intent_state d !! k = Some l ->
    exists g, mutable_dirty d !! k = Some g /\ forall x, l = Some x -> x < g;
  inv_outbox : forall ts, is_Some (charge_delete_outbox d !! ts) -> charge_uploads d !! ts = None
}.

Lemma Inv_empty : Inv empty_db.
Proof.
  split.
  - exists 0. split; [reflexivity|]. intros k a. cbn. by rewrite lookup_empty.
  - intros k. unfold events_of. cbn. rewrite lookup_empty. constructor.
  - intros k e. unfold events_of. cbn. rewrite lookup_empty. cbn. by intros ?%elem_of_nil.
  - intros k l. cbn. by rewrite lookup_empty.
  - intros ts. cbn. rewrite lookup_empty. by intros [? ?].
Qed.

(** The invariant sees the clock, the queue and the two upload tables. *)
Lemma Inv_ext d d' : meta_get d' CLOCK = meta_get d CLOCK -> mutable_dirty d' = mutable_dirty d ->
  intent_state d' = intent_state d -> intent_events d' = intent_events d ->
  (forall ts, is_Some (charge_delete_outbox d' !! ts) -> charge_uploads d' !! ts = None) -> Inv d -> Inv d'.
Proof.
  intros Hm Hd Hs He Ho [H1 H2 H3 H4 H5].
  assert (events_of d' = events_of d) as Hev by (unfold events_of; by rewrite He).
  split; rewrite ?Hd, ?Hs, ?Hev; try done.
  destruct H1 as (c & Hc & Hle). exists c. split; [|done].
  unfold last_stamp, max_changed in *. by rewrite Hm, Hd.
Qed.

Lemma Inv_meta_set d key v : key <> CLOCK -> Inv d -> Inv (meta_set d key v).
Proof. intros Hk Hi. apply (Inv_ext d); try done; [|apply Hi]. unfold meta_get. cbn. by rewrite lookup_insert_ne. Qed.

Lemma Inv_meta_del d key : key <> CLOCK -> Inv d -> Inv (meta_del d key).
Proof. intros Hk Hi. apply (Inv_ext d); try done; [|apply Hi]. unfold meta_get. cbn. by rewrite lookup_delete_ne. Qed.

Lemma Inv_tags d t : Inv d -> Inv (with_tags d t).
Proof. intros Hi. apply (Inv_ext d); try done. apply Hi. Qed.

Lemma Inv_costs d t : Inv d -> Inv (with_costs d t).
Proof. intros Hi. apply (Inv_ext d); try done. apply Hi. Qed.

Lemma Inv_put_tags d ts t : Inv d -> Inv (put_charge_tags d ts t).
Proof. apply Inv_tags. Qed.

Lemma Inv_put_cost d ts c : Inv d -> Inv (put_charge_cost d ts c).
Proof. apply Inv_costs. Qed.

Lemma Inv_uploads_at d ts v : outbox_contains d ts = false -> Inv d -> Inv (with_uploads d (<[ts := v]> (charge_uploads d))).
Proof.
  intros Ho Hi. apply (Inv_ext d); try done. cbn. intros t Ht. destruct (decide (t = ts)) as [->|].
  - unfold outbox_contains in Ho. apply bool_decide_eq_false in Ho. done.
  - rewrite lookup_insert_ne by done. by apply Hi.
Qed.

Lemma Inv_upload_same d ts v v' : charge_uploads d !! ts = Some v -> Inv d -> Inv (with_uploads d (<[ts := v']> (charge_uploads d))).
Proof.
  intros Hv Hi. apply Inv_uploads_at; [|done]. unfold outbox_contains. apply bool_decide_eq_false_2.
  intros H. apply (inv_outbox d Hi) in H. congruence.
Qed.

Lemma Inv_mark d kind key now d' : is_i64 now -> Inv d -> mark_mutable_dirty_at d kind key now = Ok d' -> Inv d'.
Proof.
  intros Hn Hi (c & Hc & Hmax & Hd)%mark_Ok. cbv zeta in Hd. set (g := Z.max now (c + 1)) in *.
  destruct Hi as [H1 H2 H3 H4 H5]. destruct H1 as (c' & Hc' & Hle). rewrite Hc in Hc'. injection Hc' as <-.
  assert (is_i64 g) as Hg by (unfold is_i64, g in *; lia).
  assert (forall k a, mutable_dirty d !! k = Some a -> exists b, mutable_dirty d' !! k = Some b /\ a <= b) as Hup.
  { intros k a Ha. subst d'. cbn. destruct (decide (k = (kind, key))) as [->|].
    - rewrite lookup_insert_eq. exists g. split; [done|]. specialize (Hle _ _ Ha). lia.
    - rewrite lookup_insert_ne by done. by exists a. }
  split.
  - exists g. split.
    + subst d'. unfold last_stamp, meta_get. cbn. rewrite lookup_insert_eq. rewrite parse_print_i64 by exact Hg. done.
    + subst d'. cbn. intros k a [[_ <-]|[_ Ha]]%lookup_insert_Some; [lia|]. specialize (Hle _ _ Ha). lia.
  - subst d'. apply H2.
  - intros k e He. assert (e ∈ events_of d k) as He' by (by subst d'). destruct (H3 k e He') as (a & Ha & Hea).
    destruct (Hup k a Ha) as (b & Hb & ?). exists b. split; [done|lia].
  - intros k l Hl. assert (intent_state d !! k = Some l) as Hl' by (by subst d').
    destruct (H4 k l Hl') as (a & Ha & Hx). destruct (Hup k a Ha) as (b & Hb & ?). exists b. split; [done|].
    intros x Ex. specialize (Hx x Ex). lia.
  - subst d'. apply H5.
Qed.

(** A generation above every stamp is appended. *)
Lemma insert_event_last g e l : Forall (fun x : Z * Edit => x.1 < g) l -> insert_event g e l = Ok (l ++ [(g, e)]).
Proof.
  induction 1 as [|[a x] t Ha Ht IH]; [done|]. cbn in *. destruct (Z.eqb_spec g a); [lia|].
  destruct (Z.ltb_spec g a); [lia|]. by rewrite IH.
Qed.

(** An edit queues at a generation above everything in its queue. *)
Lemma queue_edit_Ok now d kind key was e d' : is_i64 now -> Inv d ->
  queue_edit now d kind key was e = Ok d' ->
  exists c g, last_stamp d = Ok c /\ g = Z.max now (c + 1) /\
  (forall k a, mutable_dirty d !! k = Some a -> a < g) /\
  mutable_dirty d' = <[(kind, key) := g]> (mutable_dirty d) /\
  events_of d' (kind, key) = events_of d (kind, key) ++ [(g, e)] /\
  (forall k, k <> (kind, key) -> events_of d' k = events_of d k) /\
  intent_state d' = (match intent_state d !! (kind, key) with
                     | Some _ => intent_state d | None => <[(kind, key) := was]> (intent_state d) end) /\
  charge_tags d' = charge_tags d /\ charge_costs d' = charge_costs d /\ charge_uploads d' = charge_uploads d /\
  charge_delete_outbox d' = charge_delete_outbox d /\ meta d' = <[CLOCK := print_i64 g]> (meta d).
Proof.
  intros Hn Hi H. unfold queue_edit in H. apply rbind_Ok in H as (d1 & Hm & H).
  apply mark_Ok in Hm as (c & Hc & Hmax & Hd1). cbv zeta in Hd1. set (g := Z.max now (c + 1)) in *.
  assert (forall k a, mutable_dirty d !! k = Some a -> a < g) as Hlt.
  { intros k a Ha. destruct (inv_clock d Hi) as (c' & Hc' & Hle). rewrite Hc in Hc'. injection Hc' as <-.
    specialize (Hle k a Ha). lia. }
  unfold record in H. subst d1. unfold queued in H. cbn [mutable_dirty with_queue] in H. rewrite lookup_insert_eq in H.
  cbn [ok_or rbind] in H.
  match type of H with context [events_of ?x ?y] => change (events_of x y) with (events_of d y) in H end.
  rewrite insert_event_last in H.
  2: { apply Forall_forall. intros x Hx. destruct (inv_events d Hi _ _ Hx) as (a & Ha & Hle). specialize (Hlt _ _ Ha). lia. }
  cbn [rbind] in H. injection H as <-. exists c, g. cbn.
  split; [done|]. split; [done|]. split; [done|]. split; [done|].
  unfold events_of. cbn. split; [by rewrite lookup_insert_eq|].
  split; [intros k Hk; by rewrite lookup_insert_ne|]. done.
Qed.

Lemma Inv_queue_edit now d kind key e d' : is_i64 now -> Inv d ->
  queue_edit now d kind key (queued d kind key) e = Ok d' -> Inv d'.
Proof.
  intros Hn Hi H. pose proof H as H'. unfold queue_edit in H'. apply rbind_Ok in H' as (d1 & Hm & _).
  pose proof (Inv_mark d kind key now d1 Hn Hi Hm) as H1.
  apply mark_Ok in Hm as (c0 & Hc0 & _ & Hd1). cbv zeta in Hd1.
  apply queue_edit_Ok in H as (c & g & Hc & Hg & Hlt & Hd & He & Ho & Hs & Ht & Hco & Hu & Hob & Hme); [|done..].
  rewrite Hc in Hc0. injection Hc0 as <-. rewrite <- Hg in Hd1. destruct H1 as [A1 A2 A3 A4 A5]. split.
  - destruct A1 as (x & Hx & Hle). exists x. split.
    + unfold last_stamp, meta_get in *. rewrite Hd1 in Hx. cbn in Hx. rewrite Hme. by rewrite lookup_insert_eq in *.
    + rewrite Hd. rewrite Hd1 in Hle. exact Hle.
  - intros k. destruct (decide (k = (kind, key))) as [->|Hne]; [|by rewrite Ho; [apply Hi|]].
    rewrite He. apply StronglySorted_app_2; [intros x y Hx Hy|apply Hi|repeat constructor].
    apply list_elem_of_singleton in Hy as ->. destruct (inv_events d Hi _ _ Hx) as (a & Ha & Hle).
    specialize (Hlt _ _ Ha). cbn. lia.
  - intros k x Hx. rewrite Hd. destruct (decide (k = (kind, key))) as [->|Hne].
    + rewrite lookup_insert_eq. exists g. split; [done|]. rewrite He in Hx.
      apply elem_of_app in Hx as [Hx|Hx%list_elem_of_singleton]; [|by subst x; cbn].
      destruct (inv_events d Hi _ _ Hx) as (a & Ha & Hle). specialize (Hlt _ _ Ha). lia.
    + rewrite lookup_insert_ne by done. rewrite Ho in Hx by done. by apply Hi.
  - intros k l Hl. rewrite Hs in Hl.
    assert (intent_state d !! k = Some l \/ (k = (kind, key) /\ l = queued d kind key)) as [Hk|[-> ->]].
    { destruct (intent_state d !! (kind, key)); [by left|].
      apply lookup_insert_Some in Hl as [[<- <-]|[_ Hl]]; [by right|by left]. }
    + destruct (inv_state d Hi k l Hk) as (a & Ha & Hx). rewrite Hd. destruct (decide (k = (kind, key))) as [->|Hne].
      * rewrite lookup_insert_eq. exists g. split; [done|]. intros x Ex. specialize (Hx x Ex). specialize (Hlt _ _ Ha). lia.
      * rewrite lookup_insert_ne by done. by exists a.
    + rewrite Hd, lookup_insert_eq. exists g. split; [done|]. intros x Ex. by apply (Hlt (kind, key)).
  - rewrite Hu, Hob. apply Hi.
Qed.

(** ** Acknowledgement *)

Lemma events_retire d kind key t k :
  events_of (retire d kind key t) k =
  if bool_decide (k = (kind, key)) then List.filter (fun e : Z * Edit => negb (e.1 <=? t)) (events_of d k) else events_of d k.
Proof.
  unfold events_of at 1, retire. cbn [intent_events with_queue].
  set (ev := List.filter _ (events_of d (kind, key))). case_bool_decide as Hk.
  - subst k. fold ev. destruct (is_empty ev) eqn:E.
    + rewrite lookup_delete_eq. by rewrite (is_empty_nil ev E).
    + by rewrite lookup_insert_eq.
  - destruct (is_empty ev); [rewrite lookup_delete_ne by done|rewrite lookup_insert_ne by done]; done.
Qed.

Lemma elem_of_filter_newer (l : list (Z * Edit)) t e :
  e ∈ List.filter (fun e : Z * Edit => negb (e.1 <=? t)) l <-> e ∈ l /\ t < e.1.
Proof. rewrite !list_elem_of_In, filter_In, negb_true_iff, Z.leb_gt. done. Qed.

Lemma sorted_filter {A} (R : A -> A -> Prop) (f : A -> bool) l :
  StronglySorted R l -> StronglySorted R (List.filter f l).
Proof.
  induction 1 as [|x l Hl IH Hx]; cbn; [constructor|]. destruct (f x); [|done]. constructor; [done|].
  apply Forall_forall. intros y Hy. rewrite Forall_forall in Hx. apply Hx.
  apply list_elem_of_In. apply list_elem_of_In in Hy. by apply filter_In in Hy as [? _].
Qed.

Lemma Inv_retire d kind key t : Inv d -> Inv (retire d kind key t).
Proof.
  intros Hi. split.
  - destruct (inv_clock d Hi) as (c & Hc & ?). by exists c.
  - intros k. rewrite events_retire. case_bool_decide; [apply sorted_filter|]; apply Hi.
  - intros k e He. rewrite events_retire in He.
    assert (e ∈ events_of d k) by (case_bool_decide; [by apply elem_of_filter_newer in He as [? _]|done]).
    by apply (inv_events d Hi).
  - intros k l Hl. unfold retire in Hl |- *. cbn [intent_state mutable_dirty with_queue] in *.
    destruct (intent_state d !! (kind, key)) as [[x|]|] eqn:E; try by apply (inv_state d Hi).
    destruct (x <=? t); [|by apply (inv_state d Hi)].
    apply lookup_insert_Some in Hl as [[<- <-]|[_ Hl]]; [|by apply (inv_state d Hi)].
    destruct (inv_state d Hi _ _ E) as (g & Hg & _). by exists g.
  - apply Hi.
Qed.

Lemma events_drop d k k' : events_of (drop_dirty d k) k' = if bool_decide (k' = k) then [] else events_of d k'.
Proof.
  unfold events_of, drop_dirty. cbn. case_bool_decide as Hk; [by rewrite Hk, lookup_delete_eq|].
  by rewrite lookup_delete_ne.
Qed.

Lemma max_changed_same d d' : mutable_dirty d' = mutable_dirty d -> max_changed d' = max_changed d.
Proof. intros H. unfold max_changed. by rewrite H. Qed.

Lemma list_eq_nil {A} (l : list A) : (forall x, x ∉ l) -> l = [].
Proof. destruct l as [|x l]; [done|]. intros H. exfalso. apply (H x). by left. Qed.

Lemma Inv_drop d k : Inv d -> Inv (drop_dirty d k).
Proof.
  intros Hi. split.
  - destruct (inv_clock d Hi) as (c & Hc & Hle). unfold last_stamp in Hc |- *.
    change (meta_get (drop_dirty d k) CLOCK) with (meta_get d CLOCK). destruct (meta_get d CLOCK) as [v|].
    + exists c. split; [done|]. cbn. intros k' a [_ Ha]%lookup_delete_Some. by eapply Hle.
    + eexists. split; [done|]. apply max_changed_ge.
  - intros k'. rewrite events_drop. case_bool_decide; [constructor|apply Hi].
  - intros k' e He. rewrite events_drop in He. case_bool_decide as Hk; [by apply elem_of_nil in He|].
    cbn. rewrite lookup_delete_ne by done. by apply Hi.
  - intros k' l. cbn. intros [Hk Hl]%lookup_delete_Some. rewrite lookup_delete_ne by done. by apply (inv_state d Hi).
  - apply Hi.
Qed.

Lemma Inv_drop_at d k a : Inv d -> Inv (drop_dirty_at d k a).
Proof. intros Hi. unfold drop_dirty_at. case_bool_decide; [by apply Inv_drop|done]. Qed.

Lemma Inv_drop_through d k t : Inv d -> Inv (drop_dirty_through d k t).
Proof.
  intros Hi. unfold drop_dirty_through. destruct (mutable_dirty d !! k) as [a|]; [|done].
  destruct (a <=? t); [by apply Inv_drop|done].
Qed.

(** An acknowledgement of generation [t] removes the edits up to [t] and the
    row itself when nothing is newer. *)
Definition acknowledged (d d' : Db) (k : list Z * list Z) (t : Z) : Prop :=
  events_of d' k = List.filter (fun e : Z * Edit => negb (e.1 <=? t)) (events_of d k) /\
  mutable_dirty d' !! k = (if bool_decide (mutable_dirty d !! k = Some t) then None else mutable_dirty d !! k) /\
  forall k', k' <> k -> events_of d' k' = events_of d k' /\ mutable_dirty d' !! k' = mutable_dirty d !! k'.

Lemma retire_drop_acknowledged d kind key t : Inv d ->
  acknowledged d (drop_dirty_at (retire d kind key t) (kind, key) t) (kind, key) t.
Proof.
  intros Hi. unfold drop_dirty_at.
  change (mutable_dirty (retire d kind key t)) with (mutable_dirty d).
  case_bool_decide as Hq.
  - split; [|split].
    + rewrite events_drop, bool_decide_true by done. symmetry. apply list_eq_nil. intros e He.
      apply elem_of_filter_newer in He as [He Ht]. destruct (inv_events d Hi _ _ He) as (g & Hg & Hle).
      rewrite Hq in Hg. injection Hg as <-. lia.
    + rewrite bool_decide_true by done. cbn. by rewrite lookup_delete_eq.
    + intros k' Hk. rewrite events_drop, bool_decide_false, events_retire, bool_decide_false by done.
      cbn. by rewrite lookup_delete_ne.
  - split; [by rewrite events_retire, bool_decide_true|]. split; [by rewrite bool_decide_false|].
    intros k' Hk. by rewrite events_retire, bool_decide_false.
Qed.

(** ** Every interleaving *)

Definition receipt_ok (r : option (list Z * list Z)) : Prop :=
  match r with Some (key, _) => key <> CLOCK | None => True end.

(** One call of any operation, with any arguments of its types. *)
Inductive step (url_decode : list Z -> option (list Z)) (url_encode : list Z -> list Z) (d d' : Db) : Prop :=
| st_tags now ts tags mark : is_i64 now -> set_charge_tags_inner now d ts tags mark = Ok d' -> step _ _ d d'
| st_cost now ts cost mark : is_i64 now -> set_charge_cost_inner now d ts cost mark = Ok d' -> step _ _ d d'
| st_bulk now tss tag n : Forall is_i64 now -> add_charge_tag_bulk now d tss tag = Ok (n, d') -> step _ _ d d'
| st_apply ts id key tags cost : apply_charge_mutable_from_sync d ts id key tags cost = Ok d' -> step _ _ d d'
| st_clear kind key a : d' = clear_mutable_dirty d kind key a -> step _ _ d d'
| st_clear_source ts a id key up : d' = clear_charge_mutable_dirty_if_source d ts a id key up -> step _ _ d d'
| st_confirm ts t id key up tags cost r ok : receipt_ok r ->
    confirm_charge_mutable_push_with_receipt d ts t id key up tags cost r = Ok (ok, d') -> step _ _ d d'
| st_upload ts id key up g ok : (ok, d') = confirm_charge_upload d ts id key up g -> step _ _ d d'
| st_backfill ts id up key ok : backfill_charge_upload_key d ts id up key = Ok (ok, d') -> step _ _ d d'
| st_mark_upload ts id key up : d' = charge_upload_mark d ts id key up -> step _ _ d d'
| st_delete ts id : d' = delete_charge d ts id -> step _ _ d d'
| st_delete_ack ts now : d' = charge_delete_ack d ts now -> step _ _ d d'
| st_delete_remove ts : d' = charge_delete_remove d ts -> step _ _ d d'
| st_rate_dirty now : is_i64 now -> mark_rate_config_dirty now d = Ok d' -> step _ _ d d'
| st_stage now before after force tag j : is_i64 now ->
    stage_rate_preferences_with_tag now d before after force tag j = Ok d' -> step _ _ d d'
| st_stage_confirm c j : stage_rate_confirmation url_decode url_encode d c j = Ok d' -> step _ _ d d'
| st_finish_confirm c j : finish_rate_confirmation url_decode url_encode d c j = Ok d' -> step _ _ d d'.

Lemma Inv_set_tags now d ts tags mark d' : is_i64 now -> Inv d ->
  set_charge_tags_inner now d ts tags mark = Ok d' -> Inv d'.
Proof.
  intros Hn Hi H. unfold set_charge_tags_inner in H. pose proof (Inv_put_tags d ts tags Hi) as Hp.
  destruct mark; [|by injection H as <-].
  by eapply (Inv_queue_edit now (put_charge_tags d ts tags) CHARGE (print_i64 ts)).
Qed.

Lemma Inv_set_cost now d ts cost mark d' : is_i64 now -> Inv d ->
  set_charge_cost_inner now d ts cost mark = Ok d' -> Inv d'.
Proof.
  intros Hn Hi H. unfold set_charge_cost_inner in H. pose proof (Inv_put_cost d ts cost Hi) as Hp. inv_bind.
  destruct mark; [|by injection H as <-].
  by eapply (Inv_queue_edit now (put_charge_cost d ts cost) CHARGE (print_i64 ts)).
Qed.

Lemma Inv_add_tags now d tss tag d' : Forall is_i64 now -> Inv d -> add_charge_tags now d tss tag = Ok d' -> Inv d'.
Proof.
  revert now d. induction tss as [|ts rest IH]; intros now d Hn Hi H; cbn in H; [by injection H as <-|].
  apply rbind_Ok in H as (d1 & H1 & H).
  assert (is_i64 (default 0 (head now))) as Hh by (destruct Hn; cbn; [unfold is_i64, I64_MAX; lia|done]).
  apply (IH (tail now) d1); [by destruct Hn| |done].
  eapply (Inv_queue_edit _ (with_tags d _) CHARGE (print_i64 ts)); [exact Hh|by apply Inv_tags|exact H1].
Qed.

Lemma Inv_ack d kind key t : Inv d -> Inv (drop_dirty_at (retire d kind key t) (kind, key) t).
Proof. intros Hi. by apply Inv_drop_at, Inv_retire. Qed.

Lemma Inv_apply d ts id key tags cost d' : Inv d ->
  apply_charge_mutable_from_sync d ts id key tags cost = Ok d' -> Inv d'.
Proof.
  intros Hi H. unfold apply_charge_mutable_from_sync in H.
  destruct (charge_uploads d !! ts) as [[[i k] a]|] eqn:E; [|by injection H as <-].
  destruct (negb _); [done|]. case_bool_decide; [by injection H as <-|].
  set (d1 := if is_empty k then _ else _) in H.
  assert (Inv d1) as H1 by (unfold d1; destruct (is_empty k); [by eapply Inv_upload_same|done]).
  pose proof (fun c => Inv_put_cost (put_charge_tags d1 ts tags) ts c (Inv_put_tags d1 ts tags H1)) as Hc.
  destruct cost as [[am cu]|]; [destruct (cost_ok am); [|done]|]; injection H as <-; apply Hc.
Qed.

(** What a confirmation writes over the local values: nothing when a newer edit
    is unknown, else the confirmed document with the newer edits replayed. *)
Definition adopts (d d1 : Db) (ts t : Z) (tags : list (list Z)) (cost : option (Z * list Z)) : Prop :=
  if unknown_newer d (charge_key ts) t then d1 = d
  else exists tg pc, replay_newer t (events_of d (charge_key ts)) (str_set tags) false = Ok (tg, pc) /\
    let dt := put_charge_tags d ts (Charging.strip_reserved_tags tg) in
    if pc : bool then d1 = dt else d1 = put_charge_cost dt ts cost.

Lemma confirm_Ok d ts t id key up tags cost r d' :
  confirm_charge_mutable_push_with_receipt d ts t id key up tags cost r = Ok (true, d') ->
  exists d1, adopts d d1 ts t tags cost /\
  let d3 := drop_dirty_at (retire d1 CHARGE (print_i64 ts) t) (charge_key ts) t in
  d' = match r with Some (rk, _) => meta_del d3 rk | None => d3 end.
Proof.
  unfold confirm_charge_mutable_push_with_receipt, adopts. fold (charge_key ts).
  destruct (match r with Some _ => _ | None => _ end); [by intros [=]|].
  destruct (_ || _); [by intros [=]|]. intros H. apply rbind_Ok in H as (d1 & H1 & H). injection H as H.
  exists d1. split; [|by rewrite <- H]. destruct (unknown_newer d (charge_key ts) t); [by injection H1 as <-|].
  apply rbind_Ok in H1 as ([tg pc] & Hr & H1). exists tg, pc. split; [exact Hr|].
  cbv zeta. destruct pc; [by injection H1 as <-|]. apply rbind_Ok in H1 as (v & Hv & H1). by injection H1 as <-.
Qed.

Lemma confirm_false d ts t id key up tags cost r d' :
  confirm_charge_mutable_push_with_receipt d ts t id key up tags cost r = Ok (false, d') -> d' = d.
Proof.
  unfold confirm_charge_mutable_push_with_receipt.
  destruct (match r with Some _ => _ | None => _ end); [by intros [= <-]|].
  destruct (_ || _); [by intros [= <-]|]. intros H. by apply rbind_Ok in H as (d1 & _ & H).
Qed.

Lemma adopts_queue d d1 ts t tags cost : adopts d d1 ts t tags cost ->
  (Inv d -> Inv d1) /\ mutable_dirty d1 = mutable_dirty d /\ (forall k, events_of d1 k = events_of d k).
Proof.
  unfold adopts. destruct (unknown_newer _ _ _); [by intros ->|]. intros (tg & pc & _ & H). cbv zeta in H. destruct pc; subst d1.
  - split; [apply Inv_put_tags|done].
  - split; [intros Hi; by apply Inv_put_cost, Inv_put_tags|done].
Qed.

Lemma Inv_confirm d ts t id key up tags cost r ok d' : receipt_ok r -> Inv d ->
  confirm_charge_mutable_push_with_receipt d ts t id key up tags cost r = Ok (ok, d') -> Inv d'.
Proof.
  intros Hr Hi H. destruct ok; [|by apply confirm_false in H as ->].
  apply confirm_Ok in H as (d1 & Ha & Hd). apply adopts_queue in Ha as (H1 & _). cbv zeta in Hd.
  pose proof (Inv_ack d1 CHARGE (print_i64 ts) t (H1 Hi)) as H3. subst d'.
  destruct r as [[rk ?]|]; [by apply Inv_meta_del|done].
Qed.

Ltac destruct_if := match goal with |- context [if ?b then _ else _] => destruct b end.

Lemma Inv_upload d ts id key up g ok d' : Inv d -> (ok, d') = confirm_charge_upload d ts id key up g -> Inv d'.
Proof.
  intros Hi H. unfold confirm_charge_upload in H. destruct (outbox_contains d ts) eqn:Eo; [by injection H as _ ->|].
  destruct (match charge_uploads d !! ts with Some _ => _ | None => _ end); [by injection H as _ ->|].
  set (d1 := match charge_uploads d !! ts with Some _ => d | None => _ end) in H.
  assert (Inv d1) as H1 by (unfold d1; destruct (charge_uploads d !! ts); [done|by apply Inv_uploads_at]).
  injection H as _ ->. destruct key, g; try done. destruct_if; [by apply Inv_ack|done].
Qed.

Lemma Inv_delete d ts id : Inv d -> Inv (delete_charge d ts id).
Proof.
  intros Hi. unfold delete_charge. apply Inv_drop. apply (Inv_ext d); try done. cbn. intros t Ht.
  destruct (decide (t = ts)) as [->|]; [by rewrite lookup_delete_eq|]. rewrite lookup_delete_ne by done.
  rewrite lookup_insert_ne in Ht by done. by apply Hi.
Qed.

Lemma Inv_outbox_sub d o : (forall ts, is_Some (o !! ts) -> is_Some (charge_delete_outbox d !! ts)) -> Inv d ->
  Inv (with_outbox d o).
Proof. intros Ho Hi. apply (Inv_ext d); try done. cbn. intros ts Ht. by apply Hi, Ho. Qed.

Lemma Inv_stage now d before after force tag j d' : is_i64 now -> Inv d ->
  stage_rate_preferences_with_tag now d before after force tag j = Ok d' -> Inv d'.
Proof.
  intros Hn Hi H. unfold stage_rate_preferences_with_tag in H. inv_bind. apply Inv_meta_set; [done|].
  by eapply Inv_queue_edit.
Qed.

Section confirmation.
Context (url_decode : list Z -> option (list Z)) (url_encode : list Z -> list Z).

Lemma validate_receipt d c : validate url_decode url_encode d c = Ok tt -> receipt_ok (receipt c).
Proof.
  unfold validate. intros H. inv_bind. destruct (receipt c) as [[key raw]|]; [|done]. inv_bind. unfold receipt_ok.
  intros ->. match goal with E : strip_prefix _ CLOCK = Some _ |- _ => vm_compute in E; discriminate E end.
Qed.

Lemma Inv_finish d c j d' : Inv d -> finish_rate_confirmation url_decode url_encode d c j = Ok d' -> Inv d'.
Proof.
  intros Hi H. unfold finish_rate_confirmation in H. apply rbind_Ok in H as ([] & Hv & H).
  case_bool_decide; [|done]. injection H as <-. apply validate_receipt in Hv.
  apply Inv_meta_del; [done|]. pose proof (Inv_drop_through _ (RATE, []) (through c) (Inv_retire d RATE [] (through c) Hi)) as H2.
  destruct (receipt c) as [[key raw]|]; [by apply Inv_meta_del|done].
Qed.

Lemma Inv_step d d' : step url_decode url_encode d d' -> Inv d -> Inv d'.
Proof.
  intros Hs Hi. destruct Hs.
  - by eapply Inv_set_tags.
  - by eapply Inv_set_cost.
  - match goal with H : add_charge_tag_bulk _ _ _ _ = _ |- _ => unfold add_charge_tag_bulk in H end.
    destruct (_ || _); [done|]. destruct (is_empty tss); [by simplify_eq|]. inv_bind. simplify_eq. by eapply Inv_add_tags.
  - by eapply Inv_apply.
  - subst d'. unfold clear_mutable_dirty. destruct_if; [by apply Inv_ack|done].
  - subst d'. unfold clear_charge_mutable_dirty_if_source. destruct (_ && _); [by apply Inv_ack|done].
  - by eapply Inv_confirm.
  - by eapply Inv_upload.
  - match goal with H : backfill_charge_upload_key _ _ _ _ _ = _ |- _ => unfold backfill_charge_upload_key in H end.
    destruct (is_empty key); [done|]. destruct (charge_uploads d !! ts) as [[[i k] a]|] eqn:E; [|by simplify_eq].
    destruct (_ && _); [|by simplify_eq]. simplify_eq. destruct (is_empty k); [by eapply Inv_upload_same|done].
  - subst d'. unfold charge_upload_mark. destruct (outbox_contains d ts) eqn:E; [done|by apply Inv_uploads_at].
  - subst d'. by apply Inv_delete.
  - subst d'. unfold charge_delete_ack. destruct (charge_delete_outbox d !! ts) as [[i a]|] eqn:E; [|done].
    apply Inv_outbox_sub; [|done]. intros t. destruct (decide (t = ts)) as [->|]; [by rewrite E|by rewrite lookup_insert_ne].
  - subst d'. unfold charge_delete_remove. destruct (charge_delete_outbox d !! ts) as [[i [a|]]|] eqn:E; try done.
    apply Inv_outbox_sub; [|done]. intros t [x [_ Hx]%lookup_delete_Some]. by eexists.
  - by eapply Inv_mark.
  - by eapply Inv_stage.
  - match goal with H : stage_rate_confirmation _ _ _ _ _ = _ |- _ => unfold stage_rate_confirmation in H end. inv_bind.
    case_bool_decide; [|done]. simplify_eq. by apply Inv_meta_set.
  - by eapply Inv_finish.
Qed.

Definition reachable (d : Db) : Prop := rtc (step url_decode url_encode) empty_db d.

Lemma reachable_Inv d : reachable d -> Inv d.
Proof. apply (rtc_ind_r Inv); [apply Inv_empty|]. intros. by eapply Inv_step. Qed.

(** C23: over every interleaving of local edits, incoming cloud documents,
    acknowledgements, uploads, deletions and rate publications, the queue stays
    consistent: no queued generation is ahead of the clock; a record's edits are
    strictly ordered and none is newer than its queue row; edits and their
    bookkeeping exist only for queued records; and a session whose deletion is
    waiting for the cloud is never recorded as uploaded. *)
Theorem queue_consistent d : reachable d ->
  (exists c, last_stamp d = Ok c /\ forall k a, mutable_dirty d !! k = Some a -> a <= c) /\
  (forall k, StronglySorted ev_lt (events_of d k) /\
             forall e, e ∈ events_of d k -> exists g, mutable_dirty d !! k = Some g /\ e.1 <= g) /\
  (forall k l, intent_state d !! k = Some l -> exists g, mutable_dirty d !! k = Some g /\ forall x, l = Some x -> x < g) /\
  (forall ts, outbox_contains d ts = true -> charge_uploads d !! ts = None).
Proof.
  intros [H1 H2 H3 H4 H5]%reachable_Inv. split; [done|]. split; [split; [apply H2|apply H3]|]. split; [done|].
  intros ts Ho. apply H5. unfold outbox_contains in Ho. by apply bool_decide_eq_true in Ho.
Qed.

End confirmation.

(** ** Replay *)

(** The edits of a queue over a set of tags, oldest first. *)
Definition replay_all (l : list (Z * Edit)) (s : list (list Z)) : list (list Z) :=
  foldl (fun s (e : Z * Edit) => replay_tags e.2 s) s l.

Definition is_cost (e : Z * Edit) : bool := match e.2 with CostOverride _ _ => true | _ => false end.

Lemma replay_newer_Ok t l : forall s pc s' pc', replay_newer t l s pc = Ok (s', pc') ->
  let newer := List.filter (fun e : Z * Edit => negb (e.1 <=? t)) l in
  s' = replay_all newer s /\ pc' = pc || existsb is_cost newer.
Proof.
  induction l as [|[a e] l IH]; intros s pc s' pc'; cbn [replay_newer List.filter fst].
  { intros [= <- <-]. by rewrite orb_false_r. }
  destruct (a <=? t); cbn [negb]; [apply IH|]. destruct e as [ad rm|cb ca|? ? ? ?]; [| |done].
  - intros H%IH. exact H.
  - intros H%IH. cbv zeta in H. destruct H as [-> ->]. split; [done|]. cbn. by rewrite orb_true_r.
Qed.

Lemma elem_of_lfilter {A} (f : A -> bool) l x : x ∈ List.filter f l <-> x ∈ l /\ f x = true.
Proof. by rewrite !list_elem_of_In, filter_In. Qed.

Lemma replay_tags_ascending e s : StronglySorted (set_lt str_leb) s -> StronglySorted (set_lt str_leb) (replay_tags e s).
Proof.
  intros H. destruct e; [|done..]. cbn.
  apply set_extend_ascending; [apply str_leb_total|apply str_leb_trans|apply str_leb_antisym|by apply sorted_filter].
Qed.

Lemma elem_of_replay_tags e s x : x ∈ replay_tags e s <->
  match e with Tags a r => x ∈ a \/ (x ∈ s /\ x ∉ r) | _ => x ∈ s end.
Proof.
  destruct e; [|done..]. cbn. rewrite elem_of_set_extend, elem_of_lfilter, negb_true_iff, bool_decide_eq_false. done.
Qed.

Lemma replay_all_ascending l : forall s, StronglySorted (set_lt str_leb) s -> StronglySorted (set_lt str_leb) (replay_all l s).
Proof. induction l as [|e l IH]; intros s H; [done|]. cbn. by apply IH, replay_tags_ascending. Qed.

Lemma replay_all_app l l' s : replay_all (l ++ l') s = replay_all l' (replay_all l s).
Proof. apply foldl_app. Qed.

(** What the last edit that touches a tag says of it. *)
Definition touch (x : list Z) (e : Z * Edit) : option bool :=
  match e.2 with
  | Tags a r => if bool_decide (x ∈ a) then Some true else if bool_decide (x ∈ r) then Some false else None
  | _ => None
  end.

Fixpoint last_touch (x : list Z) (l : list (Z * Edit)) : option bool :=
  match l with
  | [] => None
  | e :: t => match last_touch x t with Some b => Some b | None => touch x e end
  end.

Lemma elem_of_replay_all x l : forall s, x ∈ replay_all l s <->
  match last_touch x l with Some b => b = true | None => x ∈ s end.
Proof.
  induction l as [|e l IH]; intros s; [done|]. cbn [last_touch].
  change (replay_all (e :: l) s) with (replay_all l (replay_tags e.2 s)). rewrite IH.
  destruct (last_touch x l); [done|]. rewrite elem_of_replay_tags. unfold touch. destruct e.2 as [a r|? ?|? ? ? ?]; [|done..].
  case_bool_decide; [tauto|]. case_bool_decide; [|tauto]. split; [tauto|done].
Qed.

(** A tag edit, replayed over the tags it was made on, gives the new tags. *)
Lemma replay_tag_edit before after : Forall (fun t => nonempty t = true) before ->
  replay_tags (tag_edit before after) (str_set before) = str_set (List.filter nonempty after).
Proof.
  intros Hne. apply str_set_unique; [apply replay_tags_ascending, str_set_ascending|apply str_set_ascending|].
  intros x. rewrite elem_of_replay_tags. unfold tag_edit.
  assert (forall l, x ∈ str_set (List.filter nonempty l) <-> x ∈ l /\ nonempty x = true) as He
    by (intros l; by rewrite elem_of_set_of, elem_of_lfilter).
  assert (forall l l' : list (list Z), x ∈ List.filter (fun t => negb (bool_decide (t ∈ l))) l' <-> x ∈ l' /\ x ∉ l) as Hd
    by (intros l l'; by rewrite elem_of_lfilter, negb_true_iff, bool_decide_eq_false).
  rewrite !Hd, !He, elem_of_set_of. rewrite Forall_forall in Hne. specialize (Hne x).
  destruct (decide (x ∈ before)), (decide (x ∈ after)), (nonempty x); tauto.
Qed.

Lemma acknowledged_from d d1 d' k t : mutable_dirty d1 = mutable_dirty d -> (forall k, events_of d1 k = events_of d k) ->
  acknowledged d1 d' k t -> acknowledged d d' k t.
Proof. intros Hd He (H1 & H2 & H3). unfold acknowledged. by rewrite <- !Hd, <- He; setoid_rewrite <- He. Qed.

(** The local tags after a confirmation: the confirmed tags with every newer
    edit replayed, less reserved and empty names. *)
Definition confirmed_tags_view (tags : list (list Z)) (newer : list (Z * Edit)) : list (list Z) :=
  str_set (List.filter nonempty (Charging.strip_reserved_tags (replay_all newer (str_set tags)))).

Lemma get_put_tags d ts tags : get_charge_tags (put_charge_tags d ts tags) ts = str_set (List.filter nonempty tags).
Proof.
  unfold get_charge_tags, put_charge_tags. cbn. destruct (is_empty _) eqn:E.
  - rewrite lookup_delete_eq. by rewrite (is_empty_nil _ E).
  - by rewrite lookup_insert_eq.
Qed.

(** A confirmed push retires exactly what was pushed. When the cloud
    confirms generation [t] of a charge session, every later edit stays queued
    in order, the queue row stays unless [t] is its newest generation, no other
    record's queue changes; and the local values become the confirmed document
    with the later edits replayed over it, a later cost kept as it is — or stay
    untouched when a later edit's content is unknown. *)
Theorem confirm_keeps_newer d ts t id key up tags cost r d' :
  Inv d -> confirm_charge_mutable_push_with_receipt d ts t id key up tags cost r = Ok (true, d') ->
  let newer := List.filter (fun e : Z * Edit => negb (e.1 <=? t)) (events_of d (charge_key ts)) in
  acknowledged d d' (charge_key ts) t /\
  if unknown_newer d (charge_key ts) t
  then get_charge_tags d' ts = get_charge_tags d ts /\ get_charge_cost d' ts = get_charge_cost d ts
  else get_charge_tags d' ts = confirmed_tags_view tags newer /\
       get_charge_cost d' ts = (if existsb is_cost newer then get_charge_cost d ts else cost).
Proof.
  intros Hi (d1 & Ha & Hd)%confirm_Ok. cbv zeta in Hd |- *. pose proof (adopts_queue d d1 ts t tags cost Ha) as (H1 & Hq & He).
  pose proof (retire_drop_acknowledged d1 CHARGE (print_i64 ts) t (H1 Hi)) as Hack.
  set (d3 := drop_dirty_at (retire d1 CHARGE (print_i64 ts) t) (charge_key ts) t) in *.
  assert (charge_tags d' = charge_tags d1 /\ charge_costs d' = charge_costs d1 /\ mutable_dirty d' = mutable_dirty d3 /\
          intent_events d' = intent_events d3) as (Ht & Hc & Hm & Hev).
  { assert (charge_tags d3 = charge_tags d1 /\ charge_costs d3 = charge_costs d1) as [? ?].
    { unfold d3, drop_dirty_at. by case_bool_decide. }
    subst d'. destruct r as [[? ?]|]; done. }
  split.
  - apply (acknowledged_from d d1 d'); [done|done|]. unfold acknowledged, events_of. rewrite Hm, Hev. exact Hack.
  - unfold get_charge_tags, get_charge_cost. rewrite Ht, Hc. fold (get_charge_tags d1 ts) (get_charge_cost d1 ts).
    unfold adopts in Ha. destruct (unknown_newer d (charge_key ts) t); [by subst d1|].
    destruct Ha as (tg & pc & Hr & Hd1). apply replay_newer_Ok in Hr as [-> ->]. cbn [orb] in Hd1. cbv zeta in Hd1.
    destruct (existsb is_cost _); subst d1; split; try done.
    + apply get_put_tags.
    + apply (get_put_tags d ts).
    + unfold get_charge_cost, put_charge_cost. cbn. destruct cost; [by rewrite lookup_insert_eq|by rewrite lookup_delete_eq].
Qed.

(** A session with one confirmed upload and two edits. *)
Definition wq_start : Db := charge_upload_mark empty_db 1700 (lit "id") (lit "key") 5.
Definition wq_db : Db :=
  match set_charge_tags 100 wq_start 1700 [lit "Work"] with
  | Ok d => match set_charge_tags 50 d 1700 [lit "Work"; lit "Trip"] with Ok d => d | Err _ => d end
  | Err _ => wq_start
  end.

Example wq_generations : dirty_mutables wq_db = [(CHARGE, lit "1700", 101)].
Proof. vm_compute. reflexivity. Qed.

Lemma wq_reachable : reachable (fun _ => None) id wq_db.
Proof.
  unfold wq_db. destruct (set_charge_tags 100 wq_start 1700 [lit "Work"]) as [d1|] eqn:E1; cycle 1.
  { eapply rtc_l; [by eapply st_mark_upload|apply rtc_refl]. }
  assert (is_i64 100 /\ is_i64 50) as [? ?] by (unfold is_i64, I64_MAX; lia).
  eapply rtc_l; [by eapply (st_mark_upload _ _ _ _ 1700 (lit "id") (lit "key") 5)|].
  eapply rtc_l; [apply (st_tags _ _ _ _ 100 1700 [lit "Work"] true); [done|exact E1]|].
  destruct (set_charge_tags 50 d1 1700 [lit "Work"; lit "Trip"]) as [d2|] eqn:E2; [|apply rtc_refl].
  eapply rtc_l; [apply (st_tags _ _ _ _ 50 1700 [lit "Work"; lit "Trip"] true); [done|exact E2]|apply rtc_refl].
Qed.

Lemma queue_consistent_witness :
  exists c, last_stamp wq_db = Ok c /\ forall k a, mutable_dirty wq_db !! k = Some a -> a <= c.
Proof. apply (queue_consistent (fun _ => None) id wq_db wq_reachable). Defined.

Lemma confirm_keeps_newer_witness :
  exists d', get_charge_tags d' 1700 = [lit "Remote"; lit "Trip"; lit "Work"] /\ queued d' CHARGE (lit "1700") = Some 101.
Proof.
  destruct (confirm_charge_mutable_push_with_receipt wq_db 1700 100 (lit "id") (lit "key") 5
    [lit "Work"; lit "Remote"] None None) as [[[] d']|] eqn:E.
  2,3: exfalso; revert E; vm_compute; discriminate.
  pose proof (confirm_keeps_newer wq_db 1700 100 (lit "id") (lit "key") 5 [lit "Work"; lit "Remote"] None None d'
    (reachable_Inv (fun _ => None) id _ wq_reachable) E) as H. cbv zeta in H. destruct H as [(He & Hq & _) Hv].
  exists d'. split.
  - assert (unknown_newer wq_db (charge_key 1700) 100 = false) as Hu by (vm_compute; reflexivity). rewrite Hu in Hv.
    destruct Hv as [-> _]. vm_compute. reflexivity.
  - unfold queued. change (CHARGE, lit "1700") with (charge_key 1700). rewrite Hq. vm_compute. reflexivity.
Defined.
