(* ===== verification/CloudMerge.v ===== *)
(** * Merging queued edits into a cloud document:
      [cloud_uploader/src/sync/merge_intent.rs]

    The tag edits and the cost edits of a queued charge are applied to the
    document the cloud holds now; a cost changed elsewhere is refused. *)

From Stdlib Require Import ZArith Lia.
From stdpp Require Import base gmap list.
From S2P Require Import Prelude Float Str Json Config Charging MutableQueue.

Open Scope Z_scope.

Module CloudMerge.
Import Json MutableQueue.

Inductive MergeError :=
| MLegacy | MTags | MTag | MNotObject | MMissingTags | MCost | MCostCurrency | MInvalidCost | MCostChanged.

Fixpoint tag_strings (l : list Value) : result MergeError (list (list Z)) :=
  match l with
  | [] => Ok []
  | v :: t =>
      let? s := ok_or (as_str v) MTag in
      let? r := tag_strings t in Ok (s :: r)
  end.

Definition tags (value : Value) : result MergeError (list (list Z)) :=
  let? l := ok_or (as_array value) MTags in tag_strings l.

Definition merge_tags (intent : Intent) (cloud : Value) : result MergeError Value :=
  if legacy intent then Err MLegacy
  else
    let? current := tags cloud in
    let result := foldl (fun s (e : Z * Edit) => replay_tags e.2 s) (str_set current) (edits intent) in
    Ok (strings result).

(** [value.get(key)]. *)
Definition get (v : Value) (key : list Z) : option Value := m ← as_object v; m !! key.

Definition cost_core (value : Value) : result MergeError (option (Z * list Z)) :=
  if is_null value then Ok None
  else
    let? amount := ok_or (get value (lit "amount") ≫= as_f64) MCost in
    let? currency := ok_or (get value (lit "currency") ≫= as_str) MCostCurrency in
    if cost_ok amount then Ok (Some (amount, currency)) else Err MInvalidCost.

(** [==] on the cores: amounts compare as numbers. *)
Definition core_eqb (a b : option (Z * list Z)) : bool :=
  match a, b with
  | None, None => true
  | Some (x, c), Some (y, d) => F64.eq x y && bool_decide (c = d)
  | _, _ => false
  end.

Definition cost_edits (intent : Intent) : list (Value * Value) :=
  omap (fun e : Z * Edit => match e.2 with CostOverride before after => Some (before, after) | _ => None end) (edits intent).

(** The loop [for (_, after) in &costs]. *)
Fixpoint any_after (current : option (Z * list Z)) (costs : list (Value * Value)) (known : bool) : result MergeError bool :=
  match costs with
  | [] => Ok known
  | (_, after) :: t => let? core := cost_core after in any_after current t (known || core_eqb current core)
  end.

(** The cost to write, when there is a cost edit. *)
Definition next_cost (intent : Intent) (current_cost : Value) (current_core : option (Z * list Z))
    : result MergeError (option Value) :=
  let costs := cost_edits intent in
  match last costs, head costs with
  | Some (_, desired), Some (first, _) =>
      let? first_core := cost_core first in
      let? known := any_after current_core costs (core_eqb current_core first_core) in
      if negb known then Err MCostChanged
      else
        let? _ := cost_core desired in
        Ok (Some (if is_null desired then Null
                  else let value := default ∅ (as_object current_cost) in
                       Object (<[lit "currency" := index desired (lit "currency")]>
                                 (<[lit "amount" := index desired (lit "amount")]> value))))
  | _, _ => Ok None
  end.

Definition merge_charge (intent : Intent) (cloud : Value) : result MergeError Value :=
  if legacy intent then Err MLegacy
  else
    let? fields := ok_or (as_object cloud) MNotObject in
    let? current_tags := ok_or (fields !! lit "tags") MMissingTags in
    let? _ := tags current_tags in
    let current_cost := default Null (fields !! lit "costOverride") in
    let? current_core := cost_core current_cost in
    let? next := next_cost intent current_cost current_core in
    let? fields1 :=
      if existsb (fun e : Z * Edit => match e.2 with Tags _ _ => true | _ => false end) (edits intent)
      then let? merged := merge_tags intent current_tags in Ok (<[lit "tags" := merged]> fields)
      else Ok fields in
    Ok (Object (match next with Some cost => <[lit "costOverride" := cost]> fields1 | None => fields1 end)).

End CloudMerge.
