(* ===== verification/CloudMergeSpec.v ===== *)
(** * Merging queued edits into a cloud document: theorems

    Each tag is decided by the last local edit that touched it and by the cloud
    otherwise; a cost is replaced only when the cloud still holds one this
    device knows; no other field changes. Queued edits merged into the document
    they were made on give the local values back. *)

From Stdlib Require Import ZArith Lia Sorted.
From stdpp Require Import base gmap list sorting.
From S2P Require Import Prelude Float Str Json Config Charging MutableQueue MutableQueueSpec CloudMerge.

Import Json MutableQueue CloudMerge.
Open Scope Z_scope.

(** ** Tags *)

Lemma tag_strings_strings l : tag_strings (String <$> l) = Ok l.
Proof. induction l as [|s l IH]; [done|]. cbn. by rewrite IH. Qed.

Lemma cloud_tags_strings l : tags (strings l) = Ok l.
Proof. unfold tags, strings. cbn. apply tag_strings_strings. Qed.

Lemma merge_tags_Ok i cloud v : merge_tags i cloud = Ok v ->
  exists l, tags cloud = Ok l /\ v = strings (replay_all (edits i) (str_set l)) /\ legacy i = false.
Proof.
  unfold merge_tags. destruct (legacy i); [done|]. destruct (tags cloud) as [l|]; [|done]. cbn. intros [= <-]. by exists l.
Qed.

Definition has_tag_edit (i : Intent) : bool :=
  existsb (fun e : Z * Edit => match e.2 with Tags _ _ => true | _ => false end) (edits i).

(** ** Costs *)

Lemma any_after_true cur costs : forall known, any_after cur costs known = Ok true ->
  known = true \/ exists a core, a ∈ costs.*2 /\ cost_core a = Ok core /\ core_eqb cur core = true.
Proof.
  induction costs as [|[b a] t IH]; intros known; cbn; [intros [= ->]; by left|].
  destruct (cost_core a) as [core|] eqn:E; cbn; [|done]. intros [H|(a' & core' & Ha & H)]%IH.
  - apply orb_true_iff in H as [->|H]; [by left|]. right. exists a, core. split; [by left|done].
  - right. exists a', core'. split; [by right|done].
Qed.

Lemma cost_core_rewrite desired core value : cost_core desired = Ok (Some core) ->
  cost_core (Object (<[lit "currency" := index desired (lit "currency")]>
                       (<[lit "amount" := index desired (lit "amount")]> value))) = Ok (Some core).
Proof.
  unfold cost_core. destruct (is_null desired); [done|]. cbn [is_null].
  assert (forall k w, get desired k = Some w -> index desired k = w) as Hg.
  { intros k w. unfold get, index. destruct desired; try done. cbn. by intros ->. }
  destruct (get desired (lit "amount")) as [wa|] eqn:Ea; [|done]. destruct (get desired (lit "currency")) as [wc|] eqn:Ec.
  2: { cbn [mbind option_bind]. by destruct (as_f64 wa). }
  rewrite (Hg _ _ Ea), (Hg _ _ Ec).
  change (get (Object ?m) ?k) with (m !! k). rewrite lookup_insert_ne by done. by rewrite !lookup_insert_eq.
Qed.

(** ** The whole document *)

(** The keys a merge may write. *)
Definition merge_keys : list (list Z) := [lit "tags"; lit "costOverride"].

(** The cloud's cost is one this device has held: the one before its first
    queued edit or the one after any of them. *)
Definition known_cost (i : Intent) (cur : option (Z * list Z)) : Prop :=
  exists v core, (Some v = fst <$> head (cost_edits i) \/ v ∈ (cost_edits i).*2) /\
    cost_core v = Ok core /\ core_eqb cur core = true.

(** The cost a merge writes for the edit [desired]: nothing for a deletion;
    otherwise the cloud's own cost with the amount and the currency replaced. *)
Definition rewritten_cost (desired cost written : Value) : Prop :=
  if is_null desired then written = Null
  else exists c, written = Object c /\
    c !! lit "amount" = get desired (lit "amount") /\ c !! lit "currency" = get desired (lit "currency") /\
    forall k, k <> lit "amount" -> k <> lit "currency" -> c !! k = get cost k.

Lemma cost_core_fields desired core k : is_null desired = false -> cost_core desired = Ok core ->
  k = lit "amount" \/ k = lit "currency" -> get desired k = Some (index desired k).
Proof.
  intros En. unfold cost_core. rewrite En. intros (a & Ha%ok_or_Ok & (c & Hc%ok_or_Ok & _)%rbind_Ok)%rbind_Ok Hk.
  assert (is_Some (get desired k)) as [v Hv].
  { destruct Hk as [->| ->]; [destruct (get desired (lit "amount"))|destruct (get desired (lit "currency"))]; done. }
  rewrite Hv. unfold get in Hv. destruct desired; try done. cbn in *. by rewrite Hv.
Qed.

Lemma next_cost_Ok i cost cur next : next_cost i cost cur = Ok next ->
  match last (cost_edits i) with
  | None => next = None
  | Some (_, desired) => known_cost i cur /\ exists v core, next = Some v /\ cost_core desired = Ok core /\
      cost_core v = Ok core /\ rewritten_cost desired cost v
  end.
Proof.
  unfold next_cost, known_cost. destruct (last (cost_edits i)) as [[b desired]|] eqn:El; [|by intros [= <-]].
  destruct (head (cost_edits i)) as [[first a]|] eqn:Eh.
  2: { destruct (cost_edits i); [by rewrite last_nil in El|done]. }
  intros H. apply rbind_Ok in H as (fc & Hf & H). apply rbind_Ok in H as ([] & Hk & H); [|done]. cbn [negb] in H.
  apply rbind_Ok in H as (core & Hd & H). injection H as <-. split.
  - apply any_after_true in Hk as [E|(v & co & Hv & Hc & He)].
    + exists first, fc. split; [by left|done].
    + exists v, co. split; [by right|done].
  - eexists _, core. split; [done|]. split; [done|]. unfold rewritten_cost. destruct (is_null desired) eqn:En.
    + unfold cost_core in Hd. rewrite En in Hd. by injection Hd as <-.
    + split.
      * destruct core as [core|]; [by apply cost_core_rewrite|]. exfalso. unfold cost_core in Hd. rewrite En in Hd. inv_bind.
        by destruct (cost_ok _).
      * eexists. split; [reflexivity|]. rewrite !(cost_core_fields desired core) by auto.
        rewrite lookup_insert_eq, lookup_insert_ne, lookup_insert_eq by done. split; [done|]. split; [done|].
        intros k H1 H2. rewrite !lookup_insert_ne by done. unfold get. by destruct cost; cbn; rewrite ?lookup_empty.
Qed.

Lemma has_tag_edit_spec i : has_tag_edit i = true <-> exists g a r, (g, Tags a r) ∈ edits i.
Proof.
  unfold has_tag_edit. rewrite existsb_exists. split.
  - intros ([g e] & Hin%list_elem_of_In & He). destruct e as [a r| |]; try done. by exists g, a, r.
  - intros (g & a & r & Hin%list_elem_of_In). by exists (g, Tags a r).
Qed.

Lemma tags_step (i : Intent) (m m1 : gmap (list Z) Value) cl l : m !! lit "tags" = Some cl -> tags cl = Ok l ->
  (if has_tag_edit i then let? merged := merge_tags i cl in Ok (<[lit "tags" := merged]> m) else Ok m) = Ok m1 ->
  (forall k, k <> lit "tags" -> m1 !! k = m !! k) /\
  (has_tag_edit i = false -> m1 = m) /\
  (has_tag_edit i = true -> exists l', m1 !! lit "tags" = Some (strings l') /\ str_ascending l' /\
    forall x : list Z, x ∈ l' <-> match last_touch x (edits i) with Some b => b = true | None => x ∈ l end).
Proof.
  intros Hm Hl H. destruct (has_tag_edit i) eqn:Eh.
  - apply rbind_Ok in H as (w & Hw & H). injection H as <-. apply merge_tags_Ok in Hw as (l2 & E2 & -> & _).
    rewrite Hl in E2. injection E2 as <-. split; [intros k Hk; by rewrite lookup_insert_ne|]. split; [done|]. intros _.
    eexists. rewrite lookup_insert_eq. split; [done|]. split; [by apply replay_all_ascending, str_set_ascending|].
    intros x. rewrite elem_of_replay_all. destruct (last_touch x (edits i)); [done|apply elem_of_set_of].
  - injection H as <-. done.
Qed.

(** C25: merging queued edits into the cloud's current document changes only
    what was edited here. Every other field is kept. Without a tag edit the
    cloud's tags are kept as they are; with one, the result is a sorted list in
    which a tag is decided by the last local edit that touched it, and by the
    cloud's own list when none did. Without a cost edit the cost is kept. With
    one, the cloud's cost must be one this device has held; then the last edit
    is written: no cost for a deletion, and otherwise the cloud's cost with the
    edit's amount and currency and all its other fields kept. *)
Theorem merge_charge_exact i cloud merged :
  merge_charge i cloud = Ok merged ->
  exists m m' cl l, cloud = Object m /\ merged = Object m' /\ m !! lit "tags" = Some cl /\ tags cl = Ok l /\
  (forall k, k ∉ merge_keys -> m' !! k = m !! k) /\
  ((forall g a r, (g, Tags a r) ∉ edits i) -> m' !! lit "tags" = Some cl) /\
  ((exists g a r, (g, Tags a r) ∈ edits i) -> exists l', m' !! lit "tags" = Some (strings l') /\ str_ascending l' /\
     forall x : list Z, x ∈ l' <-> match last_touch x (edits i) with Some b => b = true | None => x ∈ l end) /\
  match last (cost_edits i) with
  | None => m' !! lit "costOverride" = m !! lit "costOverride"
  | Some (_, desired) =>
      let cost := default Null (m !! lit "costOverride") in
      (exists cur, cost_core cost = Ok cur /\ known_cost i cur) /\
      exists v core, m' !! lit "costOverride" = Some v /\ cost_core desired = Ok core /\ cost_core v = Ok core /\
        rewritten_cost desired cost v
  end.
Proof.
  unfold merge_charge. destruct (legacy i); [done|]. fold (has_tag_edit i). intros H.
  apply rbind_Ok in H as (m & Hm & H). apply ok_or_Ok in Hm. destruct cloud; try discriminate. injection Hm as ->.
  apply rbind_Ok in H as (cl & Hcl & H). apply ok_or_Ok in Hcl. apply rbind_Ok in H as (l & Hl & H). cbv zeta in H.
  apply rbind_Ok in H as (cur & Hcur & H). apply rbind_Ok in H as (next & Hn & H). apply rbind_Ok in H as (m1 & H1 & H).
  injection H as <-. apply next_cost_Ok in Hn. destruct (tags_step i m m1 cl l Hcl Hl H1) as (Hk & Hno & Hyes).
  assert (lit "tags" <> lit "costOverride") as Hne by (intros E; apply (f_equal length) in E; discriminate E).
  assert (forall c, <[lit "costOverride" := c]> m1 !! lit "tags" = m1 !! lit "tags") as Htags
    by (intros c; by rewrite lookup_insert_ne).
  exists m. eexists _, cl, l. split; [done|]. split; [done|]. split; [done|]. split; [done|]. split; [|split; [|split]].
  - intros k Hk'. unfold merge_keys in Hk'. rewrite !not_elem_of_cons in Hk'. destruct Hk' as (? & ? & _).
    destruct next; [rewrite lookup_insert_ne by done|]; by apply Hk.
  - intros Hnone. assert (has_tag_edit i = false) as E.
    { apply not_true_iff_false. rewrite has_tag_edit_spec. intros (g & a & r & Hin). by apply (Hnone g a r). }
    destruct next; rewrite ?Htags; by rewrite (Hno E).
  - intros Hsome%has_tag_edit_spec. destruct next; rewrite ?Htags; by apply Hyes.
  - destruct (last (cost_edits i)) as [[b desired]|]; [|by subst next; apply Hk].
    destruct Hn as [Hknown (w & core & -> & Hd & Hw)]. split; [by exists cur|].
    exists w, core. rewrite lookup_insert_eq. done.
Qed.

Lemma merge_charge_exact_witness :
  exists m', merge_charge {| legacy := false; edits := [(1, Tags [lit "Work"] [lit "Old"])] |}
    (Object (<[lit "tags" := strings [lit "Old"; lit "Remote"]]> {[ lit "extra" := Bool true ]})) = Ok (Object m') /\
  m' !! lit "extra" = Some (Bool true).
Proof.
  set (i := {| legacy := false; edits := [(1, Tags [lit "Work"] [lit "Old"])] |}).
  set (c := Object (<[lit "tags" := strings [lit "Old"; lit "Remote"]]> {[ lit "extra" := Bool true ]})).
  destruct (merge_charge i c) as [v|] eqn:E; [|exfalso; revert E; vm_compute; discriminate].
  destruct (merge_charge_exact i c v E) as (m & m' & cl & l & Hc & -> & _ & _ & Hk & _). exists m'. split; [done|].
  injection Hc as <-. rewrite Hk; [reflexivity|].
  unfold merge_keys. rewrite !not_elem_of_cons. repeat split; [intros H|intros H|apply not_elem_of_nil];
    apply (f_equal length) in H; discriminate H.
Defined.

(** ** Local edits *)

Inductive LocalEdit :=
| LTags (now : Z) (tags : list (list Z)) | LCost (now : Z) (cost : option (Z * list Z)) | LAdd (now : Z) (tag : list Z).

Definition local_edit (d : Db) (ts : Z) (e : LocalEdit) : result DbError Db :=
  match e with
  | LTags now tags => set_charge_tags now d ts tags
  | LCost now cost => set_charge_cost now d ts cost
  | LAdd now tag => add_charge_tag now d ts tag
  end.

(** Edits of any sessions, in the order they are made. *)
Fixpoint local_edits (d : Db) (es : list (Z * LocalEdit)) : result DbError Db :=
  match es with
  | [] => Ok d
  | (ts, e) :: t => let? d := local_edit d ts e in local_edits d t
  end.

Definition edit_ok (e : Z * LocalEdit) : Prop :=
  is_i64 e.1 /\ match e.2 with
                | LTags now _ | LCost now _ => is_i64 now
                | LAdd now tag => is_i64 now /\ nonempty tag = true
                end.

(** Stored tags: ascending, none empty. *)
Definition stored_ok (d : Db) (ts : Z) : Prop :=
  StronglySorted (set_lt str_leb) (get_charge_tags d ts) /\ Forall (fun t => nonempty t = true) (get_charge_tags d ts).

Lemma print_i64_inj a b : is_i64 a -> is_i64 b -> print_i64 a = print_i64 b -> a = b.
Proof. intros Ha Hb E. apply (f_equal parse_i64) in E. rewrite !parse_print_i64 in E by done. by injection E. Qed.

Lemma stored_filter l : StronglySorted (set_lt str_leb) (str_set (List.filter nonempty l)) /\
  Forall (fun t => nonempty t = true) (str_set (List.filter nonempty l)).
Proof.
  split; [apply str_set_ascending|]. apply Forall_forall. intros t. rewrite elem_of_set_of, elem_of_lfilter. by intros [_ ?].
Qed.

Lemma str_set_id l : StronglySorted (set_lt str_leb) l -> str_set l = l.
Proof. apply set_of_id; [apply str_leb_total|intros x y z; apply str_leb_trans|intros x y; apply str_leb_antisym]. Qed.

Lemma replay_stored l after : StronglySorted (set_lt str_leb) l -> Forall (fun t => nonempty t = true) l ->
  replay_tags (tag_edit l after) l = str_set (List.filter nonempty after).
Proof. intros Hs Hf. pose proof (replay_tag_edit l after Hf) as Hr. by rewrite (str_set_id l Hs) in Hr. Qed.

(** An edit writes the values, then queues itself. *)
Lemma local_edit_shape d ts e d' : edit_ok (ts, e) -> Inv d -> stored_ok d ts -> local_edit d ts e = Ok d' ->
  exists now d1 ed, is_i64 now /\ Inv d1 /\
  queue_edit now d1 CHARGE (print_i64 ts) (queued d CHARGE (print_i64 ts)) ed = Ok d' /\
  mutable_dirty d1 = mutable_dirty d /\ intent_events d1 = intent_events d /\ intent_state d1 = intent_state d /\
  get_charge_tags d1 ts = replay_tags ed (get_charge_tags d ts) /\ stored_ok d1 ts /\
  forall ts', ts' <> ts -> get_charge_tags d1 ts' = get_charge_tags d ts'.
Proof.
  intros [Hts He] Hi [Hs Hf] H. cbn in Hts, He.
  destruct e as [now tg|now cost|now tag]; cbn in H.
  - exists now, (put_charge_tags d ts tg). eexists. split; [done|]. split; [by apply Inv_put_tags|]. split; [exact H|].
    do 3 (split; [done|]). unfold stored_ok. rewrite get_put_tags. split; [|split; [apply stored_filter|]].
    + by rewrite replay_stored.
    + intros ts' Hne. unfold get_charge_tags, put_charge_tags. cbn.
      destruct (is_empty _); [by rewrite lookup_delete_ne|by rewrite lookup_insert_ne].
  - unfold set_charge_cost, set_charge_cost_inner in H. inv_bind. exists now, (put_charge_cost d ts cost). eexists.
    split; [done|]. split; [by apply Inv_put_cost|]. split; [exact H|]. done.
  - destruct He as [Hn Htag]. unfold add_charge_tag in H.
    set (d1 := with_tags d (<[ts := set_insert str_leb tag (get_charge_tags d ts)]> (charge_tags d))) in H.
    exists now, d1. eexists. split; [done|]. split; [by apply Inv_tags|]. split; [exact H|]. do 3 (split; [done|]).
    assert (get_charge_tags d1 ts = set_insert str_leb tag (get_charge_tags d ts)) as Hg.
    { unfold d1, get_charge_tags. cbn. by rewrite lookup_insert_eq. }
    assert (StronglySorted (set_lt str_leb) (set_insert str_leb tag (get_charge_tags d ts))) as Hsi.
    { apply set_insert_ascending; [apply str_leb_total|intros ? ? ?; apply str_leb_trans|intros ? ?; apply str_leb_antisym|done]. }
    rewrite Hg. split; [|split].
    + rewrite replay_stored by done.
      apply str_set_unique; [done|apply str_set_ascending|]. intros x.
      rewrite elem_of_set_insert, elem_of_set_of, elem_of_lfilter.
      assert (x ∈ get_charge_tags d ts -> nonempty x = true) as Hx by (intros; by eapply Forall_forall in Hf).
      case_bool_decide; [|rewrite elem_of_app, list_elem_of_singleton]; naive_solver.
    + split; rewrite Hg; [done|]. apply Forall_forall. intros x [->|Hx]%elem_of_set_insert; [done|by eapply Forall_forall in Hf].
    + intros ts' Hne. unfold d1, get_charge_tags. cbn. by rewrite lookup_insert_ne.
Qed.

(** What one edit of session [ts] does to its tags and its queue. *)
Lemma local_edit_tags d ts e d' : edit_ok (ts, e) -> Inv d -> stored_ok d ts -> local_edit d ts e = Ok d' ->
  Inv d' /\ stored_ok d' ts /\ exists g ed,
  events_of d' (charge_key ts) = events_of d (charge_key ts) ++ [(g, ed)] /\
  get_charge_tags d' ts = replay_tags ed (get_charge_tags d ts) /\
  queued d' CHARGE (print_i64 ts) = Some g /\
  intent_state d' !! charge_key ts = Some (default (queued d CHARGE (print_i64 ts)) (intent_state d !! charge_key ts)) /\
  forall ts', is_i64 ts' -> ts' <> ts ->
    get_charge_tags d' ts' = get_charge_tags d ts' /\ events_of d' (charge_key ts') = events_of d (charge_key ts') /\
    queued d' CHARGE (print_i64 ts') = queued d CHARGE (print_i64 ts') /\
    intent_state d' !! charge_key ts' = intent_state d !! charge_key ts'.
Proof.
  intros Hok Hi Hst0 H. pose proof Hok as [Hts _]. cbn in Hts.
  destruct (local_edit_shape d ts e d' Hok Hi Hst0 H) as (now & d1 & ed & Hn & H1 & Hq & Hd & Hev & Hst & Htg & Hs1 & Ho).
  assert (Inv d') as Hi'.
  { eapply Inv_queue_edit; [exact Hn|exact H1|]. unfold queued in Hq |- *. rewrite Hd. exact Hq. }
  apply queue_edit_Ok in Hq as (c & g & Hc & Hg & Hlt & Hd' & He' & Heo & Hs' & Ht' & _); [|done..].
  assert (forall k, events_of d1 k = events_of d k) as Hev1 by (intros k; unfold events_of; by rewrite Hev).
  assert (forall t, get_charge_tags d' t = get_charge_tags d1 t) as Hgt by (intros t; unfold get_charge_tags; by rewrite Ht').
  split; [done|]. split; [unfold stored_ok; by rewrite Hgt|]. exists g, ed. rewrite Hgt.
  unfold charge_key, queued in *. rewrite Hd', Hd. rewrite He', Hev1. rewrite lookup_insert_eq. rewrite Hs', Hst.
  do 3 (split; [done|]). split.
  { destruct (intent_state d !! (CHARGE, print_i64 ts)) eqn:E; [by rewrite E|by rewrite lookup_insert_eq]. }
  intros ts' Hts' Hne. assert ((CHARGE, print_i64 ts') <> (CHARGE, print_i64 ts)) as Hk.
  { intros E. injection E as E. by apply print_i64_inj in E. }
  rewrite Hgt, Ho, Heo, Hev1, lookup_insert_ne by done. do 3 (split; [done|]).
  destruct (intent_state d !! (CHARGE, print_i64 ts)); [done|by rewrite lookup_insert_ne].
Qed.

(** The queue of a session reproduces its local tags from those it started
    with, and its content is known. *)
Definition tracks (base : list (list Z)) (ts : Z) (d : Db) : Prop :=
  get_charge_tags d ts = replay_all (events_of d (charge_key ts)) base /\
  match queued d CHARGE (print_i64 ts) with
  | Some _ => intent_state d !! charge_key ts = Some None
  | None => intent_state d !! charge_key ts = None
  end.

Lemma tracks_edits base ts es : forall d d', is_i64 ts -> Forall edit_ok es -> Inv d -> (forall t, is_i64 t -> stored_ok d t) ->
  tracks base ts d -> local_edits d es = Ok d' ->
  tracks base ts d' /\ (queued d' CHARGE (print_i64 ts) = None -> queued d CHARGE (print_i64 ts) = None /\ ts ∉ es.*1).
Proof.
  induction es as [|[t e] es IH]; intros d d' Hts Hok Hi Hs Ht H; cbn in H.
  { injection H as <-. split; [done|]. intros Hq. split; [done|apply not_elem_of_nil]. }
  apply rbind_Ok in H as (d1 & H1 & H). apply Forall_cons in Hok as [Hok Hoks].
  pose proof (proj1 Hok) as Hti. cbn in Hti.
  destruct (local_edit_tags d t e d1 Hok Hi (Hs t Hti) H1) as (Hi1 & Hs1 & g & ed & He & Htg & Hq & Hst & Ho).
  assert (forall t', is_i64 t' -> stored_ok d1 t') as Hs1'.
  { intros t' Ht'. destruct (decide (t' = t)) as [->|Hne]; [done|]. unfold stored_ok.
    destruct (Ho t' Ht' Hne) as (-> & _). by apply Hs. }
  destruct Ht as [Htr Hts'].
  assert (tracks base ts d1) as Ht1.
  { unfold tracks. destruct (decide (ts = t)) as [->|Hne].
    - rewrite Hq, He, replay_all_app, Htg, Htr. split; [done|]. rewrite Hst.
      destruct (queued d CHARGE (print_i64 t)) eqn:Eq; by rewrite Hts'.
    - destruct (Ho ts Hts Hne) as (-> & -> & -> & ->). done. }
  destruct (IH d1 d' Hts Hoks Hi1 Hs1' Ht1 H) as [Hfin Hnone]. split; [done|].
  intros Hq'. destruct (Hnone Hq') as [Hq1 Hnot]. destruct (decide (ts = t)) as [->|Hne]; [congruence|].
  destruct (Ho ts Hts Hne) as (_ & _ & Hqq & _). split; [by rewrite <- Hqq|]. cbn. by rewrite not_elem_of_cons.
Qed.

(** The queued edits carry exactly the local change. Start with a session
    that has nothing queued; after any number of edits of it, interleaved with
    edits of other sessions and under any clock, merging its queued edits into
    a document that still holds the tags the session started with gives the
    tags the session shows now. *)
Theorem local_edits_merge_back d ts es d' :
  Inv d -> (forall t, is_i64 t -> stored_ok d t) -> is_i64 ts -> Forall edit_ok es ->
  queued d CHARGE (print_i64 ts) = None -> ts ∈ es.*1 -> local_edits d es = Ok d' ->
  merge_tags (read d' CHARGE (print_i64 ts)) (strings (get_charge_tags d ts)) = Ok (strings (get_charge_tags d' ts)).
Proof.
  intros Hi Hs Hts Hok Hq Hin H.
  assert (tracks (get_charge_tags d ts) ts d) as Ht.
  { unfold tracks. rewrite Hq. split.
    - replace (events_of d (charge_key ts)) with (@nil (Z * Edit)); [done|]. symmetry. apply list_eq_nil. intros x Hx.
      destruct (inv_events d Hi _ _ Hx) as (g & Hg & _). unfold queued, charge_key in *. congruence.
    - destruct (intent_state d !! charge_key ts) as [l|] eqn:E; [|done].
      destruct (inv_state d Hi _ _ E) as (g & Hg & _). unfold queued, charge_key in *. congruence. }
  destruct (tracks_edits _ ts es d d' Hts Hok Hi Hs Ht H) as [[Htr Hst] Hnone].
  destruct (queued d' CHARGE (print_i64 ts)) as [g|] eqn:Eq; [|by destruct (Hnone eq_refl)].
  unfold merge_tags, read. cbn [legacy edits]. fold (charge_key ts). rewrite Hst. cbn [is_Some].
  rewrite bool_decide_false by (by intros [? ?]). rewrite cloud_tags_strings. cbn [rbind].
  rewrite str_set_id by apply Hs, Hts. by rewrite Htr.
Qed.

Lemma local_edits_merge_back_witness : exists d',
  merge_tags (read d' CHARGE (print_i64 7)) (strings [lit "Old"]) = Ok (strings (get_charge_tags d' 7)) /\
  get_charge_tags d' 7 = [lit "Trip"; lit "Work"].
Proof.
  set (d := put_charge_tags empty_db 7 [lit "Old"]).
  set (es := [(7, LTags 5 [lit "Work"]); (8, LTags 5 [lit "X"]); (7, LAdd 3 (lit "Trip"))]).
  destruct (local_edits d es) as [d'|] eqn:E; [|exfalso; revert E; vm_compute; discriminate].
  exists d'. assert (is_i64 7 /\ is_i64 8 /\ is_i64 5 /\ is_i64 3) as (? & ? & ? & ?) by (unfold is_i64, I64_MAX; lia).
  assert (get_charge_tags d 7 = [lit "Old"]) as Hd by (vm_compute; reflexivity). split.
  - rewrite <- Hd. apply (local_edits_merge_back d 7 es d'); [by apply Inv_put_tags, Inv_empty| |done| |reflexivity|by left|done].
    + intros t _. unfold stored_ok. destruct (decide (t = 7)) as [->|Hne].
      * rewrite Hd. by repeat constructor.
      * replace (get_charge_tags d t) with (@nil (list Z)); [split; constructor|].
        unfold d, get_charge_tags, put_charge_tags. cbn [charge_tags with_tags].
        match goal with |- context [is_empty ?s] => change (is_empty s) with false end. cbv iota.
        by rewrite lookup_insert_ne.
    + by repeat constructor.
  - assert ((d1 ← match local_edits d es with Ok x => Some x | Err _ => None end; Some (get_charge_tags d1 7)) = Some [lit "Trip"; lit "Work"])
      as Hv by (vm_compute; reflexivity). rewrite E in Hv. by injection Hv.
Defined.
