(* ===== verification/RateIntent.v ===== *)
(** * Merging rate edits field by field: [drives/src/rate_intent.rs]

    A rate edit records the rate document before and after it. Its changed
    fields are paths into the document; merging applies them to the document
    the cloud holds, or replays the newer of them over a confirmed one.
    Parsing a number or a JSON object from text is a parameter. *)

From Stdlib Require Import ZArith Lia.
From stdpp Require Import base gmap list.
From S2P Require Import Prelude Float Str Json Config Charging MutableQueue.

Open Scope Z_scope.

Module RateIntent.
Import Json MutableQueue.

Notation str := (list Z) (only parsing).
Notation Path := (list (list Z)) (only parsing).
Notation Map := (gmap (list Z) Value) (only parsing).

Inductive RateError :=
| RPlan | RPlans | RDocument | RIntent | REmptyPath | RParentType | RLegacy | RCloud | RBaseline
| RParentRemoved | RFieldChanged | RAssertDiffers | RRequiredDiffers | RLocal | RUnrelated.

Definition RATES : str := lit "charging_tag_rates".
Definition CURRENCY : str := lit "charging_currency".
Definition DEFAULT_RATE : str := lit "charging_default_rate".
Definition FLAT : str := lit "flat".
Definition SCHEDULES : str := lit "schedules".

Record Event := {
  ev_before : Value; ev_after : Value; ev_paths : list Path; ev_force : bool; ev_required : option str }.

(** [Ord] for [Vec<String>]. *)
Fixpoint path_leb (p q : Path) : bool :=
  match p, q with
  | [], _ => true
  | _ :: _, [] => false
  | a :: p, b :: q => if bool_decide (a = b) then path_leb p q else str_leb a b
  end.

(** [path.starts_with(parent)]. *)
Fixpoint path_starts (path parent : Path) {struct parent} : bool :=
  match parent, path with
  | [], _ => true
  | a :: parent, b :: path => bool_decide (a = b) && path_starts path parent
  | _ :: _, [] => false
  end.

(** The nesting of a document, which bounds [diff]. *)
Fixpoint depth (v : Value) : nat :=
  match v with
  | Array l => S (foldr Nat.max O (depth <$> l))
  | Object m => S (map_fold (fun _ d acc => Nat.max d acc) O (depth <$> m))
  | _ => O
  end.

Definition keys (m : Map) : list str := (map_to_list m).*1.

Section Text.
Context (parse_f64 : str -> option Z) (parse_map : str -> option Map).

Definition number (value : option Value) : option (option Z) :=
  match value with
  | None | Some Null => Some None
  | Some v =>
      if match v with String text => is_empty (trim_by Config.char_ws text) | _ => false end then Some None
      else
        parsed ← match as_f64 v with
                 | Some n => Some n
                 | None => s ← as_str v; parse_f64 (trim_by Config.char_ws s)
                 end;
        if F64.is_finite parsed && F64.le F64.zero parsed then Some (Some parsed) else None
  end.

Definition plan (value : Value) : result RateError Map :=
  match as_object value with
  | Some m => Ok m
  | None => match number (Some value) with
            | Some _ => Ok {[ FLAT := value ]}
            | None => Err RPlan
            end
  end.

Definition plans (value : option Value) : result RateError Map :=
  match value with
  | None | Some Null => Ok ∅
  | Some (Object m) => Ok m
  | Some (String text) => ok_or (parse_map text) RPlans
  | Some _ => Err RPlans
  end.

Definition is_ok {E A} (r : result E A) : bool := match r with Ok _ => true | Err _ => false end.

(** Every plan as an object; the collected error is the same for any plan. *)
Definition normalized (m : Map) : result RateError Map :=
  if forallb (fun kv : str * Value => is_ok (plan kv.2)) (map_to_list m)
  then Ok ((fun v => match plan v with Ok p => Object p | Err _ => v end) <$> m)
  else Err RPlan.

Definition view (document : Value) : result RateError Value :=
  let? result := ok_or (as_object document) RDocument in
  let? ps := plans (result !! RATES) in
  let? n := normalized ps in
  Ok (Object (<[RATES := Object n]> result)).

Fixpoint get (document : Value) (path : Path) : option Value :=
  match path with
  | [] => Some document
  | key :: rest => m ← as_object document; v ← m !! key; get v rest
  end.

Definition empty_schedules (value : option Value) : option Value :=
  v ← value;
  if negb (is_null v) && negb (match v with Array l => is_empty l | _ => false end) then Some v else None.

Definition opt_veq (a b : option Value) : bool :=
  match a, b with Some a, Some b => veq a b | None, None => true | _, _ => false end.

Definition number_eqb (a b : option Z) : bool :=
  match a, b with Some x, Some y => F64.eq x y | None, None => true | _, _ => false end.

Definition currency_text (value : option Value) : option str :=
  match value with
  | None | Some Null => Some (lit "$")
  | Some (String v) =>
      let t := trim_by Config.char_ws v in Some (if is_empty t then lit "$" else t)
  | Some _ => None
  end.

(** [equal] on a path that is not a whole plan. *)
Definition equal_leaf (path : Path) (a b : option Value) : bool :=
  if opt_veq a b then true
  else if bool_decide (path = [DEFAULT_RATE])
          || ((length path =? 3)%nat && bool_decide (path !! 0%nat = Some RATES) && bool_decide (path !! 2%nat = Some FLAT))
  then match number a, number b with Some l, Some r => number_eqb l r | _, _ => false end
  else if bool_decide (path = [CURRENCY])
  then match currency_text a, currency_text b with Some l, Some r => bool_decide (l = r) | _, _ => false end
  else if (length path =? 3)%nat && bool_decide (path !! 0%nat = Some RATES) && bool_decide (path !! 2%nat = Some SCHEDULES)
  then opt_veq (empty_schedules a) (empty_schedules b)
  else false.

(** [equal]; a whole plan compares its fields, one level down. *)
Definition equal (path : Path) (a b : option Value) : bool :=
  equal_leaf path a b
  || (((length path =? 2)%nat && bool_decide (path !! 0%nat = Some RATES))
      && match a, b with
         | Some (Object l), Some (Object r) =>
             forallb (fun key => equal_leaf (path ++ [key]) (l !! key) (r !! key)) (str_set (keys l ++ keys r))
         | _, _ => false
         end).

Fixpoint diff (fuel : nat) (path : Path) (before after : option Value) : list Path :=
  if equal path before after then []
  else match before, after with
       | Some (Object b), Some (Object a) =>
           match fuel with
           | O => []
           | S fuel =>
               List.concat (map (fun key => diff fuel (path ++ [key]) (b !! key) (a !! key)) (str_set (keys b ++ keys a)))
           end
       | _, _ => [path]
       end.

Definition event_of (e : Edit) : result RateError Event :=
  match e with
  | MutableQueue.RateConfig before after force required_tag =>
      let? before := view before in
      let? after := view after in
      let paths := List.concat (map (fun key => diff (S (depth before)) [key] (get before [key]) (get after [key])) RATE_KEYS) in
      Ok {| ev_before := before; ev_after := after; ev_paths := paths; ev_force := force; ev_required := required_tag |}
  | _ => Err RIntent
  end.

Fixpoint events_from (edits : list (Z * Edit)) (after : option Z) : result RateError (list Event) :=
  match edits with
  | [] => Ok []
  | (at_, e) :: t =>
      if match after with Some through => at_ <=? through | None => false end then events_from t after
      else
        let? ev := event_of e in
        let? rest := events_from t after in
        Ok (ev :: rest)
  end.

(** The cursor of [set]: parents are created, the last key written or removed. *)
Fixpoint write (cursor : Map) (key : str) (rest : Path) (value : option Value) : result RateError Map :=
  match rest with
  | [] => Ok (match value with Some v => <[key := v]> cursor | None => delete key cursor end)
  | next :: rest =>
      let? child := ok_or (as_object (default (Object ∅) (cursor !! key))) RParentType in
      let? child := write child next rest value in
      Ok (<[key := Object child]> cursor)
  end.

Definition set (document : Value) (path : Path) (value : option Value) : result RateError Value :=
  match path with
  | [] => Err REmptyPath
  | key :: rest =>
      let? root := ok_or (as_object document) RDocument in
      let? root :=
        match rest with
        | tag :: deeper =>
            if bool_decide (key = RATES)
            then
              let? values := plans (root !! RATES) in
              let? values :=
                match deeper with
                | _ :: _ =>
                    let? value := match values !! tag with Some v => plan v | None => Ok ∅ end in
                    Ok (<[tag := Object value]> values)
                | [] => Ok values
                end in
              Ok (<[RATES := Object values]> root)
            else Ok root
        | [] => Ok root
        end in
      let? root := write root key rest value in
      Ok (Object root)
  end.

(** The changed paths that no shorter changed path covers. *)
Definition maximal (all : list Path) : list Path :=
  foldl (fun kept path => if existsb (path_starts path) kept then kept else kept ++ [path]) [] all.

Definition changed_paths (events : list Event) : list Path :=
  maximal (set_of path_leb (List.concat (map ev_paths events))).

Definition touching (events : list Event) (path : Path) : list Event :=
  List.filter (fun e => existsb (fun changed => path_starts changed path) (ev_paths e)) events.

(** An absent parent is a concurrent deletion. *)
Definition parents_kept (before observed : Value) (path : Path) : bool :=
  forallb (fun n => match get before (take n path), get observed (take n path) with Some _, None => false | _, _ => true end)
    (seq 2 (length path - 2)).

Definition merge_path (check_conflicts : bool) (events : list Event) (result_value : Value) (path : Path)
    : result RateError Value :=
  let hits := touching events path in
  match head hits, last hits with
  | Some first, Some lst =>
      let before := get (ev_before first) path in
      let desired := get (ev_after lst) path in
      if equal path before desired then Ok result_value
      else
        let? observed := view result_value in
        let? _ :=
          if check_conflicts
          then
            let? _ := if parents_kept (ev_before first) observed path then Ok tt else Err RParentRemoved in
            let value := get observed path in
            if equal path value before || existsb (fun e => equal path value (get (ev_after e) path)) hits
            then Ok tt else Err RFieldChanged
          else Ok tt in
        if negb (equal path (get observed path) desired) then set result_value path desired else Ok result_value
  | _, _ => Err RBaseline
  end.

Fixpoint merge_paths (check_conflicts : bool) (events : list Event) (result_value : Value) (paths : list Path)
    : result RateError Value :=
  match paths with
  | [] => Ok result_value
  | p :: t => let? r := merge_path check_conflicts events result_value p in merge_paths check_conflicts events r t
  end.

(** Fields a forced publication without changes asserts. *)
Definition asserted_by (e : Event) : result RateError (list Path) :=
  if ev_force e && is_empty (ev_paths e)
  then
    let? ps := plans (get (ev_after e) [RATES]) in
    Ok (List.filter (fun p => bool_decide (is_Some (get (ev_after e) p))) [[CURRENCY]; [DEFAULT_RATE]]
        ++ map (fun tag => [RATES; tag]) (keys ps))
  else Ok [].

Fixpoint asserted_paths (events : list Event) : result RateError (list Path) :=
  match events with
  | [] => Ok []
  | e :: t => let? a := asserted_by e in let? r := asserted_paths t in Ok (a ++ r)
  end.

Fixpoint assert_paths (check_conflicts : bool) (after : Value) (result_value : Value) (paths : list Path)
    : result RateError Value :=
  match paths with
  | [] => Ok result_value
  | p :: t =>
      let? r :=
        match get after p with
        | None => Ok result_value
        | Some desired =>
            let? observed := view result_value in
            let current := get observed p in
            let? _ := if check_conflicts && negb (bool_decide (current = None) || equal p current (Some desired))
                      then Err RAssertDiffers else Ok tt in
            if negb (equal p current (Some desired)) then set result_value p (Some desired) else Ok result_value
        end in
      assert_paths check_conflicts after r t
  end.

Definition required_tag (check_conflicts : bool) (after : Value) (result_value : Value) (tag : str) : result RateError Value :=
  let path := [RATES; tag] in
  match get after path with
  | None => Ok result_value
  | Some desired =>
      let? observed := view result_value in
      let current := get observed path in
      let agrees := forallb (fun field => equal (path ++ [field]) (v ← current; get v [field]) (get desired [field])) [FLAT; SCHEDULES] in
      match current with
      | None => set result_value path (Some desired)
      | Some _ =>
          if check_conflicts then (if agrees then Ok result_value else Err RRequiredDiffers)
          else if negb agrees
          then
            let? r := set result_value (path ++ [FLAT]) (get desired [FLAT]) in
            set r (path ++ [SCHEDULES]) (get desired [SCHEDULES])
          else Ok result_value
      end
  end.

Fixpoint required_tags (check_conflicts : bool) (after : Value) (result_value : Value) (tags : list str)
    : result RateError Value :=
  match tags with
  | [] => Ok result_value
  | t :: rest => let? r := required_tag check_conflicts after result_value t in required_tags check_conflicts after r rest
  end.

Definition apply (intent : Intent) (current : Value) (after : option Z) (check_conflicts : bool) : result RateError Value :=
  if legacy intent && check_conflicts then Err RLegacy
  else
    let? events := events_from (edits intent) after in
    let? result_map := ok_or (as_object current) RCloud in
    let? r1 := merge_paths check_conflicts events (Object result_map) (changed_paths events) in
    let? asserted := asserted_paths events in
    match last events with
    | None => Ok r1
    | Some lst =>
        let? r2 := assert_paths check_conflicts (ev_after lst) r1 (set_of path_leb asserted) in
        required_tags check_conflicts (ev_after lst) r2 (str_set (omap ev_required events))
    end.

Definition initial_document (local : Value) : result RateError Value :=
  let? fields := ok_or (as_object local) RLocal in
  if negb (forallb (fun key => bool_decide (key ∈ RATE_KEYS)) (keys fields)) then Err RUnrelated
  else let? _ := view local in Ok local.

Definition merge (intent : Intent) (cloud : Value) : result RateError Value := apply intent cloud None true.

Definition replay_after (intent : Intent) (through : Z) (cloud : Value) : result RateError Value :=
  apply intent cloud (Some through) false.

End Text.

End RateIntent.
