(* ===== verification/RateIntentSpec.v ===== *)
(** * Merging rate edits field by field: theorems

    A merge changes the edited fields and no others, never overwrites a value
    it does not know, and merging again changes nothing. *)

From Stdlib Require Import ZArith Lia Sorted.
From stdpp Require Import base gmap list sorting.
From S2P Require Import Prelude Float Str Json Config Charging MutableQueue MutableQueueSpec RateIntent.

Import Json MutableQueue RateIntent.
Open Scope Z_scope.

Notation Map := (gmap (list Z) Value) (only parsing).

(** ** Paths *)

(** Neither path is a prefix of the other. *)
Definition apart_paths (p q : list (list Z)) : Prop := path_starts p q = false /\ path_starts q p = false.

Lemma path_starts_app p : forall q, path_starts q p = true <-> exists t, q = p ++ t.
Proof.
  induction p as [|a p IH]; intros q; cbn; [split; [by eexists|done]|]. destruct q as [|b q]; [split; [done|by intros [? ?]]|].
  rewrite andb_true_iff, bool_decide_eq_true, IH. split; [intros [-> [t ->]]; by exists t|].
  intros [t [= -> ->]]. split; [done|by exists t].
Qed.

Lemma path_starts_refl p : path_starts p p = true.
Proof. apply path_starts_app. exists []. by rewrite app_nil_r. Qed.

Lemma apart_sym p q : apart_paths p q -> apart_paths q p.
Proof. by intros [? ?]. Qed.

Lemma apart_cons a p q : apart_paths (a :: p) (a :: q) -> apart_paths p q.
Proof. unfold apart_paths. cbn. by rewrite !bool_decide_true. Qed.

Lemma path_leb_total p : forall q, path_leb p q = false -> path_leb q p = true.
Proof.
  induction p as [|a p IH]; intros [|b q]; cbn; try done. case_bool_decide as E.
  - subst. rewrite bool_decide_true by done. apply IH.
  - rewrite bool_decide_false by congruence. apply str_leb_total.
Qed.

Lemma path_leb_antisym p : forall q, path_leb p q = true -> path_leb q p = true -> p = q.
Proof.
  induction p as [|a p IH]; intros [|b q]; cbn; try done. case_bool_decide as E.
  - subst. rewrite bool_decide_true by done. intros H1 H2. f_equal. by apply IH.
  - rewrite bool_decide_false by congruence. intros H1 H2. destruct E. by apply str_leb_antisym.
Qed.

Lemma path_leb_trans p : forall q r, path_leb p q = true -> path_leb q r = true -> path_leb p r = true.
Proof.
  induction p as [|a p IH]; intros [|b q] [|c r]; cbn; try done.
  repeat case_bool_decide; subst; try congruence; eauto.
  - intros H1 H2. exfalso. eauto using str_leb_antisym.
  - eauto using str_leb_trans.
Qed.

Lemma path_starts_leb p : forall q, path_starts q p = true -> path_leb p q = true.
Proof.
  induction p as [|a p IH]; intros [|b q]; cbn; try done. intros [H1 H2]%andb_true_iff.
  rewrite H1. by apply IH.
Qed.

(** The maximal paths of an ascending list cover nothing of each other. *)
Lemma maximal_loop l : forall kept, StronglySorted (set_lt path_leb) l -> (forall p q, p ∈ kept -> q ∈ l -> set_lt path_leb p q) ->
  StronglySorted apart_paths kept ->
  let r := foldl (fun kept path => if existsb (path_starts path) kept then kept else kept ++ [path]) kept l in
  (forall p, p ∈ r -> p ∈ kept \/ p ∈ l) /\ StronglySorted apart_paths r.
Proof.
  induction l as [|x l IH]; intros kept Hs Hlt Ha; cbn; [split; [by left|done]|].
  apply StronglySorted_inv in Hs as [Hs Hx]. rewrite Forall_forall in Hx. destruct (existsb (path_starts x) kept) eqn:E.
  - destruct (IH kept Hs) as [H1 H2]; [intros p q Hp Hq; apply Hlt; [done|by right]|done|].
    split; [|done]. intros p [?|?]%H1; [by left|right; by right].
  - assert (forall p, p ∈ kept -> apart_paths p x) as Hax.
    { intros p Hp. split.
      - destruct (path_starts p x) eqn:Es; [|done]. exfalso. apply path_starts_leb in Es.
        destruct (Hlt p x Hp ltac:(by left)) as [Hl Hn]. apply Hn. by apply path_leb_antisym.
      - apply not_true_is_false. intros Es. apply not_true_iff_false in E. apply E. apply existsb_exists.
        exists p. split; [by apply list_elem_of_In|done]. }
    destruct (IH (kept ++ [x]) Hs) as [H1 H2].
    + intros p q [Hp|Hp%list_elem_of_singleton]%elem_of_app Hq; [apply Hlt; [done|by right]|]. subst. by apply Hx.
    + apply StronglySorted_app_2; [|done|repeat constructor]. intros p q Hp Hq%list_elem_of_singleton. subst. by apply Hax.
    + split; [|done]. intros p [[?|Hp%list_elem_of_singleton]%elem_of_app|?]%H1; [by left|subst; right; by left|right; by right].
Qed.

Lemma maximal_spec all : StronglySorted (set_lt path_leb) all ->
  (forall p, p ∈ maximal all -> p ∈ all) /\ StronglySorted apart_paths (maximal all).
Proof.
  intros Hs. destruct (maximal_loop all [] Hs) as [H1 H2]; [by intros p q ?%elem_of_nil|constructor|].
  split; [|done]. intros p [?%elem_of_nil|?]%H1; done.
Qed.

Lemma path_set_ascending l : StronglySorted (set_lt path_leb) (set_of path_leb l).
Proof. apply set_of_ascending; [apply path_leb_total|apply path_leb_trans|apply path_leb_antisym]. Qed.

Lemma changed_paths_apart evs : StronglySorted apart_paths (changed_paths evs).
Proof. apply maximal_spec, path_set_ascending. Qed.

Lemma changed_path_in evs p : p ∈ changed_paths evs -> exists e, e ∈ evs /\ p ∈ ev_paths e.
Proof.
  intros H. apply maximal_spec in H; [|apply path_set_ascending].
  apply elem_of_set_of in H. apply list_elem_of_In, in_concat in H as (l & Hl & Hp).
  apply in_map_iff in Hl as (e & <- & He). exists e. by rewrite !list_elem_of_In.
Qed.

(** ** Writing a field *)

Lemma write_get_same rest : forall m key v m', write m key rest v = Ok m' -> get (Object m') (key :: rest) = v.
Proof.
  induction rest as [|n rest IH]; intros m key v m' H; cbn [write] in H.
  - injection H as <-. destruct v; cbn; [by rewrite lookup_insert_eq|by rewrite lookup_delete_eq].
  - apply rbind_Ok in H as (c & _ & H). apply rbind_Ok in H as (c' & Hc & H). injection H as <-.
    cbn [get as_object mbind option_bind]. rewrite lookup_insert_eq. cbn [mbind option_bind]. by eapply IH.
Qed.

Lemma write_other_key rest m key v m' k : write m key rest v = Ok m' -> k <> key -> m' !! k = m !! k.
Proof.
  destruct rest as [|n rest]; cbn [write]; intros H Hk.
  - injection H as <-. destruct v; [by rewrite lookup_insert_ne|by rewrite lookup_delete_ne].
  - apply rbind_Ok in H as (c & _ & H). apply rbind_Ok in H as (c' & Hc & H). injection H as <-. by rewrite lookup_insert_ne.
Qed.

Lemma get_empty q : q <> [] -> get (Object ∅) q = None.
Proof. destruct q as [|a q]; [done|]. cbn. by rewrite lookup_empty. Qed.

Lemma write_get_apart rest : forall m key v m' q, write m key rest v = Ok m' -> apart_paths (key :: rest) q ->
  get (Object m') q = get (Object m) q.
Proof.
  induction rest as [|n rest IH]; intros m key v m' q H [Ha1 Ha2]; (destruct q as [|k q]; [done|]);
    (destruct (decide (k = key)) as [->|Hk]; [|cbn; by rewrite (write_other_key _ m key v m' k H Hk)]);
    cbn [write] in H.
  - exfalso. cbn in Ha2. by rewrite bool_decide_true in Ha2.
  - apply rbind_Ok in H as (c & Hc & H). apply ok_or_Ok in Hc. apply rbind_Ok in H as (c' & Hw & H). injection H as <-.
    assert (apart_paths (n :: rest) q) as Ha by (apply (apart_cons key); done).
    specialize (IH c n v c' q Hw Ha). cbn [get as_object mbind option_bind]. rewrite lookup_insert_eq. cbn [mbind option_bind].
    rewrite IH. destruct (m !! key) as [w|]; cbn in Hc |- *.
    + destruct w; try discriminate. by injection Hc as ->.
    + injection Hc as <-. apply get_empty. intros ->. destruct Ha as [Ha _]. done.
Qed.

Lemma write_get_kept rest : forall m key v m' q, write m key rest v = Ok m' -> path_starts q (key :: rest) = false ->
  is_Some (get (Object m) q) -> is_Some (get (Object m') q).
Proof.
  induction rest as [|n rest IH]; intros m key v m' q H Ha Hs; (destruct q as [|k q]; [by eexists|]);
    (destruct (decide (k = key)) as [->|Hk]; [|cbn; by rewrite (write_other_key _ m key v m' k H Hk)]);
    cbn [write] in H; cbn in Ha; rewrite bool_decide_true in Ha by done; cbn in Ha; [done|].
  apply rbind_Ok in H as (c & Hc & H). apply ok_or_Ok in Hc. apply rbind_Ok in H as (c' & Hw & H). injection H as <-.
  cbn [get as_object mbind option_bind] in *. rewrite lookup_insert_eq. cbn [mbind option_bind] in *.
  apply (IH c n v c' q Hw Ha). destruct (m !! key) as [w|]; cbn in Hc, Hs; [|by destruct Hs].
  destruct w; try discriminate. by injection Hc as ->.
Qed.

Section merge.
Context (parse_f64 : list Z -> option Z) (parse_map : list Z -> option Map).
Notation plan := (plan parse_f64).
Notation view := (view parse_f64 parse_map).
Notation normalized := (normalized parse_f64).
Notation plans := (plans parse_map).
Notation set := (set parse_f64 parse_map).
Notation equal := (equal parse_f64).
Notation event_of := (event_of parse_f64 parse_map).
Notation diff := (diff parse_f64).

(** ** The normal form of a document *)

Definition plan_value (v : Value) : Value := match plan v with Ok p => Object p | Err _ => v end.

Lemma normalized_Ok m n : normalized m = Ok n ->
  n = plan_value <$> m /\ forall k v, m !! k = Some v -> exists p, plan v = Ok p.
Proof.
  unfold RateIntent.normalized. destruct (forallb _ _) eqn:E; [|done]. intros [= <-]. split; [done|].
  intros k v Hv. rewrite forallb_forall in E. specialize (E (k, v)). cbn in E.
  destruct (plan v) as [p|]; [by exists p|]. exfalso. discriminate E. apply list_elem_of_In. by apply elem_of_map_to_list.
Qed.

Lemma normalized_intro m : (forall k v, m !! k = Some v -> exists p, plan v = Ok p) -> normalized m = Ok (plan_value <$> m).
Proof.
  intros H. unfold RateIntent.normalized. replace (forallb _ _) with true; [done|]. symmetry. apply forallb_forall.
  intros [k v] Hk. apply list_elem_of_In, elem_of_map_to_list in Hk. cbn [snd]. by destruct (H k v Hk) as [p ->].
Qed.

Lemma view_Ok d o : view d = Ok o -> exists m ps n, d = Object m /\ plans (m !! RATES) = Ok ps /\ normalized ps = Ok n /\
  o = Object (<[RATES := Object n]> m).
Proof.
  unfold RateIntent.view. intros H. inv_bind. destruct d; try discriminate. simplify_eq/=. by eexists _, _, _.
Qed.

(** A whole plan in a normal form is an object. *)
Lemma view_plan_object d o tag v : view d = Ok o -> get o [RATES; tag] = Some v -> exists p, v = Object p.
Proof.
  intros (m & ps & n & -> & _ & Hn & ->)%view_Ok. cbn. rewrite lookup_insert_eq. cbn.
  apply normalized_Ok in Hn as [-> Hp]. rewrite lookup_fmap. destruct (ps !! tag) as [w|] eqn:E; cbn; [|done].
  intros [= <-]. destruct (Hp tag w E) as [p Hpw]. unfold plan_value. rewrite Hpw. by exists p.
Qed.

(** Paths a merge writes: a rate field, a whole plan (as an object), or a
    field of a plan. *)
Definition path_ok (path : list (list Z)) (v : option Value) : Prop :=
  path <> [] /\ path <> [RATES] /\
  (forall tag w, path = [RATES; tag] -> v = Some w -> exists p, w = Object p).

Lemma write_insert_other rest : forall m m' key v k x, write m key rest v = Ok m' -> k <> key ->
  write (<[k := x]> m) key rest v = Ok (<[k := x]> m').
Proof.
  destruct rest as [|n rest]; intros m m' key v k x H Hk; cbn [write] in *.
  - injection H as <-. f_equal. destruct v; [by apply insert_insert_ne|by apply delete_insert_ne].
  - rewrite lookup_insert_ne by done. apply rbind_Ok in H as (c & -> & H). cbn [rbind].
    apply rbind_Ok in H as (c' & -> & H). cbn [rbind]. injection H as <-. f_equal. by apply insert_insert_ne.
Qed.

Lemma plan_object p : plan (Object p) = Ok p.
Proof. done. Qed.

Lemma write_child m k n rest v c : as_object (default (Object ∅) (m !! k)) = Some c ->
  write m k (n :: rest) v = (let? c' := write c n rest v in Ok (<[k := Object c']> m)).
Proof. intros H. cbn [write]. by rewrite H. Qed.

(** Writing a field commutes with taking the normal form. *)
Lemma set_view r path v r' o : set r path v = Ok r' -> view r = Ok (Object o) -> path_ok path v ->
  exists key rest o', path = key :: rest /\ write o key rest v = Ok o' /\ view r' = Ok (Object o').
Proof.
  intros H Hv (Hne & Hnr & Hpo). destruct path as [|key rest]; [done|]. exists key, rest.
  apply view_Ok in Hv as (m & ps & n & -> & Hps & Hn & Ho). injection Ho as ->.
  pose proof (normalized_Ok _ _ Hn) as [En Hpl].
  unfold RateIntent.set in H. cbn [as_object ok_or rbind] in H. apply rbind_Ok in H as (root & Hr & H).
  apply rbind_Ok in H as (m' & Hw & H). injection H as <-.
  destruct (decide (key = RATES)) as [->|Hk]; cycle 1.
  { assert (root = m) as -> by (destruct rest; [|rewrite bool_decide_false in Hr by done]; by injection Hr).
    exists (<[RATES := Object n]> m'). split; [done|]. split; [by apply write_insert_other|].
    unfold RateIntent.view. cbn [as_object ok_or rbind]. rewrite (write_other_key _ _ _ _ _ RATES Hw) by done.
    rewrite Hps. cbn [rbind]. by rewrite Hn. }
  destruct rest as [|tag deeper]; [done|]. rewrite bool_decide_true in Hr by done. rewrite Hps in Hr. cbn [rbind] in Hr.
  destruct deeper as [|d ds].
  - cbn [rbind] in Hr. injection Hr as <-. cbn [write] in Hw |- *. rewrite lookup_insert_eq in Hw |- *. cbn in Hw |- *.
    injection Hw as <-. eexists. split; [done|]. split; [done|]. rewrite !insert_insert_eq.
    unfold RateIntent.view. cbn. rewrite lookup_insert_eq. cbn.
    rewrite normalized_intro.
    + cbn. rewrite insert_insert_eq. do 4 f_equal. subst n. destruct v as [w|].
      * destruct (Hpo tag w eq_refl eq_refl) as [p ->]. by rewrite fmap_insert.
      * by rewrite fmap_delete.
    + intros k w. destruct v as [x|]; [|by intros [_ Hw]%lookup_delete_Some; eauto].
      intros [[<- <-]|[_ Hw]]%lookup_insert_Some; [|by eauto].
      destruct (Hpo tag x eq_refl eq_refl) as [p ->]. by exists p.
  - apply rbind_Ok in Hr as (vals & Hr & Hroot). apply rbind_Ok in Hr as (pl & Hpl' & Hvals). injection Hvals as <-. injection Hroot as <-.
    rewrite (write_child _ _ _ _ _ (<[tag := Object pl]> ps)) in Hw by (by rewrite lookup_insert_eq).
    rewrite (write_child _ tag _ _ _ pl) in Hw by (by rewrite lookup_insert_eq).
    apply rbind_Ok in Hw as (vals & Hw & Hm'). injection Hm' as <-. apply rbind_Ok in Hw as (c' & Hc' & Hvals). injection Hvals as <-.
    assert (as_object (default (Object ∅) (n !! tag)) = Some pl) as Hnt.
    { subst n. rewrite lookup_fmap. destruct (ps !! tag) as [w|]; cbn; [|by injection Hpl' as <-].
      unfold plan_value. by rewrite Hpl'. }
    rewrite (write_child _ RATES _ _ _ n) by (by rewrite lookup_insert_eq).
    rewrite (write_child _ tag _ _ _ pl) by done. rewrite Hc'. cbn [rbind]. eexists. split; [done|]. split; [done|].
    rewrite !insert_insert_eq. unfold RateIntent.view. cbn. rewrite lookup_insert_eq. cbn. rewrite normalized_intro.
    + cbn. rewrite insert_insert_eq. do 4 f_equal. subst n. by rewrite fmap_insert.
    + intros k w. intros [[<- <-]|[_ Hw]]%lookup_insert_Some; [by exists c'|by eauto].
Qed.

(** ** Events *)

Definition event_ok (e : Event) : Prop :=
  (exists d, view d = Ok (ev_before e)) /\ (exists d, view d = Ok (ev_after e)) /\
  forall p, p ∈ ev_paths e -> p <> [] /\ p <> [RATES] /\ exists k, head p = Some k /\ k ∈ RATE_KEYS.

Lemma diff_prefix fuel : forall path b a p, p ∈ diff fuel path b a -> exists t, p = path ++ t.
Proof.
  induction fuel as [|fuel IH]; intros path b a p; cbn; (destruct (equal path b a); [by intros ?%elem_of_nil|]);
    (destruct b as [[]|], a as [[]|]; try (intros Hp%list_elem_of_singleton; exists []; by rewrite app_nil_r)).
  - by intros ?%elem_of_nil.
  - intros Hp. apply list_elem_of_In, in_concat in Hp as (l & Hl & Hp). apply in_map_iff in Hl as (k & <- & _).
    apply list_elem_of_In, IH in Hp as [t ->]. exists ([k] ++ t). by rewrite app_assoc.
Qed.

Lemma diff_object_longer fuel path b a p : p ∈ diff fuel path (Some (Object b)) (Some (Object a)) -> p <> path.
Proof.
  destruct fuel as [|fuel]; cbn; (destruct (equal _ _ _); [by intros ?%elem_of_nil|]); [by intros ?%elem_of_nil|].
  intros Hp. apply list_elem_of_In, in_concat in Hp as (l & Hl & Hp). apply in_map_iff in Hl as (k & <- & _).
  apply list_elem_of_In, diff_prefix in Hp as [t ->]. intros E. apply (f_equal length) in E. rewrite !length_app in E. cbn in E. lia.
Qed.

Lemma event_of_ok e ev : event_of e = Ok ev -> event_ok ev.
Proof.
  unfold RateIntent.event_of. destruct e as [| |b a f t]; try done. intros H.
  apply rbind_Ok in H as (vb & Hb & H). apply rbind_Ok in H as (va & Ha & H).
  match type of H with Ok ?x = Ok ?y => assert (y = x) as -> by congruence end. clear H.
  split; [by exists b|]. split; [by exists a|]. cbn [ev_paths]. intros p Hp.
  apply list_elem_of_In, in_concat in Hp as (l & Hl & Hp). apply in_map_iff in Hl as (k & <- & Hk).
  apply list_elem_of_In in Hp. apply list_elem_of_In in Hk. pose proof (diff_prefix _ _ _ _ _ Hp) as [u Hu].
  split; [by subst p|]. split; [|exists k; by subst p].
  intros ->. cbn [app] in Hu. injection Hu as <- _.
  apply view_Ok in Hb as (mb & pb & nb & _ & _ & _ & ->). apply view_Ok in Ha as (ma & pa & na & _ & _ & _ & ->).
  assert (forall (m : Map) n, get (Object (<[RATES := Object n]> m)) [RATES] = Some (Object n)) as Hg.
  { intros m n. cbn [get as_object mbind option_bind]. by rewrite lookup_insert_eq. }
  rewrite !Hg in Hp. by apply diff_object_longer in Hp.
Qed.

Lemma events_from_ok l after evs : events_from parse_f64 parse_map l after = Ok evs -> Forall event_ok evs.
Proof.
  revert evs. induction l as [|[a e] l IH]; intros evs; cbn [events_from]; [intros [= <-]; constructor|].
  destruct (match after with Some t => a <=? t | None => false end); [apply IH|]. intros H.
  apply rbind_Ok in H as (ev & He & H). apply rbind_Ok in H as (rest & Hr & H). injection H as <-.
  constructor; [by eapply event_of_ok|by apply IH].
Qed.

(** ** One path *)

Definition baseline (evs : list Event) (p : list (list Z)) : option Value :=
  e ← head (touching evs p); get (ev_before e) p.
Definition desired (evs : list Event) (p : list (list Z)) : option Value :=
  e ← last (touching evs p); get (ev_after e) p.

(** The value was this device's baseline or one it wrote. *)
Definition known_value (evs : list Event) (p : list (list Z)) (v : option Value) : Prop :=
  equal p v (baseline evs p) = true \/ exists e, e ∈ touching evs p /\ equal p v (get (ev_after e) p) = true.

Definition parents_ok (evs : list Event) (p : list (list Z)) (o : Value) : Prop :=
  forall e, head (touching evs p) = Some e -> parents_kept (ev_before e) o p = true.

Lemma equal_refl p v : equal p v v = true.
Proof.
  unfold RateIntent.equal, equal_leaf. destruct (opt_veq v v) eqn:E; [done|]. destruct v; [|done]. cbn in E. by rewrite veq_refl in E.
Qed.

Lemma changed_path_ok evs p : Forall event_ok evs -> p ∈ changed_paths evs -> path_ok p (desired evs p).
Proof.
  intros Hf Hp. rewrite Forall_forall in Hf. destruct (changed_path_in evs p Hp) as (e & He & Hpe).
  destruct (Hf e He) as (_ & _ & Hw). destruct (Hw p Hpe) as (H1 & H2 & _). split; [done|]. split; [done|].
  intros tag w -> Hd. unfold desired in Hd. destruct (last (touching evs [RATES; tag])) as [el|] eqn:El; [|done].
  cbn [mbind option_bind] in Hd. assert (el ∈ evs) as Hin.
  { apply last_Some_elem_of in El. unfold touching in El. by apply elem_of_lfilter in El as [? _]. }
  destruct (Hf el Hin) as (_ & (dd & Hdd) & _). by eapply view_plan_object.
Qed.

Lemma touching_nonempty evs p : p ∈ changed_paths evs -> exists e, e ∈ touching evs p.
Proof.
  intros (e & He & Hp)%changed_path_in. exists e. unfold touching. apply elem_of_lfilter. split; [done|].
  apply existsb_exists. exists p. split; [by apply list_elem_of_In|apply path_starts_refl].
Qed.

(** What merging one path does to the normal form. *)
Lemma merge_path_Ok check evs r p r' : Forall event_ok evs -> p ∈ changed_paths evs ->
  merge_path parse_f64 parse_map check evs r p = Ok r' ->
  if equal p (baseline evs p) (desired evs p) then r' = r
  else exists o o', view r = Ok (Object o) /\ view r' = Ok (Object o') /\
    (check = true -> known_value evs p (get (Object o) p) /\ parents_ok evs p (Object o)) /\
    equal p (get (Object o') p) (desired evs p) = true /\
    (forall q, apart_paths p q -> get (Object o') q = get (Object o) q) /\
    (forall q, path_starts q p = false -> is_Some (get (Object o) q) -> is_Some (get (Object o') q)).
Proof.
  intros Hf Hp H. pose proof (changed_path_ok evs p Hf Hp) as Hok. unfold merge_path in H. unfold known_value, parents_ok.
  unfold baseline, desired in *. set (hits := touching evs p) in *.
  destruct (head hits) as [first|] eqn:Eh; [|done]. destruct (last hits) as [lst|] eqn:El; [|done]. cbn [mbind option_bind] in *.
  destruct (equal p (get (ev_before first) p) (get (ev_after lst) p)); [by injection H as <-|].
  apply rbind_Ok in H as (ob & Hv & H). apply rbind_Ok in H as ([] & Hc & H).
  pose proof Hv as Hv'. apply view_Ok in Hv' as (m & ps & n & _ & _ & _ & Eo). set (o := <[RATES := Object n]> m) in Eo. subst ob.
  exists o. assert (check = true -> (equal p (get (Object o) p) (get (ev_before first) p) = true \/
    exists e, e ∈ hits /\ equal p (get (Object o) p) (get (ev_after e) p) = true) /\
    forall e, Some first = Some e -> parents_kept (ev_before e) (Object o) p = true) as Hck.
  { intros ->. destruct (parents_kept (ev_before first) (Object o) p) eqn:Ep; [|done]. cbn [rbind] in Hc.
    destruct (_ || _) eqn:Eor in Hc; [|done]. split; [|by intros e [= <-]].
    apply orb_true_iff in Eor as [E|E]; [by left|]. right. apply existsb_exists in E as (e & He & E). exists e.
    by rewrite list_elem_of_In. }
  destruct (equal p (get (Object o) p) (get (ev_after lst) p)) eqn:Eq; cbn [negb] in H.
  - injection H as <-. exists o. done.
  - destruct (set_view r p _ r' o H Hv Hok) as (key & rest & o' & -> & Hw & Hv').
    exists o'. split; [done|]. split; [done|]. split; [done|]. rewrite (write_get_same _ _ _ _ _ Hw), equal_refl.
    split; [done|]. split; [intros q Hq; by eapply write_get_apart|intros q Hq; by eapply write_get_kept].
Qed.

(** ** All paths *)

(** Every path keeps its value, or is one of this device's and ends as wanted. *)
Definition settled (check : bool) (evs : list Event) (o o' : Value) (p : list (list Z)) : Prop :=
  if equal p (baseline evs p) (desired evs p) then get o' p = get o p
  else equal p (get o' p) (desired evs p) = true /\ (check = true -> known_value evs p (get o p)).

Lemma merge_paths_view check evs ps : forall r r' o, Forall event_ok evs -> StronglySorted apart_paths ps ->
  (forall p, p ∈ ps -> p ∈ changed_paths evs) -> view r = Ok (Object o) ->
  merge_paths parse_f64 parse_map check evs r ps = Ok r' ->
  exists o', view r' = Ok (Object o') /\
  (forall q, (forall p, p ∈ ps -> apart_paths p q) -> get (Object o') q = get (Object o) q) /\
  (forall p, p ∈ ps -> settled check evs (Object o) (Object o') p).
Proof.
  induction ps as [|p ps IH]; intros r r' o Hf Ha Hin Hv H; cbn [merge_paths] in H.
  { injection H as <-. exists o. split; [done|]. split; [done|by intros p ?%elem_of_nil]. }
  apply rbind_Ok in H as (r1 & H1 & H). apply StronglySorted_inv in Ha as [Ha Hap]. rewrite Forall_forall in Hap.
  pose proof (merge_path_Ok check evs r p r1 Hf (Hin p ltac:(by left)) H1) as Hm.
  assert (exists o1, view r1 = Ok (Object o1) /\ (forall q, apart_paths p q -> get (Object o1) q = get (Object o) q) /\
    settled check evs (Object o) (Object o1) p) as (o1 & Hv1 & Hq1 & Hs1).
  { unfold settled. destruct (equal p (baseline evs p) (desired evs p)); [subst r1; by exists o|].
    destruct Hm as (o0 & o1 & Hv0 & Hv1 & Hk & He & Hq & _). rewrite Hv in Hv0. injection Hv0 as <-.
    exists o1. split; [done|]. split; [done|]. split; [done|]. intros Hc. by destruct (Hk Hc). }
  destruct (IH r1 r' o1 Hf Ha (fun q Hq => Hin q ltac:(by right)) Hv1 H) as (o' & Hv' & Hq' & Hs').
  exists o'. split; [done|]. split.
  - intros q Hq. rewrite Hq', Hq1; [done|apply Hq; by left|]. intros x Hx. apply Hq. by right.
  - intros x [->|Hx]%elem_of_cons.
    + unfold settled in *. rewrite Hq'; [done|]. intros y Hy. by apply apart_sym, Hap.
    + specialize (Hs' x Hx). unfold settled in *. rewrite (Hq1 x) in Hs' by by apply Hap. done.
Qed.

(** Merging the same paths into the result changes nothing. *)
Definition done_path (check : bool) (evs : list Event) (r : Value) (p : list (list Z)) : Prop :=
  equal p (baseline evs p) (desired evs p) = true \/
  exists o, view r = Ok (Object o) /\ equal p (get (Object o) p) (desired evs p) = true /\
    (check = true -> parents_ok evs p (Object o)).

Lemma merge_path_done check evs r p : p ∈ changed_paths evs -> done_path check evs r p ->
  merge_path parse_f64 parse_map check evs r p = Ok r.
Proof.
  intros Hp Hd. unfold merge_path. destruct (touching_nonempty evs p Hp) as [e He].
  unfold done_path, baseline, desired, parents_ok in Hd. set (hits := touching evs p) in *.
  assert (exists f, head hits = Some f) as [f Ef] by (destruct hits; [by apply elem_of_nil in He|by eexists]).
  assert (exists l, last hits = Some l) as [l El].
  { destruct (last hits) eqn:E; [by eexists|]. apply last_None in E. rewrite E in He. by apply elem_of_nil in He. }
  rewrite Ef, El in *. cbn [mbind option_bind] in Hd. destruct Hd as [->|(o & Hv & Hq & Hk)]; [done|].
  destruct (equal p (get (ev_before f) p) (get (ev_after l) p)); [done|]. rewrite Hv. cbn [rbind]. rewrite Hq. cbn [negb].
  destruct check; [|done]. rewrite (Hk eq_refl f eq_refl). cbn [rbind].
  replace (existsb _ hits) with true; [by rewrite orb_true_r|]. symmetry. apply existsb_exists. exists l.
  split; [|done]. apply list_elem_of_In. by apply last_Some_elem_of.
Qed.

Lemma parents_kept_step before o o' p q : apart_paths q p ->
  (forall x, path_starts x q = false -> is_Some (get o x) -> is_Some (get o' x)) ->
  parents_kept before o p = true -> parents_kept before o' p = true.
Proof.
  intros [Ha1 Ha2] Hk. unfold parents_kept. rewrite !forallb_forall. intros H n Hn. specialize (H n Hn).
  destruct (get before (take n p)); [|done]. destruct (get o (take n p)) as [w|] eqn:E; [|done].
  destruct (Hk (take n p)) as [x ->]; [|by eexists|done].
  apply not_true_is_false. intros Hs. apply path_starts_app in Hs as [t Ht]. apply not_true_iff_false in Ha2. apply Ha2.
  apply path_starts_app. exists (t ++ drop n p). rewrite app_assoc, <- Ht. symmetry. apply take_drop.
Qed.

Lemma parents_kept_self before o o' p : p <> [] ->
  (forall x, path_starts x p = false -> is_Some (get o x) -> is_Some (get o' x)) ->
  parents_kept before o p = true -> parents_kept before o' p = true.
Proof.
  intros Hp Hk. unfold parents_kept. rewrite !forallb_forall. intros H n Hn. specialize (H n Hn).
  destruct (get before (take n p)); [|done]. destruct (get o (take n p)) as [w|] eqn:E; [|done].
  destruct (Hk (take n p)) as [x ->]; [|by eexists|done].
  apply not_true_is_false. intros Hs. apply path_starts_app in Hs as [t Ht]. apply (f_equal length) in Ht.
  rewrite length_app, length_take in Ht. apply in_seq in Hn. lia.
Qed.

(** A path that is done stays done while other paths are merged. *)
Lemma merge_paths_done check evs ps : forall r r' p, Forall event_ok evs -> StronglySorted apart_paths (p :: ps) ->
  (forall q, q ∈ p :: ps -> q ∈ changed_paths evs) -> done_path check evs r p ->
  merge_paths parse_f64 parse_map check evs r ps = Ok r' -> done_path check evs r' p.
Proof.
  induction ps as [|q ps IH]; intros r r' p Hf Ha Hin Hd H; cbn [merge_paths] in H; [by injection H as <-|].
  apply rbind_Ok in H as (r1 & H1 & H). apply StronglySorted_inv in Ha as [Ha Hap]. rewrite Forall_forall in Hap.
  apply (IH r1 r' p Hf); [|intros x [->|Hx]%elem_of_cons; apply Hin; [by left|right; by right]| |done].
  { apply StronglySorted_inv in Ha as [Ha _]. constructor; [done|]. apply Forall_forall. intros x Hx. apply Hap. by right. }
  pose proof (merge_path_Ok check evs r q r1 Hf (Hin q ltac:(right; by left)) H1) as Hm.
  destruct (equal q (baseline evs q) (desired evs q)); [by subst r1|].
  destruct Hd as [Hd|(o & Hv & Hq & Hk)]; [by left|]. right.
  destruct Hm as (o0 & o1 & Hv0 & Hv1 & _ & _ & Hq1 & Hk1). rewrite Hv in Hv0. injection Hv0 as <-.
  assert (apart_paths p q) as Hpq by (apply Hap; by left).
  exists o1. split; [done|]. rewrite Hq1 by by apply apart_sym. split; [done|].
  intros Hc e He. apply (parents_kept_step _ (Object o) _ _ q); [by apply apart_sym|done|]. by apply (Hk Hc).
Qed.

Lemma merge_paths_all_done check evs ps : forall r r', Forall event_ok evs -> StronglySorted apart_paths ps ->
  (forall q, q ∈ ps -> q ∈ changed_paths evs) ->
  merge_paths parse_f64 parse_map check evs r ps = Ok r' -> forall p, p ∈ ps -> done_path check evs r' p.
Proof.
  induction ps as [|q ps IH]; intros r r' Hf Ha Hin H p Hp; [by apply elem_of_nil in Hp|]. cbn [merge_paths] in H.
  apply rbind_Ok in H as (r1 & H1 & H). apply elem_of_cons in Hp as [->|Hp].
  - apply (merge_paths_done check evs ps r1 r' q Hf Ha Hin); [|done].
    pose proof (merge_path_Ok check evs r q r1 Hf (Hin q ltac:(by left)) H1) as Hm. unfold done_path.
    destruct (equal q (baseline evs q) (desired evs q)); [by left|]. right.
    destruct Hm as (o & o1 & Hv & Hv1 & Hk & He & _ & Hkept). exists o1. split; [done|]. split; [done|].
    intros Hc e Hee. destruct (Hk Hc) as [_ Hpar]. apply (parents_kept_self _ (Object o)); [|done|by apply Hpar].
    by destruct (changed_path_ok evs q Hf (Hin q ltac:(by left))).
  - apply StronglySorted_inv in Ha as [Ha _]. apply (IH r1 r' Hf Ha); [|done|done]. intros x Hx. apply Hin. by right.
Qed.

Lemma merge_paths_fix check evs ps r : (forall p, p ∈ ps -> p ∈ changed_paths evs /\ done_path check evs r p) ->
  merge_paths parse_f64 parse_map check evs r ps = Ok r.
Proof.
  induction ps as [|p ps IH]; intros H; [done|]. cbn [merge_paths].
  destruct (H p ltac:(by left)) as [Hp Hd]. rewrite (merge_path_done check evs r p Hp Hd). cbn [rbind].
  apply IH. intros q Hq. apply H. by right.
Qed.

Lemma merge_path_object check evs x p r : merge_path parse_f64 parse_map check evs (Object x) p = Ok r -> exists z, r = Object z.
Proof.
  unfold merge_path. destruct (head (touching evs p)), (last (touching evs p)); try done. destruct (equal p _ _); [intros [= <-]; by exists x|]. intros H.
  apply rbind_Ok in H as (ob & _ & H). apply rbind_Ok in H as ([] & _ & H). destruct (negb _); [|injection H as <-; by exists x].
  unfold RateIntent.set in H. destruct p; [done|]. apply rbind_Ok in H as (ro & _ & H).
  apply rbind_Ok in H as (ro' & _ & H). apply rbind_Ok in H as (ro'' & _ & H). injection H as <-. by eexists.
Qed.

Lemma merge_paths_object check evs ps : forall x r, merge_paths parse_f64 parse_map check evs (Object x) ps = Ok r ->
  exists z, r = Object z.
Proof.
  induction ps as [|p ps IH]; intros x r H; cbn [merge_paths] in H; [injection H as <-; by exists x|].
  apply rbind_Ok in H as (r1 & H1 & H). apply merge_path_object in H1 as [z ->]. by eapply IH.
Qed.

(** ** Plain edits *)

(** No forced publication without a change and no required plan: the edits of
    the rate editor. *)
Definition plain (evs : list Event) : Prop :=
  Forall (fun e => (ev_force e && is_empty (ev_paths e)) = false /\ ev_required e = None) evs.

Lemma plain_asserted evs : plain evs -> asserted_paths parse_map evs = Ok [].
Proof.
  induction 1 as [|e evs [He _] _ IH]; [done|]. cbn [asserted_paths]. unfold asserted_by. rewrite He. cbn [rbind].
  by rewrite IH.
Qed.

Lemma plain_required evs : plain evs -> omap ev_required evs = [].
Proof. induction 1 as [|e evs [_ He] _ IH]; [done|]. cbn. by rewrite He. Qed.

Lemma plain_apply i c after check evs : events_from parse_f64 parse_map (edits i) after = Ok evs -> plain evs ->
  apply parse_f64 parse_map i c after check =
  if legacy i && check then Err RLegacy
  else let? m := ok_or (as_object c) RCloud in merge_paths parse_f64 parse_map check evs (Object m) (changed_paths evs).
Proof.
  intros He Hp. unfold apply. destruct (legacy i && check); [done|]. rewrite He. cbn [rbind].
  destruct (as_object c) as [m|]; [|done]. cbn [ok_or rbind]. destruct (merge_paths _ _ _ _ _ _) as [r|]; [|done]. cbn [rbind].
  rewrite (plain_asserted evs Hp). cbn [rbind]. destruct (last evs); [|done]. cbn. by rewrite (plain_required evs Hp).
Qed.

Lemma changed_rate_key evs p : Forall event_ok evs -> p ∈ changed_paths evs -> exists k, head p = Some k /\ k ∈ RATE_KEYS.
Proof.
  intros Hf (e & He & Hp)%changed_path_in. rewrite Forall_forall in Hf. destruct (Hf e He) as (_ & _ & Hw).
  by destruct (Hw p Hp) as (_ & _ & Hk).
Qed.

(** Merging rate edits into the cloud's current rates changes the edited
    fields and nothing else. Every field no edit covers keeps its value, so do
    all settings that are not rates; an edited field whose edits cancel out
    keeps the cloud's value; any other edited field ends with the value of its
    last edit, and it is written only where the cloud held this device's
    baseline or one of the values this device wrote itself. *)
Theorem rate_merge_exact i c r evs o :
  merge parse_f64 parse_map i c = Ok r ->
  events_from parse_f64 parse_map (edits i) None = Ok evs -> plain evs -> view c = Ok o ->
  exists o', view r = Ok o' /\
  (forall q, (forall p, p ∈ changed_paths evs -> apart_paths p q) -> get o' q = get o q) /\
  (forall k, k ∉ RATE_KEYS -> get o' [k] = get o [k]) /\
  (forall p, p ∈ changed_paths evs ->
     if equal p (baseline evs p) (desired evs p) then get o' p = get o p
     else equal p (get o' p) (desired evs p) = true /\ known_value evs p (get o p)).
Proof.
  intros H He Hp Hv. unfold merge in H. rewrite (plain_apply i c None true evs He Hp) in H.
  destruct (legacy i && true); [done|]. pose proof (view_Ok _ _ Hv) as (m & ps & n & -> & _ & _ & Eo).
  cbn [as_object ok_or rbind] in H. pose proof (events_from_ok _ _ _ He) as Hf. rewrite Eo in Hv |- *.
  destruct (merge_paths_view true evs (changed_paths evs) _ r _ Hf (changed_paths_apart evs) (fun p Hp => Hp) Hv H)
    as (o' & Hv' & Hq & Hs).
  exists (Object o'). split; [done|]. split; [done|]. split.
  - intros k Hk. apply Hq. intros p Hpc. destruct (changed_rate_key evs p Hf Hpc) as (k' & Hh & Hk').
    destruct p as [|a p]; [done|]. injection Hh as ->. assert (k' <> k) as Hne by congruence.
    split; cbn; by rewrite bool_decide_false by congruence.
  - intros p Hpc. specialize (Hs p Hpc). unfold settled in Hs. destruct (equal _ _ _); [done|]. destruct Hs as [? Hk].
    split; [done|by apply Hk].
Qed.

(** Merging rate edits again changes nothing: when a push was accepted but
    its answer was lost, merging the same edits into the document the cloud now
    holds succeeds and gives that document. *)
Theorem rate_merge_idempotent i c r evs :
  merge parse_f64 parse_map i c = Ok r ->
  events_from parse_f64 parse_map (edits i) None = Ok evs -> plain evs ->
  merge parse_f64 parse_map i r = Ok r.
Proof.
  intros H He Hp. unfold merge in *. rewrite (plain_apply i c None true evs He Hp) in H. rewrite (plain_apply i r None true evs He Hp).
  destruct (legacy i && true); [done|]. apply rbind_Ok in H as (m & _ & H). pose proof (events_from_ok _ _ _ He) as Hf.
  destruct (merge_paths_object _ _ _ _ _ H) as [m' ->].
  cbn [as_object ok_or rbind]. apply merge_paths_fix. intros p Hpc. split; [done|].
  by apply (merge_paths_all_done true evs (changed_paths evs) _ _ Hf (changed_paths_apart evs) (fun q Hq => Hq) H).
Qed.
End merge.

(** ** Fuel *)

Lemma depth_child (m : Map) k v : m !! k = Some v -> (depth v < depth (Object m))%nat.
Proof.
  intros Hv. cbn [depth]. apply Nat.lt_succ_r.
  assert ((depth <$> m) !! k = Some (depth v)) as Hd by (by rewrite lookup_fmap, Hv).
  revert Hd. generalize (depth v) as n. intros n.
  apply (map_fold_weak_ind (fun r (x : gmap (list Z) nat) => x !! k = Some n -> (n <= r)%nat)); [by rewrite lookup_empty|].
  intros j d x r Hj IH. intros [[-> ->]|[_ Hx]]%lookup_insert_Some; [lia|]. specialize (IH Hx). lia.
Qed.

(** The nesting of the older document is fuel enough: more changes nothing. *)
Lemma diff_fuel parse_f64 fuel : forall path b a, (match b with Some v => depth v | None => 0 end <= fuel)%nat ->
  diff parse_f64 (S fuel) path b a = diff parse_f64 fuel path b a.
Proof.
  induction fuel as [|fuel IH]; intros path b a Hf.
  - cbn. destruct (equal _ _ _ _); [done|]. destruct b as [[]|], a as [[]|]; try done. cbn in Hf. lia.
  - cbn [diff]. destruct (equal _ _ _ _); [done|]. destruct b as [[| | | | |b]|], a as [[| | | | |a]|]; try done.
    f_equal. apply map_ext. intros key. rewrite <- IH; [done|].
    destruct (b !! key) as [v|] eqn:E; [|lia]. pose proof (depth_child b key v E). lia.
Qed.

(** ** A concrete edit *)

Definition wr_doc (rate flat : Z) : Value :=
  Object (<[CURRENCY := String (lit "CAD")]> (<[DEFAULT_RATE := Num (PosInt rate)]>
    {[ RATES := Object {[ lit "Work" := Object {[ FLAT := Num (PosInt flat) ]} ]} ]})).
Definition wr_intent : Intent :=
  {| legacy := false; edits := [(1, MutableQueue.RateConfig (wr_doc 1 2) (wr_doc 1 3) false None)] |}.
Definition wr_cloud : Value :=
  Object (<[DEFAULT_RATE := Num (PosInt 9)]> (<[lit "theme" := Bool true]>
    {[ RATES := Object {[ lit "Work" := Object (<[lit "note" := Null]> {[ FLAT := Num (PosInt 2) ]}) ]} ]})).
Definition no_text {A} (_ : list Z) : option A := None.

Lemma wr_plain evs : events_from no_text no_text (edits wr_intent) None = Ok evs -> plain evs.
Proof.
  intros E. assert (match events_from no_text no_text (edits wr_intent) None with
    | Ok evs => forallb (fun e => negb (ev_force e && is_empty (ev_paths e)) && bool_decide (ev_required e = None)) evs
    | Err _ => false end = true) as H by (vm_compute; reflexivity).
  rewrite E in H. clear E. apply Forall_forall. intros e He. rewrite forallb_forall in H. specialize (H e). rewrite <- list_elem_of_In in H.
  specialize (H He). apply andb_true_iff in H as [H1 H2].
  split; [by apply negb_true_iff|by apply bool_decide_eq_true in H2].
Qed.

Lemma is_ok_Ok {E A} (r : result E A) : is_ok r = true -> exists a, r = Ok a.
Proof. destruct r; [by eexists|done]. Qed.

Lemma rate_merge_exact_witness : exists r o', merge no_text no_text wr_intent wr_cloud = Ok r /\
  view no_text no_text r = Ok o' /\ get o' [lit "theme"] = Some (Bool true).
Proof.
  destruct (is_ok_Ok (merge no_text no_text wr_intent wr_cloud) ltac:(vm_compute; reflexivity)) as [r E].
  destruct (is_ok_Ok (events_from no_text no_text (edits wr_intent) None) ltac:(vm_compute; reflexivity)) as [evs Ee].
  destruct (is_ok_Ok (view no_text no_text wr_cloud) ltac:(vm_compute; reflexivity)) as [o Ev].
  destruct (rate_merge_exact no_text no_text wr_intent wr_cloud r evs o E Ee (wr_plain evs Ee) Ev) as (o' & Hv & _ & Hk & _).
  exists r, o'. split; [done|]. split; [done|]. rewrite Hk by (apply (bool_decide_unpack _); vm_compute; exact I).
  assert (match view no_text no_text wr_cloud with Ok o => bool_decide (get o [lit "theme"] = Some (Bool true)) | Err _ => false end = true)
    as H by (vm_compute; reflexivity). rewrite Ev in H. by apply bool_decide_eq_true in H.
Defined.

Lemma rate_merge_idempotent_witness : exists r, merge no_text no_text wr_intent wr_cloud = Ok r /\
  merge no_text no_text wr_intent r = Ok r.
Proof.
  destruct (is_ok_Ok (merge no_text no_text wr_intent wr_cloud) ltac:(vm_compute; reflexivity)) as [r E].
  destruct (is_ok_Ok (events_from no_text no_text (edits wr_intent) None) ltac:(vm_compute; reflexivity)) as [evs Ee].
  exists r. split; [done|]. exact (rate_merge_idempotent no_text no_text wr_intent wr_cloud r evs E Ee (wr_plain evs Ee)).
Defined.
