(* ===== verification/PrefsJournal.v ===== *)
(** * The preference journal: [api/src/preferences_journal.rs] and the preference
      writers of [api/src/preferences.rs]

    A charging rate lives in two places: the preferences file and the queue of
    edits for the cloud. A save stages a journal in the database, publishes the
    file and retires the journal; recovery completes an interrupted save.

    The state is the file system of [AtomicFile] next to the database of
    [MutableQueue]. [kept] lists the databases a power cut may leave: a
    transaction of [with_durable_conn] is flushed when it commits, any other
    commit may be lost. [points] collects every moment a cut can happen. *)

From Stdlib Require Import ZArith Lia.
From stdpp Require Import base gmap list.
From S2P Require Import Prelude Str Json MutableQueue RateIntent AtomicFile.

Import Json AtomicFile MutableQueue.
Open Scope Z_scope.

Module PrefsJournal.

Notation str := (list Z) (only parsing).
Notation Path := (list Z * list Z)%type (only parsing).
Notation Map := (gmap (list Z) Value).

(** ** The machine *)

Inductive JournalError :=
| JIo (e : IoError) | JLoad (e : LoadError) | JSqlite | JDb (e : DbError) | JRate (e : RateIntent.RateError)
| JUnreadable | JSourceChanged | JReconcile | JFingerprint | JNotObject | JEditor.

(** How a transaction can fail: before it commits, or on restoring the sync
    mode after the commit. *)
Inductive DbFault := DbGood | DbRolledBack | DbReported.

Record Sys := mkSys {
  world : World;
  db : Db;
  kept : list Db;
  db_faults : list DbFault;
  points : list (Fs * list Db)
}.

Definition M (A : Type) : Type := Sys -> result JournalError A * Sys.

Definition mret {A} (a : A) : M A := fun y => (Ok a, y).
Definition mthrow {A} (e : JournalError) : M A := fun y => (Err e, y).
Definition mbind {A B} (m : M A) (k : A -> M B) : M B := fun y =>
  match m y with (Ok a, y) => k a y | (Err e, y) => (Err e, y) end.
Notation "'do' x ← m ; k" := (mbind m (fun x => k)) (at level 20, x pattern, m at level 100, k at level 200).
Definition lift {A} (r : result JournalError A) : M A := match r with Ok a => mret a | Err e => mthrow e end.

(** A file operation: the database does not change meanwhile. *)
Definition io {A} (m : IO A) : M (result IoError A) := fun y =>
  let w := {| fs := fs (world y); faults := faults (world y); trace := []; temp_id := temp_id (world y) |} in
  let (r, w') := m w in
  (Ok r, mkSys w' (db y) (kept y) (db_faults y) (points y ++ map (fun s => (s, kept y)) (trace w'))).

(** A query on the writer connection. *)
Definition query {A} (q : Db -> result DbError A) : M A := fun y =>
  let y' := mkSys (world y) (db y) (kept y) (tail (db_faults y)) (points y) in
  match head (db_faults y) with
  | Some DbRolledBack | Some DbReported => (Err JSqlite, y')
  | _ => (match q (db y) with Ok a => Ok a | Err e => Err (JDb e) end, y')
  end.

(** A transaction: at its commit a cut leaves either state. *)
Definition commit (durable : bool) (reported : bool) (d : Db) (y : Sys) : result JournalError unit * Sys :=
  let during := kept y ++ [d] in
  let rest := if durable then [d] else during in
  ((if reported then Err JSqlite else Ok tt),
   mkSys (world y) d rest (tail (db_faults y))
     (points y ++ [(fs (world y), during); (fs (world y), rest)])).

Definition transaction (durable : bool) (f : Db -> result DbError Db) : M unit := fun y =>
  let y' := mkSys (world y) (db y) (kept y) (tail (db_faults y)) (points y) in
  match head (db_faults y) with
  | Some DbRolledBack => (Err JSqlite, y')
  | fault =>
      match f (db y) with
      | Err e => (Err (JDb e), y')
      | Ok d => commit durable (durable && match fault with Some DbReported => true | _ => false end) d y
      end
  end.

(** [with_durable_conn] and [with_locked_conn]. *)
Notation with_durable_conn := (transaction true).
Notation with_locked_conn := (transaction false).

(** ** The journal *)

Record Pending := {
  version : Z;
  path_text : str;
  before_hash : str;
  after_hash : str;
  pending_rates : Map;
  confirmation : option Confirmation
}.

Definition rates (prefs : Map) : Map := filter (fun kv => kv.1 ∈ RATE_KEYS) prefs.

Definition apply_rates (prefs r : Map) : Map :=
  foldl (fun p key => match r !! key with Some value => <[key := value]> p | None => delete key p end) prefs RATE_KEYS.

(** [to_str] of a path. *)
Definition to_str (p : Path) : str := p.1 ++ lit "/" ++ p.2.

(** [finish]'s transaction. *)
Definition finish (raw : str) (d : Db) : result DbError Db :=
  if bool_decide (meta_get d RATE_PREFERENCES_JOURNAL = Some raw)
  then Ok (meta_del d RATE_PREFERENCES_JOURNAL) else Err EJournalChanged.

(** [fs::read], the file missing apart. *)
Definition read_file (p : Path) : IO (option (list Z)) := call (fun s => Ok (AtomicFile.read s p, s)) unchanged.

(** The serializers of documents and of the journal, and [hash]; the two
    parameters of the rate merge; base64. *)
Class Env := {
  to_vec : Map -> list Z;
  from_slice : list Z -> option Map;
  to_raw : Pending -> str;
  of_raw : str -> option Pending;
  hash : Map -> str;
  parse_f64 : str -> option Z;
  parse_map : str -> option Map;
  url_decode : str -> option str;
  url_encode : str -> str
}.

Section journal.
Context `{!Env} (pid : Z).

(** [file_store::load]. *)
Definition load_file (primary legacy : Path) : M Map :=
  let outcome (r : result IoError (option (list Z))) : result unit (option (list Z)) :=
    match r with Ok c => Ok c | Err _ => Err tt end in
  do first ← io (read_file primary);
  do second ← (match first with Ok None => io (read_file legacy) | _ => mret first end);
  lift (match load from_slice ∅ (fun p => outcome (if bool_decide (p = primary) then first else second)) primary legacy with
        | Ok d => Ok d
        | Err e => Err (JLoad e)
        end).

(** [file_store::save]. *)
Definition save_file (path : Path) (prefs : Map) : M unit :=
  do r ← io (save pid path (to_vec prefs));
  lift (match r with Ok _ => Ok tt | Err e => Err (JIo e) end).

Definition ensure (b : bool) (e : JournalError) : M unit := if b then mret tt else mthrow e.

(** Retire the journal: [finish] or [finish_rate_confirmation]. *)
Definition retire_journal (c : option Confirmation) (raw : str) : M unit :=
  match c with
  | Some c => with_durable_conn (fun d => finish_rate_confirmation url_decode url_encode d c raw)
  | None => with_locked_conn (finish raw)
  end.

(** [store.check_rate_confirmation], when there is a confirmation. *)
Definition check_journal (c : option Confirmation) (raw : str) : M unit :=
  match c with
  | Some c => query (fun d => check_rate_confirmation url_decode url_encode d c raw)
  | None => mret tt
  end.

(** The guard [recover] puts on a journal. *)
Definition pending_ok (primary : Path) (p : Pending) : bool :=
  (((version p =? 1) && bool_decide (confirmation p = None)) ||
   ((version p =? 2) && bool_decide (is_Some (confirmation p))))
  && bool_decide (path_text p = to_str primary) && rate_keys_only (pending_rates p).

(** The rest of [recover] once a journal is found. *)
Definition resume (primary : Path) (raw : str) (current : Map) : M Map :=
  do pending ← lift (ok_or (of_raw raw) JUnreadable);
  do _ ← ensure (pending_ok primary pending) JSourceChanged;
  do _ ← check_journal (confirmation pending) raw;
  let current_hash := hash (rates current) in
  do current ← (if bool_decide (current_hash = before_hash pending)
                then mret (apply_rates current (pending_rates pending))
                else do _ ← ensure (bool_decide (current_hash = after_hash pending)) JReconcile; mret current);
  do _ ← ensure (bool_decide (hash (pending_rates pending) = after_hash pending)
                 && veq (Object (rates current)) (Object (pending_rates pending))) JFingerprint;
  do _ ← save_file primary current;
  do _ ← retire_journal (confirmation pending) raw;
  mret current.

Definition recover (primary legacy : Path) : M Map :=
  do raw ← query (fun d => Ok (meta_get d RATE_PREFERENCES_JOURNAL));
  do current ← load_file primary legacy;
  match raw with
  | None => mret current
  | Some raw => resume primary raw current
  end.

(** [publish_with_tag]; [publish] has no tag. [now_ms] is the clock the edit is
    stamped with. *)
Definition publish_with_tag (now_ms : Z) (primary : Path) (before after : Map) (force : bool)
    (required_tag : option str) : M unit :=
  let after_rates := rates after in
  let pending := {| version := 1; path_text := to_str primary; before_hash := hash (rates before);
                    after_hash := hash after_rates; pending_rates := after_rates; confirmation := None |} in
  let raw := to_raw pending in
  do _ ← with_durable_conn (fun d =>
           stage_rate_preferences_with_tag now_ms d (Object (rates before)) (Object after_rates) force required_tag raw);
  do _ ← save_file primary after;
  with_locked_conn (finish raw).

Definition publish (now_ms : Z) (primary : Path) (before after : Map) (force : bool) : M unit :=
  publish_with_tag now_ms primary before after force None.

Definition confirm (primary legacy : Path) (cloud : Value) (through : Z) (receipt : option (str * str)) : M unit :=
  do before ← recover primary legacy;
  do snapshot ← query snapshot;
  do merged ← lift (match RateIntent.replay_after parse_f64 parse_map (intent snapshot) through cloud with
                    | Ok v => Ok v | Err e => Err (JRate e) end);
  do fields ← lift (ok_or (as_object merged) JNotObject);
  let desired := rates fields in
  let after := apply_rates before desired in
  let confirmation := {| through := through; snapshot_ := snapshot; receipt := receipt |} in
  let pending := {| version := 2; path_text := to_str primary; before_hash := hash (rates before);
                    after_hash := hash desired; pending_rates := desired; confirmation := Some confirmation |} in
  let raw := to_raw pending in
  do _ ← with_durable_conn (fun d => stage_rate_confirmation url_decode url_encode d confirmation raw);
  do _ ← save_file primary after;
  with_durable_conn (fun d => finish_rate_confirmation url_decode url_encode d confirmation raw).

(** ** The paths, below the mutable directory. *)

Definition prefs_file (mutable_dir : str) : Path := (mutable_dir, lit ".sentryusb_preferences.json").
Definition legacy_prefs_file (mutable_dir : str) : Path := (mutable_dir, lit "sentryusb-prefs.json").

(** ** The writers of [preferences.rs]; each holds the preferences lock throughout. *)

(** The editor closure: an error, or what it reports with the edited document
    when it changed it. *)
Definition Editor (A : Type) := Map -> result unit (A * option Map).
Definition edited {A} (f : Editor A) (prefs : Map) : M (A * option Map) :=
  lift (match f prefs with Ok r => Ok r | Err _ => Err JEditor end).

(** [edit_prefs_at], returning also what the closure left in its captures. *)
Definition edit_prefs_at {A} (now_ms : Z) (primary legacy : Path) (force_rates : bool) (f : Editor A) : M (A * bool) :=
  do before ← recover primary legacy;
  do change ← edited f before;
  match change with
  | (a, None) => mret (a, false)
  | (a, Some prefs) =>
      do _ ← (if force_rates || negb (veq (Object (rates before)) (Object (rates prefs)))
              then publish now_ms primary before prefs force_rates
              else save_file primary prefs);
      mret (a, true)
  end.

Definition update_rate_plan_at {A} (now_ms : Z) (primary legacy : Path) (tag : str) (f : Editor A) : M (A * bool) :=
  do before ← recover primary legacy;
  do change ← edited f before;
  match change with
  | (a, None) => mret (a, false)
  | (a, Some prefs) => do _ ← publish_with_tag now_ms primary before prefs false (Some tag); mret (a, true)
  end.

Inductive AnalyticsDefault := Applied | Existing (v : Value) | SetupFinished.

Definition ANALYTICS : str := lit "analytics_opt_in".

(** The closure of [save_analytics_default_at]; [setup_finished] is [None] when
    the check fails. *)
Definition analytics_default (setup_finished : option bool) : Editor AnalyticsDefault := fun prefs =>
  match prefs !! ANALYTICS with
  | Some v => Ok (Existing v, None)
  | None =>
      match setup_finished with
      | None => Err tt
      | Some true => Ok (SetupFinished, None)
      | Some false => Ok (Applied, Some (<[ANALYTICS := Bool true]> prefs))
      end
  end.

Definition save_analytics_default_at (now_ms : Z) (primary legacy : Path) (setup_finished : option bool) : M AnalyticsDefault :=
  do r ← edit_prefs_at now_ms primary legacy false (analytics_default setup_finished);
  mret r.1.

(** [queue_initial_rate_config]'s transaction, on a document with rates. *)
Definition queue_initial (now_ms : Z) (doc : Map) (d : Db) : result DbError Db :=
  if bool_decide (meta_get d RATE_PREFERENCES_JOURNAL = None)
  then match queued d RATE [] with
       | Some _ => Ok d
       | None => queue_edit now_ms d RATE [] None (RateConfig (Object ∅) (Object doc) false None)
       end
  else Err EPending.

Definition queue_initial_rates (now_ms : Z) (primary legacy : Path) : M unit :=
  do prefs ← recover primary legacy;
  let doc := rates prefs in
  do _ ← lift (match RateIntent.initial_document parse_f64 parse_map (Object doc) with
               | Ok v => Ok v | Err e => Err (JRate e) end);
  if bool_decide (doc = ∅) then mret tt else with_durable_conn (queue_initial now_ms doc).

Definition store_rate_doc (primary legacy : Path) (doc : Value) : M unit :=
  do obj ← lift (ok_or (as_object doc) JNotObject);
  do prefs ← recover primary legacy;
  do pending ← query (fun d => Ok (queued d RATE []));
  match pending with
  | Some _ => mret tt
  | None => save_file primary (apply_rates prefs obj)
  end.

End journal.

End PrefsJournal.
