(* ===== verification/PrefsJournalSpec.v ===== *)
(** * The preference journal: theorems

    A rate edit is all or nothing across the file and the database: whatever
    fails and whenever the power goes, the next recovery that runs undisturbed
    succeeds and leaves both places before the edit or both after it. *)

From Stdlib Require Import ZArith Lia.
From stdpp Require Import base gmap list.
From S2P Require Import Prelude Str Json MutableQueue RateIntent AtomicFile AtomicFileSpec PrefsJournal.

Import Json AtomicFile MutableQueue PrefsJournal.
Open Scope Z_scope.

Notation str := (list Z) (only parsing).
Notation Path := (list Z * list Z)%type (only parsing).
Notation Map := (gmap (list Z) Value).
Notation JOURNAL := RATE_PREFERENCES_JOURNAL.

(** ** Rate fields *)

Lemma lookup_apply_keys (r : Map) l : forall (p : Map) k,
  foldl (fun p key => match r !! key with Some value => <[key := value]> p | None => delete key p end) p l !! k
  = if bool_decide (k ∈ l) then r !! k else p !! k.
Proof.
  induction l as [|x l IH]; intros p k; cbn [foldl]; [done|]. rewrite IH.
  destruct (decide (k ∈ l)) as [Hk|Hk].
  - by rewrite !bool_decide_true by set_solver.
  - rewrite (bool_decide_false (k ∈ l)) by done. destruct (decide (k = x)) as [->|Hne].
    + rewrite bool_decide_true by set_solver. destruct (r !! x); [by rewrite lookup_insert_eq|by rewrite lookup_delete_eq].
    + rewrite bool_decide_false by set_solver. destruct (r !! x); [by rewrite lookup_insert_ne|by rewrite lookup_delete_ne].
Qed.

Lemma lookup_apply_rates (p r : Map) k : apply_rates p r !! k = if bool_decide (k ∈ RATE_KEYS) then r !! k else p !! k.
Proof. apply lookup_apply_keys. Qed.

Lemma lookup_rates (p : Map) k : rates p !! k = if bool_decide (k ∈ RATE_KEYS) then p !! k else None.
Proof.
  unfold rates. rewrite map_lookup_filter. destruct (p !! k) as [v|]; cbn; [|by case_bool_decide].
  case_bool_decide as H; case_guard as G; done.
Qed.

Lemma rates_rate_keys (p : Map) : rate_keys_only (rates p) = true.
Proof.
  apply bool_decide_eq_true_2. intros k v. rewrite lookup_rates. case_bool_decide; done.
Qed.

Lemma rates_apply (p r : Map) : rate_keys_only r = true -> rates (apply_rates p r) = r.
Proof.
  intros H%bool_decide_eq_true. apply map_eq. intros k. rewrite lookup_rates, lookup_apply_rates.
  case_bool_decide as Hk; [done|]. destruct (r !! k) as [v|] eqn:E; [|done]. by destruct (Hk (H k v E)).
Qed.

Lemma apply_rates_self (p : Map) : apply_rates p (rates p) = p.
Proof.
  apply map_eq. intros k. rewrite lookup_apply_rates, lookup_rates. by case_bool_decide.
Qed.

(** ** Files *)

Section files.
Context {ENV : Env} (primary legacy : Path) (lold : option (list Z)).
Context (Hpl : primary <> legacy) (Htl : forall pid id, temporary primary pid id <> legacy).

(** Whatever a cut keeps, the legacy file is untouched and the current one is
    one of [vals]. *)
Definition fine (vals : list (option (list Z))) (s : Fs) : Prop :=
  wf s /\ durable s legacy [lold] /\ durable s primary vals.

Lemma fine_weaken vals vals' s : vals ⊆ vals' -> fine vals s -> fine vals' s.
Proof using Type. intros H (? & ? & Hd). split; [done|]. split; [done|]. by eapply durable_weaken. Qed.

Lemma fine_crash vals s s' : fine vals s -> crash s s' -> fine [AtomicFile.read s' primary] s' /\ AtomicFile.read s' primary ∈ vals.
Proof using Type.
  intros (Hw & Hl & Hd) Hc. destruct (durable_crash _ _ _ _ Hd Hc) as [Hm Hd'].
  destruct (durable_crash _ _ _ _ Hl Hc) as [Hlm Hl']. apply list_elem_of_singleton in Hlm. rewrite Hlm in Hl'.
  split; [|done]. split; [by eapply wf_crash|done].
Qed.

(** The document the two files hold. *)
Definition reads (o : option (list Z)) (doc : Map) : Prop :=
  match o with
  | Some bytes => from_slice bytes = Some doc
  | None => match lold with Some bytes => from_slice bytes = Some doc | None => doc = ∅ end
  end.

Lemma reads_unique o p q : reads o p -> reads o q -> p = q.
Proof using Type. unfold reads. destruct o, lold; congruence. Qed.

(** No failure is scripted and the temporary name is free. *)
Definition calm (pid : Z) (y : Sys) : Prop :=
  faults (world y) = [] /\ db_faults y = [] /\ names (fs (world y)) !! temporary primary pid (temp_id (world y)) = None.

(** [y'] differs from [y] by the scripts read and by points of the same state. *)
Definition idle (y y' : Sys) : Prop :=
  db y' = db y /\ kept y' = kept y /\ fs (world y') = fs (world y) /\
  (exists n, points y' = points y ++ replicate n (fs (world y), kept y)) /\
  (forall pid, calm pid y -> calm pid y').

Lemma idle_refl y : idle y y.
Proof using Type. split_and!; try done. exists 0%nat. by rewrite app_nil_r. Qed.

Lemma idle_trans x y z : idle x y -> idle y z -> idle x z.
Proof using Type.
  intros (E1 & E2 & E3 & (n & E4) & E5) (F1 & F2 & F3 & (m & F4) & F5). split_and!; try congruence; [|auto].
  exists (n + m)%nat. rewrite F4, E4, E3, E2, replicate_add, app_assoc. done.
Qed.

Lemma script_idle y : idle y (mkSys (world y) (db y) (kept y) (tail (db_faults y)) (points y)).
Proof using Type.
  split_and!; try done; [exists 0%nat; by rewrite app_nil_r|].
  intros pid (Hf & Hd & Hn). unfold calm. cbn [world db_faults]. by rewrite Hd.
Qed.

Lemma query_idle {A} (q : Db -> result DbError A) y :
  let (r, y') := query q y in idle y y' /\
  (forall a, r = Ok a -> q (db y) = Ok a) /\ (forall pid a, calm pid y -> q (db y) = Ok a -> r = Ok a).
Proof using Type.
  unfold query. pose proof (script_idle y) as Hi.
  assert (forall pid, calm pid y -> head (db_faults y) = None) as Hh by (intros pid (_ & -> & _); done).
  destruct (head (db_faults y)) as [[]|] eqn:Eh; (split; [done|]); split;
    try (intros pid a Hc; specialize (Hh pid Hc); discriminate Hh); try (intros a; congruence);
    destruct (q (db y)); intros; congruence.
Qed.

Lemma read_idle p y :
  let (r, y') := io (read_file p) y in idle y y' /\
  (forall c, r = Ok (Ok c) -> AtomicFile.read (fs (world y)) p = c) /\
  (forall pid, calm pid y -> r = Ok (Ok (AtomicFile.read (fs (world y)) p))).
Proof using Type.
  unfold io, read_file, call. cbn [fs faults trace temp_id].
  assert (forall pid, calm pid y -> head (faults (world y)) = None) as Hh by (intros pid (-> & _); done).
  assert (forall pid, calm pid y -> tail (faults (world y)) = []) as Ht by (intros pid (-> & _); done).
  destruct (head (faults (world y))) as [[|n]|] eqn:Eh; cbn [fs faults trace temp_id]; unfold unchanged;
    (split; [split_and!; try done; [by exists 1%nat|]; intros pid Hc; pose proof (Ht pid Hc); by destruct Hc as (_ & ? & ?)|]); split;
    try (intros pid Hc; specialize (Hh pid Hc); discriminate Hh); intros; congruence.
Qed.

Lemma mbind_run {A B} (m : M A) (k : A -> M B) y : mbind m k y =
  match m y with (Ok a, y1) => k a y1 | (Err e, y1) => (Err e, y1) end.
Proof using Type. done. Qed.

Lemma lift_idle {A} (r : result JournalError A) y : lift r y = (r, y).
Proof using Type. by destruct r. Qed.

Lemma load_idle vals y : fine vals (fs (world y)) ->
  let (r, y') := load_file primary legacy y in idle y y' /\
  (forall doc, r = Ok doc -> reads (AtomicFile.read (fs (world y)) primary) doc) /\
  (forall pid doc, calm pid y -> reads (AtomicFile.read (fs (world y)) primary) doc -> r = Ok doc).
Proof using Hpl.
  intros (Hw & Hl & Hd). apply durable_read, list_elem_of_singleton in Hl. unfold load_file. rewrite mbind_run.
  pose proof (read_idle primary y) as H. destruct (io (read_file primary) y) as [r1 y1] eqn:E1.
  assert (exists f1, r1 = Ok f1) as [f1 ->].
  { unfold io in E1. destruct (read_file primary _). injection E1 as <- _. by eexists. }
  destruct H as (I1 & R1 & C1). rewrite mbind_run.
  destruct f1 as [[c|]|e]; cbn [mret].
  - specialize (R1 _ eq_refl). rewrite R1. unfold load. rewrite bool_decide_true by done. cbn [rbind].
    unfold reads. destruct (from_slice c) as [doc|]; rewrite lift_idle; cbn [rbind].
    + split_and!; [done|congruence|]. intros; congruence.
    + split_and!; [done|congruence|]. intros; congruence.
  - specialize (R1 _ eq_refl). rewrite R1. pose proof (read_idle legacy y1) as H2.
    destruct (io (read_file legacy) y1) as [r2 y2] eqn:E2.
    assert (exists f2, r2 = Ok f2) as [f2 ->].
    { unfold io in E2. destruct (read_file legacy _). injection E2 as <- _. by eexists. }
    destruct H2 as (I2 & R2 & C2). pose proof (idle_trans _ _ _ I1 I2) as I. rewrite lift_idle.
    pose proof I1 as (_ & _ & Efs & _ & Hc1). rewrite Efs, Hl in R2, C2.
    unfold load. rewrite bool_decide_true by done. cbn [rbind]. rewrite bool_decide_false by done. unfold reads.
    destruct f2 as [[c|]|e].
    + specialize (R2 _ eq_refl). rewrite R2. destruct (from_slice c); cbn [rbind default]; split_and!; try done; intros; cbn in *; congruence.
    + specialize (R2 _ eq_refl). rewrite R2. cbn [rbind default]. split_and!; try done; intros; cbn in *; congruence.
    + cbn [rbind]. split_and!; [done|congruence|]. intros pid doc Hc. specialize (C2 pid (Hc1 _ Hc)). congruence.
  - unfold load. rewrite lift_idle. rewrite bool_decide_true by done. cbn [rbind]. split_and!; [done|congruence|].
    intros pid doc Hc. specialize (C1 pid Hc). congruence.
Qed.

(** A save: the points it passes through, and what it leaves. *)
Lemma save_run pid doc vals y : fine vals (fs (world y)) ->
  let (r, y') := save_file pid primary doc y in
  db y' = db y /\ kept y' = kept y /\ db_faults y' = db_faults y /\
  (exists l, points y' = points y ++ map (fun s => (s, kept y)) l /\ Forall (fine (Some (to_vec doc) :: vals)) l) /\
  (match r with
   | Ok _ => fine [Some (to_vec doc)] (fs (world y'))
   | Err _ => fine (Some (to_vec doc) :: vals) (fs (world y'))
   end) /\
  (calm pid y -> r = Ok tt).
Proof using Hpl Htl.
  intros (Hw & Hl & Hd). unfold save_file. rewrite mbind_run. unfold io.
  set (w := {| fs := fs (world y); faults := faults (world y); trace := []; temp_id := temp_id (world y) |}).
  pose proof (triple_and _ _ _ _ _ _ _ (save_triple pid primary vals (to_vec doc))
    (save_frame pid primary (to_vec doc) legacy [lold] Hpl (Htl pid)) w) as H.
  specialize (H (conj (conj Hw Hd) (conj Hw Hl)) (Forall_nil_2 _)).
  pose proof (save_succeeds pid primary (to_vec doc) w) as Hs.
  destruct (save pid primary (to_vec doc) w) as [r w'] eqn:E. destruct H as [Ht [Hr Hf]].
  rewrite lift_idle. cbn [db kept db_faults points world]. split_and!; try done.
  - exists (trace w'). split; [done|]. eapply Forall_impl; [exact Ht|]. cbn. intros s [[? ?] [_ ?]]. done.
  - destruct Hf as [_ Hf]. destruct r as [[]|e]; destruct Hr as [? ?]; done.
  - intros (H1 & _ & H3). cbn [fst] in Hs. rewrite (Hs H1 H3). done.
Qed.

End files.

Lemma transaction_run durable f y :
  let (r, y') := transaction durable f y in
  world y' = world y /\
  ((db y' = db y /\ kept y' = kept y /\ points y' = points y /\ r <> Ok tt /\ (db_faults y = [] -> forall d, f (db y) <> Ok d)) \/
   (f (db y) = Ok (db y') /\ kept y' = (if durable then [db y'] else kept y ++ [db y']) /\
    points y' = points y ++ [(fs (world y), kept y ++ [db y']); (fs (world y), kept y')] /\ (db_faults y = [] -> r = Ok tt))).
Proof.
  unfold transaction. assert (db_faults y = [] -> head (db_faults y) = None) as Hn by (by intros ->).
  destruct (head (db_faults y)) as [[]|]; destruct (f (db y)) as [d|e] eqn:Ef; cbn [commit world db kept points db_faults]; (split; [done|]);
    first [left; split_and!; [done..|by intros ?%Hn] | left; split_and!; done
          | right; split_and!; [done|done|done|intros H; first [discriminate (Hn H) | by destruct durable]]].
Qed.

(** ** One journalled save *)

Section staged.
Context {ENV : Env} (primary legacy : Path) (old lold : option (list Z)).
Context (Hpl : primary <> legacy) (Htl : forall pid id, temporary primary pid id <> legacy).
Context (early : bool) (d0 d1 d2 : Db) (b a : Map) (pend : Pending) (raw : str).

(** What recovery makes of the old document. *)
Definition recovered : Map := apply_rates b (rates a).

(** The journalled save from [d0] through [d1] to [d2]. *)
Record Staged : Prop := {
  st_old : reads lold old b;
  st_a : from_slice (to_vec a) = Some a;
  st_r : from_slice (to_vec recovered) = Some recovered;
  st_raw : of_raw raw = Some pend;
  st_ok : pending_ok primary pend = true;
  st_before : before_hash pend = hash (rates b);
  st_after : after_hash pend = hash (rates a);
  st_rates : pending_rates pend = rates a;
  st_d0 : meta_get d0 JOURNAL = None;
  st_d1 : meta_get d1 JOURNAL = Some raw;
  st_d2 : meta_get d2 JOURNAL = None;
  st_check : forall c, confirmation pend = Some c -> check_rate_confirmation url_decode url_encode d1 c raw = Ok tt;
  st_finish : (match confirmation pend with
               | Some c => finish_rate_confirmation url_decode url_encode d1 c raw
               | None => finish raw d1
               end) = Ok d2
}.
Context (S : Staged).

Notation Fine := (fine primary legacy lold).
Notation Calm := (calm primary).
Notation Idle := (idle primary).
(** The edited document; while success is not reported yet, also the old one
    with the new rates, which is what the journal can restore. *)
Definition new_doc (p : Map) : Prop := p = a \/ (early = true /\ p = recovered).
Definition docs : list (option (list Z)) :=
  if early then [Some (to_vec a); Some (to_vec recovered); old] else [Some (to_vec a)].

Lemma docs_cases o : o ∈ docs -> o = Some (to_vec a) \/ (early = true /\ (o = Some (to_vec recovered) \/ o = old)).
Proof using Type. unfold docs. destruct early; rewrite !elem_of_cons, elem_of_nil; naive_solver. Qed.

(** A file system and a database a cut may leave. *)
Inductive good (s : Fs) : Db -> Prop :=
| good0 : early = true -> Fine [old] s -> good s d0
| good1 : Fine docs s -> good s d1
| good2 p : new_doc p -> Fine [Some (to_vec p)] s -> good s d2.

Definition goods (x : Fs * list Db) : Prop := forall d, d ∈ x.2 -> good x.1 d.

(** The running machine: the database is ahead of what is kept only at the end. *)
Inductive phase (y : Sys) : Prop :=
| phase0 : early = true -> db y = d0 -> kept y = [d0] -> Fine [old] (fs (world y)) -> phase y
| phase1 : db y = d1 -> kept y = [d1] -> Fine docs (fs (world y)) -> phase y
| phase2 p : new_doc p -> db y = d2 -> (forall d, d ∈ kept y -> d = d1 \/ d = d2) ->
    Fine [Some (to_vec p)] (fs (world y)) -> phase y.

Definition Safe (y : Sys) : Prop := phase y /\ Forall goods (points y).

Lemma new_docs p : new_doc p -> [Some (to_vec p)] ⊆ docs.
Proof using Type. clear S Hpl Htl. unfold docs. intros [-> | [-> ->]]; [destruct early|]; set_solver. Qed.

Lemma phase_goods y : phase y -> goods (fs (world y), kept y).
Proof using Type.
  intros [He Hd Hk Hf|Hd Hk Hf|p Hp Hd Hk Hf] d Hin; cbn [fst snd] in *.
  - rewrite Hk in Hin. apply list_elem_of_singleton in Hin as ->. by apply good0.
  - rewrite Hk in Hin. apply list_elem_of_singleton in Hin as ->. by apply good1.
  - destruct (Hk d Hin) as [-> | ->]; [|by eapply good2].
    apply good1. eapply fine_weaken; [|exact Hf]. by apply new_docs.
Qed.

Lemma idle_safe y y' : Idle y y' -> Safe y -> Safe y'.
Proof using Type.
  intros (E1 & E2 & E3 & (n & E4) & _) [Hp Hg]. pose proof (phase_goods y Hp) as Hpg. split.
  - destruct Hp as [He Hd Hk Hf|Hd Hk Hf|p Hp Hd Hk Hf].
    + apply phase0; congruence.
    + apply phase1; congruence.
    + apply (phase2 y' p Hp); [congruence| |congruence]. by rewrite E2.
  - rewrite E4. apply Forall_app. split; [done|]. by apply Forall_replicate.
Qed.

(** The machine started again after a cut. *)
Definition rebooted (s : Fs) (d : Db) (fl : list Fault) (dfl : list DbFault) (id : Z) : Sys :=
  mkSys {| fs := s; faults := fl; trace := []; temp_id := id |} d [d] dfl [(s, [d])].

Lemma reboot_safe x s d fl dfl id : goods x -> d ∈ x.2 -> crash x.1 s -> Safe (rebooted s d fl dfl id).
Proof using Type.
  intros Hg Hd Hc. assert (phase (rebooted s d fl dfl id)) as Hp.
  { destruct (Hg d Hd) as [He Hf|Hf|p Hp Hf]; destruct (fine_crash _ _ _ _ _ _ Hf Hc) as [Hf' Hm].
    - apply list_elem_of_singleton in Hm. rewrite Hm in Hf'. by apply phase0.
    - apply phase1; [done|done|]. eapply fine_weaken; [|exact Hf']. intros o ->%list_elem_of_singleton. exact Hm.
    - apply list_elem_of_singleton in Hm. rewrite Hm in Hf'. apply (phase2 _ p Hp); [done| |done].
      intros d' ->%list_elem_of_singleton. by right. }
  split; [done|]. constructor; [|done]. exact (phase_goods _ Hp).
Qed.

(** Both places before the save, or both after it. *)
Inductive outcome (y : Sys) (p : Map) : Prop :=
| unpublished : early = true -> db y = d0 -> p = b -> Fine [old] (fs (world y)) -> outcome y p
| complete : new_doc p -> db y = d2 -> Fine [Some (to_vec p)] (fs (world y)) -> outcome y p.

Lemma reads_new p : new_doc p -> reads lold (Some (to_vec p)) p.
Proof using S. destruct S. by intros [-> | [_ ->]]. Qed.

Lemma rates_recovered : rates recovered = rates a.
Proof using Type. apply rates_apply, rates_rate_keys. Qed.

(** The document recovery writes. *)
Definition written (current : Map) : Map :=
  if bool_decide (hash (rates current) = hash (rates b)) then apply_rates current (rates a) else current.

Lemma written_new o current : o ∈ docs -> reads lold o current ->
  (hash (rates current) = hash (rates b) \/ hash (rates current) = hash (rates a)) /\
  new_doc (written current) /\ rates (written current) = rates a.
Proof using S.
  intros Ho%docs_cases Hr. pose proof rates_recovered as Er. destruct Ho as [-> | [He [-> | ->]]].
  - pose proof (reads_unique _ _ _ _ Hr (reads_new a (or_introl eq_refl))) as ->.
    split; [by right|]. assert (written a = a) as ->; [|by split; [left|]].
    unfold written. case_bool_decide; [apply apply_rates_self|done].
  - pose proof (reads_unique _ _ _ _ Hr (reads_new recovered (or_intror (conj He eq_refl)))) as ->.
    split; [right; by rewrite Er|]. assert (written recovered = recovered) as ->; [|by split; [right|]].
    unfold written. case_bool_decide; [|done]. rewrite <- Er at 1. apply apply_rates_self.
  - pose proof (reads_unique _ _ _ _ Hr (st_old S)) as ->. split; [by left|]. unfold written.
    rewrite bool_decide_true by done. by split; [right|].
Qed.

Lemma retire_run y p : new_doc p -> db y = d1 -> kept y = [d1] -> Fine [Some (to_vec p)] (fs (world y)) ->
  Forall goods (points y) ->
  let (r, y') := retire_journal (confirmation pend) raw y in
  Safe y' /\ (r = Ok tt -> db y' = d2 /\ Fine [Some (to_vec p)] (fs (world y')) /\ forall d, d ∈ kept y' -> d = d1 \/ d = d2) /\
  (db_faults y = [] -> r = Ok tt).
Proof using S.
  intros Hp Hd Hk Hf Hg. pose proof (st_finish S) as Hfin.
  set (durable := match confirmation pend with Some _ => true | None => false end).
  set (f := match confirmation pend with
            | Some c => fun d => finish_rate_confirmation url_decode url_encode d c raw | None => finish raw end).
  assert (retire_journal (confirmation pend) raw = transaction durable f) as -> by (by unfold durable, f; destruct (confirmation pend)).
  assert (f d1 = Ok d2) as Hf1 by (unfold f; by destruct (confirmation pend)). clearbody f durable. clear Hfin.
  pose proof (transaction_run durable f y) as H. destruct (transaction durable f y) as [r y']. rewrite Hd, Hf1 in H.
  destruct H as (Hw & [(E1 & E2 & E3 & E4 & E5)|(E1 & E2 & E3 & E4)]).
  - assert (Safe y').
    { split; [|by rewrite E3]. apply phase1; [congruence|congruence|]. rewrite Hw.
      eapply fine_weaken; [|exact Hf]. by apply new_docs. }
    split_and!; [done|done|]. intros H0. by destruct (E5 H0 d2).
  - injection E1 as E1. assert (forall d, d ∈ kept y ++ [db y'] -> d = d1 \/ d = d2) as Hin.
    { intros d. rewrite Hk, <- E1, elem_of_app, !list_elem_of_singleton. tauto. }
    assert (forall d, d ∈ kept y' -> d = d1 \/ d = d2) as Hin'.
    { intros d. rewrite E2. destruct durable; [|apply Hin]. intros ->%list_elem_of_singleton. by right. }
    assert (phase y') as Hph by (apply (phase2 y' p Hp); [done|done|by rewrite Hw]).
    split_and!; [|intros _; split_and!; [done|by rewrite Hw|done]|done].
    split; [done|]. rewrite E3. apply Forall_app. split; [done|]. pose proof (phase_goods y' Hph) as Hgs. rewrite Hw in Hgs.
    constructor; [|by constructor]. intros d Hd'. cbn [fst snd] in *. destruct (Hin d Hd') as [-> | ->]; [|by eapply good2].
    apply good1. eapply fine_weaken; [|exact Hf]. by apply new_docs.
Qed.

(** Points a save passes through while the journal is pending. *)
Lemma points_goods l p : new_doc p -> Forall (Fine (Some (to_vec p) :: docs)) l -> Forall goods (map (fun s => (s, [d1])) l).
Proof using Type.
  intros Hp Hl. apply Forall_map. eapply Forall_impl; [exact Hl|]. intros s Hs d. cbn [fst snd].
  intros ->%list_elem_of_singleton. apply good1. eapply fine_weaken; [|exact Hs].
  intros o [-> | Ho]%elem_of_cons; [|done]. apply (new_docs p Hp). by left.
Qed.

Lemma resume_spec pid y current : db y = d1 -> Safe y -> kept y = [d1] -> Fine docs (fs (world y)) ->
  reads lold (AtomicFile.read (fs (world y)) primary) current ->
  let (r, y') := resume pid primary raw current y in
  Safe y' /\ (forall p, r = Ok p -> outcome y' p) /\ (Calm pid y -> exists p, r = Ok p).
Proof using Hpl Htl S.
  intros Hd Hs Hk Hf Hr. pose proof Hf as (_ & _ & Ho%durable_read).
  destruct (written_new _ _ Ho Hr) as (Hh & Hw & Hwr). unfold resume. rewrite mbind_run, (st_raw S). cbn [ok_or lift mret].
  rewrite mbind_run, (st_ok S). cbn [ensure mret]. rewrite mbind_run.
  pose proof (st_check S) as Hchk.
  assert (let (r, y1) := check_journal (confirmation pend) raw y in Idle y y1 /\ (Calm pid y -> r = Ok tt)) as Hq.
  { unfold check_journal. destruct (confirmation pend) as [c|]; [|split; [apply idle_refl|done]].
    pose proof (query_idle primary (fun d => check_rate_confirmation url_decode url_encode d c raw) y) as H.
    destruct (query _ y) as [r y1]. destruct H as (H1 & _ & H3). split; [done|]. intros Hc. apply (H3 pid tt Hc).
    rewrite Hd. by apply Hchk. }
  destruct (check_journal (confirmation pend) raw y) as [r1 y1]. destruct Hq as [Hi Hc1].
  pose proof (idle_safe y y1 Hi Hs) as Hs1. destruct r1 as [[]|e].
  2: { split_and!; [done|done|]. intros H. by specialize (Hc1 H). }
  clear Hc1 Hchk. rewrite (st_rates S), (st_before S), (st_after S), mbind_run.
  assert ((if bool_decide (hash (rates current) = hash (rates b)) then mret (apply_rates current (rates a))
    else do _ ← ensure (bool_decide (hash (rates current) = hash (rates a))) JReconcile; mret current) y1
    = (Ok (written current), y1)) as ->.
  { unfold written. case_bool_decide as Hb; [done|]. destruct Hh as [Hh|Hh]; [done|]. by rewrite mbind_run, bool_decide_true. }
  rewrite mbind_run, Hwr, veq_refl, bool_decide_true by done. cbn [andb ensure mret]. rewrite mbind_run.
  destruct Hi as (E1 & E2 & E3 & (n & E4) & E5). rewrite <- E3 in Hf.
  pose proof (save_run primary legacy lold Hpl Htl pid (written current) docs y1 Hf) as Hsv.
  destruct (save_file pid primary (written current) y1) as [r2 y2].
  destruct Hsv as (F1 & F2 & F3 & (l & F4 & F5) & F6 & F7). rewrite E2, Hk in *.
  assert (Forall goods (points y2)) as Hg2.
  { rewrite F4. apply Forall_app. split; [apply Hs1|]. by eapply points_goods. }
  destruct r2 as [[]|e].
  - rewrite mbind_run. pose proof (retire_run y2 (written current) Hw) as Hrr. rewrite F1, E1, Hd, F2 in Hrr.
    specialize (Hrr eq_refl eq_refl F6 Hg2). destruct (retire_journal (confirmation pend) raw y2) as [r3 y3].
    destruct Hrr as (G1 & G2 & G3). destruct r3 as [[]|e]; cbn [mret].
    + split_and!; [done| |by eexists]. intros p [= <-]. destruct (G2 eq_refl) as (? & ? & _). by apply complete.
    + split_and!; [done|done|]. intros Hc. destruct (E5 pid Hc) as (_ & Hdf & _). rewrite <- F3 in Hdf. by specialize (G3 Hdf).
  - split_and!; [|done|]; [|intros Hc; by specialize (F7 (E5 pid Hc))].
    split; [|done]. apply phase1; [congruence|congruence|]. eapply fine_weaken; [|exact F6].
    intros o [-> | Hoo]%elem_of_cons; [|done]. apply (new_docs _ Hw). by left.
Qed.

(** Recovery keeps the machine safe whatever fails; what it returns is the
    outcome; undisturbed, it returns. *)
Lemma recover_spec pid y : Safe y ->
  let (r, y') := recover pid primary legacy y in
  Safe y' /\ (forall p, r = Ok p -> outcome y' p) /\ (Calm pid y -> exists p, r = Ok p).
Proof using Hpl Htl S.
  intros Hs. unfold recover. rewrite mbind_run.
  pose proof (query_idle primary (fun d => Ok (meta_get d JOURNAL)) y) as Hq.
  destruct (query (fun d => Ok (meta_get d JOURNAL)) y) as [r1 y1]. destruct Hq as (Hi & Hr1 & Hc1).
  pose proof (idle_safe y y1 Hi Hs) as Hs1. destruct r1 as [raw1|e].
  2: { split_and!; [done|done|]. intros H. by specialize (Hc1 pid _ H eq_refl). }
  assert (exists vals, Fine vals (fs (world y1))) as [vals Hf] by (destruct Hs1 as [[] _]; by eexists).
  rewrite mbind_run. pose proof (load_idle primary legacy lold Hpl vals y1 Hf) as Hl.
  destruct (load_file primary legacy y1) as [r2 y2]. destruct Hl as (Hi2 & Hr2 & Hc2).
  pose proof (idle_safe y1 y2 Hi2 Hs1) as Hs2. specialize (Hr1 _ eq_refl). injection Hr1 as Hraw.
  pose proof Hi as (E1 & E2 & E3 & _ & E5). pose proof Hi2 as (F1 & F2 & F3 & _ & F5). rewrite <- E1 in Hraw. rewrite <- F1 in Hraw.
  assert (exists doc, reads lold (AtomicFile.read (fs (world y1)) primary) doc /\
    (meta_get (db y2) JOURNAL = None -> outcome y2 doc)) as (doc & Hdoc & Hout).
  { destruct Hs2 as [[He Hd Hk Hfin|Hd Hk Hfin|p Hp Hd Hk Hfin] _]; rewrite <- F3; pose proof Hfin as (_ & _ & Hm%durable_read).
    - apply list_elem_of_singleton in Hm. rewrite Hm. exists b. split; [apply (st_old S)|]. intros _. by apply unpublished.
    - rewrite Hd, (st_d1 S). destruct (docs_cases _ Hm) as [-> | [He [-> | ->]]].
      + exists a. split; [by apply reads_new; left|done].
      + exists recovered. split; [by apply reads_new; right|done].
      + exists b. split; [apply (st_old S)|done].
    - apply list_elem_of_singleton in Hm. rewrite Hm. exists p. split; [by apply reads_new|]. intros _. by apply complete. }
  destruct r2 as [current|e].
  2: { split_and!; [done|done|]. intros H. by specialize (Hc2 pid doc (E5 pid H) Hdoc). }
  specialize (Hr2 _ eq_refl). pose proof (reads_unique _ _ _ _ Hr2 Hdoc) as ->. destruct raw1 as [raw1|].
  - pose proof Hs2 as [[He Hd Hk Hfin|Hd Hk Hfin|p Hp Hd Hk Hfin] _]; rewrite Hd in Hraw.
    + by rewrite (st_d0 S) in Hraw.
    + rewrite (st_d1 S) in Hraw. assert (raw1 = raw) as -> by congruence. rewrite <- F3 in Hr2.
      pose proof (resume_spec pid y2 doc Hd Hs2 Hk Hfin Hr2) as HR. destruct (resume pid primary raw doc y2) as [r y'].
      destruct HR as (G1 & G2 & G3). split_and!; [done|done|]. intros Hc. apply G3, F5, E5, Hc.
    + by rewrite (st_d2 S) in Hraw.
  - cbn [mret]. split_and!; [done| |by eexists]. intros p [= <-]. by apply Hout.
Qed.

(** The journalled save itself. *)
Lemma staged_run pid y stage : early = true -> stage d0 = Ok d1 -> db y = d0 -> kept y = [d0] ->
  Fine [old] (fs (world y)) -> Forall goods (points y) ->
  let (r, y') := (do _ ← transaction true stage; do _ ← save_file pid primary a; retire_journal (confirmation pend) raw) y in
  Safe y' /\ (r = Ok tt -> db y' = d2 /\ Fine [Some (to_vec a)] (fs (world y')) /\ forall d, d ∈ kept y' -> d = d1 \/ d = d2).
Proof using Hpl Htl S.
  intros He Hst Hd Hk Hf Hg. rewrite mbind_run. pose proof (transaction_run true stage y) as H.
  destruct (transaction true stage y) as [r1 y1]. rewrite Hd, Hst in H.
  destruct H as (Hw & [(E1 & E2 & E3 & E4 & _)|(E1 & E2 & E3 & _)]).
  { destruct r1 as [[]|e]; [done|]. split; [|done]. split; [|by rewrite E3]. apply phase0; try congruence. }
  injection E1 as E1. rewrite <- E1 in E2, E3. rewrite Hk in E3.
  assert (Fine docs (fs (world y1))) as Hf1. { rewrite Hw. eapply fine_weaken; [|exact Hf]. unfold docs. rewrite He. intros o ->%list_elem_of_singleton. right. right. by left. }
  assert (Safe y1) as Hs1.
  { split; [by apply phase1|]. rewrite E3. apply Forall_app. split; [done|]. rewrite <- Hw. rewrite E2.
    constructor; [|constructor; [|done]]; intros d; cbn [fst snd app].
    - intros [-> | ->%list_elem_of_singleton]%elem_of_cons; [|by apply good1]. apply good0; [done|by rewrite Hw].
    - intros ->%list_elem_of_singleton. by apply good1. }
  destruct r1 as [[]|e]; [|done]. rewrite mbind_run.
  pose proof (save_run primary legacy lold Hpl Htl pid a docs y1 Hf1) as Hsv.
  destruct (save_file pid primary a y1) as [r2 y2]. destruct Hsv as (F1 & F2 & F3 & (l & F4 & F5) & F6 & _). rewrite E2 in F2, F4.
  assert (Forall goods (points y2)) as Hg2.
  { rewrite F4. apply Forall_app. split; [apply Hs1|]. eapply points_goods; [by left|done]. }
  destruct r2 as [[]|e].
  - pose proof (retire_run y2 a (or_introl eq_refl)) as Hrr. rewrite F1, <- E1, F2 in Hrr.
    specialize (Hrr eq_refl eq_refl F6 Hg2). destruct (retire_journal (confirmation pend) raw y2) as [r3 y3]. tauto.
  - split; [|done]. split; [|done]. apply phase1; [congruence|done|]. eapply fine_weaken; [|exact F6].
    intros o [-> | Hoo]%elem_of_cons; [|done]. apply (new_docs a (or_introl eq_refl)). by left.
Qed.

End staged.

(** ** Runs: recoveries with any failures, and power cuts *)

Section runs.
Context {ENV : Env} (primary legacy : Path).

Definition rescript (fl : list Fault) (dfl : list DbFault) (y : Sys) : Sys :=
  mkSys {| fs := fs (world y); faults := fl; trace := []; temp_id := temp_id (world y) |} (db y) (kept y) dfl (points y).

Inductive reach (y0 : Sys) : Sys -> Prop :=
| reach_start : reach y0 y0
| reach_recover pid fl dfl y : reach y0 y -> reach y0 (snd (recover pid primary legacy (rescript fl dfl y)))
| reach_cut y x s d fl dfl id : reach y0 y -> x ∈ points y -> crash x.1 s -> d ∈ x.2 -> reach y0 (rebooted s d fl dfl id).

(** Once a save has reported success, a cut can only hit what it left. *)
Definition reported {A} (r : result JournalError A) (y : Sys) : Sys :=
  match r with
  | Ok _ => mkSys (world y) (db y) (kept y) (db_faults y) [(fs (world y), kept y)]
  | Err _ => y
  end.

End runs.

Lemma reach_ind_safe {ENV : Env} primary legacy (P : Sys -> Prop) (Q : Fs * list Db -> Prop) y0 y :
  (forall z, P z -> Forall Q (points z)) ->
  (forall x s d fl dfl id, Q x -> d ∈ x.2 -> crash x.1 s -> P (rebooted s d fl dfl id)) ->
  (forall pid fl dfl z, P z -> P (snd (recover pid primary legacy (rescript fl dfl z)))) ->
  P y0 -> reach primary legacy y0 y -> P y.
Proof.
  intros H1 H2 H3 H0. induction 1 as [|pid fl dfl y _ IH|y x s d fl dfl id _ IH Hx Hc Hd]; [done|by apply H3|].
  eapply H2; [|done|done]. by eapply Forall_forall in Hx; [|apply H1, IH].
Qed.

(** ** No journal pending *)

Section plain.
Context {ENV : Env} (primary legacy : Path) (lold : option (list Z)) (Hpl : primary <> legacy).

Lemma recover_none pid y vals : fine primary legacy lold vals (fs (world y)) -> meta_get (db y) JOURNAL = None ->
  let (r, y') := recover pid primary legacy y in idle primary y y' /\
  (forall p, r = Ok p -> reads lold (AtomicFile.read (fs (world y)) primary) p) /\
  (forall p, calm primary pid y -> reads lold (AtomicFile.read (fs (world y)) primary) p -> r = Ok p).
Proof using Hpl.
  intros Hf Hj. unfold recover. rewrite mbind_run.
  pose proof (query_idle primary (fun d => Ok (meta_get d JOURNAL)) y) as Hq.
  destruct (query (fun d => Ok (meta_get d JOURNAL)) y) as [r1 y1]. destruct Hq as (Hi & Hr1 & Hc1). rewrite Hj in *.
  destruct r1 as [raw1|e]; [|split_and!; [done|done|]; intros p Hc; by specialize (Hc1 pid _ Hc eq_refl)].
  specialize (Hr1 _ eq_refl). injection Hr1 as <-. pose proof Hi as (E1 & E2 & E3 & _ & E5). rewrite <- E3 in Hf.
  rewrite mbind_run. pose proof (load_idle primary legacy lold Hpl vals y1 Hf) as Hl. rewrite E3 in Hl.
  destruct (load_file primary legacy y1) as [r2 y2]. destruct Hl as (Hi2 & Hr2 & Hc2). pose proof (idle_trans _ _ _ _ Hi Hi2).
  destruct r2 as [current|e]; cbn [mret]; (split_and!; [done|done|]); intros p Hc Hp; by eapply Hc2, Hp; apply E5.
Qed.

Context (d0 : Db) (Hj : meta_get d0 JOURNAL = None) (vals : list (option (list Z))).

Definition Plain (y : Sys) : Prop :=
  db y = d0 /\ kept y = [d0] /\ fine primary legacy lold vals (fs (world y)) /\
  Forall (fun x => fine primary legacy lold vals x.1 /\ forall d, d ∈ x.2 -> d = d0) (points y).

Lemma idle_plain y y' : idle primary y y' -> Plain y -> Plain y'.
Proof using Type.
  intros (E1 & E2 & E3 & (n & E4) & _) (H1 & H2 & H3 & H4). split_and!; try congruence. rewrite E4. apply Forall_app.
  split; [done|]. apply Forall_replicate. cbn [fst snd]. rewrite H2. split; [done|]. by intros d ->%list_elem_of_singleton.
Qed.

Lemma plain_reach y0 y : Plain y0 -> reach primary legacy y0 y -> Plain y.
Proof using Hj Hpl.
  apply (reach_ind_safe primary legacy Plain (fun x => fine primary legacy lold vals x.1 /\ forall d, d ∈ x.2 -> d = d0)).
  - intros z Hz. apply Hz.
  - intros x s d fl dfl id [Hf Hd] Hin Hc. destruct (fine_crash _ _ _ _ _ _ Hf Hc) as [Hf' Hm].
    assert (fine primary legacy lold vals s) as Hfs by (eapply fine_weaken; [|exact Hf']; by intros o ->%list_elem_of_singleton).
    rewrite (Hd d Hin). split_and!; [done|done|done|]. constructor; [|done]. split; [done|]. by intros ? ->%list_elem_of_singleton.
  - intros pid fl dfl z Hz. pose proof (recover_none pid (rescript fl dfl z) vals) as H.
    destruct Hz as (H1 & H2 & H3 & H4). specialize (H H3). cbn [rescript db] in H. rewrite H1 in H. specialize (H Hj).
    destruct (recover pid primary legacy (rescript fl dfl z)) as [r z']. destruct H as [Hi _].
    eapply idle_plain; [exact Hi|]. done.
Qed.

(** Undisturbed, recovery returns one of the documents. *)
Lemma plain_recovers pid y0 y : (forall o, o ∈ vals -> exists p, reads lold o p) ->
  Plain y0 -> reach primary legacy y0 y -> calm primary pid y ->
  let (r, y') := recover pid primary legacy y in
  exists p o, r = Ok p /\ db y' = d0 /\ o ∈ vals /\ reads lold o p.
Proof using Hj Hpl.
  intros Hv H0 Hr Hc. destruct (plain_reach y0 y H0 Hr) as (H1 & H2 & H3 & H4).
  pose proof (recover_none pid y vals H3) as H. rewrite H1 in H. specialize (H Hj).
  destruct (recover pid primary legacy y) as [r y']. destruct H as (Hi & _ & Hok). destruct H3 as (_ & _ & Hm%durable_read).
  destruct (Hv _ Hm) as [p Hp]. exists p, (AtomicFile.read (fs (world y)) primary). split_and!; [auto| |done|done].
  destruct Hi as [-> _]. done.
Qed.

End plain.

Lemma staged_recovers {ENV : Env} primary legacy old lold early d0 d1 d2 b a pend raw pid y0 y :
  primary <> legacy -> (forall pid id, temporary primary pid id <> legacy) ->
  Staged primary old lold d0 d1 d2 b a pend raw ->
  Safe primary legacy old lold early d0 d1 d2 b a y0 -> reach primary legacy y0 y -> calm primary pid y ->
  let (r, y') := recover pid primary legacy y in
  exists p, r = Ok p /\ outcome primary legacy old lold early d0 d2 b a y' p.
Proof.
  intros Hpl Htl S H0 Hr Hc.
  assert (Safe primary legacy old lold early d0 d1 d2 b a y) as Hs.
  { eapply (reach_ind_safe primary legacy _ (goods primary legacy old lold early d0 d1 d2 b a)); [| | |exact H0|exact Hr].
    - intros z Hz. apply Hz.
    - intros x s d fl dfl id Hg Hd Hcr. by eapply reboot_safe.
    - intros pid' fl dfl z Hz. pose proof (recover_spec primary legacy old lold Hpl Htl early d0 d1 d2 b a pend raw S pid' (rescript fl dfl z)) as H.
      destruct (recover pid' primary legacy (rescript fl dfl z)) as [r z']. apply H. destruct Hz as [Hp Hg]. split; [|done].
      destruct Hp as [? ? ? ?|? ? ?|p ? ? ? ?]; [by apply phase0|by apply phase1|by eapply phase2]. }
  pose proof (recover_spec primary legacy old lold Hpl Htl early d0 d1 d2 b a pend raw S pid y Hs) as H.
  destruct (recover pid primary legacy y) as [r y']. destruct H as (_ & H2 & H3). destruct (H3 Hc) as [p ->].
  exists p. split; [done|]. by apply H2.
Qed.

(** After success the save can no longer be undone. *)
Lemma reported_safe {ENV : Env} primary legacy old lold early d0 d1 d2 b a y : early = false ->
  phase primary legacy old lold false d0 d1 d2 b a y ->
  Safe primary legacy old lold early d0 d1 d2 b a (mkSys (world y) (db y) (kept y) (db_faults y) [(fs (world y), kept y)]).
Proof.
  intros -> Hp. split.
  - destruct Hp as [? ? ? ?|? ? ?|p ? ? ? ?]; [by apply phase0|by apply phase1|by eapply phase2].
  - constructor; [|done]. by apply phase_goods.
Qed.

(** ** The writers *)

Lemma prefs_files_differ dir : prefs_file dir <> legacy_prefs_file dir.
Proof. intros H. apply (f_equal (fun p : Path => length p.2)) in H. vm_compute in H. done. Qed.

Lemma temporary_not_legacy dir pid id : temporary (prefs_file dir) pid id <> legacy_prefs_file dir.
Proof. intros H. apply (f_equal (fun p : Path => head p.2)) in H. vm_compute in H. done. Qed.

Section writers.
Context {ENV : Env} (dir : str).
Notation primary := (prefs_file dir).
Notation legacy := (legacy_prefs_file dir).

(** At rest: no journal, everything on disk, and the files read as [b]. *)
Record quiet (old lold : option (list Z)) (b : Map) (y : Sys) : Prop := {
  q_journal : meta_get (db y) JOURNAL = None;
  q_kept : kept y = [db y];
  q_points : Forall (fun x => x = (fs (world y), kept y)) (points y);
  q_files : fine primary legacy lold [old] (fs (world y));
  q_reads : reads lold old b
}.

(** The journal of a local edit. *)
Definition edit_pending (b a : Map) : Pending :=
  {| version := 1; path_text := to_str primary; before_hash := hash (rates b); after_hash := hash (rates a);
     pending_rates := rates a; confirmation := None |}.

(** Documents and journals read back as they were written. *)
Definition reads_back (pend : Pending) (b a : Map) : Prop :=
  from_slice (to_vec a) = Some a /\ from_slice (to_vec (recovered b a)) = Some (recovered b a) /\
  of_raw (to_raw pend) = Some pend.

Lemma quiet_plain old lold b y : quiet old lold b y -> Plain primary legacy lold (db y) [old] y.
Proof.
  intros [H1 H2 H3 H4 H5]. split_and!; [done|done|done|]. eapply Forall_impl; [exact H3|].
  intros ? ->. split; [done|]. rewrite H2. by intros d ->%list_elem_of_singleton.
Qed.

Lemma same_plain old lold b y y1 : quiet old lold b y -> world y1 = world y -> db y1 = db y -> kept y1 = kept y ->
  points y1 = points y -> Plain primary legacy lold (db y) [old] y1.
Proof. intros (H1 & H2 & H3 & H4)%quiet_plain E0 E1 E2 E3. unfold Plain. by rewrite E0, E1, E2, E3. Qed.

Lemma stage_journal now d v1 v2 force tag raw d1 : stage_rate_preferences_with_tag now d v1 v2 force tag raw = Ok d1 ->
  meta_get d1 JOURNAL = Some raw.
Proof.
  unfold stage_rate_preferences_with_tag. intros H. repeat apply rbind_Ok in H as (? & _ & H).
  injection H as <-. unfold meta_get, meta_set. cbn. by rewrite lookup_insert_eq.
Qed.

Lemma publish_staged now b a force tag d0 d1 old lold : meta_get d0 JOURNAL = None -> reads lold old b ->
  reads_back (edit_pending b a) b a ->
  stage_rate_preferences_with_tag now d0 (Object (rates b)) (Object (rates a)) force tag (to_raw (edit_pending b a)) = Ok d1 ->
  Staged primary old lold d0 d1 (meta_del d1 JOURNAL) b a (edit_pending b a) (to_raw (edit_pending b a)).
Proof.
  intros Hj Hb (Ha & Hr & Hraw) Hst. pose proof (stage_journal _ _ _ _ _ _ _ _ Hst) as Hd1. split; try done.
  - unfold pending_ok. cbn [version confirmation path_text pending_rates edit_pending].
    rewrite (bool_decide_true (@None Confirmation = None)), (bool_decide_true (to_str primary = to_str primary)) by done.
    by rewrite rates_rate_keys.
  - unfold meta_get, meta_del. cbn. by rewrite lookup_delete_eq.
  - cbn [confirmation edit_pending]. unfold finish. by rewrite bool_decide_true.
Qed.

(** A save without journal. *)
Lemma save_plain pid a old lold b y : quiet old lold b y -> from_slice (to_vec a) = Some a ->
  let (r, y1) := save_file pid primary a y in
  match r with
  | Ok _ => Plain primary legacy lold (db y) [Some (to_vec a)] (reported r y1)
  | Err _ => Plain primary legacy lold (db y) [Some (to_vec a); old] y1
  end.
Proof.
  intros [H1 H2 H3 H4 H5] Ha.
  pose proof (save_run primary legacy lold (prefs_files_differ dir) (temporary_not_legacy dir) pid a [old] y H4) as Hs.
  destruct (save_file pid primary a y) as [r y1]. destruct Hs as (E1 & E2 & _ & (l & E4 & E5) & E6 & _). rewrite H2 in *.
  assert (Forall (fun x => fine primary legacy lold [Some (to_vec a); old] x.1 /\ forall d, d ∈ x.2 -> d = db y)
    (points y ++ map (fun s => (s, [db y])) l)) as Hp.
  { apply Forall_app. split.
    - eapply Forall_impl; [exact H3|]. intros ? ->. split; [|by intros d ->%list_elem_of_singleton].
      eapply fine_weaken; [|exact H4]. intros o ->%list_elem_of_singleton. right. by left.
    - apply Forall_map. eapply Forall_impl; [exact E5|]. intros s Hs. split; [done|]. by intros d ->%list_elem_of_singleton. }
  destruct r as [[]|e]; cbn [reported]; (split_and!; [done|done|done|]).
  - cbn [points]. constructor; [|done]. split; [done|]. rewrite E2. by intros d ->%list_elem_of_singleton.
  - by rewrite E4.
Qed.

Lemma idle_quiet old lold b y y' : idle primary y y' -> quiet old lold b y -> quiet old lold b y'.
Proof.
  intros (E1 & E2 & E3 & (n & E4) & _) [H1 H2 H3 H4 H5]. split; try congruence. rewrite E2, E3, E4. apply Forall_app.
  split; [done|]. by apply Forall_replicate.
Qed.

(** The writer has not reported success. *)
Definition is_err {A} (r : result JournalError A) : bool := match r with Ok _ => false | Err _ => true end.

(** A local edit took effect in both places: the queue holds it and the file is
    the edited document. The journal carries the rates only, so an edit that was
    [cut] short, after the journal and before the file, is completed as the old
    document with the new rates. *)
Definition edit_complete (now_ms : Z) (force : bool) (tag : option str) (cut : bool) (b a : Map) (d0 : Db)
    (y : Sys) (p : Map) : Prop :=
  exists d1, stage_rate_preferences_with_tag now_ms d0 (Object (rates b)) (Object (rates a)) force tag
               (to_raw (edit_pending b a)) = Ok d1 /\
    db y = meta_del d1 JOURNAL /\ (p = a \/ (cut = true /\ p = recovered b a)) /\ durable (fs (world y)) primary [Some (to_vec p)].

(** What an undisturbed recovery finds after a writer that returned [r]: before
    the edit only if the writer failed. *)
Definition settles {A} (r : result JournalError A) (b : Map) (d0 : Db) (Done : Sys -> Map -> Prop) (y : Sys) : Prop :=
  forall pid, calm primary pid y ->
  let (r', y') := recover pid primary legacy y in
  exists p, r' = Ok p /\ (Done y' p \/ (r' = Ok b /\ db y' = d0 /\ exists e, r = Err e)).

Lemma plain_settles {A} (r : result JournalError A) old lold b d0 Done y0 y vals : meta_get d0 JOURNAL = None ->
  reads lold old b ->
  (forall o, o ∈ vals -> (o = old /\ exists e, r = Err e) \/ exists p, reads lold o p /\ forall y', db y' = d0 -> Done y' p) ->
  Plain primary legacy lold d0 vals y0 -> reach primary legacy y0 y -> settles r b d0 Done y.
Proof.
  intros Hj Hb Hv H0 Hr pid Hc.
  pose proof (plain_recovers primary legacy lold (prefs_files_differ dir) d0 Hj vals pid y0 y) as H.
  destruct (recover pid primary legacy y) as [r' y']. destruct H as (p & o & -> & Hd & Ho & Hp); try done.
  { intros o Ho. destruct (Hv o Ho) as [[-> _]|(p & Hp & _)]; by eexists. }
  exists p. split; [done|]. destruct (Hv o Ho) as [[-> He]|(q & Hq & HD)].
  - right. by rewrite (reads_unique _ _ _ _ Hp Hb).
  - left. rewrite (reads_unique _ _ _ _ Hp Hq). by apply HD.
Qed.

Lemma staged_settles {A} (r : result JournalError A) old lold b a d0 d1 d2 pend raw Done y0 y :
  Staged primary old lold d0 d1 d2 b a pend raw ->
  (forall y' p, new_doc (is_err r) b a p -> db y' = d2 -> fine primary legacy lold [Some (to_vec p)] (fs (world y')) -> Done y' p) ->
  Safe primary legacy old lold (is_err r) d0 d1 d2 b a y0 ->
  reach primary legacy y0 y -> settles r b d0 Done y.
Proof.
  intros HS HD H0 Hr pid Hc.
  pose proof (staged_recovers primary legacy old lold _ d0 d1 d2 b a pend raw pid y0 y (prefs_files_differ dir)
    (temporary_not_legacy dir) HS H0 Hr Hc) as H.
  destruct (recover pid primary legacy y) as [r' y']. destruct H as (p & -> & Ho). exists p. split; [done|].
  destruct Ho as [He Hd -> _|Hp Hd Hf]; [|left; by apply HD]. right. destruct r; [done|]. by split_and!; [..|eexists].
Qed.

Lemma publish_settles pid now force tag old lold b a y0 :
  quiet old lold b y0 -> reads_back (edit_pending b a) b a ->
  let (r, y1) := publish_with_tag pid now primary b a force tag y0 in
  forall y, reach primary legacy (reported r y1) y -> settles r b (db y0) (edit_complete now force tag (is_err r) b a (db y0)) y.
Proof.
  intros Hq Hrb. pose proof Hq as [H1 H2 H3 H4 H5]. unfold publish_with_tag. fold (edit_pending b a).
  set (stage := fun d => stage_rate_preferences_with_tag now d (Object (rates b)) (Object (rates a)) force tag (to_raw (edit_pending b a))).
  destruct (stage (db y0)) as [d1|e] eqn:Est.
  - pose proof (publish_staged now b a force tag (db y0) d1 old lold H1 H5 Hrb Est) as HS.
    pose proof (staged_run primary legacy old lold (prefs_files_differ dir) (temporary_not_legacy dir) true (db y0) d1
      (meta_del d1 JOURNAL) b a (edit_pending b a) _ HS pid y0 stage eq_refl Est eq_refl H2 H4) as Hrun.
    change (retire_journal (confirmation (edit_pending b a)) (to_raw (edit_pending b a)))
      with (transaction false (finish (to_raw (edit_pending b a)))) in Hrun.
    destruct ((do _ ← transaction true stage; do _ ← save_file pid primary a; transaction false (finish (to_raw (edit_pending b a)))) y0)
      as [r y1]. destruct Hrun as [Hs Hok].
    { eapply Forall_impl; [exact H3|]. intros ? -> d. cbn [fst snd]. rewrite H2. intros ->%list_elem_of_singleton. by apply good0. }
    intros y Hr. eapply (staged_settles r old lold b a (db y0) d1); [exact HS| | |exact Hr].
    { intros y' p Hp Hd (_ & _ & Hdur). exists d1. done. }
    destruct r as [[]|e]; [|done]. destruct (Hok eq_refl) as (Hd & Hf & Hk). apply reported_safe; [done|].
    eapply (phase2 _ _ _ _ _ _ _ _ _ _ y1 a); [by left|done|done|done].
  - rewrite mbind_run. pose proof (transaction_run true stage y0) as Ht. destruct (transaction true stage y0) as [r1 y1].
    destruct Ht as (Hw & [(E1 & E2 & E3 & E4 & _)|(E1 & _)]); [|congruence]. destruct r1 as [[]|e1]; [done|]. cbn [reported].
    intros y Hr. pose proof (same_plain _ _ _ _ _ Hq Hw E1 E2 E3) as Hp.
    eapply plain_settles; [exact H1|exact H5| |exact Hp|exact Hr].
    intros o ->%list_elem_of_singleton. left. split; [done|by eexists].
Qed.

(** Nothing was written. *)
Lemma idle_settles {A} (r : result JournalError A) old lold b y0 y1 Done e : quiet old lold b y0 -> idle primary y0 y1 ->
  r = Err e -> forall y, reach primary legacy (reported r y1) y -> settles r b (db y0) Done y.
Proof.
  intros Hq Hi -> y Hr. pose proof (idle_plain _ _ _ _ _ _ _ Hi (quiet_plain _ _ _ _ Hq)) as Hp.
  destruct Hq as [H1 H2 H3 H4 H5]. eapply plain_settles; [exact H1|exact H5| |exact Hp|exact Hr].
  intros o ->%list_elem_of_singleton. left. split; [done|by eexists].
Qed.

(** What an edit does: published with its queue entry when it changes rates,
    otherwise the file alone. *)
Definition edit_done (now_ms : Z) (force cut : bool) (b a : Map) (d0 : Db) (y : Sys) (p : Map) : Prop :=
  if force || negb (veq (Object (rates b)) (Object (rates a)))
  then edit_complete now_ms force None cut b a d0 y p
  else p = a /\ db y = d0.

Lemma settles_ext {A B} (r : result JournalError A) (r2 : result JournalError B) b d0 Done y :
  (forall e, r = Err e -> exists e2, r2 = Err e2) -> settles r b d0 Done y -> settles r2 b d0 Done y.
Proof.
  intros He H pid Hc. specialize (H pid Hc). destruct (recover pid primary legacy y) as [r' y'].
  destruct H as (p & H1 & H2). exists p. split; [done|]. destruct H2 as [H2|(H2 & H3 & e & ->)]; [by left|right].
  split_and!; [done|done|]. by eapply He.
Qed.

Lemma edit_writes pid now force old lold b a y0 :
  quiet old lold b y0 -> reads_back (edit_pending b a) b a ->
  let (r, y1) := (if force || negb (veq (Object (rates b)) (Object (rates a)))
                  then publish pid now primary b a force else save_file pid primary a) y0 in
  forall y, reach primary legacy (reported r y1) y -> settles r b (db y0) (edit_done now force (is_err r) b a (db y0)) y.
Proof.
  intros Hq Hrb. unfold edit_done. destruct (force || _); [exact (publish_settles pid now force None old lold b a y0 Hq Hrb)|].
  pose proof Hrb as (Ha & _ & _). pose proof (save_plain pid a old lold b y0 Hq Ha) as H.
  destruct (save_file pid primary a y0) as [r y1]. destruct Hq as [H1 H2 H3 H4 H5].
  assert (reads lold (Some (to_vec a)) a) as Hra by done.
  intros y Hr. destruct r as [[]|e]; (eapply plain_settles; [exact H1|exact H5| |exact H|exact Hr]); intros o.
  - intros ->%list_elem_of_singleton. right. exists a. by split.
  - rewrite !elem_of_cons, elem_of_nil. intros [-> | [-> | []]]; [right; exists a; by split|].
    left. split; [done|by eexists].
Qed.

(** C13: a preference edit is all or nothing in its rates, across the preferences
    file and the queue of edits for the cloud. Whatever file operation or
    transaction fails during the edit, however often recovery then fails, and
    whenever the power is cut, an undisturbed recovery succeeds, and finds one of
    three: both places as before the edit; the edited document in the file and
    the edit queued once with its journal retired; or, with the edit queued
    likewise, the old document with the new rates, its other fields as before
    (the journal carries the rates only). If the edit reported success it finds
    the edited document, and the file can no longer change back. An edit that
    changes no rate does the same with the file alone, old or edited. *)
Theorem edit_prefs_atomic {A} pid now force (f : Editor A) (x : A) old lold b a y0 :
  quiet old lold b y0 -> f b = Ok (x, Some a) -> reads_back (edit_pending b a) b a ->
  let (r, y1) := edit_prefs_at pid now primary legacy force f y0 in
  forall y, reach primary legacy (reported r y1) y -> settles r b (db y0) (edit_done now force (is_err r) b a (db y0)) y.
Proof.
  intros Hq Hf Hrb. unfold edit_prefs_at. rewrite mbind_run. pose proof Hq as [H1 H2 H3 H4 H5].
  pose proof (recover_none primary legacy lold (prefs_files_differ dir) pid y0 [old] H4 H1) as Hr.
  destruct (recover pid primary legacy y0) as [r0 y1]. destruct Hr as (Hi & Hr & _).
  destruct r0 as [b'|e]; [|by eapply idle_settles].
  specialize (Hr _ eq_refl). pose proof H4 as (_ & _ & Hm%durable_read). apply list_elem_of_singleton in Hm. rewrite Hm in Hr.
  rewrite (reads_unique _ _ _ _ Hr H5). rewrite mbind_run. unfold edited. rewrite Hf. cbn [lift mret]. rewrite mbind_run.
  pose proof (edit_writes pid now force old lold b a y1 (idle_quiet _ _ _ _ _ Hi Hq) Hrb) as Hw. destruct Hi as [Hd _]. rewrite Hd in Hw.
  
  destruct ((if force || negb (veq (Object (rates b)) (Object (rates a)))
    then publish pid now primary b a force else save_file pid primary a) y1) as [r y2]. destruct r as [[]|e]; cbn [mret];
    intros y Hy; (eapply settles_ext; [|by apply Hw]); intros e' [= ->]; by eexists.
Qed.

(** *** Confirmation *)

Lemma receipt_not_journal suffix : strip_prefix (lit "cloud_rate_publication_v3:") JOURNAL <> Some suffix.
Proof. intros H. vm_compute in H. done. Qed.

(** Staging the journal does not disturb what a confirmation checks. *)
Lemma validate_staged d c raw : validate url_decode url_encode (meta_set d JOURNAL raw) c = validate url_decode url_encode d c.
Proof.
  unfold validate. change (snapshot (meta_set d JOURNAL raw)) with (snapshot d).
  destruct (receipt c) as [[key raw']|]; [|done]. destruct (strip_prefix _ key) as [suffix|] eqn:E; [|done].
  assert (key <> JOURNAL) as Hne by (intros ->; by apply receipt_not_journal in E).
  unfold meta_get, meta_set, with_meta. cbn [meta]. by rewrite lookup_insert_ne.
Qed.

Definition confirm_pending (b desired : Map) (c : Confirmation) : Pending :=
  {| version := 2; path_text := to_str primary; before_hash := hash (rates b); after_hash := hash desired;
     pending_rates := desired; confirmation := Some c |}.

Lemma confirm_staged old lold b desired c d0 d1 : meta_get d0 JOURNAL = None -> reads lold old b ->
  rate_keys_only desired = true -> reads_back (confirm_pending b desired c) b (apply_rates b desired) ->
  let raw := to_raw (confirm_pending b desired c) in
  stage_rate_confirmation url_decode url_encode d0 c raw = Ok d1 ->
  exists d2, finish_rate_confirmation url_decode url_encode d1 c raw = Ok d2 /\
    Staged primary old lold d0 d1 d2 b (apply_rates b desired) (confirm_pending b desired c) raw.
Proof.
  intros Hj Hb Hk (Ha & Hr & Hraw) raw Hst. unfold stage_rate_confirmation in Hst. apply rbind_Ok in Hst as ([] & Hv & Hst).
  rewrite bool_decide_true in Hst by done. assert (d1 = meta_set d0 JOURNAL raw) as -> by congruence. clear Hst.
  assert (meta_get (meta_set d0 JOURNAL raw) JOURNAL = Some raw) as Hd1 by (unfold meta_get, meta_set; cbn; by rewrite lookup_insert_eq).
  pose proof (validate_staged d0 c raw) as Hvs. rewrite Hv in Hvs.
  assert (exists d2, finish_rate_confirmation url_decode url_encode (meta_set d0 JOURNAL raw) c raw = Ok d2 /\ meta_get d2 JOURNAL = None)
    as (d2 & Hfin & Hd2).
  { unfold finish_rate_confirmation. rewrite Hvs. cbn [rbind]. rewrite bool_decide_true by done. eexists. split; [done|].
    unfold meta_get, meta_del. cbn. by rewrite lookup_delete_eq. }
  exists d2. split; [done|]. split; try done.
  - unfold pending_ok. cbn [version confirmation path_text pending_rates confirm_pending].
    rewrite (bool_decide_true (is_Some (Some c))), (bool_decide_true (to_str primary = to_str primary)) by (done || by eexists).
    by rewrite Hk.
  - cbn [after_hash confirm_pending]. by rewrite rates_apply.
  - cbn [pending_rates confirm_pending]. by rewrite rates_apply.
  - intros c' [= <-]. unfold check_rate_confirmation. rewrite Hvs. cbn [rbind]. by rewrite bool_decide_true.
Qed.

(** The confirmation took effect in both places. *)
Definition confirm_done (cloud : Value) (through : Z) (receipt : option (str * str)) (b : Map) (d0 : Db) (y : Sys) (p : Map) : Prop :=
  exists sn m d1, snapshot d0 = Ok sn /\
    RateIntent.replay_after parse_f64 parse_map (intent sn) through cloud = Ok (Object m) /\
    let c := {| through := through; snapshot_ := sn; receipt := receipt |} in
    let raw := to_raw (confirm_pending b (rates m) c) in
    stage_rate_confirmation url_decode url_encode d0 c raw = Ok d1 /\
    finish_rate_confirmation url_decode url_encode d1 c raw = Ok (db y) /\
    p = apply_rates b (rates m) /\ durable (fs (world y)) primary [Some (to_vec p)].

(** C24: confirming the rates the cloud accepted is all or nothing across the
    preferences file, the queue and the publication receipt. Through any
    failures, failed recoveries and power cuts, an undisturbed recovery succeeds
    and finds either everything as before, or the file with the confirmed rates
    under the newer local edits, the sent edits retired and the receipt gone;
    after a reported success, only the latter. *)
Theorem confirm_atomic pid cloud through receipt old lold b y0 :
  quiet old lold b y0 ->
  (forall sn m, snapshot (db y0) = Ok sn ->
     RateIntent.replay_after parse_f64 parse_map (intent sn) through cloud = Ok (Object m) ->
     reads_back (confirm_pending b (rates m) {| through := through; snapshot_ := sn; receipt := receipt |}) b (apply_rates b (rates m))) ->
  let (r, y1) := confirm pid primary legacy cloud through receipt y0 in
  forall y, reach primary legacy (reported r y1) y -> settles r b (db y0) (confirm_done cloud through receipt b (db y0)) y.
Proof.
  intros Hq Hrb. unfold confirm. rewrite mbind_run. pose proof Hq as [H1 H2 H3 H4 H5].
  pose proof (recover_none primary legacy lold (prefs_files_differ dir) pid y0 [old] H4 H1) as Hr.
  destruct (recover pid primary legacy y0) as [r0 y1]. destruct Hr as (Hi & Hr & _).
  destruct r0 as [b'|e]; [|by eapply idle_settles].
  specialize (Hr _ eq_refl). pose proof H4 as (_ & _ & Hm%durable_read). apply list_elem_of_singleton in Hm. rewrite Hm in Hr.
  pose proof (reads_unique _ _ _ _ Hr H5) as ->. clear Hr Hm. rewrite mbind_run.
  pose proof (query_idle primary snapshot y1) as Hsn. destruct (query snapshot y1) as [r1 y2]. destruct Hsn as (Hi2 & Hsn & _).
  pose proof (idle_trans _ _ _ _ Hi Hi2) as Hi'. destruct r1 as [sn|e]; [|by eapply idle_settles]. specialize (Hsn _ eq_refl).
  rewrite mbind_run, lift_idle.
  destruct (RateIntent.replay_after parse_f64 parse_map (intent sn) through cloud) as [v|e] eqn:Erp; [|by eapply idle_settles].
  rewrite mbind_run, lift_idle. destruct (as_object v) as [m|] eqn:Eo; cbn [ok_or]; [|by eapply idle_settles].
  assert (v = Object m) as -> by (destruct v; cbn in Eo; congruence).
  set (c := {| through := through; snapshot_ := sn; receipt := receipt |}). fold (confirm_pending b (rates m) c).
  set (raw := to_raw (confirm_pending b (rates m) c)). destruct Hi as [Ed1 _]. rewrite Ed1 in Hsn. clear y1 Hi2 Ed1.
  pose proof (idle_quiet _ _ _ _ _ Hi' Hq) as Hq2. pose proof Hq2 as [J1 J2 J3 J4 J5]. destruct Hi' as [Ed _].
  rewrite Ed in *.
  set (stage := fun d => stage_rate_confirmation url_decode url_encode d c raw).
  destruct (stage (db y0)) as [d1|e] eqn:Est.
  - destruct (confirm_staged old lold b (rates m) c (db y0) d1 H1 H5 (rates_rate_keys m) (Hrb _ _ Hsn Erp) Est) as (d2 & Hfin & HS).
    pose proof (staged_run primary legacy old lold (prefs_files_differ dir) (temporary_not_legacy dir) true (db y0) d1
      d2 b (apply_rates b (rates m)) (confirm_pending b (rates m) c) _ HS pid y2 stage eq_refl Est Ed J2 J4) as Hrun.
    change (retire_journal (confirmation (confirm_pending b (rates m) c)) (to_raw (confirm_pending b (rates m) c)))
      with (transaction true (fun d => finish_rate_confirmation url_decode url_encode d c raw)) in Hrun.
    destruct ((do _ ← transaction true stage; do _ ← save_file pid primary (apply_rates b (rates m));
      transaction true (fun d => finish_rate_confirmation url_decode url_encode d c raw)) y2) as [r y3].
    destruct Hrun as [Hs Hok].
    { eapply Forall_impl; [exact J3|]. intros ? -> d. cbn [fst snd]. rewrite J2. intros ->%list_elem_of_singleton. by apply good0. }
    intros y Hr. eapply (staged_settles r old lold b _ (db y0) d1); [exact HS| | |exact Hr].
    { intros y' p Hp Hd (_ & _ & Hdur). assert (p = apply_rates b (rates m)) as Ep.
      { destruct Hp as [-> | [_ ->]]; [done|]. unfold recovered. by rewrite (rates_apply b (rates m) (rates_rate_keys m)). }
      exists sn, m, d1. cbv zeta. rewrite Hd. by split_and!. }
    destruct r as [[]|e]; [|done]. destruct (Hok eq_refl) as (Hd & Hf & Hk). apply reported_safe; [done|].
    eapply (phase2 _ _ _ _ _ _ _ _ _ _ y3); [by left|done|done|done].
  - rewrite mbind_run. pose proof (transaction_run true stage y2) as Ht. destruct (transaction true stage y2) as [r1 y3].
    rewrite Ed in Ht.
    destruct Ht as (Hw & [(E1 & E2 & E3 & E4 & _)|(E1 & _)]); [|congruence]. destruct r1 as [[]|e1]; [done|]. cbn [reported].
    intros y Hr. pose proof (same_plain _ _ _ _ _ Hq2 Hw (eq_trans E1 (eq_sym Ed)) E2 E3) as Hp. rewrite Ed in Hp.
    eapply plain_settles; [exact H1|exact H5| |exact Hp|exact Hr].
    intros o ->%list_elem_of_singleton. left. split; [done|by eexists].
Qed.

End writers.

(** ** A concrete machine *)

Definition demo_dir : str := lit "/mutable".
Definition demo_b : Map := <[lit "charging_currency" := String (lit "USD")]> {[ lit "keep" := Bool true ]}.
Definition demo_a : Map := <[lit "charging_currency" := String (lit "CAD")]> {[ lit "theme" := Bool false ]}.
Definition demo_hash (m : Map) : str := if bool_decide (m = rates demo_a) then lit "a" else lit "b".
Definition demo_pending : Pending :=
  {| version := 1; path_text := to_str (prefs_file demo_dir); before_hash := demo_hash (rates demo_b);
     after_hash := demo_hash (rates demo_a); pending_rates := rates demo_a; confirmation := None |}.

(** Three documents under three texts. *)
#[export] Instance demo_env : Env := {|
  to_vec p := if bool_decide (p = demo_a) then lit "new" else if bool_decide (p = demo_b) then lit "old" else lit "recovered";
  from_slice bytes :=
    if bool_decide (bytes = lit "new") then Some demo_a
    else if bool_decide (bytes = lit "old") then Some demo_b
    else if bool_decide (bytes = lit "recovered") then Some (recovered demo_b demo_a) else None;
  to_raw p := lit "journal";
  of_raw s := if bool_decide (s = lit "journal") then Some demo_pending else None;
  hash := demo_hash;
  parse_f64 _ := None; parse_map _ := None; url_decode _ := None; url_encode s := s
|}.

Definition demo_sys (fl : list Fault) (dfl : list DbFault) : Sys :=
  let s := single_fs (prefs_file demo_dir) (lit "old") in
  mkSys {| fs := s; faults := fl; trace := []; temp_id := 0 |} empty_db [empty_db] dfl [(s, [empty_db])].

Lemma demo_quiet fl dfl : quiet demo_dir (Some (lit "old")) None demo_b (demo_sys fl dfl).
Proof.
  split; try done; [by constructor|]. split; [apply single_wf|].
  split; [apply single_absent; intros H; by apply (prefs_files_differ demo_dir)|apply single_durable].
Qed.

Lemma demo_reads_back : reads_back (edit_pending demo_dir demo_b demo_a) demo_b demo_a.
Proof.
  split; [|split; [|done]].
  - change (from_slice (to_vec demo_a)) with (from_slice (if bool_decide (demo_a = demo_a) then lit "new" else
      if bool_decide (demo_a = demo_b) then lit "old" else lit "recovered")). by rewrite bool_decide_true by done.
  - unfold to_vec, demo_env. rewrite bool_decide_false, bool_decide_false; [done| |].
    all: intros H; apply (f_equal (fun m : Map => bool_decide (m !! lit "charging_currency" = Some (String (lit "CAD"))) &&
      bool_decide (m !! lit "keep" = Some (Bool true)))) in H; vm_compute in H; done.
Qed.

(** The flush of the directory fails: the edit reports failure with the journal staged. *)
Definition demo_faults : list Fault := [Good; Good; Good; Good; Good; Good; Bad 0].
Definition demo_editor : Editor unit := fun _ => Ok (tt, Some demo_a).

Lemma edit_prefs_atomic_witness :
  let (r, y1) := edit_prefs_at 77 1000 (prefs_file demo_dir) (legacy_prefs_file demo_dir) false demo_editor (demo_sys demo_faults []) in
  forall y, reach (prefs_file demo_dir) (legacy_prefs_file demo_dir) (reported r y1) y ->
  settles demo_dir r demo_b empty_db (edit_done demo_dir 1000 false (is_err r) demo_b demo_a empty_db) y.
Proof.
  exact (edit_prefs_atomic demo_dir 77 1000 false demo_editor tt (Some (lit "old")) None demo_b demo_a (demo_sys demo_faults [])
    (demo_quiet demo_faults []) eq_refl demo_reads_back).
Defined.

(** That run: the edit fails with the journal pending, and recovery completes it. *)
Example demo_recovers :
  let (r, y1) := edit_prefs_at 77 1000 (prefs_file demo_dir) (legacy_prefs_file demo_dir) false demo_editor (demo_sys demo_faults []) in
  let (r', y') := recover 77 (prefs_file demo_dir) (legacy_prefs_file demo_dir) (rescript [] [] y1) in
  (match r with Ok _ => true | Err _ => false end, bool_decide (is_Some (meta_get (db y1) JOURNAL)),
   match r' with Ok p => bool_decide (p !! lit "theme" = Some (Bool false)) | Err _ => false end,
   bool_decide (is_Some (meta_get (db y') JOURNAL)), length (events_of (db y') (RATE, [])))
  = (false, true, true, false, 1%nat).
Proof. vm_compute. reflexivity. Qed.

(** A rate edit of 1000 queued and published, and the cloud's answer to it. *)
Definition demo_db : Db :=
  match stage_rate_preferences_with_tag 1000 empty_db (Object (rates demo_b)) (Object (rates demo_a)) false None (lit "journal") with
  | Ok d => meta_del d JOURNAL
  | Err _ => empty_db
  end.
Definition demo_cloud : Value := Object (rates demo_a).
Definition no_text {A} (s : str) : option A := None.
Definition demo_confirmation : option Pending :=
  match snapshot demo_db with
  | Ok sn =>
      match RateIntent.replay_after no_text no_text (intent sn) 1000 demo_cloud with
      | Ok (Object m) => Some
          {| version := 2; path_text := to_str (prefs_file demo_dir); before_hash := demo_hash (rates demo_b);
             after_hash := demo_hash (rates m); pending_rates := rates m;
             confirmation := Some {| through := 1000; snapshot_ := sn; receipt := None |} |}
      | _ => None
      end
  | Err _ => None
  end.

Definition confirm_env : Env := {|
  to_vec := @to_vec demo_env; from_slice := @from_slice demo_env; to_raw := @to_raw demo_env;
  of_raw s := if bool_decide (s = lit "journal") then demo_confirmation else None;
  hash := demo_hash; parse_f64 := no_text; parse_map := no_text; url_decode _ := None; url_encode s := s
|}.

Definition confirm_sys (fl : list Fault) (dfl : list DbFault) : Sys :=
  let s := single_fs (prefs_file demo_dir) (lit "old") in
  mkSys {| fs := s; faults := fl; trace := []; temp_id := 0 |} demo_db [demo_db] dfl [(s, [demo_db])].

Lemma confirm_quiet fl dfl : @quiet confirm_env demo_dir (Some (lit "old")) None demo_b (confirm_sys fl dfl).
Proof.
  split; [|done|by constructor| |done].
  - apply (bool_decide_eq_true_1 (meta_get demo_db JOURNAL = None)). vm_compute. reflexivity.
  - split; [apply single_wf|split; [|apply single_durable]]. apply single_absent. intros H. by apply (prefs_files_differ demo_dir).
Qed.

Lemma confirm_reads_back sn m : snapshot demo_db = Ok sn ->
  RateIntent.replay_after no_text no_text (intent sn) 1000 demo_cloud = Ok (Object m) ->
  @reads_back confirm_env (@confirm_pending confirm_env demo_dir demo_b (rates m) {| through := 1000; snapshot_ := sn; receipt := None |})
    demo_b (apply_rates demo_b (rates m)).
Proof.
  intros Hs Hr. pose proof demo_reads_back as (_ & Hrec & _).
  assert (match snapshot demo_db with
    | Ok sn => match RateIntent.replay_after no_text no_text (intent sn) 1000 demo_cloud with
               | Ok (Object m) => bool_decide (rates m = rates demo_a) | _ => false end
    | Err _ => false end = true) as Hm by (vm_compute; reflexivity).
  rewrite Hs, Hr in Hm. apply bool_decide_eq_true in Hm. fold (recovered demo_b demo_a) in *.
  assert (apply_rates demo_b (rates m) = recovered demo_b demo_a) as Em by (unfold recovered; by rewrite Hm).
  split; [by rewrite Em|]. split.
  - assert (recovered demo_b (apply_rates demo_b (rates m)) = recovered demo_b demo_a) as ->; [|done].
    unfold recovered. by rewrite rates_apply, Hm by apply rates_rate_keys.
  - change (demo_confirmation = Some {| version := 2; path_text := to_str (prefs_file demo_dir); before_hash := demo_hash (rates demo_b);
      after_hash := demo_hash (rates m); pending_rates := rates m;
      confirmation := Some {| through := 1000; snapshot_ := sn; receipt := None |} |}).
    unfold demo_confirmation. by rewrite Hs, Hr.
Qed.

Lemma confirm_atomic_witness :
  let (r, y1) := @confirm confirm_env 77 (prefs_file demo_dir) (legacy_prefs_file demo_dir) demo_cloud 1000 None
                   (confirm_sys demo_faults []) in
  forall y, @reach confirm_env (prefs_file demo_dir) (legacy_prefs_file demo_dir) (reported r y1) y ->
  @settles confirm_env demo_dir _ r demo_b demo_db (@confirm_done confirm_env demo_dir demo_cloud 1000 None demo_b demo_db) y.
Proof.
  exact (@confirm_atomic confirm_env demo_dir 77 demo_cloud 1000 None (Some (lit "old")) None demo_b (confirm_sys demo_faults [])
    (confirm_quiet demo_faults []) confirm_reads_back).
Defined.

Example demo_confirms :
  let (r, y1) := @confirm confirm_env 77 (prefs_file demo_dir) (legacy_prefs_file demo_dir) demo_cloud 1000 None (confirm_sys [] []) in
  (match r with Ok _ => true | Err _ => false end, bool_decide (queued (db y1) RATE [] = None),
   bool_decide (AtomicFile.read (fs (world y1)) (prefs_file demo_dir) = Some (lit "recovered"))) = (true, true, true).
Proof. vm_compute. reflexivity. Qed.
