(* ===== verification/Safety.v ===== *)
(** * The Safety Score ([crates/drives/src/safety.rs])

    The per-clip walk that measures braking, turning, speeding and night driving,
    and the 0-100 score computed from a window's totals. Durations are whole
    milliseconds; float arithmetic is IEEE 754. The trigonometric functions
    ([libm]), [powf] and chrono's parser of the clip's file stamp are parameters. *)

From Stdlib Require Import ZArith Lia.
From stdpp Require Import base list.
From S2P Require Import Prelude Float Types Str Calc Grouper.

Open Scope Z_scope.

Module Safety.

(** ** Constants *)

Definition G : Z := F64.dec 980665 5.
Definition HARD_BRAKE_MPS2 : Z := F64.mul (F64.dec 30 2) G.
Definition ANY_BRAKE_MPS2 : Z := F64.mul (F64.dec 10 2) G.
Definition AGGR_TURN_MPS2 : Z := F64.mul (F64.dec 40 2) G.
Definition ANY_TURN_MPS2 : Z := F64.mul (F64.dec 20 2) G.
Definition SPEEDING_MPS : Z := F64.of_Z 38.
Definition MOVING_MPS : Z := F64.dec 45 2.
Definition TURN_MIN_MPS : Z := F64.dec 67 1.
Definition TURN_MIN_HOP_M : Z := F64.of_Z 2.
Definition BRAKE_MIN_MPS : Z := F64.of_Z 2.
Definition PAIR_DT_MIN_S : Z := F64.dec 25 2.
Definition PAIR_DT_MAX_S : Z := F64.of_Z 4.
Definition BRAKE_GATE_BEFORE_MS : Z := F64.of_Z 2000.
Definition BRAKE_GATE_AFTER_MS : Z := F64.of_Z 500.
Definition NIGHT_START_HOUR : Z := 23.
Definition NIGHT_END_HOUR : Z := 4.
Definition MIN_SCORED_MILES : Z := F64.dec 1 1.
Definition MIN_COMPATIBLE_IMU_COVERAGE : Z := F64.dec 90 2.
Definition PCF_BASE : Z := F64.dec 57198191 8.
Definition PCF_HARD_BRAKE : Z := F64.dec 123599110 8.
Definition PCF_AGGR_TURN : Z := F64.dec 101219290 8.
Definition PCF_NIGHT : Z := F64.dec 103231810 8.
Definition PCF_SPEEDING : Z := F64.dec 102439511 8.
Definition SCORE_INTERCEPT : Z := F64.dec 12215240383 8.
Definition SCORE_SLOPE : Z := F64.dec 3872920381 8.
Definition CAP_HARD_BRAKE_PCT : Z := F64.dec 52 1.
Definition CAP_AGGR_TURN_PCT : Z := F64.dec 132 1.
Definition CAP_SPEEDING_PCT : Z := F64.of_Z 10.
Definition CAP_NIGHT_PCT : Z := F64.dec 142 1.
Definition f100 : Z := F64.of_Z 100.

Definition night_weight (hour : Z) : Z :=
  if hour =? 23 then F64.dec 21 2
  else if hour =? 0 then F64.dec 53 2
  else if hour =? 1 then F64.dec 71 2
  else if hour =? 2 then F64.dec 82 2
  else if hour =? 3 then f1
  else F64.zero.

Definition is_night_hour (hour : Z) : bool := negb ((NIGHT_END_HOUR <=? hour) && (hour <? NIGHT_START_HOUR)).

(** ** Per-clip metrics *)

Record SafetyPrefixBucket := mkBucket {
  pb_hard_brake_ms : Z; pb_brake_any_ms : Z; pb_aggr_turn_ms : Z; pb_turn_any_ms : Z; pb_speeding_ms : Z;
}.
Definition no_bucket : SafetyPrefixBucket := mkBucket 0 0 0 0 0.

Record ClipSafety := mkClip {
  hard_brake_ms : Z; hard_brake_events : Z; aggr_turn_ms : Z; aggr_turn_events : Z; speeding_ms : Z;
  moving_ms : Z; manual_moving_ms : Z; imu_moving_ms : Z; night_ms : Z; night_weighted_ms : Z;
  grace_ms_end : Z; grace_prefix : list SafetyPrefixBucket; ap_at_end : option Z;
  brake_any_ms : Z; turn_any_ms : Z;
}.
Definition no_safety : ClipSafety := mkClip 0 0 0 0 0 0 0 0 0 0 0 (replicate 5 no_bucket) None 0 0.

(** Accumulation: totals, and the prefix bucket [idx] when there is one. *)
Record Added := mkAdded {
  d_hard_brake : Z; d_hard_events : Z; d_aggr_turn : Z; d_aggr_events : Z; d_speeding : Z;
  d_moving : Z; d_manual : Z; d_imu : Z; d_night : Z; d_night_weighted : Z; d_brake_any : Z; d_turn_any : Z;
}.
Definition added0 : Added := mkAdded 0 0 0 0 0 0 0 0 0 0 0 0.

Definition add_bucket (d : Added) (b : SafetyPrefixBucket) : SafetyPrefixBucket :=
  mkBucket (pb_hard_brake_ms b + d_hard_brake d) (pb_brake_any_ms b + d_brake_any d) (pb_aggr_turn_ms b + d_aggr_turn d)
    (pb_turn_any_ms b + d_turn_any d) (pb_speeding_ms b + d_speeding d).

Definition accumulate (idx : nat) (d : Added) (o : ClipSafety) : ClipSafety :=
  mkClip (hard_brake_ms o + d_hard_brake d) (hard_brake_events o + d_hard_events d) (aggr_turn_ms o + d_aggr_turn d)
    (aggr_turn_events o + d_aggr_events d) (speeding_ms o + d_speeding d) (moving_ms o + d_moving d)
    (manual_moving_ms o + d_manual d) (imu_moving_ms o + d_imu d) (night_ms o + d_night d)
    (night_weighted_ms o + d_night_weighted d) (grace_ms_end o) (alter (add_bucket d) idx (grace_prefix o)) (ap_at_end o)
    (brake_any_ms o + d_brake_any d) (turn_any_ms o + d_turn_any d).

Definition driver_controls_factor (ap accel_position : Z) : bool :=
  (ap =? AUTOPILOT_OFF) || ((ap =? AUTOPILOT_TACC) && F32.lt F32.one accel_position).

(** [name.get(..19)]: only at a character boundary. *)
Definition get_19 (name : str) : option str :=
  if (length name <? 19)%nat then None
  else match name !! 19%nat with
       | Some b => if (128 <=? b) && (b <? 192) then None else Some (take 19 name)
       | None => Some (take 19 name)
       end.

(** The marked runs as intervals of clip time, from (marked, frames) pairs. *)
Fixpoint intervals (per_frame_ms : Z) (acc : Z) (runs : list (bool * Z)) : list (Z * Z) :=
  match runs with
  | [] => []
  | (marked, frames) :: t =>
      let rest := intervals per_frame_ms (acc + frames) t in
      if marked && (0 <? frames)
      then (F64.mul (F64.of_Z acc) per_frame_ms, F64.mul (F64.of_Z (acc + frames)) per_frame_ms) :: rest
      else rest
  end.

Definition CLIP_MS : Z := F64.of_Z 60000.

Definition brake_intervals (runs : list FlagRun) : list (Z * Z) :=
  let total := sum_Z (fr_frames <$> runs) in
  if total <=? 0 then []
  else intervals (F64.div CLIP_MS (F64.of_Z total)) 0
         ((fun run => (negb (Z.land (fr_flags run) FLAG_BRAKE =? 0), fr_frames run)) <$> runs).

Section walk.
Context (L : libm) (parse_stamp : str -> option Z).

Definition clip_local_start (file : str) : option Z :=
  match get_19 (rsplit_next 47 (norm_path file)) with Some stamp => parse_stamp stamp | None => None end.

Definition menger_curvature (p0 p1 p2 : GpsPoint) : Z :=
  let lat0 := F64.mul (fst p1) (F64.div PI (F64.of_Z 180)) in
  let m_per_deg_lat := F64.of_Z 111132 in
  let m_per_deg_lon := F64.mul (F64.of_Z 111320) (f_cos L lat0) in
  let ax := F64.mul (F64.sub (snd p1) (snd p0)) m_per_deg_lon in
  let ay := F64.mul (F64.sub (fst p1) (fst p0)) m_per_deg_lat in
  let bx := F64.mul (F64.sub (snd p2) (snd p1)) m_per_deg_lon in
  let by_ := F64.mul (F64.sub (fst p2) (fst p1)) m_per_deg_lat in
  let hypot x y := F64.sqrt (F64.add (F64.mul x x) (F64.mul y y)) in
  let a := hypot ax ay in
  let b := hypot bx by_ in
  let c := hypot (F64.add ax bx) (F64.add ay by_) in
  let tiny := F64.dec 1 6 in
  if F64.lt a tiny || F64.lt b tiny || F64.lt c tiny then F64.zero
  else
    let cross := F64.abs (F64.sub (F64.mul ax by_) (F64.mul ay bx)) in
    F64.div (F64.mul f2 cross) (F64.mul (F64.mul a b) c).

(** *** The channels of a clip *)
Context (r : Route).

Definition n : nat := length (rt_points r).
Definition has_ap : bool := (length (rt_autopilot_states r) =? n)%nat.
Definition has_imu : bool := (length (rt_accel_x r) =? n)%nat && (length (rt_accel_y r) =? n)%nat.
Definition has_pedal : bool := (length (rt_accel_positions r) =? n)%nat.
Definition dt_ms : Z := F64.div CLIP_MS (F64.sub (F64.of_Z (Z.of_nat n)) f1).
Definition interval_ms : Z := F64.to_i64 (F64.round dt_ms).
Definition point (i : nat) : GpsPoint := nth i (rt_points r) (0, 0).
Definition speed (i : nat) : Z := F32.to_f64 (nth i (rt_speeds r) 0).
Definition accel_x (i : nat) : Z := F32.to_f64 (nth i (rt_accel_x r) 0).
Definition accel_y (i : nat) : Z := F32.to_f64 (nth i (rt_accel_y r) 0).
Definition ap (i : nat) : Z := if has_ap then nth i (rt_autopilot_states r) 0 else AUTOPILOT_OFF.
Definition pedal (i : nat) : Z := if has_pedal then nth i (rt_accel_positions r) 0 else F32.zero.
Definition valid (i : nat) : bool := negb (is_null_island (fst (point i)) (snd (point i))).
Definition at_ms (i : nat) : Z := F64.mul (F64.of_Z (Z.of_nat i)) dt_ms.

Definition in_range (lo hi v : Z) : bool := F64.le lo v && F64.lt v hi.
Definition sane_speed (v : Z) : bool := in_range (F64.of_Z (-1)) f100 v.

Definition has_sei_speeds : bool := (length (rt_speeds r) =? n)%nat && existsb (F32.lt F32.zero) (rt_speeds r).

Definition brake_near (t_ms : Z) : bool :=
  match rt_flag_runs r with
  | [] => true
  | _ => existsb (fun iv : Z * Z => F64.lt (F64.sub t_ms BRAKE_GATE_BEFORE_MS) (snd iv)
                                    && F64.lt (fst iv) (F64.add t_ms BRAKE_GATE_AFTER_MS)) (brake_intervals (rt_flag_runs r))
  end.

(** *** The walk *)

Record Walk := mkWalk { out : ClipSafety; in_brake_run : bool; in_turn_run : bool; turn_streak : Z; grace_remaining_ms : Z }.

(** The disengagement grace: re-armed when assistance switches off. *)
Definition armed_grace (i : nat) (grace : Z) : Z :=
  if has_ap && negb (ap (i - 1) =? AUTOPILOT_OFF) && (ap i =? AUTOPILOT_OFF) then F64.of_Z 5000 else grace.
Definition spent_grace (grace : Z) : Z :=
  if F64.lt F64.zero grace then F64.max (F64.sub grace dt_ms) F64.zero else grace.

Definition prefix_idx (i : nat) : nat :=
  Z.to_nat (F64.to_usize (F64.floor (F64.div (F64.mul (F64.of_Z (Z.of_nat (i - 1))) dt_ms) (F64.of_Z 1000)))).

Definition hour_of (t_ms : Z) : Z := (t_ms / 3600000) mod 24.

(** Moving, speeding and night time of sample [i]. *)
Definition exposure (i : nat) (factor_allowed : bool) : Added :=
  let vc := speed i in
  if F64.le MOVING_MPS (F64.abs vc) && F64.lt (F64.abs vc) f100 then
    let weight := match clip_local_start (rt_file r) with
                  | Some start => night_weight (hour_of (start +
                      F64.to_i64 (F64.round (F64.mul (F64.sub (F64.of_Z (Z.of_nat i)) (F64.dec 5 1)) dt_ms))))
                  | None => F64.zero
                  end in
    let night := F64.lt F64.zero weight in
    mkAdded 0 0 0 0 (if factor_allowed && in_range SPEEDING_MPS f100 vc then interval_ms else 0)
      interval_ms (if factor_allowed then interval_ms else 0) (if has_imu then interval_ms else 0)
      (if night then interval_ms else 0)
      (if night then F64.to_i64 (F64.round (F64.mul (F64.of_Z interval_ms) weight)) else 0) 0 0
  else added0.

(** Measured braking and turning of sample [i]. *)
Definition imu_live (i : nat) (factor_allowed : bool) : bool := factor_allowed && F64.le MOVING_MPS (F64.abs (speed i)).
Definition imu_brake_any (i : nat) : bool :=
  F64.lt (F64.abs (accel_y i)) (F64.of_Z 30) && F64.le ANY_BRAKE_MPS2 (accel_y i).
Definition imu_brake_hard (i : nat) : bool := imu_brake_any i && F64.le HARD_BRAKE_MPS2 (accel_y i).
Definition imu_turn_any (i : nat) : bool := in_range ANY_TURN_MPS2 (F64.of_Z 30) (F64.abs (accel_x i)).
Definition imu_turn_hard (i : nat) : bool := imu_turn_any i && F64.le AGGR_TURN_MPS2 (F64.abs (accel_x i)).

Definition ms_if (b : bool) : Z := if b then interval_ms else 0.
Definition one_if (b : bool) : Z := if b then 1 else 0.

Definition measured (i : nat) (factor_allowed brake_run turn_run : bool) : Added * bool * bool :=
  if imu_live i factor_allowed then
    (mkAdded (ms_if (imu_brake_hard i)) (one_if (imu_brake_hard i && negb brake_run))
       (ms_if (imu_turn_hard i)) (one_if (imu_turn_hard i && negb turn_run)) 0 0 0 0 0 0
       (ms_if (imu_brake_any i)) (ms_if (imu_turn_any i)), imu_brake_hard i, imu_turn_hard i)
  else (added0, false, false).

(** Braking derived from the speed drop over the estimated time of the hop. *)
Definition derived_decel (i : nat) (factor_allowed : bool) : option Z :=
  let vp := speed (i - 1) in
  let vc := speed i in
  if sane_speed vp && sane_speed vc && F64.le BRAKE_MIN_MPS vp && F64.le F64.zero vc && factor_allowed then
    let d := geodesic_m L (fst (point (i - 1))) (snd (point (i - 1))) (fst (point i)) (snd (point i)) in
    let v_avg := F64.div (F64.add vp vc) f2 in
    if F64.le f1 v_avg
    then Some (F64.div (F64.sub vp vc) (clamp PAIR_DT_MIN_S PAIR_DT_MAX_S (F64.div d v_avg)))
    else None
  else None.
Definition derived_brake_any (i : nat) (factor_allowed : bool) : bool :=
  match derived_decel i factor_allowed with Some decel => F64.le ANY_BRAKE_MPS2 decel | None => false end.
Definition derived_brake_hard (i : nat) (factor_allowed : bool) : bool :=
  match derived_decel i factor_allowed with
  | Some decel => F64.le HARD_BRAKE_MPS2 decel && brake_near (at_ms i)
  | None => false
  end.

(** Lateral acceleration from the curvature of the track. *)
Definition derived_lateral (i : nat) (factor_allowed : bool) : option Z :=
  if (S i <? n)%nat && valid (S i) && sane_speed (speed (i - 1)) && sane_speed (speed i) && factor_allowed then
    let v := F64.abs (speed i) in
    if F64.le TURN_MIN_MPS v then
      let p0 := point (i - 1) in
      let p1 := point i in
      let p2 := point (S i) in
      let hop_a := geodesic_m L (fst p0) (snd p0) (fst p1) (snd p1) in
      let hop_b := geodesic_m L (fst p1) (snd p1) (fst p2) (snd p2) in
      if F64.le TURN_MIN_HOP_M hop_a && F64.le TURN_MIN_HOP_M hop_b
      then Some (F64.mul (F64.mul v v) (menger_curvature p0 p1 p2))
      else None
    else None
  else None.
Definition derived_turn (limit : Z) (i : nat) (factor_allowed : bool) : bool :=
  match derived_lateral i factor_allowed with Some lateral => F64.le limit lateral | None => false end.

Definition derived (i : nat) (factor_allowed brake_run : bool) (streak : Z) : Added * bool * Z :=
  let hard := derived_brake_hard i factor_allowed in
  let turn := derived_turn AGGR_TURN_MPS2 i factor_allowed in
  let streak := if turn then streak + 1 else 0 in
  (mkAdded (ms_if hard) (one_if (hard && negb brake_run))
     (if streak =? 2 then 2 * interval_ms else if 2 <? streak then interval_ms else 0) (one_if (streak =? 2)) 0 0 0 0 0 0
     (ms_if (derived_brake_any i factor_allowed)) (ms_if (derived_turn ANY_TURN_MPS2 i factor_allowed)), hard, streak).

(** One iteration of the loop. *)
Definition step (w : Walk) (i : nat) : Walk :=
  let grace := armed_grace i (grace_remaining_ms w) in
  let factor_allowed := driver_controls_factor (ap i) (pedal i) && F64.le grace F64.zero in
  let grace' := spent_grace grace in
  if negb (valid i) || negb (valid (i - 1)) then mkWalk (out w) false false 0 grace'
  else
    let o := accumulate (prefix_idx i) (exposure i factor_allowed) (out w) in
    if has_imu then
      let '(d, b, t) := measured i factor_allowed (in_brake_run w) (in_turn_run w) in
      mkWalk (accumulate (prefix_idx i) d o) b t (turn_streak w) grace'
    else
      let '(d, b, k) := derived i factor_allowed (in_brake_run w) (turn_streak w) in
      mkWalk (accumulate (prefix_idx i) d o) b (in_turn_run w) k grace'.

Definition walk0 : Walk := mkWalk no_safety false false 0 F64.zero.
Definition walk : Walk := foldl step walk0 (seq 1 (n - 1)).

Definition compute_clip_safety : ClipSafety :=
  if (n <? 2)%nat || negb has_sei_speeds then no_safety
  else
    let w := walk in
    let o := out w in
    mkClip (hard_brake_ms o) (hard_brake_events o) (aggr_turn_ms o) (aggr_turn_events o) (speeding_ms o) (moving_ms o)
      (manual_moving_ms o) (imu_moving_ms o) (night_ms o) (night_weighted_ms o)
      (F64.to_i64 (F64.round (grace_remaining_ms w))) (grace_prefix o)
      (if has_ap then Some (nth (n - 1) (rt_autopilot_states r) 0) else None) (brake_any_ms o) (turn_any_ms o).

End walk.

(** ** The score *)

Record SafetyTotals := mkTotals {
  t_distance_mi : Z; t_assisted_mi : Z; t_night_mi : Z; t_night_weighted_mi : Z;
  t_moving_ms : Z; t_imu_moving_ms : Z; t_night_ms : Z; t_night_weighted_ms : Z; t_manual_moving_ms : Z;
  t_hard_brake_ms : Z; t_hard_brake_events : Z; t_aggr_turn_ms : Z; t_aggr_turn_events : Z;
  t_speeding_ms : Z; t_brake_any_ms : Z; t_turn_any_ms : Z;
}.

Record SafetyScore := mkScore {
  s_score : Z; s_hard_brake_pct : Z; s_aggr_turn_pct : Z; s_speeding_pct : Z; s_night_pct : Z;
  s_hard_brake_penalty : Z; s_aggr_turn_penalty : Z; s_speeding_penalty : Z; s_night_penalty : Z;
  s_fsd_share_pct : Z; s_fsd_relief_pct : Z;
}.

Section score.
Context (powf : Z -> Z -> Z).

Definition score_from_percentages (hard_brake aggr_turn night speeding : Z) : Z :=
  let pcf :=
    F64.mul (F64.mul (F64.mul (F64.mul PCF_BASE
      (powf PCF_HARD_BRAKE (clamp F64.zero CAP_HARD_BRAKE_PCT hard_brake)))
      (powf PCF_AGGR_TURN (clamp F64.zero CAP_AGGR_TURN_PCT aggr_turn)))
      (powf PCF_NIGHT (clamp F64.zero CAP_NIGHT_PCT night)))
      (powf PCF_SPEEDING (clamp F64.zero CAP_SPEEDING_PCT speeding)) in
  clamp F64.zero f100 (F64.sub SCORE_INTERCEPT (F64.mul SCORE_SLOPE pcf)).

Definition pct (a b : Z) : Z := F64.div (F64.mul f100 (F64.of_Z a)) (F64.of_Z b).
Definition share (a b : Z) : Z := clamp F64.zero f1 (F64.div (F64.of_Z a) (F64.of_Z b)).

Definition compute_safety_score (t : SafetyTotals) : option SafetyScore :=
  if (t_moving_ms t <=? 0) || F64.lt (t_distance_mi t) MIN_SCORED_MILES then None
  else if F64.lt (F64.div (F64.of_Z (t_imu_moving_ms t)) (F64.of_Z (t_moving_ms t))) MIN_COMPATIBLE_IMU_COVERAGE then None
  else
    let hb_pct := if 0 <? t_brake_any_ms t then pct (t_hard_brake_ms t) (t_brake_any_ms t) else F64.zero in
    let at_pct := if 0 <? t_turn_any_ms t then pct (t_aggr_turn_ms t) (t_turn_any_ms t) else F64.zero in
    let sp_pct := pct (t_speeding_ms t) (t_moving_ms t) in
    let ln_display_pct := F64.mul f100 (share (t_night_ms t) (t_moving_ms t)) in
    let ln_pct := F64.mul f100 (share (t_night_weighted_ms t) (t_moving_ms t)) in
    let fsd_share := clamp F64.zero f1 (F64.div (t_assisted_mi t) (t_distance_mi t)) in
    let score := score_from_percentages hb_pct at_pct ln_pct sp_pct in
    Some (mkScore (round1 score) (round1 hb_pct) (round1 at_pct) (round1 sp_pct) (round1 ln_display_pct)
      (round1 (F64.sub (score_from_percentages F64.zero at_pct ln_pct sp_pct) score))
      (round1 (F64.sub (score_from_percentages hb_pct F64.zero ln_pct sp_pct) score))
      (round1 (F64.sub (score_from_percentages hb_pct at_pct ln_pct F64.zero) score))
      (round1 (F64.sub (score_from_percentages hb_pct at_pct F64.zero sp_pct) score))
      (round1 (F64.mul fsd_share f100)) F64.zero).

End score.

(** [days] are (score, miles). *)
Definition mileage_weighted_score (days : list (Z * Z)) : option Z :=
  let total_miles := foldl (fun s d => F64.add s (F64.max (snd d) F64.zero)) F64.zero days in
  if F64.le total_miles F64.zero then None
  else
    let weighted := foldl (fun s d => F64.add s (F64.mul (clamp F64.zero f100 (fst d)) (F64.max (snd d) F64.zero))) F64.zero days in
    Some (round1 (F64.div weighted total_miles)).

End Safety.
