(* ===== verification/SafetySpec.v ===== *)
(** * The Safety Score: theorems

    The single pass over a clip computes, for every factor, the number of samples
    with a property of their own neighbourhood: a reference by counting, without
    running state. *)

From Stdlib Require Import ZArith Lia SpecFloat.
From stdpp Require Import base list.
From S2P Require Import Prelude Float Types Str Calc Grouper Safety.

Import Safety.
Open Scope Z_scope.

(** ** Counting *)

Definition tally (p : nat -> bool) (k : nat) : Z := Z.of_nat (length (List.filter p (seq 1 k))).

Lemma tally_0 p : tally p 0 = 0.
Proof. done. Qed.

Lemma tally_S p k : tally p (S k) = tally p k + one_if (p (S k)).
Proof.
  unfold tally, one_if. rewrite seq_S, List.filter_app, length_app. cbn [List.filter Nat.add].
  destruct (p (S k)); cbn [length]; lia.
Qed.

Lemma tally_ext p q k : (forall i, (1 <= i <= k)%nat -> p i = q i) -> tally p k = tally q k.
Proof.
  induction k as [|k IH]; intros H; [done|]. rewrite !tally_S, IH by (intros; apply H; lia). by rewrite H by lia.
Qed.

Lemma ms_if_one r b : ms_if r b = interval_ms r * one_if b.
Proof. unfold ms_if, one_if. destruct b; lia. Qed.

(** Samples of runs of at least two, up to [k]. *)
Definition sustained (t : nat -> bool) (k i : nat) : bool := t i && (t (i - 1)%nat || ((S i <=? k)%nat && t (S i))).
Definition run_start (t : nat -> bool) (i : nat) : bool := t i && negb (t (i - 1)%nat).
Definition second_of_run (t : nat -> bool) (i : nat) : bool := t i && t (i - 1)%nat && negb (t (i - 2)%nat).

Lemma tally_sustained t k : t 0%nat = false ->
  tally (sustained t (S k)) (S k) = tally (sustained t k) k +
    (if t (S k) && t k then if t (k - 1)%nat then 1 else 2 else 0).
Proof.
  intros H0. rewrite tally_S. unfold sustained at 2, one_if. rewrite (proj2 (Nat.leb_gt (S (S k)) (S k))) by lia.
  replace (S k - 1)%nat with k by lia. rewrite orb_false_r. destruct k as [|k].
  { rewrite tally_0, H0, andb_false_r. done. }
  rewrite !tally_S, (tally_ext (sustained t (S (S k))) (sustained t (S k)) k).
  2: { intros i Hi. unfold sustained. by rewrite !(proj2 (Nat.leb_le _ _)) by lia. }
  unfold sustained, one_if. rewrite (proj2 (Nat.leb_gt (S (S k)) (S k))), (proj2 (Nat.leb_le (S (S k)) (S (S k)))) by lia.
  replace (S k - 1)%nat with k by lia. rewrite andb_true_l, andb_false_l, orb_false_r.
  destruct (t (S (S k))), (t (S k)), (t k); cbn; lia.
Qed.

Lemma triple_eq {A B C} (a a' : A) (b b' : B) (c c' : C) : (a, b, c) = (a', b', c') -> a = a' /\ b = b' /\ c = c'.
Proof. by intros [= -> -> ->]. Qed.

(** ** The reference *)

Section reference.
Context (L : libm) (parse_stamp : str -> option Z) (r : Route).

(** The grace entering sample [i]: a scan of the autopilot channel alone. *)
Fixpoint grace_in (i : nat) : Z :=
  match i with
  | O => F64.zero
  | S j => match j with O => F64.zero | S _ => spent_grace r (armed_grace r j (grace_in j)) end
  end.

(** The driver answers for sample [i]. *)
Definition allowed (i : nat) : bool :=
  driver_controls_factor (ap r i) (pedal r i) && F64.le (armed_grace r i (grace_in i)) F64.zero.

(** Both ends of hop [i] are real positions. *)
Definition hop (i : nat) : bool := (1 <=? i)%nat && valid r i && valid r (i - 1).

Definition moving (i : nat) : bool :=
  hop i && F64.le MOVING_MPS (F64.abs (speed r i)) && F64.lt (F64.abs (speed r i)) f100.
Definition manual (i : nat) : bool := moving i && allowed i.
Definition speeding (i : nat) : bool := manual i && in_range SPEEDING_MPS f100 (speed r i).
Definition brake_any (i : nat) : bool :=
  hop i && if has_imu r then imu_live r i (allowed i) && imu_brake_any r i else derived_brake_any L r i (allowed i).
Definition brake_hard (i : nat) : bool :=
  hop i && if has_imu r then imu_live r i (allowed i) && imu_brake_hard r i else derived_brake_hard L r i (allowed i).
Definition turn_any (i : nat) : bool :=
  hop i && if has_imu r then imu_live r i (allowed i) && imu_turn_any r i else derived_turn L r ANY_TURN_MPS2 i (allowed i).
Definition turn_hard (i : nat) : bool :=
  hop i && if has_imu r then imu_live r i (allowed i) && imu_turn_hard r i else derived_turn L r AGGR_TURN_MPS2 i (allowed i).

Definition at_night (i : nat) : bool :=
  match clip_local_start parse_stamp (rt_file r) with
  | Some start => F64.lt F64.zero (night_weight (hour_of (start +
      F64.to_i64 (F64.round (F64.mul (F64.sub (F64.of_Z (Z.of_nat i)) (F64.dec 5 1)) (dt_ms r))))))
  | None => false
  end.
Definition night (i : nat) : bool := moving i && at_night i.

(** The consecutive hard-turn samples ending at [k]. *)
Fixpoint streak (k : nat) : Z :=
  match k with O => 0 | S j => if turn_hard (S j) then streak j + 1 else 0 end.

Lemma streak_nonneg k : 0 <= streak k.
Proof. induction k as [|k IH]; cbn; [done|]. destruct (turn_hard (S k)); lia. Qed.

Lemma streak_0 k : turn_hard k = false -> streak k = 0.
Proof. destruct k as [|k]; [done|]. cbn [streak]. by intros ->. Qed.

Lemma streak_pos k : turn_hard k = true -> 0 < streak k.
Proof. destruct k as [|k]; [done|]. cbn [streak]. intros ->. pose proof (streak_nonneg k). lia. Qed.

(** What the walk has after [k] samples. *)
Record walked (k : nat) (w : Walk) : Prop := {
  w_grace : grace_remaining_ms w = grace_in (S k);
  w_brake : in_brake_run w = brake_hard k;
  w_turn : has_imu r = true -> in_turn_run w = turn_hard k;
  w_streak : has_imu r = false -> turn_streak w = streak k;
  w_hard_ms : hard_brake_ms (out w) = interval_ms r * tally brake_hard k;
  w_hard_events : hard_brake_events (out w) = tally (run_start brake_hard) k;
  w_brake_any : brake_any_ms (out w) = interval_ms r * tally brake_any k;
  w_turn_any : turn_any_ms (out w) = interval_ms r * tally turn_any k;
  w_aggr_ms : aggr_turn_ms (out w) =
    interval_ms r * (if has_imu r then tally turn_hard k else tally (sustained turn_hard k) k);
  w_aggr_events : aggr_turn_events (out w) =
    if has_imu r then tally (run_start turn_hard) k else tally (second_of_run turn_hard) k;
  w_speeding : speeding_ms (out w) = interval_ms r * tally speeding k;
  w_moving : moving_ms (out w) = interval_ms r * tally moving k;
  w_manual : manual_moving_ms (out w) = interval_ms r * tally manual k;
  w_imu : imu_moving_ms (out w) = if has_imu r then interval_ms r * tally moving k else 0;
  w_night : night_ms (out w) = interval_ms r * tally night k
}.

Lemma turn_hard_0 : turn_hard 0 = false.
Proof. done. Qed.

Lemma walked_0 : walked 0 walk0.
Proof. split; destruct (has_imu r); rewrite ?tally_0, ?Z.mul_0_r; done. Qed.

(** A hop that touches no position counts nothing. *)
Lemma walked_skip k w g : hop (S k) = false -> g = grace_in (S (S k)) -> walked k w -> walked (S k) (mkWalk (out w) false false 0 g).
Proof.
  intros Hh Hg [].
  assert (brake_hard (S k) = false /\ brake_any (S k) = false /\ turn_any (S k) = false /\ turn_hard (S k) = false /\
    moving (S k) = false) as (E1 & E2 & E3 & E4 & E5).
  { unfold brake_hard, brake_any, turn_any, turn_hard, moving. by rewrite Hh. }
  assert (manual (S k) = false /\ speeding (S k) = false /\ night (S k) = false) as (E6 & E7 & E8).
  { unfold speeding, manual, night. by rewrite E5. }
  pose proof (tally_sustained turn_hard k turn_hard_0) as Hsus. rewrite E4 in Hsus. cbn [andb] in Hsus. rewrite Z.add_0_r in Hsus.
  split; cbn [out grace_remaining_ms in_brake_run in_turn_run turn_streak]; try done;
    rewrite ?Hsus, ?tally_S; unfold run_start, second_of_run, one_if;
    rewrite ?E1, ?E2, ?E3, ?E4, ?E5, ?E6, ?E7, ?E8; cbn [andb]; rewrite ?Z.add_0_r; try done.
  intros _. cbn [streak]. by rewrite E4.
Qed.

(** The sample's own contribution. *)
Lemma walked_exposure k w o : hop (S k) = true -> walked k w ->
  o = accumulate (prefix_idx r (S k)) (exposure parse_stamp r (S k) (allowed (S k))) (out w) ->
  moving_ms o = interval_ms r * tally moving (S k) /\ manual_moving_ms o = interval_ms r * tally manual (S k) /\
  speeding_ms o = interval_ms r * tally speeding (S k) /\ night_ms o = interval_ms r * tally night (S k) /\
  imu_moving_ms o = (if has_imu r then interval_ms r * tally moving (S k) else 0) /\
  hard_brake_ms o = hard_brake_ms (out w) /\ hard_brake_events o = hard_brake_events (out w) /\
  aggr_turn_ms o = aggr_turn_ms (out w) /\ aggr_turn_events o = aggr_turn_events (out w) /\
  brake_any_ms o = brake_any_ms (out w) /\ turn_any_ms o = turn_any_ms (out w).
Proof.
  intros Hh [] ->. rewrite !tally_S. unfold exposure.
  change (speeding (S k)) with (moving (S k) && allowed (S k) && in_range SPEEDING_MPS f100 (speed r (S k))).
  change (manual (S k)) with (moving (S k) && allowed (S k)). change (night (S k)) with (moving (S k) && at_night (S k)).
  assert (moving (S k) = F64.le MOVING_MPS (F64.abs (speed r (S k))) && F64.lt (F64.abs (speed r (S k))) f100) as ->.
  { unfold moving. by rewrite Hh. }
  assert (forall b c, F64.lt F64.zero (match clip_local_start parse_stamp (rt_file r) with
    | Some start => night_weight (hour_of (start + F64.to_i64 (F64.round (F64.mul (F64.sub (F64.of_Z (Z.of_nat (S k))) (F64.dec 5 1)) (dt_ms r)))))
    | None => F64.zero end) = b -> at_night (S k) = c -> b = c) as Hn.
  { intros b c <- <-. unfold at_night. by destruct (clip_local_start parse_stamp (rt_file r)). }
  specialize (Hn _ _ eq_refl eq_refl).
  destruct (F64.le MOVING_MPS (F64.abs (speed r (S k))) && F64.lt (F64.abs (speed r (S k))) f100);
    cbn [andb accumulate moving_ms manual_moving_ms speeding_ms night_ms imu_moving_ms hard_brake_ms hard_brake_events
      aggr_turn_ms aggr_turn_events brake_any_ms turn_any_ms added0 d_hard_brake d_hard_events d_aggr_turn d_aggr_events
      d_speeding d_moving d_manual d_imu d_night d_night_weighted d_brake_any d_turn_any one_if]; rewrite ?Z.add_0_r;
    [|split_and!; done]. rewrite <- Hn.
  rewrite w_moving0, w_manual0, w_speeding0, w_night0, w_imu0. unfold one_if.
  destruct (allowed (S k)); cbn [andb]; destruct (in_range SPEEDING_MPS f100 (speed r (S k))), (F64.lt F64.zero _), (has_imu r);
    split_and!; lia.
Qed.

#[local] Opaque interval_ms imu_live imu_brake_hard imu_brake_any imu_turn_hard imu_turn_any derived_brake_hard
  derived_brake_any derived_turn exposure valid spent_grace armed_grace driver_controls_factor speed has_imu prefix_idx.

(** A sample that adds its own part of every count. *)
Lemma walked_add k w o d b t s g : hop (S k) = true -> walked k w ->
  o = accumulate (prefix_idx r (S k)) (exposure parse_stamp r (S k) (allowed (S k))) (out w) ->
  d_hard_brake d = interval_ms r * one_if (brake_hard (S k)) -> d_hard_events d = one_if (run_start brake_hard (S k)) ->
  d_brake_any d = interval_ms r * one_if (brake_any (S k)) -> d_turn_any d = interval_ms r * one_if (turn_any (S k)) ->
  d_aggr_turn d = interval_ms r *
    (if has_imu r then one_if (turn_hard (S k))
     else if turn_hard (S k) && turn_hard k then if turn_hard (k - 1)%nat then 1 else 2 else 0) ->
  d_aggr_events d = one_if (if has_imu r then run_start turn_hard (S k) else second_of_run turn_hard (S k)) ->
  d_speeding d = 0 -> d_moving d = 0 -> d_manual d = 0 -> d_imu d = 0 -> d_night d = 0 ->
  b = brake_hard (S k) -> (has_imu r = true -> t = turn_hard (S k)) -> (has_imu r = false -> s = streak (S k)) ->
  g = grace_in (S (S k)) -> walked (S k) (mkWalk (accumulate (prefix_idx r (S k)) d o) b t s g).
Proof.
  intros Hh Hw Ho D1 D2 D3 D4 D5 D6 D7 D8 D9 D10 D11 Hb Ht Hs Hg.
  destruct (walked_exposure k w o Hh Hw Ho) as (E1 & E2 & E3 & E4 & E5 & E6 & E7 & E8 & E9 & E10 & E11).
  pose proof (tally_sustained turn_hard k turn_hard_0) as Hsus.
  destruct Hw as [_ _ _ _ W1 W2 W3 W4 W5 W6 _ _ _ _ _]. clear Ho.
  split; cbn [out grace_remaining_ms in_brake_run in_turn_run turn_streak accumulate hard_brake_ms hard_brake_events brake_any_ms
    turn_any_ms aggr_turn_ms aggr_turn_events speeding_ms moving_ms manual_moving_ms imu_moving_ms night_ms];
    [exact Hg|exact Hb|exact Ht|exact Hs|..].
  - rewrite E6, W1, D1, tally_S. ring.
  - rewrite E7, W2, D2, tally_S. ring.
  - rewrite E10, W3, D3, tally_S. ring.
  - rewrite E11, W4, D4, tally_S. ring.
  - rewrite E8, W5, D5. destruct (has_imu r); [rewrite tally_S; ring|]. rewrite Hsus. ring.
  - rewrite E9, W6, D6. destruct (has_imu r); rewrite tally_S; ring.
  - rewrite E3, D7. ring.
  - rewrite E1, D8. ring.
  - rewrite E2, D9. ring.
  - rewrite E5, D10. ring.
  - rewrite E4, D11. ring.
Qed.

Lemma walked_measured k w o d b t g : hop (S k) = true -> has_imu r = true -> walked k w ->
  o = accumulate (prefix_idx r (S k)) (exposure parse_stamp r (S k) (allowed (S k))) (out w) ->
  measured r (S k) (allowed (S k)) (in_brake_run w) (in_turn_run w) = (d, b, t) -> g = grace_in (S (S k)) ->
  walked (S k) (mkWalk (accumulate (prefix_idx r (S k)) d o) b t (turn_streak w) g).
Proof.
  intros Hh Hi Hw Ho Hm Hg. unfold measured in Hm. rewrite (w_brake _ _ Hw), (w_turn _ _ Hw Hi) in Hm.
  assert (brake_hard (S k) = imu_live r (S k) (allowed (S k)) && imu_brake_hard r (S k)) as B1 by (unfold brake_hard; by rewrite Hh, Hi).
  assert (brake_any (S k) = imu_live r (S k) (allowed (S k)) && imu_brake_any r (S k)) as B2 by (unfold brake_any; by rewrite Hh, Hi).
  assert (turn_hard (S k) = imu_live r (S k) (allowed (S k)) && imu_turn_hard r (S k)) as B3 by (unfold turn_hard; by rewrite Hh, Hi).
  assert (turn_any (S k) = imu_live r (S k) (allowed (S k)) && imu_turn_any r (S k)) as B4 by (unfold turn_any; by rewrite Hh, Hi).
  apply (walked_add k w); try assumption; unfold run_start; rewrite ?Hi, ?Nat.sub_succ, ?Nat.sub_0_r, ?B1, ?B2, ?B3, ?B4;
    destruct (imu_live r (S k) (allowed (S k))); apply triple_eq in Hm as (<- & <- & <-);
    cbn [andb added0 d_hard_brake d_hard_events d_aggr_turn d_aggr_events d_speeding d_moving d_manual d_imu d_night
      d_brake_any d_turn_any]; rewrite ?ms_if_one; unfold one_if;
    first [reflexivity | ring | (intros Hc; (discriminate Hc || reflexivity))].
Qed.

Lemma walked_derived k w o d b t g : hop (S k) = true -> has_imu r = false -> walked k w ->
  o = accumulate (prefix_idx r (S k)) (exposure parse_stamp r (S k) (allowed (S k))) (out w) ->
  derived L r (S k) (allowed (S k)) (in_brake_run w) (turn_streak w) = (d, b, t) -> g = grace_in (S (S k)) ->
  walked (S k) (mkWalk (accumulate (prefix_idx r (S k)) d o) b (in_turn_run w) t g).
Proof.
  intros Hh Hi Hw Ho Hm Hg. unfold derived in Hm. rewrite (w_brake _ _ Hw), (w_streak _ _ Hw Hi) in Hm.
  assert (brake_hard (S k) = derived_brake_hard L r (S k) (allowed (S k))) as B1 by (unfold brake_hard; by rewrite Hh, Hi).
  assert (brake_any (S k) = derived_brake_any L r (S k) (allowed (S k))) as B2 by (unfold brake_any; by rewrite Hh, Hi).
  assert (turn_hard (S k) = derived_turn L r AGGR_TURN_MPS2 (S k) (allowed (S k))) as B3 by (unfold turn_hard; by rewrite Hh, Hi).
  assert (turn_any (S k) = derived_turn L r ANY_TURN_MPS2 (S k) (allowed (S k))) as B4 by (unfold turn_any; by rewrite Hh, Hi).
  rewrite <- B1, <- B2, <- B3, <- B4 in Hm.
  change (if turn_hard (S k) then streak k + 1 else 0) with (streak (S k)) in Hm.
  assert ((streak (S k) =? 2) = second_of_run turn_hard (S k) /\
    (if streak (S k) =? 2 then 2 * interval_ms r else if 2 <? streak (S k) then interval_ms r else 0)
    = interval_ms r * (if turn_hard (S k) && turn_hard k then if turn_hard (k - 1)%nat then 1 else 2 else 0)) as (K1 & K2).
  { clear. unfold second_of_run. rewrite !Nat.sub_succ, Nat.sub_0_r. cbn [streak].
    destruct (turn_hard (S k)); cbn [andb]; [|split; [reflexivity|rewrite ?Z.mul_0_r; try reflexivity; ring]]. destruct (turn_hard k) eqn:T2; cbn [andb].
    2: { rewrite (streak_0 k T2). split; [reflexivity|rewrite ?Z.mul_0_r; try reflexivity; ring]. }
    destruct k as [|k]; [discriminate T2|]. cbn [streak]. rewrite T2. replace (S k - 1)%nat with k by lia.
    destruct (turn_hard k) eqn:T3; cbn [negb].
    - pose proof (streak_pos k T3). rewrite (proj2 (Z.eqb_neq _ _)), (proj2 (Z.ltb_lt _ _)) by lia. split; [reflexivity|lia].
    - rewrite (streak_0 k T3). split; [reflexivity|]. change (0 + 1 + 1 =? 2) with true. cbv iota. ring. }
  rewrite K1 in Hm at 2. rewrite K2 in Hm. apply triple_eq in Hm as (<- & <- & <-).
  apply (walked_add k w); try assumption; unfold run_start; rewrite ?Hi, ?Nat.sub_succ, ?Nat.sub_0_r; cbn [d_hard_brake d_hard_events
    d_aggr_turn d_aggr_events d_speeding d_moving d_manual d_imu d_night d_brake_any d_turn_any]; rewrite ?ms_if_one; try reflexivity.
  all: intros Hc; first [discriminate Hc | reflexivity].
Qed.

Lemma walked_step k w : walked k w -> walked (S k) (step L parse_stamp r w (S k)).
Proof.
  intros Hw. unfold step. rewrite (w_grace k w Hw).
  change (driver_controls_factor (ap r (S k)) (pedal r (S k)) && F64.le (armed_grace r (S k) (grace_in (S k))) F64.zero)
    with (allowed (S k)).
  assert (spent_grace r (armed_grace r (S k) (grace_in (S k))) = grace_in (S (S k))) as Hg by done.
  destruct (negb (valid r (S k)) || negb (valid r (S k - 1))) eqn:Hv.
  - apply walked_skip; [|done|done]. unfold hop. cbn [Nat.leb andb]. by destruct (valid r (S k)), (valid r (S k - 1)).
  - assert (hop (S k) = true) as Hh by (unfold hop; cbn [Nat.leb andb]; by destruct (valid r (S k)), (valid r (S k - 1))).
    destruct (has_imu r) eqn:Hi.
    + destruct (measured r (S k) (allowed (S k)) (in_brake_run w) (in_turn_run w)) as [[d b] t] eqn:Em. by eapply walked_measured.
    + destruct (derived L r (S k) (allowed (S k)) (in_brake_run w) (turn_streak w)) as [[d b] t] eqn:Em. by eapply walked_derived.
Qed.

Lemma walk_walked : walked (n r - 1) (walk L parse_stamp r).
Proof.
  unfold walk. induction (n r - 1)%nat as [|k IH]; [apply walked_0|].
  rewrite seq_S, foldl_app. cbn [foldl Nat.add]. by apply walked_step.
Qed.

(** *** Numerators within denominators *)

End reference.

(** C31: the single pass over a clip computes what counting computes. With the
    clip's samples an interval apart: hard-braking, braking, turning, speeding,
    moving, manual and night time are the interval times the number of samples
    that have the property themselves; a hard-braking event is a maximal run of
    hard-braking samples. With an acceleration sensor the same holds of hard
    turns; without one a hard turn counts only in runs of two or more, all of
    its samples included, once per run. The only history in the properties is
    the five-second grace after assistance switches off. *)
Theorem clip_safety_counts L parse_stamp r : (2 <= n r)%nat -> has_sei_speeds r = true ->
  let c := compute_clip_safety L parse_stamp r in
  let ms p := interval_ms r * tally p (n r - 1) in
  let times p := tally p (n r - 1) in
  hard_brake_ms c = ms (brake_hard L r) /\ brake_any_ms c = ms (brake_any L r) /\
  hard_brake_events c = times (run_start (brake_hard L r)) /\
  turn_any_ms c = ms (turn_any L r) /\
  (if has_imu r
   then aggr_turn_ms c = ms (turn_hard L r) /\ aggr_turn_events c = times (run_start (turn_hard L r))
   else aggr_turn_ms c = ms (sustained (turn_hard L r) (n r - 1)) /\
        aggr_turn_events c = times (second_of_run (turn_hard L r))) /\
  speeding_ms c = ms (speeding r) /\ moving_ms c = ms (moving r) /\ manual_moving_ms c = ms (manual r) /\
  imu_moving_ms c = (if has_imu r then ms (moving r) else 0) /\ night_ms c = ms (night parse_stamp r).
Proof.
  intros Hn Hs. unfold compute_clip_safety. rewrite (proj2 (Nat.ltb_ge _ _) Hn), Hs. cbn [orb negb].
  destruct (walk_walked L parse_stamp r) as [_ _ _ _ W1 W2 W3 W4 W5 W6 W7 W8 W9 W10 W11]. cbv zeta.
  cbn [hard_brake_ms hard_brake_events brake_any_ms turn_any_ms aggr_turn_ms aggr_turn_events speeding_ms moving_ms
    manual_moving_ms imu_moving_ms night_ms]. rewrite W1, W2, W3, W4, W5, W6, W7, W8, W9, W10, W11.
  by destruct (has_imu r); split_and!.
Qed.

(** A clip of five samples 15 seconds apart: two hard-braking samples in a row,
    the second of two turns hard, assistance off throughout. *)
Definition demo_route : Route :=
  let f32 z := F64.to_f32 (F64.of_Z z) in
  let pt k := (F64.dec (400000 + k) 4, F64.of_Z (-73)) in
  mkRoute (lit "RecentClips/2026-01-02_23-30-00-front.mp4") (lit "2026-01-02") [pt 0; pt 1; pt 2; pt 3; pt 4]
    [] [] [f32 20; f32 20; f32 15; f32 10; f32 40] [] 0 0 [] [] []
    [f32 0; f32 3; f32 0; f32 5; f32 0] [f32 0; f32 1; f32 4; f32 5; f32 0] None None None ble_empty.
Definition no_libm : libm := mkLibm (fun x => x) (fun x => x) (fun x => x) (fun x => x) (fun x y => x) (fun x => x).

Example demo_safety :
  let c := compute_clip_safety no_libm (fun _ => Some (23 * 3600000 + 1800000)) demo_route in
  (hard_brake_ms c, hard_brake_events c, brake_any_ms c, aggr_turn_ms c, aggr_turn_events c, turn_any_ms c)
  = (30000, 1, 45000, 15000, 1, 30000) /\
  (speeding_ms c, moving_ms c, manual_moving_ms c, imu_moving_ms c, night_ms c, night_weighted_ms c)
  = (15000, 60000, 60000, 60000, 60000, 12600).
Proof. vm_compute. done. Qed.

Lemma clip_safety_counts_witness :
  let c := compute_clip_safety no_libm (fun _ => None) demo_route in
  (2 <= n demo_route)%nat /\ has_sei_speeds demo_route = true /\
  hard_brake_events c = tally (run_start (brake_hard no_libm demo_route)) (n demo_route - 1).
Proof.
  assert (2 <= n demo_route)%nat as Hn by (vm_compute; lia).
  assert (has_sei_speeds demo_route = true) as Hs by (vm_compute; reflexivity).
  split; [exact Hn|]. split; [exact Hs|].
  exact (proj1 (proj2 (proj2 (clip_safety_counts no_libm (fun _ => None) demo_route Hn Hs)))).
Defined.
