(* ===== verification/Aggregate.v ===== *)
(** * Per-clip aggregates ([crates/drives/src/aggregate.rs])

    [compute_route_aggregates]: the scalars of one clip, in one pass over its
    points, with the state a drive needs at the clip's two ends. Float arithmetic
    is IEEE 754 with the trigonometry a parameter. *)

From Stdlib Require Import ZArith Lia.
From stdpp Require Import base list.
From S2P Require Import Prelude Float Types Str Calc Grouper Safety.

Open Scope Z_scope.

Module Aggregate.

Record RouteAggregates := mkAgg {
  distance_m : Z; max_speed_mps : Z; avg_speed_mps : Z; speed_sample_count : Z; valid_point_count : Z;
  fsd_engaged_ms : Z; autosteer_engaged_ms : Z; tacc_engaged_ms : Z;
  fsd_distance_m : Z; autosteer_distance_m : Z; tacc_distance_m : Z; assisted_distance_m : Z;
  fsd_disengagements : Z; fsd_accel_pushes : Z;
  fsd_pend_ms_end : option Z; park_ms_start : option Z; fsd_at_end : bool; fsd_accel_pushes_early : Z;
  ap_at_start : option Z;
  start_lat : option Z; start_lng : option Z; end_lat : option Z; end_lng : option Z;
  sei_speed_abs_max : option Z;
  safety_hard_brake_ms : option Z; safety_hard_brake_events : option Z;
  safety_aggr_turn_ms : option Z; safety_aggr_turn_events : option Z; safety_speeding_ms : option Z;
  safety_moving_ms : option Z; safety_manual_moving_ms : option Z;
  safety_brake_any_ms : option Z; safety_turn_any_ms : option Z;
  ap_at_end : option Z; safety_imu_moving_ms : option Z; safety_night_ms : option Z; safety_night_weighted_ms : option Z;
  safety_grace_ms_end : option Z; safety_grace_prefix : option (list Safety.SafetyPrefixBucket);
}.
(** [RouteAggregates::default()] with its end points and point count. *)
Definition bare_aggregates (valid_points : Z) (start end_ : option GpsPoint) : RouteAggregates :=
  mkAgg 0 0 0 0 valid_points 0 0 0 0 0 0 0 0 0 None None false 0 None
    (fst <$> start) (snd <$> start) (fst <$> end_) (snd <$> end_)
    None None None None None None None None None None None None None None None None.
Definition no_aggregates : RouteAggregates := bare_aggregates 0 None None.

Definition null_island (p : GpsPoint) : bool := is_null_island (fst p) (snd p).

(** *** Park intervals *)

(** Runs of Park in the per-point channel; [start] is the open run. *)
Fixpoint point_parks (dt_ms : Z) (i : nat) (start : option nat) (gears : list Z) : list (Z * Z) :=
  let at_ k := F64.mul (F64.of_Z (Z.of_nat k)) dt_ms in
  match gears with
  | [] => match start with Some s => [(at_ s, Safety.CLIP_MS)] | None => [] end
  | g :: t =>
      match g =? GEAR_PARK, start with
      | true, None => point_parks dt_ms (S i) (Some i) t
      | false, Some s => (at_ s, at_ i) :: point_parks dt_ms (S i) None t
      | _, _ => point_parks dt_ms (S i) start t
      end
  end.

Section clip.
Context (L : libm) (parse_stamp : str -> option Z) (r : Route).

Definition n : nat := length (rt_points r).
Definition has_ap : bool := (length (rt_autopilot_states r) =? n)%nat.
Definition has_gears : bool := (length (rt_gear_states r) =? n)%nat.
Definition has_accel : bool := (length (rt_accel_positions r) =? n)%nat.
Definition has_speeds_channel : bool := (length (rt_speeds r) =? n)%nat.
Definition has_sei_speeds : bool := has_speeds_channel && existsb (F32.lt F32.zero) (rt_speeds r).
Definition dt_ms : Z := F64.div Safety.CLIP_MS (F64.sub (F64.of_Z (Z.of_nat n)) f1).
Definition dt_sec : Z := F64.div dt_ms (F64.of_Z 1000).
Definition point (i : nat) : GpsPoint := nth i (rt_points r) (0, 0).
Definition ap (i : nat) : Z := nth i (rt_autopilot_states r) 0.
Definition ms_of (k : nat) : Z := F64.mul (F64.of_Z (Z.of_nat k)) dt_ms.

Definition park_iv : list (Z * Z) :=
  let gear_total := sum_Z (gr_frames <$> rt_gear_runs r) in
  if 0 <? gear_total
  then Safety.intervals (F64.div Safety.CLIP_MS (F64.of_Z gear_total)) 0
         ((fun run => (gr_gear run =? GEAR_PARK, gr_frames run)) <$> rt_gear_runs r)
  else if has_gears then point_parks dt_ms 0 None (rt_gear_states r)
  else [].

Definition is_park_at (ms : Z) : bool := existsb (fun iv : Z * Z => F64.le (fst iv) ms && F64.lt ms (snd iv)) park_iv.

Definition engaged_from_start : bool := has_ap && (ap 0 =? AUTOPILOT_FSD).

(** *** The pass *)

Record Pass := mkPass {
  p_distance : Z; p_abs_max : Z; p_speed_sum : Z; p_speed_count : Z; p_max_speed : Z;
  p_assisted : Z; p_fsd_ms : Z; p_fsd : Z; p_autosteer_ms : Z; p_autosteer : Z; p_tacc_ms : Z; p_tacc : Z;
  in_accel_press : bool; accel_press_early : bool; fsd_engage_idx : option nat; pending_disengage : option nat;
  p_disengagements : Z; p_pushes : Z; p_pushes_early : Z;
}.

(** The hop [i] enters the sums: two real positions, no teleport. *)
Definition hop_m (i : nat) : option Z :=
  if null_island (point (i - 1)) || null_island (point i) then None
  else
    let d := geodesic_m L (fst (point (i - 1))) (snd (point (i - 1))) (fst (point i)) (snd (point i)) in
    if negb has_sei_speeds && F64.lt F64.zero dt_sec && F64.lt (F64.of_Z 70) (F64.div d dt_sec) then None else Some d.

Definition sei_speed (i : nat) : Z := F32.to_f64 (nth i (rt_speeds r) 0).

(** The speed sample of hop [i], if it is plausible. *)
Definition speed_sample (i : nat) (d : Z) : option Z :=
  if has_sei_speeds
  then if F64.le F64.zero (sei_speed i) && F64.lt (sei_speed i) (F64.of_Z 100) then Some (sei_speed i) else None
  else if F64.lt F64.zero dt_sec
  then let speed := F64.div d dt_sec in if F64.lt speed (F64.of_Z 70) then Some speed else None
  else None.

Definition account_motion (i : nat) (d : Z) (p : Pass) : Pass :=
  let abs_max := if has_speeds_channel && F64.lt (F64.abs (sei_speed i)) (F64.of_Z 100)
                    && F64.lt (p_abs_max p) (F64.abs (sei_speed i))
                 then F64.abs (sei_speed i) else p_abs_max p in
  let '(sum, count, max) :=
    match speed_sample i d with
    | Some v => (F64.add (p_speed_sum p) v, p_speed_count p + 1, if F64.lt (p_max_speed p) v then v else p_max_speed p)
    | None => (p_speed_sum p, p_speed_count p, p_max_speed p)
    end in
  mkPass (F64.add (p_distance p) d) abs_max sum count max (p_assisted p) (p_fsd_ms p) (p_fsd p) (p_autosteer_ms p)
    (p_autosteer p) (p_tacc_ms p) (p_tacc p) (in_accel_press p) (accel_press_early p) (fsd_engage_idx p)
    (pending_disengage p) (p_disengagements p) (p_pushes p) (p_pushes_early p).

Definition whole_dt : Z := F64.to_i64 dt_ms.

Definition account_mode (i : nat) (d : Z) (p : Pass) : Pass :=
  if ap i =? AUTOPILOT_OFF then p
  else
    let ms_m mode ms m := if ap i =? mode then (ms + whole_dt, F64.add m d) else (ms, m) in
    let '(fsd_ms, fsd) := ms_m AUTOPILOT_FSD (p_fsd_ms p) (p_fsd p) in
    let '(as_ms, as_m) := ms_m AUTOPILOT_AUTOSTEER (p_autosteer_ms p) (p_autosteer p) in
    let '(ta_ms, ta_m) := ms_m AUTOPILOT_TACC (p_tacc_ms p) (p_tacc p) in
    mkPass (p_distance p) (p_abs_max p) (p_speed_sum p) (p_speed_count p) (p_max_speed p)
      (F64.add (p_assisted p) d) fsd_ms fsd as_ms as_m ta_ms ta_m (in_accel_press p) (accel_press_early p) (fsd_engage_idx p)
      (pending_disengage p) (p_disengagements p) (p_pushes p) (p_pushes_early p).

(** The event state: press, early press, engagement, pending, counts. *)
Record Events := mkEvents {
  e_press : bool; e_early : bool; e_engage : option nat; e_pending : option nat;
  e_disengagements : Z; e_pushes : Z; e_pushes_early : Z;
}.

Definition GRACE_PARK_MS : Z := F64.of_Z 2000.
Definition GRACE_ENGAGE_MS : Z := F64.of_Z 3000.

Definition engage (i : nat) (e : Events) : Events :=
  if negb (ap (i - 1) =? AUTOPILOT_FSD) && (ap i =? AUTOPILOT_FSD)
  then mkEvents false (e_early e) (Some i) (e_pending e) (e_disengagements e) (e_pushes e) (e_pushes_early e)
  else e.

Definition resolve (i : nat) (e : Events) : Events :=
  match e_pending e with
  | Some j =>
      let time_since_ms := ms_of (i - j) in
      if is_park_at (ms_of i) && F64.le time_since_ms GRACE_PARK_MS
      then mkEvents (e_press e) (e_early e) (e_engage e) None (e_disengagements e) (e_pushes e) (e_pushes_early e)
      else if F64.lt GRACE_PARK_MS time_since_ms || (ap i =? AUTOPILOT_FSD)
      then mkEvents (e_press e) (e_early e) (e_engage e) None (e_disengagements e + 1) (e_pushes e) (e_pushes_early e)
      else e
  | None => e
  end.

Definition disengage (i : nat) (e : Events) : Events :=
  if (ap (i - 1) =? AUTOPILOT_FSD) && negb (ap i =? AUTOPILOT_FSD)
  then mkEvents false (e_early e) (e_engage e) (Some i) (e_disengagements e) (e_pushes e) (e_pushes_early e)
  else e.

Definition accel_pct (i : nat) : Z :=
  let v := F32.to_f64 (nth i (rt_accel_positions r) 0) in
  if F64.le v f1 then F64.mul v (F64.of_Z 100) else v.

Definition press (i : nat) (e : Events) : Events :=
  if (ap i =? AUTOPILOT_FSD) && has_accel then
    let since := match e_engage e with Some j => ms_of (i - j) | None => F64.zero end in
    if negb (e_press e) && F64.lt f1 (accel_pct i) then
      if F64.le GRACE_ENGAGE_MS since
      then mkEvents true false (e_engage e) (e_pending e) (e_disengagements e) (e_pushes e) (e_pushes_early e)
      else if engaged_from_start && bool_decide (e_engage e = Some 0%nat)
      then mkEvents true true (e_engage e) (e_pending e) (e_disengagements e) (e_pushes e) (e_pushes_early e)
      else e
    else if e_press e && F64.le (accel_pct i) F64.zero then
      if e_early e
      then mkEvents false (e_early e) (e_engage e) (e_pending e) (e_disengagements e) (e_pushes e) (e_pushes_early e + 1)
      else mkEvents false (e_early e) (e_engage e) (e_pending e) (e_disengagements e) (e_pushes e + 1) (e_pushes_early e)
    else e
  else if negb (ap i =? AUTOPILOT_FSD)
  then mkEvents false (e_early e) (e_engage e) (e_pending e) (e_disengagements e) (e_pushes e) (e_pushes_early e)
  else e.

Definition events_at (i : nat) (e : Events) : Events := press i (disengage i (resolve i (engage i e))).

Definition events_of (p : Pass) : Events :=
  mkEvents (in_accel_press p) (accel_press_early p) (fsd_engage_idx p) (pending_disengage p) (p_disengagements p)
    (p_pushes p) (p_pushes_early p).
Definition with_events (p : Pass) (e : Events) : Pass :=
  mkPass (p_distance p) (p_abs_max p) (p_speed_sum p) (p_speed_count p) (p_max_speed p) (p_assisted p) (p_fsd_ms p) (p_fsd p)
    (p_autosteer_ms p) (p_autosteer p) (p_tacc_ms p) (p_tacc p) (e_press e) (e_early e) (e_engage e) (e_pending e)
    (e_disengagements e) (e_pushes e) (e_pushes_early e).

(** One iteration of the loop. *)
Definition step (p : Pass) (i : nat) : Pass :=
  match hop_m i with
  | None => p
  | Some d =>
      let p := account_motion i d p in
      if has_ap then let p := account_mode i d p in with_events p (events_at i (events_of p)) else p
  end.

Definition pass0 : Pass :=
  mkPass 0 0 0 0 0 0 0 0 0 0 0 0 false false (if engaged_from_start then Some 0%nat else None) None 0 0 0.
Definition pass : Pass := foldl step pass0 (seq 1 (n - 1)).

(** The pending disengagement at the clip's end. *)
Definition flush (p : Pass) : Z * option Z :=
  match pending_disengage p with
  | Some j =>
      let elapsed_ms := ms_of (n - 1 - j) in
      if F64.lt GRACE_PARK_MS elapsed_ms then (p_disengagements p + 1, None) else (p_disengagements p, Some elapsed_ms)
  | None => (p_disengagements p, None)
  end.

Definition compute_route_aggregates : RouteAggregates :=
  if (n =? 0)%nat then no_aggregates
  else
    let real := List.filter (fun p => negb (null_island p)) (rt_points r) in
    let start := head real in
    let end_ := last real in
    let valid_points := Z.of_nat (length real) in
    if (n <? 2)%nat then bare_aggregates valid_points start end_
    else
      let p := pass in
      let '(disengagements, pend) := flush p in
      let cs := Safety.compute_clip_safety L parse_stamp r in
      mkAgg (p_distance p) (p_max_speed p)
        (if 0 <? p_speed_count p then F64.div (p_speed_sum p) (F64.of_Z (p_speed_count p)) else F64.zero)
        (p_speed_count p) valid_points (p_fsd_ms p) (p_autosteer_ms p) (p_tacc_ms p) (p_fsd p) (p_autosteer p) (p_tacc p)
        (p_assisted p) disengagements (p_pushes p) pend
        (fst <$> List.find (fun iv : Z * Z => F64.lt (fst iv) GRACE_PARK_MS) park_iv)
        (has_ap && (ap (n - 1) =? AUTOPILOT_FSD)) (p_pushes_early p) (if has_ap then Some (ap 0) else None)
        (fst <$> start) (snd <$> start) (fst <$> end_) (snd <$> end_)
        (if has_speeds_channel then Some (p_abs_max p) else None)
        (Some (Safety.hard_brake_ms cs)) (Some (Safety.hard_brake_events cs))
        (Some (Safety.aggr_turn_ms cs)) (Some (Safety.aggr_turn_events cs)) (Some (Safety.speeding_ms cs))
        (Some (Safety.moving_ms cs)) (Some (Safety.manual_moving_ms cs))
        (Some (Safety.brake_any_ms cs)) (Some (Safety.turn_any_ms cs))
        (Safety.ap_at_end cs) (Some (Safety.imu_moving_ms cs)) (Some (Safety.night_ms cs)) (Some (Safety.night_weighted_ms cs))
        (Some (Safety.grace_ms_end cs)) (Some (Safety.grace_prefix cs)).

End clip.

End Aggregate.
