(* ===== verification/AggregateSpec.v ===== *)
(** * Per-clip aggregates: theorems

    Each disengagement of FSD is judged on its own: the pass with its single
    pending slot counts exactly those that no Park within two seconds excuses. *)

From Stdlib Require Import ZArith Lia SpecFloat.
From stdpp Require Import base list.
From S2P Require Import Prelude Float Types Str Calc Grouper Safety SafetySpec Aggregate.

Import Aggregate.
Open Scope Z_scope.

Section reference.
Context (L : libm) (r : Route).
Notation ap := (ap r).
Notation ms_of := (ms_of r).

(** FSD is on at sample [j - 1] and off at sample [j]. *)
Definition drop_at (j : nat) : bool := (1 <=? j)%nat && (ap (j - 1) =? AUTOPILOT_FSD) && negb (ap j =? AUTOPILOT_FSD).

(** What sample [i] says about the drop at [j]: [Some false] excuses it. *)
Definition judge (j i : nat) : option bool :=
  if is_park_at r (ms_of i) && F64.le (ms_of (i - j)) GRACE_PARK_MS then Some false
  else if F64.lt GRACE_PARK_MS (ms_of (i - j)) || (ap i =? AUTOPILOT_FSD) then Some true
  else None.

(** The first sample after [j], up to [m], that decides. *)
Fixpoint verdict (j m : nat) : option bool :=
  match m with
  | O => None
  | S k => if (j <=? k)%nat
           then match verdict j k with Some v => Some v | None => judge j (S k) end
           else None
  end.

Definition counted (m j : nat) : bool := drop_at j && bool_decide (verdict j m = Some true).

Lemma verdict_S j k : (j <= k)%nat -> verdict j (S k) = match verdict j k with Some v => Some v | None => judge j (S k) end.
Proof. intros H. cbn [verdict]. by rewrite (proj2 (Nat.leb_le _ _) H). Qed.

Lemma verdict_late j m : (m <= j)%nat -> verdict j m = None.
Proof. destruct m; [done|]. cbn [verdict]. intros H. by rewrite (proj2 (Nat.leb_gt _ _)) by lia. Qed.

(** The state of the events after [m] samples. *)
Record judged (m : nat) (e : Events) : Prop := {
  j_open : match e_pending e with
           | Some j => (j <= m)%nat /\ drop_at j = true /\ verdict j m = None
           | None => True
           end;
  j_rest : forall j, (j <= m)%nat -> drop_at j = true -> e_pending e <> Some j -> verdict j m <> None;
  j_count : e_disengagements e = tally (counted m) m
}.

(** A drop still open has seen neither FSD nor the end of its grace. *)
Lemma open_off j m : drop_at j = true -> (j <= m)%nat -> verdict j m = None -> (ap m =? AUTOPILOT_FSD) = false.
Proof.
  intros Hd Hj Hv. destruct (decide (j = m)) as [->|Hne].
  - unfold drop_at in Hd. by apply andb_true_iff in Hd as [_ ?%negb_true_iff].
  - destruct m as [|m]; [lia|]. rewrite verdict_S in Hv by lia. destruct (verdict j m); [done|].
    unfold judge in Hv. destruct (_ && _); [done|]. by destruct (F64.lt _ _), (ap (S m) =? AUTOPILOT_FSD).
Qed.

Lemma tally_one p q j k : (forall i, i <> j -> p i = q i) -> (1 <= j <= k)%nat -> q j = false ->
  tally p k = tally q k + Safety.one_if (p j).
Proof.
  intros H Hj Hq. induction k as [|k IH]; [lia|]. rewrite !tally_S. destruct (decide (j = S k)) as [->|Hne].
  - rewrite Hq. rewrite (tally_ext p q) by (intros; apply H; lia). cbn [Safety.one_if]. lia.
  - rewrite IH by lia. rewrite (H (S k)) by done. lia.
Qed.

Lemma tally_S_judged m : tally (counted (S m)) (S m) = tally (counted (S m)) m.
Proof.
  rewrite tally_S. unfold counted at 2. rewrite verdict_late by lia. rewrite bool_decide_false by done.
  rewrite andb_false_r. cbn. lia.
Qed.

(** Sample [S m] decided the open drop or left it open. *)
Record resolved (m : nat) (e : Events) : Prop := {
  r_open : match e_pending e with
           | Some j => (j <= m)%nat /\ drop_at j = true /\ verdict j (S m) = None
           | None => True
           end;
  r_rest : forall j, (j <= m)%nat -> drop_at j = true -> e_pending e <> Some j -> verdict j (S m) <> None;
  r_count : e_disengagements e = tally (counted (S m)) m
}.

(** The drops that are not open keep their verdict. *)
Lemma counted_kept m e i : judged m e -> (i <= m)%nat -> e_pending e <> Some i -> counted (S m) i = counted m i.
Proof.
  intros [_ Hr _] Him Hne. unfold counted. destruct (drop_at i) eqn:Edi; [|done]. rewrite verdict_S by lia.
  destruct (verdict i m) eqn:Evi; [done|]. by destruct (Hr i Him Edi Hne).
Qed.

Lemma verdict_kept m e i : judged m e -> (i <= m)%nat -> drop_at i = true -> e_pending e <> Some i -> verdict i (S m) <> None.
Proof.
  intros [_ Hr _] Him Hd Hne. rewrite verdict_S by lia. destruct (verdict i m) eqn:E; [done|]. by destruct (Hr i Him Hd Hne).
Qed.

Lemma counted_open m e j : judged m e -> e_pending e = Some j ->
  tally (counted (S m)) m = e_disengagements e + Safety.one_if (bool_decide (judge j (S m) = Some true)).
Proof.
  intros J Ej. pose proof (j_open _ _ J) as Ho. rewrite Ej in Ho. destruct Ho as (Hj & Hd & Hv). rewrite (j_count _ _ J).
  assert (1 <= j)%nat as Hj1 by (destruct j; [done|lia]).
  rewrite (tally_one (counted (S m)) (fun i => if (i =? j)%nat then false else counted (S m) i) j m).
  - unfold counted at 2. rewrite verdict_S, Hv, Hd by lia. cbn [andb]. f_equal. apply tally_ext. intros i Hi.
    destruct (Nat.eqb_spec i j) as [->|Hne]; [unfold counted; rewrite Hv, bool_decide_false by done; by rewrite andb_false_r|].
    eapply counted_kept; [done|lia|congruence].
  - intros i Hi. by rewrite (proj2 (Nat.eqb_neq _ _) Hi).
  - lia.
  - by rewrite Nat.eqb_refl.
Qed.

Lemma judged_resolve m e : judged m e -> resolved m (resolve r (S m) e).
Proof.
  intros J. unfold resolve. destruct (e_pending e) as [j|] eqn:Ej.
  - pose proof (counted_open m e j J Ej) as Ht. pose proof (verdict_kept m e) as Hk.
    pose proof (j_open _ _ J) as Ho. rewrite Ej in Ho. destruct Ho as (Hj & Hd & Hv).
    assert (verdict j (S m) = judge j (S m)) as Hs by (rewrite verdict_S by lia; by rewrite Hv).
    unfold judge in *. destruct (is_park_at r (ms_of (S m)) && F64.le (ms_of (S m - j)) GRACE_PARK_MS);
      [|destruct (F64.lt GRACE_PARK_MS (ms_of (S m - j)) || (ap (S m) =? AUTOPILOT_FSD))].
    1,2: split; cbn [e_pending e_disengagements]; [done| |rewrite Ht; case_bool_decide; cbn; done || lia];
      intros i Hi Hdi _; destruct (decide (i = j)) as [->|Hne]; [by rewrite Hs|apply Hk; [done|done|done|congruence]].
    split; [by rewrite Ej|intros; by apply Hk|]. rewrite Ht, bool_decide_false by done. cbn. lia.
  - split; [by rewrite Ej| |].
    + intros i Hi Hd _. eapply verdict_kept; [done|done|done|congruence].
    + rewrite (j_count _ _ J). symmetry. apply tally_ext. intros i Hi. eapply counted_kept; [done|lia|congruence].
Qed.

(** A new drop needs none open: FSD is on before it. *)
Lemma judged_disengage m e : resolved m e -> judged (S m) (disengage r (S m) e).
Proof.
  intros [R1 R2 R3].
  assert (drop_at (S m) = (ap m =? AUTOPILOT_FSD) && negb (ap (S m) =? AUTOPILOT_FSD)) as Hds.
  { unfold drop_at. by replace (S m - 1)%nat with m by lia. }
  split; rewrite ?tally_S_judged; unfold disengage; replace (S m - 1)%nat with m by lia; rewrite <- ?Hds;
    destruct (drop_at (S m)) eqn:Ed; cbn [e_pending e_disengagements]; try done.
  - split; [lia|]. split; [done|]. by apply verdict_late.
  - destruct (e_pending e); [|done]. destruct R1 as (? & ? & ?). split; [lia|done].
  - intros j Hj Hdj Hne. assert (j <> S m) by congruence. apply R2; [lia|done|]. intros Hpj. rewrite Hpj in R1.
    destruct R1 as (_ & Hdj' & Hv). assert ((ap m =? AUTOPILOT_FSD) = true) as Hm by (symmetry in Hds; by apply andb_true_iff in Hds as [? _]).
    assert (verdict j m = None) as Hvm by (rewrite verdict_S in Hv by lia; by destruct (verdict j m)).
    rewrite (open_off j m Hdj' ltac:(lia) Hvm) in Hm. done.
  - intros j Hj Hdj Hne. assert (j <> S m) by congruence. apply R2; [lia|done|done].
Qed.

Lemma judged_same m e e' : e_pending e' = e_pending e -> e_disengagements e' = e_disengagements e -> judged m e -> judged m e'.
Proof. intros E1 E2 [H1 H2 H3]. split; rewrite ?E1, ?E2; done. Qed.

Lemma judged_step m e : judged m e -> judged (S m) (events_at r (S m) e).
Proof.
  intros J. unfold events_at. set (e1 := engage r (S m) e). assert (judged m e1) as J1.
  { eapply judged_same; [| |exact J]; unfold e1, engage; by destruct (_ && _). }
  pose proof (judged_disengage m _ (judged_resolve m e1 J1)) as J2.
  eapply judged_same; [| |exact J2]; unfold press; repeat match goal with |- context [if ?b then _ else _] => destruct b end; done.
Qed.

Definition mode (v : Z) (i : nat) : bool := ap i =? v.

Record passed (m : nat) (p : Pass) : Prop := {
  pp_events : judged m (events_of p);
  pp_fsd : p_fsd_ms p = whole_dt r * tally (mode AUTOPILOT_FSD) m;
  pp_autosteer : p_autosteer_ms p = whole_dt r * tally (mode AUTOPILOT_AUTOSTEER) m;
  pp_tacc : p_tacc_ms p = whole_dt r * tally (mode AUTOPILOT_TACC) m
}.

Lemma account_motion_keeps i d p : let q := account_motion r i d p in
  events_of q = events_of p /\ p_fsd_ms q = p_fsd_ms p /\ p_autosteer_ms q = p_autosteer_ms p /\ p_tacc_ms q = p_tacc_ms p.
Proof. unfold account_motion. by destruct (speed_sample r i d). Qed.

Lemma account_mode_ms i d p : let q := account_mode r i d p in
  events_of q = events_of p /\ p_fsd_ms q = p_fsd_ms p + whole_dt r * Safety.one_if (mode AUTOPILOT_FSD i) /\
  p_autosteer_ms q = p_autosteer_ms p + whole_dt r * Safety.one_if (mode AUTOPILOT_AUTOSTEER i) /\
  p_tacc_ms q = p_tacc_ms p + whole_dt r * Safety.one_if (mode AUTOPILOT_TACC i).
Proof.
  unfold account_mode, mode. generalize (whole_dt r) as w. intros w. destruct (Z.eqb_spec (ap i) AUTOPILOT_OFF) as [->|].
  { cbn [Z.eqb AUTOPILOT_OFF AUTOPILOT_FSD AUTOPILOT_AUTOSTEER AUTOPILOT_TACC Safety.one_if]. rewrite Z.mul_0_r, !Z.add_0_r. done. }
  destruct (ap i =? AUTOPILOT_FSD), (ap i =? AUTOPILOT_AUTOSTEER), (ap i =? AUTOPILOT_TACC);
    cbn [events_of p_fsd_ms p_autosteer_ms p_tacc_ms Safety.one_if]; split_and!; done || lia.
Qed.

Lemma passed_step m p : has_ap r = true -> is_Some (hop_m L r (S m)) -> passed m p -> passed (S m) (step L r p (S m)).
Proof.
  intros Ha [d Hd] [P1 P2 P3 P4]. unfold step. rewrite Hd, Ha.
  destruct (account_motion_keeps (S m) d p) as (A1 & A2 & A3 & A4). set (q := account_motion r (S m) d p) in *. clearbody q.
  destruct (account_mode_ms (S m) d q) as (B1 & B2 & B3 & B4). set (u := account_mode r (S m) d q) in *. clearbody u.
  split; cbn [with_events p_fsd_ms p_autosteer_ms p_tacc_ms]; rewrite ?tally_S.
  - rewrite B1, A1. pose proof (judged_step m _ P1) as J.
    assert (events_of (with_events u (events_at r (S m) (events_of p))) = events_at r (S m) (events_of p)) as ->; [|done].
    by destruct (events_at r (S m) (events_of p)).
  - by rewrite B2, A2, P2, Z.mul_add_distr_l.
  - by rewrite B3, A3, P3, Z.mul_add_distr_l.
  - by rewrite B4, A4, P4, Z.mul_add_distr_l.
Qed.

Lemma passed_0 : passed 0 (pass0 r).
Proof.
  split; [|by rewrite tally_0, Z.mul_0_r..]. split; [done| |done]. intros j Hj Hd. unfold drop_at in Hd. by destruct j; [|lia].
Qed.

Lemma passed_pass : has_ap r = true -> (forall i, (1 <= i < n r)%nat -> is_Some (hop_m L r i)) -> passed (n r - 1) (pass L r).
Proof.
  intros Ha Hl. unfold pass. assert (n r - 1 <= n r - 1)%nat as H by lia. revert H. generalize (n r - 1)%nat at 1 3 4 as m.
  induction m as [|m IH]; intros Hm; [apply passed_0|].
  rewrite seq_S, foldl_app. cbn [foldl Nat.add]. apply passed_step; [done|apply Hl; lia|apply IH; lia].
Qed.

(** No grace has run out at its own sample. *)
Lemma grace_fresh j : F64.lt GRACE_PARK_MS (ms_of (j - j)) = false.
Proof.
  rewrite Nat.sub_diag. unfold Aggregate.ms_of, F64.lt, flt, F64.mul, fmul, fop2.
  change (decode_bits 52 11 (F64.of_Z (Z.of_nat 0))) with (S754_zero false).
  destruct (decode_bits 52 11 (dt_ms r)) as [[]|[]| |[]]; reflexivity.
Qed.

End reference.

(** C29: the disengagements of a clip are counted one by one. On a clip whose
    every hop is usable, the count is the number of times FSD switched off
    without Park within two seconds, each judged by its own first deciding
    sample: Park in time excuses it, the end of the grace or FSD switching on
    again counts it. An undecided one is handed to the next clip with the time
    already elapsed, and there is at most one. The time in each mode is the
    number of samples in it. *)
Theorem disengagements_judged L parse_stamp r :
  (2 <= n r)%nat -> has_ap r = true -> (forall i, (1 <= i < n r)%nat -> is_Some (hop_m L r i)) ->
  let a := compute_route_aggregates L parse_stamp r in
  let last := (n r - 1)%nat in
  fsd_disengagements a = tally (fun j => drop_at r j && bool_decide (verdict r j last = Some true)) last /\
  (match fsd_pend_ms_end a with
   | Some ms => exists j, (j <= last)%nat /\ drop_at r j = true /\ verdict r j last = None /\ ms = ms_of r (last - j) /\
                 forall k, (k <= last)%nat -> drop_at r k = true -> verdict r k last = None -> k = j
   | None => forall j, (j <= last)%nat -> drop_at r j = true -> verdict r j last <> None
   end) /\
  fsd_engaged_ms a = whole_dt r * tally (mode r AUTOPILOT_FSD) last /\
  autosteer_engaged_ms a = whole_dt r * tally (mode r AUTOPILOT_AUTOSTEER) last /\
  tacc_engaged_ms a = whole_dt r * tally (mode r AUTOPILOT_TACC) last.
Proof.
  intros Hn Ha Hl. destruct (passed_pass L r Ha Hl) as [[Ho Hr Hc] P2 P3 P4]. cbn [events_of e_pending e_disengagements] in *.
  unfold compute_route_aggregates. rewrite (proj2 (Nat.eqb_neq _ _)), (proj2 (Nat.ltb_ge _ _)) by lia. unfold flush.
  set (last := (n r - 1)%nat) in *. set (p := pass L r) in *. clearbody p. cbv zeta.
  destruct (pending_disengage p) as [j|].
  - destruct Ho as (Hj & Hd & Hv).
    assert (F64.lt GRACE_PARK_MS (ms_of r (last - j)) = false) as ->.
    { destruct (decide (j = last)) as [->|Hne]; [apply grace_fresh|]. destruct last as [|m]; [lia|].
      rewrite verdict_S in Hv by lia. destruct (verdict r j m); [done|]. unfold judge in Hv. destruct (_ && _); [done|].
      by destruct (F64.lt GRACE_PARK_MS (ms_of r (S m - j))). }
    cbn [fsd_disengagements fsd_pend_ms_end fsd_engaged_ms autosteer_engaged_ms tacc_engaged_ms]. split_and!; try done.
    exists j. split_and!; try done. intros k Hk Hdk Hvk. destruct (decide (k = j)) as [|Hne]; [done|].
    by destruct (Hr k Hk Hdk ltac:(congruence)).
  - cbn [fsd_disengagements fsd_pend_ms_end fsd_engaged_ms autosteer_engaged_ms tacc_engaged_ms]. split_and!; try done.
    intros j Hj Hd. by apply Hr.
Qed.

(** Clips at rest with the given autopilot states. The demonstration clip has
    seven samples ten seconds apart: FSD switches off at 2 and on again at 3, and
    off at 6, the last sample. *)
Definition fsd_demo (aps : list Z) (pts : list GpsPoint) : Route :=
  let f32 z := F64.to_f32 (F64.of_Z z) in
  mkRoute (lit "RecentClips/2026-01-02_10-00-00-front.mp4") (lit "2026-01-02") pts
    [] aps (replicate (length pts) (f32 10)) [] 0 0 [] [] [] [] [] None None None ble_empty.
Definition here : GpsPoint := (F64.of_Z 40, F64.of_Z (-73)).

Definition demo_clip : Route := fsd_demo [1; 1; 0; 1; 1; 1; 0] (replicate 7 here).

Lemma demo_hops i : (1 <= i < n demo_clip)%nat -> is_Some (hop_m no_libm demo_clip i).
Proof.
  intros Hi. change (n demo_clip) with 7%nat in Hi.
  do 7 (destruct i as [|i]; [first [lia | (vm_compute; by eexists)]|]). lia.
Qed.

Lemma disengagements_judged_witness :
  (2 <= n demo_clip)%nat /\ has_ap demo_clip = true /\
  fsd_disengagements (compute_route_aggregates no_libm (fun _ => None) demo_clip)
  = tally (fun j => drop_at demo_clip j && bool_decide (verdict demo_clip j 6 = Some true)) 6.
Proof.
  split; [change (n demo_clip) with 7%nat; lia|]. split; [reflexivity|].
  exact (proj1 (disengagements_judged no_libm (fun _ => None) demo_clip ltac:(change (n demo_clip) with 7%nat; lia) eq_refl demo_hops)).
Defined.

Example demo_aggregates :
  let a := compute_route_aggregates no_libm (fun _ => None) demo_clip in
  (fsd_disengagements a, fsd_pend_ms_end a, fsd_engaged_ms a, fsd_at_end a, ap_at_start a)
  = (1, Some F64.zero, 40000, false, Some 1).
Proof. vm_compute. reflexivity. Qed.

(** With unusable positions in between the claim fails: FSD switches on and off
    again while the position is unknown, and the first disengagement, still in its
    grace, is forgotten. 121 samples half a second apart. *)
Definition lost_clip : Route :=
  fsd_demo ([1; 0; 1; 1; 0] ++ replicate 116 0) ([here; here; (0, 0); here; here] ++ replicate 116 here).
Example disengagement_lost :
  fsd_disengagements (compute_route_aggregates no_libm (fun _ => None) lost_clip) = 1 /\
  tally (drop_at lost_clip) 120 = 2.
Proof. vm_compute. done. Qed.
