(* ===== verification/Summary.v ===== *)
(** * Grouping summary rows into drives ([crates/drives/src/grouper.rs])

    The Drives list is built without decoding points: [group_summary_clips]
    groups rows that carry the per-clip aggregates, cutting a clip at its park
    gaps into sub-clips. Timestamps are milliseconds. chrono's parser
    ([parse_iso]) and the iteration order of a [HashMap] ([hash_order]) are
    parameters, as in [Grouper]. *)

From Stdlib Require Import ZArith Lia.
From stdpp Require Import base list sorting.
From S2P Require Import Prelude Float Types Str GapFill Calc Grouper Aggregate.

Open Scope Z_scope.

Module Summary.

(** The telemetry columns of a row; [temp_samples] is not read here. *)
Notation RouteTelemetryAggregates := BleRollup (only parsing).

Record RouteSummary := mkSummary {
  sm_file : str; sm_date : str; sm_raw_park_count : Z; sm_raw_frame_count : Z;
  sm_gear_runs : list GearRun; sm_flag_runs : list FlagRun; sm_ap_runs : list ApRun;
  sm_aggregates : Aggregate.RouteAggregates;
  sm_source : option str; sm_external_signature : option str;
  sm_telemetry : RouteTelemetryAggregates; sm_cloud_route_id : option str;
}.

Record TimedSummary := mkTimedSummary { us_summary : RouteSummary; us_timestamp : Z; us_clip_span_ms : Z }.

Record SubClipSummary := mkSub {
  sc_summary : RouteSummary; sc_timestamp : Z; sc_start_frame : Z; sc_clip_span_ms : Z;
  sc_end_frame : Z; sc_total_frames : Z; sc_fraction : Z;
}.

Definition whole (ts : TimedSummary) : SubClipSummary :=
  let total := if is_empty (sm_gear_runs (us_summary ts)) then 1 else Z.max (total_frames (sm_gear_runs (us_summary ts))) 1 in
  mkSub (us_summary ts) (us_timestamp ts) 0 (us_clip_span_ms ts) total total f1.

Definition summary_has_driving (s : RouteSummary) : bool :=
  row_has_driving (sm_gear_runs s) (sm_raw_park_count s) (sm_raw_frame_count s) (Aggregate.max_speed_mps (sm_aggregates s)).

(** ** Park gaps *)

(** The park test: exact on the clip's real span, or in floats on a nominal
    minute for the identifiers of older versions. *)
Definition spf (total span_ms : Z) : Z := F64.div (F64.div (F64.of_Z span_ms) (F64.of_Z 1000)) (F64.of_Z total).
Definition parked_run (actual_span : bool) (total span_ms : Z) (run : GearRun) : bool :=
  (gr_gear run =? GEAR_PARK) &&
  (if actual_span then park_gap_frames (gr_frames run) total span_ms
   else F64.le f2 (F64.mul (F64.of_Z (gr_frames run)) (spf total span_ms))).

Fixpoint run_segs (parked : GearRun -> bool) (runs : list GearRun) (offset : Z) : list RawSeg :=
  match runs with
  | [] => []
  | run :: rest => mkRaw offset (u32 (offset + gr_frames run)) (parked run) :: run_segs parked rest (u32 (offset + gr_frames run))
  end.

Definition merged_segs (actual_span : bool) (clip : TimedSummary) : list RawSeg :=
  let runs := sm_gear_runs (us_summary clip) in
  let total := total_frames runs in
  let span_ms := if actual_span then us_clip_span_ms clip else CLIP_DURATION_MS in
  merge_segs (run_segs (parked_run actual_span total span_ms) runs 0).

(** The sub-clip of a driving segment. *)
Definition sub_clip (actual_span : bool) (clip : TimedSummary) (seg : RawSeg) : SubClipSummary :=
  let total := total_frames (sm_gear_runs (us_summary clip)) in
  let span_ms := if actual_span then us_clip_span_ms clip else CLIP_DURATION_MS in
  let seg_offset_ms :=
    if actual_span then frame_offset_ms (rs_start seg) total span_ms
    else F64.to_i64 (F64.round (F64.mul (F64.mul (F64.of_Z (rs_start seg)) (spf total span_ms)) (F64.of_Z 1000))) in
  mkSub (us_summary clip) (us_timestamp clip + seg_offset_ms) (rs_start seg) (us_clip_span_ms clip) (rs_end seg) total
    (F64.div (F64.of_Z (rs_end seg - rs_start seg)) (F64.of_Z total)).

Notation drives_st := (list (list SubClipSummary) * list SubClipSummary)%type (only parsing).

Definition summary_seg_step (actual_span : bool) (clip : TimedSummary) (st : drives_st) (seg : RawSeg) : drives_st :=
  if rs_parked seg then close st else push (sub_clip actual_span clip seg) st.

Definition summary_gear_step (actual_span : bool) (st : drives_st) (clip : TimedSummary) : drives_st :=
  let total := total_frames (sm_gear_runs (us_summary clip)) in
  if total =? 0 then push (whole clip) st
  else
    let merged := merged_segs actual_span clip in
    if forallb rs_parked merged then close st
    else if negb (existsb rs_parked merged)
    then push (mkSub (us_summary clip) (us_timestamp clip) 0 (us_clip_span_ms clip) total total f1) st
    else foldl (summary_seg_step actual_span clip) st merged.

Definition mostly_park (s : RouteSummary) : bool :=
  (0 <? sm_raw_frame_count s)
  && F64.lt PARK_MAJORITY_FRACTION (F64.div (F64.of_Z (sm_raw_park_count s)) (F64.of_Z (sm_raw_frame_count s))).

Definition summary_legacy_step (st : drives_st) (clip : TimedSummary) : drives_st :=
  if mostly_park (us_summary clip) then close st else push (whole clip) st.

Definition split_summary_by_gear_state_legacy (group : list TimedSummary) : list (list SubClipSummary) :=
  if (length group <=? 1)%nat then [whole <$> group]
  else fst (close (foldl summary_legacy_step ([], []) group)).

Definition split_summary_by_gear_state_with_clock (actual_span : bool) (group : list TimedSummary)
  : list (list SubClipSummary) :=
  if is_empty group then []
  else if negb (existsb (fun c => negb (is_empty (sm_gear_runs (us_summary c)))) group)
  then split_summary_by_gear_state_legacy group
  else fst (close (foldl (summary_gear_step actual_span) ([], []) group)).

Section grouping.
Context (parse_iso : str -> option Z) (hash_order : list str -> list str).

Definition split_summary_by_external_signature (group : list SubClipSummary) : list (list SubClipSummary) :=
  split_by_signature hash_order (fun c => sm_external_signature (sc_summary c)) group.

(** ** [group_summary_clips] *)

(** Paths seen, rows, event candidates. *)
Definition summary_partition_step (st : list str * list RouteSummary * list RouteSummary) (s : RouteSummary) :=
  let '(seen, unique, events) := st in
  let norm := norm_path (sm_file s) in
  if bool_decide (norm ∈ seen) then st
  else if is_event_folder_path (sm_file s) then (seen ++ [norm], unique, events ++ [s])
  else (seen ++ [norm], unique ++ [s], events).

Definition stamped (s : RouteSummary) : option (Z * RouteSummary) :=
  (fun ts => (ts, s)) <$> parse_clip_timestamp parse_iso (sm_file s).
Definition timed_row (c : Z * RouteSummary) : TimedSummary := mkTimedSummary (snd c) (fst c) CLIP_DURATION_MS.

Definition summary_candidate (c : Z * RouteSummary) : GapFillCandidate :=
  mkCand (fst c) (sm_file (snd c)) (Some (summary_has_driving (snd c))) (telemetry_gear_driving (sm_gear_runs (snd c)) []).

Definition summary_fill_gaps (timed : list TimedSummary) (events : list RouteSummary) : list TimedSummary :=
  if is_empty events then timed
  else
    let recent_ts := us_timestamp <$> timed in
    let cands := omap stamped events in
    let admitted := select_gap_fill recent_ts (summary_candidate <$> cands) in
    if is_empty admitted then timed
    else sort_by_key us_timestamp (timed ++ omap (fun i => timed_row <$> cands !! i) admitted).

Definition summary_set_spans (timed : list TimedSummary) : list TimedSummary :=
  let entries := (fun t => (us_timestamp t, bounds_clip_span (sm_source (us_summary t)) (sm_file (us_summary t)))) <$> timed in
  zip_with (fun t span => mkTimedSummary (us_summary t) (us_timestamp t) span) timed (clip_spans entries).

(** The clips that take part, in time order with their real spans. *)
Definition admitted_clips (summaries : list RouteSummary) : list TimedSummary :=
  let '(_, unique, events) := foldl summary_partition_step ([], [], []) summaries in
  summary_set_spans (summary_fill_gaps (sort_by_key us_timestamp (timed_row <$> omap stamped unique)) events).

Definition group_summary_clips_with_clock (summaries : list RouteSummary) (actual_span : bool)
  : list (list SubClipSummary) :=
  mbind (fun tg => mbind split_summary_by_external_signature (split_summary_by_gear_state_with_clock actual_span tg))
    (time_groups us_timestamp (admitted_clips summaries)).

Definition group_summary_clips (summaries : list RouteSummary) : list (list SubClipSummary) :=
  group_summary_clips_with_clock summaries true.

End grouping.

End Summary.
