(* ===== verification/DriveStats.v ===== *)
(** * Drive statistics from clip aggregates ([crates/drives/src/grouper.rs])

    [build_summary_from_aggregates]: the numbers the Drives list shows, summed
    from the aggregates of a drive's sub-clips, with the state carried across
    clip seams. Durations are milliseconds, lengths and speeds IEEE 754 doubles.
    [fmt_ms] and [fmt_day] are chrono's formatters, [powf] and [L] the float
    library. *)

From Stdlib Require Import ZArith Lia.
From stdpp Require Import base list.
From S2P Require Import Prelude Float Types Str GapFill Calc Grouper Summon Safety Aggregate Summary.

Import Aggregate Summary.
Open Scope Z_scope.

Module DriveStats.

(** ** Distances *)

Record SummaryDistances := mkDist { total_m : Z; fsd_bridge_m : Z; autosteer_bridge_m : Z; tacc_bridge_m : Z }.

Definition pair_of (lat lng : option Z) : option GpsPoint := a ← lat; b ← lng; Some (a, b).

(** The end the next bridge starts from. *)
Definition clip_end (a : RouteAggregates) (prev_end : option GpsPoint) : option GpsPoint :=
  match pair_of (end_lat a) (end_lng a) with
  | Some p => Some p
  | None => match pair_of (start_lat a) (start_lng a) with Some p => Some p | None => prev_end end
  end.

Section stats.
Context (L : libm) (powf : Z -> Z -> Z) (fmt_ms fmt_day : Z -> str).

Definition bridge_m (prev_end : option GpsPoint) (a : RouteAggregates) : option Z :=
  match prev_end, pair_of (start_lat a) (start_lng a) with
  | Some p, Some q =>
      if negb (is_null_island (fst p) (snd p)) && negb (is_null_island (fst q) (snd q))
      then Some (geodesic_m L (fst p) (snd p) (fst q) (snd q)) else None
  | _, _ => None
  end.

Definition add_if (b : bool) (x y : Z) : Z := if b then F64.add x y else x.
Definition starts_in (mode : Z) (a : RouteAggregates) : bool := bool_decide (ap_at_start a = Some mode).

Definition distance_step (st : SummaryDistances * option GpsPoint) (clip : SubClipSummary) :=
  let '(out, prev_end) := st in
  let a := sm_aggregates (sc_summary clip) in
  let total := F64.add (total_m out) (F64.mul (distance_m a) (sc_fraction clip)) in
  (match bridge_m prev_end a with
   | Some gap_m =>
       mkDist (F64.add total gap_m) (add_if (starts_in AUTOPILOT_FSD a) (fsd_bridge_m out) gap_m)
         (add_if (starts_in AUTOPILOT_AUTOSTEER a) (autosteer_bridge_m out) gap_m)
         (add_if (starts_in AUTOPILOT_TACC a) (tacc_bridge_m out) gap_m)
   | None => mkDist total (fsd_bridge_m out) (autosteer_bridge_m out) (tacc_bridge_m out)
   end, clip_end a prev_end).

Definition distance_from_summary_clips (clips : list SubClipSummary) : SummaryDistances :=
  fst (foldl distance_step (mkDist 0 0 0 0, None) clips).

(** ** The grace after assistance switches off at a seam *)

Fixpoint prefix_loop (prefix : list Safety.SafetyPrefixBucket) (remaining : Z) (out : Safety.SafetyPrefixBucket) :=
  match prefix with
  | [] => out
  | b :: rest =>
      if remaining <=? 0 then out
      else
        let fraction := clamp F64.zero f1 (F64.div (F64.of_Z (Z.min remaining 1000)) (F64.of_Z 1000)) in
        let part ms := F64.to_i64 (F64.round (F64.mul (F64.of_Z ms) fraction)) in
        prefix_loop rest (remaining - 1000)
          (Safety.mkBucket (Safety.pb_hard_brake_ms out + part (Safety.pb_hard_brake_ms b))
             (Safety.pb_brake_any_ms out + part (Safety.pb_brake_any_ms b))
             (Safety.pb_aggr_turn_ms out + part (Safety.pb_aggr_turn_ms b))
             (Safety.pb_turn_any_ms out + part (Safety.pb_turn_any_ms b))
             (Safety.pb_speeding_ms out + part (Safety.pb_speeding_ms b)))
  end.

Definition clamp_grace (ms : Z) : Z := Z.max 0 (Z.min ms 5000).

Definition safety_prefix_for_grace (prefix : list Safety.SafetyPrefixBucket) (grace_ms : Z) : Safety.SafetyPrefixBucket :=
  prefix_loop prefix (clamp_grace grace_ms) Safety.no_bucket.

(** ** The walk over the sub-clips *)

(** Sums scaled by the sub-clip's share, in double precision. *)
Record Sums := mkSums {
  speed_sum : Z; speed_count : Z; point_count : Z;
  s_fsd_ms : Z; s_autosteer_ms : Z; s_tacc_ms : Z;
  s_fsd_m : Z; s_autosteer_m : Z; s_tacc_m : Z; s_assisted_m : Z;
  ss_hard_brake : Z; ss_aggr_turn : Z; ss_speeding : Z; ss_moving : Z; ss_imu_moving : Z; ss_manual : Z;
  ss_brake_any : Z; ss_turn_any : Z; ss_night : Z; ss_night_weighted : Z; ss_night_m : Z; ss_night_weighted_m : Z;
}.

(** Counts taken once per parent file. *)
Record Counts := mkCounts {
  unique_clip_count : Z; max_speed : Z; disengagements : Z; accel_pushes : Z; brake_events : Z; turn_events : Z;
}.

(** What crosses the seam to the next sub-clip. *)
Record Seam := mkSeam {
  pend_prev_ms : option Z; prev_fsd_at_end : bool; prev_end_ts : option Z;
  grace_remaining : Z; prev_ap_at_end : option Z;
}.

Record Walked := mkWalked {
  w_sums : Sums; w_counts : Counts; w_seam : Seam; w_seen : list str;
  w_start : option GpsPoint; w_end : option GpsPoint;
}.

Definition at_start (clip : SubClipSummary) : bool := sc_start_frame clip =? 0.
Definition at_end (clip : SubClipSummary) : bool := sc_end_frame clip =? sc_total_frames clip.
Definition sub_len_ms (clip : SubClipSummary) : Z :=
  frame_span_ms (sc_start_frame clip) (sc_end_frame clip) (sc_total_frames clip) (sc_clip_span_ms clip).

(** The grace in force at the sub-clip's start. *)
Definition grace_here (s : Seam) (clip : SubClipSummary) : Z :=
  let a := sm_aggregates (sc_summary clip) in
  let contiguous := match prev_end_ts s with Some e => Z.abs (sc_timestamp clip - e) <=? 5000 | None => true end in
  let grace := if contiguous then grace_remaining s else 0 in
  let prev_ap := if contiguous then prev_ap_at_end s else None in
  match prev_ap with
  | Some m => if negb (m =? AUTOPILOT_OFF) && starts_in AUTOPILOT_OFF a then 5000 else grace
  | None => grace
  end.

Definition prefix_excluded (s : Seam) (clip : SubClipSummary) : Safety.SafetyPrefixBucket :=
  if at_start clip && (0 <? grace_here s clip) then
    match safety_grace_prefix (sm_aggregates (sc_summary clip)) with
    | Some prefix => safety_prefix_for_grace prefix (grace_here s clip)
    | None => Safety.no_bucket
    end
  else Safety.no_bucket.

Definition or0 (o : option Z) : Z := match o with Some v => v | None => 0 end.

Definition hour (t_ms : Z) : Z := Safety.hour_of t_ms.

Definition add_sums (x : Sums) (clip : SubClipSummary) (px : Safety.SafetyPrefixBucket) : Sums :=
  let a := sm_aggregates (sc_summary clip) in
  let f := sc_fraction clip in
  let ms v := F64.mul (F64.of_Z v) f in
  let m v := F64.mul v f in
  let less v ex := ms (Z.max (or0 v - ex) 0) in
  let night := Safety.is_night_hour (hour (sc_timestamp clip)) in
  mkSums
    (F64.add (speed_sum x) (F64.mul (F64.mul (avg_speed_mps a) (F64.of_Z (speed_sample_count a))) f))
    (F64.add (speed_count x) (ms (speed_sample_count a))) (F64.add (point_count x) (ms (valid_point_count a)))
    (F64.add (s_fsd_ms x) (ms (fsd_engaged_ms a))) (F64.add (s_autosteer_ms x) (ms (autosteer_engaged_ms a)))
    (F64.add (s_tacc_ms x) (ms (tacc_engaged_ms a)))
    (F64.add (s_fsd_m x) (m (fsd_distance_m a))) (F64.add (s_autosteer_m x) (m (autosteer_distance_m a)))
    (F64.add (s_tacc_m x) (m (tacc_distance_m a))) (F64.add (s_assisted_m x) (m (assisted_distance_m a)))
    (F64.add (ss_hard_brake x) (less (safety_hard_brake_ms a) (Safety.pb_hard_brake_ms px)))
    (F64.add (ss_aggr_turn x) (less (safety_aggr_turn_ms a) (Safety.pb_aggr_turn_ms px)))
    (F64.add (ss_speeding x) (less (safety_speeding_ms a) (Safety.pb_speeding_ms px)))
    (F64.add (ss_moving x) (ms (or0 (safety_moving_ms a)))) (F64.add (ss_imu_moving x) (ms (or0 (safety_imu_moving_ms a))))
    (F64.add (ss_manual x) (ms (or0 (safety_manual_moving_ms a))))
    (F64.add (ss_brake_any x) (less (safety_brake_any_ms a) (Safety.pb_brake_any_ms px)))
    (F64.add (ss_turn_any x) (less (safety_turn_any_ms a) (Safety.pb_turn_any_ms px)))
    (F64.add (ss_night x) (ms (or0 (safety_night_ms a)))) (F64.add (ss_night_weighted x) (ms (or0 (safety_night_weighted_ms a))))
    (add_if night (ss_night_m x) (m (distance_m a)))
    (add_if night (ss_night_weighted_m x) (F64.mul (m (distance_m a)) (Safety.night_weight (hour (sc_timestamp clip))))).

(** A pending disengagement of the previous clip, judged by this one. *)
Definition seam_disengaged (s : Seam) (a : RouteAggregates) : bool :=
  match pend_prev_ms s with
  | Some p =>
      let rem := F64.sub (F64.of_Z 2000) p in
      negb (match park_ms_start a with Some pk => F64.le pk rem | None => false end)
  | None => false
  end.

(** The counters are [i32]. *)
Definition add_counts (c : Counts) (s : Seam) (clip : SubClipSummary) : Counts :=
  let a := sm_aggregates (sc_summary clip) in
  let dis := i32 (disengagements c + fsd_disengagements a) in
  let pushes := i32 (accel_pushes c + fsd_accel_pushes a) in
  mkCounts (unique_clip_count c + 1) (if F64.lt (max_speed c) (max_speed_mps a) then max_speed_mps a else max_speed c)
    (if at_start clip && seam_disengaged s a then i32 (dis + 1) else dis)
    (if at_start clip && prev_fsd_at_end s then i32 (pushes + fsd_accel_pushes_early a) else pushes)
    (i32 (brake_events c + i32 (or0 (safety_hard_brake_events a)))) (i32 (turn_events c + i32 (or0 (safety_aggr_turn_events a)))).

(** The wall time of the seam, for the mode this clip starts in. *)
Definition add_seam_time (x : Sums) (s : Seam) (clip : SubClipSummary) : Sums :=
  let a := sm_aggregates (sc_summary clip) in
  match prev_end_ts s with
  | Some pe =>
      let seam_ms := F64.of_Z (Z.max (sc_timestamp clip - pe) 0) in
      mkSums (speed_sum x) (speed_count x) (point_count x)
        (add_if (starts_in AUTOPILOT_FSD a) (s_fsd_ms x) seam_ms)
        (add_if (starts_in AUTOPILOT_AUTOSTEER a) (s_autosteer_ms x) seam_ms)
        (add_if (starts_in AUTOPILOT_TACC a) (s_tacc_ms x) seam_ms)
        (s_fsd_m x) (s_autosteer_m x) (s_tacc_m x) (s_assisted_m x)
        (ss_hard_brake x) (ss_aggr_turn x) (ss_speeding x) (ss_moving x) (ss_imu_moving x) (ss_manual x)
        (ss_brake_any x) (ss_turn_any x) (ss_night x) (ss_night_weighted x) (ss_night_m x) (ss_night_weighted_m x)
  | None => x
  end.

Definition next_seam (clip : SubClipSummary) : Seam :=
  let a := sm_aggregates (sc_summary clip) in
  if at_end clip
  then mkSeam (fsd_pend_ms_end a) (fsd_at_end a) (Some (sc_timestamp clip + sub_len_ms clip))
         (clamp_grace (or0 (safety_grace_ms_end a))) (ap_at_end a)
  else mkSeam None false None 0 None.

Definition stats_step (w : Walked) (clip : SubClipSummary) : Walked :=
  let a := sm_aggregates (sc_summary clip) in
  let s := w_seam w in
  let sums := add_sums (w_sums w) clip (prefix_excluded s clip) in
  let first := bool_decide (sm_file (sc_summary clip) ∉ w_seen w) in
  mkWalked (if first && at_start clip then add_seam_time sums s clip else sums)
    (if first then add_counts (w_counts w) s clip else w_counts w)
    (next_seam clip)
    (if first then w_seen w ++ [sm_file (sc_summary clip)] else w_seen w)
    (match w_start w with Some p => Some p | None => pair_of (start_lat a) (start_lng a) end)
    (match pair_of (end_lat a) (end_lng a) with Some p => Some p | None => w_end w end).

Definition sums0 : Sums := mkSums 0 0 0 0 0 0 0 0 0 0 0 0 0 0 0 0 0 0 0 0 0 0.
Definition walked0 : Walked := mkWalked sums0 (mkCounts 0 0 0 0 0 0) (mkSeam None false None 0 None) [] None None.
Definition walk_clips (clips : list SubClipSummary) : Walked := foldl stats_step walked0 clips.

(** ** Telemetry *)

Record DriveTelemetryRollup := mkRollup {
  t_battery_start : option Z; t_battery_end : option Z; t_battery_used : option Z;
  t_interior_min : option Z; t_interior_max : option Z; t_exterior_avg : option Z; t_hvac_s : option Z;
  t_tire_fl : option Z; t_tire_fr : option Z; t_tire_rl : option Z; t_tire_rr : option Z;
  t_odometer_start : option Z; t_odometer_end : option Z; t_odometer_driven : option Z;
  t_location_start : option str; t_location_end : option str;
}.

(** First and last value of a column over the unique clips, and the fold of its
    values. *)
Definition first_of {A} (vs : list (option A)) : option A := head (omap id vs).
Definition last_of {A} (vs : list (option A)) : option A := last (omap id vs).
Definition fold_of (f : Z -> Z -> Z) (vs : list (option Z)) : option Z :=
  foldl (fun acc v => match acc with Some m => Some (f m v) | None => Some v end) None (omap id vs).

(** The first sub-clip of each file. *)
Definition unique_step (st : list str * list SubClipSummary) (c : SubClipSummary) :=
  if bool_decide (sm_file (sc_summary c) ∈ fst st) then st
  else (fst st ++ [sm_file (sc_summary c)], snd st ++ [c]).
Definition unique_files (clips : list SubClipSummary) : list SubClipSummary := snd (foldl unique_step ([], []) clips).

Definition roll_up_telemetry (clips : list SubClipSummary) : DriveTelemetryRollup :=
  let ts := (fun c => sm_telemetry (sc_summary c)) <$> unique_files clips in
  let battery_start := first_of (battery_pct_start <$> ts) in
  let battery_end := last_of (battery_pct_end <$> ts) in
  let odo_start := first_of (odometer_mi_start <$> ts) in
  let odo_end := last_of (odometer_mi_end <$> ts) in
  let ext := omap exterior_temp_avg ts in
  let hvac := omap hvac_runtime_s ts in
  mkRollup (round2 <$> battery_start) (round2 <$> battery_end)
    (match battery_start, battery_end with Some s, Some e => Some (round2 (F64.sub s e)) | _, _ => None end)
    (round2 <$> fold_of F64.min (interior_temp_min <$> ts)) (round2 <$> fold_of F64.max (interior_temp_max <$> ts))
    (if is_empty ext then None
     else Some (round2 (F64.div (foldl F64.add F64.zero ext) (F64.of_Z (Z.of_nat (length ext))))))
    (if is_empty hvac then None else Some (foldl Z.add 0 hvac))
    (round2 <$> last_of (tire_fl_psi <$> ts)) (round2 <$> last_of (tire_fr_psi <$> ts))
    (round2 <$> last_of (tire_rl_psi <$> ts)) (round2 <$> last_of (tire_rr_psi <$> ts))
    (round2 <$> odo_start) (round2 <$> odo_end)
    (match odo_start, odo_end with
     | Some s, Some e => if F64.le s e then Some (round2 (F64.sub e s)) else None
     | _, _ => None
     end)
    (first_of (location_name_start <$> ts)) (last_of (location_name_end <$> ts)).

(** ** Summon evidence *)

Definition summon_evidence (c : SubClipSummary) : SummonClipEvidence :=
  let s := sc_summary c in
  if 1 <? sc_total_frames c
  then mkEvidence (sm_flag_runs s) (sm_ap_runs s) (sm_gear_runs s) (sc_start_frame c) (sc_end_frame c) (sc_total_frames c)
  else
    let total := if sm_raw_frame_count s =? 0 then u32 (sum_Z (fr_frames <$> sm_flag_runs s)) else sm_raw_frame_count s in
    mkEvidence (sm_flag_runs s) (sm_ap_runs s) (sm_gear_runs s) 0 total total.

(** [has_sei_speeds] and [summon_max_speed]. *)
Definition summon_speed (clips : list SubClipSummary) : bool * Z :=
  foldl (fun st c => match sei_speed_abs_max (sm_aggregates (sc_summary c)) with
                     | Some m => (fst st || F64.lt F64.zero m, if F64.lt (snd st) m then m else snd st)
                     | None => st
                     end) (false, F64.zero) clips.

(** ** The summary *)

Definition compute_autopilot_percents (total fsd autosteer tacc assisted : Z) : Z * Z * Z * Z :=
  if F64.le total F64.zero then (0, 0, 0, 0)
  else
    let p d := round1 (F64.mul (F64.div d total) (F64.of_Z 100)) in
    (p fsd, p autosteer, p tacc, p assisted).

(** The telemetry fields are those of the roll-up. *)
Record DriveSummary := mkDrive {
  d_id : Z; d_date : str; d_start_time : str; d_end_time : str; d_duration_ms : Z;
  d_distance_mi : Z; d_distance_km : Z; d_avg_speed_mph : Z; d_max_speed_mph : Z; d_avg_speed_kmh : Z; d_max_speed_kmh : Z;
  d_clip_count : Z; d_point_count : Z; d_start_point : option GpsPoint; d_end_point : option GpsPoint;
  d_tags : list str;
  d_fsd_engaged_ms : Z; d_fsd_disengagements : Z; d_fsd_accel_pushes : Z; d_fsd_percent : Z;
  d_fsd_distance_km : Z; d_fsd_distance_mi : Z;
  d_autosteer_engaged_ms : Z; d_autosteer_percent : Z; d_autosteer_distance_km : Z; d_autosteer_distance_mi : Z;
  d_tacc_engaged_ms : Z; d_tacc_percent : Z; d_tacc_distance_km : Z; d_tacc_distance_mi : Z;
  d_assisted_percent : Z; d_summon : bool;
  d_telemetry : DriveTelemetryRollup;
  d_source : option str; d_external_signature : option str; d_tessie_autopilot_percent : option Z;
  d_safety : Safety.SafetyTotals; d_night_mi : Z; d_night_weighted_mi : Z; d_safety_score : option Z;
}.

Definition default_clip : SubClipSummary :=
  mkSub (mkSummary [] [] 0 0 [] [] [] no_aggregates None None ble_empty None) 0 0 0 0 0 0.

Definition source_is_sei (source : option str) : bool :=
  match source with None => true | Some s => is_empty s || bool_decide (s = lit "sei") end.

Definition to_ms (x : Z) : Z := F64.to_i64 (F64.round x).

Definition safety_totals (w : Walked) (total assisted : Z) : Safety.SafetyTotals :=
  let x := w_sums w in
  Safety.mkTotals (F64.div total M_PER_MILE) (F64.div assisted M_PER_MILE)
    (F64.div (ss_night_m x) M_PER_MILE) (F64.div (ss_night_weighted_m x) M_PER_MILE)
    (to_ms (ss_moving x)) (to_ms (ss_imu_moving x)) (to_ms (ss_night x)) (to_ms (ss_night_weighted x)) (to_ms (ss_manual x))
    (to_ms (ss_hard_brake x)) (brake_events (w_counts w)) (to_ms (ss_aggr_turn x)) (turn_events (w_counts w))
    (to_ms (ss_speeding x)) (to_ms (ss_brake_any x)) (to_ms (ss_turn_any x)).

(** A drive of no clips does not occur: the source indexes the first clip. *)
Definition build_summary_from_aggregates (clips : list SubClipSummary) (idx : nat) (tags : list (str * list str))
  : DriveSummary :=
  let first_clip := hd default_clip clips in
  let last_clip := List.last clips default_clip in
  let start_time := sc_timestamp first_clip in
  let end_time := sc_timestamp last_clip + sub_len_ms last_clip in
  let duration_ms := end_time - start_time in
  let dists := distance_from_summary_clips clips in
  let total := total_m dists in
  let w := walk_clips clips in
  let x := w_sums w in
  let dis := match pend_prev_ms (w_seam w) with Some _ => i32 (disengagements (w_counts w) + 1) | None => disengagements (w_counts w) end in
  let bridges := F64.add (F64.add (fsd_bridge_m dists) (autosteer_bridge_m dists)) (tacc_bridge_m dists) in
  let avg := if F64.lt F64.zero (speed_count x) then F64.div (speed_sum x) (speed_count x) else F64.zero in
  let '(has_sei, max_sei) := summon_speed clips in
  let summon := detect_summon (summon_evidence <$> clips) (if has_sei then max_sei else F64.zero) duration_ms has_sei in
  let unless v := if summon then 0 else v in
  let fsd_m := unless (F64.add (s_fsd_m x) (fsd_bridge_m dists)) in
  let autosteer_m := unless (F64.add (s_autosteer_m x) (autosteer_bridge_m dists)) in
  let tacc_m := unless (F64.add (s_tacc_m x) (tacc_bridge_m dists)) in
  let assisted_m := unless (F64.add (s_assisted_m x) bridges) in
  let '(fsd_pct, autosteer_pct, tacc_pct, assisted_pct) :=
    compute_autopilot_percents total fsd_m autosteer_m tacc_m assisted_m in
  let start_str := fmt_ms start_time in
  let km m := round2 (F64.div m (F64.of_Z 1000)) in
  let mi m := round2 (F64.div m M_PER_MILE) in
  let kmh v := round2 (F64.mul v (F64.dec 36 1)) in
  let mph v := round2 (F64.mul v MPS_TO_MPH) in
  let totals := safety_totals w total assisted_m in
  mkDrive (i32 (Z.of_nat idx)) (fmt_day start_time) start_str (fmt_ms end_time) duration_ms
    (mi total) (km total) (mph avg) (mph (max_speed (w_counts w))) (kmh avg) (kmh (max_speed (w_counts w)))
    (unique_clip_count (w_counts w)) (F64.to_usize (F64.round (point_count x))) (w_start w) (w_end w)
    (match List.find (fun kv => bool_decide (fst kv = start_str)) tags with Some kv => snd kv | None => [] end)
    (to_ms (unless (s_fsd_ms x))) (unless dis) (unless (accel_pushes (w_counts w))) fsd_pct
    (km fsd_m) (mi fsd_m)
    (to_ms (unless (s_autosteer_ms x))) autosteer_pct (km autosteer_m) (mi autosteer_m)
    (to_ms (unless (s_tacc_ms x))) tacc_pct (km tacc_m) (mi tacc_m)
    assisted_pct summon (roll_up_telemetry clips)
    (Some (match sm_source (sc_summary first_clip) with Some s => s | None => lit "sei" end))
    (sm_external_signature (sc_summary first_clip)) None
    totals (mi (ss_night_m x)) (mi (ss_night_weighted_m x))
    (if source_is_sei (sm_source (sc_summary first_clip)) && negb summon
     then Safety.s_score <$> Safety.compute_safety_score powf totals else None).

(** [group_summaries_fast]. *)
Definition group_summaries_fast parse_iso hash_order (summaries : list RouteSummary) (tags : list (str * list str))
  : list DriveSummary :=
  imap (fun idx clips => build_summary_from_aggregates clips idx tags) (group_summary_clips parse_iso hash_order summaries).

(** ** Candidates for the summon re-read *)

Definition MAX_EDGE_CLIPS : nat := 10.
Definition max_mph : Z := F64.add (F64.mul SUMMON_MAX_SPEED_MPS MPS_TO_MPH) (F64.dec 1 2).

Definition has_current_evidence (s : RouteSummary) : bool :=
  negb (is_empty (sm_flag_runs s))
  && forallb (fun r => match fr_max_mps r with Some v => F64.is_finite v | None => false end) (sm_flag_runs s)
  && negb (is_empty (sm_ap_runs s)).

(** [by_file]: a later row of the same path wins. *)
Definition by_file (summaries : list RouteSummary) (file : str) : option RouteSummary :=
  last (List.filter (fun s => bool_decide (sm_file s = file)) summaries).

Definition route_is_slow (summaries : list RouteSummary) (file : str) : bool :=
  match by_file summaries file with
  | None => false
  | Some r =>
      match sei_speed_abs_max (sm_aggregates r) with
      | Some m => F64.le m SUMMON_MAX_SPEED_MPS
      | None => (0 <? speed_sample_count (sm_aggregates r)) && F64.le (max_speed_mps (sm_aggregates r)) SUMMON_MAX_SPEED_MPS
      end
  end.

(** [add_clip]; [files_out] is also the set of queued paths. *)
Definition add_clip (summaries : list RouteSummary) (files_out : list str) (file : str) : list str :=
  if contains file (lit "-front-bridge.mp4") then files_out
  else match by_file summaries file with
       | None => files_out
       | Some r => if has_current_evidence r || bool_decide (file ∈ files_out) then files_out else files_out ++ [file]
       end.

(** One edge: the slow run and the clip after it. *)
Fixpoint edge_loop (summaries : list RouteSummary) (files : list str) (took : bool) (out : list str) : bool * list str :=
  match files with
  | [] => (took, out)
  | f :: rest =>
      if route_is_slow summaries f then edge_loop summaries rest true (add_clip summaries out f)
      else (took, if took then add_clip summaries out f else out)
  end.

Definition files_of (clips : list SubClipSummary) : list str := (fun c => sm_file (sc_summary c)) <$> unique_files clips.

Definition candidate_step (summaries : list RouteSummary) (st : Z * list str) (ic : nat * list SubClipSummary) :=
  let files := files_of (snd ic) in
  if is_empty files then st
  else
    let d := build_summary_from_aggregates (snd ic) (fst ic) [] in
    if match d_source d with Some s => negb (bool_decide (s = lit "sei")) | None => false end || d_summon d then st
    else if F64.le (d_max_speed_mph d) max_mph && (d_duration_ms d <=? SUMMON_MAX_DURATION_MS)
    then (fst st + 1, foldl (add_clip summaries) (snd st) files)
    else
      let '(took, out) := edge_loop summaries (take MAX_EDGE_CLIPS files) false (snd st) in
      let '(took_tail, out) := edge_loop summaries (take MAX_EDGE_CLIPS (rev files)) false out in
      (if took || took_tail then fst st + 1 else fst st, out).

Definition summon_check_candidates parse_iso hash_order (summaries : list RouteSummary) : Z * list str :=
  foldl (candidate_step summaries) (0, [])
    (imap (fun i c => (i, c)) (group_summary_clips parse_iso hash_order summaries)).

End stats.

End DriveStats.
