(* ===== verification/SummarySpec.v ===== *)
(** * Drives from summary rows: every driven frame is in exactly one drive

    Grouping loses and repeats nothing: the sub-clips of all drives tile the
    driving segments of the admitted clips, and a drive's sub-clips join at
    clip boundaries. *)

From Stdlib Require Import ZArith Lia.
From stdpp Require Import base list sorting sets.
From S2P Require Import Prelude Float Types Str GapFill GapFillSpec Calc Grouper GrouperSpec Aggregate Summary.

Import Summary.
Open Scope Z_scope.

(** ** Signature buckets *)

Section buckets.
Context {A : Type} (sig : A -> option str).

Definition with_sig (o : option str) (l : list A) : list A := filter (fun x => sig x = o) l.

(** Buckets hold what carries their key, and every key is there once. *)
Record bucketed (l : list A) (bs : list (str * list A)) : Prop := {
  bk_nodup : NoDup bs.*1;
  bk_keys : forall k, k ∈ bs.*1 <-> exists x, x ∈ l /\ sig x = Some k;
  bk_get : forall k, bucket_get k bs = with_sig (Some k) l;
}.

Lemma bucket_push_keys s (x : A) bs k : k ∈ (bucket_push s x bs).*1 <-> k = s \/ k ∈ bs.*1.
Proof. induction bs as [|[j b] t IH]; csimpl; [set_solver|]. case_bool_decide; csimpl; set_solver. Qed.

Lemma bucket_push_nodup s (x : A) bs : NoDup bs.*1 -> NoDup (bucket_push s x bs).*1.
Proof.
  induction bs as [|[j b] t IH]; csimpl; [repeat constructor; set_solver|]. intros [Hj Ht]%NoDup_cons.
  case_bool_decide; csimpl; constructor; auto. rewrite bucket_push_keys. set_solver.
Qed.

Lemma bucket_push_get s (x : A) bs k :
  bucket_get k (bucket_push s x bs) = if bool_decide (k = s) then bucket_get k bs ++ [x] else bucket_get k bs.
Proof.
  induction bs as [|[j b] t IH]; cbn [bucket_push bucket_get].
  - rewrite (bool_decide_ext (s = k) (k = s)) by naive_solver. by case_bool_decide.
  - destruct (decide (j = s)) as [->|]; [rewrite bool_decide_eq_true_2 by done|rewrite bool_decide_eq_false_2 by done];
      cbn [bucket_get]; rewrite ?IH; repeat case_bool_decide; subst; congruence.
Qed.

Lemma sig_fold l : exists bs, foldl (sig_step sig) ([], []) l = (with_sig None l, bs) /\ bucketed l bs.
Proof.
  induction l as [|x l (bs & E & [B1 B2 B3])] using rev_ind.
  { exists []. split; [done|]. split; [constructor| |done]. intros k. set_solver. }
  rewrite foldl_snoc, E. unfold sig_step. cbn [fst snd]. unfold with_sig. rewrite filter_app, filter_cons, filter_nil.
  destruct (sig x) as [s|] eqn:Es.
  - exists (bucket_push s x bs). rewrite decide_False, app_nil_r by done. split; [done|]. split.
    + by apply bucket_push_nodup.
    + intros k. rewrite bucket_push_keys, B2. setoid_rewrite elem_of_app. set_solver.
    + intros k. rewrite bucket_push_get, B3. unfold with_sig. rewrite filter_app, filter_cons, filter_nil.
      case_bool_decide; [by rewrite decide_True by congruence|]. by rewrite decide_False, app_nil_r by congruence.
  - exists bs. rewrite decide_True by done. split; [done|]. split; [done| |].
    + intros k. rewrite B2. setoid_rewrite elem_of_app. set_solver.
    + intros k. rewrite B3. unfold with_sig. by rewrite filter_app, filter_cons, filter_nil, decide_False, app_nil_r by congruence.
Qed.

Lemma with_sig_perm l (ks : list str) :
  NoDup ks -> (forall x k, x ∈ l -> sig x = Some k -> k ∈ ks) ->
  with_sig None l ++ concat ((fun k => with_sig (Some k) l) <$> ks) ≡ₚ l.
Proof.
  intros Hnd. induction l as [|x l IH]; intros Hk.
  { cbn. clear. by induction ks. }
  assert (with_sig None l ++ concat ((fun k => with_sig (Some k) l) <$> ks) ≡ₚ l) as IH' by (apply IH; set_solver).
  unfold with_sig in *. rewrite filter_cons. destruct (sig x) as [s|] eqn:Es.
  - rewrite decide_False by done. assert (s ∈ ks) as Hs by (eapply Hk; [apply elem_of_cons; by left|done]).
    apply list_elem_of_split in Hs as (k1 & k2 & ->). apply NoDup_app in Hnd as (_ & Hd & Hnd2).
    apply NoDup_cons in Hnd2 as [Hn2 _].
    assert (forall k, k ∈ k1 ++ k2 -> filter (fun y => sig y = Some k) (x :: l) = filter (fun y => sig y = Some k) l) as Hother.
    { intros k Hin. rewrite filter_cons, decide_False; [done|]. rewrite Es. intros [= ->]. set_solver. }
    rewrite <- IH' at 2. rewrite !fmap_app, !fmap_cons, !concat_app. cbn [concat].
    rewrite (list_fmap_ext _ (fun k => filter (fun y => sig y = Some k) l) k1)
      by (intros i k Hi; apply Hother; apply list_elem_of_lookup_2 in Hi; set_solver).
    rewrite (list_fmap_ext _ (fun k => filter (fun y => sig y = Some k) l) k2)
      by (intros i k Hi; apply Hother; apply list_elem_of_lookup_2 in Hi; set_solver).
    rewrite (filter_cons_True _ x) by done. cbn [app]. solve_Permutation.
  - rewrite decide_True by done. cbn [app]. f_equiv. rewrite <- IH' at 2. f_equiv.
    erewrite list_fmap_ext; [reflexivity|]. intros i k _. cbv beta. rewrite filter_cons, decide_False; congruence.
Qed.

Lemma split_signature_perm hash_order l :
  (forall ks, hash_order ks ≡ₚ ks) -> concat (split_by_signature hash_order sig l) ≡ₚ l.
Proof.
  intros Ho. unfold split_by_signature. destruct (_ <=? 1)%nat; [cbn; by rewrite app_nil_r|].
  destruct (negb _); [cbn; by rewrite app_nil_r|]. destruct (sig_fold l) as (bs & -> & [B1 B2 B3]).
  rewrite concat_app. rewrite (list_fmap_ext _ (fun k => with_sig (Some k) l)) by (intros; apply B3).
  transitivity (with_sig None l ++ concat ((fun k => with_sig (Some k) l) <$> hash_order bs.*1)).
  { f_equiv. destruct (with_sig None l); cbn; by rewrite ?app_nil_r. }
  apply with_sig_perm; [by rewrite Ho|]. intros x k Hx Hs. rewrite Ho. apply B2. eauto.
Qed.

Lemma with_sig_sublist o l : with_sig o l `sublist_of` l.
Proof. apply sublist_filter. Qed.

Lemma split_signature_sublist hash_order l g :
  (forall ks, hash_order ks ≡ₚ ks) -> l <> [] -> g ∈ split_by_signature hash_order sig l ->
  g `sublist_of` l /\ g <> [].
Proof.
  intros Ho Hne. unfold split_by_signature. destruct (_ <=? 1)%nat; [set_solver|]. destruct (negb _); [set_solver|].
  destruct (sig_fold l) as (bs & -> & [B1 B2 B3]). rewrite elem_of_app. intros [Hg|(k & -> & Hk)%list_elem_of_fmap].
  - destruct (with_sig None l) as [|x t] eqn:E; [set_solver|]. apply list_elem_of_singleton in Hg as ->.
    rewrite <- E. split; [apply with_sig_sublist|by rewrite E].
  - rewrite B3. split; [apply with_sig_sublist|]. rewrite Ho in Hk. apply B2 in Hk as (x & Hx & Hs). intros E.
    assert (x ∈ with_sig (Some k) l) by (by apply list_elem_of_filter). rewrite E in *. set_solver.
Qed.

End buckets.

(** ** Park segments of a clip *)

Lemma run_segs_raw runs total span offset : run_segs (parked_run true total span) runs offset = raw_segs runs total span offset.
Proof. revert offset. induction runs as [|r rs IH]; intros offset; cbn [run_segs raw_segs]; [done|]. by rewrite IH. Qed.

Definition rows_ok (summaries : list RouteSummary) : Prop := Forall (fun s => runs_ok (sm_gear_runs s)) summaries.

Notation gears c := (sm_gear_runs (us_summary c)).
Notation frames c := (total_frames (gears c)).

(** Whether each frame of the clip lies in a park gap on its real clock. *)
Definition park_flags (c : TimedSummary) : list bool := gap_flags (gears c) (frames c) (us_clip_span_ms c).

Lemma frames_sum runs : runs_ok runs -> total_frames runs = sum_Z (gr_frames <$> runs) /\ 0 <= total_frames runs.
Proof.
  intros [Hr Hs]. assert (0 <= sum_Z (gr_frames <$> runs)).
  { apply sum_Z_nonneg, Forall_fmap. eapply Forall_impl; [exact Hr|]. done. }
  unfold total_frames. rewrite u32_small by lia. lia.
Qed.

Lemma merged_segs_tiles c : runs_ok (gears c) ->
  tiles 0 (merged_segs true c) (frames c) /\ Sorted separated (merged_segs true c)
  /\ seg_flags (merged_segs true c) = park_flags c.
Proof.
  intros Hok. destruct (frames_sum _ Hok) as [Hs H0]. destruct Hok as [Hr Hsum]. unfold merged_segs. cbn [andb].
  rewrite run_segs_raw.
  destruct (raw_segs_spec (gears c) (frames c) (us_clip_span_ms c) 0 Hr) as [Ht Hf]; [lia..|].
  rewrite Z.add_0_l, <- Hs in Ht. destruct (merge_segs_spec _ _ _ Ht) as (H1 & H2 & H3). split_and!; [done..|].
  by rewrite H3, Hf.
Qed.

(** ** What each clip contributes *)

Definition minute (c : TimedSummary) : SubClipSummary :=
  mkSub (us_summary c) (us_timestamp c) 0 (us_clip_span_ms c) (frames c) (frames c) f1.

Definition driving_parts (c : TimedSummary) : list SubClipSummary :=
  let merged := merged_segs true c in
  if frames c =? 0 then [whole c]
  else if forallb rs_parked merged then []
  else if negb (existsb rs_parked merged) then [minute c]
  else sub_clip true c <$> filter (fun s => rs_parked s = false) merged.

Definition legacy_parts (many : bool) (c : TimedSummary) : list SubClipSummary :=
  if many && mostly_park (us_summary c) then [] else [whole c].

Definition has_gears (tg : list TimedSummary) : bool := existsb (fun c => negb (is_empty (gears c))) tg.

Definition parts_in (tg : list TimedSummary) (c : TimedSummary) : list SubClipSummary :=
  if has_gears tg then driving_parts c else legacy_parts (1 <? length tg)%nat c.

Definition all_of {A} (st : list (list A) * list A) : list A := concat (fst st) ++ snd st.

Lemma all_close {A} (st : list (list A) * list A) : all_of (close st) = all_of st.
Proof. destruct st as [a [|x b]]; [done|]. unfold all_of. cbn. rewrite concat_app. cbn. by rewrite !app_nil_r. Qed.

Lemma all_push {A} (x : A) st : all_of (push x st) = all_of st ++ [x].
Proof. unfold all_of, push. cbn. by rewrite app_assoc. Qed.

Lemma concat_close {A} (st : list (list A) * list A) : concat (fst (close st)) = all_of st.
Proof. rewrite <- all_close. unfold all_of. destruct st as [a [|x b]]; cbn; by rewrite app_nil_r. Qed.

Lemma seg_fold_all c segs st :
  all_of (foldl (summary_seg_step true c) st segs)
  = all_of st ++ (sub_clip true c <$> filter (fun s => rs_parked s = false) segs).
Proof.
  revert st. induction segs as [|s segs IH]; intros st; cbn [foldl]; [by rewrite app_nil_r|].
  rewrite IH, filter_cons. unfold summary_seg_step. destruct (rs_parked s) eqn:E.
  - by rewrite decide_False, all_close.
  - by rewrite decide_True, all_push, <- app_assoc.
Qed.

Lemma gear_step_all st c : all_of (summary_gear_step true st c) = all_of st ++ driving_parts c.
Proof.
  unfold summary_gear_step, driving_parts. destruct (_ =? 0); [apply all_push|].
  destruct (forallb _ _); [by rewrite all_close, app_nil_r|]. destruct (negb _); [apply all_push|apply seg_fold_all].
Qed.

Lemma fold_all {A B} (step : list (list A) * list A -> B -> list (list A) * list A) (parts : B -> list A) l st :
  (forall st x, all_of (step st x) = all_of st ++ parts x) -> all_of (foldl step st l) = all_of st ++ mbind parts l.
Proof.
  intros Hs. revert st. induction l as [|x l IH]; intros st; cbn [foldl]; [by rewrite app_nil_r|].
  rewrite IH, Hs, <- app_assoc. done.
Qed.

Lemma split_gear_concat tg : concat (split_summary_by_gear_state_with_clock true tg) = mbind (parts_in tg) tg.
Proof.
  unfold split_summary_by_gear_state_with_clock. destruct (is_empty tg) eqn:Ee; [by apply is_empty_nil in Ee as ->|].
  unfold parts_in, has_gears. destruct (existsb _ tg); cbn [negb].
  - rewrite concat_close, (fold_all _ driving_parts) by apply gear_step_all. done.
  - unfold split_summary_by_gear_state_legacy. destruct (Nat.leb_spec (length tg) 1) as [Hl|Hl].
    + rewrite (proj2 (Nat.ltb_ge _ _) Hl). destruct tg as [|c [|]]; [done|done|cbn in Hl; lia].
    + rewrite (proj2 (Nat.ltb_lt _ _) Hl). rewrite concat_close, (fold_all _ (legacy_parts true)); [done|].
      intros st x. unfold summary_legacy_step, legacy_parts. cbn [andb].
      destruct (mostly_park _); [by rewrite all_close, app_nil_r|apply all_push].
Qed.

Lemma concat_mbind {A B} (f : A -> list (list B)) (l : list A) : concat (mbind f l) = mbind (fun x => concat (f x)) l.
Proof. induction l as [|x l IH]; csimpl; [done|]. by rewrite concat_app, IH. Qed.

Lemma mbind_perm {A B} (f g : A -> list B) (l : list A) : (forall x, f x ≡ₚ g x) -> mbind f l ≡ₚ mbind g l.
Proof. intros H. induction l as [|x l IH]; csimpl; [done|]. by rewrite (H x), IH. Qed.

Lemma mbind_id {A} (l : list (list A)) : mbind (fun x => x) l = concat l.
Proof. induction l as [|x l IH]; csimpl; [done|]. by rewrite IH. Qed.

Lemma filter_mbind {A B} (P : B -> Prop) `{!forall x, Decision (P x)} (f : A -> list B) (l : list A) :
  filter P (mbind f l) = mbind (fun x => filter P (f x)) l.
Proof. induction l as [|x l IH]; csimpl; [done|]. by rewrite filter_app, IH. Qed.

(** All sub-clips, clip by clip. *)
Lemma groups_perm parse_iso hash_order S :
  (forall ks, hash_order ks ≡ₚ ks) ->
  concat (group_summary_clips parse_iso hash_order S)
  ≡ₚ mbind (fun tg => mbind (parts_in tg) tg) (time_groups us_timestamp (admitted_clips parse_iso S)).
Proof.
  intros Ho. unfold group_summary_clips, group_summary_clips_with_clock. rewrite concat_mbind. apply mbind_perm. intros tg.
  rewrite concat_mbind, <- split_gear_concat, <- mbind_id. apply mbind_perm. intros g. by apply split_signature_perm.
Qed.

Section groups.
Context (parse_iso : str -> option Z).

(** *** Admitted files are distinct *)

Notation clip_file c := (sm_file (us_summary c)).

Lemma partition_paths S :
  let r := foldl summary_partition_step ([], [], []) S in
  NoDup (norm_path ∘ sm_file <$> (snd (fst r) ++ snd r)).
Proof.
  assert (let r := foldl summary_partition_step ([], [], []) S in
    NoDup (norm_path ∘ sm_file <$> (snd (fst r) ++ snd r)) /\ forall x, x ∈ snd (fst r) ++ snd r -> norm_path (sm_file x) ∈ fst (fst r)) as [H _]; [|done].
  apply (foldl_inv (fun r : list str * list RouteSummary * list RouteSummary =>
    NoDup (norm_path ∘ sm_file <$> (snd (fst r) ++ snd r)) /\ forall x, x ∈ snd (fst r) ++ snd r -> norm_path (sm_file x) ∈ fst (fst r))).
  2: { split; [constructor|set_solver]. }
  intros [[seen u] e] s _ [Hn Hs]. cbn [fst snd] in *. unfold summary_partition_step. case_bool_decide as Hin; [done|].
  assert (forall l, l ≡ₚ s :: (u ++ e) -> NoDup (norm_path ∘ sm_file <$> l) /\ forall x, x ∈ l -> norm_path (sm_file x) ∈ seen ++ [norm_path (sm_file s)]) as H.
  { intros l Hl. split.
    - rewrite Hl, fmap_cons. constructor; [|done]. intros (x & Hx & Hxe)%list_elem_of_fmap. cbn in Hx. rewrite Hx in Hin. auto.
    - intros x. rewrite Hl. intros [->|Hx]%elem_of_cons; set_solver. }
  destruct (is_event_folder_path _); cbn [fst snd]; apply H; solve_Permutation.
Qed.

Lemma timed_row_file c : clip_file (timed_row c) = sm_file (snd c).
Proof. done. Qed.

Lemma stamped_row s c : stamped parse_iso s = Some c -> snd c = s.
Proof. unfold stamped. intros (ts & _ & ->)%fmap_Some. done. Qed.

(** Any choice of stamped rows without repetition has distinct paths. *)
Lemma omap_sublist_map {A B C} (f : A -> option B) (g : B -> C) (h : A -> C) (l : list A) :
  (forall x y, f x = Some y -> g y = h x) -> g <$> omap f l `sublist_of` h <$> l.
Proof.
  intros H. induction l as [|x l IH]; csimpl; [constructor|]. destruct (f x) eqn:E; csimpl; [|by apply sublist_cons].
  rewrite (H _ _ E). by apply sublist_skip.
Qed.

Lemma picked_nodup {A B} (g : A -> B) (l : list A) (idx : list nat) :
  NoDup (g <$> l) -> NoDup idx -> NoDup (g <$> omap (fun i => l !! i) idx).
Proof.
  intros Hl. induction 1 as [|i idx Hi _ IH]; csimpl; [constructor|]. destruct (l !! i) as [x|] eqn:E; csimpl; [|done].
  constructor; [|done]. intros (y & Hy & (j & Hj & Hyj)%list_elem_of_omap)%list_elem_of_fmap.
  apply Hi. replace i with j; [done|]. eapply (NoDup_lookup _ j i (g x) Hl).
  - rewrite list_lookup_fmap, Hyj. by rewrite Hy.
  - by rewrite list_lookup_fmap, E.
Qed.

Lemma picked_subset {A} (l : list A) (idx : list nat) x : x ∈ omap (fun i => l !! i) idx -> x ∈ l.
Proof. intros (i & _ & H)%list_elem_of_omap. by eapply list_elem_of_lookup_2. Qed.

Lemma set_spans_rows timed : us_summary <$> summary_set_spans timed = us_summary <$> timed.
Proof.
  unfold summary_set_spans. set (sp := clip_spans _).
  assert (length sp = length timed) as Hl by (unfold sp; by rewrite length_clip_spans, !length_fmap).
  clearbody sp. revert sp Hl. induction timed as [|t ts IH]; intros [|s sp] Hl; try done. cbn. f_equal. apply IH. by injection Hl.
Qed.

Lemma filled_perm timed events :
  exists idx, summary_fill_gaps parse_iso timed events
    ≡ₚ timed ++ (timed_row <$> omap (fun i => omap (stamped parse_iso) events !! i) idx)
  /\ (ascending (us_timestamp <$> timed) -> NoDup idx).
Proof.
  unfold summary_fill_gaps. destruct (is_empty events); [exists []; split; [by rewrite app_nil_r|constructor]|].
  set (cands := omap _ _). set (sel := select_gap_fill _ _). destruct (is_empty sel) eqn:E.
  { exists []. split; [by rewrite app_nil_r|constructor]. }
  exists sel. split.
  - unfold sort_by_key. rewrite sort_by_perm. f_equiv. by rewrite fmap_omap'.
  - intros Ha. by apply select_gap_fill_NoDup.
Qed.

Lemma sorted_times (l : list TimedSummary) : ascending (us_timestamp <$> sort_by_key us_timestamp l).
Proof.
  by apply (StronglySorted_fmap us_timestamp (fun a b => us_timestamp a <= us_timestamp b)), sort_by_key_strongly.
Qed.

Lemma admitted_files S : NoDup ((fun c => norm_path (clip_file c)) <$> admitted_clips parse_iso S).
Proof.
  unfold admitted_clips. pose proof (partition_paths S) as Hp. cbv zeta in Hp.
  destruct (foldl summary_partition_step _ S) as [[seen u] e]. cbn [fst snd] in Hp.
  set (timed := sort_by_key _ _). destruct (filled_perm timed e) as (idx & Hf & Hidx).
  assert (NoDup idx) as Hn by (apply Hidx, sorted_times).
  change (fun c => norm_path (clip_file c)) with ((norm_path ∘ sm_file) ∘ us_summary). rewrite list_fmap_compose, set_spans_rows.
  rewrite Hf. unfold timed, sort_by_key. rewrite sort_by_perm, !fmap_app, <- !list_fmap_compose.
  change ((norm_path ∘ sm_file) ∘ (us_summary ∘ timed_row)) with ((norm_path ∘ sm_file) ∘ (snd : Z * RouteSummary -> _)).
  rewrite fmap_app in Hp. apply NoDup_app in Hp as (H1 & H2 & H3).
  assert (forall l, (norm_path ∘ sm_file) ∘ snd <$> omap (stamped parse_iso) l `sublist_of` norm_path ∘ sm_file <$> l) as Hsub.
  { intros l. apply omap_sublist_map. intros x y Hy%stamped_row. cbn. by rewrite Hy. }
  apply NoDup_app. split_and!.
  - eapply sublist_NoDup; [exact H1|apply Hsub].
  - intros x Hx (y & -> & Hy%picked_subset)%list_elem_of_fmap. eapply H2.
    + eapply elem_of_sublist; [exact Hx|apply Hsub].
    + eapply elem_of_sublist; [exact (list_elem_of_fmap_2 ((norm_path ∘ sm_file) ∘ snd) _ _ Hy)|apply Hsub].
  - apply picked_nodup; [|done]. eapply sublist_NoDup; [exact H3|apply Hsub].
Qed.

End groups.

(** ** Frames *)

Definition has_frame (k : Z) (w : SubClipSummary) : bool := (sc_start_frame w <=? k) && (k <? sc_end_frame w).
Definition seg_has (k : Z) (s : RawSeg) : bool := (rs_start s <=? k) && (k <? rs_end s).
Definition count_if {A} (p : A -> bool) (l : list A) : nat := length (List.filter p l).

Lemma count_if_app {A} (p : A -> bool) l1 l2 : count_if p (l1 ++ l2) = (count_if p l1 + count_if p l2)%nat.
Proof. unfold count_if. by rewrite List.filter_app, length_app. Qed.

Lemma count_if_fmap {A B} (p : B -> bool) (f : A -> B) l : count_if p (f <$> l) = count_if (fun x => p (f x)) l.
Proof. induction l as [|x l IH]; [done|]. unfold count_if in *. cbn. destruct (p (f x)); cbn; by rewrite IH. Qed.

Lemma count_if_ext {A} (p q : A -> bool) l : (forall x, x ∈ l -> p x = q x) -> count_if p l = count_if q l.
Proof.
  intros H. unfold count_if. induction l as [|x l IH]; [done|]. cbn. rewrite (H x) by set_solver.
  destruct (q x); cbn; rewrite IH by set_solver; done.
Qed.

(** Exactly one segment of a tiling holds a frame, and it has the frame's flag. *)
Lemma tiles_flag lo segs hi k : tiles lo segs hi -> lo <= k < hi ->
  exists s, s ∈ segs /\ seg_has k s = true /\ seg_flags segs !! Z.to_nat (k - lo) = Some (rs_parked s)
    /\ count_if (seg_has k) segs = 1%nat.
Proof.
  induction 1 as [lo|lo mid hi p t Hle Ht IH]; intros Hk; [lia|].
  assert (forall s, s ∈ t -> k < mid -> seg_has k s = false) as Hlater.
  { intros s Hs Hm. destruct (tiles_bounds _ _ _ _ Ht Hs). unfold seg_has. apply andb_false_iff. left. lia. }
  assert (length (replicate (Z.to_nat (mid - lo)) p) = Z.to_nat (mid - lo)) as Hl by apply length_replicate.
  unfold seg_flags. rewrite fmap_cons, expand_cons. cbn [rs_parked rs_start rs_end fst snd]. fold (seg_flags t).
  destruct (Z.lt_ge_cases k mid) as [Hm|Hm].
  - exists (mkRaw lo mid p). assert (seg_has k (mkRaw lo mid p) = true) as Hh by (unfold seg_has; cbn; lia).
    split_and!; [set_solver|done| |].
    + rewrite lookup_app_l by lia. apply lookup_replicate. split; [done|lia].
    + unfold count_if. cbn [List.filter]. rewrite Hh. cbn [length]. f_equal.
      assert (count_if (seg_has k) t = count_if (fun _ => false) t) as E by (apply count_if_ext; auto).
      unfold count_if in E. rewrite E. clear. by induction t.
  - destruct (IH ltac:(lia)) as (s & Hs & Hh & Hf & Hc). exists s. split_and!; [set_solver|done| |].
    + rewrite lookup_app_r by lia. rewrite Hl. rewrite <- Hf. f_equal. lia.
    + unfold count_if. cbn [List.filter].
      assert (seg_has k (mkRaw lo mid p) = false) as -> by (unfold seg_has; cbn; lia). exact Hc.
Qed.

Lemma count_if_0 {A} (p : A -> bool) l x : count_if p l = 0%nat -> x ∈ l -> p x = false.
Proof.
  unfold count_if. induction l as [|y l IH]; [set_solver|]. cbn [List.filter].
  destruct (p y) eqn:E; [done|]. intros H [->|Hx]%elem_of_cons; [done|by apply IH].
Qed.

Lemma count_filter_one {A} (p q : A -> bool) l x :
  x ∈ l -> p x = true -> count_if p l = 1%nat ->
  count_if p (filter (fun y => q y = false) l) = if q x then 0%nat else 1%nat.
Proof.
  intros Hx Hp Hc. assert (count_if p (filter (fun y => q y = false) l) = count_if (fun y => p y && negb (q y)) l) as ->.
  { clear. induction l as [|y l IH]; [done|]. rewrite filter_cons. unfold count_if in *. cbn [List.filter].
    destruct (q y); [rewrite decide_False by done|rewrite decide_True by done]; cbn [List.filter negb];
      rewrite ?andb_false_r, ?andb_true_r; [done|]. destruct (p y); cbn [length]; by rewrite IH. }
  apply list_elem_of_split in Hx as (l1 & l2 & ->). rewrite count_if_app in *.
  assert (forall l, count_if p (x :: l) = S (count_if p l)) as Hs by (intros; unfold count_if; cbn; by rewrite Hp).
  rewrite Hs in Hc. assert (forall l, count_if p l = 0%nat -> count_if (fun y => p y && negb (q y)) l = 0%nat) as H0.
  { intros l Hl. rewrite (count_if_ext _ (fun _ => false)) by (intros y Hy; by rewrite (count_if_0 _ _ _ Hl Hy)).
    clear. by induction l. }
  rewrite (H0 l1) by lia. unfold count_if. cbn [List.filter]. rewrite Hp. cbn [andb].
  specialize (H0 l2 ltac:(lia)). unfold count_if in H0. destruct (q x); cbn [negb length]; lia.
Qed.

(** The frames of a clip's sub-clips are its frames outside park gaps. *)
Lemma parts_frames c k : runs_ok (gears c) -> 0 <= k < frames c ->
  Some (count_if (has_frame k) (driving_parts c)) = (fun parked : bool => if parked then 0%nat else 1%nat) <$> park_flags c !! Z.to_nat k.
Proof.
  intros Hok Hk. destruct (merged_segs_tiles c Hok) as (Ht & _ & Hf).
  destruct (tiles_flag _ _ _ k Ht ltac:(lia)) as (s & Hs & Hh & Hfl & Hc). rewrite Z.sub_0_r, Hf in Hfl. rewrite Hfl. cbn [fmap option_fmap option_map].
  f_equal. unfold driving_parts. destruct (Z.eqb_spec (frames c) 0); [lia|].
  destruct (forallb rs_parked (merged_segs true c)) eqn:Ea.
  { rewrite forallb_forall in Ea. by rewrite (Ea s) by (by apply list_elem_of_In). }
  destruct (existsb rs_parked (merged_segs true c)) eqn:Ee; cbn [negb].
  2: { assert (rs_parked s = false) as ->.
       { apply not_true_is_false. intros E. assert (existsb rs_parked (merged_segs true c) = true); [|congruence].
         apply existsb_exists. exists s. split; [by apply list_elem_of_In|done]. }
       unfold count_if, has_frame. cbn. rewrite (proj2 (Z.leb_le 0 k)), (proj2 (Z.ltb_lt k (frames c))) by lia. done. }
  rewrite count_if_fmap.
  by apply (count_filter_one (seg_has k) rs_parked _ s).
Qed.

(** ** Drives join at clip boundaries *)

Notation file_of w := (sm_file (sc_summary w)).

(** Only the first sub-clip may start inside its clip, only the last may end
    inside it, and no clip occurs twice. *)
Record joined (d : list SubClipSummary) : Prop := {
  jn_starts : Forall (fun w => sc_start_frame w = 0) (tail d);
  jn_ends : Forall (fun w => sc_end_frame w = sc_total_frames w) (tail (reverse d));
  jn_files : NoDup ((fun w => file_of w) <$> d);
}.

Lemma sublist_tail {A} (l k : list A) : l `sublist_of` k -> tail l `sublist_of` tail k.
Proof. destruct 1 as [|x l k H|x l k H]; cbn; [done|done|]. destruct l; [apply sublist_nil_l|]. etrans; [|exact H]. by apply sublist_cons. Qed.

Lemma sublist_Forall {A} (P : A -> Prop) (l k : list A) : l `sublist_of` k -> Forall P k -> Forall P l.
Proof. intros Hs Hk. rewrite Forall_forall in *. intros x Hx. apply Hk. by eapply elem_of_sublist. Qed.

Lemma sublist_reverse {A} (l k : list A) : l `sublist_of` k -> reverse l `sublist_of` reverse k.
Proof.
  induction 1 as [|x l k H IH|x l k H IH]; [done|rewrite !reverse_cons; by apply sublist_app|].
  rewrite reverse_cons. by apply sublist_inserts_r.
Qed.

Lemma sublist_fmap {A B} (f : A -> B) (l k : list A) : l `sublist_of` k -> f <$> l `sublist_of` f <$> k.
Proof. induction 1; csimpl; by constructor. Qed.

Lemma joined_sublist l k : l `sublist_of` k -> joined k -> joined l.
Proof.
  intros Hs [H1 H2 H3]. split.
  - eapply sublist_Forall; [by apply sublist_tail|done].
  - eapply sublist_Forall; [apply sublist_tail; by apply sublist_reverse|done].
  - eapply sublist_NoDup; [exact H3|]. by apply sublist_fmap.
Qed.

(** The open drive at a clip boundary: it joins, ends whole, and its files are
    among those seen. *)
Record open_ok (seen : list str) (cur : list SubClipSummary) : Prop := {
  op_starts : Forall (fun w => sc_start_frame w = 0) (tail cur);
  op_ends : Forall (fun w => sc_end_frame w = sc_total_frames w) cur;
  op_files : NoDup ((fun w => file_of w) <$> cur);
  op_seen : Forall (fun w => file_of w ∈ seen) cur;
}.

Definition drives_ok (st : list (list SubClipSummary) * list SubClipSummary) : Prop :=
  Forall (fun d => d <> [] /\ joined d) (fst st).

Lemma open_joined_snoc seen cur w :
  open_ok seen cur -> file_of w ∉ seen -> (cur = [] \/ sc_start_frame w = 0) -> joined (cur ++ [w]).
Proof.
  intros [H1 H2 H3 H4] Hw Hs. split.
  - destruct cur as [|x cur]; [constructor|]. cbn [tail app] in *. apply Forall_app. split; [done|].
    apply Forall_singleton. by destruct Hs.
  - rewrite reverse_snoc. cbn [tail]. by apply Forall_reverse.
  - rewrite fmap_app. apply NoDup_app. split_and!; [done| |apply NoDup_singleton].
    intros f (x & -> & Hx)%list_elem_of_fmap Hf. rewrite Forall_forall in H4. specialize (H4 x Hx).
    apply list_elem_of_singleton in Hf. by rewrite Hf in H4.
Qed.

Lemma open_joined seen cur : open_ok seen cur -> joined cur.
Proof.
  intros [H1 H2 H3 _]. split; [done| |done]. assert (Forall (fun w => sc_end_frame w = sc_total_frames w) (reverse cur)) as H
    by (by apply Forall_reverse). destruct (reverse cur); [constructor|]. by inversion H.
Qed.

Lemma open_push seen cur w :
  open_ok seen cur -> file_of w ∉ seen -> (cur = [] \/ sc_start_frame w = 0) -> sc_end_frame w = sc_total_frames w ->
  open_ok (seen ++ [file_of w]) (cur ++ [w]).
Proof.
  intros Ho Hw Hs He. destruct (open_joined_snoc _ _ _ Ho Hw Hs) as [J1 _ J3]. destruct Ho as [H1 H2 H3 H4]. split; [done| |done|].
  - apply Forall_app. split; [done|by apply Forall_singleton].
  - apply Forall_app. split; [|apply Forall_singleton; set_solver]. eapply Forall_impl; [exact H4|]. set_solver.
Qed.

Lemma open_weaken seen seen' cur : open_ok seen cur -> seen ⊆ seen' -> open_ok seen' cur.
Proof. intros [H1 H2 H3 H4] Hs. split; [done..|]. eapply Forall_impl; [exact H4|]. auto. Qed.

Lemma open_nil seen : open_ok seen [].
Proof. split; constructor. Qed.

Lemma close_ok st : drives_ok st -> joined (snd st) -> drives_ok (close st) /\ snd (close st) = [].
Proof.
  destruct st as [a [|x b]]; [done|]. intros H J. cbn. split; [|done]. apply Forall_app. split; [done|by apply Forall_singleton].
Qed.

(** While the segments of a clip are walked, from frame [lo]: either no sub-clip
    of it is in the open drive, or its last one ends here and a park comes next. *)
Definition mid_ok (c : TimedSummary) (seen : list str) (lo : Z) (segs : list RawSeg)
    (st : list (list SubClipSummary) * list SubClipSummary) : Prop :=
  drives_ok st /\
  ((open_ok seen (snd st) /\ (snd st = [] \/ lo = 0))
   \/ exists cur w, snd st = cur ++ [w] /\ open_ok seen cur /\ (cur = [] \/ sc_start_frame w = 0) /\ file_of w = sm_file (us_summary c)
        /\ sc_end_frame w = lo /\ sc_total_frames w = frames c /\ (forall s, head segs = Some s -> rs_parked s = true)).

Lemma mid_joined c seen lo segs st : sm_file (us_summary c) ∉ seen -> mid_ok c seen lo segs st -> joined (snd st).
Proof.
  intros Hc [_ [[Ho _]|(cur & w & -> & Ho & Hs & Hf & _)]]; [by eapply open_joined|].
  eapply open_joined_snoc; [done| |done]. by rewrite Hf.
Qed.

Lemma seg_fold_ok c seen segs lo : forall st,
  tiles lo segs (frames c) -> Sorted separated segs -> sm_file (us_summary c) ∉ seen -> mid_ok c seen lo segs st ->
  mid_ok c seen (frames c) [] (foldl (summary_seg_step true c) st segs).
Proof.
  revert lo. induction segs as [|s segs IH]; intros lo st Ht Hs Hc Hm.
  { by inversion Ht; subst. }
  inversion Ht as [|? mid ? p ? Hle Ht']; subst. inversion Hs as [|? ? Hs' Hhd]; subst. cbn [foldl].
  apply (IH mid); [done|done|done|]. unfold summary_seg_step. cbn [rs_parked]. pose proof (mid_joined _ _ _ _ _ Hc Hm) as Hj.
  destruct p.
  - destruct Hm as [Hd _]. destruct (close_ok st Hd Hj) as [H1 H2]. split; [done|]. left. rewrite H2. split; [apply open_nil|by left].
  - destruct Hm as [Hd [[Ho Hlo]|(cur & w & _ & _ & _ & _ & _ & _ & Hp)]]; [|by specialize (Hp _ eq_refl)].
    split; [done|]. right. exists (snd st), (sub_clip true c (mkRaw lo mid false)). cbn. split_and!; [done|done|naive_solver|done..|].
    intros s' Hh. destruct segs as [|s0 segs]; [done|]. injection Hh as <-. inversion Hhd as [|? ? Hsep]; subst.
    destruct Hsep as [|]; done.
Qed.

(** One clip keeps the drives in order. *)
Lemma gear_step_ok c seen st :
  runs_ok (gears c) -> sm_file (us_summary c) ∉ seen -> drives_ok st -> open_ok seen (snd st) ->
  drives_ok (summary_gear_step true st c) /\ open_ok (seen ++ [sm_file (us_summary c)]) (snd (summary_gear_step true st c)).
Proof.
  intros Hok Hc Hd Ho. unfold summary_gear_step. destruct (_ =? 0) eqn:E0.
  { split; [done|]. by apply (open_push seen (snd st) (whole c)); [..|right|]. }
  destruct (merged_segs_tiles c Hok) as (Ht & Hs & _).
  destruct (forallb _ _).
  { destruct (close_ok st Hd (open_joined _ _ Ho)) as [H1 H2]. split; [done|]. rewrite H2. apply open_nil. }
  destruct (negb _).
  { split; [done|]. by apply (open_push seen (snd st) (minute c)); [..|right|]. }
  destruct (seg_fold_ok c seen (merged_segs true c) 0 st Ht Hs Hc) as [H1 [[H2 _]|(cur & w & E & H3 & H4 & H5 & H6 & H7 & _)]].
  { split; [done|]. left. split; [done|by right]. }
  - split; [done|]. eapply open_weaken; [exact H2|set_solver].
  - split; [done|]. rewrite E, <- H5. apply open_push; [done|by rewrite H5|done|congruence].
Qed.

Lemma legacy_step_ok c seen st :
  sm_file (us_summary c) ∉ seen -> drives_ok st -> open_ok seen (snd st) ->
  drives_ok (summary_legacy_step st c) /\ open_ok (seen ++ [sm_file (us_summary c)]) (snd (summary_legacy_step st c)).
Proof.
  intros Hc Hd Ho. unfold summary_legacy_step. destruct (mostly_park _).
  - destruct (close_ok st Hd (open_joined _ _ Ho)) as [H1 H2]. split; [done|]. rewrite H2. apply open_nil.
  - split; [done|]. by apply (open_push seen (snd st) (whole c)); [..|right|].
Qed.

Lemma fold_ok (step : _ -> TimedSummary -> _) (P : TimedSummary -> Prop) group :
  (forall c seen st, P c -> sm_file (us_summary c) ∉ seen -> drives_ok st -> open_ok seen (snd st) ->
     drives_ok (step st c) /\ open_ok (seen ++ [sm_file (us_summary c)]) (snd (step st c))) ->
  Forall P group -> NoDup ((fun c => sm_file (us_summary c)) <$> group) ->
  Forall (fun d => d <> [] /\ joined d) (fst (close (foldl step ([], []) group))).
Proof.
  intros Hstep Hp Hn. assert (forall seen st, drives_ok st -> open_ok seen (snd st) ->
    (forall c, c ∈ group -> sm_file (us_summary c) ∉ seen) ->
    drives_ok (foldl step st group) /\ exists seen', open_ok seen' (snd (foldl step st group))) as H.
  { revert Hn. induction Hp as [|c group Hc Hp IH]; intros Hn seen st Hd Ho Hs; [by eauto|].
    rewrite fmap_cons in Hn. apply NoDup_cons in Hn as [Hnc Hn]. cbn [foldl].
    destruct (Hstep c seen st Hc) as [H1 H2]; [apply Hs; set_solver|done|done|].
    apply (IH Hn (seen ++ [sm_file (us_summary c)])); [done|done|]. intros c' Hc' [Hin|Hin]%elem_of_app.
    - eapply Hs; [|exact Hin]. set_solver.
    - apply list_elem_of_singleton in Hin. apply Hnc. rewrite <- Hin. by apply (list_elem_of_fmap_2 (fun c => sm_file (us_summary c))). }
  destruct (H [] ([], [])) as [H1 (seen & H2)]; [constructor|apply open_nil|set_solver|].
  by destruct (close_ok _ H1 (open_joined _ _ H2)).
Qed.

Lemma split_gear_ok tg : Forall (fun c => runs_ok (gears c)) tg -> NoDup ((fun c => sm_file (us_summary c)) <$> tg) ->
  Forall (fun d => d <> [] /\ joined d) (split_summary_by_gear_state_with_clock true tg).
Proof.
  intros Hr Hn. unfold split_summary_by_gear_state_with_clock. destruct (is_empty tg) eqn:Ee; [constructor|]. destruct (negb _).
  - unfold split_summary_by_gear_state_legacy. destruct (Nat.leb_spec (length tg) 1) as [Hl|Hl].
    + destruct tg as [|c [|]]; [done| |cbn in Hl; lia]. apply Forall_singleton. split; [done|].
      apply (open_joined [sm_file (us_summary c)]). apply (open_push [] [] (whole c)); [apply open_nil|set_solver|by left|done].
    + apply (fold_ok _ (fun _ => True)); [|by apply Forall_true|done]. intros c seen st _. apply legacy_step_ok.
  - apply (fold_ok _ (fun c => runs_ok (gears c))); [|done|done]. intros. by apply gear_step_ok.
Qed.

Section drives.
Context (parse_iso : str -> option Z) (S : list RouteSummary).

Lemma partition_rows x : let r := foldl summary_partition_step ([], [], []) S in x ∈ snd (fst r) ++ snd r -> x ∈ S.
Proof.
  apply (foldl_inv (fun r : list str * list RouteSummary * list RouteSummary => x ∈ snd (fst r) ++ snd r -> x ∈ S)).
  2: { set_solver. }
  intros [[seen u] e] s Hs IH. unfold summary_partition_step. case_bool_decide; [done|].
  destruct (is_event_folder_path _); cbn [fst snd] in *; rewrite !elem_of_app, ?list_elem_of_singleton in *; naive_solver.
Qed.

Lemma admitted_rows c : c ∈ admitted_clips parse_iso S -> us_summary c ∈ S.
Proof.
  intros Hc. apply (list_elem_of_fmap_2 us_summary) in Hc. revert Hc. unfold admitted_clips.
  pose proof (partition_rows (us_summary c)) as Hp. cbv zeta in Hp.
  destruct (foldl summary_partition_step _ S) as [[seen u] e]. cbn [fst snd] in Hp. rewrite set_spans_rows.
  destruct (filled_perm parse_iso (sort_by_key us_timestamp (timed_row <$> omap (stamped parse_iso) u)) e) as (idx & -> & _).
  unfold sort_by_key. rewrite sort_by_perm, fmap_app, <- !list_fmap_compose, elem_of_app. intros Hc. apply Hp, elem_of_app.
  assert (forall (l : list RouteSummary) y, y ∈ omap (stamped parse_iso) l -> snd y ∈ l) as Hst.
  { intros l y (s & Hs & Hy%stamped_row)%list_elem_of_omap. by rewrite Hy. }
  destruct Hc as [(y & Hy & Hin)%list_elem_of_fmap|(y & Hy & Hin%picked_subset)%list_elem_of_fmap]; cbn in Hy; rewrite Hy; auto.
Qed.

Lemma admitted_nodup : NoDup ((fun c => sm_file (us_summary c)) <$> admitted_clips parse_iso S).
Proof.
  pose proof (admitted_files parse_iso S) as H. apply NoDup_alt. intros i j f Hi Hj. rewrite list_lookup_fmap in Hi, Hj.
  apply fmap_Some in Hi as (a & Ha & ->). apply fmap_Some in Hj as (b & Hb & E).
  apply (NoDup_lookup _ i j (norm_path (sm_file (us_summary a))) H); rewrite list_lookup_fmap.
  - by rewrite Ha.
  - rewrite Hb. cbn. by rewrite E.
Qed.

Context (hash_order : list str -> list str).
Hypothesis hash_order_perm : forall ks, hash_order ks ≡ₚ ks.
Hypothesis rows : rows_ok S.

(** Every drive is a run of sub-clips that join. *)
Lemma drives_joined d : d ∈ group_summary_clips parse_iso hash_order S -> d <> [] /\ joined d.
Proof using hash_order_perm rows.
  unfold group_summary_clips, group_summary_clips_with_clock.
  intros (tg & Hd & Htg)%list_elem_of_bind. apply list_elem_of_bind in Hd as (g & Hd & Hg).
  assert (Forall (fun g => g <> [] /\ joined g) (split_summary_by_gear_state_with_clock true tg)) as Hj.
  { pose proof (time_groups_concat us_timestamp (admitted_clips parse_iso S)) as Hc.
    apply list_elem_of_split in Htg as (l1 & l2 & El). rewrite El, concat_app in Hc. cbn [concat] in Hc.
    apply split_gear_ok.
    - apply Forall_forall. intros c Hin. unfold rows_ok in rows. rewrite Forall_forall in rows. apply rows, admitted_rows.
      rewrite <- Hc. set_solver.
    - pose proof admitted_nodup as Hn. rewrite <- Hc, !fmap_app in Hn. apply NoDup_app in Hn as (_ & _ & Hn).
      by apply NoDup_app in Hn as (Hn & _). }
  rewrite Forall_forall in Hj. destruct (Hj g Hg) as [Hne Hjg].
  destruct (split_signature_sublist (fun c => sm_external_signature (sc_summary c)) hash_order g d) as [Hs Hn]; [done..|].
  split; [done|]. by eapply joined_sublist.
Qed.
End drives.

(** ** The windows of a clip over all drives *)

Lemma pick_one {A B K} `{!EqDecision K} (kA : A -> K) (kB : B -> K) (f : A -> list B) l c :
  NoDup (kA <$> l) -> c ∈ l -> (forall x w, w ∈ f x -> kB w = kA x) ->
  filter (fun w => kB w = kA c) (mbind f l) = f c.
Proof.
  intros Hn Hc Hk. apply list_elem_of_split in Hc as (l1 & l2 & ->). rewrite fmap_app, fmap_cons in Hn.
  apply NoDup_app in Hn as (_ & H1 & [H2 _]%NoDup_cons). rewrite bind_app, bind_cons, !filter_app, !filter_mbind.
  assert (forall l, (forall x, x ∈ l -> kA x <> kA c) -> mbind (fun x => filter (fun w => kB w = kA c) (f x)) l = []) as Hnil.
  { induction l as [|x l IH]; intros Hl; csimpl; [done|]. rewrite IH by set_solver.
    rewrite app_nil_r. apply filter_none, Forall_forall. intros w Hw. rewrite (Hk x w Hw). apply Hl. set_solver. }
  rewrite (Hnil l1), (Hnil l2).
  - rewrite app_nil_r. cbn [app]. apply filter_all, Forall_forall. intros w Hw. by apply Hk.
  - intros x Hx E. apply H2. rewrite <- E. by apply list_elem_of_fmap_2.
  - intros x Hx E. apply (H1 (kA x)); [by apply list_elem_of_fmap_2|]. rewrite E. set_solver.
Qed.

Lemma parts_row tg c w : w ∈ parts_in tg c -> sc_summary w = us_summary c.
Proof.
  unfold parts_in, driving_parts, legacy_parts. destruct (has_gears tg).
  - destruct (_ =? 0); [set_solver|]. destruct (forallb _ _); [set_solver|]. destruct (negb _); [set_solver|].
    by intros (s & -> & _)%list_elem_of_fmap.
  - destruct (_ && _); set_solver.
Qed.

Section windows.
Context (parse_iso : str -> option Z) (hash_order : list str -> list str) (S : list RouteSummary).
Hypothesis hash_order_perm : forall ks, hash_order ks ≡ₚ ks.

(** The sub-clips cut from the clip of [c], over all drives. *)
Definition windows (c : TimedSummary) : list SubClipSummary :=
  filter (fun w => file_of w = sm_file (us_summary c)) (concat (group_summary_clips parse_iso hash_order S)).

Lemma windows_parts c : c ∈ admitted_clips parse_iso S ->
  exists tg, c ∈ tg /\ tg ∈ time_groups us_timestamp (admitted_clips parse_iso S) /\ windows c ≡ₚ parts_in tg c.
Proof using hash_order_perm.
  intros Hc. set (TG := time_groups us_timestamp (admitted_clips parse_iso S)).
  pose proof (time_groups_concat us_timestamp (admitted_clips parse_iso S)) as Hcc. fold TG in Hcc.
  set (pairs := mbind (fun tg : list TimedSummary => (fun x => (tg, x)) <$> tg) TG).
  assert (pairs.*2 = admitted_clips parse_iso S) as Hp2.
  { rewrite <- Hcc. unfold pairs. clear. induction TG as [|tg TG IH]; [done|]. csimpl. rewrite fmap_app, IH. f_equal.
    rewrite <- list_fmap_compose. by rewrite list_fmap_id. }
  assert (exists tg, (tg, c) ∈ pairs) as (tg & Htg).
  { rewrite <- Hp2 in Hc. apply list_elem_of_fmap in Hc as ([tg x] & -> & Hx). by exists tg. }
  exists tg. assert (c ∈ tg /\ tg ∈ TG) as [H1 H2].
  { unfold pairs in Htg. apply list_elem_of_bind in Htg as (tg' & (x & [= -> ->] & Hx)%list_elem_of_fmap & Hin). done. }
  split_and!; [done..|]. unfold windows. rewrite (groups_perm parse_iso hash_order S hash_order_perm). fold TG.
  assert (mbind (fun tg => mbind (parts_in tg) tg) TG = mbind (fun p => parts_in (fst p) (snd p)) pairs) as ->.
  { unfold pairs. clear. induction TG as [|tg TG IH]; [done|]. csimpl. rewrite bind_app, IH. f_equal. clear.
    generalize tg at 1 3. intros g. induction tg as [|x tg IH]; [done|]. csimpl. by rewrite IH. }
  rewrite (pick_one (fun p => sm_file (us_summary (snd p))) (fun w => file_of w) (fun p => parts_in (fst p) (snd p)) pairs (tg, c)); [done|..].
  - pose proof (admitted_nodup parse_iso S) as Hn. rewrite <- Hp2, <- list_fmap_compose in Hn. exact Hn.
  - done.
  - intros x w Hw. by rewrite (parts_row _ _ _ Hw).
Qed.
End windows.

Lemma count_if_perm {A} (p : A -> bool) l k : l ≡ₚ k -> count_if p l = count_if p k.
Proof. unfold count_if. induction 1; cbn; repeat case_match; cbn; congruence. Qed.

(** C11: grouping summary rows loses no driving and repeats none. Over all
    drives, the sub-clips cut from an admitted clip cover each of its frames
    exactly once when the car was driving and never when the frame is in a park
    gap of two seconds or more; a clip without gear data is in one drive whole,
    unless it was mostly parked. Every drive is a non-empty run of sub-clips
    that join: only its first may start inside its clip, only its last may end
    inside it, and no file occurs twice. *)
Theorem drive_windows_exact parse_iso hash_order S :
  (forall ks, hash_order ks ≡ₚ ks) -> rows_ok S ->
  (forall c, c ∈ admitted_clips parse_iso S ->
     let ws := windows parse_iso hash_order S c in
     if is_empty (gears c) then ws = [whole c] \/ (ws = [] /\ mostly_park (us_summary c) = true)
     else forall k, 0 <= k < frames c ->
       Some (count_if (has_frame k) ws) = (fun parked : bool => if parked then 0%nat else 1%nat) <$> park_flags c !! Z.to_nat k)
  /\ (forall d, d ∈ group_summary_clips parse_iso hash_order S -> d <> [] /\ joined d).
Proof.
  intros Ho Hr. split; [|by intros d; apply drives_joined]. intros c Hc ws.
  destruct (windows_parts parse_iso hash_order S Ho c Hc) as (tg & Htg & _ & Hp). fold ws in Hp.
  assert (runs_ok (gears c)) as Hok.
  { unfold rows_ok in Hr. rewrite Forall_forall in Hr. by eapply Hr, admitted_rows. }
  destruct (is_empty (gears c)) eqn:Eg.
  - unfold parts_in, driving_parts, legacy_parts in Hp. apply is_empty_nil in Eg. rewrite Eg in Hp. cbn [total_frames] in Hp.
    destruct (has_gears tg); [left; by apply Permutation_singleton_r in Hp|].
    destruct (_ && _) eqn:E; [right|left; by apply Permutation_singleton_r in Hp].
    apply andb_true_iff in E as [_ E]. split; [by apply Permutation_nil_r in Hp|done].
  - intros k Hk. rewrite (count_if_perm _ _ _ Hp). unfold parts_in, has_gears.
    assert (existsb (fun c => negb (is_empty (gears c))) tg = true) as ->; [|by apply parts_frames].
    apply existsb_exists. exists c. split; [by apply list_elem_of_In|by rewrite Eg].
Qed.

(** Two minutes of sixty frames each; the first stops for five seconds. *)
Definition demo_row (file : str) (runs : list GearRun) (a : Aggregate.RouteAggregates) : RouteSummary :=
  mkSummary file [] 0 0 runs [] [] a None None ble_empty None.
Definition stop_row : RouteSummary :=
  demo_row (lit "RecentClips/2026-08-08_10-00-00-front.mp4")
    [mkGearRun GEAR_DRIVE 20; mkGearRun GEAR_PARK 5; mkGearRun GEAR_DRIVE 35] Aggregate.no_aggregates.
Definition drive_row : RouteSummary :=
  demo_row (lit "RecentClips/2026-08-08_10-01-00-front.mp4") [mkGearRun GEAR_DRIVE 60] Aggregate.no_aggregates.

Lemma demo_rows_ok : rows_ok [stop_row; drive_row].
Proof. repeat constructor; cbn; lia. Qed.

Example demo_windows :
  map (map (fun w => (sc_timestamp w, sc_start_frame w, sc_end_frame w)))
    (group_summary_clips demo_parse id [stop_row; drive_row])
  = [[(36000000, 0, 20)]; [(36025000, 25, 60); (36060000, 0, 60)]].
Proof. vm_compute. reflexivity. Qed.

Lemma drive_windows_exact_witness :
  let ws := windows demo_parse id [stop_row; drive_row] (mkTimedSummary stop_row 36000000 60000) in
  count_if (has_frame 22) ws = 0%nat /\ count_if (has_frame 30) ws = 1%nat.
Proof.
  destruct (drive_windows_exact demo_parse id [stop_row; drive_row] (fun ks => reflexivity ks) demo_rows_ok) as [H _].
  specialize (H (mkTimedSummary stop_row 36000000 60000)
    ltac:(apply (list_elem_of_lookup_2 _ 0%nat); vm_compute; reflexivity)). cbv zeta in H |- *. cbn [is_empty stop_row demo_row us_summary sm_gear_runs] in H.
  pose proof (H 22 ltac:(vm_compute; by split)) as H1. pose proof (H 30 ltac:(vm_compute; by split)) as H2.
  split; apply (inj Some); [refine (eq_trans H1 _)|refine (eq_trans H2 _)]; vm_compute; reflexivity.
Defined.
