(* ===== verification/DriveStatsSpec.v ===== *)
(** * Drive statistics: counts across clip seams

    A drive's disengagements, pedal pushes and events are the sums of its
    clips', each file once, plus what the clips leave open at their seams, each
    judged once by the next clip or by the end of the drive. *)

From Stdlib Require Import ZArith Lia.
From stdpp Require Import base list sorting.
From S2P Require Import Prelude Float Types Str GapFill Calc Grouper GrouperSpec Summon Safety Aggregate Summary SummarySpec DriveStats.

Import Aggregate Summary DriveStats.
Open Scope Z_scope.

Notation agg w := (sm_aggregates (sc_summary w)).

(** The sub-clip runs to the end of its file. *)
Definition to_the_end (w : SubClipSummary) : Prop := sc_end_frame w = sc_total_frames w.

(** A disengagement left open: assistance switched off [p] ms before the end of
    the file, and the sub-clip runs to it. *)
Definition open_at_end (w : SubClipSummary) (p : Z) : Prop := to_the_end w /\ fsd_pend_ms_end (agg w) = Some p.

(** Park comes early enough in the next file: within two seconds of the switch. *)
Definition parked_in_time (p : Z) (w : SubClipSummary) : Prop :=
  exists pk, park_ms_start (agg w) = Some pk /\ F64.le pk (F64.sub (F64.of_Z 2000) p) = true.

(** The disengagements that a seam adds: at most one, when the clip before it
    left one open and the clip after it does not park in time. *)
Definition seam_adds (ab : SubClipSummary * SubClipSummary) (k : Z) : Prop :=
  ((exists p, open_at_end (fst ab) p /\ ~ parked_in_time p (snd ab)) /\ k = 1)
  \/ (~ (exists p, open_at_end (fst ab) p /\ ~ parked_in_time p (snd ab)) /\ k = 0).

(** Early pushes of the clip after a seam count when the clip before it ran to
    the end of its file with assistance engaged. *)
Definition seam_pushes (ab : SubClipSummary * SubClipSummary) (k : Z) : Prop :=
  (to_the_end (fst ab) /\ fsd_at_end (agg (fst ab)) = true /\ k = fsd_accel_pushes_early (agg (snd ab)))
  \/ (~ (to_the_end (fst ab) /\ fsd_at_end (agg (fst ab)) = true) /\ k = 0).

(** One more when the last clip of the drive left one open. *)
Definition end_adds (d : list SubClipSummary) (k : Z) : Prop :=
  ((exists w p, last d = Some w /\ open_at_end w p) /\ k = 1)
  \/ (~ (exists w p, last d = Some w /\ open_at_end w p) /\ k = 0).

Definition total (f : RouteAggregates -> Z) (d : list SubClipSummary) : Z := sum_Z ((fun w => f (agg w)) <$> d).

(** ** What the walk computes *)

Definition unexcused (ab : SubClipSummary * SubClipSummary) : Z :=
  if seam_disengaged (next_seam (fst ab)) (agg (snd ab)) then 1 else 0.
Definition continued_pushes (ab : SubClipSummary * SubClipSummary) : Z :=
  if prev_fsd_at_end (next_seam (fst ab)) then fsd_accel_pushes_early (agg (snd ab)) else 0.
Definition left_open (d : list SubClipSummary) : Z :=
  match last d with Some w => match pend_prev_ms (next_seam w) with Some _ => 1 | None => 0 end | None => 0 end.

Lemma open_at_end_iff w p : pend_prev_ms (next_seam w) = Some p <-> open_at_end w p.
Proof.
  unfold next_seam, open_at_end, to_the_end, at_end. destruct (Z.eqb_spec (sc_end_frame w) (sc_total_frames w)); cbn; naive_solver.
Qed.

Lemma unexcused_adds ab : seam_adds ab (unexcused ab).
Proof.
  unfold seam_adds, unexcused, seam_disengaged. setoid_rewrite <- open_at_end_iff. unfold parked_in_time.
  destruct (pend_prev_ms (next_seam (fst ab))) as [p|]; [|right; split; [naive_solver|done]].
  destruct (park_ms_start (agg (snd ab))) as [pk|]; [destruct (F64.le pk (F64.sub (F64.of_Z 2000) p)) eqn:E|]; cbn [negb].
  - right. split; [|done]. intros (q & [= <-] & H). apply H. by exists pk.
  - left. split; [|done]. exists p. split; [done|]. intros (q & [= <-] & H). congruence.
  - left. split; [|done]. exists p. split; [done|]. by intros (q & ? & _).
Qed.

Lemma continued_pushes_spec ab : seam_pushes ab (continued_pushes ab).
Proof.
  unfold seam_pushes, continued_pushes, next_seam, to_the_end, at_end.
  destruct (Z.eqb_spec (sc_end_frame (fst ab)) (sc_total_frames (fst ab))); cbn [prev_fsd_at_end].
  - destruct (fsd_at_end (agg (fst ab))); [by left|]. right. naive_solver.
  - right. naive_solver.
Qed.

Lemma left_open_adds d : end_adds d (left_open d).
Proof.
  unfold end_adds, left_open. setoid_rewrite <- open_at_end_iff. destruct (last d) as [w|]; [|right; naive_solver].
  destruct (pend_prev_ms (next_seam w)) as [p|] eqn:E; [left; naive_solver|].
  right. split; [|done]. intros (w' & p & [= <-] & H). congruence.
Qed.

Lemma i32_add_l x y : i32 (i32 x + y) = i32 (x + y).
Proof.
  assert (forall z, i32 z mod 2 ^ 32 = z mod 2 ^ 32) as Hm.
  { intros z. unfold i32, signed, wrap. destruct (_ <? _).
    - apply Z.mod_mod. lia.
    - rewrite Zminus_mod, Z_mod_same_full, Z.sub_0_r, !Z.mod_mod by lia. done. }
  assert (forall a b, a mod 2 ^ 32 = b mod 2 ^ 32 -> i32 a = i32 b) as He.
  { intros a b H. unfold i32, signed, wrap. by rewrite H. }
  apply He. by rewrite Zplus_mod, Hm, <- Zplus_mod.
Qed.

Record counted (d : list SubClipSummary) (w : Walked) : Prop := {
  ct_clips : unique_clip_count (w_counts w) = Z.of_nat (length d);
  ct_disengagements : disengagements (w_counts w) = i32 (total fsd_disengagements d + sum_Z (unexcused <$> windows2 d));
  ct_pushes : accel_pushes (w_counts w) = i32 (total fsd_accel_pushes d + sum_Z (continued_pushes <$> windows2 d));
  ct_brakes : brake_events (w_counts w) = i32 (total (fun a => i32 (or0 (safety_hard_brake_events a))) d);
  ct_turns : turn_events (w_counts w) = i32 (total (fun a => i32 (or0 (safety_aggr_turn_events a))) d);
  ct_seen : w_seen w = (fun x => sm_file (sc_summary x)) <$> d;
  ct_seam : w_seam w = match last d with Some x => next_seam x | None => w_seam walked0 end;
}.

Lemma walk_counted d :
  Forall (fun w => sc_start_frame w = 0) (tail d) -> NoDup ((fun w => sm_file (sc_summary w)) <$> d) ->
  counted d (walk_clips d).
Proof.
  induction d as [|x d IH] using rev_ind; intros Hs Hn; [done|].
  rewrite fmap_app in Hn. apply NoDup_app in Hn as (Hn & Hx & _).
  assert (Forall (fun w => sc_start_frame w = 0) (tail d)) as Hs'.
  { destruct d; [constructor|]. cbn [tail app] in *. by apply Forall_app in Hs as [? _]. }
  destruct (IH Hs' Hn) as [H1 H2 H3 H4 H5 H6 H7]. unfold walk_clips. rewrite foldl_snoc. fold (walk_clips d).
  set (w := walk_clips d) in *. unfold stats_step.
  assert (bool_decide (sm_file (sc_summary x) ∉ w_seen w) = true) as ->.
  { apply bool_decide_eq_true. rewrite H6. intros Hin. apply (Hx _ Hin). by apply list_elem_of_singleton. }
  assert (d <> [] -> at_start x = true) as Hat.
  { intros Hd. unfold at_start. apply Z.eqb_eq. destruct d; [done|]. cbn [tail app] in Hs.
    apply Forall_app in Hs as [_ Hs]. rewrite Forall_singleton in Hs. exact Hs. }
  assert (at_start x && seam_disengaged (w_seam w) (agg x)
    = match last d with Some a => seam_disengaged (next_seam a) (agg x) | None => false end) as Ed.
  { rewrite H7. destruct (last d) as [a|] eqn:El; [|by rewrite andb_comm]. rewrite Hat; [done|]. by intros ->. }
  assert (at_start x && prev_fsd_at_end (w_seam w)
    = match last d with Some a => prev_fsd_at_end (next_seam a) | None => false end) as Ep.
  { rewrite H7. destruct (last d) as [a|] eqn:El; [|by rewrite andb_comm]. rewrite Hat; [done|]. by intros ->. }
  assert (forall f, total f (d ++ [x]) = total f d + f (agg x)) as Ht.
  { intros f. unfold total. rewrite fmap_app, sum_Z_app. cbn. lia. }
  split; cbn [w_counts w_seen w_seam add_counts unique_clip_count disengagements accel_pushes brake_events turn_events].
  - rewrite H1, length_app. cbn. lia.
  - rewrite H2, Ht, windows2_snoc, fmap_app, sum_Z_app, Ed, !i32_add_l.
    generalize (sum_Z (unexcused <$> windows2 d)). intros k. destruct (last d) as [a|]; unfold unexcused;
      cbn [fmap list_fmap sum_Z foldr fst snd]; [destruct (seam_disengaged (next_seam a) (agg x))|];
      rewrite <- ?(Z.add_assoc (i32 _)), ?i32_add_l; f_equal; lia.
  - rewrite H3, Ht, windows2_snoc, fmap_app, sum_Z_app, Ep, !i32_add_l.
    generalize (sum_Z (continued_pushes <$> windows2 d)). intros k. destruct (last d) as [a|]; unfold continued_pushes;
      cbn [fmap list_fmap sum_Z foldr fst snd]; [destruct (prev_fsd_at_end (next_seam a))|];
      rewrite <- ?(Z.add_assoc (i32 _)), ?i32_add_l; f_equal; lia.
  - by rewrite H4, Ht, i32_add_l.
  - by rewrite H5, Ht, i32_add_l.
  - rewrite H6, fmap_app. done.
  - by rewrite last_snoc.
Qed.

Section drives.
Context (L : libm) (powf : Z -> Z -> Z) (fmt_ms fmt_day : Z -> str).
Local Notation build := (build_summary_from_aggregates L powf fmt_ms fmt_day).

(** The counts the summary takes over from the walk. *)
Lemma build_counts d idx tags :
  let s := build d idx tags in
  let c := w_counts (walk_clips d) in
  let unless v := if d_summon s then 0 else v in
  d_clip_count s = unique_clip_count c
  /\ d_fsd_disengagements s
     = unless (match pend_prev_ms (w_seam (walk_clips d)) with Some _ => i32 (disengagements c + 1) | None => disengagements c end)
  /\ d_fsd_accel_pushes s = unless (accel_pushes c)
  /\ Safety.t_hard_brake_events (d_safety s) = brake_events c
  /\ Safety.t_aggr_turn_events (d_safety s) = turn_events c.
Proof.
  cbv zeta. unfold build_summary_from_aggregates. destruct (summon_speed d) as [hs ms].
  match goal with |- context [compute_autopilot_percents ?a ?b ?c ?e ?f] =>
    destruct (compute_autopilot_percents a b c e f) as [[[p1 p2] p3] p4] end.
  cbn [d_clip_count d_fsd_disengagements d_fsd_accel_pushes d_safety d_summon].
  unfold safety_totals. cbn [Safety.t_hard_brake_events Safety.t_aggr_turn_events]. done.
Qed.


End drives.

(** Aggregates that matter at a seam. *)
Definition seam_agg (counted : Z) (pend park : option Z) : RouteAggregates :=
  mkAgg 0 0 0 0 0 0 0 0 0 0 0 0 counted 0 pend park false 0 None None None None None None
    None None None None None None None None None None None None None None None.

Definition row_a : RouteSummary :=
  demo_row (lit "RecentClips/2026-08-08_10-00-00-front.mp4") [mkGearRun GEAR_DRIVE 60] (seam_agg 1 (Some (F64.of_Z 500)) None).
Definition row_b (runs : list GearRun) (park : option Z) : RouteSummary :=
  demo_row (lit "RecentClips/2026-08-08_10-01-00-front.mp4") runs (seam_agg 0 None park).

Definition demo_fast (S : list RouteSummary) : list DriveSummary :=
  group_summaries_fast demo_libm (fun _ _ => 0) (fun _ => []) (fun _ => []) demo_parse id S [].


Example demo_seam : map d_fsd_disengagements (demo_fast [row_a; row_b [mkGearRun GEAR_DRIVE 60] None]) = [2].
Proof. vm_compute. reflexivity. Qed.

(** Assistance switches off half a second before a clip ends. With Park one
    frame into the next clip it parked the car and nothing is counted; with the
    next clip in Park from its first frame on, the drive ends at the seam and
    the same manoeuvre counts as a disengagement. *)
Example park_at_seam_counted :
  map d_fsd_disengagements (demo_fast [row_a; row_b [mkGearRun GEAR_DRIVE 1; mkGearRun GEAR_PARK 59] (Some (F64.of_Z 1000))]) = [1]
  /\ map d_fsd_disengagements (demo_fast [row_a; row_b [mkGearRun GEAR_PARK 60] (Some F64.zero)]) = [2].
Proof. split; vm_compute; reflexivity. Qed.
