(* ===== verification/DriveIndex.v ===== *)
(** * Resolving drive ids ([crates/drives/src/grouper.rs], [db.rs])

    A request names a drive by number or by start time. The reference resolver
    regroups every summary row; the cached one keeps a [DriveIndex] per revision
    of the route table and reads only the drive's own rows.

    A call of the store is a sequence of reads. Each read sees one committed
    state of the database, which other connections may change in between, and
    each look at the cache sees what some thread left there: both are streams
    the call consumes. Each grouping draws its own [HashMap] order, a number
    that picks one of [order]. *)

From Stdlib Require Import ZArith Lia.
From stdpp Require Import base list gmap.
From S2P Require Import Prelude Float Types Str GapFill Calc Grouper Summary DriveStats CloudCrypto.

Import Summary DriveStats.
Open Scope Z_scope.

Module DriveIndex.

Record IndexedClip := mkIndexedClip {
  ic_file : str; ic_timestamp : Z; ic_start_frame : Z; ic_end_frame : Z; ic_total_frames : Z;
  ic_clip_span_ms : Z; ic_fraction : Z;
}.
Record IndexedDrive := mkIndexedDrive { id_key : str; id_clips : list IndexedClip }.
Notation Index := (list IndexedDrive) (only parsing).

Inductive IndexedId := Found (i : nat) | Missing | NeedsLegacy.

Record DriveSelection := mkSelection {
  sel_index : nat; sel_files : list str; sel_clip_ids : list str; sel_clip_spans_ms : gmap (list Z) Z;
  sel_summary : DriveSummary;
}.

Record DriveClipWindow := mkWindow { dw_file : str; dw_start_frame : Z; dw_end_frame : Z; dw_total_frames : Z }.

(** [id.parse::<usize>()]. *)
Definition parse_usize (id : str) : option Z := parse_uint U64_MAX id.

Definition file_of (c : SubClipSummary) : str := sm_file (sc_summary c).

Section resolver.
Context (parse_iso : str -> option Z) (L : libm) (powf : Z -> Z -> Z) (fmt_ms fmt_s fmt_day : Z -> str).
Context `{HASHES : !CloudCrypto.Hashes}.

Notation build_drive := (build_summary_from_aggregates L powf fmt_ms fmt_day).

(** [cloud_clip_id]. *)
Definition cloud_clip_id (s : RouteSummary) : str :=
  match sm_cloud_route_id s with Some id => id | None => CloudCrypto.route_id_from_path (sm_file s) end.

(** Files in first-occurrence order, their cloud ids, and the span per file. *)
Definition selection_step (st : list str * list str * gmap (list Z) Z) (c : SubClipSummary) :=
  let '(files, ids, spans) := st in
  match spans !! file_of c with
  | Some _ => (files, ids, <[file_of c := sc_clip_span_ms c]> spans)
  | None => (files ++ [file_of c], ids ++ [cloud_clip_id (sc_summary c)], <[file_of c := sc_clip_span_ms c]> spans)
  end.

Definition selection_of (index : nat) (clips : list SubClipSummary) (tags : list (str * list str)) : DriveSelection :=
  let '(files, ids, spans) := foldl selection_step ([], [], ∅) clips in
  mkSelection index files ids spans (build_drive clips index tags).

(** Indexes of the drives that satisfy [p]. *)
Definition matches {A} (p : A -> bool) (l : list A) : list nat :=
  fst <$> List.filter (fun ix => p (snd ix)) (imap (fun i x => (i, x)) l).

Definition starts_at (fmt : Z -> str) (id : str) (group : list SubClipSummary) : bool :=
  match group with first :: _ => bool_decide (fmt (sc_timestamp first) = id) | [] => false end.

(** ** The reference resolver, grouping with hash order [ho] *)

Section reference.
Context (ho : list str -> list str).

Definition groups_of (summaries : list RouteSummary) : list (list SubClipSummary) := group_summary_clips parse_iso ho summaries.

(** An old segment and a new one share frames. *)
Definition shares_frames (old new : SubClipSummary) : bool :=
  bool_decide (file_of old = file_of new) && (sc_total_frames old =? sc_total_frames new)
  && (sc_start_frame old <? sc_end_frame new) && (sc_start_frame new <? sc_end_frame old).

Definition same_segment (a b : SubClipSummary) : bool :=
  bool_decide (file_of a = file_of b) && (sc_start_frame a =? sc_start_frame b)
  && (sc_end_frame a =? sc_end_frame b) && (sc_total_frames a =? sc_total_frames b).

Definition resolve_legacy (summaries : list RouteSummary) (groups : list (list SubClipSummary)) (id : str) (exact : bool)
  : option nat :=
  let legacy := group_summary_clips_with_clock parse_iso ho summaries false in
  match List.filter (starts_at fmt_s id) legacy with
  | [old] =>
      match matches (fun group => existsb (fun new => existsb (fun o => shares_frames o new) old) group) groups with
      | [index] =>
          let group := nth index groups [] in
          if exact && negb ((length old =? length group)%nat
                            && forallb (fun ab => same_segment (fst ab) (snd ab)) (zip old group))
          then None else Some index
      | _ => None
      end
  | _ => None
  end.

Definition resolve_group_index (summaries : list RouteSummary) (groups : list (list SubClipSummary)) (id : str) (exact : bool)
  : option nat :=
  match parse_usize id with
  | Some n => if n <? Z.of_nat (length groups) then Some (Z.to_nat n) else None
  | None =>
      match matches (starts_at fmt_ms id) groups with
      | [i] => Some i
      | _ :: _ => None
      | [] => resolve_legacy summaries groups id exact
      end
  end.

Definition resolve_drive_selection (summaries : list RouteSummary) (id : str) (tags : list (str * list str))
  : option DriveSelection :=
  let groups := groups_of summaries in
  index ← resolve_group_index summaries groups id false;
  Some (selection_of index (nth index groups []) tags).

Definition find_drive_files (summaries : list RouteSummary) (id : str) : option (nat * list str) :=
  let groups := groups_of summaries in
  index ← resolve_group_index summaries groups id true;
  Some (index, files_of (nth index groups [])).

Definition find_drive_start_time (summaries : list RouteSummary) (id : str) : option str :=
  let groups := groups_of summaries in
  index ← resolve_group_index summaries groups id true;
  first ← head (nth index groups []); Some (fmt_ms (sc_timestamp first)).

Definition build_summary_for_idx (summaries : list RouteSummary) (idx : nat) (tags : list (str * list str)) : option DriveSummary :=
  clips ← groups_of summaries !! idx; if is_empty clips then None else Some (build_drive clips idx tags).

Definition drive_key_clip_windows (summaries : list RouteSummary) : list (str * list DriveClipWindow) :=
  omap (fun group => first ← head group;
          Some (fmt_ms (sc_timestamp first),
                (fun c => mkWindow (file_of c) (sc_start_frame c) (sc_end_frame c) (sc_total_frames c)) <$> group))
    (groups_of summaries).

Definition drive_key_file_map (summaries : list RouteSummary) : list (str * list str) :=
  omap (fun group => first ← head group; Some (fmt_ms (sc_timestamp first), files_of group)) (groups_of summaries).

(** ** The index *)

Definition indexed (c : SubClipSummary) : IndexedClip :=
  mkIndexedClip (file_of c) (sc_timestamp c) (sc_start_frame c) (sc_end_frame c) (sc_total_frames c) (sc_clip_span_ms c) (sc_fraction c).

Definition build (summaries : list RouteSummary) : Index :=
  omap (fun group => first ← head group; Some (mkIndexedDrive (fmt_ms (sc_timestamp first)) (indexed <$> group)))
    (groups_of summaries).

End reference.

Definition resolve (drives : Index) (id : str) : IndexedId :=
  match parse_usize id with
  | Some n => if n <? Z.of_nat (length drives) then Found (Z.to_nat n) else Missing
  | None =>
      match matches (fun d => bool_decide (id_key d = id)) drives with
      | [i] => Found i
      | _ :: _ => Missing
      | [] => NeedsLegacy
      end
  end.

Definition first_files (files : list str) : list str :=
  foldl (fun seen f => if bool_decide (f ∈ seen) then seen else seen ++ [f]) [] files.

Definition files (drives : Index) (index : nat) : option (list str) :=
  d ← drives !! index; Some (first_files (ic_file <$> id_clips d)).

Definition start_key (drives : Index) (index : nat) : option str := id_key <$> drives !! index.

(** The sub-clip of an indexed clip, with its row. *)
Definition restore (summaries : list RouteSummary) (c : IndexedClip) : option SubClipSummary :=
  s ← by_file summaries (ic_file c);
  Some (mkSub s (ic_timestamp c) (ic_start_frame c) (ic_clip_span_ms c) (ic_end_frame c) (ic_total_frames c) (ic_fraction c)).

Definition selection (drives : Index) (index : nat) (summaries : list RouteSummary) (tags : list (str * list str))
  : option DriveSelection :=
  drive ← drives !! index; clips ← mapM (restore summaries) (id_clips drive); Some (selection_of index clips tags).

(** ** The store *)

(** A committed state: the revision of the route table, bumped by a trigger on
    every insert, update and delete, and its rows in file order. *)
Record Snapshot := mkSnapshot { revision : Z; rows : list RouteSummary }.

Inductive DbError := ReadFailed | KeptChanging.

(** What the call consumes: the states its reads see, [None] for a failed read;
    the cache cells it finds; the hash orders; and what it left in the cell. *)
Record Env := mkEnv {
  reads : list (option Snapshot); cells : list (option (Z * Index)); seeds : list nat; stored : list (Z * Index);
}.

Definition M (A : Type) : Type := Env -> result DbError A * Env.
Definition mret {A} (a : A) : M A := fun e => (Ok a, e).
Definition mbind {A B} (m : M A) (k : A -> M B) : M B := fun e =>
  match m e with (Ok a, e) => k a e | (Err x, e) => (Err x, e) end.
Notation "'do' x ← m ; k" := (mbind m (fun x => k)) (at level 20, x pattern, m at level 100, k at level 200).

(** [with_read_conn], one transaction. *)
Definition with_read_conn {A} (f : Snapshot -> A) : M A := fun e =>
  match reads e with
  | Some s :: rest => (Ok (f s), mkEnv rest (cells e) (seeds e) (stored e))
  | None :: rest => (Err ReadFailed, mkEnv rest (cells e) (seeds e) (stored e))
  | [] => (Err ReadFailed, e)
  end.
(** [drive_index_cache.lock()]. *)
Definition look : M (option (Z * Index)) := fun e => (Ok (head (cells e) ≫= id), mkEnv (reads e) (tail (cells e)) (seeds e) (stored e)).
Definition store (v : Z * Index) : M unit := fun e => (Ok tt, mkEnv (reads e) (cells e) (seeds e) (stored e ++ [v])).
Definition draw : M nat := fun e => (Ok (default 0%nat (head (seeds e))), mkEnv (reads e) (cells e) (tail (seeds e)) (stored e)).

Context (order : nat -> list str -> list str).

Definition hit (current : Z) (cell : option (Z * Index)) : option (Z * Index) :=
  match cell with Some (r, i) => if r =? current then Some (r, i) else None | None => None end.

Definition drive_index : M (Z * Index) :=
  do current ← with_read_conn revision;
  do cell ← look;
  match hit current cell with
  | Some v => mret v
  | None =>
      do cell ← look;
      match hit current cell with
      | Some v => mret v
      | None =>
          do seed ← draw;
          do v ← with_read_conn (fun s => (revision s, build (order seed) (rows s)));
          do _ ← store v;
          mret v
      end
  end.

Definition rows_for (s : Snapshot) (names : list str) : list RouteSummary :=
  concat ((fun chunk => List.filter (fun r => bool_decide (sm_file r ∈ chunk)) (rows s)) <$> chunks (length names) 500 names).

Definition route_summaries_for_files (names : list str) : M (Z * list RouteSummary) :=
  with_read_conn (fun s => (revision s, rows_for s names)).

(** [with_route_summaries] with a resolver that groups. *)
Definition with_route_summaries {A} (f : (list str -> list str) -> list RouteSummary -> A) : M A :=
  do seed ← draw; with_read_conn (fun s => f (order seed) (rows s)).

Definition find_drive_files_cached (id : str) : M (option (nat * list str)) :=
  do index ← drive_index;
  match resolve (snd index) id with
  | Found i => mret ((fun fs => (i, fs)) <$> files (snd index) i)
  | Missing => mret None
  | NeedsLegacy => with_route_summaries (fun ho rs => find_drive_files ho rs id)
  end.

Definition find_drive_start_time_cached (id : str) : M (option str) :=
  do index ← drive_index;
  match resolve (snd index) id with
  | Found i => mret (start_key (snd index) i)
  | Missing => mret None
  | NeedsLegacy => with_route_summaries (fun ho rs => find_drive_start_time ho rs id)
  end.

Definition resolve_drive_selection_cached (id : str) (tags : list (str * list str)) : M (option DriveSelection) :=
  do index ← drive_index;
  let full := with_route_summaries (fun ho rs => resolve_drive_selection ho rs id tags) in
  match resolve (snd index) id with
  | Missing => mret None
  | NeedsLegacy => full
  | Found i =>
      do fetched ← route_summaries_for_files (default [] (files (snd index) i));
      if negb (fst fetched =? fst index) then full
      else match selection (snd index) i (snd fetched) tags with
           | Some s => mret (Some s)
           | None => full
           end
  end.

End resolver.

End DriveIndex.
