(* ===== verification/DriveIndexSpec.v ===== *)
(** * The cached drive index answers as the full resolver

    Resolving through the index is linearizable: whatever other connections
    write and other threads cache meanwhile, the answer is the one the reference
    resolver gives on a committed state the call itself read. *)

From Stdlib Require Import ZArith Lia.
From stdpp Require Import base list gmap sorting.
From S2P Require Import Prelude Float Types Str GapFill Calc Grouper GrouperSpec CloudCrypto Aggregate Summary SummarySpec DriveStats DriveIndex.

Import Summary DriveStats DriveIndex.
Open Scope Z_scope.

(** ** Drives are not empty *)

Notation nonempty := (fun st : list (list SubClipSummary) * list SubClipSummary => Forall (fun d => d <> []) (fst st)).

Lemma nonempty_close st : nonempty st -> nonempty (close st).
Proof. destruct st as [a [|x b]]; [done|]. cbn. intros H. apply Forall_app. split; [done|by apply Forall_singleton]. Qed.

Lemma nonempty_push x st : nonempty st -> nonempty (push x st).
Proof. done. Qed.

Lemma nonempty_fold {A} (step : _ -> A -> _) l :
  (forall st x, nonempty st -> nonempty (step st x)) -> nonempty (close (foldl step ([], []) l)).
Proof. intros H. apply nonempty_close. apply (foldl_inv (fun st => nonempty st)); [|constructor]. intros; by apply H. Qed.

Lemma split_gear_nonempty b tg : Forall (fun d => d <> []) (split_summary_by_gear_state_with_clock b tg).
Proof.
  unfold split_summary_by_gear_state_with_clock. destruct tg as [|c tg]; [constructor|]. cbn [is_empty]. destruct (negb _).
  - unfold split_summary_by_gear_state_legacy. destruct (_ <=? 1)%nat; [by apply Forall_singleton|].
    apply (nonempty_fold summary_legacy_step). intros st x H. unfold summary_legacy_step.
    destruct (mostly_park _); [by apply nonempty_close|done].
  - apply (nonempty_fold (summary_gear_step b)). intros st x H. unfold summary_gear_step.
    destruct (_ =? 0); [done|]. destruct (forallb _ _); [by apply nonempty_close|]. destruct (negb _); [done|].
    apply (foldl_inv (fun st => nonempty st)); [|done]. intros st' s _ H'. unfold summary_seg_step.
    destruct (rs_parked s); [by apply nonempty_close|done].
Qed.

Lemma drives_nonempty parse_iso ho b S : (forall ks, ho ks ≡ₚ ks) ->
  Forall (fun d => d <> []) (group_summary_clips_with_clock parse_iso ho S b).
Proof.
  intros Ho. unfold group_summary_clips_with_clock. apply Forall_forall.
  intros d (tg & Hd & _)%list_elem_of_bind. apply list_elem_of_bind in Hd as (g & Hd & Hg).
  pose proof (split_gear_nonempty b tg) as Hn. rewrite Forall_forall in Hn.
  by eapply (split_signature_sublist (fun c => sm_external_signature (sc_summary c)) ho g d Ho (Hn g Hg)).
Qed.

(** ** Lists *)

Lemma matches_fmap {A B} (p : B -> bool) (f : A -> B) l : matches p (f <$> l) = matches (fun x => p (f x)) l.
Proof.
  unfold matches. rewrite imap_fmap_shift. generalize (fun i x : nat => x). intros _.
  assert (forall n, fst <$> List.filter (fun ix => p (snd ix)) (imap (fun i x => ((n + i)%nat, f x)) l)
    = fst <$> List.filter (fun ix => p (f (snd ix))) (imap (fun i x => ((n + i)%nat, x)) l)) as H; [|apply (H 0%nat)].
  induction l as [|x l IH]; intros n; [done|]. rewrite !imap_cons. cbn [List.filter snd].
  assert (forall C (h : A -> C), imap ((fun i x => ((n + i)%nat, h x)) ∘ Datatypes.S) l = imap (fun i x => ((Datatypes.S n + i)%nat, h x)) l) as E
    by (intros C h; apply imap_ext; intros; cbn; f_equal; lia).
  rewrite (E B f), (E A (fun x => x)). specialize (IH (Datatypes.S n)). destruct (p (f x)); rewrite ?fmap_cons, IH; done.
Qed.

Lemma matches_ext {A} (p q : A -> bool) l : (forall x, x ∈ l -> p x = q x) -> matches p l = matches q l.
Proof.
  intros H. unfold matches. f_equal. apply filter_ext_in. intros [i x] Hin. cbn. apply H.
  apply list_elem_of_In, elem_of_lookup_imap in Hin as (k & y & [= -> ->] & Hk). by eapply list_elem_of_lookup_2.
Qed.

Lemma matches_lt {A} (p : A -> bool) l i : i ∈ matches p l -> (i < length l)%nat.
Proof.
  unfold matches. intros ([j x] & -> & Hin)%list_elem_of_fmap. apply list_elem_of_In, filter_In in Hin as [Hin _].
  apply list_elem_of_In, elem_of_lookup_imap in Hin as (k & y & [= -> ->] & Hk). by eapply lookup_lt_Some.
Qed.

(** The path determines the row. *)
Lemma by_file_unique l f r : r ∈ l -> sm_file r = f -> (forall x, x ∈ l -> sm_file x = f -> x = r) -> by_file l f = Some r.
Proof.
  intros Hr Hf Hu. unfold by_file. destruct (last _) as [x|] eqn:E.
  - apply last_Some in E as (l' & E). assert (x ∈ List.filter (fun s => bool_decide (sm_file s = f)) l) as Hx by (rewrite E; set_solver).
    apply list_elem_of_In, filter_In in Hx as [Hx Hb]. apply bool_decide_eq_true in Hb. f_equal. apply Hu; [by apply list_elem_of_In|done].
  - apply last_None in E. assert (r ∈ List.filter (fun s => bool_decide (sm_file s = f)) l) as Hx; [|rewrite E in Hx; set_solver].
    apply list_elem_of_In, filter_In. split; [by apply list_elem_of_In|by apply bool_decide_eq_true].
Qed.

Lemma rows_for_elem s names r : r ∈ rows_for s names <-> r ∈ rows s /\ sm_file r ∈ names.
Proof.
  unfold rows_for. destruct (chunks_spec 500 ltac:(lia) (length names) names) as [Hc _]; [done|].
  set (cs := chunks _ _ _) in *. rewrite <- Hc. clearbody cs. clear Hc. rewrite !list_elem_of_In.
  rewrite in_concat. setoid_rewrite <- list_elem_of_In. setoid_rewrite list_elem_of_fmap.
  setoid_rewrite (list_elem_of_In (concat cs)). setoid_rewrite in_concat. setoid_rewrite <- list_elem_of_In. split.
  - intros (x & (c & -> & Hc) & Hr). apply list_elem_of_In, filter_In in Hr as [Hr Hb]. apply bool_decide_eq_true in Hb.
    split; [by apply list_elem_of_In|eauto].
  - intros (Hr & c & Hc & Hf). eexists. split; [by exists c|]. apply list_elem_of_In, filter_In. split; [by apply list_elem_of_In|].
    by apply bool_decide_eq_true.
Qed.

Lemma first_files_elem l f : f ∈ first_files l <-> f ∈ l.
Proof.
  unfold first_files. assert (forall seen, f ∈ foldl (fun seen f => if bool_decide (f ∈ seen) then seen else seen ++ [f]) seen l
    <-> f ∈ seen \/ f ∈ l) as H; [|by rewrite H; set_solver].
  induction l as [|x l IH]; intros seen; cbn [foldl]; [set_solver|]. rewrite IH. case_bool_decide; set_solver.
Qed.

Lemma unique_files_first d : files_of d = first_files (file_of <$> d).
Proof.
  unfold files_of, unique_files, first_files.
  assert (forall st, fst st = (fun c => sm_file (sc_summary c)) <$> snd st ->
    fst (foldl unique_step st d) = foldl (fun seen f => if bool_decide (f ∈ seen) then seen else seen ++ [f]) (fst st) (file_of <$> d) /\
    fst (foldl unique_step st d) = (fun c => sm_file (sc_summary c)) <$> snd (foldl unique_step st d)) as H.
  { induction d as [|x d IH]; intros st Hst; [done|]. cbn [foldl fmap list_fmap]. unfold unique_step at 2 4 6.
    change (file_of x) with (sm_file (sc_summary x)). case_bool_decide; [by apply IH|].
    apply IH. cbn [fst snd]. by rewrite fmap_app, <- Hst. }
  destruct (H ([], []) eq_refl) as [H1 H2]. by rewrite <- H2, H1.
Qed.

Section resolver.
Context (parse_iso : str -> option Z) (L : libm) (powf : Z -> Z -> Z) (fmt_ms fmt_s fmt_day : Z -> str).
Context `{HASHES : !CloudCrypto.Hashes}.

Local Notation groups := (groups_of parse_iso).
Local Notation build := (build parse_iso fmt_ms).
Local Notation group_index := (resolve_group_index parse_iso fmt_ms fmt_s).
Local Notation full_selection := (resolve_drive_selection parse_iso L powf fmt_ms fmt_s fmt_day).

Definition drive_of (g : list SubClipSummary) : IndexedDrive :=
  mkIndexedDrive (fmt_ms (sc_timestamp (hd default_clip g))) (indexed <$> g).

Section grouped.
Context (ho : list str -> list str) (R : list RouteSummary).
Hypothesis ho_perm : forall ks, ho ks ≡ₚ ks.

Lemma build_groups : build ho R = drive_of <$> groups ho R.
Proof using ho_perm.
  unfold DriveIndex.build, groups_of, group_summary_clips. pose proof (drives_nonempty parse_iso ho true R ho_perm) as Hn.
  induction Hn as [|g gs Hg _ IH]; [done|]. destruct g as [|c g]; [done|]. csimpl. by rewrite IH.
Qed.

Lemma starts_drive id g : g ∈ groups ho R -> bool_decide (id_key (drive_of g) = id) = starts_at fmt_ms id g.
Proof using ho_perm.
  intros Hg. pose proof (drives_nonempty parse_iso ho true R ho_perm) as Hn. rewrite Forall_forall in Hn.
  specialize (Hn g Hg). by destruct g.
Qed.

(** For current ids the index decides as the reference does. *)
Lemma resolve_index id exact :
  match resolve (build ho R) id with
  | Found i => group_index ho R (groups ho R) id exact = Some i /\ (i < length (groups ho R))%nat
  | Missing => group_index ho R (groups ho R) id exact = None
  | NeedsLegacy => True
  end.
Proof using ho_perm.
  unfold resolve, resolve_group_index. rewrite build_groups, length_fmap. destruct (parse_usize id) as [n|] eqn:En.
  - apply parse_uint_range in En; [|unfold U64_MAX; lia].
    destruct (Z.ltb_spec n (Z.of_nat (length (groups ho R)))); [|done]. split; [done|lia].
  - rewrite matches_fmap, (matches_ext _ (starts_at fmt_ms id)) by (intros; by apply starts_drive).
    destruct (matches (starts_at fmt_ms id) (groups ho R)) as [|i [|]] eqn:E; [done| |done]. split; [done|].
    eapply matches_lt. rewrite E. set_solver.
Qed.

Lemma files_index i : files (build ho R) i = files_of <$> groups ho R !! i.
Proof using ho_perm.
  unfold files. rewrite build_groups, list_lookup_fmap. destruct (groups ho R !! i) as [g|]; [|done]. cbn. f_equal.
  rewrite unique_files_first. f_equal. by rewrite <- list_fmap_compose.
Qed.

Lemma start_index i : start_key (build ho R) i = (fun g => fmt_ms (sc_timestamp (hd default_clip g))) <$> groups ho R !! i.
Proof using ho_perm. unfold start_key. rewrite build_groups, list_lookup_fmap. by destruct (groups ho R !! i). Qed.

Lemma group_row i g c : groups ho R !! i = Some g -> c ∈ g -> sc_summary c ∈ R.
Proof using ho_perm.
  intros Hi Hc. assert (c ∈ concat (groups ho R)) as Hin.
  { apply list_elem_of_In, in_concat. exists g. split; apply list_elem_of_In; [by eapply list_elem_of_lookup_2|done]. }
  unfold groups_of in Hin. rewrite (groups_perm parse_iso ho R ho_perm) in Hin.
  apply list_elem_of_bind in Hin as (tg & Hin & Htg). apply list_elem_of_bind in Hin as (x & Hx & Hxt).
  rewrite (parts_row _ _ _ Hx). apply (admitted_rows parse_iso).
  rewrite <- (time_groups_concat us_timestamp (admitted_clips parse_iso R)). apply list_elem_of_In, in_concat.
  exists tg. split; by apply list_elem_of_In.
Qed.

(** Rows fetched for the drive's files restore its sub-clips. *)
Lemma restore_group i g fetched :
  NoDup (sm_file <$> R) -> groups ho R !! i = Some g ->
  (forall r, r ∈ fetched <-> r ∈ R /\ sm_file r ∈ files_of g) ->
  mapM (restore fetched) (indexed <$> g) = Some g.
Proof using ho_perm.
  intros Hn Hi Hf.
  assert (forall c, c ∈ g -> restore fetched (indexed c) = Some c) as Hr.
  { intros c Hc. unfold restore. cbn [ic_file indexed].
    rewrite (by_file_unique fetched (file_of c) (sc_summary c)).
    - cbn. by destruct c.
    - apply Hf. split; [by eapply group_row|]. rewrite unique_files_first, first_files_elem. by apply (list_elem_of_fmap_2 file_of).
    - done.
    - intros x [Hx _]%Hf Hxf. apply (group_row i g c Hi) in Hc. apply list_elem_of_lookup in Hx as [j Hj], Hc as [k Hk].
      assert (j = k) as ->; [|congruence].
      apply (NoDup_lookup _ j k (sm_file x) Hn); rewrite list_lookup_fmap; [by rewrite Hj|rewrite Hk; cbn; by rewrite Hxf]. }
  clear -Hr. induction g as [|c g IH]; [done|]. rewrite fmap_cons. cbn [mapM].
  rewrite Hr by set_solver. cbn. rewrite IH by set_solver. done.
Qed.

Lemma selection_index i g fetched tags :
  NoDup (sm_file <$> R) -> groups ho R !! i = Some g ->
  (forall r, r ∈ fetched <-> r ∈ R /\ sm_file r ∈ files_of g) ->
  selection L powf fmt_ms fmt_day (build ho R) i fetched tags = Some (selection_of L powf fmt_ms fmt_day i g tags).
Proof using ho_perm.
  intros Hn Hi Hf. unfold selection. rewrite build_groups, list_lookup_fmap, Hi. cbn [fmap option_fmap option_map].
  change (mapM (restore fetched) (indexed <$> g) ≫= (fun clips => Some (selection_of L powf fmt_ms fmt_day i clips tags))
    = Some (selection_of L powf fmt_ms fmt_day i g tags)).
  by rewrite (restore_group i g fetched Hn Hi Hf).
Qed.
End grouped.

(** ** The store *)

Section store.
Context (order : nat -> list str -> list str).
Hypothesis order_perm : forall k ks, order k ks ≡ₚ ks.

(** A later committed state is the same or has a higher revision. *)
Inductive later : Snapshot -> Snapshot -> Prop :=
| later_same s : later s s
| later_changed s s' : revision s < revision s' -> later s s'.

(** Committed states in order; paths are the table's primary key. *)
Definition history (l : list Snapshot) : Prop := Sorted later l /\ Forall (fun s => NoDup (sm_file <$> rows s)) l.

Lemma later_trans : Transitive later.
Proof. intros a b c Hab Hbc. destruct Hab; [done|]. destruct Hbc; constructor; lia. Qed.

Lemma revision_identifies l s t : history l -> s ∈ l -> t ∈ l -> revision s = revision t -> s = t.
Proof.
  intros [Hs _] Hin Htn E. apply Sorted_StronglySorted in Hs; [|exact later_trans].
  assert (forall a b, later a b -> revision a = revision b -> a = b) as Hl by (intros a b [|]; [done|lia]).
  induction Hs as [|x l Hl' IH Hf]; [set_solver|]. rewrite Forall_forall in Hf.
  apply elem_of_cons in Hin as [->|Hin], Htn as [->|Htn]; [done|apply Hl; auto|symmetry; apply Hl; auto|auto].
Qed.

(** A cache entry is right for a state of the history. *)
Definition right_entry (h : list Snapshot) (v : Z * list IndexedDrive) : Prop :=
  exists s k, s ∈ h /\ fst v = revision s /\ snd v = build (order k) (rows s).

(** What a call may rely on, and what it keeps: it reads states of [h] and finds
    right entries, and it stores right entries. *)
Record sound (h : list Snapshot) (e : Env) : Prop := {
  sd_reads : forall s, Some s ∈ reads e -> s ∈ h;
  sd_cells : forall v, Some v ∈ cells e -> right_entry h v;
  sd_stored : forall v, v ∈ stored e -> right_entry h v;
}.

(** Reads left to do are the end of the reads at the start, and at most [n] were
    used. *)
Definition used (n : nat) (e e' : Env) : Prop := exists k, (k <= n)%nat /\ reads e' = drop k (reads e).

(** [m] keeps soundness, uses at most [n] reads, fails only when a read fails,
    and answers [Q] about a state read meanwhile. *)
Definition answers {A} (h : list Snapshot) (n : nat) (m : M A) (Q : list (option Snapshot) -> A -> Prop) : Prop :=
  forall e, sound h e ->
  let (r, e') := m e in
  sound h e' /\ used n e e' /\ (forall a, r = Ok a -> Q (reads e) a)
  /\ ((n <= length (reads e))%nat -> Forall is_Some (reads e) -> exists a, r = Ok a).

Lemma answers_ret {A} h (a : A) (Q : _ -> A -> Prop) : (forall rs, Q rs a) -> answers h 0 (mret a) Q.
Proof.
  intros HQ e He. cbn. split_and!; [done|by exists 0%nat; rewrite drop_0|by intros ? [= <-]|by eauto].
Qed.

Lemma drop_subset {A} k (l : list A) x : x ∈ drop k l -> x ∈ l.
Proof. intros H. rewrite <- (take_drop k l). set_solver. Qed.

Lemma answers_bind {A B} h n m' (m : M A) (k : A -> M B) Q1 (Q2 : _ -> B -> Prop) :
  answers h n m Q1 ->
  (forall a rs, Q1 rs a -> answers h m' (k a) (fun rs' b => (forall s, s ∈ rs' -> s ∈ rs) -> Q2 rs b)) ->
  answers h (n + m') (DriveIndex.mbind m k) Q2.
Proof.
  intros H1 H2 e He. unfold DriveIndex.mbind. specialize (H1 e He). destruct (m e) as [[a|x] e1].
  - destruct H1 as (S1 & (j & Hj & U1) & A1 & T1). specialize (H2 a (reads e) (A1 a eq_refl) e1 S1).
    destruct (k a e1) as [r e2]. destruct H2 as (S2 & (j2 & Hj2 & U2) & A2 & T2). split_and!; [done| | |].
    + exists (j + j2)%nat. rewrite U2, U1, drop_drop. split; [lia|done].
    + intros b Hb. apply (A2 b Hb). intros s Hs. rewrite U1 in Hs. by eapply drop_subset.
    + intros Hl Hf. apply T2; rewrite U1; [rewrite length_drop; lia|by apply Forall_drop].
  - destruct H1 as (S1 & (j & Hj & U1) & _ & T1). split_and!; [done|exists j; split; [lia|done]|done|].
    intros Hl Hf. destruct T1 as [a Ha]; [lia|done|done].
Qed.

Lemma answers_weaken {A} h n n' (m : M A) (Q Q' : _ -> A -> Prop) :
  answers h n m Q -> (n <= n')%nat -> (forall rs a, Q rs a -> Q' rs a) -> answers h n' m Q'.
Proof.
  intros H Hn HQ e He. specialize (H e He). destruct (m e) as [r e']. destruct H as (S1 & (j & Hj & U) & A1 & T).
  split_and!; [done|exists j; split; [lia|done]|by auto|]. intros. apply T; [lia|done].
Qed.

(** A read sees a state of the history. *)
Lemma answers_read {A} h (f : Snapshot -> A) : answers h 1 (with_read_conn f) (fun rs a => exists s, Some s ∈ rs /\ s ∈ h /\ a = f s).
Proof.
  intros e He. pose proof He as [H1 H2 H3]. unfold with_read_conn. destruct (reads e) as [|[s|] rest] eqn:E; cbn.
  - split_and!; [exact He|exists 0%nat; split; [lia|by rewrite E]|done|]. intros; cbn in *; lia.
  - split_and!.
    + split; cbn; [|exact H2|exact H3]. intros s' Hs. apply H1. set_solver.
    + exists 1%nat. by rewrite E.
    + intros a [= <-]. exists s. split_and!; [set_solver|apply H1; set_solver|done].
    + eauto.
  - split_and!.
    + split; cbn; [|exact H2|exact H3]. intros s' Hs. apply H1. set_solver.
    + exists 1%nat. by rewrite E.
    + done.
    + intros _ Hf. apply Forall_cons in Hf as [[] _]. done.
Qed.

Lemma answers_look h : answers h 0 look (fun _ c => forall v, c = Some v -> right_entry h v).
Proof.
  intros e [H1 H2 H3]. cbn. split_and!; [|by exists 0%nat; rewrite drop_0| |by eauto].
  - split; [done| |done]. cbn. intros v Hv. apply H2. destruct (cells e); set_solver.
  - intros c [= <-] v Hv. apply H2. destruct (cells e) as [|[x|] l]; [done| |done]. cbn in Hv. injection Hv as ->. set_solver.
Qed.

Lemma answers_draw h : answers h 0 draw (fun _ _ => True).
Proof. intros e [H1 H2 H3]. cbn. split_and!; [done|by exists 0%nat; rewrite drop_0|done|by eauto]. Qed.

Lemma answers_store h v : right_entry h v -> answers h 0 (store v) (fun _ _ => True).
Proof.
  intros Hv e [H1 H2 H3]. cbn. split_and!; [|by exists 0%nat; rewrite drop_0|done|by eauto]. split; [done..|]. cbn.
  intros x [Hx|Hx%list_elem_of_singleton]%elem_of_app; [auto|by subst].
Qed.

(** The index a call works with is that of a state it read. *)
Definition current_index (h : list Snapshot) (rs : list (option Snapshot)) (v : Z * list IndexedDrive) : Prop :=
  exists s k, Some s ∈ rs /\ s ∈ h /\ fst v = revision s /\ snd v = build (order k) (rows s).

Lemma hit_current h rs s cell v :
  history h -> Some s ∈ rs -> s ∈ h -> (forall v, cell = Some v -> right_entry h v) ->
  hit (revision s) cell = Some v -> current_index h rs v.
Proof.
  intros Hh Hs Hin Hc. unfold hit. destruct cell as [[r i]|]; [|done]. destruct (Z.eqb_spec r (revision s)) as [->|]; [|done].
  intros [= <-]. destruct (Hc _ eq_refl) as (t & k & Ht & Hr & Hb). cbn [fst snd] in *.
  rewrite (revision_identifies h t s Hh Ht Hin (eq_sym Hr)) in Hb. by exists s, k.
Qed.

Lemma drive_index_answers h : history h -> answers h 2 (drive_index parse_iso fmt_ms order) (current_index h).
Proof.
  intros Hh. unfold drive_index. apply (answers_bind h 1 1 _ _ _ _ (answers_read h revision)). intros r rs (s & Hs & Hin & ->).
  apply (answers_bind h 0 1 _ _ _ _ (answers_look h)). intros c rs1 Hc. destruct (hit _ c) as [v|] eqn:E.
  { eapply answers_weaken; [apply (answers_ret h v (fun _ v' => v' = v)); done|lia|].
    intros ? ? -> _ Hsub. by eapply hit_current. }
  apply (answers_bind h 0 1 _ _ _ _ (answers_look h)). intros c2 rs2 Hc2. destruct (hit _ c2) as [v|] eqn:E2.
  { eapply answers_weaken; [apply (answers_ret h v (fun _ v' => v' = v)); done|lia|].
    intros ? ? -> _ _ _. by eapply (hit_current h rs s c2). }
  apply (answers_bind h 0 1 _ _ _ _ (answers_draw h)). intros seed rs3 _.
  apply (answers_bind h 1 0 _ _ _ _ (answers_read h _)). intros v rs4 (t & Ht & Htin & ->).
  assert (right_entry h (revision t, build (order seed) (rows t))) as Hv by (by exists t, seed).
  apply (answers_bind h 0 0 _ _ _ _ (answers_store h _ Hv)). intros [] rs5 _.
  eapply answers_weaken; [apply (answers_ret h _ (fun _ v' => v' = (revision t, build (order seed) (rows t)))); done|lia|].
  intros ? ? -> _ _ H4 H3 H2 H1. exists t, seed. split_and!; [auto|done..].
Qed.

(** The answer of resolver [f] on a state read. *)
Definition linearized {A} (f : (list str -> list str) -> list RouteSummary -> A) (rs : list (option Snapshot)) (a : A) : Prop :=
  exists s k, Some s ∈ rs /\ a = f (order k) (rows s).

Lemma full_answers {A} h (f : (list str -> list str) -> list RouteSummary -> A) :
  answers h 1 (with_route_summaries order f) (linearized f).
Proof.
  unfold with_route_summaries. apply (answers_bind h 0 1 _ _ _ _ (answers_draw h)). intros k rs _.
  eapply answers_weaken; [apply answers_read|lia|]. intros rs' a (s & Hs & _ & ->) Hsub. exists s, k. split; [by apply Hsub|done].
Qed.

Lemma nth_group (l : list (list SubClipSummary)) i : (i < length l)%nat -> l !! i = Some (nth i l []).
Proof. intros H. destruct (nth_lookup_or_length l i []); [done|lia]. Qed.

Lemma pure_answers {A} h n (a : A) (Q : _ -> A -> Prop) : (forall rs, Q rs a) -> answers h n (mret a) Q.
Proof. intros HQ. eapply answers_weaken; [by apply answers_ret|lia|done]. Qed.

Lemma full_after {A} h n (f : (list str -> list str) -> list RouteSummary -> A) rs : (1 <= n)%nat ->
  answers h n (with_route_summaries order f) (fun rs' b => (forall s, s ∈ rs' -> s ∈ rs) -> linearized f rs b).
Proof.
  intros Hn. eapply answers_weaken; [apply full_answers|done|]. intros rs' a (s & k & Hs & ->) Hsub. exists s, k. auto.
Qed.

(** C12: the cached resolver is linearizable. Other connections may commit
    between any two of its reads and other threads may replace the cached index
    at any time, as long as commits that change a route raise the revision and
    the cache holds indexes built from committed states. Then what the call
    caches is again such an index; its answer is exactly what regrouping all
    rows answers on a state it read during the call, for some iteration order
    of the hash map; and with no failing read it answers after at most four. *)
Theorem cached_selection_linearizable h name tags :
  history h ->
  answers h 4 (resolve_drive_selection_cached parse_iso L powf fmt_ms fmt_s fmt_day order name tags)
    (linearized (fun ho R => full_selection ho R name tags)).
Proof using order_perm.
  intros Hh. unfold resolve_drive_selection_cached.
  apply (answers_bind h 2 2 _ _ _ _ (drive_index_answers h Hh)). intros [r ix] rs (s & k & Hs & Hin & Hr & Hb).
  cbn [fst snd] in *. subst r ix. pose proof (resolve_index (order k) (rows s) (order_perm k) name false) as Hres.
  destruct (resolve (build (order k) (rows s)) name) as [i| |].
  - destruct Hres as [Hg Hi]. pose proof (nth_group _ _ Hi) as Hgr.
    apply (answers_bind h 1 1 _ _ _ _ (answers_read h _)). intros fetched rs1 (t & Ht & Htin & ->). cbn [fst snd].
    destruct (Z.eqb_spec (revision t) (revision s)) as [E|]; cbn [negb].
    2: { eapply answers_weaken; [apply (full_after h 1 _ rs1); lia|lia|]. intros rs' a H Hsub Hsub1.
         destruct (H Hsub) as (s' & k' & Hs' & ->). exists s', k'. auto. }
    apply (revision_identifies h _ _ Hh Htin Hin) in E as ->.
    rewrite (files_index (order k) (rows s) (order_perm k)), Hgr. cbn [fmap option_fmap option_map default from_option id].
    rewrite (selection_index (order k) (rows s) (order_perm k) i _ _ tags (proj1 (Forall_forall _ _) (proj2 Hh) s Hin) Hgr)
      by (intros x; apply rows_for_elem).
    apply pure_answers. intros rs2 _ _. exists s, k. split; [done|]. unfold resolve_drive_selection. by rewrite Hg.
  - apply pure_answers. intros rs1 _. exists s, k. split; [done|]. unfold resolve_drive_selection. by rewrite Hres.
  - by apply full_after; lia.
Qed.

(** The other two lookups, for the ids that the index can decide alone. *)
Lemma cached_files_linearizable h id : history h ->
  answers h 3 (find_drive_files_cached parse_iso fmt_ms fmt_s order id) (linearized (fun ho R => find_drive_files parse_iso fmt_ms fmt_s ho R id)).
Proof using order_perm.
  intros Hh. unfold find_drive_files_cached.
  apply (answers_bind h 2 1 _ _ _ _ (drive_index_answers h Hh)). intros [r ix] rs (s & k & Hs & Hin & Hr & Hb).
  cbn [fst snd] in *. subst r ix. pose proof (resolve_index (order k) (rows s) (order_perm k) id true) as Hres.
  destruct (resolve (build (order k) (rows s)) id) as [i| |].
  - destruct Hres as [Hg Hi]. apply pure_answers. intros rs1 _. exists s, k. split; [done|].
    rewrite (files_index (order k) (rows s) (order_perm k)), (nth_group _ _ Hi). unfold find_drive_files. by rewrite Hg.
  - apply pure_answers. intros rs1 _. exists s, k. split; [done|]. unfold find_drive_files. by rewrite Hres.
  - by apply full_after.
Qed.

Lemma cached_start_linearizable h id : history h ->
  answers h 3 (find_drive_start_time_cached parse_iso fmt_ms fmt_s order id) (linearized (fun ho R => find_drive_start_time parse_iso fmt_ms fmt_s ho R id)).
Proof using order_perm.
  intros Hh. unfold find_drive_start_time_cached.
  apply (answers_bind h 2 1 _ _ _ _ (drive_index_answers h Hh)). intros [r ix] rs (s & k & Hs & Hin & Hr & Hb).
  cbn [fst snd] in *. subst r ix. pose proof (resolve_index (order k) (rows s) (order_perm k) id true) as Hres.
  destruct (resolve (build (order k) (rows s)) id) as [i| |].
  - destruct Hres as [Hg Hi]. apply pure_answers. intros rs1 _. exists s, k. split; [done|].
    pose proof (nth_group _ _ Hi) as Hgr. rewrite (start_index (order k) (rows s) (order_perm k)), Hgr.
    unfold find_drive_start_time. rewrite Hg. cbn.
    pose proof (drives_nonempty parse_iso (order k) true (rows s) (order_perm k)) as Hn. rewrite Forall_forall in Hn.
    specialize (Hn _ (list_elem_of_lookup_2 _ _ _ Hgr)). by destruct (nth i (groups (order k) (rows s)) []).
  - apply pure_answers. intros rs1 _. exists s, k. split; [done|]. unfold find_drive_start_time. by rewrite Hres.
  - by apply full_after.
Qed.

End store.
End resolver.

#[local] Instance demo_hashes : CloudCrypto.Hashes := {| CloudCrypto.hkdf_32 := fun _ _ _ => None; CloudCrypto.sha256 := id |}.

Definition demo_state : Snapshot := mkSnapshot 7 [stop_row; drive_row].
Definition demo_env : Env := mkEnv (replicate 4 (Some demo_state)) [] [] [].

Lemma demo_history : history [demo_state].
Proof.
  split; [repeat constructor|]. apply Forall_singleton. apply (bool_decide_unpack _). vm_compute. exact I.
Qed.

Lemma demo_reads s : Some s ∈ reads demo_env -> s = demo_state.
Proof. intros [H _]%elem_of_replicate. exact (Some_inj _ _ H). Qed.

Lemma cached_selection_linearizable_witness :
  let ask := resolve_drive_selection_cached demo_parse demo_libm (fun _ _ => 0) (fun _ => []) (fun _ => []) (fun _ => []) (fun _ => id)
               (lit "1") [] in
  exists sel, fst (ask demo_env) = Ok sel
    /\ sel = resolve_drive_selection demo_parse demo_libm (fun _ _ => 0) (fun _ => []) (fun _ => []) (fun _ => []) id
               (rows demo_state) (lit "1") [].
Proof.
  cbv zeta.
  pose proof (cached_selection_linearizable demo_parse demo_libm (fun _ _ => 0) (fun _ => []) (fun _ => []) (fun _ => []) (fun _ => id)
    (fun _ ks => reflexivity ks) [demo_state] (lit "1") [] demo_history demo_env) as H.
  assert (sound demo_parse (fun _ => []) (fun _ => id) [demo_state] demo_env) as Hs.
  { split.
    - intros s Hin. rewrite (demo_reads s Hin). apply list_elem_of_singleton. reflexivity.
    - intros v Hv. exfalso. exact (proj1 (elem_of_nil _) Hv).
    - intros v Hv. exfalso. exact (proj1 (elem_of_nil _) Hv). }
  specialize (H Hs). destruct (resolve_drive_selection_cached _ _ _ _ _ _ _ _ _ demo_env) as [r e'].
  destruct H as (_ & _ & HQ & HT). destruct HT as [sel ->]; [cbn; lia|repeat constructor; by eexists|].
  destruct (HQ sel eq_refl) as (s & k & Hin & ->). rewrite (demo_reads s Hin).
  eexists. split; reflexivity.
Defined.

(** Two imports that overlap in time, told apart by their signatures. *)
Definition import_row (file sig : str) : RouteSummary :=
  mkSummary file [] 0 0 [] [] [] Aggregate.no_aggregates (Some (lit "tessie")) (Some sig) ble_empty None.
Definition imports : list RouteSummary :=
  [import_row (lit "RecentClips/2026-08-08_10-00-00-front.mp4") (lit "a");
   import_row (lit "RecentClips/2026-08-08_10-01-00-front.mp4") (lit "b")].

(** The number of a drive depends on the iteration order of a hash map, which
    differs from one grouping to the next: the same number names different
    drives. *)
Example number_not_stable :
  find_drive_files demo_parse (fun _ => []) (fun _ => []) id imports (lit "0")
  <> find_drive_files demo_parse (fun _ => []) (fun _ => []) (@rev _) imports (lit "0").
Proof. apply (bool_decide_unpack _). vm_compute. exact I. Qed.
