(* ===== verification/QueueClock.v ===== *)
(** * How the edit queue moves over time

    The clock of the queue never goes back, and whatever an operation of
    [MutableQueue] adds to the queue is newer than the clock was. *)

From Stdlib Require Import ZArith Lia.
From stdpp Require Import base gmap list relations.
From S2P Require Import Prelude Float Str Json MutableQueue MutableQueueSpec.

Import Json MutableQueue.
Open Scope Z_scope.

Definition clock (d : Db) : option Z := meta_get d CLOCK ≫= parse_i64.

(** Every queued row is stamped from the clock. *)
Definition clocked (d : Db) : Prop :=
  forall k g, mutable_dirty d !! k = Some g -> exists c, clock d = Some c /\ g <= c.

Definition clock_le (d d' : Db) : Prop := forall c, clock d = Some c -> exists c', clock d' = Some c' /\ c <= c'.

Record evolves (d d' : Db) : Prop := {
  ev_inv : Inv d';
  ev_clocked : clocked d';
  ev_clock : clock_le d d';
  ev_events : forall k x, x ∈ events_of d' k -> x ∈ events_of d k \/ forall c, clock d = Some c -> c < x.1
}.

Lemma evolves_refl d : Inv d -> clocked d -> evolves d d.
Proof. intros Hi Hc. split; [done|done| |by left]. intros c Ec. exists c. split; [done|lia]. Qed.

Lemma evolves_trans d1 d2 d3 : evolves d1 d2 -> evolves d2 d3 -> evolves d1 d3.
Proof.
  intros [_ _ Hc Hv] [I C Hc' Hv']. split; [done|done|..].
  - intros c (c1 & E1 & L1)%Hc. apply Hc' in E1 as (c2 & E2 & L2). exists c2. split; [done|lia].
  - intros k x [Hx|Hx]%Hv'; [by apply Hv|]. right. intros c (c1 & E1 & L1)%Hc. specialize (Hx _ E1). lia.
Qed.

(** The clock stays and the queue only loses rows and edits. *)
Record shrinks (d d' : Db) : Prop := {
  sh_clock : meta_get d' CLOCK = meta_get d CLOCK;
  sh_dirty : forall k g, mutable_dirty d' !! k = Some g -> mutable_dirty d !! k = Some g;
  sh_events : forall k x, x ∈ events_of d' k -> x ∈ events_of d k
}.

Lemma shrinks_refl d : shrinks d d.
Proof. by split. Qed.

Lemma shrinks_trans d1 d2 d3 : shrinks d1 d2 -> shrinks d2 d3 -> shrinks d1 d3.
Proof. intros [A1 A2 A3] [B1 B2 B3]. split; [congruence|auto|auto]. Qed.

Lemma shrinks_evolves d d' : Inv d' -> clocked d -> shrinks d d' -> evolves d d'.
Proof.
  intros Hi Hc [H1 H2 H3]. split; [done|..].
  - intros k g Hg. destruct (Hc k g (H2 _ _ Hg)) as (c & Ec & Hle). exists c. split; [|done]. unfold clock. by rewrite H1.
  - intros c Ec. exists c. split; [unfold clock; by rewrite H1|lia].
  - intros k x Hx. left. by apply H3.
Qed.

Lemma shrinks_meta d key : key <> CLOCK -> shrinks d (meta_del d key).
Proof. intros Hk. split; [|done|done]. unfold meta_get, meta_del. cbn. by rewrite lookup_delete_ne. Qed.

Lemma shrinks_meta_set d key v : key <> CLOCK -> shrinks d (meta_set d key v).
Proof. intros Hk. split; [|done|done]. unfold meta_get, meta_set. cbn. by rewrite lookup_insert_ne. Qed.

Lemma shrinks_retire d kind key t : shrinks d (retire d kind key t).
Proof.
  split; [done|done|]. intros k x Hx. rewrite events_retire in Hx.
  case_bool_decide; [by apply elem_of_filter_newer in Hx as [? _]|done].
Qed.

Lemma shrinks_drop d k : shrinks d (drop_dirty d k).
Proof.
  split; [done|cbn; by intros k' g [_ Hg]%lookup_delete_Some|]. intros k' x Hx. rewrite events_drop in Hx.
  case_bool_decide; [by apply elem_of_nil in Hx|done].
Qed.

Lemma shrinks_drop_at d k a : shrinks d (drop_dirty_at d k a).
Proof. unfold drop_dirty_at. case_bool_decide; [apply shrinks_drop|apply shrinks_refl]. Qed.

Lemma shrinks_drop_through d k a : shrinks d (drop_dirty_through d k a).
Proof.
  unfold drop_dirty_through. destruct (_ !! k); [|apply shrinks_refl].
  destruct (_ <=? _); [apply shrinks_drop|apply shrinks_refl].
Qed.

Lemma shrinks_ack d kind key t : shrinks d (drop_dirty_at (retire d kind key t) (kind, key) t).
Proof. eapply shrinks_trans; [apply shrinks_retire|apply shrinks_drop_at]. Qed.

(** Tables the queue does not look at. *)
Lemma shrinks_same d d' : meta d' = meta d -> mutable_dirty d' = mutable_dirty d -> intent_events d' = intent_events d ->
  shrinks d d'.
Proof.
  intros H1 H2 H3. split; [unfold meta_get; by rewrite H1|intros k g; by rewrite H2|].
  intros k x. unfold events_of. by rewrite H3.
Qed.

Lemma adopts_shrinks d d1 ts t tags cost : adopts d d1 ts t tags cost -> shrinks d d1.
Proof.
  unfold adopts. destruct (unknown_newer _ _ _); [intros ->; apply shrinks_refl|].
  intros (tg & pc & _ & H). cbv zeta in H. destruct pc; subst d1; by apply shrinks_same.
Qed.

Lemma confirm_shrinks d ts t id key up tags cost r ok d' : receipt_ok r ->
  confirm_charge_mutable_push_with_receipt d ts t id key up tags cost r = Ok (ok, d') -> shrinks d d'.
Proof.
  intros Hr H. destruct ok; [|apply confirm_false in H as ->; apply shrinks_refl].
  apply confirm_Ok in H as (d1 & Ha & Hd). cbv zeta in Hd. apply adopts_shrinks in Ha.
  eapply shrinks_trans; [exact Ha|]. subst d'. destruct r as [[rk x]|]; [|apply shrinks_ack].
  eapply shrinks_trans; [apply shrinks_ack|by apply shrinks_meta].
Qed.

Lemma backfill_shrinks d ts id up key ok d' : backfill_charge_upload_key d ts id up key = Ok (ok, d') -> shrinks d d'.
Proof.
  unfold backfill_charge_upload_key. intros H. destruct (is_empty key); [done|].
  destruct (charge_uploads d !! ts) as [[[i k] a]|]; [|injection H as _ <-; apply shrinks_refl].
  destruct (_ && _); [|injection H as _ <-; apply shrinks_refl]. injection H as _ <-.
  destruct (is_empty k); [by apply shrinks_same|apply shrinks_refl].
Qed.

(** A new stamp. *)
Lemma mark_evolves d kind key now d' : is_i64 now -> Inv d -> clocked d ->
  mark_mutable_dirty_at d kind key now = Ok d' ->
  evolves d d' /\ exists g, clock d' = Some g /\ mutable_dirty d' !! (kind, key) = Some g /\ forall c, clock d = Some c -> c < g.
Proof.
  intros Hn Hi Hcl H. pose proof (Inv_mark d kind key now d' Hn Hi H) as Hi'.
  apply mark_Ok in H as (c & Hc & Hmax & Hd). cbv zeta in Hd. set (g := Z.max now (c + 1)) in *.
  assert (is_i64 g) as Hg by (unfold is_i64, g in *; lia).
  assert (clock d' = Some g) as Eg.
  { subst d'. unfold clock, meta_get. cbn. rewrite lookup_insert_eq. cbn. by rewrite parse_print_i64. }
  assert (forall c0, clock d = Some c0 -> c0 < g) as Hlt.
  { intros c0 Ec. unfold clock in Ec. unfold last_stamp in Hc. destruct (meta_get d CLOCK); [|done]. cbn in Ec.
    rewrite Ec in Hc. injection Hc as ->. unfold g. lia. }
  split; [|exists g; split; [done|]; split; [subst d'; cbn; by rewrite lookup_insert_eq|done]].
  split; [done|..].
  - intros k a Ha. exists g. split; [done|]. subst d'. cbn in Ha.
    apply lookup_insert_Some in Ha as [[_ <-]|[_ Ha]]; [lia|]. destruct (Hcl k a Ha) as (c0 & Ec & Hle). specialize (Hlt _ Ec). lia.
  - intros c0 Ec. exists g. split; [done|]. specialize (Hlt _ Ec). lia.
  - intros k x Hx. left. by subst d'.
Qed.

Lemma queue_edit_evolves now d kind key e d' : is_i64 now -> Inv d -> clocked d ->
  queue_edit now d kind key (queued d kind key) e = Ok d' -> evolves d d'.
Proof.
  intros Hn Hi Hcl H. pose proof (Inv_queue_edit now d kind key e d' Hn Hi H) as Hi'.
  pose proof H as H0. unfold queue_edit in H0. apply rbind_Ok in H0 as (d1 & Hm & _).
  pose proof Hm as Hm'. apply mark_Ok in Hm' as (c1 & Hc1 & Hmax & _).
  apply mark_evolves in Hm as (_ & g1 & _ & _ & Hlt1); [|done..].
  apply queue_edit_Ok in H as (c & g & Hc & Eg & Hlt & Hd & He & Ho & _ & _ & _ & _ & _ & Hme); [|done..].
  rewrite Hc in Hc1. injection Hc1 as <-.
  assert (is_i64 g) as Hr by (subst g; unfold is_i64 in *; lia).
  assert (clock d' = Some g) as Ed' by (unfold clock, meta_get; rewrite Hme, lookup_insert_eq; by apply parse_print_i64).
  assert (forall c0, clock d = Some c0 -> c0 < g) as Hck.
  { intros c0 Ec. unfold clock in Ec. unfold last_stamp in Hc. destruct (meta_get d CLOCK); [|done]. cbn in Ec.
    rewrite Ec in Hc. injection Hc as ->. lia. }
  split; [done|..].
  - intros k a Ha. exists g. split; [done|]. rewrite Hd in Ha.
    apply lookup_insert_Some in Ha as [[_ <-]|[_ Ha]]; [lia|]. specialize (Hlt _ _ Ha). lia.
  - intros c0 Ec. exists g. split; [done|]. specialize (Hck _ Ec). lia.
  - intros k x Hx. destruct (decide (k = (kind, key))) as [->|Hne]; [|left; by rewrite <- Ho].
    rewrite He in Hx. apply elem_of_app in Hx as [Hx|Hx%list_elem_of_singleton]; [by left|right].
    subst x. exact Hck.
Qed.

(** An edit after a change of the values it describes. *)
Lemma edit_after now d d1 kind key e d' : is_i64 now -> Inv d1 -> clocked d -> shrinks d d1 ->
  mutable_dirty d1 = mutable_dirty d ->
  queue_edit now d1 kind key (queued d kind key) e = Ok d' -> evolves d d'.
Proof.
  intros Hn Hi Hc Hs Hd H. pose proof (shrinks_evolves d d1 Hi Hc Hs) as H1. eapply evolves_trans; [exact H1|].
  eapply queue_edit_evolves; [done|done|by destruct H1|]. unfold queued in *. by rewrite Hd.
Qed.

Lemma add_tags_evolves now d tss tag d' : Forall is_i64 now -> Inv d -> clocked d ->
  add_charge_tags now d tss tag = Ok d' -> evolves d d'.
Proof.
  revert now d. induction tss as [|ts rest IH]; intros now d Hn Hi Hc H; cbn in H; [injection H as <-; by apply evolves_refl|].
  apply rbind_Ok in H as (d1 & H1 & H).
  assert (is_i64 (default 0 (head now))) as Hh by (destruct Hn; cbn; [unfold is_i64, I64_MAX; lia|done]).
  assert (evolves d d1) as E1.
  { eapply (edit_after _ d (with_tags d _)); [exact Hh|by apply Inv_tags|done|by apply shrinks_same|done|exact H1]. }
  eapply evolves_trans; [exact E1|]. destruct E1. apply (IH (tail now) d1); [by destruct Hn|done..].
Qed.

Section steps.
Context (url_decode : list Z -> option (list Z)) (url_encode : list Z -> list Z).

(** Every operation moves the queue forward. *)
Lemma step_evolves d d' : step url_decode url_encode d d' -> Inv d -> clocked d -> evolves d d'.
Proof.
  intros Hs Hi Hc. pose proof (Inv_step url_decode url_encode d d' Hs Hi) as Hi'.
  assert (shrinks d d' -> evolves d d') as Hsh by (intros; by apply shrinks_evolves). destruct Hs.
  - unfold set_charge_tags_inner in *. destruct mark; [|apply Hsh; simplify_eq; by apply shrinks_same].
    eapply (edit_after now d (put_charge_tags d ts tags)); [done|by apply Inv_put_tags|done|by apply shrinks_same|done|eassumption].
  - unfold set_charge_cost_inner in *. inv_bind. destruct mark; [|apply Hsh; simplify_eq; by apply shrinks_same].
    eapply (edit_after now d (put_charge_cost d ts cost)); [done|by apply Inv_put_cost|done|by apply shrinks_same|done|eassumption].
  - unfold add_charge_tag_bulk in *. destruct (_ || _); [done|].
    destruct (is_empty tss); [simplify_eq; by apply evolves_refl|]. inv_bind. simplify_eq. by eapply add_tags_evolves.
  - apply Hsh. unfold apply_charge_mutable_from_sync in *.
    destruct (charge_uploads d !! ts) as [[[i k] a]|]; [|simplify_eq; apply shrinks_refl].
    destruct (negb _); [done|]. case_bool_decide; [simplify_eq; apply shrinks_refl|].
    destruct cost as [[am cu]|]; [destruct (cost_ok am); [|done]|]; simplify_eq; destruct (is_empty k); by apply shrinks_same.
  - apply Hsh. subst d'. unfold clear_mutable_dirty. destruct_if; [apply shrinks_ack|apply shrinks_refl].
  - apply Hsh. subst d'. unfold clear_charge_mutable_dirty_if_source. destruct (_ && _); [apply shrinks_ack|apply shrinks_refl].
  - apply Hsh. by eapply confirm_shrinks.
  - apply Hsh. unfold confirm_charge_upload in *. destruct (outbox_contains d ts); [simplify_eq; apply shrinks_refl|].
    destruct (match charge_uploads d !! ts with Some _ => _ | None => _ end); [simplify_eq; apply shrinks_refl|].
    set (d1 := match charge_uploads d !! ts with Some _ => d | None => _ end) in *.
    assert (shrinks d d1) as H1 by (unfold d1; destruct (charge_uploads d !! ts); [apply shrinks_refl|by apply shrinks_same]).
    simplify_eq. eapply shrinks_trans; [exact H1|]. destruct key, g; try apply shrinks_refl.
    destruct_if; [apply shrinks_ack|apply shrinks_refl].
  - apply Hsh. by eapply backfill_shrinks.
  - apply Hsh. subst d'. unfold charge_upload_mark. destruct (outbox_contains d ts); [apply shrinks_refl|by apply shrinks_same].
  - apply Hsh. subst d'. unfold delete_charge. eapply shrinks_trans; [|apply shrinks_drop]. by apply shrinks_same.
  - apply Hsh. subst d'. unfold charge_delete_ack. destruct (_ !! ts) as [[i a]|]; [by apply shrinks_same|apply shrinks_refl].
  - apply Hsh. subst d'. unfold charge_delete_remove.
    destruct (_ !! ts) as [[i [a|]]|]; [by apply shrinks_same|apply shrinks_refl..].
  - by eapply mark_evolves.
  - unfold stage_rate_preferences_with_tag in *. inv_bind.
    match goal with H : queue_edit _ _ _ _ _ _ = Ok ?x |- _ => assert (evolves d x) as E1 by (by eapply queue_edit_evolves) end.
    eapply evolves_trans; [exact E1|]. destruct E1. apply shrinks_evolves; [done|done|]. by apply shrinks_meta_set.
  - apply Hsh. unfold stage_rate_confirmation in *. inv_bind. case_bool_decide; [|done]. simplify_eq. by apply shrinks_meta_set.
  - apply Hsh. unfold finish_rate_confirmation in *.
    match goal with H : rbind _ _ = Ok _ |- _ => apply rbind_Ok in H as ([] & Hv & H) end.
    case_bool_decide; [|done]. simplify_eq. apply validate_receipt in Hv.
    eapply shrinks_trans; [apply shrinks_retire|]. eapply shrinks_trans; [apply shrinks_drop_through|].
    eapply shrinks_trans; [|by apply shrinks_meta]. destruct (receipt c) as [[key raw]|]; [by apply shrinks_meta|apply shrinks_refl].
Qed.

End steps.
