(* ===== verification/Effects.v ===== *)
(** * Tasks over a shared world

    The monad of an asynchronous task: it changes the world, and ends with a
    value, with an error, or because the process died. *)

From stdpp Require Import base list.
From S2P Require Import Prelude.

(** How a step ends; nothing catches the end of the process. *)
Inductive Out (E A : Type) := Ret (a : A) | Throw (e : E) | Dead.
Arguments Ret {E A}. Arguments Throw {E A}. Arguments Dead {E A}.

Section effects.
Context {W E : Type}.

Definition Task (A : Type) : Type := W -> Out E A * W.
Definition mret {A} (a : A) : Task A := fun w => (Ret a, w).
Definition mthrow {A} (e : E) : Task A := fun w => (Throw e, w).
Definition mdead {A} : Task A := fun w => (Dead, w).
Definition mbind {A B} (m : Task A) (k : A -> Task B) : Task B := fun w =>
  match m w with (Ret a, w) => k a w | (Throw e, w) => (Throw e, w) | (Dead, w) => (Dead, w) end.
Definition lift {A} (r : result E A) : Task A := match r with Ok a => mret a | Err e => mthrow e end.
Definition ensure (b : bool) (e : E) : Task unit := if b then mret tt else mthrow e.
(** [.is_err()]; a caught result. *)
Definition try {A} (m : Task A) : Task (result E A) := fun w =>
  match m w with (Ret a, w) => (Ret (Ok a), w) | (Throw e, w) => (Ret (Err e), w) | (Dead, w) => (Dead, w) end.
(** [unwrap] and [[0]]: a panic ends the process. *)
Definition no_panic {A} (o : option A) : Task A := match o with Some a => mret a | None => mdead end.

End effects.
Arguments Task : clear implicits.

Declare Scope task_scope.
Delimit Scope task_scope with task.
Notation "'do' x ← m ; k" := (mbind m (fun x => k)) (at level 20, x pattern, m at level 100, k at level 200) : task_scope.
