(* ===== verification/ChargePush.v ===== *)
(** * Publishing charging edits: [cloud_uploader/src/sync/conditional_charge.rs],
      with the pairing and envelope checks of [sync/revision.rs]

    A sweep reads each queued charge, merges its edits into the document the
    cloud holds, keeps the exact request in the database and sends it. A request
    whose outcome is unknown is read back and repeated, never rebuilt.

    The task runs among others. Before each of its steps the next of [moves]
    happens: edits in the database, another pairing, writes of other devices, or
    the end of the process. [net] is the fate of each request, [tx_faults] of
    each transaction, [fills] the answers of the random generator, [cancels] of
    [archive_cancel_requested]. [kept] lists the databases a power cut may leave,
    [log] what the task did. The cloud service is the class [Service]; JSON
    encoding is the class [Wire]. *)

From Stdlib Require Import ZArith Lia.
From stdpp Require Import base gmap list.
From S2P Require Import Prelude Effects Float Str Json MutableQueue CloudMerge CloudCrypto.

Import Json MutableQueue CloudCrypto.
Open Scope Z_scope.
Open Scope task_scope.

Module ChargePush.

Notation str := (list Z) (only parsing).
Notation Creds := CloudCrypto.CloudCredentialsV1.

(** ** Requests and replies *)

Record Proposal := mkProposal {
  kind : str;
  id : str;
  record_version : str;
  wrapped_key : str;
  expected_ciphertext : option str;
  ciphertext : str;
  changed_at_ms : Z;
  field_merge : bool;
  operation_id : option str
}.

Record Pending := mkPending {
  pn_version : Z;
  pn_binding : str;
  session_ts : Z;
  pn_uploaded_at : Z;
  proposal : Proposal
}.

Record Source := mkSource {
  src_version : str;
  src_key : str;
  src_ciphertext : option str;
  src_updated_at_ms : Z
}.

Inductive Remote :=
| ROk (kind id : str) (source : Source)
| RNotFound (kind id : str).

Definition identity (r : Remote) : str * str :=
  match r with ROk k i _ | RNotFound k i => (k, i) end.

Record States := { st_ok : bool; st_write_protocol : Z; items : list Remote }.
Record Ack := { ack_kind : str; ack_id : str; status : str }.
Record Acks := { ak_ok : bool; ak_write_protocol : Z; results : list Ack }.

(** A response: whether its status is a success, and its body once it fits the
    size bound and decodes. *)
Record Reply (A : Type) := mkReply { success : bool; body : option A }.
Arguments mkReply {A}. Arguments success {A}. Arguments body {A}.

Record StateRequest := { sq_pi : str; sq_generation : Z; sq_ids : list str }.
Record WriteRequest := { wq_pi : str; wq_generation : Z; wq_items : list Proposal }.

Class Service := {
  Cloud : Type;
  serve_state : Cloud -> StateRequest -> Reply States;
  serve_write : Cloud -> WriteRequest -> Cloud * Reply Acks
}.

(** What serde and base64url encode. *)
Class Wire := {
  creds_vec : Creds -> list Z;
  url_encode : list Z -> str;
  value_vec : Value -> option (list Z);
  value_of : list Z -> option Value;
  identity_vec : str * Proposal -> list Z;
  pending_raw : Pending -> str;
  pending_of : str -> option Pending
}.

Inductive PushError :=
| PDb (e : DbError) | PSqlite | PNotPaired | PPairingChanged | PEnvelope | PCancelled | PHttp | PStatus | PBody
| PRequest | PIncomplete | PUnexpected | PSourceState | PSeal (e : SealError) | PFields | PCost | PConfirm | PPublication
| PAck | PUnreadable | PIdentity | POlder | PRejected | PSourceAfter | PMissing | PKeyChanged | PBackfill | PReconcile
| PMerge (e : CloudMerge.MergeError) | PPending | PSourceBefore | PSession | PSameTarget | PFailed.

Notation Out := (Effects.Out PushError).

Section push.
Context `{!Aead, !Base64, !Hashes, !Service, !Wire}.

(** ** The machine *)

(** An item of the batch ([Ready]), with what it was made from. *)
Record Attempt := mkAttempt {
  at_creds : Creds;
  at_pi_key : list Z;
  at_intent : Intent;
  at_pending : Pending;
  at_key : str;
  at_raw : str
}.

Inductive Event :=
| ERead (c : Cloud) (r : StateRequest)
| EStaged (a : Attempt)
| EWrite (before : Cloud) (r : WriteRequest) (after : Cloud)
| EConfirmed (pairing : option Creds) (ts : Z) (before after : Db).

Record Move := mkMove {
  mv_db : Db -> Db;
  mv_creds : option Creds -> option Creds;
  mv_cloud : Cloud -> Cloud;
  mv_dies : bool
}.

Inductive NetFault := Answered | NotSent | ReplyLost.
Inductive TxFault := TxGood | TxRolledBack | TxReported | TxCut.

Record World := mkWorld {
  db : Db;
  kept : list Db;
  creds : option Creds;
  held : bool;
  cloud : Cloud;
  moves : list Move;
  net : list NetFault;
  tx_faults : list TxFault;
  fills : list (option (list Z));
  cancels : list bool;
  log : list Event
}.

Definition M (A : Type) : Type := Task World PushError A.

Definition set_db (w : World) d k := mkWorld d k (creds w) (held w) (cloud w) (moves w) (net w) (tx_faults w) (fills w) (cancels w) (log w).
Definition set_held (w : World) h := mkWorld (db w) (kept w) (creds w) h (cloud w) (moves w) (net w) (tx_faults w) (fills w) (cancels w) (log w).
Definition set_cloud (w : World) c n := mkWorld (db w) (kept w) (creds w) (held w) c (moves w) n (tx_faults w) (fills w) (cancels w) (log w).
Definition set_tx (w : World) t := mkWorld (db w) (kept w) (creds w) (held w) (cloud w) (moves w) (net w) t (fills w) (cancels w) (log w).
Definition set_fills (w : World) f := mkWorld (db w) (kept w) (creds w) (held w) (cloud w) (moves w) (net w) (tx_faults w) f (cancels w) (log w).
Definition set_cancels (w : World) c := mkWorld (db w) (kept w) (creds w) (held w) (cloud w) (moves w) (net w) (tx_faults w) (fills w) c (log w).
Definition note (w : World) e := mkWorld (db w) (kept w) (creds w) (held w) (cloud w) (moves w) (net w) (tx_faults w) (fills w) (cancels w) (log w ++ [e]).

(** The others' next move; a pairing does not change while its lock is held. *)
Definition moved (m : Move) (w : World) : World :=
  mkWorld (mv_db m (db w)) (kept w ++ [mv_db m (db w)]) (if held w then creds w else mv_creds m (creds w)) (held w)
    (mv_cloud m (cloud w)) (tail (moves w)) (net w) (tx_faults w) (fills w) (cancels w) (log w).
Definition tick : M unit := fun w =>
  match moves w with
  | [] => (Ret tt, w)
  | m :: _ => (if mv_dies m then Dead else Ret tt, moved m w)
  end.

(** [check_archive_cancelled]. *)
Definition check_archive_cancelled : M unit := fun w =>
  (if default false (head (cancels w)) then Throw PCancelled else Ret tt, set_cancels w (tail (cancels w))).

(** The random generator fills an array of twelve bytes. *)
Definition fill : M (option (list Z)) := fun w =>
  (Ret (resize NONCE_LEN 0 <$> default None (head (fills w))), set_fills w (tail (fills w))).

(** A query of the database. *)
Definition query {A} (q : Db -> A) : M A :=
  do _ ← tick;
  fun w => (match head (tx_faults w) with Some TxRolledBack => Throw PSqlite | _ => Ret (q (db w)) end, set_tx w (tail (tx_faults w))).

(** A transaction: [f] gives the outcome and the new tables. A durable one is
    flushed when it commits, and may report an error after that; [entry] is its
    entry of the log. *)
Definition transaction {A} (durable : bool) (f : Db -> result PushError (A * Db)) (entry : World -> A -> Db -> list Event) : M A :=
  do _ ← tick;
  fun w =>
    let w0 := set_tx w (tail (tx_faults w)) in
    match head (tx_faults w) with
    | Some TxRolledBack => (Throw PSqlite, w0)
    | fault =>
        match f (db w) with
        | Err e => (Throw e, w0)
        | Ok (a, d) =>
            let w1 := foldl note (set_db w0 d (if durable then [d] else kept w ++ [d])) (entry w a d) in
            match fault with
            | Some TxCut => (Dead, set_db w1 d (kept w ++ [d]))
            | Some TxReported => (if durable then Throw PSqlite else Ret a, w1)
            | _ => (Ret a, w1)
            end
        end
    end.

Definition nothing {A} (w : World) (a : A) (d : Db) : list Event := [].

(** The read and the write endpoint. *)
Definition post_state (r : StateRequest) : M (Reply States) :=
  do _ ← tick;
  fun w =>
    let w0 := set_cloud w (cloud w) (tail (net w)) in
    match default Answered (head (net w)) with
    | Answered => (Ret (serve_state (cloud w) r), note w0 (ERead (cloud w) r))
    | NotSent | ReplyLost => (Throw PHttp, w0)
    end.

Definition post_write (r : WriteRequest) : M (Reply Acks) :=
  do _ ← tick;
  fun w =>
    let n := tail (net w) in
    match default Answered (head (net w)) with
    | NotSent => (Throw PHttp, set_cloud w (cloud w) n)
    | f => let (c, reply) := serve_write (cloud w) r in
           (match f with Answered => Ret reply | _ => Throw PHttp end, note (set_cloud w c n) (EWrite (cloud w) r c))
    end.

(** ** [revision.rs] *)

Definition binding (c : Creds) : str := url_encode (sha256 (creds_vec c)).

Definition check_pairing (c : option Creds) (expected : str) : result PushError unit :=
  let? current := ok_or c PNotPaired in
  if bool_decide (binding current = expected) then Ok tt else Err PPairingChanged.

(** [current_pairing], the guard kept while [m] runs. *)
Definition with_pairing {A} (expected : str) (m : M A) : M A :=
  do _ ← tick;
  fun w =>
    match check_pairing (creds w) expected with
    | Err e => (Throw e, w)
    | Ok _ => let (r, w') := m (set_held w true) in (r, set_held w' false)
    end.
(** The guard dropped at once. *)
Definition current_pairing (expected : str) : M unit := with_pairing expected (mret tt).

(** [max.div_ceil(3) * 4]. *)
Definition valid_envelope (value : str) (max : nat) (exact : option nat) : result PushError unit :=
  if negb (length value <=? (max + 2) / 3 * 4)%nat then Err PEnvelope
  else
    let? bytes := ok_or (b64_decode value) PEnvelope in
    if (31 <=? length bytes)%nat && (length bytes <=? max)%nat && bool_decide (head bytes = Some 1)
       && match exact with Some len => (length bytes =? len)%nat | None => true end
       && bool_decide (b64_encode bytes = value)
    then Ok tt else Err PEnvelope.

(** ** [conditional_charge.rs] *)

Definition hex_id (value : str) : bool :=
  (length value =? 64)%nat
  && forallb (fun b => ((48 <=? b) && (b <=? 57)) || ((97 <=? b) && (b <=? 102))) value.

Definition RECEIPT_PREFIX : str := lit "cloud_charge_publication_v2:".
Definition receipt_key (binding : str) (ts : Z) : str := RECEIPT_PREFIX ++ binding ++ lit ":" ++ print_i64 ts.

Definition MAX_MS : Z := 8640000000000000.

(** One item of a state response: known, wanted and not seen before. *)
Definition check_remote (wanted : list str) (seen : list str) (item : Remote) : result PushError (list str) :=
  let (kind, id) := identity item in
  if negb (bool_decide (kind = CHARGE) && bool_decide (id ∈ wanted) && negb (bool_decide (id ∈ seen))) then Err PUnexpected
  else
    let? _ := match item with
              | ROk _ _ s =>
                  let? _ := if hex_id (src_version s) && ((0 <=? src_updated_at_ms s) && (src_updated_at_ms s <=? MAX_MS))
                            then Ok tt else Err PSourceState in
                  let? _ := valid_envelope (src_key s) 61 (Some 61%nat) in
                  match src_ciphertext s with Some ct => valid_envelope ct 2048 None | None => Ok tt end
              | RNotFound _ _ => Ok tt
              end in
    Ok (id :: seen).

Fixpoint check_remotes (wanted seen : list str) (l : list Remote) : result PushError unit :=
  match l with
  | [] => Ok tt
  | item :: t => let? seen := check_remote wanted seen item in check_remotes wanted seen t
  end.

Definition read_states (creds : Creds) (binding : str) (ids : list str) : M (list Remote) :=
  do _ ← ensure (negb (is_empty ids) && (length ids <=? 200)%nat && forallb hex_id ids) PRequest;
  do _ ← current_pairing binding;
  do response ← post_state {| sq_pi := pi_id creds; sq_generation := dek_rotation_generation creds; sq_ids := ids |};
  do _ ← ensure (success response) PStatus;
  do parsed ← lift (ok_or (body response) PBody);
  do _ ← ensure (st_ok parsed && (st_write_protocol parsed =? 3) && (length (items parsed) =? length ids)%nat) PIncomplete;
  do _ ← lift (check_remotes ids [] (items parsed));
  do _ ← current_pairing binding;
  mret (items parsed).

(** The empty document. *)
Definition no_fields : Value := Object (<[lit "tags" := Array []]> {[ lit "costOverride" := Null ]}).

Definition sealed {A} (r : result SealError A) : result PushError A :=
  match r with Ok a => Ok a | Err e => Err (PSeal e) end.
(** An identifier too long for its length prefix panics. *)
Definition unwrap_key (creds : Creds) (pi_key : list Z) (id wrapped : str) : M (list Z) :=
  do key_aad ← no_panic (CloudCrypto.charge_key (user_id creds) (pi_id creds) id);
  lift (sealed (unwrap_content_key pi_key wrapped key_aad)).

Definition decrypt (creds : Creds) (pi_key : list Z) (id wrapped : str) (ct : option str) : M Value :=
  do key ← unwrap_key creds pi_key id wrapped;
  match ct with
  | Some ct =>
      do aad ← no_panic (charge_mutable (user_id creds) (pi_id creds) id);
      lift (sealed (open_json_b64 value_of key aad ct))
  | None => mret no_fields
  end.

(** [ChargeMutable] from a document; serde also takes a struct as an array of
    its fields in order, of which only the last may be left out. *)
Record ChargeMutable := { cm_tags : list str; cm_cost : option (Z * str); cm_at_home : option bool }.

Definition cost_of (v : Value) : option (option (Z * str)) :=
  match v with
  | Null => Some None
  | Object m =>
      amount ← (m !! lit "amount") ≫= as_f64;
      currency ← (m !! lit "currency") ≫= as_str;
      Some (Some (amount, currency))
  | Array [a; c] => amount ← as_f64 a; currency ← as_str c; Some (Some (amount, currency))
  | _ => None
  end.

Definition at_home_of (v : Value) : option (option bool) :=
  match v with Null => Some None | Bool b => Some (Some b) | _ => None end.

Definition tags_of (v : Value) : option (list str) := l ← as_array v; mapM as_str l.

Definition charge_mutable_of (v : Value) : option ChargeMutable :=
  let make t c h := tags ← tags_of t; cost ← cost_of c; home ← at_home_of h;
                    Some {| cm_tags := tags; cm_cost := cost; cm_at_home := home |} in
  match v with
  | Object m => t ← m !! lit "tags"; make t (default Null (m !! lit "costOverride")) (default Null (m !! lit "atHome"))
  | Array [t; c] => make t c Null
  | Array [t; c; h] => make t c h
  | _ => None
  end.

Definition fields (value : Value) : result PushError ChargeMutable :=
  let? f := ok_or (charge_mutable_of value) PFields in
  match cm_cost f with
  | Some (amount, _) => if cost_ok amount then Ok f else Err PCost
  | None => Ok f
  end.

Definition in_db {A} (r : result DbError A) : result PushError A :=
  match r with Ok a => Ok a | Err e => Err (PDb e) end.

Definition confirm (ts through : Z) (id wrapped : str) (uploaded : Z) (value : Value) (receipt : option (str * str)) : M unit :=
  do f ← lift (fields value);
  do confirmed ← transaction false
    (fun d => in_db (confirm_charge_mutable_push_with_receipt d ts through id wrapped uploaded (cm_tags f) (cm_cost f) receipt))
    (fun w ok d => if ok : bool then [EConfirmed (creds w) ts (db w) d] else []);
  ensure confirmed PConfirm.

Definition matches_source (pending : Pending) (remote : Remote) : bool :=
  match remote with
  | ROk _ i s => bool_decide (i = id (proposal pending)) && bool_decide (src_version s = record_version (proposal pending))
                 && bool_decide (src_key s = wrapped_key (proposal pending))
  | RNotFound _ _ => false
  end.

Definition retire_attempt (key expected : str) : M unit :=
  transaction false
    (fun d => if bool_decide (meta_get d key = Some expected) then Ok (tt, meta_del d key) else Err PPublication) nothing.

Definition STATUSES : list str := [lit "applied"; lit "conflict"; lit "source_changed"; lit "not_found"].
Definition is_applied (a : Ack) : bool := bool_decide (status a = lit "applied").

Fixpoint check_acks (wanted seen : list str) (l : list Ack) : bool :=
  match l with
  | [] => true
  | a :: t => bool_decide (ack_kind a = CHARGE) && bool_decide (ack_id a ∈ wanted) && negb (bool_decide (ack_id a ∈ seen))
              && bool_decide (status a ∈ STATUSES) && check_acks wanted (ack_id a :: seen) t
  end.

Definition post (creds : Creds) (binding : str) (proposals : list Proposal) : M Acks :=
  do _ ← current_pairing binding;
  do response ← post_write {| wq_pi := pi_id creds; wq_generation := dek_rotation_generation creds; wq_items := proposals |};
  do _ ← ensure (success response) PStatus;
  do acks ← lift (ok_or (body response) PBody);
  do _ ← ensure (ak_ok acks && (ak_write_protocol acks =? 3) && (length (results acks) =? length proposals)%nat
                 && check_acks (id <$> proposals) [] (results acks)) PAck;
  mret acks.

(** [states[0]] and [results[0]] of a request of one item. *)
Definition the_item {A} (l : list A) : M A := no_panic (head l).

Definition recover (creds : Creds) (pi_key : list Z) (binding key raw : str) : M unit :=
  do pending ← lift (ok_or (pending_of raw) PUnreadable);
  let p := proposal pending in
  do _ ← ensure (((pn_version pending =? 2) || (pn_version pending =? 3)) && bool_decide (pn_binding pending = binding)
                 && bool_decide (kind p = CHARGE) && bool_decide (key = receipt_key binding (session_ts pending))
                 && field_merge p) PIdentity;
  do _ ← lift (valid_envelope (ciphertext p) 2048 None);
  do states ← read_states creds binding [id p];
  do now ← the_item states;
  let exact := matches_source pending now
               && match now with ROk _ _ s => bool_decide (src_ciphertext s = Some (ciphertext p)) | _ => false end in
  do now ← (if exact then mret now
            else
              do _ ← ensure ((pn_version pending =? 3)
                             && match operation_id p with Some op => hex_id op | None => false end) POlder;
              do acks ← post creds binding [p];
              do ack ← the_item (results acks);
              if negb (is_applied ack)
              then do _ ← with_pairing binding (retire_attempt key raw); mthrow PRejected
              else do states ← read_states creds binding [id p]; the_item states);
  do _ ← ensure (matches_source pending now) PSourceAfter;
  match now with
  | ROk _ _ s =>
      do value ← decrypt creds pi_key (id p) (wrapped_key p) (src_ciphertext s);
      with_pairing binding
        (confirm (session_ts pending) (changed_at_ms p) (id p) (wrapped_key p) (pn_uploaded_at pending) value (Some (key, raw)))
  | RNotFound _ _ => mdead
  end.

(** [valid] of the publication: the upload row and a queued row no older. *)
Definition source_current (d : Db) (ts : Z) (id wrapped : str) (uploaded through : Z) : bool :=
  source_matches d ts id wrapped uploaded
  && match queued d CHARGE (print_i64 ts) with Some a => through <=? a | None => false end.

Definition stage (a : Attempt) (through : Z) : M unit :=
  let pending := at_pending a in let p := proposal pending in
  transaction true
    (fun d =>
       if negb (bool_decide (meta_get d (at_key a) = None)) then Err PPending
       else if negb (source_current d (session_ts pending) (id p) (wrapped_key p) (pn_uploaded_at pending) through)
       then Err PSourceBefore
       else Ok (tt, meta_set d (at_key a) (at_raw a)))
    (fun _ _ _ => [EStaged a]).

Notation Snap := ChargeMutableSyncSnapshot.

(** The document to publish. *)
Definition merged_of (s : Snap) (cloud_doc : Value) (cloud_fields : ChargeMutable) : result PushError Value :=
  if legacy (sn_intent s)
  then if bool_decide (str_set (sn_tags s) = str_set (cm_tags cloud_fields))
          && CloudMerge.core_eqb (sn_cost s) (cm_cost cloud_fields)
       then Ok cloud_doc else Err PReconcile
  else match CloudMerge.merge_charge (sn_intent s) cloud_doc with Ok v => Ok v | Err e => Err (PMerge e) end.

Definition operation_hash (binding : str) (p : Proposal) : str := hex_encode (sha256 (identity_vec (binding, p))).

Definition with_operation (p : Proposal) (op : str) : Proposal :=
  mkProposal (kind p) (id p) (record_version p) (wrapped_key p) (expected_ciphertext p) (ciphertext p) (changed_at_ms p)
    (field_merge p) (Some op).

(** The closure [prepared] of one session; [upload] is its upload row. *)
Definition prepare (creds : Creds) (pi_key : list Z) (binding : str) (ts through : Z) (s : Snap) (upload : str * str * Z)
    (remote : Remote) : M (option Attempt) :=
  let '(id, wrapped, uploaded) := upload in
  match remote with
  | RNotFound _ _ => mthrow PMissing
  | ROk _ _ src =>
      do _ ← ensure (is_empty wrapped || bool_decide (src_key src = wrapped)) PKeyChanged;
      do cloud_doc ← decrypt creds pi_key id (src_key src) (src_ciphertext src);
      do _ ← (if is_empty wrapped
              then do ok ← transaction false (fun d => in_db (backfill_charge_upload_key d ts id uploaded (src_key src))) nothing;
                   ensure ok PBackfill
              else mret tt);
      let wrapped := src_key src in
      do cloud_fields ← lift (fields cloud_doc);
      do merged ← lift (merged_of s cloud_doc cloud_fields);
      do _ ← lift (fields merged);
      if veq merged cloud_doc
      then do _ ← confirm ts through id wrapped uploaded merged None; mret None
      else
        do content_key ← unwrap_key creds pi_key id wrapped;
        do aad ← no_panic (charge_mutable (user_id creds) (pi_id creds) id);
        do nonce ← fill;
        do desired ← lift (sealed (seal_json_b64 value_vec nonce content_key aad merged));
        do _ ← lift (valid_envelope desired 2048 None);
        let p := mkProposal CHARGE id (src_version src) wrapped (src_ciphertext src) desired through true None in
        let pending := mkPending 3 binding ts uploaded (with_operation p (operation_hash binding p)) in
        let a := mkAttempt creds pi_key (sn_intent s) pending (receipt_key binding ts) (pending_raw pending) in
        do _ ← stage a through;
        mret (Some a)
  end.

Notation Row := (Z * Z * Snap * (str * str * Z))%type.

(** The loop over a chunk, under the preparation guard. *)
Fixpoint prepare_all (creds : Creds) (pi_key : list Z) (binding : str) (remotes : list Remote) (chunk : list Row)
    (ready : list Attempt) (failed : bool) : M (list Attempt * bool) :=
  match chunk with
  | [] => mret (ready, failed)
  | (ts, through, s, upload) :: t =>
      do remote ← lift (ok_or (List.find (fun r => bool_decide ((identity r).2 = upload.1.1)) remotes) PMissing);
      do prepared ← try (prepare creds pi_key binding ts through s upload remote);
      match prepared with
      | Ok (Some a) => prepare_all creds pi_key binding remotes t (ready ++ [a]) failed
      | Ok None => prepare_all creds pi_key binding remotes t ready failed
      | Err _ => prepare_all creds pi_key binding remotes t ready true
      end
  end.

(** The answers of a batch, under one guard. *)
Fixpoint settle_all (creds : Creds) (pi_key : list Z) (acks : Acks) (ready : list Attempt) (failed : bool) : M bool :=
  match ready with
  | [] => mret failed
  | a :: t =>
      let p := proposal (at_pending a) in
      do ack ← no_panic (List.find (fun k => bool_decide (ack_id k = id p)) (results acks));
      if is_applied ack
      then
        do value ← decrypt creds pi_key (id p) (wrapped_key p) (Some (ciphertext p));
        do r ← try (confirm (session_ts (at_pending a)) (changed_at_ms p) (id p) (wrapped_key p) (pn_uploaded_at (at_pending a))
                      value (Some (at_key a, at_raw a)));
        settle_all creds pi_key acks t (match r with Ok _ => failed | Err _ => true end)
      else
        do _ ← retire_attempt (at_key a) (at_raw a);
        settle_all creds pi_key acks t true
  end.

(** The batch without an answer. *)
Fixpoint recover_all (creds : Creds) (pi_key : list Z) (binding : str) (ready : list Attempt) (failed : bool) : M bool :=
  match ready with
  | [] => mret failed
  | a :: t =>
      do r ← try (recover creds pi_key binding (at_key a) (at_raw a));
      recover_all creds pi_key binding t (match r with Ok _ => failed | Err _ => true end)
  end.

Definition push_chunk (creds : Creds) (pi_key : list Z) (binding : str) (chunk : list Row) (failed : bool) : M bool :=
  do _ ← check_archive_cancelled;
  do remotes ← read_states creds binding ((fun r : Row => r.2.1.1) <$> chunk);
  do prepared ← with_pairing binding (prepare_all creds pi_key binding remotes chunk [] failed);
  let (ready, failed) := prepared in
  if is_empty ready then mret failed
  else
    do _ ← current_pairing binding;
    do result ← try (post creds binding ((fun a => proposal (at_pending a)) <$> ready));
    match result with
    | Ok acks => with_pairing binding (settle_all creds pi_key acks ready failed)
    | Err _ => recover_all creds pi_key binding ready failed
    end.

Fixpoint push_chunks (creds : Creds) (pi_key : list Z) (binding : str) (chunks : list (list Row)) (failed : bool) : M bool :=
  match chunks with
  | [] => mret failed
  | chunk :: t => do failed ← push_chunk creds pi_key binding chunk failed; push_chunks creds pi_key binding t failed
  end.

(** The loop over the queue: unfinished publications first. *)
Fixpoint collect (creds : Creds) (pi_key : list Z) (binding : str) (rows : list (str * str * Z)) (snapshots : list Row)
    (failed : bool) : M (list Row * bool) :=
  match rows with
  | [] => mret (snapshots, failed)
  | (kind, key, through) :: t =>
      do _ ← check_archive_cancelled;
      if negb (bool_decide (kind = CHARGE)) then collect creds pi_key binding t snapshots failed
      else
        do ts ← lift (ok_or (parse_i64 key) PSession);
        let receipt := receipt_key binding ts in
        do stored ← query (fun d => meta_get d receipt);
        match stored with
        | Some raw =>
            do r ← try (recover creds pi_key binding receipt raw);
            collect creds pi_key binding t snapshots (match r with Ok _ => failed | Err _ => true end)
        | None =>
            do snapshot ← query (fun d => charge_mutable_for_sync d ts through);
            match snapshot with
            | Some s =>
                match sn_upload s with
                | Some (id, wrapped, at_) =>
                    collect creds pi_key binding t
                      (if 0 <=? at_ then snapshots ++ [(ts, through, s, (id, wrapped, at_))] else snapshots) failed
                | None => collect creds pi_key binding t snapshots failed
                end
            | None => collect creds pi_key binding t snapshots failed
            end
        end
  end.

Definition push (creds : Creds) (pi_key : list Z) : M unit :=
  do _ ← check_archive_cancelled;
  let binding := binding creds in
  do _ ← current_pairing binding;
  do rows ← query dirty_mutables;
  do collected ← collect creds pi_key binding rows [] false;
  let (snapshots, failed) := collected in
  do _ ← ensure (bool_decide (NoDup ((fun r : Row => r.2.1.1) <$> snapshots))) PSameTarget;
  do failed ← push_chunks creds pi_key binding (chunks (length snapshots) 200 snapshots) failed;
  ensure (negb failed) PFailed.

End push.

End ChargePush.
