(* ===== verification/ChargePushLogic.v ===== *)
(** * A logic for publishing charging edits

    The invariant of [ChargePush] and a Hoare logic for the sweep ([hoare]):
    [Live] holds between its steps, [Good] when it dies, and [Fact]s carry what a
    step learnt across the moves of the others. The laws of the write protocol
    are the class [Protocol]. *)

From Stdlib Require Import ZArith Lia.
From stdpp Require Import base gmap list relations.
From S2P Require Import Prelude Effects Float Str Json MutableQueue MutableQueueSpec CloudMerge CloudCrypto CloudCryptoSpec QueueClock ChargePush.

Import Json CloudCrypto MutableQueue ChargePush.
Open Scope Z_scope.

(** ** Receipt keys *)

Lemma split_last_unique {A} (s : A) x y p q : s ∉ p -> s ∉ q -> x ++ s :: p = y ++ s :: q -> x = y /\ p = q.
Proof.
  intros Hp Hq. revert y. induction x as [|c x IH]; intros [|e y] H; cbn in H.
  - by injection H as ->.
  - injection H as -> ->. exfalso. apply Hp. set_solver.
  - injection H as -> <-. exfalso. apply Hq. set_solver.
  - injection H as -> H. by destruct (IH y H) as [-> ->].
Qed.

Lemma no_colon ts : 58 ∉ print_i64 ts.
Proof. intros H. pose proof (print_i64_chars ts) as F. rewrite Forall_forall in F. specialize (F _ H). lia. Qed.

Lemma receipt_key_inj b ts b' ts' : receipt_key b ts = receipt_key b' ts' -> b = b' /\ print_i64 ts = print_i64 ts'.
Proof. intros H%(app_inv_head RECEIPT_PREFIX). apply (split_last_unique 58); [apply no_colon..|exact H]. Qed.

Lemma receipt_key_ne b ts key : take 10 key <> take 10 RECEIPT_PREFIX -> receipt_key b ts <> key.
Proof. intros H <-. apply H. reflexivity. Qed.

Lemma receipt_not_clock b ts : receipt_key b ts <> CLOCK.
Proof. apply receipt_key_ne. vm_compute. discriminate. Qed.

(** Session times are 64-bit integers. *)
Definition i64_keys (d : Db) : Prop :=
  forall key g, mutable_dirty d !! (CHARGE, key) = Some g -> exists ts, is_i64 ts /\ key = print_i64 ts.

(** What the rest of the device may do: any operations of the queue, none of
    which touches a publication. *)
Definition meanwhile (d d' : Db) : Prop :=
  (exists url_decode url_encode, rtc (step url_decode url_encode) d d') /\ i64_keys d' /\
  forall b ts, meta_get d' (receipt_key b ts) = meta_get d (receipt_key b ts).

Lemma meanwhile_evolves d d' : Inv d -> clocked d -> meanwhile d d' -> evolves d d'.
Proof.
  intros Hi Hc ((ud & ue & H) & _). induction H as [d|d d1 d' Hs _ IH]; [by apply evolves_refl|].
  pose proof (step_evolves ud ue d d1 Hs Hi Hc) as E. eapply evolves_trans; [exact E|]. destruct E. by apply IH.
Qed.

Section protocol.
Context `{Ae : !Aead, AeL : !AeadLaws, Ba : !Base64, BaL : !Base64Laws, Hs : !Hashes, Sv : !Service, Wi : !Wire}.

Notation str := (list Z) (only parsing).
Notation Creds := CloudCrypto.CloudCredentialsV1.

Definition staged (l : list Event) : list Attempt := omap (fun e => match e with EStaged a => Some a | _ => None end) l.
Definition proposed (a : Attempt) : Proposal := proposal (at_pending a).
Definition op_of (a : Attempt) : str := default [] (operation_id (proposed a)).
Definition through_of (a : Attempt) : Z := changed_at_ms (proposed a).
Definition session (a : Attempt) : str * str := charge_key (session_ts (at_pending a)).
Definition operations (l : list Event) : list str := op_of <$> staged l.

End protocol.

(** The write protocol: [record_of] is the record a charge has, [applied]
    tells which operations of this device took effect. A read is true. A write
    takes effect once, only where the source and the ciphertext it names are
    still there, and its answer tells whether it did. *)
Class Protocol `{!Service} := {
  record_of : Cloud -> list Z -> option Source;
  applied : Cloud -> list Z -> bool;
  read_true c r s k i src : body (serve_state c r) = Some s -> ROk k i src ∈ items s -> record_of c i = Some src;
  write_keeps c r op : applied c op = true -> applied (fst (serve_write c r)) op = true;
  write_effect c r op : NoDup (id <$> wq_items r) -> applied c op = false -> applied (fst (serve_write c r)) op = true ->
    exists p src src', p ∈ wq_items r /\ operation_id p = Some op /\
      record_of c (id p) = Some src /\ src_version src = record_version p /\ src_key src = wrapped_key p /\
      src_ciphertext src = expected_ciphertext p /\
      record_of (fst (serve_write c r)) (id p) = Some src' /\ src_ciphertext src' = Some (ciphertext p);
  ack_true c r acks a p op : NoDup (id <$> wq_items r) -> body (snd (serve_write c r)) = Some acks ->
    a ∈ results acks -> status a ∈ STATUSES -> p ∈ wq_items r -> ack_id a = id p -> operation_id p = Some op ->
    applied (fst (serve_write c r)) op = is_applied a
}.

(** What is written to the database reads back. *)
Class WireLaws `{!Wire} := { pending_round p : pending_of (pending_raw p) = Some p }.

Section spec.
Context `{Ae : !Aead, AeL : !AeadLaws, Ba : !Base64, BaL : !Base64Laws, Hsh : !Hashes, Sv : !Service, Wi : !Wire, Pr : !Protocol, WiL : !WireLaws}.

Notation str := (list Z) (only parsing).
Notation Creds := CloudCrypto.CloudCredentialsV1.
Notation Snap := ChargeMutableSyncSnapshot.

(** ** Attempts *)

(** A ciphertext opens to a document, or to these bytes. *)
Definition opens (cr : Creds) (pk : list Z) (i wk : str) (ct : option str) (v : Value) : Prop :=
  forall w, decrypt cr pk i wk ct w = (Ret v, w).
Definition opens_bytes (cr : Creds) (pk : list Z) (i wk ct : str) (bytes : list Z) : Prop :=
  exists ka key aad, CloudCrypto.charge_key (user_id cr) (pi_id cr) i = Some ka /\ unwrap_content_key pk wk ka = Ok key /\
    charge_mutable (user_id cr) (pi_id cr) i = Some aad /\ open_json_b64 Some key aad ct = Ok bytes.

(** The proposal holds its edits merged into the document it expects. *)
Definition merges (a : Attempt) : Prop :=
  let p := proposed a in
  exists doc m bytes, opens (at_creds a) (at_pi_key a) (id p) (wrapped_key p) (expected_ciphertext p) doc /\
    CloudMerge.merge_charge (at_intent a) doc = Ok m /\ value_vec m = Some bytes /\
    opens_bytes (at_creds a) (at_pi_key a) (id p) (wrapped_key p) (ciphertext p) bytes.

Record AttemptOk (a : Attempt) : Prop := {
  ao_key : at_key a = receipt_key (pn_binding (at_pending a)) (session_ts (at_pending a));
  ao_raw : at_raw a = pending_raw (at_pending a);
  ao_op : operation_id (proposed a) = Some (op_of a);
  ao_bound : forall x, x ∈ edits (at_intent a) -> x.1 <= through_of a;
  ao_merges : merges a
}.

Definition recorded (d : Db) (a : Attempt) : Prop := meta_get d (at_key a) = Some (at_raw a).

(** A database a power cut may leave, against what was sent. *)
Record DbOk (l : list Event) (c : Cloud) (d : Db) : Prop := {
  ok_inv : Inv d;
  ok_clocked : clocked d;
  ok_canonical : i64_keys d;
  ok_receipt : forall b ts raw, meta_get d (receipt_key b ts) = Some raw ->
    exists a, a ∈ staged l /\ at_key a = receipt_key b ts /\ at_raw a = raw;
  ok_clock : forall a, a ∈ staged l -> recorded d a \/ applied c (op_of a) = true ->
    (exists k, clock d = Some k /\ through_of a <= k) /\
    forall x, x ∈ events_of d (session a) -> x.1 <= through_of a -> x ∈ edits (at_intent a);
  ok_settled : forall a, a ∈ staged l -> applied c (op_of a) = true ->
    recorded d a \/ forall x, x ∈ events_of d (session a) -> through_of a < x.1;
  ok_newer : forall a a2, a ∈ staged l -> a2 ∈ staged l -> recorded d a -> a2 <> a -> at_key a2 = at_key a ->
    applied c (op_of a2) = true -> forall x, x ∈ edits (at_intent a) -> through_of a2 < x.1
}.

(** The cloud took an attempt: its operation is applied, or a read found its
    ciphertext. *)
Definition published (l : list Event) (c : Cloud) (a : Attempt) : Prop :=
  applied c (op_of a) = true \/
  exists c0 r src, ERead c0 r ∈ l /\ record_of c0 (id (proposed a)) = Some src /\
    src_ciphertext src = Some (ciphertext (proposed a)).

(** The session's record in the cloud, as its upload row in [d] names it. *)
Definition uploaded_as (d : Db) (ts : Z) (i key : str) : Prop := exists up, charge_uploads d !! ts = Some (i, key, up).

(** A read under the pairing [b] found the session's record to hold a document
    that the session's edits, as an earlier database queued them, change nothing
    of; [x] is one of them. *)
Definition already_there (l : list Event) (b : str) (d : Db) (ts : Z) (x : Z * Edit) : Prop :=
  exists c0 r i src cr pk d0 t s doc f m, binding cr = b /\ ERead c0 r ∈ l /\ record_of c0 i = Some src /\
    uploaded_as d ts i (src_key src) /\ charge_mutable_for_sync d0 ts t = Some s /\ evolves d0 d /\
    opens cr pk i (src_key src) (src_ciphertext src) doc /\ fields doc = Ok f /\
    x ∈ edits (sn_intent s) /\ merged_of s doc f = Ok m /\ veq m doc = true.

(** Why a confirmation in the database [d] took an edit of a session off the
    queue: under the pairing in force, the cloud took an attempt on the session's
    record that merges it, or the record held it already. *)
Definition released (l : list Event) (c : Cloud) (pr : option Creds) (d : Db) (ts : Z) (x : Z * Edit) : Prop :=
  exists cr, pr = Some cr /\
    ((exists a, a ∈ staged l /\ pn_binding (at_pending a) = binding cr /\ session a = charge_key ts /\
        uploaded_as d ts (id (proposed a)) (wrapped_key (proposed a)) /\ x ∈ edits (at_intent a) /\ published l c a) \/
     already_there l (binding cr) d ts x).

Definition honest (m : Move) : Prop :=
  (forall d, Inv d -> clocked d -> i64_keys d -> meanwhile d (mv_db m d)) /\
  (forall c op, applied (mv_cloud m c) op = applied c op).

Record Good (w : World) : Prop := {
  gd_attempts : forall a, a ∈ staged (log w) -> AttemptOk a;
  gd_dbs : forall d, d ∈ kept w -> DbOk (log w) (cloud w) d;
  gd_applied : forall op, applied (cloud w) op = true -> op ∈ operations (log w);
  gd_once : forall a1 a2, a1 ∈ staged (log w) -> a2 ∈ staged (log w) -> a1 <> a2 -> at_key a1 = at_key a2 ->
    applied (cloud w) (op_of a1) = true -> applied (cloud w) (op_of a2) = true ->
    forall x, x ∈ edits (at_intent a1) -> x ∈ edits (at_intent a2) -> False;
  gd_writes : forall c r c' op, EWrite c r c' ∈ log w -> applied c op = false -> applied c' op = true ->
    exists a src src', a ∈ staged (log w) /\ op_of a = op /\ merges a /\
      record_of c (id (proposed a)) = Some src /\ src_ciphertext src = expected_ciphertext (proposed a) /\
      record_of c' (id (proposed a)) = Some src' /\ src_ciphertext src' = Some (ciphertext (proposed a));
  gd_confirmed : forall pr ts d d', EConfirmed pr ts d d' ∈ log w ->
    forall x, x ∈ events_of d (charge_key ts) -> x ∉ events_of d' (charge_key ts) -> released (log w) (cloud w) pr d ts x;
  gd_moves : forall m, m ∈ moves w -> honest m
}.

(** A publication in the current database is in every one a cut may leave. *)
Record Live (w : World) : Prop := {
  lv_good : Good w;
  lv_db : db w ∈ kept w;
  lv_kept : forall b ts raw, meta_get (db w) (receipt_key b ts) = Some raw ->
    forall d, d ∈ kept w -> meta_get d (receipt_key b ts) = Some raw
}.

(** ** Facts that outlast the others' moves *)

Inductive Fact :=
| FAbsent (b : str) (ts : Z)
| FRow (b : str) (ts through : Z) (s : Snap)
| FReceipt (a : Attempt)
| FPublished (a : Attempt)
| FRejected (a : Attempt)
| FSeen (i : str) (src : Source).

Definition holds (w : World) (f : Fact) : Prop :=
  match f with
  | FAbsent b ts => meta_get (db w) (receipt_key b ts) = None
  | FRow b ts through s =>
      let i := sn_intent s in
      (exists d0, charge_mutable_for_sync d0 ts through = Some s /\ evolves d0 (db w)) /\
      meta_get (db w) (receipt_key b ts) = None /\ (exists k, clock (db w) = Some k /\ through <= k) /\
      (forall x, x ∈ events_of (db w) (charge_key ts) -> x.1 <= through -> x ∈ edits i) /\
      (forall x, x ∈ edits i -> x.1 <= through) /\
      (forall a, a ∈ staged (log w) -> at_key a = receipt_key b ts -> applied (cloud w) (op_of a) = true ->
         forall x, x ∈ edits i -> through_of a < x.1)
  | FReceipt a => a ∈ staged (log w) /\ recorded (db w) a
  | FPublished a => a ∈ staged (log w) /\ published (log w) (cloud w) a
  | FRejected a => a ∈ staged (log w) /\ applied (cloud w) (op_of a) = false
  | FSeen i src => exists c0 r, ERead c0 r ∈ log w /\ record_of c0 i = Some src
  end.
Definition all (fs : list Fact) (w : World) : Prop := forall f, f ∈ fs -> holds w f.

(** The publication a fact is about. *)
Definition about (f : Fact) : option str :=
  match f with
  | FAbsent b ts | FRow b ts _ _ => Some (receipt_key b ts)
  | FReceipt a => Some (at_key a)
  | _ => None
  end.
Definition apart (key : str) (fs : list Fact) : Prop := forall f, f ∈ fs -> about f <> Some key.


(** ** The log *)

Lemma staged_app l k : staged (l ++ k) = staged l ++ staged k.
Proof. apply omap_app. Qed.

Lemma operations_app l k : operations (l ++ k) = operations l ++ operations k.
Proof. unfold operations. by rewrite staged_app, fmap_app. Qed.

Lemma NoDup_before l k : NoDup (operations (l ++ k)) -> NoDup (operations l).
Proof. rewrite operations_app. by intros [? _]%NoDup_app. Qed.

Lemma staged_mono l k a : a ∈ staged l -> a ∈ staged (l ++ k).
Proof. rewrite staged_app, elem_of_app. by left. Qed.

Lemma elem_of_operations l op : op ∈ operations l <-> exists a, a ∈ staged l /\ op_of a = op.
Proof. unfold operations. rewrite list_elem_of_fmap. naive_solver. Qed.

Lemma same_op l a b : NoDup (operations l) -> a ∈ staged l -> b ∈ staged l -> op_of a = op_of b -> a = b.
Proof.
  intros Hn Ha Hb E. apply list_elem_of_lookup in Ha as (i & Hi), Hb as (j & Hj).
  assert (i = j) as <-; [|congruence].
  apply (NoDup_lookup (operations l) i j (op_of a)); [done|unfold operations; by rewrite list_lookup_fmap, ?Hi, ?Hj..|].
  unfold operations. rewrite list_lookup_fmap, Hj. cbn. by rewrite E.
Qed.

Lemma raw_op a b : AttemptOk a -> AttemptOk b -> at_raw a = at_raw b -> op_of a = op_of b.
Proof.
  intros Ha Hb E. rewrite (ao_raw a Ha), (ao_raw b Hb) in E.
  assert (at_pending a = at_pending b) as Ep by (apply (inj Some); by rewrite <- !pending_round, E).
  unfold op_of, proposed. by rewrite Ep.
Qed.

(** One publication per key. *)
Lemma one_receipt w d a b : Good w -> NoDup (operations (log w)) -> a ∈ staged (log w) -> b ∈ staged (log w) ->
  recorded d a -> recorded d b -> at_key a = at_key b -> a = b.
Proof.
  intros G Hn Ha Hb H1 H2 E. unfold recorded in *. rewrite E, H2 in H1. injection H1 as H1.
  apply (same_op (log w)); [done..|]. symmetry. apply raw_op; [by eapply gd_attempts..|done].
Qed.

Lemma same_session a b : AttemptOk a -> AttemptOk b -> at_key a = at_key b -> session a = session b.
Proof.
  intros Ha Hb E. rewrite (ao_key a Ha), (ao_key b Hb) in E. apply receipt_key_inj in E as [_ E].
  unfold session, charge_key. by rewrite E.
Qed.

Lemma key_session a b ts : AttemptOk a -> at_key a = receipt_key b ts -> session a = charge_key ts.
Proof.
  intros Ha E. rewrite (ao_key a Ha) in E. apply receipt_key_inj in E as [_ E]. unfold session, charge_key. by rewrite E.
Qed.

(** ** Databases *)

Lemma DbOk_applied l c c' d : (forall op, applied c' op = applied c op) -> DbOk l c d -> DbOk l c' d.
Proof.
  intros E [H1 H2 H3 H4 H5 H6 H7]. split; [done..| | |]; intros *; rewrite ?E; [apply H5|apply H6|apply H7].
Qed.

Lemma DbOk_log l l' c d : staged l' = staged l -> DbOk l c d -> DbOk l' c d.
Proof. intros E [H1 H2 H3 H4 H5 H6 H7]. split; [done..| | | |]; rewrite E; done. Qed.

Definition same_receipts (d d' : Db) : Prop := forall b ts, meta_get d' (receipt_key b ts) = meta_get d (receipt_key b ts).

Lemma has_same d d' a : AttemptOk a -> same_receipts d d' -> recorded d' a <-> recorded d a.
Proof. intros Ha Hs. unfold recorded. by rewrite (ao_key a Ha), Hs. Qed.

Lemma newer_events d d' k t x : evolves d d' -> (exists c, clock d = Some c /\ t <= c) ->
  x ∈ events_of d' k -> x ∈ events_of d k \/ t < x.1.
Proof. intros E (c & Ec & Hle) [Hx|Hx]%(ev_events d d' E); [by left|right]. specialize (Hx _ Ec). lia. Qed.

Lemma clock_kept d d' t : evolves d d' -> (exists c, clock d = Some c /\ t <= c) -> exists c, clock d' = Some c /\ t <= c.
Proof. intros E (c & Ec & Hle). destruct (ev_clock d d' E c Ec) as (c' & Ec' & ?). exists c'. split; [done|lia]. Qed.

(** The queue moved and the publications stayed. *)
Lemma DbOk_evolves l c d d' : (forall a, a ∈ staged l -> AttemptOk a) -> DbOk l c d -> evolves d d' -> i64_keys d' ->
  same_receipts d d' -> DbOk l c d'.
Proof.
  intros Ha [H1 H2 H3 H4 H5 H6 H7] E Hc Hs.
  assert (forall a, a ∈ staged l -> recorded d' a <-> recorded d a) as Hh by (intros; apply has_same; auto).
  split; [apply E|apply E|done|..].
  - intros b ts raw. rewrite Hs. apply H4.
  - intros a Hin Hor. rewrite Hh in Hor by done. destruct (H5 a Hin Hor) as [Hk Hx]. split; [by eapply clock_kept|].
    intros x Hev Hle. destruct (newer_events d d' _ _ x E Hk Hev); [by apply Hx|lia].
  - intros a Hin Hap. rewrite Hh by done. destruct (H6 a Hin Hap) as [|Hx]; [by left|right].
    destruct (H5 a Hin (or_intror Hap)) as [Hk _]. intros x Hev. destruct (newer_events d d' _ _ x E Hk Hev); [by apply Hx|done].
  - intros a a2 Hin Hin2. rewrite Hh by done. by apply H7.
Qed.

(** ** Facts *)

Lemma all_ext fs w w' : db w' = db w -> cloud w' = cloud w -> log w' = log w -> all fs w -> all fs w'.
Proof.
  intros E1 E2 E3 H f Hf. specialize (H f Hf). destruct f; cbn in *; rewrite ?E1, ?E2, ?E3; exact H.
Qed.

Lemma published_mono l k c c' a : (forall op, applied c op = true -> applied c' op = true) ->
  published l c a -> published (l ++ k) c' a.
Proof.
  intros Hm [H|(c0 & r & src & Hin & H)]; [left; auto|right]. exists c0, r, src. split; [apply elem_of_app; by left|done].
Qed.

Lemma released_mono l k c c' pr d ts x : (forall op, applied c op = true -> applied c' op = true) ->
  released l c pr d ts x -> released (l ++ k) c' pr d ts x.
Proof.
  intros Hm (cr0 & Hpr & [(a & Hin & Hb & Hs & Hu & Hx & Hp)|(c0 & r & i & src & cr & pk & d0 & t & s & doc & f & m & Hb & Hin & H)]); exists cr0; (split; [done|]).
  - left. exists a. split; [by apply staged_mono|]. do 4 (split; [done|]). by eapply published_mono.
  - right. exists c0, r, i, src, cr, pk, d0, t, s, doc, f, m. split; [done|]. split; [apply elem_of_app; by left|done].
Qed.

(** A fact survives a move of the database that leaves its publication, when
    no newly applied operation concerns it. *)
Definition hurts (a : Attempt) (f : Fact) : Prop :=
  match f with FRow b ts _ _ => at_key a = receipt_key b ts | FRejected a' => a' = a | _ => False end.

Lemma holds_step w w' k f : (forall a, a ∈ staged (log w) -> AttemptOk a) -> holds w f ->
  evolves (db w) (db w') -> log w' = log w ++ k ->
  (forall key, about f = Some key -> meta_get (db w') key = meta_get (db w) key) ->
  (forall op, applied (cloud w) op = true -> applied (cloud w') op = true) ->
  (forall a, a ∈ staged (log w') -> applied (cloud w') (op_of a) = true -> applied (cloud w) (op_of a) = true \/ ~ hurts a f) ->
  (forall a, a ∈ staged k -> applied (cloud w') (op_of a) = false) ->
  holds w' f.
Proof.
  intros Ha H E El Hm Hap Hnew Hk. destruct f as [b ts|b ts t i|a|a|a|i src]; cbn [holds about] in *.
  - by rewrite Hm.
  - destruct H as ((d0 & Hd0 & Ev) & H1 & H2 & H3 & H4 & H5). split; [exists d0; split; [done|by eapply evolves_trans]|]. split; [by rewrite Hm|]. split; [by eapply clock_kept|]. split.
    { intros x Hx Hle. destruct (newer_events _ _ _ _ x E H2 Hx); [by apply H3|lia]. }
    split; [done|]. intros a Hin Hkey Hop. pose proof Hin as Hin'. rewrite El, staged_app in Hin'.
    destruct (Hnew a Hin Hop) as [Hold|Hne]; [|done].
    apply elem_of_app in Hin' as [Hin'|Hin']; [by apply H5|]. rewrite (Hk a Hin') in Hop. done.
  - destruct H as [Hin Hh]. split; [rewrite El; by apply staged_mono|]. unfold recorded in *. by rewrite Hm.
  - destruct H as [Hin Hp]. rewrite El. split; [by apply staged_mono|]. by eapply published_mono.
  - destruct H as [Hin Hp]. assert (a ∈ staged (log w')) as Hin' by (rewrite El; by apply staged_mono). split; [done|].
    destruct (applied (cloud w') (op_of a)) eqn:Eop; [|done]. destruct (Hnew a Hin' Eop) as [Hold|Hne]; [congruence|by destruct Hne].
  - destruct H as (c0 & r & Hin & Hr). exists c0, r. split; [rewrite El; apply elem_of_app; by left|done].
Qed.

(** ** Steps that send nothing *)

Definition quiet (l : list Event) (c : Cloud) (e : Event) : Prop :=
  match e with
  | ERead _ _ => True
  | EStaged _ | EWrite _ _ _ => False
  | EConfirmed pr ts d d' => forall x, x ∈ events_of d (charge_key ts) -> x ∉ events_of d' (charge_key ts) -> released l c pr d ts x
  end.

Lemma quiet_staged l c k : (forall e, e ∈ k -> quiet l c e) -> staged k = [].
Proof.
  intros H. induction k as [|e k IH]; [done|]. assert (quiet l c e) as He by (apply H; by left). destruct e; try done.
  all: apply IH; intros e' He'; apply H; by right.
Qed.

Lemma Good_quiet w w' k : Good w -> log w' = log w ++ k -> (forall e, e ∈ k -> quiet (log w') (cloud w') e) ->
  (forall op, applied (cloud w') op = applied (cloud w) op) ->
  (forall d, d ∈ kept w' -> d ∈ kept w \/ DbOk (log w) (cloud w) d) -> (forall m, m ∈ moves w' -> m ∈ moves w) -> Good w'.
Proof.
  intros [G1 G2 G3 G4 G5 G6 G7] El Hk Hap Hd Hm. pose proof (quiet_staged _ _ k Hk) as Ek.
  assert (staged (log w') = staged (log w)) as Es by (by rewrite El, staged_app, Ek, app_nil_r).
  split; rewrite ?Es; [done|..].
  - intros d Hin. apply (DbOk_log (log w)); [done|]. apply (DbOk_applied _ (cloud w)); [done|].
    destruct (Hd d Hin) as [Hin'|Hok]; [by apply G2|done].
  - intros op Hop. rewrite Hap in Hop. unfold operations. rewrite Es. by apply G3.
  - intros a1 a2. rewrite !Hap. apply G4.
  - intros c r c' op Hin. rewrite El in Hin. apply elem_of_app in Hin as [Hin|Hin]; [|by specialize (Hk _ Hin)].
    by apply (G5 c r).
  - intros pr ts d d' Hin x Hx Hn. rewrite El in Hin. apply elem_of_app in Hin as [Hin|Hin].
    + rewrite El. apply (released_mono (log w) k (cloud w)); [intros op; by rewrite Hap|]. by eapply G6.
    + by apply (Hk _ Hin).
  - intros m Hin. by apply G7, Hm.
Qed.

(** ** The logic *)

Definition paired (pb : option str) (w : World) : Prop :=
  match pb with
  | Some b => held w = true /\ exists cr, creds w = Some cr /\ binding cr = b
  | None => True
  end.

Definition ends {A} (pb : option str) (Q : A -> World -> Prop) (E : World -> Prop) (r : Out A * World) : Prop :=
  match r with
  | (Ret a, w) => Live w /\ paired pb w /\ Q a w
  | (Throw _, w) => Live w /\ paired pb w /\ E w
  | (Dead, w) => Good w
  end.

(** The log only grows. *)
Definition Mono {A} (m : M A) : Prop := forall w, log w `prefix_of` log (snd (m w)).

Lemma mono_ret {A} (a : A) : Mono (mret a).
Proof. by intros w. Qed.
Lemma mono_throw {A} e : Mono (mthrow e : M A).
Proof. by intros w. Qed.
Lemma mono_dead {A} : Mono (mdead : M A).
Proof. by intros w. Qed.
Lemma mono_bind {A B} (m : M A) (k : A -> M B) : Mono m -> (forall a, Mono (k a)) -> Mono (mbind m k).
Proof.
  intros Hm Hk w. specialize (Hm w). unfold mbind. destruct (m w) as [[a|e|] w1]; cbn [snd] in *; [|done..].
  etrans; [exact Hm|apply Hk].
Qed.
Lemma mono_try {A} (m : M A) : Mono m -> Mono (try m).
Proof. intros Hm w. specialize (Hm w). unfold try. by destruct (m w) as [[a|e|] w1]. Qed.
Lemma mono_ensure b e : Mono (ensure b e).
Proof. destruct b; by intros w. Qed.
Lemma mono_lift {A} (r : result PushError A) : Mono (lift r).
Proof. destruct r; by intros w. Qed.
Lemma mono_no_panic {A} (o : option A) : Mono (no_panic o).
Proof. destruct o; by intros w. Qed.
Lemma mono_tick : Mono tick.
Proof. intros w. unfold tick. by destruct (moves w). Qed.
Lemma mono_cancel : Mono check_archive_cancelled.
Proof. by intros w. Qed.
Lemma mono_fill : Mono fill.
Proof. by intros w. Qed.
Lemma mono_query {A} (q : Db -> A) : Mono (query q).
Proof. apply mono_bind; [apply mono_tick|]. by intros _ w. Qed.
Lemma mono_pairing {A} b (m : M A) : Mono m -> Mono (with_pairing b m).
Proof.
  intros Hm. apply mono_bind; [apply mono_tick|]. intros _ w. destruct (check_pairing _ _); [|done].
  specialize (Hm (set_held w true)). by destruct (m _).
Qed.

Lemma foldl_note k : forall w, foldl note w k =
  mkWorld (db w) (kept w) (creds w) (held w) (cloud w) (moves w) (net w) (tx_faults w) (fills w) (cancels w) (log w ++ k).
Proof.
  induction k as [|e k IH]; intros w; cbn [foldl]; [rewrite app_nil_r; by destruct w|]. rewrite IH. cbn.
  by rewrite <- app_assoc.
Qed.

Lemma mono_tx {A} durable f (entry : World -> A -> Db -> list Event) : Mono (transaction durable f entry).
Proof.
  apply mono_bind; [apply mono_tick|]. intros _ w. cbv zeta.
  destruct (head (tx_faults w)) as [[]|]; [|done|..]; (destruct (f (db w)) as [[a d]|e]; [|done]; rewrite foldl_note; by apply prefix_app_r).
Qed.
Lemma mono_post_state r : Mono (post_state r).
Proof.
  apply mono_bind; [apply mono_tick|]. intros _ w. cbv zeta. destruct (default _ _); [by apply prefix_app_r|done..].
Qed.
Lemma mono_post_write r : Mono (post_write r).
Proof.
  apply mono_bind; [apply mono_tick|]. intros _ w. cbv zeta.
  destruct (default _ _); [|done|]; destruct (serve_write _ _); by apply prefix_app_r.
Qed.

Create HintDb mono discriminated.
#[local] Hint Resolve mono_ret mono_throw mono_dead mono_ensure mono_lift mono_no_panic mono_cancel mono_fill mono_query
  mono_tx mono_post_state mono_post_write : mono.
Ltac mono := repeat first [progress intros | solve [auto with mono] | simple apply mono_pairing | simple apply mono_try | simple apply mono_bind
  | match goal with |- Mono (match ?x with _ => _ end) => destruct x end | progress cbv zeta].

Lemma mono_current b : Mono (current_pairing b).
Proof. unfold current_pairing. mono. Qed.
#[local] Hint Resolve mono_current : mono.
Lemma mono_read_states cr b ids : Mono (read_states cr b ids).
Proof. unfold read_states. mono. Qed.
Lemma mono_unwrap cr pk i wk : Mono (unwrap_key cr pk i wk).
Proof. unfold unwrap_key. mono. Qed.
#[local] Hint Resolve mono_read_states mono_unwrap : mono.
Lemma mono_decrypt cr pk i wk ct : Mono (decrypt cr pk i wk ct).
Proof. unfold decrypt. mono. Qed.
Lemma mono_confirm ts t i wk up v r : Mono (confirm ts t i wk up v r).
Proof. unfold confirm. mono. Qed.
Lemma mono_retire key raw : Mono (retire_attempt key raw).
Proof. unfold retire_attempt. mono. Qed.
Lemma mono_post cr b ps : Mono (post cr b ps).
Proof. unfold post. mono. Qed.
Lemma mono_the_item {A} (l : list A) : Mono (the_item l).
Proof. unfold the_item. mono. Qed.
Lemma mono_stage a t : Mono (stage a t).
Proof. unfold stage. mono. Qed.
#[local] Hint Resolve mono_decrypt mono_confirm mono_retire mono_post mono_the_item mono_stage : mono.
Lemma mono_recover cr pk b key raw : Mono (recover cr pk b key raw).
Proof. unfold recover. mono. Qed.
Lemma mono_prepare cr pk b ts t s up r : Mono (prepare cr pk b ts t s up r).
Proof. unfold prepare. mono. Qed.
#[local] Hint Resolve mono_recover mono_prepare : mono.
Lemma mono_prepare_all cr pk b rs chunk : forall ready failed, Mono (prepare_all cr pk b rs chunk ready failed).
Proof. induction chunk as [|[[[ts t] s] up] chunk IH]; cbn; mono. Qed.
Lemma mono_settle_all cr pk acks ready : forall failed, Mono (settle_all cr pk acks ready failed).
Proof. induction ready as [|a ready IH]; cbn; mono. Qed.
Lemma mono_recover_all cr pk b ready : forall failed, Mono (recover_all cr pk b ready failed).
Proof. induction ready as [|a ready IH]; cbn; mono. Qed.
#[local] Hint Resolve mono_prepare_all mono_settle_all mono_recover_all : mono.
Lemma mono_push_chunk cr pk b chunk failed : Mono (push_chunk cr pk b chunk failed).
Proof. unfold push_chunk. mono. Qed.
#[local] Hint Resolve mono_push_chunk : mono.
Lemma mono_push_chunks cr pk b cs : forall failed, Mono (push_chunks cr pk b cs failed).
Proof. induction cs as [|c cs IH]; cbn; mono. Qed.
Lemma mono_collect cr pk b rows : forall sn failed, Mono (collect cr pk b rows sn failed).
Proof. induction rows as [|[[k key] t] rows IH]; cbn; mono. Qed.
#[local] Hint Resolve mono_push_chunks mono_collect : mono.

(** From a live world where [P] holds, a normal end gives [Q] and an error
    [E], as long as operation identifiers do not repeat. *)
Definition hoare {A} (pb : option str) (P : World -> Prop) (m : M A) (Q : A -> World -> Prop) (E : World -> Prop) : Prop :=
  forall w, NoDup (operations (log (snd (m w)))) -> Live w -> paired pb w -> P w -> ends pb Q E (m w).

Lemma prefix_NoDup l k : l `prefix_of` k -> NoDup (operations k) -> NoDup (operations l).
Proof. intros [x ->]. apply NoDup_before. Qed.

Lemma h_conseq {A} pb P P' (m : M A) (Q Q' : A -> World -> Prop) (E E' : World -> Prop) :
  hoare pb P m Q E -> (forall w, Live w -> P' w -> P w) -> (forall a w, Live w -> Q a w -> Q' a w) -> (forall w, Live w -> E w -> E' w) ->
  hoare pb P' m Q' E'.
Proof.
  intros H HP HQ HE w Hn Hl Hpr Hw. specialize (H w Hn Hl Hpr (HP w Hl Hw)).
  unfold ends in *. destruct (m w) as [[a|e|] w']; naive_solver.
Qed.

Lemma h_ret {A} pb (a : A) (Q : A -> World -> Prop) E : hoare pb (Q a) (mret a) Q E.
Proof. by intros w. Qed.

Lemma h_throw {A} pb e (Q : A -> World -> Prop) E : hoare pb E (mthrow e) Q E.
Proof. by intros w. Qed.

Lemma h_raise {A} pb e (P E : World -> Prop) (Q : A -> World -> Prop) : (forall w, P w -> E w) -> hoare pb P (mthrow e) Q E.
Proof. intros H w _ Hl Hpr Hw. split; [done|]. split; [done|by apply H]. Qed.

Lemma h_give {A} pb (a : A) (P E : World -> Prop) (Q : A -> World -> Prop) : (forall w, P w -> Q a w) -> hoare pb P (mret a) Q E.
Proof. intros H w _ Hl Hpr Hw. split; [done|]. split; [done|by apply H]. Qed.

Lemma h_dead {A} pb P (Q : A -> World -> Prop) E : hoare pb P mdead Q E.
Proof. intros w _ Hl _ _. apply Hl. Qed.

Lemma h_bind {A B} pb P (m : M A) (k : A -> M B) Q (R : B -> World -> Prop) E :
  hoare pb P m Q E -> (forall a, hoare pb (Q a) (k a) R E) -> (forall a, Mono (k a)) -> hoare pb P (mbind m k) R E.
Proof.
  intros Hm Hk Hmo w. unfold mbind. specialize (Hm w). destruct (m w) as [[a|e|] w1]; cbn [snd] in *; [|done..].
  intros Hn Hl Hpr Hw. destruct (Hm (prefix_NoDup _ _ (Hmo a w1) Hn) Hl Hpr Hw) as (Hl1 & Hpr1 & HQ). by apply Hk.
Qed.

Lemma h_try {A} pb P (m : M A) (Q : A -> World -> Prop) E F :
  hoare pb P m Q E -> hoare pb P (try m) (fun r w => match r with Ok a => Q a w | Err _ => E w end) F.
Proof. intros Hm w. specialize (Hm w). unfold try. by destruct (m w) as [[a|e|] w1]. Qed.

Lemma h_pure {A} pb (C : Prop) P (m : M A) Q E : (C -> hoare pb P m Q E) -> hoare pb (fun w => C /\ P w) m Q E.
Proof. intros H w Hn Hl Hpr [HC Hw]. by apply (H HC). Qed.

Lemma h_exists {A X} pb (P : X -> World -> Prop) (m : M A) Q E : (forall x, hoare pb (P x) m Q E) -> hoare pb (fun w => exists x, P x w) m Q E.
Proof. intros H w Hn Hl Hpr [x Hw]. by apply (H x). Qed.

(** Pure steps: what they check is known from there on. *)
Lemma h_ensure {B} pb (P E : World -> Prop) b e (k : unit -> M B) Q :
  (forall w, P w -> E w) -> (b = true -> hoare pb P (k tt) Q E) -> hoare pb P (mbind (ensure b e) k) Q E.
Proof. intros HE Hk. destruct b; [by apply Hk|by apply h_raise]. Qed.

Lemma h_lift {A B} pb (P E : World -> Prop) (r : result PushError A) (k : A -> M B) Q :
  (forall w, P w -> E w) -> (forall a, r = Ok a -> hoare pb P (k a) Q E) -> hoare pb P (mbind (lift r) k) Q E.
Proof. intros HE Hk. destruct r as [a|e]; [by apply Hk|by apply h_raise]. Qed.

Lemma h_no_panic {A B} pb (P E : World -> Prop) (o : option A) (k : A -> M B) Q :
  (forall a, o = Some a -> hoare pb P (k a) Q E) -> hoare pb P (mbind (no_panic o) k) Q E.
Proof. intros Hk. destruct o as [a|]; [by apply Hk|apply h_dead]. Qed.

(** Steps that only use up answers. *)
Lemma Live_ext w w' : db w' = db w -> kept w' = kept w -> cloud w' = cloud w -> log w' = log w ->
  (forall m, m ∈ moves w' -> m ∈ moves w) -> Live w -> Live w'.
Proof.
  intros E1 E2 E3 E4 E5 [G H1 H2]. split; rewrite ?E1, ?E2; [|done|done].
  apply (Good_quiet w w' []); rewrite ?E4, ?E3, ?E2, ?app_nil_r; [done|done|by intros e He%elem_of_nil|done|by left|done].
Qed.

Lemma h_cancel pb fs : hoare pb (all fs) check_archive_cancelled (fun _ => all fs) (all fs).
Proof.
  intros w _ Hl Hpr Hw. unfold check_archive_cancelled.
  assert (Live (set_cancels w (tail (cancels w)))) by (by apply (Live_ext w)). by destruct (default false _).
Qed.

Lemma h_fill pb fs : hoare pb (all fs) fill (fun r w => (forall n, r = Some n -> length n = NONCE_LEN) /\ all fs w) (all fs).
Proof.
  intros w _ Hl Hpr Hw. split; [by apply (Live_ext w)|]. split; [exact Hpr|]. split; [|exact Hw].
  intros n Hn. apply fmap_Some in Hn as (x & _ & ->). apply length_resize.
Qed.

(** The others move. *)
Lemma h_tick pb fs : hoare pb (all fs) tick (fun _ => all fs) (all fs).
Proof.
  intros w. unfold tick. destruct (moves w) as [|m ms] eqn:Em; [done|]. cbn [snd].
  intros _ Hl Hpr Hw. pose proof (lv_good w Hl) as G.
  assert (honest m) as [Hmd Hmc] by (apply (gd_moves w G); rewrite Em; by left).
  pose proof (gd_dbs w G (db w) (lv_db w Hl)) as Ok0.
  assert (meanwhile (db w) (mv_db m (db w))) as Hmw by (apply Hmd; apply Ok0).
  assert (evolves (db w) (mv_db m (db w))) as Hev by (apply meanwhile_evolves; [apply Ok0..|done]).
  destruct Hmw as (_ & Hcan & Hrec).
  assert (DbOk (log w) (cloud w) (mv_db m (db w))) as Ok1 by (eapply DbOk_evolves; [apply G|done..]).
  assert (Good (moved m w)) as G1.
  { apply (Good_quiet w _ []); [done|by rewrite app_nil_r|by intros e He%elem_of_nil|intros op; apply Hmc| |].
    - cbn. intros d [Hd|Hd%list_elem_of_singleton]%elem_of_app; [by left|subst; by right].
    - cbn. rewrite Em. by right. }
  assert (Live (moved m w)) as L1.
  { split; [done|cbn; apply elem_of_app; right; by left|]. cbn [db kept moved]. intros b ts raw Hr d.
    rewrite Hrec in Hr. intros [Hd|Hd%list_elem_of_singleton]%elem_of_app; [by eapply lv_kept|subst d; by rewrite Hrec]. }
  assert (paired pb (moved m w)) as P1.
  { destruct pb as [b|]; [|done]. destruct Hpr as [Hh Hc]. split; [done|]. cbn. by rewrite Hh. }
  assert (all fs (moved m w)) as A1.
  { intros f Hf. apply (holds_step w _ []); [apply G|by apply Hw|done|by rewrite app_nil_r| | | |]; cbn.
    - intros key. destruct f; intros [= <-]; try apply Hrec. specialize (Hw _ Hf) as [Hin _].
      rewrite (ao_key _ (gd_attempts w G _ Hin)). apply Hrec.
    - intros op. by rewrite Hmc.
    - intros a _. rewrite Hmc. by left.
    - by intros a Ha%elem_of_nil. }
  by destruct (mv_dies m).
Qed.

Lemma h_query {A} pb fs (q : Db -> A) : hoare pb (all fs) (query q) (fun r w => all fs w /\ r = q (db w)) (all fs).
Proof.
  unfold query. eapply h_bind; [apply h_tick| |by intros _ w]. intros _ w _ Hl Hpr Hw.
  assert (Live (set_tx w (tail (tx_faults w)))) by (by apply (Live_ext w)).
  destruct (head (tx_faults w)) as [[]|]; done.
Qed.

(** The pairing lock. *)
Lemma h_pairing {A} b fs (m : M A) (Q : A -> World -> Prop) (E : World -> Prop) :
  (forall a w h, Q a w -> Q a (set_held w h)) -> (forall w h, E w -> E (set_held w h)) -> (forall w, all fs w -> E w) ->
  Mono m -> hoare (Some b) (all fs) m Q E -> hoare None (all fs) (with_pairing b m) Q E.
Proof.
  intros HQ HE HfsE Hmo Hm. unfold with_pairing. eapply h_bind; [eapply h_conseq; [apply (h_tick None fs)|done|by intros|by intros; apply HfsE]| |].
  2: { intros _ w. destruct (check_pairing _ _); [|done]. specialize (Hmo (set_held w true)). by destruct (m _). }
  intros _ w. destruct (check_pairing (creds w) b) as [[]|e] eqn:Ec.
  2: { intros _ Hl Hpr Hw. split; [exact Hl|]. split; [done|by apply HfsE]. }
  pose proof (Hm (set_held w true)) as H. destruct (m (set_held w true)) as [o w1] eqn:Em. cbn [snd] in *.
  intros Hn Hl _ Hw.
  assert (Live (set_held w true)) as Lh by (by apply (Live_ext w)).
  assert (paired (Some b) (set_held w true)) as Hpr.
  { split; [done|]. cbn. unfold check_pairing in Ec. destruct (creds w) as [cr|]; [|done]. cbn in Ec. exists cr.
    case_bool_decide; done. }
  specialize (H Hn Lh Hpr Hw). clear Ec Em Hn Lh Hpr.
  destruct o as [a|e|]; cbn in H |- *.
  - destruct H as (Hl1 & _ & HQ1). split; [by apply (Live_ext w1)|]. split; [done|]. by apply HQ.
  - destruct H as (Hl1 & _ & HE1). split; [by apply (Live_ext w1)|]. split; [done|]. by apply HE.
  - apply (Good_quiet w1 _ []); cbn; [done|by rewrite app_nil_r|by intros x Hx%elem_of_nil|done|by left|done].
Qed.

Lemma h_current b fs : hoare None (all fs) (current_pairing b) (fun _ => all fs) (all fs).
Proof. apply h_pairing; [done|done|done|apply mono_ret|]. apply (h_ret (Some b) tt (fun _ => all fs)). Qed.

(** ** Transactions *)

Definition commit (w : World) (d : Db) (k : list Event) : World :=
  mkWorld d (kept w ++ [d]) (creds w) (held w) (cloud w) (moves w) (net w) (tail (tx_faults w)) (fills w) (cancels w) (log w ++ k).

Lemma h_tx {A} pb fs (durable : bool) f (entry : World -> A -> Db -> list Event) (qs : A -> list Fact) es :
  (forall w, all fs w -> all es w) ->
  (forall w a d, Live w -> paired pb w -> all fs w -> f (db w) = Ok (a, d) -> NoDup (operations (log w ++ entry w a d)) ->
     Good (commit w d (entry w a d)) /\ all (qs a) (commit w d (entry w a d)) /\
     if durable then all es (commit w d (entry w a d))
     else forall b ts raw, meta_get d (receipt_key b ts) = Some raw -> forall d0, d0 ∈ kept w -> meta_get d0 (receipt_key b ts) = Some raw) ->
  hoare pb (all fs) (transaction durable f entry) (fun a => all (qs a)) (all es).
Proof.
  intros Hes Hf. unfold transaction. eapply h_bind; [eapply h_conseq; [apply h_tick|done|by intros|by auto]| |].
  2: { intros _ w. cbv zeta. destruct (head (tx_faults w)) as [[]|]; [|done|..];
       (destruct (f (db w)) as [[a d]|e]; [|done]; rewrite foldl_note; by apply prefix_app_r). }
  intros _ w. cbv zeta beta.
  assert (hoare pb (all fs) (fun w => (Throw PSqlite, set_tx w (tail (tx_faults w)))) (fun a => all (qs a)) (all es)) as Hrb.
  { intros w1 _ Hl Hpr Hw. split; [by apply (Live_ext w1)|]. split; [exact Hpr|exact (Hes _ Hw)]. }
  destruct (f (db w)) as [[a d]|e] eqn:Ef.
  2: { destruct (head (tx_faults w)) as [[]|]; try apply Hrb; (intros _ Hl Hpr Hw;
       split; [by apply (Live_ext w)|]; split; [exact Hpr|exact (Hes _ Hw)]). }
  rewrite !foldl_note. cbn [db kept creds held cloud moves net tx_faults fills cancels log set_db set_tx].
  specialize (Hf w a d). set (k := entry w a d) in *.
  set (w1 := mkWorld d (if durable then [d] else kept w ++ [d]) _ _ _ _ _ _ _ _ _).
  assert (NoDup (operations (log w ++ k)) -> Live w -> paired pb w -> all fs w ->
     Good (commit w d k) /\ Live w1 /\ paired pb w1 /\ all (qs a) w1 /\ (durable = true -> all es w1)) as Hc.
  { intros Hn Hl Hpr Hw. destruct (Hf Hl Hpr Hw Ef Hn) as (G & Hq & He). split; [done|]. split; [|split; [exact Hpr|split]].
    - split.
      + apply (Good_quiet (commit w d k) _ []); cbn; [done|by rewrite app_nil_r|by intros x Hx%elem_of_nil|done| |done].
        intros d0 Hd. left. destruct durable; [|done]. apply list_elem_of_singleton in Hd as ->. apply elem_of_app. right. by left.
      + cbn. destruct durable; [by left|]. apply elem_of_app. right. by left.
      + cbn. intros b ts raw Hr d0 Hd. destruct durable; [by apply list_elem_of_singleton in Hd as ->|].
        apply elem_of_app in Hd as [Hd|Hd%list_elem_of_singleton]; [by eapply He|by subst].
    - exact Hq.
    - intros ->. exact He. }
  destruct (head (tx_faults w)) as [[]|]; try apply Hrb; intros Hn Hl Hpr Hw;
    cbn [snd log set_db] in Hn; destruct (Hc Hn Hl Hpr Hw) as (G & L & P & Q & E); try done.
  destruct durable; [|done]. split; [done|]. split; [done|by apply E].
Qed.

(** The queue moves on, the publications stay. *)
Lemma commit_move w d k fs : Live w -> all fs w -> evolves (db w) d -> i64_keys d -> same_receipts (db w) d ->
  (forall e, e ∈ k -> quiet (log w ++ k) (cloud w) e) ->
  Good (commit w d k) /\ all fs (commit w d k) /\
  forall b ts raw, meta_get d (receipt_key b ts) = Some raw -> forall d0, d0 ∈ kept w -> meta_get d0 (receipt_key b ts) = Some raw.
Proof.
  intros Hl Hw Hev Hcan Hrec Hk. pose proof (lv_good w Hl) as G. pose proof (gd_dbs w G (db w) (lv_db w Hl)) as Ok0. split; [|split].
  - apply (Good_quiet w _ k); [done|done|done|done| |done]. cbn. intros d0 [Hd|Hd%list_elem_of_singleton]%elem_of_app; [by left|right].
    subst d0. eapply DbOk_evolves; [apply G|done..].
  - intros f Hf. apply (holds_step w _ k); [apply G|by apply Hw|done|done| |done|by left|].
    + intros key. destruct f; intros [= <-]; try apply Hrec. specialize (Hw _ Hf) as [Hin _].
      cbn. rewrite (ao_key _ (gd_attempts w G _ Hin)). apply Hrec.
    + rewrite (quiet_staged _ _ k Hk). by intros a Ha%elem_of_nil.
  - intros b ts raw Hr. rewrite Hrec in Hr. by apply (lv_kept w Hl).
Qed.

(** The publication of an attempt is retired. *)
Lemma commit_drop w d k fs a : Live w -> NoDup (operations (log w)) -> all fs w -> apart (at_key a) fs ->
  a ∈ staged (log w) -> recorded (db w) a -> evolves (db w) d -> i64_keys d ->
  (forall key, key <> CLOCK -> meta_get d key = if bool_decide (key = at_key a) then None else meta_get (db w) key) ->
  (applied (cloud w) (op_of a) = true -> forall x, x ∈ events_of d (session a) -> through_of a < x.1) ->
  (forall e, e ∈ k -> quiet (log w ++ k) (cloud w) e) ->
  Good (commit w d k) /\ all fs (commit w d k) /\
  forall b ts raw, meta_get d (receipt_key b ts) = Some raw -> forall d0, d0 ∈ kept w -> meta_get d0 (receipt_key b ts) = Some raw.
Proof.
  intros Hl Hn Hw Hap Hin Hhas Hev Hcan Hme Hset Hk. pose proof (lv_good w Hl) as G.
  pose proof (gd_dbs w G (db w) (lv_db w Hl)) as Ok0.
  assert (forall b ts, meta_get d (receipt_key b ts) = if bool_decide (receipt_key b ts = at_key a) then None else meta_get (db w) (receipt_key b ts)) as Hr
    by (intros; apply Hme, receipt_not_clock).
  assert (forall a', a' ∈ staged (log w) -> recorded d a' <-> recorded (db w) a' /\ at_key a' <> at_key a) as Hh.
  { intros a' Ha'. unfold recorded. rewrite (ao_key a' (gd_attempts w G a' Ha')), Hr. case_bool_decide; naive_solver. }
  destruct Ok0 as [H1 H2 H3 H4 H5 H6 H7]. split; [|split].
  - apply (Good_quiet w _ k); [done|done|done|done| |done]. cbn. intros d0 [Hd|Hd%list_elem_of_singleton]%elem_of_app; [by left|right].
    subst d0. split; [apply Hev|apply Hev|done|..].
    + intros b ts raw. rewrite Hr. case_bool_decide; [done|apply H4].
    + intros a' Ha' Hor. rewrite Hh in Hor by done. destruct (H5 a' Ha') as [Hk' Hx]; [naive_solver|].
      split; [by eapply clock_kept|]. intros x Hx' Hle. destruct (newer_events _ _ _ _ x Hev Hk' Hx'); [by apply Hx|lia].
    + intros a' Ha' Hop. rewrite Hh by done. destruct (H6 a' Ha' Hop) as [Hha|Hx].
      * destruct (decide (at_key a' = at_key a)) as [Ek|]; [right|by left].
        assert (a' = a) as -> by (by apply (one_receipt w (db w))). by apply Hset.
      * right. intros x Hx'. destruct (newer_events _ _ _ _ x Hev (proj1 (H5 a' Ha' (or_intror Hop))) Hx'); [by apply Hx|done].
    + intros a' a2 Ha' Ha2. rewrite Hh by done. intros [? _]. by apply H7.
  - intros f Hf. apply (holds_step w _ k); [apply G|by apply Hw|done|done| |done|by left|].
    + intros key Hab. assert (key <> at_key a) as Hne by (intros ->; by apply (Hap f Hf)). cbn. rewrite Hme, bool_decide_false; [done|done|].
      destruct f; cbn in Hab; try done; injection Hab as <-; try apply receipt_not_clock. specialize (Hw _ Hf) as [Ha0 _].
      rewrite (ao_key _ (gd_attempts w G _ Ha0)). apply receipt_not_clock.
    + rewrite (quiet_staged _ _ k Hk). by intros a' Ha'%elem_of_nil.
  - intros b ts raw. rewrite Hr. case_bool_decide; [done|]. apply (lv_kept w Hl).
Qed.

Lemma canonical_shrinks d d' : shrinks d d' -> i64_keys d -> i64_keys d'.
Proof. intros [_ H _] Hc key g Hg. by eapply Hc, H. Qed.

(** *** Confirming *)

Lemma adopts_meta d d1 ts t tags cost : adopts d d1 ts t tags cost -> meta d1 = meta d.
Proof.
  unfold adopts. destruct (unknown_newer _ _ _); [by intros ->|]. intros (tg & pc & _ & H). cbv zeta in H. by destruct pc; subst d1.
Qed.

Lemma confirm_events d ts t i key up tags cost r d' : Inv d ->
  confirm_charge_mutable_push_with_receipt d ts t i key up tags cost r = Ok (true, d') ->
  forall x, x ∈ events_of d' (charge_key ts) <-> x ∈ events_of d (charge_key ts) /\ t < x.1.
Proof.
  intros Hi H x. apply confirm_Ok in H as (d1 & Ha & Hd). cbv zeta in Hd. apply adopts_queue in Ha as (H1 & _ & He).
  destruct (retire_drop_acknowledged d1 CHARGE (print_i64 ts) t (H1 Hi)) as (Hev & _).
  assert (events_of d' (charge_key ts) = List.filter (fun e : Z * Edit => negb (e.1 <=? t)) (events_of d (charge_key ts))) as ->.
  { unfold charge_key in *. rewrite <- He, <- Hev. subst d'. by destruct r as [[rk ?]|]. }
  apply elem_of_filter_newer.
Qed.

Lemma confirm_source d ts t i key up tags cost r d' :
  confirm_charge_mutable_push_with_receipt d ts t i key up tags cost r = Ok (true, d') -> uploaded_as d ts i key.
Proof.
  unfold confirm_charge_mutable_push_with_receipt. intros H. destruct (match r with Some _ => _ | None => _ end); [done|]. cbv zeta in H.
  unfold source_matches in H. case_bool_decide as E; [|done]. by exists up.
Qed.

Lemma confirm_meta d ts t i key up tags cost r d' :
  confirm_charge_mutable_push_with_receipt d ts t i key up tags cost r = Ok (true, d') ->
  match r with
  | Some (rk, raw) => meta_get d rk = Some raw /\
      forall k, meta_get d' k = if bool_decide (k = rk) then None else meta_get d k
  | None => meta d' = meta d
  end.
Proof.
  intros H. pose proof H as H0. apply confirm_Ok in H as (d1 & Ha & Hd). cbv zeta in Hd. apply adopts_meta in Ha.
  set (d3 := drop_dirty_at _ _ _) in Hd.
  assert (meta d3 = meta d) as E3 by (unfold d3, drop_dirty_at; case_bool_decide; exact Ha).
  destruct r as [[rk raw]|]; [|by subst d']. split.
  - unfold confirm_charge_mutable_push_with_receipt in H0. case_bool_decide; done.
  - intros k. subst d'. unfold meta_get, meta_del. cbn [meta with_meta]. rewrite E3. case_bool_decide as Hk.
    + by rewrite Hk, lookup_delete_eq.
    + by rewrite lookup_delete_ne.
Qed.

Lemma confirm_moves d ts t i key up tags cost r ok d' : receipt_ok r -> Inv d -> clocked d -> i64_keys d ->
  confirm_charge_mutable_push_with_receipt d ts t i key up tags cost r = Ok (ok, d') -> evolves d d' /\ i64_keys d'.
Proof.
  intros Hr Hi Hc Hn H. pose proof (confirm_shrinks d ts t i key up tags cost r ok d' Hr H) as Hs. split.
  - apply shrinks_evolves; [by eapply Inv_confirm|done|done].
  - by eapply canonical_shrinks.
Qed.

Lemma in_db_Ok {A} (r : result DbError A) a : in_db r = Ok a -> r = Ok a.
Proof. destruct r; [by intros [= ->]|done]. Qed.

(** A confirmation that returns leaves what the frame knows. *)
Lemma h_confirm pb fs ts t i wk up v r (Hr : receipt_ok r) :
  (forall w d f, Live w -> paired pb w -> all fs w -> NoDup (operations (log w)) -> fields v = Ok f ->
     confirm_charge_mutable_push_with_receipt (db w) ts t i wk up (cm_tags f) (cm_cost f) r = Ok (true, d) ->
     let k := [EConfirmed (creds w) ts (db w) d] in
     Good (commit w d k) /\ all fs (commit w d k) /\
     forall b ts raw, meta_get d (receipt_key b ts) = Some raw -> forall d0, d0 ∈ kept w -> meta_get d0 (receipt_key b ts) = Some raw) ->
  hoare pb (all fs) (confirm ts t i wk up v r) (fun _ => all fs) (all fs).
Proof.
  intros Hok. unfold confirm. apply h_lift; [done|]. intros f Ef.
  apply (h_bind _ _ _ _ (fun _ => all fs)); [|intros ok; destruct ok; [by apply (h_ret pb tt (fun _ => all fs))|apply h_throw]|mono].
  apply (h_tx pb fs false _ _ (fun _ => fs) fs); [done|].
  intros w ok d Hl Hpr Hw Hf Hn. apply in_db_Ok in Hf. pose proof (lv_good w Hl) as G.
  pose proof (gd_dbs w G (db w) (lv_db w Hl)) as Ok0. destruct ok.
  - eapply Hok; [done|done|done| |done|done]. by apply NoDup_before in Hn.
  - pose proof (confirm_false _ _ _ _ _ _ _ _ _ _ Hf) as ->. apply commit_move; [done|done| |apply Ok0|done|].
    + apply evolves_refl; apply Ok0.
    + by intros e He%elem_of_nil.
Qed.

(** The confirmation of an attempt the cloud took. *)
Lemma h_confirm_receipt fs a v : AttemptOk a -> apart (at_key a) fs -> FPublished a ∈ fs ->
  hoare (Some (pn_binding (at_pending a))) (all fs)
    (confirm (session_ts (at_pending a)) (changed_at_ms (proposed a)) (id (proposed a)) (wrapped_key (proposed a))
       (pn_uploaded_at (at_pending a)) v (Some (at_key a, at_raw a)))
    (fun _ => all fs) (all fs).
Proof.
  intros Ha Hap Hpub. apply h_confirm; [unfold receipt_ok; rewrite (ao_key a Ha); apply receipt_not_clock|].
  intros w d f Hl (_ & cr & Hcr & Hb) Hw Hn _ H k. pose proof (lv_good w Hl) as G. pose proof (gd_dbs w G (db w) (lv_db w Hl)) as Ok0.
  destruct (Hw _ Hpub) as [Hin Hp]. destruct (confirm_meta _ _ _ _ _ _ _ _ _ _ H) as [Hhas Hme].
  assert (receipt_ok (Some (at_key a, at_raw a))) as Hro by (unfold receipt_ok; rewrite (ao_key a Ha); apply receipt_not_clock).
  destruct (confirm_moves _ _ _ _ _ _ _ _ _ _ _ Hro (ok_inv _ _ _ Ok0) (ok_clocked _ _ _ Ok0) (ok_canonical _ _ _ Ok0) H) as [Hev Hcan].
  pose proof (confirm_events _ _ _ _ _ _ _ _ _ _ (ok_inv _ _ _ Ok0) H) as Hx. fold (session a) in Hx.
  apply (commit_drop w d k fs a); try done.
  - intros _ x Hin'. by apply Hx in Hin' as [_ ?].
  - intros e He. apply list_elem_of_singleton in He. subst e. intros x Hx1 Hx2. exists cr. split; [done|]. left. exists a. split; [by apply staged_mono|].
    split; [done|]. split; [done|]. split; [by eapply confirm_source|]. split; [|by apply published_mono with (c := cloud w)].
    apply (ok_clock _ _ _ Ok0 a Hin (or_introl Hhas)); [done|]. destruct (Z.le_gt_cases x.1 (through_of a)); [done|].
    exfalso. apply Hx2, Hx. done.
Qed.

(** The confirmation of edits the cloud already holds. *)
Lemma h_confirm_seen fs b ts t i up v cr pk src s doc f m :
  FRow b ts t s ∈ fs -> FSeen i src ∈ fs ->
  opens cr pk i (src_key src) (src_ciphertext src) doc -> fields doc = Ok f -> merged_of s doc f = Ok m -> veq m doc = true ->
  hoare (Some (binding cr)) (all fs) (confirm ts t i (src_key src) up v None) (fun _ => all fs) (all fs).
Proof.
  intros Hrow Hseen Ho Hf Hm Hv. apply h_confirm; [done|]. intros w d f' Hl (_ & cr0 & Hcr0 & Hb) Hw Hn _ H k.
  pose proof (lv_good w Hl) as G. pose proof (gd_dbs w G (db w) (lv_db w Hl)) as Ok0.
  destruct (confirm_moves _ _ _ _ _ _ _ _ None _ _ I (ok_inv _ _ _ Ok0) (ok_clocked _ _ _ Ok0) (ok_canonical _ _ _ Ok0) H) as [Hev Hcan].
  pose proof (confirm_events _ _ _ _ _ _ _ _ _ _ (ok_inv _ _ _ Ok0) H) as Hx.
  pose proof (confirm_meta _ _ _ _ _ _ _ _ None _ H) as Hme. cbn in Hme.
  apply commit_move; try done; [intros b' ts'; unfold meta_get; by rewrite Hme|].
  intros e He. apply list_elem_of_singleton in He. subst e. intros x Hx1 Hx2. exists cr0. split; [done|]. right.
  destruct (Hw _ Hrow) as ((d0 & Hd0 & Ev) & _ & _ & Hsub & _). destruct (Hw _ Hseen) as (c0 & r & Hin & Hrec).
  exists c0, r, i, src, cr, pk, d0, t, s, doc, f, m. split; [done|]. split; [apply elem_of_app; by left|]. split; [done|].
  split; [by eapply confirm_source|]. do 4 (split; [done|]). split; [|done]. apply Hsub; [done|]. destruct (Z.le_gt_cases x.1 t); [done|]. exfalso. apply Hx2, Hx. done.
Qed.

(** *** Retiring a rejected attempt, and filling in a key *)

Lemma h_retire pb fs a : AttemptOk a -> apart (at_key a) fs -> FRejected a ∈ fs ->
  hoare pb (all fs) (retire_attempt (at_key a) (at_raw a)) (fun _ => all fs) (all fs).
Proof.
  intros Ha Hap Hrej. apply (h_tx pb fs false _ _ (fun _ => fs) fs); [done|]. intros w [] d Hl _ Hw Hf Hn.
  case_bool_decide as Hhas; [|done]. injection Hf as <-. pose proof (lv_good w Hl) as G.
  pose proof (gd_dbs w G (db w) (lv_db w Hl)) as Ok0. destruct (Hw _ Hrej) as [Hin Hap0].
  assert (at_key a <> CLOCK) as Hne by (rewrite (ao_key a Ha); apply receipt_not_clock).
  apply (commit_drop w _ _ fs a); try done.
  - unfold nothing in Hn. by rewrite app_nil_r in Hn.
  - apply shrinks_evolves; [apply Inv_meta_del; [done|apply Ok0]|apply Ok0|by apply shrinks_meta].
  - eapply canonical_shrinks; [by apply shrinks_meta|apply Ok0].
  - intros key _. unfold meta_get, meta_del. cbn. case_bool_decide as Hk; [by rewrite Hk, lookup_delete_eq|by rewrite lookup_delete_ne].
  - rewrite Hap0. done.
  - by intros e He%elem_of_nil.
Qed.

Lemma backfill_meta d ts i up key ok d' : backfill_charge_upload_key d ts i up key = Ok (ok, d') -> meta d' = meta d.
Proof.
  unfold backfill_charge_upload_key. intros H. destruct (is_empty key); [done|].
  destruct (charge_uploads d !! ts) as [[[i' k] a]|]; [|by injection H as _ <-].
  destruct (_ && _); [|by injection H as _ <-]. injection H as _ <-. by destruct (is_empty k).
Qed.

Lemma h_backfill pb fs ts i up key :
  hoare pb (all fs) (transaction false (fun d => in_db (backfill_charge_upload_key d ts i up key)) nothing) (fun _ => all fs) (all fs).
Proof.
  apply (h_tx pb fs false _ _ (fun _ => fs) fs); [done|]. intros w ok d Hl _ Hw Hf%in_db_Ok Hn.
  pose proof (lv_good w Hl) as G. pose proof (gd_dbs w G (db w) (lv_db w Hl)) as Ok0.
  pose proof (backfill_shrinks _ _ _ _ _ _ _ Hf) as Hs. apply commit_move; try done.
  - apply shrinks_evolves; [|apply Ok0|done].
    apply (Inv_step (fun _ => None) (fun x => x) (db w)); [by eapply st_backfill|apply Ok0].
  - eapply canonical_shrinks; [done|apply Ok0].
  - intros b ts'. unfold meta_get. by rewrite (backfill_meta _ _ _ _ _ _ _ Hf).
  - by intros e He%elem_of_nil.
Qed.

End spec.

#[export] Hint Resolve mono_ret mono_throw mono_dead mono_ensure mono_lift mono_no_panic mono_cancel mono_fill mono_query
  mono_tx mono_post_state mono_post_write mono_current mono_read_states mono_unwrap mono_decrypt mono_confirm mono_retire
  mono_post mono_the_item mono_stage mono_recover mono_prepare mono_prepare_all mono_settle_all mono_recover_all
  mono_push_chunk mono_push_chunks mono_collect : mono.

(** Close a goal that the log only grows. *)
Ltac mono := repeat first [progress intros | solve [auto with mono] | simple apply mono_pairing | simple apply mono_try | simple apply mono_bind
  | match goal with |- Mono (match ?x with _ => _ end) => destruct x end | progress cbv zeta].
