(* ===== verification/ChargePushSpec.v ===== *)
(** * What publishing guarantees

    Over every sequence of sweeps, restarts after a power cut, concurrent edits
    and writes of other devices: an edit reaches the cloud once, every write of
    the device is the merge of its edits into the very document it replaces, and
    an edit leaves the queue only when the cloud holds it. *)

From Stdlib Require Import ZArith Lia.
From stdpp Require Import base gmap list relations.
From S2P Require Import Prelude Effects Float Str Json MutableQueue MutableQueueSpec CloudMerge CloudCrypto CloudCryptoSpec QueueClock ChargePush ChargePushLogic.

Import Json CloudCrypto MutableQueue ChargePush.
Open Scope Z_scope.

Section spec.
Context `{Ae : !Aead, AeL : !AeadLaws, Ba : !Base64, BaL : !Base64Laws, Hsh : !Hashes, Sv : !Service, Wi : !Wire, Pr : !Protocol, WiL : !WireLaws}.

Notation str := (list Z) (only parsing).
Notation Creds := CloudCrypto.CloudCredentialsV1.
Notation Snap := ChargeMutableSyncSnapshot.

(** ** Staging *)

Lemma DbOk_staged l c d a : (forall a', a' ∈ staged l -> AttemptOk a') -> AttemptOk a -> op_of a ∉ operations l ->
  applied c (op_of a) = false -> DbOk l c d -> ~ recorded d a /\ DbOk (l ++ [EStaged a]) c d.
Proof.
  intros Hl Ha Hfresh Hap [H1 H2 H3 H4 H5 H6 H7].
  assert (~ recorded d a) as Hno.
  { unfold recorded. rewrite (ao_key a Ha). intros Hr. apply H4 in Hr as (a0 & Hin & _ & Hraw). apply Hfresh, elem_of_operations.
    exists a0. split; [done|]. by apply raw_op; [apply Hl| |]. }
  assert (forall a', a' ∈ staged (l ++ [EStaged a]) -> a' ∈ staged l \/ a' = a) as Hsplit.
  { intros a' Hin. rewrite staged_app in Hin. by apply elem_of_app in Hin as [?|Hin%list_elem_of_singleton]; [left|right]. }
  split; [done|]. split; [done..| | | |].
  - intros b ts raw (a' & Hin & ?)%H4. exists a'. split; [by apply staged_mono|done].
  - intros a' [Hin| ->]%Hsplit Hor; [by apply H5|]. naive_solver congruence.
  - intros a' [Hin| ->]%Hsplit Hop; [by apply H6|congruence].
  - intros a' a2 [Hin| ->]%Hsplit [Hin2| ->]%Hsplit Hh; [by apply H7|congruence..|done].
Qed.

(** The new publication enters the database. *)
Lemma DbOk_publish l c d a t : (forall a', a' ∈ staged l -> AttemptOk a') -> a ∈ staged l -> applied c (op_of a) = false ->
  DbOk l c d -> meta_get d (at_key a) = None -> (exists k, clock d = Some k /\ t <= k) -> t = through_of a ->
  (forall x, x ∈ events_of d (session a) -> x.1 <= t -> x ∈ edits (at_intent a)) ->
  (forall a2, a2 ∈ staged l -> at_key a2 = at_key a -> applied c (op_of a2) = true -> forall x, x ∈ edits (at_intent a) -> through_of a2 < x.1) ->
  (forall a', a' ∈ staged l -> at_key a' = at_key a -> at_raw a' = at_raw a -> a' = a) ->
  DbOk l c (meta_set d (at_key a) (at_raw a)).
Proof.
  intros Hl Hin Hap [H1 H2 H3 H4 H5 H6 H7] Hnone Hk -> Hev Hnew Huniq.
  assert (at_key a <> CLOCK) as Hck by (rewrite (ao_key a (Hl a Hin)); apply receipt_not_clock).
  pose proof (shrinks_meta_set d _ (at_raw a) Hck) as Hs.
  assert (evolves d (meta_set d (at_key a) (at_raw a))) as E by (apply shrinks_evolves; [by apply Inv_meta_set|done|done]).
  assert (forall key, meta_get (meta_set d (at_key a) (at_raw a)) key = if bool_decide (key = at_key a) then Some (at_raw a) else meta_get d key) as Hme.
  { intros key. unfold meta_get, meta_set. cbn. case_bool_decide as Hkey; [by rewrite Hkey, lookup_insert_eq|by rewrite lookup_insert_ne]. }
  assert (forall a', a' ∈ staged l -> recorded (meta_set d (at_key a) (at_raw a)) a' -> a' = a \/ (recorded d a' /\ at_key a' <> at_key a)) as Hh.
  { intros a' Hin' Hh. unfold recorded in *. rewrite Hme in Hh. case_bool_decide as Hkey; [left; apply Huniq; [done|done|congruence]|by right]. }
  assert (forall a', a' ∈ staged l -> recorded d a' -> recorded (meta_set d (at_key a) (at_raw a)) a') as Hh'.
  { intros a' Hin' Hh''. unfold recorded in *. rewrite Hme. case_bool_decide as Hkey; [rewrite Hkey, Hnone in Hh''; done|done]. }
  assert (clock (meta_set d (at_key a) (at_raw a)) = clock d) as Ec by (unfold clock; by rewrite Hme, bool_decide_false).
  split; [apply E|apply E|by eapply canonical_shrinks|..].
  - intros b ts raw. rewrite Hme. case_bool_decide as Hkey; [|apply H4]. intros [= <-]. by exists a.
  - intros a' Hin' Hor. rewrite Ec. change (events_of (meta_set d (at_key a) (at_raw a)) (session a')) with (events_of d (session a')).
    destruct Hor as [Hha|Hop]; [destruct (Hh a' Hin' Hha) as [->|[Hha' _]]|]; [done|by apply H5; [|left]|by apply H5; [|right]].
  - intros a' Hin' Hop. destruct (H6 a' Hin' Hop) as [Hha|Hx]; [left; by apply Hh'|by right].
  - intros a' a2 Hin' Hin2 Hha Hne Hkey Hop. destruct (Hh a' Hin' Hha) as [->|[Hha' _]]; [by apply Hnew|by eapply (H7 a' a2)].
Qed.

Lemma h_stage pb fs a t b ts s : AttemptOk a -> at_key a = receipt_key b ts -> t = through_of a -> at_intent a = sn_intent s -> apart (at_key a) fs ->
  hoare pb (all (FRow b ts t s :: fs)) (stage a t) (fun _ => all (FReceipt a :: fs)) (all fs).
Proof.
  intros Ha Hkey Ht Hs Hap. apply (h_tx pb _ true _ _ (fun _ => FReceipt a :: fs) fs).
  { intros w Hw f Hf. apply Hw. by right. }
  intros w [] d Hl _ Hw Hf Hn. case_bool_decide as Hnone; [|done]. cbn [negb] in Hf. destruct (negb _); [done|]. injection Hf as <-.
  pose proof (lv_good w Hl) as G. destruct (Hw (FRow b ts t s)) as (_ & _ & Hk & Hev & Hb & Hnew); [by left|]. rewrite <- Hs in *.
  rewrite operations_app in Hn. apply NoDup_app in Hn as (Hn0 & Hfresh & _).
  assert (op_of a ∉ operations (log w)) as Hf0 by (intros Hin; apply (Hfresh _ Hin); by left).
  assert (applied (cloud w) (op_of a) = false) as Hap0.
  { destruct (applied (cloud w) (op_of a)) eqn:E; [|done]. by apply (gd_applied w G) in E. }
  set (d := meta_set (db w) (at_key a) (at_raw a)). set (w' := commit w d _).
  assert (staged (log w') = staged (log w) ++ [a]) as Es by apply staged_app.
  assert (forall a', a' ∈ staged (log w') -> AttemptOk a') as Hall.
  { rewrite Es. intros a' [Hin|Hin%list_elem_of_singleton]%elem_of_app; [by apply (gd_attempts w G)|by subst]. }
  assert (forall d0, d0 ∈ kept w -> DbOk (log w') (cloud w) d0) as Hold.
  { intros d0 Hd. apply DbOk_staged; [apply G|done..|]. by apply (gd_dbs w G). }
  assert (a ∈ staged (log w')) as Hina by (rewrite Es; apply elem_of_app; right; by left).
  assert (forall a', a' ∈ staged (log w') -> applied (cloud w) (op_of a') = true -> a' ∈ staged (log w)) as Hapold.
  { rewrite Es. intros a' [Hin|Hin%list_elem_of_singleton]%elem_of_app Hop; [done|subst; congruence]. }
  assert (DbOk (log w') (cloud w) d) as Hnewd.
  { eapply (DbOk_publish _ _ _ _ t); [done|done|done|apply Hold, (lv_db w Hl)|done|done|done|..].
    - rewrite (key_session a b ts Ha Hkey). done.
    - intros a2 Hin2 Hk2 Hop. rewrite Hkey in Hk2. apply (Hnew a2); [by apply Hapold|done|done].
    - intros a' Hin' _ Hraw. rewrite Es in Hin'. apply elem_of_app in Hin' as [Hin'|Hin'%list_elem_of_singleton]; [|done].
      exfalso. apply Hf0, elem_of_operations. exists a'. split; [done|]. apply raw_op; [by apply (gd_attempts w G)|done|done]. }
  assert (all (FReceipt a :: fs) w') as Hfacts.
  { intros f [->|Hf]%elem_of_cons.
    - split; [done|]. unfold recorded, w', d, meta_get, meta_set. cbn. by rewrite lookup_insert_eq.
    - apply (holds_step w w' [EStaged a]); [apply G|apply Hw; by right| |done| |done|by left|].
      + apply shrinks_evolves; [apply Hnewd|apply (gd_dbs w G), (lv_db w Hl)|]. apply shrinks_meta_set. rewrite Hkey. apply receipt_not_clock.
      + intros key Hab. assert (key <> at_key a) by (intros ->; by apply (Hap f Hf)).
        unfold w', d, meta_get, meta_set. cbn. by rewrite lookup_insert_ne.
      + cbn. intros a' ->%list_elem_of_singleton. done. }
  split; [|split; [done|intros f Hf; apply Hfacts; by right]].
  split; cbn [log cloud kept moves w' commit]; fold (log w').
  - done.
  - intros d0 [Hd|Hd%list_elem_of_singleton]%elem_of_app; [by apply Hold|by subst].
  - intros op Hop. rewrite operations_app. apply elem_of_app. left. by apply (gd_applied w G).
  - intros a1 a2 Hin1 Hin2 Hne Hk12 Hop1 Hop2. apply (gd_once w G a1 a2); auto.
  - intros c r c' op Hin. apply elem_of_app in Hin as [Hin|Hin%list_elem_of_singleton]; [|done]. intros Hc Hc'.
    destruct (gd_writes w G c r c' op Hin Hc Hc') as (a' & src & src' & Hin' & H'). exists a', src, src'. split; [by apply staged_mono|done].
  - intros pr ts' d1 d2 Hin x Hx1 Hx2. apply elem_of_app in Hin as [Hin|Hin%list_elem_of_singleton]; [|done].
    apply (released_mono (log w) _ (cloud w)); [done|]. by eapply (gd_confirmed w G).
  - apply G.
Qed.

(** ** Reading *)

Definition seen (l : list Remote) : list Fact :=
  omap (fun r => match r with ROk _ i src => Some (FSeen i src) | RNotFound _ _ => None end) l.

Lemma elem_of_seen l k i src : ROk k i src ∈ l -> FSeen i src ∈ seen l.
Proof. intros H. apply list_elem_of_omap. by exists (ROk k i src). Qed.

Lemma all_app fs gs w : all (fs ++ gs) w <-> all fs w /\ all gs w.
Proof.
  split.
  - intros H. split; intros f Hf; apply H, elem_of_app; [by left|by right].
  - intros [H1 H2] f [Hf|Hf]%elem_of_app; auto.
Qed.

Lemma all_cons f fs w : all (f :: fs) w <-> holds w f /\ all fs w.
Proof.
  split; [intros H; split; [apply H; by left|intros g Hg; apply H; by right]|].
  intros [H1 H2] g [->|Hg]%elem_of_cons; auto.
Qed.

Lemma all_sub fs gs w : fs ⊆ gs -> all gs w -> all fs w.
Proof. intros Hs H f Hf. by apply H, Hs. Qed.

(** Weakening on facts. *)
Lemma h_facts {A} pb fs fs' (m : M A) (Q : A -> World -> Prop) es es' :
  fs ⊆ fs' -> es' ⊆ es -> hoare pb (all fs) m Q (all es) -> hoare pb (all fs') m Q (all es').
Proof. intros H1 H2 H. eapply h_conseq; [exact H| |done|]; intros w _; by apply all_sub. Qed.

Definition reply_items (reply : Reply States) : list Remote := match body reply with Some s => items s | None => [] end.

Lemma h_post_state pb fs r :
  hoare pb (all fs) (post_state r) (fun reply => all (fs ++ seen (reply_items reply))) (all fs).
Proof.
  unfold post_state. eapply h_bind; [apply h_tick| |].
  2: { intros _ w. cbv zeta. destruct (default _ _); [by apply prefix_app_r|done..]. }
  intros _ w Hn Hl Hpr Hw. cbv zeta in *. destruct (default Answered (head (net w))).
  2,3: split; [by apply (Live_ext w)|split; [exact Hpr|exact Hw]].
  cbn [ends]. set (w' := note _ _).
  assert (Good w') as G.
  { apply (Good_quiet w _ [ERead (cloud w) r]); [apply Hl|done| |done|by left|done]. intros e He. apply list_elem_of_singleton in He. by subst e. }
  assert (all fs w') as Hfs.
  { intros f Hf. apply (holds_step w w' [ERead (cloud w) r]); [apply Hl|by apply Hw| |done|done|done|by left|by intros a Ha%elem_of_nil].
    apply evolves_refl; apply (gd_dbs w (lv_good w Hl) _ (lv_db w Hl)). }
  split; [split; [done|apply Hl|apply Hl]|]. split; [exact Hpr|]. apply all_app. split; [done|].
  intros f Hf. apply list_elem_of_omap in Hf as ([k i src|k i] & Hin & [= <-]).
  exists (cloud w), r. split; [apply elem_of_app; right; by left|]. unfold reply_items in Hin.
  destruct (body (serve_state (cloud w) r)) as [s|] eqn:Eb; [by eapply read_true|by apply elem_of_nil in Hin].
Qed.

Lemma h_read_states pb fs cr b ids : pb = None ->
  hoare pb (all fs) (read_states cr b ids) (fun rs => all (fs ++ seen rs)) (all fs).
Proof.
  intros ->. unfold read_states. apply h_ensure; [done|]. intros _.
  eapply h_bind; [apply h_current| |mono]. intros [].
  eapply h_bind; [apply h_post_state| |mono]. intros reply.
  assert (forall w, all (fs ++ seen (reply_items reply)) w -> all fs w) as Hw by (intros w; rewrite all_app; tauto).
  apply h_ensure; [done|]. intros _. apply h_lift; [done|]. intros s Hs.
  apply h_ensure; [done|]. intros _. apply h_lift; [done|]. intros _ _.
  eapply h_bind; [eapply h_conseq; [apply h_current|done|done|auto]| |mono]. intros [].
  apply h_give. intros w. unfold reply_items. destruct (body reply); [|done]. by injection Hs as ->.
Qed.

(** ** Writing *)

Definition verdict (acks : list Ack) (a : Attempt) : list Fact :=
  match List.find (fun k => bool_decide (ack_id k = id (proposed a))) acks with
  | Some ack => if bool_decide (status ack ∈ STATUSES) then [if is_applied ack then FPublished a else FRejected a] else []
  | None => []
  end.
Definition verdicts (acks : list Ack) (ready : list Attempt) : list Fact := ready ≫= verdict acks.

Definition reply_results (reply : Reply Acks) : list Ack := match body reply with Some s => results s | None => [] end.

(** No fact says that an attempt was refused. *)
Definition unjudged (fs : list Fact) : Prop := forall a, FRejected a ∉ fs.

Lemma write_live w r n ready fs : Live w -> NoDup (operations (log w)) -> all fs w -> unjudged fs ->
  (forall a, a ∈ ready -> FReceipt a ∈ fs) -> wq_items r = proposed <$> ready -> NoDup (id <$> wq_items r) ->
  let c := (serve_write (cloud w) r).1 in
  let w' := note (set_cloud w c n) (EWrite (cloud w) r c) in Live w' /\ all fs w'.
Proof.
  intros Hl Hn Hw Hu Hrec Hitems Hids c w'. pose proof (lv_good w Hl) as G.
  assert (forall op, applied (cloud w) op = true -> applied c op = true) as Hmono by (intros op; apply write_keeps).
  assert (forall a, a ∈ ready -> AttemptOk a /\ a ∈ staged (log w) /\ forall d, d ∈ kept w -> recorded d a) as Hready.
  { intros a Ha. destruct (Hw _ (Hrec a Ha)) as [Hin Hh]. pose proof (gd_attempts w G a Hin) as Hok. split; [done|]. split; [done|].
    intros d Hd. unfold recorded in *. rewrite (ao_key a Hok) in *. by apply (lv_kept w Hl _ _ _ Hh). }
  assert (forall op, applied c op = true -> applied (cloud w) op = true \/ exists a src src', a ∈ ready /\ op_of a = op /\
    record_of (cloud w) (id (proposed a)) = Some src /\ src_ciphertext src = expected_ciphertext (proposed a) /\
    record_of c (id (proposed a)) = Some src' /\ src_ciphertext src' = Some (ciphertext (proposed a))) as Hnew.
  { intros op Hop. destruct (applied (cloud w) op) eqn:E; [by left|right].
    destruct (write_effect _ _ _ Hids E Hop) as (p & src & src' & Hp & Ho & H1 & _ & _ & H2 & H3 & H4).
    rewrite Hitems in Hp. apply list_elem_of_fmap in Hp as (a & -> & Ha). exists a, src, src'. split; [done|]. split; [|done].
    destruct (Hready a Ha) as (Hok & _). rewrite (ao_op a Hok) in Ho. by injection Ho. }
  assert (staged (log w') = staged (log w)) as Es
    by exact (eq_trans (staged_app (log w) [EWrite (cloud w) r c]) (app_nil_r (staged (log w)))).
  assert (forall a, a ∈ staged (log w) -> applied c (op_of a) = true -> applied (cloud w) (op_of a) = true \/ a ∈ ready) as Hnew'.
  { intros a Hin Hop. destruct (Hnew _ Hop) as [|(a' & _ & _ & Ha' & Eo & _)]; [by left|right].
    assert (a' = a) as <-; [|done]. apply (same_op (log w)); [done|by apply Hready|done|done]. }
  assert (forall d, d ∈ kept w -> DbOk (log w') c d) as Hdbs.
  { intros d Hd. destruct (gd_dbs w G d Hd) as [H1 H2 H3 H4 H5 H6 H7]. split; rewrite ?Es; [done..| | |].
    - intros a Hin Hor. apply H5; [done|]. destruct Hor as [|Hop]; [by left|].
      destruct (Hnew' a Hin Hop) as [|Ha]; [by right|left; by apply Hready].
    - intros a Hin Hop. destruct (Hnew' a Hin Hop) as [|Ha]; [by apply H6|left; by apply Hready].
    - intros a a2 Hin Hin2 Hh Hne Hk Hop. destruct (Hnew' a2 Hin2 Hop) as [|Ha]; [by apply (H7 a a2)|].
      exfalso. apply Hne. destruct (Hready a2 Ha) as (_ & _ & Hh2). apply (one_receipt w d); auto. }
  assert (Good w') as G'.
  { split; rewrite ?Es; change (cloud w') with c; [exact (gd_attempts w G)|exact Hdbs|..].
    - intros op Hop. destruct (Hnew op Hop) as [Hold|(a & _ & _ & Ha & Eo & _)].
      + unfold operations. rewrite Es. by apply (gd_applied w G).
      + apply elem_of_operations. exists a. rewrite Es. split; [by apply Hready|done].
    - assert (forall a1 a2, a1 ∈ ready -> a2 ∈ staged (log w) -> a1 <> a2 -> at_key a1 = at_key a2 -> applied (cloud w) (op_of a2) = true ->
        forall x, x ∈ edits (at_intent a1) -> x ∈ edits (at_intent a2) -> False) as Hfresh.
      { intros a1 a2 Hr1 Hin2 Hne Hk Hop x Hx1 Hx2. destruct (Hready a1 Hr1) as (_ & Hin1 & Hh1).
        pose proof (ok_newer _ _ _ (gd_dbs w G (db w) (lv_db w Hl)) a1 a2 Hin1 Hin2 (Hh1 _ (lv_db w Hl)) (not_eq_sym Hne) (eq_sym Hk) Hop x Hx1).
        pose proof (ao_bound a2 (gd_attempts w G a2 Hin2) x Hx2). lia. }
      intros a1 a2 Hin1 Hin2 Hne Hk Hop1 Hop2 x Hx1 Hx2.
      destruct (Hnew' a1 Hin1 Hop1) as [Ho1|Hr1], (Hnew' a2 Hin2 Hop2) as [Ho2|Hr2].
      + by apply (gd_once w G a1 a2 Hin1 Hin2 Hne Hk Ho1 Ho2 x).
      + by apply (Hfresh a2 a1 Hr2 Hin1 (not_eq_sym Hne) (eq_sym Hk) Ho1 x).
      + by apply (Hfresh a1 a2 Hr1 Hin2 Hne Hk Ho2 x).
      + apply Hne. destruct (Hready a1 Hr1) as (_ & _ & Hh1), (Hready a2 Hr2) as (_ & _ & Hh2).
        apply (one_receipt w (db w)); auto; [apply Hh1, Hl|apply Hh2, Hl].
    - intros c1 r1 c2 op Hin Hf Ht. change (log w') with (log w ++ [EWrite (cloud w) r c]) in Hin. apply elem_of_app in Hin as [Hin|Hin%list_elem_of_singleton]; [by apply (gd_writes w G c1 r1)|].
      injection Hin as -> -> ->. destruct (Hnew op Ht) as [Hold|(a & src & src' & Ha & Eo & H)]; [congruence|].
      exists a, src, src'. destruct (Hready a Ha) as (Hok & Hina & _). split; [done|]. split; [done|]. split; [apply Hok|done].
    - intros pr ts d d' Hin x Hx1 Hx2. change (log w') with (log w ++ [EWrite (cloud w) r c]) in *.
      apply elem_of_app in Hin as [Hin|Hin%list_elem_of_singleton]; [|done].
      apply (released_mono (log w) _ (cloud w)); [done|]. by eapply (gd_confirmed w G).
    - exact (gd_moves w G). }
  split; [split; [done|apply Hl|apply Hl]|].
  intros f Hf. apply (holds_step w w' [EWrite (cloud w) r c]); [apply G|by apply Hw| |done|done|done| |by intros a Ha%elem_of_nil].
  - apply evolves_refl; apply (gd_dbs w G _ (lv_db w Hl)).
  - rewrite Es. intros a Hin Hop. destruct (Hnew' a Hin Hop) as [|Ha]; [by left|right].
    destruct f as [b ts|b ts t i|a'|a'|a'|i src]; intros Hh; try done; cbn [hurts] in Hh; [|subst a'; by apply (Hu a)].
    destruct (Hw _ Hf) as (_ & Hnone & _), (Hready a Ha) as (_ & _ & Hha). specialize (Hha _ (lv_db w Hl)).
    unfold recorded in Hha. rewrite Hh in Hha. rewrite Hnone in Hha. done.
Qed.

Lemma h_post_write pb fs r ready : unjudged fs -> (forall a, a ∈ ready -> FReceipt a ∈ fs) ->
  wq_items r = proposed <$> ready -> NoDup (id <$> wq_items r) ->
  hoare pb (all fs) (post_write r) (fun reply => all (fs ++ verdicts (reply_results reply) ready)) (all fs).
Proof.
  intros Hu Hrec Hitems Hids. unfold post_write. eapply h_bind; [apply h_tick| |].
  2: { intros _ w. cbv zeta. destruct (default _ _); [|done|]; destruct (serve_write _ _); by apply prefix_app_r. }
  intros _ w Hn Hl Hpr Hw. cbv zeta in *.
  assert (NoDup (operations (log w)) -> let c := (serve_write (cloud w) r).1 in
    let w' := note (set_cloud w c (tail (net w))) (EWrite (cloud w) r c) in
    Live w' /\ all (fs ++ verdicts (reply_results (serve_write (cloud w) r).2) ready) w') as Hsent.
  { intros Hn0 c w'. destruct (write_live w r (tail (net w)) ready fs Hl Hn0 Hw Hu Hrec Hitems Hids) as [Hl' Hw']. fold c w' in Hl', Hw'.
    split; [done|]. apply all_app. split; [done|]. intros f Hf. unfold verdicts, verdict in Hf.
    apply list_elem_of_bind in Hf as (a & Hf & Ha). destruct (List.find _ _) as [ack|] eqn:Efind; [|by apply elem_of_nil in Hf].
    case_bool_decide as Hst; [|by apply elem_of_nil in Hf]. apply list_elem_of_singleton in Hf.
    apply List.find_some in Efind as [Hack Hid]. apply bool_decide_eq_true in Hid.
    destruct (Hw' _ (Hrec a Ha)) as [Hin _]. pose proof (ao_op a (gd_attempts w' (lv_good w' Hl') a Hin)) as Hop.
    unfold reply_results in Hack. destruct (body (serve_write (cloud w) r).2) as [acks|] eqn:Eb; [|done].
    assert (applied c (op_of a) = is_applied ack) as Hv.
    { apply (ack_true (cloud w) r acks ack (proposed a)); [done|done|by apply list_elem_of_In|done| |done|done].
      rewrite Hitems. by apply list_elem_of_fmap_2. }
    subst f. destruct (is_applied ack); (split; [done|]); [left; exact Hv|exact Hv]. }
  destruct (default Answered (head (net w))).
  - destruct (serve_write (cloud w) r) as [c reply]. cbn [fst snd] in *.
    destruct Hsent as [Hl' Hw']; [by apply NoDup_before in Hn|]. split; [done|]. split; [exact Hpr|done].
  - split; [by apply (Live_ext w)|]. split; [exact Hpr|exact Hw].
  - destruct (serve_write (cloud w) r) as [c reply]. cbn [fst snd] in *.
    destruct Hsent as [Hl' Hw']; [by apply NoDup_before in Hn|]. split; [done|]. split; [exact Hpr|]. by apply all_app in Hw' as [? _].
Qed.

Definition answered (ready : list Attempt) (acks : Acks) : Prop :=
  length (results acks) = length ready /\ check_acks (id <$> (proposed <$> ready)) [] (results acks) = true.

Lemma h_post fs cr b ready : unjudged fs -> (forall a, a ∈ ready -> FReceipt a ∈ fs) -> NoDup (id <$> (proposed <$> ready)) ->
  hoare None (all fs) (post cr b (proposed <$> ready))
    (fun acks w => answered ready acks /\ all (fs ++ verdicts (results acks) ready) w) (all fs).
Proof.
  intros Hu Hrec Hids. unfold post. eapply h_bind; [apply h_current| |mono]. intros [].
  eapply h_bind; [by apply (h_post_write _ _ _ ready)| |mono]. intros reply.
  assert (forall w, all (fs ++ verdicts (reply_results reply) ready) w -> all fs w) as Hw by (intros w; rewrite all_app; tauto).
  apply h_ensure; [done|]. intros _. apply h_lift; [done|]. intros acks Hs. apply h_ensure; [done|]. intros Hc.
  apply h_give. intros w H. unfold reply_results in H. destruct (body reply) as [x|]; [|done]. injection Hs as ->. split; [|done].
  rewrite !andb_true_iff in Hc. destruct Hc as [[_ Hlen] Hc]. apply Nat.eqb_eq in Hlen. rewrite length_fmap in Hlen. done.
Qed.

Lemma check_acks_status wanted l : forall seen a, check_acks wanted seen l = true -> a ∈ l -> ack_id a ∈ wanted /\ status a ∈ STATUSES.
Proof.
  induction l as [|x l IH]; intros seen a H Hin; [by apply elem_of_nil in Hin|]. cbn [check_acks] in H.
  rewrite !andb_true_iff in H. destruct H as [[[[_ Hw] _] Hs] H]. apply elem_of_cons in Hin as [->|Hin]; [|by eapply IH].
  by apply bool_decide_eq_true in Hw, Hs.
Qed.

Lemma unwrap_pure cr pk i wk w : exists o, unwrap_key cr pk i wk w = (o, w) /\
  forall key, o = Ret key -> exists ka, CloudCrypto.charge_key (user_id cr) (pi_id cr) i = Some ka /\ unwrap_content_key pk wk ka = Ok key.
Proof.
  unfold unwrap_key, mbind, no_panic, mret, mdead. destruct (CloudCrypto.charge_key _ _ _) as [ka|]; [|by eexists].
  unfold lift, sealed. destruct (unwrap_content_key pk wk ka) as [key|e] eqn:E; eexists; (split; [reflexivity|]); [|done].
  intros key' [= <-]. by exists ka.
Qed.

Lemma unwrap_key_Ret cr pk i wk ka key : CloudCrypto.charge_key (user_id cr) (pi_id cr) i = Some ka ->
  unwrap_content_key pk wk ka = Ok key -> forall w, unwrap_key cr pk i wk w = (Ret key, w).
Proof. intros H1 H2 w. unfold unwrap_key, mbind. rewrite H1. cbn. by rewrite H2. Qed.

(** Opening depends on nothing but its arguments. *)
Lemma decrypt_pure cr pk i wk ct w : exists o, decrypt cr pk i wk ct w = (o, w) /\ forall v, o = Ret v -> opens cr pk i wk ct v.
Proof.
  unfold opens, decrypt, mbind. destruct (unwrap_pure cr pk i wk w) as (o & E & Ho). rewrite E. destruct o as [key|e|]; [|by eexists..].
  destruct (Ho key eq_refl) as (ka & H1 & H2). destruct ct as [ct|].
  - destruct (charge_mutable _ _ _) as [aad|]; cbn; [|by eexists].
    unfold lift, sealed. destruct (open_json_b64 value_of key aad ct) as [v|e] eqn:Ev; eexists; (split; [reflexivity|]); [|done].
    intros v' [= <-] w'. rewrite (unwrap_key_Ret _ _ _ _ _ _ H1 H2). by rewrite Ev.
  - eexists. split; [reflexivity|]. intros v [= <-] w'. by rewrite (unwrap_key_Ret _ _ _ _ _ _ H1 H2).
Qed.

Lemma h_decrypt {B} pb (P E : World -> Prop) cr pk i wk ct (k : Value -> M B) Q :
  (forall w, P w -> E w) -> (forall v, opens cr pk i wk ct v -> hoare pb P (k v) Q E) ->
  hoare pb P (mbind (decrypt cr pk i wk ct) k) Q E.
Proof.
  intros HE Hk w Hn Hl Hpr Hw. unfold mbind in *. destruct (decrypt_pure cr pk i wk ct w) as (o & E0 & Ho). rewrite E0 in *.
  destruct o as [v|e|]; [apply (Hk v); auto|split; [done|]; split; [done|by apply HE]|apply Hl].
Qed.

Lemma h_unwrap {B} pb (P E : World -> Prop) cr pk i wk (k : list Z -> M B) Q :
  (forall w, P w -> E w) ->
  (forall ka key, CloudCrypto.charge_key (user_id cr) (pi_id cr) i = Some ka -> unwrap_content_key pk wk ka = Ok key -> hoare pb P (k key) Q E) ->
  hoare pb P (mbind (unwrap_key cr pk i wk) k) Q E.
Proof.
  intros HE Hk w Hn Hl Hpr Hw. unfold mbind in *. destruct (unwrap_pure cr pk i wk w) as (o & E0 & Ho). rewrite E0 in *.
  destruct o as [key|e|]; [|split; [done|]; split; [done|by apply HE]|apply Hl].
  destruct (Ho key eq_refl) as (ka & H1 & H2). by apply (Hk ka key).
Qed.

(** ** Settling a batch *)

Lemma apart_app key fs gs : apart key fs -> apart key gs -> apart key (fs ++ gs).
Proof. intros H1 H2 f [Hf|Hf]%elem_of_app; auto. Qed.

Lemma apart_more key f fs : about f <> Some key -> apart key fs -> apart key (f :: fs).
Proof. intros H1 H2 g [->|Hg]%elem_of_cons; auto. Qed.

Lemma apart_verdicts key acks ready : apart key (verdicts acks ready).
Proof.
  intros f Hf. apply list_elem_of_bind in Hf as (a & Hf & _). unfold verdict in Hf. destruct (List.find _ _) as [k|]; [|by apply elem_of_nil in Hf].
  case_bool_decide; [|by apply elem_of_nil in Hf]. apply list_elem_of_singleton in Hf as ->. by destruct (is_applied k).
Qed.

Lemma apart_seen key l : apart key (seen l).
Proof. intros f Hf. by apply list_elem_of_omap in Hf as ([k i src|k i] & _ & [= <-]). Qed.

Lemma unjudged_app fs gs : unjudged fs -> unjudged gs -> unjudged (fs ++ gs).
Proof. intros H1 H2 a [Hf|Hf]%elem_of_app; [by apply (H1 a)|by apply (H2 a)]. Qed.

Lemma unjudged_seen l : unjudged (seen l).
Proof. intros a Hf. by apply list_elem_of_omap in Hf as ([k i src|k i] & _ & [=]). Qed.

Lemma unjudged_receipts l : unjudged (FReceipt <$> l).
Proof. intros a Hf. by apply list_elem_of_fmap in Hf as (x & [=] & _). Qed.

Lemma h_settle b cr pk acks ready : (forall a, a ∈ ready -> AttemptOk a /\ pn_binding (at_pending a) = b) -> (forall k, k ∈ results acks -> status k ∈ STATUSES) ->
  forall fr failed, (forall a, a ∈ ready -> apart (at_key a) fr) ->
  hoare (Some b) (all (verdicts (results acks) ready ++ fr)) (settle_all cr pk acks ready failed) (fun _ => all fr) (all fr).
Proof.
  intros Hok Hst. induction ready as [|a ready IH]; intros fr failed Hap; cbn [settle_all]; [by apply h_give|].
  apply h_no_panic. intros ack Hfind.
  assert (status ack ∈ STATUSES) as Hs by (apply Hst, list_elem_of_In; by apply List.find_some in Hfind as [? _]).
  assert (verdicts (results acks) (a :: ready) = (if is_applied ack then FPublished a else FRejected a) :: verdicts (results acks) ready) as Ev.
  { change (verdicts (results acks) (a :: ready)) with (verdict (results acks) a ++ verdicts (results acks) ready).
    unfold verdict. change (proposed a) with (proposal (at_pending a)). by rewrite Hfind, bool_decide_true. }
  rewrite Ev. clear Ev. set (rest := verdicts (results acks) ready ++ fr).
  assert (apart (at_key a) rest) as Hrest by (apply apart_app; [apply apart_verdicts|apply Hap; by left]).
  assert (forall w f, all ((f :: verdicts (results acks) ready) ++ fr) w -> all fr w) as Hfr.
  { intros w f. apply all_sub. intros g Hg. right. apply elem_of_app. by right. }
  destruct (Hok a) as [Ha Hb]; [by left|].
  assert (forall fl, hoare (Some b) (all rest) (settle_all cr pk acks ready fl) (fun _ => all fr) (all fr)) as Hnext.
  { intros fl. apply IH; intros a' Ha'; [apply Hok|apply Hap]; by right. }
  destruct (is_applied ack).
  - apply h_decrypt; [by intros w; apply Hfr|]. intros v _.
    apply (h_bind (Some b) _ _ _ (fun _ => all rest)); [|intros r; apply Hnext|mono].
    eapply h_conseq; [apply (h_try (Some b) _ _ (fun _ => all (FPublished a :: rest)) (all (FPublished a :: rest)) (all fr))|done| |done].
    + rewrite <- Hb. apply h_confirm_receipt; [done|by apply apart_more|by left].
    + intros r w _ Hw. destruct r; by apply all_cons in Hw as [_ ?].
  - apply (h_bind (Some b) _ _ _ (fun _ => all rest)); [|intros r; apply Hnext|mono].
    eapply h_conseq; [apply (h_retire (Some b) (FRejected a :: rest) a); [done|by apply apart_more|by left]|done| |].
    + intros r w _ Hw. by apply all_cons in Hw as [_ ?].
    + intros w _ Hw. apply all_cons in Hw as [_ Hw]. by apply all_app in Hw as [_ ?].
Qed.

(** ** Recovering one publication *)

Lemma only_ack ready a acks : ready = [a] -> answered ready acks -> forall ack, head (results acks) = Some ack ->
  verdicts (results acks) ready = [if is_applied ack then FPublished a else FRejected a].
Proof.
  intros -> [Hlen Hc] ack Hhd. destruct (results acks) as [|x [|y l]]; [done| |done]. injection Hhd as ->.
  destruct (check_acks_status _ _ _ ack Hc) as [Hid Hs]; [by left|]. apply list_elem_of_singleton in Hid.
  change (verdicts [ack] [a]) with (verdict [ack] a ++ []). unfold verdict. cbn [List.find]. by rewrite !bool_decide_true.
Qed.

(** Once the cloud took it, the rest of [recover] confirms it. *)
Lemma h_recover_rest fs cr pk b a now : AttemptOk a -> pn_binding (at_pending a) = b -> apart (at_key a) fs ->
  hoare None (all (FPublished a :: fs))
    (mbind (ensure (matches_source (at_pending a) now) PSourceAfter) (fun _ =>
       match now with
       | ROk _ _ s =>
           mbind (decrypt cr pk (id (proposed a)) (wrapped_key (proposed a)) (src_ciphertext s)) (fun value =>
             with_pairing b (confirm (session_ts (at_pending a)) (changed_at_ms (proposed a)) (id (proposed a)) (wrapped_key (proposed a))
                               (pn_uploaded_at (at_pending a)) value (Some (at_key a, at_raw a))))
       | RNotFound _ _ => mdead
       end)) (fun _ => all fs) (all fs).
Proof.
  intros Ha Hb Hap. assert (forall w, all (FPublished a :: fs) w -> all fs w) as Hw by (intros w; rewrite all_cons; tauto).
  apply h_ensure; [done|]. intros _. destruct now as [k i src|k i]; [|apply h_dead]. apply h_decrypt; [done|]. intros v _.
  eapply h_conseq; [|by intros w _ H; exact H| |].
  - apply (h_pairing b (FPublished a :: fs) _ (fun _ => all (FPublished a :: fs)) (all (FPublished a :: fs))); [done|done|done|mono|].
    rewrite <- Hb. apply h_confirm_receipt; [done|by apply apart_more|by left].
  - auto.
  - auto.
Qed.

Lemma h_recover fs cr pk b a : AttemptOk a -> apart (at_key a) fs -> unjudged fs ->
  hoare None (all (FReceipt a :: fs)) (recover cr pk b (at_key a) (at_raw a)) (fun _ => all fs) (all fs).
Proof.
  intros Ha Hap Hu. unfold recover.
  assert (forall w, all (FReceipt a :: fs) w -> all fs w) as Hw by (intros w; rewrite all_cons; tauto).
  apply h_lift; [done|]. intros pending Hp. rewrite (ao_raw a Ha), pending_round in Hp. injection Hp as <-. cbv zeta.
  change (proposal (at_pending a)) with (proposed a).
  apply h_ensure; [done|]. intros Hid. rewrite !andb_true_iff in Hid. destruct Hid as [[[[_ Hb%bool_decide_eq_true] _] _] _].
  apply h_lift; [done|]. intros _ _.
  eapply h_bind; [eapply h_conseq; [by apply (h_read_states None (FReceipt a :: fs))|done|done|auto]| |mono]. intros states. cbv beta.
  assert (forall w, all ((FReceipt a :: fs) ++ seen states) w -> all fs w) as Hw1 by (intros w; rewrite all_app; intuition).
  apply h_no_panic. intros now Hnow.
  apply (h_bind None _ _ _ (fun _ => all (FPublished a :: fs))); [|intros now'; by apply h_recover_rest|mono].
  destruct (_ && _) eqn:Eexact.
  - apply h_give. intros w H. apply all_app in H as [H1 H2]. apply all_cons in H1 as [[Hin _] H1]. apply all_cons. split; [|done]. split; [done|right].
    destruct now as [k i src|k i]; [|by rewrite andb_false_r in Eexact]. cbn [matches_source] in Eexact. rewrite !andb_true_iff in Eexact.
    destruct Eexact as [[[Hi _] _] Hct]. apply bool_decide_eq_true in Hi, Hct. change (proposal (at_pending a)) with (proposed a) in Hi.
    destruct (H2 (FSeen i src)) as (c0 & r & Hr & Hrec).
    { apply (elem_of_seen _ k). apply head_Some_elem_of. done. }
    exists c0, r, src. by rewrite <- Hi.
  - apply h_ensure; [done|]. intros _.
    eapply h_bind; [eapply h_conseq; [apply (h_post ((FReceipt a :: fs) ++ seen states) cr b [a])|done|done|auto]| |mono].
    { apply unjudged_app; [|apply unjudged_seen]. intros a' [[=]|Hin]%elem_of_cons. by apply (Hu a'). }
    { intros a' ->%list_elem_of_singleton. by left. }
    { apply NoDup_singleton. }
    intros acks. apply h_pure. intros Hans. apply h_no_panic. intros ack Hack.
    rewrite (only_ack [a] a acks eq_refl Hans ack Hack).
    assert (forall w f, all (((FReceipt a :: fs) ++ seen states) ++ [f]) w -> all (f :: fs) w) as Hw2.
    { intros w f H. apply all_app in H as [H1 H2]. apply all_app in H1 as [H1 _]. apply all_cons in H1 as [_ H1]. apply all_cons. split; [|done].
      apply H2. by left. }
    destruct (is_applied ack); cbn [negb].
    + apply (h_conseq None (all (FPublished a :: fs)) _ _ (fun _ => all (FPublished a :: fs)) _ (all fs)); [|by intros w _; apply Hw2|done|done].
      eapply (h_bind None _ _ _ (fun rs => all ((FPublished a :: fs) ++ seen rs))); [|intros rs|mono].
      * eapply h_conseq; [by apply (h_read_states None (FPublished a :: fs))|done|done|]. intros w _ H. by apply all_cons in H as [_ ?].
      * unfold the_item. destruct (head rs) as [x|]; [|apply h_dead]. apply h_give.
        intros w H. by apply all_app in H as [? _].
    + apply (h_bind None _ _ _ (fun _ => all fs)); [|intros []; apply h_throw|mono].
      apply (h_conseq None (all (FRejected a :: fs)) _ _ (fun _ => all (FRejected a :: fs)) _ (all (FRejected a :: fs)));
        [|by intros w _; apply Hw2|by intros r w _ H; apply all_cons in H as [_ ?]|by intros w _ H; apply all_cons in H as [_ ?]].
      apply h_pairing; [done|done|done|mono|]. apply h_retire; [done|by apply apart_more|by left].
Qed.

Lemma h_recover_all fr cr pk b ready : (forall a, a ∈ ready -> AttemptOk a) -> NoDup (at_key <$> ready) -> unjudged fr ->
  (forall a, a ∈ ready -> apart (at_key a) fr) ->
  forall failed, hoare None (all ((FReceipt <$> ready) ++ fr)) (recover_all cr pk b ready failed) (fun _ => all fr) (all fr).
Proof.
  intros Hok Hnd Hu Hap. induction ready as [|a ready IH]; intros failed; cbn [recover_all]; [apply (h_ret None failed (fun _ => all fr))|].
  cbn [fmap list_fmap] in Hnd. apply NoDup_cons in Hnd as [Hni Hnd].
  apply (h_bind None _ _ _ (fun _ => all ((FReceipt <$> ready) ++ fr))); [|intros r; apply IH|mono].
  - eapply h_conseq; [apply (h_try None (all (FReceipt a :: (FReceipt <$> ready) ++ fr)) _ (fun _ => all ((FReceipt <$> ready) ++ fr)) (all ((FReceipt <$> ready) ++ fr)) (all fr))|done| |done].
    + apply (h_recover ((FReceipt <$> ready) ++ fr)); [apply Hok; by left| |by apply unjudged_app; [apply unjudged_receipts|]].
      apply apart_app; [|apply Hap; by left]. intros f Hf. apply list_elem_of_fmap in Hf as (a' & -> & Ha'). intros [= E].
      apply Hni. rewrite <- E. by apply list_elem_of_fmap_2.
    + by intros [] w.
  - intros a' Ha'. apply Hok. by right.
  - done.
  - intros a' Ha'. apply Hap. by right.
Qed.

(** ** Preparing *)

Lemma opens_sealed cr pk i wk key aad fill m ct ka : (forall n, fill = Some n -> length n = NONCE_LEN) ->
  CloudCrypto.charge_key (user_id cr) (pi_id cr) i = Some ka ->
  unwrap_content_key pk wk ka = Ok key -> charge_mutable (user_id cr) (pi_id cr) i = Some aad ->
  seal_json_b64 value_vec fill key aad m = Ok ct -> exists bytes, value_vec m = Some bytes /\ opens_bytes cr pk i wk ct bytes.
Proof.
  intros Hf H1 H2 H3 H. unfold seal_json_b64 in H. apply rbind_Ok in H as (k & Hk & H). apply rbind_Ok in H as (json & Hj & H).
  apply rbind_Ok in H as (c & Hc & H). injection H as <-. exists json. apply ok_or_Ok in Hj. split; [done|].
  exists ka, key, aad. split; [done|]. split; [done|]. split; [done|]. unfold open_json_b64. rewrite Hk. cbn [rbind].
  rewrite b64_round. cbn [ok_or rbind]. apply sealing_Ok in Hc. rewrite (seal_open_ok fill k aad json c Hf Hc). done.
Qed.

(** What [prepare] builds is an attempt in order. *)
Lemma prepared_ok cr pk b ts t s i src up doc f m key aad nonce ka ct :
  opens cr pk i (src_key src) (src_ciphertext src) doc -> merged_of s doc f = Ok m -> veq m doc = false ->
  (forall n, nonce = Some n -> length n = NONCE_LEN) ->
  CloudCrypto.charge_key (user_id cr) (pi_id cr) i = Some ka -> unwrap_content_key pk (src_key src) ka = Ok key ->
  charge_mutable (user_id cr) (pi_id cr) i = Some aad -> seal_json_b64 value_vec nonce key aad m = Ok ct ->
  (forall x, x ∈ edits (sn_intent s) -> x.1 <= t) ->
  let p := mkProposal CHARGE i (src_version src) (src_key src) (src_ciphertext src) ct t true None in
  let pending := mkPending 3 b ts up (with_operation p (operation_hash b p)) in
  AttemptOk (mkAttempt cr pk (sn_intent s) pending (receipt_key b ts) (pending_raw pending)).
Proof.
  intros Ho Hm Hv Hn H1 H2 H3 Hs Hb p pending. split; [done|done|done|exact Hb|].
  destruct (opens_sealed cr pk i (src_key src) key aad nonce m ct ka Hn H1 H2 H3 Hs) as (bytes & Hbytes & Hopen).
  exists doc, m, bytes. split; [exact Ho|]. split; [|done]. cbn [at_intent]. unfold merged_of in Hm.
  destruct (legacy (sn_intent s)).
  - destruct (_ && _); [|done]. injection Hm as <-. by rewrite veq_refl in Hv.
  - destruct (CloudMerge.merge_charge (sn_intent s) doc); [by injection Hm as ->|done].
Qed.

Lemma h_prepare fs cr pk b ts t s i wk up remote : b = binding cr -> apart (receipt_key b ts) fs ->
  (forall x, x ∈ edits (sn_intent s) -> x.1 <= t) ->
  (forall k i' src, remote = ROk k i' src -> FSeen i src ∈ fs) ->
  hoare (Some b) (all (FRow b ts t s :: fs)) (prepare cr pk b ts t s (i, wk, up) remote)
    (fun o w => match o with
                | Some a => (at_key a = receipt_key b ts /\ id (proposed a) = i /\ AttemptOk a /\ pn_binding (at_pending a) = b) /\ all (FReceipt a :: fs) w
                | None => all fs w end) (all fs).
Proof.
  intros Eb Hap Hb Hseen. set (F := FRow b ts t s :: fs).
  assert (forall w, all F w -> all fs w) as Hw by (intros w; unfold F; rewrite all_cons; tauto).
  unfold prepare. destruct remote as [k i' src|k i']; [|by apply h_raise].
  specialize (Hseen k i' src eq_refl). apply h_ensure; [done|]. intros _. apply h_decrypt; [done|]. intros doc Hdoc.
  apply (h_bind (Some b) _ _ _ (fun _ => all F)); [| |mono].
  { destruct (is_empty wk); [|apply (h_ret (Some b) tt (fun _ => all F))].
    apply (h_bind (Some b) _ _ _ (fun _ => all F)); [eapply h_conseq; [apply h_backfill|done|done|auto]| |mono].
    intros ok. destruct ok; [by apply h_give|by apply h_raise]. }
  intros []. apply h_lift; [done|]. intros f Hf. apply h_lift; [done|]. intros m Hm. apply h_lift; [done|]. intros f' _.
  destruct (veq m doc) eqn:Ev.
  - apply (h_bind (Some b) _ _ _ (fun _ => all F)); [|intros []|mono].
    + eapply h_conseq; [rewrite Eb; eapply (h_confirm_seen F b ts t i); [by left|by right|done..]|done|done|auto].
    + by apply h_give.
  - apply h_unwrap; [done|]. intros ka key H1 H2. apply h_no_panic. intros aad H3.
    eapply h_bind; [eapply h_conseq; [apply (h_fill (Some b) F)|done|done|auto]| |mono]. intros nonce. apply h_pure. intros Hn.
    apply h_lift; [done|]. intros ct Hct. apply h_lift; [done|]. intros _ _. cbv zeta.
    set (a := mkAttempt cr pk (sn_intent s) _ _ _).
    assert (AttemptOk a) as Ha.
    { unfold sealed in Hct. destruct (seal_json_b64 _ _ _ _ _) as [ct'|] eqn:Es; [|done]. injection Hct as <-.
      exact (prepared_ok cr pk b ts t s i src up doc f m key aad nonce ka ct' Hdoc Hm Ev Hn H1 H2 H3 Es Hb). }
    apply (h_bind (Some b) _ _ _ (fun _ => all (FReceipt a :: fs))); [by apply (h_stage (Some b) fs a t b ts s)| |mono]. intros [].
    by apply h_give.
Qed.

(** ** A chunk *)

Notation Row := (Z * Z * Snap * (str * str * Z))%type.

Definition row_key (b : str) (r : Row) : str := receipt_key b r.1.1.1.
Definition row_id (r : Row) : str := r.2.1.1.
Definition row_fact (b : str) (r : Row) : Fact := FRow b r.1.1.1 r.1.1.2 r.1.2.
Definition row_ok (r : Row) : Prop := forall x, x ∈ edits (sn_intent r.1.2) -> x.1 <= r.1.1.2.

Definition for_row (b : str) (a : Attempt) (r : Row) : Prop := at_key a = row_key b r /\ id (proposed a) = row_id r.

Lemma apart_rows b key rows : key ∉ row_key b <$> rows -> apart key (row_fact b <$> rows).
Proof. intros H f Hf. apply list_elem_of_fmap in Hf as (r & -> & Hr). intros [= E]. apply H, list_elem_of_fmap. by exists r. Qed.

Lemma apart_receipts b key ready rows : Forall2 (for_row b) ready rows -> key ∉ row_key b <$> rows -> apart key (FReceipt <$> ready).
Proof.
  intros HF H f Hf. apply list_elem_of_fmap in Hf as (a & -> & Ha). intros [= E]. apply H.
  apply list_elem_of_lookup in Ha as (j & Hj). destruct (Forall2_lookup_l _ _ _ _ _ HF Hj) as (r & Hr & [Hk _]).
  rewrite <- E, Hk. apply list_elem_of_fmap_2. by eapply list_elem_of_lookup_2.
Qed.

(** The prepared attempts belong to a part of the chunk. *)
Definition ready_for (b : str) (ready : list Attempt) (rows : list Row) : Prop :=
  (forall a, a ∈ ready -> AttemptOk a /\ pn_binding (at_pending a) = b) /\ exists part, part `sublist_of` rows /\ Forall2 (for_row b) ready part.

Lemma h_prepare_all fr cr pk b rs chunk : b = binding cr -> forall ready done_ failed,
  ready_for b ready done_ -> NoDup (row_key b <$> done_ ++ chunk) -> (forall r, r ∈ chunk -> row_ok r) ->
  (forall r, r ∈ chunk -> apart (row_key b r) fr) -> seen rs ⊆ fr ->
  hoare (Some b) (all ((row_fact b <$> chunk) ++ (FReceipt <$> ready) ++ fr)) (prepare_all cr pk b rs chunk ready failed)
    (fun o w => ready_for b o.1 (done_ ++ chunk) /\ all ((FReceipt <$> o.1) ++ fr) w) (all fr).
Proof.
  intros Eb. induction chunk as [|[[[ts t] s] [[i wk] up]] chunk IH]; intros ready done_ failed Hready Hnd Hok Hap Hseen; cbn [prepare_all].
  - apply h_give. intros w H. by rewrite app_nil_r.
  - set (row := (ts, t, s, (i, wk, up))) in *. cbn [fmap list_fmap].
    assert (forall w, all ((row_fact b row :: (row_fact b <$> chunk)) ++ (FReceipt <$> ready) ++ fr) w -> all fr w) as Hfr.
    { intros w. apply all_sub. intros f Hf. rewrite !elem_of_app. by right; right. }
    apply h_lift; [done|]. intros remote Hrem. apply ok_or_Ok in Hrem. apply List.find_some in Hrem as [Hrem Hid].
    apply bool_decide_eq_true in Hid. cbn [fst snd] in Hid.
    set (rest := (row_fact b <$> chunk) ++ (FReceipt <$> ready) ++ fr).
    assert (NoDup (row_key b <$> (done_ ++ [row]) ++ chunk)) as Hnd' by (by rewrite <- app_assoc).
    assert (row_key b row ∉ row_key b <$> chunk /\ row_key b row ∉ row_key b <$> done_) as [Hc Hd].
    { rewrite fmap_app in Hnd. apply NoDup_app in Hnd as (_ & Hdis & Hnd). cbn [fmap list_fmap] in *. apply NoDup_cons in Hnd as [? _].
      split; [done|]. intros Hin. apply (Hdis _ Hin). by left. }
    destruct Hready as (Hready & part & Hpart & HF).
    assert (row_key b row ∉ row_key b <$> part) as Hp.
    { intros Hin. apply Hd. apply list_elem_of_fmap in Hin as (r & -> & Hr). apply list_elem_of_fmap_2.
      by eapply elem_of_sublist. }
    assert (ready_for b ready (done_ ++ [row])) as Hr0.
    { split; [done|]. exists part. split; [by apply sublist_inserts_r|done]. }
    assert (apart (row_key b row) rest) as Hrest.
    { apply apart_app; [by apply apart_rows|]. apply apart_app; [by eapply apart_receipts|apply Hap; by left]. }
    assert (forall fl, hoare (Some b) (all rest) (prepare_all cr pk b rs chunk ready fl)
      (fun o w => ready_for b o.1 (done_ ++ row :: chunk) /\ all ((FReceipt <$> o.1) ++ fr) w) (all fr)) as Hskip.
    { intros fl. replace (done_ ++ row :: chunk) with ((done_ ++ [row]) ++ chunk) by (by rewrite <- app_assoc).
      apply IH; [done|done| | |done]; intros r Hr; [apply Hok|apply Hap]; by right. }
    assert (forall k i' src, remote = ROk k i' src -> FSeen i src ∈ rest) as Hrs.
    { intros k i' src ->. cbn in Hid. subst i'. apply elem_of_app. right. apply elem_of_app. right. apply Hseen.
      apply (elem_of_seen _ k). by apply list_elem_of_In. }
    pose proof (h_prepare rest cr pk b ts t s i wk up remote Eb Hrest (Hok row ltac:(by left)) Hrs) as Hprep.
    eapply h_bind; [apply (h_try _ _ _ _ _ (all fr)) in Hprep; exact Hprep| |mono].
    intros prepared.
    destruct prepared as [[a|]|e]; cbv beta iota.
      * apply h_pure. intros (Hk & Hi & Ha & Hpb).
        replace (done_ ++ row :: chunk) with ((done_ ++ [row]) ++ chunk) by (by rewrite <- app_assoc).
        eapply h_conseq; [apply (IH (ready ++ [a]) (done_ ++ [row]) failed)| |done|done].
        -- split; [intros a' [?|Ha'%list_elem_of_singleton]%elem_of_app; [by apply Hready|by subst]|].
           exists (part ++ [row]). split; [by apply sublist_app|]. apply Forall2_app; [done|]. by repeat constructor.
        -- done.
        -- intros r Hr. apply Hok. by right.
        -- intros r Hr. apply Hap. by right.
        -- done.
        -- intros w _. apply all_sub. intros f. unfold rest. rewrite fmap_app, !elem_of_app, elem_of_cons, !elem_of_app.
           cbn [fmap list_fmap]. rewrite list_elem_of_singleton. tauto.
      * apply Hskip.
      * apply Hskip.
Qed.

Lemma ready_keys b ready rows : ready_for b ready rows -> NoDup (row_key b <$> rows) -> NoDup (row_id <$> rows) ->
  NoDup (at_key <$> ready) /\ NoDup (id <$> (proposed <$> ready)) /\
  forall a, a ∈ ready -> exists r, r ∈ rows /\ at_key a = row_key b r.
Proof.
  intros (_ & part & Hpart & HF) Hk Hi.
  assert (at_key <$> ready = row_key b <$> part) as E1.
  { clear -HF. induction HF as [|a r ready part [H _] _ IH]; [done|]. cbn. by rewrite H, IH. }
  assert (id <$> (proposed <$> ready) = row_id <$> part) as E2.
  { clear -HF. induction HF as [|a r ready part [_ H] _ IH]; [done|]. cbn in *. by rewrite H, IH. }
  split; [|split].
  - rewrite E1. eapply sublist_NoDup; [exact Hk|by apply fmap_sublist].
  - rewrite E2. eapply sublist_NoDup; [exact Hi|by apply fmap_sublist].
  - intros a Ha. apply list_elem_of_lookup in Ha as (j & Hj). destruct (Forall2_lookup_l _ _ _ _ _ HF Hj) as (r & Hr & [H _]).
    exists r. split; [|done]. eapply elem_of_sublist; [|exact Hpart]. by eapply list_elem_of_lookup_2.
Qed.

Lemma h_push_chunk fr cr pk b chunk failed : b = binding cr -> NoDup (row_key b <$> chunk) -> NoDup (row_id <$> chunk) ->
  (forall r, r ∈ chunk -> row_ok r) -> (forall r, r ∈ chunk -> apart (row_key b r) fr) -> unjudged fr ->
  hoare None (all ((row_fact b <$> chunk) ++ fr)) (push_chunk cr pk b chunk failed) (fun _ => all fr) (all fr).
Proof.
  intros Eb Hk Hi Hok Hap Hu. unfold push_chunk.
  assert (forall w gs, all (gs ++ fr) w -> all fr w) as Hw by (intros w gs; rewrite all_app; tauto).
  eapply h_bind; [eapply h_conseq; [apply h_cancel|done|done|eauto]| |mono]. intros [].
  eapply h_bind; [eapply h_conseq; [by apply h_read_states|done|done|eauto]| |mono]. intros rs. cbv beta.
  set (fr' := fr ++ seen rs). assert (forall w gs, all (gs ++ fr') w -> all fr w) as Hw'.
  { intros w gs. unfold fr'. rewrite !all_app. tauto. }
  assert (forall r, r ∈ chunk -> apart (row_key b r) fr') as Hap' by (intros r Hr; apply apart_app; [by apply Hap|apply apart_seen]).
  assert (unjudged fr') as Hu' by (apply unjudged_app; [done|apply unjudged_seen]).
  eapply h_bind; [| |mono].
  { eapply h_conseq; [apply (h_pairing b (((row_fact b <$> chunk) ++ fr) ++ seen rs) _
      (fun (o : list Attempt * bool) w => ready_for b o.1 chunk /\ all ((FReceipt <$> o.1) ++ fr') w) (all fr))|done|by intros a w _ H; exact H|done].
    - done.
    - done.
    - intros w. rewrite !all_app. tauto.
    - mono.
    - eapply h_conseq; [apply (h_prepare_all fr' cr pk b rs chunk Eb [] [] failed); try done|..].
      + split; [by intros a Ha%elem_of_nil|]. exists []. split; [done|constructor].
      + intros f Hf. apply elem_of_app. by right.
      + intros w _. unfold fr'. rewrite !all_app. cbn. intuition; by intros f Hf%elem_of_nil.
      + done.
      + intros w _. by apply (Hw' w []). }
  intros [ready failed']. cbn [fst]. apply h_pure. intros Hready.
  destruct (ready_keys b ready chunk Hready Hk Hi) as (Hnk & Hni & Hin). destruct Hready as [Hrok _].
  assert (forall a, a ∈ ready -> apart (at_key a) fr') as Hapr by (intros a (r & Hr & ->)%Hin; by apply Hap').
  destruct (is_empty ready); [by apply h_give; intros w; apply Hw'|].
  eapply h_bind; [eapply h_conseq; [apply h_current|done|done|eauto]| |mono]. intros [].
  eapply h_bind; [| |mono].
  { apply h_try. apply (h_post ((FReceipt <$> ready) ++ fr') cr b ready).
    - apply unjudged_app; [apply unjudged_receipts|done].
    - intros a Ha. apply elem_of_app. left. by apply list_elem_of_fmap_2.
    - done. }
  intros [acks|e]; cbv beta iota.
  - apply h_pure. intros [_ Hans].
    eapply h_conseq; [apply (h_pairing b (verdicts (results acks) ready ++ fr') _ (fun _ => all fr') (all fr'))| | |].
    + done.
    + done.
    + intros w. rewrite all_app. tauto.
    + mono.
    + apply h_settle; [done| |done]. intros k Hkin. by apply (check_acks_status _ _ _ k Hans).
    + intros w _. rewrite !all_app. tauto.
    + intros r w _ H. by apply (Hw' w []).
    + intros w _ H. by apply (Hw' w []).
  - eapply h_conseq; [apply (h_recover_all fr' cr pk b ready (fun a Ha => proj1 (Hrok a Ha)) Hnk Hu' Hapr)|done| |].
    + intros r w _ H. by apply (Hw' w []).
    + intros w _ H. by apply (Hw' w []).
Qed.

Lemma unjudged_rows b rows : unjudged (row_fact b <$> rows).
Proof. intros a Hf. by apply list_elem_of_fmap in Hf as (x & [=] & _). Qed.

Lemma h_push_chunks cr pk b cs : b = binding cr -> forall failed, NoDup (row_key b <$> List.concat cs) -> NoDup (row_id <$> List.concat cs) ->
  (forall r, r ∈ List.concat cs -> row_ok r) ->
  hoare None (all (row_fact b <$> List.concat cs)) (push_chunks cr pk b cs failed) (fun _ => all []) (all []).
Proof.
  intros Eb. induction cs as [|c cs IH]; intros failed Hk Hi Hok; cbn [push_chunks List.concat] in *; [apply (h_ret None failed (fun _ => all []))|].
  rewrite (fmap_app (row_fact b)). rewrite (fmap_app (row_key b)) in Hk. rewrite (fmap_app row_id) in Hi.
  apply NoDup_app in Hk as (Hk1 & Hdis & Hk2), Hi as (Hi1 & _ & Hi2).
  apply (h_bind None _ _ _ (fun _ => all (row_fact b <$> List.concat cs))); [|intros fl; apply IH; [done|done|]|mono].
  - eapply h_conseq; [apply (h_push_chunk (row_fact b <$> List.concat cs) cr pk b c failed Eb Hk1 Hi1)|done|done|by intros w _ _ f Hf%elem_of_nil].
    + intros r Hr. apply Hok, elem_of_app. by left.
    + intros r Hr. apply apart_rows. apply Hdis. by apply list_elem_of_fmap_2.
    + apply unjudged_rows.
  - intros r Hr. apply Hok, elem_of_app. by right.
Qed.

(** ** The queue *)

(** A snapshot of a session without a publication. *)
Lemma snapshot_row w b ts t s : Live w -> meta_get (db w) (receipt_key b ts) = None -> charge_mutable_for_sync (db w) ts t = Some s ->
  holds w (FRow b ts t s) /\ forall x, x ∈ edits (sn_intent s) -> x.1 <= t.
Proof.
  intros Hl Hnone H. pose proof (lv_good w Hl) as G. pose proof (gd_dbs w G (db w) (lv_db w Hl)) as Ok0.
  pose proof H as H0. unfold charge_mutable_for_sync in H. case_bool_decide as Hq; [|done]. injection H as <-. cbn [sn_intent edits read].
  fold (charge_key ts). unfold queued in Hq. fold (charge_key ts) in Hq.
  assert (forall x, x ∈ events_of (db w) (charge_key ts) -> x.1 <= t) as Hb.
  { intros x Hx. destruct (inv_events _ (ok_inv _ _ _ Ok0) _ _ Hx) as (g & Hg & Hle). rewrite Hq in Hg. by injection Hg as <-. }
  split; [|done]. split; [exists (db w); split; [done|apply evolves_refl; apply Ok0]|]. split; [done|]. split; [by apply (ok_clocked _ _ _ Ok0 (charge_key ts))|]. split; [done|]. split; [done|].
  intros a Hin Hk Hop x Hx. destruct (ok_settled _ _ _ Ok0 a Hin Hop) as [Hh|Hnew].
  - unfold recorded in Hh. rewrite Hk, Hnone in Hh. done.
  - apply Hnew. by rewrite (key_session a b ts (gd_attempts w G a Hin) Hk).
Qed.

(** A publication found in the database is one that was staged. *)
Lemma found_receipt w b ts raw fs : Live w -> all fs w -> meta_get (db w) (receipt_key b ts) = Some raw ->
  exists a, (AttemptOk a /\ at_key a = receipt_key b ts /\ at_raw a = raw) /\ all (FReceipt a :: fs) w.
Proof.
  intros Hl Hw Hr. pose proof (lv_good w Hl) as G.
  destruct (ok_receipt _ _ _ (gd_dbs w G (db w) (lv_db w Hl)) b ts raw Hr) as (a & Hin & Hk & <-). exists a.
  split; [split; [by apply (gd_attempts w G)|done]|]. apply all_cons. split; [|done]. split; [done|]. unfold recorded. by rewrite Hk.
Qed.

Definition rows_ok (b : str) (sn : list Row) : Prop := NoDup (row_key b <$> sn) /\ forall r, r ∈ sn -> row_ok r.

Lemma h_collect cr pk b rows : forall sn failed, NoDup rows.*1 ->
  (forall key t, (CHARGE, key, t) ∈ rows -> exists ts, is_i64 ts /\ key = print_i64 ts) ->
  (forall r, r ∈ sn -> (CHARGE, print_i64 r.1.1.1) ∉ rows.*1) -> rows_ok b sn ->
  hoare None (all (row_fact b <$> sn)) (collect cr pk b rows sn failed)
    (fun o w => rows_ok b o.1 /\ all (row_fact b <$> o.1) w) (all []).
Proof.
  assert (forall w fs, all fs w -> all [] w) as Hnil by (by intros w fs _ f Hf%elem_of_nil).
  induction rows as [|[[kind key] t] rows IH]; intros sn failed Hnd Hcan Hsn Hrows; cbn [collect]; [by apply h_give|].
  cbn [fmap list_fmap fst] in Hnd, Hsn. apply NoDup_cons in Hnd as [Hni Hnd].
  assert (forall key t, (CHARGE, key, t) ∈ rows -> exists ts, is_i64 ts /\ key = print_i64 ts) as Hcan'.
  { intros k' t' Hin. apply (Hcan k' t'). by right. }
  assert (forall fl, hoare None (all (row_fact b <$> sn)) (collect cr pk b rows sn fl)
    (fun o w => rows_ok b o.1 /\ all (row_fact b <$> o.1) w) (all [])) as Hskip.
  { intros fl. apply IH; [done|done| |done]. intros r Hr Hin. apply (Hsn r Hr). by right. }
  eapply h_bind; [eapply h_conseq; [apply h_cancel|done|done|eauto]| |mono]. intros [].
  case_bool_decide as Hkind; cbn [negb]; [subst kind|apply Hskip].
  destruct (Hcan key t) as (ts & Hts & ->); [by left|]. 
  apply h_lift; [eauto|]. intros ts' Hparse. rewrite parse_print_i64 in Hparse by exact Hts. injection Hparse as <-.
  assert (receipt_key b ts ∉ row_key b <$> sn) as Hkey.
  { intros Hin. apply list_elem_of_fmap in Hin as (r & E & Hr). apply receipt_key_inj in E as [_ E]. apply (Hsn r Hr). rewrite <- E. by left. }
  eapply h_bind; [eapply h_conseq; [apply h_query|done|by intros a w _ H; exact H|eauto]| |mono]. intros [raw|]; cbv beta.
  - apply (h_bind None _ _ _ (fun _ => all (row_fact b <$> sn))); [|intros r; apply Hskip|mono].
    eapply h_conseq; [apply (h_exists None (fun a w => (AttemptOk a /\ at_key a = receipt_key b ts /\ at_raw a = raw) /\
      all (FReceipt a :: (row_fact b <$> sn)) w) _ (fun _ => all (row_fact b <$> sn)) (all []))| |done|done].
    + intros a. apply h_pure. intros (Ha & Hk & <-). rewrite <- Hk in *.
      eapply h_conseq; [apply (h_try None _ _ (fun _ => all (row_fact b <$> sn)) (all (row_fact b <$> sn)) (all [])), h_recover|done| |done].
      * done.
      * by apply apart_rows.
      * apply unjudged_rows.
      * by intros [] w.
    + intros w Hl [Hw Hr]. by apply found_receipt.
  - eapply (h_conseq None (all (FAbsent b ts :: (row_fact b <$> sn)))); [|intros w _ [Hw Hr]; apply all_cons; by split|by intros a w _ H; exact H|by intros w _ H; exact H].
    eapply h_bind; [eapply h_conseq; [apply h_query|done|by intros a w _ H; exact H|eauto]| |mono]. intros [s|]; cbv beta.
    2: { eapply h_conseq; [apply Hskip|by intros w _ [[_ Hw]%all_cons _]|done|done]. }
    destruct (sn_upload s) as [[[i wk] at_]|].
    2: { eapply h_conseq; [apply Hskip|by intros w _ [[_ Hw]%all_cons _]|done|done]. }
    destruct (0 <=? at_).
    2: { eapply h_conseq; [apply Hskip|by intros w _ [[_ Hw]%all_cons _]|done|done]. }
    set (row := (ts, t, s, (i, wk, at_))).
    eapply (h_conseq None (fun w => row_ok row /\ all (row_fact b <$> sn ++ [row]) w)); [| |by intros a w _ H; exact H|by intros w _ H; exact H].
    + apply h_pure. intros Hrow. apply IH; [done|done| |].
      * intros r [Hr|Hr%list_elem_of_singleton]%elem_of_app; [intros Hin; apply (Hsn r Hr); by right|by subst r].
      * destruct Hrows as [Hn Ho]. split.
        -- rewrite fmap_app. apply NoDup_app. split; [done|]. split; [|apply NoDup_singleton].
           intros x Hx Hx'%list_elem_of_singleton. subst x. done.
        -- intros r [Hr|Hr%list_elem_of_singleton]%elem_of_app; [by apply Ho|by subst r].
    + intros w Hl [[Habs Hw]%all_cons Hs]. destruct (snapshot_row w b ts t s Hl Habs (eq_sym Hs)) as [Hf Hok]. split; [done|].
      rewrite fmap_app. apply all_app. split; [done|]. by intros f ->%list_elem_of_singleton.
Qed.

(** The whole sweep. *)
Lemma h_push cr pk : hoare None (all []) (push cr pk) (fun _ => all []) (all []).
Proof.
  assert (forall w fs, all fs w -> all [] w) as Hnil by (by intros w fs _ f Hf%elem_of_nil).
  unfold push. eapply h_bind; [apply h_cancel| |mono]. intros []. set (b := binding cr).
  eapply h_bind; [apply h_current| |mono]. intros [].
  eapply h_bind; [apply h_query| |mono]. intros rows. cbv beta.
  eapply (h_conseq None (fun w => (NoDup rows.*1 /\ forall key t, (CHARGE, key, t) ∈ rows -> exists ts, is_i64 ts /\ key = print_i64 ts) /\ all [] w));
    [| |by intros a w _ H; exact H|by intros w _ H; exact H].
  2: { intros w Hl [Hw ->]. split; [|done]. pose proof (gd_dbs w (lv_good w Hl) (db w) (lv_db w Hl)) as Ok0. unfold dirty_mutables.
       pose proof (sort_by_perm (key_le (fun r : str * str * Z => r.2)) (map_to_list (mutable_dirty (db w)))) as Hp. split.
       - rewrite Hp. apply NoDup_fst_map_to_list.
       - intros key t Hin. rewrite Hp in Hin. apply elem_of_map_to_list in Hin. by eapply (ok_canonical _ _ _ Ok0). }
  apply h_pure. intros [Hnd Hcan].
  eapply h_bind; [apply (h_collect cr pk b rows [] false Hnd Hcan)| |mono].
  { by intros r Hr%elem_of_nil. }
  { split; [constructor|by intros r Hr%elem_of_nil]. }
  intros [sn failed]. cbn [fst]. apply h_pure. intros [Hk Hok].
  apply h_ensure; [eauto|]. intros Hids. apply bool_decide_eq_true in Hids.
  destruct (chunks_spec 200 ltac:(lia) (length sn) sn) as [Hc _]; [done|].
  apply (h_bind None _ _ _ (fun _ => all [])); [|intros fl; destruct fl; [by apply h_raise|by apply h_give]|mono].
  set (cs := chunks (length sn) 200 sn) in *. clearbody cs. subst sn. by apply h_push_chunks.
Qed.

Lemma mono_push cr pk : Mono (push cr pk).
Proof. unfold push. mono. Qed.

(** ** Runs *)

(** Sweeps, the rest of the device and the other devices in any order; a power
    cut leaves one of the databases of [kept]. The first argument tells whether
    the process lives. *)
Inductive reach : bool -> World -> Prop :=
| reach_start w : meanwhile empty_db (db w) -> kept w = [db w] -> log w = [] -> (forall op, applied (cloud w) op = false) ->
    (forall m, m ∈ moves w -> honest m) -> reach true w
| reach_sweep w cr pk : reach true w -> reach (match (push cr pk w).1 with Dead => false | _ => true end) (push cr pk w).2
| reach_others w w' : reach true w -> meanwhile (db w) (db w') -> kept w' = kept w ++ [db w'] -> log w' = log w ->
    (forall op, applied (cloud w') op = applied (cloud w) op) -> (forall m, m ∈ moves w' -> honest m) -> reach true w'
| reach_restart b w w' : reach b w -> db w' ∈ kept w -> kept w' = [db w'] -> log w' = log w ->
    (forall op, applied (cloud w') op = applied (cloud w) op) -> (forall m, m ∈ moves w' -> honest m) -> reach true w'.

Lemma Good_others w w' : Good w -> log w' = log w -> (forall op, applied (cloud w') op = applied (cloud w) op) ->
  (forall d, d ∈ kept w' -> d ∈ kept w \/ DbOk (log w) (cloud w) d) -> (forall m, m ∈ moves w' -> honest m) -> Good w'.
Proof.
  intros G El Hap Hd Hm.
  set (w0 := mkWorld (db w') (kept w') (creds w') (held w') (cloud w') [] [] [] [] [] (log w')).
  assert (Good w0) as [G1 G2 G3 G4 G5 G6 _].
  { apply (Good_quiet w w0 []); [done|cbn; by rewrite El, app_nil_r|by intros e He%elem_of_nil|done|done|by intros m Hm'%elem_of_nil]. }
  by split.
Qed.

Lemma push_live w cr pk : Live w -> NoDup (operations (log (push cr pk w).2)) ->
  match (push cr pk w).1 with Dead => Good (push cr pk w).2 | _ => Live (push cr pk w).2 end.
Proof.
  intros Hl Hn. assert (all [] w) as Hw by (by intros f Hf%elem_of_nil).
  pose proof (h_push cr pk w Hn Hl I Hw) as H. destruct (push cr pk w) as [[a|e|] w']; cbn in *; naive_solver.
Qed.

Lemma reach_good b w : reach b w -> NoDup (operations (log w)) -> Good w /\ (b = true -> Live w).
Proof.
  induction 1 as [w Hm Hk El Hap Hmv|w cr pk _ IH|w w' _ IH Hm Hk El Hap Hmv|b w w' _ IH Hin Hk El Hap Hmv]; intros Hn.
  - assert (forall b ts, meta_get (db w) (receipt_key b ts) = None) as Hnone by (intros b ts; by destruct Hm as (_ & _ & ->)).
    assert (evolves empty_db (db w)) as Hev by (apply meanwhile_evolves; [apply Inv_empty|by intros k g Hg|done]).
    assert (Good w) as G.
    { split; rewrite ?El; try by intros; exfalso; eapply not_elem_of_nil.
      - rewrite Hk. intros d Hd%list_elem_of_singleton. subst d. split; [apply Hev|apply Hev|apply Hm|..].
        + intros b ts raw Hr. by rewrite Hnone in Hr.
        + by intros a Ha%elem_of_nil.
        + by intros a Ha%elem_of_nil.
        + by intros a a2 Ha%elem_of_nil.
      - intros op Hop. by rewrite Hap in Hop.
      - done. }
    split; [done|]. intros _. split; [done|rewrite Hk; by left|]. intros b ts raw Hr. by rewrite Hnone in Hr.
  - assert (log w `prefix_of` log (push cr pk w).2) as Hp by apply (mono_push cr pk w).
    destruct (IH (prefix_NoDup _ _ Hp Hn)) as [_ Hl]. specialize (push_live w cr pk (Hl eq_refl) Hn).
    destruct (push cr pk w) as [[a|e|] w']; cbn; intros H; (split; [|done]); [apply H|apply H|exact H].
  - rewrite El in Hn. destruct (IH Hn) as [G Hl]. specialize (Hl eq_refl).
    pose proof (gd_dbs w G (db w) (lv_db w Hl)) as Ok0.
    assert (DbOk (log w) (cloud w) (db w')) as Hd.
    { eapply DbOk_evolves; [apply G|done|by apply meanwhile_evolves; [apply Ok0..|]|apply Hm|exact (proj2 (proj2 Hm))]. }
    assert (Good w') as G'.
    { apply (Good_others w); try done. rewrite Hk. intros d [?|Hd'%list_elem_of_singleton]%elem_of_app; [by left|subst; by right]. }
    split; [done|]. intros _. split; [done|rewrite Hk; apply elem_of_app; right; by left|]. rewrite Hk. destruct Hm as (_ & _ & Hr).
    intros b ts raw Hraw d [Hd'|Hd'%list_elem_of_singleton]%elem_of_app; [|by subst]. rewrite Hr in Hraw. by apply (lv_kept w Hl _ _ _ Hraw).
  - rewrite El in Hn. destruct (IH Hn) as [G _].
    assert (Good w') as G'.
    { apply (Good_others w); try done. rewrite Hk. intros d Hd%list_elem_of_singleton. subst. by left. }
    split; [done|]. intros _. split; [done|rewrite Hk; by left|]. rewrite Hk. by intros b' ts raw Hraw d ->%list_elem_of_singleton.
Qed.

(** C5: an edit reaches the cloud once. Over every sequence of sweeps, lost
    requests and answers, power cuts, concurrent local edits and writes of other
    devices: of two different requests of one pairing for one session that both
    took effect, none carries an edit of the other. So a save whose answer was
    lost is never made again after someone else undid it. (Operation identifiers
    are hashes over a random nonce; they must not repeat.) *)
Theorem edits_published_once b w a1 a2 x :
  reach b w -> NoDup (operations (log w)) -> a1 ∈ staged (log w) -> a2 ∈ staged (log w) -> a1 <> a2 ->
  pn_binding (at_pending a1) = pn_binding (at_pending a2) -> session_ts (at_pending a1) = session_ts (at_pending a2) ->
  applied (cloud w) (op_of a1) = true -> applied (cloud w) (op_of a2) = true ->
  ~ (x ∈ edits (at_intent a1) /\ x ∈ edits (at_intent a2)).
Proof.
  intros Hr Hn H1 H2 Hne Hb Hts Ho1 Ho2 [Hx1 Hx2]. destruct (reach_good b w Hr Hn) as [G _].
  apply (gd_once w G a1 a2 H1 H2 Hne) with (x := x); try done.
  rewrite (ao_key _ (gd_attempts w G a1 H1)), (ao_key _ (gd_attempts w G a2 H2)). by rewrite Hb, Hts.
Qed.

(** C7: every write of the device is a merge into the very document it
    replaces: when a request makes an operation take effect, it is one the
    device staged, the record then held a document, and the new ciphertext seals
    the staged edits merged into that document. No concurrent change of the
    document is overwritten. *)
Theorem writes_are_merges b w c r c' op :
  reach b w -> NoDup (operations (log w)) -> EWrite c r c' ∈ log w -> applied c op = false -> applied c' op = true ->
  exists a src src' doc m bytes, a ∈ staged (log w) /\ op_of a = op /\
    let p := proposed a in
    record_of c (id p) = Some src /\ opens (at_creds a) (at_pi_key a) (id p) (wrapped_key p) (src_ciphertext src) doc /\
    CloudMerge.merge_charge (at_intent a) doc = Ok m /\ value_vec m = Some bytes /\
    record_of c' (id p) = Some src' /\ src_ciphertext src' = Some (ciphertext p) /\
    opens_bytes (at_creds a) (at_pi_key a) (id p) (wrapped_key p) (ciphertext p) bytes.
Proof.
  intros Hr Hn Hin Hf Ht. destruct (reach_good b w Hr Hn) as [G _].
  destruct (gd_writes w G c r c' op Hin Hf Ht) as (a & src & src' & Ha & Hop & (doc & m & bytes & Ho & Hm & Hb & Hob) & H1 & H2 & H3 & H4).
  exists a, src, src', doc, m, bytes. cbv zeta. rewrite H2. done.
Qed.


End spec.

(** ** A concrete cloud

    Records by id, and the operations that took effect. *)
Module Demo.
Import CloudCryptoSpec.Toy.

Notation Store := (gmap (list Z) Source * list (list Z))%type.

Definition write_one (c : Store) (p : Proposal) : Store :=
  match operation_id p, c.1 !! id p with
  | Some op, Some src =>
      if negb (bool_decide (op ∈ c.2)) && bool_decide (src_version src = record_version p) && bool_decide (src_key src = wrapped_key p)
         && bool_decide (src_ciphertext src = expected_ciphertext p)
      then (<[id p := mkSource (src_version src) (src_key src) (Some (ciphertext p)) (changed_at_ms p)]> c.1, op :: c.2)
      else c
  | _, _ => c
  end.

Definition write_all (c : Store) (l : list Proposal) : Store := foldl write_one c l.

Definition done_ (c : Store) (op : list Z) : bool := bool_decide (op ∈ c.2).

Definition ack_of (c : Store) (p : Proposal) : Ack :=
  {| ack_kind := CHARGE; ack_id := id p;
     status := if match operation_id p with Some op => done_ c op | None => false end then lit "applied" else lit "conflict" |}.

#[export] Instance demo_service : Service := {|
  Cloud := Store;
  serve_state c r := mkReply true (Some {| st_ok := true; st_write_protocol := 3;
    items := (fun i => match c.1 !! i with Some src => ROk CHARGE i src | None => RNotFound CHARGE i end) <$> sq_ids r |});
  serve_write c r := let c' := write_all c (wq_items r) in
    (c', mkReply true (Some {| ak_ok := true; ak_write_protocol := 3; results := ack_of c' <$> wq_items r |}))
|}.

Lemma write_one_keeps c p op : op ∈ c.2 -> op ∈ (write_one c p).2.
Proof. unfold write_one. repeat case_match; cbn; try done. by right. Qed.

Lemma write_all_keeps l op : forall c, op ∈ c.2 -> op ∈ (write_all c l).2.
Proof. induction l as [|p l IH]; intros c H; [done|]. apply IH. by apply write_one_keeps. Qed.

Lemma write_one_other c p i : i <> id p -> (write_one c p).1 !! i = c.1 !! i.
Proof. intros H. unfold write_one. repeat case_match; cbn; try done. by rewrite lookup_insert_ne. Qed.

Lemma write_all_other l i : forall c, i ∉ id <$> l -> (write_all c l).1 !! i = c.1 !! i.
Proof.
  induction l as [|p l IH]; intros c H; [done|]. cbn [fmap list_fmap] in H. apply not_elem_of_cons in H as [H1 H2].
  change (write_all c (p :: l)) with (write_all (write_one c p) l). rewrite IH by done. by apply write_one_other.
Qed.

Lemma write_all_effect l op : forall c, NoDup (id <$> l) -> op ∉ c.2 -> op ∈ (write_all c l).2 ->
  exists p src src', p ∈ l /\ operation_id p = Some op /\ c.1 !! id p = Some src /\ src_version src = record_version p /\
    src_key src = wrapped_key p /\ src_ciphertext src = expected_ciphertext p /\
    (write_all c l).1 !! id p = Some src' /\ src_ciphertext src' = Some (ciphertext p).
Proof.
  induction l as [|p l IH]; intros c Hn Hno Hin; [done|]. cbn [fmap list_fmap] in Hn. apply NoDup_cons in Hn as [Hp Hn].
  change (write_all c (p :: l)) with (write_all (write_one c p) l) in *.
  destruct (decide (op ∈ (write_one c p).2)) as [Hone|Hone].
  - unfold write_one in Hone. destruct (operation_id p) as [o|] eqn:Eo; [|done]. destruct (c.1 !! id p) as [src|] eqn:Es; [|done].
    destruct (negb _ && _ && _ && _) eqn:Ec; [|done]. apply elem_of_cons in Hone as [->|?]; [|done].
    pose proof Ec as Ec'. rewrite !andb_true_iff, !bool_decide_eq_true in Ec. destruct Ec as [[[_ H1] H2] H3].
    exists p, src, (mkSource (src_version src) (src_key src) (Some (ciphertext p)) (changed_at_ms p)).
    split; [by left|]. split; [done|]. split; [done|]. split; [done|]. split; [done|]. split; [done|]. split; [|done].
    rewrite write_all_other by done. unfold write_one. rewrite Eo, Es, Ec'. cbn. by rewrite lookup_insert_eq.
  - destruct (IH (write_one c p) Hn Hone Hin) as (q & src & src' & Hq & Ho & Hs & H). exists q, src, src'.
    split; [by right|]. split; [done|]. split; [|done]. rewrite <- Hs. symmetry. apply write_one_other. intros E. apply Hp. rewrite <- E.
    by apply list_elem_of_fmap_2.
Qed.

#[export] Instance demo_protocol : Protocol.
Proof.
  refine {| record_of := fun (c : Cloud) i => fst (c : Store) !! i; applied := done_ |}.
  - intros c r s k i src [= <-] Hin. cbn in Hin. apply list_elem_of_fmap in Hin as (j & E & _). destruct (c.1 !! j) as [x|] eqn:Ej; [|done].
    by injection E as -> -> ->.
  - intros c r op H. unfold done_ in *. apply bool_decide_eq_true in H. apply bool_decide_eq_true. by apply write_all_keeps.
  - intros c r op Hn Hf Ht. unfold done_ in *. apply bool_decide_eq_false in Hf. apply bool_decide_eq_true in Ht. by apply write_all_effect.
  - intros c r acks a p op Hn [= <-] Ha _ Hp Hid Hop. cbn in Ha. apply list_elem_of_fmap in Ha as (q & -> & Hq). cbn [ack_id ack_of] in Hid.
    assert (q = p) as ->.
    { apply list_elem_of_lookup in Hp as (i & Hi), Hq as (j & Hj). assert (i = j) as <-; [|congruence].
      apply (NoDup_lookup (id <$> wq_items r) i j (id p)); [done|by rewrite list_lookup_fmap, Hi|rewrite list_lookup_fmap, Hj; cbn; by rewrite Hid]. }
    unfold is_applied, ack_of. cbn [status]. rewrite Hop. cbn [fst serve_write demo_service].
    destruct (done_ _ op); [by rewrite bool_decide_true|by rewrite bool_decide_false].
Defined.

(** *** A run

    Two tags are added, one after the other. The answer to the first save is
    lost and the process dies; meanwhile another device removes the tag. The
    restarted process finds its request applied and does not repeat it. *)
Definition doc (tags : list (list Z)) : Value := Object (<[lit "tags" := strings tags]> {[ lit "costOverride" := Null ]}).
Definition A : list Z := lit "A".
Definition B : list Z := lit "B".
Definition docs : list Value := [doc []; doc [A]; doc [B]].

(** A string after its length, an option after a flag. *)
Definition put (x : list Z) : list Z := Z.of_nat (length x) :: x.
Definition put_option (o : option (list Z)) : list Z := match o with Some x => 1 :: put x | None => [0] end.
Definition get (l : list Z) : option (list Z * list Z) :=
  match l with n :: t => Some (take (Z.to_nat n) t, drop (Z.to_nat n) t) | [] => None end.
Definition get_option (l : list Z) : option (option (list Z) * list Z) :=
  match l with 1 :: t => '(x, t) ← get t; Some (Some x, t) | _ :: t => Some (None, t) | [] => None end.

Lemma get_put x t : get (put x ++ t) = Some (x, t).
Proof. cbn. by rewrite Nat2Z.id, take_app_length, drop_app_length. Qed.

Lemma get_put_option o t : get_option (put_option o ++ t) = Some (o, t).
Proof. destruct o as [x|]; [|done]. cbn [put_option app get_option]. by rewrite get_put. Qed.

Definition put_pending (p : Pending) : list Z :=
  let q := proposal p in
  pn_version p :: session_ts p :: pn_uploaded_at p :: changed_at_ms q :: (if field_merge q then 1 else 0) ::
  put (pn_binding p) ++ put (kind q) ++ put (id q) ++ put (record_version q) ++ put (wrapped_key q) ++
  put_option (expected_ciphertext q) ++ put (ciphertext q) ++ put_option (operation_id q) ++ [].
Definition get_pending (l : list Z) : option Pending :=
  match l with
  | v :: ts :: up :: ch :: fm :: t =>
      '(b, t) ← get t; '(k, t) ← get t; '(i, t) ← get t; '(rv, t) ← get t; '(wk, t) ← get t;
      '(ec, t) ← get_option t; '(ct, t) ← get t; '(op, _) ← get_option t;
      Some (mkPending v b ts up (mkProposal k i rv wk ec ct ch (Z.eqb fm 1) op))
  | _ => None
  end.

#[export] Instance demo_wire : Wire := {|
  creds_vec c := pi_id c ++ print_i64 (dek_rotation_generation c);
  url_encode x := x;
  value_vec v := (fun n => [Z.of_nat n; 32]) <$> (list_find (fun d => d = v) docs ≫= fun x => Some x.1);
  value_of l := match l with [n; 32] => docs !! Z.to_nat n | _ => None end;
  identity_vec bp := replicate 31 7 ++ [changed_at_ms bp.2 mod 256];
  pending_raw := put_pending;
  pending_of := get_pending
|}.

#[export] Instance demo_wire_laws : WireLaws.
Proof.
  split. intros [v b t u [k i rv wk ec ct ch fm op]]. cbn [pending_raw pending_of demo_wire]. unfold put_pending, get_pending.
  cbn [pn_version session_ts pn_uploaded_at pn_binding proposal changed_at_ms field_merge kind id record_version wrapped_key
    expected_ciphertext ciphertext operation_id].
  repeat (rewrite ?get_put, ?get_put_option; cbn [base.mbind option_bind]). by destruct fm.
Qed.

Definition key32 : list Z := zeros 32.
Definition cr : CloudCrypto.CloudCredentialsV1 :=
  {| version := 1; user_id := lit "u"; pi_id := lit "pi"; pi_auth_token := []; wrapped_pi_key_local := [];
     long_term_x25519 := {| public_key := []; wrapped_private_key := [] |}; cloud_base_url := []; paired_at := 0; dek_rotation_generation := 0 |}.
Definition cid : list Z := replicate 64 97.
Definition blob (nonce : Z) (body : list Z) : list Z := pack (replicate 12 nonce) (zeros 16) body.
Definition wkey : list Z := blob 1 key32.
Definition source (ct : option (list Z)) : Source := mkSource (replicate 64 98) wkey ct 5.

Definition sealed_doc (nonce n : Z) : list Z := blob nonce [n; 32].

Definition ok_db {E} (r : result E Db) : Db := match r with Ok d => d | Err _ => empty_db end.
Definition db1 : Db := charge_upload_mark empty_db 1700 cid wkey 5.
Definition db2 : Db := ok_db (set_charge_tags 1000 db1 1700 [A]).

Definition world (d : Db) (k : list Db) (c : Store) (n : list NetFault) (m : list Move) (l : list Event) : World :=
  mkWorld d k (Some cr) false c m n [] (Some <$> [replicate 12 2]) [] l.
Definition idle : Move := mkMove (fun d => d) (fun c => c) (fun c => c) false.
Definition dies : Move := mkMove (fun d => d) (fun c => c) (fun c => c) true.

Definition cloud0 : Store := ({[ cid := source None ]}, []).
Definition w0 : World := world db2 [db2] cloud0 [Answered; ReplyLost] (replicate 12 idle ++ [dies]) [].
Definition w1 : World := (push cr key32 w0).2.

(** The process starts again, another device having replaced the document;
    an edit of the rest of the device. *)
Definition replaced (c : Store) (n : Z) : Store := (<[cid := source (Some (sealed_doc 9 n))]> c.1, c.2).
Definition restarted (w : World) : World := world (db w) [db w] (replaced (cloud w) 0) [] [] (log w).
Definition edited (w : World) (d : Db) : World := world d (kept w ++ [d]) (cloud w) [] [] (log w).

Definition w3 : World := (push cr key32 (restarted w1)).2.
Definition db3 : Db := ok_db (set_charge_tags 2000 (db w3) 1700 [B]).
Definition w5 : World := (push cr key32 (edited w3 db3)).2.

(** One queued charge, and nothing kept but the clock. *)
Definition one_row (d : Db) : Prop :=
  (exists g, mutable_dirty d = {[ charge_key 1700 := g ]}) /\ exists c, meta d = {[ CLOCK := c ]}.

Lemma one_row_canonical d : one_row d -> i64_keys d.
Proof.
  intros [(g & E) _] key g' H. rewrite E in H. apply lookup_singleton_Some in H as [H _]. exists 1700.
  split; [unfold is_i64, I64_MAX; lia|]. by injection H as <-.
Qed.

Lemma one_row_receipts d b ts : one_row d -> meta_get d (receipt_key b ts) = None.
Proof. intros [_ (c & E)]. unfold meta_get. rewrite E. apply lookup_singleton_ne. intros H. by apply (receipt_not_clock b ts). Qed.

Definition succeeds {E T} (r : result E T) : bool := match r with Ok _ => true | Err _ => false end.

Lemma tag_step now d tags : is_i64 now -> succeeds (set_charge_tags now d 1700 tags) = true ->
  step (fun _ => None) (fun x => x) d (ok_db (set_charge_tags now d 1700 tags)).
Proof.
  intros Hn H. destruct (set_charge_tags now d 1700 tags) as [d'|] eqn:E; [|done]. by eapply (st_tags _ _ d d' now 1700 tags true).
Qed.

Ltac row := split; eexists; vm_compute; reflexivity.

Lemma db2_meanwhile : meanwhile empty_db db2.
Proof.
  assert (one_row db2) as Hr by row. split; [|split].
  - exists (fun _ => None), (fun x => x). eapply rtc_l; [by apply (st_mark_upload _ _ _ db1 1700 cid wkey 5)|]. apply rtc_once.
    apply tag_step; [unfold is_i64, I64_MAX; lia|by vm_compute].
  - by apply one_row_canonical.
  - intros b ts. by rewrite one_row_receipts.
Qed.

Lemma db3_meanwhile : meanwhile (db w3) db3.
Proof.
  assert (one_row db3) as Hr by row. split; [|split].
  - exists (fun _ => None), (fun x => x). apply rtc_once. apply tag_step; [unfold is_i64, I64_MAX; lia|by vm_compute].
  - by apply one_row_canonical.
  - intros b ts. rewrite one_row_receipts by done.
    assert (exists c, meta (db w3) = {[ CLOCK := c ]}) as (c & E) by (eexists; vm_compute; reflexivity).
    unfold meta_get. rewrite E. symmetry. apply lookup_singleton_ne. intros H. by apply (receipt_not_clock b ts).
Qed.

Lemma idle_honest m : m ∈ replicate 12 idle ++ [dies] -> honest m.
Proof.
  intros Hm. assert (m = idle \/ m = dies) as Hi.
  { apply elem_of_app in Hm as [Hm|Hm%list_elem_of_singleton]; [left|by right]. by apply elem_of_replicate in Hm as [-> _]. }
  split; [|by destruct Hi; subst]. intros d Hv Hc Hn. assert (mv_db m d = d) as -> by (by destruct Hi; subst). split; [|done].
  exists (fun _ => None), (fun x => x). apply rtc_refl.
Qed.

Lemma no_moves m : m ∈ @nil Move -> honest m.
Proof. by intros H%elem_of_nil. Qed.

(** How a sweep ended. *)
Definition lives {T} (o : Out T) : bool := match o with Dead => false | _ => true end.

Lemma swept w b : lives (push cr key32 w).1 = b -> reach true w -> reach b (push cr key32 w).2.
Proof. intros <-. apply reach_sweep. Qed.

Lemma w1_reach : reach false w1.
Proof.
  apply swept; [vm_compute; reflexivity|]. apply reach_start; [apply db2_meanwhile|reflexivity|reflexivity|reflexivity|apply idle_honest].
Qed.

Lemma restarted_reach b w : last (kept w) = Some (db w) -> reach b w -> reach true (restarted w).
Proof. intros Hk Hr. apply (reach_restart b w); try done; [by apply last_Some_elem_of|apply no_moves]. Qed.

Lemma edited_reach w d : meanwhile (db w) d -> reach true w -> reach true (edited w d).
Proof. intros Hm Hr. apply (reach_others w); try done. apply no_moves. Qed.

Lemma w3_reach : reach true w3.
Proof.
  apply swept; [vm_compute; reflexivity|]. apply (restarted_reach false); [vm_compute; reflexivity|apply w1_reach].
Qed.

Lemma w5_reach : reach true w5.
Proof. apply swept; [vm_compute; reflexivity|]. apply edited_reach; [apply db3_meanwhile|apply w3_reach]. Qed.

(** The other device's document stands. *)
Example w3_not_repeated : record_of (cloud w3) cid = Some (source (Some (sealed_doc 9 0))).
Proof. vm_compute. reflexivity. Qed.

Lemma w5_operations : NoDup (operations (log w5)).
Proof. apply (bool_decide_unpack _). vm_compute. exact I. Qed.

(** The two attempts, the edit of the first, its write and its confirmation. *)
Definition unused : Attempt := mkAttempt cr [] {| legacy := false; edits := [] |} (mkPending 0 [] 0 0 (mkProposal [] [] [] [] None [] 0 true None)) [] [].
Definition attempt (n : nat) : Attempt := default unused (staged (log w5) !! n).
Definition first_edit : Z * Edit := default (0, Tags [] []) (head (edits (at_intent (attempt 0)))).
Definition sent_write : Store * WriteRequest * Store :=
  match log w5 !! 2%nat with Some (EWrite c r c') => (c, r, c') | _ => (cloud0, {| wq_pi := []; wq_generation := 0; wq_items := [] |}, cloud0) end.
Definition settled : option CloudCrypto.CloudCredentialsV1 * Z * Db * Db :=
  match log w5 !! 6%nat with Some (EConfirmed pr ts d d') => (pr, ts, d, d') | _ => (None, 0, empty_db, empty_db) end.

Lemma edits_published_once_witness :
  first_edit ∈ edits (at_intent (attempt 0)) /\ first_edit ∉ edits (at_intent (attempt 1)).
Proof.
  assert (first_edit ∈ edits (at_intent (attempt 0))) as Hx by (apply list_elem_of_lookup; exists 0%nat; vm_compute; reflexivity).
  split; [exact Hx|]. intros Hx'. refine (edits_published_once true w5 (attempt 0) (attempt 1) first_edit w5_reach w5_operations
    _ _ _ _ _ _ _ (conj Hx Hx')).
  - apply (list_elem_of_lookup_2 _ 0%nat). vm_compute. reflexivity.
  - apply (list_elem_of_lookup_2 _ 1%nat). vm_compute. reflexivity.
  - intros H%(f_equal op_of). revert H. vm_compute. discriminate.
  - vm_compute. reflexivity.
  - vm_compute. reflexivity.
  - vm_compute. reflexivity.
  - vm_compute. reflexivity.
Defined.

Lemma writes_are_merges_witness : exists a doc m, a ∈ staged (log w5) /\ op_of a = op_of (attempt 0) /\
  CloudMerge.merge_charge (at_intent a) doc = Ok m.
Proof.
  destruct (writes_are_merges true w5 sent_write.1.1 sent_write.1.2 sent_write.2 (op_of (attempt 0)) w5_reach w5_operations)
    as (a & src & src' & doc & m & bytes & Ha & Hop & _ & _ & Hm & _).
  - apply (list_elem_of_lookup_2 _ 2%nat). vm_compute. reflexivity.
  - vm_compute. reflexivity.
  - vm_compute. reflexivity.
  - exists a, doc, m. exact (conj Ha (conj Hop Hm)).
Defined.


End Demo.
