(* ===== verification/IncomingQueue.v ===== *)
(** * Incoming changes: the revision walk of [cloud_uploader/src/sync/revision.rs]
      and the retry queue of [sync/incoming_retry.rs]

    The cloud lists changed records page by page. [validate] checks a page against
    the walk so far; [resume_valid] a walk saved earlier. Records that could not be
    applied are kept in the [meta] table, to be read afresh later. *)

From Stdlib Require Import ZArith Lia.
From stdpp Require Import base gmap list countable.
From S2P Require Import Prelude Str Json MutableQueue CloudCrypto ChargePush.

Import CloudCrypto MutableQueue.
Open Scope Z_scope.

Module IncomingQueue.

Notation str := (list Z) (only parsing).

Inductive Kind := Charge | RateConfig | Route.

#[export] Instance kind_eq_dec : EqDecision Kind.
Proof. solve_decision. Defined.

Definition name (k : Kind) : str :=
  match k with Charge => lit "charge" | RateConfig => lit "rateConfig" | Route => lit "route" end.

(** The derived order. *)
Definition kind_index (k : Kind) : Z := match k with Charge => 0 | RateConfig => 1 | Route => 2 end.

#[export] Instance kind_countable : Countable Kind.
Proof.
  apply (inj_countable' kind_index (fun z => if z =? 0 then Charge else if z =? 1 then RateConfig else Route)). by intros [].
Defined.

Record Target := mkTarget { tg_kind : Kind; tg_id : str }.

#[export] Instance target_eq_dec : EqDecision Target.
Proof. solve_decision. Defined.
#[export] Instance target_countable : Countable Target.
Proof. apply (inj_countable' (fun t => (tg_kind t, tg_id t)) (fun p => mkTarget p.1 p.2)). by intros []. Defined.

Record Item := mkItem {
  it_kind : Kind;
  it_id : str;
  it_revision : str;
  it_updated_at_ms : Z;
  it_ciphertext : option str;
  it_wrapped_key : option str
}.

Definition target (i : Item) : Target := mkTarget (it_kind i) (it_id i).

Record Page := mkPage {
  pg_ok : bool;
  pg_items : list Item;
  next_cursor : option str;
  sync_version : Z;
  sync_revision : str
}.

Record Checkpoint := { cp_version : Z; cp_binding : str; cp_revision : str }.

Notation Order := (Z * Kind * list Z)%type.

Record Walk := mkWalk {
  since : option str;
  checkpoint : option str;
  cursor : option str;
  last : option Order
}.

Record SavedWalk := { sw_version : Z; sw_binding : str; sw_base : option str; sw_walk : Walk }.
Record Retry := { rt_version : Z; rt_binding : str; rt_target : Target; rt_nonce : str }.
Record Entry := mkEntry { en_key : str; en_raw : str; en_target : Target }.

(** What serde encodes. *)
Class FeedWire := {
  checkpoint_raw : Checkpoint -> str;
  checkpoint_of : str -> option Checkpoint;
  saved_raw : SavedWalk -> str;
  saved_of : str -> option SavedWalk;
  retry_raw : Retry -> str;
  retry_of : str -> option Retry
}.

Inductive PullError :=
| EDb (e : DbError) | ESqlite | ENotPaired | EPairingChanged | ECancelled | EHttp | EBody | ERejected | EReset
| ERevision | EPage | ERegressed | ECheckpointChanged | ECursor | ETimestamp | EOutside | EOrderStuck | EForeign
| EMissing | ERecordId | EEnvelope | EProgress | EGenerationRange | EGenerationChanged | ENonce | EUnreadable | EIdentity
| ETarget | ERoutesHere | ESealed (e : SealError) | EStore | EIncomplete | EUnexpected | EUnavailable | ERemaining | ERunning.

Definition envelope (r : result ChargePush.PushError unit) : result PullError unit :=
  match r with Ok _ => Ok tt | Err _ => Err EEnvelope end.

(** ** [revision.rs] *)

Definition CHECKPOINT_KEY : str := lit "cloud_mutable_revision_checkpoint_v2".
Definition WALK_KEY : str := lit "cloud_mutable_revision_walk_v2".

Definition is_digit (b : Z) : bool := (48 <=? b) && (b <=? 57).

Definition revision (value : str) : result PullError Z :=
  if negb (is_empty value) && (length value <=? 19)%nat && forallb is_digit value
     && (bool_decide (value = lit "0") || negb (bool_decide (head value = Some 48)))
  then ok_or (parse_i64 value) ERevision else Err ERevision.

Definition is_alphanumeric (b : Z) : bool := is_digit b || ((65 <=? b) && (b <=? 90)) || ((97 <=? b) && (b <=? 122)).

Definition cursor_ok (c : str) : bool :=
  negb (is_empty c) && (length c <=? 2048)%nat && forallb (fun b => is_alphanumeric b || (b =? 95) || (b =? 45)) c.

(** [<] on the tuples. *)
Definition order_lt (a b : Order) : bool :=
  let '(r, k, i) := a in let '(r', k', i') := b in
  (r <? r') || ((r =? r') && ((kind_index k <? kind_index k')
    || ((kind_index k =? kind_index k') && (str_leb i i' && negb (bool_decide (i = i')))))).

Definition resume_valid (walk : Walk) (pi_id : str) : bool :=
  match cursor walk with
  | None => false
  | Some c =>
      if negb (cursor_ok c) then false
      else match checkpoint walk ≫= fun v => match revision v with Ok r => Some r | Err _ => None end with
      | None => false
      | Some checkpoint =>
          match last walk with
          | None => false
          | Some (at_, kind, id) =>
              if (if bool_decide (kind = RateConfig) then negb (bool_decide (id = pi_id)) else negb (ChargePush.hex_id id)) then false
              else match since walk with
                   | Some value => match revision value with
                                   | Ok since => (since <=? checkpoint) && ((since <? at_) && (at_ <=? checkpoint))
                                   | Err _ => false
                                   end
                   | None => at_ =? 0
                   end
          end
      end
  end.

Definition new_walk (since : option str) : Walk := mkWalk since None None None.

Definition path (w : Walk) : str :=
  lit "/api/pi/sync/changes/v2?limit=200"
  ++ match since w with Some s => lit "&since=" ++ s | None => [] end
  ++ match cursor w with Some c => lit "&cursor=" ++ c | None => [] end.

Section walk.
Context `{!Base64}.

Definition check_that (b : bool) (e : PullError) : result PullError unit := if b then Ok tt else Err e.

Definition item_order (since : option str) (at_ : Z) (i : Item) : Order :=
  (if bool_decide (is_Some since) then at_ else 0, it_kind i, it_id i).

(** One item of a page: the new [last]. *)
Definition validate_item (since : option str) (checkpoint : Z) (pi_id : str) (last : option Order) (i : Item)
    : result PullError Order :=
  let? at_ := revision (it_revision i) in
  let? _ := check_that ((0 <=? it_updated_at_ms i) && (it_updated_at_ms i <=? ChargePush.MAX_MS)) ETimestamp in
  let? _ := match since with
            | Some s => let? s := revision s in check_that ((s <? at_) && (at_ <=? checkpoint)) EOutside
            | None => Ok tt
            end in
  let order := item_order since at_ i in
  let? _ := check_that (match last with Some l => order_lt l order | None => true end) EOrderStuck in
  let? _ := if bool_decide (it_kind i = RateConfig)
            then
              let? _ := check_that (bool_decide (it_id i = pi_id) && negb (bool_decide (is_Some (it_wrapped_key i)))) EForeign in
              let? ct := ok_or (it_ciphertext i) EMissing in
              envelope (ChargePush.valid_envelope ct 16384 None)
            else
              let? _ := check_that (ChargePush.hex_id (it_id i)) ERecordId in
              let? wk := ok_or (it_wrapped_key i) EMissing in
              let? _ := envelope (ChargePush.valid_envelope wk 61 (Some 61%nat)) in
              match it_ciphertext i with Some ct => envelope (ChargePush.valid_envelope ct 2048 None) | None => Ok tt end in
  Ok order.

Fixpoint validate_items (since : option str) (checkpoint : Z) (pi_id : str) (last : option Order) (l : list Item)
    : result PullError (option Order) :=
  match l with
  | [] => Ok last
  | i :: t => let? o := validate_item since checkpoint pi_id last i in validate_items since checkpoint pi_id (Some o) t
  end.

Definition validate (w : Walk) (page : Page) (pi_id : str) : result PullError Walk :=
  let? _ := check_that (pg_ok page && (sync_version page =? 2) && (length (pg_items page) <=? 200)%nat) EPage in
  let? c := revision (sync_revision page) in
  let? _ := match since w with
            | Some s => let? s := revision s in check_that (s <=? c) ERegressed
            | None => Ok tt
            end in
  let? _ := match checkpoint w with
            | Some previous => check_that (bool_decide (previous = sync_revision page)) ECheckpointChanged
            | None => Ok tt
            end in
  let? _ := match next_cursor page with
            | Some cu => check_that (negb (is_empty (pg_items page)) && cursor_ok cu && negb (bool_decide (cursor w = Some cu))) ECursor
            | None => Ok tt
            end in
  let? last := validate_items (since w) c pi_id (last w) (pg_items page) in
  Ok (mkWalk (since w) (Some (sync_revision page)) (next_cursor page) last).

End walk.

Section queue.
Context `{!FeedWire}.

(** Where [pull_feed] starts: the checkpoint of this pairing, and a saved walk
    that belongs to it. *)
Definition since_of (binding : str) (initial : option str) : option str :=
  raw ← initial; c ← checkpoint_of raw;
  if (cp_version c =? 2) && bool_decide (cp_binding c = binding) && match revision (cp_revision c) with Ok _ => true | Err _ => false end
  then Some (cp_revision c) else None.

Definition start_walk (binding pi_id : str) (initial saved : option str) : Walk :=
  let s := since_of binding initial in
  match saved ≫= saved_of with
  | Some r =>
      if (sw_version r =? 1) && bool_decide (sw_binding r = binding) && bool_decide (sw_base r = initial)
         && (negb (bool_decide (is_Some (since (sw_walk r)))) || bool_decide (since (sw_walk r) = s)) && resume_valid (sw_walk r) pi_id
      then sw_walk r else new_walk s
  | None => new_walk s
  end.

(** ** [incoming_retry.rs] *)

Definition prefix (binding : str) : str := lit "cloud_incoming_retry_v2:" ++ binding ++ lit ":".
Definition cursor_key (binding : str) : str := lit "cloud_incoming_retry_cursor_v2:" ++ binding.
Definition generation_key (binding : str) : str := lit "cloud_incoming_retry_generation_v2:" ++ binding.
Definition key (binding : str) (t : Target) : str := prefix binding ++ name (tg_kind t) ++ lit ":" ++ tg_id t.

Definition generation (d : Db) (binding : str) : result PullError Z :=
  match meta_get d (generation_key binding) with
  | Some raw => ok_or (parse_i64 raw) EGenerationRange
  | None => Ok 0
  end.

Definition bump_generation (d : Db) (binding : str) : result PullError Db :=
  let? g := generation d binding in
  if g + 1 <=? I64_MAX then Ok (meta_set d (generation_key binding) (print_i64 (g + 1))) else Err EGenerationRange.

(** [record], with the outcome of the random generator. *)
Definition record (nonce : option (list Z)) (binding : str) (failed done_ : list Target) (d : Db) : result PullError Db :=
  let? n := ok_or nonce ENonce in
  let d := foldl (fun d t =>
             meta_set d (key binding t)
               (retry_raw {| rt_version := 1; rt_binding := binding; rt_target := t; rt_nonce := hex_encode n |})) d failed in
  let d := foldl (fun d t => meta_del d (key binding t)) d done_ in
  if negb (is_empty failed) || negb (is_empty done_) then bump_generation d binding else Ok d.

(** [key>=?1 AND key<?2]. *)
Definition str_lt (a b : str) : bool := str_leb a b && negb (bool_decide (a = b)).
Definition in_range (start stop k : str) : bool := str_leb start k && str_lt k stop.

(** The rows after a key, in order, a hundred at most. *)
Definition row_leb (a b : str * str) : bool := str_leb a.1 b.1.
Definition rows_after (d : Db) (binding after : str) : list (str * str) :=
  let start := prefix binding in
  take 100 (sort_by row_leb (List.filter (fun r : str * str => in_range start (start ++ lit "~") r.1 && str_lt after r.1)
    (map_to_list (meta d)))).

Definition entry_of (binding : str) (r : str * str) : result PullError Entry :=
  let? parsed := ok_or (retry_of r.2) EUnreadable in
  let? _ := check_that ((rt_version parsed =? 1) && bool_decide (rt_binding parsed = binding)
                        && bool_decide (key binding (rt_target parsed) = r.1)) EIdentity in
  let t := rt_target parsed in
  let? _ := check_that (if bool_decide (tg_kind t = RateConfig)
                        then negb (is_empty (tg_id t)) && (length (tg_id t) <=? 64)%nat
                        else ChargePush.hex_id (tg_id t)) ETarget in
  Ok (mkEntry r.1 r.2 t).

Fixpoint collect_ok {A B} (f : A -> result PullError B) (l : list A) : result PullError (list B) :=
  match l with
  | [] => Ok []
  | x :: t => let? y := f x in let? ys := collect_ok f t in Ok (y :: ys)
  end.

Definition entry_rows (d : Db) (binding : str) : list (str * str) :=
  let rows := rows_after d binding (default [] (meta_get d (cursor_key binding))) in
  if is_empty rows then rows_after d binding [] else rows.

Definition entries (d : Db) (binding : str) : result PullError (list Entry) :=
  collect_ok (entry_of binding) (entry_rows d binding).

Definition current (d : Db) (e : Entry) : bool := bool_decide (meta_get d (en_key e) = Some (en_raw e)).

Definition complete (d : Db) (binding : str) (e : Entry) : result PullError Db :=
  if current d e then bump_generation (meta_del d (en_key e)) binding else Ok d.

Definition advance (d : Db) (binding : str) (last : Entry) : Db := meta_set d (cursor_key binding) (en_key last).

Definition count (d : Db) (binding : str) : nat :=
  let start := prefix binding in
  length (List.filter (fun r : str * str => in_range start (start ++ lit "~") r.1) (map_to_list (meta d))).

End queue.

End IncomingQueue.
