(* ===== verification/IncomingPull.v ===== *)
(** * Pulling changes: [cloud_uploader/src/sync/{revision,incoming_apply}.rs] and
      [apply_change_page] of [sync.rs]

    A pull first retries the records kept from earlier pulls, then walks the feed:
    it reads a page, applies its records one by one, and saves the position
    together with the records that failed.

    The task runs among others as in [ChargePush]: before each of its steps the
    next of [moves] happens. [Disk] is what a power cut takes back: the tables, and
    beside them, for the theorems, [seen], the revision of each record the device
    last dealt with. The cloud is the class [Feed]; the rate preferences and the
    drive tags, components of their own, are the class [Local]. *)

From Stdlib Require Import ZArith Lia.
From stdpp Require Import base gmap list.
From S2P Require Import Prelude Effects Str Json MutableQueue CloudCrypto Charging ChargePush IncomingQueue.

Import Json CloudCrypto MutableQueue IncomingQueue.
Open Scope Z_scope.
Open Scope task_scope.

Module IncomingPull.

Notation str := (list Z) (only parsing).
Notation Creds := CloudCrypto.CloudCredentialsV1.

(** The answer to a page request: a success with its body once it decodes, a
    conflict with its body, or any other status. *)
Inductive PageReply := PageOk (body : option Page) | PageConflict (body : option Value) | PageRejected.

Record TargetsRequest := { tq_pi : str; tq_generation : Z; tq_items : list (str * str) }.

Class Feed := {
  Cloud : Type;
  serve_page : Cloud -> Creds -> str -> PageReply;
  serve_targets : Cloud -> Creds -> TargetsRequest -> ChargePush.Reply Value
}.

(** [RateConfigAccess::store_doc] and [route_pull]: a preparation fails with
    whether the cloud was unreachable. *)
Class Local `{!Feed} := {
  Side : Type;
  has_rates : bool;
  store_doc : Side -> Db -> Value -> Z -> bool * (Side * Db);
  Projection : Type;
  prepare : Side -> Db -> Cloud -> Creds -> list Z -> list str -> result bool (option Projection);
  apply_projection : Side -> Db -> Projection -> bool * (Side * Db)
}.

(** The revision of a record, for the theorems. *)
Class Revisions `{!Feed} := { rev_of : Cloud -> str -> Target -> option Z; head_of : Cloud -> str -> Z }.

Section pull.
Context `{Ae : !Aead, Ba : !Base64, Hs : !Hashes, Wi : !ChargePush.Wire, FW : !FeedWire, Fe : !Feed, Lo : !Local, Re : !Revisions}.

(** ** The machine *)

Record Disk := mkDisk { tables : Db; seen : gmap (str * Target) Z }.

Record Move := mkMove {
  mv_db : Db -> Db;
  mv_creds : option Creds -> option Creds;
  mv_cloud : Cloud -> Cloud;
  mv_side : Side -> Side;
  mv_dies : bool
}.

Record World := mkWorld {
  disk : Disk;
  kept : list Disk;
  creds : option Creds;
  held : bool;
  cloud : Cloud;
  side : Side;
  moves : list Move;
  net : list bool;
  tx_faults : list ChargePush.TxFault;
  nonces : list (option (list Z));
  cancels : list bool
}.

Definition M (A : Type) : Type := Task World PullError A.

Definition set_disk (w : World) d := mkWorld d (kept w ++ [d]) (creds w) (held w) (cloud w) (side w) (moves w) (net w) (tx_faults w) (nonces w) (cancels w).
Definition set_held (w : World) h := mkWorld (disk w) (kept w) (creds w) h (cloud w) (side w) (moves w) (net w) (tx_faults w) (nonces w) (cancels w).
Definition set_side (w : World) s := mkWorld (disk w) (kept w) (creds w) (held w) (cloud w) s (moves w) (net w) (tx_faults w) (nonces w) (cancels w).
Definition set_net (w : World) n := mkWorld (disk w) (kept w) (creds w) (held w) (cloud w) (side w) (moves w) n (tx_faults w) (nonces w) (cancels w).
Definition set_tx (w : World) t := mkWorld (disk w) (kept w) (creds w) (held w) (cloud w) (side w) (moves w) (net w) t (nonces w) (cancels w).
Definition set_nonces (w : World) n := mkWorld (disk w) (kept w) (creds w) (held w) (cloud w) (side w) (moves w) (net w) (tx_faults w) n (cancels w).
Definition set_cancels (w : World) c := mkWorld (disk w) (kept w) (creds w) (held w) (cloud w) (side w) (moves w) (net w) (tx_faults w) (nonces w) c.

Definition with_tables (d : Disk) (t : Db) : Disk := mkDisk t (seen d).

(** The others' next move; a pairing does not change while its lock is held. *)
Definition moved (m : Move) (w : World) : World :=
  let d := with_tables (disk w) (mv_db m (tables (disk w))) in
  mkWorld d (kept w ++ [d]) (if held w then creds w else mv_creds m (creds w)) (held w) (mv_cloud m (cloud w))
    (mv_side m (side w)) (tail (moves w)) (net w) (tx_faults w) (nonces w) (cancels w).
Definition tick : M unit := fun w =>
  match moves w with
  | [] => (Ret tt, w)
  | m :: _ => (if mv_dies m then Dead else Ret tt, moved m w)
  end.

Definition check_archive_cancelled : M unit := fun w =>
  (if default false (head (cancels w)) then Throw ECancelled else Ret tt, set_cancels w (tail (cancels w))).

Definition nonce16 : M (option (list Z)) := fun w =>
  (Ret (resize 16 0 <$> default None (head (nonces w))), set_nonces w (tail (nonces w))).

(** [with_locked_conn]: a query, or a transaction that may be lost until the
    next flush. *)
Definition query {A} (q : Db -> result PullError A) : M A :=
  do _ ← tick;
  fun w =>
    (match head (tx_faults w) with
     | Some ChargePush.TxRolledBack => Throw ESqlite
     | _ => match q (tables (disk w)) with Ok a => Ret a | Err e => Throw e end
     end, set_tx w (tail (tx_faults w))).

Definition transaction (f : Db -> result PullError Db) : M unit :=
  do _ ← tick;
  fun w =>
    let w0 := set_tx w (tail (tx_faults w)) in
    match head (tx_faults w) with
    | Some ChargePush.TxRolledBack => (Throw ESqlite, w0)
    | fault =>
        match f (tables (disk w)) with
        | Err e => (Throw e, w0)
        | Ok t => (match fault with Some ChargePush.TxCut => Dead | _ => Ret tt end, set_disk w0 (with_tables (disk w) t))
        end
    end.

(** For the theorems: the record was dealt with as the cloud [c] had it, that is,
    applied or rightly passed over (a charge this device does not have, or one
    with edits of its own still to be sent). *)
Definition mark_seen (binding : str) (c : Cloud) (t : Target) : M unit := fun w =>
  (Ret tt,
   match rev_of c binding t with
   | Some r => set_disk w (mkDisk (tables (disk w)) (<[(binding, t) := Z.max r (default r (seen (disk w) !! (binding, t)))]> (seen (disk w))))
   | None => w
   end).

(** A request, with the cloud that answered it. *)
Definition request {A} (serve : Cloud -> A) : M (Cloud * A) :=
  do _ ← tick;
  fun w => (if default true (head (net w)) then Ret (cloud w, serve (cloud w)) else Throw EHttp, set_net w (tail (net w))).

(** [current_pairing], the guard kept while [m] runs. *)
Definition with_pairing {A} (expected : str) (m : M A) : M A :=
  do _ ← tick;
  fun w =>
    match ChargePush.check_pairing (creds w) expected with
    | Err _ => (Throw (if creds w is Some _ then EPairingChanged else ENotPaired), w)
    | Ok _ => let (r, w') := m (set_held w true) in (r, set_held w' false)
    end.
Definition current_pairing (expected : str) : M unit := with_pairing expected (mret tt).

Definition in_db {A} (r : result DbError A) : result PullError A :=
  match r with Ok a => Ok a | Err e => Err (EDb e) end.
Definition sealed {A} (r : result SealError A) : result PullError A :=
  match r with Ok a => Ok a | Err e => Err (ESealed e) end.

(** ** [sync.rs]: records other than routes *)

Record ChargeChange := mkChargeChange { cc_id : str; cc_ciphertext : option str; cc_wrapped_key : str; cc_updated_at_ms : Z }.
Record RateConfigChange := mkRateChange { rc_ciphertext : option str; rc_updated_at_ms : Z }.
Record ChangesResponse := mkChanges { routes : list str; charges : list ChargeChange; rate_config_change : option RateConfigChange }.

(** [revision::changes]; [None] is the panic of [unwrap]. *)
Definition add_change (c : ChangesResponse) (i : Item) : option ChangesResponse :=
  match it_kind i with
  | Route => Some (mkChanges (routes c ++ [it_id i]) (charges c) (rate_config_change c))
  | Charge => k ← it_wrapped_key i;
      Some (mkChanges (routes c) (charges c ++ [mkChargeChange (it_id i) (it_ciphertext i) k (it_updated_at_ms i)]) (rate_config_change c))
  | RateConfig => Some (mkChanges (routes c) (charges c) (Some (mkRateChange (it_ciphertext i) (it_updated_at_ms i))))
  end.
Definition changes (items : list Item) : option ChangesResponse :=
  foldl (fun acc i => c ← acc; add_change c i) (Some (mkChanges [] [] None)) items.

(** The row found through the index on the cloud id: the oldest session. *)
Definition charge_session_ts_for_cloud_id (d : Db) (cloud_charge_id : str) : option Z :=
  head (sort_by Z.leb (omap (fun kv : Z * (str * str * Z) => if bool_decide (kv.2.1.1 = cloud_charge_id) then Some kv.1 else None)
    (map_to_list (charge_uploads d)))).

Definition open_mutable (creds : Creds) (id : str) (key ct : list Z) : M ChargePush.ChargeMutable :=
  do aad ← no_panic (charge_mutable (user_id creds) (pi_id creds) id);
  lift (sealed (open_json_b64 (fun bytes => ChargePush.value_of bytes ≫= ChargePush.charge_mutable_of) key aad ct)).

Definition apply_charge_change (creds : Creds) (pi_key : list Z) (dirty : list (str * str * Z)) (cc : ChargeChange) : M unit :=
  do ts ← query (fun d => Ok (charge_session_ts_for_cloud_id d (cc_id cc)));
  match ts with
  | None => mret tt
  | Some ts =>
      if existsb (fun r => bool_decide (r.1 = (CHARGE, print_i64 ts))) dirty then mret tt
      else
        do key_aad ← no_panic (CloudCrypto.charge_key (user_id creds) (pi_id creds) (cc_id cc));
        do charge_key ← lift (sealed (unwrap_content_key pi_key (cc_wrapped_key cc) key_aad));
        do mutable ← (match cc_ciphertext cc with
                      | None => mret {| ChargePush.cm_tags := []; ChargePush.cm_cost := None; ChargePush.cm_at_home := None |}
                      | Some ct => open_mutable creds (cc_id cc) charge_key ct
                      end);
        transaction (fun d => in_db (apply_charge_mutable_from_sync d ts (cc_id cc) (cc_wrapped_key cc)
          (Charging.strip_reserved_tags (ChargePush.cm_tags mutable)) (ChargePush.cm_cost mutable)))
  end.

Fixpoint apply_charges (creds : Creds) (pi_key : list Z) (dirty : list (str * str * Z)) (l : list ChargeChange) : M unit :=
  match l with
  | [] => mret tt
  | cc :: t => do _ ← apply_charge_change creds pi_key dirty cc; apply_charges creds pi_key dirty t
  end.

(** Work of another component on the database. *)
Definition delegate (f : Side -> Db -> bool * (Side * Db)) : M unit :=
  do _ ← tick;
  fun w => let '(ok, (s, t)) := f (side w) (tables (disk w)) in
           (if ok then Ret tt else Throw EStore, set_disk (set_side w s) (with_tables (disk w) t)).

Definition apply_rate_change (creds : Creds) (pi_key : list Z) (dirty : list (str * str * Z)) (rc : RateConfigChange) : M unit :=
  match rc_ciphertext rc with
  | Some ct =>
      if negb has_rates then mret tt
      else if existsb (fun r => bool_decide (r.1 = (RATE, [])) && (rc_updated_at_ms rc <? r.2)) dirty then mret tt
      else
        do aad ← no_panic (rate_config (user_id creds) (pi_id creds));
        do doc ← lift (sealed (open_json_b64 ChargePush.value_of pi_key aad ct));
        delegate (fun s d => store_doc s d doc (rc_updated_at_ms rc))
  | None => mret tt
  end.

Definition apply_change_page (creds : Creds) (pi_key : list Z) (parsed : ChangesResponse) : M unit :=
  do _ ← ensure (is_empty (routes parsed)) ERoutesHere;
  do dirty ← query (fun d => Ok (dirty_mutables d));
  do _ ← apply_charges creds pi_key dirty (charges parsed);
  match rate_config_change parsed with Some rc => apply_rate_change creds pi_key dirty rc | None => mret tt end.

(** ** [incoming_apply.rs] *)

Record Progress := mkProgress { initial : option str; saved : option str; retry_generation : option Z }.

Definition check_progress (initial saved : option str) (d : Db) : result PullError unit :=
  check_that (bool_decide (meta_get d CHECKPOINT_KEY = initial) && bool_decide (meta_get d WALK_KEY = saved)) EProgress.

(** [guard], kept while [m] runs. *)
Definition guarded {A} (binding : str) (context : Progress) (m : M A) : M A :=
  with_pairing binding
    (do _ ← query (check_progress (initial context) (saved context));
     do _ ← (match retry_generation context with
             | Some expected =>
                 do g ← query (fun d => generation d binding);
                 ensure (g =? expected) EGenerationChanged
             | None => mret tt
             end);
     m).

(** The loop over the items; routes are kept for later. [c] is the cloud the
    items were read from. *)
Fixpoint apply_items (cr : Creds) (pi_key : list Z) (binding : str) (context : Progress) (c : Cloud) (items : list Item)
    (routes done_ failed : list Target) : M (list Target * list Target * list Target) :=
  match items with
  | [] => mret (routes, done_, failed)
  | i :: t =>
      if bool_decide (it_kind i = Route)
      then apply_items cr pi_key binding context c t (routes ++ [target i]) done_ failed
      else
        do ok ← guarded binding context
          (do parsed ← no_panic (changes [i]);
           do r ← try (apply_change_page cr pi_key parsed);
           match r with
           | Ok _ => do _ ← mark_seen binding c (target i); mret true
           | Err _ => mret false
           end);
        if ok : bool then apply_items cr pi_key binding context c t routes (done_ ++ [target i]) failed
        else apply_items cr pi_key binding context c t routes done_ (failed ++ [target i])
  end.

Fixpoint mark_all (binding : str) (c : Cloud) (l : list Target) : M unit :=
  match l with [] => mret tt | t :: l => do _ ← mark_seen binding c t; mark_all binding c l end.

(** [route_pull::prepare]. *)
Definition prepare_routes (cr : Creds) (pi_key : list Z) (ids : list str) : M (result bool (option Projection)) :=
  do _ ← tick;
  fun w => (Ret (prepare (side w) (tables (disk w)) (cloud w) cr pi_key ids), w).

Inductive Verdict := VDone | VFailed | VSplit.

(** One group under its guard. *)
Definition apply_group (binding : str) (context : Progress) (c : Cloud) (group : list Target)
    (prepared : result bool (option Projection)) : M Verdict :=
  guarded binding context
    (match prepared with
     | Ok (Some p) =>
         do r ← try (delegate (fun s d => apply_projection s d p));
         match r with Ok _ => do _ ← mark_all binding c group; mret VDone | Err _ => mret VFailed end
     | Ok None => do _ ← mark_all binding c group; mret VDone
     | Err unavailable => mret (if (1 <? length group)%nat && negb unavailable then VSplit else VFailed)
     end).

(** The work list of groups, the first one next. *)
Fixpoint apply_groups (fuel : nat) (cr : Creds) (pi_key : list Z) (binding : str) (context : Progress) (c : Cloud)
    (groups : list (list Target)) (done_ failed : list Target) : M (list Target * list Target) :=
  match fuel, groups with
  | _, [] => mret (done_, failed)
  | O, _ => mthrow ERunning
  | S fuel, group :: rest =>
      do _ ← check_archive_cancelled;
      do prepared ← prepare_routes cr pi_key (tg_id <$> group);
      do v ← apply_group binding context c group prepared;
      match v with
      | VDone => apply_groups fuel cr pi_key binding context c rest (done_ ++ group) failed
      | VFailed => apply_groups fuel cr pi_key binding context c rest done_ (failed ++ group)
      | VSplit =>
          let split := (length group / 2)%nat in
          apply_groups fuel cr pi_key binding context c (take split group :: drop split group :: rest) done_ failed
      end
  end.

Definition apply (cr : Creds) (pi_key : list Z) (items : list Item) (context : Progress) (c : Cloud)
    : M (list Target * list Target) :=
  let b := ChargePush.binding cr in
  do r ← apply_items cr pi_key b context c items [] [] [];
  let '(routes, done_, failed) := r in
  apply_groups (2 * length routes) cr pi_key b context c (if is_empty routes then [] else [routes]) done_ failed.

(** The rows of a state response, by kind and id. *)
Definition row_key (t : Target) : str := name (tg_kind t) ++ lit ":" ++ tg_id t.

Fixpoint collect_rows (wanted : list str) (result_ : gmap (list Z) Value) (rows : list Value)
    : result PullError (gmap (list Z) Value) :=
  match rows with
  | [] => Ok result_
  | row :: t =>
      let? id := ok_or (as_str (index row (lit "id"))) EMissing in
      let? kind := ok_or (as_str (index row (lit "kind"))) EMissing in
      let k := kind ++ lit ":" ++ id in
      let? _ := check_that (bool_decide (k ∈ wanted) && bool_decide (result_ !! k = None)) EUnexpected in
      collect_rows wanted (<[k := row]> result_) t
  end.

Definition read_targets (cr : Creds) (targets : list Target) : M (Cloud * gmap (list Z) Value) :=
  if is_empty targets then fun w => (Ret (cloud w, ∅), w)
  else
    do _ ← current_pairing (ChargePush.binding cr);
    do answer ← request (fun c => serve_targets c cr {| tq_pi := pi_id cr; tq_generation := dek_rotation_generation cr;
                  tq_items := (fun t => (name (tg_kind t), tg_id t)) <$> targets |});
    let (c, response) := answer in
    do _ ← ensure (ChargePush.success response) EUnavailable;
    do body ← lift (ok_or (ChargePush.body response) EBody);
    do rows ← lift (ok_or (as_array (index body (lit "items"))) EMissing);
    do _ ← ensure (veq (index body (lit "ok")) (Bool true) && eq_int (index body (lit "writeProtocol")) 3
                   && (length rows =? length targets)%nat) EIncomplete;
    do states ← lift (collect_rows (row_key <$> targets) ∅ rows);
    mret (c, states).

(** [row.get(key)]. *)
Definition get (v : Value) (k : str) : option Value := match v with Object m => m !! k | _ => None end.
Definition is_string (v : Value) (s : str) : bool := bool_decide (as_str v = Some s).

Definition current_item (t : Target) (row : Value) (cr : Creds) : result PullError (option Item) :=
  let? _ := check_that (is_string (index row (lit "kind")) (name (tg_kind t)) && is_string (index row (lit "id")) (tg_id t)) EIdentity in
  if is_string (index row (lit "status")) (lit "not_found") && bool_decide (tg_kind t = Charge) then Ok None
  else
    let? _ := check_that (is_string (index row (lit "status")) (lit "ok")) EUnavailable in
    let? at_ := ok_or (as_i64 (index row (lit "updatedAtMs"))) EMissing in
    let? _ := check_that ((0 <=? at_) && (at_ <=? ChargePush.MAX_MS)) ETimestamp in
    let? ciphertext := match get row (lit "ciphertext") with
                       | Some Null => Ok None
                       | Some (String s) => Ok (Some s)
                       | _ => Err EMissing
                       end in
    let? wrapped :=
      if bool_decide (tg_kind t = RateConfig)
      then
        let? _ := check_that (bool_decide (tg_id t = pi_id cr) && bool_decide (get row (lit "wrappedKey") = Some Null)
                              && bool_decide (get row (lit "recordVersion") = Some Null)) EIdentity in
        let? ct := ok_or ciphertext EMissing in
        let? _ := envelope (ChargePush.valid_envelope ct 16384 None) in
        Ok None
      else
        let? _ := check_that (match as_str (index row (lit "recordVersion")) with Some v => ChargePush.hex_id v | None => false end) EIdentity in
        let? k := ok_or (as_str (index row (lit "wrappedKey"))) EMissing in
        let? _ := envelope (ChargePush.valid_envelope k 61 (Some 61%nat)) in
        let? _ := match ciphertext with Some ct => envelope (ChargePush.valid_envelope ct 2048 None) | None => Ok tt end in
        Ok (Some k) in
    Ok (Some (mkItem (tg_kind t) (tg_id t) (lit "0") at_ ciphertext wrapped)).

(** The loop over the entries: what to apply, and what is done already. *)
Fixpoint current_items (cr : Creds) (states : gmap (list Z) Value) (entries : list Entry) (items : list Item) (done_ : list Target)
    : option (list Item * list Target) :=
  match entries with
  | [] => Some (items, done_)
  | e :: t =>
      let tg := en_target e in
      if bool_decide (tg_kind tg = Route)
      then current_items cr states t (items ++ [mkItem Route (tg_id tg) (lit "0") 0 None None]) done_
      else
        row ← states !! row_key tg;
        match current_item tg row cr with
        | Ok (Some i) => current_items cr states t (items ++ [i]) done_
        | Ok None => current_items cr states t items (done_ ++ [tg])
        | Err _ => current_items cr states t items done_
        end
  end.

Fixpoint complete_all (binding : str) (done_ : list Target) (entries : list Entry) (d : Db) : result PullError Db :=
  match entries with
  | [] => Ok d
  | e :: t =>
      let? d := if bool_decide (en_target e ∈ done_) then complete d binding e else Ok d in
      complete_all binding done_ t d
  end.

Definition retry (cr : Creds) (pi_key : list Z) : M unit :=
  let b := ChargePush.binding cr in
  do started ← with_pairing b
    (do progress ← query (fun d => Ok (meta_get d CHECKPOINT_KEY, meta_get d WALK_KEY));
     query (fun d =>
       let? es := entries d b in
       let? g := generation d b in
       Ok (es, mkProgress progress.1 progress.2 (Some g))));
  let (es, context) := started in
  match es with
  | [] => mret tt
  | first :: _ =>
      let last := List.last es first in
      do answer ← try (read_targets cr (List.filter (fun t => negb (bool_decide (tg_kind t = Route))) (en_target <$> es)));
      match answer with
      | Err error =>
          do _ ← guarded b context (transaction (fun d => Ok (advance d b last)));
          mthrow error
      | Ok (c, states) =>
          do todo ← no_panic (current_items cr states es [] []);
          let (items, done_) := todo in
          do r ← apply cr pi_key items context c;
          let done_ := done_ ++ r.1 in
          guarded b context
            (transaction (fun d =>
               let? d := complete_all b done_ es d in
               Ok (advance d b last)))
      end
  end.

(** ** [pull_feed] *)

(** The transactions that reset the walk, save the position and finish. *)
Definition reset_walk (initial saved : option str) (d : Db) : result PullError Db :=
  let? _ := check_progress initial saved d in Ok (meta_del d WALK_KEY).
Definition save_walk (nonce : option (list Z)) (binding : str) (initial saved : option str) (failed done_ : list Target) (next : str)
    (d : Db) : result PullError Db :=
  let? _ := check_progress initial saved d in
  let? d := record nonce binding failed done_ d in
  Ok (meta_set d WALK_KEY next).
Definition finish_walk (nonce : option (list Z)) (binding : str) (initial saved : option str) (failed done_ : list Target) (checkpoint : str)
    (d : Db) : result PullError Db :=
  let? _ := check_progress initial saved d in
  let? d := record nonce binding failed done_ d in
  Ok (meta_del (meta_set d CHECKPOINT_KEY checkpoint) WALK_KEY).

Definition wants_reset (body : option Value) : bool :=
  match body with Some v => bool_decide ((get v (lit "error") ≫= as_str) = Some (lit "sync_reset_required")) | None => false end.

(** The loop over the pages, at most [fuel] requests. *)
Fixpoint feed_loop (fuel : nat) (cr : Creds) (pi_key : list Z) (b : str) (initial saved : option str) (walk : Walk) (reset : bool)
    : M unit :=
  match fuel with
  | O => mdead
  | S fuel =>
      do _ ← check_archive_cancelled;
      do _ ← current_pairing b;
      do answer ← request (fun c => serve_page c cr (path walk));
      let (c, response) := answer in
      match response with
      | PageConflict body =>
          do _ ← lift (ok_or body EBody);
          if negb reset && wants_reset body
          then
            do _ ← with_pairing b (transaction (reset_walk initial saved));
            feed_loop fuel cr pi_key b initial None (new_walk None) true
          else mthrow EReset
      | PageRejected => mthrow ERejected
      | PageOk body =>
          do page ← lift (ok_or body EBody);
          do walk ← lift (validate walk page (pi_id cr));
          do r ← apply cr pi_key (pg_items page) (mkProgress initial saved None) c;
          let (done_, failed) := r in
          match cursor walk with
          | None =>
              with_pairing b
                (do _ ← query (check_progress initial saved);
                 do rev ← lift (ok_or (checkpoint walk) EMissing);
                 do nonce ← nonce16;
                 transaction (finish_walk nonce b initial saved failed done_
                   (checkpoint_raw {| cp_version := 2; cp_binding := b; cp_revision := rev |})))
          | Some _ =>
              let next := saved_raw {| sw_version := 1; sw_binding := b; sw_base := initial; sw_walk := walk |} in
              do _ ← with_pairing b
                (do _ ← query (check_progress initial saved);
                 do nonce ← nonce16;
                 transaction (save_walk nonce b initial saved failed done_ next));
              feed_loop fuel cr pi_key b initial (Some next) walk reset
          end
      end
  end.

Definition pull_feed (fuel : nat) (cr : Creds) (pi_key : list Z) : M unit :=
  let b := ChargePush.binding cr in
  do progress ← with_pairing b (query (fun d => Ok (meta_get d CHECKPOINT_KEY, meta_get d WALK_KEY)));
  let (initial, saved) := progress in
  feed_loop fuel cr pi_key b initial saved (start_walk b (pi_id cr) initial saved) false.

Definition pull_changes (fuel : nat) (cr : Creds) (pi_key : list Z) : M unit :=
  do _ ← check_archive_cancelled;
  do retried ← try (retry cr pi_key);
  do _ ← pull_feed fuel cr pi_key;
  let b := ChargePush.binding cr in
  with_pairing b
    (do remaining ← query (fun d => Ok (count d b));
     if (0 <? remaining)%nat then do _ ← lift retried; mthrow ERemaining else mret tt).

End pull.

End IncomingPull.
