(* ===== verification/IncomingSpec.v ===== *)
(** * No incoming change is lost

    The invariant of [IncomingPull] and its proof. A record of the cloud is dealt
    with when the device applied its revision or a newer one, or keeps it for a
    retry. The checkpoint and a saved walk promise that for all they have passed;
    the promise survives power cuts, failures and changes made meanwhile. *)

From Stdlib Require Import ZArith Lia.
From stdpp Require Import base gmap list.
From S2P Require Import Prelude Effects Str Json MutableQueue CloudCrypto ChargePush IncomingQueue IncomingPull.

Import CloudCrypto MutableQueue IncomingQueue IncomingPull.
Open Scope Z_scope.
Open Scope task_scope.

Notation str := (list Z) (only parsing).

(** ** Keys of the [meta] table *)

Lemma split_first_unique {A} (s : A) x y p q : s ∉ x -> s ∉ y -> x ++ s :: p = y ++ s :: q -> x = y /\ p = q.
Proof.
  intros Hx Hy. revert y Hy. induction x as [|c x IH]; intros [|e y] Hy H; cbn in H.
  - by injection H as ->.
  - injection H as -> ->. exfalso. apply Hy. by left.
  - injection H as -> <-. exfalso. apply Hx. by left.
  - injection H as -> H. apply not_elem_of_cons in Hx as [_ Hx], Hy as [_ Hy]. by destruct (IH Hx y Hy H) as [-> ->].
Qed.

Lemma key_inj b t b' t' : 58 ∉ b -> 58 ∉ b' -> key b t = key b' t' -> b = b' /\ t = t'.
Proof.
  intros Hb Hb' H. unfold key, prefix in H. rewrite <- !app_assoc in H. apply app_inv_head in H. cbn [lit app] in H.
  apply (split_first_unique 58) in H as [-> H]; [|done..]. split; [done|]. cbn [app] in H.
  apply (split_first_unique 58) in H as [Hn Hi].
  - destruct t as [[] i], t' as [[] i']; cbn in *; first [by rewrite Hi | exfalso; revert Hn; vm_compute; discriminate].
  - destruct t as [[] i]; apply (bool_decide_unpack _); vm_compute; exact I.
  - destruct t' as [[] i]; apply (bool_decide_unpack _); vm_compute; exact I.
Qed.

(** The keys whose values the promise is about. *)
Inductive feed_key : str -> Prop :=
| fk_checkpoint : feed_key CHECKPOINT_KEY
| fk_walk : feed_key WALK_KEY
| fk_retry b t : feed_key (key b t).

Lemma take_ne {A} n (x y : list A) : take n x <> take n y -> x <> y.
Proof. by intros H ->. Qed.

Lemma key_not_walk b t : key b t <> CHECKPOINT_KEY /\ key b t <> WALK_KEY.
Proof. split; apply (take_ne 10); vm_compute; discriminate. Qed.

Lemma generation_not_feed b k : feed_key k -> k <> generation_key b.
Proof. intros []; apply (take_ne 23); vm_compute; discriminate. Qed.

Lemma cursor_not_feed b k : feed_key k -> k <> cursor_key b.
Proof. intros []; apply (take_ne 23); vm_compute; discriminate. Qed.

Lemma checkpoint_not_walk : CHECKPOINT_KEY <> WALK_KEY.
Proof. vm_compute. discriminate. Qed.

Lemma get_set_ne d k k' v : k <> k' -> meta_get (meta_set d k v) k' = meta_get d k'.
Proof. intros H. unfold meta_get, meta_set. cbn. by rewrite lookup_insert_ne. Qed.
Lemma get_set_eq d k v : meta_get (meta_set d k v) k = Some v.
Proof. unfold meta_get, meta_set. cbn. by rewrite lookup_insert_eq. Qed.
Lemma get_del_ne d k k' : k <> k' -> meta_get (meta_del d k) k' = meta_get d k'.
Proof. intros H. unfold meta_get, meta_del. cbn. by rewrite lookup_delete_ne. Qed.
Lemma get_del_eq d k : meta_get (meta_del d k) k = None.
Proof. unfold meta_get, meta_del. cbn. by rewrite lookup_delete_eq. Qed.

(** Nothing the promise is about changed. *)
Definition same_feed (d d' : Db) : Prop := forall k, feed_key k -> meta_get d' k = meta_get d k.

Lemma same_feed_trans d1 d2 d3 : same_feed d1 d2 -> same_feed d2 d3 -> same_feed d1 d3.
Proof. intros H1 H2 k Hk. by rewrite H2, H1. Qed.

Lemma bump_feed d b d' : bump_generation d b = Ok d' -> same_feed d d'.
Proof.
  unfold bump_generation. intros H. apply rbind_Ok in H as (g & _ & H). destruct (_ <=? _); [|done]. injection H as <-.
  intros k Hk. apply get_set_ne. intros <-. by eapply generation_not_feed.
Qed.

Section retry_queue.
Context `{FW : !FeedWire}.

Lemma foldl_set_get (f : Target -> str) b l : forall d k,
  (k ∉ key b <$> l -> meta_get (foldl (fun d t => meta_set d (key b t) (f t)) d l) k = meta_get d k) /\
  (k ∈ key b <$> l -> is_Some (meta_get (foldl (fun d t => meta_set d (key b t) (f t)) d l) k)).
Proof.
  induction l as [|t l IH]; intros d k; cbn [foldl fmap list_fmap].
  { split; [done|by intros ?%elem_of_nil]. }
  destruct (IH (meta_set d (key b t) (f t)) k) as [H1 H2]. split.
  - intros [Hk Hl]%not_elem_of_cons. rewrite H1 by done. by apply get_set_ne.
  - intros Hk. destruct (decide (k ∈ key b <$> l)) as [Hl|Hl]; [by apply H2|]. rewrite H1 by done.
    apply elem_of_cons in Hk as [->|?]; [|done]. rewrite get_set_eq. by eexists.
Qed.

Lemma foldl_del_get b l : forall d k,
  meta_get (foldl (fun d t => meta_del d (key b t)) d l) k = if bool_decide (k ∈ key b <$> l) then None else meta_get d k.
Proof.
  induction l as [|t l IH]; intros d k; cbn [foldl fmap list_fmap]; [done|]. rewrite IH.
  destruct (decide (k ∈ key b <$> l)) as [H|H]; [rewrite !bool_decide_true; [done|by right|done]|]. rewrite (bool_decide_false _ H).
  destruct (decide (k = key b t)) as [->|Hk]; [rewrite bool_decide_true by (by left); apply get_del_eq|].
  rewrite bool_decide_false by (by intros [?|?]%elem_of_cons). by apply get_del_ne.
Qed.

(** What [record] leaves of the keys. *)
Lemma record_get n b failed done_ d d' k : record n b failed done_ d = Ok d' -> feed_key k ->
  (k ∉ key b <$> failed -> k ∉ key b <$> done_ -> meta_get d' k = meta_get d k) /\
  (k ∈ key b <$> failed -> k ∉ key b <$> done_ -> is_Some (meta_get d' k)).
Proof.
  intros H Hk. unfold record in H. apply rbind_Ok in H as (n0 & _ & H). cbv zeta in H.
  set (f := fun t => retry_raw {| rt_version := 1; rt_binding := b; rt_target := t; rt_nonce := hex_encode n0 |}).
  set (d1 := foldl (fun d t => meta_set d (key b t) (f t)) d failed).
  set (d2 := foldl (fun d t => meta_del d (key b t)) d1 done_).
  change ((if negb (is_empty failed) || negb (is_empty done_) then bump_generation d2 b else Ok d2) = Ok d') in H.
  assert (meta_get d' k = meta_get d2 k) as ->.
  { destruct (negb _ || negb _); [by apply (bump_feed d2 b)|]. by injection H as <-. }
  unfold d2. rewrite foldl_del_get.
  destruct (foldl_set_get f b failed d k) as [H1 H2]. fold d1 in H1, H2.
  split; intros Hf Hd; (rewrite bool_decide_false by done); auto.
Qed.

Lemma entry_of_key b r e : entry_of b r = Ok e -> en_key e = key b (en_target e).
Proof.
  unfold entry_of. intros H. apply rbind_Ok in H as (p & _ & H). apply rbind_Ok in H as ([] & H1 & H). apply rbind_Ok in H as ([] & _ & H).
  injection H as <-. cbn. unfold check_that in H1. destruct (_ && _) eqn:E; [|done]. rewrite !andb_true_iff, !bool_decide_eq_true in E. naive_solver.
Qed.

Lemma collect_ok_elem {A B} (f : A -> result PullError B) l : forall ys y, collect_ok f l = Ok ys -> y ∈ ys -> exists x, f x = Ok y.
Proof.
  induction l as [|x l IH]; intros ys y H Hy; cbn in H; [injection H as <-; by apply elem_of_nil in Hy|].
  apply rbind_Ok in H as (y0 & H0 & H). apply rbind_Ok in H as (ys0 & H1 & H). injection H as <-.
  apply elem_of_cons in Hy as [->|Hy]; [by exists x|by eapply IH].
Qed.

Lemma entries_key d b es e : entries d b = Ok es -> e ∈ es -> en_key e = key b (en_target e).
Proof. intros H He. destruct (collect_ok_elem _ _ _ _ H He) as (r & Hr). by eapply entry_of_key. Qed.

(** Completing entries deletes only the keys of targets that are done. *)
Lemma complete_all_get b done_ es : forall d d' k, (forall e, e ∈ es -> en_key e = key b (en_target e)) ->
  complete_all b done_ es d = Ok d' -> feed_key k -> k ∉ key b <$> done_ -> meta_get d' k = meta_get d k.
Proof.
  induction es as [|e es IH]; intros d d' k He H Hk Hd; cbn in H; [by injection H as <-|].
  apply rbind_Ok in H as (d1 & H1 & H). rewrite (IH d1 d' k); [|by intros e' He'; apply He; right|done|done|done]. clear IH H.
  case_bool_decide as Ht; [|by injection H1 as <-]. unfold complete in H1. destruct (current d e); [|by injection H1 as <-].
  rewrite (bump_feed _ _ _ H1 k Hk). apply get_del_ne. intros <-. apply Hd. rewrite (He e) by (by left).
  by apply list_elem_of_fmap_2.
Qed.

End retry_queue.

(** ** The feed

    The listing of a walk is ordered by revision after a checkpoint, and by kind
    and id when everything is read. *)
Definition order_of (since : option str) (r : Z) (t : Target) : Order :=
  (if bool_decide (is_Some since) then r else 0, tg_kind t, tg_id t).
Definition in_scope (since : option str) (r : Z) : Prop :=
  match since with Some s => exists n, revision s = Ok n /\ n < r | None => True end.

(** A record keeps its revision, or gets one above all given before. *)
Definition cloud_le `{!Feed, !Revisions} (c c' : Cloud) : Prop :=
  forall b, head_of c b <= head_of c' b /\ forall t r, rev_of c' b t = Some r -> rev_of c b t = Some r \/ head_of c b < r.

(** The protocol: a page holds all current records of the listing between its
    cursor and the next one, up to the checkpoint it names; [place] is the record
    a cursor stands behind. A record reported missing is. *)
Class FeedLaws `{!Hashes, !ChargePush.Wire, !Feed, !Revisions} := {
  place : list Z -> Order;
  page_checkpoint c cr w p n : serve_page c cr (path w) = PageOk (Some p) -> revision (sync_revision p) = Ok n ->
    n <= head_of c (ChargePush.binding cr);
  page_complete c cr w p n t r : serve_page c cr (path w) = PageOk (Some p) -> revision (sync_revision p) = Ok n ->
    rev_of c (ChargePush.binding cr) t = Some r -> r <= n -> in_scope (since w) r ->
    (forall cu, cursor w = Some cu -> order_lt (place cu) (order_of (since w) r t) = true) ->
    (forall cu, next_cursor p = Some cu -> order_lt (place cu) (order_of (since w) r t) = false) ->
    t ∈ target <$> pg_items p;
  missing_true c cr q v rows row t : ChargePush.body (serve_targets c cr q) = Some v ->
    Json.as_array (Json.index v (lit "items")) = Some rows -> row ∈ rows ->
    Json.as_str (Json.index row (lit "kind")) = Some (name (tg_kind t)) -> Json.as_str (Json.index row (lit "id")) = Some (tg_id t) ->
    Json.as_str (Json.index row (lit "status")) = Some (lit "not_found") -> rev_of c (ChargePush.binding cr) t = None
}.

(** What is written reads back; base64url has no colon. *)
Class FeedWireLaws `{!FeedWire, !ChargePush.Wire} := {
  checkpoint_round c : checkpoint_of (checkpoint_raw c) = Some c;
  saved_round s : saved_of (saved_raw s) = Some s;
  url_no_colon x : 58 ∉ ChargePush.url_encode x
}.

(** The other components leave the rows of the feed alone. *)
Class LocalLaws `{!Feed, !Local} := {
  store_feed s d v at_ : same_feed d (store_doc s d v at_).2.2;
  projection_feed s d p : same_feed d (apply_projection s d p).2.2
}.

Section spec.
Context `{Ae : !Aead, Ba : !Base64, Hsh : !Hashes, Wi : !ChargePush.Wire, FW : !FeedWire, Fe : !Feed, Lo : !Local, Re : !Revisions,
  FL : !FeedLaws, FWL : !FeedWireLaws, LL : !LocalLaws}.

Lemma binding_colon cr : 58 ∉ ChargePush.binding cr.
Proof. apply url_no_colon. Qed.

Lemma cloud_le_refl c : cloud_le c c.
Proof. intros b. split; [lia|by left]. Qed.

Lemma cloud_le_trans c1 c2 c3 : cloud_le c1 c2 -> cloud_le c2 c3 -> cloud_le c1 c3.
Proof.
  intros H1 H2 b. destruct (H1 b) as [A1 B1], (H2 b) as [A2 B2]. split; [lia|]. intros t r Hr.
  destruct (B2 t r Hr) as [H|]; [|right; lia]. by apply B1.
Qed.

(** A record within an old bound has not changed since. *)
Lemma cloud_le_old c c' b t r n : cloud_le c c' -> rev_of c' b t = Some r -> r <= n -> n <= head_of c b -> rev_of c b t = Some r.
Proof. intros H Hr Hle Hn. destruct (H b) as [_ H']. destruct (H' t r Hr); [done|lia]. Qed.

(** ** The promise *)

Definition seen_to (d : Disk) (b : str) (t : Target) (r : Z) : Prop := exists n, seen d !! (b, t) = Some n /\ r <= n.
Definition kept_back (d : Disk) (b : str) (t : Target) : Prop := is_Some (meta_get (tables d) (key b t)).
Definition dealt (d : Disk) (b : str) (t : Target) (r : Z) : Prop := kept_back d b t \/ seen_to d b t r.

(** Every record the walk has passed is dealt with. *)
Definition walked (w : Walk) (r : Z) (t : Target) : Prop :=
  in_scope (since w) r /\ match cursor w with Some cu => order_lt (place cu) (order_of (since w) r t) = false | None => False end.

Record WalkOk (c : Cloud) (d : Disk) (b : str) (w : Walk) : Prop := {
  wo_since : since w = None \/ since w = since_of b (meta_get (tables d) CHECKPOINT_KEY);
  wo_bound : forall s n, checkpoint w = Some s -> revision s = Ok n -> n <= head_of c b;
  wo_checkpoint : is_Some (cursor w) -> is_Some (checkpoint w);
  wo_passed : forall s n t r, checkpoint w = Some s -> revision s = Ok n -> rev_of c b t = Some r -> r <= n -> walked w r t -> dealt d b t r
}.

Record DiskOk (c : Cloud) (d : Disk) : Prop := {
  do_bound : forall b s n, 58 ∉ b -> since_of b (meta_get (tables d) CHECKPOINT_KEY) = Some s -> revision s = Ok n -> n <= head_of c b;
  do_passed : forall b s n t r, 58 ∉ b -> since_of b (meta_get (tables d) CHECKPOINT_KEY) = Some s -> revision s = Ok n ->
    rev_of c b t = Some r -> r <= n -> dealt d b t r;
  do_walk : forall b raw s, 58 ∉ b -> meta_get (tables d) WALK_KEY = Some raw -> saved_of raw = Some s -> sw_binding s = b ->
    sw_base s = meta_get (tables d) CHECKPOINT_KEY -> WalkOk c d b (sw_walk s)
}.

(** No position saved is beyond the cloud [c]. *)
Record Bounded (c : Cloud) (d : Disk) : Prop := {
  bd_checkpoint : forall b s n, 58 ∉ b -> since_of b (meta_get (tables d) CHECKPOINT_KEY) = Some s -> revision s = Ok n -> n <= head_of c b;
  bd_walk : forall b raw s v n, 58 ∉ b -> meta_get (tables d) WALK_KEY = Some raw -> saved_of raw = Some s -> sw_binding s = b ->
    sw_base s = meta_get (tables d) CHECKPOINT_KEY -> checkpoint (sw_walk s) = Some v -> revision v = Ok n -> n <= head_of c b
}.

Lemma DiskOk_bounded c d : DiskOk c d -> Bounded c d.
Proof.
  intros [H1 _ H3]. split; [done|]. intros b raw s v n Hb Hraw Hs Hbi Hba. by apply (wo_bound _ _ _ _ (H3 b raw s Hb Hraw Hs Hbi Hba)).
Qed.

(** [d'] still deals with what [d] dealt with, below the bound [c0]. *)
Definition deals_on (c0 c : Cloud) (d d' : Disk) : Prop :=
  forall b t r, 58 ∉ b -> rev_of c b t = Some r -> r <= head_of c0 b -> dealt d b t r -> dealt d' b t r.

Lemma WalkOk_step c0 c d d' b w : 58 ∉ b -> (forall s n, checkpoint w = Some s -> revision s = Ok n -> n <= head_of c0 b) ->
  WalkOk c d b w -> deals_on c0 c d d' -> meta_get (tables d') CHECKPOINT_KEY = meta_get (tables d) CHECKPOINT_KEY -> WalkOk c d' b w.
Proof.
  intros Hb H0 [H1 H2 H3 H4] Hd Hc. split; [by rewrite Hc|done|done|]. intros s n t r Hs Hn Hr Hle Hw.
  apply Hd; [done|done| |by eapply H4]. pose proof (H0 s n Hs Hn). lia.
Qed.

(** The rows of the feed stay, but for records dealt with. *)
Lemma DiskOk_step c0 c d d' : Bounded c0 d -> DiskOk c d -> deals_on c0 c d d' ->
  meta_get (tables d') CHECKPOINT_KEY = meta_get (tables d) CHECKPOINT_KEY -> meta_get (tables d') WALK_KEY = meta_get (tables d) WALK_KEY ->
  DiskOk c d'.
Proof.
  intros H0 [H1 H2 H3] Hd Hc Hw. split; rewrite ?Hc, ?Hw; [done| |].
  - intros b s n t r Hb Hs Hn Hr Hle. apply Hd; [done|done| |by eapply H2]. pose proof (bd_checkpoint _ _ H0 b s n Hb Hs Hn). lia.
  - intros b raw s Hb Hraw Hsaved Hbi Hba. apply (WalkOk_step c0 c d); [done| | |done|done]; [|by eapply H3].
    intros v n. by eapply (bd_walk _ _ H0).
Qed.

Lemma WalkOk_cloud c c' d b w : cloud_le c c' -> WalkOk c d b w -> WalkOk c' d b w.
Proof.
  intros Hc [W1 W2 W3 W4]. split; [done| |done|].
  - intros s n Hs Hn. pose proof (W2 s n Hs Hn). destruct (Hc b). lia.
  - intros s n t r Hs Hn Hr Hle Hw. eapply W4; [done..| |done|done]. by eapply cloud_le_old; [|done|done|eapply W2].
Qed.

Lemma DiskOk_cloud c c' d : cloud_le c c' -> DiskOk c d -> DiskOk c' d.
Proof.
  intros Hc [H1 H2 H3]. split.
  - intros b s n Hb Hs Hn. pose proof (H1 b s n Hb Hs Hn). destruct (Hc b). lia.
  - intros b s n t r Hb Hs Hn Hr Hle. eapply H2; [done..| |done]. by eapply cloud_le_old; [|done|done|eapply H1].
  - intros b raw s Hb Hraw Hsaved Hbi Hba. apply (WalkOk_cloud c); [done|]. by eapply H3.
Qed.

(** ** Steps of the others, and of the task outside the feed's rows *)

Definition seen_le (d d' : Disk) : Prop := forall k n, seen d !! k = Some n -> exists n', seen d' !! k = Some n' /\ n <= n'.
Definition disk_le (d d' : Disk) : Prop := same_feed (tables d) (tables d') /\ seen_le d d'.

Lemma seen_le_refl d : seen_le d d.
Proof. intros k n H. exists n. split; [done|lia]. Qed.

Lemma disk_le_refl d : disk_le d d.
Proof. split; [done|apply seen_le_refl]. Qed.

Lemma disk_le_trans d1 d2 d3 : disk_le d1 d2 -> disk_le d2 d3 -> disk_le d1 d3.
Proof.
  intros [A1 B1] [A2 B2]. split; [by eapply same_feed_trans|]. intros k n (n1 & H1 & L1)%B1. apply B2 in H1 as (n2 & H2 & L2).
  exists n2. split; [done|lia].
Qed.

Lemma dealt_le d d' b t r : disk_le d d' -> dealt d b t r -> dealt d' b t r.
Proof.
  intros [Hf Hs] [Hk|(n & Hn & Hle)]; [left|right].
  - unfold kept_back. by rewrite (Hf _ (fk_retry b t)).
  - apply Hs in Hn as (n' & Hn' & ?). exists n'. split; [done|lia].
Qed.

Lemma Bounded_le c d d' : disk_le d d' -> Bounded c d -> Bounded c d'.
Proof. intros [Hf _] [H1 H2]. split; rewrite ?(Hf _ fk_checkpoint), ?(Hf _ fk_walk); done. Qed.

Lemma WalkOk_le c c' d d' b w : 58 ∉ b -> cloud_le c c' -> disk_le d d' -> WalkOk c d b w -> WalkOk c' d' b w.
Proof.
  intros Hb Hc Hd Hw. apply (WalkOk_cloud c); [done|]. apply (WalkOk_step c c d); [done|by apply Hw|done| |apply Hd, fk_checkpoint].
  intros b' t r _ _ _. by apply dealt_le.
Qed.

Lemma DiskOk_le c c' d d' : cloud_le c c' -> disk_le d d' -> DiskOk c d -> DiskOk c' d'.
Proof.
  intros Hc Hd H. apply (DiskOk_cloud c); [done|]. apply (DiskOk_step c c d); [by apply DiskOk_bounded|done| |apply Hd, fk_checkpoint|apply Hd, fk_walk].
  intros b t r _ _ _. by apply dealt_le.
Qed.

Definition honest (m : Move) : Prop := (forall d, same_feed d (mv_db m d)) /\ forall c, cloud_le c (mv_cloud m c).

Record Inv (w : World) : Prop := {
  iv_kept : forall d, d ∈ kept w -> DiskOk (cloud w) d;
  iv_disk : disk w ∈ kept w;
  iv_moves : forall m, m ∈ moves w -> honest m
}.

Definition rely (w w' : World) : Prop := cloud_le (cloud w) (cloud w') /\ disk_le (disk w) (disk w').

Lemma rely_refl w : rely w w.
Proof. split; [apply cloud_le_refl|apply disk_le_refl]. Qed.

Lemma rely_trans w1 w2 w3 : rely w1 w2 -> rely w2 w3 -> rely w1 w3.
Proof. intros [A1 B1] [A2 B2]. split; [by eapply cloud_le_trans|by eapply disk_le_trans]. Qed.

Definition Framed {A} (m : M A) : Prop := forall w, Inv w -> Inv (m w).2 /\ rely w (m w).2.

Lemma Inv_same w w' : disk w' = disk w -> kept w' = kept w -> cloud w' = cloud w -> (forall m, m ∈ moves w' -> m ∈ moves w) -> Inv w -> Inv w'.
Proof. intros E1 E2 E3 E4 [H1 H2 H3]. split; rewrite ?E1, ?E2, ?E3; auto. Qed.

Lemma frame_same {A} (o : World -> Out PullError A) (f : World -> World) :
  (forall w, disk (f w) = disk w /\ kept (f w) = kept w /\ cloud (f w) = cloud w /\ moves (f w) = moves w) -> Framed (fun w => (o w, f w)).
Proof.
  intros H w Hi. destruct (H w) as (E1 & E2 & E3 & E4). cbn [snd]. split; [apply (Inv_same w); [done|done|done|by rewrite E4|done]|].
  split; cbn; rewrite ?E1, ?E3; [apply cloud_le_refl|apply disk_le_refl].
Qed.

Lemma frame_ret {A} (a : A) : Framed (mret a).
Proof. by apply (frame_same (fun _ => Ret a) (fun w => w)). Qed.
Lemma frame_throw {A} e : Framed (mthrow e : M A).
Proof. by apply (frame_same (fun _ => Throw e) (fun w => w)). Qed.
Lemma frame_dead {A} : Framed (mdead : M A).
Proof. by apply (frame_same (fun _ => Dead) (fun w => w)). Qed.
Lemma frame_cancel : Framed check_archive_cancelled.
Proof. by apply frame_same. Qed.
Lemma frame_nonce : Framed nonce16.
Proof. by apply (frame_same (fun w => Ret _)). Qed.

Lemma frame_bind {A B} (m : M A) (k : A -> M B) : Framed m -> (forall a, Framed (k a)) -> Framed (mbind m k).
Proof.
  intros Hm Hk w Hi. unfold mbind. destruct (Hm w Hi) as [Hi1 Hr1]. destruct (m w) as [[a|e|] w1]; [|done..].
  destruct (Hk a w1 Hi1) as [Hi2 Hr2]. split; [done|]. by eapply rely_trans.
Qed.
Lemma frame_try {A} (m : M A) : Framed m -> Framed (try m).
Proof. intros Hm w Hi. specialize (Hm w Hi). unfold try. by destruct (m w) as [[a|e|] w1]. Qed.
Lemma frame_ensure b e : Framed (ensure b e).
Proof. destruct b; [apply frame_ret|apply frame_throw]. Qed.
Lemma frame_lift {A} (r : result PullError A) : Framed (lift r).
Proof. destruct r; [apply frame_ret|apply frame_throw]. Qed.
Lemma frame_no_panic {A} (o : option A) : Framed (no_panic o).
Proof. destruct o; [apply frame_ret|apply frame_dead]. Qed.

(** A commit that leaves the feed's rows. *)
Lemma Inv_disk w d : Inv w -> DiskOk (cloud w) d -> Inv (set_disk w d).
Proof.
  intros [H1 H2 H3] Hd. split; cbn; [|apply elem_of_app; right; by left|done].
  intros d' [?|H%list_elem_of_singleton]%elem_of_app; [by apply H1|by subst].
Qed.

Lemma Inv_disk_le w d : Inv w -> disk_le (disk w) d -> Inv (set_disk w d) /\ rely w (set_disk w d).
Proof.
  intros Hi Hd. split; [|split; [apply cloud_le_refl|done]]. apply Inv_disk; [done|].
  eapply DiskOk_le; [apply cloud_le_refl|done|]. apply Hi, iv_disk, Hi.
Qed.

Lemma with_tables_le d t : same_feed (tables d) t -> disk_le d (with_tables d t).
Proof. intros H. split; [done|exact (seen_le_refl d)]. Qed.

Lemma frame_tick : Framed tick.
Proof.
  intros w Hi. unfold tick. destruct (moves w) as [|m ms] eqn:Em; [by split; [|apply rely_refl]|]. cbn [snd].
  destruct (iv_moves w Hi m) as [Hd Hc]; [rewrite Em; by left|].
  pose proof (with_tables_le (disk w) _ (Hd (tables (disk w)))) as Hle.
  split; [|by split]. split; cbn.
  - intros d [Hin|Hin%list_elem_of_singleton]%elem_of_app.
    + eapply DiskOk_cloud; [apply Hc|by apply Hi].
    + subst d. eapply DiskOk_le; [apply Hc|done|]. apply Hi, iv_disk, Hi.
  - apply elem_of_app. right. by left.
  - rewrite Em. intros m' Hm'. apply (iv_moves w Hi). rewrite Em. by right.
Qed.

Lemma frame_query {A} (q : Db -> result PullError A) : Framed (query q).
Proof. apply frame_bind; [apply frame_tick|]. intros _. by apply frame_same. Qed.

Lemma frame_request {A} (s : Cloud -> A) : Framed (request s).
Proof. apply frame_bind; [apply frame_tick|]. intros _. by apply frame_same. Qed.

Lemma frame_tx f : (forall d d', f d = Ok d' -> same_feed d d') -> Framed (transaction f).
Proof.
  intros Hf. apply frame_bind; [apply frame_tick|]. intros _ w Hi. cbv zeta.
  assert (Inv (set_tx w (tail (tx_faults w))) /\ rely w (set_tx w (tail (tx_faults w)))) as Hs.
  { split; [by apply (Inv_same w)|exact (rely_refl w)]. }
  destruct (f (tables (disk w))) as [t|e] eqn:Ef; [|destruct (head (tx_faults w)) as [[]|]; exact Hs].
  pose proof (Inv_disk_le (set_tx w (tail (tx_faults w))) (with_tables (disk w) t) (proj1 Hs) (with_tables_le _ _ (Hf _ _ Ef))) as Hc.
  destruct (head (tx_faults w)) as [[]|]; first [exact Hs|exact Hc].
Qed.

Lemma frame_delegate f : (forall s d, same_feed d (f s d).2.2) -> Framed (delegate f).
Proof.
  intros Hf. apply frame_bind; [apply frame_tick|]. intros _ w Hi. pose proof (Hf (side w) (tables (disk w))) as H.
  destruct (f (side w) (tables (disk w))) as [ok [s t]]. cbn in H.
  exact (Inv_disk_le (set_side w s) (with_tables (disk w) t) (Inv_same w (set_side w s) eq_refl eq_refl eq_refl (fun m H => H) Hi) (with_tables_le _ _ H)).
Qed.

Lemma frame_pairing {A} b (m : M A) : Framed m -> Framed (with_pairing b m).
Proof.
  intros Hm. apply frame_bind; [apply frame_tick|]. intros _ w Hi. destruct (ChargePush.check_pairing _ _); [|by split; [|apply rely_refl]].
  destruct (Hm (set_held w true)) as [Hi1 Hr1]; [by apply (Inv_same w)|]. destruct (m (set_held w true)) as [r w1].
  split; [by apply (Inv_same w1)|exact Hr1].
Qed.

Lemma mark_seen_le b c t w : disk_le (disk w) (disk (mark_seen b c t w).2).
Proof.
  unfold mark_seen. cbn [snd]. destruct (rev_of c b t) as [r|]; [|apply disk_le_refl]. split; [done|]. intros k n Hn. cbn [seen disk set_disk].
  destruct (decide (k = (b, t))) as [->|Hk]; [|rewrite lookup_insert_ne by done; exists n; split; [done|lia]].
  rewrite lookup_insert_eq, Hn. eexists. split; [done|]. cbn [default]. apply Z.le_max_r.
Qed.

Lemma frame_mark b c t : Framed (mark_seen b c t).
Proof.
  intros w Hi. pose proof (mark_seen_le b c t w) as Hle. unfold mark_seen in *. cbn [snd] in *.
  destruct (rev_of c b t) as [r|]; [by apply Inv_disk_le|by split; [|apply rely_refl]].
Qed.

Create HintDb frame discriminated.
#[local] Hint Resolve frame_ret frame_throw frame_dead frame_cancel frame_nonce frame_ensure frame_lift frame_no_panic frame_tick
  frame_query frame_request frame_mark : frame.
Ltac frame := repeat first [progress intros | solve [auto with frame] | simple apply frame_pairing | simple apply frame_try
  | simple apply frame_bind | match goal with |- Framed (match ?x with _ => _ end) => destruct x end | progress cbv zeta].

(** ** Triples *)

(** What a step knows of the database and the cloud. *)
Notation Asn := (Disk -> Cloud -> Prop).
Definition Stable (P : Asn) : Prop := forall d c d' c', cloud_le c c' -> disk_le d d' -> P d c -> P d' c'.

Definition hoare {A} (P : Asn) (m : M A) (Q : A -> Asn) : Prop := forall w, Inv w -> P (disk w) (cloud w) ->
  Inv (m w).2 /\ match (m w).1 with Ret a => Q a (disk (m w).2) (cloud (m w).2) | _ => True end.

Lemma t_frame {A} P (m : M A) : Framed m -> Stable P -> hoare P m (fun _ => P).
Proof. intros Hm Hs w Hi Hp. destruct (Hm w Hi) as [Hi1 [Hc Hd]]. split; [done|]. destruct (m w).1; [|done..]. by apply (Hs (disk w) (cloud w)). Qed.

Lemma t_ret {A} (a : A) (P : Asn) (Q : A -> Asn) : (forall d c, P d c -> Q a d c) -> hoare P (mret a) Q.
Proof. intros H w Hi Hp. split; [done|]. by apply H. Qed.
Lemma t_throw {A} e P (Q : A -> Asn) : hoare P (mthrow e) Q.
Proof. by intros w Hi Hp. Qed.
Lemma t_dead {A} P (Q : A -> Asn) : hoare P mdead Q.
Proof. by intros w Hi Hp. Qed.

Lemma t_bind {A B} P (m : M A) (k : A -> M B) Q R : hoare P m Q -> (forall a, hoare (Q a) (k a) R) -> hoare P (mbind m k) R.
Proof.
  intros Hm Hk w Hi Hp. destruct (Hm w Hi Hp) as [Hi1 Hq]. unfold mbind. destruct (m w) as [[a|e|] w1]; [|done..]. by apply Hk.
Qed.

Lemma t_conseq {A} (P P' : Asn) (m : M A) (Q Q' : A -> Asn) :
  hoare P m Q -> (forall d c, P' d c -> P d c) -> (forall a d c, Q a d c -> Q' a d c) -> hoare P' m Q'.
Proof. intros H HP HQ w Hi Hp. destruct (H w Hi (HP _ _ Hp)) as [Hi1 Hq]. split; [done|]. destruct (m w).1; [by apply HQ|done..]. Qed.

Lemma t_pure {A} (C : Prop) (P : Asn) (m : M A) Q : (C -> hoare P m Q) -> hoare (fun d c => C /\ P d c) m Q.
Proof. intros H w Hi [HC Hp]. by apply (H HC). Qed.

Lemma t_ensure {B} P b e (k : unit -> M B) Q : (b = true -> hoare P (k tt) Q) -> hoare P (mbind (ensure b e) k) Q.
Proof. intros H. destruct b; [by apply H|apply (t_throw e)]. Qed.
Lemma t_lift {A B} P (r : result PullError A) (k : A -> M B) Q : (forall a, r = Ok a -> hoare P (k a) Q) -> hoare P (mbind (lift r) k) Q.
Proof. intros H. destruct r as [a|e]; [by apply H|apply (t_throw e)]. Qed.
Lemma t_no_panic {A B} P (o : option A) (k : A -> M B) Q : (forall a, o = Some a -> hoare P (k a) Q) -> hoare P (mbind (no_panic o) k) Q.
Proof. intros H. destruct o as [a|]; [by apply H|apply t_dead]. Qed.

(** A step that keeps [P] and tells nothing more. *)
Lemma t_step {A B} P (m : M A) (k : A -> M B) Q : Framed m -> Stable P -> (forall a, hoare P (k a) Q) -> hoare P (mbind m k) Q.
Proof. intros Hm Hs Hk. eapply t_bind; [by apply t_frame|done]. Qed.

Lemma t_try {A} P (m : M A) Q : Framed m -> Stable P -> hoare P m Q ->
  hoare P (try m) (fun r d c => P d c /\ match r with Ok a => Q a d c | Err _ => True end).
Proof.
  intros Hf Hs Hm w Hi Hp. destruct (t_frame P m Hf Hs w Hi Hp) as [Hi1 _]. destruct (Hf w Hi) as [_ [Hc Hd]].
  destruct (Hm w Hi Hp) as [_ Hq]. unfold try. destruct (m w) as [[a|e|] w1]; cbn in *; (split; [done|]); [|split; [by apply (Hs (disk w) (cloud w))|done]|done].
  split; [by apply (Hs (disk w) (cloud w))|done].
Qed.

Lemma t_query {A} P (q : Db -> result PullError A) : Stable P -> hoare P (query q) (fun a d c => q (tables d) = Ok a /\ P d c).
Proof.
  intros Hs. apply t_step; [apply frame_tick|done|]. intros _ w Hi Hp. split; [by apply (Inv_same w)|]. cbn.
  destruct (head (tx_faults w)) as [[]|]; try done; destruct (q (tables (disk w))) as [a|e] eqn:E; done.
Qed.

(** No position saved is beyond [c0], which the cloud has left behind. *)
Definition From (c0 : Cloud) : Asn := fun d c => cloud_le c0 c /\ Bounded c0 d.

Lemma From_stable c0 : Stable (From c0).
Proof. intros d c d' c' Hc Hd [H1 H2]. split; [by eapply cloud_le_trans|by eapply Bounded_le]. Qed.

Lemma From_now w : Inv w -> From (cloud w) (disk w) (cloud w).
Proof. intros Hi. split; [apply cloud_le_refl|]. apply DiskOk_bounded, Hi, iv_disk, Hi. Qed.

Lemma t_request {A} P (s : Cloud -> A) : Stable P ->
  hoare P (request s) (fun r d c => r.2 = s r.1 /\ From r.1 d c /\ P d c).
Proof.
  intros Hs. apply t_step; [apply frame_tick|done|]. intros _ w Hi Hp. cbn [fst snd]. split; [by apply (Inv_same w)|].
  destruct (default true _); [|done]. split; [done|]. split; [exact (From_now w Hi)|done].
Qed.

Lemma t_pairing {A} b P (m : M A) Q : Stable P -> (forall a, Stable (Q a)) -> hoare P m Q -> hoare P (with_pairing b m) Q.
Proof.
  intros Hs Hq Hm. apply t_step; [apply frame_tick|done|]. intros _ w Hi Hp. destruct (ChargePush.check_pairing _ _); [|done].
  destruct (Hm (set_held w true)) as [Hi1 Hq1]; [by apply (Inv_same w)|done|]. destruct (m (set_held w true)) as [r w1]. cbn [fst snd] in *.
  split; [by apply (Inv_same w1)|]. destruct r; done.
Qed.

Lemma t_tx P f (Q : Asn) : Stable P ->
  (forall w t, Inv w -> P (disk w) (cloud w) -> f (tables (disk w)) = Ok t ->
     DiskOk (cloud w) (with_tables (disk w) t) /\ Q (with_tables (disk w) t) (cloud w)) ->
  hoare P (transaction f) (fun _ => Q).
Proof.
  intros Hs Hf. apply t_step; [apply frame_tick|done|]. intros _ w Hi Hp. cbv zeta.
  assert (Inv (set_tx w (tail (tx_faults w)))) as Hi1 by (by apply (Inv_same w)).
  destruct (f (tables (disk w))) as [t|e] eqn:Ef; [|by destruct (head (tx_faults w)) as [[]|]].
  destruct (Hf w t Hi Hp Ef) as [Hd Hq].
  pose proof (Inv_disk (set_tx w (tail (tx_faults w))) (with_tables (disk w) t) Hi1 Hd) as Hi2.
  destruct (head (tx_faults w)) as [[]|]; done.
Qed.

Lemma stable_and (P Q : Asn) : Stable P -> Stable Q -> Stable (fun d c => P d c /\ Q d c).
Proof. intros HP HQ d c d' c' Hc Hd [H1 H2]. split; [by apply (HP d c)|by apply (HQ d c)]. Qed.
Lemma stable_pure (C : Prop) : Stable (fun _ _ => C).
Proof. by intros d c d' c' _ _. Qed.

(** ** Applying records *)

(** A record was dealt with as [c0] had it. *)
Definition handled (c0 : Cloud) (b : str) (done_ : list Target) : Asn := fun d _ =>
  forall t r, t ∈ done_ -> rev_of c0 b t = Some r -> seen_to d b t r.

Lemma handled_stable c0 b l : Stable (handled c0 b l).
Proof.
  intros d c d' c' _ [_ Hs] H t r Ht Hr. destruct (H t r Ht Hr) as (n & Hn & Hle). apply Hs in Hn as (n' & Hn' & ?). exists n'. split; [done|lia].
Qed.

Lemma handled_app c0 b l k d c : handled c0 b l d c -> handled c0 b k d c -> handled c0 b (l ++ k) d c.
Proof. intros H1 H2 t r [?|?]%elem_of_app; [by apply H1|by apply H2]. Qed.

Lemma handled_nil c0 b d c : handled c0 b [] d c.
Proof. by intros t r ?%elem_of_nil. Qed.

Create HintDb stable discriminated.
#[local] Hint Resolve stable_and stable_pure From_stable handled_stable : stable.

Lemma t_mark P b c0 t : Stable P -> hoare P (mark_seen b c0 t) (fun _ d c => P d c /\ handled c0 b [t] d c).
Proof.
  intros Hs w Hi Hp. destruct (frame_mark b c0 t w Hi) as [Hi1 [Hc Hd]]. split; [done|]. cbn [fst mark_seen].
  split; [by apply (Hs (disk w) (cloud w))|]. intros t' r Ht Hr. apply list_elem_of_singleton in Ht as ->. unfold mark_seen. cbn [snd].
  rewrite Hr. eexists. cbn [seen disk set_disk]. rewrite lookup_insert_eq. split; [done|lia].
Qed.

Lemma t_mark_all b c0 l : forall P, Stable P -> hoare P (mark_all b c0 l) (fun _ d c => P d c /\ handled c0 b l d c).
Proof.
  induction l as [|t l IH]; intros P Hs; cbn [mark_all]; [apply t_ret; intros; by split; [|apply handled_nil]|].
  eapply t_bind; [by apply t_mark|]. intros []. eapply (t_conseq (fun d c => P d c /\ handled c0 b [t] d c)); [apply IH; auto with stable|done|].
  intros [] d c [[HP H1] H2]. split; [done|]. by apply (handled_app c0 b [t] l).
Qed.

Lemma frame_mark_all b c0 l : Framed (mark_all b c0 l).
Proof. induction l as [|t l IH]; cbn [mark_all]; frame. Qed.

Lemma apply_sync_meta d ts i k tags cost d' : apply_charge_mutable_from_sync d ts i k tags cost = Ok d' -> meta d' = meta d.
Proof.
  unfold apply_charge_mutable_from_sync. intros H. destruct (charge_uploads d !! ts) as [[[i' k'] at_]|]; [|by injection H as <-].
  destruct (negb _); [done|]. case_bool_decide; [by injection H as <-|]. cbv zeta in H.
  destruct cost as [[am cu]|]; [destruct (cost_ok am); [|done]|]; injection H as <-; by destruct (is_empty k').
Qed.

Lemma frame_charge cr pk dirty cc : Framed (apply_charge_change cr pk dirty cc).
Proof.
  unfold apply_charge_change, open_mutable. frame. apply frame_tx. intros d d' H k _. unfold in_db in H.
  destruct (apply_charge_mutable_from_sync _ _ _ _ _ _) as [x|] eqn:E; [|done]. injection H as <-.
  unfold meta_get. by rewrite (apply_sync_meta _ _ _ _ _ _ _ E).
Qed.
#[local] Hint Resolve frame_charge frame_mark_all : frame.

Lemma frame_charges cr pk dirty l : Framed (apply_charges cr pk dirty l).
Proof. induction l as [|cc l IH]; cbn [apply_charges]; frame. Qed.
#[local] Hint Resolve frame_charges : frame.

Lemma frame_rate cr pk dirty rc : Framed (apply_rate_change cr pk dirty rc).
Proof. unfold apply_rate_change. frame. apply frame_delegate. intros s d. apply store_feed. Qed.
#[local] Hint Resolve frame_rate : frame.

Lemma frame_page cr pk parsed : Framed (apply_change_page cr pk parsed).
Proof. unfold apply_change_page. frame. Qed.
#[local] Hint Resolve frame_page : frame.

Lemma t_guarded {A} b ctx P (m : M A) Q : Stable P -> (forall a, Stable (Q a)) -> hoare P m Q -> hoare P (guarded b ctx m) Q.
Proof.
  intros Hs Hq Hm. unfold guarded. apply t_pairing; [done|done|]. apply t_step; [frame|done|]. intros _.
  apply t_step; [frame|done|]. by intros _.
Qed.

(** The loops account for every record: it is put off, done or failed, and what
    is done was dealt with. *)
Definition Split (c0 : Cloud) (b : str) (P : Asn) (all : Target -> Prop) (rs : list Target) (done_ failed : list Target) : Asn := fun d c =>
  (forall t, all t -> t ∈ rs \/ t ∈ done_ \/ t ∈ failed) /\ P d c /\ handled c0 b done_ d c.

Lemma Split_stable c0 b P all rs dn fl : Stable P -> Stable (Split c0 b P all rs dn fl).
Proof. intros Hs. unfold Split. auto with stable. Qed.
#[local] Hint Resolve Split_stable : stable.

Lemma frame_guarded {A} b ctx (m : M A) : Framed m -> Framed (guarded b ctx m).
Proof. intros Hm. unfold guarded. frame. Qed.

Lemma frame_apply_items cr pk b ctx c0 items : forall rs dn fl, Framed (apply_items cr pk b ctx c0 items rs dn fl).
Proof.
  induction items as [|i items IH]; intros rs dn fl; cbn [apply_items]; [frame|]. case_bool_decide; [apply IH|].
  apply frame_bind; [apply frame_guarded; frame|]. intros []; apply IH.
Qed.

Lemma t_one_item cr pk b c0 P i : Stable P ->
  hoare P (do parsed ← no_panic (changes [i]);
           do r ← try (apply_change_page cr pk parsed);
           match r with Ok _ => do _ ← mark_seen b c0 (target i); mret true | Err _ => mret false end)
    (fun ok d c => P d c /\ if ok : bool then handled c0 b [target i] d c else True).
Proof.
  intros Hs. apply t_no_panic. intros parsed _. apply t_step; [frame|done|]. intros [u|e].
  - eapply t_bind; [by apply t_mark|]. intros []. by apply t_ret.
  - apply t_ret. by intros d c Hp.
Qed.

Lemma t_apply_items cr pk b ctx c0 P all items : Stable P -> forall rs dn fl,
  (forall t, all t -> t ∈ target <$> items \/ t ∈ rs \/ t ∈ dn \/ t ∈ fl) ->
  hoare (fun d c => P d c /\ handled c0 b dn d c) (apply_items cr pk b ctx c0 items rs dn fl)
    (fun r => Split c0 b P all r.1.1 r.1.2 r.2).
Proof.
  intros Hs. induction items as [|i items IH]; intros rs dn fl Hall; cbn [apply_items].
  - apply t_ret. intros d c [Hp Hh]. split; [|done]. intros t Ht. destruct (Hall t Ht) as [?%elem_of_nil|]; done.
  - assert (forall t, all t -> t = target i \/ t ∈ target <$> items \/ t ∈ rs \/ t ∈ dn \/ t ∈ fl) as Hall'.
    { intros t [H%elem_of_cons|?]%Hall; naive_solver. }
    case_bool_decide as Hrt.
    { apply IH. intros t Ht. rewrite elem_of_app, list_elem_of_singleton. destruct (Hall' t Ht); naive_solver. }
    eapply t_bind; [apply t_guarded; [auto with stable| |apply t_one_item; auto with stable]|].
    { intros [] d c d' c' Hc Hd [[HP Hh] H]; (split; [split; [by apply (Hs d c)|by apply (handled_stable c0 b dn d c)]|]); [|done].
      by apply (handled_stable c0 b [target i] d c d' c'). }
    intros [].
    + eapply t_conseq; [apply (IH rs (dn ++ [target i]) fl)| |done].
      * intros t Ht. rewrite elem_of_app, list_elem_of_singleton. destruct (Hall' t Ht); naive_solver.
      * intros d c [[HP Hh] H]. split; [done|]. by apply handled_app.
    + eapply t_conseq; [apply (IH rs dn (fl ++ [target i]))| |done].
      * intros t Ht. rewrite elem_of_app, list_elem_of_singleton. destruct (Hall' t Ht); naive_solver.
      * by intros d c [[HP Hh] _].
Qed.

Lemma frame_prepare cr pk ids : Framed (prepare_routes cr pk ids).
Proof. apply frame_bind; [apply frame_tick|]. intros _. by apply (frame_same (fun w => Ret _) (fun w => w)). Qed.
#[local] Hint Resolve frame_prepare : frame.

Lemma frame_group b ctx c0 g p : Framed (apply_group b ctx c0 g p).
Proof. unfold apply_group. apply frame_guarded. frame. apply frame_delegate. intros s d. apply projection_feed. Qed.
#[local] Hint Resolve frame_group : frame.

Lemma frame_groups fuel cr pk b ctx c0 : forall gs dn fl, Framed (apply_groups fuel cr pk b ctx c0 gs dn fl).
Proof. induction fuel as [|fuel IH]; intros [|g gs] dn fl; cbn [apply_groups]; frame. Qed.
#[local] Hint Resolve frame_apply_items frame_groups : frame.

Lemma frame_apply cr pk items ctx c0 : Framed (apply cr pk items ctx c0).
Proof. unfold apply. frame. Qed.
#[local] Hint Resolve frame_apply : frame.

Lemma t_group b ctx c0 P g p : Stable P ->
  hoare P (apply_group b ctx c0 g p) (fun v d c => P d c /\ match v with VDone => handled c0 b g d c | _ => True end).
Proof.
  intros Hs. unfold apply_group. apply t_guarded; [done| |].
  { intros []; auto with stable. }
  destruct p as [[pr|]|u].
  - apply t_step; [apply frame_try, frame_delegate; intros; apply projection_feed|done|]. intros [[]|e].
    + eapply t_bind; [by apply t_mark_all|]. intros []. by apply t_ret.
    + by apply t_ret.
  - eapply t_bind; [by apply t_mark_all|]. intros []. by apply t_ret.
  - apply t_ret. intros d c Hp. split; [done|]. by destruct (_ && _).
Qed.

Lemma t_groups fuel cr pk b ctx c0 P all : Stable P -> forall gs dn fl,
  (forall t, all t -> t ∈ List.concat gs \/ t ∈ dn \/ t ∈ fl) ->
  hoare (fun d c => P d c /\ handled c0 b dn d c) (apply_groups fuel cr pk b ctx c0 gs dn fl) (fun r => Split c0 b P all [] r.1 r.2).
Proof.
  intros Hs. induction fuel as [|fuel IH]; intros [|g gs] dn fl Hall; cbn [apply_groups].
  1, 3: apply t_ret; intros d c [Hp Hh]; split; [|done]; intros t Ht; destruct (Hall t Ht) as [?%elem_of_nil|]; naive_solver.
  { apply (t_throw ERunning). }
  cbn [List.concat] in Hall. apply t_step; [apply frame_cancel|auto with stable|]. intros _.
  apply t_step; [apply frame_prepare|auto with stable|]. intros p.
  eapply t_bind; [apply t_group; auto with stable|]. intros [].
  - eapply t_conseq; [apply (IH gs (dn ++ g) fl)| |done].
    + intros t Ht. specialize (Hall t Ht). rewrite elem_of_app in *. naive_solver.
    + intros d c [[Hp Hh] H]. split; [done|]. by apply handled_app.
  - eapply t_conseq; [apply (IH gs dn (fl ++ g))| |done].
    + intros t Ht. specialize (Hall t Ht). rewrite elem_of_app in *. naive_solver.
    + by intros d c [[Hp Hh] _].
  - cbv zeta. eapply t_conseq; [apply IH| |done].
    + intros t Ht. specialize (Hall t Ht). cbn [List.concat]. rewrite app_assoc, take_drop. done.
    + by intros d c [[Hp Hh] _].
Qed.

(** Applying accounts for every record of the list. *)
Lemma t_apply cr pk items ctx c0 P : Stable P ->
  hoare P (apply cr pk items ctx c0)
    (fun r => Split c0 (ChargePush.binding cr) P (fun t => t ∈ target <$> items) [] r.1 r.2).
Proof.
  intros Hs. unfold apply. eapply t_bind.
  { eapply t_conseq; [apply (t_apply_items cr pk _ ctx c0 P (fun t => t ∈ target <$> items) items Hs [] [] [])| |done].
    - by left.
    - intros d c Hp. split; [done|apply handled_nil]. }
  intros [[rs dn] fl]. cbn [fst snd]. unfold Split at 1. apply t_pure. intros Hall. apply t_groups; [done|].
  intros t Ht. destruct (Hall t Ht) as [Hr|]; [left|by right]. destruct rs as [|x rs]; [by apply elem_of_nil in Hr|]. cbn. by rewrite app_nil_r.
Qed.

(** ** Saving progress *)

(** Entries go only for records dealt with. *)
Lemma deals_drop c0 c b dn d t' : 58 ∉ b -> cloud_le c0 c -> handled c0 b dn d c ->
  (forall b' t, 58 ∉ b' -> ~ (b' = b /\ t ∈ dn) -> is_Some (meta_get (tables d) (key b' t)) -> is_Some (meta_get t' (key b' t))) ->
  deals_on c0 c d (with_tables d t').
Proof.
  intros Hb Hc Hh Hk b' t r Hb' Hr Hle [Hkept|Hseen]; [|by right].
  destruct (decide (b' = b /\ t ∈ dn)) as [[-> Ht]|Hn]; [right|left].
  - apply (Hh t r Ht). by eapply cloud_le_old; [| |exact Hle|].
  - by apply Hk.
Qed.

Lemma key_not_done b (dn : list Target) b' t : 58 ∉ b -> 58 ∉ b' -> ~ (b' = b /\ t ∈ dn) -> key b' t ∉ key b <$> dn.
Proof. intros Hb Hb' Hn (t' & E & Ht')%list_elem_of_fmap. apply key_inj in E as [-> ->]; [by apply Hn|done..]. Qed.

Lemma record_deals c0 c n b fl dn d d1 : 58 ∉ b -> cloud_le c0 c -> handled c0 b dn d c -> record n b fl dn (tables d) = Ok d1 ->
  deals_on c0 c d (with_tables d d1).
Proof.
  intros Hb Hc Hh Hr. apply (deals_drop c0 c b dn); [done..|]. intros b' t Hb' Hn Hs.
  destruct (record_get n b fl dn _ _ (key b' t) Hr (fk_retry b' t)) as [H1 H2].
  pose proof (key_not_done b dn b' t Hb Hb' Hn) as Hd. destruct (decide (key b' t ∈ key b <$> fl)); [by apply H2|by rewrite H1].
Qed.

Lemma record_failed c0 c n b fl dn d d1 t r : 58 ∉ b -> handled c0 b dn d c -> record n b fl dn (tables d) = Ok d1 ->
  t ∈ fl \/ t ∈ dn -> rev_of c0 b t = Some r -> dealt (with_tables d d1) b t r.
Proof.
  intros Hb Hh Hr Ht Hrev. destruct (decide (t ∈ dn)) as [Hd|Hd]; [right; by apply (Hh t r)|left].
  destruct Ht as [Ht|]; [|done]. destruct (record_get n b fl dn _ _ (key b t) Hr (fk_retry b t)) as [_ H2]. apply H2.
  - by apply list_elem_of_fmap_2.
  - apply key_not_done; [done..|]. naive_solver.
Qed.

Lemma record_walk n b fl dn d d1 : record n b fl dn d = Ok d1 ->
  meta_get d1 CHECKPOINT_KEY = meta_get d CHECKPOINT_KEY /\ meta_get d1 WALK_KEY = meta_get d WALK_KEY.
Proof.
  intros Hr. split; (apply (record_get n b fl dn d d1 _ Hr); [constructor|..]);
    intros (t & E & _)%list_elem_of_fmap; destruct (key_not_walk b t) as [H1 H2]; congruence.
Qed.

(** The task's position in the feed. *)
Definition FeedAt (b : str) (i s : option str) (w : Walk) : Asn := fun d c =>
  meta_get (tables d) CHECKPOINT_KEY = i /\ meta_get (tables d) WALK_KEY = s /\ WalkOk c d b w.

Lemma FeedAt_stable b i s w : 58 ∉ b -> Stable (FeedAt b i s w).
Proof.
  intros Hb d c d' c' Hc Hd (H1 & H2 & H3). split; [|split].
  - by rewrite (proj1 Hd _ fk_checkpoint).
  - by rewrite (proj1 Hd _ fk_walk).
  - by eapply WalkOk_le.
Qed.

Lemma check_progress_Ok i s d u : check_progress i s d = Ok u -> meta_get d CHECKPOINT_KEY = i /\ meta_get d WALK_KEY = s.
Proof. unfold check_progress, check_that. destruct (_ && _) eqn:E; [|done]. by rewrite andb_true_iff, !bool_decide_eq_true in E. Qed.

Lemma validate_Ok w p pi w' : validate w p pi = Ok w' ->
  since w' = since w /\ checkpoint w' = Some (sync_revision p) /\ cursor w' = next_cursor p /\
  (exists n, revision (sync_revision p) = Ok n) /\ (forall s, checkpoint w = Some s -> s = sync_revision p).
Proof.
  unfold validate. intros H. apply rbind_Ok in H as ([] & _ & H). apply rbind_Ok in H as (n & Hn & H). apply rbind_Ok in H as ([] & _ & H).
  apply rbind_Ok in H as ([] & Hc & H). apply rbind_Ok in H as ([] & _ & H). apply rbind_Ok in H as (l & _ & H). injection H as <-.
  split; [done|]. split; [done|]. split; [done|]. split; [by exists n|]. intros s Hs. rewrite Hs in Hc. unfold check_that in Hc.
  by case_bool_decide.
Qed.

(** A page applied: all the walk has passed by then is dealt with. *)
Lemma page_deals c0 c cr w p pi w' n fl dn d d1 nonce t r :
  serve_page c0 cr (path w) = PageOk (Some p) -> validate w p pi = Ok w' -> revision (sync_revision p) = Ok n ->
  From c0 d c -> WalkOk c d (ChargePush.binding cr) w ->
  (forall t, t ∈ target <$> pg_items p -> t ∈ @nil Target \/ t ∈ dn \/ t ∈ fl) -> handled c0 (ChargePush.binding cr) dn d c ->
  record nonce (ChargePush.binding cr) fl dn (tables d) = Ok d1 ->
  rev_of c (ChargePush.binding cr) t = Some r -> r <= n -> in_scope (since w) r ->
  (forall cu, next_cursor p = Some cu -> order_lt (place cu) (order_of (since w) r t) = false) ->
  dealt (with_tables d d1) (ChargePush.binding cr) t r.
Proof.
  intros Hserve Hval Hn [Hle Hbd] [_ _ W3 W4] Hall Hh Hrec Hr Hrn Hsc Hnext. set (b := ChargePush.binding cr) in *.
  pose proof (binding_colon cr) as Hb. fold b in Hb.
  pose proof (page_checkpoint c0 cr w p n Hserve Hn) as Hhead. fold b in Hhead.
  pose proof (cloud_le_old c0 c b t r n Hle Hr Hrn Hhead) as Hr0.
  destruct (validate_Ok w p pi w' Hval) as (_ & _ & _ & _ & Hsame).
  assert (walked w r t \/ forall cu, cursor w = Some cu -> order_lt (place cu) (order_of (since w) r t) = true) as [Hw|Hw].
  { unfold walked. destruct (cursor w) as [cu|]; [|by right]. destruct (order_lt _ _) eqn:E; [right; by intros ? [= <-]|by left]. }
  - apply (record_deals c0 c nonce b fl dn d d1 Hb Hle Hh Hrec); [done|done|lia|].
    destruct Hw as [Hsc' Hcu]. destruct (cursor w) as [cu|] eqn:Ecu; [|done]. destruct (W3 (mk_is_Some _ _ eq_refl)) as [s Es].
    apply (W4 s n); [done|by rewrite (Hsame s Es)|done|done|]. split; [done|by rewrite Ecu].
  - apply (record_failed c0 c nonce b fl dn d d1 t r Hb Hh Hrec); [|done].
    destruct (Hall t) as [?%elem_of_nil|[?|?]]; [|done|by right|by left].
    by apply (page_complete c0 cr w p n t r).
Qed.

(** The situation before a page is saved. *)
Definition Applied (cr : CloudCredentialsV1) (i s : option str) (w : Walk) (c0 : Cloud) (p : Page) (dn fl : list Target) : Asn := fun d c =>
  (forall t, t ∈ target <$> pg_items p -> t ∈ @nil Target \/ t ∈ dn \/ t ∈ fl) /\
  (FeedAt (ChargePush.binding cr) i s w d c /\ From c0 d c) /\ handled c0 (ChargePush.binding cr) dn d c.

Lemma Applied_stable cr i s w c0 p dn fl : Stable (Applied cr i s w c0 p dn fl).
Proof. unfold Applied. pose proof (binding_colon cr). auto using FeedAt_stable with stable. Qed.

Lemma since_checkpoint b rev n : revision rev = Ok n ->
  since_of b (Some (checkpoint_raw {| cp_version := 2; cp_binding := b; cp_revision := rev |})) = Some rev.
Proof. intros Hn. cbn. rewrite checkpoint_round. cbn. by rewrite bool_decide_true, Hn. Qed.

Lemma since_of_revision b i s : since_of b i = Some s -> exists n, revision s = Ok n.
Proof.
  unfold since_of. destruct i as [raw|]; [|done]. cbn. destruct (checkpoint_of raw) as [cp|]; [|done]. cbn.
  destruct (revision (cp_revision cp)) as [n|] eqn:E; [|by rewrite andb_false_r]. destruct (_ && _); [|done]. intros [= <-]. by exists n.
Qed.

Lemma since_other b b' rev : b' <> b ->
  since_of b' (Some (checkpoint_raw {| cp_version := 2; cp_binding := b; cp_revision := rev |})) = None.
Proof. intros Hne. cbn. rewrite checkpoint_round. cbn. by rewrite bool_decide_false by congruence. Qed.

(** A pull of this pairing has finished. *)
Definition Finished (b : str) : Asn := fun d _ =>
  exists s n, since_of b (meta_get (tables d) CHECKPOINT_KEY) = Some s /\ revision s = Ok n.

Lemma Finished_stable b : Stable (Finished b).
Proof. intros d c d' c' _ [Hf _] (s & n & H & Hn). exists s, n. by rewrite (Hf _ fk_checkpoint). Qed.

Section page.
Context (cr : CloudCredentialsV1) (i s : option str) (w w' : Walk) (c0 : Cloud) (p : Page) (pi : str) (dn fl : list Target) (nonce : option (list Z)).
Hypothesis (Hserve : serve_page c0 cr (path w) = PageOk (Some p)) (Hval : validate w p pi = Ok w').
Notation b := (ChargePush.binding cr).

Lemma finish_ok x rev t' : Inv x -> Applied cr i s w c0 p dn fl (disk x) (cloud x) -> cursor w' = None -> checkpoint w' = Some rev ->
  finish_walk nonce b i s fl dn (checkpoint_raw {| cp_version := 2; cp_binding := b; cp_revision := rev |}) (tables (disk x)) = Ok t' ->
  DiskOk (cloud x) (with_tables (disk x) t') /\ Finished b (with_tables (disk x) t') (cloud x).
Proof.
  intros Hi (Hall & ((Hck & Hwk & Hw) & Hfr) & Hh) Hcu Hrev Hf. pose proof (binding_colon cr) as Hb.
  unfold finish_walk in Hf. apply rbind_Ok in Hf as ([] & _ & Hf). apply rbind_Ok in Hf as (d1 & Hrec & Hf). injection Hf as <-.
  destruct (validate_Ok w p pi w' Hval) as (_ & Hcp & Hcu' & (n & Hn) & _). rewrite Hcu in Hcu'. rewrite Hrev in Hcp. injection Hcp as ->.
  destruct Hfr as [Hle Hbd]. pose proof (page_checkpoint c0 cr w p n Hserve Hn) as Hhead.
  set (t' := meta_del (meta_set d1 CHECKPOINT_KEY _) WALK_KEY).
  assert (meta_get t' CHECKPOINT_KEY = Some (checkpoint_raw {| cp_version := 2; cp_binding := b; cp_revision := sync_revision p |})) as Et.
  { unfold t'. rewrite get_del_ne by (intros E; by apply checkpoint_not_walk). apply get_set_eq. }
  assert (forall t r, dealt (with_tables (disk x) d1) b t r -> dealt (with_tables (disk x) t') b t r) as Hon.
  { intros t r [Hk|Hs]; [left|by right]. unfold kept_back, t' in *. destruct (key_not_walk b t) as [N1 N2].
    cbn [tables with_tables]. by rewrite get_del_ne, get_set_ne by congruence. }
  pose proof (iv_kept x Hi _ (iv_disk x Hi)) as Ok0. split.
  - split; cbn [tables with_tables]; rewrite Et.
    + intros b' s' n' Hb' Hs' Hn'. destruct (decide (b' = b)) as [->|Hne]; [|by rewrite since_other in Hs'].
      rewrite (since_checkpoint _ _ n Hn) in Hs'. injection Hs' as <-. rewrite Hn in Hn'. injection Hn' as <-.
      destruct (Hle b). lia.
    + intros b' s' n' t r Hb' Hs' Hn' Hr Hrn. destruct (decide (b' = b)) as [->|Hne]; [|by rewrite since_other in Hs'].
      rewrite (since_checkpoint _ _ n Hn) in Hs'. injection Hs' as <-. rewrite Hn in Hn'. injection Hn' as <-. apply Hon.
      assert (in_scope (since w) r \/ exists s0 n0, since_of b (meta_get (tables (disk x)) CHECKPOINT_KEY) = Some s0 /\ revision s0 = Ok n0 /\ r <= n0)
        as [Hsc|(s0 & n0 & Hs0 & Hn0 & Hr0)].
      { destruct (since w) as [s0|] eqn:Es; [|by left]. destruct (wo_since _ _ _ _ Hw) as [E|E]; [congruence|]. rewrite Es in E.
        destruct (since_of_revision _ _ _ (eq_sym E)) as (n0 & E0).
        destruct (Z.le_gt_cases r n0); [right; by exists s0, n0|left; by exists n0]. }
      * eapply page_deals; [done..|by split|exact Hw|exact Hall|exact Hh|exact Hrec|done|done|done|]. intros cu. by rewrite <- Hcu'.
      * apply (record_deals c0 (cloud x) nonce b fl dn (disk x) d1 Hb Hle Hh Hrec); [done|done| |by eapply (do_passed _ _ Ok0)].
        pose proof (bd_checkpoint _ _ Hbd b s0 n0 Hb Hs0 Hn0). lia.
    + intros b' raw' s' _ Hraw. unfold t' in Hraw. by rewrite get_del_eq in Hraw.
  - exists (sync_revision p), n. cbn [tables with_tables]. rewrite Et. by rewrite (since_checkpoint _ _ n Hn).
Qed.

Lemma save_ok x t' : Inv x -> Applied cr i s w c0 p dn fl (disk x) (cloud x) -> is_Some (cursor w') ->
  let next := saved_raw {| sw_version := 1; sw_binding := b; sw_base := i; sw_walk := w' |} in
  save_walk nonce b i s fl dn next (tables (disk x)) = Ok t' ->
  DiskOk (cloud x) (with_tables (disk x) t') /\ FeedAt b i (Some next) w' (with_tables (disk x) t') (cloud x).
Proof.
  intros Hi (Hall & ((Hck & Hwk & Hw) & Hfr) & Hh) Hcu next Hf. pose proof (binding_colon cr) as Hb.
  unfold save_walk in Hf. apply rbind_Ok in Hf as ([] & _ & Hf). apply rbind_Ok in Hf as (d1 & Hrec & Hf). injection Hf as <-.
  destruct (validate_Ok w p pi w' Hval) as (Hsi & Hcp & Hcu' & (n & Hn) & _). destruct Hfr as [Hle Hbd].
  pose proof (page_checkpoint c0 cr w p n Hserve Hn) as Hhead. destruct (record_walk _ _ _ _ _ _ Hrec) as [Rck _].
  set (t' := meta_set d1 WALK_KEY next).
  assert (meta_get t' CHECKPOINT_KEY = i) as Et.
  { unfold t'. rewrite get_set_ne by (intros E; by apply checkpoint_not_walk). by rewrite Rck. }
  assert (forall b' t r, dealt (with_tables (disk x) d1) b' t r -> dealt (with_tables (disk x) t') b' t r) as Hon.
  { intros b' t r [Hk|Hs]; [left|by right]. unfold kept_back, t' in *. destruct (key_not_walk b' t) as [N1 N2].
    cbn [tables with_tables]. by rewrite get_set_ne by congruence. }
  pose proof (iv_kept x Hi _ (iv_disk x Hi)) as Ok0.
  assert (WalkOk (cloud x) (with_tables (disk x) t') b w') as Hw'.
  { split; cbn [tables with_tables]; rewrite ?Hsi, ?Et, ?Hcp.
    - pose proof (wo_since _ _ _ _ Hw) as E. by rewrite Hck in E.
    - intros s' n' [= <-] Hn'. rewrite Hn in Hn'. injection Hn' as <-. destruct (Hle b). lia.
    - done.
    - intros s' n' t r [= <-] Hn' Hr Hrn [Hsc Hwa]. rewrite Hn in Hn'. injection Hn' as <-. apply Hon. rewrite Hsi in *.
      eapply page_deals; [done..|by split|exact Hw|exact Hall|exact Hh|exact Hrec|done|done|done|].
      intros cu Ecu. by rewrite Hcu', Ecu in Hwa. }
  pose proof (record_deals c0 (cloud x) nonce b fl dn (disk x) d1 Hb Hle Hh Hrec) as Hdeal.
  split; [|by split; [|split; [apply get_set_eq|]]].
  assert (deals_on c0 (cloud x) (disk x) (with_tables (disk x) t')) as Hd by (intros b' t r Hb' Hr Hrn Hd; by apply Hon, Hdeal).
  split; cbn [tables with_tables]; rewrite ?Et, <- ?Hck.
  - apply Ok0.
  - intros b' s' n' t r Hb' Hs' Hn' Hr Hrn. apply Hd; [done|done| |by eapply (do_passed _ _ Ok0)].
    pose proof (bd_checkpoint _ _ Hbd b' s' n' Hb' Hs' Hn'). lia.
  - intros b' raw s' Hb' Hraw Hs' Hbi Hba. unfold t' in Hraw. rewrite get_set_eq in Hraw. injection Hraw as <-.
    unfold next in Hs'. rewrite saved_round in Hs'. injection Hs' as <-. cbn in Hbi. by subst b'.
Qed.

End page.

Lemma new_walk_ok c d b s : s = None \/ s = since_of b (meta_get (tables d) CHECKPOINT_KEY) -> WalkOk c d b (new_walk s).
Proof. intros Hs. split; [done|done|by intros [? ?]|done]. Qed.

Lemma start_walk_ok c d b pi : 58 ∉ b -> DiskOk c d ->
  WalkOk c d b (start_walk b pi (meta_get (tables d) CHECKPOINT_KEY) (meta_get (tables d) WALK_KEY)).
Proof.
  intros Hb Hd. unfold start_walk. destruct (meta_get (tables d) WALK_KEY) as [raw|] eqn:Er; [|apply new_walk_ok; by right].
  cbn. destruct (saved_of raw) as [r|] eqn:Es; [|apply new_walk_ok; by right]. destruct (_ && _) eqn:E; [|apply new_walk_ok; by right].
  rewrite !andb_true_iff, !bool_decide_eq_true in E. eapply (do_walk _ _ Hd b raw r); naive_solver.
Qed.

(** A reset gives up the walk, not the checkpoint. *)
Lemma reset_ok b i s x t' : Inv x -> FeedAt b i s (new_walk None) (disk x) (cloud x) -> reset_walk i s (tables (disk x)) = Ok t' ->
  DiskOk (cloud x) (with_tables (disk x) t') /\ FeedAt b i None (new_walk None) (with_tables (disk x) t') (cloud x).
Proof.
  intros Hi (Hck & _ & _) Hf. unfold reset_walk in Hf. apply rbind_Ok in Hf as ([] & _ & Hf). injection Hf as <-.
  pose proof (iv_kept x Hi _ (iv_disk x Hi)) as Ok0. set (t' := meta_del _ _).
  assert (meta_get t' CHECKPOINT_KEY = meta_get (tables (disk x)) CHECKPOINT_KEY) as Et.
  { apply get_del_ne. intros E. by apply checkpoint_not_walk. }
  split; [|split; [by rewrite <- Hck|split; [apply get_del_eq|apply new_walk_ok; by left]]].
  split; cbn [tables with_tables]; rewrite ?Et; [apply Ok0| |].
  - intros b' s' n' t r Hb' Hs' Hn' Hr Hrn. destruct (do_passed _ _ Ok0 b' s' n' t r Hb' Hs' Hn' Hr Hrn) as [Hk|?]; [left|by right].
    unfold kept_back in *. cbn [tables with_tables]. unfold t'. rewrite get_del_ne; [done|]. intros E. by destruct (key_not_walk b' t).
  - intros b' raw s' _ Hraw. unfold t' in Hraw. by rewrite get_del_eq in Hraw.
Qed.

Lemma t_feed_loop fuel cr pk : let b := ChargePush.binding cr in forall i s w reset,
  hoare (FeedAt b i s w) (feed_loop fuel cr pk b i s w reset) (fun _ => Finished b).
Proof.
  intros b. pose proof (binding_colon cr) as Hb. induction fuel as [|fuel IH]; intros i s w reset; cbn [feed_loop]; [apply t_dead|].
  pose proof (FeedAt_stable b i s w Hb) as Hs.
  apply t_step; [frame|done|]. intros _. apply t_step; [unfold current_pairing; frame|done|]. intros _.
  eapply t_bind; [by apply t_request|]. intros [c0 response]. cbn [fst snd]. apply t_pure. intros Er.
  destruct response as [body|body|]; [| |apply (t_throw ERejected)].
  - apply t_lift. intros p Ep. apply t_lift. intros w' Hval. destruct body as [p0|]; [|done]. injection Ep as ->. symmetry in Er.
    eapply t_bind.
    { eapply t_conseq; [apply (t_apply cr pk (pg_items p) (mkProgress i s None) c0 (fun d c => FeedAt b i s w d c /\ From c0 d c)); auto with stable| |done].
      by intros d c [? ?]. }
    intros [dn fl]. change (Split c0 _ _ _ [] (dn, fl).1 (dn, fl).2) with (Applied cr i s w c0 p dn fl).
    pose proof (Applied_stable cr i s w c0 p dn fl) as Ha. destruct (cursor w') as [cu|] eqn:Ecu.
    + eapply (t_bind _ _ _ (fun _ => FeedAt b i (Some _) w')); [|intros _; apply IH].
      apply t_pairing; [done|intros _; by apply FeedAt_stable|]. apply t_step; [frame|done|]. intros _.
      apply t_step; [frame|done|]. intros nonce. apply t_tx; [done|]. intros x t' Hi Hp Hf.
      eapply (save_ok cr i s w w' c0 p (pi_id cr) dn fl nonce); [done..|by rewrite Ecu|done].
    + apply t_pairing; [done|intros _; apply Finished_stable|]. apply t_step; [frame|done|]. intros _. apply t_lift. intros rev Erev.
      apply t_step; [frame|done|]. intros nonce. apply t_tx; [done|]. intros x t' Hi Hp Hf.
      eapply (finish_ok cr i s w w' c0 p (pi_id cr) dn fl nonce); [done..| |done]. by apply ok_or_Ok in Erev.
  - apply t_lift. intros v _. destruct (negb reset && wants_reset body); [|apply (t_throw EReset)].
    eapply (t_bind _ _ _ (fun _ => FeedAt b i None (new_walk None))); [|intros _; apply IH].
    eapply (t_conseq (FeedAt b i s (new_walk None)) _ _ (fun _ => FeedAt b i None (new_walk None))); [|intros d c (_ & H1 & H2 & _); split; [done|split; [done|apply new_walk_ok; by left]]|done].
    apply t_pairing; [by apply FeedAt_stable|intros _; by apply FeedAt_stable|]. apply t_tx; [by apply FeedAt_stable|].
    intros x t' Hi Hp Hf. by apply (reset_ok b i s).
Qed.

Lemma t_pull_feed fuel cr pk : hoare (fun _ _ => True) (pull_feed fuel cr pk) (fun _ => Finished (ChargePush.binding cr)).
Proof.
  pose proof (binding_colon cr) as Hb. unfold pull_feed. set (b := ChargePush.binding cr) in *.
  eapply (t_bind _ _ _ (fun r => FeedAt b r.1 r.2 (start_walk b (pi_id cr) r.1 r.2))); [|intros [i s]; apply t_feed_loop].
  apply t_pairing; [apply stable_pure|intros r; by apply FeedAt_stable|].
  intros x Hi _. destruct (t_query (fun _ _ => True) (fun d => Ok (meta_get d CHECKPOINT_KEY, meta_get d WALK_KEY)) (stable_pure True) x Hi I) as [Hi1 H].
  split; [done|]. destruct (query _ x) as [[[i s]|e|] x1]; [|done..]. cbn in H |- *. destruct H as [[= <- <-] _].
  split; [done|]. split; [done|]. apply start_walk_ok; [done|]. apply Hi1, iv_disk, Hi1.
Qed.

(** ** Retrying *)

Definition answers (cr : CloudCredentialsV1) (c0 : Cloud) (states : gmap (list Z) Json.Value) : Prop :=
  forall k row, states !! k = Some row -> exists q v rows, ChargePush.body (serve_targets c0 cr q) = Some v /\
    Json.as_array (Json.index v (lit "items")) = Some rows /\ row ∈ rows.

Lemma collect_rows_elem wanted l : forall m m', collect_rows wanted m l = Ok m' ->
  forall k row, m' !! k = Some row -> m !! k = Some row \/ row ∈ l.
Proof.
  induction l as [|x l IH]; intros m m' H k row Hrow; cbn in H; [injection H as <-; by left|].
  apply rbind_Ok in H as (id & _ & H). apply rbind_Ok in H as (kd & _ & H). apply rbind_Ok in H as ([] & _ & H).
  destruct (IH _ _ H k row Hrow) as [H1|]; [|right; by right]. apply lookup_insert_Some in H1 as [[_ <-]|[_ ?]]; [right; by left|by left].
Qed.

Lemma frame_read_targets cr l : Framed (read_targets cr l).
Proof.
  unfold read_targets, current_pairing. destruct (is_empty l); [by apply (frame_same (fun w => Ret _) (fun w => w))|]. frame.
Qed.

Lemma t_read_targets cr l P : Stable P ->
  hoare P (read_targets cr l) (fun r d c => answers cr r.1 r.2 /\ From r.1 d c /\ P d c).
Proof.
  intros Hs. unfold read_targets, current_pairing. destruct (is_empty l).
  { intros x Hi Hp. split; [done|]. split; [by intros k row Hk|]. split; [exact (From_now x Hi)|done]. }
  apply t_step; [frame|done|]. intros _. eapply t_bind; [by apply t_request|]. intros [c0 response]. cbn [fst snd]. apply t_pure. intros Er.
  apply t_ensure. intros _. apply t_lift. intros v Hv. apply t_lift. intros rows Hrows. apply t_ensure. intros _.
  apply t_lift. intros states Hst. apply t_ret. intros d c Hp. split; [|done]. intros k row Hrow. eexists _, v, rows.
  apply ok_or_Ok in Hv, Hrows. rewrite Er in Hv. split; [exact Hv|]. split; [done|].
  by destruct (collect_rows_elem _ _ _ _ Hst k row Hrow).
Qed.

Lemma current_item_gone t row cr : current_item t row cr = Ok None ->
  Json.as_str (Json.index row (lit "kind")) = Some (name (tg_kind t)) /\ Json.as_str (Json.index row (lit "id")) = Some (tg_id t) /\
  Json.as_str (Json.index row (lit "status")) = Some (lit "not_found").
Proof.
  unfold current_item. intros H. apply rbind_Ok in H as ([] & H1 & H). unfold check_that in H1. destruct (_ && _) eqn:E in H1; [|done].
  unfold is_string in E. rewrite andb_true_iff, !bool_decide_eq_true in E. destruct E as [E1 E2]. split; [done|]. split; [done|].
  destruct (_ && _) eqn:E in H.
  - unfold is_string in E. rewrite andb_true_iff, bool_decide_eq_true in E. by destruct E.
  - repeat (apply rbind_Ok in H as (? & _ & H)). done.
Qed.

Lemma current_items_done cr states es : forall items dn its dn', current_items cr states es items dn = Some (its, dn') ->
  forall t, t ∈ dn' -> t ∈ dn \/ exists row k, states !! k = Some row /\ current_item t row cr = Ok None.
Proof.
  induction es as [|e es IH]; intros items dn its dn' H t Ht; cbn in H; [injection H as <- <-; by left|].
  case_bool_decide; [by eapply IH|]. destruct (states !! _) as [row|] eqn:Er; [|done]. cbn in H.
  destruct (current_item (en_target e) row cr) as [[i|]|] eqn:Ei; [by eapply IH| |by eapply IH].
  destruct (IH _ _ _ _ H t Ht) as [Hd|]; [|by right]. apply elem_of_app in Hd as [?|Hd%list_elem_of_singleton]; [by left|].
  subst t. right. by eexists row, _.
Qed.

(** Records the cloud has not are dealt with. *)
Lemma gone_handled cr c0 states es its dn d c : answers cr c0 states -> current_items cr states es [] [] = Some (its, dn) ->
  handled c0 (ChargePush.binding cr) dn d c.
Proof.
  intros Ha Hc t r Ht Hr. destruct (current_items_done _ _ _ _ _ _ _ Hc t Ht) as [?%elem_of_nil|(row & k & Hk & Hi)]; [done|].
  destruct (Ha k row Hk) as (q & v & rows & Hv & Hrows & Hin). destruct (current_item_gone t row cr Hi) as (H1 & H2 & H3).
  by rewrite (missing_true c0 cr q v rows row t Hv Hrows Hin H1 H2 H3) in Hr.
Qed.

Lemma advance_feed d b e : same_feed d (advance d b e).
Proof. intros k Hk. apply get_set_ne. intros E. by apply (cursor_not_feed b k). Qed.

Lemma complete_ok cr c0 x es dn last t' : Inv x -> let b := ChargePush.binding cr in
  From c0 (disk x) (cloud x) -> handled c0 b dn (disk x) (cloud x) -> (forall e, e ∈ es -> en_key e = key b (en_target e)) ->
  (let? d := complete_all b dn es (tables (disk x)) in Ok (advance d b last)) = Ok t' -> DiskOk (cloud x) (with_tables (disk x) t').
Proof.
  intros Hi b [Hle Hbd] Hh He Hf. pose proof (binding_colon cr) as Hb. fold b in Hb. apply rbind_Ok in Hf as (d1 & Hc & Hf). injection Hf as <-.
  assert (forall k, feed_key k -> k ∉ key b <$> dn -> meta_get (advance d1 b last) k = meta_get (tables (disk x)) k) as Hk.
  { intros k Hk Hn. rewrite (advance_feed d1 b last k Hk). by apply (complete_all_get b dn es _ _ k He Hc). }
  assert (forall k, (forall t, key b t <> k) -> k ∉ key b <$> dn) as Hn by (by intros k Hne (t & -> & _)%list_elem_of_fmap; apply (Hne t)).
  apply (DiskOk_step c0 (cloud x) (disk x)); [done|apply Hi, iv_disk, Hi| | |].
  - apply (deals_drop c0 (cloud x) b dn); [done..|]. intros b' t Hb' Hnd Hs. rewrite Hk; [done|constructor|by apply key_not_done].
  - apply Hk; [constructor|]. apply Hn. intros t. apply key_not_walk.
  - apply Hk; [constructor|]. apply Hn. intros t. apply key_not_walk.
Qed.

Lemma t_retry cr pk : hoare (fun _ _ => True) (retry cr pk) (fun _ _ _ => True).
Proof.
  unfold retry. set (b := ChargePush.binding cr).
  eapply (t_bind _ _ _ (fun r _ _ => forall e, e ∈ r.1 -> en_key e = key b (en_target e))).
  { apply t_pairing; [apply stable_pure|intros; apply stable_pure|]. apply t_step; [frame|apply stable_pure|]. intros progress.
    eapply t_conseq; [apply (t_query (fun _ _ => True)); apply stable_pure|done|]. intros [es ctx] d c [Hq _].
    apply rbind_Ok in Hq as (es' & He & Hq). apply rbind_Ok in Hq as (g & _ & Hq). injection Hq as <- _. intros e Hin. by eapply entries_key. }
  intros [es context]. cbn [fst]. destruct es as [|first es]; [by apply t_ret|]. set (l := first :: es). cbv zeta.
  apply (t_conseq (fun d c => (forall e, e ∈ l -> en_key e = key b (en_target e)) /\ True) _ _ (fun _ _ _ => True)); [|done|done].
  apply t_pure. intros He. eapply t_bind.
  { apply t_try; [apply frame_read_targets|apply stable_pure|]. apply (t_read_targets cr _ (fun _ _ => True)). apply stable_pure. }
  intros [[c0 states]|error].
  - cbn [fst snd]. apply (t_conseq (fun d c => answers cr c0 states /\ From c0 d c) _ _ (fun _ _ _ => True)); [|intros d c (_ & ? & ? & _); done|done].
    apply t_pure. intros Ha. apply t_no_panic. intros [items dn] Hit.
    eapply t_bind; [apply (t_apply cr pk items context c0 (From c0)); auto with stable|]. intros [dn2 fl]. cbn [fst snd].
    unfold Split. apply t_pure. intros _.
    apply t_guarded; [auto with stable|intros; apply stable_pure|].
    apply (t_tx _ _ (fun _ _ => True)); [auto with stable|]. intros x t' Hi [Hfr Hh] Hf. split; [|done].
    apply (complete_ok cr c0 x l (dn ++ dn2) (List.last l first) t'); [done|done| |done|done].
    apply handled_app; [|done]. by eapply gone_handled.
  - apply (t_conseq (fun _ _ => True) _ _ (fun _ _ _ => True)); [|done|done]. apply t_step; [|apply stable_pure|intros _; apply (t_throw error)].
    apply frame_guarded, frame_tx. intros d d' [= <-]. apply advance_feed.
Qed.

(** ** A pull *)

(** Everything kept back counts. *)
Lemma str_leb_app p s : str_leb p (p ++ s) = true.
Proof. induction p as [|x p IH]; [by destruct s|]. cbn. by rewrite Z.ltb_irrefl. Qed.

Lemma str_leb_app_cons p x y s t : x < y -> str_leb (p ++ x :: s) (p ++ y :: t) = true.
Proof. intros H. induction p as [|z p IH]; cbn; [by rewrite (proj2 (Z.ltb_lt _ _) H)|]. by rewrite Z.ltb_irrefl. Qed.

Lemma key_in_range b t : in_range (prefix b) (prefix b ++ lit "~") (key b t) = true.
Proof.
  unfold in_range, key, str_lt. rewrite str_leb_app. cbn [andb].
  assert (exists x s, name (tg_kind t) ++ lit ":" ++ tg_id t = x :: s /\ x < 126) as (x & s & -> & Hx).
  { destruct t as [[] i]; eexists _, _; (split; [vm_compute; reflexivity|lia]). }
  apply andb_true_iff. split; [by apply str_leb_app_cons|]. apply negb_true_iff, bool_decide_eq_false.
  intros H%app_inv_head. change (lit "~") with [126] in H. injection H as -> _. lia.
Qed.

Lemma nothing_kept d b t : count d b = 0%nat -> meta_get d (key b t) = None.
Proof.
  unfold count. intros H%nil_length_inv. destruct (meta_get d (key b t)) as [v|] eqn:E; [|done]. exfalso.
  assert ((key b t, v) ∈ List.filter (fun r : list Z * list Z => in_range (prefix b) (prefix b ++ lit "~") r.1) (map_to_list (meta d))) as Hin.
  { apply list_elem_of_In, filter_In. split; [apply list_elem_of_In; by apply elem_of_map_to_list|]. apply key_in_range. }
  rewrite H in Hin. by apply elem_of_nil in Hin.
Qed.

Lemma t_pull fuel cr pk : let b := ChargePush.binding cr in
  hoare (fun _ _ => True) (pull_changes fuel cr pk) (fun _ d c => Finished b d c /\ forall t, meta_get (tables d) (key b t) = None).
Proof.
  intros b. unfold pull_changes. apply t_step; [frame|apply stable_pure|]. intros _.
  eapply (t_bind _ _ _ (fun _ _ _ => True)).
  { intros x Hi _. destruct (t_retry cr pk x Hi I) as [Hi1 _]. unfold try. by destruct (retry cr pk x) as [[u|e|] x1]. }
  intros retried. eapply t_bind; [apply t_pull_feed|]. intros [].
  apply t_pairing; [apply Finished_stable| |].
  { intros _ d c d' c' Hc Hd [H1 H2]. split; [by apply (Finished_stable b d c)|]. intros t. by rewrite (proj1 Hd _ (fk_retry b t)). }
  eapply t_bind; [apply t_query, Finished_stable|]. intros remaining.
  destruct (0 <? remaining)%nat eqn:E; [|apply t_ret; intros d c [[= Hc] Hf]; split; [done|intros t; apply nothing_kept; apply Nat.ltb_ge in E; fold b in Hc; lia]].
  apply t_lift. intros u _. apply (t_throw ERemaining).
Qed.

(** ** Runs *)

(** Pulls, finished or cut short, the rest of the device, and changes of the
    cloud in any order; a power cut leaves one of the databases of [kept]. *)
Inductive reach : World -> Prop :=
| reach_start w : (forall k, feed_key k -> meta_get (tables (disk w)) k = None) -> kept w = [disk w] ->
    (forall m, m ∈ moves w -> honest m) -> reach w
| reach_pull w fuel cr pk : reach w -> reach (pull_changes fuel cr pk w).2
| reach_others w w' : reach w -> cloud_le (cloud w) (cloud w') -> same_feed (tables (disk w)) (tables (disk w')) -> seen (disk w') = seen (disk w) ->
    kept w' = kept w ++ [disk w'] -> (forall m, m ∈ moves w' -> honest m) -> reach w'
| reach_restart w w' : reach w -> cloud_le (cloud w) (cloud w') -> disk w' ∈ kept w -> kept w' = [disk w'] ->
    (forall m, m ∈ moves w' -> honest m) -> reach w'.

Lemma reach_keeps w : reach w -> Inv w.
Proof.
  induction 1 as [w Hn Hk Hm|w fuel cr pk _ IH|w w' _ IH Hc Hf Hs Hk Hm|w w' _ IH Hc Hd Hk Hm].
  - split; [|rewrite Hk; by left|done]. rewrite Hk. intros d ->%list_elem_of_singleton.
    split; rewrite ?(Hn _ fk_checkpoint), ?(Hn _ fk_walk); done.
  - by apply (t_pull fuel cr pk w IH).
  - split; [|rewrite Hk; apply elem_of_app; right; by left|done]. rewrite Hk. intros d [Hd|Hd%list_elem_of_singleton]%elem_of_app.
    + by eapply DiskOk_cloud, IH.
    + subst d. eapply DiskOk_le; [done| |apply IH, iv_disk, IH]. split; [done|]. intros k n Hn. exists n. rewrite Hs. split; [done|lia].
  - split; [|rewrite Hk; by left|done]. rewrite Hk. intros d ->%list_elem_of_singleton. by eapply DiskOk_cloud, IH.
Qed.

(** C8: no change of the cloud is lost. At every moment of every run of pulls,
    with failing records, lost answers, concurrent changes on both sides and
    power cuts, each record of the cloud up to the saved checkpoint of its
    pairing is dealt with: the device ran its current revision through
    [apply] without an error, or keeps it for a retry. (Running a record through
    [apply] changes nothing when the device has no such session or has edits of
    its own for it.) *)
Theorem no_change_lost w cr s n t r : reach w ->
  since_of (ChargePush.binding cr) (meta_get (tables (disk w)) CHECKPOINT_KEY) = Some s -> revision s = Ok n ->
  rev_of (cloud w) (ChargePush.binding cr) t = Some r -> r <= n -> dealt (disk w) (ChargePush.binding cr) t r.
Proof.
  intros Hr Hs Hn Ht Hle. pose proof (reach_keeps w Hr) as Hi. eapply (do_passed _ _ (iv_kept w Hi _ (iv_disk w Hi))); [apply binding_colon|done..].
Qed.

(** C9: a pull that succeeds is complete: it leaves a checkpoint, and every
    record of the cloud up to that checkpoint went through [apply] in its
    current revision without an error, none of them put off. *)
Theorem pull_complete w fuel cr pk w' : reach w -> pull_changes fuel cr pk w = (Ret tt, w') ->
  let b := ChargePush.binding cr in
  exists s n, since_of b (meta_get (tables (disk w')) CHECKPOINT_KEY) = Some s /\ revision s = Ok n /\
    forall t r, rev_of (cloud w') b t = Some r -> r <= n -> seen_to (disk w') b t r.
Proof.
  intros Hr E b. destruct (t_pull fuel cr pk w (reach_keeps w Hr) I) as [Hi H]. rewrite E in Hi, H. cbn [fst snd] in Hi, H.
  destruct H as ((s & n & Hs & Hn) & Hnone). exists s, n. split; [done|]. split; [done|]. intros t r Ht Hle.
  destruct (do_passed _ _ (iv_kept w' Hi _ (iv_disk w' Hi)) b s n t r (binding_colon cr) Hs Hn Ht Hle) as [Hk|]; [|done].
  unfold kept_back in Hk. rewrite Hnone in Hk. by destruct Hk.
Qed.

(** The work list of groups never runs out of fuel. *)
Definition effort (gs : list (list Target)) : nat := sum_list ((fun g => Nat.max 1 (2 * length g - 1)) <$> gs).

Lemma effort_split g gs : (1 < length g)%nat ->
  (effort (take (length g / 2) g :: drop (length g / 2) g :: gs) < effort (g :: gs))%nat.
Proof.
  intros Hl. unfold effort. cbn [fmap list_fmap sum_list]. unfold id. rewrite length_take, length_drop.
  pose proof (Nat.div_str_pos (length g) 2 ltac:(lia)). pose proof (Nat.div_lt (length g) 2 ltac:(lia) ltac:(lia)). lia.
Qed.

(** Whatever value a step gives satisfies [Q]. *)
Definition gives {A} (m : M A) (Q : A -> Prop) : Prop := forall w a w', m w = (Ret a, w') -> Q a.

Lemma gives_ret {A} (a : A) (Q : A -> Prop) : Q a -> gives (mret a) Q.
Proof. by intros H w a' w' [= <- _]. Qed.

Lemma gives_bind {A B} (m : M A) (k : A -> M B) Q : (forall a, gives (k a) Q) -> gives (mbind m k) Q.
Proof. intros H w a w'. unfold mbind. destruct (m w) as [[x|e|] w1]; [apply H|done..]. Qed.

Lemma gives_pairing {A} b (m : M A) Q : gives m Q -> gives (with_pairing b m) Q.
Proof.
  intros H. apply gives_bind. intros _ w a w'. destruct (ChargePush.check_pairing _ _); [|done].
  destruct (m (set_held w true)) as [r w1] eqn:E. intros [= -> _]. by apply (H _ _ _ E).
Qed.

Lemma split_long b ctx c0 g p : gives (apply_group b ctx c0 g p) (fun v => v = VSplit -> (1 < length g)%nat).
Proof.
  unfold apply_group, guarded. apply gives_pairing. do 2 (apply gives_bind; intros _). destruct p as [[pr|]|u].
  - apply gives_bind. intros [|]; [apply gives_bind; intros _|]; by apply gives_ret.
  - apply gives_bind. intros _. by apply gives_ret.
  - apply gives_ret. destruct (_ && _) eqn:E; [|done]. intros _. apply andb_true_iff in E as [E _]. by apply Nat.ltb_lt.
Qed.

Lemma apply_groups_fuel f1 cr pk b ctx c0 : forall f2 gs dn fl, (effort gs <= f1)%nat -> (effort gs <= f2)%nat ->
  forall w, apply_groups f1 cr pk b ctx c0 gs dn fl w = apply_groups f2 cr pk b ctx c0 gs dn fl w.
Proof.
  induction f1 as [|f1 IH]; intros [|f2] [|g gs] dn fl H1 H2 w; try done; try (unfold effort in *; cbn in *; unfold id in *; lia).
  cbn [apply_groups]. unfold mbind. destruct (check_archive_cancelled w) as [[[]|e|] w1]; [|done..].
  destruct (prepare_routes cr pk _ w1) as [[p|e|] w2]; [|done..].
  destruct (apply_group b ctx c0 g p w2) as [[v|e|] w3] eqn:Eg; [|done..].
  assert (effort gs < effort (g :: gs))%nat as Hlt by (unfold effort; cbn; unfold id; lia).
  destruct v; [apply IH; lia|apply IH; lia|].
  pose proof (effort_split g gs (split_long b ctx c0 g p w2 VSplit w3 Eg eq_refl)). apply IH; lia.
Qed.

End spec.
