(* ===== verification/IncomingFair.v ===== *)
(** * The retry queue is fair

    [entries] offers at most a hundred records, those after the cursor of the last
    attempt, and starts over at the end. Whatever comes of the attempts, [retry]
    moves the cursor behind what it offered, so every record kept is offered. *)

From Stdlib Require Import ZArith Lia.
From stdpp Require Import base gmap list sorting.
From S2P Require Import Prelude Effects Str MutableQueue CloudCrypto ChargePush IncomingQueue IncomingPull IncomingSpec.

Import CloudCrypto MutableQueue IncomingQueue IncomingPull.
Open Scope Z_scope.
Open Scope task_scope.

Notation Row := (list Z * list Z)%type.

(** ** The rows in order *)

Definition row_le (x y : Row) : Prop := row_leb x y = true.

#[export] Instance row_le_trans : Transitive row_le.
Proof. intros x y z. apply str_leb_trans. Qed.

Lemma row_leb_total x y : row_leb x y = false -> row_leb y x = true.
Proof. apply str_leb_total. Qed.

Lemma sort_rows_sorted l : StronglySorted row_le (sort_by row_leb l).
Proof. apply Sorted_StronglySorted; [apply _|]. apply sort_by_sorted, row_leb_total. Qed.

Definition in_queue (b : list Z) (k : list Z) : bool := in_range (prefix b) (prefix b ++ lit "~") k.

(** All rows after a key. *)
Definition after (d : Db) (b c : list Z) : list Row :=
  sort_by row_leb (List.filter (fun r : Row => in_queue b r.1 && str_lt c r.1) (map_to_list (meta d))).

Lemma rows_after_take d b c : rows_after d b c = take 100 (after d b c).
Proof. done. Qed.

Lemma elem_of_after d b c r : r ∈ after d b c <-> meta d !! r.1 = Some r.2 /\ in_queue b r.1 = true /\ str_lt c r.1 = true.
Proof.
  unfold after. rewrite sort_by_perm, list_elem_of_In, filter_In, andb_true_iff, <- list_elem_of_In. destruct r as [k v].
  by rewrite elem_of_map_to_list.
Qed.

Lemma NoDup_after d b c : NoDup (after d b c).
Proof. unfold after. rewrite sort_by_perm. apply NoDup_ListNoDup, List.NoDup_filter, NoDup_ListNoDup, NoDup_map_to_list. Qed.

(** Rows have different keys. *)
Lemma after_key d b c c' x y : x ∈ after d b c -> y ∈ after d b c' -> x.1 = y.1 -> x = y.
Proof. rewrite !elem_of_after. destruct x as [k v], y as [k' v']. cbn. intros (Hx & _) (Hy & _) ->. congruence. Qed.

Lemma str_lt_spec x y : str_lt x y = true <-> str_leb x y = true /\ x <> y.
Proof. unfold str_lt. by rewrite andb_true_iff, negb_true_iff, bool_decide_eq_false. Qed.

(** The rows after a row are the rest of the list. *)
Lemma after_drop d b c l r t : after d b c = l ++ r :: t -> after d b r.1 = t.
Proof.
  intros E. pose proof (sort_rows_sorted (List.filter (fun r : Row => in_queue b r.1 && str_lt c r.1) (map_to_list (meta d)))) as Hs.
  fold (after d b c) in Hs. rewrite E in Hs. apply StronglySorted_app in Hs as (Hlt & _ & Hrt).
  apply StronglySorted_inv in Hrt as [Ht Hr]. rewrite Forall_forall in Hr.
  pose proof (NoDup_after d b c) as Hn. rewrite E in Hn. apply NoDup_app in Hn as (_ & _ & Hn). apply NoDup_cons in Hn as [Hrn Hn].
  assert (r ∈ after d b c) as Hin by (rewrite E, elem_of_app; right; by left).
  apply (StronglySorted_unique_strong row_le); [|apply sort_rows_sorted|done|].
  - intros x y Hx Hy H1 H2. apply (after_key d b r.1 c); [done| |by apply str_leb_antisym]. rewrite E, elem_of_app. right. by right.
  - apply NoDup_Permutation; [apply NoDup_after|done|]. intros x.
    assert (x ∈ after d b c <-> x ∈ l \/ x = r \/ x ∈ t) as Hc by (rewrite E, elem_of_app, elem_of_cons; done).
    pose proof (proj1 (elem_of_after d b c r) Hin) as (_ & _ & Hcr). rewrite elem_of_after. split.
    + intros (Hm & Hq & Hrx). apply str_lt_spec in Hrx as [Hle Hne].
      assert (x ∈ after d b c) as Hx.
      { apply elem_of_after. split; [done|]. split; [done|]. apply str_lt_spec in Hcr as [Hc1 Hc2]. apply str_lt_spec. split; [by eapply str_leb_trans|].
        intros ->. apply Hc2. by apply str_leb_antisym. }
      apply Hc in Hx as [Hx|[->|Hx]]; [|done|done]. exfalso. apply Hne. apply str_leb_antisym; [done|].
      apply (Hlt x r Hx). by left.
    + intros Hx. assert (x ∈ after d b c) as Hx' by (apply Hc; by right; right). apply elem_of_after in Hx' as (Hm & Hq & _).
      split; [done|]. split; [done|]. apply str_lt_spec. split; [by apply Hr|]. intros He. apply Hrn. replace r with x; [done|].
      apply (after_key d b c c); [apply Hc; by right; right|done|done].
Qed.

Lemma after_same d d' b c : (forall k, in_queue b k = true -> meta d' !! k = meta d !! k) -> after d' b c = after d b c.
Proof.
  intros H. apply (StronglySorted_unique_strong row_le); [|apply sort_rows_sorted..|].
  - intros x y Hx%elem_of_after Hy%elem_of_after H1 H2. destruct Hx as (Hx & Hq & _), Hy as (Hy & _).
    assert (x.1 = y.1) as E by (by apply str_leb_antisym). rewrite H, E, Hy in Hx by done. destruct x, y; cbn in *. congruence.
  - apply NoDup_Permutation; [apply NoDup_after..|]. intros x. rewrite !elem_of_after. split; intros (Hm & Hq & Hl); (split; [|done]); by rewrite H in *.
Qed.

(** ** What an attempt leaves alone *)

(** The rows [retry] reads and writes under the binding [b]. *)
Definition queue_key (b k : list Z) : Prop :=
  k = CHECKPOINT_KEY \/ k = WALK_KEY \/ k = generation_key b \/ k = cursor_key b \/ in_queue b k = true.
Definition same_queue (b : list Z) (d d' : Db) : Prop := forall k, queue_key b k -> meta_get d' k = meta_get d k.

Lemma same_queue_trans b d1 d2 d3 : same_queue b d1 d2 -> same_queue b d2 d3 -> same_queue b d1 d3.
Proof. intros H1 H2 k Hk. by rewrite H2, H1. Qed.

(** Storing rates and projecting tags leaves them alone. *)
Class QueueLaws `{!Feed, !Local} := {
  store_queue b s d v at_ : same_queue b d (store_doc s d v at_).2.2;
  projection_queue b s d p : same_queue b d (apply_projection s d p).2.2
}.

Section fair.
Context `{Ae : !Aead, Ba : !Base64, Hsh : !Hashes, Wi : !ChargePush.Wire, FW : !FeedWire, Fe : !Feed, Lo : !Local, Re : !Revisions,
  QL : !QueueLaws}.

(** The attempt runs alone: nobody else moves, the database works, the archive is
    not cancelled and the pairing is [b]. The network and the cloud are free. *)
Record alone (b : list Z) (w : World) : Prop := {
  al_moves : moves w = [];
  al_tx : tx_faults w = [];
  al_cancels : cancels w = [];
  al_paired : ChargePush.check_pairing (creds w) b = Ok tt
}.

(** A step that leaves the rows alone; one that does not fail, either, while the
    guard's conditions hold. *)
Definition calm (b : list Z) {A} (m : M A) : Prop := forall w, alone b w ->
  alone b (m w).2 /\ same_queue b (tables (disk w)) (tables (disk (m w).2)).
Definition guard_ok (b : list Z) (ctx : Progress) (d : Db) : Prop :=
  check_progress (initial ctx) (saved ctx) d = Ok tt /\ forall g, retry_generation ctx = Some g -> generation d b = Ok g.
Definition sure (b : list Z) (ctx : Progress) {A} (m : M A) : Prop := calm b m /\
  forall w e, alone b w -> guard_ok b ctx (tables (disk w)) -> (m w).1 <> Throw e.

Section calm.
Context (b : list Z).

Lemma calm_same {A} (o : World -> Out PullError A) (f : World -> World) :
  (forall w, alone b w -> alone b (f w) /\ tables (disk (f w)) = tables (disk w)) -> calm b (fun w => (o w, f w)).
Proof. intros H w Hw. destruct (H w Hw) as [H1 H2]. split; [done|]. cbn [snd]. by rewrite H2. Qed.

Lemma calm_ret {A} (a : A) : calm b (mret a).
Proof. by apply (calm_same (fun _ => Ret a) (fun w => w)). Qed.
Lemma calm_throw {A} e : calm b (mthrow e : M A).
Proof. by apply (calm_same (fun _ => Throw e) (fun w => w)). Qed.
Lemma calm_dead {A} : calm b (mdead : M A).
Proof. by apply (calm_same (fun _ => Dead) (fun w => w)). Qed.
Lemma calm_bind {A B} (m : M A) (k : A -> M B) : calm b m -> (forall a, calm b (k a)) -> calm b (mbind m k).
Proof.
  intros Hm Hk w Hw. unfold mbind. destruct (Hm w Hw) as [H1 H2]. destruct (m w) as [[a|e|] w1]; [|done..].
  destruct (Hk a w1 H1) as [H3 H4]. split; [done|]. by eapply same_queue_trans.
Qed.
Lemma calm_try {A} (m : M A) : calm b m -> calm b (try m).
Proof. intros Hm w Hw. specialize (Hm w Hw). unfold try. by destruct (m w) as [[a|e|] w1]. Qed.
Lemma calm_ensure c e : calm b (ensure c e).
Proof. destruct c; [apply calm_ret|apply calm_throw]. Qed.
Lemma calm_lift {A} (r : result PullError A) : calm b (lift r).
Proof. destruct r; [apply calm_ret|apply calm_throw]. Qed.
Lemma calm_no_panic {A} (o : option A) : calm b (no_panic o).
Proof. destruct o; [apply calm_ret|apply calm_dead]. Qed.

Lemma tick_alone w : alone b w -> tick w = (Ret tt, w).
Proof. intros Hw. unfold tick. by rewrite (al_moves b w Hw). Qed.

Lemma calm_tick : calm b tick.
Proof. intros w Hw. by rewrite tick_alone. Qed.
Lemma calm_cancel : calm b check_archive_cancelled.
Proof. apply calm_same. intros w [H1 H2 H3 H4]. split; [split|]; cbn; by rewrite ?H3. Qed.
Lemma calm_query {A} (q : Db -> result PullError A) : calm b (query q).
Proof. apply calm_bind; [apply calm_tick|]. intros _. apply calm_same. intros w [H1 H2 H3 H4]. split; [split|]; cbn; by rewrite ?H2. Qed.
Lemma calm_request {A} (s : Cloud -> A) : calm b (request s).
Proof. apply calm_bind; [apply calm_tick|]. intros _. apply calm_same. intros w [H1 H2 H3 H4]. by split. Qed.
Lemma calm_mark c t : calm b (mark_seen b c t).
Proof. apply calm_same. intros w [H1 H2 H3 H4]. by destruct (rev_of c b t). Qed.
Lemma calm_mark_all c l : calm b (mark_all b c l).
Proof. induction l as [|t l IH]; cbn [mark_all]; [apply calm_ret|]. apply calm_bind; [apply calm_mark|]. by intros _. Qed.

Lemma calm_tx f : (forall d d', f d = Ok d' -> same_queue b d d') -> calm b (transaction f).
Proof.
  intros Hf. apply calm_bind; [apply calm_tick|]. intros _ w [H1 H2 H3 H4]. cbv zeta. rewrite H2. cbn [head tail].
  destruct (f (tables (disk w))) as [t|e] eqn:E; (split; [by split|]); [by apply Hf|done].
Qed.
Lemma calm_delegate f : (forall s d, same_queue b d (f s d).2.2) -> calm b (delegate f).
Proof.
  intros Hf. apply calm_bind; [apply calm_tick|]. intros _ w [H1 H2 H3 H4]. pose proof (Hf (side w) (tables (disk w))) as H.
  destruct (f (side w) (tables (disk w))) as [ok [s t]]. by split.
Qed.
Lemma calm_pairing {A} e (m : M A) : calm b m -> calm b (with_pairing e m).
Proof.
  intros Hm. apply calm_bind; [apply calm_tick|]. intros _ w Hw. destruct (ChargePush.check_pairing _ e); [|done].
  destruct (Hm (set_held w true)) as [[H1 H2 H3 H4] Hq]; [by destruct Hw|]. destruct (m (set_held w true)) as [r w1]. by split.
Qed.

End calm.

Create HintDb calm discriminated.
#[local] Hint Resolve calm_ret calm_throw calm_dead calm_tick calm_cancel calm_ensure calm_lift calm_no_panic calm_query calm_request
  calm_mark calm_mark_all : calm.
Ltac calm := repeat first [progress intros | solve [auto with calm] | simple apply calm_pairing | simple apply calm_try
  | simple apply calm_bind | match goal with |- calm _ (match ?x with _ => _ end) => destruct x end | progress cbv zeta].

Lemma calm_charge b cr pk dirty cc : calm b (apply_charge_change cr pk dirty cc).
Proof.
  unfold apply_charge_change, open_mutable. calm. apply calm_tx. intros d d' H k _. unfold in_db in H.
  destruct (apply_charge_mutable_from_sync _ _ _ _ _ _) as [x|] eqn:E; [|done]. injection H as <-.
  unfold meta_get. by rewrite (apply_sync_meta _ _ _ _ _ _ _ E).
Qed.
#[local] Hint Resolve calm_charge : calm.

Lemma calm_charges b cr pk dirty l : calm b (apply_charges cr pk dirty l).
Proof. induction l as [|cc l IH]; cbn [apply_charges]; calm. Qed.
#[local] Hint Resolve calm_charges : calm.

Lemma calm_page b cr pk parsed : calm b (apply_change_page cr pk parsed).
Proof. unfold apply_change_page, apply_rate_change. calm. apply calm_delegate. intros s d. apply store_queue. Qed.
#[local] Hint Resolve calm_page : calm.

(** ** Steps that do not fail *)

Lemma guard_same b ctx d d' : same_queue b d d' -> guard_ok b ctx d -> guard_ok b ctx d'.
Proof.
  intros H [H1 H2]. unfold guard_ok, check_progress, generation in *. rewrite !H; [by split|unfold queue_key; tauto..].
Qed.

Lemma sure_ret b ctx {A} (a : A) : sure b ctx (mret a).
Proof. by split; [apply calm_ret|]. Qed.
Lemma sure_no_panic b ctx {A} (o : option A) : sure b ctx (no_panic o).
Proof. split; [apply calm_no_panic|]. by destruct o. Qed.
Lemma sure_mark_all b ctx c l : sure b ctx (mark_all b c l).
Proof.
  split; [apply calm_mark_all|]. induction l as [|t l IH]; intros w e Hw Hg; [done|]. cbn [mark_all]. unfold mbind.
  pose proof (calm_mark b c t w Hw) as [H1 H2]. destruct (mark_seen b c t w) as [o w1] eqn:E. injection E as <- <-. cbn [snd] in *.
  apply IH; [done|]. by eapply guard_same.
Qed.
Lemma sure_try b ctx {A} (m : M A) : calm b m -> sure b ctx (try m).
Proof. intros Hm. split; [by apply calm_try|]. intros w e _ _. unfold try. by destruct (m w) as [[]]. Qed.
Lemma sure_bind b ctx {A B} (m : M A) (k : A -> M B) : sure b ctx m -> (forall a, sure b ctx (k a)) -> sure b ctx (mbind m k).
Proof.
  intros [Hc Hm] Hk. split; [apply calm_bind; [done|]; intros a; apply Hk|]. intros w e Hw Hg. unfold mbind.
  specialize (Hc w Hw) as [H1 H2]. specialize (Hm w). destruct (m w) as [[a|e'|] w1]; [|by destruct (Hm e' Hw Hg)|done].
  apply Hk; [done|]. by eapply guard_same.
Qed.

Lemma query_alone b {A} (q : Db -> result PullError A) w : alone b w ->
  query q w = (match q (tables (disk w)) with Ok a => Ret a | Err e => Throw e end, set_tx w []).
Proof. intros Hw. unfold query, mbind. rewrite (tick_alone b) by done. by rewrite (al_tx b w Hw). Qed.

Lemma pairing_alone b {A} (m : M A) w : alone b w ->
  with_pairing b m w = let (r, w') := m (set_held w true) in (r, set_held w' false).
Proof. intros Hw. unfold with_pairing, mbind. rewrite (tick_alone b) by done. by rewrite (al_paired b w Hw). Qed.

Lemma alone_held b w h : alone b w -> alone b (set_held w h).
Proof. by intros []. Qed.

Lemma sure_query b ctx {A} (q : Db -> result PullError A) : (forall d, guard_ok b ctx d -> exists a, q d = Ok a) -> sure b ctx (query q).
Proof.
  intros Hq. split; [apply calm_query|]. intros w e Hw Hg. rewrite (query_alone b) by done. cbn [fst].
  by destruct (Hq _ Hg) as (a & ->).
Qed.

Lemma sure_guarded b ctx {A} (m : M A) : sure b ctx m -> sure b ctx (guarded b ctx m).
Proof.
  intros Hm. assert (sure b ctx (do _ ← query (check_progress (initial ctx) (saved ctx));
     do _ ← (match retry_generation ctx with
             | Some expected => do g ← query (fun d => generation d b); ensure (g =? expected) EGenerationChanged
             | None => mret tt
             end); m)) as [Hc Hi].
  { apply sure_bind; [apply sure_query; intros d [H _]; by exists tt|]. intros _. apply sure_bind; [|by intros _].
    destruct (retry_generation ctx) as [g|] eqn:Eg; [|apply sure_ret]. split; [calm|]. intros w e Hw [_ Hg]. unfold mbind.
    rewrite (query_alone b), (Hg g Eg) by done. unfold ensure. by rewrite Z.eqb_refl. }
  split; [by apply calm_pairing|]. intros w e Hw Hg. unfold guarded. rewrite (pairing_alone b) by done.
  specialize (Hi (set_held w true) e (alone_held b w true Hw) Hg). by destruct (mbind _ _ _) as [r w1].
Qed.

Lemma sure_item b ctx cr pk c i : sure b ctx (guarded b ctx
  (do parsed ← no_panic (changes [i]);
   do r ← try (apply_change_page cr pk parsed);
   match r with Ok _ => do _ ← mark_seen b c (target i); mret true | Err _ => mret false end)).
Proof.
  apply sure_guarded, sure_bind; [apply sure_no_panic|]. intros parsed. apply sure_bind; [apply sure_try, calm_page|].
  intros [u|e]; [|apply sure_ret]. by apply (sure_bind _ _ (mark_all b c [target i])); [apply sure_mark_all|]; intros _; apply sure_ret.
Qed.

Lemma sure_items b ctx cr pk c items : forall rs dn fl, sure b ctx (apply_items cr pk b ctx c items rs dn fl).
Proof.
  induction items as [|i items IH]; intros rs dn fl; cbn [apply_items]; [apply sure_ret|]. case_bool_decide; [apply IH|].
  apply sure_bind; [apply sure_item|]. by intros [].
Qed.

Lemma sure_group b ctx c g p : sure b ctx (apply_group b ctx c g p).
Proof.
  apply sure_guarded. destruct p as [[pr|]|u]; [|apply sure_bind; [apply sure_mark_all|]; intros _; apply sure_ret|apply sure_ret].
  apply sure_bind; [apply sure_try, calm_delegate; intros; apply projection_queue|]. intros [u|e]; [|apply sure_ret].
  apply sure_bind; [apply sure_mark_all|]. intros _. apply sure_ret.
Qed.

Lemma sure_cancel b ctx : sure b ctx check_archive_cancelled.
Proof. split; [apply calm_cancel|]. intros w e Hw _. unfold check_archive_cancelled. by rewrite (al_cancels b w Hw). Qed.

Lemma sure_prepare b ctx cr pk ids : sure b ctx (prepare_routes cr pk ids).
Proof.
  split; [apply calm_bind; [apply calm_tick|]; intros _; by apply (calm_same b (fun w => Ret _) (fun w => w))|].
  intros w e Hw _. unfold prepare_routes, mbind. by rewrite (tick_alone b).
Qed.

(** With the work the groups need, the loop ends. *)
Lemma sure_groups b ctx cr pk c : forall fuel gs dn fl, (effort gs <= fuel)%nat -> sure b ctx (apply_groups fuel cr pk b ctx c gs dn fl).
Proof.
  induction fuel as [|fuel IH]; intros [|g gs] dn fl Hf; cbn [apply_groups]; try apply sure_ret.
  { unfold effort in Hf. cbn in Hf. unfold id in Hf. lia. }
  assert (effort gs < effort (g :: gs))%nat as Hlt by (unfold effort; cbn; unfold id; lia).
  apply sure_bind; [apply sure_cancel|]. intros _. apply sure_bind; [apply sure_prepare|]. intros p.
  pose proof (sure_group b ctx c g p) as [Hc Hs]. pose proof (split_long b ctx c g p) as Hl.
  assert (forall v, (v = VSplit -> (1 < length g)%nat) -> sure b ctx
    match v with
    | VDone => apply_groups fuel cr pk b ctx c gs (dn ++ g) fl
    | VFailed => apply_groups fuel cr pk b ctx c gs dn (fl ++ g)
    | VSplit => apply_groups fuel cr pk b ctx c (take (length g / 2) g :: drop (length g / 2) g :: gs) dn fl
    end) as Hv.
  { intros [] Hv; apply IH; [lia..|]. pose proof (effort_split g gs (Hv eq_refl)). lia. }
  cbv zeta. split.
  - intros w Hw. unfold mbind. specialize (Hc w Hw) as [H1 H2]. destruct (apply_group b ctx c g p w) as [[v|e|] w1] eqn:E; [|done..].
    destruct (proj1 (Hv v (Hl w v w1 E)) w1 H1) as [H3 H4]. split; [done|]. by eapply same_queue_trans.
  - intros w e Hw Hg. unfold mbind. specialize (Hc w Hw) as [H1 H2]. specialize (Hs w). destruct (apply_group b ctx c g p w) as [[v|e'|] w1] eqn:E; [|by destruct (Hs e' Hw Hg)|done].
    apply (Hv v (Hl w v w1 E)); [done|]. by eapply guard_same.
Qed.

Lemma sure_apply cr pk items ctx c : sure (ChargePush.binding cr) ctx (apply cr pk items ctx c).
Proof.
  unfold apply. apply sure_bind; [apply sure_items|]. intros [[rs dn] fl]. apply sure_groups.
  destruct rs as [|r rs]; unfold effort; cbn; unfold id; lia.
Qed.

(** ** An attempt moves the cursor *)

Lemma guarded_alone b ctx {A} (m : M A) w : alone b w -> guard_ok b ctx (tables (disk w)) -> exists w0, alone b w0 /\ disk w0 = disk w /\
  guarded b ctx m w = let (r, w') := m w0 in (r, set_held w' false).
Proof.
  intros Hw [H1 H2]. unfold guarded. rewrite (pairing_alone b) by done. unfold mbind.
  rewrite (query_alone b) by (by apply alone_held). cbn [disk set_held]. rewrite H1.
  assert (alone b (set_tx (set_held w true) [])) as Hw1 by (by destruct Hw). destruct (retry_generation ctx) as [g|].
  - rewrite (query_alone b) by done. cbn [disk set_tx set_held]. rewrite (H2 g eq_refl). unfold ensure. rewrite Z.eqb_refl.
    by eexists.
  - by eexists.
Qed.

Lemma transaction_alone b f w : alone b w ->
  match f (tables (disk w)) with
  | Ok t => (transaction f w).1 = Ret tt /\ tables (disk (transaction f w).2) = t
  | Err e => (transaction f w).1 = Throw e
  end.
Proof.
  intros Hw. unfold transaction, mbind. rewrite (tick_alone b) by done. cbv zeta. rewrite (al_tx b w Hw). cbn [head].
  by destruct (f (tables (disk w))).
Qed.

Definition at_cursor (b : list Z) (d : Db) : list Z := default [] (meta_get d (cursor_key b)).

(** Every row of the queue can be read. *)
Definition readable (b : list Z) (d : Db) : Prop :=
  forall r : Row, meta d !! r.1 = Some r.2 -> in_queue b r.1 = true -> exists e, entry_of b r = Ok e.

(** Rows go only if they were offered, and the cursor is behind the last. *)
Definition advanced (b : list Z) (d d' : Db) : Prop := exists es, entries d b = Ok es /\
  (forall k, in_queue b k = true -> meta_get d' k = meta_get d k \/ meta_get d' k = None /\ k ∈ en_key <$> es) /\
  forall first l, es = first :: l -> at_cursor b d' = en_key (List.last es first).

Lemma cursor_not_in_queue b : in_queue b (cursor_key b) = false.
Proof. unfold in_queue, in_range. apply andb_false_iff. by left. Qed.
Lemma generation_not_in_queue b : in_queue b (generation_key b) = false.
Proof. unfold in_queue, in_range. apply andb_false_iff. by left. Qed.

Lemma generation_err d b e : generation d b = Err e -> e = EGenerationRange.
Proof. unfold generation. destruct (meta_get d _) as [raw|]; [|done]. destruct (parse_i64 raw); [done|]. by intros [= <-]. Qed.

Lemma bump_rows d b : match bump_generation d b with
  | Ok d' => forall k, in_queue b k = true -> meta_get d' k = meta_get d k
  | Err e => e = EGenerationRange
  end.
Proof.
  unfold bump_generation. destruct (generation d b) as [g|e] eqn:E; cbn [rbind]; [|by apply (generation_err d b)].
  destruct (_ <=? _); [|done]. intros k Hk. apply get_set_ne. intros <-. by rewrite generation_not_in_queue in Hk.
Qed.

Lemma complete_all_rows b dn es : forall d, match complete_all b dn es d with
  | Ok d' => forall k, in_queue b k = true -> meta_get d' k = meta_get d k \/ meta_get d' k = None /\ k ∈ en_key <$> es
  | Err e => e = EGenerationRange
  end.
Proof.
  induction es as [|e es IH]; intros d; cbn [complete_all]; [by left|].
  assert (match (if bool_decide (en_target e ∈ dn) then complete d b e else Ok d) with
    | Ok d' => forall k, in_queue b k = true -> meta_get d' k = meta_get d k \/ meta_get d' k = None /\ k = en_key e
    | Err e => e = EGenerationRange
    end) as H.
  { case_bool_decide; [|by left]. unfold complete. destruct (current d e); [|by left]. pose proof (bump_rows (meta_del d (en_key e)) b) as H1.
    destruct (bump_generation _ b) as [d1|]; [|done]. intros k Hk. rewrite H1 by done.
    destruct (decide (k = en_key e)) as [->|Hne]; [right; split; [apply get_del_eq|done]|left; by apply get_del_ne]. }
  destruct (if bool_decide _ then _ else _) as [d1|e1]; [|done]. cbn [rbind]. specialize (IH d1).
  destruct (complete_all b dn es d1) as [d2|]; [|done]. intros k Hk. cbn [fmap list_fmap]. rewrite elem_of_cons.
  destruct (IH k Hk) as [->|[-> ?]]; [|right; by split; [|right]]. destruct (H k Hk) as [->|[-> ->]]; [by left|right; by split; [|left]].
Qed.

Lemma read_targets_calm b cr l : calm b (read_targets cr l).
Proof. unfold read_targets. destruct (is_empty l); [by apply (calm_same b (fun w => Ret _) (fun w => w))|]. unfold current_pairing. calm. Qed.

Lemma advance_advanced b d d1 d' es first l : entries d b = Ok es -> es = first :: l ->
  (forall k, in_queue b k = true -> meta_get d1 k = meta_get d k \/ meta_get d1 k = None /\ k ∈ en_key <$> es) ->
  d' = advance d1 b (List.last es first) -> advanced b d d'.
Proof.
  intros He -> H ->. exists (first :: l). split; [done|]. split.
  - intros k Hk. unfold advance. rewrite get_set_ne; [by apply H|]. intros <-. by rewrite cursor_not_in_queue in Hk.
  - intros f l' [= <- <-]. unfold at_cursor, advance. by rewrite get_set_eq.
Qed.

(** The last transaction of [retry]. *)
Lemma guarded_advances b ctx f w es first l d : alone b w -> guard_ok b ctx (tables (disk w)) ->
  entries d b = Ok es -> es = first :: l -> same_queue b d (tables (disk w)) ->
  match f (tables (disk w)) with
  | Ok d' => exists d1, (forall k, in_queue b k = true -> meta_get d1 k = meta_get (tables (disk w)) k \/ meta_get d1 k = None /\ k ∈ en_key <$> es) /\
      d' = advance d1 b (List.last es first)
  | Err e => e = EGenerationRange
  end ->
  (guarded b ctx (transaction f) w).1 = Throw EGenerationRange \/
  (guarded b ctx (transaction f) w).1 = Ret tt /\ advanced b d (tables (disk (guarded b ctx (transaction f) w).2)).
Proof.
  intros Hw Hg He Hes Hq Hf. destruct (guarded_alone b ctx (transaction f) w Hw Hg) as (w0 & Hw0 & E0 & ->).
  pose proof (transaction_alone b f w0 Hw0) as Ht. rewrite E0 in Ht. destruct (f (tables (disk w))) as [t|e].
  - right. destruct Ht as [H1 H2]. destruct (transaction f w0) as [r w1]. cbn in *. split; [done|]. destruct Hf as (d1 & Hd1 & ->).
    eapply (advance_advanced b d d1); [done|done| |done]. intros k' Hk'. rewrite <- (Hq k') by (unfold queue_key; tauto). by apply Hd1.
  - left. subst e. by destruct (transaction f w0) as [r w1].
Qed.

(** The two halves of [retry]: what it offers, and what comes of it. *)
Notation first_half b :=
  (with_pairing b
    (do progress ← query (fun d => Ok (meta_get d CHECKPOINT_KEY, meta_get d WALK_KEY));
     query (fun d =>
       let? es := entries d b in
       let? g := generation d b in
       Ok (es, mkProgress progress.1 progress.2 (Some g))))).

Lemma first_half_alone b w es : alone b w -> entries (tables (disk w)) b = Ok es ->
  (first_half b w).1 = Throw EGenerationRange \/
  exists ctx w1, first_half b w = (Ret (es, ctx), w1) /\ alone b w1 /\ disk w1 = disk w /\ guard_ok b ctx (tables (disk w)).
Proof.
  intros Hw He. rewrite (pairing_alone b) by done. unfold mbind. rewrite (query_alone b) by (by apply alone_held).
  cbn [disk set_held]. rewrite (query_alone b) by (by destruct Hw). cbn [disk set_tx set_held]. rewrite He. cbn [rbind].
  destruct (generation (tables (disk w)) b) as [g|e] eqn:Eg; cbn [rbind]; [right|left; by rewrite (generation_err _ _ _ Eg)].
  eexists _, _. split; [done|]. split; [by destruct Hw|]. split; [done|].
  split; [unfold check_progress; cbn; by rewrite !bool_decide_true|]. by intros ? [= <-].
Qed.

Definition second_half (cr : CloudCredentialsV1) (pi_key : list Z) (es : list Entry) (context : Progress) (first : Entry) : M unit :=
  let b := ChargePush.binding cr in
  do answer ← try (read_targets cr (List.filter (fun t => negb (bool_decide (tg_kind t = Route))) (en_target <$> es)));
  match answer with
  | Err error =>
      do _ ← guarded b context (transaction (fun d => Ok (advance d b (List.last es first))));
      mthrow error
  | Ok (c, states) =>
      do todo ← no_panic (current_items cr states es [] []);
      let (items, done_) := todo in
      do r ← apply cr pi_key items context c;
      let done_ := done_ ++ r.1 in
      guarded b context (transaction (fun d => let? d := complete_all b done_ es d in Ok (advance d b (List.last es first))))
  end.

Lemma second_half_advances cr pk es ctx first l w d : let b := ChargePush.binding cr in
  alone b w -> guard_ok b ctx (tables (disk w)) -> entries d b = Ok es -> es = first :: l -> same_queue b d (tables (disk w)) ->
  (second_half cr pk es ctx first w).1 <> Dead -> (second_half cr pk es ctx first w).1 <> Throw EGenerationRange ->
  advanced b d (tables (disk (second_half cr pk es ctx first w).2)).
Proof.
  intros b Hw Hg He Hes Hq. unfold second_half. fold b. unfold mbind.
  pose proof (calm_try b _ (read_targets_calm b cr (List.filter (fun t => negb (bool_decide (tg_kind t = Route))) (en_target <$> es))) w Hw) as [Hw1 Hq1].
  destruct (try _ w) as [[answer|e|] w1] eqn:E; cbn [snd] in *; [|unfold try in E; by destruct (read_targets _ _ w) as [[]]|done].
  pose proof (guard_same b ctx _ _ Hq1 Hg) as Hg1. pose proof (same_queue_trans b _ _ _ Hq Hq1) as Hq'. clear E Hq1.
  destruct answer as [[c states]|error].
  - destruct (current_items cr states es [] []) as [[items dn]|]; [|done]. cbn [no_panic]. unfold mbind, mret.
    pose proof (sure_apply cr pk items ctx c) as [Hc Hs]. specialize (Hc w1 Hw1) as [Hw2 Hq2]. specialize (Hs w1). fold b in Hs, Hw2, Hq2.
    destruct (apply cr pk items ctx c w1) as [[r|e|] w2]; cbn [snd] in *; [|by destruct (Hs e Hw1 Hg1)|done].
    destruct (guarded_advances b ctx (fun d => let? d := complete_all b (dn ++ r.1) es d in Ok (advance d b (List.last es first))) w2 es first l d Hw2)
      as [->|[_ H]]; [by eapply guard_same|done|done|by eapply same_queue_trans| |done|done].
    pose proof (complete_all_rows b (dn ++ r.1) es (tables (disk w2))) as Hr. destruct (complete_all _ _ _ _) as [d1|]; [|done]. by exists d1.
  - unfold mbind. destruct (guarded_advances b ctx (fun d => Ok (advance d b (List.last es first))) w1 es first l d Hw1 Hg1 He Hes Hq') as [H|[H1 H2]].
    + eexists. split; [|done]. by left.
    + by destruct (guarded b ctx _ w1) as [[] w2]; simplify_eq/=.
    + by destruct (guarded b ctx _ w1) as [[] w2]; simplify_eq/=.
Qed.

Lemma bind_ret {A B} (m : M A) (k : A -> M B) w a w1 : m w = (Ret a, w1) -> mbind m k w = k a w1.
Proof. intros E. unfold mbind. by rewrite E. Qed.
Lemma bind_throw {A B} (m : M A) (k : A -> M B) w e : (m w).1 = Throw e -> (mbind m k w).1 = Throw e.
Proof. intros E. unfold mbind. destruct (m w) as [[a|e'|] w1]; [done| |done]. cbn in *. by injection E as ->. Qed.

(** Whatever the cloud answers. *)
Lemma retry_advances cr pk w es : let b := ChargePush.binding cr in
  alone b w -> entries (tables (disk w)) b = Ok es ->
  (retry cr pk w).1 <> Dead -> (retry cr pk w).1 <> Throw EGenerationRange ->
  advanced b (tables (disk w)) (tables (disk (retry cr pk w).2)).
Proof.
  intros b Hw He. change (retry cr pk) with (do started ← first_half b; let (es, context) := started in
    match es with [] => mret tt | first :: _ => second_half cr pk es context first end).
  destruct (first_half_alone b w es Hw He) as [H|(ctx & w1 & E & Hw1 & E1 & Hg)]; [by rewrite (bind_throw _ _ _ _ H)|].
  rewrite (bind_ret _ _ _ _ _ E). clear E.
  destruct es as [|first l].
  - intros _ _. exists []. cbn [mret snd]. rewrite E1. split; [done|]. split; [by left|done].
  - apply (second_half_advances cr pk (first :: l) ctx first l w1 (tables (disk w)) Hw1); by rewrite ?E1.
Qed.

(** ** Rounds *)

Lemma entry_of_row b r e : entry_of b r = Ok e -> (en_key e, en_raw e) = r.
Proof. unfold entry_of. intros H. repeat (apply rbind_Ok in H as (? & _ & H)). injection H as <-. by destruct r. Qed.

Lemma collect_rows_of b rows : (forall r, r ∈ rows -> exists e, entry_of b r = Ok e) ->
  exists es, collect_ok (entry_of b) rows = Ok es /\ (fun e => (en_key e, en_raw e)) <$> es = rows.
Proof.
  induction rows as [|r rows IH]; intros H; [by exists []|]. destruct (H r) as (e & He); [by left|].
  destruct IH as (es & Hes & Eq); [intros r' Hr'; apply H; by right|]. exists (e :: es). cbn [collect_ok]. rewrite He, Hes. cbn [rbind].
  split; [done|]. cbn. by rewrite Eq, (entry_of_row b _ _ He).
Qed.

Lemma entry_rows_elem b d r : r ∈ entry_rows d b -> exists c, r ∈ after d b c.
Proof.
  unfold entry_rows. destruct (is_empty _); rewrite rows_after_take; intros H; [exists []|exists (at_cursor b d)]; by apply elem_of_take in H as (i & H%list_elem_of_lookup_2 & _).
Qed.

Lemma entries_readable b d : readable b d -> exists es, entries d b = Ok es /\ (fun e => (en_key e, en_raw e)) <$> es = entry_rows d b.
Proof. intros Hr. apply collect_rows_of. intros x (c & Hx)%entry_rows_elem. apply elem_of_after in Hx as (Hm & Hq & _). by apply Hr. Qed.

Section step.
Context (b : list Z) (d d' : Db) (Hr : readable b d) (Ha : advanced b d d').

Lemma advanced_row r : r ∈ after d b [] -> r ∉ entry_rows d b -> meta d' !! r.1 = Some r.2.
Proof.
  intros Hin Hn. apply elem_of_after in Hin as (Hm & Hq & Hl). destruct Ha as (es & He & Hrows & _).
  destruct (entries_readable b d Hr) as (es' & He' & Eq). rewrite He in He'. injection He' as <-. destruct (Hrows r.1 Hq) as [H|[_ (e & E & Hes)%list_elem_of_fmap]].
  - unfold meta_get in H. by rewrite H.
  - exfalso. apply Hn. rewrite <- Eq. apply list_elem_of_fmap. exists e. split; [|exact Hes].
    assert ((en_key e, en_raw e) ∈ entry_rows d b) as (c & Hc)%entry_rows_elem by (rewrite <- Eq; by apply (list_elem_of_fmap_2 (fun e => (en_key e, en_raw e)))).
    apply elem_of_after in Hc as (Hm' & _). cbn in Hm'. destruct r as [k v]. cbn in *. congruence.
Qed.

Lemma advanced_sub c : after d' b c ⊆ after d b c.
Proof.
  intros r. rewrite !elem_of_after. intros (Hm & Hq & Hl). split; [|done]. destruct Ha as (es & _ & Hrows & _).
  destruct (Hrows r.1 Hq) as [H|[H _]]; unfold meta_get in H; congruence.
Qed.

Lemma advanced_readable : readable b d'.
Proof.
  intros r Hm Hq. apply Hr; [|done]. destruct Ha as (es & _ & Hrows & _). destruct (Hrows r.1 Hq) as [H|[H _]]; unfold meta_get in H; congruence.
Qed.

Lemma after_fewer c c' : after d b c ⊆ after d b c' -> (length (after d' b c) <= length (after d b c'))%nat.
Proof.
  intros H. apply submseteq_length, NoDup_submseteq; [apply NoDup_after|]. intros x Hx. apply H. by apply advanced_sub.
Qed.

(** What lies behind the cursor was behind [c] and not offered. *)
Lemma advanced_after c : entry_rows d b = take 100 (after d b c) -> after d b c <> [] -> after d b (at_cursor b d') = drop 100 (after d b c).
Proof.
  intros E Hne. destruct (exists_last (l := take 100 (after d b c))) as (l & r & El); [by destruct (after d b c)|].
  destruct Ha as (es & He & _ & Hc). destruct (entries_readable b d Hr) as (es' & He' & Eq). rewrite He in He'. injection He' as <-. rewrite E, El in Eq.
  destruct es as [|e es]; [by destruct l|]. rewrite (Hc e es eq_refl).
  destruct (exists_last (l := e :: es)) as (l' & x & Ex); [done|]. rewrite Ex in *. rewrite List.last_last.
  rewrite fmap_app in Eq. apply app_inj_tail in Eq as [_ Er].
  change (en_key x) with (en_key x, en_raw x).1. rewrite Er.
  apply (after_drop d b c l). rewrite <- (take_drop 100 (after d b c)) at 1. by rewrite El, <- app_assoc.
Qed.

Lemma advanced_ahead c r : entry_rows d b = take 100 (after d b c) -> r ∈ after d b c -> r ∉ entry_rows d b -> r ∈ after d b [] ->
  r ∈ after d' b (at_cursor b d') /\ (length (after d' b (at_cursor b d')) < length (after d b c))%nat.
Proof.
  intros E Hin Hn H0. assert (after d b c <> []) as Hne by (intros E'; rewrite E' in Hin; by apply elem_of_nil in Hin).
  pose proof (advanced_after c E Hne) as Hd. split.
  - assert (r ∈ after d b (at_cursor b d')) as Hx.
    { rewrite Hd. rewrite <- (take_drop 100 (after d b c)), <- E in Hin. by apply elem_of_app in Hin as [?|?]. }
    apply elem_of_after in Hx as (_ & Hq & Hl). apply elem_of_after. split; [by apply advanced_row|done].
  - apply (Nat.le_lt_trans _ (length (after d b (at_cursor b d')))); [by apply after_fewer|]. rewrite Hd, length_drop.
    destruct (after d b c); [done|]. cbn [length]. lia.
Qed.

End step.

Section rounds.
Context (cr : CloudCredentialsV1) (pk : list Z).
Notation b := (ChargePush.binding cr).

(** Attempts one after the other: each finds the tables the one before left, and
    runs alone in any world otherwise, with any cloud and network. It neither ends
    the process nor finds the generation counter exhausted. *)
Fixpoint attempts (d : Db) (ws : list World) : Prop :=
  match ws with
  | [] => True
  | w :: ws =>
      tables (disk w) = d /\ alone b w /\ (retry cr pk w).1 <> Dead /\ (retry cr pk w).1 <> Throw EGenerationRange /\
      attempts (tables (disk (retry cr pk w).2)) ws
  end.

(** One of the attempts starts with the row among its entries. *)
Definition offered (r : Row) (ws : list World) : Prop := exists w, w ∈ ws /\ r ∈ entry_rows (tables (disk w)) b.

Lemma attempts_cons d w ws : readable b d -> attempts d (w :: ws) ->
  exists d', tables (disk w) = d /\ advanced b d d' /\ readable b d' /\ attempts d' ws.
Proof.
  intros Hr (E & Ha & H1 & H2 & H3). exists (tables (disk (retry cr pk w).2)). split; [done|]. subst d.
  destruct (entries_readable b _ Hr) as (es & He & _). pose proof (retry_advances cr pk w es Ha He H1 H2) as H.
  split; [done|]. split; [by eapply advanced_readable|done].
Qed.

Lemma entry_rows_ahead d : after d b (at_cursor b d) <> [] -> entry_rows d b = take 100 (after d b (at_cursor b d)).
Proof. intros H. unfold entry_rows. rewrite !rows_after_take. fold (at_cursor b d). by destruct (after d b (at_cursor b d)). Qed.

Lemma entry_rows_wrap d : after d b (at_cursor b d) = [] -> entry_rows d b = take 100 (after d b []).
Proof. intros H. unfold entry_rows. rewrite !rows_after_take. fold (at_cursor b d). by rewrite H. Qed.

Lemma after_from_start d c r : r ∈ after d b c -> r ∈ after d b [].
Proof.
  rewrite !elem_of_after. intros (H1 & H2 & H3). split; [done|]. split; [done|]. apply str_lt_spec. split; [by destruct r.1|].
  apply str_lt_spec in H3 as [H3 H4]. intros E. rewrite <- E in *. apply H4. by destruct c.
Qed.

(** A row ahead of the cursor is reached. *)
Lemma reached_ahead r ws : forall d, readable b d -> attempts d ws -> r ∈ after d b (at_cursor b d) ->
  (length (after d b (at_cursor b d)) <= length ws)%nat -> offered r ws.
Proof.
  induction ws as [|w ws IH]; intros d Hr Hat Hin Hl.
  { cbn [length] in Hl. destruct (after d b _); [by apply elem_of_nil in Hin|cbn [length] in Hl; lia]. }
  destruct (attempts_cons d w ws Hr Hat) as (d' & E & Ha & Hr' & Hat').
  destruct (decide (r ∈ entry_rows d b)) as [Ho|Ho]; [exists w; rewrite E; by split; [left|]|].
  assert (after d b (at_cursor b d) <> []) as Hne by (intros E'; rewrite E' in Hin; by apply elem_of_nil in Hin).
  destruct (advanced_ahead b d d' Hr Ha (at_cursor b d) r (entry_rows_ahead d Hne) Hin Ho (after_from_start _ _ _ Hin)) as [H1 H2].
  cbn [length] in Hl. destruct (IH d' Hr' Hat' H1 ltac:(lia)) as (w' & Hw' & H'). exists w'. split; [by right|done].
Qed.

(** Any row is reached, around the end of the queue if need be. *)
Lemma row_reached r ws : forall d, readable b d -> attempts d ws -> r ∈ after d b [] ->
  (length (after d b (at_cursor b d)) + length (after d b []) <= length ws)%nat -> offered r ws.
Proof.
  induction ws as [|w ws IH]; intros d Hr Hat Hin Hl.
  { cbn [length] in Hl. destruct (after d b []); [by apply elem_of_nil in Hin|cbn [length] in Hl; lia]. }
  destruct (attempts_cons d w ws Hr Hat) as (d' & E & Ha & Hr' & Hat').
  destruct (decide (r ∈ entry_rows d b)) as [Ho|Ho]; [exists w; rewrite E; by split; [left|]|].
  enough (offered r ws) as (w' & Hw' & H') by (exists w'; by split; [right|]). cbn [length] in Hl.
  destruct (after d b (at_cursor b d)) as [|x rest] eqn:Ec.
  - destruct (advanced_ahead b d d' Hr Ha [] r (entry_rows_wrap d Ec) Hin Ho Hin) as [H1 H2].
    apply (reached_ahead r ws d'); [done|done|done|]. cbn [length] in Hl. lia.
  - apply (IH d'); [done|done| |].
    + pose proof (advanced_row b d d' Hr Ha r Hin Ho). apply elem_of_after in Hin as (_ & Hq & Hlt). by apply elem_of_after.
    + assert (after d b (at_cursor b d) <> []) as Hne by (by rewrite Ec).
      pose proof (advanced_after b d d' Hr Ha (at_cursor b d) (entry_rows_ahead d Hne) Hne) as Hd.
      pose proof (after_fewer b d d' Ha (at_cursor b d') (at_cursor b d')) as H1. rewrite Hd, Ec, length_drop in H1.
      pose proof (after_fewer b d d' Ha [] []) as H2. cbn [length] in *. specialize (H1 ltac:(done)). specialize (H2 ltac:(done)). lia.
Qed.

Lemma length_after d c : (length (after d b c) <= count d b)%nat.
Proof.
  unfold after, count. rewrite length_sort_by.
  change (fun r : Row => in_range (prefix b) (prefix b ++ lit "~") r.1) with (fun r : Row => in_queue b r.1).
  induction (map_to_list (meta d)) as [|x l IH]; [done|]. cbn [List.filter].
  destruct (in_queue b x.1); cbn [andb]; [|done]. destruct (str_lt c x.1); cbn [length]; lia.
Qed.

Lemma attempts_readable d ws w : readable b d -> attempts d ws -> w ∈ ws -> readable b (tables (disk w)).
Proof.
  revert d. induction ws as [|w' ws IH]; intros d Hr Hat Hin; [by apply elem_of_nil in Hin|].
  destruct (attempts_cons d w' ws Hr Hat) as (d' & E & _ & Hr' & Hat'). apply elem_of_cons in Hin as [->|Hin]; [by rewrite E|by apply (IH d')].
Qed.

(** C36: no record starves. Let every record of the queue be readable. Over any
    sequence of twice as many attempts of [retry] as records are kept, whatever
    the network, the cloud and the outcome of each, every record kept at the
    start is among the entries of one of the attempts: failing records, a cloud
    that cannot be reached, or answers that cannot be used do not keep the first
    hundred in front for ever. The attempts run alone on the device, and none ends
    by the death of the process or by an exhausted generation counter. *)
Theorem retry_offered d ws t v : readable b d -> attempts d ws -> (2 * count d b <= length ws)%nat ->
  meta_get d (key b t) = Some v ->
  exists w es e, w ∈ ws /\ entries (tables (disk w)) b = Ok es /\ e ∈ es /\ en_key e = key b t /\ en_raw e = v.
Proof.
  intros Hr Hat Hl Hv.
  assert ((key b t, v) ∈ after d b []) as Hin.
  { apply elem_of_after. split; [done|]. split; [apply key_in_range|]. apply str_lt_spec. split; [done|]. unfold key, prefix. by destruct b. }
  pose proof (length_after d (at_cursor b d)). pose proof (length_after d []).
  destruct (row_reached (key b t, v) ws d Hr Hat Hin ltac:(lia)) as (w & Hw & Hrow).
  destruct (entries_readable b _ (attempts_readable d ws w Hr Hat Hw)) as (es & Hes & Eq).
  rewrite <- Eq in Hrow. apply list_elem_of_fmap in Hrow as (e & E & He). injection E as Ek Ev.
  exists w, es, e. by rewrite <- Ek, <- Ev.
Qed.

End rounds.

End fair.
