(* ===== verification/IncomingDemo.v ===== *)
(** * A concrete feed, and a run

    A cloud that keeps a list of records and serves pages of them, against which
    the theorems of [IncomingSpec] are applied. *)

From Stdlib Require Import ZArith Lia.
From stdpp Require Import base gmap list.
From S2P Require Import Prelude Effects Str Json MutableQueue CloudCrypto CloudCryptoSpec ChargePush ChargePushSpec IncomingQueue IncomingPull IncomingSpec IncomingFair.

Import Json CloudCrypto Toy MutableQueue IncomingQueue IncomingPull.
Open Scope Z_scope.

Module IncomingDemo.

Notation str := (list Z) (only parsing).
Notation put := ChargePushSpec.Demo.put.
Notation put_option := ChargePushSpec.Demo.put_option.
Notation take_str := ChargePushSpec.Demo.get.
Notation take_option := ChargePushSpec.Demo.get_option.

(** ** Encodings *)

Definition kind_at (z : Z) : Kind := if z =? 0 then Charge else if z =? 1 then RateConfig else Route.

(** A position as text: revisions and kinds as digits. *)
Definition order_text (o : Order) : str := let '(r, k, i) := o in (r + 48) :: (kind_index k + 48) :: i.
Definition text_order (l : str) : Order := match l with r :: k :: i => (r - 48, kind_at (k - 48), i) | _ => (0, Charge, []) end.

Lemma order_text_round o : text_order (order_text o) = o.
Proof. destruct o as [[r k] i]. cbn. rewrite !Z.add_simpl_r. by destruct k. Qed.

#[export] Instance demo_wire : ChargePush.Wire := {|
  ChargePush.creds_vec c := pi_id c;
  ChargePush.url_encode x := List.filter (fun b => negb (b =? 58)) x;
  ChargePush.value_vec := @ChargePush.value_vec ChargePushSpec.Demo.demo_wire;
  ChargePush.value_of := @ChargePush.value_of ChargePushSpec.Demo.demo_wire;
  ChargePush.identity_vec := @ChargePush.identity_vec ChargePushSpec.Demo.demo_wire;
  ChargePush.pending_raw := @ChargePush.pending_raw ChargePushSpec.Demo.demo_wire;
  ChargePush.pending_of := @ChargePush.pending_of ChargePushSpec.Demo.demo_wire
|}.

#[export] Instance demo_feed_wire : FeedWire := {|
  checkpoint_raw c := cp_version c :: put (cp_binding c) ++ put (cp_revision c) ++ [];
  checkpoint_of l := match l with
    | v :: t => '(b, t) ← take_str t; '(r, _) ← take_str t; Some {| cp_version := v; cp_binding := b; cp_revision := r |}
    | [] => None
    end;
  saved_raw s := let w := sw_walk s in
    sw_version s :: put (sw_binding s) ++ put_option (sw_base s) ++ put_option (since w) ++ put_option (checkpoint w)
    ++ put_option (cursor w) ++ put_option (order_text <$> last w) ++ [];
  saved_of l := match l with
    | v :: t => '(b, t) ← take_str t; '(base, t) ← take_option t; '(si, t) ← take_option t; '(ch, t) ← take_option t;
        '(cu, t) ← take_option t; '(la, _) ← take_option t;
        Some {| sw_version := v; sw_binding := b; sw_base := base; sw_walk := mkWalk si ch cu (text_order <$> la) |}
    | [] => None
    end;
  retry_raw r := rt_version r :: kind_index (tg_kind (rt_target r)) :: put (rt_binding r) ++ put (tg_id (rt_target r)) ++ put (rt_nonce r) ++ [];
  retry_of l := match l with
    | v :: k :: t => '(b, t) ← take_str t; '(i, t) ← take_str t; '(n, _) ← take_str t;
        Some {| rt_version := v; rt_binding := b; rt_target := mkTarget (kind_at k) i; rt_nonce := n |}
    | _ => None
    end
|}.

#[export] Instance demo_wire_laws : FeedWireLaws.
Proof.
  split.
  - intros [v b r]. cbn [checkpoint_raw checkpoint_of demo_feed_wire cp_version cp_binding cp_revision].
    by rewrite !ChargePushSpec.Demo.get_put; cbn [base.mbind option_bind]; rewrite ?ChargePushSpec.Demo.get_put.
  - intros [v b base [si ch cu la]]. cbn [saved_raw saved_of demo_feed_wire sw_version sw_binding sw_base sw_walk since checkpoint cursor last].
    repeat (rewrite ?ChargePushSpec.Demo.get_put, ?ChargePushSpec.Demo.get_put_option; cbn [base.mbind option_bind]).
    repeat f_equal. destruct la as [o|]; [|done]. cbn. by rewrite order_text_round.
  - intros x H%list_elem_of_In%filter_In. by destruct H.
Qed.

(** ** The cloud *)

Record Rec := mkRec { r_target : Target; r_rev : Z; r_key : str; r_ct : str }.
Notation Records := (list Rec).

Definition look (c : Records) (t : Target) : option Rec := List.find (fun x => bool_decide (r_target x = t)) c.
Definition top (c : Records) : Z := foldr (fun x n => Z.max (r_rev x) n) 0 c.

(** The parts of a path. *)
Definition BASE : str := lit "/api/pi/sync/changes/v2?limit=200".
Definition cursor_part (l : str) : option str := strip_prefix (lit "&cursor=") l.
Fixpoint digits (l : str) : str * str :=
  match l with b :: t => if is_digit b then let (x, y) := digits t in (b :: x, y) else ([], l) | [] => ([], []) end.
Definition path_parts (p : str) : option str * option str :=
  let rest := drop (length BASE) p in
  match strip_prefix (lit "&since=") rest with
  | Some l => let (s, l) := digits l in (Some s, cursor_part l)
  | None => (None, cursor_part rest)
  end.

Lemma digits_app s t : forallb is_digit s = true -> match t with b :: _ => is_digit b = false | [] => True end -> digits (s ++ t) = (s, t).
Proof.
  intros Hs Ht. induction s as [|b s IH]; cbn [app digits].
  - destruct t as [|x t]; [done|]. cbn. by rewrite Ht.
  - cbn in Hs. apply andb_true_iff in Hs as [-> Hs]. by rewrite IH.
Qed.

Lemma revision_digits s n : revision s = Ok n -> forallb is_digit s = true.
Proof. unfold revision. destruct (forallb is_digit s); [done|]. by rewrite andb_false_r. Qed.

Lemma path_parts_ok w : match since w with Some s => exists n, revision s = Ok n | None => True end ->
  path_parts (path w) = (since w, cursor w).
Proof.
  unfold path_parts, path. fold BASE. rewrite drop_app_length. destruct (since w) as [s|].
  - intros (n & Hn%revision_digits). rewrite <- app_assoc, strip_prefix_app, digits_app; [|done|by destruct (cursor w)].
    destruct (cursor w) as [cu|]; [|done]. unfold cursor_part. by rewrite strip_prefix_app.
  - intros _. cbn [app]. destruct (cursor w) as [cu|]; [|done]. change (strip_prefix (lit "&since=") (lit "&cursor=" ++ cu)) with (@None str).
    unfold cursor_part. by rewrite strip_prefix_app.
Qed.

Definition rank (since : option str) (x : Rec) : Order := order_of since (r_rev x) (r_target x).

(** The records behind a cursor, after a checkpoint; a page ends at the first. *)
Definition listed (c : Records) (since cursor : option str) : Records :=
  List.filter (fun x =>
    match since with Some s => match revision s with Ok n => n <? r_rev x | Err _ => false end | None => true end
    && match cursor with Some cu => order_lt (text_order cu) (rank since x) | None => true end) c.

Definition item_of (x : Rec) : Item :=
  mkItem (tg_kind (r_target x)) (tg_id (r_target x)) (print_i64 (r_rev x)) 5 (Some (r_ct x)) (Some (r_key x)).

Definition page_of (c : Records) (since cursor : option str) : Page :=
  let rows := listed c since cursor in
  match rows with
  | [] => mkPage true [] None 2 (print_i64 (top c))
  | x :: _ =>
      let p := rank since x in
      mkPage true (item_of <$> List.filter (fun y => negb (order_lt p (rank since y))) rows)
        (if existsb (fun y => order_lt p (rank since y)) rows then Some (order_text p) else None) 2 (print_i64 (top c))
  end.

Definition row_of (c : Records) (q : str * str) : Value :=
  let head_ := <[lit "kind" := String q.1]> (<[lit "id" := String q.2]> ∅) in
  match List.find (fun x => bool_decide (name (tg_kind (r_target x)) = q.1) && bool_decide (tg_id (r_target x) = q.2)) c with
  | Some x => Object (<[lit "status" := String (lit "ok")]> (<[lit "updatedAtMs" := Num (PosInt 5)]> (<[lit "ciphertext" := String (r_ct x)]>
      (<[lit "wrappedKey" := String (r_key x)]> (<[lit "recordVersion" := String (replicate 64 98)]> head_)))))
  | None => Object (<[lit "status" := String (lit "not_found")]> head_)
  end.

#[export] Instance demo_feed : Feed := {|
  Cloud := Records;
  serve_page c cr p := if (0 <=? top c) && (top c <=? I64_MAX) then let (si, cu) := path_parts p in PageOk (Some (page_of c si cu)) else PageRejected;
  serve_targets c cr q := ChargePush.mkReply true (Some (Object (<[lit "ok" := Bool true]> (<[lit "writeProtocol" := Num (PosInt 3)]>
    {[ lit "items" := Array (row_of c <$> tq_items q) ]}))))
|}.

#[export] Instance demo_revisions : Revisions := {| rev_of c _ t := r_rev <$> look (c : Records) t; head_of c _ := top (c : Records) |}.

#[export] Instance demo_local : Local := {|
  Side := unit; has_rates := false; store_doc s d _ _ := (true, (s, d)); Projection := unit;
  prepare _ _ _ _ _ _ := Ok None; apply_projection s d _ := (true, (s, d))
|}.

#[export] Instance demo_local_laws : LocalLaws.
Proof. by split. Qed.

Lemma page_revision c si cu : sync_revision (page_of c si cu) = print_i64 (top c).
Proof. unfold page_of. by destruct (listed c si cu). Qed.

Lemma page_listed c si cu x : x ∈ listed c si cu ->
  (forall cu', next_cursor (page_of c si cu) = Some cu' -> order_lt (text_order cu') (rank si x) = false) ->
  item_of x ∈ pg_items (page_of c si cu).
Proof.
  intros Hx Hn. unfold page_of in *. destruct (listed c si cu) as [|y rows]; [by apply elem_of_nil in Hx|].
  cbn [pg_items next_cursor] in *. apply list_elem_of_fmap_2. apply list_elem_of_In, filter_In. split; [by apply list_elem_of_In|].
  apply negb_true_iff. destruct (existsb _ _) eqn:E.
  - specialize (Hn _ eq_refl). by rewrite order_text_round in Hn.
  - destruct (order_lt (rank si y) (rank si x)) eqn:E'; [|done]. rewrite <- E. symmetry. apply existsb_exists. exists x.
    split; [by apply list_elem_of_In|done].
Qed.

Lemma look_elem c t x : look c t = Some x -> x ∈ c /\ r_target x = t.
Proof. intros H. apply find_some in H as [H1 H2]. split; [by apply list_elem_of_In|by apply bool_decide_eq_true in H2]. Qed.

Lemma index_eq m k v : Json.index (Object (<[k := v]> m)) k = v.
Proof. unfold Json.index. by rewrite lookup_insert_eq. Qed.
Lemma index_ne m k k' v : k' <> k -> Json.index (Object (<[k' := v]> m)) k = Json.index (Object m) k.
Proof. intros H. unfold Json.index. by rewrite lookup_insert_ne. Qed.

#[export] Instance demo_laws : FeedLaws.
Proof.
  refine {| place := text_order |}.
  - intros c cr w p n Hp Hn. cbn [serve_page demo_feed] in Hp. destruct (_ && _) eqn:E; [|done]. destruct (path_parts _) as [si cu].
    injection Hp as <-. rewrite page_revision in Hn. apply andb_true_iff in E as [E1%Z.leb_le E2%Z.leb_le].
    unfold revision in Hn. destruct (_ && _); [|done]. rewrite parse_print_i64 in Hn by (unfold I64_MAX in *; lia). injection Hn as <-. cbn. lia.
  - intros c cr w p n t r Hp Hn Hr _ Hsc Hafter Hnext. cbn [serve_page demo_feed] in Hp. destruct (_ && _) eqn:E; [|done].
    rewrite path_parts_ok in Hp by (destruct (since w); [destruct Hsc as (m & Hm & _); by exists m|done]). injection Hp as <-.
    cbn [rev_of demo_revisions] in Hr. apply fmap_Some in Hr as (x & Hx & ->). apply look_elem in Hx as [Hin <-].
    assert (item_of x ∈ pg_items (page_of c (since w) (cursor w))) as H; [|].
    { apply page_listed; [|exact Hnext]. apply list_elem_of_In, filter_In. split; [by apply list_elem_of_In|]. apply andb_true_iff. split.
      - destruct (since w) as [s|]; [|done]. destruct Hsc as (m & Hm & Hlt). rewrite Hm. by apply Z.ltb_lt.
      - destruct (cursor w) as [cu|]; [|done]. by apply Hafter. }
    apply (list_elem_of_fmap_2 target) in H. by destruct x as [[k i] ? ? ?].
  - intros c cr q v rows row t [= <-] Hrows Hin Hk Hi Hst.
    assert (rows = row_of c <$> tq_items q) as -> by (rewrite !index_ne in Hrows by (vm_compute; discriminate); unfold Json.index in Hrows; rewrite lookup_singleton_eq in Hrows; by injection Hrows as <-).
    apply list_elem_of_fmap in Hin as (x & -> & _). unfold row_of in *. cbn [rev_of demo_revisions].
    destruct (look c t) as [y|] eqn:El; [exfalso|done]. apply look_elem in El as [Hy <-].
    destruct (List.find _ c) as [z|] eqn:Ef.
    + rewrite index_eq in Hst. revert Hst. vm_compute. discriminate.
    + assert (name (tg_kind (r_target y)) = x.1 /\ tg_id (r_target y) = x.2) as [E1 E2].
      { rewrite index_ne, index_eq in Hk by (vm_compute; discriminate). rewrite !index_ne, index_eq in Hi by (vm_compute; discriminate).
        by injection Hk as ->; injection Hi as ->. }
      apply list_elem_of_In, (List.find_none _ _ Ef) in Hy. by rewrite E1, E2, !bool_decide_true in Hy.
Defined.

(** ** A run

    Two charges changed. The first pull applies one and dies; the next one
    resumes behind it and cannot read the other, which is kept for a retry. The
    other charge is then repaired, and the third pull applies it. *)

Definition cr : CloudCredentialsV1 := ChargePushSpec.Demo.cr.
Definition key32 : list Z := ChargePushSpec.Demo.key32.
Definition b0 : str := ChargePush.binding cr.
Definition tA : Target := mkTarget Charge (replicate 64 97).
Definition tB : Target := mkTarget Charge (replicate 64 98).
Definition recA : Rec := mkRec tA 1 ChargePushSpec.Demo.wkey (ChargePushSpec.Demo.sealed_doc 3 1).
Definition recB (rev doc : Z) : Rec := mkRec tB rev ChargePushSpec.Demo.wkey (ChargePushSpec.Demo.sealed_doc 4 doc).
Definition c0 : Records := [recA; recB 2 9].
Definition c1 : Records := [recA; recB 3 2].

Definition uploads : Db :=
  charge_upload_mark (charge_upload_mark empty_db 1700 (tg_id tA) ChargePushSpec.Demo.wkey 5) 1800 (tg_id tB) ChargePushSpec.Demo.wkey 5.
Definition start_disk : Disk := mkDisk uploads ∅.
Definition world (d : Disk) (k : list Disk) (c : Records) (m : list Move) : World :=
  mkWorld d k (Some cr) false c tt m [] [] (Some <$> replicate 5 (replicate 16 7)) [].
Definition idle : Move := mkMove (fun d => d) (fun c => c) (fun c => c) (fun s => s) false.
Definition dies : Move := mkMove (fun d => d) (fun c => c) (fun c => c) (fun s => s) true.

Definition w0 : World := world start_disk [start_disk] c0 (replicate 20 idle ++ [dies]).
Definition w1 : World := (pull_changes 5 cr key32 w0).2.
Definition w2 : World := world (disk w1) [disk w1] c0 [].
Definition w3 : World := (pull_changes 5 cr key32 w2).2.
Definition w4 : World := world (disk w3) (kept w3 ++ [disk w3]) c1 [].
Definition w5 : World := (pull_changes 5 cr key32 w4).2.

Lemma quiet_honest m : m ∈ replicate 20 idle ++ [dies] -> honest m.
Proof.
  intros Hm. assert (m = idle \/ m = dies) as Hi.
  { apply elem_of_app in Hm as [Hm|Hm%list_elem_of_singleton]; [left|by right]. by apply elem_of_replicate in Hm as [-> _]. }
  destruct Hi as [-> | ->]; (split; [done|intros c; apply cloud_le_refl]).
Qed.

Lemma alone_honest m : m ∈ @nil Move -> honest m.
Proof. by intros H%elem_of_nil. Qed.

Lemma repaired : cloud_le (c0 : Cloud) c1.
Proof.
  intros b. split; [vm_compute; discriminate|]. intros t r H. cbn [rev_of demo_revisions look List.find c1] in H.
  destruct (bool_decide (r_target recA = t)) eqn:EA.
  - left. cbn [rev_of demo_revisions look List.find c0]. by rewrite EA.
  - right. change (bool_decide (r_target (recB 3 2) = t)) with (bool_decide (tB = t)) in H. destruct (bool_decide (tB = t)); [|done].
    injection H as <-. vm_compute. reflexivity.
Qed.

Lemma resumed_reach w : reach w -> cloud w = c0 -> reach (world (disk w) [disk w] c0 []).
Proof.
  intros Hr Hc. apply (reach_restart w); [done|rewrite Hc; apply cloud_le_refl|exact (iv_disk w (reach_keeps w Hr))|done|apply alone_honest].
Qed.

Lemma repaired_reach w : reach w -> cloud w = c0 -> reach (world (disk w) (kept w ++ [disk w]) c1 []).
Proof. intros Hr Hc. apply (reach_others w); [done|rewrite Hc; apply repaired|done|done|done|apply alone_honest]. Qed.

Lemma run1_reach : reach w1.
Proof. apply reach_pull, reach_start; [intros k _; reflexivity|done|apply quiet_honest]. Qed.

Lemma w1_cloud : cloud w1 = c0.
Proof. vm_compute. reflexivity. Qed.

Lemma run2_reach : reach w2.
Proof. apply resumed_reach; [apply run1_reach|apply w1_cloud]. Qed.

Lemma run3_reach : reach w3.
Proof. apply reach_pull, run2_reach. Qed.

Lemma run4_reach : reach w4.
Proof. apply repaired_reach; [apply run3_reach|vm_compute; reflexivity]. Qed.

Lemma pair_eq {A B} (p : A * B) a : p.1 = a -> p = (a, p.2).
Proof. destruct p. cbn. by intros ->. Qed.

(** What the second pull could not read is kept. *)
Lemma no_change_lost_witness : dealt (disk w3) b0 tB 2 /\ seen (disk w3) !! (b0, tB) = None.
Proof.
  split; [|vm_compute; reflexivity].
  apply (no_change_lost w3 cr (lit "2") 2 tB 2 run3_reach); [vm_compute; reflexivity|vm_compute; reflexivity|vm_compute; reflexivity|lia].
Defined.

(** After the third everything is applied. *)
Lemma pull_complete_witness : exists s n, since_of b0 (meta_get (tables (disk w5)) CHECKPOINT_KEY) = Some s /\ revision s = Ok n /\
  forall t r, rev_of (cloud w5) b0 t = Some r -> r <= n -> seen_to (disk w5) b0 t r.
Proof.
  refine (pull_complete w4 5 cr key32 w5 run4_reach (pair_eq _ _ _)). vm_compute. reflexivity.
Defined.

Example w5_tags : get_charge_tags (tables (disk w5)) 1700 = [lit "A"] /\ get_charge_tags (tables (disk w5)) 1800 = [lit "B"].
Proof. vm_compute. done. Qed.

(** ** Kept records

    Attempts without a network, on three records, and on a hundred and one. *)
Definition target_no (n : nat) : Target := mkTarget Charge (replicate 61 97 ++ [48 + Z.of_nat (n / 100); 48 + Z.of_nat (n / 10 mod 10); 48 + Z.of_nat (n mod 10)]).
Definition queue_of (n : nat) : Db :=
  match record (Some (replicate 16 7)) b0 (target_no <$> seq 0 n) [] empty_db with Ok d => d | Err _ => empty_db end.

#[export] Instance demo_queue_laws : QueueLaws.
Proof. by split. Qed.

Definition offline (d : Db) : World := mkWorld (mkDisk d ∅) [] (Some cr) false c0 tt [] [false] [] [] [].
Fixpoint offline_runs (n : nat) (d : Db) : list World :=
  match n with O => [] | S n => offline d :: offline_runs n (tables (disk (retry cr key32 (offline d)).2)) end.

Lemma readable_check d b : forallb (fun r : Row => negb (in_queue b r.1) || match entry_of b r with Ok _ => true | Err _ => false end)
  (map_to_list (meta d)) = true -> readable b d.
Proof.
  intros H r Hm Hq. rewrite forallb_forall in H. specialize (H r). rewrite Hq in H. destruct (entry_of b r) as [e|]; [by exists e|].
  discriminate H. apply list_elem_of_In. destruct r. by apply elem_of_map_to_list.
Qed.

Lemma offline_alone d : alone b0 (offline d).
Proof. by split. Qed.

(** Each of these attempts fails for want of a network. *)
Fixpoint all_fail (n : nat) (d : Db) : bool :=
  match n with
  | O => true
  | S n => match retry cr key32 (offline d) with (Throw EHttp, w) => all_fail n (tables (disk w)) | _ => false end
  end.

Lemma offline_attempts n : forall d, all_fail n d = true -> attempts cr key32 d (offline_runs n d).
Proof.
  induction n as [|n IH]; intros d H; [done|]. cbn [all_fail offline_runs attempts] in *. split; [done|]. split; [apply offline_alone|].
  destruct (retry cr key32 (offline d)) as [[|[]|] w]; try discriminate H. split; [done|]. split; [done|]. by apply IH.
Qed.

Lemma retry_offered_witness : exists w es e, w ∈ offline_runs 6 (queue_of 3) /\ entries (tables (disk w)) b0 = Ok es /\
  e ∈ es /\ en_key e = key b0 (target_no 2) /\ en_raw e = default [] (meta_get (queue_of 3) (key b0 (target_no 2))).
Proof.
  apply (retry_offered cr key32 (queue_of 3) (offline_runs 6 (queue_of 3)) (target_no 2)).
  - apply readable_check. vm_compute. reflexivity.
  - apply offline_attempts. vm_compute. reflexivity.
  - vm_compute. apply le_n.
  - vm_compute. reflexivity.
Defined.

(** The last of a hundred and one is offered after a failed attempt. *)
Example last_hidden : key b0 (target_no 100) ∉ (entry_rows (queue_of 101) b0).*1.
Proof. apply (bool_decide_unpack _). vm_compute. exact I. Qed.
Example last_next : (entry_rows (tables (disk (retry cr key32 (offline (queue_of 101))).2)) b0).*1 = [key b0 (target_no 100)].
Proof. vm_compute. reflexivity. Qed.

End IncomingDemo.
